(* ===== verification/_CoqProject ===== *)
-Q . S2P
Prelude.v
Prog.v
Guarded.v
Text.v
Chunking.v
Embedder.v
EmbeddingSlot.v
Scope.v
LongTask.v
HandBack.v
Step.v
PlanCycle.v
Plan.v
Artifact.v
Ledger.v
SqlStore.v
DraftReader.v
ToolGroups.v
Locality.v
RoleBlock.v
Delegation.v
TurnAuthority.v
Queue.v
Lane.v
Activity.v
LaneSlot.v
Booking.v
Setup.v
Elevation.v
Trimmer.v
Thought.v
Settle.v
Lend.v
GpuGate.v
Throttle.v
Runner.v
Conversation.v
Summary.v
Titles.v
Window.v
Proposal.v
Extraction.v
Open.v
Firing.v
HandOff.v
Drafts.v
Suggestions.v
ChildPlan.v
Orchestrator.v
HelperRuns.v
