(* ===== verification/Prelude.v ===== *)
(** * Goose In A Pond: a verification library for the household assistant's core

    Goose In A Pond ("the pond") is a household assistant. Its domain is the crate
    [crates/pond-core], which does no I/O: ports are traits, and the other crates are adapters
    (SQLite in [pond-infra], MCP tools, HTTP, voice, vision, mesh, the goose agent). This
    library models the part of that domain in which the pond works on its own: long-running
    tasks, the helpers (subagents) that do their steps, what those helpers may touch, and the
    scheduling around them; the SQLite adapter that stores the tasks; the agents that start on a
    clock or an event; and what stands beside them: the activity and presence the pond observes,
    booked rides, network setup, the elevation of an administrator, what is lent to and borrowed
    from other ponds and how it is paid for, the gate of the graphics processor, what of a
    conversation reaches the model and of a reply the member; and what the pond does with its
    conversations afterwards: it stores them, sums them up, names them, reads them for what is
    worth remembering, and keeps a vector of every passage it stores; and the suggestions it makes
    by itself, which wait as drafts until the member they are for decides.

    ** How the parts interact

    A member asks for something long. [open_task] stores a task, which a planner's draft turns
    into steps ([validate_plan]); [run_order] says whose turn it is, the lane ([select_next])
    whether a background job may run at all, and [next_run] what a task needs: a plan, a step,
    an end. A step is done by a helper, started by [delegate] under the task's authority, and
    its hand-back is read ([StepOutcome::from_json]) and settled ([settle_run]) into the step
    ([PlanStep::record]). All of it is kept in a [LongTaskRepository]. What runs in the
    background holds the lane's one slot, which a conversation preempts.

    An agent may also start by itself. The observer of sessions tells who arrived and left; a
    round of the activation loop matches such an event, a reading or a clock against the
    household's agents ([firings_for_event], [firings_for_clock]) and queues each firing as a
    task of one step ([queue]); once the step is done its hooks may notify, store a follow-up
    or hand the work to another agent, as one more step of the same task ([hand_on]).

    A pond lends its model to a peer and counts the tokens ([serve_request]); the borrower counts
    what it was told, and a job settles what it owes over a payment rail ([settle_one]). Computing
    with a model and setting one up pass the gate of [GpuGate].

    A ride is quoted, confirmed and followed by [RideBooking], which survives restarts. A phone
    claims the pond with a setup code, charged against a throttle. An administrator unlocks
    with the card's password or the phone's key and is admitted while not idle. Before a turn
    the history is trimmed to a budget, and the reply is filtered as it streams.

    The messages of a conversation are kept in the sessions' store. Three background services walk
    it, each with a pointer of its own in the session's row: [refresh] folds the older messages
    into the rolling summary, [retitle] gives a name once enough was said, and a pass of extraction
    ([run_pass]) reads it window by window. Memories, messages and documents get their vectors in
    the embedding slot, from the passages that [chunk] cuts, by the one model the pond has chosen;
    a change of model is a new generation.

    When the household is idle a review ([review_round]) runs a helper over what was seen of one
    member and puts what it suggests, and a second loop ([promotion_round]) turns stored reminders
    into suggestions, both into the table of drafts. The member a draft is addressed to decides it
    ([decide_proposal]) before it lapses, and what was rejected silences later suggestions.

    ** Files, and the code they model (under src/crates/)

    - Prelude: results and [?], stable sorting and comparators, maps collected from pairs,
      searches and updates in lists, reflexive transitive closure; tactics and the hint
      database [pond].
    - Prog: programs that call an interface, run alone or interleaved with others; the
      rely-guarantee rule [safe] and [simulates]. An [async fn] over a trait is a [Prog].
    - Guarded: the same for an async mutex: tasks take the lock, call while they hold it and
      release it, any of them may be dropped at an awaited call, and a call whose answer was
      lost may have been done. [discipline] is the invariant a lock's takers find and give back.
    - Text: [str] as a list of Unicode scalar values, with byte offsets, trimming, splitting
      and decimal printing, and the text helpers of pond-core/src/shared/domain/long_task.rs.
    - Chunking: context/chunking.rs, passages of a text. Embedder: models/services/active_embedder.rs
      with the table of models/domain/embedding_models.rs, its changes interleaved and abandoned.
      EmbeddingSlot: context/embedding_slot.rs over the vector index and the stores it reads.
    - Scope: [ProfileScope] and its containment (user_data/domain/profile.rs), attribution of
      a turn to a member (user_data/domain/session.rs, services/identity_resolution.rs).
    - LongTask, HandBack, Step, PlanCycle, Plan, Artifact, DraftReader: the domain of
      shared/domain/long_task.rs: the task, what a helper hands back, a step and its state
      machine, circles of waits, plans, artifacts, and the reader that makes sense of a
      planner's draft. A [&mut self] method is a function to the new value.
    - Ledger: the port shared/ports/long_task.rs, a call per method, and the in-memory store
      shared/mocks/mock_long_task.rs, which is the reference. [LongTaskRepository] is a class;
      the ledger is one instance.
    - SqlStore: pond-infra/src/sqlite_long_task.rs and its migrations, the other instance:
      rows, statements on tables, methods as programs over statements, and the proof that it
      does what the ledger does.
    - Queue: shared/services/long_task_queue.rs. Lane: user_data/services/inference_lane.rs and
      consolidation_schedule.rs. LaneSlot: the slot itself, pond-server/src/inference_lane_runner.rs.
    - RoleBlock: what starts an agent and the hooks around its runs (shared/domain/role_block.rs).
    - Activity: shared/domain/session_activity.rs, and the round of its loop in pond-server.
    - Firing, HandOff: shared/services/agent_activations.rs with pond-server/src/agent_activations.rs:
      which activations fire; the task a firing becomes, hooks, follow-ups and hand-offs.
    - GpuGate: models/domain/gpu_gate.rs, its tasks interleaved.
    - Settle: mesh/services/settlement.rs over pond-infra/src/sqlite_usage_tally.rs and
      pond-adapters-lightning. Lend: pond-adapters-mesh-inference, the lender and the borrower,
      with pond-infra/src/sqlite_credit_ledger.rs.
    - Throttle: network/services/spoken_code_limiter.rs and device_resume_throttle.rs.
    - Booking: rides/booking.rs and rides/tracking.rs with their domain (rides/domain.rs): the
      operations and a tracking pass, interleaved with each other and with restarts.
    - Setup: network/domain/setup_code.rs, setup_record.rs, claim.rs, services/setup_claim.rs,
      setup_guess_throttle.rs and what pond-infra/src/file_setup_code_store.rs writes.
    - Elevation: security/domain/admin_card.rs, services/admin_elevation.rs, the answers of
      pond-infra's card file and key table, and the command that replaces the card (pond-server).
    - Trimmer: models/services/context/turn_trimmer.rs with the budgets of context_budget.rs and
      image_history.rs. Thought: models/services/thought_filter.rs.
    - ToolGroups, Locality, Delegation, TurnAuthority: which tools a group names
      (mcp/domain/tool_group.rs), where models run
      (models/services/context/model_class.rs), what a helper is granted
      (shared/domain/orchestration.rs, role_block.rs) and the registry of live turns
      (shared/services/turn_authority.rs).
    - ChildPlan, Orchestrator, HelperRuns: pond-adapters-goose/src/orchestrator.rs, how a helper is
      run: its tools, plan and turns (with the loops of goose_agent.rs that feed them); the device
      ledger, the channel of progress, the registry of runs and [spawn], as tasks whose futures may
      be dropped; what becomes of the runs. [ChildSessionRegistry] is
      shared/services/child_sessions.rs.
    - Runner: the decisions of shared/services/long_task_runner.rs and long_task_roles.rs.
    - Conversation: pond-infra/src/sqlite_session_storage.rs, the sessions and their messages.
      Summary: shared/services/session_summary.rs. Titles: shared/services/session_title.rs and the
      two writers of a first name in shared/services/chat.rs. Window, Extraction: the walk of
      user_data/services/memory_extraction.rs and what it cuts to be read. Each service is a program
      among the other writers of the store.
    - Open: shared/services/long_task_open.rs, a program over the repository.
    - Proposal: user_data/domain/proposal.rs, the decisions of services/proactive_review.rs and
      member_attribution.rs beside it, and the summary of a schedule. Drafts: the tables of
      pond-infra/src/sqlite_proposal.rs and sqlite_draft.rs with their migrations, the permission
      of security/ports/policy.rs, security/domain/proven_device.rs and the decide route of
      pond-api/src/routes.rs. Suggestions: the review loop of pond-server/src/main.rs, and
      reminders (user_data/domain/reminder.rs, services/reminder_proposal.rs,
      pond-infra/src/sqlite_reminder.rs).

    ** What the theorems show

    - The store ([SqlStore], [Ledger]): the SQLite adapter refines the ledger, told of instants to the
      second, which is what its columns keep; whatever runs
      between its statements, it moves stored states only as the state machines allow; the
      ledger stays whole, keeps finished work, and a replan written late is refused or safe.
    - Opening ([Open]): at no moment is a chosen short answer planned, among callers that leave the
      task alone; among those that cancel, delete or run it, only once its step has failed.
    - Plans ([Plan], [PlanCycle], [Step], [DraftReader]): a checked plan is writable, acyclic,
      within budget and can start; [find_cycle] and [blocked_steps] end and are exact; keys are
      usable; a draft's fields are all accounted for and its waits matched only to its steps.
    - Lifecycles ([LongTask], [Step], [HandBack]): states move as the diagrams say, end stamps
      and attempts agree with them, finished is final; a hand-back means what was said.
    - Round trips ([LongTask], [Step], [Artifact], [Plan], [Setup], [Elevation]): what is stored
      reads back, with the two exceptions found, stated exactly; artifact pages join into the
      body; a setup code and a password read back as printed.
    - Authority ([Scope], [Delegation], [TurnAuthority], [ToolGroups], [Locality], [Runner]): a
      helper holds no more than the turn that started it, one level deep; an authority is never
      found after its turn; a long task's helpers only read; a guest is never widened.
    - Delegations ([ChildPlan], [Orchestrator], [HelperRuns]): a helper gets exactly the tools that
      are listed for its parent and granted by its spec; it is judged by its turns; on the device
      one helper works at a time, or one that its turn left behind; what is reserved of a history
      follows the helpers; a live run can be stopped; [spawn] keeps its books on every path; and no
      delegation waits for ever. Runs show an orphan working beside another session's helper, a
      dropped run that stays live, and a nudged helper taken for one that ran out.
    - Scheduling ([Runner], [Queue], [Lane]): the runner starts only what may start, finishes
      only when all is settled and waits only on live work; the line is one and keeps members'
      goals private; the lane picks one ready job by precedence and wait, with one hole.
    - The slot ([LaneSlot]): one job holds it at a time and got through the gates, and a token
      cancelled belongs to its job; a member who stays present starves a long task.
    - Activations ([RoleBlock], [Firing]): firings of one activation keep its cooldown apart; times
      missed while the switch was off do not fire; a window reads back.
    - Runs and hand-offs ([HandOff]): a queued run is never planned, whatever else calls the store, unless
      its step was run meanwhile and failed;
      every activation that may run gets a task; hand-offs end, never return to an agent of
      their chain, replans of the rest included, and find a free key.
    - Presence ([Activity]): a member is believed present exactly on the evidence that authorises
      turns; what is told of arrivals and departures rebuilds that belief.
    - The gate ([GpuGate]): a setup runs alone, and from any state every waiter can still enter.
    - Mesh ([Settle], [Lend]): what is cleared of a debt was paid, and what is paid twice has one of
      three causes, one of them shown by a run; the lender's chunks are the reply, and both sides
      count the same tokens; chunks shorter than four characters are never capped.
    - Throttles ([Throttle], [Setup]): how many attempts any window holds.
    - Rides ([Booking]): a quote is requested of the provider at most once, whatever is tapped,
      dropped or restarted; a confirmation dropped midway strands the ride.
    - Setup ([Setup]): a guess leaves the service only once charged, and guesses are spaced; the
      device told it claimed the pond is the one the record names; mistyped codes are caught.
    - Elevation ([Elevation]): a request is admitted only of a device that earned it under the
      card in force; a password is canonical; a rotation leaves a hole, shown by a run.
    - Vectors ([EmbeddingSlot], [Embedder], [Chunking]): whatever runs between the calls of a pass,
      an entry sent to the index is the vector the model it is stamped with makes of that passage,
      and a pass ends, the backlog drained when it says so; a generation names one model, whichever
      changes are interleaved or abandoned; the passages of a text cover it.
    - Conversations ([Conversation], [Summary], [Titles]): the count of later messages made in SQL
      is the one made by walking the history; while messages are only added the summary is one
      fold of the conversation up to its pointer, each message once and in order; a name a person
      gave stands, and what a model answers becomes a name or nothing. Runs show what an edit, a
      rename during a pass and a failed read break.
    - Extraction ([Window], [Extraction]): a window is the longest stretch that fits and ends on a
      reply; the walk leaves nothing behind it but for stated reasons; no conversation is mined
      under another's name, and a pass keeps to its calls. Runs show a conversation skipped for
      ever, one that blocks the others, messages read twice, and after an edit in the middle of a pass
      messages never read.
    - Suggestions ([Proposal], [Drafts], [Suggestions]): what is read of a review's answer keeps
      its bounds; a proposal reads back as it was put until it is gone; only the member addressed
      decides it, and approves it only in time; a review is about one member; at most six
      suggestions are made in a day while the two loops take turns and the clock does not go back.
      Runs show nine when the loops overlap, a rejection overwritten by an approval, a removed
      member's suggestion approved, and reminders of nobody that hold up the rest.
    - The conversation ([Trimmer], [Thought]): the newest whole turns that fit are kept; a tool
      result is cut again by every trim; how a reply is cut into chunks does not change what is
      shown, unless what could begin a sentinel is followed by another [<]; three rows of the table of tags are dead, and a reply that uses one is lost.

    ** Conventions, bounds and fuel

    Unsigned integers are [N] with their saturation or range check written out; instants are [Z]
    nanoseconds and durations [N] nanoseconds. A [HashMap] is a [gmap], an [IndexMap] or a JSON
    object a list of pairs in order. Some recursions carry fuel, and a theorem says each has
    enough: [PlanCycle.visit] with one more than the number of steps ([find_cycle_correct]),
    [Plan.blocked_loop] likewise ([blocked_steps_correct]), [Text.dec_fuel] with one more
    than the binary logarithm ([dec_undec]), [Trimmer.drop_turns] with the number of messages
    ([drop_turns_settles]), [Thought.push_loop] with the length of the buffer ([push_spec]),
    [Thought.replace_fuel] and the loops of [strip_block] with that of the text
    ([replace_fuel_enough], [drop_orphans_enough], [drop_blocks_enough]), and
    [TurnAuthority.evict] with the length of the
    queue it shortens ([evict_consistent]), [HandOff.suffix_loop] with one more than the number
    of steps ([hand_off_key_is_free]), [Chunking.chunk_loop] with one more than the bytes of the
    text ([chunks_cover_the_text]), and [EmbeddingSlot.walk_corpus] with more than twice the rows it
    can be shown ([pass_ends]). [HandOff.chain_loop] stops after as many turns as there are
    steps, as the code does, and [Lend.serve_attempts] after its two. A mutex or a [BEGIN IMMEDIATE] transaction makes
    its body one step; where the guard of a mutex is
    held across calls ([Guarded], [Setup], [Elevation]) every call is a step of its own. A [tokio] semaphore is its
    free permits, its waiters served in any order; guards released by [Drop] are what a task holds
    ([Orchestrator.Held]), and the engine answers anything. Code outside src/ is a parameter: [uuid]'s ids and the clock's readings
    are arguments, [serde_json] and [chrono] are functions with their round trips as named
    hypotheses where a theorem needs them, [char::is_alphanumeric] beyond ASCII is a predicate; the
    calendar ([chrono]'s ranges, time zones, [croner]'s next time) is the class
    [Firing.Calendar], with the laws [CalendarLaws] and an instance that satisfies them.

    ** Not modelled

    Within these parts: rendered error messages, [serde] derives, tracing, prompt texts and the
    role recipes shipped as YAML; of rides [forget_old_kept_rides], the ids of notifications and
    the SQLite store; of setup and elevation the discriminator, the picture of the card, key
    derivation and the bytes of the files; of trimming the profile's interpolation in floats.
    Of activations: the sentences a card shows, date labels and the parser of a recipe's YAML. Of
    the mesh: frames, dispatch of replies, capability and invoice requests, and the wallet's
    connection. Of the gate: the time a dropped lease lingers. Of sessions: attachments, reasoning,
    feedback, usage, identities and the engine's pairing. Of extraction: what becomes of a window's
    candidates and which memories are shown beside it, which score in 32-bit floats and match words
    by long tables; both are calls of the walk, whose theorems hold whatever they answer. Of the
    embedding slot: search, pruning and the health it reports. Of suggestions: the watcher that
    cancels a review, the projection of the bus's events into what a review is shown, and the
    role's recipe; time stamps in rows are assumed readable, a payload's JSON is the value it
    encodes, and a confidence is a rational.

    The rest of the repository is input and output, wiring or the property of others: HTTP routes
    and the server's timers, argument parsing of MCP tools, the adapter of the goose agent, whose
    behaviour is in vendored code, voice, vision, wake word and audio, model runtimes and downloads,
    the mesh transport, web, desktop and native front ends. Of the domain, the consolidation and
    ranking of memories and context retrieval are left out, which are arithmetic of floats over
    embeddings, and the remaining security and network services, which are next in kind to what is
    here (a program over ports among other callers) and would be modelled the same way. Of
    delegation, the engine's own set-up, the partition of the prompt and the stream that merges
    progress into a turn's events.

    ** Plan

    What a next extension takes first: the write gate of extraction with the text rules of a memory, the
    history kept when a conversation outgrows its window, the rest of the security policy, the
    words of spoken codes. *)
From stdpp Require Export base list numbers option gmap sets strings.
From Stdlib Require Export Sorting.Sorted.
From Stdlib Require Import NArith Lia.

#[global] Set Default Goal Selector "!".

(** ** Results: [Ok]/[Err] with the early return of [?]. *)

Inductive result (A E : Type) : Type :=
| Ok (a : A)
| Err (e : E).
Arguments Ok {A E} a.
Arguments Err {A E} e.

Declare Scope pond_scope.
Delimit Scope pond_scope with pond.
Open Scope pond_scope.

Definition result_bind {A B E} (r : result A E) (f : A → result B E) : result B E :=
  match r with Ok a => f a | Err e => Err e end.

Notation "'let?' x ':=' r 'in' k" := (result_bind r (λ x, k))
  (at level 10, x binder, r at level 100, k at level 200) : pond_scope.
Definition is_ok {A E} (r : result A E) : bool :=
  match r with Ok _ => true | Err _ => false end.

Definition result_map {A B E} (f : A → B) (r : result A E) : result B E :=
  match r with Ok a => Ok (f a) | Err e => Err e end.

(** [iter().map(f).collect::<Result<Vec<_>, _>>()]: the first error wins. *)
Fixpoint traverse {A B E} (f : A → result B E) (l : list A) : result (list B) E :=
  match l with
  | [] => Ok []
  | a :: l => let? b := f a in let? bs := traverse f l in Ok (b :: bs)
  end.

Lemma result_bind_ok {A B E} (r : result A E) (f : A → result B E) b :
  result_bind r f = Ok b ↔ ∃ a, r = Ok a ∧ f a = Ok b.
Proof.
  destruct r as [a|e]; simpl; split; [by exists a| |done|].
  - by intros (a' & [= ->] & H).
  - by intros (a' & ? & _).
Qed.

Lemma result_bind_err {A B E} (r : result A E) (f : A → result B E) e :
  result_bind r f = Err e ↔ r = Err e ∨ ∃ a, r = Ok a ∧ f a = Err e.
Proof.
  destruct r as [a|e']; simpl; split.
  - intros H. right. by exists a.
  - by intros [[=]|(a' & [= ->] & H)].
  - intros [= ->]. by left.
  - by intros [[= ->]|(a' & ? & _)].
Qed.

Lemma traverse_ok {A B E} (f : A → result B E) l bs :
  traverse f l = Ok bs ↔ Forall2 (λ a b, f a = Ok b) l bs.
Proof.
  revert bs. induction l as [|a l IH]; intros bs; simpl.
  - split; [by intros [= <-]; constructor | by inversion 1].
  - rewrite result_bind_ok. setoid_rewrite result_bind_ok. setoid_rewrite IH. split.
    + intros (b & Hb & bs' & Hl & [= <-]). by constructor.
    + inversion 1 as [|? b ? bs' Hb Hl]; subst. exists b. split; [done|]. by exists bs'.
Qed.

(** ** Machine integers: [u32], [u64] and [usize] values are [N], with the source's
    saturating operations written out ([N.sub] is [saturating_sub]). *)

Definition u32_max : N := 4294967295.
Definition u64_max : N := 18446744073709551615.
Definition i64_max : Z := 9223372036854775807.
(** [Duration::from_secs] and [as_secs], in nanoseconds. *)
Definition from_secs (s : N) : N := s * 1000000000.
Definition as_secs (d : N) : N := d / 1000000000.
(** [+= 1] on a [u32], which wraps in a release build. *)
Definition u32_incr (n : N) : N := (n + 1) mod (u32_max + 1).
Definition u32_sat_add (a b : N) : N := N.min u32_max (a + b).
Definition usize_sat_mul (a b : N) : N := N.min u64_max (a * b).
Definition div_ceil (a b : N) : N := (a + b - 1) / b.

Lemma div_ceil_bounds a b : (0 < b)%N → (a ≤ div_ceil a b * b < a + b)%N.
Proof.
  intros Hb. unfold div_ceil.
  pose proof (N.div_mod (a + b - 1) b ltac:(lia)).
  pose proof (N.mod_lt (a + b - 1) b ltac:(lia)).
  set (q := ((a + b - 1) / b)%N) in *. set (r := ((a + b - 1) mod b)%N) in *. nia.
Qed.
Global Opaque div_ceil.

(** ** Lists: searching *)

Lemma elem_of_one {A} (x y : A) : x ∈ [y] ↔ x = y.
Proof. rewrite elem_of_cons. split; [intros [?|[]%not_elem_of_nil]; done|by left]. Qed.


Definition find_first {A} (p : A → bool) (l : list A) : option A := List.find p l.
Definition find_last {A} (p : A → bool) (l : list A) : option A := List.find p (rev l).

(** [Iterator::position]. *)
Fixpoint position {A} (p : A → bool) (l : list A) : option nat :=
  match l with
  | [] => None
  | a :: l => if p a then Some 0 else S <$> position p l
  end.

Lemma position_Some {A} (p : A → bool) l i :
  position p l = Some i ↔
    (∃ a, l !! i = Some a ∧ p a = true) ∧ ∀ j b, j < i → l !! j = Some b → p b = false.
Proof.
  revert i. induction l as [|a l IH]; intros i; simpl.
  - split; [done|]. by intros [(a & [=] & _) _].
  - destruct (p a) eqn:Hp.
    + split.
      * intros [= <-]. split; [by exists a|]. intros j b Hj. lia.
      * intros [(b & Hb & Hpb) Hlt]. destruct i as [|i]; [done|].
        specialize (Hlt 0 a ltac:(lia) eq_refl). congruence.
    + rewrite fmap_Some. setoid_rewrite IH. split.
      * intros (k & [(b & Hb & Hpb) Hlt] & ->). split; [by exists b|].
        intros [|j] c Hj; simpl; [congruence|]. intros. eapply (Hlt j); [lia|done].
      * intros [(b & Hb & Hpb) Hlt]. destruct i as [|i]; [simpl in Hb; congruence|].
        exists i. split; [|done]. split; [by exists b|].
        intros j c Hj Hc. apply (Hlt (S j) c); [lia|done].
Qed.

Lemma position_None {A} (p : A → bool) l :
  position p l = None ↔ ∀ a, a ∈ l → p a = false.
Proof.
  induction l as [|a l IH]; simpl.
  { split; [|done]. by intros _ a []%not_elem_of_nil. }
  destruct (p a) eqn:Hp.
  - split; [done|]. intros H. specialize (H a ltac:(left)). congruence.
  - rewrite fmap_None, IH. set_solver.
Qed.

Lemma position_fmap {A B} (f : A → B) (p : B → bool) l :
  position p (f <$> l) = position (λ a, p (f a)) l.
Proof. induction l as [|a l IH]; [done|]. rewrite fmap_cons. cbn [position]. by rewrite IH. Qed.

Lemma elem_of_filter_bool {A} (p : A → bool) l a : a ∈ List.filter p l ↔ a ∈ l ∧ p a = true.
Proof. by rewrite !list_elem_of_In, filter_In. Qed.

Lemma filter_length_le {A} (p q : A → bool) l :
  (∀ a, q a = true → p a = true) → length (List.filter q l) ≤ length (List.filter p l).
Proof.
  intros Hqp. induction l as [|a l IH]; simpl; [done|].
  destruct (q a) eqn:Hq; [rewrite (Hqp a Hq); simpl; lia|]. destruct (p a); simpl; lia.
Qed.

(** A filter that drops more, and drops one that was there, is strictly shorter. *)
Lemma filter_length_lt {A} (p q : A → bool) l a :
  (∀ a, q a = true → p a = true) → a ∈ l → p a = true → q a = false →
  length (List.filter q l) < length (List.filter p l).
Proof.
  intros Hqp. induction l as [|b l IH]; simpl; [by intros ?%elem_of_nil|].
  intros [->|Ha]%elem_of_cons Hp Hq.
  - rewrite Hp, Hq. simpl. pose proof (filter_length_le p q l Hqp). lia.
  - specialize (IH Ha Hp Hq). destruct (q b) eqn:Hqb; [rewrite (Hqp b Hqb); simpl; lia|].
    destruct (p b); simpl; lia.
Qed.

Lemma length_filter_bool_le {A} (p : A → bool) l : length (List.filter p l) ≤ length l.
Proof. induction l as [|a l IH]; simpl; [done|]. destruct (p a); simpl; lia. Qed.

Lemma NoDup_fmap_filter {A B} (f : A → B) (p : A → bool) l :
  NoDup (f <$> l) → NoDup (f <$> List.filter p l).
Proof.
  induction l as [|a l IH]; simpl; [done|]. intros [Ha Hnd]%NoDup_cons.
  destruct (p a); [|by apply IH]. simpl. apply NoDup_cons. split; [|by apply IH].
  intros (x & Hx & [Hin _]%elem_of_filter_bool)%list_elem_of_fmap.
  apply Ha, list_elem_of_fmap. by exists x.
Qed.

Lemma forallb_elem_of {A} (p : A → bool) l : forallb p l = true ↔ ∀ a, a ∈ l → p a = true.
Proof. rewrite forallb_forall. by setoid_rewrite list_elem_of_In. Qed.

Lemma existsb_elem_of {A} (p : A → bool) l : existsb p l = true ↔ ∃ a, a ∈ l ∧ p a = true.
Proof. rewrite existsb_exists. by setoid_rewrite list_elem_of_In. Qed.

Lemma forallb_false_elem_of {A} (p : A → bool) l : forallb p l = false ↔ ∃ a, a ∈ l ∧ p a = false.
Proof.
  induction l as [|a l IH]; simpl; [split; [done|by intros (? & ?%elem_of_nil & _)]|].
  setoid_rewrite elem_of_cons. rewrite andb_false_iff, IH. split.
  - intros [H|(b & Hb & H)]; eauto.
  - intros (b & [->|Hb] & H); eauto.
Qed.

Lemma find_some_iff {A} (p : A → bool) l a :
  find_first p l = Some a → a ∈ l ∧ p a = true.
Proof. intros [Hin Hp]%List.find_some. split; [by apply list_elem_of_In|done]. Qed.

Lemma find_first_None {A} (p : A → bool) l :
  find_first p l = None ↔ ∀ a, a ∈ l → p a = false.
Proof.
  split.
  - intros H a Hin%list_elem_of_In. by eapply List.find_none.
  - intros H. induction l as [|a l IH]; [done|]. simpl.
    rewrite (H a) by left. apply IH. intros b Hb. apply H. by right.
Qed.

(** [iter_mut().find(p)] and an assignment through it. *)
Fixpoint set_first {A} (p : A → bool) (x : A) (l : list A) : list A :=
  match l with
  | [] => []
  | y :: l => if p y then x :: l else y :: set_first p x l
  end.

Lemma find_first_split {A} (p : A → bool) l a :
  find_first p l = Some a →
  ∃ l1 l2, l = l1 ++ a :: l2 ∧ p a = true ∧ (∀ b, b ∈ l1 → p b = false) ∧
    ∀ x, set_first p x l = l1 ++ x :: l2.
Proof.
  unfold find_first. induction l as [|b l IH]; simpl; [done|]. destruct (p b) eqn:Hb.
  - intros [= <-]. exists [], l. split; [done|]. split; [done|]. split; [|done].
    by intros c ?%elem_of_nil.
  - intros (l1 & l2 & -> & Ha & Hl1 & Hset)%IH. exists (b :: l1), l2.
    split; [done|]. split; [done|]. split; [|intros x; simpl; by rewrite Hset].
    intros c [->|Hc]%elem_of_cons; [done|by apply Hl1].
Qed.

Lemma find_first_app {A} (p : A → bool) l1 a l2 :
  (∀ b, b ∈ l1 → p b = false) → p a = true → find_first p (l1 ++ a :: l2) = Some a.
Proof.
  intros Hl1 Ha. unfold find_first. induction l1 as [|b l1 IH]; simpl; [by rewrite Ha|].
  rewrite (Hl1 b) by left. apply IH. intros c Hc. apply Hl1. by right.
Qed.

Lemma NoDup_fmap_inj_elem {A B} (f : A → B) l a b :
  NoDup (f <$> l) → a ∈ l → b ∈ l → f a = f b → a = b.
Proof.
  intros Hnd [i Hi]%list_elem_of_lookup [j Hj]%list_elem_of_lookup E.
  assert (i = j) as <-; [|congruence].
  eapply (NoDup_lookup (f <$> l)); [done|by rewrite list_lookup_fmap, Hi|].
  by rewrite list_lookup_fmap, Hj, E.
Qed.

(** With distinct keys the element found is the one with that key. *)
Lemma find_first_key {A K} `{EqDecision K} (f : A → K) (k : K) (p : A → bool) l a :
  (∀ x, p x = true ↔ f x = k) → NoDup (f <$> l) → find_first p l = Some a ↔ a ∈ l ∧ f a = k.
Proof.
  intros Hp Hnd. split.
  - intros [? ?%Hp]%find_some_iff. done.
  - intros [Ha Hk]. apply list_elem_of_split in Ha as (l1 & l2 & ->). apply find_first_app; [|by apply Hp].
    intros b Hb. apply not_true_iff_false. intros Hpb%Hp.
    rewrite fmap_app in Hnd. apply NoDup_app in Hnd as (_ & Hdis & _).
    apply (Hdis (f b)); [by apply list_elem_of_fmap_2|]. rewrite fmap_cons, Hpb, <-Hk. left.
Qed.

Lemma set_first_fmap {A B} (f : A → B) (p : A → bool) x l a :
  find_first p l = Some a → f x = f a → f <$> set_first p x l = f <$> l.
Proof.
  intros (l1 & l2 & -> & _ & _ & Hset)%find_first_split Hf.
  by rewrite Hset, !fmap_app, !fmap_cons, Hf.
Qed.

Lemma set_first_filter {A} (q p : A → bool) x l a :
  find_first p l = Some a → q x = false → q a = false →
  List.filter q (set_first p x l) = List.filter q l.
Proof.
  intros (l1 & l2 & -> & _ & _ & Hset)%find_first_split Hx Ha.
  rewrite Hset, !List.filter_app. simpl. by rewrite Hx, Ha.
Qed.

Lemma elem_of_set_first {A} (p : A → bool) x l b :
  b ∈ set_first p x l → b = x ∨ b ∈ l.
Proof.
  induction l as [|y l IH]; simpl; [by intros ?%elem_of_nil|].
  destruct (p y); intros [->|H]%elem_of_cons; [by left|by right; right|right; left|].
  destruct (IH H); [by left|by right; right].
Qed.

Lemma elem_of_set_first_other {A} (p : A → bool) x l b :
  b ∈ l → p b = false → b ∈ set_first p x l.
Proof.
  induction l as [|y l IH]; simpl; [by intros ?%elem_of_nil|].
  intros [->|H]%elem_of_cons Hp; [rewrite Hp; left|].
  destruct (p y); right; [done|by apply IH].
Qed.

Lemma find_first_set_other {A} (q p : A → bool) x l a :
  find_first p l = Some a → q x = q a → q a = false → find_first q (set_first p x l) = find_first q l.
Proof.
  intros (l1 & l2 & -> & _ & _ & Hset)%find_first_split Hx Ha. rewrite Hset.
  unfold find_first. clear Hset. induction l1 as [|b l1 IH]; simpl; [by rewrite Hx, Ha|].
  by rewrite IH.
Qed.

Lemma find_first_filter {A} (q p : A → bool) l :
  (∀ a, q a = true → p a = true) → find_first q (List.filter p l) = find_first q l.
Proof.
  intros H. unfold find_first. induction l as [|a l IH]; [done|]. simpl.
  destruct (p a) eqn:Hp; simpl; [by rewrite IH|].
  destruct (q a) eqn:Hq; [|done]. by rewrite H in Hp.
Qed.

Lemma find_first_snoc {A} (q : A → bool) l a :
  q a = false → find_first q (l ++ [a]) = find_first q l.
Proof.
  intros H. unfold find_first. induction l as [|b l IH]; simpl; [by rewrite H|]. by rewrite IH.
Qed.

Lemma filter_filter_id {A} (q p : A → bool) l :
  (∀ a, q a = true → p a = true) → List.filter q (List.filter p l) = List.filter q l.
Proof.
  intros H. induction l as [|a l IH]; [done|]. simpl.
  destruct (p a) eqn:Hp; simpl; [by rewrite IH|].
  destruct (q a) eqn:Hq; [|done]. by rewrite H in Hp.
Qed.

Lemma filter_none {A} (q : A → bool) l : (∀ a, a ∈ l → q a = false) → List.filter q l = [].
Proof.
  induction l as [|a l IH]; simpl; [done|]. intros H. rewrite (H a) by left.
  apply IH. intros b Hb. apply H. by right.
Qed.

Lemma filter_length_eq {A} (p : A → bool) l :
  length (List.filter p l) = length l → List.filter p l = l.
Proof.
  induction l as [|a l IH]; simpl; [done|]. pose proof (length_filter_bool_le p l).
  destruct (p a); simpl; [intros [= H1]; by rewrite IH|lia].
Qed.

(** *** Searches over the images of a list. *)

Lemma filter_fmap_bool {A B} (f : A → B) (p : B → bool) l :
  List.filter p (f <$> l) = f <$> List.filter (λ a, p (f a)) l.
Proof.
  induction l as [|a l IH]; [done|]. rewrite fmap_cons. cbn [List.filter]. rewrite IH.
  by destruct (p (f a)).
Qed.

Lemma find_first_fmap {A B} (f : A → B) (p : B → bool) l :
  find_first p (f <$> l) = f <$> find_first (λ a, p (f a)) l.
Proof.
  unfold find_first. induction l as [|a l IH]; [done|]. rewrite fmap_cons. cbn [List.find].
  by destruct (p (f a)).
Qed.

Lemma existsb_fmap {A B} (f : A → B) (p : B → bool) l :
  List.existsb p (f <$> l) = List.existsb (λ a, p (f a)) l.
Proof. induction l as [|a l IH]; [done|]. rewrite fmap_cons. cbn [List.existsb]. by rewrite IH. Qed.

Lemma filter_ext_elem {A} (p q : A → bool) l :
  (∀ a, a ∈ l → p a = q a) → List.filter p l = List.filter q l.
Proof.
  induction l as [|a l IH]; intros H; [done|]. simpl. rewrite (H a) by left.
  rewrite IH; [done|]. intros b Hb. apply H. by right.
Qed.

Lemma filter_true {A} (p : A → bool) l : (∀ a, a ∈ l → p a = true) → List.filter p l = l.
Proof.
  induction l as [|a l IH]; intros H; [done|]. simpl. rewrite (H a) by left.
  f_equal. apply IH. intros b Hb. apply H. by right.
Qed.

Lemma filter_andb {A} (p q : A → bool) l :
  List.filter p (List.filter q l) = List.filter (λ a, q a && p a) l.
Proof.
  induction l as [|a l IH]; [done|]. simpl. destruct (q a); simpl; [|done]. by rewrite IH.
Qed.

Lemma filter_bool_perm {A} (p : A → bool) l l' : l ≡ₚ l' → List.filter p l ≡ₚ List.filter p l'.
Proof.
  induction 1 as [|x l l' _ IH|x y l|l l' l'' _ IH1 _ IH2]; simpl; [done| | |by etrans].
  - destruct (p x); [by constructor|done].
  - destruct (p x), (p y); try done. constructor.
Qed.

Lemma filter_split_perm {A} (p : A → bool) l : List.filter p l ++ List.filter (λ x, negb (p x)) l ≡ₚ l.
Proof.
  induction l as [|x l IH]; [done|]. simpl. destruct (p x); simpl; [by constructor|].
  rewrite <-Permutation_middle. by constructor.
Qed.

Lemma filter_rev_bool {A} (p : A → bool) l : List.filter p (rev l) = rev (List.filter p l).
Proof.
  induction l as [|a l IH]; [done|]. simpl. rewrite List.filter_app, IH. simpl.
  destruct (p a); simpl; [done|by rewrite app_nil_r].
Qed.

Lemma traverse_fmap {A B C E} (f : B → result C E) (g : A → B) (h : A → C) l :
  (∀ a, a ∈ l → f (g a) = Ok (h a)) → traverse f (g <$> l) = Ok (h <$> l).
Proof.
  induction l as [|a l IH]; intros H; [done|]. rewrite !fmap_cons. cbn [traverse].
  rewrite (H a) by left. rewrite IH; [done|]. intros b Hb. apply H. by right.
Qed.

Lemma omap_fmap {A B C} (f : B → option C) (g : A → B) (h : A → C) (l : list A) :
  (∀ a, a ∈ l → f (g a) = Some (h a)) → omap f (g <$> l) = h <$> l.
Proof.
  induction l as [|a l IH]; intros H; [done|]. rewrite !fmap_cons. cbn [omap list_omap].
  rewrite (H a) by left. f_equal. apply IH. intros b Hb. apply H. by right.
Qed.

(** ** Stable sorting: [sort_by] keeps elements that compare equal in their order. *)

Section sorting_with.
Context {A : Type} (le : A → A → bool).

Fixpoint insert_with (x : A) (l : list A) : list A :=
  match l with
  | [] => [x]
  | y :: l => if le x y then x :: y :: l else y :: insert_with x l
  end.

Definition sort_with (l : list A) : list A := foldr insert_with [] l.

Lemma insert_with_perm x l : insert_with x l ≡ₚ x :: l.
Proof.
  induction l as [|y l IH]; simpl; [done|].
  destruct (le x y); [done|]. rewrite IH. by apply Permutation_swap.
Qed.

Lemma sort_with_perm l : sort_with l ≡ₚ l.
Proof. induction l as [|x l IH]; simpl; [done|]. by rewrite insert_with_perm, IH. Qed.

Lemma elem_of_sort_with x l : x ∈ sort_with l ↔ x ∈ l.
Proof. by rewrite sort_with_perm. Qed.

Context (le_total : ∀ x y, le x y = true ∨ le y x = true).
Context (le_trans : ∀ x y z, le x y = true → le y z = true → le x z = true).

Lemma insert_with_sorted x l :
  StronglySorted le l → StronglySorted le (insert_with x l).
Proof using le_total le_trans.
  induction 1 as [|y l Hl IH Hy]; simpl; [by repeat constructor|].
  destruct (le x y) eqn:E.
  - constructor; [by constructor|]. constructor; [by rewrite E|].
    eapply Forall_impl; [done|]. simpl. intros z Hz%Is_true_true. apply Is_true_true. by eapply le_trans.
  - constructor; [done|]. rewrite insert_with_perm. constructor; [|done].
    destruct (le_total x y) as [?|H]; [congruence|by rewrite H].
Qed.

Lemma sort_with_sorted l : StronglySorted le (sort_with l).
Proof using le_total le_trans.
  induction l as [|x l IH]; simpl; [by constructor|]. by apply insert_with_sorted.
Qed.

(** Elements that compare equal both ways keep their order. *)
Lemma sort_with_stable (p : A → bool) l :
  (∀ x y, p x = true → p y = true → le x y = true) →
  List.filter p (sort_with l) = List.filter p l.
Proof using Type.
  intros Hp. induction l as [|x l IH]; [done|]. simpl. rewrite <-IH.
  generalize (sort_with l). intros m. clear IH.
  induction m as [|y m IH]; simpl; [done|].
  destruct (le x y) eqn:E; simpl; [done|].
  rewrite IH. destruct (p x) eqn:Hx, (p y) eqn:Hy; try done.
  by rewrite (Hp x y) in E.
Qed.

Lemma filter_insert_with (p : A → bool) x l : StronglySorted le l →
  List.filter p (insert_with x l) =
    if p x then insert_with x (List.filter p l) else List.filter p l.
Proof using le_trans.
  induction 1 as [|y l Hl IH Hy]; simpl; [by destruct (p x)|].
  destruct (le x y) eqn:E; simpl.
  - destruct (p x) eqn:Hx, (p y) eqn:Hyp; simpl; rewrite ?E; try done.
    assert (Forall (λ z, le x z) (List.filter p l)) as Hall.
    { apply Forall_forall. intros z [Hz _]%elem_of_filter_bool. rewrite Forall_forall in Hy.
      specialize (Hy z Hz). apply Is_true_true in Hy. apply Is_true_true. by eapply le_trans. }
    destruct (List.filter p l) as [|z m]; simpl; [done|].
    inversion Hall as [|? ? Hz _]; subst. apply Is_true_true in Hz. by rewrite Hz.
  - rewrite IH. destruct (p x) eqn:Hx, (p y) eqn:Hyp; simpl; rewrite ?E; done.
Qed.

(** Selecting and sorting commute. *)
Lemma filter_sort_with (p : A → bool) l :
  List.filter p (sort_with l) = sort_with (List.filter p l).
Proof using le_total le_trans.
  induction l as [|x l IH]; simpl; [done|].
  rewrite filter_insert_with by apply sort_with_sorted. rewrite IH. by destruct (p x).
Qed.

Lemma sort_with_id l : StronglySorted le l → sort_with l = l.
Proof using Type.
  induction 1 as [|x l Hl IH Hx]; simpl; [done|]. rewrite IH.
  destruct l as [|y l]; simpl; [done|]. inversion Hx as [|? ? Hy _]; subst.
  apply Is_true_true in Hy. by rewrite Hy.
Qed.
End sorting_with.

Lemma sort_with_fmap {A B} (le : A → A → bool) (le' : B → B → bool) (f : A → B) l :
  (∀ x y, x ∈ l → y ∈ l → le' (f x) (f y) = le x y) →
  sort_with le' (f <$> l) = f <$> sort_with le l.
Proof.
  induction l as [|x l IH]; intros H; [done|]. cbn [fmap list_fmap sort_with foldr].
  change (foldr (insert_with le') [] (f <$> l)) with (sort_with le' (f <$> l)).
  change (foldr (insert_with le) [] l) with (sort_with le l).
  rewrite IH by (intros a b ??; apply H; by right).
  assert (∀ y, y ∈ sort_with le l → y ∈ l) as Hin by (intros y; by rewrite elem_of_sort_with).
  revert Hin. generalize (sort_with le l). intros m Hin.
  induction m as [|y m IHm]; [done|]. simpl.
  rewrite H; [|by left|right; apply Hin; by left].
  destruct (le x y); [done|]. simpl. f_equal. apply IHm. intros z Hz. apply Hin. by right.
Qed.

(** ** Comparators: [Ordering], [cmp] and [then_with]. *)

Class Comparator {A : Type} (cmp : A → A → comparison) : Prop := {
  cmp_antisym : ∀ a b, cmp b a = CompOpp (cmp a b);
  cmp_trans : ∀ a b c, cmp a b ≠ Gt → cmp b c ≠ Gt →
    cmp a c ≠ Gt ∧ (cmp a c = Eq → cmp a b = Eq ∧ cmp b c = Eq);
}.

Definition then_with (c d : comparison) : comparison := match c with Eq => d | c => c end.
Definition bool_compare (a b : bool) : comparison :=
  match a, b with false, true => Lt | true, false => Gt | _, _ => Eq end.
(** [cmp(a, b) != Greater]. *)
Definition not_greater {A} (cmp : A → A → comparison) (a b : A) : bool :=
  match cmp a b with Gt => false | _ => true end.

#[export] Instance bool_comparator : Comparator bool_compare.
Proof. split; [by intros [] []|by intros [] [] []]. Qed.

#[export] Instance Z_comparator : Comparator Z.compare.
Proof.
  split; [intros a b; apply Z.compare_antisym|]. intros a b c H1 H2.
  rewrite Z.compare_gt_iff in H1, H2. rewrite Z.compare_gt_iff, !Z.compare_eq_iff. lia.
Qed.

#[export] Instance N_comparator : Comparator N.compare.
Proof.
  split; [intros a b; apply N.compare_antisym|]. intros a b c H1 H2.
  rewrite N.compare_gt_iff in H1, H2. rewrite N.compare_gt_iff, !N.compare_eq_iff. lia.
Qed.

#[export] Instance on_comparator {A B} (f : A → B) (cmp : B → B → comparison) :
  Comparator cmp → Comparator (λ a b, cmp (f a) (f b)).
Proof.
  intros [H1 H2]. split; [intros a b; apply H1|]. intros a b c. apply H2.
Qed.

#[export] Instance then_with_comparator {A} (c d : A → A → comparison) :
  Comparator c → Comparator d → Comparator (λ a b, then_with (c a b) (d a b)).
Proof.
  intros [A1 T1] [A2 T2]. split.
  - intros x y. rewrite A1, A2. by destruct (c x y).
  - intros x y z. specialize (T1 x y z). specialize (T2 x y z). unfold then_with.
    destruct (c x y) eqn:E1, (c y z) eqn:E2; try done;
      destruct T1 as [Hn He]; try done; destruct (c x z) eqn:E3; try done; try (by destruct He); tauto.
Qed.

Section comparator.
Context {A : Type} (cmp : A → A → comparison) `{!Comparator cmp}.

Lemma not_greater_total a b : not_greater cmp a b = true ∨ not_greater cmp b a = true.
Proof using Type*. unfold not_greater. rewrite (cmp_antisym a b). destruct (cmp a b); auto. Qed.

Lemma not_greater_trans a b c :
  not_greater cmp a b = true → not_greater cmp b c = true → not_greater cmp a c = true.
Proof using Type*.
  unfold not_greater. intros H1 H2. destruct (cmp_trans a b c) as [H _]; by destruct (cmp a b), (cmp b c), (cmp a c).
Qed.

Lemma not_greater_antisym a b :
  not_greater cmp a b = true → not_greater cmp b a = true → cmp a b = Eq.
Proof using Type*. unfold not_greater. rewrite (cmp_antisym a b). by destruct (cmp a b). Qed.
End comparator.

(** ** Sorting by a key: [sort_by_key]. *)

Section sorting.
Context {A : Type} (key : A → N).

Definition key_le (x y : A) : bool := (key x <=? key y)%N.
Definition sort_by (l : list A) : list A := sort_with key_le l.

Lemma key_le_total x y : key_le x y = true ∨ key_le y x = true.
Proof. unfold key_le. rewrite !N.leb_le. lia. Qed.
Lemma key_le_trans x y z : key_le x y = true → key_le y z = true → key_le x z = true.
Proof. unfold key_le. rewrite !N.leb_le. lia. Qed.

Lemma sort_by_perm l : sort_by l ≡ₚ l.
Proof. apply sort_with_perm. Qed.

Lemma elem_of_sort_by x l : x ∈ sort_by l ↔ x ∈ l.
Proof. apply elem_of_sort_with. Qed.

Lemma length_sort_by l : length (sort_by l) = length l.
Proof. by rewrite sort_by_perm. Qed.

Lemma sort_by_sorted l : StronglySorted (λ a b, key a ≤ key b)%N (sort_by l).
Proof.
  pose proof (sort_with_sorted key_le key_le_total key_le_trans l) as H. unfold sort_by.
  induction H as [|x m Hm IH Hx]; constructor; [done|].
  eapply Forall_impl; [done|]. intros y Hy%Is_true_true. by apply N.leb_le.
Qed.

(** [min_by_key]: the first of the least. *)
Fixpoint min_by (l : list A) : option A :=
  match l with
  | [] => None
  | x :: l =>
      match min_by l with
      | Some y => if (key x <=? key y)%N then Some x else Some y
      | None => Some x
      end
  end.

Lemma min_by_Some l x :
  min_by l = Some x → x ∈ l ∧ ∀ y, y ∈ l → (key x ≤ key y)%N.
Proof.
  revert x. induction l as [|a l IH]; intros x; simpl; [done|].
  destruct (min_by l) as [b|] eqn:Hl.
  - destruct (IH b eq_refl) as [Hb Hmin].
    destruct (N.leb_spec (key a) (key b)); intros [= <-]; split; try set_solver;
      intros y [->|Hy]%elem_of_cons; try lia; specialize (Hmin y Hy); lia.
  - intros [= <-]. split; [by left|]. intros y [->|Hy]%elem_of_cons; [lia|].
    destruct l; [by apply not_elem_of_nil in Hy|].
    simpl in Hl. repeat case_match; done.
Qed.

Lemma min_by_None l : min_by l = None ↔ l = [].
Proof. destruct l; simpl; [done|]. repeat case_match; done. Qed.

(** [max_by_key]: the last of the greatest. *)
Fixpoint max_by (l : list A) : option A :=
  match l with
  | [] => None
  | x :: l =>
      match max_by l with
      | Some y => if (key x <=? key y)%N then Some y else Some x
      | None => Some x
      end
  end.
End sorting.

(** ** Maps collected from pairs: a later pair replaces an earlier one with its key. *)

Section collect.
Context {K V : Type} `{Countable K}.

Definition collect_map (l : list (K * V)) : gmap K V :=
  foldl (λ m p, <[p.1 := p.2]> m) ∅ l.

Lemma collect_map_snoc l p : collect_map (l ++ [p]) = <[p.1 := p.2]> (collect_map l).
Proof. unfold collect_map. by rewrite foldl_app. Qed.

Lemma collect_map_Some l k v : collect_map l !! k = Some v → (k, v) ∈ l.
Proof.
  induction l as [|[k' v'] l IH] using rev_ind; [done|].
  rewrite collect_map_snoc, elem_of_app, elem_of_one. simpl.
  destruct (decide (k' = k)) as [->|].
  - rewrite lookup_insert_eq. intros [= ->]. by right.
  - rewrite lookup_insert_ne by done. auto.
Qed.

Lemma collect_map_None l k : collect_map l !! k = None ↔ k ∉ l.*1.
Proof.
  induction l as [|[k' v'] l IH] using rev_ind; [by split; [intros _ ?%elem_of_nil|]|].
  rewrite collect_map_snoc, fmap_app, elem_of_app. simpl. rewrite elem_of_one.
  destruct (decide (k' = k)) as [->|].
  - rewrite lookup_insert_eq. split; [done|]. intros []. by right.
  - rewrite lookup_insert_ne, IH by done. split; [|tauto].
    intros ? [?|?]; [auto|congruence].
Qed.

Lemma collect_map_is_Some l k : is_Some (collect_map l !! k) ↔ k ∈ l.*1.
Proof.
  rewrite <-not_eq_None_Some, collect_map_None.
  split; [|tauto]. intros Hn. by destruct (decide (k ∈ l.*1)).
Qed.

Lemma collect_map_lookup l k v :
  NoDup l.*1 → collect_map l !! k = Some v ↔ (k, v) ∈ l.
Proof.
  intros Hnd. split; [apply collect_map_Some|]. intros Hin.
  assert (is_Some (collect_map l !! k)) as [v' Hv'].
  { apply collect_map_is_Some, list_elem_of_fmap. by exists (k, v). }
  rewrite Hv'. f_equal. apply collect_map_Some in Hv'.
  apply list_elem_of_lookup in Hin as [i Hi], Hv' as [j Hj].
  assert (i = j) as <-; [|congruence].
  eapply (NoDup_lookup l.*1); [done|by rewrite list_lookup_fmap, Hi|by rewrite list_lookup_fmap, Hj].
Qed.
End collect.

(** ** Reachability by steps of a relation. *)

Inductive star {S : Type} (R : S → S → Prop) : S → S → Prop :=
| star_refl s : star R s s
| star_step s t u : R s t → star R t u → star R s u.

Lemma star_invariant {S} (R : S → S → Prop) (P : S → Prop) :
  (∀ s t, P s → R s t → P t) → ∀ s t, star R s t → P s → P t.
Proof. intros HR s t. induction 1; eauto. Qed.

Lemma star_mono {S} (R Q : S → S → Prop) s t : (∀ s t, R s t → Q s t) → star R s t → star Q s t.
Proof. intros H. induction 1; eauto using star. Qed.

Lemma star_one {S} (R : S → S → Prop) s t : R s t → star R s t.
Proof. eauto using star. Qed.

Lemma star_trans {S} (R : S → S → Prop) s t u : star R s t → star R t u → star R s u.
Proof. induction 1; eauto using star. Qed.

(** ** Tactics and hints *)

Create HintDb pond.
#[export] Hint Constructors star : pond.
#[export] Hint Rewrite @elem_of_sort_by @length_sort_by : pond.

(** Case analysis on a guard of the code, keeping the fact it establishes. *)
Ltac guard_case H :=
  match goal with
  | |- context [if ?c then _ else _] => destruct c eqn:H
  end.

(** Splits every [if], [match] and [let?] of a hypothesis [f x = Ok y] and drops the
    branches that return an error. *)
Ltac ok_inv H :=
  repeat match type of H with
  | Err _ = Ok _ => discriminate H
  | Ok _ = Ok _ => injection H as H
  | result_bind _ _ = Ok _ =>
      let a := fresh "a" in let E := fresh "E" in
      apply result_bind_ok in H as (a & E & H)
  | (if ?c then _ else _) = Ok _ => let E := fresh "E" in destruct c eqn:E
  | match ?c with _ => _ end = Ok _ => let E := fresh "E" in destruct c eqn:E
  end.
