(* ===== verification/Prog.v ===== *)
(** * Prog: programs that call an interface, and what can be proved of them

    An [async fn] that awaits the methods of a trait is a tree: the value it returns, or a
    call and what it does with the answer. [run] runs one alone against an implementation.
    Between two of its calls other tasks may run, so [config_step] interleaves it with an
    environment, and [safe] is the rule to prove what holds at every moment of that
    (a rely-guarantee proof: each assertion is kept by the environment). *)
From S2P Require Import Prelude.

Inductive Prog (C : Type → Type) (A : Type) : Type :=
| Ret (a : A)
| Call {R : Type} (c : C R) (k : R → Prog C A).
Arguments Ret {C A} a.
Arguments Call {C A} & {R} c k.

Fixpoint prog_bind {C A B} (p : Prog C A) (f : A → Prog C B) : Prog C B :=
  match p with
  | Ret a => f a
  | Call c k => Call c (λ r, prog_bind (k r) f)
  end.

(** [call.await?]: an error ends the program with it. *)
Definition await_ok {C A B E} (c : C (result A E)) (k : A → Prog C (result B E)) :
    Prog C (result B E) :=
  Call c (λ r, match r with Ok a => k a | Err e => Ret (Err e) end).

Notation "'let!' x ':=' c 'in' k" := (Call c (λ x, k))
  (at level 10, x binder, c at level 100, k at level 200) : pond_scope.
Notation "'do!' c 'in' k" := (Call c (λ _, k))
  (at level 10, c at level 100, k at level 200) : pond_scope.

(** A way through a program: the calls it makes, each with the answer it gets, and its value. *)
Inductive path {C : Type → Type} {A} : Prog C A → list {R : Type & (C R * R)%type} → A → Prop :=
| path_ret a : path (Ret a) [] a
| path_call R (c : C R) k r l a : path (k r) l a → path (Call c k) (existT R (c, r) :: l) a.

Definition called {C : Type → Type} {R} (c : C R) (r : R) (l : list {R : Type & (C R * R)%type}) : Prop :=
  (existT R (c, r) : {R : Type & (C R * R)%type}) ∈ l.

(** [for x in l { f(x).await }] *)
Fixpoint for_each {C A} (f : A → Prog C unit) (l : list A) : Prog C unit :=
  match l with
  | [] => Ret tt
  | x :: l => prog_bind (f x) (λ _, for_each f l)
  end.

(** [for x in l { n += f(x).await }] *)
Fixpoint sum_each {C A} (f : A → Prog C N) (l : list A) : Prog C N :=
  match l with
  | [] => Ret 0%N
  | x :: l => prog_bind (f x) (λ n, prog_bind (sum_each f l) (λ m, Ret (n + m)%N))
  end.

Lemma called_app {C : Type → Type} {R} (c : C R) r l l' : called c r (l ++ l') ↔ called c r l ∨ called c r l'.
Proof. unfold called. apply elem_of_app. Qed.

Lemma path_inv {C : Type → Type} {A} (p : Prog C A) l a :
  path p l a →
  match p with
  | Ret b => l = [] ∧ a = b
  | Call c k => ∃ r l', l = existT _ (c, r) :: l' ∧ path (k r) l' a
  end.
Proof. intros []; eauto. Qed.

(** A way through a sequence is a way through its first part and one through the rest. *)
Lemma path_bind {C : Type → Type} {A B} (p : Prog C A) (f : A → Prog C B) l b :
  path (prog_bind p f) l b → ∃ a l1 l2, l = l1 ++ l2 ∧ path p l1 a ∧ path (f a) l2 b.
Proof.
  revert l. induction p as [a|R c k IH]; intros l; simpl.
  - intros H. exists a, [], l. split; [done|]. split; [constructor|done].
  - intros (r & l' & -> & H)%path_inv. destruct (IH r l' H) as (a & l1 & l2 & -> & H1 & H2).
    exists a, (existT R (c, r) :: l1), l2. split; [done|]. split; [by constructor|done].
Qed.

(** An implementation: what each call answers and the state it leaves. *)
Definition Handler (C : Type → Type) (S : Type) : Type := ∀ R, C R → S → R * S.

Section running.
Context {C : Type → Type} {S : Type} (h : Handler C S).

Fixpoint run {A} (p : Prog C A) (s : S) : A * S :=
  match p with
  | Ret a => (a, s)
  | Call c k => let '(r, s) := h _ c s in run (k r) s
  end.

Lemma run_bind {A B} (p : Prog C A) (f : A → Prog C B) s :
  run (prog_bind p f) s = let '(a, s) := run p s in run (f a) s.
Proof.
  revert s. induction p as [a|R c k IH]; intros s; simpl; [done|].
  destruct (h R c s) as [r s']. apply IH.
Qed.

(** The calls it makes when run alone, with their answers. *)
Fixpoint trace {A} (p : Prog C A) (s : S) : list {R : Type & (C R * R)%type} * A :=
  match p with
  | Ret a => ([], a)
  | Call c k => let '(r, s) := h _ c s in let '(l, a) := trace (k r) s in (existT _ (c, r) :: l, a)
  end.

Lemma trace_path {A} (p : Prog C A) s : path p (trace p s).1 (trace p s).2.
Proof.
  revert s. induction p as [a|R c k IH]; intros s; simpl; [constructor|].
  destruct (h R c s) as [r s']. specialize (IH r s'). destruct (trace (k r) s') as [l a]. by constructor.
Qed.

(** The next call of a program, made. *)
Definition call_step {A} (cfg : Prog C A * S) : option (Prog C A * S) :=
  match cfg.1 with
  | Ret _ => None
  | Call c k => let '(r, s) := h _ c cfg.2 in Some (k r, s)
  end.

(** The first calls of a program, made. *)
Fixpoint calls_made {A} (n : nat) (cfg : Prog C A * S) : Prog C A * S :=
  match n with
  | O => cfg
  | Datatypes.S n => match call_step cfg with Some cfg => calls_made n cfg | None => cfg end
  end.

Lemma call_step_taken {A} (cfg d : Prog C A * S) :
  match cfg.1 with Ret _ => False | Call _ _ => True end →
  call_step cfg = Some (default d (call_step cfg)).
Proof.
  unfold call_step. destruct cfg as [[a|R c k] s]; simpl; [done|]. by destruct (h R c s).
Qed.

(** One step of the environment, or one call of the program. *)
Inductive config_step {A} (env : S → S → Prop) : Prog C A * S → Prog C A * S → Prop :=
| cs_env p s s' : env s s' → config_step env (p, s) (p, s')
| cs_call cfg cfg' : call_step cfg = Some cfg' → config_step env cfg cfg'.

Lemma env_step {A} (env : S → S → Prop) (cfg : Prog C A * S) s :
  env cfg.2 s → config_step env cfg (cfg.1, s).
Proof. destruct cfg as [p t]. apply cs_env. Qed.

(** Run alone, a program gets to its answer. *)
Lemma run_steps {A} env (p : Prog C A) s :
  star (config_step env) (p, s) (Ret (run p s).1, (run p s).2).
Proof.
  revert s. induction p as [a|R c k IH]; intros s; simpl; [apply star_refl|].
  destruct (h R c s) as [r t] eqn:E. eapply star_step; [|apply IH].
  apply cs_call. unfold call_step. simpl. by rewrite E.
Qed.

Definition stable (env : S → S → Prop) (pre : S → Prop) : Prop :=
  ∀ s s', env s s' → pre s → pre s'.

(** [safe env P Q p pre]: from a state with [pre], [P] holds at every moment of [p] among the
    environment, and [Q] of its answer and the state from then on. *)
Fixpoint safe {A} (env : S → S → Prop) (P : S → Prop) (Q : A → S → Prop)
    (p : Prog C A) (pre : S → Prop) : Prop :=
  stable env pre ∧ (∀ s, pre s → P s) ∧
  match p with
  | Ret a => ∀ s, pre s → Q a s
  | Call c k =>
      ∀ s, pre s → ∃ pre' : S → Prop,
        pre' (h _ c s).2 ∧ safe env P Q (k (h _ c s).1) pre'
  end.

Definition holds_at {A} (P : S → Prop) (Q : A → S → Prop) (cfg : Prog C A * S) : Prop :=
  P cfg.2 ∧ ∀ a, cfg.1 = Ret a → Q a cfg.2.

Lemma safe_call {A R} env P (Q : A → S → Prop) (c : C R) k (pre : S → Prop) :
  stable env pre → (∀ s, pre s → P s) →
  (∀ s r s', pre s → h _ c s = (r, s') → ∃ pre' : S → Prop, pre' s' ∧ safe env P Q (k r) pre') →
  safe env P Q (Call c k) pre.
Proof.
  intros Hst HP Hk. split; [exact Hst|]. split; [exact HP|]. intros s Hs.
  apply (Hk s _ _ Hs). apply surjective_pairing.
Qed.

Lemma safe_weaken {A} env P (Q : A → S → Prop) p (pre pre' : S → Prop) :
  stable env pre → (∀ s, pre s → pre' s) → safe env P Q p pre' → safe env P Q p pre.
Proof.
  intros Hst Himp Hs. destruct p as [a|R c k]; destruct Hs as (_ & HP & Hk);
    (split; [exact Hst|]; split; [by eauto|]); intros s Hs'; apply Hk; by apply Himp.
Qed.

(** A fact that does not speak of the state. *)
Lemma safe_pure {A} env P (Q : A → S → Prop) p (φ : Prop) (pre : S → Prop) :
  (φ → safe env P Q p pre) → safe env P Q p (λ s, φ ∧ pre s).
Proof.
  intros H. destruct p as [a|R c k]; (split; [|split]).
  - intros s s' He [Hφ Hs]. split; [done|]. by apply (proj1 (H Hφ) s).
  - intros s [Hφ Hs]. by apply (H Hφ).
  - intros s [Hφ Hs]. by apply (H Hφ).
  - intros s s' He [Hφ Hs]. split; [done|]. by apply (proj1 (H Hφ) s).
  - intros s [Hφ Hs]. by apply (H Hφ).
  - intros s [Hφ Hs]. by apply (H Hφ).
Qed.

(** A fact of which it is not known for what it holds. *)
Lemma safe_ex {A X} env P (Q : A → S → Prop) p (pre : X → S → Prop) :
  (∀ x, safe env P Q p (pre x)) → safe env P Q p (λ s, ∃ x, pre x s).
Proof.
  intros H. destruct p as [a|R c k]; (split; [|split]).
  - intros s s' He [x Hs]. exists x. by apply (proj1 (H x) s).
  - intros s [x Hs]. by apply (H x).
  - intros s [x Hs]. by apply (H x).
  - intros s s' He [x Hs]. exists x. by apply (proj1 (H x) s).
  - intros s [x Hs]. by apply (H x).
  - intros s [x Hs]. by apply (H x).
Qed.

Lemma safe_post {A} env P (Q Q' : A → S → Prop) p (pre : S → Prop) :
  (∀ a s, Q a s → Q' a s) → safe env P Q p pre → safe env P Q' p pre.
Proof.
  intros H. revert pre. induction p as [a|R c k IH]; intros pre (Hst & HP & Hk); (split; [exact Hst|]; split; [exact HP|]).
  - eauto.
  - intros s Hs. destruct (Hk s Hs) as (pre' & Hpre & Hsafe). exists pre'. split; [exact Hpre|]. by apply IH.
Qed.

Lemma safe_ret {A} env P (Q : A → S → Prop) a (pre : S → Prop) :
  stable env pre → (∀ s, pre s → P s) → (∀ s, pre s → Q a s) → safe env P Q (Ret a) pre.
Proof. done. Qed.

(** In sequence: what the first leaves is what the second starts from. *)
Lemma safe_bind {A B} env P (Q : B → S → Prop) (mid : A → S → Prop) p (f : A → Prog C B) pre :
  safe env P mid p pre → (∀ a, safe env P Q (f a) (mid a)) → safe env P Q (prog_bind p f) pre.
Proof.
  intros Hp Hf. revert pre Hp. induction p as [a|R c k IH]; intros pre (Hst & HP & Hk); simpl.
  - by apply (safe_weaken _ _ _ _ pre (mid a)).
  - split; [exact Hst|]. split; [exact HP|]. intros s Hs.
    destruct (Hk s Hs) as (pre' & Hpre & Hsafe). exists pre'. split; [exact Hpre|]. by apply IH.
Qed.

Lemma safe_now {A} env P (Q : A → S → Prop) p pre s :
  safe env P Q p pre → pre s → holds_at P Q (p, s).
Proof.
  intros Hs Hp. split; simpl; [destruct p; apply Hs; exact Hp|].
  intros a ->. apply Hs. exact Hp.
Qed.

Lemma safe_step {A} env P (Q : A → S → Prop) cfg cfg' pre :
  config_step env cfg cfg' → safe env P Q cfg.1 pre → pre cfg.2 →
  ∃ pre', safe env P Q cfg'.1 pre' ∧ pre' cfg'.2.
Proof.
  intros [p s s' He|[p s] cfg'' E] Hs Hp; simpl in *.
  - exists pre. split; [exact Hs|]. destruct p; apply (proj1 Hs _ _ He Hp).
  - unfold call_step in E. simpl in E. destruct p as [a|R c k]; [discriminate E|].
    destruct Hs as (_ & _ & Hk). destruct (Hk s Hp) as (pre' & Hpre & Hsafe).
    destruct (h R c s) as [r t] eqn:Eh. injection E as <-. by exists pre'.
Qed.

Lemma safe_sound {A} env P (Q : A → S → Prop) p pre s cfg :
  safe env P Q p pre → pre s → star (config_step env) (p, s) cfg → holds_at P Q cfg.
Proof.
  intros Hs Hp Hstar.
  assert (∃ pre', safe env P Q cfg.1 pre' ∧ pre' cfg.2) as (pre' & Hs' & Hp').
  { apply (star_invariant (config_step env)
             (λ cfg, ∃ pre', safe env P Q cfg.1 pre' ∧ pre' cfg.2)) with (p, s);
      [|exact Hstar|by exists pre].
    intros c1 c2 (q & H1 & H2) Hc. by eapply safe_step. }
  destruct cfg as [q t]. by eapply safe_now.
Qed.
End running.

(** ** Simulation: a concrete implementation answers as an abstract one does *)

Section simulation.
Context {C : Type → Type} {S T : Type} (h : Handler C S) (g : Handler C T).
Context (repr : S → T → Prop) (agree : ∀ R, C R → R → R → Prop) (ok : ∀ R, C R → T → Prop).

Definition simulates : Prop :=
  ∀ R (c : C R) s t, repr s t → ok R c t →
    agree R c (h R c s).1 (g R c t).1 ∧ repr (h R c s).2 (g R c t).2.
End simulation.

(** ** The calls a program can ever make *)

Fixpoint only_calls {C : Type → Type} {A} (P : ∀ R, C R → Prop) (p : Prog C A) : Prop :=
  match p with
  | Ret _ => True
  | Call c k => P _ c ∧ ∀ r, only_calls P (k r)
  end.

Lemma only_calls_reachable {C : Type → Type} {S A} (h : Handler C S) (P : ∀ R, C R → Prop) env
    (p : Prog C A) s cfg :
  only_calls P p → star (config_step h env) (p, s) cfg → only_calls P cfg.1.
Proof.
  intros Hp Hs.
  refine (star_invariant (config_step h env) (λ cfg, only_calls P cfg.1) _ _ _ Hs Hp).
  intros c1 c2 Hc Hstep. destruct Hstep as [q t t' _|[q t] c' E]; [exact Hc|]. unfold call_step in E. simpl in E, Hc.
  destruct q as [a|R c k]; [discriminate E|]. destruct (h R c t) as [r t']. injection E as <-.
  apply Hc.
Qed.

Lemma only_calls_path {C : Type → Type} {A} (P : ∀ R, C R → Prop) (p : Prog C A) l a R (c : C R) r :
  only_calls P p → path p l a → called c r l → P R c.
Proof.
  intros Hp Hpath Hc. enough (Forall (λ e, match e with existT R (c, _) => P R c end) l) as Hl
    by (rewrite Forall_forall in Hl; apply (Hl _ Hc)).
  clear Hc. revert Hp. induction Hpath as [|R' c' k r' l' a' _ IH]; intros Hp; constructor; [apply Hp|apply IH, Hp].
Qed.

Lemma only_calls_bind {C : Type → Type} {A B} (P : ∀ R, C R → Prop) (p : Prog C A) (f : A → Prog C B) :
  only_calls P p → (∀ a, only_calls P (f a)) → only_calls P (prog_bind p f).
Proof.
  intros Hp Hf. induction p as [a|R c k IH]; [apply Hf|]. destruct Hp as [Hc Hk].
  split; [exact Hc|]. intros r. by apply IH.
Qed.

Lemma only_calls_mono {C : Type → Type} {A} (P Q : ∀ R, C R → Prop) (p : Prog C A) :
  (∀ R c, P R c → Q R c) → only_calls P p → only_calls Q p.
Proof. intros HPQ. induction p as [a|R c k IH]; simpl; [done|]. intros [Hc Hk]. split; [by apply HPQ|]. eauto. Qed.
