(* ===== verification/Guarded.v ===== *)
(** * Guarded: tasks that take turns at an async mutex

    A service keeps its state [L] in a [tokio::sync::Mutex] whose guard it holds across the calls
    it awaits, beside shared storage [E] that other tasks and other processes touch too. A task is
    a [Prog] of [Take], [Release] and the service's own calls; tasks interleave at every call, and
    one waiting for an answer may be dropped, which drops its guard. [discipline] is the rule to
    prove what holds of both at every moment, as with a lock invariant: whoever takes the mutex
    finds [Inv], and gives it back wherever it releases it or may be dropped. *)
From S2P Require Import Prelude Prog.

Section guarded.
Context {C : Type → Type} {L E : Type}.
(** What a call may answer and do; whether a task waits for its answer. *)
Context (call : ∀ R, C R → L → E → R → L → E → Prop) (awaited : ∀ R, C R → bool).

Inductive Guarded : Type → Type :=
| Take : Guarded unit
| Release : Guarded unit
| Do {R} (c : C R) : Guarded R.

Record Turns := {
  tn_held : option nat;
  tn_state : L;
  tn_store : E;
  tn_tasks : list (Prog Guarded unit);
}.

(** The tasks that may be started, and what others do to the storage. *)
Context (starts : Prog Guarded unit → Prop) (outside : E → E → Prop).

Definition released (i : nat) (held : option nat) : option nat :=
  if decide (held = Some i) then None else held.

Inductive turn_step : Turns → Turns → Prop :=
| tn_start h l e ts p :
    starts p →
    turn_step {| tn_held := h; tn_state := l; tn_store := e; tn_tasks := ts |}
              {| tn_held := h; tn_state := l; tn_store := e; tn_tasks := ts ++ [p] |}
| tn_others h l e e' ts :
    outside e e' →
    turn_step {| tn_held := h; tn_state := l; tn_store := e; tn_tasks := ts |}
              {| tn_held := h; tn_state := l; tn_store := e'; tn_tasks := ts |}
| tn_take i k l e ts :
    ts !! i = Some (Call Take k) →
    turn_step {| tn_held := None; tn_state := l; tn_store := e; tn_tasks := ts |}
              {| tn_held := Some i; tn_state := l; tn_store := e; tn_tasks := <[i := k tt]> ts |}
| tn_release i k l e ts :
    ts !! i = Some (Call Release k) →
    turn_step {| tn_held := Some i; tn_state := l; tn_store := e; tn_tasks := ts |}
              {| tn_held := None; tn_state := l; tn_store := e; tn_tasks := <[i := k tt]> ts |}
| tn_do i R (c : C R) k h l e r l' e' ts :
    ts !! i = Some (Call (Do c) k) → call R c l e r l' e' →
    turn_step {| tn_held := h; tn_state := l; tn_store := e; tn_tasks := ts |}
              {| tn_held := h; tn_state := l'; tn_store := e'; tn_tasks := <[i := k r]> ts |}
| tn_dropped_waiting i k h l e ts :
    ts !! i = Some (Call Take k) →
    turn_step {| tn_held := h; tn_state := l; tn_store := e; tn_tasks := ts |}
              {| tn_held := h; tn_state := l; tn_store := e; tn_tasks := <[i := Ret tt]> ts |}
| tn_dropped i R (c : C R) k h l e ts :
    ts !! i = Some (Call (Do c) k) → awaited R c = true →
    turn_step {| tn_held := h; tn_state := l; tn_store := e; tn_tasks := ts |}
              {| tn_held := released i h; tn_state := l; tn_store := e; tn_tasks := <[i := Ret tt]> ts |}
(** Dropped once the storage has done what was asked of it. *)
| tn_lost i R (c : C R) k h l e r l' e' ts :
    ts !! i = Some (Call (Do c) k) → awaited R c = true → call R c l e r l' e' →
    turn_step {| tn_held := h; tn_state := l; tn_store := e; tn_tasks := ts |}
              {| tn_held := released i h; tn_state := l; tn_store := e'; tn_tasks := <[i := Ret tt]> ts |}.

(** ** A task run alone, from its start to its end *)

Inductive alone : bool → L → E → Prog Guarded unit → L → E → Prop :=
| al_ret l e : alone false l e (Ret tt) l e
| al_take l e k l' e' : alone true l e (k tt) l' e' → alone false l e (Call Take k) l' e'
| al_release l e k l' e' : alone false l e (k tt) l' e' → alone true l e (Call Release k) l' e'
| al_do h R (c : C R) l e r l1 e1 k l' e' :
    call R c l e r l1 e1 → alone h l1 e1 (k r) l' e' → alone h l e (Call (Do c) k) l' e'.

Lemma alone_turns ts h l e p l' e' :
  alone h l e p l' e' →
  star turn_step
    {| tn_held := if h then Some (length ts) else None; tn_state := l; tn_store := e; tn_tasks := ts ++ [p] |}
    {| tn_held := None; tn_state := l'; tn_store := e'; tn_tasks := ts ++ [Ret tt] |}.
Proof.
  assert (∀ p : Prog Guarded unit, (ts ++ [p]) !! length ts = Some p) as Hl by (intros q; by apply list_lookup_middle).
  assert (∀ p q : Prog Guarded unit, <[length ts := q]> (ts ++ [p]) = ts ++ [q]) as Hi.
  { intros q q'. by rewrite insert_app_r_alt, Nat.sub_diag by lia. }
  induction 1 as [l e|l e k l' e' _ IH|l e k l' e' _ IH|h R c l e r l1 e1 k l' e' Hc _ IH].
  - apply star_refl.
  - eapply star_step; [apply (tn_take (length ts)), Hl|]. by rewrite Hi.
  - eapply star_step; [apply (tn_release (length ts)), Hl|]. by rewrite Hi.
  - eapply star_step; [eapply (tn_do (length ts)); [apply Hl|exact Hc]|]. by rewrite Hi.
Qed.

(** Started and run to its end while nobody holds the mutex. *)
Lemma runs_alone ts l e p l' e' :
  starts p → alone false l e p l' e' →
  star turn_step {| tn_held := None; tn_state := l; tn_store := e; tn_tasks := ts |}
    {| tn_held := None; tn_state := l'; tn_store := e'; tn_tasks := ts ++ [Ret tt] |}.
Proof. intros Hp Ha. eapply star_step; [by apply tn_start|]. by apply (alone_turns ts) in Ha. Qed.

(** ** The rule *)

(** [Inv] of the state and the storage whenever the mutex is free, [Always] at every moment, and
    what anyone without the mutex may do to the storage. *)
Context (Inv Always : L → E → Prop) (rely : E → E → Prop).

(** What a task keeps to: [None] without the mutex; with it, the state as it is and what is known
    of the storage, which the others keep. *)
Fixpoint discipline (held : option (L * (E → Prop))) (p : Prog Guarded unit) : Prop :=
  match held with
  | None =>
      match p with
      | Ret _ => True
      | Call c k =>
          match c in Guarded R return (R → Prop) → (R → L → (E → Prop) → Prop) → Prop with
          | Take => λ out into, ∀ l e, Inv l e → ∃ P : E → Prop, P e ∧ into tt l P
          | Release => λ _ _, False
          | Do c => λ out _, ∀ l e r l' e', call _ c l e r l' e' → l' = l ∧ rely e e' ∧ out r
          end (λ r, discipline None (k r)) (λ r l P, discipline (Some (l, P)) (k r))
      end
  | Some (l, P) =>
      (∀ e e', rely e e' → P e → P e') ∧ (∀ e, P e → Always l e) ∧
      match p with
      | Ret _ => False
      | Call c k =>
          match c in Guarded R return (R → Prop) → (R → L → (E → Prop) → Prop) → Prop with
          | Take => λ _ _, False
          | Release => λ out _, (∀ e, P e → Inv l e) ∧ out tt
          | Do c => λ _ into,
              (awaited _ c = true → ∀ e, P e → Inv l e) ∧
              ∀ e r l' e', P e → call _ c l e r l' e' →
                (awaited _ c = true → Inv l e') ∧ ∃ P' : E → Prop, P' e' ∧ into r l' P'
          end (λ r, discipline None (k r)) (λ r l P, discipline (Some (l, P)) (k r))
      end
  end.

Context (inv_kept : ∀ l e e', rely e e' → Inv l e → Inv l e').
Context (inv_always : ∀ l e, Inv l e → Always l e).
Context (others_rely : ∀ e e', outside e e' → rely e e').
Context (starts_disciplined : ∀ p, starts p → discipline None p).

Definition turns_ok (s : Turns) : Prop :=
  (∀ i p, tn_tasks s !! i = Some p → tn_held s ≠ Some i → discipline None p) ∧
  match tn_held s with
  | None => Inv (tn_state s) (tn_store s)
  | Some i => ∃ P p, tn_tasks s !! i = Some p ∧ P (tn_store s) ∧ discipline (Some (tn_state s, P)) p
  end.

Lemma turns_ok_always s : turns_ok s → Always (tn_state s) (tn_store s).
Proof.
  intros [_ H]. destruct (tn_held s) as [i|]; [|by apply inv_always].
  destruct H as (P & p & _ & HP & Hp). destruct p; by apply Hp.
Qed.

(** The task [i] moves on, without the mutex; the others are as they were. *)
Lemma others_out (ts : list (Prog Guarded unit)) i p (h h' : option nat) :
  (∀ j q, ts !! j = Some q → h ≠ Some j → discipline None q) →
  (∀ j, j ≠ i → h' ≠ Some j → h ≠ Some j) → (h' ≠ Some i → discipline None p) →
  ∀ j q, <[i := p]> ts !! j = Some q → h' ≠ Some j → discipline None q.
Proof.
  intros H Hh Hp j q [(-> & -> & _)|[Hne Hj]]%list_lookup_insert_Some Hheld; [by apply Hp|].
  apply (H j q Hj). by apply Hh.
Qed.

Lemma held_released i h : (h = Some i → released i h = None) ∧ (h ≠ Some i → released i h = h).
Proof. unfold released. by destruct (decide (h = Some i)). Qed.

(** A task dropped at an awaited call, the storage being as it leaves it. *)
Lemma dropped_ok i R (c : C R) k h l e e' ts :
  turns_ok {| tn_held := h; tn_state := l; tn_store := e; tn_tasks := ts |} →
  ts !! i = Some (Call (Do c) k) → awaited R c = true →
  e' = e ∨ (∃ r l', call R c l e r l' e') →
  turns_ok {| tn_held := released i h; tn_state := l; tn_store := e'; tn_tasks := <[i := Ret tt]> ts |}.
Proof.
  intros [Hout Hin] Hi Haw He. unfold turns_ok in *. simpl in *. destruct (held_released i h) as [Hr1 Hr2].
  split.
  { apply (others_out ts i _ h); [done| |done]. intros j Hne Hj Hh. apply Hj. rewrite Hr2; [done|congruence]. }
  destruct (decide (h = Some i)) as [->|Hne].
  - rewrite Hr1 by done. destruct Hin as (P & p & Hp & HP & Hd). rewrite Hi in Hp. injection Hp as <-.
    destruct Hd as (_ & _ & Hd1 & Hd2). destruct He as [->|(r & l' & Hc)]; [by apply Hd1|]. by apply (Hd2 e r l' e').
  - rewrite Hr2 by done. assert (rely e e' ∨ e' = e) as Hrely.
    { destruct He as [->|(r & l' & Hc)]; [by right|left]. by apply (Hout i _ Hi Hne l e r l' e'). }
    destruct h as [j|].
    + destruct Hin as (P & p & Hp & HP & Hd). exists P, p. split.
      { rewrite list_lookup_insert_ne; [done|]. by intros ->. }
      split; [|done]. destruct Hrely as [Hre| ->]; [|done]. destruct p; by apply (proj1 Hd e).
    + destruct Hrely as [Hre| ->]; [|done]. by apply (inv_kept l e).
Qed.

Lemma turn_step_ok s s' : turns_ok s → turn_step s s' → turns_ok s'.
Proof.
  intros Hs Hstep. revert Hs.
  destruct Hstep as [h l e ts p Hp|h l e e' ts Ho|i k l e ts Hi|i k l e ts Hi|i R c k h l e r l' e' ts Hi Hc
    |i k h l e ts Hi|i R c k h l e ts Hi Ha|i R c k h l e r l' e' ts Hi Ha Hc]; intros Hs.
  - destruct Hs as [Hout Hin]. split; simpl in *.
    + intros i q [Hi|[_ Hi]]%lookup_app_Some Hh; [by apply (Hout i q)|].
      apply list_lookup_singleton_Some in Hi as [_ <-]. by apply starts_disciplined.
    + destruct h as [i|]; [|done]. destruct Hin as (P & q & Hq & ? & ?). exists P, q.
      split; [by apply lookup_app_l_Some|done].
  - destruct Hs as [Hout Hin]. split; simpl in *; [done|]. apply others_rely in Ho. destruct h as [i|].
    + destruct Hin as (P & q & ? & HP & Hd). exists P, q. split; [done|]. split; [|done].
      destruct q; by apply (proj1 Hd e).
    + by apply (inv_kept l e).
  - destruct Hs as [Hout Hin]. simpl in *. assert (discipline None (Call Take k)) as Hd by (by apply (Hout i)).
    destruct (Hd l e Hin) as (P & HP & Hk). split; simpl.
    + apply (others_out ts i _ None); [done|done|]. by intros [].
    + exists P, (k tt). split; [by apply list_lookup_insert_eq, (lookup_lt_Some _ _ _ Hi)|done].
  - destruct Hs as [Hout Hin]. simpl in *. destruct Hin as (P & q & Hq & HP & Hd). rewrite Hi in Hq. injection Hq as <-.
    destruct Hd as (_ & _ & Hinv & Hk). split; simpl; [|by apply Hinv].
    apply (others_out ts i _ (Some i)); [done| |done]. intros j Hne _ [=]. by apply Hne.
  - destruct Hs as [Hout Hin]. simpl in *. destruct (decide (h = Some i)) as [->|Hne].
    + destruct Hin as (P & q & Hq & HP & Hd). rewrite Hi in Hq. injection Hq as <-.
      destruct Hd as (_ & _ & _ & Hk). destruct (Hk e r l' e' HP Hc) as (_ & P' & HP' & Hk'). split; simpl.
      * apply (others_out ts i _ (Some i)); [done|done|]. by intros [].
      * exists P', (k r). split; [by apply list_lookup_insert_eq, (lookup_lt_Some _ _ _ Hi)|done].
    + destruct (Hout i _ Hi Hne l e r l' e' Hc) as (-> & Hre & Hk). split; simpl.
      * by apply (others_out ts i _ h).
      * destruct h as [j|]; [|by apply (inv_kept l e)]. destruct Hin as (P & q & Hq & HP & Hd). exists P, q.
        split; [rewrite list_lookup_insert_ne; [done|by intros ->]|]. split; [|done]. destruct q; by apply (proj1 Hd e).
  - destruct Hs as [Hout Hin]. simpl in *. split; simpl; [by apply (others_out ts i _ h)|].
    destruct h as [j|]; [|done]. destruct Hin as (P & q & Hq & HP & Hd). exists P, q. split; [|done].
    rewrite list_lookup_insert_ne; [done|]. intros ->. rewrite Hi in Hq. injection Hq as <-. by destruct Hd as (_ & _ & []).
  - apply (dropped_ok i R c k h l e e ts Hs Hi Ha). by left.
  - apply (dropped_ok i R c k h l e e' ts Hs Hi Ha). right. by exists r, l'.
Qed.

(** From a state with [Inv] and no task, [Always] holds at every moment. *)
Lemma turns_always l e s :
  Inv l e →
  star turn_step {| tn_held := None; tn_state := l; tn_store := e; tn_tasks := [] |} s →
  Always (tn_state s) (tn_store s).
Proof.
  intros Hinv Hs. apply turns_ok_always.
  apply (star_invariant turn_step turns_ok turn_step_ok _ _ Hs). by split.
Qed.

(** The rule, a call at a time. *)
Lemma out_do R (c : C R) k :
  (∀ l e r l' e', call R c l e r l' e' → l' = l ∧ rely e e' ∧ discipline None (k r)) →
  discipline None (Call (Do c) k).
Proof. done. Qed.

Lemma out_take k :
  (∀ l e, Inv l e → ∃ P : E → Prop, P e ∧ discipline (Some (l, P)) (k tt)) → discipline None (Call Take k).
Proof. done. Qed.

(** What is known of the storage includes [Inv]: the usual case. *)
Lemma in_release l (P : E → Prop) k :
  (∀ e e', rely e e' → P e → P e') → (∀ e, P e → Inv l e) → discipline None (k tt) →
  discipline (Some (l, P)) (Call Release k).
Proof. intros H1 H2 H3. simpl. split; [done|]. split; [auto|]. done. Qed.

Lemma in_do R (c : C R) l (P : E → Prop) k :
  (∀ e e', rely e e' → P e → P e') → (∀ e, P e → Inv l e) →
  (∀ e r l' e', P e → call R c l e r l' e' →
     (awaited R c = true → Inv l e') ∧ ∃ P' : E → Prop, P' e' ∧ discipline (Some (l', P')) (k r)) →
  discipline (Some (l, P)) (Call (Do c) k).
Proof. intros H1 H2 H3. simpl. split; [done|]. split; [auto|]. done. Qed.
End guarded.
#[global] Arguments discipline : simpl never.
Arguments Guarded : clear implicits.
Arguments Take {C}.
Arguments Release {C}.
Arguments Do {C R} c.

(** The guard's end with the function's value. *)
Definition leave {C : Type → Type} {A} (a : A) : Prog (Guarded C) A := do! Release in Ret a.
