(* ===== verification/Text.v ===== *)
(** * Text: Rust [str] values and the text helpers of the ledger

    A [String] is the list of its Unicode scalar values ([chars()]); byte lengths and
    byte offsets are computed from the UTF-8 width of each scalar value, and slicing at
    an offset that is not a character boundary (a panic in Rust) is [None].
    The first part models the standard library's operations the code uses; the second
    part ([cap_text] to [clean_ids]) is the "Text helpers" section of
    [crates/pond-core/src/shared/domain/long_task.rs]. *)
From S2P Require Import Prelude.
From Stdlib Require Import Ascii NArith Lia.
Local Open Scope N_scope.

(** [lia] treats division and remainder by their defining equations. *)
Ltac Zify.zify_post_hook ::= Z.to_euclidean_division_equations.

Notation text := (list N).

Definition lit (s : String.string) : text := N_of_ascii <$> String.list_ascii_of_string s.
Arguments lit s%_string_scope.

(** ** [char] *)

(** [char::is_whitespace]: the Unicode [White_Space] property. *)
Definition is_whitespace (c : N) : bool :=
  ((9 <=? c) && (c <=? 13)) || (c =? 32) || (c =? 133) || (c =? 160) || (c =? 5760) ||
  ((8192 <=? c) && (c <=? 8202)) || (c =? 8232) || (c =? 8233) || (c =? 8239) ||
  (c =? 8287) || (c =? 12288).

Definition is_ascii_lowercase (c : N) : bool := (97 <=? c) && (c <=? 122).
Definition is_ascii_uppercase (c : N) : bool := (65 <=? c) && (c <=? 90).
Definition is_ascii_digit (c : N) : bool := (48 <=? c) && (c <=? 57).
Definition to_ascii_lowercase (c : N) : N := if is_ascii_uppercase c then c + 32 else c.
Definition to_ascii_uppercase (c : N) : N := if is_ascii_lowercase c then c - 32 else c.

(** [char::len_utf8]. *)
Definition len_utf8 (c : N) : N :=
  if c <? 128 then 1 else if c <? 2048 then 2 else if c <? 65536 then 3 else 4.

(** ** [str] *)

Fixpoint drop_while {A} (p : A → bool) (l : list A) : list A :=
  match l with
  | [] => []
  | a :: l' => if p a then drop_while p l' else l
  end.

Definition trim_start (t : text) : text := drop_while is_whitespace t.
Definition trim_end_matches (p : N → bool) (t : text) : text :=
  reverse (drop_while p (reverse t)).
Definition trim_end (t : text) : text := trim_end_matches is_whitespace t.
Definition trim (t : text) : text := trim_end (trim_start t).
Definition is_empty {A} (l : list A) : bool := match l with [] => true | _ => false end.
Definition lowercase (t : text) : text := to_ascii_lowercase <$> t.

(** [str::len], in bytes. *)
Fixpoint byte_len (t : text) : N :=
  match t with [] => 0 | c :: t => len_utf8 c + byte_len t end.

(** [&text[n..]] and [&text[..n]]: [None] is the panic on a byte inside a character. *)
Fixpoint byte_drop (t : text) (n : N) : option text :=
  if n =? 0 then Some t else
  match t with
  | [] => None
  | c :: t => if len_utf8 c <=? n then byte_drop t (n - len_utf8 c) else None
  end.
Fixpoint byte_take (t : text) (n : N) : option text :=
  if n =? 0 then Some [] else
  match t with
  | [] => None
  | c :: t => if len_utf8 c <=? n then cons c <$> byte_take t (n - len_utf8 c) else None
  end.
Definition byte_slice (t : text) (a b : N) : option text :=
  if a <=? b then rest ← byte_drop t a; byte_take rest (b - a) else None.
Definition is_char_boundary (t : text) (n : N) : bool := bool_decide (is_Some (byte_drop t n)).

(** [str::split] by a character, and [str::split_whitespace]. *)
Fixpoint split_on (p : N → bool) (t : text) : list text :=
  match t with
  | [] => [[]]
  | c :: t =>
      if p c then [] :: split_on p t
      else match split_on p t with
           | w :: ws => (c :: w) :: ws
           | [] => [[c]]
           end
  end.
Definition split_whitespace (t : text) : list text :=
  List.filter (λ w, negb (is_empty w)) (split_on is_whitespace t).
Fixpoint join (sep : text) (ws : list text) : text :=
  match ws with
  | [] => []
  | [w] => w
  | w :: ws => w ++ sep ++ join sep ws
  end.

(** The decimal digits of [{n}]. *)
Fixpoint dec_fuel (fuel : nat) (n : N) (acc : text) : text :=
  match fuel with
  | O => acc
  | S fuel =>
      let acc := (48 + n mod 10) :: acc in
      if n <? 10 then acc else dec_fuel fuel (n / 10) acc
  end.
Definition dec (n : N) : text := dec_fuel (S (N.to_nat (N.log2 n))) n [].

(** [starts_with], and [find] as the index of the first character of the match. *)
Fixpoint starts_with (pat t : text) : bool :=
  match pat, t with
  | [], _ => true
  | p :: pat, c :: t => (p =? c) && starts_with pat t
  | _ :: _, [] => false
  end.
Fixpoint find_sub (pat t : text) : option nat :=
  if starts_with pat t then Some 0%nat
  else match t with [] => None | _ :: t => S <$> find_sub pat t end.

(** [Ord for str]: bytewise, which on UTF-8 is scalar value by scalar value. *)
Fixpoint text_compare (a b : text) : comparison :=
  match a, b with
  | [], [] => Eq
  | [], _ :: _ => Lt
  | _ :: _, [] => Gt
  | x :: a, y :: b => match (x ?= y)%N with Eq => text_compare a b | c => c end
  end.
Definition text_ltb (a b : text) : bool :=
  match text_compare a b with Lt => true | _ => false end.

(** ** Looking for a boundary *)

(** [while end > 0 && !text.is_char_boundary(end) { end -= 1 }]. *)
Fixpoint walk_back (t : text) (end_ : nat) : nat :=
  match end_ with
  | O => O
  | S before => if is_char_boundary t (N.of_nat end_) then end_ else walk_back t before
  end.

(** [while start < text.len() && !text.is_char_boundary(start) { start += 1 }]; [gap] is the
    distance to the end of the text. *)
Fixpoint walk_on (t : text) (start : N) (gap : nat) : N :=
  match gap with
  | O => start
  | S gap => if is_char_boundary t start then start else walk_on t (start + 1) gap
  end.

(** ** Text helpers of [long_task.rs] *)

Definition cut_marker (max_chars : nat) : text :=
  lit " [cut to " ++ dec (N.of_nat max_chars) ++ lit " characters]".

(** Cut to [max_chars] on a char boundary, ending with a note. *)
Definition cap_text (t : text) (max_chars : nat) : text :=
  let t := trim t in
  if (length t <=? max_chars)%nat then t else
  let marker := cut_marker max_chars in
  let marker_chars := length marker in
  if (max_chars <=? marker_chars)%nat then take max_chars t else
  trim_end (take (max_chars - marker_chars) t) ++ marker.

Definition MAX_STEP_SUMMARY_CHARS : nat := 600.

Definition non_blank (t : option text) : option text :=
  match trim <$> t with
  | Some t => if is_empty t then None else Some t
  | None => None
  end.

Definition capped (t : option text) : option text :=
  (λ t, cap_text t MAX_STEP_SUMMARY_CHARS) <$> non_blank t.

Definition one_line (t : text) : text := join (lit " ") (split_whitespace t).

Fixpoint clean_ids_loop (out ids : list text) : list text :=
  match ids with
  | [] => out
  | id :: ids =>
      let id := trim id in
      if negb (is_empty id) && negb (bool_decide (id ∈ out))
      then clean_ids_loop (out ++ [id]) ids
      else clean_ids_loop out ids
  end.
Definition clean_ids (ids : list text) : list text := clean_ids_loop [] ids.

Example cap_text_cuts :
  cap_text (lit "  0123456789012345678901234567890123456789  ") 35
  = lit "012345678901 [cut to 35 characters]".
Proof. reflexivity. Qed.
Example one_line_folds : one_line (lit "  a   b c ") = lit "a b c".
Proof. reflexivity. Qed.
Example clean_ids_drops : clean_ids [lit " a"; lit ""; lit "b"; lit "a "] = [lit "a"; lit "b"].
Proof. reflexivity. Qed.

(** ** Lemmas: trimming *)

Lemma drop_while_suffix {A} (p : A → bool) l : ∃ k, l = k ++ drop_while p l ∧ Forall (λ a, p a = true) k.
Proof.
  induction l as [|a l (k & IH & Hk)]; simpl; [by exists []|].
  destruct (p a) eqn:Hp; [|by exists []].
  exists (a :: k). split; [simpl; congruence|by constructor].
Qed.

Lemma drop_while_head {A} (p : A → bool) l a : head (drop_while p l) = Some a → p a = false.
Proof. induction l as [|b l IH]; simpl; [done|]. destruct (p b) eqn:Hb; [done|]. by intros [= ->]. Qed.

Lemma drop_while_id {A} (p : A → bool) l :
  (∀ a, head l = Some a → p a = false) → drop_while p l = l.
Proof. destruct l as [|a l]; simpl; [done|]. intros H. by rewrite (H a). Qed.

Lemma drop_while_length {A} (p : A → bool) l : (length (drop_while p l) ≤ length l)%nat.
Proof. induction l as [|a l IH]; simpl; [done|]. destruct (p a); simpl; lia. Qed.

Lemma drop_while_nil {A} (p : A → bool) l : drop_while p l = [] ↔ Forall (λ a, p a = true) l.
Proof.
  induction l as [|a l IH]; simpl; [by split|].
  destruct (p a) eqn:Hp; [rewrite IH; by rewrite Forall_cons; naive_solver|].
  split; [done|]. rewrite Forall_cons. intros [? _]. congruence.
Qed.

Lemma trim_end_matches_prefix p t : ∃ k, t = trim_end_matches p t ++ k ∧ Forall (λ a, p a = true) k.
Proof.
  unfold trim_end_matches. destruct (drop_while_suffix p (reverse t)) as (k & Hk & Hp).
  exists (reverse k). rewrite <-reverse_app, <-Hk, reverse_involutive. split; [done|].
  by apply Forall_reverse.
Qed.

Lemma trim_end_matches_last p t a : last (trim_end_matches p t) = Some a → p a = false.
Proof.
  unfold trim_end_matches. rewrite last_reverse. apply drop_while_head.
Qed.

Lemma trim_end_matches_id p t :
  (∀ a, last t = Some a → p a = false) → trim_end_matches p t = t.
Proof.
  intros H. unfold trim_end_matches. rewrite drop_while_id, reverse_involutive; [done|].
  intros a. rewrite head_reverse. apply H.
Qed.

Lemma trim_end_matches_length p t : (length (trim_end_matches p t) ≤ length t)%nat.
Proof. unfold trim_end_matches. rewrite length_reverse, <-(length_reverse t). apply drop_while_length. Qed.

Lemma trim_end_matches_head p t a :
  head (trim_end_matches p t) = Some a → head t = Some a.
Proof.
  destruct (trim_end_matches_prefix p t) as (k & Ht & _). rewrite Ht at 2.
  by destruct (trim_end_matches p t).
Qed.

Lemma trim_end_matches_prefix_of p t : trim_end_matches p t `prefix_of` t.
Proof. destruct (trim_end_matches_prefix p t) as (k & Ht & _). by exists k. Qed.

(** What [trim] leaves: neither end is whitespace. *)
Definition trimmed (t : text) : Prop :=
  (∀ c, head t = Some c → is_whitespace c = false) ∧
  (∀ c, last t = Some c → is_whitespace c = false).

Lemma trim_trimmed t : trimmed (trim t).
Proof.
  split; intros c.
  - intros H%trim_end_matches_head. by apply drop_while_head in H.
  - apply trim_end_matches_last.
Qed.

Lemma trimmed_trim t : trimmed t → trim t = t.
Proof.
  intros [Hh Hl]. unfold trim, trim_start. rewrite drop_while_id by done.
  by apply trim_end_matches_id.
Qed.

Lemma trim_idemp t : trim (trim t) = trim t.
Proof. apply trimmed_trim, trim_trimmed. Qed.

Lemma trim_length t : (length (trim t) ≤ length t)%nat.
Proof.
  unfold trim, trim_end, trim_start. pose proof (trim_end_matches_length is_whitespace (drop_while is_whitespace t)).
  pose proof (drop_while_length is_whitespace t). lia.
Qed.

Lemma trimmed_app a b : trimmed a → trimmed b → a ≠ [] → b ≠ [] → trimmed (a ++ b).
Proof.
  intros [Ha _] [_ Hb] Hna Hnb. destruct a as [|x a]; [done|]. split; [apply Ha|].
  intros c. rewrite last_app. destruct (last b) eqn:E; [|by apply last_None in E].
  intros [= ->]. by apply Hb.
Qed.

#[export] Hint Resolve trim_trimmed : pond.

Lemma is_empty_true {A} (l : list A) : is_empty l = true ↔ l = [].
Proof. by destruct l. Qed.
Lemma is_empty_false {A} (l : list A) : is_empty l = false ↔ l ≠ [].
Proof. by destruct l. Qed.
#[export] Hint Rewrite @is_empty_true @is_empty_false : pond.

(** ** Lemmas: decimals *)

Lemma dec_fuel_app fuel n acc : dec_fuel fuel n acc = dec_fuel fuel n [] ++ acc.
Proof.
  revert n acc. induction fuel as [|fuel IH]; intros n acc; cbn -[N.div N.modulo]; [done|].
  destruct (n <? 10); [done|].
  rewrite IH, (IH _ [_]). by rewrite <-app_assoc.
Qed.

Definition undec (t : text) : N := foldl (λ v d, v * 10 + (d - 48)) 0 t.

Lemma dec_fuel_undec fuel n : n < 10 ^ N.of_nat fuel → undec (dec_fuel fuel n []) = n.
Proof.
  revert n. induction fuel as [|fuel IH]; intros n; cbn -[N.div N.modulo]; [change (N.of_nat 0) with 0; rewrite N.pow_0_r; unfold undec; simpl; lia|].
  pose proof (N.div_mod n 10 ltac:(done)) as Hdiv. pose proof (N.mod_lt n 10 ltac:(done)).
  destruct (N.ltb_spec n 10) as [Hn|Hn].
  - intros _. unfold undec. cbn -[N.modulo N.sub]. rewrite N.mod_small by done. lia.
  - change (N.pos (Pos.of_succ_nat fuel)) with (N.of_nat (S fuel)).
    rewrite Nat2N.inj_succ, N.pow_succ_r'. intros Hlt.
    rewrite dec_fuel_app. unfold undec. rewrite foldl_app. fold (undec (dec_fuel fuel (n / 10) [])).
    rewrite IH by (apply N.Div0.div_lt_upper_bound; lia). change (n / 10 * 10 + (48 + n mod 10 - 48) = n). lia.
Qed.

Lemma lt_pow10_log2 n : n < 10 ^ N.of_nat (S (N.to_nat (N.log2 n))).
Proof.
  rewrite Nat2N.inj_succ, N2Nat.id. destruct (N.eq_dec n 0) as [->|Hn]; [done|].
  destruct (N.log2_spec n ltac:(lia)) as [_ Hlt].
  eapply N.lt_le_trans; [done|]. by apply N.pow_le_mono_l.
Qed.

Lemma dec_undec n : undec (dec n) = n.
Proof. apply dec_fuel_undec, lt_pow10_log2. Qed.

Lemma dec_inj n m : dec n = dec m → n = m.
Proof. intros H. by rewrite <-(dec_undec n), H, dec_undec. Qed.

Lemma dec_fuel_length fuel n k :
  n < 10 ^ N.of_nat (S k) → (length (dec_fuel fuel n []) ≤ S k)%nat.
Proof.
  revert n k. induction fuel as [|fuel IH]; intros n k Hn; cbn -[N.div N.modulo]; [simpl; lia|].
  destruct (N.ltb_spec n 10); [simpl; lia|]. rewrite dec_fuel_app, length_app. simpl.
  destruct k as [|k]; [change (10 ^ N.of_nat 1) with 10 in Hn; lia|].
  enough (length (dec_fuel fuel (n / 10) []) ≤ S k)%nat by lia.
  apply IH. rewrite Nat2N.inj_succ, N.pow_succ_r' in Hn.
  apply N.Div0.div_lt_upper_bound. lia.
Qed.

(** A [usize] prints in at most twenty digits. *)
Lemma dec_length_usize n : n ≤ u64_max → (length (dec n) ≤ 20)%nat.
Proof. intros Hn. apply dec_fuel_length. unfold u64_max in Hn. simpl. lia. Qed.

Lemma dec_fuel_digits fuel n acc :
  Forall (λ c, is_ascii_digit c = true) acc →
  Forall (λ c, is_ascii_digit c = true) (dec_fuel fuel n acc).
Proof.
  revert n acc. induction fuel as [|fuel IH]; intros n acc Hacc; cbn -[N.div N.modulo]; [done|].
  assert (Forall (λ c, is_ascii_digit c = true) (48 + n mod 10 :: acc)).
  { constructor; [|done]. pose proof (N.mod_lt n 10 ltac:(done)).
    unfold is_ascii_digit. apply andb_true_intro. split; apply N.leb_le; lia. }
  destruct (n <? 10); [done|]. by apply IH.
Qed.

Lemma dec_digits n : Forall (λ c, is_ascii_digit c = true) (dec n).
Proof. by apply dec_fuel_digits. Qed.

Lemma dec_nonempty n : dec n ≠ [].
Proof.
  unfold dec. cbn -[N.div N.modulo]. destruct (n <? 10); [done|].
  rewrite dec_fuel_app. by destruct (dec_fuel _ _ _).
Qed.

(** ** Lemmas: searching *)

Lemma starts_with_spec m t : starts_with m t = true ↔ ∃ r, t = m ++ r.
Proof.
  revert t. induction m as [|c m IH]; intros t; simpl; [split; [by exists t|done]|].
  destruct t as [|d t]; [by split; [|intros (r & [=])]|].
  rewrite andb_true_iff, N.eqb_eq, IH. split.
  - intros [-> (r & ->)]. by exists r.
  - intros (r & [= -> ->]). split; [done|by exists r].
Qed.

Lemma find_sub_Some pat t i : find_sub pat t = Some i → ∃ a b, t = a ++ pat ++ b ∧ length a = i.
Proof.
  revert i. induction t as [|c t IH]; intros i; cbn [find_sub].
  - destruct (starts_with pat []) eqn:E; [|done]. intros [= <-]. exists [], [].
    destruct pat; [done|]. simpl in E. done.
  - destruct (starts_with pat (c :: t)) eqn:E.
    + intros [= <-]. apply starts_with_spec in E as (b & Hb). by exists [], b.
    + intros H. apply fmap_Some in H as (j & (a & b & -> & <-)%IH & ->).
      exists (c :: a), b. done.
Qed.

(** ** Lemmas: byte offsets *)

Lemma len_utf8_pos c : 0 < len_utf8 c.
Proof. unfold len_utf8. repeat case_match; lia. Qed.

Lemma byte_len_app a b : byte_len (a ++ b) = byte_len a + byte_len b.
Proof. induction a as [|c a IH]; simpl; [done|]. lia. Qed.

Lemma byte_len_ge_length t : (N.of_nat (length t) ≤ byte_len t).
Proof. induction t as [|c t IH]; simpl; [lia|]. pose proof (len_utf8_pos c). lia. Qed.

Lemma byte_drop_0 t : byte_drop t 0 = Some t.
Proof. by destruct t. Qed.

Lemma byte_drop_app a b : byte_drop (a ++ b) (byte_len a) = Some b.
Proof.
  induction a as [|c a IH]; simpl; [apply byte_drop_0|].
  pose proof (len_utf8_pos c). rewrite (proj2 (N.eqb_neq _ _)) by lia.
  rewrite (proj2 (N.leb_le _ _)) by lia. by replace (_ + _ - _) with (byte_len a) by lia.
Qed.

Lemma byte_take_app a b : byte_take (a ++ b) (byte_len a) = Some a.
Proof.
  induction a as [|c a IH]; simpl; [by destruct b|].
  pose proof (len_utf8_pos c). rewrite (proj2 (N.eqb_neq _ _)) by lia.
  rewrite (proj2 (N.leb_le _ _)) by lia. replace (_ + _ - _) with (byte_len a) by lia. by rewrite IH.
Qed.

Lemma byte_drop_Some t n r : byte_drop t n = Some r → ∃ a, t = a ++ r ∧ byte_len a = n.
Proof.
  revert n. induction t as [|c t IH]; intros n; simpl.
  - destruct (N.eqb_spec n 0); [|done]. intros [= <-]. by exists [].
  - destruct (N.eqb_spec n 0); [intros [= <-]; by exists []|].
    destruct (N.leb_spec (len_utf8 c) n); [|done].
    intros (a & -> & Ha)%IH. exists (c :: a). split; [done|]. simpl. lia.
Qed.

(** An offset between two characters. *)
Definition boundary (t : text) (n : N) : Prop := ∃ a r, t = a ++ r ∧ byte_len a = n.

Lemma is_char_boundary_true t n : is_char_boundary t n = true ↔ boundary t n.
Proof.
  unfold is_char_boundary. rewrite bool_decide_eq_true. split.
  - intros (r & (a & -> & Ha)%byte_drop_Some). by exists a, r.
  - intros (a & r & -> & <-). rewrite byte_drop_app. by eexists.
Qed.

Lemma boundary_0 t : boundary t 0.
Proof. by exists [], t. Qed.
Lemma boundary_len t : boundary t (byte_len t).
Proof. exists t, []. by rewrite app_nil_r. Qed.
Lemma boundary_le t n : boundary t n → n ≤ byte_len t.
Proof. intros (a & r & -> & <-). rewrite byte_len_app. lia. Qed.
Lemma boundary_cons c t n : boundary t n → boundary (c :: t) (len_utf8 c + n).
Proof. intros (a & r & -> & <-). by exists (c :: a), r. Qed.

Lemma len_utf8_le_4 c : len_utf8 c ≤ 4.
Proof. unfold len_utf8. repeat case_match; lia. Qed.

(** A boundary is never more than three bytes away, on either side. *)
Lemma boundary_near t n : n ≤ byte_len t →
  (∃ b, boundary t b ∧ b ≤ n < b + 4) ∧ (∃ b, boundary t b ∧ n ≤ b < n + 4).
Proof.
  revert n. induction t as [|c t IH]; intros n Hn.
  { simpl in Hn. split; exists 0; (split; [apply boundary_0|lia]). }
  simpl in Hn. pose proof (len_utf8_le_4 c). pose proof (len_utf8_pos c).
  destruct (N.ltb_spec n (len_utf8 c)) as [Hlt|Hge].
  - split; [exists 0; split; [apply boundary_0|lia]|].
    destruct (N.eq_dec n 0) as [->|]; [exists 0; split; [apply boundary_0|lia]|].
    exists (len_utf8 c + 0). split; [apply boundary_cons, boundary_0|lia].
  - destruct (IH (n - len_utf8 c) ltac:(lia)) as [(b & Hb & Hbn) (b' & Hb' & Hbn')].
    split; [exists (len_utf8 c + b)|exists (len_utf8 c + b')];
      (split; [by apply boundary_cons|lia]).
Qed.

Lemma walk_back_spec t e :
  let w := N.of_nat (walk_back t e) in
  boundary t w ∧ w ≤ N.of_nat e ∧ ∀ b, boundary t b → b ≤ N.of_nat e → b ≤ w.
Proof.
  induction e as [|e IH]; cbn -[N.of_nat].
  { split; [apply boundary_0|]. split; [lia|]. intros. lia. }
  destruct (is_char_boundary t (N.of_nat (S e))) eqn:Hb.
  { apply is_char_boundary_true in Hb. split; [done|]. split; [lia|]. intros. lia. }
  destruct IH as (H1 & H2 & H3). split; [done|]. split; [lia|].
  intros b Hbb Hle. destruct (N.eq_dec b (N.of_nat (S e))) as [->|].
  - apply is_char_boundary_true in Hbb. congruence.
  - apply H3; [done|lia].
Qed.

Lemma walk_on_spec t start gap : start + N.of_nat gap = byte_len t →
  let w := walk_on t start gap in
  boundary t w ∧ start ≤ w ∧ ∀ b, boundary t b → start ≤ b → w ≤ b.
Proof.
  revert start. induction gap as [|gap IH]; intros start Hs; cbn -[N.of_nat] in *.
  { replace start with (byte_len t) by lia. split; [apply boundary_len|]. split; [lia|]. intros. lia. }
  destruct (is_char_boundary t start) eqn:Hb.
  { apply is_char_boundary_true in Hb. split; [done|]. split; [lia|]. intros. lia. }
  destruct (IH (start + 1) ltac:(lia)) as (H1 & H2 & H3). split; [done|]. split; [lia|].
  intros b Hbb Hle. destruct (N.eq_dec b start) as [->|].
  - apply is_char_boundary_true in Hbb. congruence.
  - apply H3; [done|lia].
Qed.

(** Two boundaries in order cut a text in three, and the middle can be sliced. *)
Lemma boundary_between t n m : boundary t n → boundary t m → n ≤ m →
  ∃ a mid b, t = a ++ mid ++ b ∧ byte_len a = n ∧ byte_len mid = m - n.
Proof.
  intros (a & r & Ht & Ha) (a' & b & Ht' & Ha') Hle.
  assert (∃ mid, a' = a ++ mid) as [mid ->].
  { rewrite Ht in Ht'. apply app_eq_inv in Ht' as [(k & -> & _)|(k & -> & _)]; [|by eexists].
    rewrite byte_len_app in Ha. destruct k as [|c k]; [exists []; by rewrite !app_nil_r|].
    simpl in Ha. pose proof (len_utf8_pos c). lia. }
  rewrite byte_len_app in Ha'. exists a, mid, b. rewrite <-app_assoc in Ht'. split; [done|]. split; [done|lia].
Qed.

Lemma byte_slice_app a mid b : byte_slice (a ++ mid ++ b) (byte_len a) (byte_len a + byte_len mid) = Some mid.
Proof.
  unfold byte_slice. rewrite (proj2 (N.leb_le _ _)) by lia. rewrite byte_drop_app. simpl.
  replace (_ + _ - _) with (byte_len mid) by lia. apply byte_take_app.
Qed.

(** Slicing between the offsets of two characters never panics. *)
Lemma byte_slice_chars t i j : (i ≤ j)%nat →
  byte_slice t (byte_len (take i t)) (byte_len (take j t)) = Some (take (j - i) (drop i t)).
Proof.
  intros Hij. unfold byte_slice.
  assert (take j t = take i t ++ take (j - i) (drop i t)) as E.
  { rewrite <-(take_drop i t) at 1. rewrite take_app.
    destruct (decide (i ≤ length t)%nat).
    - rewrite length_take_le by done. by rewrite take_take, Nat.min_r by done.
    - rewrite drop_ge, !take_nil, !app_nil_r by lia. by rewrite take_take, Nat.min_r by done. }
  rewrite E, byte_len_app. rewrite (proj2 (N.leb_le _ _)) by lia.
  rewrite <-(take_drop i t) at 1. rewrite byte_drop_app. simpl.
  replace (_ + _ - _) with (byte_len (take (j - i) (drop i t))) by lia.
  rewrite <-(take_drop (j - i) (drop i t)) at 1. by rewrite byte_take_app.
Qed.

(** ** Lemmas: capping *)

Lemma cut_marker_shape m :
  cut_marker m = [32] ++ lit "[cut to " ++ dec (N.of_nat m) ++ lit " characters" ++ [93].
Proof. unfold cut_marker. simpl. by rewrite <-?app_assoc. Qed.

Lemma cap_text_length t m : (length (cap_text t m) ≤ m)%nat.
Proof.
  unfold cap_text. destruct (Nat.leb_spec (length (trim t)) m); [done|].
  destruct (Nat.leb_spec m (length (cut_marker m))).
  - rewrite length_take. lia.
  - rewrite length_app. pose proof (trim_end_matches_length is_whitespace
      (take (m - length (cut_marker m)) (trim t))) as Hlen.
    fold (trim_end (take (m - length (cut_marker m)) (trim t))) in Hlen.
    rewrite length_take in Hlen. lia.
Qed.

Lemma trim_end_take_nonempty n t :
  trimmed t → (0 < n)%nat → t ≠ [] → trim_end (take n t) ≠ [].
Proof.
  intros [Hh _] Hn Ht Hnil. destruct t as [|c t]; [done|]. destruct n as [|n]; [lia|].
  unfold trim_end, trim_end_matches in Hnil. apply (f_equal reverse) in Hnil.
  rewrite reverse_involutive, reverse_nil, drop_while_nil, Forall_reverse in Hnil.
  simpl in Hnil. apply Forall_cons_1 in Hnil as [Hc _]. rewrite (Hh c eq_refl) in Hc. done.
Qed.

Lemma trim_end_trimmed t : (∀ c, head t = Some c → is_whitespace c = false) → trimmed (trim_end t).
Proof.
  intros Hh. split; intros c.
  - intros H%trim_end_matches_head. by apply Hh.
  - apply trim_end_matches_last.
Qed.

Lemma head_take {A} n (l : list A) a : head (take n l) = Some a → head l = Some a.
Proof. by destruct n, l. Qed.

Lemma cap_text_trimmed t m : (length (cut_marker m) < m)%nat → trimmed (cap_text t m).
Proof.
  intros Hm. unfold cap_text. destruct (Nat.leb_spec (length (trim t)) m) as [|Hlen]; [apply trim_trimmed|].
  rewrite (proj2 (Nat.leb_gt _ _)) by done. pose proof (trim_trimmed t) as Ht.
  set (n := (m - length (cut_marker m))%nat). assert (trim t ≠ []) as Hne by (intros E; rewrite E in Hlen; simpl in Hlen; lia).
  pose proof (trim_end_take_nonempty n _ Ht ltac:(lia) Hne) as Hne'.
  assert (trimmed (trim_end (take n (trim t)))) as [Hh _].
  { apply trim_end_trimmed. intros c Hc%head_take. by apply (proj1 Ht). }
  split.
  - intros c. destruct (trim_end (take n (trim t))) as [|x l]; [done|]. apply Hh.
  - intros c. rewrite cut_marker_shape, !app_assoc, last_snoc. by intros [= <-].
Qed.

Lemma cap_text_idemp t m : (length (cut_marker m) < m)%nat → cap_text (cap_text t m) m = cap_text t m.
Proof.
  intros Hm. unfold cap_text at 1. rewrite trimmed_trim by by apply cap_text_trimmed.
  rewrite (proj2 (Nat.leb_le _ _)) by apply cap_text_length. done.
Qed.

Lemma cap_text_nonempty t m : (length (cut_marker m) < m)%nat → trim t ≠ [] → cap_text t m ≠ [].
Proof.
  intros Hm Ht. unfold cap_text. destruct (Nat.leb_spec (length (trim t)) m); [done|].
  rewrite (proj2 (Nat.leb_gt _ _)) by done. rewrite cut_marker_shape.
  intros [_ E]%app_nil. done.
Qed.

Lemma cap_text_short t m : trimmed t → (length t ≤ m)%nat → cap_text t m = t.
Proof. intros Ht Hl. unfold cap_text. by rewrite trimmed_trim, (proj2 (Nat.leb_le _ _)). Qed.

Lemma non_blank_Some o t : non_blank o = Some t → trimmed t ∧ t ≠ [].
Proof.
  unfold non_blank. destruct o as [u|]; simpl; [|done].
  destruct (is_empty (trim u)) eqn:E; [done|]. intros [= <-].
  apply is_empty_false in E. by split; [apply trim_trimmed|].
Qed.

Lemma non_blank_id t : trimmed t → t ≠ [] → non_blank (Some t) = Some t.
Proof.
  intros Ht Hne. unfold non_blank. simpl. rewrite trimmed_trim by done.
  apply is_empty_false in Hne. by rewrite Hne.
Qed.

Lemma non_blank_idemp o : non_blank (non_blank o) = non_blank o.
Proof.
  destruct (non_blank o) as [t|] eqn:E; [|done].
  apply non_blank_Some in E as [??]. by apply non_blank_id.
Qed.

Lemma summary_marker_fits : (length (cut_marker MAX_STEP_SUMMARY_CHARS) < MAX_STEP_SUMMARY_CHARS)%nat.
Proof. apply Nat.ltb_lt. vm_compute. reflexivity. Qed.

Lemma capped_Some o t : capped o = Some t →
  trimmed t ∧ t ≠ [] ∧ (length t ≤ MAX_STEP_SUMMARY_CHARS)%nat.
Proof.
  unfold capped. destruct (non_blank o) as [u|] eqn:E; [|done]. simpl. intros [= <-].
  apply non_blank_Some in E as [Hu Hne].
  split; [apply cap_text_trimmed, summary_marker_fits|].
  split; [|apply cap_text_length]. apply cap_text_nonempty; [apply summary_marker_fits|]. by rewrite trimmed_trim.
Qed.

Lemma capped_id t : trimmed t → t ≠ [] → (length t ≤ MAX_STEP_SUMMARY_CHARS)%nat →
  capped (Some t) = Some t.
Proof.
  intros Ht Hne Hl. unfold capped. rewrite non_blank_id by done. simpl.
  by rewrite cap_text_short.
Qed.

Lemma capped_idemp o : capped (capped o) = capped o.
Proof.
  destruct (capped o) as [t|] eqn:E; [|done].
  apply capped_Some in E as (?&?&?). by apply capped_id.
Qed.

(** ** Lemmas: one-line text is words joined by single spaces *)

Definition word (w : text) : Prop := w ≠ [] ∧ Forall (λ c, is_whitespace c = false) w.
Definition one_lined (t : text) : Prop := ∃ ws, Forall word ws ∧ t = join (lit " ") ws.

Lemma split_on_nonempty p t : split_on p t ≠ [].
Proof. destruct t as [|c t]; simpl; [done|]. destruct (p c); [done|]. by destruct (split_on p t). Qed.

Lemma split_on_words p t : Forall (λ w, Forall (λ c, p c = false) w) (split_on p t).
Proof.
  induction t as [|c t IH]; simpl; [repeat constructor|].
  destruct (p c) eqn:Hc; [by repeat constructor|].
  destruct (split_on p t) as [|w ws]; [by repeat constructor|].
  apply Forall_cons in IH as [??]. by repeat constructor.
Qed.

Lemma split_whitespace_words t : Forall word (split_whitespace t).
Proof.
  apply Forall_forall. intros w Hw%list_elem_of_In%filter_In.
  destruct Hw as [Hw%list_elem_of_In Hne]. split.
  - apply negb_true_iff in Hne. by apply is_empty_false.
  - by apply (proj1 (Forall_forall _ _) (split_on_words is_whitespace t)).
Qed.

Lemma split_on_word_app p w t : Forall (λ c, p c = false) w →
  split_on p (w ++ t) = match split_on p t with v :: vs => (w ++ v) :: vs | [] => [w] end.
Proof.
  induction 1 as [|c w Hc Hw IH]; simpl.
  - pose proof (split_on_nonempty p t). by destruct (split_on p t).
  - rewrite Hc, IH. pose proof (split_on_nonempty p t). by destruct (split_on p t).
Qed.

Lemma split_whitespace_join ws : Forall word ws → split_whitespace (join (lit " ") ws) = ws.
Proof.
  induction 1 as [|w ws [Hne Hw] Hws IH]; [done|]. unfold split_whitespace in *.
  destruct ws as [|v ws].
  - simpl. rewrite <-(app_nil_r w) at 1. rewrite split_on_word_app by done. simpl.
    rewrite app_nil_r. by apply is_empty_false in Hne as ->.
  - cbn [join]. rewrite split_on_word_app by done. cbn -[join split_on]. simpl (split_on _ (_ :: _)).
    simpl. rewrite app_nil_r. apply is_empty_false in Hne as ->. simpl. by f_equal.
Qed.

Lemma one_line_one_lined t : one_lined (one_line t).
Proof. exists (split_whitespace t). split; [apply split_whitespace_words|done]. Qed.

Lemma one_lined_one_line t : one_lined t → one_line t = t.
Proof. intros (ws & Hws & ->). unfold one_line. by rewrite split_whitespace_join. Qed.

Lemma one_line_idemp t : one_line (one_line t) = one_line t.
Proof. apply one_lined_one_line, one_line_one_lined. Qed.

Lemma join_cons_app sep w ws : ws ≠ [] → join sep (w :: ws) = w ++ sep ++ join sep ws.
Proof. by destruct ws. Qed.

Lemma join_app sep ws vs : ws ≠ [] → vs ≠ [] →
  join sep (ws ++ vs) = join sep ws ++ sep ++ join sep vs.
Proof.
  intros Hws Hvs. induction ws as [|w ws IH]; [done|].
  destruct ws as [|w' ws]; [by destruct vs|].
  rewrite <-app_comm_cons. rewrite (join_cons_app _ w), (join_cons_app _ w) by done. rewrite IH by done. by rewrite <-!app_assoc.
Qed.

Lemma word_ends w : word w → trimmed w.
Proof.
  intros [_ Hw]. rewrite Forall_forall in Hw. split; intros c Hc; apply Hw.
  - destruct w; [done|]. injection Hc as ->. by left.
  - by apply last_Some_elem_of.
Qed.

Lemma join_words_nonempty ws : Forall word ws → ws ≠ [] → join (lit " ") ws ≠ [].
Proof.
  destruct 1 as [|w ws [Hne _] _]; [done|]. intros _. destruct ws; [done|].
  rewrite join_cons_app by done. intros [? _]%app_nil. done.
Qed.

Lemma one_lined_trimmed t : one_lined t → trimmed t.
Proof.
  intros (ws & Hws & ->). induction Hws as [|w ws Hw Hws IH]; [done|].
  destruct (decide (ws = [])) as [->|Hne]; [by apply word_ends|].
  rewrite join_cons_app by done. pose proof (join_words_nonempty ws Hws Hne) as Hj.
  pose proof (word_ends w Hw) as [Hh _]. destruct Hw as [Hwne _], IH as [_ Hl]. split.
  - intros c. destruct w; [done|]. apply Hh.
  - intros c. rewrite !last_app. destruct (last (join _ ws)) eqn:E; [|by apply last_None in E].
    intros [= ->]. by apply Hl.
Qed.

Lemma drop_while_app_stop {A} (p : A → bool) a b :
  drop_while p a ≠ [] → drop_while p (a ++ b) = drop_while p a ++ b.
Proof. induction a as [|x a IH]; simpl; [done|]. by destruct (p x). Qed.

Lemma drop_while_app_skip {A} (p : A → bool) a b :
  drop_while p a = [] → drop_while p (a ++ b) = drop_while p b.
Proof. induction a as [|x a IH]; simpl; [done|]. by destruct (p x). Qed.

Lemma trim_end_nil t : trim_end t = [] → drop_while is_whitespace (reverse t) = [].
Proof.
  unfold trim_end, trim_end_matches. intros H%(f_equal reverse).
  by rewrite reverse_involutive in H.
Qed.

Lemma trim_nil t : trim t = [] ↔ Forall (λ c, is_whitespace c = true) t.
Proof.
  split.
  - intros E. unfold trim in E. apply trim_end_nil in E. rewrite drop_while_nil, Forall_reverse in E.
    destruct (drop_while_suffix is_whitespace t) as (k & Hk & Hw). rewrite Hk. apply Forall_app. by split.
  - intros Hw. assert (trim_start t = []) as E by by apply drop_while_nil. unfold trim. by rewrite E.
Qed.

Lemma trim_end_app a b : trim_end b ≠ [] → trim_end (a ++ b) = a ++ trim_end b.
Proof.
  intros Hb. unfold trim_end, trim_end_matches. rewrite reverse_app, drop_while_app_stop.
  - by rewrite reverse_app, reverse_involutive.
  - intros E. apply Hb. unfold trim_end, trim_end_matches. by rewrite E.
Qed.

Lemma trim_end_app_blank a b :
  (∀ c, last a = Some c → is_whitespace c = false) → trim_end b = [] → trim_end (a ++ b) = a.
Proof.
  intros Ha Hb%trim_end_nil. unfold trim_end, trim_end_matches.
  rewrite reverse_app, drop_while_app_skip by done. by apply trim_end_matches_id.
Qed.

Lemma trim_end_app_cons a c b : trim_end b ≠ [] → trim_end (a ++ c :: b) = a ++ c :: trim_end b.
Proof.
  intros Hb. replace (a ++ c :: b) with ((a ++ [c]) ++ b) by by rewrite <-app_assoc.
  rewrite trim_end_app by done. by rewrite <-app_assoc.
Qed.

Lemma trim_end_space b : trim_end b = [] → trim_end (32 :: b) = [].
Proof.
  intros Hb%trim_end_nil. unfold trim_end, trim_end_matches.
  by rewrite reverse_cons, drop_while_app_skip.
Qed.

Lemma trim_end_take_words n ws : Forall word ws →
  ∃ vs, Forall word vs ∧ trim_end (take n (join (lit " ") ws)) = join (lit " ") vs.
Proof.
  intros Hws. revert n. induction Hws as [|w ws Hw Hws IH]; intros n.
  { exists []. split; [done|]. simpl. by rewrite take_nil. }
  assert (∀ k, trim_end (take k w) = take k w) as Hpre.
  { intros k. apply trim_end_matches_id. intros c Hc%last_Some_elem_of.
    destruct Hw as [_ Hw]. rewrite Forall_forall in Hw. apply Hw.
    eapply elem_of_submseteq; [done|]. apply sublist_submseteq, sublist_take. }
  destruct (decide (n ≤ length w)%nat) as [Hn|Hn].
  - exists (if decide (take n w = []) then [] else [take n w]). split.
    + case_decide; [done|]. constructor; [|done]. split; [done|]. apply Forall_take, Hw.
    + assert (take n (join (lit " ") (w :: ws)) = take n w) as ->.
      { destruct ws; [done|]. rewrite join_cons_app by done. by rewrite take_app_le. }
      rewrite Hpre. case_decide as E; [by rewrite E|done].
  - destruct (decide (ws = [])) as [->|Hne].
    { exists [w]. split; [by constructor|]. simpl. rewrite take_ge by lia.
      specialize (Hpre (length w)). by rewrite firstn_all in Hpre. }
    rewrite join_cons_app by done. rewrite take_app_ge by lia.
    destruct (n - length w)%nat as [|k] eqn:E; [lia|]. simpl.
    destruct (IH k) as (vs & Hvs & Hk). 
    destruct (decide (vs = [])) as [->|Hvne].
    + exists [w]. split; [by constructor|].
      apply trim_end_app_blank; [by apply word_ends|].
      by apply trim_end_space.
    + exists (w :: vs). split; [by constructor|]. rewrite join_cons_app by done.
      rewrite <-Hk. apply trim_end_app_cons. rewrite Hk. by apply join_words_nonempty.
Qed.

Lemma cap_text_one_lined t m : (length (cut_marker m) < m)%nat →
  (∃ ws, Forall word ws ∧ cut_marker m = lit " " ++ join (lit " ") ws) →
  one_lined t → one_lined (cap_text t m).
Proof.
  intros Hm (ms & Hms & Hmk) Ht. pose proof (one_lined_trimmed t Ht) as Htr.
  unfold cap_text. rewrite trimmed_trim by done.
  destruct (Nat.leb_spec (length t) m) as [|Hlen]; [done|].
  rewrite (proj2 (Nat.leb_gt _ _)) by done.
  destruct Ht as (ws & Hws & ->).
  destruct (trim_end_take_words (m - length (cut_marker m)) ws Hws) as (vs & Hvs & E).
  assert (vs ≠ []) as Hvne.
  { intros ->. simpl in E. apply (trim_end_take_nonempty (m - length (cut_marker m)) _ Htr) in E; [done|lia|].
    intros E'. rewrite E' in Hlen. simpl in Hlen. lia. }
  assert (ms ≠ []) as Hmne.
  { intros ->. rewrite cut_marker_shape in Hmk. done. }
  exists (vs ++ ms). split; [by apply Forall_app|].
  by rewrite join_app, <-E, <-Hmk by done.
Qed.

(** ** Lemmas: cleaned id lists *)

Lemma clean_ids_loop_spec out ids :
  NoDup out → Forall (λ t, trimmed t ∧ t ≠ []) out →
  NoDup (clean_ids_loop out ids) ∧ Forall (λ t, trimmed t ∧ t ≠ []) (clean_ids_loop out ids).
Proof.
  revert out. induction ids as [|id ids IH]; intros out Hnd Hall; simpl; [done|].
  destruct (_ && _) eqn:E; [|by apply IH].
  apply andb_prop in E as [E1 E2]. apply negb_true_iff, is_empty_false in E1.
  apply negb_true_iff, bool_decide_eq_false in E2. apply IH.
  - apply NoDup_app. split; [done|]. split; [set_solver|]. apply NoDup_singleton.
  - apply Forall_app. split; [done|]. constructor; [by split; [apply trim_trimmed|]|constructor].
Qed.

Lemma clean_ids_clean ids :
  NoDup (clean_ids ids) ∧ Forall (λ t, trimmed t ∧ t ≠ []) (clean_ids ids).
Proof. by apply clean_ids_loop_spec; constructor. Qed.

Lemma clean_ids_loop_id out ids :
  NoDup (out ++ ids) → Forall (λ t, trimmed t ∧ t ≠ []) ids → clean_ids_loop out ids = out ++ ids.
Proof.
  revert out. induction ids as [|id ids IH]; intros out Hnd Hall; simpl; [by rewrite app_nil_r|].
  apply Forall_cons in Hall as [[Ht Hne] Hall]. rewrite trimmed_trim by done.
  apply is_empty_false in Hne as ->. simpl. rewrite bool_decide_eq_false_2.
  - simpl. rewrite IH by (by rewrite <-?app_assoc). by rewrite <-app_assoc.
  - apply NoDup_app in Hnd as (_ & Hd & _). intros Hin. apply (Hd id Hin). by left.
Qed.

Lemma clean_ids_id ids : NoDup ids → Forall (λ t, trimmed t ∧ t ≠ []) ids → clean_ids ids = ids.
Proof. intros. by apply clean_ids_loop_id. Qed.

Lemma clean_ids_idemp ids : clean_ids (clean_ids ids) = clean_ids ids.
Proof. destruct (clean_ids_clean ids). by apply clean_ids_id. Qed.

(** ** Lemmas: the order of [str] *)

Lemma text_compare_refl a : text_compare a a = Eq.
Proof. induction a as [|x a IH]; simpl; [done|]. by rewrite N.compare_refl. Qed.

Lemma text_compare_eq a b : text_compare a b = Eq ↔ a = b.
Proof.
  split; [|intros ->; apply text_compare_refl].
  revert b. induction a as [|x a IH]; intros [|y b]; simpl; try done.
  destruct (N.compare_spec x y) as [->| |]; try done. by intros ->%IH.
Qed.

Lemma text_compare_antisym a b : text_compare b a = CompOpp (text_compare a b).
Proof.
  revert b. induction a as [|x a IH]; intros [|y b]; simpl; try done.
  rewrite N.compare_antisym. by destruct (x ?= y)%N; simpl.
Qed.

#[export] Instance text_comparator : Comparator text_compare.
Proof.
  split; [apply text_compare_antisym|].
  intros a b c. revert b c. induction a as [|x a IH]; intros [|y b] [|z c]; simpl; try done.
  intros H1 H2. pose proof (cmp_trans (cmp := N.compare) x y z) as H.
  destruct (x ?= y)%N eqn:E1, (y ?= z)%N eqn:E2; try done;
    destruct H as [Hn He]; try done; destruct (x ?= z)%N eqn:E3; try done;
    try (by destruct He); by apply IH.
Qed.

#[export] Hint Rewrite trim_idemp capped_idemp non_blank_idemp clean_ids_idemp
  one_line_idemp : pond.
