(* ===== verification/Chunking.v ===== *)
(** * Chunking: the passages a long text is embedded by

    crates/pond-core/src/context/chunking.rs. A [Chunk] is a span of bytes; offsets and lengths
    are [N], at most the length of a text in memory. [None] of a function that the source gives
    no option is a slice off a boundary, a panic, or a loop that does not end: the theorems show
    there is neither. *)
From S2P Require Import Prelude Text.
From Stdlib Require Import NArith Lia.
Local Open Scope N_scope.

Record Chunk := { ck_start : N; ck_len : N }.

(** [text.get(start..start.checked_add(len)?)]. *)
Definition slice (c : Chunk) (t : text) : option text :=
  if u64_max <? ck_start c + ck_len c then None else byte_slice t (ck_start c) (ck_start c + ck_len c).

Definition DEFAULT_CHUNK_BYTES : N := 500.
Definition DEFAULT_OVERLAP_BYTES : N := 50.

(** [str::rfind]: the offset in bytes of the last match. *)
Fixpoint rfind (pat t : text) : option N :=
  match t with
  | [] => if starts_with pat [] then Some 0 else None
  | c :: r => match rfind pat r with
              | Some at_ => Some (len_utf8 c + at_)
              | None => if starts_with pat t then Some 0 else None
              end
  end.

Definition floor_char_boundary (t : text) (i : N) : N :=
  if byte_len t <=? i then byte_len t else N.of_nat (walk_back t (N.to_nat i)).
Definition ceil_char_boundary (t : text) (i : N) : N :=
  N.min (walk_on t i (N.to_nat (byte_len t - i))) (byte_len t).

(** The patterns tried, and the cut one of them gives in a window. *)
Definition CUT_PATTERNS : list text := [[10; 10]; [10]; lit ". "; lit " "].
Definition cut_at (floor : N) (window pattern : text) : option N :=
  at_ ← rfind pattern window;
  let cut := at_ + byte_len pattern in
  if (floor <=? cut) && (0 <? cut) then Some cut else None.

Fixpoint first_some {A B} (f : A → option B) (l : list A) : option B :=
  match l with [] => None | a :: l => match f a with Some b => Some b | None => first_some f l end end.

Definition boundary_at_or_before (t : text) (start hard_end : N) : option N :=
  let hard_end := floor_char_boundary t (N.min hard_end (byte_len t)) in
  window ← byte_slice t start hard_end;
  let floor := byte_len window - byte_len window / 4 in
  Some (match first_some (cut_at floor window) CUT_PATTERNS with
        | Some cut => floor_char_boundary t (start + cut)
        | None => hard_end
        end).

Fixpoint chunk_loop (fuel : nat) (t : text) (size overlap start : N) : option (list Chunk) :=
  match fuel with
  | O => None
  | S fuel =>
      if byte_len t <=? start then Some [] else
      let remaining := byte_len t - start in
      if remaining <=? size then Some [{| ck_start := start; ck_len := remaining |}] else
      end_ ← boundary_at_or_before t start (start + size);
      let next := N.max (end_ - overlap) (start + 1) in
      cons {| ck_start := start; ck_len := end_ - start |} <$>
        chunk_loop fuel t size overlap (ceil_char_boundary t next)
  end.

(** The loop takes fewer turns than the text has bytes, and one. *)
Definition chunk (t : text) (size overlap : N) : option (list Chunk) :=
  let size := N.max size 1 in
  let overlap := N.min overlap (size / 2) in
  if is_empty (trim t) then Some [] else
  if byte_len t <=? size then Some [{| ck_start := 0; ck_len := byte_len t |}] else
  chunk_loop (S (N.to_nat (byte_len t))) t size overlap 0.

(** ** Lemmas: cuts *)

Lemma floor_char_boundary_spec t i :
  let w := floor_char_boundary t i in
  boundary t w ∧ w ≤ N.min i (byte_len t) ∧ ∀ b, boundary t b → b ≤ i → b ≤ w.
Proof.
  unfold floor_char_boundary. cbv zeta. destruct (N.leb_spec (byte_len t) i) as [H|H].
  - split; [apply boundary_len|]. split; [lia|]. intros b Hb _. by apply boundary_le.
  - destruct (walk_back_spec t (N.to_nat i)) as (H1 & H2 & H3). rewrite N2Nat.id in *. split; [done|]. split; [lia|done].
Qed.

Lemma floor_char_boundary_id t b : boundary t b → floor_char_boundary t b = b.
Proof.
  intros H. destruct (floor_char_boundary_spec t b) as (_ & H1 & H2). specialize (H2 b H ltac:(lia)). lia.
Qed.

Lemma ceil_char_boundary_spec t i : i ≤ byte_len t →
  let w := ceil_char_boundary t i in boundary t w ∧ i ≤ w ∧ ∀ b, boundary t b → i ≤ b → w ≤ b.
Proof.
  intros H. unfold ceil_char_boundary. cbv zeta.
  destruct (walk_on_spec t i (N.to_nat (byte_len t - i)) ltac:(lia)) as (H1 & H2 & H3).
  rewrite N.min_l by (by apply boundary_le). done.
Qed.

Lemma rfind_Some pat t i : rfind pat t = Some i → ∃ a b, t = a ++ pat ++ b ∧ byte_len a = i.
Proof.
  revert i. induction t as [|c t IH]; intros i; cbn [rfind].
  - destruct (starts_with pat []) eqn:E; [|done]. intros [= <-].
    apply starts_with_spec in E as [r Hr]. by exists [], r.
  - destruct (rfind pat t) as [j|].
    + destruct (IH j eq_refl) as (a & b & -> & <-). intros [= <-]. by exists (c :: a), b.
    + destruct (starts_with pat (c :: t)) eqn:E; [|done]. intros [= <-].
      apply starts_with_spec in E as [r Hr]. by exists [], r.
Qed.

Lemma first_some_elem {A B} (f : A → option B) l b : first_some f l = Some b → ∃ a, a ∈ l ∧ f a = Some b.
Proof.
  induction l as [|a l IH]; simpl; [done|]. destruct (f a) eqn:E.
  - intros [= <-]. exists a. split; [left|done].
  - intros (a' & Ha & Hf)%IH. exists a'. split; [by right|done].
Qed.

(** Where a passage that is not the last ends: on a boundary within reach, and, in a text cut in
    passages of four bytes or more, past the first three quarters of what fits. *)
Lemma boundary_at_or_before_spec t start size :
  boundary t start → size < byte_len t - start →
  ∃ e, boundary_at_or_before t start (start + size) = Some e ∧ boundary t e ∧ start ≤ e ≤ start + size ∧
       3 * (size - 3) ≤ 4 * (e - start).
Proof.
  intros Hs Hlen. unfold boundary_at_or_before. cbv zeta.
  destruct (floor_char_boundary_spec t (N.min (start + size) (byte_len t))) as (Hh & Hle & Hmax).
  set (h := floor_char_boundary _ _) in *.
  assert (start ≤ h) as Hsh by (apply Hmax; [done|lia]).
  assert (start + size < h + 4) as Hnear.
  { destruct (boundary_near t (start + size) ltac:(lia)) as [(b & Hb & Hbn) _].
    pose proof (Hmax b Hb ltac:(lia)). lia. }
  destruct (boundary_between t start h Hs Hh Hsh) as (a & w & b & Et & Ea & Ew).
  assert (byte_slice t start h = Some w) as ->.
  { rewrite Et, <-Ea. replace h with (byte_len a + byte_len w) by lia. apply byte_slice_app. }
  unfold mbind, option_bind. set (floor := byte_len w - byte_len w / 4).
  assert (3 * byte_len w ≤ 4 * floor) as Hf by (unfold floor; lia).
  destruct (first_some (cut_at floor w) CUT_PATTERNS) as [cut|] eqn:E.
  - apply first_some_elem in E as (pat & _ & E). unfold cut_at in E.
    apply bind_Some in E as (at_ & (x & y & -> & Hx)%rfind_Some & E).
    case_match eqn:Ec; [|done]. injection E as <-. apply andb_prop in Ec as [Hfl%N.leb_le _].
    assert (boundary t (start + (at_ + byte_len pat))) as Hb.
    { exists (a ++ x ++ pat), (y ++ b). split; [rewrite Et; by rewrite <-!app_assoc|]. rewrite !byte_len_app. lia. }
    exists (start + (at_ + byte_len pat)). rewrite floor_char_boundary_id by done.
    split; [done|]. split; [done|]. rewrite !byte_len_app in Ew. rewrite !byte_len_app in Hf. split; [lia|]. lia.
  - exists h. split; [done|]. split; [done|]. split; [lia|]. lia.
Qed.

(** ** Lemmas: the passages *)

(** What the loop lays from [start] on. *)
Inductive passages (t : text) (size overlap : N) : N → list Chunk → Prop :=
| passages_last s n :
    boundary t s → s + n = byte_len t → 0 < n ≤ size →
    passages t size overlap s [{| ck_start := s; ck_len := n |}]
| passages_more s e s' cs :
    boundary t s → boundary t e → s < s' ≤ e → e ≤ s' + overlap → e ≤ s + size →
    3 * (size - 3) ≤ 4 * (e - s) → passages t size overlap s' cs →
    passages t size overlap s ({| ck_start := s; ck_len := e - s |} :: cs).

Lemma chunk_loop_passages fuel t size overlap start :
  0 < size → boundary t start → (N.to_nat (byte_len t - start) < fuel)%nat →
  ∃ cs, chunk_loop fuel t size overlap start = Some cs ∧
        (4 ≤ size → start < byte_len t → passages t size overlap start cs).
Proof.
  intros Hsize. revert start. induction fuel as [|fuel IH]; intros start Hs Hf; [lia|]. cbn [chunk_loop].
  destruct (N.leb_spec (byte_len t) start) as [|Hlt]; [exists []; split; [done|lia]|].
  destruct (N.leb_spec (byte_len t - start) size) as [Hr|Hr].
  { eexists. split; [done|]. intros _ _. apply passages_last; [done|lia|lia]. }
  destruct (boundary_at_or_before_spec t start size Hs Hr) as (e & -> & He & [He1 He2] & Hq). simpl.
  destruct (ceil_char_boundary_spec t (N.max (e - overlap) (start + 1)) ltac:(lia)) as (Hb & Hge & Hmin).
  set (s' := ceil_char_boundary _ _) in *.
  destruct (IH s' Hb ltac:(lia)) as (cs & -> & Hcs). eexists. split; [done|]. intros H4 _.
  assert (s' ≤ e) by (apply Hmin; [done|lia]). apply passages_more with s'; try done; [lia|lia|]. apply Hcs; [done|lia].
Qed.

Lemma passages_boundary t size overlap s cs : passages t size overlap s cs → boundary t s ∧ s < byte_len t.
Proof.
  induction 1 as [s n Hs He Hn|s e s' cs Hs He Hss Ho Hl Hq _ [_ IH]]; (split; [done|lia]).
Qed.

(** Each passage is a slice of whole characters within the size. *)
Lemma passages_slices t size overlap s cs c : byte_len t ≤ u64_max → passages t size overlap s cs → c ∈ cs →
  0 < ck_len c ≤ size ∧ ∃ p, slice c t = Some p ∧ byte_len p = ck_len c.
Proof.
  intros Hu. assert (∀ s e, boundary t s → boundary t e → s ≤ e →
    ∃ p, slice {| ck_start := s; ck_len := e - s |} t = Some p ∧ byte_len p = e - s) as Hslice.
  { intros x y Hx Hy Hxy. pose proof (boundary_le _ _ Hy). destruct (boundary_between t x y Hx Hy Hxy) as (a & m & b & -> & <- & Hm).
    exists m. unfold slice. cbn [ck_start ck_len]. rewrite (proj2 (N.ltb_ge _ _)) by lia. rewrite <-Hm. split; [apply byte_slice_app|done]. }
  induction 1 as [s n Hs He Hn|s e s' cs Hs He Hss Ho Hl Hq _ IH]; intros Hc.
  - apply elem_of_one in Hc as ->. cbn [ck_len]. split; [done|]. replace n with (byte_len t - s) by lia.
    apply Hslice; [done|apply boundary_len|lia].
  - apply elem_of_cons in Hc as [->|Hc]; [|by apply IH]. cbn [ck_len]. split; [lia|]. apply Hslice; [done|done|lia].
Qed.

Lemma passages_cover t size overlap s cs k : passages t size overlap s cs → s ≤ k < byte_len t →
  ∃ c, c ∈ cs ∧ ck_start c ≤ k < ck_start c + ck_len c.
Proof.
  induction 1 as [s n Hs He Hn|s e s' cs Hs He Hss Ho Hl Hq _ IH]; intros Hk.
  - eexists. split; [left|]. simpl. lia.
  - destruct (N.ltb_spec k e) as [|Hge]; [eexists; split; [left|]; simpl; lia|].
    destruct IH as (c & Hc & Hr); [lia|]. exists c. split; [by right|done].
Qed.

Lemma passages_head t size overlap s cs : passages t size overlap s cs → ∃ c, head cs = Some c ∧ ck_start c = s.
Proof. destruct 1; by eexists. Qed.

Lemma passages_next t size overlap s cs i a b : passages t size overlap s cs →
  cs !! i = Some a → cs !! S i = Some b →
  ck_start a < ck_start b ≤ ck_start a + ck_len a ∧ ck_start a + ck_len a ≤ ck_start b + overlap.
Proof.
  intros H. revert i. induction H as [s n Hs He Hn|s e s' cs Hs He Hss Ho Hl Hq Hp IH]; intros i Ha Hb.
  - destruct i; simpl in *; done.
  - destruct i as [|i]; simpl in Ha, Hb; [|by eapply IH]. injection Ha as <-.
    apply passages_head in Hp as (c & Hc & Hcs). destruct cs; [done|]. simpl in *. simplify_eq. lia.
Qed.

(** How many passages a text makes. *)
Lemma passages_length t size overlap s cs : passages t size overlap s cs →
  (N.of_nat (length cs) - 1) * (3 * (size - 3) - 4 * overlap) ≤ 4 * (byte_len t - s).
Proof.
  induction 1 as [s n Hs He Hn|s e s' cs Hs He Hss Ho Hl Hq Hp IH]; simpl length; [lia|].
  pose proof (passages_boundary _ _ _ _ _ Hp) as [_ Hlt]. set (d := 3 * (size - 3) - 4 * overlap) in *.
  assert (d ≤ 4 * (s' - s)) by (unfold d; lia). destruct (passages_head _ _ _ _ _ Hp) as (c & Hc & _).
  destruct cs as [|c' cs]; [done|]. simpl length in *.
  replace (N.of_nat (S (S (length cs))) - 1) with (N.of_nat (S (length cs)) - 1 + 1) by lia. lia.
Qed.

(** The whole of [chunk]: nothing of a blank text, else passages from its start. *)
Lemma chunk_passages t size overlap : ∃ cs, chunk t size overlap = Some cs ∧
  (trim t = [] → cs = []) ∧ (4 ≤ size → trim t ≠ [] → passages t size (N.min overlap (size / 2)) 0 cs).
Proof.
  unfold chunk. cbv zeta. destruct (is_empty (trim t)) eqn:Ht.
  { apply is_empty_true in Ht. by exists []. }
  apply is_empty_false in Ht. assert (0 < byte_len t) as Hpos.
  { destruct t as [|c t]; [by destruct Ht|]. simpl. pose proof (len_utf8_pos c). lia. }
  destruct (N.leb_spec (byte_len t) (N.max size 1)).
  - eexists. split; [done|]. split; [done|]. intros. apply passages_last; [apply boundary_0|lia|lia].
  - destruct (chunk_loop_passages (S (N.to_nat (byte_len t))) t (N.max size 1) (N.min overlap (N.max size 1 / 2)) 0)
      as (cs & -> & Hcs); [lia|apply boundary_0|lia|]. exists cs. split; [done|]. split; [done|]. intros H4 _.
    replace (N.max size 1) with size in Hcs by lia. apply Hcs; [done|lia].
Qed.

(** One passage alone is the whole text. *)
Lemma passages_single t size overlap c : passages t size overlap 0 [c] → c = {| ck_start := 0; ck_len := byte_len t |}.
Proof.
  inversion 1 as [s n Hb He Hn|s e s' cs Hb He Hss Ho Hl Hq Hp]; subst; [by f_equal; lia|]. inversion Hp.
Qed.

(** ** Properties *)

(** A text is always cut, and into the passages promised: none for a blank text; otherwise, when
    passages have four bytes or more, every byte is in a passage, each passage is a slice of whole
    characters within the size and not empty, each starts after the one before it and no later
    than it ends, repeats at most the overlap, and there are no more of them than the advance of
    three quarters of the size, less the overlap, allows. *)
Theorem chunks_cover_the_text t size overlap :
  byte_len t ≤ u64_max →
  ∃ cs, chunk t size overlap = Some cs ∧ (trim t = [] → cs = []) ∧
    (4 ≤ size → trim t ≠ [] →
       (∀ k, k < byte_len t → ∃ c, c ∈ cs ∧ ck_start c ≤ k < ck_start c + ck_len c) ∧
       (∀ c, c ∈ cs → 0 < ck_len c ≤ size ∧ ∃ p, slice c t = Some p ∧ byte_len p = ck_len c) ∧
       (∀ i a b, cs !! i = Some a → cs !! S i = Some b →
          ck_start a < ck_start b ≤ ck_start a + ck_len a ∧
          ck_start a + ck_len a ≤ ck_start b + N.min overlap (size / 2)) ∧
       (N.of_nat (length cs) - 1) * (3 * (size - 3) - 4 * N.min overlap (size / 2)) ≤ 4 * byte_len t).
Proof.
  intros Hu. destruct (chunk_passages t size overlap) as (cs & -> & H0 & Hcs). exists cs. split; [done|]. split; [done|].
  intros H4 Ht. specialize (Hcs H4 Ht).
  split; [intros k Hk; eapply passages_cover; [done|lia]|]. split; [intros c; by eapply passages_slices|].
  split; [intros i a b; by eapply passages_next|]. apply passages_length in Hcs. by rewrite N.sub_0_r in Hcs.
Qed.

Lemma chunks_cover_the_text_witness :
  byte_len (lit "one. two. three.") ≤ u64_max ∧
  ∃ cs, chunk (lit "one. two. three.") 8 2 = Some cs ∧ (trim (lit "one. two. three.") = [] → cs = []) ∧
    (4 ≤ 8 → trim (lit "one. two. three.") ≠ [] →
       (∀ k, k < byte_len (lit "one. two. three.") → ∃ c, c ∈ cs ∧ ck_start c ≤ k < ck_start c + ck_len c) ∧
       (∀ c, c ∈ cs → 0 < ck_len c ≤ 8 ∧ ∃ p, slice c (lit "one. two. three.") = Some p ∧ byte_len p = ck_len c) ∧
       (∀ i a b, cs !! i = Some a → cs !! S i = Some b →
          ck_start a < ck_start b ≤ ck_start a + ck_len a ∧
          ck_start a + ck_len a ≤ ck_start b + N.min 2 (8 / 2)) ∧
       (N.of_nat (length cs) - 1) * (3 * (8 - 3) - 4 * N.min 2 (8 / 2)) ≤ 4 * byte_len (lit "one. two. three.")).
Proof. split; [by vm_compute|]. apply chunks_cover_the_text. by vm_compute. Defined.

(** With passages of fewer bytes than a character takes, a cut falls on the start, the passage is empty
    and the character is in none. *)
Example tiny_passages_lose_text : chunk [233; 233] 1 0 =
  Some [{| ck_start := 0; ck_len := 0 |}; {| ck_start := 2; ck_len := 0 |}].
Proof. by vm_compute. Qed.

(** An overlap clamped to half the size does not bound the passages by two to the size: newlines just
    over a quarter apart hold the cut back to three quarters. *)
Example overlap_makes_more_passages :
  let t := concat (replicate 40 (lit "abcd" ++ [10])) in
  ∃ cs, chunk t 16 100 = Some cs ∧ 2 * byte_len t / 16 + 10 < N.of_nat (length cs).
Proof. eexists. split; [vm_compute; reflexivity|]. by vm_compute. Qed.
