(* ===== verification/Embedder.v ===== *)
(** * Embedder: the one embedding model the pond runs, switchable while it works

    crates/pond-core/src/models/services/active_embedder.rs, with the table of models and the
    household's choice of models/domain/embedding_models.rs. [ActiveEmbedder] keeps the loaded
    provider in a read-write lock and its status in a mutex; what runs under the mutex is one
    step, and what needs the write lock is a step taken only while nobody holds a lease. A vector
    is a list of 32-bit floats, kept as their bits; a provider (a model at work) is a parameter,
    of which nothing is assumed here. A row of the table is its name, its stamp and its width: the
    weights, titles and cut-offs are read by nothing below. The generation, a [u64], is not
    expected to wrap. *)
From S2P Require Import Prelude Text.
From Stdlib Require Import NArith Lia.
Local Open Scope N_scope.

(** ** The models, and the household's choice *)

Record EmbeddingModel := { em_name : text; em_model_id : text; em_dims : N }.

#[export] Instance embedding_model_eq_dec : EqDecision EmbeddingModel.
Proof. solve_decision. Defined.

Definition ALL_MINILM_L6_V2 : EmbeddingModel :=
  {| em_name := lit "all-MiniLM-L6-v2"; em_model_id := lit "all-MiniLM-L6-v2"; em_dims := 384 |}.
Definition BGE_SMALL_EN_V1_5 : EmbeddingModel :=
  {| em_name := lit "bge-small-en-v1.5"; em_model_id := lit "bge-small-en-v1.5"; em_dims := 384 |}.
Definition NOMIC_EMBED_TEXT_V1_5 : EmbeddingModel :=
  {| em_name := lit "nomic-embed-text-v1.5"; em_model_id := lit "nomic-embed-text-v1.5"; em_dims := 768 |}.
Definition BGE_BASE_EN_V1_5 : EmbeddingModel :=
  {| em_name := lit "bge-base-en-v1.5"; em_model_id := lit "bge-base-en-v1.5"; em_dims := 768 |}.
Definition EMBEDDINGGEMMA_2 : EmbeddingModel :=
  {| em_name := lit "embeddinggemma-2"; em_model_id := lit "embeddinggemma-2-256"; em_dims := 256 |}.

Definition EMBEDDING_MODELS : list EmbeddingModel :=
  [ALL_MINILM_L6_V2; BGE_SMALL_EN_V1_5; NOMIC_EMBED_TEXT_V1_5; BGE_BASE_EN_V1_5; EMBEDDINGGEMMA_2].

Definition find_model (name : text) : option EmbeddingModel :=
  find_first (λ m, bool_decide (em_name m = name)) EMBEDDING_MODELS.
Definition find_by_model_id (model_id : text) : option EmbeddingModel :=
  find_first (λ m, bool_decide (em_model_id m = model_id)) EMBEDDING_MODELS.

Inductive EmbedderChoice : Type := ChoiceOff | ChoiceModel (m : EmbeddingModel).

#[export] Instance embedder_choice_eq_dec : EqDecision EmbedderChoice.
Proof. solve_decision. Defined.

Definition from_parts (provider model : text) : EmbedderChoice :=
  if bool_decide (provider = lit "none") then ChoiceOff else
  let legacy := if bool_decide (provider = lit "gguf") then NOMIC_EMBED_TEXT_V1_5 else ALL_MINILM_L6_V2 in
  let name := trim model in
  if is_empty name then ChoiceModel legacy else
  match find_model name with Some found => ChoiceModel found | None => ChoiceModel legacy end.

Definition choice_model (c : EmbedderChoice) : option EmbeddingModel :=
  match c with ChoiceOff => None | ChoiceModel m => Some m end.

(** ** The service's state *)

Notation vector := (list N).

Record Provider := {
  pv_model_id : text; pv_dims : N; pv_max_batch : N;
  pv_embed_batch : list text → result (list vector) text }.

Inductive EmbedderState : Type :=
| StateOff
| StateChosen (model_id : text)
| StateLoading (model_id : text)
| StateReady (model_id : text) (dims : N)
| StateFailed (model_id reason : text).

Definition state_model_id (s : EmbedderState) : option text :=
  match s with
  | StateOff => None
  | StateChosen m | StateLoading m | StateReady m _ | StateFailed m _ => Some m
  end.

(** [inner] with the leases on it; the three fields of [Status]; whether [load_wanted] holds a
    permit; the model being built, with the generation it was asked for at, while [loading] is
    locked. [choice] is [None] for a provider handed in already built. *)
Record ActiveEmbedder := {
  ae_inner : option Provider; ae_leases : nat; ae_choice : option EmbedderChoice; ae_state : EmbedderState;
  ae_generation : N; ae_load_wanted : bool; ae_building : option (EmbeddingModel * N) }.

Definition embedder_off : ActiveEmbedder :=
  {| ae_inner := None; ae_leases := 0; ae_choice := Some ChoiceOff; ae_state := StateOff; ae_generation := 0;
     ae_load_wanted := false; ae_building := None |}.
Definition embedder_loaded (p : Provider) : ActiveEmbedder :=
  {| ae_inner := Some p; ae_leases := 0; ae_choice := None; ae_state := StateReady (pv_model_id p) (pv_dims p);
     ae_generation := 0; ae_load_wanted := false; ae_building := None |}.

Definition chosen_model (e : ActiveEmbedder) : option EmbeddingModel := ae_choice e ≫= choice_model.
Definition is_ready (s : EmbedderState) : bool := match s with StateReady _ _ => true | _ => false end.
Definition is_failed (s : EmbedderState) : bool := match s with StateFailed _ _ => true | _ => false end.

Definition available (e : ActiveEmbedder) : bool := is_ready (ae_state e).
Definition embedder_model_id (e : ActiveEmbedder) : text := default [] (state_model_id (ae_state e)).
Definition dimensions (e : ActiveEmbedder) : N :=
  match ae_state e with
  | StateReady _ dims => dims
  | _ => match chosen_model e with Some m => em_dims m | None => 0 end
  end.

Definition notify_load (e : ActiveEmbedder) : ActiveEmbedder :=
  {| ae_inner := ae_inner e; ae_leases := ae_leases e; ae_choice := ae_choice e; ae_state := ae_state e;
     ae_generation := ae_generation e; ae_load_wanted := true; ae_building := ae_building e |}.
Definition with_state (s : EmbedderState) (e : ActiveEmbedder) : ActiveEmbedder :=
  {| ae_inner := ae_inner e; ae_leases := ae_leases e; ae_choice := ae_choice e; ae_state := s;
     ae_generation := ae_generation e; ae_load_wanted := ae_load_wanted e; ae_building := ae_building e |}.
Definition with_building (b : option (EmbeddingModel * N)) (e : ActiveEmbedder) : ActiveEmbedder :=
  {| ae_inner := ae_inner e; ae_leases := ae_leases e; ae_choice := ae_choice e; ae_state := ae_state e;
     ae_generation := ae_generation e; ae_load_wanted := ae_load_wanted e; ae_building := b |}.
Definition with_inner (p : option Provider) (e : ActiveEmbedder) : ActiveEmbedder :=
  {| ae_inner := p; ae_leases := ae_leases e; ae_choice := ae_choice e; ae_state := ae_state e;
     ae_generation := ae_generation e; ae_load_wanted := ae_load_wanted e; ae_building := ae_building e |}.
Definition with_leases (n : nat) (e : ActiveEmbedder) : ActiveEmbedder :=
  {| ae_inner := ae_inner e; ae_leases := n; ae_choice := ae_choice e; ae_state := ae_state e;
     ae_generation := ae_generation e; ae_load_wanted := ae_load_wanted e; ae_building := ae_building e |}.

(** ** The operations' sections *)

Definition already_chosen (c : EmbedderChoice) (e : ActiveEmbedder) : bool * ActiveEmbedder :=
  if negb (bool_decide (ae_choice e = Some c)) then (false, e)
  else (true, if is_failed (ae_state e) then notify_load e else e).

(** [choose], once it has the write lock; before that it only asks [already_chosen] once more. *)
Definition choose (c : EmbedderChoice) (e : ActiveEmbedder) : bool * ActiveEmbedder :=
  let '(already, e) := already_chosen c e in
  if already then (false, e) else
  let e := {| ae_inner := None; ae_leases := ae_leases e; ae_choice := Some c;
              ae_state := match choice_model c with None => StateOff | Some m => StateChosen (em_model_id m) end;
              ae_generation := ae_generation e + 1; ae_load_wanted := ae_load_wanted e;
              ae_building := ae_building e |} in
  (true, match choice_model c with Some _ => notify_load e | None => e end).

Definition request_load (e : ActiveEmbedder) : ActiveEmbedder :=
  if bool_decide (is_Some (chosen_model e)) && negb (is_ready (ae_state e)) then notify_load e else e.

(** [load_requested], when there is a permit to take. *)
Definition load_requested (e : ActiveEmbedder) : option ActiveEmbedder :=
  if ae_load_wanted e then
    Some {| ae_inner := ae_inner e; ae_leases := ae_leases e; ae_choice := ae_choice e; ae_state := ae_state e;
            ae_generation := ae_generation e; ae_load_wanted := false; ae_building := ae_building e |}
  else None.

(** [ensure_loaded] up to the build: its answer, when there is nothing to build. *)
Definition ensure_begin (e : ActiveEmbedder) : option EmbedderState * ActiveEmbedder :=
  match chosen_model e with
  | None => (Some (ae_state e), e)
  | Some m =>
      if is_ready (ae_state e) then (Some (ae_state e), e)
      else (None, with_building (Some (m, ae_generation e)) (with_state (StateLoading (em_model_id m)) e))
  end.

Definition matches_row (m : EmbeddingModel) (p : Provider) : result Provider text :=
  if negb (bool_decide (pv_model_id p = em_model_id m)) || negb (pv_dims p =? em_dims m)
  then Err (lit "the loaded embedder reports " ++ pv_model_id p ++ lit " at " ++ dec (pv_dims p) ++
            lit " dimensions, but " ++ em_model_id m ++ lit " is " ++ dec (em_dims m) ++ lit " wide")
  else Ok p.

(** [ensure_loaded] after the build, with the write lock. *)
Definition ensure_finish (m : EmbeddingModel) (generation : N) (built : result Provider text)
    (e : ActiveEmbedder) : EmbedderState * ActiveEmbedder :=
  let built := let? p := built in matches_row m p in
  let e := with_building None e in
  if negb (ae_generation e =? generation) then (ae_state e, e) else
  match built with
  | Ok p => let s := StateReady (em_model_id m) (pv_dims p) in (s, with_state s (with_inner (Some p) e))
  | Err reason => let s := StateFailed (em_model_id m) reason in (s, with_state s e)
  end.

Definition lease (e : ActiveEmbedder) : option Provider * ActiveEmbedder :=
  match ae_inner e with
  | Some p => (Some p, with_leases (S (ae_leases e)) e)
  | None => (None, e)
  end.
Definition drop_lease (e : ActiveEmbedder) : ActiveEmbedder := with_leases (pred (ae_leases e)) e.

Definition unload (e : ActiveEmbedder) : bool * ActiveEmbedder :=
  let was_loaded := bool_decide (is_Some (ae_inner e)) in
  let e := with_inner None e in
  (was_loaded, match chosen_model e with
               | Some m => if is_ready (ae_state e) then with_state (StateChosen (em_model_id m)) e else e
               | None => e
               end).

(** Everything that may happen to it, a step at a time: tasks choose, ask for a load, build one
    model at a time and may be dropped while they do, unload, and hold leases. *)
Inductive embedder_step : ActiveEmbedder → ActiveEmbedder → Prop :=
| es_already e c : embedder_step e (already_chosen c e).2
| es_choose e c : ae_leases e = O → embedder_step e (choose c e).2
| es_request e : embedder_step e (request_load e)
| es_requested e e' : load_requested e = Some e' → embedder_step e e'
| es_begin e : ae_building e = None → embedder_step e (ensure_begin e).2
| es_finish e m g built :
    ae_building e = Some (m, g) → ae_leases e = O → embedder_step e (ensure_finish m g built e).2
| es_abandon e b : ae_building e = Some b → embedder_step e (with_building None e)
| es_lease e : embedder_step e (lease e).2
| es_drop_lease e : ae_leases e ≠ O → embedder_step e (drop_lease e)
| es_unload e : ae_leases e = O → embedder_step e (unload e).2.

(** ** The invariant *)

(** What a model loaded at this generation is stamped with. *)
Definition stamp (e : ActiveEmbedder) : option (text * N) :=
  match ae_choice e with
  | Some c => (λ m, (em_model_id m, em_dims m)) <$> choice_model c
  | None => match ae_state e with StateReady m d => Some (m, d) | _ => None end
  end.

Record embedder_ok (e : ActiveEmbedder) : Prop := {
  eo_ready : ∀ p, ae_inner e = Some p →
    ae_state e = StateReady (pv_model_id p) (pv_dims p) ∧ stamp e = Some (pv_model_id p, pv_dims p);
  eo_inner : available e = true → is_Some (ae_inner e) ∨ ae_choice e = None;
  eo_handed : ae_choice e = None → available e = true;
  eo_building : ∀ m g, ae_building e = Some (m, g) →
    g ≤ ae_generation e ∧ (g = ae_generation e → ae_choice e = Some (ChoiceModel m) ∧ ae_inner e = None);
  eo_leased : ae_leases e ≠ O → is_Some (ae_inner e) }.

(** ** Lemmas *)

Ltac embedder_cases :=
  repeat match goal with
  | H : context [if ?b then _ else _] |- _ => destruct b eqn:?
  | |- context [if ?b then _ else _] => destruct b eqn:?
  | H : context [match choice_model ?c with _ => _ end] |- _ => destruct (choice_model c) eqn:?
  | |- context [match choice_model ?c with _ => _ end] => destruct (choice_model c) eqn:?
  end; simpl in *; simplify_eq; try done.

Lemma chosen_model_Some e m : chosen_model e = Some m ↔ ae_choice e = Some (ChoiceModel m).
Proof.
  unfold chosen_model. destruct (ae_choice e) as [[|m']|]; simpl; split; intros; simplify_eq; done.
Qed.

Lemma matches_row_ok m p q : matches_row m p = Ok q → q = p ∧ pv_model_id p = em_model_id m ∧ pv_dims p = em_dims m.
Proof.
  unfold matches_row. case_match eqn:E; [done|]. intros [= <-]. apply orb_false_iff in E as [E1 E2].
  apply negb_false_iff, bool_decide_eq_true in E1. apply negb_false_iff, N.eqb_eq in E2. done.
Qed.

(** A step that touches neither the provider, the choice, the state, the build nor the leases. *)
Lemma embedder_ok_same e e' :
  ae_inner e' = ae_inner e → ae_leases e' = ae_leases e → ae_choice e' = ae_choice e → ae_state e' = ae_state e →
  ae_generation e' = ae_generation e → ae_building e' = ae_building e → embedder_ok e → embedder_ok e'.
Proof.
  destruct e, e'; simpl. intros -> -> -> -> -> -> []. split; unfold available, stamp in *; simpl in *; done.
Qed.

Lemma notify_load_ok e : embedder_ok e → embedder_ok (notify_load e).
Proof. by apply embedder_ok_same. Qed.

Lemma choose_ok e c : ae_leases e = O → embedder_ok e → embedder_ok (choose c e).2.
Proof.
  intros Hl He. unfold choose, already_chosen. destruct (negb _) eqn:Ec; simpl.
  - assert (embedder_ok {| ae_inner := None; ae_leases := ae_leases e; ae_choice := Some c;
        ae_state := match choice_model c with None => StateOff | Some m => StateChosen (em_model_id m) end;
        ae_generation := ae_generation e + 1; ae_load_wanted := ae_load_wanted e; ae_building := ae_building e |}) as Hok.
    { destruct He as [_ _ _ Hb _]. split; unfold available, stamp; simpl.
      - done.
      - by destruct (choice_model c).
      - done.
      - intros m g Hm. destruct (Hb m g Hm) as [Hg _]. split; lia.
      - done. }
    destruct (choice_model c); [by apply notify_load_ok|done].
  - destruct (is_failed _); [by apply notify_load_ok|done].
Qed.

Lemma ensure_begin_ok e : embedder_ok e → embedder_ok (ensure_begin e).2.
Proof.
  intros He. unfold ensure_begin. destruct (chosen_model e) as [m|] eqn:Em; [|done].
  apply chosen_model_Some in Em. destruct (is_ready (ae_state e)) eqn:Er; [done|]. simpl.
  destruct He as [H1 H2 H3 H4 H5].
  assert (ae_inner e = None) as Hn.
  { destruct (ae_inner e) as [p|] eqn:E; [|done]. destruct (H1 p eq_refl) as [Hs _]. by rewrite Hs in Er. }
  split; unfold available, stamp in *; simpl in *.
  - by rewrite Hn.
  - done.
  - by rewrite Em.
  - intros m' g [= <- <-]. by split; [lia|].
  - intros Hl. destruct (H5 Hl). congruence.
Qed.

Lemma with_building_none_ok e : embedder_ok e → embedder_ok (with_building None e).
Proof. intros [H1 H2 H3 H4 H5]. split; unfold available, stamp in *; simpl in *; done. Qed.

Lemma ensure_finish_ok e m g built :
  ae_building e = Some (m, g) → ae_leases e = O → embedder_ok e → embedder_ok (ensure_finish m g built e).2.
Proof.
  intros Hb Hl He. pose proof (with_building_none_ok e He) as He'. unfold ensure_finish.
  cbn [ae_generation ae_state with_building]. destruct (N.eqb_spec (ae_generation e) g) as [Hg|]; simpl; [|done].
  destruct (eo_building _ He m g Hb) as [_ Hc]. destruct (Hc (eq_sym Hg)) as [Hch Hn].
  destruct (result_bind built (matches_row m)) as [p|reason] eqn:Eb; simpl.
  - apply result_bind_ok in Eb as (p' & _ & (-> & Hid & Hd)%matches_row_ok).
    split; unfold available, stamp; simpl; rewrite ?Hch; simpl; try done.
    + intros q [= <-]. by rewrite Hid, Hd.
    + intros _. left. by eexists.
  - split; unfold available, stamp; simpl; rewrite ?Hch, ?Hn; done.
Qed.

Lemma unload_ok e : ae_leases e = O → embedder_ok e → embedder_ok (unload e).2.
Proof.
  intros Hl [H1 H2 H3 H4 H5]. unfold unload.
  change (chosen_model (with_inner None e)) with (chosen_model e). cbn [ae_state with_inner snd].
  destruct (chosen_model e) as [m|] eqn:Em.
  - apply chosen_model_Some in Em. assert (∀ m' g, ae_building e = Some (m', g) →
      g ≤ ae_generation e ∧ (g = ae_generation e → ae_choice e = Some (ChoiceModel m') ∧ None = @None Provider)) as Hb.
    { intros m' g Hm. destruct (H4 m' g Hm) as [Hg Hc]. split; [done|]. intros E. by destruct (Hc E). }
    destruct (is_ready (ae_state e)) eqn:Er; split; unfold available, stamp in *; simpl in *; try done; congruence.
  - split; unfold available, stamp in *; simpl in *; try done.
    + intros Hr. right. destruct (ae_choice e) as [[|m]|] eqn:Ec; [|by rewrite (proj2 (chosen_model_Some e m) Ec) in Em|done].
      destruct (H2 Hr) as [[p Hp]|]; [|done]. destruct (H1 p Hp) as [_ Hs]. done.
    + intros m g Hm. destruct (H4 m g Hm) as [Hg Hc]. split; [done|]. intros E. by destruct (Hc E).
Qed.

Lemma embedder_step_ok e e' : embedder_ok e → embedder_step e e' → embedder_ok e'.
Proof.
  intros He. destruct 1 as [e c|e c Hl|e|e e' H|e Hb|e m g built Hb Hl|e b Hb|e|e Hl|e Hl].
  - unfold already_chosen. embedder_cases. by apply notify_load_ok.
  - by apply choose_ok.
  - unfold request_load. embedder_cases. by apply notify_load_ok.
  - unfold load_requested in H. embedder_cases. by apply (embedder_ok_same e).
  - by apply ensure_begin_ok.
  - by apply ensure_finish_ok.
  - by apply with_building_none_ok.
  - unfold lease. destruct (ae_inner e) as [p|] eqn:E; [|done]. destruct He as [H1 H2 H3 H4 H5].
    split; unfold available, stamp in *; simpl in *; rewrite ?E in *; eauto.
  - destruct He as [H1 H2 H3 H4 H5]. split; unfold available, stamp in *; simpl in *; eauto.
  - by apply unload_ok.
Qed.

Lemma reachable_embedder_ok e0 e : e0 = embedder_off ∨ (∃ p, e0 = embedder_loaded p) →
  star embedder_step e0 e → embedder_ok e.
Proof.
  intros H0 Hs. apply (star_invariant embedder_step embedder_ok) with e0; [intros; by eapply embedder_step_ok|done|].
  destruct H0 as [->|[p ->]]; split; unfold available, stamp; simpl; try done; [by intros q [= <-]|by left].
Qed.

(** A generation has one stamp, and generations only grow. *)
Lemma embedder_step_stamp e e' : embedder_ok e → embedder_step e e' →
  ae_generation e ≤ ae_generation e' ∧ (ae_generation e' = ae_generation e → stamp e' = stamp e).
Proof.
  intros He. destruct 1 as [e c|e c Hl|e|e e' H|e Hb|e m g built Hb Hl|e b Hb|e|e Hl|e Hl].
  - unfold already_chosen. embedder_cases.
  - unfold choose, already_chosen. embedder_cases; split; lia.
  - unfold request_load. embedder_cases.
  - unfold load_requested in H. embedder_cases.
  - unfold ensure_begin. destruct (chosen_model e) as [m|] eqn:Em; [|done]. apply chosen_model_Some in Em.
    embedder_cases. split; [done|]. intros _. unfold stamp. simpl. by rewrite Em.
  - unfold ensure_finish. cbn [ae_generation with_building].
    destruct (N.eqb_spec (ae_generation e) g) as [Hg|]; simpl; [|done].
    destruct (eo_building _ He m g Hb) as [_ Hc]. destruct (Hc (eq_sym Hg)) as [Hch _].
    destruct (result_bind built (matches_row m)); simpl; (split; [done|]); intros _; unfold stamp; simpl; by rewrite Hch.
  - done.
  - unfold lease. by destruct (ae_inner e).
  - done.
  - unfold unload. change (chosen_model (with_inner None e)) with (chosen_model e). cbn [ae_state with_inner snd].
    destruct (chosen_model e) as [m|] eqn:Em; [|done]. apply chosen_model_Some in Em.
    embedder_cases. split; [done|]. intros _. unfold stamp. simpl. by rewrite Em.
Qed.

(** While a lease is held nothing moves but permits and leases. *)
Lemma embedder_step_pinned e e' : embedder_ok e → embedder_step e e' → ae_leases e ≠ O →
  ae_inner e' = ae_inner e ∧ ae_generation e' = ae_generation e ∧ ae_state e' = ae_state e ∧ ae_choice e' = ae_choice e.
Proof.
  intros He Hst Hl. destruct Hst as [e c|e c Hl'|e|e e' H|e Hb|e m g built Hb Hl'|e b Hb|e|e Hl'|e Hl']; try done.
  - unfold already_chosen. embedder_cases.
  - unfold request_load. embedder_cases.
  - unfold load_requested in H. embedder_cases.
  - destruct (eo_leased _ He Hl) as [p Hp]. destruct (eo_ready _ He p Hp) as [Hs _].
    unfold ensure_begin. destruct (chosen_model e); [|done]. by rewrite Hs.
  - unfold lease. destruct (ae_inner e) eqn:E; simpl; by rewrite ?E.
Qed.

(** ** Properties *)

(** C32: a vector is stamped with the model that made it. From a start with no model, or with one
    handed in, whatever is chosen, loaded, dropped or abandoned: while a lease is held the provider
    stays, with its generation, and the status names it, its stamp and its width; and any two
    providers leased at one generation carry one stamp and one width, though unloaded and built
    again between. *)
Theorem generation_names_one_model e0 e1 e2 p1 :
  e0 = embedder_off ∨ (∃ p, e0 = embedder_loaded p) → star embedder_step e0 e1 → star embedder_step e1 e2 →
  ae_inner e1 = Some p1 →
  (available e1 = true ∧ embedder_model_id e1 = pv_model_id p1 ∧ dimensions e1 = pv_dims p1) ∧
  (∀ e', embedder_step e1 e' → ae_leases e1 ≠ O → ae_inner e' = Some p1 ∧ ae_generation e' = ae_generation e1) ∧
  (∀ p2, ae_inner e2 = Some p2 → ae_generation e2 = ae_generation e1 →
     pv_model_id p2 = pv_model_id p1 ∧ pv_dims p2 = pv_dims p1).
Proof.
  intros H0 H01 H12 Hp1. pose proof (reachable_embedder_ok _ _ H0 H01) as Hok.
  destruct (eo_ready _ Hok p1 Hp1) as [Hs Hst]. split; [|split].
  - unfold available, embedder_model_id, dimensions. by rewrite Hs.
  - intros e' Hstep Hl. destruct (embedder_step_pinned _ _ Hok Hstep Hl) as (-> & -> & _). done.
  - intros p2 Hp2 Hg. pose proof (reachable_embedder_ok _ _ H0 (star_trans _ _ _ _ H01 H12)) as Hok2.
    destruct (eo_ready _ Hok2 p2 Hp2) as [_ Hst2].
    assert (stamp e2 = stamp e1) as E.
    { assert (embedder_ok e2 ∧ ae_generation e1 ≤ ae_generation e2 ∧
        (ae_generation e2 = ae_generation e1 → stamp e2 = stamp e1)) as (_ & _ & H); [|by apply H].
      clear Hp2 Hg Hok2 Hst2. apply (star_invariant embedder_step
        (λ e, embedder_ok e ∧ ae_generation e1 ≤ ae_generation e ∧ (ae_generation e = ae_generation e1 → stamp e = stamp e1)))
        with e1; [|done|done].
      intros a b (Ha & Hge & Hsa) Hab. pose proof (embedder_step_stamp _ _ Ha Hab) as [Hm Hsb].
      split; [by eapply embedder_step_ok|]. split; [lia|]. intros E. rewrite Hsb by lia. apply Hsa. lia. }
    rewrite Hst, Hst2 in E. by injection E.
Qed.

Definition minilm : Provider :=
  {| pv_model_id := lit "all-MiniLM-L6-v2"; pv_dims := 384; pv_max_batch := 8;
     pv_embed_batch := λ texts, Ok ((λ _, replicate 384 0) <$> texts) |}.

(** Chosen, loaded, leased, given back, unloaded and loaded again. *)
Lemma generation_names_one_model_witness :
  ∃ e1 e2, star embedder_step embedder_off e1 ∧ star embedder_step e1 e2 ∧ ae_inner e1 = Some minilm ∧
    ae_leases e1 = 1%nat ∧ ae_inner e2 = Some minilm ∧ ae_generation e2 = ae_generation e1 ∧
    (available e1 = true ∧ embedder_model_id e1 = pv_model_id minilm ∧ dimensions e1 = pv_dims minilm).
Proof.
  set (loaded := λ e, (ensure_finish ALL_MINILM_L6_V2 1 (Ok minilm) (ensure_begin e).2).2).
  set (e0 := (choose (ChoiceModel ALL_MINILM_L6_V2) embedder_off).2).
  set (e1 := (lease (loaded e0)).2). set (e2 := loaded (unload (drop_lease e1)).2).
  assert (star embedder_step embedder_off e1) as H1.
  { eapply star_step; [by apply (es_choose embedder_off (ChoiceModel ALL_MINILM_L6_V2))|].
    eapply star_step; [by apply es_begin|]. eapply star_step; [by apply (es_finish _ ALL_MINILM_L6_V2 1 (Ok minilm))|].
    eapply star_step; [apply es_lease|apply star_refl]. }
  assert (star embedder_step e1 e2) as H2.
  { eapply star_step; [by apply es_drop_lease|]. eapply star_step; [by apply es_unload|].
    eapply star_step; [by apply es_begin|]. eapply star_step; [by apply (es_finish _ ALL_MINILM_L6_V2 1 (Ok minilm))|apply star_refl]. }
  exists e1, e2. split; [exact H1|]. split; [exact H2|]. do 4 (split; [done|]).
  apply (generation_names_one_model embedder_off e1 e2 minilm (or_introl eq_refl) H1 H2 eq_refl).
Defined.

(** The status of a provider that was handed in stays [Ready] once it is unloaded, with no provider. *)
Example unloaded_still_ready : ae_inner (unload (embedder_loaded minilm)).2 = None ∧ available (unload (embedder_loaded minilm)).2 = true.
Proof. done. Qed.
