(* ===== verification/EmbeddingSlot.v ===== *)
(** * EmbeddingSlot: the pass that keeps every vector current

    crates/pond-core/src/context/embedding_slot.rs: [BatchSizer], [EmbeddingSlot] with
    [has_pending_work] and [run_pass], over the index (context/vector_index.rs), the memories, the
    sessions, the context store and the embedder. A pass is a program over their calls. [f64] is
    Stdlib's binary64 ([SpecFloat]); durations are nanoseconds. The loop over a corpus carries fuel
    ([pass_ends] says how much is enough); an error's words are kept where the code writes them, and
    what is only logged is left out. *)
From S2P Require Import Prelude Prog Text Chunking Embedder.
From Stdlib Require Import NArith ZArith Lia.
From Stdlib Require Import Floats.SpecFloat.
Local Open Scope N_scope.

(** ** Binary64 *)

Notation f64 := spec_float.
Definition f64_of (n : N) : f64 := binary_normalize 53 1024 (Z.of_N n) 0 false.
Definition f64_add : f64 → f64 → f64 := SFadd 53 1024.
Definition f64_sub : f64 → f64 → f64 := SFsub 53 1024.
Definition f64_mul : f64 → f64 → f64 := SFmul 53 1024.
Definition f64_div : f64 → f64 → f64 := SFdiv 53 1024.
(** [Duration::as_secs_f64]. *)
Definition as_secs_f64 (d : N) : f64 :=
  f64_add (f64_of (d / 1000000000)) (f64_div (f64_of (d mod 1000000000)) (f64_of 1000000000)).

(** ** The sizer *)

Definition BATCH_BUDGET : N := 250 * 1000000.
Definition ROWS_PER_READ : nat := 32.
Definition BYTES_PER_TOKEN : N := 4.
Definition SPEED_SMOOTHING : f64 := f64_div (f64_of 3) (f64_of 10).

Definition estimate_tokens (t : text) : N := N.max (byte_len t / BYTES_PER_TOKEN) 1.

Record BatchSizer := { bs_budget : N; bs_ms_per_token : option f64 }.
Definition sizer_new (budget : N) : BatchSizer := {| bs_budget := budget; bs_ms_per_token := None |}.

Fixpoint take_loop (budget_ms rate spent : f64) (tokens : list N) (n : nat) : nat :=
  match tokens with
  | [] => n
  | t :: tokens =>
      let cost := f64_mul (f64_of (N.max t 1)) rate in
      if (0 <? n)%nat && SFltb budget_ms (f64_add spent cost) then n
      else take_loop budget_ms rate (f64_add spent cost) tokens (S n)
  end.

Definition sizer_take (s : BatchSizer) (tokens : list N) (cap : nat) : nat :=
  let cap := Nat.min (Nat.max cap 1) (length tokens) in
  if (cap =? 0)%nat then O else
  match bs_ms_per_token s with
  | None => 1%nat
  | Some rate => take_loop (f64_mul (as_secs_f64 (bs_budget s)) (f64_of 1000)) rate (f64_of 0) (take cap tokens) 0
  end.

Definition sizer_record (s : BatchSizer) (tokens : N) (took : N) : BatchSizer :=
  if tokens =? 0 then s else
  let observed := f64_div (f64_mul (as_secs_f64 took) (f64_of 1000)) (f64_of tokens) in
  {| bs_budget := bs_budget s;
     bs_ms_per_token := Some (match bs_ms_per_token s with
                              | None => observed
                              | Some prev => f64_add prev (f64_mul SPEED_SMOOTHING (f64_sub observed prev))
                              end) |}.

(** ** Corpora, entries and works *)

Inductive Corpus : Type := CMemory | CContext | CSummary.
#[export] Instance corpus_eq_dec : EqDecision Corpus.
Proof. solve_decision. Defined.
#[export] Instance corpus_countable : Countable Corpus.
Proof.
  refine (inj_countable' (λ c, match c with CMemory => 0 | CContext => 1 | CSummary => 2 end)
            (λ n, match n with 0 => CMemory | 1 => CContext | _ => CSummary end) _); by intros [].
Defined.

Definition ORDER : list Corpus := [CMemory; CSummary; CContext].

Record VectorEntry := {
  ve_corpus : Corpus; ve_row_id : text; ve_chunk_ix : Z; ve_chunk_span : option (Z * Z);
  ve_model_id : text; ve_vector : vector; ve_source_rev : option text }.

Definition entry_whole (c : Corpus) (row_id model_id : text) (v : vector) (rev : option text) : VectorEntry :=
  {| ve_corpus := c; ve_row_id := row_id; ve_chunk_ix := 0; ve_chunk_span := None; ve_model_id := model_id;
     ve_vector := v; ve_source_rev := rev |}.

Record Work := {
  wk_corpus : Corpus; wk_row_id : text; wk_rev : option text; wk_text : text; wk_spans : list Chunk; wk_tokens : N }.

(** [chunk] answers for every text a machine holds ([chunks_cover_the_text]). *)
Definition work_new (c : Corpus) (row_id t : text) (rev : option text) : Work :=
  {| wk_corpus := c; wk_row_id := row_id; wk_rev := rev; wk_text := t;
     wk_spans := match c with
                 | CContext => default [] (chunk t DEFAULT_CHUNK_BYTES DEFAULT_OVERLAP_BYTES)
                 | _ => if is_empty (trim t) then [] else [{| ck_start := 0; ck_len := byte_len t |}]
                 end;
     wk_tokens := estimate_tokens t |}.

Definition passages_of (w : Work) : list text := omap (λ s, slice s (wk_text w)) (wk_spans w).
Notation key := (Corpus * text)%type.
Definition work_key (w : Work) : key := (wk_corpus w, wk_row_id w).

(** ** The calls of a pass *)

Record LeaseInfo := { li_model_id : text; li_dims : N; li_max_batch : N }.

Inductive SlotCall : Type → Type :=
| Lease : SlotCall (option LeaseInfo)
| DropLease : SlotCall unit
| Generation : SlotCall N
| ModelId : SlotCall text
| EmbedBatch (texts : list text) : SlotCall (result (list vector) text)
| NeedsEmbedding (c : Corpus) (model_id : text) (limit : nat) : SlotCall (result (list text) text)
| NeedsEmbeddingWithText (c : Corpus) (model_id : text) (limit : nat) : SlotCall (result (list (text * text)) text)
| RollingSummary (session_id : text) : SlotCall (result (option text * option text) text)
| UpdateMemory (id : text) (v : vector) : SlotCall (result unit text)
| UpdateContext (id : text) (v : vector) : SlotCall (result unit text)
| Upsert (e : VectorEntry) : SlotCall (result unit text)
| Remove (c : Corpus) (row_id : text) : SlotCall (result unit text)
| MayContinue : SlotCall bool
| PruneOrphans : SlotCall (result N text)
| Health (model_id : text) : SlotCall unit
| Clock : SlotCall N.

(** ** The slot, a pass and its report *)

Inductive PassEnd : Type := Drained | Yielded | ModelChanged | NotReady | StoreFailed.

Record PassReport := {
  pr_end : PassEnd; pr_memories : nat; pr_summaries : nat; pr_context_items : nat; pr_failed : nat;
  pr_batches : nat; pr_orphans_pruned : N }.

Definition report_new : PassReport :=
  {| pr_end := Drained; pr_memories := 0; pr_summaries := 0; pr_context_items := 0; pr_failed := 0;
     pr_batches := 0; pr_orphans_pruned := 0 |}.
Definition ended (r : PassReport) (e : PassEnd) : PassReport :=
  {| pr_end := e; pr_memories := pr_memories r; pr_summaries := pr_summaries r;
     pr_context_items := pr_context_items r; pr_failed := pr_failed r; pr_batches := pr_batches r;
     pr_orphans_pruned := pr_orphans_pruned r |}.
Definition with_pruned (n : N) (r : PassReport) : PassReport :=
  {| pr_end := pr_end r; pr_memories := pr_memories r; pr_summaries := pr_summaries r;
     pr_context_items := pr_context_items r; pr_failed := pr_failed r; pr_batches := pr_batches r;
     pr_orphans_pruned := n |}.

Record EmbeddingSlot := {
  sl_sizer : BatchSizer; sl_passed_over : gset key; sl_tidy_owed : bool; sl_generation : option N }.

Definition slot_new : EmbeddingSlot :=
  {| sl_sizer := sizer_new BATCH_BUDGET; sl_passed_over := ∅; sl_tidy_owed := true; sl_generation := None |}.
Definition retry_failed (s : EmbeddingSlot) : EmbeddingSlot :=
  {| sl_sizer := sl_sizer s; sl_passed_over := ∅; sl_tidy_owed := true; sl_generation := sl_generation s |}.
(** A new generation is noted: another model's speed says nothing about this one's. *)
Definition note_generation (g : N) (s : EmbeddingSlot) : EmbeddingSlot :=
  if bool_decide (sl_generation s = Some g) then s else
  {| sl_sizer := match sl_generation s with Some _ => sizer_new BATCH_BUDGET | None => sl_sizer s end;
     sl_passed_over := ∅; sl_tidy_owed := true; sl_generation := Some g |}.
Definition skip (k : key) (s : EmbeddingSlot) : EmbeddingSlot :=
  {| sl_sizer := sl_sizer s; sl_passed_over := {[k]} ∪ sl_passed_over s; sl_tidy_owed := sl_tidy_owed s;
     sl_generation := sl_generation s |}.
Definition tidied (s : EmbeddingSlot) : EmbeddingSlot :=
  {| sl_sizer := sl_sizer s; sl_passed_over := sl_passed_over s; sl_tidy_owed := false;
     sl_generation := sl_generation s |}.

Record Pass := {
  pa_slot : EmbeddingSlot; pa_model_id : text; pa_generation : N; pa_report : PassReport; pa_written : gset key }.

Definition with_slot (s : EmbeddingSlot) (p : Pass) : Pass :=
  {| pa_slot := s; pa_model_id := pa_model_id p; pa_generation := pa_generation p; pa_report := pa_report p;
     pa_written := pa_written p |}.

Definition pass_over (k : key) (p : Pass) : Pass :=
  {| pa_slot := skip k (pa_slot p); pa_model_id := pa_model_id p; pa_generation := pa_generation p;
     pa_report := {| pr_end := pr_end (pa_report p); pr_memories := pr_memories (pa_report p);
                     pr_summaries := pr_summaries (pa_report p); pr_context_items := pr_context_items (pa_report p);
                     pr_failed := S (pr_failed (pa_report p)); pr_batches := pr_batches (pa_report p);
                     pr_orphans_pruned := pr_orphans_pruned (pa_report p) |};
     pa_written := pa_written p |}.

Definition note_stored (w : Work) (p : Pass) : Pass :=
  let r := pa_report p in let one c := if bool_decide (wk_corpus w = c) then 1%nat else O in
  {| pa_slot := {| sl_sizer := sl_sizer (pa_slot p); sl_passed_over := sl_passed_over (pa_slot p);
                   sl_tidy_owed := true; sl_generation := sl_generation (pa_slot p) |};
     pa_model_id := pa_model_id p; pa_generation := pa_generation p;
     pa_report := {| pr_end := pr_end r; pr_memories := pr_memories r + one CMemory;
                     pr_summaries := pr_summaries r + one CSummary;
                     pr_context_items := pr_context_items r + one CContext; pr_failed := pr_failed r;
                     pr_batches := pr_batches r; pr_orphans_pruned := pr_orphans_pruned r |};
     pa_written := {[work_key w]} ∪ pa_written p |}.

Definition note_batch (tokens took : N) (p : Pass) : Pass :=
  let r := pa_report p in
  {| pa_slot := {| sl_sizer := sizer_record (sl_sizer (pa_slot p)) tokens took;
                   sl_passed_over := sl_passed_over (pa_slot p); sl_tidy_owed := sl_tidy_owed (pa_slot p);
                   sl_generation := sl_generation (pa_slot p) |};
     pa_model_id := pa_model_id p; pa_generation := pa_generation p;
     pa_report := {| pr_end := pr_end r; pr_memories := pr_memories r; pr_summaries := pr_summaries r;
                     pr_context_items := pr_context_items r; pr_failed := pr_failed r;
                     pr_batches := S (pr_batches r); pr_orphans_pruned := pr_orphans_pruned r |};
     pa_written := pa_written p |}.

(** ** Reading a corpus *)

(** [filter(|x| seen.insert(key(x)))]. *)
Fixpoint first_of {A} (key : A → text) (seen : list text) (l : list A) : list A :=
  match l with
  | [] => []
  | a :: l => if bool_decide (key a ∈ seen) then first_of key seen l else a :: first_of key (key a :: seen) l
  end.

Fixpoint read_summaries (ids : list text) : Prog SlotCall (result (list Work) text) :=
  match ids with
  | [] => Ret (Ok [])
  | id :: ids =>
      let! read := RollingSummary id in
      match read with
      | Err e => Ret (Err e)
      | Ok (summary, rev) =>
          prog_bind (read_summaries ids) (λ rest,
            Ret (let? rest := rest in Ok (work_new CSummary id (default [] summary) rev :: rest)))
      end
  end.

Definition read_corpus (model_id : text) (c : Corpus) (limit : nat) : Prog SlotCall (result (list Work) text) :=
  match c with
  | CSummary =>
      let! ids := NeedsEmbedding c model_id limit in
      match ids with
      | Err e => Ret (Err e)
      | Ok ids => read_summaries (first_of id [] ids)
      end
  | _ =>
      let! rows := NeedsEmbeddingWithText c model_id limit in
      match rows with
      | Err e => Ret (Err e)
      | Ok rows => Ret (Ok ((λ r, work_new c r.1 r.2 None) <$> first_of fst [] rows))
      end
  end.

(** ** Embedding a batch *)

(** [slice::chunks]. *)
Fixpoint chunks_fuel {A} (fuel n : nat) (l : list A) : list (list A) :=
  match fuel, l with
  | S fuel, _ :: _ => take n l :: chunks_fuel fuel n (drop n l)
  | _, _ => []
  end.
Definition chunks_of {A} (n : nat) (l : list A) : list (list A) := chunks_fuel (length l) n l.

Fixpoint embed_calls (calls : list (list text)) (acc : list vector) : Prog SlotCall (result (list vector) text) :=
  match calls with
  | [] => Ret (Ok acc)
  | call :: calls =>
      let! answer := EmbedBatch call in
      match answer with Ok vs => embed_calls calls (acc ++ vs) | Err e => Ret (Err e) end
  end.

Definition checked (dims : N) (texts : list text) (vectors : list vector) : result (list vector) text :=
  if negb (length vectors =? length texts)%nat then
    Err (lit "the embedder returned " ++ dec (N.of_nat (length vectors)) ++ lit " vectors for " ++
         dec (N.of_nat (length texts)) ++ lit " texts")
  else match find_first (λ v, negb (N.of_nat (length v) =? dims)) vectors with
       | Some v => Err (lit "a " ++ dec (N.of_nat (length v)) ++ lit " wide vector from a model that is " ++
                        dec dims ++ lit " wide")
       | None => Ok vectors
       end.

Definition embed_texts (li : LeaseInfo) (texts : list text) : Prog SlotCall (result (list vector) text) :=
  prog_bind (embed_calls (chunks_of (N.to_nat (N.max (li_max_batch li) 1)) texts) []) (λ r,
    Ret (let? vectors := r in checked (li_dims li) texts vectors)).

(** The vectors shared out among the works, as many each as it has passages. *)
Fixpoint share (works : list Work) (vectors : list vector) : list (result (list vector) text) :=
  match works with
  | [] => []
  | w :: works =>
      let k := Nat.min (length (wk_spans w)) (length vectors) in
      Ok (take k vectors) :: share works (drop k vectors)
  end.

Fixpoint embed_each (li : LeaseInfo) (works : list Work) : Prog SlotCall (list (result (list vector) text)) :=
  match works with
  | [] => Ret []
  | w :: works =>
      prog_bind (embed_texts li (passages_of w)) (λ r, prog_bind (embed_each li works) (λ rs, Ret (r :: rs)))
  end.

Definition embed_works (li : LeaseInfo) (works : list Work) : Prog SlotCall (list (result (list vector) text)) :=
  prog_bind (embed_texts li (works ≫= passages_of)) (λ r,
    match r with
    | Ok vectors => Ret (share works vectors)
    | Err e => if (length works =? 1)%nat then Ret [Err e] else embed_each li works
    end).

(** ** Storing *)

Section pass.
(** Whether a context store is wired. *)
Context (has_context : bool).

Definition passage_entry (id model_id : text) (ix : nat) (s : Chunk) (v : vector) : VectorEntry :=
  {| ve_corpus := CContext; ve_row_id := id; ve_chunk_ix := Z.of_nat ix;
     ve_chunk_span := Some (Z.of_N (ck_start s), Z.of_N (ck_len s)); ve_model_id := model_id; ve_vector := v;
     ve_source_rev := None |}.

Fixpoint upsert_passages (id model_id : text) (ix : nat) (l : list (Chunk * vector)) : Prog SlotCall (result unit text) :=
  match l with
  | [] => Ret (Ok tt)
  | (s, v) :: l =>
      let! r := Upsert (passage_entry id model_id ix s v) in
      match r with Ok _ => upsert_passages id model_id (S ix) l | Err e => Ret (Err e) end
  end.

Definition store (model_id : text) (w : Work) (vectors : list vector) : Prog SlotCall (result unit text) :=
  match head vectors with
  | None => Ret (Err (lit "the embedder returned no vector"))
  | Some first =>
      match wk_corpus w with
      | CMemory => Call (UpdateMemory (wk_row_id w) first) Ret
      | CSummary => Call (Upsert (entry_whole CSummary (wk_row_id w) model_id first (wk_rev w))) Ret
      | CContext =>
          if negb has_context then Ret (Err (lit "no context store is wired")) else
          let! removed := Remove CContext (wk_row_id w) in
          match removed with
          | Err e => Ret (Err e)
          | Ok _ =>
              if (length (wk_spans w) =? 1)%nat then Call (UpdateContext (wk_row_id w) first) Ret
              else upsert_passages (wk_row_id w) model_id 0 (zip (wk_spans w) vectors)
          end
      end
  end.

Fixpoint store_each (l : list (Work * result (list vector) text)) (p : Pass) : Prog SlotCall Pass :=
  match l with
  | [] => Ret p
  | (w, vectors) :: l =>
      prog_bind (match vectors with Ok vs => store (pa_model_id p) w vs | Err e => Ret (Err e) end) (λ stored,
        store_each l (match stored with Ok _ => note_stored w p | Err _ => pass_over (work_key w) p end))
  end.

(** ** The pass *)

Inductive Walked : Type := WEnd (e : PassEnd) | WOn | WOutOfFuel.

(** How many works fit one call's texts: at least one. *)
Fixpoint fit_works (cap_texts : N) (rest : list Work) (fit : nat) (texts : N) : nat :=
  match rest with
  | [] => fit
  | w :: rest =>
      let n := N.of_nat (length (wk_spans w)) in
      if (0 <? fit)%nat && (cap_texts <? texts + n) then fit else fit_works cap_texts rest (S fit) (texts + n)
  end.

Definition batch_tokens (works : list Work) : N := foldl (λ n w, n + wk_tokens w) 0 works.

Fixpoint embed_all (fuel : nat) (queue : list Work) (p : Pass) : Prog SlotCall (Walked * Pass) :=
  match queue, fuel with
  | [], _ => Ret (WOn, p)
  | _, O => Ret (WOutOfFuel, p)
  | _, S fuel =>
      let! g := Generation in
      if negb (g =? pa_generation p) then Ret (WEnd ModelChanged, p) else
      let! lease := Lease in
      match lease with
      | None => Ret (WEnd NotReady, p)
      | Some li =>
          let! g := Generation in
          if negb (g =? pa_generation p) then do! DropLease in Ret (WEnd ModelChanged, p) else
          let fit := fit_works (N.max (li_max_batch li) 1) queue 0 0 in
          let n := sizer_take (sl_sizer (pa_slot p)) (wk_tokens <$> take fit queue) fit in
          let batch := take n queue in
          let! started := Clock in
          prog_bind (embed_works li batch) (λ vectors,
          prog_bind (store_each (zip batch vectors) p) (λ p,
            let! now := Clock in
            do! DropLease in
            let p := note_batch (batch_tokens batch) (now - started) p in
            let! go := MayContinue in
            if go then embed_all fuel (drop n queue) p else Ret (WEnd Yielded, p)))
      end
  end.

(** What of the rows read is still to embed; the others are passed over, or were. *)
Fixpoint sift (rows : list Work) (p : Pass) : list Work * Pass :=
  match rows with
  | [] => ([], p)
  | w :: rows =>
      if bool_decide (work_key w ∈ sl_passed_over (pa_slot p)) then sift rows p
      else if bool_decide (work_key w ∈ pa_written p) then sift rows (pass_over (work_key w) p)
      else if is_empty (wk_spans w) then sift rows (with_slot (skip (work_key w) (pa_slot p)) p)
      else let '(fresh, p) := sift rows p in (w :: fresh, p)
  end.

Definition passed_over_of (c : Corpus) (s : EmbeddingSlot) : nat :=
  size (filter (λ k : key, k.1 = c) (sl_passed_over s)).

Fixpoint walk_corpus (fuel : nat) (c : Corpus) (p : Pass) : Prog SlotCall (Walked * Pass) :=
  match fuel with
  | O => Ret (WOutOfFuel, p)
  | S fuel =>
      let limit := (ROWS_PER_READ + passed_over_of c (pa_slot p))%nat in
      prog_bind (read_corpus (pa_model_id p) c limit) (λ rows,
        match rows with
        | Err _ => Ret (WEnd StoreFailed, p)
        | Ok rows =>
            let '(fresh, q) := sift rows p in
            if is_empty fresh then
              if (length rows <? limit)%nat ||
                 (size (sl_passed_over (pa_slot q)) =? size (sl_passed_over (pa_slot p)))%nat
              then Ret (WOn, q) else walk_corpus fuel c q
            else prog_bind (embed_all (length fresh) fresh q) (λ r,
                   match r.1 with WOn => walk_corpus fuel c r.2 | w => Ret (w, r.2) end)
        end)
  end.

Fixpoint walk (fuel : nat) (corpora : list Corpus) (p : Pass) : Prog SlotCall (Walked * Pass) :=
  match corpora with
  | [] => Ret (WOn, p)
  | c :: corpora =>
      if bool_decide (c = CContext) && negb has_context then walk fuel corpora p else
      prog_bind (walk_corpus fuel c p) (λ r, match r.1 with WOn => walk fuel corpora r.2 | w => Ret (w, r.2) end)
  end.

Definition tidy (model_id : text) : Prog SlotCall N :=
  let! pruned := PruneOrphans in
  do! Health model_id in
  Ret (match pruned with Ok n => n | Err _ => 0 end).

(** [None] for want of fuel. *)
Definition run_pass (fuel : nat) (slot : EmbeddingSlot) : Prog SlotCall (option PassReport * EmbeddingSlot) :=
  let! lease := Lease in
  match lease with
  | None => Ret (Some (ended report_new NotReady), slot)
  | Some li =>
      let! g := Generation in
      do! DropLease in
      let p := {| pa_slot := note_generation g slot; pa_model_id := li_model_id li; pa_generation := g;
                  pa_report := report_new; pa_written := ∅ |} in
      prog_bind (walk fuel ORDER p) (λ r,
        let '(w, p) := r in
        match w with
        | WOutOfFuel => Ret (None, pa_slot p)
        | WEnd e => Ret (Some (ended (pa_report p) e), pa_slot p)
        | WOn =>
            if sl_tidy_owed (pa_slot p) then
              prog_bind (tidy (pa_model_id p)) (λ n,
                Ret (Some (ended (with_pruned n (pa_report p)) Drained), tidied (pa_slot p)))
            else Ret (Some (ended (pa_report p) Drained), pa_slot p)
        end)
  end.

(** ** Whether there is anything to load the model for *)

(** The rows read, up to one to embed; blank ones are passed over on the way. *)
Fixpoint any_fresh (rows : list Work) (s : EmbeddingSlot) : bool * EmbeddingSlot :=
  match rows with
  | [] => (false, s)
  | w :: rows =>
      if bool_decide (work_key w ∈ sl_passed_over s) then any_fresh rows s
      else if is_empty (wk_spans w) then any_fresh rows (skip (work_key w) s)
      else (true, s)
  end.

(** [None] for want of fuel; [Some None] when nothing of the corpus is pending. *)
Fixpoint look_corpus (fuel : nat) (model_id : text) (c : Corpus) (s : EmbeddingSlot) :
    Prog SlotCall (option (option bool) * EmbeddingSlot) :=
  match fuel with
  | O => Ret (None, s)
  | S fuel =>
      let limit := (ROWS_PER_READ + passed_over_of c s)%nat in
      prog_bind (read_corpus model_id c limit) (λ rows,
        match rows with
        | Err _ => Ret (Some (Some false), s)
        | Ok rows =>
            let '(fresh, t) := any_fresh rows s in
            if fresh then Ret (Some (Some true), t)
            else if (length rows <? limit)%nat || (size (sl_passed_over t) =? size (sl_passed_over s))%nat
            then Ret (Some None, t) else look_corpus fuel model_id c t
        end)
  end.

Fixpoint look_corpora (fuel : nat) (model_id : text) (corpora : list Corpus) (s : EmbeddingSlot) :
    Prog SlotCall (option (option bool) * EmbeddingSlot) :=
  match corpora with
  | [] => Ret (Some None, s)
  | c :: corpora =>
      if bool_decide (c = CContext) && negb has_context then look_corpora fuel model_id corpora s else
      prog_bind (look_corpus fuel model_id c s) (λ r,
        match r.1 with Some None => look_corpora fuel model_id corpora r.2 | x => Ret (x, r.2) end)
  end.

Definition has_pending_work (fuel : nat) (slot : EmbeddingSlot) : Prog SlotCall (option bool * EmbeddingSlot) :=
  let! model_id := ModelId in
  if is_empty model_id then Ret (Some false, slot) else
  let! g := Generation in
  prog_bind (look_corpora fuel model_id ORDER (note_generation g slot)) (λ r,
    let '(x, s) := r in
    match x with
    | None => Ret (None, s)
    | Some (Some b) => Ret (Some b, s)
    | Some None =>
        if sl_tidy_owed s then prog_bind (tidy model_id) (λ _, Ret (Some false, tidied s)) else Ret (Some false, s)
    end).
End pass.

(** ** Lemmas: batches are never empty *)

Lemma take_loop_ge budget rate spent tokens n : (n ≤ take_loop budget rate spent tokens n)%nat.
Proof.
  revert spent n. induction tokens as [|t tokens IH]; intros spent n; simpl; [lia|].
  case_match; [lia|]. specialize (IH (f64_add spent (f64_mul (f64_of (N.max t 1)) rate)) (S n)). lia.
Qed.

Lemma sizer_take_pos s tokens cap : (0 < length tokens → 0 < sizer_take s tokens cap)%nat.
Proof.
  intros H. unfold sizer_take. destruct (Nat.eqb_spec (Nat.min (Nat.max cap 1) (length tokens)) 0); [lia|].
  destruct (bs_ms_per_token s) as [rate|]; [|lia].
  destruct (take (Nat.min (Nat.max cap 1) (length tokens)) tokens) as [|t ts] eqn:E.
  - apply (f_equal length) in E. rewrite length_take in E. simpl in E. lia.
  - cbn [take_loop Nat.ltb Nat.leb andb]. pose proof (take_loop_ge (f64_mul (as_secs_f64 (bs_budget s)) (f64_of 1000)) rate
      (f64_add (f64_of 0) (f64_mul (f64_of (N.max t 1)) rate)) ts 1). lia.
Qed.

Lemma fit_works_ge cap rest fit texts : (fit ≤ fit_works cap rest fit texts)%nat.
Proof.
  revert fit texts. induction rest as [|w rest IH]; intros fit texts; simpl; [lia|].
  case_match; [lia|]. specialize (IH (S fit) (texts + N.of_nat (length (wk_spans w)))). lia.
Qed.

Lemma fit_works_pos cap w rest : (0 < fit_works cap (w :: rest) 0 0)%nat.
Proof.
  cbn [fit_works Nat.ltb Nat.leb andb].
  pose proof (fit_works_ge cap rest 1 (0 + N.of_nat (length (wk_spans w)))). lia.
Qed.

Lemma share_length works vectors : length (share works vectors) = length works.
Proof. revert vectors. induction works as [|w works IH]; intros; simpl; [done|]. by rewrite IH. Qed.

Lemma embed_each_length li works l rs : path (embed_each li works) l rs → length rs = length works.
Proof.
  revert l rs. induction works as [|w works IH]; intros l rs; simpl.
  - intros [_ ->]%path_inv. done.
  - intros (r & l1 & l2 & -> & _ & (rs' & l3 & l4 & -> & H & [_ ->]%path_inv)%path_bind)%path_bind.
    simpl. by rewrite (IH _ _ H).
Qed.

Lemma embed_works_length li works l rs : path (embed_works li works) l rs → length rs = length works.
Proof.
  unfold embed_works. intros (r & l1 & l2 & -> & _ & H)%path_bind. destruct r as [vs|e].
  - apply path_inv in H as [_ ->]. apply share_length.
  - destruct (Nat.eqb_spec (length works) 1) as [Hw|]; [|by eapply embed_each_length].
    apply path_inv in H as [_ ->]. by rewrite Hw.
Qed.

(** ** Lemmas: what has been dealt with only grows *)

(** The rows dealt with so far. *)
Definition settled_rows (p : Pass) : gset key := pa_written p ∪ sl_passed_over (pa_slot p).

(** From [p] to [q] within a pass: rows are only added, none but those of [works]. *)
Record grows (ks : gset key) (p q : Pass) : Prop := {
  gr_passed : sl_passed_over (pa_slot p) ⊆ sl_passed_over (pa_slot q);
  gr_settled : settled_rows p ⊆ settled_rows q;
  gr_only : sl_passed_over (pa_slot q) ⊆ sl_passed_over (pa_slot p) ∪ ks;
  gr_only_settled : settled_rows q ⊆ settled_rows p ∪ ks }.

Lemma grows_refl ks p : grows ks p p.
Proof. split; set_solver. Qed.

Lemma grows_trans ks1 ks2 p q r : grows ks1 p q → grows ks2 q r → grows (ks1 ∪ ks2) p r.
Proof.
  assert (∀ A B D : gset key, A ⊆ B ∪ ks2 → B ⊆ D ∪ ks1 → A ⊆ D ∪ (ks1 ∪ ks2)) as H by (clear; set_solver).
  intros [H1 H2 H3 H4] [K1 K2 K3 K4]. split; [by etrans|by etrans|by eapply H|by eapply H].
Qed.

Lemma grows_mono ks1 ks2 p q : ks1 ⊆ ks2 → grows ks1 p q → grows ks2 p q.
Proof. intros Hk [H1 H2 H3 H4]. split; set_solver. Qed.

Lemma grows_pass k p q :
  pa_written q = pa_written p → sl_passed_over (pa_slot q) = {[k]} ∪ sl_passed_over (pa_slot p) →
  grows {[k]} p q ∧ k ∈ sl_passed_over (pa_slot q).
Proof. intros H1 H2. split; [split; unfold settled_rows; rewrite ?H1, H2; clear|rewrite H2; clear]; set_solver. Qed.

Lemma grows_store k p q :
  pa_written q = {[k]} ∪ pa_written p → sl_passed_over (pa_slot q) = sl_passed_over (pa_slot p) →
  grows {[k]} p q ∧ k ∈ settled_rows q.
Proof.
  intros H1 H2. unfold settled_rows. split; [split; unfold settled_rows; rewrite ?H1, H2; clear|rewrite H1; clear]; set_solver.
Qed.

Definition keys_of (works : list Work) : gset key := list_to_set (work_key <$> works).

Lemma store_each_path hc works rs p l q :
  length rs = length works → path (store_each hc (zip works rs) p) l q →
  grows (keys_of works) p q ∧ keys_of works ⊆ settled_rows q.
Proof.
  unfold keys_of. revert rs p l. induction works as [|w works IH]; intros [|r rs] p l Hlen; simpl in *; try done.
  - intros [_ ->]%path_inv. split; [apply grows_refl|set_solver].
  - intros (s & l1 & l2 & -> & _ & H)%path_bind. injection Hlen as Hlen.
    destruct (IH rs _ l2 Hlen H) as [Hg Hk]. unfold settled_rows in *.
    assert (grows {[work_key w]} p (match s with Ok _ => note_stored w p | Err _ => pass_over (work_key w) p end) ∧
      work_key w ∈ settled_rows (match s with Ok _ => note_stored w p | Err _ => pass_over (work_key w) p end)) as [H1 H2].
    { destruct s; [by apply grows_store|]. destruct (grows_pass (work_key w) p (pass_over (work_key w) p)) as [G K]; [done|done|].
      split; [done|]. unfold settled_rows. apply elem_of_union. by right. }
    split; [by eapply grows_trans|]. apply gr_settled in Hg. simpl. apply union_subseteq.
    split; [|done]. apply singleton_subseteq_l. by apply Hg.
Qed.

Lemma keys_of_app l1 l2 : keys_of (l1 ++ l2) = keys_of l1 ∪ keys_of l2.
Proof. unfold keys_of. by rewrite fmap_app, list_to_set_app_L. Qed.

(** A walk ends with the fuel it has, and a pass is not called drained before its end. *)
Definition proper_end (w : Walked) : Prop := match w with WOutOfFuel | WEnd Drained => False | _ => True end.

(** The loop over a read's rows ends by itself, and leaves none of them undone. *)
Lemma embed_all_path hc fuel queue p l w q :
  (length queue ≤ fuel)%nat → path (embed_all hc fuel queue p) l (w, q) →
  proper_end w ∧ grows (keys_of queue) p q ∧ (w = WOn → keys_of queue ⊆ settled_rows q).
Proof.
  revert queue p l. induction fuel as [|fuel IH]; intros queue p l Hf.
  { destruct queue as [|x queue]; [|simpl in Hf; lia]. simpl. intros [_ [= -> ->]]%path_inv.
    split; [done|]. split; [apply grows_refl|done]. }
  destruct queue as [|x queue']; cbn [embed_all].
  { intros [_ [= -> ->]]%path_inv. split; [done|]. split; [apply grows_refl|done]. }
  set (queue := x :: queue') in *. intros (g & l1 & -> & H)%path_inv.
  assert (∀ e l, e ≠ Drained → path (Ret (WEnd e, p) : Prog SlotCall _) l (w, q) →
    proper_end w ∧ grows (keys_of queue) p q ∧ (w = WOn → keys_of queue ⊆ settled_rows q)) as Hend.
  { intros e l' He [_ [= -> ->]]%path_inv. split; [by destruct e|]. split; [apply grows_refl|done]. }
  destruct (negb _); [by apply (Hend ModelChanged l1)|]. apply path_inv in H as ([li|] & l2 & -> & H); [|by apply (Hend NotReady l2)].
  apply path_inv in H as (g' & l3 & -> & H).
  destruct (negb _); [apply path_inv in H as (u & l4 & -> & H); by apply (Hend ModelChanged l4)|].
  set (n := sizer_take _ _ _) in H. assert (0 < n)%nat as Hn.
  { apply sizer_take_pos. rewrite length_fmap, length_take.
    pose proof (fit_works_pos (N.max (li_max_batch li) 1) x queue'). simpl length. unfold queue. simpl length. lia. }
  apply path_inv in H as (t0 & l4 & -> & H).
  apply path_bind in H as (rs & l5 & l6 & -> & Hrs%embed_works_length & H).
  apply path_bind in H as (p' & l7 & l8 & -> & [Hg Hk]%store_each_path & H); [|done].
  apply path_inv in H as (t1 & l9 & -> & H). apply path_inv in H as (u & l10 & -> & H).
  apply path_inv in H as (go & l11 & -> & H).
  set (p2 := note_batch _ _ p') in H.
  assert (grows (keys_of (take n queue)) p p2 ∧ keys_of (take n queue) ⊆ settled_rows p2) as [Hg2 Hk2].
  { split; [|exact Hk]. destruct Hg. by split. }
  assert (keys_of queue = keys_of (take n queue) ∪ keys_of (drop n queue)) as Eq.
  { by rewrite <-keys_of_app, take_drop. }
  destruct go.
  - apply IH in H as (Hw & Hg3 & Hon); [|rewrite length_drop; unfold queue in *; simpl length in *; lia].
    split; [done|]. rewrite Eq. split; [by eapply grows_trans|]. intros Ew. specialize (Hon Ew).
    apply gr_settled in Hg3. set_solver.
  - apply path_inv in H as [_ [= -> ->]]. split; [done|]. rewrite Eq. split; [|done].
    eapply grows_mono; [|done]. set_solver.
Qed.

(** ** Lemmas: what a read brings, and what of it is new *)

(** The rows a call listed: of which corpus, of how many asked for. *)
Definition listing_of (x : {R : Type & (SlotCall R * R)%type}) : option (Corpus * nat * list text) :=
  let '(existT R (call, r)) := x in
  match call in SlotCall R return R → option (Corpus * nat * list text) with
  | NeedsEmbedding c m n => λ r, match r with Ok ids => Some (c, n, ids) | Err _ => None end
  | NeedsEmbeddingWithText c m n => λ r, match r with Ok rows => Some (c, n, rows.*1) | Err _ => None end
  | _ => λ _, None
  end r.

Definition listed (c : Corpus) (limit : nat) (ids : list text) (l : list {R : Type & (SlotCall R * R)%type}) : Prop :=
  (c, limit, ids) ∈ omap listing_of l.

(** Whatever the index lists on the way is among these rows. *)
Definition lists_within (U : gset key) (l : list {R : Type & (SlotCall R * R)%type}) : Prop :=
  ∀ c limit ids, listed c limit ids l → ∀ id, id ∈ ids → (c, id) ∈ U.

Lemma listed_app c limit ids l1 l2 : listed c limit ids (l1 ++ l2) ↔ listed c limit ids l1 ∨ listed c limit ids l2.
Proof. unfold listed. rewrite omap_app. apply elem_of_app. Qed.

Lemma listed_tail c limit ids x l : listed c limit ids l → listed c limit ids (x :: l).
Proof. intros H. apply (listed_app _ _ _ [x]). by right. Qed.

Lemma lists_within_app U l1 l2 : lists_within U (l1 ++ l2) ↔ lists_within U l1 ∧ lists_within U l2.
Proof.
  unfold lists_within. setoid_rewrite listed_app. split; [intros H; split; eauto|intros [H1 H2] c limit ids []; eauto].
Qed.

Lemma first_of_spec {A} (key : A → text) seen l :
  NoDup (key <$> first_of key seen l) ∧
  (∀ k, k ∈ key <$> first_of key seen l ↔ k ∈ key <$> l ∧ k ∉ seen).
Proof.
  revert seen. induction l as [|a l IH]; intros seen; simpl.
  - split; [constructor|]. intros k. split; [intros []%not_elem_of_nil|intros [[]%not_elem_of_nil _]].
  - case_bool_decide as Ha.
    + destruct (IH seen) as [H1 H2]. split; [done|]. intros k. rewrite H2, elem_of_cons. split; [tauto|].
      intros [[->|] ?]; [done|tauto].
    + destruct (IH (key a :: seen)) as [H1 H2]. split.
      * simpl. constructor; [|done]. rewrite H2. intros [_ []]. left.
      * intros k. simpl. rewrite !elem_of_cons, H2, elem_of_cons. destruct (decide (k = key a)) as [->|]; tauto.
Qed.

Lemma read_summaries_path ids l rows : path (read_summaries ids) l (Ok rows) →
  wk_row_id <$> rows = ids ∧ Forall (λ w, wk_corpus w = CSummary) rows.
Proof.
  revert l rows. induction ids as [|id ids IH]; intros l rows; simpl.
  - intros [_ [= ->]]%path_inv. done.
  - intros ([[summary rev]|e] & l' & -> & H)%path_inv; [|by apply path_inv in H as [_ [=]]].
    apply path_bind in H as (rest & l1 & l2 & -> & H1 & [_ H2]%path_inv).
    destruct rest as [rest|]; [|done]. simpl in H2. injection H2 as ->.
    destruct (IH _ _ H1) as [E F]. subst ids. split; [done|by constructor].
Qed.

Lemma first_of_fst c (rows : list (text * text)) :
  wk_row_id ∘ (λ r, work_new c r.1 r.2 None) <$> first_of fst [] rows = first_of (λ i, i) [] rows.*1.
Proof.
  generalize (@nil text). induction rows as [|[i t] rows IH]; intros seen; simpl; [done|].
  case_bool_decide; simpl; [apply IH|]. by rewrite <-IH.
Qed.

(** The rows read are distinct rows of the corpus, and those the index listed. *)
Lemma read_corpus_path m c limit l rows : path (read_corpus m c limit) l (Ok rows) →
  NoDup (work_key <$> rows) ∧ ∃ ids, listed c limit ids l ∧ length rows = length (first_of id [] ids) ∧
    ∀ k, k ∈ work_key <$> rows ↔ ∃ id, id ∈ ids ∧ k = (c, id).
Proof.
  intros H. assert (∃ ids, listed c limit ids l ∧ Forall (λ w, wk_corpus w = c) rows ∧
    wk_row_id <$> rows = first_of (λ i, i) [] ids) as (ids & Hl & Hc & He).
  { destruct c; simpl in H; apply path_inv in H as ([ans|e] & l' & -> & H);
      try (by apply path_inv in H as [_ [=]]);
      [apply path_inv in H as [-> [= ->]]; exists ans.*1; split; [left|];
       split; [apply Forall_fmap, Forall_true; done|rewrite <-list_fmap_compose; apply first_of_fst]..|].
    apply read_summaries_path in H as [E F]. exists ans. split; [left|]. by split. }
  assert (∀ l : list text, (λ i, i) <$> l = l) as Hid by (intros; apply list_fmap_id).
  assert (length rows = length (first_of id [] ids)) as Hlen by (rewrite <-(length_fmap wk_row_id rows), He; done).
  destruct (first_of_spec (λ i, i) [] ids) as [Hnd Hin]. rewrite <-He in Hnd, Hin. rewrite !Hid in Hnd.
  setoid_rewrite Hid in Hin.
  assert (work_key <$> rows = pair c <$> (wk_row_id <$> rows)) as ->.
  { rewrite <-list_fmap_compose. apply list_fmap_ext. intros i w Hw. unfold work_key. simpl.
    rewrite Forall_lookup in Hc. by rewrite (Hc i w Hw). }
  split; [apply NoDup_fmap; [intros ? ? [=]; done|done]|]. exists ids. split; [done|]. split; [done|]. intros k.
  rewrite list_elem_of_fmap. split.
  - intros (i & -> & Hi). apply Hin in Hi as [Hi _]. by exists i.
  - intros (i & Hi & ->). exists i. split; [done|]. apply Hin. split; [done|apply not_elem_of_nil].
Qed.

(** The rows to embed are those not dealt with; the others are passed over. *)
Lemma sift_spec rows p fresh q : NoDup (work_key <$> rows) → sift rows p = (fresh, q) →
  grows (keys_of rows) p q ∧ pa_written q = pa_written p ∧ NoDup (work_key <$> fresh) ∧
  (∀ w, w ∈ fresh → w ∈ rows ∧ work_key w ∉ settled_rows q) ∧
  (∀ w, w ∈ rows → w ∈ fresh ∨ work_key w ∈ sl_passed_over (pa_slot q)).
Proof.
  revert p fresh q. induction rows as [|w rows IH]; intros p fresh q; cbn [sift fmap list_fmap].
  { intros _ [= <- <-]. split; [apply grows_refl|]. split; [done|]. split; [constructor|].
    split; intros w []%not_elem_of_nil. }
  intros [Hnew Hnd]%NoDup_cons.
  assert (∀ p1, grows {[work_key w]} p p1 → pa_written p1 = pa_written p →
    work_key w ∈ sl_passed_over (pa_slot p1) → sift rows p1 = (fresh, q) →
    grows (keys_of (w :: rows)) p q ∧ pa_written q = pa_written p ∧ NoDup (work_key <$> fresh) ∧
    (∀ x, x ∈ fresh → x ∈ w :: rows ∧ work_key x ∉ settled_rows q) ∧
    (∀ x, x ∈ w :: rows → x ∈ fresh ∨ work_key x ∈ sl_passed_over (pa_slot q))) as Hskip.
  { intros p1 Hg Hw Hin Hs. destruct (IH p1 fresh q Hnd Hs) as (G & W & N & F & R).
    split; [by eapply grows_trans|]. split; [congruence|]. split; [done|]. split.
    - intros x Hx. destruct (F x Hx). split; [by right|done].
    - intros x [->|Hx]%elem_of_cons; [right; by apply (gr_passed _ _ _ G)|by apply R]. }
  case_bool_decide as Hp; [apply Hskip; [apply (grows_mono ∅); [apply empty_subseteq|apply grows_refl]|done|done]|].
  case_bool_decide as Hwr.
  { destruct (grows_pass (work_key w) p (pass_over (work_key w) p)) as [G K]; [done|done|]. by apply Hskip. }
  destruct (is_empty (wk_spans w)) eqn:He.
  { destruct (grows_pass (work_key w) p (with_slot (skip (work_key w) (pa_slot p)) p)) as [G K]; [done|done|]. by apply Hskip. }
  destruct (sift rows p) as [fr q'] eqn:Es. intros [= <- <-]. destruct (IH p fr q' Hnd Es) as (G & W & N & F & R).
  assert (work_key w ∉ settled_rows q') as Hn.
  { intros [[H|H]%elem_of_union|H]%(gr_only_settled _ _ _ G)%elem_of_union; [done|done|].
    unfold keys_of in H. by apply elem_of_list_to_set in H. }
  split; [eapply grows_mono; [apply union_subseteq_r|done]|]. split; [done|]. split.
  { simpl. constructor; [|done]. intros (x & Ex & Hx)%list_elem_of_fmap. apply Hnew. rewrite Ex.
    apply list_elem_of_fmap_2. by apply F. }
  split.
  - intros x [->|Hx]%elem_of_cons; [split; [left|done]|]. destruct (F x Hx). split; [by right|done].
  - intros x [->|Hx]%elem_of_cons; [left; left|]. destruct (R x Hx); [left; by right|by right].
Qed.

(** When nothing read is new and nothing was added, everything read had been passed over before: the
    index answered with less than it was asked for. *)
Lemma nothing_new c rows p q limit :
  NoDup (work_key <$> rows) → (∀ k, k ∈ work_key <$> rows → k.1 = c) → sift rows p = ([], q) →
  size (sl_passed_over (pa_slot q)) = size (sl_passed_over (pa_slot p)) →
  limit = (ROWS_PER_READ + passed_over_of c (pa_slot p))%nat → (length rows < limit)%nat.
Proof.
  intros Hnd Hc Hs Hsize ->. destruct (sift_spec _ _ _ _ Hnd Hs) as (G & _ & _ & _ & R).
  assert (sl_passed_over (pa_slot q) = sl_passed_over (pa_slot p)) as E.
  { symmetry. apply leibniz_equiv, set_subseteq_size_equiv; [apply (gr_passed _ _ _ G)|lia]. }
  assert (list_to_set (work_key <$> rows) ⊆ filter (λ k : key, k.1 = c) (sl_passed_over (pa_slot p))) as Hsub.
  { intros k Hk. apply elem_of_list_to_set in Hk. apply elem_of_filter. split; [by apply Hc|].
    apply list_elem_of_fmap in Hk as (w & -> & Hw). rewrite <-E. by destruct (R w Hw) as [[]%not_elem_of_nil|]. }
  apply subseteq_size in Hsub. rewrite size_list_to_set in Hsub by done. rewrite length_fmap in Hsub.
  unfold passed_over_of, ROWS_PER_READ. lia.
Qed.

(** ** Lemmas: a walk ends *)

(** Twice the rows bound it: each turn passes one over, or deals with one. *)
Definition progress (p : Pass) : nat := (size (sl_passed_over (pa_slot p)) + size (settled_rows p))%nat.

Record within (U : gset key) (p : Pass) : Prop := {
  wi_passed : sl_passed_over (pa_slot p) ⊆ U; wi_settled : settled_rows p ⊆ U }.

Lemma within_progress U p : within U p → (progress p ≤ 2 * size U)%nat.
Proof. intros [H1%subseteq_size H2%subseteq_size]. unfold progress. lia. Qed.

Lemma within_grows U ks p q : ks ⊆ U → within U p → grows ks p q → within U q.
Proof. intros Hk [H1 H2] G. split; [etrans; [apply (gr_only _ _ _ G)|]|etrans; [apply (gr_only_settled _ _ _ G)|]]; set_solver. Qed.

Lemma grows_progress ks p q : grows ks p q → (progress p ≤ progress q)%nat.
Proof. intros [H1%subseteq_size H2%subseteq_size _ _]. unfold progress. lia. Qed.

(** Nothing of a corpus is left: the last the index listed of it was less than it was asked for,
    and every row of it is passed over. *)
Definition drained (c : Corpus) (s : EmbeddingSlot) (l : list {R : Type & (SlotCall R * R)%type}) : Prop :=
  ∃ limit ids, listed c limit ids l ∧ (length (first_of id [] ids) < limit)%nat ∧
    ∀ id, id ∈ ids → (c, id) ∈ sl_passed_over s.

Lemma walk_corpus_path hc U fuel c p l w q :
  within U p → (2 * size U < progress p + fuel)%nat → path (walk_corpus hc fuel c p) l (w, q) → lists_within U l →
  proper_end w ∧ within U q ∧ sl_passed_over (pa_slot p) ⊆ sl_passed_over (pa_slot q) ∧
  (w = WOn → drained c (pa_slot q) l).
Proof.
  revert p l. induction fuel as [|fuel IH]; intros p l Hp Hf; [pose proof (within_progress _ _ Hp); lia|].
  cbn [walk_corpus]. intros (rows & l1 & l2 & -> & Hread & H)%path_bind [Hl1 Hl2]%lists_within_app.
  destruct rows as [rows|e]; [|by apply path_inv in H as [_ [= -> ->]]].
  destruct (read_corpus_path _ _ _ _ _ Hread) as (Hnd & ids & Hids & Hlen & Hin).
  destruct (sift rows p) as [fresh q1] eqn:Es. destruct (sift_spec _ _ _ _ Hnd Es) as (G & W & N & F & R).
  assert (keys_of rows ⊆ U) as HU.
  { intros k Hk. apply elem_of_list_to_set, Hin in Hk as (i & Hi & ->). by eapply Hl1. }
  pose proof (within_grows _ _ _ _ HU Hp G) as Hq1.
  destruct fresh as [|x fresh']; cbn [is_empty] in H.
  - destruct (_ || _) eqn:Estop.
    + apply path_inv in H as [-> [= -> ->]]. split; [done|]. split; [done|]. split; [apply (gr_passed _ _ _ G)|].
      intros _. exists (ROWS_PER_READ + passed_over_of c (pa_slot p))%nat, ids. split; [apply listed_app; by left|].
      split; [|intros i Hi].
      * rewrite <-Hlen. apply orb_prop in Estop as [?%Nat.ltb_lt|Hs%Nat.eqb_eq]; [done|].
        eapply nothing_new; [done| |done|done|done]. intros k (i & _ & ->)%Hin. done.
      * assert ((c, i) ∈ work_key <$> rows) as (y & -> & Hy)%list_elem_of_fmap by (apply Hin; by exists i).
        by destruct (R y Hy) as [[]%not_elem_of_nil|].
    + apply orb_false_iff in Estop as [_ Hs%Nat.eqb_neq].
      destruct (IH q1 l2) as (H1 & H2 & H3 & H4); [done| |done|done|].
      { pose proof (subseteq_size _ _ (gr_passed _ _ _ G)). pose proof (subseteq_size _ _ (gr_settled _ _ _ G)).
        unfold progress in *. lia. }
      split; [done|]. split; [done|]. split; [etrans; [apply (gr_passed _ _ _ G)|done]|].
      intros Hw. destruct (H4 Hw) as (lim & i & Hi & Hr). exists lim, i. split; [apply listed_app; by right|done].
  - set (fresh := x :: fresh') in *. apply path_bind in H as ([w1 q2] & l3 & l4 & -> & H1 & H2). simpl in H2.
    apply lists_within_app in Hl2 as [Hl3 Hl4].
    destruct (embed_all_path _ _ _ _ _ _ _ (le_n _) H1) as (Hw1 & G2 & Hon).
    assert (keys_of fresh ⊆ U) as HU2.
    { intros k (y & -> & Hy)%elem_of_list_to_set%list_elem_of_fmap. apply HU, elem_of_list_to_set, list_elem_of_fmap_2. by apply F. }
    pose proof (within_grows _ _ _ _ HU2 Hq1 G2) as Hq2.
    assert (sl_passed_over (pa_slot p) ⊆ sl_passed_over (pa_slot q2)) as Hsub.
    { etrans; [apply (gr_passed _ _ _ G)|apply (gr_passed _ _ _ G2)]. }
    destruct w1 as [e| |]; [by apply path_inv in H2 as [_ [= -> ->]]| |done].
    destruct (IH q2 l4) as (K1 & K2 & K3 & K4); [done| |done|done|].
    { assert (size (settled_rows q1) < size (settled_rows q2))%nat.
      { apply subset_size. split; [apply (gr_settled _ _ _ G2)|]. intros Hback.
        destruct (F x) as [_ Hx]; [left|]. apply Hx, Hback, (Hon eq_refl). apply elem_of_list_to_set. left. }
      pose proof (grows_progress _ _ _ G). pose proof (subseteq_size _ _ (gr_passed _ _ _ G2)). unfold progress in *. lia. }
    split; [done|]. split; [done|]. split; [by etrans|].
    intros Hw. destruct (K4 Hw) as (lim & i & Hi & Hr). exists lim, i. split; [rewrite !listed_app; tauto|done].
Qed.

Lemma walk_path hc U fuel corpora p l w q :
  within U p → (2 * size U < fuel)%nat → path (walk hc fuel corpora p) l (w, q) → lists_within U l →
  proper_end w ∧ sl_passed_over (pa_slot p) ⊆ sl_passed_over (pa_slot q) ∧
  (w = WOn → ∀ c, c ∈ corpora → c ≠ CContext ∨ hc = true → drained c (pa_slot q) l).
Proof.
  intros Hp Hf. revert p l Hp. induction corpora as [|c corpora IH]; intros p l Hp; cbn [walk].
  { intros [_ [= -> ->]]%path_inv _. split; [done|]. split; [done|]. intros _ c []%not_elem_of_nil. }
  destruct (bool_decide (c = CContext) && negb hc) eqn:Ec.
  { intros H Hl. destruct (IH p l Hp H Hl) as (H1 & H2 & H3). split; [done|]. split; [done|].
    apply andb_prop in Ec as [->%bool_decide_eq_true Hc%negb_true_iff].
    intros Hw c' [->|Hc']%elem_of_cons Hor; [destruct Hor; congruence|by apply H3]. }
  intros ([w1 q1] & l1 & l2 & -> & H1 & H2)%path_bind [Hl1 Hl2]%lists_within_app. simpl in H2.
  destruct (walk_corpus_path hc U fuel c p l1 w1 q1 Hp ltac:(lia) H1 Hl1) as (K1 & K2 & K3 & K4).
  destruct w1 as [e| |]; [by apply path_inv in H2 as [_ [= -> ->]]| |done].
  destruct (IH q1 l2 K2 H2 Hl2) as (M1 & M2 & M3). split; [done|]. split; [by etrans|].
  intros Hw c' [->|Hc']%elem_of_cons Hor.
  - destruct (K4 eq_refl) as (lim & ids & Hi & Hn & Hr). exists lim, ids. split; [apply listed_app; by left|].
    split; [done|]. intros i Hii. by apply M2, Hr.
  - destruct (M3 Hw c' Hc' Hor) as (lim & ids & Hi & Hr). exists lim, ids. split; [apply listed_app; by right|done].
Qed.

(** ** Properties: a pass ends *)

(** C13: a pass ends, and when it says the backlog is drained it is. Whatever the calls answer, as long
    as the rows the index lists, with those passed over before, come to a finite number, twice that
    number of reads of a corpus is enough. Drained, the last listing of each corpus was shorter than
    asked for, so complete, and every row of it has been passed over: blank, or tried and failed. *)
Theorem pass_ends hc fuel slot l r slot' U :
  path (run_pass hc fuel slot) l (r, slot') → lists_within U l → sl_passed_over slot ⊆ U →
  (2 * size U < fuel)%nat →
  ∃ report, r = Some report ∧
    (pr_end report = Drained → ∀ c, c ≠ CContext ∨ hc = true → drained c slot' l).
Proof.
  unfold run_pass. intros (lease & l1 & -> & H)%path_inv Hl HU Hf.
  destruct lease as [li|]; [|apply path_inv in H as [_ [= -> ->]]; by eexists].
  apply path_inv in H as (g & l2 & -> & H). apply path_inv in H as (u & l3 & -> & H).
  apply path_bind in H as ([w p] & l4 & l5 & -> & H1 & H2).
  assert (lists_within U l4) as Hl4.
  { intros c lim ids Hi. apply (Hl c lim). do 3 apply listed_tail. apply listed_app. by left. }
  set (p0 := {| pa_slot := note_generation g slot; pa_model_id := _; pa_generation := _; pa_report := _; pa_written := _ |}) in H1.
  assert (within U p0) as Hp0.
  { assert (sl_passed_over (note_generation g slot) ⊆ U).
    { unfold note_generation. case_bool_decide; [done|apply empty_subseteq]. }
    split; [done|]. unfold settled_rows. simpl. by rewrite (left_id_L ∅ (∪)). }
  destruct (walk_path _ U _ _ _ _ _ _ Hp0 Hf H1 Hl4) as (K1 & K2 & K3).
  assert (∀ c s x y z, w = WOn → c ≠ CContext ∨ hc = true → sl_passed_over s = sl_passed_over (pa_slot p) →
    drained c s (x :: y :: z :: l4 ++ l5)) as Hd.
  { intros c s x y z Hw Hc E. destruct (K3 Hw c) as (lim & ids & Hi & Hn & Hr); [destruct c; set_solver|done|].
    exists lim, ids. split; [|split; [done|by rewrite E]]. do 3 apply listed_tail. apply listed_app. by left. }
  destruct w as [e| |]; [|destruct (sl_tidy_owed (pa_slot p))|done].
  - apply path_inv in H2 as [-> [= -> ->]]. eexists. split; [done|]. simpl. by intros ->.
  - apply path_bind in H2 as (n & l6 & l7 & -> & _ & [-> [= -> ->]]%path_inv). eexists. split; [done|].
    intros _ c Hc. by apply Hd.
  - apply path_inv in H2 as [-> [= -> ->]]. eexists. split; [done|]. intros _ c Hc. by apply Hd.
Qed.

(** ** The index's table (pond-infra/src/sqlite_vector_index.rs) *)

Definition of_row (c : Corpus) (row_id : text) (e : VectorEntry) : bool :=
  bool_decide (ve_corpus e = c) && bool_decide (ve_row_id e = row_id).

(** [ON CONFLICT(corpus, row_id, chunk_ix) DO UPDATE]. *)
Definition index_upsert (e : VectorEntry) (t : list VectorEntry) : list VectorEntry :=
  List.filter (λ x, negb (of_row (ve_corpus e) (ve_row_id e) x && (ve_chunk_ix x =? ve_chunk_ix e)%Z)) t ++ [e].
Definition index_remove (c : Corpus) (row_id : text) (t : list VectorEntry) : list VectorEntry :=
  List.filter (λ x, negb (of_row c row_id x)) t.

(** The [WHERE] of [needs_embedding], on a live source row and its freshness column ([None] for a
    corpus without one): a [LEFT JOIN] keeps the row when it has no vector, or any that is stale. *)
Definition entry_stale (model_id : text) (rev : option (option text)) (e : VectorEntry) : bool :=
  negb (bool_decide (ve_model_id e = model_id)) ||
  match rev with
  | Some now => bool_decide (is_Some (ve_source_rev e)) && negb (bool_decide (ve_source_rev e = now))
  | None => false
  end.
Definition needs_vector (c : Corpus) (row_id model_id : text) (rev : option (option text)) (t : list VectorEntry) : bool :=
  let vs := List.filter (of_row c row_id) t in is_empty vs || existsb (entry_stale model_id rev) vs.

(** ** The world a pass runs in *)

(** The embedder, our lease, what was read and written by the slot, and the answers the stores would
    give now, which others change as they please: the index's listings, a session's summary, a
    context item's stamp of its last ingestion, whether a write works, whether the pass may go on,
    the orphans pruned and the clock. *)
Record Stores := {
  so_ids : Corpus → text → nat → result (list text) text;
  so_rows : Corpus → text → nat → result (list (text * text)) text;
  so_summary : text → result (option text * option text) text;
  so_ingested_at : text → option text;
  so_written : result unit text; so_may_continue : bool; so_pruned : result N text; so_clock : N }.

Record World := {
  wd_embedder : ActiveEmbedder; wd_held : option Provider; wd_stores : Stores;
  wd_read : list (Corpus * text * text); wd_wrote : list VectorEntry }.

Definition with_embedder (e : ActiveEmbedder) (held : option Provider) (w : World) : World :=
  {| wd_embedder := e; wd_held := held; wd_stores := wd_stores w; wd_read := wd_read w; wd_wrote := wd_wrote w |}.
Definition noting (l : list (Corpus * text * text)) (w : World) : World :=
  {| wd_embedder := wd_embedder w; wd_held := wd_held w; wd_stores := wd_stores w; wd_read := l ++ wd_read w;
     wd_wrote := wd_wrote w |}.
Definition writing (l : list VectorEntry) (w : World) : World :=
  {| wd_embedder := wd_embedder w; wd_held := wd_held w; wd_stores := wd_stores w; wd_read := wd_read w;
     wd_wrote := l ++ wd_wrote w |}.

(** [mirror] of the two stores (pond-infra): the entry a row's vector gets, stamped with the model
    the status names, when one is ready and as wide. *)
Definition mirror (c : Corpus) (id : text) (v : vector) (rev : option text) (e : ActiveEmbedder) : list VectorEntry :=
  if is_empty v then [] else
  if negb (available e) then [] else
  if negb (N.of_nat (length v) =? dimensions e) then []
  else [entry_whole c id (embedder_model_id e) v rev].

Definition slot_handler : Handler SlotCall World := λ R c,
  match c in SlotCall R return World → R * World with
  | Lease => λ w,
      let '(p, e) := lease (wd_embedder w) in
      ((λ p, {| li_model_id := pv_model_id p; li_dims := pv_dims p; li_max_batch := pv_max_batch p |}) <$> p,
       with_embedder e p w)
  | DropLease => λ w, (tt, with_embedder (drop_lease (wd_embedder w)) None w)
  | Generation => λ w, (ae_generation (wd_embedder w), w)
  | ModelId => λ w, (embedder_model_id (wd_embedder w), w)
  | EmbedBatch texts => λ w,
      (match wd_held w with Some p => pv_embed_batch p texts | None => Err [] end, w)
  | NeedsEmbedding c m n => λ w, (so_ids (wd_stores w) c m n, w)
  | NeedsEmbeddingWithText c m n => λ w,
      (so_rows (wd_stores w) c m n,
       match so_rows (wd_stores w) c m n with Ok rows => noting ((λ r, (c, r.1, r.2)) <$> rows) w | Err _ => w end)
  | RollingSummary id => λ w,
      (so_summary (wd_stores w) id,
       match so_summary (wd_stores w) id with Ok (t, _) => noting [(CSummary, id, default [] t)] w | Err _ => w end)
  | UpdateMemory id v => λ w,
      (so_written (wd_stores w), writing (mirror CMemory id v None (wd_embedder w)) w)
  | UpdateContext id v => λ w,
      (so_written (wd_stores w),
       writing (match so_ingested_at (wd_stores w) id with
                | Some at_ => mirror CContext id v (Some at_) (wd_embedder w)
                | None => []
                end) w)
  | Upsert e => λ w, (so_written (wd_stores w), writing [e] w)
  | Remove _ _ => λ w, (so_written (wd_stores w), w)
  | MayContinue => λ w, (so_may_continue (wd_stores w), w)
  | PruneOrphans => λ w, (so_pruned (wd_stores w), w)
  | Health _ => λ w, (tt, w)
  | Clock => λ w, (so_clock (wd_stores w), w)
  end.

(** Texts a machine holds. *)
Definition texts_fit (s : Stores) : Prop :=
  (∀ c m n rows, so_rows s c m n = Ok rows → Forall (λ r, byte_len r.2 ≤ u64_max) rows) ∧
  (∀ id t rev, so_summary s id = Ok (Some t, rev) → byte_len t ≤ u64_max).

(** What a model makes of a text. *)
Section stamped.
Context (embeds : Provider → text → vector).

(** A provider as its port documents it: one vector per text, in order. *)
Definition in_order (p : Provider) : Prop :=
  ∀ texts vs, pv_embed_batch p texts = Ok vs → vs = embeds p <$> texts.

(** The others: they move the embedder, to models that embed in order, but cannot give our lease
    back, and change the stores at will. *)
Definition others_step (w w' : World) : Prop :=
  (wd_embedder w' = wd_embedder w ∨
   embedder_step (wd_embedder w) (wd_embedder w') ∧ (is_Some (wd_held w) → ae_leases (wd_embedder w') ≠ O)) ∧
  texts_fit (wd_stores w') ∧ (∀ p, ae_inner (wd_embedder w') = Some p → in_order p) ∧
  wd_held w' = wd_held w ∧ wd_read w' = wd_read w ∧ wd_wrote w' = wd_wrote w.

(** An entry holds what it says: its vector is the model's of that name, as wide as it makes them,
    of the passage it spans of the text read of its row. *)
Definition honest (w : World) (e : VectorEntry) : Prop :=
  ∃ p t x, (ve_corpus e, ve_row_id e, t) ∈ wd_read w ∧ ve_model_id e = pv_model_id p ∧
    ve_vector e = embeds p x ∧ N.of_nat (length (ve_vector e)) = pv_dims p ∧
    match ve_chunk_span e with
    | None => x = t
    | Some (a, n) => ∃ s, a = Z.of_N (ck_start s) ∧ n = Z.of_N (ck_len s) ∧ slice s t = Some x
    end.

Definition all_honest (w : World) : Prop := ∀ e, e ∈ wd_wrote w → honest w e.
End stamped.

(** ** Lemmas: works and their passages *)

(** Every span is a slice of the text, and one span alone is all of it. *)
Definition work_ok (w : Work) : Prop :=
  Forall (λ s, is_Some (slice s (wk_text w))) (wk_spans w) ∧
  (∀ s, wk_spans w = [s] → slice s (wk_text w) = Some (wk_text w)) ∧
  (wk_corpus w ≠ CContext → (length (wk_spans w) ≤ 1)%nat).

Lemma slice_whole t : byte_len t ≤ u64_max → slice {| ck_start := 0; ck_len := byte_len t |} t = Some t.
Proof.
  intros H. unfold slice. cbn [ck_start ck_len]. rewrite (proj2 (N.ltb_ge _ _)) by lia.
  pose proof (byte_slice_app [] t []) as E. by rewrite app_nil_l, app_nil_r in E.
Qed.

Lemma work_new_ok c id t rev : byte_len t ≤ u64_max → work_ok (work_new c id t rev).
Proof.
  intros Ht. unfold work_ok, work_new. cbn [wk_spans wk_text wk_corpus]. destruct c.
  1,3: case_match; (split; [repeat constructor; by rewrite slice_whole|]); (split; [|simpl; lia]); intros s [= <-];
    by apply slice_whole.
  destruct (chunk_passages t DEFAULT_CHUNK_BYTES DEFAULT_OVERLAP_BYTES) as (cs & -> & H0 & Hcs). simpl.
  destruct (decide (trim t = [])) as [E|E]; [rewrite (H0 E); split; [constructor|by split]|].
  assert (4 ≤ DEFAULT_CHUNK_BYTES) as H4 by (unfold DEFAULT_CHUNK_BYTES; lia). specialize (Hcs H4 E).
  split; [|split; [|done]].
  - apply Forall_forall. intros s Hs. destruct (passages_slices _ _ _ _ _ s Ht Hcs Hs) as (_ & p & Hp & _). eauto.
  - intros s ->. apply passages_single in Hcs as ->. by apply slice_whole.
Qed.

Lemma passages_slices_of w : work_ok w → Forall2 (λ s x, slice s (wk_text w) = Some x) (wk_spans w) (passages_of w).
Proof.
  intros [H _]. unfold passages_of. induction H as [|s l [x Hx] _ IH]; simpl; [constructor|]. rewrite Hx. by constructor.
Qed.

Lemma concat_chunks_fuel {A} fuel n (l : list A) : (0 < n)%nat → (length l ≤ fuel)%nat → concat (chunks_fuel fuel n l) = l.
Proof.
  intros Hn. revert l. induction fuel as [|fuel IH]; intros [|a l] Hf; simpl in *; try done; [lia|].
  destruct n as [|n]; [lia|]. simpl. rewrite IH by (rewrite length_drop; lia). by rewrite take_drop.
Qed.

Lemma concat_chunks_of {A} n (l : list A) : (0 < n)%nat → concat (chunks_of n l) = l.
Proof. intros. by apply concat_chunks_fuel. Qed.

Section stamping.
Context (embeds : Provider → text → vector).

(** The vectors a provider makes of a work's passages. *)
Definition vectors_of (p : Provider) (w : Work) (vs : list vector) : Prop :=
  vs = embeds p <$> passages_of w ∧ Forall (λ v, N.of_nat (length v) = pv_dims p) vs.

Lemma share_vectors p works vs :
  Forall work_ok works → vs = embeds p <$> (works ≫= passages_of) →
  Forall (λ v, N.of_nat (length v) = pv_dims p) vs →
  Forall2 (λ w r, ∀ v, r = Ok v → vectors_of p w v) works (share works vs).
Proof.
  intros Hw. revert vs. induction Hw as [|w works Hok _ IH]; intros vs Hvs Hd; simpl; [constructor|].
  rewrite bind_cons, fmap_app in Hvs.
  assert (Nat.min (length (wk_spans w)) (length vs) = length (embeds p <$> passages_of w)) as ->.
  { rewrite (Forall2_length _ _ _ (passages_slices_of w Hok)), Hvs, length_app, length_fmap. lia. }
  rewrite Hvs in *. rewrite take_app_length, drop_app_length. apply Forall_app in Hd as [Hd1 Hd2].
  constructor; [by intros v [= <-]|]. by apply IH.
Qed.

(** ** Lemmas: what stays while a pass runs *)

Notation safely := (safe slot_handler (others_step embeds) (all_honest embeds)).

(** The row a work was made of has been read. *)
Definition work_read (s : World) (w : Work) : Prop := (wk_corpus w, wk_row_id w, wk_text w) ∈ wd_read s ∧ work_ok w.

(** The generation a pass began at, when it is still that, stamps as the pass does. *)
Definition pass_stamp (m : text) (g : N) (s : World) : Prop :=
  g ≤ ae_generation (wd_embedder s) ∧
  (ae_generation (wd_embedder s) = g → ∃ d, stamp (wd_embedder s) = Some (m, d)).

Record sound (s : World) : Prop := {
  sd_embedder : embedder_ok (wd_embedder s); sd_honest : all_honest embeds s; sd_fit : texts_fit (wd_stores s);
  sd_order : ∀ p, ae_inner (wd_embedder s) = Some p → in_order embeds p }.

(** Without a lease, and with one. *)
Definition idle (m : text) (g : N) (ws : list Work) (s : World) : Prop :=
  sound s ∧ pass_stamp m g s ∧ Forall (work_read s) ws ∧ wd_held s = None.
Definition leased (m : text) (g : N) (ws : list Work) (p : Provider) (s : World) : Prop :=
  sound s ∧ Forall (work_read s) ws ∧ wd_held s = Some p ∧
  ae_leases (wd_embedder s) ≠ O ∧ ae_inner (wd_embedder s) = Some p ∧
  ae_generation (wd_embedder s) = g ∧ stamp (wd_embedder s) = Some (m, pv_dims p) ∧ pv_model_id p = m.

Lemma sound_stable : stable (others_step embeds) sound.
Proof.
  intros s s' (He & Hfit & Ho & _ & Hr & Hw) [H1 H2 H3 H4]. split; [|intros e; unfold honest; rewrite Hr, Hw; apply H2|done|done].
  destruct He as [->|[He _]]; [done|by eapply embedder_step_ok].
Qed.

Lemma pass_stamp_stable m g s s' : others_step embeds s s' → sound s → pass_stamp m g s → pass_stamp m g s'.
Proof.
  unfold pass_stamp. intros (He & _) Hs [Hg Hm]. destruct He as [->|[He _]]; [done|].
  destruct (embedder_step_stamp _ _ (sd_embedder _ Hs) He) as [Hge Hst]. split; [lia|].
  intros E. assert (ae_generation (wd_embedder s) = g) as E' by lia. destruct (Hm E') as [d Hd]. exists d.
  rewrite Hst by lia. done.
Qed.

Lemma reads_stable s s' ws : wd_read s' = wd_read s → Forall (work_read s) ws → Forall (work_read s') ws.
Proof. intros E H. eapply Forall_impl; [exact H|]. intros w. unfold work_read. by rewrite E. Qed.

Lemma idle_stable m g ws : stable (others_step embeds) (idle m g ws).
Proof.
  intros s s' Hst (Hs & Hm & Hr & Hh). split; [by eapply sound_stable|]. split; [by eapply pass_stamp_stable|].
  destruct Hst as (_ & _ & _ & E & E' & _). split; [by eapply reads_stable|congruence].
Qed.

Lemma leased_stable m g ws p : stable (others_step embeds) (leased m g ws p).
Proof.
  intros s s' Hst (Hs & Hr & Hh & Hl & Hi & Hg & Hsp & Hp). split; [by eapply sound_stable|].
  destruct Hst as (He & _ & _ & E & E' & _). split; [by eapply reads_stable|]. split; [congruence|].
  destruct He as [->|[He Hk]]; [done|].
  destruct (embedder_step_pinned _ _ (sd_embedder _ Hs) He Hl) as (-> & E1 & E2 & E3).
  split; [apply Hk; by rewrite Hh|]. split; [done|]. split; [congruence|]. split; [|done].
  unfold stamp in *. by rewrite E2, E3.
Qed.

Lemma idle_honest m g ws s : idle m g ws s → all_honest embeds s.
Proof. intros [Hs _]. apply Hs. Qed.
Lemma leased_honest m g ws p s : leased m g ws p s → all_honest embeds s.
Proof. intros [Hs _]. apply Hs. Qed.

(** ** Lemmas: reading *)

Lemma sound_noting l s : sound s → sound (noting l s).
Proof.
  intros [H1 H2 H3 H4]. split; [done| |done|done]. intros e He. destruct (H2 e He) as (p & t & x & Hr & Hx).
  exists p, t, x. split; [simpl; apply elem_of_app; by right|done].
Qed.

Lemma idle_noting m g ws l new s :
  idle m g ws s → Forall (λ w, (wk_corpus w, wk_row_id w, wk_text w) ∈ l ∧ work_ok w) new →
  idle m g (new ++ ws) (noting l s).
Proof.
  intros (Hs & Hm & Hr & Hh) Hn. split; [by apply sound_noting|]. split; [done|]. split; [|done].
  apply Forall_app. split.
  - eapply Forall_impl; [exact Hn|]. intros w [Hw ?]. split; [simpl; apply elem_of_app; by left|done].
  - eapply Forall_impl; [exact Hr|]. intros w [Hw ?]. split; [simpl; apply elem_of_app; by right|done].
Qed.

Lemma idle_mono m g ws ws' s : (∀ w, w ∈ ws' → w ∈ ws) → idle m g ws s → idle m g ws' s.
Proof.
  intros H (Hs & Hm & Hr & Hh). do 2 (split; [done|]). split; [|done].
  rewrite Forall_forall in Hr |- *. eauto.
Qed.

Definition rows_of (r : result (list Work) text) : list Work := match r with Ok rows => rows | Err _ => [] end.

Lemma read_summaries_safe m g ws ids :
  safely (λ r, idle m g (rows_of r ++ ws)) (read_summaries ids) (idle m g ws).
Proof.
  revert ws. induction ids as [|id ids IH]; intros ws; cbn [read_summaries].
  { apply safe_ret; [apply idle_stable|apply idle_honest|done]. }
  apply safe_call; [apply idle_stable|apply idle_honest|]. intros s r s' Hs E. simpl in E. injection E as <- <-.
  destruct (so_summary (wd_stores s) id) as [[t rev]|e] eqn:Es.
  - set (w := work_new CSummary id (default [] t) rev). exists (idle m g (w :: ws)). split.
    + apply (idle_noting _ _ _ _ [w]); [done|]. constructor; [|constructor]. split; [left|]. apply work_new_ok.
      destruct t as [t|]; [by eapply (proj2 (sd_fit _ (proj1 Hs)))|by vm_compute].
    + eapply safe_bind; [apply IH|]. intros r. cbv beta. apply safe_ret; [apply idle_stable|apply idle_honest|].
      intros s''. apply idle_mono. destruct r; simpl; set_solver.
  - exists (idle m g ws). split; [done|]. apply safe_ret; [apply idle_stable|apply idle_honest|done].
Qed.

Lemma first_of_elem {A} (key : A → text) seen l a : a ∈ first_of key seen l → a ∈ l.
Proof.
  revert seen. induction l as [|b l IH]; intros seen; simpl; [done|]. case_bool_decide; [intros Hb; right; by eapply IH|].
  intros [->|Ha]%elem_of_cons; [left|right; by eapply IH].
Qed.

Lemma read_corpus_safe m g ws c limit :
  safely (λ r, idle m g (rows_of r ++ ws)) (read_corpus m c limit) (idle m g ws).
Proof.
  assert (c ≠ CSummary → safely (λ r, idle m g (rows_of r ++ ws))
    (let! rows := NeedsEmbeddingWithText c m limit in
     match rows with
     | Err e => Ret (Err e)
     | Ok rows => Ret (Ok ((λ r, work_new c r.1 r.2 None) <$> first_of fst [] rows))
     end) (idle m g ws)) as H.
  { intros _. apply safe_call; [apply idle_stable|apply idle_honest|]. intros s r s' Hs E. simpl in E. injection E as <- <-.
    destruct (so_rows (wd_stores s) c m limit) as [rows|e] eqn:Es.
    - exists (idle m g (((λ r, work_new c r.1 r.2 None) <$> first_of fst [] rows) ++ ws)). split.
      + apply idle_noting; [done|]. apply Forall_fmap, Forall_forall. intros r Hr. simpl.
        apply first_of_elem in Hr. split; [by apply (list_elem_of_fmap_2 (λ r, (c, r.1, r.2)))|]. apply work_new_ok.
        pose proof (proj1 (sd_fit _ (proj1 Hs)) _ _ _ _ Es) as Hf. rewrite Forall_forall in Hf. by apply Hf.
      + apply safe_ret; [apply idle_stable|apply idle_honest|done].
    - exists (idle m g ws). split; [done|]. apply safe_ret; [apply idle_stable|apply idle_honest|done]. }
  destruct c; [by apply H|by apply H|]. cbn [read_corpus].
  apply safe_call; [apply idle_stable|apply idle_honest|]. intros s r s' Hs E. simpl in E. injection E as <- <-.
  exists (idle m g ws). split; [done|]. destruct (so_ids _ _ _ _); [apply read_summaries_safe|].
  apply safe_ret; [apply idle_stable|apply idle_honest|done].
Qed.

(** ** Lemmas: embedding and storing under a lease *)

Definition info (p : Provider) : LeaseInfo :=
  {| li_model_id := pv_model_id p; li_dims := pv_dims p; li_max_batch := pv_max_batch p |}.

Lemma embed_calls_safe m g ws p calls acc :
  safely (λ r s, (∀ vs, r = Ok vs → vs = acc ++ (embeds p <$> concat calls)) ∧ leased m g ws p s)
    (embed_calls calls acc) (leased m g ws p).
Proof.
  revert acc. induction calls as [|call calls IH]; intros acc; cbn [embed_calls].
  { apply safe_ret; [apply leased_stable|apply leased_honest|]. intros s Hs. split; [|done]. intros vs [= <-].
    simpl. by rewrite app_nil_r. }
  apply safe_call; [apply leased_stable|apply leased_honest|]. intros s r s' Hs E. simpl in E.
  pose proof Hs as (H1 & H2 & Hh & _ & Hi & _). rewrite Hh in E. injection E as <- <-. exists (leased m g ws p).
  split; [done|]. pose proof (sd_order _ H1 p Hi) as Hord. destruct (pv_embed_batch p call) as [vs|e] eqn:Eb.
  - apply Hord in Eb as ->. eapply safe_post; [|apply IH]. intros r s' [Hr Hs']. split; [|done]. intros vs Hvs.
    rewrite (Hr vs Hvs). simpl. by rewrite fmap_app, app_assoc.
  - apply safe_ret; [apply leased_stable|apply leased_honest|]. by split.
Qed.

Lemma embed_texts_safe m g ws p texts :
  safely (λ r s, (∀ vs, r = Ok vs → vs = embeds p <$> texts ∧ Forall (λ v, N.of_nat (length v) = pv_dims p) vs) ∧
                 leased m g ws p s)
    (embed_texts (info p) texts) (leased m g ws p).
Proof.
  unfold embed_texts. eapply safe_bind; [apply embed_calls_safe|]. intros r. cbv beta. apply safe_pure. intros Hr.
  apply safe_ret; [apply leased_stable|apply leased_honest|]. intros s Hs. split; [|done]. intros vs (v & -> & Hc)%result_bind_ok.
  specialize (Hr v eq_refl). rewrite concat_chunks_of in Hr by lia. unfold checked in Hc. case_match; [done|].
  destruct (find_first _ v) eqn:Ef; [done|]. injection Hc as <-. split; [done|].
  apply Forall_forall. intros x Hx. apply find_first_None with (a := x) in Ef; [|done].
  by apply negb_false_iff, N.eqb_eq in Ef.
Qed.

Lemma embed_each_safe m g ws p works :
  safely (λ rs s, Forall2 (λ w r, ∀ v, r = Ok v → vectors_of p w v) works rs ∧ leased m g ws p s)
    (embed_each (info p) works) (leased m g ws p).
Proof.
  induction works as [|w works IH]; cbn [embed_each].
  { apply safe_ret; [apply leased_stable|apply leased_honest|]. intros s Hs. split; [constructor|done]. }
  eapply safe_bind; [apply embed_texts_safe|]. intros r. cbv beta. apply safe_pure. intros Hr.
  eapply safe_bind; [apply IH|]. intros rs. cbv beta. apply safe_pure. intros Hrs.
  apply safe_ret; [apply leased_stable|apply leased_honest|]. intros s Hs. split; [|done]. by constructor.
Qed.

Lemma embed_works_safe m g ws p works : Forall work_ok works →
  safely (λ rs s, Forall2 (λ w r, ∀ v, r = Ok v → vectors_of p w v) works rs ∧ leased m g ws p s)
    (embed_works (info p) works) (leased m g ws p).
Proof.
  intros Hok. unfold embed_works. eapply safe_bind; [apply embed_texts_safe|]. intros r. cbv beta. apply safe_pure. intros Hr.
  destruct r as [vs|e].
  - destruct (Hr vs eq_refl) as [E F]. apply safe_ret; [apply leased_stable|apply leased_honest|]. intros s Hs.
    split; [|done]. by apply share_vectors.
  - destruct (Nat.eqb_spec (length works) 1) as [Hl|]; [|apply embed_each_safe].
    apply safe_ret; [apply leased_stable|apply leased_honest|]. intros s Hs. split; [|done].
    destruct works as [|w [|]]; [done| |done]. by repeat constructor.
Qed.

(** A write keeps the log honest when what it logs is. *)
Lemma leased_writing m g ws p l s :
  leased m g ws p s → (∀ e, e ∈ l → honest embeds s e) → leased m g ws p (writing l s).
Proof.
  intros ([H1 H2 H3 H4] & H) Hl. split; [|exact H]. split; [done| |done|done].
  intros e [He|He]%elem_of_app; [by apply Hl|by apply H2].
Qed.

(** The vector of a row's one passage is that of its text. *)
Lemma whole_honest m g ws p s w v vs rev :
  leased m g ws p s → work_read s w → vectors_of p w vs → head vs = Some v → length (wk_spans w) = 1%nat →
  honest embeds s (entry_whole (wk_corpus w) (wk_row_id w) m v rev).
Proof.
  intros (_ & _ & _ & _ & _ & _ & _ & Hp) [Hr Hok] [Hvs Hd] Hv Hone.
  destruct (wk_spans w) as [|sp [|]] eqn:Esp; [done| |done].
  assert (passages_of w = [wk_text w]) as Ep.
  { pose proof (passages_slices_of w Hok) as F. rewrite Esp in F. inversion F as [|? x ? l Hx Hl' E1 E2]; subst.
    inversion Hl'; subst. destruct Hok as (_ & Hw & _). rewrite (Hw sp Esp) in Hx. by injection Hx as ->. }
  rewrite Ep in Hvs. subst vs. simpl in Hv. injection Hv as <-. exists p, (wk_text w), (wk_text w).
  split; [done|]. split; [done|]. split; [done|]. split; [simpl; by inversion Hd|done].
Qed.

(** The status names the leased provider, so a mirrored entry is stamped with it. *)
Lemma mirror_honest m g ws p s w v vs rev :
  leased m g ws p s → work_read s w → vectors_of p w vs → head vs = Some v → length (wk_spans w) = 1%nat →
  ∀ e, e ∈ mirror (wk_corpus w) (wk_row_id w) v rev (wd_embedder s) → honest embeds s e.
Proof.
  intros Hl Hr Hvs Hv Hone e. pose proof Hl as (Hs & _ & _ & _ & Hi & _ & _ & Hp).
  destruct (eo_ready _ (sd_embedder _ Hs) p Hi) as [Hready _].
  assert (embedder_model_id (wd_embedder s) = m) as E by (unfold embedder_model_id; by rewrite Hready).
  unfold mirror. rewrite E. repeat (case_match; [by intros []%not_elem_of_nil|]). intros ->%elem_of_one.
  by eapply whole_honest.
Qed.

Lemma vectors_of_spans p w vs : work_ok w → vectors_of p w vs → length vs = length (wk_spans w).
Proof. intros Hok [-> _]. rewrite length_fmap. symmetry. apply (Forall2_length _ _ _ (passages_slices_of w Hok)). Qed.

(** Each passage's vector is that of the slice it spans. *)
Lemma passages_honest m g ws p s w vs ix sp v :
  leased m g ws p s → work_read s w → wk_corpus w = CContext → vectors_of p w vs → (sp, v) ∈ zip (wk_spans w) vs →
  honest embeds s (passage_entry (wk_row_id w) m ix sp v).
Proof.
  intros (_ & _ & _ & _ & _ & _ & _ & Hp) [Hr Hok] Hc [-> Hd] Hz.
  assert (∃ x, slice sp (wk_text w) = Some x ∧ v = embeds p x) as (x & Hx & ->).
  { pose proof (passages_slices_of w Hok) as F. induction F as [|s1 x l1 l2 H1 F IH]; simpl in Hz.
    - by apply not_elem_of_nil in Hz.
    - apply elem_of_cons in Hz as [[= -> ->]|Hz]; [by exists x|]. apply IH; [by inversion Hd|done]. }
  exists p, (wk_text w), x. rewrite Hc in Hr. split; [done|]. split; [done|]. split; [done|]. split.
  - rewrite Forall_forall in Hd. apply Hd. by apply elem_of_zip_r in Hz.
  - by exists sp.
Qed.

Lemma leased_read m g ws p s w : leased m g ws p s → w ∈ ws → work_read s w.
Proof. intros (_ & H & _) Hw. rewrite Forall_forall in H. by apply H. Qed.

Lemma upsert_passages_safe m g ws p id ix l :
  (∀ s ix sp v, leased m g ws p s → (sp, v) ∈ l → honest embeds s (passage_entry id m ix sp v)) →
  safely (λ _, leased m g ws p) (upsert_passages id m ix l) (leased m g ws p).
Proof.
  revert ix. induction l as [|[sp v] l IH]; intros ix Hl; cbn [upsert_passages].
  { apply safe_ret; [apply leased_stable|apply leased_honest|done]. }
  apply safe_call; [apply leased_stable|apply leased_honest|]. intros s r s' Hs E. simpl in E. injection E as <- <-.
  exists (leased m g ws p). split.
  - apply leased_writing; [done|]. intros e ->%elem_of_one. apply Hl; [done|left].
  - destruct (so_written _); [|apply safe_ret; [apply leased_stable|apply leased_honest|done]].
    apply IH. intros t ix' sp' v' Ht Hin. apply Hl; [done|by right].
Qed.

(** A write that is the last thing done. *)
Lemma last_write_safe m g ws p (c : SlotCall (result unit text)) (f : World → list VectorEntry) :
  (∀ s, (slot_handler _ c s).2 = writing (f s) s) →
  (∀ s e, leased m g ws p s → e ∈ f s → honest embeds s e) →
  safely (λ _, leased m g ws p) (Call c Ret) (leased m g ws p).
Proof.
  intros Hc Hf. apply safe_call; [apply leased_stable|apply leased_honest|]. intros s r s' Hs E.
  exists (leased m g ws p). split; [|apply safe_ret; [apply leased_stable|apply leased_honest|done]].
  specialize (Hc s). rewrite E in Hc. simpl in Hc. subst s'. apply leased_writing; [done|]. intros e He. by eapply Hf.
Qed.

Lemma store_safe hc m g ws p w vs :
  w ∈ ws → work_ok w → vectors_of p w vs →
  safely (λ _, leased m g ws p) (store hc m w vs) (leased m g ws p).
Proof.
  intros Hw Hok Hvs. unfold store. pose proof (vectors_of_spans _ _ _ Hok Hvs) as Hlen.
  assert (∀ e : text, safely (λ _, leased m g ws p) (Ret (Err e) : Prog SlotCall (result unit text)) (leased m g ws p)) as Herr.
  { intros e. apply safe_ret; [apply leased_stable|apply leased_honest|done]. }
  destruct (head vs) as [v|] eqn:Ev; [|apply Herr].
  assert (wk_corpus w ≠ CContext → length (wk_spans w) = 1%nat) as Hone.
  { intros Hc. destruct Hok as (_ & _ & H). specialize (H Hc). destruct vs; [done|]. simpl in Hlen. lia. }
  destruct (wk_corpus w) eqn:Ec.
  - apply (last_write_safe _ _ _ _ _ (λ s, mirror CMemory (wk_row_id w) v None (wd_embedder s))); [done|].
    intros s e Hs He. rewrite <-Ec in He. eapply mirror_honest; [done|by eapply leased_read|done|done|by apply Hone|done].
  - destruct (negb hc); [apply Herr|].
    apply safe_call; [apply leased_stable|apply leased_honest|]. intros s r s' Hs E. simpl in E. injection E as <- <-.
    exists (leased m g ws p). split; [done|]. destruct (so_written _) as [u|e]; [|apply Herr].
    destruct (Nat.eqb_spec (length (wk_spans w)) 1) as [H1|H1].
    + apply (last_write_safe _ _ _ _ _ (λ s, match so_ingested_at (wd_stores s) (wk_row_id w) with
          | Some at_ => mirror CContext (wk_row_id w) v (Some at_) (wd_embedder s) | None => [] end)); [done|].
      intros s2 e Hs2. case_match; [|by intros []%not_elem_of_nil]. rewrite <-Ec. intros He.
      eapply mirror_honest; [done|by eapply leased_read|done|done|done|done].
    + apply upsert_passages_safe. intros s2 ix sp v' Hs2 Hin. eapply passages_honest; [done|by eapply leased_read|done|done|done].
  - apply (last_write_safe _ _ _ _ _ (λ s, [entry_whole CSummary (wk_row_id w) m v (wk_rev w)])); [done|].
    intros s e Hs ->%elem_of_one. rewrite <-Ec. eapply whole_honest; [done|by eapply leased_read|done|done|by apply Hone].
Qed.

Lemma store_each_safe hc g ws p works rs q :
  Forall2 (λ w r, ∀ v, r = Ok v → vectors_of p w v) works rs → (∀ w, w ∈ works → w ∈ ws ∧ work_ok w) →
  safely (λ q' s, (pa_model_id q' = pa_model_id q ∧ pa_generation q' = pa_generation q) ∧ leased (pa_model_id q) g ws p s)
    (store_each hc (zip works rs) q) (leased (pa_model_id q) g ws p).
Proof.
  intros H. revert q. induction H as [|w r works rs Hr _ IH]; intros q Hws; cbn [zip zip_with store_each].
  { apply safe_ret; [apply leased_stable|apply leased_honest|done]. }
  eapply safe_bind with (mid := λ _, leased (pa_model_id q) g ws p).
  - destruct r as [vs|e]; [|apply safe_ret; [apply leased_stable|apply leased_honest|done]].
    apply store_safe; [by apply Hws; left|by apply Hws; left|by apply Hr].
  - intros stored. eapply safe_post; [|eapply safe_weaken; [apply leased_stable| |apply IH]].
    + intros q' s. cbv beta. by destruct stored.
    + intros s. by destruct stored.
    + intros x Hx. apply Hws. by right.
Qed.

(** ** Lemmas: a pass *)

(** A lease just taken, at a generation not yet read. *)
Definition grip (ws : list Work) (p : Provider) (s : World) : Prop :=
  sound s ∧ Forall (work_read s) ws ∧ wd_held s = Some p ∧
  ae_leases (wd_embedder s) ≠ O ∧ ae_inner (wd_embedder s) = Some p.

Lemma grip_stable ws p : stable (others_step embeds) (grip ws p).
Proof.
  intros s s' Hst (Hs & Hr & Hh & Hl & Hi). split; [by eapply sound_stable|].
  destruct Hst as (He & _ & _ & E & E' & _). split; [by eapply reads_stable|]. split; [congruence|].
  destruct He as [->|[He Hk]]; [done|].
  destruct (embedder_step_pinned _ _ (sd_embedder _ Hs) He Hl) as (-> & _). split; [apply Hk; by rewrite Hh|done].
Qed.

Lemma grip_honest ws p s : grip ws p s → all_honest embeds s.
Proof. intros [Hs _]. apply Hs. Qed.

Definition gripping (m : text) (g : N) (ws : list Work) (p : Provider) (s : World) : Prop := pass_stamp m g s ∧ grip ws p s.

Lemma gripping_stable m g ws p : stable (others_step embeds) (gripping m g ws p).
Proof. intros s s' Hst [Hm Hg]. split; [eapply pass_stamp_stable; [done|apply Hg|done]|by eapply grip_stable]. Qed.

Lemma gripping_honest m g ws p s : gripping m g ws p s → all_honest embeds s.
Proof. intros [_ H]. by eapply grip_honest. Qed.

Lemma gripping_leased m g ws p s : gripping m g ws p s → ae_generation (wd_embedder s) = g → leased m g ws p s.
Proof.
  intros [[_ Hm] (Hs & Hr & Hh & Hl & Hi)] Hg. destruct (Hm Hg) as [d Hd].
  destruct (eo_ready _ (sd_embedder _ Hs) p Hi) as [_ Hst]. rewrite Hst in Hd. injection Hd as E1 E2.
  do 6 (split; [done|]). by rewrite Hst, E1.
Qed.

Lemma sound_with_embedder e h s :
  embedder_ok e → ae_inner e = ae_inner (wd_embedder s) → sound s → sound (with_embedder e h s).
Proof. intros H E [H1 H2 H3 H4]. split; [done|done|done|]. simpl. by rewrite E. Qed.

Lemma take_lease m g ws s p :
  idle m g ws s → ae_inner (wd_embedder s) = Some p →
  gripping m g ws p (with_embedder (lease (wd_embedder s)).2 (Some p) s).
Proof.
  intros (Hs & Hm & Hr & Hh) Hi. unfold lease. rewrite Hi. split; [exact Hm|].
  split; [|split; [exact Hr|split; [done|split; [done|simpl; by rewrite Hi]]]].
  apply sound_with_embedder; [|by rewrite ?Hi|done]. pose proof (embedder_step_ok _ _ (sd_embedder _ Hs) (es_lease _)) as H.
  unfold lease in H. by rewrite Hi in H.
Qed.

Lemma give_back m g ws p s : gripping m g ws p s → idle m g ws (with_embedder (drop_lease (wd_embedder s)) None s).
Proof.
  intros [Hm (Hs & Hr & Hh & Hl & Hi)]. split; [|by split].
  apply sound_with_embedder; [|done|done]. eapply embedder_step_ok; [apply Hs|by apply es_drop_lease].
Qed.

Lemma leased_gripping m g ws p s : leased m g ws p s → gripping m g ws p s.
Proof.
  intros (Hs & Hr & Hh & Hl & Hi & Hg & Hst & Hp). split; [|by do 3 (split; [done|])].
  split; [by rewrite Hg|]. intros _. by eexists.
Qed.

Lemma drop_lease_safe {A} m g ws p (k : unit → Prog SlotCall A) Q pre :
  stable (others_step embeds) pre → (∀ s, pre s → gripping m g ws p s) → safely Q (k tt) (idle m g ws) →
  safely Q (Call DropLease k) pre.
Proof.
  intros Hst Hpre Hk. apply safe_call; [done|intros s Hs; eapply gripping_honest; by apply Hpre|].
  intros s r s' Hs E. simpl in E. injection E as <- <-. exists (idle m g ws). split; [|done]. by eapply give_back, Hpre.
Qed.

Lemma embed_all_safe hc m g ws fuel queue q :
  (∀ w, w ∈ queue → w ∈ ws) → pa_model_id q = m → pa_generation q = g →
  safely (λ r s, (pa_model_id r.2 = m ∧ pa_generation r.2 = g) ∧ idle m g ws s)
    (embed_all hc fuel queue q) (idle m g ws).
Proof.
  intros Hws Em Eg.
  assert (∀ e q, pa_model_id q = m → pa_generation q = g →
    safely (λ r s, (pa_model_id r.2 = m ∧ pa_generation r.2 = g) ∧ idle m g ws s)
      (Ret (e, q) : Prog SlotCall (Walked * Pass)) (idle m g ws)) as Hret.
  { intros e q' E1 E2. apply safe_ret; [apply idle_stable|apply idle_honest|done]. }
  revert queue q Hws Em Eg. induction fuel as [|fuel IH]; intros queue q Hws Em Eg.
  { destruct queue; by apply Hret. }
  destruct queue as [|x queue']; cbn [embed_all]; [by apply Hret|]. set (queue := x :: queue') in *.
  apply safe_call; [apply idle_stable|apply idle_honest|]. intros s r s' Hs E. simpl in E. injection E as <- <-.
  exists (idle m g ws). split; [done|]. destruct (negb _); [by apply Hret|].
  apply safe_call; [apply idle_stable|apply idle_honest|]. clear s Hs. intros s r s' Hs E. simpl in E.
  destruct (ae_inner (wd_embedder s)) as [p|] eqn:Hi.
  2:{ unfold lease in E. rewrite Hi in E. injection E as <- <-. exists (idle m g ws). split; [|by apply Hret].
      destruct Hs as (Hs & Hm & Hr & Hh). split; [by apply sound_with_embedder; [apply Hs| |]|by split]. }
  pose proof (take_lease m g ws s p Hs Hi) as Hg. unfold lease in E, Hg. rewrite Hi in E, Hg. simpl in E, Hg.
  injection E as <- <-. exists (gripping m g ws p). split; [done|]. clear Hg.
  assert (Forall work_ok ws) as Hok.
  { destruct Hs as (_ & _ & Hr & _). eapply Forall_impl; [exact Hr|]. by intros w []. }
  apply safe_call; [apply gripping_stable|apply gripping_honest|]. clear s Hs Hi. intros s r s' Hs E. simpl in E. injection E as <- <-.
  destruct (N.eqb_spec (ae_generation (wd_embedder s)) (pa_generation q)) as [Hgen|Hgen]; cbn [negb].
  2:{ exists (gripping m g ws p). split; [done|]. eapply drop_lease_safe; [apply gripping_stable|done|by apply Hret]. }
  exists (leased m g ws p). split; [apply gripping_leased; [done|congruence]|]. clear s Hs Hgen.
  set (n := sizer_take _ _ _). set (batch := take n queue).
  assert (∀ w, w ∈ batch → w ∈ ws ∧ work_ok w) as Hb.
  { intros w Hw. rewrite Forall_forall in Hok. assert (w ∈ ws); [|by auto]. apply Hws. rewrite <-(take_drop n queue). apply elem_of_app. by left. }
  apply safe_call; [apply leased_stable|apply leased_honest|]. intros s r s' Hs E. simpl in E. injection E as <- <-.
  exists (leased m g ws p). split; [done|]. clear Hs. generalize (so_clock (wd_stores s)). clear s. intros started.
  eapply safe_bind; [apply embed_works_safe; apply Forall_forall; intros; by apply Hb|].
  intros rs. cbv beta. apply safe_pure. intros Hrs. rewrite <-Em. eapply safe_bind; [by apply store_each_safe|].
  intros q'. cbv beta. apply safe_pure. intros [E1 E2].
  apply safe_call; [apply leased_stable|apply leased_honest|]. intros s r s' Hs E. simpl in E. injection E as <- <-.
  exists (leased (pa_model_id q) g ws p). split; [done|].
  eapply drop_lease_safe; [apply leased_stable|apply leased_gripping|].
  apply safe_call; [apply idle_stable|apply idle_honest|]. intros t r t' Ht E. simpl in E. injection E as <- <-.
  exists (idle (pa_model_id q) g ws). split; [done|]. rewrite Em in *.
  destruct (so_may_continue _); [|apply Hret; simpl; congruence].
  apply IH; simpl; [|congruence|congruence]. intros w Hw. apply Hws. rewrite <-(take_drop n queue). apply elem_of_app. by right.
Qed.

Lemma sift_ids rows p : pa_model_id (sift rows p).2 = pa_model_id p ∧ pa_generation (sift rows p).2 = pa_generation p.
Proof.
  revert p. induction rows as [|w rows IH]; intros p; cbn [sift]; [done|].
  case_bool_decide; [apply IH|]. case_bool_decide; [apply (IH (pass_over (work_key w) p))|].
  destruct (is_empty _); [apply (IH (with_slot (skip (work_key w) (pa_slot p)) p))|].
  specialize (IH p). by destruct (sift rows p).
Qed.

Lemma sift_fresh rows p w : w ∈ (sift rows p).1 → w ∈ rows.
Proof.
  revert p. induction rows as [|x rows IH]; intros p; cbn [sift]; [done|].
  repeat case_match; simpl; try (intros; right; by eapply IH). specialize (IH p).
  intros [->|Hw]%elem_of_cons; [left|right]. destruct (sift rows p). simplify_eq. by apply IH.
Qed.

Lemma walk_corpus_safe hc m g fuel c q :
  pa_model_id q = m → pa_generation q = g →
  safely (λ r s, (pa_model_id r.2 = m ∧ pa_generation r.2 = g) ∧ idle m g [] s)
    (walk_corpus hc fuel c q) (idle m g []).
Proof.
  revert q. induction fuel as [|fuel IH]; intros q Em Eg; cbn [walk_corpus].
  { apply safe_ret; [apply idle_stable|apply idle_honest|done]. }
  rewrite Em. eapply safe_bind; [apply read_corpus_safe|]. intros [rows|e]; cbn [rows_of].
  2:{ apply safe_ret; [apply idle_stable|apply idle_honest|done]. }
  rewrite app_nil_r. destruct (sift_ids rows q) as [Em' Eg']. pose proof (sift_fresh rows q) as Hf.
  destruct (sift rows q) as [fresh q']. simpl in Em', Eg', Hf.
  assert (∀ s, idle m g rows s → idle m g [] s) as Hd by (intros s; apply idle_mono; intros w []%not_elem_of_nil).
  destruct (is_empty fresh).
  - eapply safe_weaken; [apply idle_stable|exact Hd|].
    destruct (_ || _); [|apply IH; congruence]. apply safe_ret; [apply idle_stable|apply idle_honest|]. split; [simpl; split; congruence|done].
  - eapply safe_bind; [apply (embed_all_safe hc m g rows); [done|congruence|congruence]|]. intros [w q'']. cbv beta.
    apply safe_pure. simpl. intros [E1 E2]. eapply safe_weaken; [apply idle_stable|exact Hd|].
    destruct w; [|by apply IH|]; (apply safe_ret; [apply idle_stable|apply idle_honest|done]).
Qed.

Lemma walk_safe hc m g fuel corpora q :
  pa_model_id q = m → pa_generation q = g →
  safely (λ r s, (pa_model_id r.2 = m ∧ pa_generation r.2 = g) ∧ idle m g [] s)
    (walk hc fuel corpora q) (idle m g []).
Proof.
  revert q. induction corpora as [|c corpora IH]; intros q Em Eg; cbn [walk].
  { apply safe_ret; [apply idle_stable|apply idle_honest|done]. }
  destruct (_ && _); [by apply IH|]. eapply safe_bind; [by apply walk_corpus_safe|]. intros [w q']. cbv beta.
  apply safe_pure. simpl. intros [E1 E2].
  destruct w; [|by apply IH|]; (apply safe_ret; [apply idle_stable|apply idle_honest|done]).
Qed.

Lemma run_pass_safe hc fuel slot :
  safely (λ _ _, True) (run_pass hc fuel slot) (λ s, sound s ∧ wd_held s = None).
Proof.
  assert (stable (others_step embeds) (λ s, sound s ∧ wd_held s = None)) as Hst.
  { intros s s' Hst [Hs Hh]. split; [by eapply sound_stable|]. destruct Hst as (_ & _ & _ & E & _). congruence. }
  assert (∀ s, sound s ∧ wd_held s = None → all_honest embeds s) as Hh by (intros s [[] _]; done).
  unfold run_pass. apply safe_call; [done|done|]. intros s r s' [Hs Hn] E. simpl in E.
  destruct (ae_inner (wd_embedder s)) as [p|] eqn:Hi.
  2:{ unfold lease in E. rewrite Hi in E. injection E as <- <-. exists (λ s, sound s ∧ wd_held s = None).
      split; [split; [by apply sound_with_embedder; [apply Hs| |]|done]|]. by apply safe_ret. }
  assert (grip [] p (with_embedder (lease (wd_embedder s)).2 (Some p) s)) as Hg.
  { unfold lease. rewrite Hi. split; [|split; [constructor|split; [done|split; [done|simpl; by rewrite Hi]]]].
    apply sound_with_embedder; [|by rewrite ?Hi|done]. pose proof (embedder_step_ok _ _ (sd_embedder _ Hs) (es_lease _)) as H.
    unfold lease in H. by rewrite Hi in H. }
  unfold lease in E, Hg. rewrite Hi in E, Hg. simpl in E, Hg. injection E as <- <-. exists (grip [] p). split; [done|].
  clear Hg Hs Hi Hn s. apply safe_call; [apply grip_stable|apply grip_honest|]. intros s r s' Hg E. simpl in E. injection E as <- <-.
  set (g := ae_generation (wd_embedder s)). exists (gripping (pv_model_id p) g [] p). split.
  { split; [|done]. split; [unfold g; lia|]. intros _. destruct Hg as (Hs & _ & _ & _ & Hi).
    destruct (eo_ready _ (sd_embedder _ Hs) p Hi) as [_ Hst']. by eexists. }
  generalize g. clear s Hg g. intros g.
  eapply drop_lease_safe; [apply gripping_stable|done|].
  eapply safe_bind; [by apply walk_safe|]. intros [w q]. cbv beta. apply safe_pure. intros _.
  destruct w; [by (apply safe_ret; [apply idle_stable|apply idle_honest|])| |by (apply safe_ret; [apply idle_stable|apply idle_honest|])].
  destruct (sl_tidy_owed _); [|by (apply safe_ret; [apply idle_stable|apply idle_honest|])].
  unfold tidy. cbn [prog_bind]. do 2 (apply safe_call; [apply idle_stable|apply idle_honest|]; intros ? ? ? ? E;
    simpl in E; injection E as <- <-; eexists (idle (pv_model_id p) g []); split; [done|]; try clear E).
  by (apply safe_ret; [apply idle_stable|apply idle_honest|]).
Qed.

(** ** Properties: what is stored is true *)

(** C12: a vector says truly whose it is. Whatever the household chooses, loads or unloads while a pass
    runs, and whatever is rewritten, added or deleted in the stores between its calls, every entry
    the pass sends to the index holds the vector that the model it is stamped with makes of the
    passage it spans, as wide as that model makes them, of a text of that row that was read. *)
Theorem stored_vectors_are_true hc fuel slot s cfg :
  embedder_ok (wd_embedder s) → (∀ p, ae_inner (wd_embedder s) = Some p → in_order embeds p) →
  texts_fit (wd_stores s) → wd_held s = None → wd_wrote s = [] →
  star (config_step slot_handler (others_step embeds)) (run_pass hc fuel slot, s) cfg → all_honest embeds cfg.2.
Proof.
  intros He Ho Hf Hh Hw Hstar. apply (safe_sound slot_handler (others_step embeds) (all_honest embeds) (λ _ _, True)
    (run_pass hc fuel slot) (λ s, sound s ∧ wd_held s = None) s cfg); [apply run_pass_safe| |done].
  split; [|done]. split; [done| |done|done]. intros e. rewrite Hw. intros []%not_elem_of_nil.
Qed.
End stamping.

(** ** Runs *)

(** A model whose vector of a text is its length and a zero. *)
Definition toy_embeds (p : Provider) (t : text) : vector := [byte_len t; 0].
Definition toy : Provider :=
  {| pv_model_id := lit "toy"; pv_dims := 2; pv_max_batch := 1; pv_embed_batch := λ texts, Ok ((λ t, [byte_len t; 0]) <$> texts) |}.

(** One memory, and an item of the context long enough for two passages. *)
Definition toy_stores : Stores :=
  {| so_ids := λ _ _ _, Ok [];
     so_rows := λ c _ _, match c with
                         | CMemory => Ok [(lit "m1", lit "likes tea")]
                         | CContext => Ok [(lit "c1", concat (replicate 60 (lit "ten bytes ")))]
                         | CSummary => Ok []
                         end;
     so_summary := λ _, Ok (None, None); so_ingested_at := λ _, None; so_written := Ok tt; so_may_continue := true;
     so_pruned := Ok 0; so_clock := 0 |}.
Definition toy_world : World :=
  {| wd_embedder := embedder_loaded toy; wd_held := None; wd_stores := toy_stores; wd_read := []; wd_wrote := [] |}.

(** The index here goes on listing what was stored: the rows are tried once and passed over. *)
Definition toy_run := trace slot_handler (run_pass true 5 slot_new) toy_world.
Definition toy_rows : gset key := {[(CMemory, lit "m1"); (CContext, lit "c1")]}.

Lemma toy_run_path : path (run_pass true 5 slot_new) toy_run.1 toy_run.2.
Proof. unfold toy_run. exact (trace_path slot_handler (run_pass true 5 slot_new) toy_world). Qed.

Lemma toy_run_lists : lists_within toy_rows toy_run.1.
Proof.
  assert (Forall (λ x : Corpus * nat * list text, Forall (λ id, (x.1.1, id) ∈ toy_rows) x.2) (omap listing_of toy_run.1)) as H.
  { apply (bool_decide_unpack _). vm_compute. exact I. }
  intros c lim ids Hi id Hid. rewrite Forall_forall in H. specialize (H _ Hi). simpl in H.
  rewrite Forall_forall in H. by apply H.
Qed.

Lemma pass_ends_witness :
  path (run_pass true 5 slot_new) toy_run.1 toy_run.2 ∧ lists_within toy_rows toy_run.1 ∧
  (∃ report, toy_run.2.1 = Some report ∧ pr_end report = Drained ∧ pr_memories report = 1%nat ∧ pr_failed report = 2%nat) ∧
  ∃ report, toy_run.2.1 = Some report ∧
    (pr_end report = Drained → ∀ c, c ≠ CContext ∨ true = true → drained c toy_run.2.2 toy_run.1).
Proof.
  pose proof toy_run_path as Hp. split; [exact Hp|]. split; [exact toy_run_lists|].
  split; [eexists; split; [vm_compute; reflexivity|by vm_compute]|].
  apply (pass_ends true 5 slot_new toy_run.1 toy_run.2.1 toy_run.2.2 toy_rows); [|exact toy_run_lists|apply empty_subseteq|].
  - by rewrite <-surjective_pairing.
  - apply Nat.ltb_lt. by vm_compute.
Defined.

Lemma stored_vectors_are_true_witness :
  ∃ cfg, star (config_step slot_handler (others_step toy_embeds)) (run_pass true 5 slot_new, toy_world) cfg ∧
    length (wd_wrote cfg.2) = 3%nat ∧ all_honest toy_embeds cfg.2.
Proof.
  pose proof (run_steps slot_handler (others_step toy_embeds) (run_pass true 5 slot_new) toy_world) as Hs.
  eexists. split; [exact Hs|]. split; [by vm_compute|].
  apply (stored_vectors_are_true toy_embeds true 5 slot_new toy_world); [| | |done|done|exact Hs].
  - by apply (reachable_embedder_ok (embedder_loaded toy)); [right; by eexists|apply star_refl].
  - intros p [= <-] texts vs [= <-]. done.
  - split; [|done]. intros c m n rows. destruct c; intros [= <-]; repeat constructor; by vm_compute.
Defined.

(** A store that fails after the first passage leaves the row looking current: no later pass, after
    whatever bell, lists it again for this model, though its other passages have no vector. *)
Lemma half_stored_row_is_current t id m sp v rev :
  needs_vector CContext id m rev
    (index_upsert (passage_entry id m 0 sp v) (index_remove CContext id t)) = false.
Proof.
  unfold needs_vector, index_upsert, index_remove. rewrite List.filter_app.
  match goal with |- context [List.filter (of_row CContext id) (List.filter ?f ?l) ++ _] =>
    assert (List.filter (of_row CContext id) (List.filter f l) = []) as -> end.
  { apply filter_none. intros x Hx. apply elem_of_filter_bool in Hx as [Hx _]. apply elem_of_filter_bool in Hx as [_ Hx].
    by apply negb_true_iff in Hx. }
  assert (of_row CContext id (passage_entry id m 0 sp v) = true) as Ho by (unfold of_row; simpl; by rewrite !bool_decide_true).
  simpl. rewrite Ho. simpl. unfold entry_stale. simpl. rewrite bool_decide_true by done. simpl. by destruct rev.
Qed.
