(* ===== verification/Scope.v ===== *)
(** * Scope: whose data a read, a write or a turn may reach

    [crates/pond-core/src/user_data/domain/profile.rs] ([ProfileScope]),
    [user_data/domain/session.rs] ([IdentificationSource], [SessionIdentity]) and
    [user_data/services/identity_resolution.rs] ([resolve]).
    [is_within] is the containment order every narrowing in the program relies on:
    it is proved to be a partial order whose meaning is inclusion of reachable rows.
    The class [StoredEnum] at the top states what every stored enumeration promises:
    its stored spelling determines it, so parsing is exact. *)
From S2P Require Import Prelude Text.
Local Open Scope N_scope.

(** ** Enumerations stored by name *)

Class StoredEnum (A : Type) `{EqDecision A} := {
  enum_all : list A;
  enum_str : A → text;
  enum_complete : ∀ a, a ∈ enum_all;
  enum_str_inj : ∀ a b, enum_str a = enum_str b → a = b;
}.

(** [Self::ALL.into_iter().find(|x| x.as_str() == raw)]. *)
Definition enum_parse {A} `{StoredEnum A} (raw : text) : option A :=
  find_first (λ a, bool_decide (enum_str a = raw)) enum_all.

Lemma enum_parse_str {A} `{StoredEnum A} (a : A) : enum_parse (enum_str a) = Some a.
Proof.
  unfold enum_parse. destruct (find_first _ _) as [b|] eqn:E.
  - apply find_some_iff in E as [_ E%bool_decide_eq_true]. f_equal. by apply enum_str_inj.
  - rewrite find_first_None in E. specialize (E a (enum_complete a)).
    by apply bool_decide_eq_false in E.
Qed.

Lemma enum_parse_exact {A} `{StoredEnum A} raw (a : A) : enum_parse raw = Some a ↔ raw = enum_str a.
Proof.
  split; [|intros ->; apply enum_parse_str].
  by intros [_ <-%bool_decide_eq_true]%find_some_iff.
Qed.

(** Closes the two laws of [StoredEnum] for a concrete enumeration. *)
Ltac stored_enum_complete := intros []; vm_compute; repeat constructor.
Ltac stored_enum_inj :=
  intros [] [] H; first [reflexivity | exfalso; vm_compute in H; discriminate H].

(** ** [ProfileScope] *)

Inductive ProfileScope : Type :=
| Owner (id : text)
| Household
| Guest.

#[export] Instance ProfileScope_eq_dec : EqDecision ProfileScope.
Proof. solve_decision. Defined.

Definition owner_id (s : ProfileScope) : option text :=
  match s with Owner id => Some id | Household | Guest => None end.

Definition excludes_everything (s : ProfileScope) : bool :=
  match s with Guest => true | _ => false end.

Definition allows_personal_data (s : ProfileScope) : bool := negb (excludes_everything s).

Definition is_within (self wider : ProfileScope) : bool :=
  match self, wider with
  | Guest, _ => true
  | Household, Household => true
  | Household, _ => false
  | Owner _, Household => true
  | Owner a, Owner b => bool_decide (a = b)
  | Owner _, Guest => false
  end.

(** ** Attribution *)

Inductive IdentificationSource : Type := PairedDevice | Explicit | Face | Voice | Unknown.

#[export] Instance IdentificationSource_eq_dec : EqDecision IdentificationSource.
Proof. solve_decision. Defined.

Definition IdentificationSource_as_str (s : IdentificationSource) : text :=
  match s with
  | PairedDevice => lit "paired_device"
  | Explicit => lit "explicit"
  | Face => lit "face"
  | Voice => lit "voice"
  | Unknown => lit "unknown"
  end.

Definition IdentificationSource_parse (raw : text) : IdentificationSource :=
  if bool_decide (raw = lit "paired_device") then PairedDevice
  else if bool_decide (raw = lit "explicit") then Explicit
  else if bool_decide (raw = lit "face") then Face
  else if bool_decide (raw = lit "voice") then Voice
  else Unknown.

Definition rank (s : IdentificationSource) : N :=
  match s with PairedDevice => 0 | Explicit => 1 | Face => 2 | Voice => 3 | Unknown => 4 end.

(** A face match's confidence is an [f32] no modelled decision reads, so it is carried
    as an opaque code. *)
Record SessionIdentity := {
  si_profile_id : option text;
  si_source : IdentificationSource;
  si_confidence : option N;
}.

Definition SessionIdentity_unknown : SessionIdentity :=
  {| si_profile_id := None; si_source := Unknown; si_confidence := None |}.

Definition supersedes (self existing : SessionIdentity) : bool :=
  rank (si_source self) <=? rank (si_source existing).

Definition readable_by (self : SessionIdentity) (scope : ProfileScope) : bool :=
  match si_profile_id self, scope with
  | _, Household => true
  | None, _ => true
  | Some owner, Owner caller => bool_decide (owner = caller)
  | Some _, Guest => false
  end.

(** ** [identity_resolution::resolve] *)

Record ResolutionInputs := {
  ri_paired_device_profile : option text;
  ri_session : SessionIdentity;
  ri_household_has_multiple_members : bool;
}.

Record ResolvedIdentity := { rid_scope : ProfileScope; rid_source : IdentificationSource }.

Definition unidentified_scope (several : bool) : ProfileScope :=
  if several then Guest else Household.

Definition resolve (i : ResolutionInputs) : ResolvedIdentity :=
  match ri_paired_device_profile i with
  | Some profile => {| rid_scope := Owner profile; rid_source := PairedDevice |}
  | None =>
      let fallback :=
        {| rid_scope := unidentified_scope (ri_household_has_multiple_members i);
           rid_source := Unknown |} in
      match si_profile_id (ri_session i) with
      | Some profile =>
          match si_source (ri_session i) with
          | PairedDevice | Explicit | Face | Voice =>
              {| rid_scope := Owner profile; rid_source := si_source (ri_session i) |}
          | Unknown => fallback
          end
      | None => fallback
      end
  end.

(** [profiles.list()] is [None] when there is no repository, and [Some (Err _)] when the
    read failed; only the number of members is used. *)
Definition scope_without_evidence {E} (profiles : option (result nat E)) : ProfileScope :=
  let members :=
    match profiles with
    | Some (Ok n) => n
    | Some (Err _) => 2%nat
    | None => 2%nat
    end in
  rid_scope (resolve {| ri_paired_device_profile := None;
                        ri_session := SessionIdentity_unknown;
                        ri_household_has_multiple_members := (1 <? members)%nat |}).

(** ** Lemmas *)

Lemma is_within_refl s : is_within s s = true.
Proof. destruct s; simpl; [by apply bool_decide_eq_true|done..]. Qed.

Lemma is_within_trans a b c : is_within a b = true → is_within b c = true → is_within a c = true.
Proof.
  destruct a, b, c; simpl; try done.
  rewrite !bool_decide_eq_true. congruence.
Qed.

Lemma is_within_antisym a b : is_within a b = true → is_within b a = true → a = b.
Proof. destruct a, b; simpl; try done. rewrite bool_decide_eq_true. congruence. Qed.

(** The rows a scope reaches: an owner's own and the unattributed ones. *)
Definition reaches_row (s : ProfileScope) (row_owner : option text) : Prop :=
  match s with
  | Owner id => row_owner = None ∨ row_owner = Some id
  | Household => True
  | Guest => False
  end.

Lemma is_within_spec a b :
  is_within a b = true ↔ ∀ row, reaches_row a row → reaches_row b row.
Proof.
  destruct a as [x| |], b as [y| |]; simpl; try (by split; auto).
  - rewrite bool_decide_eq_true. split; [by intros ->|].
    intros H. destruct (H (Some x) (or_intror eq_refl)) as [|[=]]; done.
  - split; [done|]. intros H. by destruct (H None (or_introl eq_refl)).
  - split; [done|]. intros H. specialize (H (Some (0 :: y)) I) as [|[= E]]; [done|].
    by apply (f_equal length) in E; simpl in E; lia.
  - split; [done|]. intros H. by destruct (H None I).
Qed.

#[export] Hint Resolve is_within_refl : pond.

(** ** Properties *)

(** [is_within] decides exactly inclusion of reach: one scope is within another when every
    row it may reach (a member's own and the unattributed, the whole household's, or none) the
    other may reach too; it is therefore an order, in which two scopes within each other are
    equal, a guest is within every scope and the household contains every scope. *)
Theorem containment_is_inclusion a b :
  (is_within a b = true ↔ ∀ row, reaches_row a row → reaches_row b row) ∧
  (is_within a b = true → is_within b a = true → a = b) ∧
  is_within Guest a = true ∧ is_within a Household = true ∧
  (excludes_everything a = true ↔ ∀ row, ¬ reaches_row a row).
Proof.
  split; [apply is_within_spec|]. split; [apply is_within_antisym|].
  split; [by destruct a|]. split; [by destruct a|]. destruct a; simpl.
  - split; [done|]. intros H. destruct (H None (or_introl eq_refl)).
  - split; [done|]. intros H. destruct (H None I).
  - split; [intros _ _ []|done].
Qed.

(** The evidence that a turn is [profile]'s. *)
Inductive attributed (i : ResolutionInputs) (profile : text) : IdentificationSource → Prop :=
| attributed_device :
    ri_paired_device_profile i = Some profile → attributed i profile PairedDevice
| attributed_session source :
    ri_paired_device_profile i = None → si_profile_id (ri_session i) = Some profile →
    si_source (ri_session i) = source → source ≠ Unknown → attributed i profile source.

(** A turn is a member's exactly when the evidence names that member: the paired device first,
    then the session when its source is known. Without evidence the scope only narrows: it is the
    household's only in a one-member pond, a guest's otherwise, and a pond whose members cannot
    be counted counts as several. *)
Theorem resolve_follows_evidence (i : ResolutionInputs) :
  (∀ p source, resolve i = {| rid_scope := Owner p; rid_source := source |} ↔ attributed i p source) ∧
  (rid_scope (resolve i) = Household → ri_household_has_multiple_members i = false) ∧
  ((∀ p source, ¬ attributed i p source) →
     rid_scope (resolve i) = unidentified_scope (ri_household_has_multiple_members i) ∧
     rid_source (resolve i) = Unknown) ∧
  (∀ E (profiles : option (result nat E)),
     scope_without_evidence profiles ≠ Guest → ∃ n, profiles = Some (Ok n) ∧ (n ≤ 1)%nat).
Proof.
  assert (∀ p source, resolve i = {| rid_scope := Owner p; rid_source := source |} ↔
    attributed i p source) as Hiff.
  { intros p source. unfold resolve. split.
    - destruct (ri_paired_device_profile i) as [d|] eqn:Ed.
      { intros [= -> <-]. by constructor. }
      destruct (si_profile_id (ri_session i)) as [q|] eqn:Eq;
        [|by destruct (ri_household_has_multiple_members i)].
      destruct (si_source (ri_session i)) eqn:Es;
        try (intros [= -> <-]; by apply attributed_session);
        by destruct (ri_household_has_multiple_members i).
    - destruct 1 as [-> |source -> -> Hs Hne]; [done|]. by destruct (si_source (ri_session i)); subst. }
  split; [exact Hiff|]. split; [|split].
  - unfold resolve, unidentified_scope.
    destruct (ri_paired_device_profile i); [done|].
    destruct (si_profile_id (ri_session i)), (si_source (ri_session i)),
      (ri_household_has_multiple_members i); done.
  - intros Hno. destruct (resolve i) as [[p| |] source] eqn:E.
    + by destruct (Hno p source); apply Hiff.
    + revert E. unfold resolve. destruct (ri_paired_device_profile i); [done|].
      destruct (si_profile_id (ri_session i)), (si_source (ri_session i));
        by intros [= -> <-].
    + revert E. unfold resolve. destruct (ri_paired_device_profile i); [done|].
      destruct (si_profile_id (ri_session i)), (si_source (ri_session i));
        by intros [= -> <-].
  - intros E profiles H. unfold scope_without_evidence in H.
    destruct profiles as [[n|e]|]; [|by destruct H..].
    exists n. split; [done|]. destruct (Nat.ltb_spec 1 n); [by destruct H|lia].
Qed.
