(* ===== verification/LongTask.v ===== *)
(** * LongTask: a long-running task and its state machine

    [crates/pond-core/src/shared/domain/long_task.rs], sections "States" and "The task":
    the enumerations with their stored spellings, [LongTaskBudget], [LongTask] with
    [start], [from_parts], [decide_answer] and [transition_to], and [owner_for].
    Instants ([DateTime<Utc>]) are [Z] nanoseconds; the random id [start] draws from the
    [uuid] crate is its argument [uuid]. A [&mut self] method returns the new value. *)
From S2P Require Import Prelude Text Scope.
Local Open Scope N_scope.

(** ** States *)

Inductive LongTaskState : Type :=
| Planning | Running | AwaitingApproval | Paused | Completed | Failed | Cancelled.

#[export] Instance LongTaskState_eq_dec : EqDecision LongTaskState.
Proof. solve_decision. Defined.

Definition LongTaskState_ALL : list LongTaskState :=
  [Planning; Running; AwaitingApproval; Paused; Completed; Failed; Cancelled].

Definition LongTaskState_as_str (s : LongTaskState) : text :=
  match s with
  | Planning => lit "planning"
  | Running => lit "running"
  | AwaitingApproval => lit "awaiting_approval"
  | Paused => lit "paused"
  | Completed => lit "completed"
  | Failed => lit "failed"
  | Cancelled => lit "cancelled"
  end.

#[export] Instance LongTaskState_stored : StoredEnum LongTaskState.
Proof.
  refine {| enum_all := LongTaskState_ALL; enum_str := LongTaskState_as_str |}.
  - abstract stored_enum_complete.
  - abstract stored_enum_inj.
Defined.

Definition LongTaskState_parse (raw : text) : option LongTaskState := enum_parse raw.

Definition is_terminal (s : LongTaskState) : bool :=
  match s with Completed | Failed | Cancelled => true | _ => false end.

Definition LongTaskState_can_become (self next : LongTaskState) : bool :=
  match self, next with
  | Planning, (Running | Paused | Completed | Failed | Cancelled) => true
  | Running, (Planning | AwaitingApproval | Paused | Completed | Failed | Cancelled) => true
  | AwaitingApproval, (Planning | Running | Paused | Failed | Cancelled) => true
  | Paused, (Planning | Running | AwaitingApproval | Failed | Cancelled) => true
  | _, _ => false
  end.

Inductive LongTaskKind : Type := General | Research.

#[export] Instance LongTaskKind_eq_dec : EqDecision LongTaskKind.
Proof. solve_decision. Defined.

Definition LongTaskKind_as_str (k : LongTaskKind) : text :=
  match k with General => lit "general" | Research => lit "research" end.

#[export] Instance LongTaskKind_stored : StoredEnum LongTaskKind.
Proof.
  refine {| enum_all := [General; Research]; enum_str := LongTaskKind_as_str |}.
  - abstract stored_enum_complete.
  - abstract stored_enum_inj.
Defined.

Definition LongTaskKind_parse (raw : text) : option LongTaskKind := enum_parse raw.

Inductive AnswerShape : Type := Auto | Short | Report.

#[export] Instance AnswerShape_eq_dec : EqDecision AnswerShape.
Proof. solve_decision. Defined.

Definition AnswerShape_as_str (a : AnswerShape) : text :=
  match a with Auto => lit "auto" | Short => lit "short" | Report => lit "report" end.

#[export] Instance AnswerShape_stored : StoredEnum AnswerShape.
Proof.
  refine {| enum_all := [Auto; Short; Report]; enum_str := AnswerShape_as_str |}.
  - abstract stored_enum_complete.
  - abstract stored_enum_inj.
Defined.

Definition AnswerShape_parse (raw : text) : option AnswerShape := enum_parse raw.

Definition AnswerShape_read (raw : text) : option AnswerShape :=
  let raw := lowercase (trim raw) in
  if is_empty raw then Some Auto else AnswerShape_parse raw.

(** ** The task *)

Definition MAX_LONG_TASK_STEPS : N := 32.
Definition DEFAULT_LONG_TASK_STEPS : N := 12.

Inductive LongTaskError : Type :=
| MissingGoal
| MaxStepsOutOfRange (requested cap : N)
| DeadlineNotInFuture
| BlankOwner
| OwnerMismatch (owner scope_owner : text)
| GuestWithOwner (owner : text)
| BlankOriginSession
| MissingTaskRowId.

Record LongTaskStateRefused := {
  ltr_task_id : text; ltr_from : LongTaskState; ltr_to : LongTaskState;
}.

Record LongTaskBudget := { max_steps : N; deadline : option Z }.

Definition LongTaskBudget_new (max_steps : N) (deadline : option Z) :
    result LongTaskBudget LongTaskError :=
  if (max_steps =? 0) || (MAX_LONG_TASK_STEPS <? max_steps)
  then Err (MaxStepsOutOfRange max_steps MAX_LONG_TASK_STEPS)
  else Ok {| max_steps := max_steps; deadline := deadline |}.

Definition deadline_passed (b : LongTaskBudget) (now : Z) : bool :=
  match deadline b with Some d => (d <=? now)%Z | None => false end.

Record LongTask := {
  task_id : text;
  task_owner : option text;
  task_scope : ProfileScope;
  task_goal : text;
  task_origin : option text;
  task_state : LongTaskState;
  task_budget : LongTaskBudget;
  task_kind : LongTaskKind;
  task_answer : AnswerShape;
  task_created_at : Z;
  task_updated_at : Z;
  task_finished_at : option Z;
}.

Record LongTaskParts := {
  tp_id : text;
  tp_owner_profile_id : option text;
  tp_scope : ProfileScope;
  tp_goal : text;
  tp_origin_session_id : option text;
  tp_state : LongTaskState;
  tp_max_steps : N;
  tp_deadline : option Z;
  tp_kind : LongTaskKind;
  tp_answer : AnswerShape;
  tp_created_at : Z;
  tp_updated_at : Z;
  tp_finished_at : option Z;
}.

Definition owner_for (scope : ProfileScope) (owner_profile_id : option text) :
    result (option text) LongTaskError :=
  let owner := non_blank owner_profile_id in
  match scope with
  | Owner id =>
      if is_empty (trim id) then Err BlankOwner else
      match owner with
      | None => Ok (Some id)
      | Some owner => if bool_decide (owner = id) then Ok (Some owner) else Err (OwnerMismatch owner id)
      end
  | Household => Ok owner
  | Guest => match owner with None => Ok None | Some owner => Err (GuestWithOwner owner) end
  end.

Definition origin_for (origin : option text) : result (option text) LongTaskError :=
  match origin with
  | Some id => if is_empty (trim id) then Err BlankOriginSession else Ok origin
  | None => Ok None
  end.

Definition LongTask_start (uuid : text) (scope : ProfileScope) (owner_profile_id : option text)
    (goal : text) (origin_session_id : option text) (budget : LongTaskBudget) (at_ : Z) :
    result LongTask LongTaskError :=
  let goal := trim goal in
  if is_empty goal then Err MissingGoal else
  let? owner := owner_for scope owner_profile_id in
  let? origin := origin_for origin_session_id in
  if match deadline budget with Some d => (d <=? at_)%Z | None => false end
  then Err DeadlineNotInFuture else
  Ok {| task_id := uuid; task_owner := owner; task_scope := scope; task_goal := goal;
        task_origin := origin; task_state := Planning; task_budget := budget;
        task_kind := General; task_answer := Auto; task_created_at := at_;
        task_updated_at := at_; task_finished_at := None |}.

Definition with_kind (t : LongTask) (k : LongTaskKind) : LongTask :=
  {| task_id := task_id t; task_owner := task_owner t; task_scope := task_scope t;
     task_goal := task_goal t; task_origin := task_origin t; task_state := task_state t;
     task_budget := task_budget t; task_kind := k; task_answer := task_answer t;
     task_created_at := task_created_at t; task_updated_at := task_updated_at t;
     task_finished_at := task_finished_at t |}.

Definition with_answer (t : LongTask) (a : AnswerShape) : LongTask :=
  {| task_id := task_id t; task_owner := task_owner t; task_scope := task_scope t;
     task_goal := task_goal t; task_origin := task_origin t; task_state := task_state t;
     task_budget := task_budget t; task_kind := task_kind t; task_answer := a;
     task_created_at := task_created_at t; task_updated_at := task_updated_at t;
     task_finished_at := task_finished_at t |}.

Definition decide_answer (t : LongTask) (a : AnswerShape) : LongTask * bool :=
  if negb (bool_decide (task_answer t = Auto)) || bool_decide (a = Auto) then (t, false)
  else (with_answer t a, true).

Definition LongTask_from_parts (p : LongTaskParts) : result LongTask LongTaskError :=
  if is_empty (trim (tp_id p)) then Err MissingTaskRowId else
  let goal := trim (tp_goal p) in
  if is_empty goal then Err MissingGoal else
  if tp_max_steps p =? 0 then Err (MaxStepsOutOfRange 0 MAX_LONG_TASK_STEPS) else
  let? owner := owner_for (tp_scope p) (tp_owner_profile_id p) in
  let? origin := origin_for (tp_origin_session_id p) in
  Ok {| task_id := tp_id p; task_owner := owner; task_scope := tp_scope p; task_goal := goal;
        task_origin := origin; task_state := tp_state p;
        task_budget := {| max_steps := N.min (tp_max_steps p) MAX_LONG_TASK_STEPS;
                          deadline := tp_deadline p |};
        task_kind := tp_kind p; task_answer := tp_answer p;
        task_created_at := tp_created_at p; task_updated_at := tp_updated_at p;
        task_finished_at := tp_finished_at p |}.

Definition transition_to (t : LongTask) (next : LongTaskState) (at_ : Z) :
    result LongTask LongTaskStateRefused :=
  if negb (LongTaskState_can_become (task_state t) next)
  then Err {| ltr_task_id := task_id t; ltr_from := task_state t; ltr_to := next |}
  else Ok {| task_id := task_id t; task_owner := task_owner t; task_scope := task_scope t;
             task_goal := task_goal t; task_origin := task_origin t; task_state := next;
             task_budget := task_budget t; task_kind := task_kind t;
             task_answer := task_answer t; task_created_at := task_created_at t;
             task_updated_at := at_;
             task_finished_at := if is_terminal next then Some at_ else task_finished_at t |}.

(** ** The lifecycle: what a member of the type can go through after [start] *)

Inductive task_step : LongTask → LongTask → Prop :=
| step_transition t next at_ t' : transition_to t next at_ = Ok t' → task_step t t'
| step_decide t a : task_step t (decide_answer t a).1
| step_kind t k : task_step t (with_kind t k)
| step_answer t a : task_step t (with_answer t a).

(** The scope and the owner of a task agree. *)
Definition owner_agrees (scope : ProfileScope) (owner : option text) : Prop :=
  match scope with
  | Owner id => trim id ≠ [] ∧ owner = Some id
  | Household => ∀ o, owner = Some o → trimmed o ∧ o ≠ []
  | Guest => owner = None
  end.

Record well_formed (t : LongTask) : Prop := {
  wf_id : trim (task_id t) ≠ [];
  wf_goal : trimmed (task_goal t) ∧ task_goal t ≠ [];
  wf_owner : owner_agrees (task_scope t) (task_owner t);
  wf_origin : ∀ o, task_origin t = Some o → trim o ≠ [];
  wf_budget : 1 ≤ max_steps (task_budget t) ≤ MAX_LONG_TASK_STEPS;
}.

(** A task has an end stamp exactly when it has ended. *)
Definition end_stamped (t : LongTask) : Prop :=
  is_Some (task_finished_at t) ↔ is_terminal (task_state t) = true.

(** What no step changes. *)
Definition same_task (t t' : LongTask) : Prop :=
  task_id t' = task_id t ∧ task_owner t' = task_owner t ∧ task_scope t' = task_scope t ∧
  task_goal t' = task_goal t ∧ task_origin t' = task_origin t ∧
  task_budget t' = task_budget t ∧ task_created_at t' = task_created_at t.

(** The columns a task is stored by: what its accessors return. *)
Definition parts_of (t : LongTask) : LongTaskParts :=
  {| tp_id := task_id t; tp_owner_profile_id := task_owner t; tp_scope := task_scope t;
     tp_goal := task_goal t; tp_origin_session_id := task_origin t; tp_state := task_state t;
     tp_max_steps := max_steps (task_budget t); tp_deadline := deadline (task_budget t);
     tp_kind := task_kind t; tp_answer := task_answer t; tp_created_at := task_created_at t;
     tp_updated_at := task_updated_at t; tp_finished_at := task_finished_at t |}.

(** ** Lemmas *)

Lemma can_become_irrefl s : LongTaskState_can_become s s = false.
Proof. by destruct s. Qed.

Lemma terminal_cannot_move s next : is_terminal s = true → LongTaskState_can_become s next = false.
Proof. by destruct s, next. Qed.

Lemma transition_to_ok t next at_ t' :
  transition_to t next at_ = Ok t' →
    LongTaskState_can_become (task_state t) next = true ∧ same_task t t' ∧
    task_state t' = next ∧ task_updated_at t' = at_ ∧
    task_finished_at t' = (if is_terminal next then Some at_ else task_finished_at t).
Proof.
  unfold transition_to. destruct (LongTaskState_can_become _ _); simpl; [|done].
  by intros [= <-].
Qed.

Lemma decide_answer_fst t a : (decide_answer t a).1 = t ∨ (decide_answer t a).1 = with_answer t a.
Proof. unfold decide_answer. destruct (_ || _); auto. Qed.

Lemma same_task_refl t : same_task t t.
Proof. done. Qed.
Lemma same_task_trans t u v : same_task t u → same_task u v → same_task t v.
Proof. unfold same_task. intuition congruence. Qed.

Lemma task_step_same t t' : task_step t t' → same_task t t'.
Proof.
  destruct 1 as [t next at_ t' H|t a| |]; [by apply transition_to_ok in H as (_&?&_)| |done..].
  by destruct (decide_answer_fst t a) as [-> | ->].
Qed.

Lemma task_star_same t t' : star task_step t t' → same_task t t'.
Proof. induction 1; [done|]. eauto using same_task_trans, task_step_same. Qed.

Lemma well_formed_same t t' : same_task t t' → well_formed t → well_formed t'.
Proof. intros (E1&E2&E3&E4&E5&E6&E7) []. constructor; by rewrite ?E1, ?E2, ?E3, ?E4, ?E5, ?E6. Qed.

Lemma end_stamped_step t t' : end_stamped t → task_step t t' → end_stamped t'.
Proof.
  intros Ht. destruct 1 as [t next at_ t' H|t a| |]; [|by destruct (decide_answer_fst t a) as [-> | ->]|done..].
  apply transition_to_ok in H as (Hc & _ & Hs & _ & Hf).
  unfold end_stamped in *. rewrite Hs, Hf.
  destruct (is_terminal next) eqn:En; [by split|].
  destruct (is_terminal (task_state t)) eqn:Et; [by rewrite terminal_cannot_move in Hc|done].
Qed.

Lemma owner_for_agrees scope o owner : owner_for scope o = Ok owner → owner_agrees scope owner.
Proof.
  unfold owner_for. destruct scope as [id| |]; simpl.
  - destruct (is_empty (trim id)) eqn:E; [done|]. apply is_empty_false in E.
    destruct (non_blank o) as [w|]; [|by intros [= <-]].
    case_bool_decide; [|done]. intros [= <-]. by subst.
  - intros [= <-] w Hw. by apply non_blank_Some in Hw.
  - destruct (non_blank o); [done|]. by intros [= <-].
Qed.

Lemma owner_for_id scope owner :
  owner_agrees scope owner → (∀ id, scope = Owner id → trim id = id) →
  owner_for scope owner = Ok owner.
Proof.
  unfold owner_for. destruct scope as [id| |]; simpl.
  - intros [Hne ->] Hid. specialize (Hid id eq_refl). rewrite Hid in Hne |- *.
    unfold non_blank. simpl. rewrite Hid. apply is_empty_false in Hne. rewrite Hne.
    by rewrite bool_decide_eq_true_2.
  - intros H _. destruct owner as [o|]; [|done]. destruct (H o eq_refl). by rewrite non_blank_id.
  - by intros ->.
Qed.

(** An owner id with blank ends is refused when the task is read back. *)
Lemma owner_for_untrimmed id : trim id ≠ id → owner_for (Owner id) (Some id) ≠ Ok (Some id).
Proof.
  intros Hid. unfold owner_for, non_blank. simpl.
  destruct (is_empty (trim id)) eqn:E; [done|]. by rewrite bool_decide_eq_false_2.
Qed.

Lemma origin_for_ok o origin :
  origin_for o = Ok origin ↔ origin = o ∧ ∀ s, o = Some s → trim s ≠ [].
Proof.
  unfold origin_for. destruct o as [s|].
  - destruct (is_empty (trim s)) eqn:E.
    + split; [done|]. intros [_ H]. apply is_empty_true in E. by destruct (H s eq_refl).
    + apply is_empty_false in E. split; [intros [= <-]; split; [done|by intros ? [= <-]]|by intros [-> _]].
  - split; [by intros [= <-]|by intros [-> _]].
Qed.

Lemma LongTaskBudget_new_ok n d b :
  LongTaskBudget_new n d = Ok b →
  b = {| max_steps := n; deadline := d |} ∧ 1 ≤ n ≤ MAX_LONG_TASK_STEPS.
Proof.
  unfold LongTaskBudget_new. destruct (_ || _) eqn:E; [done|]. intros [= <-].
  apply orb_false_elim in E as [?%N.eqb_neq ?%N.ltb_ge]. split; [done|lia].
Qed.

Lemma LongTask_start_ok uuid scope owner goal origin n d b at_ t :
  LongTaskBudget_new n d = Ok b → trim uuid ≠ [] →
  LongTask_start uuid scope owner goal origin b at_ = Ok t →
  well_formed t ∧ end_stamped t ∧ task_state t = Planning ∧ task_scope t = scope ∧
  task_budget t = b ∧ (∀ dl, d = Some dl → (at_ < dl)%Z).
Proof.
  intros [-> Hn]%LongTaskBudget_new_ok Hid. unfold LongTask_start.
  destruct (is_empty (trim goal)) eqn:Eg; [done|]. apply is_empty_false in Eg.
  rewrite result_bind_ok. intros (ow & Ho%owner_for_agrees & H).
  apply result_bind_ok in H as (og & [-> Hog]%origin_for_ok & H). simpl in H.
  destruct (match d with Some _ => _ | None => _ end) eqn:Ed; [done|].
  injection H as <-. split_and!; try done.
  - constructor; try done. split; [apply trim_trimmed|done].
  - split; [by intros [? ?]|done].
  - intros dl ->. by apply Z.leb_gt in Ed.
Qed.

Lemma terminal_star t t' :
  star task_step t t' → is_terminal (task_state t) = true →
  task_state t' = task_state t ∧ task_finished_at t' = task_finished_at t.
Proof.
  induction 1 as [|t u v Hstep _ IH]; [done|]. intros Ht.
  assert (task_state u = task_state t ∧ task_finished_at u = task_finished_at t) as [E1 E2].
  { destruct Hstep as [t next at_ u H|t a| |]; [|by destruct (decide_answer_fst t a) as [-> | ->]|done..].
    apply transition_to_ok in H as [Hc _]. by rewrite terminal_cannot_move in Hc. }
  rewrite <-E1, <-E2. apply IH. by rewrite E1.
Qed.

(** ** Properties *)

(** A task's scope and owner always agree (a member's task is owned by that member, a guest's
    by nobody), its goal and ids are never blank, its budget is between 1 and 32 steps and it
    carries an end stamp exactly when it has ended: [start] establishes this and no sequence of
    public methods breaks it or changes whose task it is. *)
Theorem task_lifecycle_invariant uuid scope owner goal origin n d b at_ t0 t :
  LongTaskBudget_new n d = Ok b → trim uuid ≠ [] →
  LongTask_start uuid scope owner goal origin b at_ = Ok t0 → star task_step t0 t →
  well_formed t ∧ end_stamped t ∧ same_task t0 t ∧ task_scope t = scope.
Proof.
  intros Hb Hid Hs Hstar.
  destruct (LongTask_start_ok _ _ _ _ _ _ _ _ _ _ Hb Hid Hs) as (Hwf & He & _ & Hsc & _).
  pose proof (task_star_same _ _ Hstar) as Hsame. split_and!.
  - by apply (well_formed_same t0).
  - by apply (star_invariant task_step end_stamped end_stamped_step t0).
  - done.
  - by destruct Hsame as (_&_&->&_).
Qed.

Definition budget12 : LongTaskBudget := {| max_steps := 12; deadline := None |}.
Definition planned_task : LongTask :=
  {| task_id := lit "t1"; task_owner := Some (lit "ann"); task_scope := Owner (lit "ann");
     task_goal := lit "plan a trip"; task_origin := None; task_state := Planning;
     task_budget := budget12; task_kind := General; task_answer := Auto;
     task_created_at := 5; task_updated_at := 5; task_finished_at := None |}.
Definition cancelled_task : LongTask :=
  {| task_id := lit "t1"; task_owner := Some (lit "ann"); task_scope := Owner (lit "ann");
     task_goal := lit "plan a trip"; task_origin := None; task_state := Cancelled;
     task_budget := budget12; task_kind := General; task_answer := Auto;
     task_created_at := 5; task_updated_at := 9; task_finished_at := Some 9%Z |}.

Lemma cancelled_task_well_formed : well_formed cancelled_task.
Proof.
  constructor; simpl.
  - vm_compute. discriminate.
  - split; [|done]. by split; intros c [= <-].
  - split; [vm_compute; discriminate|done].
  - done.
  - done.
Qed.

Lemma task_lifecycle_invariant_witness :
  well_formed cancelled_task ∧ end_stamped cancelled_task ∧
  same_task planned_task cancelled_task ∧ task_scope cancelled_task = Owner (lit "ann").
Proof.
  apply (task_lifecycle_invariant (lit "t1") (Owner (lit "ann")) None (lit " plan a trip ") None
           12 None budget12 5); [reflexivity|vm_compute; discriminate|vm_compute; reflexivity|].
  eapply star_step; [|apply star_refl].
  apply (step_transition _ Cancelled 9). vm_compute. reflexivity.
Defined.

(** A finished task is finished for good: whatever methods are called on it, its state and end
    stamp stay, and every [transition_to] is refused naming where it is; an unfinished task can
    always be cancelled or failed at once. *)
Theorem finished_is_final t :
  (is_terminal (task_state t) = true →
     (∀ t', star task_step t t' →
        task_state t' = task_state t ∧ task_finished_at t' = task_finished_at t) ∧
     ∀ next at_, transition_to t next at_ =
       Err {| ltr_task_id := task_id t; ltr_from := task_state t; ltr_to := next |}) ∧
  (is_terminal (task_state t) = false →
     ∀ next at_, next = Cancelled ∨ next = Failed →
       ∃ t', transition_to t next at_ = Ok t' ∧ task_state t' = next ∧
             task_finished_at t' = Some at_).
Proof.
  split; intros Ht.
  - split; [intros t' Hs; by apply terminal_star|].
    intros next at_. unfold transition_to. by rewrite terminal_cannot_move.
  - intros next at_ Hn. unfold transition_to.
    destruct Hn as [-> | ->]; destruct (task_state t); try discriminate Ht; simpl; eauto.
Qed.

(** A stored task reads back as itself, unless it is scoped to a member whose id has blank
    ends: [start] accepts such an id and records it as the owner, but [owner_for] compares the
    trimmed owner column with the untrimmed scope, so [from_parts] then refuses the row. *)
Theorem task_row_roundtrip t :
  well_formed t →
  LongTask_from_parts (parts_of t) = Ok t ↔ ∀ id, task_scope t = Owner id → trim id = id.
Proof.
  intros [Hid [Hg Hgne] Ho Hog Hb]. unfold LongTask_from_parts. destruct t as [tid ow sc g og st [n d] k a c u f].
  simpl in *. apply is_empty_false in Hid. rewrite Hid, trimmed_trim by done.
  apply is_empty_false in Hgne. rewrite Hgne. rewrite (proj2 (N.eqb_neq _ _)) by lia.
  assert (origin_for og = Ok og) as -> by by apply origin_for_ok.
  rewrite N.min_l by lia. split.
  - rewrite result_bind_ok. intros (ow' & How & [= ->]) id ->. simpl in Ho. destruct Ho as [_ ->].
    destruct (decide (trim id = id)) as [|Hne]; [done|]. by apply owner_for_untrimmed in Hne.
  - intros Htr. by rewrite owner_for_id.
Qed.

Lemma task_row_roundtrip_witness :
  LongTask_from_parts (parts_of cancelled_task) = Ok cancelled_task ↔
  ∀ id, task_scope cancelled_task = Owner id → trim id = id.
Proof. apply task_row_roundtrip, cancelled_task_well_formed. Defined.
