(* ===== verification/HandBack.v ===== *)
(** * HandBack: the fixed shape every helper hands back

    [crates/pond-core/src/shared/domain/long_task.rs], section "The hand-back":
    [OutcomeKind], [StepOutcome] with [new], [with_asks], [with_artifacts], [parse] and
    [from_json], [HandBackAsks] and the lenient field readers.
    [serde_json] is outside the repository: its parser ([from_str]) and its printer
    ([Display for Value]) are the section's variables, and a JSON number is carried by the
    text it displays as. A map is an association list in insertion order
    ([serde_json] is built with [preserve_order]). *)
From S2P Require Import Prelude Text Scope.

(** ** [serde_json::Value] *)

Inductive Json : Type :=
| JNull
| JBool (b : bool)
| JNumber (shown : text)
| JString (s : text)
| JArray (items : list Json)
| JObject (fields : list (text * Json)).

Notation JMap := (list (text * Json)).

Definition map_get (object : JMap) (key : text) : option Json :=
  snd <$> find_first (λ f, bool_decide (f.1 = key)) object.
Definition as_str (v : Json) : option text := match v with JString s => Some s | _ => None end.
Definition as_bool (v : Json) : option bool := match v with JBool b => Some b | _ => None end.
Definition as_object (v : Json) : option JMap := match v with JObject o => Some o | _ => None end.
Definition is_null (v : Json) : bool := match v with JNull => true | _ => false end.

(** ** Data *)

Module OutcomeKind.
Inductive OutcomeKind : Type := Completed | Failed | NeedsApproval.
End OutcomeKind.
Notation OutcomeKind := OutcomeKind.OutcomeKind.

#[export] Instance OutcomeKind_eq_dec : EqDecision OutcomeKind.
Proof. solve_decision. Defined.

Definition MAX_HAND_OFF_BRIEF_CHARS : nat := 1200.

Record HandToAsk := { ht_agent : text; ht_brief : option text }.
Record HandBackAsks := { ask_hand_to : option HandToAsk; ask_start_task : option text }.

Definition HandBackAsks_default : HandBackAsks :=
  {| ask_hand_to := None; ask_start_task := None |}.
Definition HandBackAsks_is_empty (a : HandBackAsks) : bool :=
  match ask_hand_to a, ask_start_task a with None, None => true | _, _ => false end.

Record StepOutcome := {
  so_outcome : OutcomeKind;
  so_summary : text;
  so_artifacts : list text;
  so_failure : option text;
  so_asks : HandBackAsks;
}.

Inductive OutcomeError : Type :=
| NotAnObject
| MissingOutcome
| UnknownOutcome (said : text).

Definition OUTCOME_KEYS : list text := [lit "outcome"; lit "status"; lit "state"].
Definition SUMMARY_KEYS : list text :=
  [lit "summary"; lit "result"; lit "answer"; lit "findings"; lit "report"; lit "message"].
Definition ARTIFACT_KEYS : list text :=
  [lit "artifacts"; lit "artifact_ids"; lit "artifact"; lit "outputs"].
Definition FAILURE_KEYS : list text :=
  [lit "failure"; lit "error"; lit "reason"; lit "problem"].
Definition HAND_TO_KEYS : list text :=
  [lit "hand_to"; lit "handoff"; lit "hand_off"; lit "next_agent"].
Definition BRIEF_KEYS : list text :=
  [lit "brief"; lit "hand_to_brief"; lit "handoff_brief"].
Definition START_TASK_KEYS : list text :=
  [lit "start_task"; lit "new_task"; lit "follow_up_task"].

(** ** Operations *)

(** [keys.filter_map(get).find(not null)]. *)
Definition first_present (object : JMap) (keys : list text) : option Json :=
  find_first (λ v, negb (is_null v)) (omap (map_get object) keys).

(** The words each outcome may be spelled with, after folding. *)
Definition completed_words : list text :=
  [lit "completed"; lit "complete"; lit "done"; lit "success"; lit "succeeded";
   lit "finished"; lit "ok"].
Definition failed_words : list text :=
  [lit "failed"; lit "fail"; lit "failure"; lit "error"; lit "blocked"; lit "unable"].
Definition approval_words : list text :=
  [lit "needs_approval"; lit "needsapproval"; lit "awaiting_approval"; lit "approval_required";
   lit "needs_permission"; lit "approval"].

Definition fold_word (t : text) : text :=
  (λ c, if (c =? 32)%N || (c =? 45)%N then 95%N else c) <$> lowercase (trim t).

Definition artifact_ids (v : Json) : list text :=
  match v with
  | JString s => split_on (N.eqb 44) s
  | JArray items =>
      omap (λ item, match item with
                    | JString id => Some id
                    | JObject o => map_get o (lit "id") ≫= as_str
                    | _ => None
                    end) items
  | _ => []
  end.

Definition StepOutcome_new (outcome : OutcomeKind) (summary : text) (artifacts : list text)
    (failure : option text) : StepOutcome :=
  {| so_outcome := outcome;
     so_summary := cap_text summary MAX_STEP_SUMMARY_CHARS;
     so_artifacts := clean_ids artifacts;
     so_failure :=
       match outcome with
       | OutcomeKind.Completed => None
       | OutcomeKind.Failed | OutcomeKind.NeedsApproval => capped failure
       end;
     so_asks := HandBackAsks_default |}.

Definition with_asks (o : StepOutcome) (asks : HandBackAsks) : StepOutcome :=
  {| so_outcome := so_outcome o; so_summary := so_summary o; so_artifacts := so_artifacts o;
     so_failure := so_failure o; so_asks := asks |}.

Definition with_artifacts (o : StepOutcome) (artifacts : list text) : StepOutcome :=
  {| so_outcome := so_outcome o; so_summary := so_summary o;
     so_artifacts := clean_ids artifacts; so_failure := so_failure o; so_asks := so_asks o |}.

Section serde_json.
Context (json_display : Json → text) (from_str : text → option Json).

Definition value_text (v : Json) : text :=
  match v with JString s => s | other => json_display other end.

Definition parse_outcome_kind (raw : Json) : result OutcomeKind OutcomeError :=
  match as_str raw with
  | None => Err (UnknownOutcome (json_display raw))
  | Some t =>
      let word := fold_word t in
      if bool_decide (word ∈ completed_words) then Ok OutcomeKind.Completed
      else if bool_decide (word ∈ failed_words) then Ok OutcomeKind.Failed
      else if bool_decide (word ∈ approval_words) then Ok OutcomeKind.NeedsApproval
      else Err (UnknownOutcome (trim t))
  end.

Definition read_brief (object : JMap) : option text :=
  (λ t, cap_text t MAX_HAND_OFF_BRIEF_CHARS) <$>
    non_blank (value_text <$> first_present object BRIEF_KEYS).

Definition HandBackAsks_from_object (object : JMap) : HandBackAsks :=
  let brief := read_brief object in
  let hand_to :=
    match first_present object HAND_TO_KEYS with
    | Some (JString agent) =>
        (λ agent, {| ht_agent := agent; ht_brief := brief |}) <$> non_blank (Some agent)
    | Some (JObject inner) =>
        let named := match map_get inner (lit "agent") with
                     | Some v => Some v
                     | None => map_get inner (lit "name")
                     end in
        agent ← non_blank (named ≫= as_str);
        Some {| ht_agent := agent;
                ht_brief := match read_brief inner with Some b => Some b | None => brief end |}
    | _ => None
    end in
  {| ask_hand_to := hand_to;
     ask_start_task :=
       (λ goal, cap_text goal MAX_STEP_SUMMARY_CHARS) <$>
         non_blank (first_present object START_TASK_KEYS ≫= as_str) |}.

Definition StepOutcome_from_json (value : Json) : result StepOutcome OutcomeError :=
  match as_object value with
  | None => Err NotAnObject
  | Some object =>
      let? outcome :=
        match first_present object OUTCOME_KEYS with
        | Some raw => parse_outcome_kind raw
        | None =>
            match map_get object (lit "success") ≫= as_bool with
            | Some true => Ok OutcomeKind.Completed
            | Some false => Ok OutcomeKind.Failed
            | None => Err MissingOutcome
            end
        end in
      let summary := default [] (value_text <$> first_present object SUMMARY_KEYS) in
      let artifacts := default [] (artifact_ids <$> first_present object ARTIFACT_KEYS) in
      let failure := value_text <$> first_present object FAILURE_KEYS in
      Ok (with_asks (StepOutcome_new outcome summary artifacts failure)
                    (HandBackAsks_from_object object))
  end.

(** [text.find('{')] and [text.rfind('}')] as character indices: both braces are one byte,
    so [&text[start..=end]] is the characters from the first to the last. *)
Definition rposition (c : N) (t : text) : option nat :=
  (λ i, length t - 1 - i) <$> position (N.eqb c) (reverse t).

Definition first_json_value (t : text) : option Json :=
  let t := trim t in
  match from_str t with
  | Some v => Some v
  | None =>
      start ← position (N.eqb 123) t;
      end_ ← rposition 125 t;
      if (end_ <=? start)%nat then None
      else from_str (take (S end_ - start) (drop start t))
  end.

Definition StepOutcome_parse (t : text) : result StepOutcome OutcomeError :=
  match first_json_value t with
  | None => Err NotAnObject
  | Some v => StepOutcome_from_json v
  end.
End serde_json.

(** ** What a hand-back says, and the normal form it is kept in *)

Definition outcome_words (k : OutcomeKind) : list text :=
  match k with
  | OutcomeKind.Completed => completed_words
  | OutcomeKind.Failed => failed_words
  | OutcomeKind.NeedsApproval => approval_words
  end.

Inductive says (object : JMap) : OutcomeKind → Prop :=
| says_word raw k :
    first_present object OUTCOME_KEYS = Some (JString raw) →
    fold_word raw ∈ outcome_words k → says object k
| says_success b :
    first_present object OUTCOME_KEYS = None →
    map_get object (lit "success") = Some (JBool b) →
    says object (if b then OutcomeKind.Completed else OutcomeKind.Failed).

(** Text kept within a cap: trimmed, not blank, cut at [n] characters. *)
Definition kept_text (n : nat) (t : text) : Prop := trimmed t ∧ t ≠ [] ∧ length t ≤ n.

Record normal_outcome (o : StepOutcome) : Prop := {
  no_summary : trimmed (so_summary o) ∧ length (so_summary o) ≤ MAX_STEP_SUMMARY_CHARS;
  no_artifacts :
    NoDup (so_artifacts o) ∧ Forall (λ t, trimmed t ∧ t ≠ []) (so_artifacts o);
  no_failure :
    match so_outcome o with
    | OutcomeKind.Completed => so_failure o = None
    | _ => ∀ f, so_failure o = Some f → kept_text MAX_STEP_SUMMARY_CHARS f
    end;
  no_hand_to : ∀ h, ask_hand_to (so_asks o) = Some h →
    trimmed (ht_agent h) ∧ ht_agent h ≠ [] ∧
    ∀ b, ht_brief h = Some b → kept_text MAX_HAND_OFF_BRIEF_CHARS b;
  no_start_task : ∀ g, ask_start_task (so_asks o) = Some g →
    kept_text MAX_STEP_SUMMARY_CHARS g;
}.

(** ** Lemmas *)

Lemma first_present_Some object keys v :
  first_present object keys = Some v → is_null v = false ∧ ∃ k, k ∈ keys ∧ map_get object k = Some v.
Proof.
  intros [Hin Hn]%find_some_iff. apply negb_true_iff in Hn. split; [done|].
  apply list_elem_of_omap in Hin as (k & ? & ?). by exists k.
Qed.

Lemma outcome_words_disjoint w k k' : w ∈ outcome_words k → w ∈ outcome_words k' → k = k'.
Proof.
  intros Hw Hw'.
  assert (∀ a b, forallb (λ u, negb (bool_decide (u ∈ outcome_words b))) (outcome_words a) = true →
            w ∈ outcome_words a → w ∈ outcome_words b → False) as Hdis.
  { intros a b Hall Ha Hb. rewrite forallb_forall in Hall.
    specialize (Hall w ltac:(by apply list_elem_of_In)).
    by rewrite bool_decide_eq_true_2 in Hall. }
  destruct k, k'; try done; exfalso; eapply (Hdis _ _ _ Hw Hw').
  Unshelve. all: vm_compute; reflexivity.
Qed.

Lemma parse_outcome_kind_ok disp raw k :
  parse_outcome_kind disp raw = Ok k ↔ ∃ t, raw = JString t ∧ fold_word t ∈ outcome_words k.
Proof.
  unfold parse_outcome_kind. destruct raw as [| | |t| |]; simpl;
    try (split; [done|by intros (? & ? & _)]).
  split.
  - intros H. exists t. split; [done|].
    repeat (case_bool_decide; [injection H as <-; done|]). done.
  - intros (t' & [= <-] & Hw).
    pose proof (λ k', outcome_words_disjoint (fold_word t) k' k) as Hdis.
    case_bool_decide as H1; [f_equal; by apply (Hdis OutcomeKind.Completed)|].
    case_bool_decide as H2; [f_equal; by apply (Hdis OutcomeKind.Failed)|].
    case_bool_decide as H3; [f_equal; by apply (Hdis OutcomeKind.NeedsApproval)|].
    by destruct k.
Qed.

Lemma brief_marker_fits :
  (length (cut_marker MAX_HAND_OFF_BRIEF_CHARS) < MAX_HAND_OFF_BRIEF_CHARS)%nat.
Proof. apply Nat.ltb_lt. vm_compute. reflexivity. Qed.

Lemma cap_kept o n t : length (cut_marker n) < n →
  (λ u, cap_text u n) <$> non_blank o = Some t → kept_text n t.
Proof.
  intros Hn. destruct (non_blank o) as [u|] eqn:E; [|done]. intros [= <-].
  apply non_blank_Some in E as [Hu Hne]. split; [by apply cap_text_trimmed|].
  split; [|apply cap_text_length]. apply cap_text_nonempty; [done|]. by rewrite trimmed_trim.
Qed.

Lemma read_brief_kept disp object b :
  read_brief disp object = Some b → kept_text MAX_HAND_OFF_BRIEF_CHARS b.
Proof. intros H. by apply cap_kept in H; [|apply brief_marker_fits]. Qed.

Lemma asks_normal disp object :
  (∀ h, ask_hand_to (HandBackAsks_from_object disp object) = Some h →
    trimmed (ht_agent h) ∧ ht_agent h ≠ [] ∧
    ∀ b, ht_brief h = Some b → kept_text MAX_HAND_OFF_BRIEF_CHARS b) ∧
  (∀ g, ask_start_task (HandBackAsks_from_object disp object) = Some g →
    kept_text MAX_STEP_SUMMARY_CHARS g).
Proof.
  split; simpl.
  - intros h. destruct (first_present _ _) as [[| | |a| |inner]|]; try done.
    + destruct (non_blank _) as [t|] eqn:E; [|done]. intros [= <-]. simpl.
      apply non_blank_Some in E as [??]. split_and!; try done.
      intros b. apply read_brief_kept.
    + intros (t & E%non_blank_Some & [= <-])%bind_Some. simpl. destruct E. split_and!; try done.
      intros b. destruct (read_brief disp inner) as [b'|] eqn:Eb.
      * intros [= <-]. by eapply read_brief_kept.
      * apply read_brief_kept.
  - intros g H. apply cap_kept in H; [done|apply summary_marker_fits].
Qed.

Lemma StepOutcome_new_normal k s a f asks :
  (∀ h, ask_hand_to asks = Some h → trimmed (ht_agent h) ∧ ht_agent h ≠ [] ∧
    ∀ b, ht_brief h = Some b → kept_text MAX_HAND_OFF_BRIEF_CHARS b) →
  (∀ g, ask_start_task asks = Some g → kept_text MAX_STEP_SUMMARY_CHARS g) →
  normal_outcome (with_asks (StepOutcome_new k s a f) asks).
Proof.
  intros Hh Hs. constructor; simpl; try done.
  - split; [apply cap_text_trimmed, summary_marker_fits|apply cap_text_length].
  - apply clean_ids_clean.
  - destruct k; [done|intros g; apply capped_Some..].
Qed.

(** Building an outcome again from its own fields changes nothing. *)
Lemma StepOutcome_new_id o :
  normal_outcome o →
  with_asks (StepOutcome_new (so_outcome o) (so_summary o) (so_artifacts o) (so_failure o))
            (so_asks o) = o.
Proof.
  intros [[Hs Hsl] [Hnd Ha] Hf _ _]. destruct o as [k s a f asks]; simpl in *.
  unfold with_asks, StepOutcome_new; simpl. rewrite cap_text_short, clean_ids_id by done.
  destruct k; [by subst|..]; (destruct f as [f|]; [|done]);
    destruct (Hf f eq_refl) as (?&?&?); by rewrite capped_id.
Qed.

(** ** Properties *)

(** A hand-back counts as an outcome exactly when it says so: in the first outcome field that
    is present and not null, by one of that outcome's words, or by a boolean [success] when it
    has no outcome field. A missing or unknown outcome is an error and never [Completed], and what
    is read is in normal form (capped, trimmed, ids without blanks or repeats, no failure text on
    a completed step), so that reading it again changes nothing. *)
Theorem handback_outcome_is_what_was_said (json_display : Json → text) object :
  (∀ k, (∃ o, StepOutcome_from_json json_display (JObject object) = Ok o ∧ so_outcome o = k)
        ↔ says object k) ∧
  (∀ o, StepOutcome_from_json json_display (JObject object) = Ok o →
     normal_outcome o ∧
     with_asks (StepOutcome_new (so_outcome o) (so_summary o) (so_artifacts o) (so_failure o))
               (so_asks o) = o).
Proof.
  split.
  - intros k. unfold StepOutcome_from_json. simpl. setoid_rewrite result_bind_ok. split.
    + intros (o & (k' & Hk & [= <-]) & <-). simpl.
      destruct (first_present object OUTCOME_KEYS) as [raw|] eqn:E.
      * apply parse_outcome_kind_ok in Hk as (t & -> & Hw). by econstructor.
      * destruct (map_get object (lit "success")) as [v|] eqn:Es; [|done].
        destruct v as [|b| | | |]; try done.
        replace k' with (if b then OutcomeKind.Completed else OutcomeKind.Failed)
          by (destruct b; by injection Hk). by apply says_success.
    + intros H. eexists. split; [exists k; split; [|reflexivity]|done].
      destruct H as [raw k E Hw|b E Es]; rewrite E.
      * apply parse_outcome_kind_ok. by exists raw.
      * rewrite Es. by destruct b.
  - intros o H. unfold StepOutcome_from_json in H. simpl in H.
    apply result_bind_ok in H as (k & _ & [= <-]).
    assert (normal_outcome (with_asks (StepOutcome_new k
      (default [] (value_text json_display <$> first_present object SUMMARY_KEYS))
      (default [] (artifact_ids <$> first_present object ARTIFACT_KEYS))
      (value_text json_display <$> first_present object FAILURE_KEYS))
      (HandBackAsks_from_object json_display object))) as Hn
      by (apply StepOutcome_new_normal; apply asks_normal).
    split; [done|]. by apply StepOutcome_new_id in Hn.
Qed.
