(* ===== verification/Step.v ===== *)
(** * Step: one step of a plan, its key and its state machine

    [crates/pond-core/src/shared/domain/long_task.rs]: [StepState], [StepKey] with
    [suggest_key], [PlanError], [StepDraft], [StepAgent], [PlanStep] and its methods
    ([from_parts], [start], [preempt], [record], [fail], [await_approval], [skip]).
    A [StepKey] is the text it wraps; that every key in a step was made by
    [StepKey_parse] is the invariant [valid_key]. A [&mut self] method returns the new
    step; every one of them refuses before it changes anything. *)
From S2P Require Import Prelude Text Scope LongTask HandBack.
Local Open Scope N_scope.

(** ** States *)

Module StepState.
Inductive StepState : Type :=
| Pending | Running | Completed | Failed | Skipped | AwaitingApproval.
End StepState.
Notation StepState := StepState.StepState.

#[export] Instance StepState_eq_dec : EqDecision StepState.
Proof. solve_decision. Defined.

Definition StepState_ALL : list StepState :=
  [StepState.Pending; StepState.Running; StepState.Completed; StepState.Failed;
   StepState.Skipped; StepState.AwaitingApproval].

Definition StepState_as_str (s : StepState) : text :=
  match s with
  | StepState.Pending => lit "pending"
  | StepState.Running => lit "running"
  | StepState.Completed => lit "completed"
  | StepState.Failed => lit "failed"
  | StepState.Skipped => lit "skipped"
  | StepState.AwaitingApproval => lit "awaiting_approval"
  end.

#[export] Instance StepState_stored : StoredEnum StepState.
Proof.
  refine {| enum_all := StepState_ALL; enum_str := StepState_as_str |}.
  - abstract stored_enum_complete.
  - abstract stored_enum_inj.
Defined.

Definition StepState_parse (raw : text) : option StepState := enum_parse raw.

Definition survives_replan (s : StepState) : bool :=
  match s with StepState.Completed | StepState.Running => true | _ => false end.

Definition StepState_can_become (self next : StepState) : bool :=
  match self, next with
  | StepState.Pending, (StepState.Running | StepState.AwaitingApproval | StepState.Skipped) => true
  | StepState.Running,
    (StepState.Completed | StepState.Failed | StepState.AwaitingApproval | StepState.Pending) => true
  | StepState.Failed, (StepState.Running | StepState.Skipped) => true
  | StepState.AwaitingApproval, (StepState.Running | StepState.Skipped) => true
  | _, _ => false
  end.

Record StepStateRefused := { ssr_step : text; ssr_from : StepState; ssr_to : StepState }.

(** ** Keys *)

Definition MAX_STEP_KEY_CHARS : N := 32.

Notation StepKey := text (only parsing).

Inductive PlanError : Type :=
| TaskFinished (state : LongTaskState)
| EmptyPlan
| TooManySteps (requested kept : nat) (cap : N)
| InvalidKey (key : text) (suggestion : option text)
| DuplicateKey (key : text)
| RewritesSettledStep (key : text) (state : StepState)
| MissingRole (step : text)
| MissingInstructions (step : text)
| UnknownDependency (step missing : text)
| Cycle (cycle : list text)
| StepsOfAnotherTask (task other : text).

Definition key_char (c : N) : bool := is_ascii_lowercase c || is_ascii_digit c || (c =? 45).

(** The loop of [suggest_key]; [slug] is the string built so far. *)
Definition slug_push (slug : text) (c : N) : text :=
  let c := to_ascii_lowercase c in
  if is_ascii_lowercase c || is_ascii_digit c then slug ++ [c]
  else if negb (is_empty slug) && negb (bool_decide (last slug = Some 45)) then slug ++ [45]
  else slug.

Definition suggest_key (raw : text) : option text :=
  let slug := foldl slug_push [] raw in
  let slug := take (N.to_nat MAX_STEP_KEY_CHARS) slug in
  let slug := trim_end_matches (N.eqb 45) slug in
  if is_empty slug then None else Some slug.

Definition StepKey_parse (raw : text) : result StepKey PlanError :=
  let key := trim raw in
  let valid :=
    negb (is_empty key) && forallb key_char key && (byte_len key <=? MAX_STEP_KEY_CHARS) in
  if valid then Ok key else Err (InvalidKey key (suggest_key key)).

Definition StepKey_lenient (raw : text) : result StepKey PlanError :=
  match StepKey_parse raw with
  | Ok key => Ok key
  | Err refused =>
      match refused with
      | InvalidKey _ (Some near) =>
          match StepKey_parse near with Ok key => Ok key | Err _ => Err refused end
      | _ => Err refused
      end
  end.

(** ** Drafts and made agents *)

Record StepAgent := { sa_name : text; sa_instructions : text; sa_tools : list text }.

Record StepDraft := {
  sd_key : text;
  sd_role : text;
  sd_new_agent : option StepAgent;
  sd_instructions : text;
  sd_inputs : list text;
  sd_depends_on : list text;
  sd_acceptance : option text;
}.

Definition NEW_AGENT_PREFIX : text := lit "new:".
Definition AGENT_NAME_CHARS : nat := 40.

Definition StepAgent_cleaned (a : StepAgent) : option StepAgent :=
  let name := take AGENT_NAME_CHARS (trim (sa_name a)) in
  let instructions := trim (sa_instructions a) in
  let tools := clean_ids (sa_tools a) in
  if negb (is_empty name) && negb (is_empty instructions)
  then Some {| sa_name := name; sa_instructions := instructions; sa_tools := tools |}
  else None.

(** ** [PlanStep] *)

Record PlanStep := {
  ps_task_id : text;
  ps_key : StepKey;
  ps_ordinal : N;
  ps_role : text;
  ps_instructions : text;
  ps_inputs : list text;
  ps_depends_on : list StepKey;
  ps_acceptance : option text;
  ps_state : StepState;
  ps_attempts : N;
  ps_summary : option text;
  ps_failure : option text;
  ps_started_at : option Z;
  ps_finished_at : option Z;
  ps_agent : option StepAgent;
}.

Record PlanStepParts := {
  pp_task_id : text;
  pp_key : text;
  pp_ordinal : N;
  pp_role : text;
  pp_instructions : text;
  pp_inputs : list text;
  pp_depends_on : list text;
  pp_acceptance : option text;
  pp_state : StepState;
  pp_attempts : N;
  pp_summary : option text;
  pp_failure : option text;
  pp_started_at : option Z;
  pp_finished_at : option Z;
  pp_agent : option StepAgent;
}.

Definition PlanStep_from_parts (p : PlanStepParts) : result PlanStep PlanError :=
  let? key := StepKey_parse (pp_key p) in
  let role := trim (pp_role p) in
  if is_empty role then Err (MissingRole key) else
  let instructions := trim (pp_instructions p) in
  if is_empty instructions then Err (MissingInstructions key) else
  let? depends_on := traverse StepKey_parse (pp_depends_on p) in
  Ok {| ps_task_id := pp_task_id p; ps_key := key; ps_ordinal := pp_ordinal p; ps_role := role;
        ps_instructions := instructions; ps_inputs := clean_ids (pp_inputs p);
        ps_depends_on := depends_on; ps_acceptance := non_blank (pp_acceptance p);
        ps_state := pp_state p; ps_attempts := pp_attempts p;
        ps_summary := capped (pp_summary p); ps_failure := capped (pp_failure p);
        ps_started_at := pp_started_at p; ps_finished_at := pp_finished_at p;
        ps_agent := pp_agent p ≫= StepAgent_cleaned |}.

(** The fields a method may assign. *)
Definition ps_with (s : PlanStep) (state : StepState) (attempts : N)
    (summary failure : option text) (started_at finished_at : option Z) : PlanStep :=
  {| ps_task_id := ps_task_id s; ps_key := ps_key s; ps_ordinal := ps_ordinal s;
     ps_role := ps_role s; ps_instructions := ps_instructions s; ps_inputs := ps_inputs s;
     ps_depends_on := ps_depends_on s; ps_acceptance := ps_acceptance s; ps_state := state;
     ps_attempts := attempts; ps_summary := summary; ps_failure := failure;
     ps_started_at := started_at; ps_finished_at := finished_at; ps_agent := ps_agent s |}.

Definition refused (s : PlanStep) (next : StepState) : StepStateRefused :=
  {| ssr_step := ps_key s; ssr_from := ps_state s; ssr_to := next |}.

Definition move_to (s : PlanStep) (next : StepState) : result PlanStep StepStateRefused :=
  if negb (StepState_can_become (ps_state s) next) then Err (refused s next) else
  Ok (ps_with s next (ps_attempts s) (ps_summary s) (ps_failure s)
        (ps_started_at s) (ps_finished_at s)).

Definition PlanStep_start (s : PlanStep) (at_ : Z) : result PlanStep StepStateRefused :=
  let? s := move_to s StepState.Running in
  Ok (ps_with s (ps_state s) (u32_sat_add (ps_attempts s) 1) (ps_summary s) (ps_failure s)
        (Some at_) None).

Definition preempt (s : PlanStep) : result PlanStep StepStateRefused :=
  let? s := move_to s StepState.Pending in
  Ok (ps_with s (ps_state s) (ps_attempts s - 1) (ps_summary s) (ps_failure s)
        None (ps_finished_at s)).

Definition UNEXPLAINED_FAILURE : text :=
  lit "the helper reported a failure without saying why".

Definition outcome_state (k : OutcomeKind) : StepState :=
  match k with
  | OutcomeKind.Completed => StepState.Completed
  | OutcomeKind.Failed => StepState.Failed
  | OutcomeKind.NeedsApproval => StepState.AwaitingApproval
  end.

Definition record (s : PlanStep) (o : StepOutcome) (at_ : Z) : result PlanStep StepStateRefused :=
  let next := outcome_state (so_outcome o) in
  if negb (bool_decide (ps_state s = StepState.Running)) then Err (refused s next) else
  let? s := move_to s next in
  let failure :=
    match so_outcome o with
    | OutcomeKind.Completed => None
    | OutcomeKind.Failed => Some (default UNEXPLAINED_FAILURE (so_failure o))
    | OutcomeKind.NeedsApproval => so_failure o
    end in
  Ok (ps_with s (ps_state s) (ps_attempts s) (non_blank (Some (so_summary o))) failure
        (ps_started_at s)
        (if bool_decide (next = StepState.AwaitingApproval) then None else Some at_)).

Definition PlanStep_fail (s : PlanStep) (reason : text) (at_ : Z) :
    result PlanStep StepStateRefused :=
  let? s := move_to s StepState.Failed in
  Ok (ps_with s (ps_state s) (ps_attempts s) (ps_summary s)
        (Some (default UNEXPLAINED_FAILURE (capped (Some reason))))
        (ps_started_at s) (Some at_)).

Definition await_approval (s : PlanStep) : result PlanStep StepStateRefused :=
  if negb (bool_decide (ps_state s = StepState.Pending))
  then Err (refused s StepState.AwaitingApproval)
  else move_to s StepState.AwaitingApproval.

Definition skip (s : PlanStep) (at_ : Z) : result PlanStep StepStateRefused :=
  let? s := move_to s StepState.Skipped in
  Ok (ps_with s (ps_state s) (ps_attempts s) (ps_summary s) (ps_failure s)
        (ps_started_at s) (Some at_)).

(** ** The life of a step *)

(** The calls of a step's [&mut self] methods; a refused call leaves the step as it is. *)
Inductive StepCall : Type :=
| CallStart (at_ : Z)
| CallPreempt
| CallRecord (o : StepOutcome) (at_ : Z)
| CallFail (reason : text) (at_ : Z)
| CallAwaitApproval
| CallSkip (at_ : Z).

Definition call (s : PlanStep) (c : StepCall) : result PlanStep StepStateRefused :=
  match c with
  | CallStart at_ => PlanStep_start s at_
  | CallPreempt => preempt s
  | CallRecord o at_ => record s o at_
  | CallFail reason at_ => PlanStep_fail s reason at_
  | CallAwaitApproval => await_approval s
  | CallSkip at_ => skip s at_
  end.

Definition after_call (s : PlanStep) (c : StepCall) : PlanStep :=
  match call s c with Ok s' => s' | Err _ => s end.

Definition after_calls (s : PlanStep) (cs : list StepCall) : PlanStep := foldl after_call s cs.

(** The attempts a call adds: one for a start that is taken, minus one for a preemption. *)
Definition attempt_delta (s : PlanStep) (c : StepCall) : Z :=
  match c, is_ok (call s c) with
  | CallStart _, true => 1
  | CallPreempt, true => -1
  | _, _ => 0
  end.
Fixpoint attempt_deltas (s : PlanStep) (cs : list StepCall) : Z :=
  match cs with
  | [] => 0
  | c :: cs => attempt_delta s c + attempt_deltas (after_call s c) cs
  end.

(** Hand-backs are only built by [StepOutcome::new] and [from_json]. *)
Definition real_call (c : StepCall) : Prop :=
  match c with CallRecord o _ => normal_outcome o | _ => True end.

(** What [StepKey_parse] accepts unchanged. *)
Definition valid_key (k : text) : Prop :=
  k ≠ [] ∧ Forall (λ c, key_char c = true) k ∧ (length k ≤ 32)%nat.

Definition clean_agent (a : StepAgent) : Prop := StepAgent_cleaned a = Some a.

(** The fields a step is planned with. *)
Record well_planned (s : PlanStep) : Prop := {
  wp_key : valid_key (ps_key s);
  wp_role : trimmed (ps_role s) ∧ ps_role s ≠ [];
  wp_instructions : trimmed (ps_instructions s) ∧ ps_instructions s ≠ [];
  wp_inputs : clean_ids (ps_inputs s) = ps_inputs s;
  wp_depends_on : Forall valid_key (ps_depends_on s);
  wp_acceptance : non_blank (ps_acceptance s) = ps_acceptance s;
}.

(** The fields its runs write. *)
Record well_run (s : PlanStep) : Prop := {
  wr_attempts : ps_attempts s ≤ u32_max;
  wr_summary : capped (ps_summary s) = ps_summary s;
  wr_failure : capped (ps_failure s) = ps_failure s;
  wr_failed : ps_state s = StepState.Failed → is_Some (ps_failure s);
  wr_finished :
    match ps_state s with
    | StepState.Completed | StepState.Failed | StepState.Skipped => is_Some (ps_finished_at s)
    | StepState.Running => ps_finished_at s = None ∧ is_Some (ps_started_at s) ∧ 0 < ps_attempts s
    | _ => True
    end;
}.

Definition parts_of_step (s : PlanStep) : PlanStepParts :=
  {| pp_task_id := ps_task_id s; pp_key := ps_key s; pp_ordinal := ps_ordinal s;
     pp_role := ps_role s; pp_instructions := ps_instructions s; pp_inputs := ps_inputs s;
     pp_depends_on := ps_depends_on s; pp_acceptance := ps_acceptance s;
     pp_state := ps_state s; pp_attempts := ps_attempts s; pp_summary := ps_summary s;
     pp_failure := ps_failure s; pp_started_at := ps_started_at s;
     pp_finished_at := ps_finished_at s; pp_agent := ps_agent s |}.

(** What no method of a step changes. *)
Definition same_step (s s' : PlanStep) : Prop :=
  ps_task_id s' = ps_task_id s ∧ ps_key s' = ps_key s ∧ ps_ordinal s' = ps_ordinal s ∧
  ps_role s' = ps_role s ∧ ps_instructions s' = ps_instructions s ∧
  ps_inputs s' = ps_inputs s ∧ ps_depends_on s' = ps_depends_on s ∧
  ps_acceptance s' = ps_acceptance s ∧ ps_agent s' = ps_agent s.

(** ** Lemmas: keys *)

Lemma key_char_range c :
  key_char c = true → 97 ≤ c ≤ 122 ∨ 48 ≤ c ≤ 57 ∨ c = 45.
Proof.
  unfold key_char, is_ascii_lowercase, is_ascii_digit.
  rewrite !orb_true_iff, !andb_true_iff, !N.leb_le, N.eqb_eq. lia.
Qed.

Lemma key_char_ascii c : key_char c = true → len_utf8 c = 1.
Proof. intros H%key_char_range. unfold len_utf8. by rewrite (proj2 (N.ltb_lt c 128)) by lia. Qed.

Lemma key_char_not_blank c : key_char c = true → is_whitespace c = false.
Proof.
  intros H%key_char_range. unfold is_whitespace.
  rewrite !orb_false_iff, !andb_false_iff, !N.leb_gt, !N.eqb_neq. lia.
Qed.

Lemma key_bytes k : Forall (λ c, key_char c = true) k → byte_len k = N.of_nat (length k).
Proof.
  induction 1 as [|c k Hc Hk IH]; [done|]. cbn [byte_len length]. rewrite IH, key_char_ascii by done. lia.
Qed.

Lemma valid_key_trimmed k : valid_key k → trimmed k.
Proof.
  intros (_ & Hk & _). rewrite Forall_forall in Hk. split; intros c Hc; apply key_char_not_blank, Hk.
  - destruct k; [done|]. injection Hc as ->. by left.
  - by apply last_Some_elem_of.
Qed.

Lemma StepKey_parse_ok raw k : StepKey_parse raw = Ok k ↔ k = trim raw ∧ valid_key k.
Proof.
  unfold StepKey_parse, valid_key, MAX_STEP_KEY_CHARS. rewrite <-is_empty_false.
  destruct (negb _ && _ && _) eqn:E.
  - apply andb_prop in E as [[Hne%negb_true_iff Hall]%andb_prop Hlen%N.leb_le].
    rewrite forallb_forall in Hall.
    assert (Forall (λ c, key_char c = true) (trim raw)) as HF
      by (apply Forall_forall; intros c Hc%list_elem_of_In; by apply Hall).
    rewrite key_bytes in Hlen by done. split; [|by intros [-> _]].
    intros [= <-]. split_and!; try done. clear -Hlen. lia.
  - split; [done|]. intros (-> & Hne & Hall & Hlen). exfalso.
    rewrite Hne, key_bytes in E by done. simpl in E.
    rewrite (proj2 (N.leb_le _ _)) in E by lia. rewrite andb_true_r in E.
    apply Bool.not_true_iff_false in E. apply E, forallb_forall.
    intros c Hc%list_elem_of_In. by apply (proj1 (Forall_forall _ _) Hall).
Qed.

Lemma StepKey_parse_valid k : valid_key k → StepKey_parse k = Ok k.
Proof. intros Hk. apply StepKey_parse_ok. split; [|done]. by rewrite trimmed_trim by by apply valid_key_trimmed. Qed.

Lemma slug_push_chars slug c :
  Forall (λ c, key_char c = true) slug → Forall (λ c, key_char c = true) (slug_push slug c).
Proof.
  intros Hs. unfold slug_push. destruct (is_ascii_lowercase _ || _) eqn:E.
  - apply Forall_app. split; [done|]. apply Forall_singleton. unfold key_char. by rewrite E.
  - destruct (_ && _); [|done]. apply Forall_app. split; [done|]. by apply Forall_singleton.
Qed.

Lemma slug_chars raw slug :
  Forall (λ c, key_char c = true) slug → Forall (λ c, key_char c = true) (foldl slug_push slug raw).
Proof.
  revert slug. induction raw as [|c raw IH]; intros slug Hs; [done|].
  cbn [foldl]. apply IH, slug_push_chars, Hs.
Qed.

Lemma suggest_key_valid raw k : suggest_key raw = Some k → valid_key k.
Proof.
  unfold suggest_key. destruct (is_empty _) eqn:E; [done|]. intros [= <-].
  apply is_empty_false in E. split; [done|].
  set (t := take _ _). destruct (trim_end_matches_prefix_of (N.eqb 45) t) as [r Hr].
  assert (Forall (λ c, key_char c = true) t) as Ht.
  { apply Forall_take, slug_chars. constructor. }
  split.
  - rewrite Hr in Ht. by apply Forall_app in Ht as [? _].
  - pose proof (trim_end_matches_length (N.eqb 45) t). unfold t in *.
    rewrite length_take in *. unfold MAX_STEP_KEY_CHARS in *. lia.
Qed.

Lemma StepKey_lenient_valid raw k : StepKey_lenient raw = Ok k → valid_key k.
Proof.
  unfold StepKey_lenient. destruct (StepKey_parse raw) as [k'|e] eqn:E.
  - intros [= <-]. apply StepKey_parse_ok in E as [_ E]. exact E.
  - destruct e as [|  | |key [near|]| | | | | | |]; intros H; try discriminate H.
    destruct (StepKey_parse near) as [k'|] eqn:En; [|discriminate H].
    injection H as <-. apply StepKey_parse_ok in En as [_ En]. exact En.
Qed.

Definition alnum (c : N) : bool :=
  is_ascii_lowercase (to_ascii_lowercase c) || is_ascii_digit (to_ascii_lowercase c).

Lemma slug_head_kept slug raw c : head slug = Some c → head (foldl slug_push slug raw) = Some c.
Proof.
  revert slug. induction raw as [|d raw IH]; intros slug Hs; [done|]. cbn [foldl].
  apply IH. unfold slug_push. destruct slug as [|x slug]; [done|].
  destruct (is_ascii_lowercase _ || _); [done|]. by destruct (_ && _).
Qed.

(** The slug starts at the first letter or digit, and is empty when there is none. *)
Lemma slug_head raw :
  match head (foldl slug_push [] raw) with
  | Some c => c ≠ 45 ∧ ∃ d, d ∈ raw ∧ alnum d = true
  | None => ∀ d, d ∈ raw → alnum d = false
  end.
Proof.
  induction raw as [|c raw IH]; simpl; [intros d []%elem_of_nil|].
  destruct (alnum c) eqn:Hc.
  - assert (slug_push [] c = [to_ascii_lowercase c]) as -> by (unfold slug_push; unfold alnum in Hc; by rewrite Hc).
    rewrite (slug_head_kept _ _ (to_ascii_lowercase c)) by done. split.
    + intros E. unfold alnum in Hc. rewrite E in Hc. done.
    + exists c. split; [left|done].
  - assert (slug_push [] c = []) as -> by (unfold slug_push; unfold alnum in Hc; by rewrite Hc).
    destruct (head _); [destruct IH as (? & d & ? & ?); split; [done|]; exists d; split; [by right|done]|].
    intros d [->|Hd]%elem_of_cons; [done|]. by apply IH.
Qed.

Lemma suggest_key_is_Some raw :
  is_Some (suggest_key raw) ↔ ∃ c, c ∈ raw ∧ alnum c = true.
Proof.
  unfold suggest_key. pose proof (slug_head raw) as H.
  destruct (foldl slug_push [] raw) as [|c slug]; simpl in H.
  - rewrite take_nil. simpl. split; [by intros []|]. intros (c & Hc & Ha). by rewrite H in Ha.
  - destruct H as [Hc Hex]. split; [done|]. intros _.
    change (N.to_nat MAX_STEP_KEY_CHARS) with 32%nat. cbn [take].
    destruct (is_empty _) eqn:E; [|by eexists]. exfalso.
    apply is_empty_true in E. unfold trim_end_matches in E.
    apply (f_equal reverse) in E. rewrite reverse_involutive, reverse_nil, drop_while_nil in E.
    rewrite Forall_reverse, Forall_cons in E. destruct E as [E%N.eqb_eq _]. congruence.
Qed.

Lemma trim_infix raw : ∃ a b, raw = a ++ trim raw ++ b ∧
  Forall (λ c, is_whitespace c = true) a ∧ Forall (λ c, is_whitespace c = true) b.
Proof.
  destruct (drop_while_suffix is_whitespace raw) as (a & Ha & Hwa).
  destruct (trim_end_matches_prefix is_whitespace (trim_start raw)) as (b & Hb & Hwb).
  exists a, b. split_and!; [|done..]. rewrite Ha at 1. f_equal. exact Hb.
Qed.

Lemma alnum_not_blank c : alnum c = true → is_whitespace c = false.
Proof.
  unfold alnum, to_ascii_lowercase, is_ascii_uppercase, is_ascii_lowercase, is_ascii_digit.
  intros H. assert (48 ≤ c ≤ 122) as Hc.
  { destruct ((65 <=? c) && (c <=? 90)) eqn:E;
      rewrite orb_true_iff, !andb_true_iff, !N.leb_le in H; [|lia].
    apply andb_prop in E as [?%N.leb_le ?%N.leb_le]. lia. }
  unfold is_whitespace. rewrite !orb_false_iff, !andb_false_iff, !N.leb_gt, !N.eqb_neq. lia.
Qed.

Lemma alnum_trim raw :
  (∃ c, c ∈ trim raw ∧ alnum c = true) ↔ ∃ c, c ∈ raw ∧ alnum c = true.
Proof.
  destruct (trim_infix raw) as (a & b & E & Ha & Hb). rewrite Forall_forall in Ha, Hb. split.
  - intros (c & Hc & Hal). exists c. split; [|done]. rewrite E, !elem_of_app. auto.
  - intros (c & Hc & Hal). exists c. split; [|done]. rewrite E, !elem_of_app in Hc.
    apply alnum_not_blank in Hal.
    destruct Hc as [Hc|[Hc|Hc]]; [rewrite Ha in Hal by done; done|done|rewrite Hb in Hal by done; done].
Qed.

(** ** Lemmas: the methods of a step *)

Lemma same_step_refl s : same_step s s.
Proof. repeat split. Qed.
Lemma same_step_trans s t u : same_step s t → same_step t u → same_step s u.
Proof. unfold same_step. intuition congruence. Qed.

Lemma move_to_ok s next s' :
  move_to s next = Ok s' → StepState_can_become (ps_state s) next = true ∧
  s' = ps_with s next (ps_attempts s) (ps_summary s) (ps_failure s)
         (ps_started_at s) (ps_finished_at s).
Proof. unfold move_to. destruct (StepState_can_become _ _); [|done]. by intros [= <-]. Qed.

Lemma call_ok s c s' : call s c = Ok s' →
  StepState_can_become (ps_state s) (ps_state s') = true ∧ same_step s s'.
Proof.
  destruct c as [at_| |o at_|reason at_| |at_]; simpl; intros H;
    unfold PlanStep_start, preempt, record, PlanStep_fail, await_approval, skip in H;
    repeat match type of H with (if ?b then _ else _) = _ => destruct b; [discriminate H|] end;
    try (apply result_bind_ok in H as (t & [Hc ->]%move_to_ok & [= <-]));
    try (apply move_to_ok in H as [Hc ->]);
    (split; [exact Hc|repeat split]).
Qed.

Lemma call_well_run s c s' :
  well_run s → real_call c → call s c = Ok s' → well_run s'.
Proof.
  intros [Ha Hs Hf Hfl Hfin] Hc. destruct c as [at_| |o at_|reason at_| |at_]; simpl; intros H.
  - apply result_bind_ok in H as (t & [_ ->]%move_to_ok & [= <-]). constructor; simpl; try done.
    + unfold u32_sat_add. lia.
    + unfold u32_sat_add, u32_max in *. split_and!; [done|by eexists|lia].
  - apply result_bind_ok in H as (t & [_ ->]%move_to_ok & [= <-]). constructor; simpl; try done. lia.
  - unfold record in H. destruct (negb _); [done|].
    apply result_bind_ok in H as (t & [_ ->]%move_to_ok & [= <-]).
    destruct Hc as [[Hsum Hlen] _ Hfo _ _]. constructor; simpl; try done.
    + unfold non_blank; simpl. rewrite trimmed_trim by done.
      destruct (is_empty (so_summary o)) eqn:E; [done|]. apply is_empty_false in E. by apply capped_id.
    + destruct (so_outcome o); [done|..]; (destruct (so_failure o) as [f|]; [|reflexivity]);
        destruct (Hfo f eq_refl) as (?&?&?); by apply capped_id.
    + by destruct (so_outcome o).
    + destruct (so_outcome o); simpl; by eauto.
  - apply result_bind_ok in H as (t & [_ ->]%move_to_ok & [= <-]). constructor; simpl; try by eauto.
    destruct (capped (Some reason)) as [r|] eqn:E; simpl; [|reflexivity].
    rewrite <-E. apply capped_idemp.
  - unfold await_approval in H. destruct (negb _); [done|]. apply move_to_ok in H as [_ ->].
    by constructor.
  - apply result_bind_ok in H as (t & [_ ->]%move_to_ok & [= <-]). constructor; simpl; try by eauto. 
Qed.

Lemma after_call_same s c : same_step s (after_call s c).
Proof.
  unfold after_call. destruct (call s c) eqn:E; [|apply same_step_refl]. apply call_ok in E as [_ E]. exact E.
Qed.

Lemma after_calls_same s cs : same_step s (after_calls s cs).
Proof.
  revert s. induction cs as [|c cs IH]; intros s; [apply same_step_refl|].
  eapply same_step_trans; [apply after_call_same|apply IH].
Qed.

Lemma after_call_well_run s c : well_run s → real_call c → well_run (after_call s c).
Proof. unfold after_call. destruct (call s c) eqn:E; [|done]. intros. by eapply call_well_run. Qed.

Lemma after_calls_well_run s cs : well_run s → Forall real_call cs → well_run (after_calls s cs).
Proof.
  intros Hs Hcs. revert s Hs. induction Hcs as [|c cs Hc Hcs IH]; intros s Hs; [done|].
  apply IH. by apply after_call_well_run.
Qed.

Lemma settled_stays s cs :
  ps_state s = StepState.Completed ∨ ps_state s = StepState.Skipped → after_calls s cs = s.
Proof.
  intros Hs. induction cs as [|c cs IH]; [done|]. unfold after_calls. simpl.
  assert (after_call s c = s) as ->; [|done]. unfold after_call.
  destruct (call s c) as [s'|] eqn:E; [|done]. apply call_ok in E as [E _].
  by destruct Hs as [Hs|Hs]; rewrite Hs in E.
Qed.

Lemma well_planned_same s s' : same_step s s' → well_planned s → well_planned s'.
Proof.
  intros (E1&E2&E3&E4&E5&E6&E7&E8&E9) []. constructor; rewrite ?E2, ?E4, ?E5, ?E6, ?E7, ?E8; assumption.
Qed.

Lemma traverse_valid ks : Forall valid_key ks → traverse StepKey_parse ks = Ok ks.
Proof.
  intros Hks. apply traverse_ok. induction Hks as [|k ks Hk Hks IH]; constructor; [|done].
  by apply StepKey_parse_valid.
Qed.

Lemma from_parts_of s :
  well_planned s → well_run s → (∀ a, ps_agent s = Some a → clean_agent a) →
  PlanStep_from_parts (parts_of_step s) = Ok s.
Proof.
  intros [Hk [Hr Hrn] [Hi Hin] Hinp Hd Hacc] [_ Hs Hf _ _] Ha. unfold PlanStep_from_parts. simpl.
  rewrite StepKey_parse_valid by done. simpl.
  rewrite !trimmed_trim by done. apply is_empty_false in Hrn as ->, Hin as ->.
  rewrite traverse_valid by done. simpl. rewrite Hinp, Hacc, Hs, Hf.
  destruct s as [? ? ? ? ? ? ? ? ? ? ? ? ? ? [a|]]; simpl in *; [|done].
  by rewrite (Ha a eq_refl).
Qed.

Lemma attempt_delta_ok s c :
  ps_attempts s < u32_max → well_run s →
  Z.of_N (ps_attempts (after_call s c)) = (Z.of_N (ps_attempts s) + attempt_delta s c)%Z.
Proof.
  intros Hlt Hw. unfold after_call, attempt_delta.
  destruct (call s c) as [s'|] eqn:E; [|destruct c; rewrite ?E; cbn [is_ok]; lia].
  destruct c as [at_| |o at_|reason at_| |at_]; rewrite ?E; simpl in E |- *.
  - apply result_bind_ok in E as (t & [_ ->]%move_to_ok & [= <-]). simpl. unfold u32_sat_add. lia.
  - apply result_bind_ok in E as (t & [Hc ->]%move_to_ok & [= <-]). simpl.
    destruct (ps_state s) eqn:Es; try done. destruct Hw as [_ _ _ _ Hfin]. rewrite Es in Hfin. lia.
  - unfold record in E. destruct (negb _); [done|].
    apply result_bind_ok in E as (t & [_ ->]%move_to_ok & [= <-]). simpl. lia.
  - apply result_bind_ok in E as (t & [_ ->]%move_to_ok & [= <-]). simpl. lia.
  - unfold await_approval in E. destruct (negb _); [done|]. apply move_to_ok in E as [_ ->]. simpl. lia.
  - apply result_bind_ok in E as (t & [_ ->]%move_to_ok & [= <-]). simpl. lia.
Qed.

Lemma attempts_deltas s cs :
  well_run s → Forall real_call cs → (Z.of_N (ps_attempts s) + Z.of_nat (length cs) < Z.of_N u32_max)%Z →
  Z.of_N (ps_attempts (after_calls s cs)) = (Z.of_N (ps_attempts s) + attempt_deltas s cs)%Z.
Proof.
  intros Hw Hcs. revert s Hw. induction Hcs as [|c cs Hc Hcs IH]; intros s Hw Hlt; cbn [length attempt_deltas] in *;
    [unfold after_calls; simpl; lia|].
  pose proof (attempt_delta_ok s c ltac:(lia) Hw) as Hd.
  assert (attempt_delta s c ≤ 1)%Z by (unfold attempt_delta; destruct c; repeat case_match; lia).
  change (after_calls s (c :: cs)) with (after_calls (after_call s c) cs).
  rewrite IH; [lia|by apply after_call_well_run|lia].
Qed.

(** ** Properties *)

(** A plan's key is taken exactly when it is already valid or holds some letter or digit; the
    key taken is always in the alphabet and at most 32 long, a valid key is taken as it is, and
    the key a refusal suggests is itself one that parses. *)
Theorem step_key_lenient_spec raw :
  (∀ k, StepKey_lenient raw = Ok k → valid_key k ∧ StepKey_parse k = Ok k) ∧
  (valid_key (trim raw) → StepKey_lenient raw = Ok (trim raw)) ∧
  (is_ok (StepKey_lenient raw) = true ↔
     valid_key (trim raw) ∨ ∃ c, c ∈ raw ∧ alnum c = true) ∧
  (∀ key near, StepKey_parse raw = Err (InvalidKey key (Some near)) → StepKey_parse near = Ok near).
Proof.
  split; [|split; [|split]].
  - intros k H%StepKey_lenient_valid. split; [exact H|by apply StepKey_parse_valid].
  - intros Hv. unfold StepKey_lenient. by rewrite (proj2 (StepKey_parse_ok raw (trim raw))).
  - rewrite <-alnum_trim, <-suggest_key_is_Some. unfold StepKey_lenient.
    destruct (StepKey_parse raw) as [k|e] eqn:E; simpl.
    + apply StepKey_parse_ok in E as [-> E]. split; [intros _; left; exact E|done].
    + assert (¬ valid_key (trim raw)) as Hnv.
      { intros Hv. by rewrite (proj2 (StepKey_parse_ok raw (trim raw))) in E. }
      unfold StepKey_parse in E. destruct (_ && _ && _); [done|]. injection E as <-.
      destruct (suggest_key (trim raw)) as [near|] eqn:En.
      * rewrite StepKey_parse_valid by (by eapply suggest_key_valid). simpl.
        split; [intros _; right; by eexists|done].
      * simpl. split; [done|]. by intros [?|[? ?]].
  - intros key near E. unfold StepKey_parse in E. destruct (_ && _ && _); [done|].
    injection E as _ E. apply suggest_key_valid in E. by apply StepKey_parse_valid.
Qed.

(** Whatever calls a step receives, in whatever order and however many are refused: its plan
    (key, order, role, instructions, inputs, waits) never changes; its texts stay capped, a failed
    step always says why, a running one always has a start, no end and at least one attempt; a
    completed or skipped step is never changed again; and [attempts] is the starts taken less the
    preemptions, which give theirs back. *)
Theorem step_lifecycle_invariant s cs :
  well_run s → Forall real_call cs →
  same_step s (after_calls s cs) ∧ well_run (after_calls s cs) ∧
  (ps_state s = StepState.Completed ∨ ps_state s = StepState.Skipped → after_calls s cs = s) ∧
  ((Z.of_N (ps_attempts s) + Z.of_nat (length cs) < Z.of_N u32_max)%Z →
     Z.of_N (ps_attempts (after_calls s cs)) = (Z.of_N (ps_attempts s) + attempt_deltas s cs)%Z).
Proof.
  intros Hw Hcs. split; [apply after_calls_same|]. split; [by apply after_calls_well_run|].
  split; [apply settled_stays|by apply attempts_deltas].
Qed.

Definition flights_step : PlanStep :=
  {| ps_task_id := lit "t1"; ps_key := lit "find-flights"; ps_ordinal := 1;
     ps_role := lit "research"; ps_instructions := lit "Find flights"; ps_inputs := [];
     ps_depends_on := [lit "dates"]; ps_acceptance := None; ps_state := StepState.Pending;
     ps_attempts := 0; ps_summary := None; ps_failure := None; ps_started_at := None;
     ps_finished_at := None; ps_agent := None |}.

Definition flights_calls : list StepCall :=
  [CallStart 10; CallPreempt; CallStart 20; CallFail [] 30; CallStart 40;
   CallRecord (StepOutcome_new OutcomeKind.Completed (lit "two flights") [] None) 50; CallSkip 60].

Lemma flights_well_run : well_run flights_step.
Proof. by constructor. Qed.

Lemma flights_calls_real : Forall real_call flights_calls.
Proof.
  unfold flights_calls. repeat apply Forall_cons_2; try exact I; [|apply Forall_nil; exact I].
  apply (StepOutcome_new_normal OutcomeKind.Completed (lit "two flights") [] None
           HandBackAsks_default); done.
Qed.

Lemma flights_well_planned : well_planned flights_step.
Proof.
  assert (∀ k, forallb key_char k = true → k ≠ [] → (length k ≤ 32)%nat → valid_key k) as Hk.
  { intros k H Hne Hl. split; [done|]. split; [|done]. rewrite forallb_forall in H.
    apply Forall_forall. intros c Hc%list_elem_of_In. by apply H. }
  constructor; simpl; [apply Hk; [done|done|simpl; lia]| | |done| |done].
  - split; [|done]. by split; intros c [= <-].
  - split; [|done]. by split; intros c [= <-].
  - apply Forall_singleton, Hk; [done|done|simpl; lia].
Qed.

Lemma step_lifecycle_invariant_witness :
  same_step flights_step (after_calls flights_step flights_calls) ∧
  well_run (after_calls flights_step flights_calls) ∧
  ps_attempts (after_calls flights_step flights_calls) = 2 ∧
  ps_state (after_calls flights_step flights_calls) = StepState.Completed.
Proof.
  destruct (step_lifecycle_invariant flights_step flights_calls flights_well_run
              flights_calls_real) as (H1 & H2 & _ & _).
  split; [exact H1|]. split; [exact H2|]. split; vm_compute; reflexivity.
Defined.

(** A planned step reads back from its stored columns as itself after any calls, so the store
    can always rebuild what the methods produced. *)
Theorem step_row_roundtrip s cs :
  well_planned s → well_run s → (∀ a, ps_agent s = Some a → clean_agent a) →
  Forall real_call cs →
  PlanStep_from_parts (parts_of_step (after_calls s cs)) = Ok (after_calls s cs).
Proof.
  intros Hp Hw Ha Hcs. pose proof (after_calls_same s cs) as Hsame. apply from_parts_of.
  - by apply (well_planned_same s).
  - by apply after_calls_well_run.
  - destruct Hsame as (_&_&_&_&_&_&_&_&->). exact Ha.
Qed.

Lemma step_row_roundtrip_witness :
  PlanStep_from_parts (parts_of_step (after_calls flights_step flights_calls))
  = Ok (after_calls flights_step flights_calls).
Proof.
  apply (step_row_roundtrip flights_step flights_calls);
    [apply flights_well_planned|apply flights_well_run|intros a Ha; discriminate Ha|apply flights_calls_real].
Defined.
