(* ===== verification/PlanCycle.v ===== *)
(** * PlanCycle: the search for a circle of waits

    [crates/pond-core/src/shared/domain/long_task.rs], [find_cycle] and [visit]: a depth-first
    search that marks steps. The marks and the path are passed as state; [None] of [visit]
    means the fuel ran out or an index was out of range (a panic), and [find_cycle_total]
    below proves that neither happens with the fuel [find_cycle] gives: one more than the
    number of steps, since every nested call has marked one more step. *)
From S2P Require Import Prelude Text Scope LongTask HandBack Step.

Inductive Mark : Type := Unvisited | OnPath | Done.

#[export] Instance Mark_eq_dec : EqDecision Mark.
Proof. solve_decision. Defined.

(** [marks] and [path], which every call of one search shares. *)
Definition VisitState : Type := list Mark * list nat.
(** The cycle found, if any, and the state left. *)
Definition VisitResult : Type := option (option (list text) * VisitState).

(** The loop of [visit] over the waits of one step; [visit] is the recursive call. *)
Fixpoint visit_deps (visit : nat → VisitState → VisitResult) (index : gmap text nat)
    (deps : list text) (st : VisitState) : VisitResult :=
  match deps with
  | [] => Some (None, st)
  | dep :: deps =>
      match index !! dep with
      | None => visit_deps visit index deps st
      | Some next =>
          match visit next st with
          | Some (None, st) => visit_deps visit index deps st
          | found_or_stuck => found_or_stuck
          end
      end
  end.

Fixpoint visit (fuel : nat) (steps : list PlanStep) (index : gmap text nat)
    (at_ : nat) (st : VisitState) : VisitResult :=
  match fuel with
  | O => None
  | S fuel =>
      let '(marks, path) := st in
      mark ← marks !! at_;
      step ← steps !! at_;
      match mark with
      | Done => Some (None, st)
      | OnPath =>
          match position (Nat.eqb at_) path with
          | None => Some (None, st)
          | Some from =>
              let cycle := omap (λ i, ps_key <$> steps !! i) (drop from path) in
              Some (Some (cycle ++ [ps_key step]), st)
          end
      | Unvisited =>
          match visit_deps (visit fuel steps index) index (ps_depends_on step)
                  (<[at_ := OnPath]> marks, path ++ [at_]) with
          | Some (None, (marks, path)) =>
              Some (None, (<[at_ := Done]> marks, removelast path))
          | found_or_stuck => found_or_stuck
          end
      end
  end.

(** The keys' places; of two steps with one key the later is meant. *)
Definition key_index (steps : list PlanStep) : gmap text nat :=
  collect_map (imap (λ i s, (ps_key s, i)) steps).

(** [(0..steps.len()).find_map(visit)]. *)
Fixpoint visit_all (steps : list PlanStep) (index : gmap text nat)
    (starts : list nat) (st : VisitState) : option (option (list text)) :=
  match starts with
  | [] => Some None
  | start :: starts =>
      match visit (S (length steps)) steps index start st with
      | None => None
      | Some (Some cycle, _) => Some (Some cycle)
      | Some (None, st) => visit_all steps index starts st
      end
  end.

Definition search_cycle (steps : list PlanStep) : option (option (list text)) :=
  visit_all steps (key_index steps) (seq 0 (length steps))
    (replicate (length steps) Unvisited, []).

Definition find_cycle (steps : list PlanStep) : option (list text) :=
  default None (search_cycle steps).

(** ** The graph of waits *)

(** Step [i] waits for the step at [j]. *)
Definition waits (steps : list PlanStep) (i j : nat) : Prop :=
  ∃ s dep, steps !! i = Some s ∧ dep ∈ ps_depends_on s ∧ key_index steps !! dep = Some j.

(** No step waits, directly or through others, for itself. *)
Definition acyclic (steps : list PlanStep) : Prop := ∀ i, Acc (λ j i, waits steps i j) i.

(** A walk along waits. *)
Fixpoint walk (steps : list PlanStep) (js : list nat) : Prop :=
  match js with
  | i :: rest => match rest with j :: _ => waits steps i j | [] => True end ∧ walk steps rest
  | [] => True
  end.

(** [j] is the place of a step with key [k]. *)
Definition place_of_key (steps : list PlanStep) (j : nat) (k : text) : Prop :=
  ∃ s, steps !! j = Some s ∧ ps_key s = k.

(** A real circle: the keys along a walk from a step round to itself. *)
Definition is_cycle (steps : list PlanStep) (keys : list text) : Prop :=
  ∃ i js, walk steps (i :: js ++ [i]) ∧ Forall2 (place_of_key steps) (i :: js ++ [i]) keys.

(** ** Lemmas *)

Lemma walk_app steps a b :
  walk steps (a ++ b) ↔ walk steps a ∧ walk steps b ∧
    match last a, head b with Some i, Some j => waits steps i j | _, _ => True end.
Proof.
  induction a as [|i a IH]; [simpl; tauto|].
  destruct a as [|j a].
  - simpl. destruct b; simpl; tauto.
  - change (last (i :: j :: a)) with (last (j :: a)). simpl app in *. cbn [walk] in *. tauto.
Qed.

Lemma key_index_lt steps k j : key_index steps !! k = Some j → j < length steps.
Proof.
  intros H%collect_map_Some. apply list_elem_of_lookup in H as [i Hi].
  rewrite list_lookup_imap in Hi. apply fmap_Some in Hi as (s & Hs & [= _ ->]).
  by eapply lookup_lt_Some.
Qed.

Lemma waits_lt steps i j : waits steps i j → i < length steps ∧ j < length steps.
Proof. intros (s & dep & Hs & _ & Hj). split; [by eapply lookup_lt_Some|by eapply key_index_lt]. Qed.

(** How many steps are still unmarked. *)
Fixpoint unvisited (marks : list Mark) : nat :=
  match marks with
  | [] => 0
  | m :: marks => (if decide (m = Unvisited) then 1 else 0) + unvisited marks
  end.

Lemma unvisited_insert marks i m m' :
  marks !! i = Some m →
  unvisited (<[i := m']> marks) + (if decide (m = Unvisited) then 1 else 0)
  = unvisited marks + (if decide (m' = Unvisited) then 1 else 0).
Proof.
  revert i. induction marks as [|x marks IH]; intros [|i] H; simpl in *; try done.
  - injection H as ->. lia.
  - specialize (IH i H). lia.
Qed.

Lemma unvisited_le marks : unvisited marks ≤ length marks.
Proof. induction marks as [|m marks IH]; simpl; [lia|]. destruct (decide _); lia. Qed.

Lemma acc_no_cycle steps i js :
  Acc (λ j i, waits steps i j) i → ¬ walk steps (i :: js ++ [i]).
Proof.
  intros Hacc. revert js. induction Hacc as [i _ IH]. intros [|j js] Hw.
  - simpl in Hw. destruct Hw as [Hii _]. apply (IH i Hii []). simpl. tauto.
  - destruct Hw as [Hij Hw]. apply (IH j Hij (js ++ [i])).
    change (walk steps (((j :: js) ++ [i]) ++ [j])). rewrite walk_app, last_snoc.
    split; [exact Hw|]. split; [simpl; tauto|exact Hij].
Qed.

Section search.
Context (steps : list PlanStep).
Local Abbreviation index := (key_index steps).
Local Abbreviation safe := (Acc (λ j i, waits steps i j)).

Record inv (marks : list Mark) (path : list nat) : Prop := {
  inv_length : length marks = length steps;
  inv_path : ∀ i, marks !! i = Some OnPath ↔ i ∈ path;
  inv_nodup : NoDup path;
  inv_walk : walk steps path;
  inv_done : ∀ i, marks !! i = Some Done → safe i;
}.

(** What a call promises: it leaves the path, marks no fewer steps, and the step it looked at
    is on no circle; or it returns a real one. *)
Definition explored (marks : list Mark) (path : list nat) (post : Prop) (r : VisitResult) : Prop :=
  match r with
  | None => False
  | Some (Some cycle, _) => is_cycle steps cycle
  | Some (None, (marks', path')) =>
      path' = path ∧ inv marks' path ∧ unvisited marks' ≤ unvisited marks ∧ post
  end.

(** The step [at_] may be entered from the end of the path. *)
Definition enters (path : list nat) (at_ : nat) : Prop :=
  match last path with Some p => waits steps p at_ | None => True end.

Lemma inv_enter marks path at_ :
  inv marks path → marks !! at_ = Some Unvisited → enters path at_ →
  inv (<[at_ := OnPath]> marks) (path ++ [at_]).
Proof.
  intros [Hl Hp Hn Hw Hd] Hm He. assert (at_ < length marks) by (by eapply lookup_lt_Some).
  constructor.
  - by rewrite length_insert.
  - intros i. rewrite elem_of_app, elem_of_one, list_lookup_insert.
    case_decide as E; [destruct E as [<- _]; split; auto|].
    rewrite Hp. split; [auto|]. intros [?|?]; [done|]. destruct E. auto.
  - apply NoDup_app. split; [done|]. split; [|apply NoDup_singleton].
    intros i Hi%Hp E%elem_of_one. congruence.
  - apply walk_app. split; [done|]. split; [simpl; tauto|exact He].
  - intros i. rewrite list_lookup_insert. case_decide as E; [done|]. apply Hd.
Qed.

Lemma inv_leave marks path at_ :
  inv marks (path ++ [at_]) → safe at_ → inv (<[at_ := Done]> marks) path.
Proof.
  intros [Hl Hp Hn Hw Hd] Hs. apply NoDup_app in Hn as (Hn & Hdis & _).
  apply walk_app in Hw as (Hw & _ & _).
  assert (marks !! at_ = Some OnPath) as Hm by (apply Hp; set_solver).
  assert (at_ < length marks) by (by eapply lookup_lt_Some). constructor.
  - by rewrite length_insert.
  - intros i. rewrite list_lookup_insert. case_decide as E.
    + destruct E as [<- _]. split; [done|]. intros Hi. exfalso. apply (Hdis _ Hi). left.
    + rewrite Hp, elem_of_app, elem_of_one. split; [|auto].
      intros [?|?]; [done|]. destruct E. auto.
  - done.
  - done.
  - intros i. rewrite list_lookup_insert. case_decide as E; [by destruct E as [<- _]|apply Hd].
Qed.

Lemma cycle_on_path marks path at_ step from :
  inv marks path → steps !! at_ = Some step → enters path at_ →
  position (Nat.eqb at_) path = Some from →
  is_cycle steps (omap (λ i, ps_key <$> steps !! i) (drop from path) ++ [ps_key step]).
Proof.
  intros [Hl Hp Hn Hw Hd] Hs He Hf. apply position_Some in Hf as [(i & Hi & Hat%Nat.eqb_eq) _].
  subst i. rewrite (drop_S _ _ _ Hi). exists at_, (drop (S from) path).
  assert (path = take from path ++ at_ :: drop (S from) path) as Ep
    by by rewrite <-(drop_S _ _ _ Hi), take_drop.
  rewrite app_comm_cons. split.
  - apply walk_app. split; [rewrite Ep in Hw; by apply walk_app in Hw as (_ & ? & _)|].
    split; [simpl; tauto|]. unfold enters in He. rewrite Ep, last_app_cons in He.
    simpl head. exact He.
  - apply Forall2_app; [|constructor; [by exists step|constructor]].
    assert (∀ j, j ∈ at_ :: drop (S from) path → j < length steps) as Hlt.
    { intros j Hj. rewrite <-Hl. eapply lookup_lt_Some, Hp. rewrite Ep. set_solver. }
    revert Hlt. generalize (at_ :: drop (S from) path). intros l. clear.
    induction l as [|j l IH]; intros Hlt; simpl; [constructor|].
    destruct (lookup_lt_is_Some_2 steps j) as [s Hs]; [apply Hlt; left|].
    rewrite Hs. simpl. constructor; [by exists s|]. apply IH. intros k Hk. apply Hlt. by right.
Qed.

Lemma visit_deps_explored v at_ fuel deps marks path :
  (∀ next marks, inv marks (path ++ [at_]) → unvisited marks < fuel → waits steps at_ next →
     explored marks (path ++ [at_]) (safe next) (v next (marks, path ++ [at_]))) →
  (∀ dep j, dep ∈ deps → index !! dep = Some j → waits steps at_ j) →
  inv marks (path ++ [at_]) → unvisited marks < fuel →
  explored marks (path ++ [at_]) (∀ dep j, dep ∈ deps → index !! dep = Some j → safe j)
    (visit_deps v index deps (marks, path ++ [at_])).
Proof.
  intros Hv. revert marks. induction deps as [|dep deps IH]; intros marks Hdeps Hinv Hf; simpl.
  { split; [done|]. split; [done|]. split; [lia|]. by intros dep j ?%elem_of_nil. }
  destruct (index !! dep) as [next|] eqn:Ed.
  - specialize (Hv next marks Hinv Hf (Hdeps dep next ltac:(left) Ed)).
    destruct (v next (marks, path ++ [at_])) as [[[c|] [marks' path']]|]; [exact Hv| |destruct Hv].
    destruct Hv as (-> & Hinv' & Hle & Hsafe).
    specialize (IH marks' ltac:(intros d j ?; apply Hdeps; by right) Hinv' ltac:(lia)).
    destruct (visit_deps v index deps _) as [[[c|] [marks'' path'']]|]; [exact IH| |destruct IH].
    destruct IH as (-> & Hinv'' & Hle' & Hall).
    split; [reflexivity|]. split; [exact Hinv''|]. split; [lia|].
    intros d j [->|Hd]%elem_of_cons Hj; [congruence|by eapply Hall].
  - specialize (IH marks ltac:(intros d j ?; apply Hdeps; by right) Hinv Hf).
    destruct (visit_deps v index deps _) as [[[c|] [marks'' path'']]|]; [exact IH| |destruct IH].
    destruct IH as (-> & Hinv'' & Hle' & Hall).
    split; [reflexivity|]. split; [exact Hinv''|]. split; [lia|].
    intros d j [->|Hd]%elem_of_cons Hj; [congruence|by eapply Hall].
Qed.

Lemma visit_explored fuel at_ marks path :
  inv marks path → unvisited marks < fuel → at_ < length steps → enters path at_ →
  explored marks path (safe at_) (visit fuel steps index at_ (marks, path)).
Proof.
  revert at_ marks path. induction fuel as [|fuel IH]; intros at_ marks path Hinv Hf Hat He; [lia|].
  cbn [visit].
  destruct (lookup_lt_is_Some_2 steps at_ Hat) as [step Hs].
  destruct (lookup_lt_is_Some_2 marks at_) as [m Hm]; [rewrite (inv_length _ _ Hinv); done|].
  rewrite Hm, Hs. cbn [mbind option_bind]. destruct m.
  - pose proof (inv_enter _ _ _ Hinv Hm He) as Hinv'.
    pose proof (unvisited_insert _ _ _ OnPath Hm) as Hcount. simpl in Hcount.
    assert (∀ dep j, dep ∈ ps_depends_on step → index !! dep = Some j → waits steps at_ j) as Hdeps.
    { intros dep j Hdep Hj. by exists step, dep. }
    pose proof (visit_deps_explored (visit fuel steps index) at_ fuel (ps_depends_on step) _ path
      ltac:(intros next marks' Hi Hu Hn; apply IH; [done|done|by apply waits_lt in Hn as [_ ?]|];
            unfold enters; by rewrite last_snoc) Hdeps Hinv' ltac:(lia)) as Hex.
    destruct (visit_deps _ _ _ _) as [[[c|] [marks' path']]|]; [exact Hex| |destruct Hex].
    destruct Hex as (-> & Hinv'' & Hle & Hall).
    assert (safe at_) as Hsafe.
    { constructor. intros j (s & dep & Hs' & Hdep & Hj). rewrite Hs in Hs'. injection Hs' as <-.
      by eapply Hall. }
    assert (marks' !! at_ = Some OnPath) as Hm' by (apply (inv_path _ _ Hinv''); set_solver).
    pose proof (unvisited_insert _ _ _ Done Hm') as Hcount'. simpl in Hcount'.
    unfold explored. rewrite removelast_last.
    split; [reflexivity|]. split; [by apply inv_leave|]. split; [lia|exact Hsafe].
  - assert (at_ ∈ path) as Hin by (by apply (inv_path _ _ Hinv)).
    destruct (position (Nat.eqb at_) path) as [from|] eqn:Ep.
    + by eapply cycle_on_path.
    + rewrite position_None in Ep. specialize (Ep at_ Hin). by rewrite Nat.eqb_refl in Ep.
  - split; [reflexivity|]. split; [exact Hinv|]. split; [lia|]. by apply (inv_done _ _ Hinv).
Qed.

Lemma visit_all_explored starts marks :
  (∀ i, i ∈ starts → i < length steps) → inv marks [] →
  match visit_all steps index starts (marks, []) with
  | None => False
  | Some (Some cycle) => is_cycle steps cycle
  | Some None => ∀ i, i ∈ starts → safe i
  end.
Proof.
  revert marks. induction starts as [|start starts IH]; intros marks Hlt Hinv.
  { simpl. by intros i []%elem_of_nil. }
  cbn [visit_all].
  pose proof (visit_explored (S (length steps)) start marks [] Hinv
    ltac:(pose proof (unvisited_le marks); rewrite (inv_length _ _ Hinv) in *; lia)
    ltac:(apply Hlt; left) I) as Hex.
  destruct (visit _ _ _ _ _) as [[[c|] [marks' path']]|]; [exact Hex| |destruct Hex].
  destruct Hex as (-> & Hinv' & _ & Hs).
  specialize (IH marks' ltac:(intros i ?; apply Hlt; by right) Hinv').
  destruct (visit_all _ _ _ _) as [[c|]|]; [exact IH| |exact IH].
  intros i [->|Hi]%elem_of_cons; [done|by apply IH].
Qed.

Lemma inv_start : inv (replicate (length steps) Unvisited) [].
Proof.
  constructor; [by rewrite length_replicate| |constructor|simpl; tauto|].
  - intros i. rewrite lookup_replicate. split; [by intros [? _]|by intros ?%elem_of_nil].
  - intros i Hi%lookup_replicate. by destruct Hi.
Qed.

Lemma search_cycle_spec :
  match search_cycle steps with
  | None => False
  | Some (Some cycle) => is_cycle steps cycle
  | Some None => acyclic steps
  end.
Proof.
  pose proof (visit_all_explored (seq 0 (length steps)) _
    ltac:(intros i Hi%elem_of_seq; lia) inv_start) as H.
  unfold search_cycle. destruct (visit_all _ _ _ _) as [[c|]|]; [exact H| |exact H].
  intros i. destruct (decide (i < length steps)) as [Hi|Hi].
  - apply H, elem_of_seq. lia.
  - constructor. intros j [Hlt _]%waits_lt. lia.
Qed.
End search.

Lemma find_cycle_Some steps c : find_cycle steps = Some c → is_cycle steps c.
Proof.
  unfold find_cycle. pose proof (search_cycle_spec steps) as H.
  destruct (search_cycle steps) as [[c'|]|]; [|done..]. by intros [= <-].
Qed.

Lemma find_cycle_None steps : find_cycle steps = None ↔ acyclic steps.
Proof.
  unfold find_cycle. pose proof (search_cycle_spec steps) as H.
  destruct (search_cycle steps) as [[c|]|]; simpl; [|done|done].
  split; [done|]. intros Hac. destruct H as (i & js & Hw & _).
  by destruct (acc_no_cycle steps i js (Hac i)).
Qed.

(** ** Properties *)

(** C35: the cycle search always ends (it never runs out of fuel and never indexes out of range)
    and is right both ways: a circle it names is a real walk along waits from a step round to
    itself, and it names none exactly when the waits are well-founded, that is, when every step
    can be reached by running the steps it waits for first. *)
Theorem find_cycle_correct steps :
  is_Some (search_cycle steps) ∧
  (∀ c, find_cycle steps = Some c → is_cycle steps c) ∧
  (find_cycle steps = None ↔ acyclic steps).
Proof.
  split; [|split; [apply find_cycle_Some|apply find_cycle_None]].
  pose proof (search_cycle_spec steps). by destruct (search_cycle steps).
Qed.
