(* ===== verification/Plan.v ===== *)
(** * Plan: checking a plan, and what may run next

    [crates/pond-core/src/shared/domain/long_task.rs]: [ValidatedPlan] with
    [check_current], [validate_plan], [validate_appended_step], [next_ready_step] and
    [blocked_steps]. Each [for] loop with an early return is a [Fixpoint] over the list it
    walks, its mutable locals passed as accumulators. *)
From S2P Require Import Prelude Text Scope LongTask HandBack Step PlanCycle.
Local Open Scope N_scope.

(** ** Data *)

Record RelaxedWait := { rw_step : text; rw_missing : text }.

Record ValidatedPlan := {
  vp_task_id : text;
  vp_steps : list PlanStep;
  vp_kept : list StepKey;
  vp_relaxed : list RelaxedWait;
}.

Record StalePlan := { sp_task_id : text; sp_step : text; sp_now : option StepState }.

(** [HashMap<&str, StepState>] of a list of steps. *)
Definition step_states (steps : list PlanStep) : gmap text StepState :=
  collect_map ((λ s, (ps_key s, ps_state s)) <$> steps).

(** ** [ValidatedPlan::check_current] *)

Fixpoint check_kept (task_id : text) (stored : gmap text StepState) (kept : list StepKey) :
    result unit StalePlan :=
  match kept with
  | [] => Ok tt
  | key :: kept =>
      let stale now := Err {| sp_task_id := task_id; sp_step := key; sp_now := now |} in
      match stored !! key with
      | Some state => if survives_replan state then check_kept task_id stored kept else stale (Some state)
      | None => stale None
      end
  end.

Fixpoint check_new (task_id : text) (stored : gmap text StepState) (steps : list PlanStep) :
    result unit StalePlan :=
  match steps with
  | [] => Ok tt
  | step :: steps =>
      match stored !! ps_key step with
      | Some state =>
          if survives_replan state
          then Err {| sp_task_id := task_id; sp_step := ps_key step; sp_now := Some state |}
          else check_new task_id stored steps
      | None => check_new task_id stored steps
      end
  end.

Definition check_current (p : ValidatedPlan) (stored : list (text * StepState)) :
    result unit StalePlan :=
  let stored := collect_map stored in
  let? _ := check_kept (vp_task_id p) stored (vp_kept p) in
  check_new (vp_task_id p) stored (vp_steps p).

(** ** [validate_plan] *)

(** The keys of the drafts, in order; [keys] is what was taken so far. *)
Fixpoint plan_keys (kept_states : gmap text StepState) (drafts : list StepDraft)
    (keys : list StepKey) : result (list StepKey) PlanError :=
  match drafts with
  | [] => Ok keys
  | draft :: drafts =>
      let? key := StepKey_lenient (sd_key draft) in
      match kept_states !! key with
      | Some state => Err (RewritesSettledStep key state)
      | None =>
          if bool_decide (key ∈ keys) then Err (DuplicateKey key)
          else plan_keys kept_states drafts (keys ++ [key])
      end
  end.

(** [if !depends_on.contains(k) { depends_on.push(k) }]. *)
Definition push_new (depends_on : list StepKey) (k : StepKey) : list StepKey :=
  if bool_decide (k ∈ depends_on) then depends_on else depends_on ++ [k].

(** The waits of one draft: [earlier] is [keys[..offset]]. *)
Fixpoint draft_waits (known : gmap text StepKey) (earlier : list StepKey) (step : StepKey)
    (raws : list text) (depends_on : list StepKey) (relaxed : list RelaxedWait) :
    list StepKey * list RelaxedWait :=
  match raws with
  | [] => (depends_on, relaxed)
  | raw :: raws =>
      let raw := trim raw in
      if is_empty raw then draft_waits known earlier step raws depends_on relaxed else
      let near := suggest_key raw in
      match (match known !! raw with
             | Some dep => Some dep
             | None => near ≫= λ near, known !! near
             end) with
      | Some dep => draft_waits known earlier step raws (push_new depends_on dep) relaxed
      | None =>
          draft_waits known earlier step raws (foldl push_new depends_on earlier)
            (relaxed ++ [{| rw_step := step; rw_missing := raw |}])
      end
  end.

Definition made_role (agent : option StepAgent) (draft : StepDraft) : text :=
  match agent with
  | Some agent => NEW_AGENT_PREFIX ++ sa_name agent
  | None => trim (sd_role draft)
  end.

(** The loop that makes the steps; [offset] counts the drafts done. *)
Fixpoint plan_steps (task_id : text) (known : gmap text StepKey) (keys : list StepKey)
    (first_ordinal : N) (offset : nat) (drafts : list (StepDraft * StepKey))
    (steps : list PlanStep) (relaxed : list RelaxedWait) :
    result (list PlanStep * list RelaxedWait) PlanError :=
  match drafts with
  | [] => Ok (steps, relaxed)
  | (draft, key) :: drafts =>
      let agent := sd_new_agent draft ≫= StepAgent_cleaned in
      let role := made_role agent draft in
      if is_empty role then Err (MissingRole key) else
      let instructions := trim (sd_instructions draft) in
      if is_empty instructions then Err (MissingInstructions key) else
      let '(depends_on, relaxed) :=
        draft_waits known (take offset keys) key (sd_depends_on draft) [] relaxed in
      let step :=
        {| ps_task_id := task_id; ps_key := key;
           ps_ordinal := u32_sat_add first_ordinal (N.min u32_max (N.of_nat offset));
           ps_role := role; ps_instructions := instructions;
           ps_inputs := clean_ids (sd_inputs draft); ps_depends_on := depends_on;
           ps_acceptance := non_blank (sd_acceptance draft); ps_state := StepState.Pending;
           ps_attempts := 0; ps_summary := None; ps_failure := None; ps_started_at := None;
           ps_finished_at := None; ps_agent := agent |} in
      plan_steps task_id known keys first_ordinal (S offset) drafts (steps ++ [step]) relaxed
  end.

Definition next_ordinal (ordered : list PlanStep) : N :=
  match last ordered with None => 1 | Some step => u32_sat_add (ps_ordinal step) 1 end.

Definition kept_steps (existing : list PlanStep) : list PlanStep :=
  sort_by ps_ordinal (List.filter (λ s, survives_replan (ps_state s)) existing).

Definition validate_plan (task : LongTask) (drafts : list StepDraft) (existing : list PlanStep) :
    result ValidatedPlan PlanError :=
  if is_terminal (task_state task) then Err (TaskFinished (task_state task)) else
  match find_first (λ s, negb (bool_decide (ps_task_id s = task_id task))) existing with
  | Some stray => Err (StepsOfAnotherTask (task_id task) (ps_task_id stray))
  | None =>
      let kept := kept_steps existing in
      if is_empty drafts && is_empty kept then Err EmptyPlan else
      let cap := max_steps (task_budget task) in
      let requested := (length kept + length drafts)%nat in
      if cap <? N.of_nat requested then Err (TooManySteps requested (length kept) cap) else
      let? keys := plan_keys (step_states kept) drafts [] in
      let known := collect_map ((λ k, (k, k)) <$> keys ++ (ps_key <$> kept)) in
      let? made :=
        plan_steps (task_id task) known keys (next_ordinal kept) 0 (zip drafts keys) [] [] in
      let '(steps, relaxed) := made in
      match find_cycle steps with
      | Some cycle => Err (Cycle cycle)
      | None => Ok {| vp_task_id := task_id task; vp_steps := steps;
                      vp_kept := ps_key <$> kept; vp_relaxed := relaxed |}
      end
  end.

(** ** [validate_appended_step] *)

Fixpoint appended_waits (existing : list PlanStep) (step : StepKey) (raws : list text)
    (depends_on : list StepKey) : result (list StepKey) PlanError :=
  match raws with
  | [] => Ok depends_on
  | raw :: raws =>
      match find_first (λ s, bool_decide (ps_key s = raw)) existing with
      | None => Err (UnknownDependency step raw)
      | Some dep => appended_waits existing step raws (push_new depends_on (ps_key dep))
      end
  end.

Definition validate_appended_step (task : LongTask) (draft : StepDraft)
    (existing : list PlanStep) : result ValidatedPlan PlanError :=
  if is_terminal (task_state task) then Err (TaskFinished (task_state task)) else
  match find_first (λ s, negb (bool_decide (ps_task_id s = task_id task))) existing with
  | Some stray => Err (StepsOfAnotherTask (task_id task) (ps_task_id stray))
  | None =>
      let cap := max_steps (task_budget task) in
      if cap <? N.of_nat (length existing + 1)
      then Err (TooManySteps (length existing + 1) (length existing) cap) else
      let? key := StepKey_parse (sd_key draft) in
      if existsb (λ s, bool_decide (ps_key s = key)) existing then Err (DuplicateKey key) else
      let role := trim (sd_role draft) in
      if is_empty role then Err (MissingRole key) else
      let instructions := trim (sd_instructions draft) in
      if is_empty instructions then Err (MissingInstructions key) else
      let? depends_on :=
        appended_waits existing key
          (List.filter (λ raw, negb (is_empty raw)) (trim <$> sd_depends_on draft)) [] in
      let ordered := sort_by ps_ordinal existing in
      let step :=
        {| ps_task_id := task_id task; ps_key := key; ps_ordinal := next_ordinal ordered;
           ps_role := role; ps_instructions := instructions;
           ps_inputs := clean_ids (sd_inputs draft); ps_depends_on := depends_on;
           ps_acceptance := non_blank (sd_acceptance draft); ps_state := StepState.Pending;
           ps_attempts := 0; ps_summary := None; ps_failure := None; ps_started_at := None;
           ps_finished_at := None; ps_agent := None |} in
      Ok {| vp_task_id := task_id task;
            vp_steps := List.filter (λ s, negb (survives_replan (ps_state s))) ordered ++ [step];
            vp_kept := ps_key <$> List.filter (λ s, survives_replan (ps_state s)) ordered;
            vp_relaxed := [] |}
  end.

(** ** [next_ready_step] and [blocked_steps] *)

Definition is_pending (s : PlanStep) : bool := bool_decide (ps_state s = StepState.Pending).

Definition waits_met (states : gmap text StepState) (s : PlanStep) : bool :=
  forallb (λ dep, bool_decide (states !! dep = Some StepState.Completed)) (ps_depends_on s).

Definition next_ready_step (steps : list PlanStep) : option PlanStep :=
  let states := step_states steps in
  min_by ps_ordinal (List.filter (λ s, is_pending s && waits_met states s) steps).

Definition waits_on_dead (states : gmap text StepState) (blocked : gset text) (s : PlanStep) : bool :=
  existsb (λ dep,
    match states !! dep with
    | None | Some (StepState.Failed | StepState.Skipped) => true
    | Some _ => bool_decide (dep ∈ blocked)
    end) (ps_depends_on s).

(** One round of the loop: the keys it adds. *)
Definition newly_blocked (steps : list PlanStep) (states : gmap text StepState)
    (blocked : gset text) : list text :=
  ps_key <$> List.filter (λ s, is_pending s && negb (bool_decide (ps_key s ∈ blocked)) &&
                               waits_on_dead states blocked s) steps.

(** [loop]; [None] is a loop still running when the fuel is out. *)
Fixpoint blocked_loop (fuel : nat) (steps : list PlanStep) (states : gmap text StepState)
    (blocked : gset text) : option (gset text) :=
  match fuel with
  | O => None
  | S fuel =>
      let newly := newly_blocked steps states blocked in
      if is_empty newly then Some blocked
      else blocked_loop fuel steps states (blocked ∪ list_to_set newly)
  end.

Definition blocked_keys (steps : list PlanStep) : option (gset text) :=
  blocked_loop (S (length steps)) steps (step_states steps) ∅.

Definition blocked_steps (steps : list PlanStep) : list PlanStep :=
  let blocked := default ∅ (blocked_keys steps) in
  sort_by ps_ordinal (List.filter (λ s, bool_decide (ps_key s ∈ blocked)) steps).

(** ** What a checked plan promises the store *)

(** A step as a plan first makes it. *)
Record fresh_step (tid : text) (s : PlanStep) : Prop := {
  fs_task : ps_task_id s = tid;
  fs_key : valid_key (ps_key s);
  fs_role : ps_role s ≠ [];
  fs_agent :
    match ps_agent s with
    | None => trimmed (ps_role s)
    | Some a => ps_role s = NEW_AGENT_PREFIX ++ sa_name a ∧ ∃ a0, StepAgent_cleaned a0 = Some a
    end;
  fs_instructions : trimmed (ps_instructions s) ∧ ps_instructions s ≠ [];
  fs_inputs : clean_ids (ps_inputs s) = ps_inputs s;
  fs_acceptance : non_blank (ps_acceptance s) = ps_acceptance s;
  fs_waits : NoDup (ps_depends_on s);
  fs_pending : ps_state s = StepState.Pending ∧ ps_attempts s = 0;
  fs_run : well_run s;
}.

Record plan_ok (task : LongTask) (existing : list PlanStep) (p : ValidatedPlan) : Prop := {
  po_task : vp_task_id p = task_id task;
  po_kept : vp_kept p = ps_key <$> kept_steps existing;
  po_keys : NoDup (ps_key <$> vp_steps p);
  po_new : ∀ k, k ∈ ps_key <$> vp_steps p → k ∉ vp_kept p;
  po_fresh : Forall (fresh_step (task_id task)) (vp_steps p);
  po_waits : ∀ s dep, s ∈ vp_steps p → dep ∈ ps_depends_on s →
    dep ∈ ps_key <$> vp_steps p ∨ dep ∈ vp_kept p;
  po_size : N.of_nat (length (vp_kept p) + length (vp_steps p)) ≤ max_steps (task_budget task);
  po_order : ∀ i s, vp_steps p !! i = Some s →
    ps_ordinal s = u32_sat_add (next_ordinal (kept_steps existing)) (N.min u32_max (N.of_nat i));
  po_acyclic : acyclic (vp_steps p);
}.

(** The pairs the store holds for its steps. *)
Definition stored_pairs (steps : list PlanStep) : list (text * StepState) :=
  (λ s, (ps_key s, ps_state s)) <$> steps.

(** A pending step that can never become ready. *)
Inductive blocked_key (steps : list PlanStep) : text → Prop :=
| blocked_dead s dep :
    s ∈ steps → ps_state s = StepState.Pending → dep ∈ ps_depends_on s →
    match step_states steps !! dep with
    | None | Some (StepState.Failed | StepState.Skipped) => True
    | Some _ => False
    end → blocked_key steps (ps_key s)
| blocked_waits s dep :
    s ∈ steps → ps_state s = StepState.Pending → dep ∈ ps_depends_on s →
    blocked_key steps dep → blocked_key steps (ps_key s).

(** ** Lemmas: keys, states and places *)

Lemma keys_of_pairs steps : (stored_pairs steps).*1 = ps_key <$> steps.
Proof. unfold stored_pairs. by rewrite <-list_fmap_compose. Qed.

Lemma step_states_Some steps k st :
  step_states steps !! k = Some st → ∃ s, s ∈ steps ∧ ps_key s = k ∧ ps_state s = st.
Proof. intros H%collect_map_Some. apply list_elem_of_fmap in H as (s & [= -> ->] & ?). by exists s. Qed.

Lemma step_states_elem steps s :
  NoDup (ps_key <$> steps) → s ∈ steps → step_states steps !! ps_key s = Some (ps_state s).
Proof.
  intros Hnd Hs. apply collect_map_lookup; [by rewrite <-keys_of_pairs in Hnd|].
  apply list_elem_of_fmap. by exists s.
Qed.

Lemma step_states_None steps k : step_states steps !! k = None ↔ k ∉ ps_key <$> steps.
Proof. unfold step_states. rewrite collect_map_None. by rewrite <-keys_of_pairs. Qed.

Lemma key_index_Some steps i s :
  NoDup (ps_key <$> steps) → steps !! i = Some s → key_index steps !! ps_key s = Some i.
Proof.
  intros Hnd Hs. apply collect_map_lookup.
  - replace ((imap _ steps).*1) with (ps_key <$> steps); [done|].
    apply list_eq. intros j. rewrite !list_lookup_fmap, list_lookup_imap. by destruct (steps !! j).
  - apply list_elem_of_lookup. exists i. by rewrite list_lookup_imap, Hs.
Qed.

Lemma subseteq_take {A} n (l : list A) x : x ∈ take n l → x ∈ l.
Proof. intros Hx. rewrite <-(take_drop n l). apply elem_of_app. by left. Qed.

(** ** Lemmas: [validate_plan] *)

Lemma push_new_spec ks k j : j ∈ push_new ks k ↔ j ∈ ks ∨ j = k.
Proof.
  unfold push_new. case_bool_decide; [|by rewrite elem_of_app, elem_of_one].
  split; [auto|]. by intros [?| ->].
Qed.

Lemma push_new_nodup ks k : NoDup ks → NoDup (push_new ks k).
Proof.
  intros Hnd. unfold push_new. case_bool_decide; [done|].
  apply NoDup_app. split; [done|]. split; [|apply NoDup_singleton]. by intros x ? ->%elem_of_one.
Qed.

Lemma foldl_push_new_spec l ks j : j ∈ foldl push_new ks l ↔ j ∈ ks ∨ j ∈ l.
Proof.
  revert ks. induction l as [|k l IH]; intros ks; simpl.
  - split; [auto|]. intros [?|[]%elem_of_nil]; done.
  - rewrite IH, push_new_spec, elem_of_cons. tauto.
Qed.

Lemma foldl_push_new_nodup l ks : NoDup ks → NoDup (foldl push_new ks l).
Proof. revert ks. induction l as [|k l IH]; intros ks Hk; simpl; [done|]. by apply IH, push_new_nodup. Qed.

Lemma plan_keys_ok ks drafts acc keys :
  plan_keys ks drafts acc = Ok keys →
  ∃ new, keys = acc ++ new ∧ Forall2 (λ d k, StepKey_lenient (sd_key d) = Ok k) drafts new ∧
    (NoDup acc → NoDup keys) ∧ ∀ k, k ∈ new → ks !! k = None.
Proof.
  revert acc. induction drafts as [|d drafts IH]; intros acc H; simpl in H.
  - injection H as <-. exists []. rewrite app_nil_r. split_and!; [done|constructor|done|by intros ? ?%elem_of_nil].
  - apply result_bind_ok in H as (k & Hk & H).
    destruct (ks !! k) eqn:Hks; [done|]. case_bool_decide as Hin; [done|].
    apply IH in H as (new & -> & HF & Hnd & Hnew). exists (k :: new).
    rewrite <-app_assoc. split_and!; [done|by constructor| |].
    + intros Hacc. rewrite <-app_assoc in Hnd. apply Hnd. apply NoDup_app. split; [done|].
      split; [by intros x ? ->%elem_of_one|apply NoDup_singleton].
    + intros j [->|Hj]%elem_of_cons; [done|by apply Hnew].
Qed.

Lemma draft_waits_spec known earlier step raws deps relaxed (P : text → Prop) :
  (∀ r dep, known !! r = Some dep → P dep) → Forall P earlier → Forall P deps → NoDup deps →
  Forall P (draft_waits known earlier step raws deps relaxed).1 ∧
  NoDup (draft_waits known earlier step raws deps relaxed).1.
Proof.
  intros Hknown Hearlier. revert deps relaxed.
  induction raws as [|raw raws IH]; intros deps relaxed Hdeps Hnd; simpl; [done|].
  destruct (is_empty (trim raw)); [by apply IH|].
  assert (∀ dep, P dep → Forall P (push_new deps dep)) as Hpush.
  { intros dep Hdep. rewrite Forall_forall in Hdeps |- *.
    intros k [Hk| ->]%push_new_spec; [by apply Hdeps|done]. }
  destruct (match known !! trim raw with Some _ => _ | None => _ end) as [dep|] eqn:E.
  - apply IH; [|by apply push_new_nodup]. apply Hpush.
    destruct (known !! trim raw) eqn:Ek; [injection E as <-; by eapply Hknown|].
    apply bind_Some in E as (near & _ & E). by eapply Hknown.
  - apply IH; [|by apply foldl_push_new_nodup].
    rewrite Forall_forall in Hdeps, Hearlier |- *.
    intros k [Hk|Hk]%foldl_push_new_spec; [by apply Hdeps|by apply Hearlier].
Qed.

(** What [plan_steps] makes of the draft at [offset]. *)
Record made_step (tid : text) (known : gmap text StepKey) (keys : list StepKey) (first : N)
    (offset : nat) (d : StepDraft * StepKey) (s : PlanStep) : Prop := {
  ms_key : ps_key s = d.2;
  ms_ordinal : ps_ordinal s = u32_sat_add first (N.min u32_max (N.of_nat offset));
  ms_fresh : valid_key d.2 → fresh_step tid s;
  ms_waits : ∀ dep, dep ∈ ps_depends_on s → dep ∈ keys ∨ ∃ r, known !! r = Some dep;
}.

Lemma plan_steps_ok tid known keys first offset drafts steps relaxed r :
  plan_steps tid known keys first offset drafts steps relaxed = Ok r →
  ∃ new, r.1 = steps ++ new ∧ length new = length drafts ∧
    ∀ i d s, drafts !! i = Some d → new !! i = Some s →
      made_step tid known keys first (offset + i) d s.
Proof.
  revert offset steps relaxed. induction drafts as [|[d k] drafts IH]; intros offset steps relaxed; simpl.
  { intros [= <-]. exists []. rewrite app_nil_r. split_and!; [done|done|]. by intros []. }
  destruct (is_empty (made_role _ _)) eqn:Er; [done|].
  destruct (is_empty (trim (sd_instructions d))) eqn:Ei; [done|].
  apply is_empty_false in Er, Ei.
  pose proof (draft_waits_spec known (take offset keys) k (sd_depends_on d) [] relaxed
    (λ dep, dep ∈ keys ∨ ∃ r, known !! r = Some dep)
    ltac:(intros r' dep Hr'; right; by exists r')
    ltac:(apply Forall_forall; intros x Hx; left; apply (subseteq_take offset keys); exact Hx)
    ltac:(constructor) ltac:(constructor)) as [Hdeps Hnd].
  destruct (draft_waits _ _ _ _ _ _) as [deps relaxed']. simpl in Hdeps, Hnd.
  set (s := {| ps_task_id := _ |}). intros H.
  apply IH in H as (new & Hr & Hlen & Hnew). exists (s :: new).
  split; [rewrite Hr; by rewrite <-app_assoc|]. split; [simpl; lia|].
  intros [|i] d' s' Hd Hs; simpl in Hd, Hs.
  - injection Hd as <-. injection Hs as <-. rewrite Nat.add_0_r. constructor.
    + done.
    + done.
    + intros Hk. constructor; simpl; try done; auto with pond.
      * destruct (sd_new_agent d) as [a0|]; simpl; [|apply trim_trimmed].
        destruct (StepAgent_cleaned a0) as [a|] eqn:Ea; simpl; [|apply trim_trimmed].
        split; [done|]. by exists a0.
      * exact (clean_ids_idemp (sd_inputs d)).
      * exact (non_blank_idemp (sd_acceptance d)).
    + rewrite Forall_forall in Hdeps. exact Hdeps.
  - rewrite Nat.add_succ_r. by eapply (Hnew i).
Qed.

Lemma elem_of_kept s existing :
  s ∈ kept_steps existing ↔ s ∈ existing ∧ survives_replan (ps_state s) = true.
Proof.
  unfold kept_steps. by rewrite elem_of_sort_by, elem_of_filter_bool.
Qed.

Lemma NoDup_kept existing : NoDup (ps_key <$> existing) → NoDup (ps_key <$> kept_steps existing).
Proof.
  intros Hnd. unfold kept_steps. rewrite sort_by_perm. by apply NoDup_fmap_filter.
Qed.

(** The drafts and their keys line up. *)
Lemma zip_keys {A B} (drafts : list A) (keys : list B) i d k :
  zip drafts keys !! i = Some (d, k) ↔ drafts !! i = Some d ∧ keys !! i = Some k.
Proof.
  rewrite lookup_zip_with, bind_Some. setoid_rewrite bind_Some. split.
  - by intros (d' & Hd & k' & Hk & [= -> ->]).
  - intros [Hd Hk]. exists d. split; [done|]. by exists k.
Qed.

Lemma validate_plan_ok task drafts existing p :
  validate_plan task drafts existing = Ok p → plan_ok task existing p ∧
  Forall2 (λ d s, StepKey_lenient (sd_key d) = Ok (ps_key s)) drafts (vp_steps p).
Proof.
  unfold validate_plan. destruct (is_terminal _); [done|].
  destruct (find_first _ _); [done|]. destruct (_ && _); [done|].
  destruct (N.ltb_spec (max_steps (task_budget task))
    (N.of_nat (length (kept_steps existing) + length drafts))) as [|Hcap]; [done|].
  intros H. apply result_bind_ok in H as (keys & Hkeys & H).
  apply plan_keys_ok in Hkeys as (new & Hn & HF & Hnd & Hfree). simpl in Hn. subst new.
  specialize (Hnd ltac:(constructor)).
  apply result_bind_ok in H as ([steps relaxed] & Hmade & H).
  apply plan_steps_ok in Hmade as (new & E & Hlen & Hnew). simpl in E. subst new.
  assert (length drafts = length keys) as Hdk by by eapply Forall2_length.
  rewrite length_zip_with in Hlen.
  destruct (find_cycle steps) eqn:Ecycle; [done|]. apply find_cycle_None in Ecycle.
  injection H as <-. simpl.
  assert (∀ i s, steps !! i = Some s → ∃ d k, drafts !! i = Some d ∧ keys !! i = Some k ∧
    ps_key s = k ∧ StepKey_lenient (sd_key d) = Ok k ∧
    made_step (task_id task) (collect_map ((λ k, (k, k)) <$> keys ++ (ps_key <$> kept_steps existing)))
      keys (next_ordinal (kept_steps existing)) i (d, k) s) as Hstep.
  { intros i s Hs. assert (i < length drafts)%nat by (apply lookup_lt_Some in Hs; lia).
    destruct (lookup_lt_is_Some_2 drafts i) as [d Hd]; [lia|].
    destruct (lookup_lt_is_Some_2 keys i) as [k Hk]; [lia|]. exists d, k.
    pose proof (Hnew i (d, k) s ltac:(by apply zip_keys) Hs) as Hm.
    split; [done|]. split; [done|]. split; [exact (ms_key _ _ _ _ _ _ _ Hm)|].
    split; [|exact Hm]. eapply (Forall2_lookup_lr _ _ _ _ _ _ HF Hd Hk). }
  assert (ps_key <$> steps = keys) as Esk.
  { apply list_eq. intros i. rewrite list_lookup_fmap. destruct (steps !! i) as [s|] eqn:Es.
    - destruct (Hstep i s Es) as (d & k & _ & -> & <- & _). done.
    - symmetry. simpl. apply lookup_ge_None. apply lookup_ge_None in Es. lia. }
  split.
  - constructor; simpl; try done.
    + by rewrite Esk.
    + rewrite Esk. intros k Hk%Hfree. by rewrite step_states_None in Hk.
    + apply Forall_lookup. intros i s Hs. destruct (Hstep i s Hs) as (d & k & _ & _ & _ & Hl & Hm).
      apply (ms_fresh _ _ _ _ _ _ _ Hm). by eapply StepKey_lenient_valid.
    + intros s dep [i Hs]%list_elem_of_lookup Hdep. rewrite Esk.
      destruct (Hstep i s Hs) as (d & k & _ & _ & _ & _ & Hm).
      destruct (ms_waits _ _ _ _ _ _ _ Hm dep Hdep) as [?|(r & Hr)]; [by left|].
      apply collect_map_Some, list_elem_of_fmap in Hr as (k' & [= -> ->] & Hk').
      by apply elem_of_app in Hk'.
    + rewrite length_fmap. replace (length steps) with (length drafts) by lia. done.
    + intros i s Hs. destruct (Hstep i s Hs) as (d & k & _ & _ & _ & _ & Hm).
      by rewrite (ms_ordinal _ _ _ _ _ _ _ Hm).
  - apply Forall2_same_length_lookup. split; [lia|]. intros i d s Hd Hs.
    destruct (Hstep i s Hs) as (d' & k & Hd' & _ & -> & Hl & _). congruence.
Qed.

(** ** Lemmas: [check_current] *)

Lemma check_kept_ok tid stored kept :
  check_kept tid stored kept = Ok tt ↔
  ∀ k, k ∈ kept → ∃ st, stored !! k = Some st ∧ survives_replan st = true.
Proof.
  induction kept as [|k kept IH]; simpl; [split; [by intros _ ? ?%elem_of_nil|done]|].
  setoid_rewrite elem_of_cons. destruct (stored !! k) as [st|] eqn:Ek.
  - destruct (survives_replan st) eqn:Es.
    + rewrite IH. split; [|auto]. intros H j [->|Hj]; [by exists st|auto].
    + split; [done|]. intros H. destruct (H k (or_introl eq_refl)) as (st' & ? & ?). congruence.
  - split; [done|]. intros H. destruct (H k (or_introl eq_refl)) as (st' & ? & ?). congruence.
Qed.

Lemma check_new_ok tid stored steps :
  check_new tid stored steps = Ok tt ↔
  ∀ s st, s ∈ steps → stored !! ps_key s = Some st → survives_replan st = false.
Proof.
  induction steps as [|s steps IH]; simpl; [split; [by intros _ ? ? ?%elem_of_nil|done]|].
  setoid_rewrite elem_of_cons. destruct (stored !! ps_key s) as [st|] eqn:Ek.
  - destruct (survives_replan st) eqn:Es.
    + split; [done|]. intros H. rewrite (H s st) in Es by auto. done.
    + rewrite IH. split; [|eauto]. intros H j st' [->|Hj]; [congruence|eauto].
  - rewrite IH. split; [|eauto]. intros H j st' [->|Hj]; [congruence|eauto].
Qed.

Lemma check_current_ok p stored :
  check_current p stored = Ok tt ↔
  (∀ k, k ∈ vp_kept p → ∃ st, collect_map stored !! k = Some st ∧ survives_replan st = true) ∧
  (∀ s st, s ∈ vp_steps p → collect_map stored !! ps_key s = Some st → survives_replan st = false).
Proof.
  unfold check_current. rewrite result_bind_ok, <-check_kept_ok, <-check_new_ok. split.
  - by intros ([] & ? & ?).
  - intros [? ?]. by exists tt.
Qed.

Lemma plan_ok_current task existing p :
  NoDup (ps_key <$> existing) → plan_ok task existing p →
  check_current p (stored_pairs existing) = Ok tt.
Proof.
  intros Hnd Hok. apply check_current_ok. change (collect_map _) with (step_states existing). split.
  - intros k Hk. rewrite (po_kept _ _ _ Hok) in Hk. apply list_elem_of_fmap in Hk as (s & -> & Hs).
    apply elem_of_kept in Hs as [Hs Hst]. exists (ps_state s). split; [by apply step_states_elem|done].
  - intros s st Hs (s' & Hs' & Hk & <-)%step_states_Some.
    destruct (survives_replan (ps_state s')) eqn:E; [|done]. exfalso.
    apply (po_new _ _ _ Hok (ps_key s)); [apply list_elem_of_fmap; by exists s|].
    rewrite (po_kept _ _ _ Hok). apply list_elem_of_fmap. exists s'. split; [done|].
    by apply elem_of_kept.
Qed.

(** ** Lemmas: readiness *)

Lemma ready_Some steps s :
  next_ready_step steps = Some s →
  (s ∈ steps ∧ ps_state s = StepState.Pending ∧
   ∀ dep, dep ∈ ps_depends_on s → step_states steps !! dep = Some StepState.Completed) ∧
  ∀ t, t ∈ steps → ps_state t = StepState.Pending →
    (∀ dep, dep ∈ ps_depends_on t → step_states steps !! dep = Some StepState.Completed) →
    ps_ordinal s ≤ ps_ordinal t.
Proof.
  unfold next_ready_step. intros [Hin Hmin]%min_by_Some.
  assert (∀ t, t ∈ List.filter (λ s, is_pending s && waits_met (step_states steps) s) steps ↔
    t ∈ steps ∧ ps_state t = StepState.Pending ∧
    ∀ dep, dep ∈ ps_depends_on t → step_states steps !! dep = Some StepState.Completed) as Hiff.
  { intros t. rewrite elem_of_filter_bool. unfold is_pending, waits_met.
    rewrite andb_true_iff, bool_decide_eq_true, forallb_elem_of.
    by setoid_rewrite bool_decide_eq_true. }
  split; [by apply Hiff|]. intros t Ht Hp Hd. by apply Hmin, Hiff.
Qed.

Lemma ready_None steps :
  next_ready_step steps = None → ∀ s, s ∈ steps → ps_state s = StepState.Pending →
  ∃ dep, dep ∈ ps_depends_on s ∧ step_states steps !! dep ≠ Some StepState.Completed.
Proof.
  unfold next_ready_step. rewrite min_by_None. intros Hnil s Hs Hp.
  destruct (waits_met (step_states steps) s) eqn:E.
  - exfalso. assert (s ∈ List.filter (λ s, is_pending s && waits_met (step_states steps) s) steps) as Hin.
    { apply elem_of_filter_bool. unfold is_pending. by rewrite bool_decide_eq_true_2, E. }
    rewrite Hnil in Hin. by apply elem_of_nil in Hin.
  - apply forallb_false_elem_of in E as (dep & Hdep & E%bool_decide_eq_false). by exists dep.
Qed.

(** ** Lemmas: [blocked_steps] *)

Lemma waits_on_dead_spec steps B s :
  waits_on_dead (step_states steps) B s = true ↔
  ∃ dep, dep ∈ ps_depends_on s ∧
    (match step_states steps !! dep with
     | None | Some (StepState.Failed | StepState.Skipped) => True
     | Some _ => False
     end ∨ (is_Some (step_states steps !! dep) ∧ dep ∈ B)).
Proof.
  unfold waits_on_dead. rewrite existsb_elem_of. split; intros (dep & Hdep & H); exists dep;
    (split; [done|]); destruct (step_states steps !! dep) as [[]|]; simpl in *;
    rewrite ?bool_decide_eq_true in *; try (by left); try (right; by eauto);
    try (by destruct H as [[]|[_ ?]]); done.
Qed.

Lemma newly_blocked_spec steps B k :
  k ∈ newly_blocked steps (step_states steps) B ↔
  k ∉ B ∧ ∃ s, s ∈ steps ∧ ps_key s = k ∧ ps_state s = StepState.Pending ∧
    waits_on_dead (step_states steps) B s = true.
Proof.
  unfold newly_blocked. rewrite list_elem_of_fmap. setoid_rewrite elem_of_filter_bool.
  unfold is_pending. setoid_rewrite andb_true_iff. setoid_rewrite andb_true_iff.
  setoid_rewrite negb_true_iff. setoid_rewrite bool_decide_eq_true.
  setoid_rewrite bool_decide_eq_false. split.
  - intros (s & -> & Hs & [Hp Hn] & Hw). split; [done|]. by exists s.
  - intros (Hn & s & Hs & <- & Hp & Hw). by exists s.
Qed.

Definition unblocked (steps : list PlanStep) (B : gset text) : nat :=
  length (List.filter (λ s, negb (bool_decide (ps_key s ∈ B))) steps).

Lemma unblocked_lt steps B k ks :
  k ∈ newly_blocked steps (step_states steps) B → k ∈ ks →
  (unblocked steps (B ∪ list_to_set ks) < unblocked steps B)%nat.
Proof.
  intros (Hn & s & Hs & <- & _)%newly_blocked_spec Hk.
  apply (filter_length_lt _ _ _ s); [|done|by rewrite bool_decide_eq_false_2|].
  - intros a. rewrite !negb_true_iff, !bool_decide_eq_false. set_solver.
  - rewrite negb_false_iff, bool_decide_eq_true. set_solver.
Qed.

Lemma blocked_loop_spec steps fuel B :
  (unblocked steps B < fuel)%nat → (∀ k, k ∈ B → blocked_key steps k) →
  ∃ B', blocked_loop fuel steps (step_states steps) B = Some B' ∧
    ∀ k, k ∈ B' ↔ blocked_key steps k.
Proof.
  revert B. induction fuel as [|fuel IH]; intros B Hf HB; [lia|]. simpl.
  destruct (newly_blocked steps (step_states steps) B) as [|k ks] eqn:E; simpl is_empty; cbv iota.
  - exists B. split; [done|]. intros k. split; [apply HB|].
    assert (∀ s, s ∈ steps → ps_state s = StepState.Pending →
      waits_on_dead (step_states steps) B s = true → ps_key s ∈ B) as Hclosed.
    { intros s Hs Hp Hw. destruct (decide (ps_key s ∈ B)) as [|Hn]; [done|]. exfalso.
      assert (ps_key s ∈ newly_blocked steps (step_states steps) B) as Hin
        by (apply newly_blocked_spec; split; [done|by exists s]).
      rewrite E in Hin. by apply elem_of_nil in Hin. }
    induction 1 as [s dep Hs Hp Hdep Hdead|s dep Hs Hp Hdep Hb IHb]; apply Hclosed;
      try done; apply waits_on_dead_spec; exists dep; (split; [done|]); [by left|].
    destruct (step_states steps !! dep) as [st|] eqn:Ed; [right; by eauto|left; done].
  - apply IH.
    + pose proof (unblocked_lt steps B k (k :: ks)) as Hlt. rewrite E in Hlt.
      specialize (Hlt ltac:(left) ltac:(left)). lia.
    + intros j [Hj|Hj%elem_of_list_to_set]%elem_of_union; [by apply HB|].
      rewrite <-E in Hj. apply newly_blocked_spec in Hj as (_ & s & Hs & <- & Hp & Hw).
      apply waits_on_dead_spec in Hw as (dep & Hdep & [Hd|[_ Hd]]).
      * by eapply blocked_dead.
      * eapply blocked_waits; eauto.
Qed.

Lemma blocked_keys_spec steps :
  ∃ B, blocked_keys steps = Some B ∧ ∀ k, k ∈ B ↔ blocked_key steps k.
Proof.
  apply blocked_loop_spec; [|set_solver].
  unfold unblocked. apply Nat.lt_succ_r, length_filter_bool_le.
Qed.

Lemma elem_of_blocked_steps steps s :
  s ∈ blocked_steps steps ↔ s ∈ steps ∧ blocked_key steps (ps_key s).
Proof.
  unfold blocked_steps. destruct (blocked_keys_spec steps) as (B & -> & HB). simpl.
  by rewrite elem_of_sort_by, elem_of_filter_bool, bool_decide_eq_true, HB.
Qed.

(** An open step that waits for a member or a helper, not for another step. *)
Definition live (s : PlanStep) : Prop :=
  ps_state s = StepState.Running ∨ ps_state s = StepState.AwaitingApproval.

(** In a plan without circles, a pending step that is not blocked has work to wait for. *)
Lemma unblocked_progress steps s :
  NoDup (ps_key <$> steps) → acyclic steps → s ∈ steps → ps_state s = StepState.Pending →
  ¬ blocked_key steps (ps_key s) →
  is_Some (next_ready_step steps) ∨ ∃ t, t ∈ steps ∧ live t.
Proof.
  intros Hnd Hac Hs Hp Hnb. destruct (next_ready_step steps) as [r|] eqn:Er; [by left|right].
  apply list_elem_of_lookup in Hs as [i Hi]. specialize (Hac i). revert s Hi Hp Hnb.
  induction Hac as [i _ IH]. intros s Hi Hp Hnb.
  assert (s ∈ steps) as Hs by by eapply list_elem_of_lookup_2.
  destruct (ready_None steps Er s Hs Hp) as (dep & Hdep & Hd).
  destruct (step_states steps !! dep) as [st|] eqn:Ed; cycle 1.
  { destruct Hnb. eapply blocked_dead; [done..|]. by rewrite Ed. }
  pose proof (step_states_Some _ _ _ Ed) as (t & Ht & <- & <-).
  destruct (ps_state t) eqn:Et; [| |done| | |].
  - apply list_elem_of_lookup in Ht as [j Hj]. apply (IH j) with t; [|done..|].
    + exists s, (ps_key t). split; [done|]. split; [done|]. by apply key_index_Some.
    + intros Hb. apply Hnb. by eapply blocked_waits.
  - exists t. split; [done|]. by left.
  - destruct Hnb. eapply blocked_dead; [done..|]. by rewrite Ed.
  - destruct Hnb. eapply blocked_dead; [done..|]. by rewrite Ed.
  - exists t. split; [done|]. by right.
Qed.

(** ** Lemmas: the ledger after a plan is written *)

(** What the store holds once it has written [p]: the kept steps and the new ones. *)
Definition written (existing : list PlanStep) (p : ValidatedPlan) : list PlanStep :=
  kept_steps existing ++ vp_steps p.

Lemma written_nodup task existing p :
  NoDup (ps_key <$> existing) → plan_ok task existing p → NoDup (ps_key <$> written existing p).
Proof.
  intros Hnd Hok. unfold written. rewrite fmap_app. apply NoDup_app.
  split; [by apply NoDup_kept|]. split; [|exact (po_keys _ _ _ Hok)].
  intros k Hk Hin. apply (po_new _ _ _ Hok k Hin). by rewrite (po_kept _ _ _ Hok).
Qed.

Lemma written_state task existing p s :
  NoDup (ps_key <$> existing) → plan_ok task existing p → s ∈ written existing p →
  step_states (written existing p) !! ps_key s = Some (ps_state s).
Proof. intros Hnd Hok. apply step_states_elem. by eapply written_nodup. Qed.

Lemma written_ready task existing p :
  NoDup (ps_key <$> existing) → plan_ok task existing p → vp_steps p ≠ [] →
  (∀ s, s ∈ kept_steps existing → ps_state s = StepState.Completed) →
  ∃ s, next_ready_step (written existing p) = Some s ∧ s ∈ vp_steps p.
Proof.
  intros Hnd Hok Hne Hkept.
  destruct (next_ready_step (written existing p)) as [r|] eqn:Er.
  { exists r. split; [done|]. apply ready_Some in Er as [(Hr & Hp & _) _].
    apply elem_of_app in Hr as [Hr|Hr]; [|done]. rewrite (Hkept r Hr) in Hp. done. }
  exfalso. destruct (vp_steps p) as [|s0 rest] eqn:Esteps; [done|].
  assert (vp_steps p !! 0%nat = Some s0) as H0 by by rewrite Esteps. clear Hne Esteps.
  pose proof (po_acyclic _ _ _ Hok 0%nat) as Hac. revert s0 H0.
  induction Hac as [i _ IH]. intros s Hi.
  assert (s ∈ vp_steps p) as Hs by by eapply list_elem_of_lookup_2.
  pose proof (proj1 (Forall_forall _ _) (po_fresh _ _ _ Hok) s Hs) as Hfresh.
  destruct (ready_None _ Er s) as (dep & Hdep & Hd);
    [apply elem_of_app; by right|exact (proj1 (fs_pending _ _ Hfresh))|].
  destruct (po_waits _ _ _ Hok s dep Hs Hdep) as [Hk|Hk].
  - apply list_elem_of_fmap in Hk as (t & -> & [j Hj]%list_elem_of_lookup). apply (IH j) with t; [|done].
    exists s, (ps_key t). split; [done|]. split; [done|].
    apply key_index_Some; [exact (po_keys _ _ _ Hok)|done].
  - rewrite (po_kept _ _ _ Hok) in Hk. apply list_elem_of_fmap in Hk as (t & -> & Ht).
    apply Hd. erewrite written_state; [by rewrite (Hkept t Ht)|done|done|]. apply elem_of_app. by left.
Qed.

(** ** Lemmas: [validate_appended_step] *)

Lemma appended_waits_ok existing step raws deps out :
  appended_waits existing step raws deps = Ok out → NoDup deps →
  (∀ d, d ∈ deps → d ∈ ps_key <$> existing) →
  NoDup out ∧ ∀ d, d ∈ out → d ∈ ps_key <$> existing.
Proof.
  revert deps. induction raws as [|raw raws IH]; intros deps H Hnd Hin; simpl in H;
    [by injection H as <-|].
  destruct (find_first _ _) as [s|] eqn:E; [|done]. apply find_some_iff in E as [Hs _].
  apply (IH _ H); [by apply push_new_nodup|].
  intros d [Hd| ->]%push_new_spec; [by apply Hin|]. apply list_elem_of_fmap. by exists s.
Qed.

(** What appending adds: one fresh step after every other, waiting only for steps there are. *)
Record appended_ok (task : LongTask) (existing : list PlanStep) (p : ValidatedPlan)
    (s : PlanStep) : Prop := {
  ao_steps : vp_steps p =
    List.filter (λ s, negb (survives_replan (ps_state s))) (sort_by ps_ordinal existing) ++ [s];
  ao_kept : ∀ k, k ∈ vp_kept p ↔ k ∈ ps_key <$> kept_steps existing;
  ao_fresh : fresh_step (task_id task) s;
  ao_key : ps_key s ∉ ps_key <$> existing;
  ao_waits : ∀ d, d ∈ ps_depends_on s → d ∈ ps_key <$> existing;
  ao_last : ∀ t, t ∈ existing → ps_ordinal t < u32_max → ps_ordinal t < ps_ordinal s;
  ao_size : N.of_nat (S (length existing)) ≤ max_steps (task_budget task);
}.

Lemma next_ordinal_above existing t :
  t ∈ existing → ps_ordinal t < u32_max →
  ps_ordinal t < next_ordinal (sort_by ps_ordinal existing).
Proof.
  intros Ht Hlt. rewrite <-(elem_of_sort_by ps_ordinal) in Ht.
  pose proof (sort_by_sorted ps_ordinal existing) as Hs. unfold next_ordinal.
  destruct (last (sort_by ps_ordinal existing)) as [m|] eqn:El.
  - apply last_Some in El as (l & El). rewrite El in Ht, Hs.
    assert (ps_ordinal t ≤ ps_ordinal m); [|unfold u32_sat_add; lia].
    apply elem_of_app in Ht as [Ht| ->%elem_of_one]; [|lia].
    clear El. induction l as [|x l IH]; [by apply elem_of_nil in Ht|].
    simpl in Hs. apply StronglySorted_inv in Hs as [Hs Hx].
    apply elem_of_cons in Ht as [->|Ht]; [|by apply IH].
    rewrite Forall_forall in Hx. apply Hx. apply elem_of_app. right. by apply elem_of_one.
  - apply last_None in El. rewrite El in Ht. by apply elem_of_nil in Ht.
Qed.

Lemma validate_appended_ok task draft existing p :
  validate_appended_step task draft existing = Ok p →
  vp_task_id p = task_id task ∧ ∃ s, appended_ok task existing p s.
Proof.
  unfold validate_appended_step. destruct (is_terminal _); [done|].
  destruct (find_first _ _); [done|].
  destruct (N.ltb_spec (max_steps (task_budget task)) (N.of_nat (length existing + 1))) as [|Hcap];
    [done|].
  intros H. apply result_bind_ok in H as (key & Hkey & H).
  apply StepKey_parse_ok in Hkey as [_ Hkey].
  destruct (existsb _ _) eqn:Edup; [done|].
  destruct (is_empty (trim (sd_role draft))) eqn:Er; [done|].
  destruct (is_empty (trim (sd_instructions draft))) eqn:Ei; [done|].
  apply is_empty_false in Er, Ei. apply result_bind_ok in H as (deps & Hdeps & [= <-]).
  apply appended_waits_ok in Hdeps as [Hnd Hin]; [|constructor|by intros ? ?%elem_of_nil].
  split; [done|]. eexists. constructor; simpl; [reflexivity|..].
  - intros k. rewrite !list_elem_of_fmap. setoid_rewrite elem_of_kept.
    setoid_rewrite elem_of_filter_bool. by setoid_rewrite elem_of_sort_by.
  - constructor; simpl; try done.
    + apply trim_trimmed.
    + split; [apply trim_trimmed|done].
    + apply clean_ids_idemp.
    + apply non_blank_idemp.
  - intros (t & Hk & Ht)%list_elem_of_fmap. apply Bool.not_true_iff_false in Edup. apply Edup.
    apply existsb_elem_of. exists t. by rewrite bool_decide_eq_true.
  - exact Hin.
  - apply next_ordinal_above.
  - lia.
Qed.

(** ** Lemmas: reading a new step back *)

Lemma clean_agent_iff a0 a :
  StepAgent_cleaned a0 = Some a → (clean_agent a ↔ trimmed (sa_name a)).
Proof.
  unfold clean_agent, StepAgent_cleaned. destruct (_ && _) eqn:E; [|done]. intros [= <-]. simpl.
  apply andb_prop in E as [E1 E2]. rewrite (trim_idemp (sa_instructions a0)), E2, clean_ids_idemp.
  set (n := take AGENT_NAME_CHARS (trim (sa_name a0))) in *. split.
  - destruct (_ && _); [|done]. intros [= Hn]. rewrite <-Hn.
    destruct (trim_trimmed n) as [Hh _]. pose proof (trim_length n).
    assert (length n ≤ AGENT_NAME_CHARS)%nat by (unfold n; rewrite length_take; lia).
    rewrite take_ge by lia. apply trim_trimmed.
  - intros Ht. rewrite trimmed_trim by done. rewrite take_ge; [by rewrite E1|].
    unfold n. rewrite length_take. lia.
Qed.

Lemma fresh_reads_back tid s :
  fresh_step tid s → Forall valid_key (ps_depends_on s) →
  (PlanStep_from_parts (parts_of_step s) = Ok s ↔
   ∀ a, ps_agent s = Some a → trimmed (sa_name a)).
Proof.
  intros Hf Hd. split.
  - intros H a Ha. unfold PlanStep_from_parts in H. simpl in H.
    apply result_bind_ok in H as (k & _ & H).
    destruct (is_empty (trim _)); [done|]. destruct (is_empty _); [done|].
    apply result_bind_ok in H as (deps & _ & H). injection H as H. apply (f_equal ps_agent) in H.
    simpl in H. rewrite Ha in H. simpl in H.
    pose proof (fs_agent _ _ Hf) as Hag. rewrite Ha in Hag. destruct Hag as [_ [a0 Ha0]].
    by apply (clean_agent_iff a0 a Ha0).
  - intros Ha. pose proof (fs_agent _ _ Hf) as Hag. apply from_parts_of.
    + constructor; try apply Hf; [|done]. split; [|apply Hf].
      destruct (ps_agent s) as [a|]; [|exact Hag]. destruct Hag as [-> [a0 Ha0]].
      destruct (sa_name a) as [|c n] eqn:En; [by split; intros c [= <-]|].
      apply trimmed_app; [by split; intros x [= <-]|rewrite <-En; by apply Ha|done|done].
    + apply Hf.
    + intros a Hs. rewrite Hs in Hag. destruct Hag as [_ [a0 Ha0]].
      apply (clean_agent_iff a0 a Ha0). by apply Ha.
Qed.

(** ** Properties *)

(** C9: a plan that passes [validate_plan] is one the store can write and the runner can run: it
    is for that task, made of one fresh pending step per draft under the key the draft asked for,
    with distinct keys none of which rewrites a started or finished step; the kept steps are
    exactly those, in order; every wait is for a step of the plan or a kept one; the whole stays
    within the task's step budget; the steps are numbered upwards after the kept ones; there is
    no circle of waits; and the store's own check accepts it against the same steps. *)
Theorem validate_plan_sound task drafts existing p :
  NoDup (ps_key <$> existing) → validate_plan task drafts existing = Ok p →
  plan_ok task existing p ∧
  Forall2 (λ d s, StepKey_lenient (sd_key d) = Ok (ps_key s)) drafts (vp_steps p) ∧
  check_current p (stored_pairs existing) = Ok tt.
Proof.
  intros Hnd [Hok HF]%validate_plan_ok. split; [exact Hok|]. split; [exact HF|].
  by eapply plan_ok_current.
Qed.

Definition trip_task : LongTask :=
  {| task_id := lit "t1"; task_owner := Some (lit "ann"); task_scope := Owner (lit "ann");
     task_goal := lit "plan a trip"; task_origin := None; task_state := Planning;
     task_budget := budget12; task_kind := General; task_answer := Auto;
     task_created_at := 5; task_updated_at := 5; task_finished_at := None |}.

Definition draft (key : String.string) (waits_for : list text) : StepDraft :=
  {| sd_key := lit key; sd_role := lit " scout "; sd_new_agent := None;
     sd_instructions := lit "Look it up"; sd_inputs := [lit "a1"; lit " a1"];
     sd_depends_on := waits_for; sd_acceptance := Some (lit " ") |}.

(** One step is done; the rest of the plan is written anew. *)
Definition dates_step : PlanStep :=
  {| ps_task_id := lit "t1"; ps_key := lit "dates"; ps_ordinal := 1; ps_role := lit "scout";
     ps_instructions := lit "Pick dates"; ps_inputs := []; ps_depends_on := [];
     ps_acceptance := None; ps_state := StepState.Completed; ps_attempts := 1;
     ps_summary := Some (lit "May"); ps_failure := None; ps_started_at := Some 1%Z;
     ps_finished_at := Some 2%Z; ps_agent := None |}.

Definition trip_drafts : list StepDraft :=
  [draft "Book Hotel" [lit "find flights"]; draft "find-flights" [lit "dates"; lit "weather"]].

(** [book-hotel] waits for [find-flights], which waits for the kept step and, in place of the
    step the plan lacks, for the one before it: a circle, which is refused. Without the unknown
    wait the plan is taken. *)
Example trip_circle :
  validate_plan trip_task trip_drafts [dates_step]
  = Err (Cycle [lit "book-hotel"; lit "find-flights"; lit "book-hotel"]).
Proof. vm_compute. reflexivity. Qed.

Definition trip_drafts' : list StepDraft :=
  [draft "find-flights" [lit "dates"; lit "weather"]; draft "Book Hotel" [lit "find flights"]].

Definition good_plan : ValidatedPlan :=
  match validate_plan trip_task trip_drafts' [dates_step] with
  | Ok p => p
  | Err _ => {| vp_task_id := []; vp_steps := []; vp_kept := []; vp_relaxed := [] |}
  end.

Lemma good_plan_ok : validate_plan trip_task trip_drafts' [dates_step] = Ok good_plan.
Proof. vm_compute. reflexivity. Qed.

Lemma validate_plan_sound_witness :
  plan_ok trip_task [dates_step] good_plan ∧
  (ps_key <$> vp_steps good_plan) = [lit "find-flights"; lit "book-hotel"] ∧
  check_current good_plan (stored_pairs [dates_step]) = Ok tt.
Proof.
  destruct (validate_plan_sound trip_task trip_drafts' [dates_step] good_plan) as (H1 & _ & H3).
  - apply NoDup_singleton.
  - exact good_plan_ok.
  - split; [exact H1|]. split; [vm_compute; reflexivity|exact H3].
Defined.

(** A written plan can always be started: once every kept step is completed, a plan with any
    new step has one ready to run, because its waits are on kept steps or, without circles, on
    its own steps. *)
Theorem written_plan_can_start task drafts existing p :
  NoDup (ps_key <$> existing) → validate_plan task drafts existing = Ok p → drafts ≠ [] →
  (∀ s, s ∈ kept_steps existing → ps_state s = StepState.Completed) →
  ∃ s, next_ready_step (written existing p) = Some s ∧ s ∈ vp_steps p.
Proof.
  intros Hnd [Hok HF]%validate_plan_ok Hne Hkept. eapply written_ready; try done.
  intros E. rewrite E in HF. by inversion HF.
Qed.

Lemma written_plan_can_start_witness :
  ∃ s, next_ready_step (written [dates_step] good_plan) = Some s ∧ s ∈ vp_steps good_plan.
Proof.
  apply (written_plan_can_start trip_task trip_drafts').
  - apply NoDup_singleton.
  - exact good_plan_ok.
  - discriminate.
  - intros s Hs. apply elem_of_kept in Hs as [Hs _]. apply elem_of_one in Hs as ->. reflexivity.
Defined.

(** [blocked_steps] always ends and is the least set closed under its rule: a pending step is
    in it exactly when a step it waits for failed, was skipped, is missing or is itself blocked.
    With distinct keys no blocked step is ready; and without circles, while any pending step is
    not blocked, some step is ready, running or waiting for approval, so a task is never stuck
    without a reason the planner is shown. *)
Theorem blocked_steps_correct steps :
  is_Some (blocked_keys steps) ∧
  (∀ s, s ∈ blocked_steps steps ↔ s ∈ steps ∧ blocked_key steps (ps_key s)) ∧
  (NoDup (ps_key <$> steps) →
     (∀ s, next_ready_step steps = Some s → s ∉ blocked_steps steps) ∧
     (acyclic steps → ∀ s, s ∈ steps → ps_state s = StepState.Pending → s ∉ blocked_steps steps →
        is_Some (next_ready_step steps) ∨ ∃ t, t ∈ steps ∧ live t)).
Proof.
  split; [destruct (blocked_keys_spec steps) as (B & -> & _); by eexists|].
  split; [apply elem_of_blocked_steps|]. intros Hnd. split.
  - intros s [(Hs & Hp & Hd) _]%ready_Some [_ Hb]%elem_of_blocked_steps.
    remember (ps_key s) as k eqn:Ek.
    assert (∀ t, t ∈ steps → ps_key t = ps_key s → t = s) as Huniq.
    { intros t Ht Hk. apply list_elem_of_lookup in Ht as [i Hi], Hs as [j Hj].
      assert (i = j) as <-; [|congruence].
      eapply (NoDup_lookup (ps_key <$> steps)); [done|by rewrite list_lookup_fmap, Hi|].
      by rewrite list_lookup_fmap, Hj, Hk. }
    assert (∀ dep, dep ∈ ps_depends_on s → ¬ blocked_key steps dep) as Hnd'.
    { intros dep Hdep Hbd. specialize (Hd dep Hdep).
      destruct Hbd as [t d Ht Htp|t d Ht Htp];
        (rewrite step_states_elem in Hd by done; rewrite Htp in Hd; done). }
    destruct Hb as [t dep Ht Htp Hdep Hdead|t dep Ht Htp Hdep Hb];
      (rewrite (Huniq t Ht Ek) in * ); [by rewrite (Hd dep Hdep) in Hdead|by apply (Hnd' dep)].
  - intros Hac s Hs Hp Hnb. apply (unblocked_progress steps s); try done.
    intros Hb. by apply Hnb, elem_of_blocked_steps.
Qed.

(** Appending a step carries every open step over unchanged and keeps every started or
    finished one: the plan is the open steps as they are, then one fresh pending step numbered
    after them all, whose key is new and which waits only for steps that exist, within the
    budget; the store's check accepts it against the same steps. *)
Theorem appended_plan_sound task draft existing p :
  NoDup (ps_key <$> existing) → validate_appended_step task draft existing = Ok p →
  (∃ s, appended_ok task existing p s) ∧ check_current p (stored_pairs existing) = Ok tt.
Proof.
  intros Hnd [_ [s Hok]]%validate_appended_ok. split; [by exists s|].
  apply check_current_ok. change (collect_map _) with (step_states existing). split.
  - intros k Hk. apply (ao_kept _ _ _ _ Hok) in Hk.
    apply list_elem_of_fmap in Hk as (t & -> & Ht). apply elem_of_kept in Ht as [Ht Hst].
    exists (ps_state t). split; [by apply step_states_elem|exact Hst].
  - intros t st Ht Hst. rewrite (ao_steps _ _ _ _ Hok) in Ht. apply elem_of_app in Ht as [Ht|Ht].
    + apply elem_of_filter_bool in Ht as [Ht Hns]. apply elem_of_sort_by in Ht.
      rewrite step_states_elem in Hst by done. injection Hst as <-. by apply negb_true_iff.
    + apply elem_of_one in Ht as ->. apply step_states_Some in Hst as (u & Hu & Hk & _).
      destruct (ao_key _ _ _ _ Hok). apply list_elem_of_fmap. by exists u.
Qed.

(** A step that was skipped and one that is done. *)
Definition skipped_step : PlanStep :=
  ps_with flights_step StepState.Skipped 0 None None None (Some 7%Z).
Definition handed_off : ValidatedPlan :=
  match validate_appended_step trip_task (draft "pack" [lit "dates"]) [skipped_step; dates_step] with
  | Ok p => p
  | Err _ => {| vp_task_id := []; vp_steps := []; vp_kept := []; vp_relaxed := [] |}
  end.

Lemma appended_plan_sound_witness :
  (∃ s, appended_ok trip_task [skipped_step; dates_step] handed_off s) ∧
  check_current handed_off (stored_pairs [skipped_step; dates_step]) = Ok tt.
Proof.
  apply (appended_plan_sound trip_task (draft "pack" [lit "dates"])).
  - apply NoDup_cons. split; [|apply NoDup_singleton].
    intros H. apply elem_of_one in H. vm_compute in H. discriminate H.
  - vm_compute. reflexivity.
Defined.

(** A step of a validated plan reads back from its columns as itself exactly when the agent
    the plan made for it, if any, has a name without blank ends; [cleaned] trims the name before
    it cuts it to forty characters, so the cut may leave one, and the step then reads back with
    another role and agent than were validated. *)
Theorem planned_step_reads_back task drafts existing p s :
  validate_plan task drafts existing = Ok p →
  Forall (λ e, valid_key (ps_key e)) existing → s ∈ vp_steps p →
  (PlanStep_from_parts (parts_of_step s) = Ok s ↔
   ∀ a, ps_agent s = Some a → trimmed (sa_name a)).
Proof.
  intros [Hok _]%validate_plan_ok Hex Hs. pose proof (po_fresh _ _ _ Hok) as Hfr.
  rewrite Forall_forall in Hex, Hfr. apply (fresh_reads_back (task_id task)); [by apply Hfr|].
  apply Forall_forall. intros dep Hdep. destruct (po_waits _ _ _ Hok s dep Hs Hdep) as [Hk|Hk].
  - apply list_elem_of_fmap in Hk as (t & -> & Ht). exact (fs_key _ _ (Hfr t Ht)).
  - rewrite (po_kept _ _ _ Hok) in Hk. apply list_elem_of_fmap in Hk as (t & -> & Ht).
    apply elem_of_kept in Ht as [Ht _]. exact (Hex t Ht).
Qed.

(** An agent whose forty-first character follows a blank. *)
Definition long_name_agent : StepAgent :=
  {| sa_name := lit "abcdefghijklmnopqrstuvwxyz abcdefghijkl mnop"; sa_instructions := lit "Do it";
     sa_tools := [] |}.
Definition agent_draft : StepDraft :=
  {| sd_key := lit "made"; sd_role := []; sd_new_agent := Some long_name_agent;
     sd_instructions := lit "Do it"; sd_inputs := []; sd_depends_on := []; sd_acceptance := None |}.
Definition agent_plan : ValidatedPlan :=
  match validate_plan trip_task [agent_draft] [] with
  | Ok p => p
  | Err _ => handed_off
  end.

Definition agent_step : PlanStep :=
  match vp_steps agent_plan with s :: _ => s | [] => flights_step end.

Lemma planned_step_reads_back_witness :
  PlanStep_from_parts (parts_of_step agent_step) ≠ Ok agent_step.
Proof.
  intros H.
  destruct (planned_step_reads_back trip_task [agent_draft] [] agent_plan agent_step) as [Hto _].
  - vm_compute. reflexivity.
  - constructor.
  - vm_compute. apply list_elem_of_here.
  - destruct (Hto H _ eq_refl) as [_ Hl]. specialize (Hl 32 eq_refl). discriminate Hl.
Defined.
