(* ===== verification/Artifact.v ===== *)
(** * Artifact: a step's output, read a page at a time

    [crates/pond-core/src/shared/domain/long_task.rs], section "Artifacts":
    [ArtifactKind], [Artifact] with [new], [from_parts], [slice] and [summary_view],
    [artifact_tokens], [artifact_slice] and [byte_offset]. The random id [new] draws is its
    argument [uuid]. [artifact_slice] slices a [str] by byte offsets, which panics inside a
    character; the panic is [None], and paging is proved never to reach it. *)
From S2P Require Import Prelude Text Scope LongTask HandBack Step.
Local Open Scope N_scope.

(** ** Data *)

Definition MAX_ARTIFACT_SUMMARY_CHARS : nat := 200.
Definition MAX_ARTIFACT_TITLE_CHARS : nat := 80.
Definition ARTIFACT_CHARS_PER_TOKEN : N := 4.

Inductive ArtifactKind : Type := Note | Findings | Draft | Data.

#[export] Instance ArtifactKind_eq_dec : EqDecision ArtifactKind.
Proof. solve_decision. Defined.

Definition ArtifactKind_as_str (k : ArtifactKind) : text :=
  match k with
  | Note => lit "note"
  | Findings => lit "findings"
  | Draft => lit "draft"
  | Data => lit "data"
  end.

#[export] Instance ArtifactKind_stored : StoredEnum ArtifactKind.
Proof.
  refine {| enum_all := [Note; Findings; Draft; Data]; enum_str := ArtifactKind_as_str |}.
  - abstract stored_enum_complete.
  - abstract stored_enum_inj.
Defined.

Definition ArtifactKind_parse (raw : text) : option ArtifactKind := enum_parse (lowercase (trim raw)).

Record Artifact := {
  ar_id : text;
  ar_task_id : text;
  ar_step_key : option StepKey;
  ar_kind : ArtifactKind;
  ar_title : text;
  ar_summary : text;
  ar_body : text;
  ar_tokens : N;
  ar_created_at : Z;
}.

Record ArtifactParts := {
  ap_id : text;
  ap_task_id : text;
  ap_step_key : option text;
  ap_kind : ArtifactKind;
  ap_title : text;
  ap_summary : text;
  ap_body : text;
  ap_created_at : Z;
}.

Record ArtifactSummary := {
  as_id : text;
  as_task_id : text;
  as_step_key : option StepKey;
  as_kind : ArtifactKind;
  as_title : text;
  as_summary : text;
  as_tokens : N;
  as_created_at : Z;
}.

Inductive ArtifactError : Type :=
| MissingTitle
| MissingSummary
| EmptyBody
| InvalidStepKey (key : text)
| MissingArtifactId
| MissingTaskId.

(** ** Operations *)

(** [u32::try_from(..).unwrap_or(u32::MAX)] of a rounded-up quotient. *)
Definition artifact_tokens (t : text) : N :=
  N.min u32_max (div_ceil (N.of_nat (length t)) ARTIFACT_CHARS_PER_TOKEN).

(** Byte offset of the [char_index]th character, or the end. *)
Definition byte_offset (t : text) (char_index : N) : N :=
  if char_index <? N.of_nat (length t) then byte_len (take (N.to_nat char_index) t) else byte_len t.

Definition artifact_slice (body : text) (from_token to_token : N) : option text :=
  if to_token <=? from_token then Some [] else
  let from_char := usize_sat_mul from_token ARTIFACT_CHARS_PER_TOKEN in
  let to_char := usize_sat_mul to_token ARTIFACT_CHARS_PER_TOKEN in
  let start := byte_offset body from_char in
  let end_ := byte_offset body to_char in
  byte_slice body start end_.

Definition step_key_of (raw : option text) : result (option StepKey) ArtifactError :=
  match raw with
  | None => Ok None
  | Some raw =>
      match StepKey_parse raw with
      | Ok key => Ok (Some key)
      | Err _ => Err (InvalidStepKey raw)
      end
  end.

Definition Artifact_from_parts (p : ArtifactParts) : result Artifact ArtifactError :=
  if is_empty (trim (ap_id p)) then Err MissingArtifactId else
  if is_empty (trim (ap_task_id p)) then Err MissingTaskId else
  let? step_key := step_key_of (ap_step_key p) in
  let title := one_line (ap_title p) in
  if is_empty title then Err MissingTitle else
  let summary := one_line (ap_summary p) in
  if is_empty summary then Err MissingSummary else
  if is_empty (trim (ap_body p)) then Err EmptyBody else
  let tokens := artifact_tokens (ap_body p) in
  Ok {| ar_id := ap_id p; ar_task_id := ap_task_id p; ar_step_key := step_key;
        ar_kind := ap_kind p; ar_title := cap_text title MAX_ARTIFACT_TITLE_CHARS;
        ar_summary := cap_text summary MAX_ARTIFACT_SUMMARY_CHARS; ar_body := ap_body p;
        ar_tokens := tokens; ar_created_at := ap_created_at p |}.

Definition Artifact_new (uuid task_id : text) (step_key : option StepKey) (kind : ArtifactKind)
    (title summary body : text) (at_ : Z) : result Artifact ArtifactError :=
  Artifact_from_parts
    {| ap_id := uuid; ap_task_id := task_id; ap_step_key := step_key; ap_kind := kind;
       ap_title := title; ap_summary := summary; ap_body := body; ap_created_at := at_ |}.

Definition slice (a : Artifact) (from_token to_token : N) : option text :=
  artifact_slice (ar_body a) from_token to_token.

Definition summary_view (a : Artifact) : ArtifactSummary :=
  {| as_id := ar_id a; as_task_id := ar_task_id a; as_step_key := ar_step_key a;
     as_kind := ar_kind a; as_title := ar_title a; as_summary := ar_summary a;
     as_tokens := ar_tokens a; as_created_at := ar_created_at a |}.

(** The columns an artifact is stored by: what its accessors return. *)
Definition parts_of_artifact (a : Artifact) : ArtifactParts :=
  {| ap_id := ar_id a; ap_task_id := ar_task_id a; ap_step_key := ar_step_key a;
     ap_kind := ar_kind a; ap_title := ar_title a; ap_summary := ar_summary a;
     ap_body := ar_body a; ap_created_at := ar_created_at a |}.

(** ** Lemmas *)

(** The characters of the tokens [[from, to)]. *)
Definition token_chars (body : text) (from_token to_token : N) : text :=
  take (N.to_nat (4 * to_token) - N.to_nat (4 * from_token)) (drop (N.to_nat (4 * from_token)) body).

Lemma byte_offset_take t i : byte_offset t i = byte_len (take (N.to_nat i) t).
Proof.
  unfold byte_offset. destruct (N.ltb_spec i (N.of_nat (length t))); [done|].
  by rewrite take_ge by lia.
Qed.

Lemma u32_chars_fit n : n ≤ u32_max → usize_sat_mul n ARTIFACT_CHARS_PER_TOKEN = 4 * n.
Proof. unfold usize_sat_mul, ARTIFACT_CHARS_PER_TOKEN, u32_max, u64_max. lia. Qed.

Lemma artifact_slice_spec body i j :
  i ≤ u32_max → j ≤ u32_max → artifact_slice body i j = Some (token_chars body i j).
Proof.
  intros Hi Hj. unfold artifact_slice, token_chars. destruct (N.leb_spec j i) as [Hji|Hij].
  - replace (N.to_nat (4 * j) - N.to_nat (4 * i))%nat with 0%nat by lia. done.
  - rewrite !u32_chars_fit, !byte_offset_take by done. apply byte_slice_chars. lia.
Qed.

Lemma token_chars_join body i j k :
  i ≤ j ≤ k → token_chars body i j ++ token_chars body j k = token_chars body i k.
Proof.
  intros Hij. unfold token_chars.
  set (a := N.to_nat (4 * i)). set (b := N.to_nat (4 * j)). set (c := N.to_nat (4 * k)).
  assert (a ≤ b ≤ c)%nat by (unfold a, b, c; lia).
  replace (drop b body) with (drop (b - a) (drop a body)) by (rewrite drop_drop; f_equal; lia).
  replace (c - a)%nat with ((b - a) + (c - b))%nat by lia. by rewrite take_take_drop.
Qed.

Lemma token_chars_all body : N.of_nat (length body) ≤ 4 * u32_max →
  token_chars body 0 (artifact_tokens body) = body.
Proof.
  intros Hlen. unfold token_chars, artifact_tokens, ARTIFACT_CHARS_PER_TOKEN.
  pose proof (div_ceil_bounds (N.of_nat (length body)) 4 ltac:(lia)).
  rewrite drop_0, take_ge; [done|]. lia.
Qed.

Lemma title_marker_fits :
  (length (cut_marker MAX_ARTIFACT_TITLE_CHARS) < MAX_ARTIFACT_TITLE_CHARS)%nat ∧
  ∃ ws, Forall word ws ∧ cut_marker MAX_ARTIFACT_TITLE_CHARS = lit " " ++ join (lit " ") ws.
Proof.
  split; [apply Nat.ltb_lt; vm_compute; reflexivity|].
  exists [lit "[cut"; lit "to"; lit "80"; lit "characters]"]. split; [|reflexivity].
  repeat (apply Forall_cons; split); try apply Forall_nil; try exact I;
    (split; [discriminate|]; repeat (apply Forall_cons; split; [reflexivity|]); by apply Forall_nil).
Qed.

Lemma summary_line_marker_fits :
  (length (cut_marker MAX_ARTIFACT_SUMMARY_CHARS) < MAX_ARTIFACT_SUMMARY_CHARS)%nat ∧
  ∃ ws, Forall word ws ∧ cut_marker MAX_ARTIFACT_SUMMARY_CHARS = lit " " ++ join (lit " ") ws.
Proof.
  split; [apply Nat.ltb_lt; vm_compute; reflexivity|].
  exists [lit "[cut"; lit "to"; lit "200"; lit "characters]"]. split; [|reflexivity].
  repeat (apply Forall_cons; split); try apply Forall_nil; try exact I;
    (split; [discriminate|]; repeat (apply Forall_cons; split; [reflexivity|]); by apply Forall_nil).
Qed.

(** A line cut to a cap is cut again to itself. *)
Lemma capped_line t n : (length (cut_marker n) < n)%nat ∧
    (∃ ws, Forall word ws ∧ cut_marker n = lit " " ++ join (lit " ") ws) →
  one_line t ≠ [] →
  one_line (cap_text (one_line t) n) = cap_text (one_line t) n ∧
  cap_text (cap_text (one_line t) n) n = cap_text (one_line t) n ∧
  cap_text (one_line t) n ≠ [] ∧ (length (cap_text (one_line t) n) ≤ n)%nat.
Proof.
  intros [Hn Hm] Hne.
  split; [by apply one_lined_one_line, cap_text_one_lined, one_line_one_lined|].
  split; [by apply cap_text_idemp|]. split; [|apply cap_text_length].
  apply cap_text_nonempty; [done|].
  rewrite trimmed_trim by apply one_lined_trimmed, one_line_one_lined. done.
Qed.

Lemma Artifact_from_parts_ok p a :
  Artifact_from_parts p = Ok a →
  Artifact_from_parts (parts_of_artifact a) = Ok a ∧
  ar_tokens a = artifact_tokens (ar_body a) ∧ ar_body a = ap_body p ∧ ar_task_id a = ap_task_id p ∧
  (length (ar_title a) ≤ MAX_ARTIFACT_TITLE_CHARS)%nat ∧
  (length (ar_summary a) ≤ MAX_ARTIFACT_SUMMARY_CHARS)%nat.
Proof.
  intros H. unfold Artifact_from_parts in H.
  destruct (is_empty (trim (ap_id p))) eqn:Ei; [done|].
  destruct (is_empty (trim (ap_task_id p))) eqn:Et; [done|].
  apply result_bind_ok in H as (key & Hkey & H).
  destruct (is_empty (one_line (ap_title p))) eqn:Eti; [done|].
  destruct (is_empty (one_line (ap_summary p))) eqn:Esu; [done|].
  destruct (is_empty (trim (ap_body p))) eqn:Eb; [done|]. injection H as <-.
  apply is_empty_false in Eti, Esu.
  destruct (capped_line _ _ title_marker_fits Eti) as (T1 & T2 & T3%is_empty_false & T4).
  destruct (capped_line _ _ summary_line_marker_fits Esu) as (S1 & S2 & S3%is_empty_false & S4).
  split; [|done]. unfold Artifact_from_parts. simpl. rewrite Ei, Et.
  assert (step_key_of key = Ok key) as ->.
  { unfold step_key_of in Hkey |- *. destruct (ap_step_key p) as [raw|]; [|by injection Hkey as <-].
    destruct (StepKey_parse raw) as [k|] eqn:Ek; [|done]. injection Hkey as <-.
    apply StepKey_parse_ok in Ek as [_ Hv]. by rewrite StepKey_parse_valid. }
  simpl. rewrite T1, T2, T3, S1, S2, S3, Eb. done.
Qed.

(** ** Properties *)

(** Pages join back into the body: a slice by tokens never falls inside a character, is exactly
    the characters those tokens stand for, consecutive slices concatenate to the slice of the
    whole range, and the slice from 0 to the count of tokens is the body (for a body of at most
    four [u32::MAX] characters, beyond which the count saturates). *)
Theorem artifact_pages_join body i j k :
  i ≤ j → j ≤ k → k ≤ u32_max →
  (∃ a b, artifact_slice body i j = Some a ∧ artifact_slice body j k = Some b ∧
     artifact_slice body i k = Some (a ++ b) ∧
     (N.of_nat (length a) ≤ 4 * (j - i) ∧ (4 * j ≤ N.of_nat (length body) → N.of_nat (length a) = 4 * (j - i)))) ∧
  (N.of_nat (length body) ≤ 4 * u32_max → artifact_slice body 0 (artifact_tokens body) = Some body).
Proof.
  intros Hij Hjk Hk. split.
  - exists (token_chars body i j), (token_chars body j k).
    rewrite !artifact_slice_spec, token_chars_join by lia.
    split; [done|]. split; [done|]. split; [done|].
    unfold token_chars. rewrite length_take, length_drop. lia.
  - intros Hlen. rewrite artifact_slice_spec; [by rewrite token_chars_all|unfold u32_max; lia|].
    unfold artifact_tokens. lia.
Qed.

(** A body of accented letters, which are two bytes each. *)
Definition accents : text := [233; 97; 233; 98; 233; 99; 233; 100; 233; 101].

Lemma artifact_pages_join_witness :
  ∃ a b, artifact_slice accents 0 1 = Some a ∧ artifact_slice accents 1 3 = Some b ∧
    a ++ b = accents.
Proof.
  destruct (artifact_pages_join accents 0 1 3) as [(a & b & Ha & Hb & _ & _) _];
    [lia|lia|unfold u32_max; lia|].
  exists a, b. split; [exact Ha|]. split; [exact Hb|].
  vm_compute in Ha, Hb. injection Ha as <-. injection Hb as <-. reflexivity.
Defined.

(** An artifact reads back from its stored columns as itself: what [from_parts] accepts is in
    the form it produces (title and summary one line each, capped, not blank, the token count
    the body's own), so reading and writing rows is stable; and it refuses exactly the rows with
    a blank id, task, title, summary or body or a bad step key. *)
Theorem artifact_row_roundtrip p :
  (∀ a, Artifact_from_parts p = Ok a →
     Artifact_from_parts (parts_of_artifact a) = Ok a ∧
     ar_tokens a = artifact_tokens (ar_body a) ∧ ar_body a = ap_body p ∧
     (length (ar_title a) ≤ MAX_ARTIFACT_TITLE_CHARS)%nat ∧
     (length (ar_summary a) ≤ MAX_ARTIFACT_SUMMARY_CHARS)%nat) ∧
  (is_ok (Artifact_from_parts p) = true ↔
     trim (ap_id p) ≠ [] ∧ trim (ap_task_id p) ≠ [] ∧
     (∀ k, ap_step_key p = Some k → valid_key (trim k)) ∧
     one_line (ap_title p) ≠ [] ∧ one_line (ap_summary p) ≠ [] ∧ trim (ap_body p) ≠ []).
Proof.
  split.
  - intros a H%Artifact_from_parts_ok. tauto.
  - unfold Artifact_from_parts. rewrite <-!is_empty_false.
    destruct (is_empty (trim (ap_id p))); simpl; [by split; [|intros [? _]]|].
    destruct (is_empty (trim (ap_task_id p))); simpl; [by split; [|intros (_&?&_)]|].
    unfold step_key_of. destruct (ap_step_key p) as [raw|]; simpl.
    + destruct (StepKey_parse raw) as [k|e] eqn:Ek; simpl.
      * apply StepKey_parse_ok in Ek as [-> Hv].
        destruct (is_empty (one_line (ap_title p))), (is_empty (one_line (ap_summary p))),
          (is_empty (trim (ap_body p))); simpl;
          (split; [intros E; try discriminate E|intros (_&_&_&?&?&?); congruence]).
        do 2 (split; [reflexivity|]). split; [intros k' [= <-]; exact Hv|]. done.
      * split; [done|]. intros (_&_&Hv&_). specialize (Hv raw eq_refl).
        by rewrite (proj2 (StepKey_parse_ok raw (trim raw))) in Ek.
    + destruct (is_empty (one_line (ap_title p))), (is_empty (one_line (ap_summary p))),
        (is_empty (trim (ap_body p))); simpl;
        (split; [intros E; try discriminate E|intros (_&_&_&?&?&?); congruence]).
      do 2 (split; [reflexivity|]). split; [by intros k|]. done.
Qed.
