(* ===== verification/Ledger.v ===== *)
(** * Ledger: the store of long tasks, its port and its in-memory implementation

    [crates/pond-core/src/shared/ports/long_task.rs]: the trait [LongTaskRepository], a call per
    method ([RepoCall]), and [LongTaskOwnerFilter].
    [crates/pond-core/src/shared/mocks/mock_long_task.rs]: [MockLongTaskRepository], which
    restates the store's semantics over three vectors in insertion order. Each method holds the
    ledger's lock from start to end, so each is one step of the state. The ledger is the
    reference the SQLite store is proved against. *)
From S2P Require Import Prelude Prog Text Scope LongTask HandBack Step PlanCycle Plan Artifact.
Local Open Scope N_scope.

(** ** The port *)

Inductive LongTaskOwnerFilter : Type :=
| Everyone
| Member (id : text)
| Unowned.

(** What an [anyhow::Error] of a method carries: the domain's refusals as they are, and a
    variant per [bail!]. *)
Inductive RepoError : Type :=
| TaskExists (id : text)
| TaskRefused (e : LongTaskStateRefused)
| NoTaskToPlan (id : text)
| TakesNoPlan (id : text) (state : LongTaskState)
| PlanIsStale (e : StalePlan)
| NoSuchStep (key task_id : text)
| StepRefused (e : StepStateRefused)
| NoTaskForArtifact (task_id : text)
| ArtifactExists (id : text)
| Invalid (e : ArtifactError)
| InvalidPlan (e : PlanError)
| Vanished (id : text)
| Unreadable (what : text)
| Constraint (table : text)
| MovedMeanwhile (id : text).

Inductive RepoCall : Type → Type :=
| CreateTask (task : LongTask) : RepoCall (result unit RepoError)
| GetTask (id : text) : RepoCall (result (option LongTask) RepoError)
| ListTasks (owner : LongTaskOwnerFilter) (include_finished : bool) :
    RepoCall (result (list LongTask) RepoError)
| SetTaskState (id : text) (state : LongTaskState) (at_ : Z) :
    RepoCall (result (option LongTask) RepoError)
| DecideTaskAnswer (id : text) (answer : AnswerShape) : RepoCall (result bool RepoError)
| ReplaceOpenSteps (plan : ValidatedPlan) : RepoCall (result unit RepoError)
| ListSteps (task_id : text) : RepoCall (result (list PlanStep) RepoError)
| UpdateStep (step : PlanStep) : RepoCall (result unit RepoError)
| InsertArtifact (artifact : Artifact) : RepoCall (result unit RepoError)
| GetArtifact (task_id artifact_id : text) : RepoCall (result (option Artifact) RepoError)
| ListArtifacts (task_id : text) : RepoCall (result (list ArtifactSummary) RepoError)
| DeleteTask (id : text) : RepoCall (result bool RepoError)
| DeleteArtifact (task_id artifact_id : text) : RepoCall (result bool RepoError).

(** The trait: an implementation over states [S]. *)
Class LongTaskRepository (S : Type) := repository : Handler RepoCall S.

(** ** The ledger *)

Record Ledger := {
  lg_tasks : list LongTask;
  lg_steps : list PlanStep;
  lg_artifacts : list Artifact;
}.

Definition empty_ledger : Ledger := {| lg_tasks := []; lg_steps := []; lg_artifacts := [] |}.
Definition with_tasks (ts : list LongTask) (l : Ledger) : Ledger :=
  {| lg_tasks := ts; lg_steps := lg_steps l; lg_artifacts := lg_artifacts l |}.
Definition with_steps (ss : list PlanStep) (l : Ledger) : Ledger :=
  {| lg_tasks := lg_tasks l; lg_steps := ss; lg_artifacts := lg_artifacts l |}.
Definition with_artifacts (rs : list Artifact) (l : Ledger) : Ledger :=
  {| lg_tasks := lg_tasks l; lg_steps := lg_steps l; lg_artifacts := rs |}.

Definition is_task (id : text) (t : LongTask) : bool := bool_decide (task_id t = id).
Definition of_task (id : text) (s : PlanStep) : bool := bool_decide (ps_task_id s = id).
Definition is_step (id key : text) (s : PlanStep) : bool :=
  bool_decide (ps_task_id s = id) && bool_decide (ps_key s = key).
Definition artifact_of (id : text) (a : Artifact) : bool := bool_decide (ar_task_id a = id).
Definition is_artifact (id : text) (a : Artifact) : bool := bool_decide (ar_id a = id).

Definition owned_by (task : LongTask) (owner : LongTaskOwnerFilter) : bool :=
  match owner with
  | Everyone => true
  | Member id => bool_decide (task_owner task = Some id)
  | Unowned => bool_decide (task_owner task = None)
  end.

Definition create_task (task : LongTask) (l : Ledger) : result unit RepoError * Ledger :=
  if existsb (is_task (task_id task)) (lg_tasks l) then (Err (TaskExists (task_id task)), l)
  else (Ok tt, with_tasks (lg_tasks l ++ [task]) l).

Definition get_task (id : text) (l : Ledger) : option LongTask :=
  find_first (is_task id) (lg_tasks l).

(** Reversed first, so the stable sort leaves same-instant tasks newest-inserted first. *)
Definition newer (a b : LongTask) : bool := (task_created_at b <=? task_created_at a)%Z.
Definition list_tasks (owner : LongTaskOwnerFilter) (include_finished : bool) (l : Ledger) :
    list LongTask :=
  sort_with newer
    (List.filter (λ t, include_finished || negb (is_terminal (task_state t)))
       (List.filter (λ t, owned_by t owner) (rev (lg_tasks l)))).

Definition set_task_state (id : text) (state : LongTaskState) (at_ : Z) (l : Ledger) :
    result (option LongTask) RepoError * Ledger :=
  match get_task id l with
  | None => (Ok None, l)
  | Some task =>
      match transition_to task state at_ with
      | Err e => (Err (TaskRefused e), l)
      | Ok task => (Ok (Some task), with_tasks (set_first (is_task id) task (lg_tasks l)) l)
      end
  end.

Definition decide_task_answer (id : text) (answer : AnswerShape) (l : Ledger) : bool * Ledger :=
  match get_task id l with
  | None => (false, l)
  | Some task =>
      let '(task, changed) := decide_answer task answer in
      (changed, with_tasks (set_first (is_task id) task (lg_tasks l)) l)
  end.

Definition kept_by_replan (id : text) (s : PlanStep) : bool :=
  negb (of_task id s) || survives_replan (ps_state s).

Definition replace_open_steps (plan : ValidatedPlan) (l : Ledger) :
    result unit RepoError * Ledger :=
  let id := vp_task_id plan in
  match get_task id l with
  | None => (Err (NoTaskToPlan id), l)
  | Some task =>
      if is_terminal (task_state task) then (Err (TakesNoPlan id (task_state task)), l) else
      match check_current plan (stored_pairs (List.filter (of_task id) (lg_steps l))) with
      | Err e => (Err (PlanIsStale e), l)
      | Ok _ =>
          (Ok tt, with_steps (List.filter (kept_by_replan id) (lg_steps l) ++ vp_steps plan) l)
      end
  end.

Definition list_steps (id : text) (l : Ledger) : list PlanStep :=
  sort_by ps_ordinal (List.filter (of_task id) (lg_steps l)).

Definition update_step (step : PlanStep) (l : Ledger) : result unit RepoError * Ledger :=
  let mine := is_step (ps_task_id step) (ps_key step) in
  match find_first mine (lg_steps l) with
  | None => (Err (NoSuchStep (ps_key step) (ps_task_id step)), l)
  | Some stored =>
      if negb (StepState_can_become (ps_state stored) (ps_state step))
      then (Err (StepRefused {| ssr_step := ps_key step; ssr_from := ps_state stored;
                                ssr_to := ps_state step |}), l)
      else (Ok tt, with_steps (set_first mine step (lg_steps l)) l)
  end.

Definition insert_artifact (artifact : Artifact) (l : Ledger) : result unit RepoError * Ledger :=
  if negb (existsb (is_task (ar_task_id artifact)) (lg_tasks l))
  then (Err (NoTaskForArtifact (ar_task_id artifact)), l) else
  if existsb (is_artifact (ar_id artifact)) (lg_artifacts l)
  then (Err (ArtifactExists (ar_id artifact)), l)
  else (Ok tt, with_artifacts (lg_artifacts l ++ [artifact]) l).

Definition get_artifact (id artifact_id : text) (l : Ledger) : option Artifact :=
  find_first (λ a, is_artifact artifact_id a && artifact_of id a) (lg_artifacts l).

Definition older (a b : Artifact) : bool := (ar_created_at a <=? ar_created_at b)%Z.
Definition list_artifacts (id : text) (l : Ledger) : list ArtifactSummary :=
  summary_view <$> sort_with older (List.filter (artifact_of id) (lg_artifacts l)).

Definition delete_task (id : text) (l : Ledger) : bool * Ledger :=
  let kept := List.filter (λ t, negb (is_task id t)) (lg_tasks l) in
  if (length kept =? length (lg_tasks l))%nat then (false, with_tasks kept l) else
  (true, {| lg_tasks := kept;
            lg_steps := List.filter (λ s, negb (of_task id s)) (lg_steps l);
            lg_artifacts := List.filter (λ a, negb (artifact_of id a)) (lg_artifacts l) |}).

Definition delete_artifact (id artifact_id : text) (l : Ledger) : bool * Ledger :=
  let kept :=
    List.filter (λ a, negb (artifact_of id a && is_artifact artifact_id a)) (lg_artifacts l) in
  ((length kept <? length (lg_artifacts l))%nat, with_artifacts kept l).

(** The trait's implementation. *)
#[export] Instance MockLongTaskRepository : LongTaskRepository Ledger := λ R c,
  match c in RepoCall R return Ledger → R * Ledger with
  | CreateTask task => create_task task
  | GetTask id => λ l, (Ok (get_task id l), l)
  | ListTasks owner fin => λ l, (Ok (list_tasks owner fin l), l)
  | SetTaskState id state at_ => set_task_state id state at_
  | DecideTaskAnswer id answer => λ l, let '(b, l) := decide_task_answer id answer l in (Ok b, l)
  | ReplaceOpenSteps plan => replace_open_steps plan
  | ListSteps id => λ l, (Ok (list_steps id l), l)
  | UpdateStep step => update_step step
  | InsertArtifact artifact => insert_artifact artifact
  | GetArtifact id artifact_id => λ l, (Ok (get_artifact id artifact_id l), l)
  | ListArtifacts id => λ l, (Ok (list_artifacts id l), l)
  | DeleteTask id => λ l, let '(b, l) := delete_task id l in (Ok b, l)
  | DeleteArtifact id artifact_id =>
      λ l, let '(b, l) := delete_artifact id artifact_id l in (Ok b, l)
  end.

(** ** What the ledger keeps *)

Record ledger_ok (l : Ledger) : Prop := {
  lo_tasks : NoDup (task_id <$> lg_tasks l);
  lo_steps : NoDup ((λ s, (ps_task_id s, ps_key s)) <$> lg_steps l);
  lo_artifacts : NoDup (ar_id <$> lg_artifacts l);
  lo_step_task : ∀ s, s ∈ lg_steps l → ps_task_id s ∈ task_id <$> lg_tasks l;
  lo_artifact_task : ∀ a, a ∈ lg_artifacts l → ar_task_id a ∈ task_id <$> lg_tasks l;
  lo_well_formed : ∀ t, t ∈ lg_tasks l → well_formed t ∧ end_stamped t;
  lo_well_run : ∀ s, s ∈ lg_steps l → valid_key (ps_key s) ∧ well_run s;
}.

(** What a checked plan is, and all the store relies on. *)
Record plan_writable (p : ValidatedPlan) : Prop := {
  pw_keys : NoDup (ps_key <$> vp_steps p);
  pw_steps : ∀ s, s ∈ vp_steps p → ps_task_id s = vp_task_id p ∧ valid_key (ps_key s) ∧ well_run s;
}.

(** The values callers build through the domain's constructors. *)
Definition admissible {R} (c : RepoCall R) : Prop :=
  match c with
  | CreateTask t => well_formed t ∧ end_stamped t
  | ReplaceOpenSteps p => plan_writable p
  | UpdateStep s => valid_key (ps_key s) ∧ well_run s
  | _ => True
  end.

(** The task a call writes to; none for one that only reads. *)
Definition writes_to {R} (c : RepoCall R) : option text :=
  match c with
  | CreateTask t => Some (task_id t)
  | SetTaskState id _ _ | DecideTaskAnswer id _ | DeleteTask id | DeleteArtifact id _ => Some id
  | ReplaceOpenSteps p => Some (vp_task_id p)
  | UpdateStep s => Some (ps_task_id s)
  | InsertArtifact a => Some (ar_task_id a)
  | GetTask _ | ListTasks _ _ | ListSteps _ | GetArtifact _ _ | ListArtifacts _ => None
  end.

(** All the ledger holds of one task. *)
Definition view (id : text) (l : Ledger) : option LongTask * list PlanStep * list Artifact :=
  (get_task id l, List.filter (of_task id) (lg_steps l), List.filter (artifact_of id) (lg_artifacts l)).

(** ** Lemmas: one call *)

Lemma is_task_true id t : is_task id t = true ↔ task_id t = id.
Proof. apply bool_decide_eq_true. Qed.
Lemma is_task_false id t : is_task id t = false ↔ task_id t ≠ id.
Proof. apply bool_decide_eq_false. Qed.
Lemma of_task_true id s : of_task id s = true ↔ ps_task_id s = id.
Proof. apply bool_decide_eq_true. Qed.
Lemma of_task_false id s : of_task id s = false ↔ ps_task_id s ≠ id.
Proof. apply bool_decide_eq_false. Qed.
Lemma artifact_of_true id a : artifact_of id a = true ↔ ar_task_id a = id.
Proof. apply bool_decide_eq_true. Qed.
Lemma artifact_of_false id a : artifact_of id a = false ↔ ar_task_id a ≠ id.
Proof. apply bool_decide_eq_false. Qed.
Lemma is_step_true id key s : is_step id key s = true ↔ (ps_task_id s, ps_key s) = (id, key).
Proof. unfold is_step. rewrite andb_true_iff, !bool_decide_eq_true. intuition congruence. Qed.

Lemma get_task_spec l id t : NoDup (task_id <$> lg_tasks l) →
  get_task id l = Some t ↔ t ∈ lg_tasks l ∧ task_id t = id.
Proof. apply find_first_key. intros t'. apply is_task_true. Qed.

Lemma get_task_None l id : get_task id l = None ↔ id ∉ task_id <$> lg_tasks l.
Proof.
  unfold get_task. rewrite find_first_None, list_elem_of_fmap. split.
  - intros H (t & Hid & Ht). specialize (H t Ht). apply is_task_false in H. congruence.
  - intros H t Ht. apply is_task_false. intros Hid. apply H. by exists t.
Qed.

Lemma existsb_tasks l id : existsb (is_task id) (lg_tasks l) = true ↔ id ∈ task_id <$> lg_tasks l.
Proof.
  rewrite existsb_elem_of, list_elem_of_fmap. setoid_rewrite is_task_true.
  split; intros (t & ? & ?); exists t; auto.
Qed.

(** Replacing a task by one with its id. *)
Lemma set_task_ok id t t' l :
  ledger_ok l → get_task id l = Some t → task_id t' = task_id t → well_formed t' → end_stamped t' →
  ledger_ok (with_tasks (set_first (is_task id) t' (lg_tasks l)) l).
Proof.
  intros [H1 H2 H3 H4 H5 H6 H7] Hg Hid Hw He.
  assert (task_id <$> set_first (is_task id) t' (lg_tasks l) = task_id <$> lg_tasks l) as E
    by (eapply set_first_fmap; [exact Hg|exact Hid]).
  split; simpl; rewrite ?E; try assumption.
  intros u [->|Hu]%elem_of_set_first; [by split|by apply H6].
Qed.

Lemma filter_tasks_ok id l : ledger_ok l →
  ledger_ok {| lg_tasks := List.filter (λ t, negb (is_task id t)) (lg_tasks l);
               lg_steps := List.filter (λ s, negb (of_task id s)) (lg_steps l);
               lg_artifacts := List.filter (λ a, negb (artifact_of id a)) (lg_artifacts l) |}.
Proof.
  intros [H1 H2 H3 H4 H5 H6 H7].
  assert (∀ x, x ≠ id → x ∈ task_id <$> lg_tasks l →
    x ∈ task_id <$> List.filter (λ t, negb (is_task id t)) (lg_tasks l)) as Hin.
  { intros x Hne (t & -> & Ht)%list_elem_of_fmap. apply list_elem_of_fmap_2, elem_of_filter_bool.
    split; [done|]. by apply negb_true_iff, is_task_false. }
  split; simpl; try by apply NoDup_fmap_filter.
  - intros s [Hs Hn]%elem_of_filter_bool. apply negb_true_iff, of_task_false in Hn.
    apply Hin; [exact Hn|by apply H4].
  - intros a [Ha Hn]%elem_of_filter_bool. apply negb_true_iff, artifact_of_false in Hn.
    apply Hin; [exact Hn|by apply H5].
  - intros t [Ht _]%elem_of_filter_bool. by apply H6.
  - intros s [Hs _]%elem_of_filter_bool. by apply H7.
Qed.

Lemma elem_of_kept_by_replan id ss s :
  s ∈ List.filter (kept_by_replan id) ss ↔
  s ∈ ss ∧ (ps_task_id s ≠ id ∨ survives_replan (ps_state s) = true).
Proof.
  rewrite elem_of_filter_bool. unfold kept_by_replan.
  by rewrite orb_true_iff, negb_true_iff, of_task_false.
Qed.

(** What a replan that is taken found: the task is there and open, and the check passed. *)
Lemma replace_open_steps_ok p l l' :
  replace_open_steps p l = (Ok tt, l') ↔
  (∃ t, get_task (vp_task_id p) l = Some t ∧ is_terminal (task_state t) = false) ∧
  check_current p (stored_pairs (List.filter (of_task (vp_task_id p)) (lg_steps l))) = Ok tt ∧
  l' = with_steps (List.filter (kept_by_replan (vp_task_id p)) (lg_steps l) ++ vp_steps p) l.
Proof.
  unfold replace_open_steps. destruct (get_task _ l) as [t|]; [|split; [done|by intros [(? & ? & _) _]]].
  destruct (is_terminal (task_state t)) eqn:E.
  { split; [done|]. intros [(u & [= <-] & ?) _]. congruence. }
  destruct (check_current _ _) as [[]|e].
  - split; [intros [= <-]; split; [by exists t|done]|by intros (_ & _ & ->)].
  - split; [done|by intros (_ & ? & _)].
Qed.

Lemma replace_open_steps_err p l e l' : replace_open_steps p l = (Err e, l') → l' = l.
Proof.
  unfold replace_open_steps. destruct (get_task _ l) as [t|]; [|by intros [= _ <-]].
  destruct (is_terminal _); [by intros [= _ <-]|]. destruct (check_current _ _); [done|].
  by intros [= _ <-].
Qed.

Lemma insert_artifact_err a l e l' : insert_artifact a l = (Err e, l') → l' = l.
Proof.
  unfold insert_artifact. destruct (negb _); [by intros [= _ <-]|].
  destruct (existsb (is_artifact (ar_id a)) (lg_artifacts l)); [by intros [= _ <-]|done].
Qed.

Lemma task_steps_nodup ss id : NoDup ((λ s, (ps_task_id s, ps_key s)) <$> ss) →
  NoDup (ps_key <$> List.filter (of_task id) ss).
Proof.
  intros Hnd. induction ss as [|s ss IH]; simpl; [constructor|].
  rewrite fmap_cons in Hnd. apply NoDup_cons in Hnd as [Hs Hnd].
  destruct (of_task id s) eqn:E; [|by apply IH]. simpl. apply NoDup_cons. split; [|by apply IH].
  intros (u & Hk & [Hu Hid]%elem_of_filter_bool)%list_elem_of_fmap. apply Hs, list_elem_of_fmap.
  exists u. apply of_task_true in E, Hid. by rewrite Hk, E, Hid.
Qed.

Lemma replanned_nodup p l : ledger_ok l → plan_writable p →
  check_current p (stored_pairs (List.filter (of_task (vp_task_id p)) (lg_steps l))) = Ok tt →
  NoDup ((λ s, (ps_task_id s, ps_key s)) <$>
         List.filter (kept_by_replan (vp_task_id p)) (lg_steps l) ++ vp_steps p).
Proof.
  intros Hl Hp Hc. rewrite fmap_app. apply NoDup_app. split; [apply NoDup_fmap_filter, Hl|].
  split.
  - intros x (s & -> & Hs)%list_elem_of_fmap (u & E & Hu)%list_elem_of_fmap.
    apply elem_of_kept_by_replan in Hs as [Hs Hk]. destruct (pw_steps _ Hp u Hu) as [Hid _].
    injection E as E1 E2. rewrite Hid in E1. destruct Hk as [?|Hk]; [done|].
    apply check_current_ok in Hc as [_ Hnew].
    specialize (Hnew u (ps_state s) Hu). rewrite Hnew in Hk; [done|].
    rewrite <-E2. apply (step_states_elem (List.filter (of_task (vp_task_id p)) (lg_steps l))).
    + by apply task_steps_nodup, Hl.
    + apply elem_of_filter_bool. split; [done|by apply of_task_true].
  - assert (∀ ss, (∀ s, s ∈ ss → s ∈ vp_steps p) → NoDup (ps_key <$> ss) →
      NoDup ((λ s, (ps_task_id s, ps_key s)) <$> ss)) as H; [|by apply H; [|apply Hp]].
    clear. induction ss as [|s ss IH]; intros Hin; simpl; [constructor|].
    intros [Hs Hnd]%NoDup_cons. apply NoDup_cons.
    split; [|apply IH; [intros u Hu; apply Hin; by right|done]].
    intros (u & E & Hu)%list_elem_of_fmap. injection E as _ E. apply Hs. rewrite E.
    by apply list_elem_of_fmap_2.
Qed.

(** ** Lemmas: every call *)

Lemma task_step_ok id t t' l :
  ledger_ok l → get_task id l = Some t → task_step t t' →
  ledger_ok (with_tasks (set_first (is_task id) t' (lg_tasks l)) l).
Proof.
  intros Hl Hg Hs. pose proof (task_step_same _ _ Hs) as Hsame.
  assert (t ∈ lg_tasks l) as Ht by (by apply find_some_iff in Hg as [? _]).
  destruct (lo_well_formed _ Hl t Ht) as [Hw He].
  apply (set_task_ok id t); try assumption; [apply Hsame| |].
  - by eapply well_formed_same.
  - by eapply end_stamped_step.
Qed.

Lemma call_ledger_ok {R} (c : RepoCall R) l :
  ledger_ok l → admissible c → ledger_ok (repository R c l).2.
Proof.
  intros Hl Hc. destruct c; unfold repository, MockLongTaskRepository; simpl; try exact Hl.
  - unfold create_task. destruct (existsb (is_task (task_id task)) (lg_tasks l)) eqn:E; [exact Hl|]. simpl.
    apply not_true_iff_false in E. rewrite existsb_tasks in E.
    destruct Hl as [H1 H2 H3 H4 H5 H6 H7]. split; simpl; rewrite ?fmap_app; try assumption.
    + apply NoDup_app. split; [done|]. split; [|apply NoDup_singleton].
      intros x Hx ->%elem_of_one. by apply E.
    + intros s Hs. apply elem_of_app. left. by apply H4.
    + intros a Ha. apply elem_of_app. left. by apply H5.
    + intros t [Ht| ->%elem_of_one]%elem_of_app; [by apply H6|exact Hc].
  - unfold set_task_state. destruct (get_task id l) as [t|] eqn:Eg; [|exact Hl].
    destruct (transition_to t state at_) as [t'|e] eqn:Et; [|exact Hl]. simpl.
    eapply task_step_ok; [done|exact Eg|by econstructor].
  - unfold decide_task_answer. destruct (get_task id l) as [t|] eqn:Eg; [|exact Hl].
    destruct (decide_answer t answer) as [t' b] eqn:Et. simpl.
    eapply task_step_ok; [done|exact Eg|]. replace t' with (decide_answer t answer).1 by (by rewrite Et).
    constructor.
  - destruct (replace_open_steps plan l) as [[[]|e] l'] eqn:E; simpl; cycle 1.
    { apply replace_open_steps_err in E as ->. exact Hl. }
    apply replace_open_steps_ok in E as ((t & Ht & _) & Hck & ->).
    pose proof (replanned_nodup _ _ Hl Hc Hck) as Hnd.
    destruct Hl as [H1 H2 H3 H4 H5 H6 H7]. split; simpl; try assumption.
    + intros s [[Hs _]%elem_of_kept_by_replan|Hs]%elem_of_app; [by apply H4|].
      rewrite (proj1 (pw_steps _ Hc s Hs)). apply get_task_spec in Ht as [Ht <-]; [|done].
      by apply list_elem_of_fmap_2.
    + intros s [[Hs _]%elem_of_kept_by_replan|Hs]%elem_of_app; [by apply H7|]. by apply (pw_steps _ Hc).
  - unfold update_step. destruct (find_first _ _) as [s|] eqn:Ef; [|exact Hl].
    destruct (negb _); [exact Hl|]. simpl. pose proof Ef as [Hs Hk%is_step_true]%find_some_iff.
    destruct Hl as [H1 H2 H3 H4 H5 H6 H7]. split; simpl; try assumption.
    + by erewrite set_first_fmap by (exact Ef || congruence).
    + intros u [->|Hu]%elem_of_set_first; [|by apply H4]. injection Hk as Hk _. rewrite <-Hk. by apply H4.
    + intros u [->|Hu]%elem_of_set_first; [exact Hc|by apply H7].
  - unfold insert_artifact. destruct (negb _) eqn:E1; [exact Hl|].
    destruct (existsb (is_artifact (ar_id artifact)) (lg_artifacts l)) eqn:E2; [exact Hl|]. simpl. apply negb_false_iff, existsb_tasks in E1.
    destruct Hl as [H1 H2 H3 H4 H5 H6 H7]. split; simpl; try assumption.
    + rewrite fmap_app. apply NoDup_app. split; [done|]. split; [|apply NoDup_singleton].
      intros x (a & -> & Ha)%list_elem_of_fmap Hx%elem_of_one.
      apply not_true_iff_false in E2. apply E2, existsb_elem_of. exists a. split; [done|].
      by apply bool_decide_eq_true.
    + intros a [Ha| ->%elem_of_one]%elem_of_app; [by apply H5|done].
  - unfold delete_task. destruct (_ =? _)%nat eqn:E; simpl; [|by apply filter_tasks_ok].
    apply Nat.eqb_eq in E. rewrite filter_length_eq by exact E. by destruct l.
  - destruct Hl as [H1 H2 H3 H4 H5 H6 H7]. split; simpl; try assumption.
    + by apply NoDup_fmap_filter.
    + intros a [Ha _]%elem_of_filter_bool. by apply H5.
Qed.

(** A call leaves what the ledger holds of every other task as it is. *)
Lemma call_frame {R} (c : RepoCall R) l id :
  admissible c → writes_to c ≠ Some id → view id (repository R c l).2 = view id l.
Proof.
  intros Hc Hw. unfold view.
  destruct c; unfold repository, MockLongTaskRepository; simpl in *; try reflexivity.
  - unfold create_task. destruct (existsb (is_task (task_id task)) (lg_tasks l)); [done|]. simpl. f_equal. f_equal.
    apply find_first_snoc, is_task_false. congruence.
  - unfold set_task_state. destruct (get_task id0 l) as [t|] eqn:Eg; [|done].
    destruct (transition_to t state at_) as [t'|e] eqn:Et; [|done]. simpl. f_equal. f_equal.
    apply transition_to_ok in Et as (_ & (Hid & _) & _).
    pose proof Eg as [_ Hk%is_task_true]%find_some_iff.
    assert (is_task id t = false) as Hf by (apply is_task_false; congruence).
    apply (find_first_set_other _ _ _ _ t); [exact Eg| |exact Hf].
    rewrite Hf. apply is_task_false. congruence.
  - unfold decide_task_answer. destruct (get_task id0 l) as [t|] eqn:Eg; [|done].
    destruct (decide_answer t answer) as [t' b] eqn:Et. simpl. f_equal. f_equal.
    assert (task_id t' = task_id t) as Hid.
    { pose proof (decide_answer_fst t answer) as H. rewrite Et in H. simpl in H. by destruct H as [->| ->]. }
    pose proof Eg as [_ Hk%is_task_true]%find_some_iff.
    assert (is_task id t = false) as Hf by (apply is_task_false; congruence).
    apply (find_first_set_other _ _ _ _ t); [exact Eg| |exact Hf].
    rewrite Hf. apply is_task_false. congruence.
  - destruct (replace_open_steps plan l) as [[[]|e] l'] eqn:E; simpl; cycle 1.
    { by apply replace_open_steps_err in E as ->. }
    apply replace_open_steps_ok in E as (_ & _ & ->). simpl. f_equal. f_equal.
    rewrite List.filter_app, filter_filter_id, (filter_none _ (vp_steps plan)), app_nil_r; [done| |].
    + intros s Hs. apply of_task_false. rewrite (proj1 (pw_steps _ Hc s Hs)). congruence.
    + intros s Hs%of_task_true. unfold kept_by_replan. apply orb_true_iff. left.
      apply negb_true_iff, of_task_false. congruence.
  - unfold update_step. destruct (find_first _ _) as [s|] eqn:Ef; [|done].
    destruct (negb _); [done|]. simpl. f_equal. f_equal.
    pose proof Ef as [_ [= Hk _]%is_step_true]%find_some_iff.
    apply (set_first_filter _ _ _ _ s); [exact Ef| |]; apply of_task_false; congruence.
  - unfold insert_artifact. destruct (negb _); [done|]. destruct (existsb (is_artifact (ar_id artifact)) (lg_artifacts l)); [done|]. simpl.
    f_equal. rewrite List.filter_app. simpl.
    assert (artifact_of id artifact = false) as -> by (apply artifact_of_false; congruence).
    by rewrite app_nil_r.
  - unfold delete_task. destruct (_ =? _)%nat eqn:E; simpl.
    + apply Nat.eqb_eq in E. rewrite filter_length_eq by exact E. by destruct l.
    + f_equal; [f_equal|]; [apply find_first_filter|apply filter_filter_id|apply filter_filter_id];
        intros x Hx; apply negb_true_iff;
        [apply is_task_true in Hx; apply is_task_false|apply of_task_true in Hx; apply of_task_false|
         apply artifact_of_true in Hx; apply artifact_of_false]; congruence.
  - f_equal. apply filter_filter_id. intros a Ha%artifact_of_true. apply negb_true_iff.
    apply andb_false_iff. left. apply artifact_of_false. congruence.
Qed.

(** ** The life of the ledger *)

Definition repo_step (l l' : Ledger) : Prop :=
  ∃ R (c : RepoCall R), admissible c ∧ l' = (repository R c l).2.

Lemma empty_ledger_ok : ledger_ok empty_ledger.
Proof. split; simpl; try apply NoDup_nil_2; by intros ? ?%elem_of_nil. Qed.

Lemma reachable_ok l : star repo_step empty_ledger l → ledger_ok l.
Proof.
  intros H. refine (star_invariant repo_step ledger_ok _ _ _ H empty_ledger_ok).
  intros s t Hs (R & c & Hc & ->). by apply call_ledger_ok.
Qed.

Definition deletes {R} (c : RepoCall R) (id : text) : Prop :=
  match c with DeleteTask id' => id' = id | _ => False end.
Definition deletes_artifact {R} (c : RepoCall R) (a : Artifact) : Prop :=
  match c with
  | DeleteTask id => id = ar_task_id a
  | DeleteArtifact id artifact_id => id = ar_task_id a ∧ artifact_id = ar_id a
  | _ => False
  end.

(** Which calls write which of the ledger's three lists. *)
Definition writes_tasks {R} (c : RepoCall R) : bool :=
  match c with
  | CreateTask _ | SetTaskState _ _ _ | DecideTaskAnswer _ _ | DeleteTask _ => true
  | _ => false
  end.
Definition writes_steps {R} (c : RepoCall R) : bool :=
  match c with ReplaceOpenSteps _ | UpdateStep _ | DeleteTask _ => true | _ => false end.
Definition writes_artifacts {R} (c : RepoCall R) : bool :=
  match c with InsertArtifact _ | DeleteTask _ | DeleteArtifact _ _ => true | _ => false end.

Ltac unfold_call :=
  unfold repository, MockLongTaskRepository, create_task, set_task_state, decide_task_answer,
    replace_open_steps, update_step, insert_artifact, delete_artifact.
Ltac call_cases := repeat (case_match; simplify_eq/=).

Lemma call_tasks_same {R} (c : RepoCall R) l :
  writes_tasks c = false → lg_tasks (repository R c l).2 = lg_tasks l.
Proof. destruct c; intros [=]; unfold_call; by call_cases. Qed.

Lemma call_steps_same {R} (c : RepoCall R) l :
  writes_steps c = false → lg_steps (repository R c l).2 = lg_steps l.
Proof. destruct c; intros [=]; unfold_call; by call_cases. Qed.

Lemma call_artifacts_same {R} (c : RepoCall R) l :
  writes_artifacts c = false → lg_artifacts (repository R c l).2 = lg_artifacts l.
Proof. destruct c; intros [=]; unfold_call; by call_cases. Qed.

(** A task one call moves goes a step of its lifecycle. *)
Lemma task_after_call {R} (c : RepoCall R) l id t t' :
  ledger_ok l → get_task id l = Some t → get_task id (repository R c l).2 = Some t' →
  t' = t ∨ task_step t t'.
Proof.
  intros Hl Hg. assert (∀ l', lg_tasks l' = lg_tasks l → get_task id l' = Some t' → t' = t) as Hsame.
  { intros l' E. unfold get_task in *. rewrite E. congruence. }
  assert (∀ id' u u', get_task id' l = Some u → task_id u' = task_id u → (u' = u ∨ task_step u u') →
    get_task id (with_tasks (set_first (is_task id') u' (lg_tasks l)) l) = Some t' →
    t' = t ∨ task_step t t') as Hset.
  { intros id' u u' Hu Hid Hmove Hg'. pose proof Hu as [Hin Hk%is_task_true]%find_some_iff.
    destruct (decide (id' = id)) as [->|Hne].
    - assert (u = t) as -> by congruence. pose proof Hu as (l1 & l2 & E & _ & Hl1 & Hs)%find_first_split.
      unfold get_task, with_tasks in Hg'. simpl in Hg'. rewrite Hs in Hg'.
      rewrite find_first_app in Hg'; [|exact Hl1|apply is_task_true; congruence].
      by injection Hg' as <-.
    - left. unfold get_task, with_tasks in Hg'. simpl in Hg'.
      assert (is_task id u = false) as Hf by (apply is_task_false; congruence).
      rewrite (find_first_set_other _ _ _ _ u) in Hg'; [unfold get_task in Hg; congruence|exact Hu| |exact Hf].
      rewrite Hf. apply is_task_false. congruence. }
  destruct (writes_tasks c) eqn:Ew;
    [|intros H; left; by apply (Hsame (repository R c l).2); [apply call_tasks_same|]].
  destruct c; try discriminate Ew; unfold repository, MockLongTaskRepository; simpl.
  - unfold create_task. destruct (existsb (is_task (task_id task)) (lg_tasks l)) eqn:E;
      [intros H; left; by apply (Hsame l)|]. intros H. left.
    destruct (decide (task_id task = id)) as [Heq|Hne].
    + apply not_true_iff_false in E. rewrite existsb_tasks, Heq, <-get_task_None in E. congruence.
    + unfold get_task in H. simpl in H. rewrite find_first_snoc in H; [unfold get_task in Hg; congruence|].
      by apply is_task_false.
  - unfold set_task_state. destruct (get_task id0 l) as [u|] eqn:Eu; [|intros H; left; by apply (Hsame l)].
    destruct (transition_to u state at_) as [u'|e] eqn:Et; [|intros H; left; by apply (Hsame l)].
    apply (Hset id0 u u' Eu); [by apply transition_to_ok in Et as (_ & (? & _) & _)|].
    right. by econstructor.
  - unfold decide_task_answer. destruct (get_task id0 l) as [u|] eqn:Eu; [|intros H; left; by apply (Hsame l)].
    destruct (decide_answer u answer) as [u' b] eqn:Et. simpl.
    assert (task_step u u') as Hs.
    { replace u' with (decide_answer u answer).1 by (by rewrite Et). constructor. }
    apply (Hset id0 u u' Eu); [by apply task_step_same in Hs as [? _]|by right].
  - intros H. left. destruct (decide (id0 = id)) as [->|Hne].
    + unfold delete_task in H. destruct (_ =? _)%nat eqn:E; simpl in H.
      * apply Nat.eqb_eq in E. rewrite filter_length_eq in H by exact E. by eapply Hsame; [|exact H].
      * apply find_some_iff in H as [[_ Hn%negb_true_iff]%elem_of_filter_bool Hy]. congruence.
    + pose proof (call_frame (DeleteTask id0) l id I ltac:(simpl; congruence)) as Hf.
      injection Hf as Hf _ _. unfold repository, MockLongTaskRepository in Hf. simpl in Hf.
      rewrite Hf in H. congruence.
Qed.

(** A task is there until it is deleted. *)
Lemma task_stays {R} (c : RepoCall R) l id t :
  get_task id l = Some t → is_Some (get_task id (repository R c l).2) ∨ deletes c id.
Proof.
  intros Hg. assert (id ∈ task_id <$> lg_tasks l) as Hin.
  { apply dec_stable. rewrite <-get_task_None. congruence. }
  assert (∀ l', task_id <$> lg_tasks l' = task_id <$> lg_tasks l → is_Some (get_task id l')) as Hsame.
  { intros l' E. destruct (get_task id l') eqn:E0; [by eexists|]. by rewrite get_task_None, E in E0. }
  destruct (writes_tasks c) eqn:Ew; [|left; apply Hsame; by rewrite call_tasks_same].
  destruct c; try discriminate Ew; unfold repository, MockLongTaskRepository; simpl.
  - unfold create_task. destruct (existsb (is_task (task_id task)) (lg_tasks l)); left; [by apply Hsame|].
    destruct (get_task id (with_tasks (lg_tasks l ++ [task]) l)) eqn:E0; [by eexists|]. apply get_task_None in E0. exfalso. apply E0. cbn [with_tasks lg_tasks].
    rewrite fmap_app, elem_of_app. by left.
  - unfold set_task_state. destruct (get_task id0 l) as [u|] eqn:Eu; [|left; by apply Hsame].
    destruct (transition_to u state at_) as [u'|e] eqn:Et; left; apply Hsame; [|done]. simpl.
    eapply set_first_fmap; [exact Eu|]. by apply transition_to_ok in Et as (_ & (? & _) & _).
  - unfold decide_task_answer. destruct (get_task id0 l) as [u|] eqn:Eu; [|left; by apply Hsame].
    pose proof (decide_answer_fst u answer) as H. destruct (decide_answer u answer) as [u' b]. left. apply Hsame. simpl.
    eapply set_first_fmap; [exact Eu|]. simpl in H. by destruct H as [->| ->].
  - destruct (decide (id0 = id)) as [->|Hne]; [by right|]. left.
    pose proof (call_frame (DeleteTask id0) l id I ltac:(simpl; congruence)) as [= Hf _ _].
    unfold repository, MockLongTaskRepository in Hf. simpl in Hf. rewrite Hf, Hg. by eexists.
Qed.

(** Started and finished steps stay, move, or go with their task. *)
Lemma step_after_call {R} (c : RepoCall R) l s :
  ledger_ok l → s ∈ lg_steps l → survives_replan (ps_state s) = true →
  s ∈ lg_steps (repository R c l).2 ∨
  (∃ s', s' ∈ lg_steps (repository R c l).2 ∧ ps_task_id s' = ps_task_id s ∧ ps_key s' = ps_key s ∧
     StepState_can_become (ps_state s) (ps_state s') = true) ∨
  deletes c (ps_task_id s).
Proof.
  intros Hl Hs Hk.
  destruct (writes_steps c) eqn:Ew; [|left; by rewrite call_steps_same].
  destruct c; try discriminate Ew; unfold repository, MockLongTaskRepository; simpl.
  - destruct (replace_open_steps plan l) as [[[]|e] l'] eqn:E; simpl; left.
    + apply replace_open_steps_ok in E as (_ & _ & ->). simpl. apply elem_of_app. left.
      apply elem_of_kept_by_replan. by auto.
    + by apply replace_open_steps_err in E as ->.
  - unfold update_step. destruct (find_first _ _) as [u|] eqn:Ef; [|left; exact Hs].
    destruct (negb _) eqn:Ec; [left; exact Hs|]. apply negb_false_iff in Ec. simpl.
    destruct (is_step (ps_task_id step) (ps_key step) s) eqn:Ei; [|left; by apply elem_of_set_first_other].
    right. left. exists step.
    assert (u = s) as ->.
    { pose proof (proj2 (find_first_key _ (ps_task_id step, ps_key step) _ _ s
        (is_step_true _ _) (lo_steps _ Hl)) (conj Hs (proj1 (is_step_true _ _ _) Ei))) as E. congruence. }
    apply is_step_true in Ei as [= -> ->].
    pose proof Ef as (l1 & l2 & _ & _ & _ & Hset)%find_first_split. rewrite Hset.
    split; [|done]. apply elem_of_app. right. left.
  - destruct (decide (id = ps_task_id s)) as [->|Hne]; [by right; right|]. left.
    unfold delete_task. destruct (_ =? _)%nat; simpl; [exact Hs|]. apply elem_of_filter_bool.
    split; [exact Hs|]. by apply negb_true_iff, of_task_false.
Qed.

Lemma artifact_after_call {R} (c : RepoCall R) l a :
  a ∈ lg_artifacts l → a ∈ lg_artifacts (repository R c l).2 ∨ deletes_artifact c a.
Proof.
  intros Ha. destruct (writes_artifacts c) eqn:Ew; [|left; by rewrite call_artifacts_same].
  destruct c; try discriminate Ew; unfold repository, MockLongTaskRepository; simpl.
  - unfold insert_artifact. destruct (negb _); [left; exact Ha|].
    destruct (existsb (is_artifact (ar_id artifact)) (lg_artifacts l)); left; [exact Ha|].
    simpl. apply elem_of_app. by left.
  - destruct (decide (id = ar_task_id a)) as [->|Hne]; [by right|]. left.
    unfold delete_task. destruct (_ =? _)%nat; simpl; [exact Ha|]. apply elem_of_filter_bool.
    split; [exact Ha|]. by apply negb_true_iff, artifact_of_false.
  - destruct (decide (task_id = ar_task_id a ∧ artifact_id = ar_id a)) as [?|Hn]; [by right|]. left.
    apply elem_of_filter_bool. split; [exact Ha|]. apply negb_true_iff, andb_false_iff.
    destruct (decide (task_id = ar_task_id a)) as [->|?]; [right|left; by apply artifact_of_false].
    apply bool_decide_eq_false. intros <-. by apply Hn.
Qed.

Lemma plan_ok_writable task existing p : plan_ok task existing p → plan_writable p.
Proof.
  intros Hok. split; [apply Hok|]. intros s Hs.
  pose proof (po_fresh _ _ _ Hok) as Hf. rewrite Forall_forall in Hf. specialize (Hf s Hs).
  rewrite (po_task _ _ _ Hok). split; [apply Hf|]. split; apply Hf.
Qed.

Lemma filter_of_task_replanned p l : plan_writable p →
  List.filter (of_task (vp_task_id p))
    (List.filter (kept_by_replan (vp_task_id p)) (lg_steps l) ++ vp_steps p) =
  List.filter (λ s, survives_replan (ps_state s)) (List.filter (of_task (vp_task_id p)) (lg_steps l)) ++
  vp_steps p.
Proof.
  intros Hp. rewrite List.filter_app. f_equal.
  - induction (lg_steps l) as [|s ss IH]; [done|]. simpl. unfold kept_by_replan at 1.
    destruct (of_task (vp_task_id p) s) eqn:E; simpl.
    + destruct (survives_replan (ps_state s)); simpl; [by rewrite E, IH|done].
    + by rewrite E.
  - pose proof (pw_steps _ Hp) as H. clear Hp. revert H. generalize (vp_task_id p) as id.
    induction (vp_steps p) as [|s ss IH]; intros id H; [done|]. simpl.
    rewrite (proj2 (of_task_true id s)) by (by apply H; left). f_equal. apply IH.
    intros u Hu. apply H. by right.
Qed.

Lemma elem_of_list_steps id l s : s ∈ list_steps id l ↔ s ∈ lg_steps l ∧ ps_task_id s = id.
Proof. unfold list_steps. by rewrite elem_of_sort_by, elem_of_filter_bool, of_task_true. Qed.

(** ** Properties *)

(** C24: the ledger stays whole: after any calls with values the domain built, task ids, the keys of
    one task's steps and artifact ids are distinct, every step and artifact has its task, every
    task is well formed and stamped with its end exactly when it has ended, and every step's run
    fields agree with its state; and a call leaves all that is held of the other tasks alone. *)
Theorem ledger_invariant {R} (c : RepoCall R) l :
  star repo_step empty_ledger l → admissible c →
  ledger_ok (repository R c l).2 ∧
  ∀ id, writes_to c ≠ Some id → view id (repository R c l).2 = view id l.
Proof.
  intros Hl%reachable_ok Hc. split; [by apply call_ledger_ok|]. intros id. by apply call_frame.
Qed.

(** C14: no call loses work. A task that is there stays, unless the call deletes it, and moves at most
    one step of its lifecycle, so a finished one does not move; a completed or running step stays as
    it is, or moves as its state allows, or goes with its task, so a replan and a late writer leave
    completed work alone; an artifact stays as it is until it or its task is deleted. *)
Theorem ledger_keeps_work {R} (c : RepoCall R) l :
  star repo_step empty_ledger l →
  (∀ id t, get_task id l = Some t →
     (∃ t', get_task id (repository R c l).2 = Some t' ∧ (t' = t ∨ task_step t t') ∧
        (is_terminal (task_state t) = true → task_state t' = task_state t)) ∨ deletes c id) ∧
  (∀ s, s ∈ lg_steps l → survives_replan (ps_state s) = true →
     s ∈ lg_steps (repository R c l).2 ∨
     (ps_state s = StepState.Running ∧ ∃ s', s' ∈ lg_steps (repository R c l).2 ∧
        ps_task_id s' = ps_task_id s ∧ ps_key s' = ps_key s ∧
        StepState_can_become (ps_state s) (ps_state s') = true) ∨
     deletes c (ps_task_id s)) ∧
  (∀ a, a ∈ lg_artifacts l → a ∈ lg_artifacts (repository R c l).2 ∨ deletes_artifact c a).
Proof.
  intros Hl%reachable_ok. split; [|split].
  - intros id t Hg. destruct (task_stays c l id t Hg) as [[t' Hg']|?]; [|by right]. left. exists t'. split; [done|].
    destruct (task_after_call c l id t t' Hl Hg Hg') as [->|Hs]; [auto|].
    split; [by right|]. intros Ht. destruct Hs as [t next at_ t' H|t a|t k|t a]; try done.
    + apply transition_to_ok in H as (Hc & _). by rewrite terminal_cannot_move in Hc.
    + by destruct (decide_answer_fst t a) as [-> | ->].
  - intros s Hs Hk. destruct (step_after_call c l s Hl Hs Hk) as [?|[(s' & H)|?]]; auto.
    right. left. split; [|by exists s']. destruct H as (_ & _ & _ & Hc).
    by destruct (ps_state s).
  - intros a. apply artifact_after_call.
Qed.

(** C15: writing a plan that was checked against an earlier listing is safe however the steps have
    moved since: it is refused and nothing changes, or every step the plan kept is still completed
    or running, exactly the task's open steps are replaced by the plan's, all others stay as they
    were and in their order, the keys stay distinct, and every wait of a new step is for a step
    that is there. The task's step budget holds too when no further step has started. *)
Theorem replan_is_safe task drafts existing p l r l' :
  star repo_step empty_ledger l → validate_plan task drafts existing = Ok p →
  replace_open_steps p l = (r, l') →
  match r with
  | Err _ => l' = l
  | Ok _ =>
      let kept := List.filter (λ s, survives_replan (ps_state s))
                    (List.filter (of_task (task_id task)) (lg_steps l)) in
      (∀ k, k ∈ vp_kept p → k ∈ ps_key <$> kept) ∧
      List.filter (of_task (task_id task)) (lg_steps l') = kept ++ vp_steps p ∧
      (∀ id, id ≠ task_id task → view id l' = view id l) ∧
      NoDup (ps_key <$> list_steps (task_id task) l') ∧
      (∀ s dep, s ∈ vp_steps p → dep ∈ ps_depends_on s →
         dep ∈ ps_key <$> list_steps (task_id task) l') ∧
      (length kept = length (vp_kept p) →
         N.of_nat (length (list_steps (task_id task) l')) ≤ max_steps (task_budget task))
  end.
Proof.
  intros Hl%reachable_ok [Hok _]%validate_plan_ok Hr.
  destruct r as [[]|e]; [|by eapply replace_open_steps_err].
  pose proof (plan_ok_writable _ _ _ Hok) as Hpw. pose proof Hr as (Ht & Hck & ->)%replace_open_steps_ok.
  pose proof (po_task _ _ _ Hok) as Hid. rewrite <-Hid. cbv zeta.
  pose proof (filter_of_task_replanned p l Hpw) as Hf.
  set (kept := List.filter (λ s, survives_replan (ps_state s)) _) in *.
  assert (∀ k, k ∈ vp_kept p → k ∈ ps_key <$> kept) as Hkept.
  { intros k Hk. apply check_current_ok in Hck as [Hck _]. destruct (Hck k Hk) as (st & Hst & Hsv).
    change (collect_map _) with (step_states (List.filter (of_task (vp_task_id p)) (lg_steps l))) in Hst.
    apply step_states_Some in Hst as (s & Hs & <- & <-). apply list_elem_of_fmap_2.
    by apply elem_of_filter_bool. }
  assert (∀ s, s ∈ list_steps (vp_task_id p)
     (with_steps (List.filter (kept_by_replan (vp_task_id p)) (lg_steps l) ++ vp_steps p) l) ↔
     s ∈ kept ++ vp_steps p) as Hin.
  { intros s. unfold list_steps. rewrite elem_of_sort_by. simpl. by rewrite Hf. }
  split; [exact Hkept|]. split; [exact Hf|]. split; [|split; [|split]].
  - intros id Hne. pose proof (call_frame (ReplaceOpenSteps p) l id Hpw) as Hfr.
    unfold repository, MockLongTaskRepository in Hfr. rewrite Hr in Hfr. apply Hfr. simpl. congruence.
  - unfold list_steps. rewrite sort_by_perm. simpl. apply task_steps_nodup.
    by apply replanned_nodup.
  - intros s dep Hs Hd. apply list_elem_of_fmap.
    destruct (po_waits _ _ _ Hok s dep Hs Hd) as [(u & -> & Hu)%list_elem_of_fmap|Hk].
    + exists u. split; [done|]. apply Hin, elem_of_app. by right.
    + apply Hkept, list_elem_of_fmap in Hk as (u & -> & Hu). exists u. split; [done|].
      apply Hin, elem_of_app. by left.
  - intros Hlen. unfold list_steps. rewrite length_sort_by. simpl. rewrite Hf, length_app, Hlen.
    apply Hok.
Qed.

(** The trip of [trip_task]: its dates are done, and the rest is planned anew. *)
Definition after {R} (c : RepoCall R) (l : Ledger) : Ledger := (repository R c l).2.
Definition dates_plan : ValidatedPlan :=
  match validate_plan trip_task [draft "dates" []] [] with Ok p => p | Err _ => good_plan end.
Definition dates_running : PlanStep :=
  match vp_steps dates_plan with s :: _ => after_call s (CallStart 6) | [] => dates_step end.
Definition dates_done : PlanStep :=
  after_call dates_running
    (CallRecord (StepOutcome_new OutcomeKind.Completed (lit "two weeks in May") [] None) 7).
Definition trip_ledger : Ledger :=
  after (UpdateStep dates_done) (after (UpdateStep dates_running)
    (after (ReplaceOpenSteps dates_plan) (after (CreateTask trip_task) empty_ledger))).

Lemma trip_task_ok : well_formed trip_task ∧ end_stamped trip_task.
Proof.
  split; [|by split; [intros [? [=]]|]].
  apply (well_formed_same cancelled_task); [done|exact cancelled_task_well_formed].
Qed.

Lemma dates_plan_ok : plan_ok trip_task [] dates_plan.
Proof. by apply (validate_plan_ok trip_task [draft "dates" []]). Qed.

Lemma dates_steps_ok : (valid_key (ps_key dates_running) ∧ well_run dates_running) ∧
  (valid_key (ps_key dates_done) ∧ well_run dates_done).
Proof.
  destruct (pw_steps _ (plan_ok_writable _ _ _ dates_plan_ok) (default dates_step (head (vp_steps dates_plan))))
    as (_ & Hk & Hr); [by vm_compute; left|].
  assert (well_run dates_running) as H1 by (by apply after_call_well_run).
  split; [split; [exact Hk|exact H1]|]. split; [exact Hk|]. apply after_call_well_run; [exact H1|].
  apply (StepOutcome_new_normal OutcomeKind.Completed _ [] None HandBackAsks_default); done.
Qed.

Lemma trip_ledger_reachable : star repo_step empty_ledger trip_ledger.
Proof.
  destruct dates_steps_ok as [H1 H2].
  eapply star_step; [exists _, (CreateTask trip_task); split; [exact trip_task_ok|reflexivity]|].
  eapply star_step; [exists _, (ReplaceOpenSteps dates_plan); split;
    [exact (plan_ok_writable _ _ _ dates_plan_ok)|reflexivity]|].
  eapply star_step; [exists _, (UpdateStep dates_running); split; [exact H1|reflexivity]|].
  apply star_one. exists _, (UpdateStep dates_done). split; [exact H2|reflexivity].
Qed.

Definition trip_plan : ValidatedPlan :=
  match validate_plan trip_task trip_drafts' (list_steps (lit "t1") trip_ledger) with
  | Ok p => p
  | Err _ => dates_plan
  end.

Lemma trip_plan_ok :
  validate_plan trip_task trip_drafts' (list_steps (lit "t1") trip_ledger) = Ok trip_plan.
Proof. vm_compute. reflexivity. Qed.

Lemma ledger_invariant_witness :
  ledger_ok (after (ReplaceOpenSteps trip_plan) trip_ledger) ∧
  length (lg_steps (after (ReplaceOpenSteps trip_plan) trip_ledger)) = 3%nat.
Proof.
  split; [|vm_compute; reflexivity].
  apply (ledger_invariant (ReplaceOpenSteps trip_plan) trip_ledger); [exact trip_ledger_reachable|].
  apply (plan_ok_writable trip_task (list_steps (lit "t1") trip_ledger)).
  by apply (validate_plan_ok trip_task trip_drafts').
Defined.

Lemma ledger_keeps_work_witness :
  dates_done ∈ lg_steps (after (ReplaceOpenSteps trip_plan) trip_ledger).
Proof.
  destruct (ledger_keeps_work (ReplaceOpenSteps trip_plan) trip_ledger trip_ledger_reachable)
    as (_ & H & _).
  destruct (H dates_done) as [Hin|[(Hr & _)|[]]]; [vm_compute; left|vm_compute; reflexivity|exact Hin|].
  vm_compute in Hr. discriminate Hr.
Defined.

Lemma replan_is_safe_witness :
  ps_key <$> list_steps (lit "t1") (replace_open_steps trip_plan trip_ledger).2
  = [lit "dates"; lit "find-flights"; lit "book-hotel"] ∧
  NoDup (ps_key <$> list_steps (lit "t1") (replace_open_steps trip_plan trip_ledger).2).
Proof.
  split; [vm_compute; reflexivity|].
  apply (replan_is_safe trip_task trip_drafts' (list_steps (lit "t1") trip_ledger) trip_plan trip_ledger
           (Ok tt) (replace_open_steps trip_plan trip_ledger).2 trip_ledger_reachable trip_plan_ok).
  vm_compute. reflexivity.
Defined.
