(* ===== verification/SqlStore.v ===== *)
(** * SqlStore: the SQLite store of long tasks

    [crates/pond-infra/src/sqlite_long_task.rs]: the rows, what is read from them, and each
    method of [SqliteLongTaskRepository] as a program over the statements it sends; and the
    tables those statements run on, from [migrations/system/0062_long_tasks.sql], 0067, 0071
    and 0073, as lists of rows in rowid order with their keys, checks and cascades.
    A statement is one step of the database, and so is a [BEGIN IMMEDIATE] transaction, which
    holds the write lock from start to end; between two statements of a method others may run.

    Not under src/, and parameters here: how [chrono] writes and reads an instant ([sql_ts],
    [parse_ts]), how [serde_json] writes and reads a list of strings and a made agent. The
    tables [profiles] and [sessions] belong to other stores: the ids they hold are parameters. *)
From S2P Require Import Prelude Prog Text Scope LongTask HandBack Step PlanCycle Plan.
From S2P Require Import Artifact Ledger.
Local Open Scope N_scope.

(** ** Tables *)

Record TaskRow := {
  tc_id : text;
  tc_owner : option text;
  tc_scope : text;
  tc_goal : text;
  tc_origin : option text;
  tc_state : text;
  tc_max_steps : Z;
  tc_deadline : option text;
  tc_created_at : text;
  tc_updated_at : text;
  tc_finished_at : option text;
  tc_kind : text;
  tc_answer : text;
}.

Record StepRow := {
  sc_task_id : text;
  sc_key : text;
  sc_ordinal : Z;
  sc_role : text;
  sc_instructions : text;
  sc_inputs : text;
  sc_depends_on : text;
  sc_acceptance : option text;
  sc_state : text;
  sc_attempts : Z;
  sc_summary : option text;
  sc_failure : option text;
  sc_started_at : option text;
  sc_finished_at : option text;
  sc_agent : option text;
}.

Record ArtifactRow := {
  ac_id : text;
  ac_task_id : text;
  ac_step_key : option text;
  ac_kind : text;
  ac_title : text;
  ac_summary : text;
  ac_body : text;
  ac_tokens : Z;
  ac_created_at : text;
}.

Record Db := {
  db_tasks : list TaskRow;
  db_steps : list StepRow;
  db_artifacts : list ArtifactRow;
}.

Definition with_task_rows (rs : list TaskRow) (db : Db) : Db :=
  {| db_tasks := rs; db_steps := db_steps db; db_artifacts := db_artifacts db |}.
Definition with_step_rows (rs : list StepRow) (db : Db) : Db :=
  {| db_tasks := db_tasks db; db_steps := rs; db_artifacts := db_artifacts db |}.
Definition with_artifact_rows (rs : list ArtifactRow) (db : Db) : Db :=
  {| db_tasks := db_tasks db; db_steps := db_steps db; db_artifacts := rs |}.

(** SQL's [trim(x) <> ''], which trims spaces only. *)
Definition sql_blank (t : text) : bool := forallb (N.eqb 32) t.
Definition one_of (words : list text) (t : text) : bool := bool_decide (t ∈ words).
(** [ORDER BY] on a text column: the bytes in order. *)
Definition text_leb (a b : text) : bool :=
  match text_compare a b with Gt => false | _ => true end.

Definition task_check (r : TaskRow) : bool :=
  one_of [lit "owner"; lit "household"; lit "guest"] (tc_scope r) &&
  negb (sql_blank (tc_goal r)) &&
  one_of [lit "planning"; lit "running"; lit "awaiting_approval"; lit "paused";
          lit "completed"; lit "failed"; lit "cancelled"] (tc_state r) &&
  (0 <? tc_max_steps r)%Z &&
  (bool_decide (tc_scope r = lit "owner") && bool_decide (is_Some (tc_owner r)) ||
   bool_decide (tc_scope r = lit "household") ||
   bool_decide (tc_scope r = lit "guest") && bool_decide (tc_owner r = None)) &&
  one_of [lit "general"; lit "research"] (tc_kind r) &&
  one_of [lit "auto"; lit "short"; lit "report"] (tc_answer r).

Definition artifact_check (r : ArtifactRow) : bool :=
  one_of [lit "note"; lit "findings"; lit "draft"; lit "data"] (ac_kind r) &&
  negb (sql_blank (ac_title r)) && negb (sql_blank (ac_summary r)) && (0 <=? ac_tokens r)%Z.

Section store.
Context (sql_ts : Z → text) (parse_ts : text → option Z).
Context (json_of : list text → text) (json_read : text → option (list text)).
Context (json_array : text → bool).
Context (agent_json : StepAgent → text) (agent_read : text → option StepAgent).
Context (profiles sessions : gset text).

Definition step_check (r : StepRow) : bool :=
  negb (sql_blank (sc_key r)) && (0 <=? sc_ordinal r)%Z && negb (sql_blank (sc_role r)) &&
  negb (sql_blank (sc_instructions r)) && json_array (sc_inputs r) &&
  json_array (sc_depends_on r) &&
  one_of [lit "pending"; lit "running"; lit "completed"; lit "failed"; lit "skipped";
          lit "awaiting_approval"] (sc_state r) &&
  (0 <=? sc_attempts r)%Z.

(** A [REFERENCES] column holds a row's id or nothing. *)
Definition refers (ids : gset text) (o : option text) : bool :=
  match o with Some id => bool_decide (id ∈ ids) | None => true end.

(** ** Reading rows *)

Definition readable {A} (what : text) (o : option A) : result A RepoError :=
  match o with Some a => Ok a | None => Err (Unreadable what) end.

Definition parse_opt_ts (raw : option text) : result (option Z) RepoError :=
  match raw with
  | None => Ok None
  | Some raw => let? t := readable (lit "timestamp") (parse_ts raw) in Ok (Some t)
  end.

Definition scope_column (s : ProfileScope) : text :=
  match s with
  | Owner _ => lit "owner"
  | Household => lit "household"
  | Guest => lit "guest"
  end.

Definition scope_from_columns (scope : text) (owner : option text) : result ProfileScope RepoError :=
  if bool_decide (scope = lit "owner") then
    match owner with Some id => Ok (Owner id) | None => Err (Unreadable (lit "scope")) end
  else if bool_decide (scope = lit "household") then Ok Household
  else if bool_decide (scope = lit "guest") then Ok Guest
  else Err (Unreadable (lit "scope")).

(** [u32::try_from]. *)
Definition u32_column (value : Z) (column : text) : result N RepoError :=
  if ((0 <=? value) && (value <=? Z.of_N u32_max))%Z then Ok (Z.to_N value)
  else Err (Unreadable column).

Definition json_list (raw column : text) : result (list text) RepoError :=
  readable column (json_read raw).

Definition row_to_task (r : TaskRow) : result LongTask RepoError :=
  let? scope := scope_from_columns (tc_scope r) (tc_owner r) in
  let? state := readable (lit "state") (LongTaskState_parse (tc_state r)) in
  let? kind := readable (lit "kind") (LongTaskKind_parse (tc_kind r)) in
  let? answer := readable (lit "answer") (AnswerShape_parse (tc_answer r)) in
  let? steps := u32_column (tc_max_steps r) (lit "max_steps") in
  let? dl := parse_opt_ts (tc_deadline r) in
  let? created := readable (lit "timestamp") (parse_ts (tc_created_at r)) in
  let? updated := readable (lit "timestamp") (parse_ts (tc_updated_at r)) in
  let? finished := parse_opt_ts (tc_finished_at r) in
  match LongTask_from_parts
    {| tp_id := tc_id r; tp_owner_profile_id := tc_owner r; tp_scope := scope;
       tp_goal := tc_goal r; tp_origin_session_id := tc_origin r; tp_state := state;
       tp_max_steps := steps; tp_deadline := dl; tp_kind := kind; tp_answer := answer;
       tp_created_at := created; tp_updated_at := updated; tp_finished_at := finished |} with
  | Ok task => Ok task
  | Err _ => Err (Unreadable (lit "task"))
  end.

Definition row_to_step (r : StepRow) : result PlanStep RepoError :=
  let? state := readable (lit "state") (StepState_parse (sc_state r)) in
  let? ordinal := u32_column (sc_ordinal r) (lit "ordinal") in
  let? inputs := json_list (sc_inputs r) (lit "inputs") in
  let? depends_on := json_list (sc_depends_on r) (lit "depends_on") in
  let? attempts := u32_column (sc_attempts r) (lit "attempts") in
  let? started := parse_opt_ts (sc_started_at r) in
  let? finished := parse_opt_ts (sc_finished_at r) in
  let? agent :=
    match sc_agent r with
    | None => Ok None
    | Some raw => let? a := readable (lit "agent") (agent_read raw) in Ok (Some a)
    end in
  match PlanStep_from_parts
    {| pp_task_id := sc_task_id r; pp_key := sc_key r; pp_ordinal := ordinal;
       pp_role := sc_role r; pp_instructions := sc_instructions r; pp_inputs := inputs;
       pp_depends_on := depends_on; pp_acceptance := sc_acceptance r; pp_state := state;
       pp_attempts := attempts; pp_summary := sc_summary r; pp_failure := sc_failure r;
       pp_started_at := started; pp_finished_at := finished; pp_agent := agent |} with
  | Ok step => Ok step
  | Err _ => Err (Unreadable (lit "step"))
  end.

Definition row_to_artifact (r : ArtifactRow) : result Artifact RepoError :=
  let? kind := readable (lit "kind") (ArtifactKind_parse (ac_kind r)) in
  let? created := readable (lit "timestamp") (parse_ts (ac_created_at r)) in
  match Artifact_from_parts
    {| ap_id := ac_id r; ap_task_id := ac_task_id r; ap_step_key := ac_step_key r;
       ap_kind := kind; ap_title := ac_title r; ap_summary := ac_summary r;
       ap_body := ac_body r; ap_created_at := created |} with
  | Ok a => Ok a
  | Err _ => Err (Unreadable (lit "artifact"))
  end.

Definition row_to_artifact_summary (r : ArtifactRow) : result ArtifactSummary RepoError :=
  let? key :=
    match ac_step_key r with
    | None => Ok None
    | Some raw =>
        match StepKey_parse raw with
        | Ok key => Ok (Some key)
        | Err _ => Err (Unreadable (lit "step key"))
        end
    end in
  let? kind := readable (lit "kind") (ArtifactKind_parse (ac_kind r)) in
  let? tokens := u32_column (ac_tokens r) (lit "tokens") in
  let? created := readable (lit "timestamp") (parse_ts (ac_created_at r)) in
  Ok {| as_id := ac_id r; as_task_id := ac_task_id r; as_step_key := key; as_kind := kind;
        as_title := ac_title r; as_summary := ac_summary r; as_tokens := tokens;
        as_created_at := created |}.

(** ** Writing rows: the [bind]s of the three [INSERT]s *)

Definition task_row (t : LongTask) : TaskRow :=
  {| tc_id := task_id t; tc_owner := task_owner t; tc_scope := scope_column (task_scope t);
     tc_goal := task_goal t; tc_origin := task_origin t;
     tc_state := LongTaskState_as_str (task_state t);
     tc_max_steps := Z.of_N (max_steps (task_budget t));
     tc_deadline := sql_ts <$> deadline (task_budget t);
     tc_created_at := sql_ts (task_created_at t); tc_updated_at := sql_ts (task_updated_at t);
     tc_finished_at := sql_ts <$> task_finished_at t;
     tc_kind := LongTaskKind_as_str (task_kind t); tc_answer := AnswerShape_as_str (task_answer t) |}.

Definition step_row (s : PlanStep) : StepRow :=
  {| sc_task_id := ps_task_id s; sc_key := ps_key s; sc_ordinal := Z.of_N (ps_ordinal s);
     sc_role := ps_role s; sc_instructions := ps_instructions s;
     sc_inputs := json_of (ps_inputs s); sc_depends_on := json_of (ps_depends_on s);
     sc_acceptance := ps_acceptance s; sc_state := StepState_as_str (ps_state s);
     sc_attempts := Z.of_N (ps_attempts s); sc_summary := ps_summary s; sc_failure := ps_failure s;
     sc_started_at := sql_ts <$> ps_started_at s; sc_finished_at := sql_ts <$> ps_finished_at s;
     sc_agent := agent_json <$> ps_agent s |}.

Definition artifact_row (a : Artifact) : ArtifactRow :=
  {| ac_id := ar_id a; ac_task_id := ar_task_id a; ac_step_key := ar_step_key a;
     ac_kind := ArtifactKind_as_str (ar_kind a); ac_title := ar_title a;
     ac_summary := ar_summary a; ac_body := ar_body a; ac_tokens := Z.of_N (ar_tokens a);
     ac_created_at := sql_ts (ar_created_at a) |}.
(** ** Statements *)

Definition is_task_row (id : text) (r : TaskRow) : bool := bool_decide (tc_id r = id).
Definition of_task_row (id : text) (r : StepRow) : bool := bool_decide (sc_task_id r = id).
Definition is_step_row (id key : text) (r : StepRow) : bool :=
  of_task_row id r && bool_decide (sc_key r = key).
Definition artifact_row_of (id : text) (r : ArtifactRow) : bool := bool_decide (ac_task_id r = id).
Definition is_artifact_row (id : text) (r : ArtifactRow) : bool := bool_decide (ac_id r = id).

(** [UPDATE]: every row the [WHERE] clause takes is set; the answer is [rows_affected]. *)
Definition update_rows {A} (where_ : A → bool) (set : A → A) (rows : list A) : nat * list A :=
  (length (List.filter where_ rows), (λ r, if where_ r then set r else r) <$> rows).

Definition terminal_states : list text :=
  LongTaskState_as_str <$> List.filter is_terminal LongTaskState_ALL.
Definition open_step_states : list text :=
  StepState_as_str <$> List.filter (λ s, negb (survives_replan s)) StepState_ALL.

Definition insert_task (r : TaskRow) (db : Db) : result unit RepoError * Db :=
  if existsb (is_task_row (tc_id r)) (db_tasks db) || negb (task_check r) ||
     negb (refers profiles (tc_owner r)) || negb (refers sessions (tc_origin r))
  then (Err (Constraint (lit "long_tasks")), db)
  else (Ok tt, with_task_rows (db_tasks db ++ [r]) db).

Definition select_task (id : text) (db : Db) : option TaskRow :=
  find_first (is_task_row id) (db_tasks db).

Definition owner_predicate (owner : LongTaskOwnerFilter) (r : TaskRow) : bool :=
  match owner with
  | Everyone => true
  | Member id => bool_decide (tc_owner r = Some id)
  | Unowned => bool_decide (tc_owner r = None)
  end.

(** [ORDER BY created_at DESC, rowid DESC]. *)
Definition select_tasks (owner : LongTaskOwnerFilter) (include_finished : bool) (db : Db) :
    list TaskRow :=
  sort_with (λ a b, text_leb (tc_created_at b) (tc_created_at a))
    (rev (List.filter (λ r, owner_predicate owner r &&
                            (include_finished || negb (one_of terminal_states (tc_state r))))
            (db_tasks db))).

(** The [SET] and [WHERE] clauses of the three [UPDATE]s. *)
Definition set_answer (answer : text) (r : TaskRow) : TaskRow :=
  {| tc_id := tc_id r; tc_owner := tc_owner r; tc_scope := tc_scope r; tc_goal := tc_goal r;
     tc_origin := tc_origin r; tc_state := tc_state r; tc_max_steps := tc_max_steps r;
     tc_deadline := tc_deadline r; tc_created_at := tc_created_at r;
     tc_updated_at := tc_updated_at r; tc_finished_at := tc_finished_at r; tc_kind := tc_kind r;
     tc_answer := answer |}.
Definition set_state (state updated : text) (finished : option text) (r : TaskRow) : TaskRow :=
  {| tc_id := tc_id r; tc_owner := tc_owner r; tc_scope := tc_scope r; tc_goal := tc_goal r;
     tc_origin := tc_origin r; tc_state := state; tc_max_steps := tc_max_steps r;
     tc_deadline := tc_deadline r; tc_created_at := tc_created_at r; tc_updated_at := updated;
     tc_finished_at := finished; tc_kind := tc_kind r; tc_answer := tc_answer r |}.
Definition set_run (new r : StepRow) : StepRow :=
  {| sc_task_id := sc_task_id r; sc_key := sc_key r; sc_ordinal := sc_ordinal r;
     sc_role := sc_role r; sc_instructions := sc_instructions r; sc_inputs := sc_inputs r;
     sc_depends_on := sc_depends_on r; sc_acceptance := sc_acceptance r; sc_state := sc_state new;
     sc_attempts := sc_attempts new; sc_summary := sc_summary new; sc_failure := sc_failure new;
     sc_started_at := sc_started_at new; sc_finished_at := sc_finished_at new;
     sc_agent := sc_agent r |}.
Definition undecided (id : text) (r : TaskRow) : bool :=
  is_task_row id r && bool_decide (tc_answer r = lit "auto").
Definition task_in (id from : text) (r : TaskRow) : bool :=
  is_task_row id r && bool_decide (tc_state r = from).
Definition step_in (id key from : text) (r : StepRow) : bool :=
  is_step_row id key r && bool_decide (sc_state r = from).

Definition update_answer (id answer : text) (db : Db) : nat * Db :=
  let '(n, rows) := update_rows (undecided id) (set_answer answer) (db_tasks db) in
  (n, with_task_rows rows db).

Definition update_state (id from state updated : text) (finished : option text) (db : Db) :
    nat * Db :=
  let '(n, rows) :=
    update_rows (task_in id from) (set_state state updated finished) (db_tasks db) in
  (n, with_task_rows rows db).

Definition insert_step (r : StepRow) (db : Db) : result Db RepoError :=
  if existsb (is_step_row (sc_task_id r) (sc_key r)) (db_steps db) || negb (step_check r) ||
     negb (existsb (is_task_row (sc_task_id r)) (db_tasks db))
  then Err (Constraint (lit "long_task_steps"))
  else Ok (with_step_rows (db_steps db ++ [r]) db).

Fixpoint insert_steps (steps : list PlanStep) (db : Db) : result Db RepoError :=
  match steps with
  | [] => Ok db
  | step :: steps => let? db := insert_step (step_row step) db in insert_steps steps db
  end.

(** The transaction of [replace_open_steps]: an error leaves by [?] before the [COMMIT]. *)
Definition stored_state (r : StepRow) : result (text * StepState) RepoError :=
  let? state := readable (lit "state") (StepState_parse (sc_state r)) in Ok (sc_key r, state).

Definition replace_tx (plan : ValidatedPlan) (db : Db) : result Db RepoError :=
  let id := vp_task_id plan in
  match select_task id db with
  | None => Err (NoTaskToPlan id)
  | Some row =>
      let? state := readable (lit "state") (LongTaskState_parse (tc_state row)) in
      if is_terminal state then Err (TakesNoPlan id state) else
      let? stored := traverse stored_state (List.filter (of_task_row id) (db_steps db)) in
      match check_current plan stored with
      | Err e => Err (PlanIsStale e)
      | Ok _ =>
          insert_steps (vp_steps plan)
            (with_step_rows
               (List.filter (λ r, negb (of_task_row id r && one_of open_step_states (sc_state r)))
                  (db_steps db)) db)
      end
  end.

Definition transaction (body : Db → result Db RepoError) (db : Db) : result unit RepoError * Db :=
  match body db with Ok db => (Ok tt, db) | Err e => (Err e, db) end.

(** [ORDER BY ordinal ASC, rowid ASC]. *)
Definition select_steps (id : text) (db : Db) : list StepRow :=
  sort_with (λ a b, sc_ordinal a <=? sc_ordinal b)%Z (List.filter (of_task_row id) (db_steps db)).

Definition select_step_state (id key : text) (db : Db) : option text :=
  sc_state <$> find_first (is_step_row id key) (db_steps db).

(** Only the run columns of a step are written. *)
Definition update_run (step : PlanStep) (from : text) (db : Db) : nat * Db :=
  let '(n, rows) :=
    update_rows (step_in (ps_task_id step) (ps_key step) from) (set_run (step_row step))
      (db_steps db) in
  (n, with_step_rows rows db).

Definition insert_artifact_row (r : ArtifactRow) (db : Db) : result unit RepoError * Db :=
  if existsb (is_artifact_row (ac_id r)) (db_artifacts db) || negb (artifact_check r) ||
     negb (existsb (is_task_row (ac_task_id r)) (db_tasks db))
  then (Err (Constraint (lit "long_task_artifacts")), db)
  else (Ok tt, with_artifact_rows (db_artifacts db ++ [r]) db).

Definition select_artifact (id artifact_id : text) (db : Db) : option ArtifactRow :=
  find_first (λ r, is_artifact_row artifact_id r && artifact_row_of id r) (db_artifacts db).

(** [ORDER BY created_at ASC, rowid ASC]. *)
Definition select_artifacts (id : text) (db : Db) : list ArtifactRow :=
  sort_with (λ a b, text_leb (ac_created_at a) (ac_created_at b))
    (List.filter (artifact_row_of id) (db_artifacts db)).

(** [DELETE FROM long_tasks] cascades to the task's steps and artifacts. *)
Definition delete_task_row (id : text) (db : Db) : nat * Db :=
  (length (List.filter (is_task_row id) (db_tasks db)),
   {| db_tasks := List.filter (λ r, negb (is_task_row id r)) (db_tasks db);
      db_steps :=
        List.filter (λ r, negb (existsb (is_task_row id) (db_tasks db) && of_task_row id r)) (db_steps db);
      db_artifacts :=
        List.filter (λ r, negb (existsb (is_task_row id) (db_tasks db) && artifact_row_of id r))
          (db_artifacts db) |}).

Definition delete_artifact_row (id artifact_id : text) (db : Db) : nat * Db :=
  let where_ := λ r, is_artifact_row artifact_id r && artifact_row_of id r in
  (length (List.filter where_ (db_artifacts db)),
   with_artifact_rows (List.filter (λ r, negb (where_ r)) (db_artifacts db)) db).

Inductive Stmt : Type → Type :=
| InsertTask (r : TaskRow) : Stmt (result unit RepoError)
| SelectTask (id : text) : Stmt (option TaskRow)
| SelectTasks (owner : LongTaskOwnerFilter) (include_finished : bool) : Stmt (list TaskRow)
| UpdateAnswer (id answer : text) : Stmt nat
| UpdateState (id : text) (from : LongTaskState) (task : LongTask) : Stmt nat
| ReplaceTx (plan : ValidatedPlan) : Stmt (result unit RepoError)
| SelectSteps (id : text) : Stmt (list StepRow)
| SelectStepState (id key : text) : Stmt (option text)
| UpdateRun (step : PlanStep) (from : StepState) : Stmt nat
| InsertArtifactRow (r : ArtifactRow) : Stmt (result unit RepoError)
| SelectArtifact (id artifact_id : text) : Stmt (option ArtifactRow)
| SelectArtifacts (id : text) : Stmt (list ArtifactRow)
| DeleteTaskRow (id : text) : Stmt nat
| DeleteArtifactRow (id artifact_id : text) : Stmt nat.

Definition sqlite : Handler Stmt Db := λ R st,
  match st in Stmt R return Db → R * Db with
  | InsertTask r => insert_task r
  | SelectTask id => λ db, (select_task id db, db)
  | SelectTasks owner fin => λ db, (select_tasks owner fin db, db)
  | UpdateAnswer id answer => update_answer id answer
  | UpdateState id from task =>
      update_state id (LongTaskState_as_str from) (LongTaskState_as_str (task_state task))
        (sql_ts (task_updated_at task)) (sql_ts <$> task_finished_at task)
  | ReplaceTx plan => transaction (replace_tx plan)
  | SelectSteps id => λ db, (select_steps id db, db)
  | SelectStepState id key => λ db, (select_step_state id key db, db)
  | UpdateRun step from => update_run step (StepState_as_str from)
  | InsertArtifactRow r => insert_artifact_row r
  | SelectArtifact id artifact_id => λ db, (select_artifact id artifact_id db, db)
  | SelectArtifacts id => λ db, (select_artifacts id db, db)
  | DeleteTaskRow id => delete_task_row id
  | DeleteArtifactRow id artifact_id => delete_artifact_row id artifact_id
  end.

(** ** The methods *)

(** [row.map(f).transpose()]. *)
Definition transpose {A B} (f : A → result B RepoError) (o : option A) : result (option B) RepoError :=
  match o with None => Ok None | Some a => let? b := f a in Ok (Some b) end.

(** [filter_map] over rows: one that does not read is left out. *)
Definition read_or_skip {A B} (f : A → result B RepoError) (rows : list A) : list B :=
  omap (λ r, match f r with Ok b => Some b | Err _ => None end) rows.

Definition sql_create_task (task : LongTask) : Prog Stmt (result unit RepoError) :=
  Call (InsertTask (task_row task)) Ret.

Definition sql_get_task (id : text) : Prog Stmt (result (option LongTask) RepoError) :=
  Call (SelectTask id) (λ row, Ret (transpose row_to_task row)).

Definition sql_list_tasks (owner : LongTaskOwnerFilter) (include_finished : bool) :
    Prog Stmt (result (list LongTask) RepoError) :=
  Call (SelectTasks owner include_finished) (λ rows, Ret (Ok (read_or_skip row_to_task rows))).

Definition sql_decide_task_answer (id : text) (answer : AnswerShape) :
    Prog Stmt (result bool RepoError) :=
  if bool_decide (answer = Auto) then Ret (Ok false) else
  Call (UpdateAnswer id (AnswerShape_as_str answer)) (λ n, Ret (Ok (0 <? n)%nat)).

Definition sql_set_task_state (id : text) (state : LongTaskState) (at_ : Z) :
    Prog Stmt (result (option LongTask) RepoError) :=
  prog_bind (sql_get_task id) (λ r,
    match r with
    | Err e => Ret (Err e)
    | Ok None => Ret (Ok None)
    | Ok (Some task) =>
        let from := task_state task in
        match transition_to task state at_ with
        | Err e => Ret (Err (TaskRefused e))
        | Ok task =>
            Call (UpdateState id from task) (λ n,
              if (n =? 0)%nat then
                prog_bind (sql_get_task id) (λ r,
                  match r with
                  | Err e => Ret (Err e)
                  | Ok None => Ret (Ok None)
                  | Ok (Some _) => Ret (Err (MovedMeanwhile id))
                  end)
              else Ret (Ok (Some task)))
        end
    end).

Definition sql_replace_open_steps (plan : ValidatedPlan) : Prog Stmt (result unit RepoError) :=
  Call (ReplaceTx plan) Ret.

Definition sql_list_steps (id : text) : Prog Stmt (result (list PlanStep) RepoError) :=
  Call (SelectSteps id) (λ rows, Ret (traverse row_to_step rows)).

Definition sql_update_step (step : PlanStep) : Prog Stmt (result unit RepoError) :=
  Call (SelectStepState (ps_task_id step) (ps_key step)) (λ stored,
    match stored with
    | None => Ret (Err (NoSuchStep (ps_key step) (ps_task_id step)))
    | Some stored =>
        match readable (lit "state") (StepState_parse stored) with
        | Err e => Ret (Err e)
        | Ok from =>
            if negb (StepState_can_become from (ps_state step))
            then Ret (Err (StepRefused {| ssr_step := ps_key step; ssr_from := from;
                                          ssr_to := ps_state step |}))
            else Call (UpdateRun step from) (λ n,
              Ret (if (n =? 0)%nat then Err (MovedMeanwhile (ps_key step)) else Ok tt))
        end
    end).

Definition sql_insert_artifact (artifact : Artifact) : Prog Stmt (result unit RepoError) :=
  Call (InsertArtifactRow (artifact_row artifact)) Ret.

Definition sql_get_artifact (id artifact_id : text) :
    Prog Stmt (result (option Artifact) RepoError) :=
  Call (SelectArtifact id artifact_id) (λ row, Ret (transpose row_to_artifact row)).

Definition sql_list_artifacts (id : text) : Prog Stmt (result (list ArtifactSummary) RepoError) :=
  Call (SelectArtifacts id) (λ rows, Ret (Ok (read_or_skip row_to_artifact_summary rows))).

Definition sql_delete_task (id : text) : Prog Stmt (result bool RepoError) :=
  Call (DeleteTaskRow id) (λ n, Ret (Ok (0 <? n)%nat)).

Definition sql_delete_artifact (id artifact_id : text) : Prog Stmt (result bool RepoError) :=
  Call (DeleteArtifactRow id artifact_id) (λ n, Ret (Ok (0 <? n)%nat)).

Definition sqlite_method {R} (c : RepoCall R) : Prog Stmt R :=
  match c with
  | CreateTask task => sql_create_task task
  | GetTask id => sql_get_task id
  | ListTasks owner fin => sql_list_tasks owner fin
  | SetTaskState id state at_ => sql_set_task_state id state at_
  | DecideTaskAnswer id answer => sql_decide_task_answer id answer
  | ReplaceOpenSteps plan => sql_replace_open_steps plan
  | ListSteps id => sql_list_steps id
  | UpdateStep step => sql_update_step step
  | InsertArtifact artifact => sql_insert_artifact artifact
  | GetArtifact id artifact_id => sql_get_artifact id artifact_id
  | ListArtifacts id => sql_list_artifacts id
  | DeleteTask id => sql_delete_task id
  | DeleteArtifact id artifact_id => sql_delete_artifact id artifact_id
  end.

(** The trait's implementation, each method run with no other between its statements. *)
Definition SqliteLongTaskRepository : LongTaskRepository Db :=
  λ R c, run sqlite (sqlite_method c).
(** ** What is stored, and what the formats promise *)

(** The instants an RFC 3339 text can write: of the years 1970 to 9999, in nanoseconds. The columns
    keep them to the second. *)
Definition dated (t : Z) : Prop := (0 ≤ t < 253402300800000000000)%Z.
Definition to_second (t : Z) : Z := (t - t mod 1000000000)%Z.
Definition whole (t : Z) : Prop := dated t ∧ (t mod 1000000000 = 0)%Z.

(** The documented behaviour of [chrono] and [serde_json] the store relies on. *)
Record formats_ok : Prop := {
  fo_cut : ∀ t, dated t → sql_ts (to_second t) = sql_ts t;
  fo_ts : ∀ t, whole t → parse_ts (sql_ts t) = Some t;
  fo_order : ∀ t u, whole t → whole u → text_leb (sql_ts t) (sql_ts u) = (t <=? u)%Z;
  fo_json : ∀ l, json_read (json_of l) = Some l;
  fo_array : ∀ l, json_array (json_of l) = true;
  fo_agent : ∀ a, agent_read (agent_json a) = Some a;
}.

(** Values whose instants are all [kept]: a caller's are [dated], a row's [whole]. *)
Definition opt_is (kept : Z → Prop) (o : option Z) : Prop := ∀ t, o = Some t → kept t.

Record storable_task (kept : Z → Prop) (t : LongTask) : Prop := {
  st_reads : LongTask_from_parts (parts_of t) = Ok t;
  st_deadline : opt_is kept (deadline (task_budget t));
  st_created : kept (task_created_at t);
  st_updated : kept (task_updated_at t);
  st_finished : opt_is kept (task_finished_at t);
  st_owner : refers profiles (task_owner t) = true;
  st_origin : refers sessions (task_origin t) = true;
}.

Record storable_step (kept : Z → Prop) (s : PlanStep) : Prop := {
  ss_reads : PlanStep_from_parts (parts_of_step s) = Ok s;
  ss_ordinal : ps_ordinal s ≤ u32_max;
  ss_attempts : ps_attempts s ≤ u32_max;
  ss_started : opt_is kept (ps_started_at s);
  ss_finished : opt_is kept (ps_finished_at s);
}.

Record storable_artifact (kept : Z → Prop) (a : Artifact) : Prop := {
  sa_reads : Artifact_from_parts (parts_of_artifact a) = Ok a;
  sa_created : kept (ar_created_at a);
}.

(** The tables hold a ledger: a row per value, in insertion order. *)
Record represents (db : Db) (l : Ledger) : Prop := {
  rp_tasks : db_tasks db = task_row <$> lg_tasks l;
  rp_steps : db_steps db = step_row <$> lg_steps l;
  rp_artifacts : db_artifacts db = artifact_row <$> lg_artifacts l;
  rp_ok : ledger_ok l;
  rp_task : ∀ t, t ∈ lg_tasks l → storable_task whole t;
  rp_step : ∀ s, s ∈ lg_steps l → storable_step whole s;
  rp_artifact : ∀ a, a ∈ lg_artifacts l → storable_artifact whole a;
}.

(** What a caller passes: values the domain built, with instants the columns take; a step to
    update is one the store lists, moved. *)
Definition storable (kept : Z → Prop) {R} (c : RepoCall R) (l : Ledger) : Prop :=
  admissible c ∧
  match c with
  | CreateTask t => storable_task kept t
  | SetTaskState _ _ at_ => kept at_
  | ReplaceOpenSteps p => ∀ s, s ∈ vp_steps p → storable_step kept s
  | UpdateStep s =>
      storable_step kept s ∧
      ∀ s0, s0 ∈ lg_steps l → ps_task_id s0 = ps_task_id s → ps_key s0 = ps_key s → same_step s0 s
  | InsertArtifact a => storable_artifact kept a
  | _ => True
  end.

(** The store answers as the ledger does; where its tables' constraints refuse, the ledger
    refuses too. *)
Definition same_answer {A} (r r' : result A RepoError) : Prop :=
  r = r' ∨ ∃ table e, r = Err (Constraint table) ∧ r' = Err e.
Definition agrees {R} (c : RepoCall R) : R → R → Prop :=
  match c with
  | CreateTask _ => same_answer
  | GetTask _ => same_answer
  | ListTasks _ _ => same_answer
  | SetTaskState _ _ _ => same_answer
  | DecideTaskAnswer _ _ => same_answer
  | ReplaceOpenSteps _ => same_answer
  | ListSteps _ => same_answer
  | UpdateStep _ => same_answer
  | InsertArtifact _ => same_answer
  | GetArtifact _ _ => same_answer
  | ListArtifacts _ => same_answer
  | DeleteTask _ => same_answer
  | DeleteArtifact _ _ => same_answer
  end.

(** What the columns keep of a call and of its answer: the same with every instant cut to the second. *)
Definition cut_task (t : LongTask) : LongTask :=
  {| task_id := task_id t; task_owner := task_owner t; task_scope := task_scope t; task_goal := task_goal t;
     task_origin := task_origin t; task_state := task_state t;
     task_budget := {| max_steps := max_steps (task_budget t); deadline := to_second <$> deadline (task_budget t) |};
     task_kind := task_kind t; task_answer := task_answer t; task_created_at := to_second (task_created_at t);
     task_updated_at := to_second (task_updated_at t); task_finished_at := to_second <$> task_finished_at t |}.
Definition cut_step (s : PlanStep) : PlanStep :=
  ps_with s (ps_state s) (ps_attempts s) (ps_summary s) (ps_failure s)
    (to_second <$> ps_started_at s) (to_second <$> ps_finished_at s).
Definition cut_artifact (a : Artifact) : Artifact :=
  {| ar_id := ar_id a; ar_task_id := ar_task_id a; ar_step_key := ar_step_key a; ar_kind := ar_kind a;
     ar_title := ar_title a; ar_summary := ar_summary a; ar_body := ar_body a; ar_tokens := ar_tokens a;
     ar_created_at := to_second (ar_created_at a) |}.
Definition cut_plan (p : ValidatedPlan) : ValidatedPlan :=
  {| vp_task_id := vp_task_id p; vp_steps := cut_step <$> vp_steps p; vp_kept := vp_kept p; vp_relaxed := vp_relaxed p |}.
Definition cut_call {R} (c : RepoCall R) : RepoCall R :=
  match c in RepoCall R return RepoCall R with
  | CreateTask t => CreateTask (cut_task t)
  | SetTaskState id state at_ => SetTaskState id state (to_second at_)
  | ReplaceOpenSteps p => ReplaceOpenSteps (cut_plan p)
  | UpdateStep s => UpdateStep (cut_step s)
  | InsertArtifact a => InsertArtifact (cut_artifact a)
  | c => c
  end.
(** [set_task_state] hands back the task it wrote, not a row it read. *)
Definition cut_answer {R} (c : RepoCall R) : R → R :=
  match c in RepoCall R return R → R with
  | SetTaskState _ _ _ => λ r, match r with Ok (Some t) => Ok (Some (cut_task t)) | r => r end
  | _ => id
  end.
(** The ledger told of whole seconds. *)
Definition to_the_second : Handler RepoCall Ledger := λ R c, repository R (cut_call c).

(** ** Lemmas: rows read back *)

Section formats.
Context (Hf : formats_ok).

Lemma parse_opt_ts_row o : opt_is whole o → parse_opt_ts (sql_ts <$> o) = Ok o.
Proof using Hf.
  destruct o as [t|]; [|done]. intros H. unfold parse_opt_ts. simpl.
  rewrite (fo_ts Hf) by by apply H. done.
Qed.

Lemma u32_column_of_N n what : n ≤ u32_max → u32_column (Z.of_N n) what = Ok n.
Proof using Type.
  intros H. unfold u32_column. rewrite (proj2 (Z.leb_le 0 _)) by lia.
  rewrite (proj2 (Z.leb_le _ (Z.of_N u32_max))) by lia. simpl. by rewrite N2Z.id.
Qed.

Lemma from_parts_task t : LongTask_from_parts (parts_of t) = Ok t ↔
  trim (task_id t) ≠ [] ∧ trim (task_goal t) = task_goal t ∧ task_goal t ≠ [] ∧
  0 < max_steps (task_budget t) ≤ MAX_LONG_TASK_STEPS ∧
  owner_for (task_scope t) (task_owner t) = Ok (task_owner t) ∧
  origin_for (task_origin t) = Ok (task_origin t).
Proof using Type.
  destruct t as [id owner scope goal origin state [ms dl] kind answer cr up fin].
  unfold LongTask_from_parts, parts_of. simpl. split.
  - destruct (is_empty (trim id)) eqn:Ei; [done|].
    destruct (is_empty (trim goal)) eqn:Eg; [done|]. destruct (ms =? 0) eqn:Em; [done|].
    apply is_empty_false in Ei, Eg. apply N.eqb_neq in Em.
    intros (ow & Ho & (or & Hor & H)%result_bind_ok)%result_bind_ok.
    injection H as -> Hg -> Hm. rewrite Hg in Eg. repeat split; try assumption; lia.
  - intros (Hi%is_empty_false & Hg & Hne%is_empty_false & Hm & Ho & Hor).
    rewrite Hi, Hg, Hne, Ho, Hor. destruct (ms =? 0) eqn:Em; [apply N.eqb_eq in Em; lia|].
    simpl. repeat f_equal. lia.
Qed.

Lemma LongTaskState_parse_str x : LongTaskState_parse (LongTaskState_as_str x) = Some x.
Proof using Type. exact (enum_parse_str x). Qed.
Lemma LongTaskKind_parse_str x : LongTaskKind_parse (LongTaskKind_as_str x) = Some x.
Proof using Type. exact (enum_parse_str x). Qed.
Lemma AnswerShape_parse_str x : AnswerShape_parse (AnswerShape_as_str x) = Some x.
Proof using Type. exact (enum_parse_str x). Qed.
Lemma StepState_parse_str x : StepState_parse (StepState_as_str x) = Some x.
Proof using Type. exact (enum_parse_str x). Qed.

Lemma row_to_task_row t : storable_task whole t → row_to_task (task_row t) = Ok t.
Proof using Hf.
  intros [Hr Hd Hc Hu Hfi _ _]. pose proof Hr as Hp. apply from_parts_task in Hp as (_ & _ & _ & Hm & Ho & _).
  unfold row_to_task, task_row. cbn [tc_id tc_owner tc_scope tc_goal tc_origin tc_state tc_max_steps
    tc_deadline tc_created_at tc_updated_at tc_finished_at tc_kind tc_answer].
  assert (scope_from_columns (scope_column (task_scope t)) (task_owner t) = Ok (task_scope t)) as ->.
  { destruct (task_scope t) as [id| |] eqn:Es; try reflexivity. unfold scope_from_columns.
    rewrite bool_decide_eq_true_2 by done. apply owner_for_agrees in Ho as [_ ->]. done. }
  rewrite LongTaskState_parse_str, LongTaskKind_parse_str, AnswerShape_parse_str.
  cbn [readable result_bind]. rewrite u32_column_of_N by (unfold MAX_LONG_TASK_STEPS, u32_max in *; lia).
  cbn [readable result_bind]. rewrite parse_opt_ts_row, !(fo_ts Hf) by assumption.
  cbn [readable result_bind]. rewrite parse_opt_ts_row by assumption. cbn [readable result_bind].
  unfold parts_of in Hr. by rewrite Hr.
Qed.

Lemma row_to_step_row s : storable_step whole s → row_to_step (step_row s) = Ok s.
Proof using Hf.
  intros [Hr Ho Ha Hs Hfi]. unfold row_to_step, step_row.
  cbn [sc_task_id sc_key sc_ordinal sc_role sc_instructions sc_inputs sc_depends_on sc_acceptance
    sc_state sc_attempts sc_summary sc_failure sc_started_at sc_finished_at sc_agent].
  unfold json_list. rewrite StepState_parse_str. cbn [readable result_bind].
  rewrite !u32_column_of_N, !(fo_json Hf) by assumption. cbn [readable result_bind].
  rewrite !parse_opt_ts_row by assumption. cbn [readable result_bind].
  unfold parts_of_step in Hr. destruct (ps_agent s) as [a|] eqn:Ea; cbn [fmap option_fmap option_map].
  - rewrite (fo_agent Hf). cbn [readable result_bind]. by rewrite Hr.
  - cbn [result_bind]. by rewrite Hr.
Qed.

Lemma ArtifactKind_parse_str k : ArtifactKind_parse (ArtifactKind_as_str k) = Some k.
Proof using Type. by destruct k. Qed.

Lemma row_to_artifact_row a : storable_artifact whole a → row_to_artifact (artifact_row a) = Ok a.
Proof using Hf.
  intros [Hr Hc]. unfold row_to_artifact, artifact_row.
  cbn [ac_id ac_task_id ac_step_key ac_kind ac_title ac_summary ac_body ac_tokens ac_created_at].
  rewrite ArtifactKind_parse_str, (fo_ts Hf) by assumption. cbn [readable result_bind].
  unfold parts_of_artifact in Hr. by rewrite Hr.
Qed.

Lemma row_to_artifact_summary_row a :
  storable_artifact whole a → row_to_artifact_summary (artifact_row a) = Ok (summary_view a).
Proof using Hf.
  intros [Hr Hc]. unfold row_to_artifact_summary, artifact_row.
  cbn [ac_id ac_task_id ac_step_key ac_kind ac_title ac_summary ac_body ac_tokens ac_created_at].
  pose proof (Artifact_from_parts_ok _ _ Hr) as (_ & Htok & _).
  assert (∀ k, ar_step_key a = Some k → StepKey_parse k = Ok k) as Hk.
  { intros k Hk. unfold Artifact_from_parts in Hr. cbn [parts_of_artifact ap_id ap_task_id ap_step_key] in Hr.
    destruct (is_empty _); [done|]. destruct (is_empty _); [done|].
    apply result_bind_ok in Hr as (key & Hkey & Hr). rewrite Hk in Hkey. unfold step_key_of in Hkey.
    destruct (StepKey_parse k) as [k'|] eqn:E; [|done]. injection Hkey as <-.
    destruct (is_empty _); [done|]. destruct (is_empty _); [done|]. destruct (is_empty _); [done|].
    injection Hr as Hr. rewrite <-Hr in Hk. simpl in Hk. congruence. }
  rewrite ArtifactKind_parse_str, (fo_ts Hf) by assumption.
  rewrite u32_column_of_N by (rewrite Htok; unfold artifact_tokens; apply N.le_min_l).
  unfold summary_view. destruct (ar_step_key a) as [k|] eqn:E; [|reflexivity].
  rewrite (Hk k eq_refl). reflexivity.
Qed.

(** *** The tables' checks take every storable value. *)

Lemma sql_blank_trim t : trim t ≠ [] → sql_blank t = false.
Proof using Type.
  intros Hne. apply not_true_iff_false. intros Hb. apply Hne. unfold trim, trim_start.
  assert (drop_while is_whitespace t = []) as ->; [|done].
  apply drop_while_nil, Forall_forall. intros c Hc.
  unfold sql_blank in Hb. rewrite forallb_elem_of in Hb. by apply Hb, N.eqb_eq in Hc as <-.
Qed.

Lemma sql_blank_trimmed t : trim t = t → t ≠ [] → sql_blank t = false.
Proof using Type. intros E Hne. apply sql_blank_trim. by rewrite E. Qed.

Lemma task_check_row t : storable_task whole t → task_check (task_row t) = true.
Proof using Type.
  intros [Hr _ _ _ _ _ _]. apply from_parts_task in Hr as (_ & Hg & Hne & Hm & Ho%owner_for_agrees & _).
  unfold task_check, task_row. cbn [tc_scope tc_goal tc_state tc_max_steps tc_owner tc_kind tc_answer].
  rewrite sql_blank_trimmed by assumption. rewrite (proj2 (Z.ltb_lt _ _)) by lia.
  rewrite !andb_true_iff, !orb_true_iff, !andb_true_iff.
  split; [|by destruct (task_answer t)]. split; [|by destruct (task_kind t)].
  split; [|destruct (task_scope t); [left; left|by left; right|right]].
  - split; [|done]. split; [|by destruct (task_state t)]. split; [|done]. by destruct (task_scope t).
  - destruct Ho as [_ ->]. split; [by vm_compute|]. by apply bool_decide_eq_true; eexists.
  - split; [by vm_compute|]. by apply bool_decide_eq_true.
Qed.

Lemma from_parts_step s : PlanStep_from_parts (parts_of_step s) = Ok s →
  valid_key (ps_key s) ∧ trim (ps_role s) ≠ [] ∧ trim (ps_instructions s) ≠ [].
Proof using Type.
  unfold PlanStep_from_parts, parts_of_step. simpl. intros (k & Hk & H)%result_bind_ok.
  destruct (is_empty (trim (ps_role s))) eqn:Er; [done|].
  destruct (is_empty (trim (ps_instructions s))) eqn:Ei; [done|].
  apply is_empty_false in Er, Ei. split; [|done]. apply result_bind_ok in H as (ds & _ & H).
  injection H as H. apply StepKey_parse_ok in Hk as [_ Hv]. rewrite <-H in *. exact Hv.
Qed.

Lemma step_check_row s : storable_step whole s → step_check (step_row s) = true.
Proof using Hf.
  intros [Hr _ _ _ _]. apply from_parts_step in Hr as (Hk & Hro & Hin).
  unfold step_check, step_row.
  cbn [sc_key sc_ordinal sc_role sc_instructions sc_inputs sc_depends_on sc_state sc_attempts].
  rewrite !(fo_array Hf), !sql_blank_trim; [|assumption|assumption|].
  - rewrite !(proj2 (Z.leb_le 0 _)) by lia. by destruct (ps_state s).
  - pose proof (valid_key_trimmed _ Hk) as Ht. rewrite trimmed_trim by exact Ht. apply Hk.
Qed.

Lemma artifact_check_row a : storable_artifact whole a → artifact_check (artifact_row a) = true.
Proof using Type.
  intros [Hr _]. unfold artifact_check, artifact_row. cbn [ac_kind ac_title ac_summary ac_tokens].
  assert (one_line (ar_title a) ≠ [] ∧ one_line (ar_summary a) ≠ []) as [Ht Hs].
  { unfold Artifact_from_parts in Hr. simpl in Hr. destruct (is_empty _); [done|].
    destruct (is_empty _); [done|]. apply result_bind_ok in Hr as (k & _ & Hr).
    destruct (is_empty (one_line (ar_title a))) eqn:E1; [done|].
    destruct (is_empty (one_line (ar_summary a))) eqn:E2; [done|].
    split; by apply is_empty_false. }
  assert (∀ t, one_line t ≠ [] → sql_blank t = false) as Hb.
  { intros t Hne. apply not_true_iff_false. intros Hb. apply Hne. unfold one_line, split_whitespace.
    rewrite filter_none; [done|]. intros w Hw. apply negb_false_iff, is_empty_true.
    unfold sql_blank in Hb. rewrite forallb_elem_of in Hb. revert w Hw. clear Hne.
    induction t as [|c t IH]; intros w; simpl; [by intros ->%elem_of_one|].
    rewrite <-(proj1 (N.eqb_eq 32 c)) by (apply Hb; left). cbn [is_whitespace].
    change (is_whitespace 32) with true. cbn iota.
    intros [->|Hw]%elem_of_cons; [done|]. apply IH; [|done]. intros d Hd. apply Hb. by right. }
  rewrite !Hb by assumption. rewrite (proj2 (Z.leb_le 0 _)) by lia. by destruct (ar_kind a).
Qed.

(** ** Lemmas: statements over the rows of a ledger *)

Lemma update_rows_none {A} (where_ : A → bool) set rows :
  (∀ r, r ∈ rows → where_ r = false) → update_rows where_ set rows = (0%nat, rows).
Proof using Type.
  intros H. unfold update_rows. rewrite filter_none by exact H. f_equal.
  induction rows as [|r rows IH]; [done|]. rewrite fmap_cons, (H r) by left. f_equal.
  apply IH. intros u Hu. apply H. by right.
Qed.

(** A [WHERE] on a key that is one row's sets that row. *)
Lemma update_rows_first {A B K} `{EqDecision K} (row : A → B) (key : A → K) (k : K)
    (p : A → bool) where_ set ts t t' :
  (∀ u, p u = true ↔ key u = k) → NoDup (key <$> ts) → find_first p ts = Some t →
  (∀ u, p u = false → where_ (row u) = false) → where_ (row t) = true → set (row t) = row t' →
  update_rows where_ set (row <$> ts) = (1%nat, row <$> set_first p t' ts).
Proof using Type.
  intros Hp Hnd (l1 & l2 & -> & Ht & Hl1 & ->)%find_first_split Hw Hwt Hset.
  assert (∀ u, u ∈ l2 → p u = false) as Hl2.
  { intros u Hu. apply not_true_iff_false. intros Hpu%Hp. apply Hp in Ht.
    rewrite fmap_app in Hnd. apply NoDup_app in Hnd as (_ & _ & Hnd). rewrite fmap_cons in Hnd.
    apply NoDup_cons in Hnd as [Hn _]. apply Hn. rewrite Ht, <-Hpu. by apply list_elem_of_fmap_2. }
  assert (∀ l, (∀ u, u ∈ l → p u = false) → List.filter where_ (row <$> l) = [] ∧
    (λ r, if where_ r then set r else r) <$> (row <$> l) = row <$> l) as H.
  { intros l Hl. assert (∀ r, r ∈ row <$> l → where_ r = false) as Hf'.
    { intros r (u & -> & Hu)%list_elem_of_fmap. apply Hw, Hl, Hu. }
    pose proof (update_rows_none where_ set (row <$> l) Hf') as E. unfold update_rows in E.
    injection E as _ E. split; [by apply filter_none|exact E]. }
  destruct (H l1 Hl1) as [F1 M1], (H l2 Hl2) as [F2 M2]. unfold update_rows.
  rewrite !fmap_app, !fmap_cons, List.filter_app, M1, M2, F1. cbn [List.filter app].
  by rewrite Hwt, F2, Hset.
Qed.

Lemma one_of_terminal s : one_of terminal_states (LongTaskState_as_str s) = is_terminal s.
Proof using Type. by destruct s; vm_compute. Qed.
Lemma one_of_open s : one_of open_step_states (StepState_as_str s) = negb (survives_replan s).
Proof using Type. by destruct s; vm_compute. Qed.

Lemma as_str_eqb (s s' : LongTaskState) :
  bool_decide (LongTaskState_as_str s = LongTaskState_as_str s') = bool_decide (s = s').
Proof using Type. by destruct s, s'; vm_compute. Qed.

Section represented.
Context (db : Db) (l : Ledger) (Hrep : represents db l).

Lemma select_task_rep id : select_task id db = task_row <$> get_task id l.
Proof using Hrep. unfold select_task. by rewrite (rp_tasks _ _ Hrep), find_first_fmap. Qed.

Lemma exists_task_rep id : List.existsb (is_task_row id) (db_tasks db) = List.existsb (is_task id) (lg_tasks l).
Proof using Hrep. by rewrite (rp_tasks _ _ Hrep), existsb_fmap. Qed.

Lemma get_task_storable id t : get_task id l = Some t → storable_task whole t.
Proof using Hrep. intros [Ht _]%find_some_iff. by apply Hrep. Qed.

Lemma get_task_reads id : transpose row_to_task (select_task id db) = Ok (get_task id l).
Proof using Hrep Hf.
  rewrite select_task_rep. destruct (get_task id l) as [t|] eqn:Eg; [|done].
  cbn [fmap option_fmap option_map transpose]. rewrite row_to_task_row; [done|].
  by eapply get_task_storable.
Qed.

Lemma select_tasks_reads owner fin :
  read_or_skip row_to_task (select_tasks owner fin db) = list_tasks owner fin l.
Proof using Hrep Hf.
  unfold select_tasks, list_tasks. rewrite (rp_tasks _ _ Hrep), filter_fmap_bool.
  unfold fmap at 1. rewrite <-map_rev. change (List.map task_row) with (fmap (M:=list) task_row).
  rewrite filter_andb, filter_rev_bool.
  rewrite (filter_ext_elem (λ t, owner_predicate owner (task_row t) && _)
             (λ t, owned_by t owner && (fin || negb (is_terminal (task_state t)))))
    by (intros t _; cbn [task_row tc_state]; rewrite one_of_terminal; f_equal; by destruct owner).
  set (ts := List.filter _ (lg_tasks l)).
  assert (∀ t, t ∈ rev ts → storable_task whole t) as Hst.
  { intros t Ht. apply Hrep. rewrite list_elem_of_In, <-in_rev, <-list_elem_of_In in Ht.
    unfold ts in Ht. by apply elem_of_filter_bool in Ht as [? _]. }
  rewrite (sort_with_fmap newer); cycle 1.
  { intros x y Hx Hy. cbn [task_row tc_created_at]. unfold newer. apply (fo_order Hf); by apply Hst. }
  unfold read_or_skip. rewrite (omap_fmap _ _ id); [by rewrite list_fmap_id|].
  intros t Ht. rewrite elem_of_sort_with in Ht. by rewrite row_to_task_row by by apply Hst.
Qed.

Lemma select_steps_reads id : traverse row_to_step (select_steps id db) = Ok (list_steps id l).
Proof using Hrep Hf.
  unfold select_steps, list_steps, sort_by. rewrite (rp_steps _ _ Hrep), filter_fmap_bool.
  rewrite (sort_with_fmap (key_le ps_ordinal)); cycle 1.
  { intros x y _ _. unfold key_le. cbn [step_row sc_ordinal].
    destruct (N.leb_spec (ps_ordinal x) (ps_ordinal y)); [apply Z.leb_le|apply Z.leb_gt]; lia. }
  rewrite (traverse_fmap _ _ (λ s, s)); [by rewrite list_fmap_id|].
  intros s Hs. apply row_to_step_row, Hrep.
  rewrite elem_of_sort_with in Hs. by apply elem_of_filter_bool in Hs as [? _].
Qed.

Lemma select_artifact_reads id artifact_id :
  transpose row_to_artifact (select_artifact id artifact_id db) = Ok (get_artifact id artifact_id l).
Proof using Hrep Hf.
  unfold select_artifact. rewrite (rp_artifacts _ _ Hrep), find_first_fmap.
  change (find_first _ (lg_artifacts l)) with (get_artifact id artifact_id l).
  destruct (get_artifact id artifact_id l) as [a|] eqn:Eg; [|done].
  cbn [fmap option_fmap option_map transpose]. rewrite row_to_artifact_row; [done|].
  apply Hrep. by apply find_some_iff in Eg as [? _].
Qed.

Lemma select_artifacts_reads id :
  read_or_skip row_to_artifact_summary (select_artifacts id db) = list_artifacts id l.
Proof using Hrep Hf.
  unfold select_artifacts, list_artifacts. rewrite (rp_artifacts _ _ Hrep), filter_fmap_bool.
  change (λ a, artifact_row_of id (artifact_row a)) with (artifact_of id).
  assert (∀ a, a ∈ List.filter (artifact_of id) (lg_artifacts l) → storable_artifact whole a) as Hst.
  { intros a [Ha _]%elem_of_filter_bool. by apply Hrep. }
  rewrite (sort_with_fmap older); cycle 1.
  { intros x y Hx Hy. cbn [artifact_row ac_created_at]. unfold older. apply (fo_order Hf); by apply Hst. }
  unfold read_or_skip. apply omap_fmap. intros a Ha. rewrite elem_of_sort_with in Ha.
  by rewrite row_to_artifact_summary_row by by apply Hst.
Qed.
End represented.

(** *** What stays storable. *)

Lemma transition_storable t t' state at_ :
  transition_to t state at_ = Ok t' → whole at_ → storable_task whole t → storable_task whole t'.
Proof using Type.
  intros (_ & (E1 & E2 & E3 & E4 & E5 & E6 & E7) & _ & E8 & E9)%transition_to_ok Hat
    [Hr Hd Hc Hu Hfi Ho Hor]. apply from_parts_task in Hr.
  split; rewrite ?from_parts_task, ?E1, ?E2, ?E3, ?E4, ?E5, ?E6, ?E7, ?E8, ?E9; try assumption.
  destruct (is_terminal state); [by intros u [= <-]|exact Hfi].
Qed.

Lemma with_answer_storable t a : storable_task whole t → storable_task whole (with_answer t a).
Proof using Type.
  intros [Hr Hd Hc Hu Hfi Ho Hor]. apply from_parts_task in Hr. split; try assumption.
  by apply from_parts_task.
Qed.

(** A call that is taken leaves storable values. *)
Lemma storable_after {R} (c : RepoCall R) l :
  (∀ t, t ∈ lg_tasks l → storable_task whole t) → (∀ s, s ∈ lg_steps l → storable_step whole s) →
  (∀ a, a ∈ lg_artifacts l → storable_artifact whole a) → storable whole c l →
  let l' := (repository R c l).2 in
  (∀ t, t ∈ lg_tasks l' → storable_task whole t) ∧ (∀ s, s ∈ lg_steps l' → storable_step whole s) ∧
  (∀ a, a ∈ lg_artifacts l' → storable_artifact whole a).
Proof using Type.
  intros Ht Hs Ha [_ Hc]. destruct c; unfold repository, MockLongTaskRepository; cbv zeta; simpl;
    try (split; [exact Ht|split; [exact Hs|exact Ha]]).
  - unfold create_task. destruct (existsb (is_task (task_id task)) (lg_tasks l)); [done|].
    split; [|done]. simpl. intros t [?| ->%elem_of_one]%elem_of_app; [by apply Ht|exact Hc].
  - unfold set_task_state. destruct (get_task id l) as [t|] eqn:Eg; [|done].
    destruct (transition_to t state at_) as [t'|e] eqn:Et; [|done]. split; [|done].
    simpl. intros u [->|Hu]%elem_of_set_first; [|by apply Ht].
    eapply transition_storable; [exact Et|exact Hc|]. apply Ht. by apply find_some_iff in Eg as [? _].
  - unfold decide_task_answer. destruct (get_task id l) as [t|] eqn:Eg; [|done].
    destruct (decide_answer t answer) as [t' b] eqn:Ed. split; [|done]. simpl.
    assert (storable_task whole t) as Hst by (apply Ht; by apply find_some_iff in Eg as [? _]).
    intros u [->|Hu]%elem_of_set_first; [|by apply Ht].
    pose proof (decide_answer_fst t answer) as H. rewrite Ed in H. simpl in H.
    destruct H as [->| ->]; [exact Hst|by apply with_answer_storable].
  - destruct (replace_open_steps plan l) as [[[]|e] l'] eqn:E; simpl.
    + apply replace_open_steps_ok in E as (_ & _ & ->). split; [exact Ht|]. split; [|exact Ha].
      simpl. intros s [[? _]%elem_of_kept_by_replan|?]%elem_of_app; [by apply Hs|by apply Hc].
    + by apply replace_open_steps_err in E as ->.
  - unfold update_step. destruct (find_first _ _); [|done]. destruct (negb _); [done|].
    split; [exact Ht|]. split; [|exact Ha]. simpl.
    intros s [->|?]%elem_of_set_first; [apply Hc|by apply Hs].
  - unfold insert_artifact. destruct (negb _); [done|].
    destruct (existsb (is_artifact (ar_id artifact)) (lg_artifacts l)); [done|].
    split; [exact Ht|]. split; [exact Hs|]. simpl.
    intros a [?| ->%elem_of_one]%elem_of_app; [by apply Ha|exact Hc].
  - unfold delete_task. destruct (_ =? _)%nat; simpl.
    + split; [|done]. intros t [? _]%elem_of_filter_bool. by apply Ht.
    + split; [|split]; intros x [? _]%elem_of_filter_bool; auto.
  - split; [exact Ht|]. split; [exact Hs|]. intros a [? _]%elem_of_filter_bool. by apply Ha.
Qed.

(** What is left to show of a call: its answer and the rows it leaves. *)
Definition rows_of (l : Ledger) : Db :=
  {| db_tasks := task_row <$> lg_tasks l; db_steps := step_row <$> lg_steps l;
     db_artifacts := artifact_row <$> lg_artifacts l |}.

Lemma represents_rows db l : represents db l → db = rows_of l.
Proof using Type. intros [H1 H2 H3 _ _ _ _]. destruct db. unfold rows_of. by simpl in *; subst. Qed.

Definition simulated {R} (c : RepoCall R) (l : Ledger) : Prop :=
  let '(r, db') := run sqlite (sqlite_method c) (rows_of l) in
  agrees c r (repository R c l).1 ∧ db' = rows_of (repository R c l).2.

Lemma simulated_represents {R} (c : RepoCall R) db l :
  represents db l → storable whole c l → simulated c l →
  agrees c (SqliteLongTaskRepository R c db).1 (repository R c l).1 ∧
  represents (SqliteLongTaskRepository R c db).2 (repository R c l).2.
Proof using Type.
  intros Hr Hs Hsim. rewrite (represents_rows db l Hr). unfold SqliteLongTaskRepository.
  unfold simulated in Hsim. destruct (run sqlite (sqlite_method c) (rows_of l)) as [r db'].
  destruct Hsim as [Ha ->]. split; [exact Ha|].
  destruct (storable_after c l (rp_task _ _ Hr) (rp_step _ _ Hr) (rp_artifact _ _ Hr) Hs) as (H1 & H2 & H3).
  split; try done. apply call_ledger_ok; [apply Hr|apply Hs].
Qed.

Lemma rows_of_represents db l : represents db l → represents (rows_of l) l.
Proof using Type. intros H. by rewrite <-(represents_rows db l H). Qed.

(** *** Every method against the ledger's. *)

Lemma insert_steps_ok steps : ∀ ss db,
  db_steps db = step_row <$> ss →
  (∀ s, s ∈ steps → storable_step whole s ∧
     List.existsb (is_task_row (ps_task_id s)) (db_tasks db) = true) →
  NoDup ((λ s, (ps_task_id s, ps_key s)) <$> ss ++ steps) →
  insert_steps steps db = Ok (with_step_rows (step_row <$> ss ++ steps) db).
Proof using Hf.
  induction steps as [|s steps IH]; intros ss db Hss Hs Hnd; simpl.
  { rewrite app_nil_r, <-Hss. by destruct db. }
  destruct (Hs s) as [Hst Hex]; [left|]. unfold insert_step.
  change (sc_task_id (step_row s)) with (ps_task_id s). change (sc_key (step_row s)) with (ps_key s).
  rewrite Hex, step_check_row, Hss, existsb_fmap by exact Hst.
  assert (List.existsb (λ u, is_step_row (ps_task_id s) (ps_key s) (step_row u)) ss = false) as ->.
  { apply not_true_iff_false. intros (u & Hu & Hk)%existsb_elem_of.
    change (is_step (ps_task_id s) (ps_key s) u = true) in Hk. apply is_step_true in Hk.
    rewrite fmap_app, fmap_cons in Hnd. apply NoDup_app in Hnd as (_ & Hd & _).
    apply (Hd (ps_task_id u, ps_key u)); [by apply (list_elem_of_fmap_2 (λ s, (ps_task_id s, ps_key s)))|].
    rewrite Hk. left. }
  cbn [orb negb result_bind]. rewrite (IH (ss ++ [s])).
  - rewrite <-app_assoc. reflexivity.
  - simpl. by rewrite fmap_app.
  - intros u Hu. apply Hs. by right.
  - by rewrite <-app_assoc.
Qed.

Lemma create_simulated t l : storable_task whole t → simulated (CreateTask t) l.
Proof using Type.
  intros Hst. unfold simulated. cbn [sqlite_method sql_create_task run sqlite].
  unfold insert_task, repository, MockLongTaskRepository, create_task.
  change (tc_id (task_row t)) with (task_id t). cbn [rows_of db_tasks]. rewrite existsb_fmap.
  change (List.existsb (λ a, is_task_row (task_id t) (task_row a)) (lg_tasks l))
    with (List.existsb (is_task (task_id t)) (lg_tasks l)).
  destruct (List.existsb _ _) eqn:E; simpl.
  - split; [|done]. right. by eexists _, _.
  - rewrite task_check_row by exact Hst. simpl.
    rewrite (st_owner _ _ Hst), (st_origin _ _ Hst). simpl. split; [by left|].
    unfold rows_of, with_task_rows. simpl. by rewrite fmap_app.
Qed.

Lemma set_state_simulated id state at_ l :
  represents (rows_of l) l → simulated (SetTaskState id state at_) l.
Proof using Hf.
  intros Hrep. unfold simulated. cbn [sqlite_method]. unfold sql_set_task_state.
  rewrite run_bind. unfold sql_get_task at 1. cbn [run sqlite].
  rewrite (get_task_reads _ _ Hrep id). unfold repository, MockLongTaskRepository, set_task_state.
  destruct (get_task id l) as [t|] eqn:Eg; cbn [run]; [|split; [by left|done]].
  destruct (transition_to t state at_) as [t'|e] eqn:Et; cbn [run]; [|split; [by left|done]].
  cbn [sqlite]. unfold update_state. cbn [rows_of db_tasks].
  pose proof Et as (_ & Hsame & Hst & Hup & Hfin)%transition_to_ok.
  pose proof Eg as [_ Hid%is_task_true]%find_some_iff.
  rewrite (update_rows_first task_row task_id id (is_task id) _ _ (lg_tasks l) t t').
  - cbn [Nat.eqb run]. split; [by left|]. done.
  - intros u. apply is_task_true.
  - apply (lo_tasks _ (rp_ok _ _ Hrep)).
  - exact Eg.
  - intros u Hu. change (is_task id u && bool_decide (tc_state (task_row u) = LongTaskState_as_str (task_state t)) = false).
    by rewrite Hu.
  - change (is_task id t && bool_decide (tc_state (task_row t) = LongTaskState_as_str (task_state t)) = true).
    rewrite bool_decide_eq_true_2 by done. rewrite andb_true_r. by apply is_task_true.
  - unfold transition_to in Et. destruct (negb _); [done|]. injection Et as <-. reflexivity.
Qed.

Lemma decide_simulated id answer l :
  represents (rows_of l) l → simulated (DecideTaskAnswer id answer) l.
Proof using Type.
  intros Hrep. unfold simulated. cbn [sqlite_method]. unfold sql_decide_task_answer.
  unfold repository, MockLongTaskRepository, decide_task_answer, decide_answer.
  assert (∀ t, get_task id l = Some t → with_tasks (set_first (is_task id) t (lg_tasks l)) l = l) as Hnop.
  { intros t (l1 & l2 & E & _ & _ & Hs)%find_first_split. rewrite Hs, <-E. by destruct l. }
  destruct (decide (answer = Auto)) as [->|Hne].
  { rewrite bool_decide_eq_true_2 by done. cbn [run].
    destruct (get_task id l) as [t|] eqn:Eg; [|split; [by left|done]].
    rewrite orb_true_r. split; [by left|]. simpl. by rewrite Hnop. }
  rewrite bool_decide_eq_false_2 by exact Hne. cbn [run sqlite]. unfold update_answer. cbn [rows_of db_tasks].
  destruct (get_task id l) as [t|] eqn:Eg; cycle 1.
  { rewrite update_rows_none; [split; [by left|done]|]. intros r (u & -> & Hu)%list_elem_of_fmap.
    unfold get_task in Eg. rewrite find_first_None in Eg. apply andb_false_iff. left. by apply Eg. }
  pose proof Eg as [_ Hid]%find_some_iff. rewrite orb_false_r.
  destruct (decide (task_answer t = Auto)) as [Ha|Ha].
  - rewrite (update_rows_first task_row task_id id (is_task id) _ _ (lg_tasks l) t (with_answer t answer)).
    + rewrite (bool_decide_eq_true_2 (task_answer t = Auto)) by done. split; [by left|done].
    + intros u. apply is_task_true.
    + apply (lo_tasks _ (rp_ok _ _ Hrep)).
    + exact Eg.
    + intros u Hu. apply andb_false_iff. by left.
    + apply andb_true_iff. split; [exact Hid|]. apply bool_decide_eq_true. simpl. by rewrite Ha.
    + reflexivity.
  - rewrite (bool_decide_eq_false_2 (task_answer t = Auto)) by done. rewrite update_rows_none.
    + split; [by left|]. simpl. rewrite Hnop by done. done.
    + intros r (u & -> & Hu)%list_elem_of_fmap. apply andb_false_iff.
      destruct (is_task id u) eqn:Ei; [right|by left]. apply bool_decide_eq_false.
      assert (u = t) as ->.
      { assert (get_task id l = Some u) as E; [|congruence].
        apply get_task_spec; [apply (lo_tasks _ (rp_ok _ _ Hrep))|]. split; [done|by apply is_task_true]. }
      cbn [task_row tc_answer]. by destruct (task_answer t).
Qed.

Lemma stored_pairs_rows id ss :
  traverse stored_state (List.filter (of_task_row id) (step_row <$> ss)) =
  Ok (stored_pairs (List.filter (of_task id) ss)).
Proof using Type.
  rewrite filter_fmap_bool. unfold stored_pairs. apply traverse_fmap. intros s _.
  unfold stored_state. cbn [step_row sc_state sc_key]. by rewrite StepState_parse_str.
Qed.

Lemma replace_simulated p l :
  represents (rows_of l) l → plan_writable p → (∀ s, s ∈ vp_steps p → storable_step whole s) →
  simulated (ReplaceOpenSteps p) l.
Proof using Hf.
  intros Hrep Hpw Hst. unfold simulated. cbn [sqlite_method sql_replace_open_steps run sqlite].
  unfold repository, MockLongTaskRepository, transaction, replace_tx.
  rewrite (select_task_rep _ _ Hrep). pose proof (replanned_nodup p l (rp_ok _ _ Hrep) Hpw) as Hnd.
  unfold replace_open_steps. destruct (get_task (vp_task_id p) l) as [t|] eqn:Eg; [|split; [by left|done]].
  cbn [fmap option_fmap option_map]. cbn [task_row tc_state]. rewrite LongTaskState_parse_str.
  cbn [readable result_bind]. destruct (is_terminal (task_state t)); [split; [by left|done]|].
  cbn [rows_of db_steps]. rewrite stored_pairs_rows. cbn [result_bind].
  destruct (check_current p _) as [[]|e]; [|split; [by left|done]].
  rewrite (insert_steps_ok _ (List.filter (kept_by_replan (vp_task_id p)) (lg_steps l))).
  - split; [by left|]. done.
  - cbn [with_step_rows db_steps]. rewrite filter_fmap_bool. f_equal. apply filter_ext_elem.
    intros s _. cbn [step_row sc_state]. rewrite one_of_open. unfold kept_by_replan.
    change (of_task_row (vp_task_id p) _) with (of_task (vp_task_id p) s).
    destruct (of_task (vp_task_id p) s), (survives_replan (ps_state s)); done.
  - intros s Hs. split; [by apply Hst|]. rewrite (proj1 (pw_steps _ Hpw s Hs)).
    change (db_tasks _) with (db_tasks (rows_of l)). rewrite (exists_task_rep _ _ Hrep).
    apply existsb_tasks, list_elem_of_fmap. apply find_some_iff in Eg as [Ht Hid%is_task_true].
    by exists t.
  - by apply Hnd.
Qed.

Lemma update_step_simulated s l :
  represents (rows_of l) l →
  (∀ s0, s0 ∈ lg_steps l → ps_task_id s0 = ps_task_id s → ps_key s0 = ps_key s → same_step s0 s) →
  simulated (UpdateStep s) l.
Proof using Type.
  intros Hrep Hsame. unfold simulated. cbn [sqlite_method]. unfold sql_update_step. cbn [run sqlite].
  unfold repository, MockLongTaskRepository, update_step, select_step_state.
  cbn [rows_of db_steps]. rewrite find_first_fmap.
  change (find_first _ (lg_steps l)) with (find_first (is_step (ps_task_id s) (ps_key s)) (lg_steps l)).
  destruct (find_first _ (lg_steps l)) as [s0|] eqn:Ef; cbn [fmap option_fmap option_map run];
    [|split; [by left|done]].
  cbn [step_row sc_state]. rewrite StepState_parse_str. cbn [readable].
  destruct (negb _) eqn:Ec; cbn [run]; [split; [by left|done]|]. cbn [sqlite]. unfold update_run.
  pose proof Ef as [Hin Hk]%find_some_iff. cbn [rows_of db_steps].
  rewrite (update_rows_first step_row (λ s, (ps_task_id s, ps_key s)) (ps_task_id s, ps_key s)
             (is_step (ps_task_id s) (ps_key s)) _ _ (lg_steps l) s0 s).
  - cbn [run Nat.eqb]. split; [by left|done].
  - intros u. apply is_step_true.
  - apply (lo_steps _ (rp_ok _ _ Hrep)).
  - exact Ef.
  - intros u Hu. apply andb_false_iff. by left.
  - apply andb_true_iff. split; [exact Hk|by apply bool_decide_eq_true].
  - apply is_step_true in Hk as [= Hid Hkey].
    destruct (Hsame s0 Hin Hid Hkey) as (E1 & E2 & E3 & E4 & E5 & E6 & E7 & E8 & E9).
    unfold step_row. simpl. by rewrite E1, E2, E3, E4, E5, E6, E7, E8, E9.
Qed.

Lemma insert_artifact_simulated a l :
  represents (rows_of l) l → storable_artifact whole a → simulated (InsertArtifact a) l.
Proof using Type.
  intros Hrep Hst. unfold simulated. cbn [sqlite_method sql_insert_artifact run sqlite].
  unfold repository, MockLongTaskRepository, insert_artifact_row, insert_artifact.
  change (ac_id (artifact_row a)) with (ar_id a). change (ac_task_id (artifact_row a)) with (ar_task_id a).
  rewrite (exists_task_rep _ _ Hrep), (artifact_check_row _ Hst). cbn [rows_of db_artifacts].
  rewrite existsb_fmap.
  change (List.existsb (λ b, is_artifact_row (ar_id a) (artifact_row b)) (lg_artifacts l))
    with (List.existsb (is_artifact (ar_id a)) (lg_artifacts l)).
  destruct (List.existsb (is_task _) _), (List.existsb (is_artifact _) _); simpl;
    try (split; [right; by eexists _, _|done]).
  split; [by left|]. unfold rows_of, with_artifact_rows. simpl. by rewrite fmap_app.
Qed.

Lemma delete_task_simulated id l : represents (rows_of l) l → simulated (DeleteTask id) l.
Proof using Type.
  intros Hrep. unfold simulated. cbn [sqlite_method sql_delete_task run sqlite].
  unfold repository, MockLongTaskRepository, delete_task_row, delete_task.
  rewrite (exists_task_rep _ _ Hrep). cbn [rows_of db_tasks db_steps db_artifacts].
  rewrite !filter_fmap_bool, length_fmap.
  change (List.filter (λ a, is_task_row id (task_row a)) (lg_tasks l))
    with (List.filter (is_task id) (lg_tasks l)).
  change (List.filter (λ a, negb (is_task_row id (task_row a))) (lg_tasks l))
    with (List.filter (λ t, negb (is_task id t)) (lg_tasks l)).
  pose proof (List.filter_length (is_task id) (lg_tasks l)) as Hlen.
  destruct (List.existsb (is_task id) (lg_tasks l)) eqn:Ex.
  - assert (0 < length (List.filter (is_task id) (lg_tasks l)))%nat as Hpos.
    { apply existsb_elem_of in Ex as (t & Ht & Hid).
      assert (t ∈ List.filter (is_task id) (lg_tasks l)) as Hin by by apply elem_of_filter_bool.
      destruct (List.filter (is_task id) (lg_tasks l)); [by apply elem_of_nil in Hin|simpl; lia]. }
    rewrite (proj2 (Nat.eqb_neq _ _)) by lia. rewrite (proj2 (Nat.ltb_lt _ _)) by exact Hpos.
    split; [by left|done].
  - assert (List.filter (is_task id) (lg_tasks l) = []) as E0.
    { apply filter_none. intros t Ht. apply not_true_iff_false. intros Hid. apply not_true_iff_false in Ex. apply Ex.
      apply existsb_elem_of. by exists t. }
    rewrite E0 in Hlen |- *. rewrite (proj2 (Nat.eqb_eq _ _)) by (simpl in Hlen; lia). split; [by left|].
    rewrite (filter_true _ (lg_steps l)) by done. by rewrite (filter_true _ (lg_artifacts l)) by done.
Qed.

Lemma delete_artifact_simulated id artifact_id l : simulated (DeleteArtifact id artifact_id) l.
Proof using Type.
  unfold simulated. cbn [sqlite_method sql_delete_artifact run sqlite].
  unfold repository, MockLongTaskRepository, delete_artifact_row, delete_artifact.
  cbn [rows_of db_artifacts]. rewrite !filter_fmap_bool, length_fmap.
  set (p := λ a, artifact_of id a && is_artifact artifact_id a).
  assert (∀ a, is_artifact_row artifact_id (artifact_row a) && artifact_row_of id (artifact_row a) = p a) as Hp.
  { intros a. unfold p. apply andb_comm. }
  rewrite (filter_ext_elem _ p (lg_artifacts l)) by (intros a _; apply Hp).
  rewrite (filter_ext_elem
    (λ a, negb (is_artifact_row artifact_id (artifact_row a) && artifact_row_of id (artifact_row a)))
    (λ a, negb (p a)) (lg_artifacts l))
    by (intros a _; by rewrite Hp).
  pose proof (List.filter_length p (lg_artifacts l)) as Hlen. split; [|done]. left. simpl. f_equal.
  change (λ a, negb (artifact_of id a && is_artifact artifact_id a)) with (λ a, negb (p a)).
  destruct (length (List.filter p (lg_artifacts l))) as [|n] eqn:En; simpl.
  - symmetry. apply Nat.ltb_ge. lia.
  - symmetry. apply Nat.ltb_lt. lia.
Qed.

Lemma sqlite_simulates_ledger :
  simulates SqliteLongTaskRepository MockLongTaskRepository represents (λ R c, agrees c)
    (λ R c, storable whole c).
Proof using Hf.
  intros R c db l Hrep Hst. apply simulated_represents; [exact Hrep|exact Hst|].
  pose proof (rows_of_represents db l Hrep) as Hl. destruct c.
  - apply create_simulated, Hst.
  - unfold simulated. cbn [sqlite_method]. unfold sql_get_task. cbn [run sqlite].
    rewrite (get_task_reads _ _ Hl). split; [by left|done].
  - unfold simulated. cbn [sqlite_method]. unfold sql_list_tasks. cbn [run sqlite].
    rewrite (select_tasks_reads _ _ Hl). split; [by left|done].
  - by apply set_state_simulated.
  - by apply decide_simulated.
  - apply replace_simulated; [exact Hl|apply Hst|apply Hst].
  - unfold simulated. cbn [sqlite_method]. unfold sql_list_steps. cbn [run sqlite].
    rewrite (select_steps_reads _ _ Hl). split; [by left|done].
  - apply update_step_simulated; [exact Hl|apply Hst].
  - apply insert_artifact_simulated; [exact Hl|apply Hst].
  - unfold simulated. cbn [sqlite_method]. unfold sql_get_artifact. cbn [run sqlite].
    rewrite (select_artifact_reads _ _ Hl). split; [by left|done].
  - unfold simulated. cbn [sqlite_method]. unfold sql_list_artifacts. cbn [run sqlite].
    rewrite (select_artifacts_reads _ _ Hl). split; [by left|done].
  - by apply delete_task_simulated.
  - apply delete_artifact_simulated.
Qed.

(** *** A call and the same call to the second send the same rows. *)

Lemma to_second_whole t : dated t → whole (to_second t).
Proof using Type.
  unfold whole, dated, to_second. intros Ht. pose proof (Z.mod_pos_bound t 1000000000 eq_refl).
  pose proof (Z.div_mod t 1000000000 ltac:(done)) as E. split; [nia|].
  replace (t - t mod 1000000000)%Z with (t / 1000000000 * 1000000000)%Z by lia. by rewrite Z.mod_mul.
Qed.

Lemma to_second_of_whole t : whole t → to_second t = t.
Proof using Type. intros [_ Ht]. unfold to_second. rewrite Ht. lia. Qed.

Lemma cut_opt o : opt_is dated o → opt_is whole (to_second <$> o).
Proof using Type. intros Ho t. destruct o as [u|]; [|done]. intros [= <-]. apply to_second_whole. by apply Ho. Qed.

Lemma cut_opt_whole o : opt_is whole o → to_second <$> o = o.
Proof using Type. intros Ho. destruct o as [u|]; [|done]. simpl. f_equal. apply to_second_of_whole. by apply Ho. Qed.

Lemma sql_ts_opt o : opt_is dated o → sql_ts <$> (to_second <$> o) = sql_ts <$> o.
Proof using Hf. intros Ho. destruct o as [t|]; [|done]. simpl. by rewrite (fo_cut Hf) by by apply Ho. Qed.

Lemma task_row_cut t : storable_task dated t → task_row (cut_task t) = task_row t.
Proof using Hf. intros [_ H1 H2 H3 H4 _ _]. unfold task_row. cbn [cut_task task_id task_owner task_scope task_goal task_origin task_state task_budget task_kind task_answer task_created_at task_updated_at task_finished_at max_steps deadline]. by rewrite !sql_ts_opt, !(fo_cut Hf). Qed.

Lemma step_row_cut s : storable_step dated s → step_row (cut_step s) = step_row s.
Proof using Hf. intros [_ _ _ H1 H2]. unfold step_row, cut_step, ps_with. simpl. by rewrite !sql_ts_opt. Qed.

Lemma artifact_row_cut a : storable_artifact dated a → artifact_row (cut_artifact a) = artifact_row a.
Proof using Hf. intros [_ H]. unfold artifact_row, cut_artifact. simpl. by rewrite (fo_cut Hf). Qed.

Lemma cut_task_whole t : storable_task whole t → cut_task t = t.
Proof using Type.
  intros [_ H1 H2 H3 H4 _ _]. destruct t as [a b c d e f [g h] i j k l m]. unfold cut_task. simpl in *.
  by rewrite !cut_opt_whole, !to_second_of_whole.
Qed.

Lemma from_parts_cut t : LongTask_from_parts (parts_of t) = Ok t → LongTask_from_parts (parts_of (cut_task t)) = Ok (cut_task t).
Proof using Type.
  unfold LongTask_from_parts. simpl. destruct (is_empty _); [done|]. destruct (is_empty _); [done|]. destruct (_ =? 0); [done|].
  destruct (owner_for _ _) as [o|]; [|done]. destruct (origin_for _) as [o'|]; [|done]. cbn [result_bind]. intros E.
  destruct t as [a b c d e f [g h] i j k l m]. unfold cut_task. simpl in *. congruence.
Qed.

Lemma step_from_parts_cut s : PlanStep_from_parts (parts_of_step s) = Ok s → PlanStep_from_parts (parts_of_step (cut_step s)) = Ok (cut_step s).
Proof using Type.
  unfold PlanStep_from_parts. simpl. destruct (StepKey_parse _) as [k|]; [|done]. cbn [result_bind]. destruct (is_empty _); [done|].
  destruct (is_empty _); [done|]. destruct (traverse _ _) as [ds|]; [|done]. cbn [result_bind]. intros E.
  destruct s. simpl in *. unfold cut_step, ps_with. simpl. congruence.
Qed.

Lemma artifact_from_parts_cut a : Artifact_from_parts (parts_of_artifact a) = Ok a → Artifact_from_parts (parts_of_artifact (cut_artifact a)) = Ok (cut_artifact a).
Proof using Type.
  unfold Artifact_from_parts. simpl. destruct (is_empty _); [done|]. destruct (is_empty _); [done|]. destruct (step_key_of _) as [k|]; [|done].
  cbn [result_bind]. destruct (is_empty _); [done|]. destruct (is_empty _); [done|]. destruct (is_empty _); [done|]. intros E.
  destruct a. simpl in *. unfold cut_artifact. simpl. congruence.
Qed.

Lemma cut_step_storable s : storable_step dated s → storable_step whole (cut_step s).
Proof using Type. intros [H1 H2 H3 H4 H5]. split; [by apply step_from_parts_cut|exact H2|exact H3|by apply cut_opt|by apply cut_opt]. Qed.

Lemma cut_well_run s : well_run s → well_run (cut_step s).
Proof using Type.
  intros [H1 H2 H3 H4 H5]. split; try done. simpl. destruct (ps_state s); try done; try (by destruct H5 as [u ->]).
  destruct H5 as (-> & [u ->] & H5). done.
Qed.

Lemma cut_admissible {R} (c : RepoCall R) : admissible c → admissible (cut_call c).
Proof using Type.
  destruct c; simpl; try done.
  - intros [[H1 H2 H3 H4 H5] H6]. split; [by split|]. unfold end_stamped in *. simpl. by rewrite fmap_is_Some.
  - intros [H1 H2]. split; simpl.
    + by rewrite <-list_fmap_compose.
    + intros s (u & -> & Hu)%list_elem_of_fmap. destruct (H2 u Hu) as (? & ? & ?). split_and!; [done..|by apply cut_well_run].
  - intros [H1 H2]. split; [done|by apply cut_well_run].
Qed.

Lemma storable_cut {R} (c : RepoCall R) l : storable dated c l → storable whole (cut_call c) l.
Proof using Type.
  intros [Ha H]. split; [by apply cut_admissible|]. destruct c; simpl in *; try done.
  - destruct H as [H1 H2 H3 H4 H5 H6 H7]. split; [by apply from_parts_cut|by apply cut_opt|by apply to_second_whole..|by apply cut_opt|done|done].
  - by apply to_second_whole.
  - intros s (u & -> & Hu)%list_elem_of_fmap. by apply cut_step_storable, H.
  - destruct H as [H1 H2]. split; [by apply cut_step_storable|exact H2].
  - destruct H as [H1 H2]. split; [by apply artifact_from_parts_cut|by apply to_second_whole].
Qed.

Lemma insert_steps_cut steps : (∀ s, s ∈ steps → storable_step dated s) → ∀ db, insert_steps (cut_step <$> steps) db = insert_steps steps db.
Proof using Hf.
  induction steps as [|s steps IH]; intros Hs db; [done|]. cbn [fmap list_fmap insert_steps]. rewrite step_row_cut by (apply Hs; left).
  destruct (insert_step _ _); [|done]. cbn [result_bind]. apply IH. intros u Hu. apply Hs. by right.
Qed.

Lemma check_current_cut p stored : check_current (cut_plan p) stored = check_current p stored.
Proof using Type.
  unfold check_current. cbn [cut_plan vp_task_id vp_kept vp_steps]. destruct (check_kept _ _ _); [|done]. cbn [result_bind].
  induction (vp_steps p) as [|s steps IH]; [done|]. cbn [fmap list_fmap check_new]. change (ps_key (cut_step s)) with (ps_key s). by rewrite IH.
Qed.

Lemma replace_tx_cut p db : (∀ s, s ∈ vp_steps p → storable_step dated s) → replace_tx (cut_plan p) db = replace_tx p db.
Proof using Hf.
  intros Hs. unfold replace_tx. cbn [cut_plan vp_task_id vp_steps]. destruct (select_task _ _); [|done].
  destruct (readable _ _) as [st|]; [|done]. cbn [result_bind]. destruct (is_terminal st); [done|].
  destruct (traverse _ _) as [stored|]; [|done]. cbn [result_bind].
  rewrite check_current_cut.
  destruct (check_current p stored); [|done]. by rewrite insert_steps_cut.
Qed.

Lemma transition_cut t state at_ : whole (to_second at_) → storable_task whole t →
  transition_to t state (to_second at_) = match transition_to t state at_ with Ok t' => Ok (cut_task t') | Err e => Err e end.
Proof using Type.
  intros Hw Ht. pose proof (cut_task_whole t Ht) as E. unfold transition_to. destruct (negb _); [done|]. f_equal.
  destruct t as [a b c d e f [g h] i j k l m]. unfold cut_task in *. simpl in *. injection E as E1 E2 E3 E4.
  rewrite E1, E2. destruct (is_terminal state); [done|]. by rewrite E4.
Qed.

Lemma set_state_cut id state at_ db l : represents db l → dated at_ →
  run sqlite (sqlite_method (SetTaskState id state (to_second at_))) db =
  let '(r, db') := run sqlite (sqlite_method (SetTaskState id state at_)) db in (cut_answer (SetTaskState id state at_) r, db').
Proof using Hf.
  intros Hrep Hat. rewrite (represents_rows db l Hrep). pose proof (rows_of_represents db l Hrep) as Hl. cbn [sqlite_method]. unfold sql_set_task_state.
  rewrite !run_bind. unfold sql_get_task at 1 3. cbn [run sqlite]. rewrite (get_task_reads _ _ Hl id).
  destruct (get_task id l) as [t|] eqn:Eg; cbn [run]; [|done].
  rewrite transition_cut by (by apply to_second_whole || by eapply get_task_storable).
  destruct (transition_to t state at_) as [t'|e] eqn:Et; cbn [run]; [|done].
  assert (sqlite _ (UpdateState id (task_state t) (cut_task t')) (rows_of l) = sqlite _ (UpdateState id (task_state t) t') (rows_of l)) as ->.
  { apply transition_to_ok in Et as (_ & _ & _ & Hup & Hfin). simpl. rewrite Hup, (fo_cut Hf) by exact Hat. f_equal.
    rewrite Hfin. destruct (is_terminal state); [simpl; by rewrite (fo_cut Hf)|].
    rewrite cut_opt_whole; [done|]. apply (st_finished _ _ (get_task_storable _ _ Hl _ _ Eg)). }
  destruct (sqlite _ _ _) as [n db']. destruct (n =? 0)%nat; cbn [run]; [|done]. rewrite !run_bind.
  destruct (run sqlite (sql_get_task id) db') as [[[?|]|?] db'']; done.
Qed.

Lemma sqlite_cut {R} (c : RepoCall R) db l : represents db l → storable dated c l →
  SqliteLongTaskRepository R (cut_call c) db =
  let '(r, db') := SqliteLongTaskRepository R c db in (cut_answer c r, db').
Proof using Hf.
  intros Hrep [_ Hst]. unfold SqliteLongTaskRepository. destruct c; try (by destruct (run _ _ _)).
  - cbn [cut_call sqlite_method]. unfold sql_create_task. rewrite task_row_cut by exact Hst. by destruct (run _ _ _).
  - by eapply set_state_cut.
  - cbn [cut_call sqlite_method]. unfold sql_replace_open_steps. cbn [run sqlite]. unfold transaction. rewrite replace_tx_cut by exact Hst.
    by destruct (replace_tx plan db).
  - cbn [cut_call sqlite_method]. unfold sql_update_step. cbn [run sqlite cut_step ps_with ps_task_id ps_key ps_state].
    destruct Hst as [Hst _]. destruct (select_step_state _ _ _) as [stored|]; [|done]. destruct (readable _ _) as [from|]; [|done].
    cbn [run]. destruct (negb _); [done|]. cbn [run sqlite]. unfold update_run. change (ps_task_id (cut_step step)) with (ps_task_id step).
    change (ps_key (cut_step step)) with (ps_key step). rewrite step_row_cut by exact Hst. by destruct (update_rows _ _ _).
  - cbn [cut_call sqlite_method]. unfold sql_insert_artifact. rewrite artifact_row_cut by exact Hst. by destruct (run _ _ _).
Qed.

Lemma agrees_cut {R} (c : RepoCall R) : agrees (cut_call c) = agrees c.
Proof using Type. by destruct c. Qed.

Lemma sqlite_simulates_to_the_second :
  simulates SqliteLongTaskRepository to_the_second represents (λ R c r r', agrees c (cut_answer c r) r')
    (λ R c, storable dated c).
Proof using Hf.
  intros R c db l Hrep Hst. pose proof (sqlite_simulates_ledger R (cut_call c) db l Hrep (storable_cut c l Hst)) as H.
  rewrite (sqlite_cut c db l Hrep Hst), agrees_cut in H. by destruct (SqliteLongTaskRepository R c db).
Qed.
End formats.

(** ** Statements any method can send *)

Definition lawful {R} (c : RepoCall R) {Q} (st : Stmt Q) : Prop :=
  match st with
  | UpdateState _ from task => LongTaskState_can_become from (task_state task) = true
  | UpdateRun step from => StepState_can_become from (ps_state step) = true
  | DeleteTaskRow id => deletes c id
  | _ => True
  end.

Lemma methods_lawful {R} (c : RepoCall R) : only_calls (λ Q st, lawful c st) (sqlite_method c).
Proof using Type.
  destruct c; simpl; try (split; [exact I|done]).
  - split; [exact I|]. intros row. destruct (transpose row_to_task row) as [[t|]|e]; simpl; try done.
    destruct (transition_to t state at_) as [t'|e] eqn:Et; simpl; [|done].
    apply transition_to_ok in Et as (Hc & _ & -> & _). split; [exact Hc|]. intros n.
    destruct (n =? 0)%nat; simpl; [|done]. split; [exact I|]. intros row'.
    by destruct (transpose row_to_task row') as [[?|]|?].
  - unfold sql_decide_task_answer. case_bool_decide; simpl; [done|]. split; [exact I|done].
  - split; [exact I|]. intros [stored|]; simpl; [|done].
    destruct (readable _ (StepState_parse stored)) as [from|e]; simpl; [|done].
    destruct (StepState_can_become from (ps_state step)) eqn:Ec; simpl; [|done]. split; [exact Ec|done].
  - split; [reflexivity|done].
Qed.

(** How a statement may leave a row: its state as it was, or moved as the state allows. *)
Definition task_row_moved (r r' : TaskRow) : Prop :=
  tc_id r' = tc_id r ∧
  (tc_state r' = tc_state r ∨
   ∃ s s', tc_state r = LongTaskState_as_str s ∧ tc_state r' = LongTaskState_as_str s' ∧
     LongTaskState_can_become s s' = true).
Definition step_row_moved (r r' : StepRow) : Prop :=
  sc_task_id r' = sc_task_id r ∧ sc_key r' = sc_key r ∧
  (sc_state r' = sc_state r ∨
   ∃ s s', sc_state r = StepState_as_str s ∧ sc_state r' = StepState_as_str s' ∧
     StepState_can_become s s' = true).

Lemma update_rows_elem {A} (where_ : A → bool) set rows r :
  r ∈ rows → (if where_ r then set r else r) ∈ (update_rows where_ set rows).2.
Proof using Type.
  intros Hr. unfold update_rows. simpl.
  by apply (list_elem_of_fmap_2 (λ r, if where_ r then set r else r)).
Qed.

Lemma insert_steps_keeps steps db db' : insert_steps steps db = Ok db' →
  db_tasks db' = db_tasks db ∧ ∀ r, r ∈ db_steps db → r ∈ db_steps db'.
Proof using Type.
  revert db. induction steps as [|s steps IH]; intros db; simpl; [by intros [= <-]|].
  intros (db1 & H1 & H)%result_bind_ok. unfold insert_step in H1. destruct (_ || _ || _); [done|].
  injection H1 as <-. apply IH in H as [Ht Hs]. split; [exact Ht|]. intros r Hr. apply Hs.
  simpl. apply elem_of_app. by left.
Qed.

Lemma statement_tasks {R} (c : RepoCall R) {Q} (st : Stmt Q) db r :
  lawful c st → r ∈ db_tasks db →
  (∃ r', r' ∈ db_tasks (sqlite Q st db).2 ∧ task_row_moved r r') ∨ deletes c (tc_id r).
Proof using Type.
  intros Hl Hr. assert (∀ db', db_tasks db' = db_tasks db →
    (∃ r', r' ∈ db_tasks db' ∧ task_row_moved r r') ∨ deletes c (tc_id r)) as Hsame.
  { intros db' E. left. exists r. rewrite E. split; [exact Hr|]. split; [done|by left]. }
  destruct st; simpl; try (apply Hsame; reflexivity).
  - unfold insert_task. destruct (_ || _ || _ || _); [by apply Hsame|]. left. exists r. simpl.
    split; [apply elem_of_app; by left|]. split; [done|by left].
  - left. unfold update_answer.
    exists (if undecided id r then set_answer answer r else r).
    split; [exact (update_rows_elem _ _ _ r Hr)|]. destruct (undecided id r); (split; [done|by left]).
  - left. unfold update_state.
    set (st := LongTaskState_as_str (task_state task)). set (fin := _ <$> task_finished_at task).
    exists (if task_in id (LongTaskState_as_str from) r
            then set_state st (sql_ts (task_updated_at task)) fin r else r).
    split; [exact (update_rows_elem _ _ _ r Hr)|]. destruct (task_in id _ r) eqn:Ew; [|split; [done|by left]].
    split; [done|]. right.
    apply andb_true_iff in Ew as [_ Ew%bool_decide_eq_true]. by exists from, (task_state task).
  - unfold transaction. destruct (replace_tx plan db) as [db'|e] eqn:E; [|by apply Hsame].
    apply Hsame. unfold replace_tx in E. destruct (select_task _ db); [|done].
    apply result_bind_ok in E as (s & _ & E). destruct (is_terminal s); [done|].
    apply result_bind_ok in E as (stored & _ & E). destruct (check_current plan stored); [|done].
    apply insert_steps_keeps in E as [E _]. exact E.
  - unfold insert_artifact_row. destruct (_ || _ || _); by apply Hsame.
  - simpl in Hl. destruct (is_task_row id r) eqn:Ei.
    + right. apply bool_decide_eq_true in Ei as ->. exact Hl.
    + left. exists r. split; [|split; [done|by left]]. apply elem_of_filter_bool.
      split; [exact Hr|by rewrite Ei].
Qed.

Lemma statement_steps {R} (c : RepoCall R) {Q} (st : Stmt Q) db r :
  lawful c st → r ∈ db_steps db →
  (∃ r', r' ∈ db_steps (sqlite Q st db).2 ∧ step_row_moved r r') ∨
  deletes c (sc_task_id r) ∨ one_of open_step_states (sc_state r) = true.
Proof using Type.
  intros Hl Hr. assert (∀ db', (∀ r, r ∈ db_steps db → r ∈ db_steps db') →
    (∃ r', r' ∈ db_steps db' ∧ step_row_moved r r') ∨
    deletes c (sc_task_id r) ∨ one_of open_step_states (sc_state r) = true) as Hsame.
  { intros db' E. left. exists r. split; [by apply E|]. split; [done|]. split; [done|by left]. }
  destruct st; simpl; try (apply Hsame; done).
  - unfold insert_task. destruct (_ || _ || _ || _); by apply Hsame.
  - unfold transaction. destruct (replace_tx plan db) as [db'|e] eqn:E; [|by apply Hsame].
    destruct (one_of open_step_states (sc_state r)) eqn:Eo; [by right; right|]. left.
    exists r. split; [|split; [done|split; [done|by left]]].
    unfold replace_tx in E. destruct (select_task _ db); [|done].
    apply result_bind_ok in E as (s & _ & E). destruct (is_terminal s); [done|].
    apply result_bind_ok in E as (stored & _ & E). destruct (check_current plan stored); [|done].
    apply insert_steps_keeps in E as [_ E]. apply E. simpl. apply elem_of_filter_bool.
    split; [exact Hr|]. by rewrite Eo, andb_false_r.
  - left. unfold update_run.
    exists (if step_in (ps_task_id step) (ps_key step) (StepState_as_str from) r
            then set_run (step_row step) r else r).
    split; [exact (update_rows_elem _ _ _ r Hr)|]. destruct (step_in _ _ _ r) eqn:Ew; [|split; [done|split; [done|by left]]].
    split; [done|]. split; [done|]. right.
    apply andb_true_iff in Ew as [_ Ew%bool_decide_eq_true]. by exists from, (ps_state step).
  - unfold insert_artifact_row. destruct (_ || _ || _); by apply Hsame.
  - simpl in Hl. destruct (List.existsb (is_task_row id) (db_tasks db) && of_task_row id r) eqn:Ei.
    + right. left. apply andb_true_iff in Ei as [_ Ei%bool_decide_eq_true]. by rewrite Ei.
    + left. exists r. split; [|split; [done|split; [done|by left]]]. apply elem_of_filter_bool.
      split; [exact Hr|by rewrite Ei].
Qed.

(** ** Properties *)


(** C2: a race never overwrites work. Whatever others do to the tables between the statements of a
    method, each statement it sends leaves every task and every step in the state it had or moved
    as its state machine allows; only deleting its task removes a task, and a step goes only with
    its task or while it is still open, in a replan. So the state a method read may be stale, and
    its write then changes nothing. *)
Theorem sqlite_races_are_safe {R} (c : RepoCall R) env db p db1 p' db2 :
  star (config_step sqlite env) (sqlite_method c, db) (p, db1) →
  call_step sqlite (p, db1) = Some (p', db2) →
  (∀ r, r ∈ db_tasks db1 →
     (∃ r', r' ∈ db_tasks db2 ∧ task_row_moved r r') ∨ deletes c (tc_id r)) ∧
  (∀ r, r ∈ db_steps db1 →
     (∃ r', r' ∈ db_steps db2 ∧ step_row_moved r r') ∨
     deletes c (sc_task_id r) ∨ one_of open_step_states (sc_state r) = true).
Proof using Type.
  intros Hs Hc. pose proof (only_calls_reachable _ _ _ _ _ _ (methods_lawful c) Hs) as Ho.
  unfold call_step in Hc. simpl in Ho, Hc. destruct p as [a|Q st k]; [done|].
  destruct Ho as [Hl _]. destruct (sqlite Q st db1) as [q db'] eqn:E. injection Hc as _ <-.
  replace db' with (sqlite Q st db1).2 by by rewrite E.
  split; intros r Hr; [by apply statement_tasks|by apply statement_steps].
Qed.
End store.

(** ** A concrete instance of the formats *)

Module Demo.
(** The second an instant is in. *)
Definition sql_ts (t : Z) : text := [Z.to_N (t / 1000000000)].
Definition parse_ts (raw : text) : option Z :=
  match raw with [n] => Some (Z.of_N n * 1000000000)%Z | _ => None end.
(** A count, then each string after its length. *)
Definition json_of (l : list text) : text :=
  N.of_nat (length l) :: concat ((λ t, N.of_nat (length t) :: t) <$> l).
Fixpoint read_strings (n : nat) (raw : text) : option (list text) :=
  match n, raw with
  | O, [] => Some []
  | S n, len :: raw => (cons (take (N.to_nat len) raw)) <$> read_strings n (drop (N.to_nat len) raw)
  | _, _ => None
  end.
Definition json_read (raw : text) : option (list text) :=
  match raw with n :: raw => read_strings (N.to_nat n) raw | [] => None end.
Definition agent_json (a : StepAgent) : text :=
  json_of (sa_name a :: sa_instructions a :: sa_tools a).
Definition agent_read (raw : text) : option StepAgent :=
  match json_read raw with
  | Some (name :: instructions :: tools) =>
      Some {| sa_name := name; sa_instructions := instructions; sa_tools := tools |}
  | _ => None
  end.
Definition profiles : gset text := {[ lit "ann" ]}.
Definition sessions : gset text := {[ lit "s1" ]}.
Notation repository := (SqliteLongTaskRepository sql_ts parse_ts json_of json_read (λ _, true)
  agent_json agent_read profiles sessions).
Notation statement := (sqlite sql_ts json_of (λ _, true) agent_json profiles sessions).
Notation method := (sqlite_method sql_ts parse_ts json_read agent_read).
End Demo.

Lemma demo_json_reads l : Demo.json_read (Demo.json_of l) = Some l.
Proof.
  unfold Demo.json_read, Demo.json_of. rewrite Nat2N.id. induction l as [|t l IH]; [done|].
  rewrite fmap_cons. cbn [length concat Demo.read_strings app]. rewrite Nat2N.id.
  by rewrite take_app_length, drop_app_length, IH.
Qed.

Lemma demo_formats_ok :
  formats_ok Demo.sql_ts Demo.parse_ts Demo.json_of Demo.json_read (λ _, true) Demo.agent_json
    Demo.agent_read.
Proof.
  split.
  - intros t Ht%to_second_whole. unfold Demo.sql_ts, to_second. do 2 f_equal.
    rewrite (Z.div_mod t 1000000000) at 1 by done.
    replace (1000000000 * (t / 1000000000) + t mod 1000000000 - t mod 1000000000)%Z with (t / 1000000000 * 1000000000)%Z by lia.
    by rewrite Z.div_mul.
  - intros t [Ht Hm]. unfold dated in Ht. unfold Demo.parse_ts, Demo.sql_ts. f_equal. apply Z_div_exact_full_2 in Hm as Ht2; [|done].
    rewrite Z2N.id by (apply Z.div_pos; lia). lia.
  - intros t u [Ht Hm] [Hu Hn]. unfold dated in Ht, Hu. unfold text_leb, Demo.sql_ts, text_compare.
    apply Z_div_exact_full_2 in Hm, Hn; [|done..]. pose proof (Z.div_pos t 1000000000). pose proof (Z.div_pos u 1000000000).
    destruct (N.compare_spec (Z.to_N (t / 1000000000)) (Z.to_N (u / 1000000000))); symmetry; [apply Z.leb_le|apply Z.leb_le|apply Z.leb_gt]; lia.
  - exact demo_json_reads.
  - done.
  - intros [name instructions tools]. unfold Demo.agent_read, Demo.agent_json.
    by rewrite demo_json_reads.
Qed.

(** Ann's task, asked for a quarter after second 5, then listed. *)
Definition demo_task : LongTask :=
  {| task_id := lit "t1"; task_owner := Some (lit "ann"); task_scope := Owner (lit "ann");
     task_goal := lit "plan a trip"; task_origin := Some (lit "s1"); task_state := Planning;
     task_budget := budget12; task_kind := General; task_answer := Auto;
     task_created_at := 5250000000; task_updated_at := 5250000000; task_finished_at := None |}.
Definition demo_db : Db :=
  (Demo.repository _ (CreateTask demo_task)
     {| db_tasks := []; db_steps := []; db_artifacts := [] |}).2.

Lemma demo_task_storable :
  storable_task Demo.profiles Demo.sessions dated demo_task.
Proof.
  assert (dated 5250000000) as Hw by (unfold dated; lia).
  split; [vm_compute; reflexivity|discriminate|exact Hw|exact Hw|discriminate| |];
    vm_compute; reflexivity.
Qed.


(** The task is cancelled between the read and the write of a method that sets it running: the
    write takes no row. *)
Definition cancelled_row : TaskRow :=
  set_state (lit "cancelled") (Demo.sql_ts 6000000000) (Some (Demo.sql_ts 6000000000))
    (task_row Demo.sql_ts demo_task).
Definition raced_db : Db := with_task_rows [cancelled_row] demo_db.
Definition after_read : Prog Stmt (result (option LongTask) RepoError) * Db :=
  default (Ret (Ok None), demo_db)
    (call_step Demo.statement (Demo.method (SetTaskState (lit "t1") Running 7000000000), demo_db)).
Definition after_write : Prog Stmt (result (option LongTask) RepoError) * Db :=
  default after_read (call_step Demo.statement (after_read.1, raced_db)).

Lemma sqlite_races_are_safe_witness :
  db_tasks after_write.2 = [cancelled_row] ∧
  ∃ r', r' ∈ db_tasks after_write.2 ∧ task_row_moved cancelled_row r'.
Proof.
  split; [vm_compute; reflexivity|].
  destruct (sqlite_races_are_safe Demo.sql_ts Demo.parse_ts Demo.json_of Demo.json_read (λ _, true)
    Demo.agent_json Demo.agent_read Demo.profiles Demo.sessions
    (SetTaskState (lit "t1") Running 7000000000) (λ _ _, True) demo_db after_read.1 raced_db
    after_write.1 after_write.2) as [H _].
  - apply (star_step _ _ after_read); [|by apply star_one, env_step].
    apply cs_call. refine (call_step_taken _ _ (Ret (Ok None), demo_db) _). exact I.
  - rewrite <-surjective_pairing. refine (call_step_taken _ (after_read.1, raced_db) after_read _). exact I.
  - destruct (H cancelled_row) as [Hr|[]]; [left|exact Hr].
Defined.
