(* ===== verification/DraftReader.v ===== *)
(** * DraftReader: reading the steps of a [plan_write] call

    [crates/pond-core/src/shared/domain/long_task.rs]: [read_step_draft],
    [match_waits_by_name], and the lenient field readers [string_or_lines] and
    [one_or_many] with the walks they use. What serde derives for [StepAgent] and
    [StepDraft] is generated code outside the repository: whether an object reads as an
    agent, and the draft an object reads as, are the section's variables. *)
From S2P Require Import Prelude Text Scope LongTask HandBack Step.
Local Open Scope N_scope.

(** ** JSON maps in insertion order *)

Definition contains_key (m : JMap) (k : text) : bool := bool_decide (is_Some (map_get m k)).

(** [Map::insert]: a present key keeps its place. *)
Fixpoint map_insert (m : JMap) (k : text) (v : Json) : JMap :=
  match m with
  | [] => [(k, v)]
  | f :: m => if bool_decide (f.1 = k) then (k, v) :: m else f :: map_insert m k v
  end.

(** [Map::remove], which with [preserve_order] swaps the last field into the place. *)
Definition map_remove (m : JMap) (k : text) : JMap :=
  match position (λ f, bool_decide (f.1 = k)) m with
  | None => m
  | Some i =>
      match last m with
      | Some f => if (S i =? length m)%nat then take i m else take i m ++ [f] ++ drop (S i) (removelast m)
      | None => m
      end
  end.

(** ** Fields *)

Definition STEP_DRAFT_FIELDS : list text :=
  [lit "key"; lit "id"; lit "step_key"; lit "role"; lit "agent"; lit "new_agent";
   lit "custom_agent"; lit "instructions"; lit "task"; lit "instruction"; lit "description";
   lit "prompt"; lit "action"; lit "inputs"; lit "input"; lit "artifacts"; lit "depends_on";
   lit "dependencies"; lit "depends"; lit "after"; lit "acceptance"; lit "acceptance_check";
   lit "check"].

Definition KEY_FALLBACKS : list text :=
  [lit "name"; lit "title"; lit "step"; lit "step_name"; lit "step_id"; lit "label"].

Definition KEY_FIELDS : list text := [lit "key"; lit "id"; lit "step_key"].

Definition is_ascii_alphanumeric (c : N) : bool :=
  is_ascii_lowercase c || is_ascii_uppercase c || is_ascii_digit c.
Definition squash (name : text) : text :=
  lowercase (List.filter is_ascii_alphanumeric name).

Definition same_squash (a b : text) : bool := bool_decide (squash a = squash b).
Definition is_fallback (name : text) : bool := existsb (λ f, same_squash f name) KEY_FALLBACKS.

(** ** [string_or_lines] and [one_or_many] *)

Fixpoint collect_line_parts (v : Json) : list text :=
  match v with
  | JNull | JBool _ => []
  | JNumber n => [n]
  | JString t => if is_empty (trim t) then [] else [t]
  | JArray items => concat (map collect_line_parts items)
  | JObject fields => concat (map (λ f, collect_line_parts f.2) fields)
  end.

(** [None] when the field is absent or [null]. *)
Definition optional_string_or_lines (v : option Json) : option text :=
  match v with
  | None => None
  | Some v =>
      let parts := collect_line_parts v in
      if is_empty parts then None else Some (join [10] parts)
  end.
Definition string_or_lines (v : option Json) : text := default [] (optional_string_or_lines v).

Definition HANDLE_FIELDS : list text :=
  [lit "id"; lit "key"; lit "step"; lit "step_key"; lit "step_id"; lit "artifact";
   lit "artifact_id"; lit "name"; lit "tool"; lit "group"].

Fixpoint collect_one_or_many (v : Json) : list text :=
  match v with
  | JNull | JBool _ => []
  | JNumber n => [n]
  | JString t => split_on (N.eqb 44) t
  | JArray items => concat (map collect_one_or_many items)
  | JObject fields =>
      let read := map (λ f, (f.1, (f.2, collect_one_or_many f.2))) fields in
      let get k := snd <$> find_first (λ f, bool_decide (f.1 = k)) read in
      if existsb (λ h, bool_decide (is_Some (get h))) HANDLE_FIELDS
      then concat (map (λ h, match get h with Some r => r.2 | None => [] end) HANDLE_FIELDS)
      else concat (map (λ f, match f.2.1 with
                             | JString _ | JNumber _ => f.2.2
                             | JBool true => [f.1]
                             | _ => []
                             end) read)
  end.

Definition one_or_many (v : option Json) : list text :=
  match v with None => [] | Some v => collect_one_or_many v end.

(** ** [read_step_draft] *)

Record ReadStep := { rs_draft : StepDraft; rs_ignored : list text; rs_names : list text }.

(** The first loop: exact names into [read], the rest into [near]. *)
Fixpoint split_exact (fields : JMap) (read near : JMap) : JMap * JMap :=
  match fields with
  | [] => (read, near)
  | (name, field) :: fields =>
      if bool_decide (name ∈ STEP_DRAFT_FIELDS)
      then split_exact fields (map_insert read name field) near
      else split_exact fields read (near ++ [(name, field)])
  end.

(** The second: a near spelling of a field not yet there is read as it. *)
Fixpoint read_near (near : JMap) (read unread : JMap) : JMap * JMap :=
  match near with
  | [] => (read, unread)
  | (name, field) :: near =>
      match find_first (λ known, same_squash known name) STEP_DRAFT_FIELDS with
      | Some known =>
          if contains_key read known then read_near near read (unread ++ [(name, field)])
          else read_near near (map_insert read known field) unread
      | None => read_near near read (unread ++ [(name, field)])
      end
  end.

Definition step_number (n : text) : text := lit "step-" ++ n.

(** The names the step goes by: its unread name-like fields. *)
Definition fallback_names (unread : JMap) : list text :=
  omap (λ f, if is_fallback f.1 then
               match f.2 with
               | JString t => Some (trim t)
               | JNumber n => Some (step_number n)
               | _ => None
               end
             else None) unread.

(** A key given as a number is a name too, and is read as [step-<n>]. *)
Fixpoint number_keys (key_fields : list text) (read : JMap) (names : list text) : JMap * list text :=
  match key_fields with
  | [] => (read, names)
  | k :: key_fields =>
      match map_get read k with
      | Some (JNumber n) =>
          number_keys key_fields (map_insert read k (JString (step_number n))) (names ++ [n])
      | _ => number_keys key_fields read names
      end
  end.

Definition is_keyed (read : JMap) : bool :=
  existsb (λ k, match map_get read k with Some v => negb (is_null v) | None => false end) KEY_FIELDS.

(** [KEY_FALLBACKS.iter().find_map]: the key taken, and the fields without it. *)
Fixpoint named_key (fallbacks : list text) (unread : JMap) : option (text * JMap) :=
  match fallbacks with
  | [] => None
  | fallback :: fallbacks =>
      match position (λ f, same_squash f.1 fallback) unread with
      | None => named_key fallbacks unread
      | Some at_ =>
          let key :=
            match unread !! at_ with
            | Some (_, JString t) => if is_empty (trim t) then None else Some t
            | Some (_, JNumber n) => Some (step_number n)
            | _ => None
            end in
          match key with
          | Some key => Some (key, take at_ unread ++ drop (S at_) unread)
          | None => named_key fallbacks unread
          end
      end
  end.

(** A step with no key takes one from its name, else from its place. *)
Definition choose_key (read unread : JMap) (position_ : N) : JMap * JMap :=
  if is_keyed read then (read, unread) else
  match named_key KEY_FALLBACKS unread with
  | Some (key, unread) => (map_insert read (lit "key") (JString key), unread)
  | None => (map_insert read (lit "key") (JString (step_number (dec position_))), unread)
  end.

(** What is read before serde sees it: the fields, the ignored names, the step's names. *)
Record ReadFields := { rf_read : JMap; rf_ignored : list text; rf_names : list text }.

Section serde.
Context (reads_as_agent : Json → bool) (draft_of : Json → option StepDraft).

(** An unreadable [new_agent] is dropped and named. *)
Definition drop_unreadable_agent (read : JMap) : JMap * list text :=
  match map_get read (lit "new_agent") with
  | Some agent =>
      if negb (is_null agent) && negb (reads_as_agent agent)
      then (map_remove read (lit "new_agent"), [lit "new_agent"]) else (read, [])
  | None => (read, [])
  end.

Definition read_fields (fields : JMap) (position_ : N) : ReadFields :=
  let '(read, near) := split_exact fields [] [] in
  let '(read, ignored) := drop_unreadable_agent read in
  let '(read, unread) := read_near near read [] in
  let names := fallback_names unread in
  let '(read, names) := number_keys KEY_FIELDS read names in
  let '(read, unread) := choose_key read unread position_ in
  {| rf_read := read;
     rf_ignored := ignored ++ List.filter (λ name, negb (is_fallback name)) (fst <$> unread);
     rf_names := names |}.

(** [None] is serde's refusal. *)
Definition read_step_draft (value : Json) (position_ : N) : option ReadStep :=
  match value with
  | JObject fields =>
      let r := read_fields fields position_ in
      draft ← draft_of (JObject (rf_read r));
      Some {| rs_draft := draft; rs_ignored := rf_ignored r; rs_names := rf_names r |}
  | other =>
      draft ← draft_of other;
      Some {| rs_draft := draft; rs_ignored := []; rs_names := [] |}
  end.
End serde.

(** ** [match_waits_by_name] *)

Definition slug_of (raw : text) : text := default (lowercase (trim raw)) (suggest_key raw).

Definition with_depends_on (s : ReadStep) (depends_on : list text) : ReadStep :=
  {| rs_draft := {| sd_key := sd_key (rs_draft s); sd_role := sd_role (rs_draft s);
                    sd_new_agent := sd_new_agent (rs_draft s);
                    sd_instructions := sd_instructions (rs_draft s);
                    sd_inputs := sd_inputs (rs_draft s); sd_depends_on := depends_on;
                    sd_acceptance := sd_acceptance (rs_draft s) |};
     rs_ignored := rs_ignored s; rs_names := rs_names s |}.

(** The aliases of one place, added unless a key or a name already means something by it. *)
Definition add_place (keys : list text) (key : text) (named : list (text * text)) (alias : text) :
    list (text * text) :=
  let wanted := slug_of alias in
  if negb (bool_decide (wanted ∈ keys)) && negb (bool_decide (wanted ∈ named.*1))
  then named ++ [(wanted, key)] else named.

Fixpoint add_places (keys : list text) (place : N) (steps : list ReadStep)
    (named : list (text * text)) : list (text * text) :=
  match steps with
  | [] => named
  | step :: steps =>
      let key := sd_key (rs_draft step) in
      let named := add_place keys key named (dec place) in
      let named := add_place keys key named (lit "step-" ++ dec place) in
      add_places keys (place + 1) steps named
  end.

Definition wait_names (steps : list ReadStep) : list (text * text) :=
  let keys := (λ s, slug_of (sd_key (rs_draft s))) <$> steps in
  let named := concat ((λ s, (λ name, (slug_of name, sd_key (rs_draft s))) <$> rs_names s) <$> steps) in
  add_places keys 1 steps named.

Definition match_wait (keys : list text) (named : list (text * text)) (wait : text) : text :=
  let wanted := slug_of wait in
  if bool_decide (wanted ∈ keys) then wait
  else match find_first (λ n, bool_decide (n.1 = wanted)) named with
       | Some (_, key) => key
       | None => wait
       end.

Definition match_waits_by_name (steps : list ReadStep) : list ReadStep :=
  let keys := (λ s, slug_of (sd_key (rs_draft s))) <$> steps in
  let named := wait_names steps in
  (λ s, with_depends_on s (match_wait keys named <$> sd_depends_on (rs_draft s))) <$> steps.

(** ** Lemmas: maps *)

Lemma map_get_cons f m k : map_get (f :: m) k = if decide (f.1 = k) then Some f.2 else map_get m k.
Proof.
  unfold map_get, find_first. simpl. destruct (decide (f.1 = k)) as [E|E].
  - by rewrite bool_decide_eq_true_2.
  - by rewrite bool_decide_eq_false_2.
Qed.

Lemma map_get_insert m k v k' :
  map_get (map_insert m k v) k' = if decide (k = k') then Some v else map_get m k'.
Proof.
  induction m as [|f m IH]; cbn [map_insert]; [by rewrite map_get_cons|].
  case_bool_decide as E; rewrite !map_get_cons; simpl; rewrite ?IH;
    destruct (decide (k = k')), (decide (f.1 = k')); congruence.
Qed.

Lemma map_get_Some_elem m k v : map_get m k = Some v → (k, v) ∈ m.
Proof.
  unfold map_get. intros H. apply fmap_Some in H as ([j w] & Hf & ->).
  apply find_some_iff in Hf as [Hin E%bool_decide_eq_true]. simpl in E. by subst.
Qed.

Lemma map_get_None m k : map_get m k = None ↔ k ∉ m.*1.
Proof.
  unfold map_get. rewrite fmap_None, find_first_None. setoid_rewrite bool_decide_eq_false. split.
  - intros H ([j w] & -> & Hin)%list_elem_of_fmap. by apply (H _ Hin).
  - intros H f Hf E. apply H, list_elem_of_fmap. by exists f.
Qed.

Lemma map_get_elem m k v : NoDup m.*1 → map_get m k = Some v ↔ (k, v) ∈ m.
Proof.
  intros Hnd. split; [apply map_get_Some_elem|]. intros Hin.
  destruct (map_get m k) as [w|] eqn:E.
  - apply map_get_Some_elem in E. f_equal.
    apply list_elem_of_lookup in Hin as [i Hi], E as [j Hj].
    assert (i = j) as <-; [|congruence].
    eapply (NoDup_lookup m.*1); [done|by rewrite list_lookup_fmap, Hi|by rewrite list_lookup_fmap, Hj].
  - apply map_get_None in E. destruct E. apply list_elem_of_fmap. by exists (k, v).
Qed.

Lemma contains_key_elem m k : contains_key m k = true ↔ k ∈ m.*1.
Proof.
  unfold contains_key. rewrite bool_decide_eq_true, <-not_eq_None_Some, map_get_None.
  split; [intros Hn; by destruct (decide (k ∈ m.*1))|tauto].
Qed.

Lemma map_insert_keys m k v j : j ∈ (map_insert m k v).*1 ↔ j = k ∨ j ∈ m.*1.
Proof.
  rewrite <-!contains_key_elem. unfold contains_key. rewrite !bool_decide_eq_true, map_get_insert.
  destruct (decide (k = j)) as [->|]; [split; [auto|by eexists]|]. split; [auto|].
  intros [?|?]; [congruence|done].
Qed.

Lemma map_insert_nodup m k v : NoDup m.*1 → NoDup (map_insert m k v).*1.
Proof.
  induction m as [|[j w] m IH]; simpl; intros Hnd; [apply NoDup_singleton|].
  apply NoDup_cons in Hnd as [Hj Hnd]. case_bool_decide as E; simpl; apply NoDup_cons.
  - subst. by split.
  - split; [|by apply IH]. intros [->|?]%map_insert_keys; done.
Qed.

Lemma map_remove_perm m k : k ∈ m.*1 → ∃ v, m ≡ₚ (k, v) :: map_remove m k.
Proof.
  intros Hk. unfold map_remove. destruct (position _ m) as [i|] eqn:Ep.
  - apply position_Some in Ep as [([j v] & Hi & E%bool_decide_eq_true) _]. simpl in E. subst j.
    exists v. destruct (last m) as [f|] eqn:El; [|apply last_None in El; subst; done].
    apply last_Some in El as (l & ->). rewrite length_app, removelast_last. cbn [length].
    destruct (Nat.eqb_spec (S i) (length l + 1)) as [Hlen|Hlen].
    + assert (i = length l) as -> by lia. rewrite list_lookup_middle in Hi by done.
      injection Hi as ->. rewrite take_app_length. apply Permutation_app_comm.
    + assert (i < length l)%nat by (apply lookup_lt_Some in Hi; rewrite length_app in Hi; simpl in Hi; lia).
      rewrite lookup_app_l in Hi by done. rewrite take_app_le by lia.
      rewrite <-(take_drop_middle l i (k, v) Hi) at 1. rewrite <-app_assoc. simpl.
      rewrite <-Permutation_middle. apply perm_skip, Permutation_app_head. by rewrite Permutation_app_comm.
  - rewrite position_None in Ep. apply list_elem_of_fmap in Hk as (f & -> & Hf).
    specialize (Ep f Hf). by rewrite bool_decide_eq_true_2 in Ep.
Qed.

Lemma map_remove_get m k j :
  NoDup m.*1 → k ∈ m.*1 → NoDup (map_remove m k).*1 ∧ (j ≠ k → map_get (map_remove m k) j = map_get m j).
Proof.
  intros Hnd Hk. destruct (map_remove_perm m k Hk) as [v Hp].
  assert (NoDup (map_remove m k).*1) as Hnd'.
  { rewrite Hp in Hnd. simpl in Hnd. by apply NoDup_cons in Hnd as [_ ?]. }
  split; [done|]. intros Hj. destruct (map_get m j) as [w|] eqn:E.
  - apply map_get_elem; [done|]. apply map_get_elem in E; [|done]. rewrite Hp in E.
    by apply elem_of_cons in E as [[= ? ?]|?].
  - apply map_get_None. apply map_get_None in E. intros Hin. apply E. rewrite Hp. simpl. by right.
Qed.

(** ** Lemmas: the loops of [read_step_draft] *)

Definition fields_only (read : JMap) : Prop := ∀ k, k ∈ read.*1 → k ∈ STEP_DRAFT_FIELDS.

Lemma split_exact_spec fields read near read' near' :
  split_exact fields read near = (read', near') → NoDup (read.*1 ++ fields.*1) → fields_only read →
  NoDup read'.*1 ∧ fields_only read' ∧
  (∀ k v, (k, v) ∈ read' ↔ (k, v) ∈ read ∨ (k, v) ∈ fields ∧ k ∈ STEP_DRAFT_FIELDS) ∧
  (∀ k v, (k, v) ∈ near' ↔ (k, v) ∈ near ∨ (k, v) ∈ fields ∧ k ∉ STEP_DRAFT_FIELDS).
Proof.
  revert read near. induction fields as [|[k v] fields IH]; intros read near H Hnd Hfo; simpl in H.
  - injection H as <- <-. simpl in Hnd. rewrite app_nil_r in Hnd. split; [done|]. split; [done|].
    split; intros; (split; [by left|]); intros [?|[?%elem_of_nil _]]; done.
  - simpl in Hnd. apply NoDup_app in Hnd as (Hnd & Hdis & Hnd2).
    apply NoDup_cons in Hnd2 as [Hk Hnd2].
    assert (k ∉ read.*1) as Hkr by (intros Hin; apply (Hdis k Hin); left).
    case_bool_decide as Hf.
    + assert (∀ m, k ∉ m.*1 → map_insert m k v = m ++ [(k, v)]) as Hins.
      { clear. induction m as [|[j w] m IH]; simpl; [done|]. intros Hn.
        rewrite bool_decide_eq_false_2 by (intros ->; apply Hn; left). f_equal. apply IH.
        intros ?. apply Hn. by right. }
      rewrite Hins in H by done. apply IH in H.
      * destruct H as (H1 & H2 & H3 & H4). split; [done|]. split; [done|]. split; intros j w.
        -- rewrite H3, elem_of_app, elem_of_one, elem_of_cons. split; [|naive_solver].
           intros [[?|[= -> ->]]|[??]]; auto.
        -- rewrite H4, elem_of_cons. split; [naive_solver|].
           intros [?|[[[= -> ->]|?] ?]]; [auto|done|auto].
      * rewrite fmap_app. simpl. rewrite <-app_assoc. apply NoDup_app. split; [done|].
        split; [done|]. apply NoDup_cons. by split.
      * intros j. rewrite fmap_app, elem_of_app. intros [?|Hj]; [by apply Hfo|].
        by apply elem_of_one in Hj as ->.
    + apply IH in H; [|apply NoDup_app; split; [done|]; split; [|done];
        intros x Hx Hx'; apply (Hdis x Hx); by right|done].
      destruct H as (H1 & H2 & H3 & H4). split; [done|]. split; [done|]. split; intros j w.
      * rewrite H3, elem_of_cons. split; [naive_solver|].
        intros [?|[[[= -> ->]|?] ?]]; [auto|done|auto].
      * rewrite H4, elem_of_app, elem_of_one, elem_of_cons. split; [|naive_solver].
        intros [[?|[= -> ->]]|[??]]; auto.
Qed.

Lemma read_near_spec near read unread read' unread' :
  read_near near read unread = (read', unread') → NoDup read.*1 → fields_only read →
  NoDup read'.*1 ∧ fields_only read' ∧
  (∀ k v, map_get read k = Some v → map_get read' k = Some v) ∧
  (∀ f, f ∈ unread → f ∈ unread') ∧
  (∀ f, f ∈ unread' → f ∈ unread ∨ f ∈ near) ∧
  (∀ f, f ∈ near → f ∈ unread' ∨
     ∃ known, known ∈ STEP_DRAFT_FIELDS ∧ same_squash known f.1 = true ∧ known ∈ read'.*1).
Proof.
  revert read unread. induction near as [|[k v] near IH]; intros read unread H Hnd Hfo; cbn [read_near] in H.
  - injection H as <- <-. do 4 (split; [done|]). split; [auto|]. by intros f ?%elem_of_nil.
  - destruct (find_first _ _) as [known|] eqn:Ef.
    + apply find_some_iff in Ef as [Hk Hsq]. destruct (contains_key read known) eqn:Ec.
      * apply IH in H as (H1 & H2 & H3 & H4 & H5 & H6); [|done..].
        do 3 (split; [done|]). split; [intros f Hf; apply H4, elem_of_app; by left|]. split.
        -- intros f Hf. apply H5 in Hf as [Hf|Hf]; [|right; by right].
           apply elem_of_app in Hf as [Hf|Hf]; [by left|]. apply elem_of_one in Hf as ->. right. left.
        -- intros f [->|Hf]%elem_of_cons; [|by apply H6]. left. apply H4, elem_of_app. right. by apply elem_of_one.
      * apply IH in H as (H1 & H2 & H3 & H4 & H5 & H6);
          [|by apply map_insert_nodup|intros j [->|?]%map_insert_keys; [done|by apply Hfo]].
        split; [done|]. split; [done|].
        assert (known ∈ read'.*1) as Hin.
        { apply contains_key_elem. unfold contains_key. rewrite (H3 known v); [done|].
          rewrite map_get_insert. by destruct (decide (known = known)). }
        split.
        -- intros j w Hj. apply H3. rewrite map_get_insert. destruct (decide (known = j)) as [->|]; [|done].
           exfalso. unfold contains_key in Ec. by rewrite Hj in Ec.
        -- split; [done|]. split; [intros f Hf; apply H5 in Hf as [?|?]; [by left|right; by right]|].
           intros f [->|Hf]%elem_of_cons; [|by apply H6]. right. by exists known.
    + apply IH in H as (H1 & H2 & H3 & H4 & H5 & H6); [|done..].
      do 3 (split; [done|]). split; [intros f Hf; apply H4, elem_of_app; by left|]. split.
      * intros f Hf. apply H5 in Hf as [Hf|Hf]; [|right; by right].
        apply elem_of_app in Hf as [Hf|Hf]; [by left|]. apply elem_of_one in Hf as ->. right. left.
      * intros f [->|Hf]%elem_of_cons; [|by apply H6]. left. apply H4, elem_of_app. right. by apply elem_of_one.
Qed.

Lemma number_keys_spec ks read names read' names' :
  number_keys ks read names = (read', names') →
  (∀ k, k ∈ read'.*1 ↔ k ∈ read.*1) ∧ ∀ k, k ∉ ks → map_get read' k = map_get read k.
Proof.
  revert read names. induction ks as [|k ks IH]; intros read names H; simpl in H; [by injection H as <- <-|].
  assert (∀ j, j ∉ k :: ks → j ≠ k ∧ j ∉ ks) as Hne by (intros j; rewrite not_elem_of_cons; auto).
  destruct (map_get read k) as [[]|] eqn:E; apply IH in H as [H1 H2];
    try (split; [done|]; intros j [_ ?]%Hne; by apply H2).
  split.
  - intros j. rewrite H1, map_insert_keys. split; [|auto]. intros [->|?]; [|done].
    apply contains_key_elem. unfold contains_key. by rewrite E.
  - intros j [Hj Hjs]%Hne. rewrite H2, map_get_insert by done. by destruct (decide (k = j)).
Qed.

Lemma named_key_spec fallbacks unread key unread' :
  named_key fallbacks unread = Some (key, unread') → (∀ f, f ∈ fallbacks → f ∈ KEY_FALLBACKS) →
  ∀ f, f ∈ unread → f ∈ unread' ∨ is_fallback f.1 = true.
Proof.
  induction fallbacks as [|fb fallbacks IH]; intros H Hall; simpl in H; [done|].
  assert (∀ f, f ∈ fallbacks → f ∈ KEY_FALLBACKS) as Hall' by (intros f ?; apply Hall; by right).
  destruct (position _ unread) as [i|] eqn:Ep; [|by apply IH].
  destruct (match unread !! i with Some _ => _ | None => _ end) as [key'|]; [|by apply IH].
  injection H as _ <-. intros f Hf.
  apply position_Some in Ep as [(g & Hg & Hsq) _].
  rewrite <-(take_drop_middle unread i g Hg) in Hf.
  apply elem_of_app in Hf as [Hf|[->|Hf]%elem_of_cons]; [left; set_solver| |left; set_solver].
  right. apply existsb_elem_of. exists fb. split; [apply Hall; left|].
  unfold same_squash in *. rewrite bool_decide_eq_true in *. done.
Qed.

Lemma drop_agent_spec reads read read' ignored :
  drop_unreadable_agent reads read = (read', ignored) → NoDup read.*1 → fields_only read →
  NoDup read'.*1 ∧ fields_only read' ∧
  (∀ k, k ≠ lit "new_agent" → map_get read' k = map_get read k) ∧
  (∀ k, k ∈ read.*1 → k ∈ read'.*1 ∨ k ∈ ignored) ∧ (∀ k, k ∈ ignored → k ∈ read.*1).
Proof.
  intros H Hnd Hfo. unfold drop_unreadable_agent in H.
  destruct (map_get read (lit "new_agent")) as [agent|] eqn:Ea.
  - destruct (_ && _).
    + injection H as <- <-.
      assert (lit "new_agent" ∈ read.*1) as Hin.
      { apply contains_key_elem. unfold contains_key. by rewrite Ea. }
      pose proof (λ j, map_remove_get read (lit "new_agent") j Hnd Hin) as Hget.
      destruct (map_remove_perm read (lit "new_agent") Hin) as [v Hp].
      split; [by apply (Hget [])|]. split; [|split; [|split]].
      * intros k Hk. apply Hfo. rewrite Hp. simpl. by right.
      * intros k Hk. by apply Hget.
      * intros k Hk. rewrite Hp in Hk. simpl in Hk. apply elem_of_cons in Hk as [->|Hk];
          [right; by apply elem_of_one|by left].
      * intros k ->%elem_of_one. done.
    + injection H as <- <-. do 3 (split; [done|]). split; [by left|]. by intros k ?%elem_of_nil.
  - injection H as <- <-. do 3 (split; [done|]). split; [by left|]. by intros k ?%elem_of_nil.
Qed.

Lemma named_key_shrinks fallbacks unread key unread' :
  named_key fallbacks unread = Some (key, unread') → ∀ f, f ∈ unread' → f ∈ unread.
Proof.
  induction fallbacks as [|fb fallbacks IH]; cbn [named_key]; [done|].
  destruct (position _ unread) as [i|]; [|exact IH].
  destruct (match unread !! i with Some _ => _ | None => _ end); [|exact IH].
  intros [= _ <-] f Hf. rewrite <-(take_drop i unread).
  apply elem_of_app in Hf as [Hf|Hf]; apply elem_of_app; [by left|right].
  rewrite <-(Nat.add_1_r i), <-drop_drop in Hf. rewrite <-(take_drop 1 (drop i unread)).
  apply elem_of_app. by right.
Qed.

Lemma insert_key_spec read v :
  is_null v = false → is_keyed (map_insert read (lit "key") v) = true ∧
  ∀ k, k ∉ KEY_FIELDS → map_get (map_insert read (lit "key") v) k = map_get read k.
Proof.
  intros Hv. split.
  - unfold is_keyed, KEY_FIELDS. cbn [existsb]. rewrite map_get_insert.
    destruct (decide _); [|done]. by rewrite Hv.
  - intros k Hk. rewrite map_get_insert. destruct (decide (lit "key" = k)) as [<-|]; [|done].
    destruct Hk. left.
Qed.

Lemma choose_key_spec read unread position_ read' unread' :
  choose_key read unread position_ = (read', unread') →
  is_keyed read' = true ∧
  (∀ k, k ∈ read.*1 → k ∈ read'.*1) ∧
  (∀ k, k ∈ read'.*1 → k ∈ read.*1 ∨ k = lit "key") ∧
  (∀ k, k ∉ KEY_FIELDS → map_get read' k = map_get read k) ∧
  (∀ f, f ∈ unread → f ∈ unread' ∨ is_fallback f.1 = true) ∧
  (∀ f, f ∈ unread' → f ∈ unread).
Proof.
  unfold choose_key. destruct (is_keyed read) eqn:Ek; [intros [= <- <-]; auto 10|].
  destruct (named_key KEY_FALLBACKS unread) as [[key rest]|] eqn:E; intros [= <- <-];
    (split; [by apply insert_key_spec|]);
    (split; [intros k Hk; apply map_insert_keys; by right|]);
    (split; [intros k Hk; apply map_insert_keys in Hk as [?|?]; auto|]);
    (split; [by apply insert_key_spec|]); [|by auto].
  split; [exact (named_key_spec _ _ _ _ E (λ f Hf, Hf))|exact (named_key_shrinks _ _ _ _ E)].
Qed.

(** ** Properties *)

(** Reading a step of a plan loses nothing silently and always names the step. For an object
    with distinct fields: serde is given only fields a step has, one of which is a key that is
    not null; every field of the input is given to serde under a field of the same letters, or
    is one of the names the step may go by, or is reported as ignored; only fields of the input
    are reported; and a field spelt exactly right reaches serde unchanged, whatever near
    spellings stand beside it (the three key fields and an unreadable [new_agent] apart). *)
Theorem read_step_accounts_for_fields reads fields position_ :
  NoDup fields.*1 →
  let r := read_fields reads fields position_ in
  (∀ k, k ∈ (rf_read r).*1 → k ∈ STEP_DRAFT_FIELDS) ∧
  is_keyed (rf_read r) = true ∧
  (∀ k, k ∈ fields.*1 → k ∈ rf_ignored r ∨ is_fallback k = true ∨
     ∃ known, known ∈ (rf_read r).*1 ∧ same_squash known k = true) ∧
  (∀ k, k ∈ rf_ignored r → k ∈ fields.*1) ∧
  (∀ k v, (k, v) ∈ fields → k ∈ STEP_DRAFT_FIELDS → k ∉ KEY_FIELDS → k ≠ lit "new_agent" →
     map_get (rf_read r) k = Some v).
Proof.
  intros Hnd r. unfold r, read_fields. clear r.
  destruct (split_exact fields [] []) as [read1 near] eqn:E1.
  apply split_exact_spec in E1 as (N1 & F1 & R1 & U1); [|done|by intros k ?%elem_of_nil].
  destruct (drop_unreadable_agent reads read1) as [read2 ignored] eqn:E2.
  apply drop_agent_spec in E2 as (N2 & F2 & R2 & K2 & I2); [|done..].
  destruct (read_near near read2 []) as [read3 unread] eqn:E3.
  apply read_near_spec in E3 as (N3 & F3 & R3 & _ & U3 & K3); [|done..].
  destruct (number_keys KEY_FIELDS read3 (fallback_names unread)) as [read4 names] eqn:E4.
  apply number_keys_spec in E4 as [K4 R4].
  destruct (choose_key read4 unread position_) as [read5 unread5] eqn:E5.
  apply choose_key_spec in E5 as (Hkey & K5 & K5' & R5 & U5 & U5').
  cbn [rf_read rf_ignored].
  assert (∀ k, k ∈ read3.*1 → k ∈ read5.*1) as Kin by (intros k Hk; by apply K5, K4).
  split; [|split; [exact Hkey|split; [|split]]].
  - intros k [Hk| ->]%K5'; [apply F3; by apply K4|left].
  - intros k (f & -> & Hf)%list_elem_of_fmap. destruct f as [k v]. simpl.
    destruct (decide (k ∈ STEP_DRAFT_FIELDS)) as [Hkf|Hkf].
    + assert (k ∈ read1.*1) as Hk1.
      { apply list_elem_of_fmap. exists (k, v). split; [done|]. apply R1. by right. }
      apply K2 in Hk1 as [Hk2|Hi]; [|left; apply elem_of_app; by left].
      right. right. exists k. split; [|by apply bool_decide_eq_true].
      apply Kin. apply contains_key_elem in Hk2. unfold contains_key in Hk2.
      apply bool_decide_eq_true in Hk2 as [w Hw]. apply R3 in Hw.
      apply contains_key_elem. unfold contains_key. by rewrite Hw.
    + assert ((k, v) ∈ near) as Hn by (apply U1; by right).
      apply K3 in Hn as [Hu|(known & _ & Hsq & Hk)].
      * apply U5 in Hu as [Hu|Hu]; [|right; by left].
        destruct (is_fallback k) eqn:Efb; [right; by left|]. left. apply elem_of_app. right.
        apply elem_of_filter_bool. split; [|by rewrite Efb]. apply list_elem_of_fmap. by exists (k, v).
      * right. right. exists known. split; [by apply Kin|done].
  - intros k [Hk|Hk]%elem_of_app.
    + apply I2 in Hk. apply list_elem_of_fmap in Hk as ([j w] & -> & Hf).
      apply R1 in Hf as [?%elem_of_nil|[Hf _]]; [done|]. apply list_elem_of_fmap. by exists (j, w).
    + apply elem_of_filter_bool in Hk as [Hk _]. apply list_elem_of_fmap in Hk as ([j w] & -> & Hf).
      apply U5', U3 in Hf as [?%elem_of_nil|Hf]; [done|].
      apply U1 in Hf as [?%elem_of_nil|[Hf _]]; [done|]. apply list_elem_of_fmap. by exists (j, w).
  - intros k v Hin Hkf Hnk Hna. rewrite R5, R4 by done. apply R3. rewrite R2 by done.
    apply map_get_elem; [done|]. apply R1. by right.
Qed.

(** A planner's step with a misspelt wait, a numbered key and an unknown field. *)
Definition sample_fields : JMap :=
  [(lit "dependsOn", JString (lit "dates")); (lit "key", JNumber (lit "2"));
   (lit "Title", JString (lit "Find flights")); (lit "task", JString (lit "Look"));
   (lit "colour", JString (lit "red"))].

Example sample_is_read :
  read_fields (λ _, true) sample_fields 2 =
  {| rf_read := [(lit "key", JString (lit "step-2")); (lit "task", JString (lit "Look"));
                 (lit "depends_on", JString (lit "dates"))];
     rf_ignored := [lit "colour"]; rf_names := [lit "Find flights"; lit "2"] |}.
Proof. vm_compute. reflexivity. Qed.

Lemma read_step_accounts_for_fields_witness :
  is_keyed (rf_read (read_fields (λ _, true) sample_fields 2)) = true ∧
  map_get (rf_read (read_fields (λ _, true) sample_fields 2)) (lit "task") = Some (JString (lit "Look")).
Proof.
  destruct (read_step_accounts_for_fields (λ _, true) sample_fields 2) as (_ & H & _ & _ & H').
  - apply (bool_decide_unpack _). vm_compute. exact I.
  - split; [exact H|]. apply H'.
    + apply list_elem_of_lookup. exists 3%nat. reflexivity.
    + apply (bool_decide_unpack _). vm_compute. exact I.
    + apply (bool_decide_unpack _). vm_compute. exact I.
    + discriminate.
Defined.

Lemma add_place_spec keys key named alias n k :
  (n, k) ∈ add_place keys key named alias → (n, k) ∈ named ∨ k = key.
Proof.
  unfold add_place. destruct (_ && _); [|by left].
  intros [?|[= -> ->]%elem_of_one]%elem_of_app; auto.
Qed.

Lemma add_places_spec keys place steps named n k :
  (n, k) ∈ add_places keys place steps named →
  (n, k) ∈ named ∨ ∃ s, s ∈ steps ∧ k = sd_key (rs_draft s).
Proof.
  revert place named. induction steps as [|s steps IH]; intros place named H; simpl in H; [by left|].
  apply IH in H as [H|(t & Ht & ->)]; [|right; exists t; split; [by right|done]].
  apply add_place_spec in H as [H| ->]; [|right; exists s; split; [left|done]].
  apply add_place_spec in H as [H| ->]; [by left|right; exists s; split; [left|done]].
Qed.

Lemma wait_names_spec steps n k :
  (n, k) ∈ wait_names steps → ∃ s, s ∈ steps ∧ k = sd_key (rs_draft s).
Proof.
  intros [H|?]%add_places_spec; [|done].
  apply list_elem_of_In, in_concat in H as (l & Hl%list_elem_of_In & Hin%list_elem_of_In).
  apply list_elem_of_fmap in Hl as (s & -> & Hs).
  apply list_elem_of_fmap in Hin as (name & [= -> ->] & _). by exists s.
Qed.

Lemma match_wait_cases steps w :
  let keys := (λ s, slug_of (sd_key (rs_draft s))) <$> steps in
  match_wait keys (wait_names steps) w = w ∨
  (slug_of w ∉ keys ∧ ∃ s, s ∈ steps ∧ match_wait keys (wait_names steps) w = sd_key (rs_draft s)).
Proof.
  intros keys. unfold match_wait. case_bool_decide as Hk; [by left|].
  destruct (find_first _ _) as [[n k]|] eqn:E; [|by left]. right. split; [done|].
  apply find_some_iff in E as [E _]. apply wait_names_spec in E as (s & Hs & ->). by exists s.
Qed.

Lemma match_waits_keys steps :
  (λ s, slug_of (sd_key (rs_draft s))) <$> match_waits_by_name steps
  = (λ s, slug_of (sd_key (rs_draft s))) <$> steps.
Proof. unfold match_waits_by_name. by rewrite <-list_fmap_compose. Qed.

Lemma match_waits_names steps : wait_names (match_waits_by_name steps) = wait_names steps.
Proof.
  assert (∀ (h : ReadStep → list text) keys l place named,
    add_places keys place ((λ s, with_depends_on s (h s)) <$> l) named
    = add_places keys place l named) as Hadd.
  { intros h keys l. induction l as [|s l IH]; intros place named; simpl; [done|]. apply IH. }
  unfold wait_names. rewrite match_waits_keys. unfold match_waits_by_name.
  rewrite Hadd. f_equal. f_equal. by rewrite <-list_fmap_compose.
Qed.

(** Pointing waits at keys touches nothing but waits: every step keeps its key, role,
    instructions and names; a wait that already means a step's key is left as it is; any other is
    left as it is or becomes the key of a step of the plan, never anything else; and doing it
    again changes nothing. *)
Theorem match_waits_by_name_correct steps :
  Forall2 (λ s s', s' = with_depends_on s (sd_depends_on (rs_draft s')) ∧
    Forall2 (λ w w', (slug_of w ∈ ((λ s, slug_of (sd_key (rs_draft s))) <$> steps) → w' = w) ∧
      (w' = w ∨ ∃ t, t ∈ steps ∧ w' = sd_key (rs_draft t)))
      (sd_depends_on (rs_draft s)) (sd_depends_on (rs_draft s')))
    steps (match_waits_by_name steps) ∧
  match_waits_by_name (match_waits_by_name steps) = match_waits_by_name steps.
Proof.
  pose proof (match_wait_cases steps) as Hcases. simpl in Hcases. split.
  - apply Forall2_fmap_r, Forall_Forall2_diag, Forall_forall. intros s Hs. simpl.
    split; [done|]. apply Forall2_fmap_r, Forall_Forall2_diag, Forall_forall. intros w Hw.
    split; [|destruct (Hcases w) as [?|[_ ?]]; auto].
    intros Hin. destruct (Hcases w) as [?|[? _]]; done.
  - unfold match_waits_by_name at 1. rewrite match_waits_names, match_waits_keys.
    unfold match_waits_by_name. rewrite <-list_fmap_compose. apply list_fmap_ext. intros i s _. simpl.
    unfold with_depends_on. simpl. f_equal. f_equal. rewrite <-list_fmap_compose.
    apply list_fmap_ext. intros j w _. simpl.
    destruct (Hcases w) as [E|(_ & t & Ht & E)]; rewrite E; [done|].
    unfold match_wait. rewrite bool_decide_eq_true_2; [done|].
    apply list_elem_of_fmap. by exists t.
Qed.
