(* ===== verification/ToolGroups.v ===== *)
(** * ToolGroups: the catalog of tool groups

    [crates/pond-core/src/mcp/domain/tool_group.rs]: the groups, the groups a guest and a
    subagent may not hold, the read-only tools a helper may hold outside its groups, and how
    a tool's name gives its group. *)
From S2P Require Import Prelude Text.
Local Open Scope N_scope.

Record ToolGroup := { tg_extension : text; tg_description : text; tg_core : bool }.

Definition TOOLKIT_EXTENSION : text := lit "giap-toolkit".
Definition ORCHESTRATOR_EXTENSION : text := lit "giap-orchestrator".
Definition TRAVEL_EXTENSION : text := lit "giap-travel".
Definition TASKS_EXTENSION : text := lit "giap-tasks".
Definition TASK_WORK_EXTENSION : text := lit "giap-task-work".
Definition INTERVIEW_EXTENSION : text := lit "giap-interview".
Definition TOOL_NAME_SEPARATOR : text := lit "__".
Definition NO_TOOLS_ENV : text := lit "GIAP_NO_TOOLS".
Definition SEARCH_WEB_TOOL : text := lit "giap-knowledge__search_web".
Definition BRAVE_SEARCH_API_KEY : text := lit "BRAVE_SEARCH_API_KEY".
Definition COMPUTE_ANSWER_TOOL : text := lit "giap-knowledge__compute_answer".
Definition WOLFRAM_APP_ID : text := lit "WOLFRAM_APP_ID".

Definition no_tools_from (value : option text) : bool :=
  match trim <$> value with
  | None => false
  | Some v =>
      negb (bool_decide (v ∈ [[]; lit "0"; lit "false"; lit "no"]))
  end.

Definition KNOWLEDGE_WITH_WEB_AND_COMPUTE : text :=
  lit "Looking things up, working things out and searching the web: encyclopedia articles " ++
  lit "about people, places and events, exact arithmetic, unit conversions and dates, the " ++
  lit "web for anything current, local or specific, such as news, opening hours, prices " ++
  lit "and products, and reading a web page from its link.".
Definition KNOWLEDGE_WITH_WEB : text :=
  lit "Looking things up and searching the web: encyclopedia articles about people, places " ++
  lit "and events, the web for anything current, local or specific, such as news, opening " ++
  lit "hours, prices and products, and reading a web page from its link.".
Definition KNOWLEDGE_WITH_COMPUTE : text :=
  lit "Looking things up and working things out: encyclopedia articles about people, " ++
  lit "places and events, exact arithmetic, unit conversions and dates, and reading a web " ++
  lit "page from its link.".
Definition KNOWLEDGE_ALONE : text :=
  lit "Looking things up: encyclopedia articles about people, places and events, and " ++
  lit "reading a web page from its link.".

Definition TOOL_GROUPS : list ToolGroup :=
  [{| tg_extension := lit "giap-memory";
      tg_description :=
        lit "The user's long-term memories: remember a fact or " ++
        lit "preference about them, recall what they have told you " ++
        lit "before, or forget something they no longer want kept.";
      tg_core := true |};
   {| tg_extension := lit "giap-system";
      tg_description :=
        lit "This machine and the current moment: the date, time and " ++
        lit "timezone, operating system and hostname, memory and disk " ++
        lit "usage, and desktop notifications.";
      tg_core := true |};
   {| tg_extension := TOOLKIT_EXTENSION;
      tg_description :=
        lit "Which groups of tools are loaded for this conversation, and " ++
        lit "loading another group when a capability you need is not " ++
        lit "currently available.";
      tg_core := true |};
   {| tg_extension := lit "giap-schedule";
      tg_description :=
        lit "Reminders, alarms, timers, recurring routines and scheduled " ++
        lit "tasks: set a one-shot timer for a few minutes or hours from " ++
        lit "now, create a repeating schedule, list or inspect what is " ++
        lit "scheduled, change or pause or delete one, run one now, and " ++
        lit "review past runs. Anything about doing something later or " ++
        lit "every day at a certain time.";
      tg_core := false |};
   {| tg_extension := lit "giap-weather";
      tg_description :=
        lit "The weather: current conditions and the forecast for the " ++
        lit "days ahead, temperature, rain, whether to take an umbrella, " ++
        lit "for here or another place.";
      tg_core := false |};
   {| tg_extension := lit "giap-knowledge";
      tg_description :=
        KNOWLEDGE_WITH_WEB_AND_COMPUTE;
      tg_core := true |};
   {| tg_extension := lit "giap-device";
      tg_description :=
        lit "The smart-home devices in this house: which lights, plugs, " ++
        lit "sensors, thermostats and appliances are registered, which " ++
        lit "rooms they are in, whether they are online, and what state " ++
        lit "they report.";
      tg_core := false |};
   {| tg_extension := lit "giap-device-control";
      tg_description :=
        lit "Actually operating the smart-home devices: turning a light " ++
        lit "or plug or appliance on and off, changing brightness or " ++
        lit "colour or temperature, opening or closing something, " ++
        lit "setting a device to a new state.";
      tg_core := false |};
   {| tg_extension := lit "giap-sensors";
      tg_description :=
        lit "Sensor readings over time: temperature, humidity, air " ++
        lit "quality, power use and other measurements from sensors in " ++
        lit "the house, their latest values and their history.";
      tg_core := false |};
   {| tg_extension := lit "giap-context";
      tg_description :=
        lit "The speaker's own personal context, from sources they " ++
        lit "connected: what a camera or sensor of theirs has recorded, " ++
        lit "searched by meaning or listed by recency. Read-only, and " ++
        lit "scoped to whoever is speaking.";
      tg_core := false |};
   {| tg_extension := lit "giap-vision";
      tg_description :=
        lit "Fixed home cameras and vision bus: check what the cameras " ++
        lit "see, show or send a camera picture or live video feed, " ++
        lit "recognize household faces and who is in frame, read recent " ++
        lit "vision events (motion, person, pet, vehicle, package, " ++
        lit "face_recognized, face_unknown), adjust camera FPS or " ++
        lit "sensitivity, and create or manage vision automations and " ++
        lit "face triggers.";
      tg_core := false |};
   {| tg_extension := TRAVEL_EXTENSION;
      tg_description :=
        lit "Getting somewhere: directions and a map link to a place, or " ++
        lit "a taxi or ride with Uber or Bolt to the airport, a mall, an " ++
        lit "office or home.";
      tg_core := false |};
   {| tg_extension := ORCHESTRATOR_EXTENSION;
      tg_description :=
        lit "Handing a piece of work to a named specialist agent that " ++
        lit "runs on its own and reports back: research a question in " ++
        lit "depth, work through a longer task under a saved role, or " ++
        lit "have a second agent do something while this conversation " ++
        lit "carries on.";
      tg_core := false |};
   {| tg_extension := TASKS_EXTENSION;
      tg_description :=
        lit "A big piece of work that takes more than one sitting, such " ++
        lit "as researching and comparing options or going through a " ++
        lit "long document: start it so the pond works on it while the " ++
        lit "house is quiet, ask how far it has got, or stop it.";
      tg_core := false |};
   {| tg_extension := INTERVIEW_EXTENSION;
      tg_description :=
        lit "Running a member's setup interview: note each answer or " ++
        lit "skipped question, draft their standing notes, and save the " ++
        lit "notes once they approve them.";
      tg_core := false |};
   {| tg_extension := TASK_WORK_EXTENSION;
      tg_description :=
        lit "Working on one step of a long task: read what earlier steps " ++
        lit "saved, save what this step found, write the task's plan, " ++
        lit "and report how the step went.";
      tg_core := false |}].

Definition group_description (g : ToolGroup) (is_withheld : text → bool) : text :=
  if negb (bool_decide (tg_extension g = lit "giap-knowledge")) then tg_description g else
  match is_withheld SEARCH_WEB_TOOL, is_withheld COMPUTE_ANSWER_TOOL with
  | false, false => KNOWLEDGE_WITH_WEB_AND_COMPUTE
  | false, true => KNOWLEDGE_WITH_WEB
  | true, false => KNOWLEDGE_WITH_COMPUTE
  | true, true => KNOWLEDGE_ALONE
  end.

Record ToolRequirement := { tr_tool : text; tr_secret : text }.

Definition TOOL_REQUIREMENTS : list ToolRequirement :=
  [{| tr_tool := SEARCH_WEB_TOOL; tr_secret := BRAVE_SEARCH_API_KEY |};
   {| tr_tool := COMPUTE_ANSWER_TOOL; tr_secret := WOLFRAM_APP_ID |}].

Definition required_secret (tool_name : text) : option text :=
  tr_secret <$> find_first (λ r, bool_decide (tr_tool r = tool_name)) TOOL_REQUIREMENTS.

Definition tools_missing_secrets (tools : list text) (is_stored : text → bool) : list text :=
  List.filter (λ tool, match required_secret tool with
                       | Some secret => negb (is_stored secret)
                       | None => false
                       end) tools.

Definition find_group (extension : text) : option ToolGroup :=
  find_first (λ g, bool_decide (tg_extension g = extension)) TOOL_GROUPS.

(** The text before the first separator. *)
Definition group_of_tool (tool_name : text) : option text :=
  (λ sep, take sep tool_name) <$> find_sub TOOL_NAME_SEPARATOR tool_name.

(** [split("__").next()]: the whole name when it has no separator. *)
Definition prefix_sort_key (tool_name : text) : N * text :=
  let extension := default tool_name (group_of_tool tool_name) in
  let tier :=
    match find_group extension with
    | Some g =>
        if tg_core g then match required_secret tool_name with None => 0 | Some _ => 1 end else 2
    | None => 2
    end in
  (tier, tool_name).

Definition groups_denied_to_guests : list text :=
  [lit "giap-memory"; lit "giap-sensors"; lit "giap-vision"; lit "giap-context";
   ORCHESTRATOR_EXTENSION; TRAVEL_EXTENSION; TASKS_EXTENSION; TASK_WORK_EXTENSION;
   INTERVIEW_EXTENSION].

Definition HOUSEHOLD_READ_TOOLS : list text :=
  [lit "giap-vision__get_recent_camera_events"; lit "giap-vision__list_vision_automations";
   lit "giap-schedule__list_schedules"; lit "giap-device__list_registered_devices"].

Definition groups_denied_to_subagents : list text :=
  [TOOLKIT_EXTENSION; lit "giap-device-control"; lit "giap-system"; lit "giap-schedule";
   ORCHESTRATOR_EXTENSION; TRAVEL_EXTENSION; lit "giap-vision"; TASKS_EXTENSION;
   INTERVIEW_EXTENSION].

Definition core_group_names : list text :=
  tg_extension <$> List.filter tg_core TOOL_GROUPS.

Definition is_catalog_extension (extension : text) : bool :=
  bool_decide (is_Some (find_group extension)).

(** ** Lemmas *)

Lemma group_of_tool_Some tool g :
  group_of_tool tool = Some g → ∃ rest, tool = g ++ TOOL_NAME_SEPARATOR ++ rest.
Proof.
  intros H. apply fmap_Some in H as (i & (a & b & -> & <-)%find_sub_Some & ->).
  exists b. by rewrite take_app_length.
Qed.
