(* ===== verification/Locality.v ===== *)
(** * Locality: where a model runs, and what that allows

    [crates/pond-core/src/models/services/context/model_class.rs] ([provider_locality],
    [ModelClass], [CompactionStrategy]) and the parts of
    [crates/pond-core/src/shared/domain/orchestration.rs] that read it: [ChildModel],
    [BackgroundAvailability] and [max_concurrent_subagents]. *)
From S2P Require Import Prelude Text.
Local Open Scope N_scope.

(** ** Providers *)

Definition SMALL_WINDOW_CEILING : N := 12288.
Definition LARGE_WINDOW_FLOOR : N := 65536.

Definition ON_DEVICE_PROVIDERS : list text :=
  [lit "local"; lit "gguf"; lit "ollama"; lit "llamafile"; lit "mistralrs"].
Definition HOSTED_PROVIDERS : list text :=
  [lit "anthropic"; lit "openai"; lit "openrouter"; lit "google"; lit "databricks";
   lit "snowflake"].

Inductive ProviderLocality : Type := OnDevice | Hosted | UnknownLocality.

#[export] Instance ProviderLocality_eq_dec : EqDecision ProviderLocality.
Proof. solve_decision. Defined.

Definition ProviderLocality_label (l : ProviderLocality) : text :=
  match l with
  | OnDevice => lit "on-device"
  | Hosted => lit "hosted"
  | UnknownLocality => lit "unknown"
  end.

Definition eq_ignore_ascii_case (a b : text) : bool := bool_decide (lowercase a = lowercase b).

Definition provider_locality (provider : text) : ProviderLocality :=
  let provider := trim provider in
  if existsb (eq_ignore_ascii_case provider) ON_DEVICE_PROVIDERS then OnDevice
  else if existsb (eq_ignore_ascii_case provider) HOSTED_PROVIDERS then Hosted
  else UnknownLocality.

Definition runs_on_this_device (provider : text) : bool :=
  bool_decide (provider_locality provider = OnDevice).

(** ** Model classes *)

Record CompactionStrategy := {
  deterministic_trim : bool;
  idle_rolling_summary : bool;
  llm_resummarisation : bool;
}.

Inductive ModelClass : Type := Small | Medium | Large.

Definition ModelClass_label (c : ModelClass) : text :=
  match c with Small => lit "small" | Medium => lit "medium" | Large => lit "large" end.

Definition classify (provider : text) (resolved_window_tokens : N) : ModelClass :=
  if resolved_window_tokens <=? SMALL_WINDOW_CEILING then Small
  else if (LARGE_WINDOW_FLOOR <=? resolved_window_tokens) && negb (runs_on_this_device provider)
  then Large else Medium.

Definition strategy (c : ModelClass) : CompactionStrategy :=
  {| deterministic_trim := true; idle_rolling_summary := true;
     llm_resummarisation := match c with Large => true | _ => false end |}.

Definition permits_compaction_model_call (c : ModelClass) : bool :=
  llm_resummarisation (strategy c).

(** ** Helpers *)

Definition REMOTE_SUBAGENT_CONCURRENCY : N := 3.

Definition max_concurrent_subagents (provider : text) : N :=
  match provider_locality provider with
  | Hosted => REMOTE_SUBAGENT_CONCURRENCY
  | OnDevice | UnknownLocality => 1
  end.

Module ChildModel.
Inductive ChildModel : Type :=
| Inherited
| Assigned (model : text)
| RefusedOnDevice (requested provider : text)
| RefusedUnknownProvider (requested provider : text).
End ChildModel.
Notation ChildModel := ChildModel.ChildModel.

Definition ChildModel_resolve (requested : option text) (provider : text) : ChildModel :=
  match non_blank requested with
  | None => ChildModel.Inherited
  | Some requested =>
      match provider_locality provider with
      | Hosted => ChildModel.Assigned requested
      | OnDevice => ChildModel.RefusedOnDevice requested provider
      | UnknownLocality => ChildModel.RefusedUnknownProvider requested provider
      end
  end.

Definition assigned (m : ChildModel) : option text :=
  match m with ChildModel.Assigned model => Some model | _ => None end.

Definition ChildModel_refusal (m : ChildModel) : option text :=
  match m with
  | ChildModel.RefusedOnDevice requested provider =>
      Some (lit "role asked for model `" ++
        requested ++
        lit "` but `" ++
        provider ++
        lit "` runs on this device, where a second model is a load plus a re-prefill the " ++
        lit "parent's next turn pays for - running the child on the resident model instead")
  | ChildModel.RefusedUnknownProvider requested provider =>
      Some (lit "role asked for model `" ++
        requested ++
        lit "` but this pond does not know where `" ++
        provider ++
        lit "` runs, and a second model on THIS device is a load plus a re-prefill the " ++
        lit "parent's next turn pays for - running the child on the resident model " ++
        lit "instead. Add `" ++
        provider ++
        lit "` to HOSTED_PROVIDERS if it is served from another machine")
  | ChildModel.Inherited | ChildModel.Assigned _ => None
  end.

Module Background.
Inductive BackgroundAvailability : Type :=
| Available
| RefusedOnDevice (provider : text)
| RefusedUnknownProvider (provider : text).
End Background.
Notation BackgroundAvailability := Background.BackgroundAvailability.

Definition for_provider (provider : text) : BackgroundAvailability :=
  if 1 <? max_concurrent_subagents provider then Background.Available
  else if bool_decide (provider_locality provider = UnknownLocality)
  then Background.RefusedUnknownProvider provider
  else Background.RefusedOnDevice provider.

Definition Background_refusal (b : BackgroundAvailability) : option text :=
  match b with
  | Background.Available => None
  | Background.RefusedOnDevice provider =>
      Some (lit "this pond runs its model on the device itself (`" ++
        provider ++
        lit "`), where one agent can use it at a time - a background helper would simply " ++
        lit "be holding up your own next reply. Call delegate again without `background` " ++
        lit "and wait for the answer, or do the work yourself")
  | Background.RefusedUnknownProvider provider =>
      Some (lit "this pond cannot tell where `" ++
        provider ++
        lit "` runs its model, so it assumes the device itself, where one agent can use it " ++
        lit "at a time - a background helper would simply be holding up your own next " ++
        lit "reply. Call delegate again without `background` and wait for the answer, or " ++
        lit "do the work yourself")
  end.

(** ** Properties *)

(** Only a provider known to run elsewhere is given anything that would compete with this
    pond's own model: a role's own model, a second helper at once, or a background helper; an
    on-device provider never reaches the class that may call a model to compact, however large
    its window; every refusal is explained; and neither the case nor the blanks around a
    provider's name change where it is taken to run. *)
Theorem locality_gates_extra_models provider :
  (∀ requested m, assigned (ChildModel_resolve requested provider) = Some m ↔
     provider_locality provider = Hosted ∧ non_blank requested = Some m) ∧
  (1 < max_concurrent_subagents provider ↔ provider_locality provider = Hosted) ∧
  (for_provider provider = Background.Available ↔ provider_locality provider = Hosted) ∧
  (∀ requested, is_Some (ChildModel_refusal (ChildModel_resolve requested provider)) ↔
     is_Some (non_blank requested) ∧ provider_locality provider ≠ Hosted) ∧
  (is_Some (Background_refusal (for_provider provider)) ↔ provider_locality provider ≠ Hosted) ∧
  (∀ window, permits_compaction_model_call (classify provider window) = true ↔
     LARGE_WINDOW_FLOOR ≤ window ∧ provider_locality provider ≠ OnDevice) ∧
  (∀ other, lowercase (trim other) = lowercase (trim provider) →
     provider_locality other = provider_locality provider).
Proof.
  split; [|split; [|split; [|split; [|split; [|split]]]]].
  - intros requested m. unfold ChildModel_resolve.
    destruct (non_blank requested) as [r|]; simpl; [|by split; [|intros [_ ?]]].
    destruct (provider_locality provider); simpl; split;
      first [intros H; discriminate H|intros [H _]; discriminate H|intros [_ H]; exact H|intros H; by split].
  - unfold max_concurrent_subagents. by destruct (provider_locality provider).
  - unfold for_provider, max_concurrent_subagents.
    destruct (provider_locality provider); simpl; try done; by split.
  - intros requested. unfold ChildModel_resolve.
    destruct (non_blank requested) as [r|]; simpl.
    + destruct (provider_locality provider); simpl; split; try by intros [? ?]; try done;
        intros _; split; by eauto.
    + split; [by intros []|by intros [[] _]].
  - unfold for_provider, max_concurrent_subagents.
    destruct (provider_locality provider); simpl; split; try done; try by intros []; by eauto.
  - intros window. unfold permits_compaction_model_call, classify, runs_on_this_device.
    unfold SMALL_WINDOW_CEILING, LARGE_WINDOW_FLOOR.
    destruct (N.leb_spec window 12288); simpl; [split; [done|lia]|].
    destruct (N.leb_spec 65536 window), (provider_locality provider); simpl;
      split; try done; try lia; by intros [_ ?].
  - intros other E. unfold provider_locality.
    assert (∀ l, existsb (eq_ignore_ascii_case (trim other)) l
                 = existsb (eq_ignore_ascii_case (trim provider)) l) as Hl.
    { induction l as [|p l IH]; [done|]. simpl. rewrite IH. unfold eq_ignore_ascii_case. by rewrite E. }
    by rewrite !Hl.
Qed.
