(* ===== verification/RoleBlock.v ===== *)
(** * RoleBlock: when an agent runs, and the hooks around its runs

    crates/pond-core/src/shared/domain/role_block.rs: activations with their windows, triggers,
    subjects, thresholds, cooldowns and clocks, and the hooks. The collecting parser of a recipe's
    YAML is not modelled, apart from its readers of a time of day, a part of the day and a
    duration. [croner], which reads a cron and finds its next time, is outside the repository. *)
From S2P Require Import Prelude Text.
From Stdlib Require Import NArith ZArith QArith Lia.
Local Open Scope N_scope.

(** ** Numbers in text *)

(** [str::parse] of an unsigned type with [max]: a sign [+] is allowed, and at least one digit. *)
Fixpoint digits_value (t : text) (v : N) : option N :=
  match t with
  | [] => Some v
  | c :: t => if is_ascii_digit c then digits_value t (v * 10 + (c - 48)) else None
  end.
Definition parse_unsigned (max : N) (t : text) : option N :=
  let t := match t with 43 :: (_ :: _) as rest => tl t | _ => t end in
  if is_empty t then None else
  match digits_value t 0 with
  | Some v => if v <=? max then Some v else None
  | None => None
  end.

(** [str::split_once] by a character. *)
Fixpoint split_once (p : N) (t : text) : option (text * text) :=
  match t with
  | [] => None
  | c :: t => if c =? p then Some ([], t) else (λ '(a, b), (c :: a, b)) <$> split_once p t
  end.

(** [{n:02}] *)
Definition dec2 (n : N) : text := if n <? 10 then 48 :: dec n else dec n.

(** ** Parts of the day *)

Definition parse_clock (raw : text) : option (N * N) :=
  match split_once 58 (trim raw) with
  | None => None
  | Some (hour, minute) =>
      if is_empty hour || (2 <? byte_len hour) || negb (byte_len minute =? 2) then None else
      match parse_unsigned u32_max hour, parse_unsigned u32_max minute with
      | Some hour, Some minute => if (hour <? 24) && (minute <? 60) then Some (hour, minute) else None
      | _, _ => None
      end
  end.

Record ClockWindow := { cw_from : N; cw_to : N }.

Inductive WindowError : Type := MalformedWindow (raw : text) | EmptyWindow (raw : text).

Definition ClockWindow_parse (raw : text) : result ClockWindow WindowError :=
  match split_once 45 raw with
  | None => Err (MalformedWindow raw)
  | Some (from, to_) =>
      match parse_clock from, parse_clock to_ with
      | Some (fh, fm), Some (th, tm) =>
          let window := {| cw_from := fh * 60 + fm; cw_to := th * 60 + tm |} in
          if cw_from window =? cw_to window then Err (EmptyWindow raw) else Ok window
      | _, _ => Err (MalformedWindow raw)
      end
  end.

Definition bounds (w : ClockWindow) : (N * N) * (N * N) :=
  ((cw_from w / 60, cw_from w mod 60), (cw_to w / 60, cw_to w mod 60)).

Definition window_contains (w : ClockWindow) (hour minute : N) : bool :=
  let at_ := hour * 60 + minute in
  if cw_from w <? cw_to w then (cw_from w <=? at_) && (at_ <? cw_to w)
  else (cw_from w <=? at_) || (at_ <? cw_to w).

Definition display_clock (minutes : N) : text := dec2 (minutes / 60) ++ 58 :: dec2 (minutes mod 60).
Definition ClockWindow_display (w : ClockWindow) : text := display_clock (cw_from w) ++ 45 :: display_clock (cw_to w).

(** ** Cooldowns *)

Definition DEFAULT_ACTIVATION_COOLDOWN : N := from_secs (30 * 60).
Definition MIN_ACTIVATION_COOLDOWN : N := from_secs 60.

Inductive CooldownError : Type :=
| CooldownEmpty | NotADuration (raw : text) | UnitWithoutNumber (raw : text)
| NumberWithoutUnit (raw digits : text) | CooldownTooShort (raw : text).

Definition u64_sat_add (a b : N) : N := N.min u64_max (a + b).

Definition unit_secs (c : N) : option N :=
  match c with
  | 115 (* s *) => Some 1
  | 109 (* m *) => Some 60
  | 104 (* h *) => Some 3600
  | 100 (* d *) => Some 86400
  | _ => None
  end.

(** The loop over the characters: [total] so far and the digits read. *)
Fixpoint cooldown_loop (raw cs : text) (total : N) (digits : text) : result N CooldownError :=
  match cs with
  | [] => if is_empty digits then Ok total else Err (NumberWithoutUnit raw digits)
  | c :: cs =>
      if is_ascii_digit c then cooldown_loop raw cs total (digits ++ [c]) else
      match unit_secs c with
      | None => Err (NotADuration raw)
      | Some unit =>
          match parse_unsigned u64_max digits with
          | None => Err (UnitWithoutNumber raw)
          | Some n => cooldown_loop raw cs (u64_sat_add total (N.min u64_max (n * unit))) []
          end
      end
  end.

(** A [Cooldown] is its duration, in nanoseconds. *)
Definition Cooldown_parse (raw : text) : result N CooldownError :=
  let t := lowercase (trim raw) in
  if is_empty t then Err CooldownEmpty else
  let? total := cooldown_loop raw (List.filter (λ c, negb (is_whitespace c)) t) 0 [] in
  let cooldown := from_secs total in
  if cooldown <? MIN_ACTIVATION_COOLDOWN then Err (CooldownTooShort raw) else Ok cooldown.

(** ** Triggers *)

Inductive Subject : Type := SubjectAny | SubjectNamed (name : text) | SubjectOwner.

#[export] Instance Subject_eq_dec : EqDecision Subject.
Proof. solve_decision. Defined.

Definition admits (s : Subject) (id : text) (owner : option text) : bool :=
  match s with
  | SubjectAny => true
  | SubjectNamed name => bool_decide (name = id)
  | SubjectOwner => bool_decide (owner = Some id)
  end.

(** An [f64]: a number, an infinity, or neither. *)
Inductive f64 : Type := F64 (q : Q) | F64Infinity (negative : bool) | F64NaN.

Definition f64_ltb (a b : f64) : bool :=
  match a, b with
  | F64NaN, _ | _, F64NaN => false
  | F64Infinity true, F64Infinity true => false
  | F64Infinity true, _ => true
  | F64Infinity false, _ => false
  | F64 _, F64Infinity negative => negb negative
  | F64 p, F64 q => negb (Qle_bool q p)
  end.

Inductive Threshold : Type := Above (x : f64) | Below (x : f64).

Definition passes (t : Threshold) (value : f64) : bool :=
  match t with Above x => f64_ltb x value | Below x => f64_ltb value x end.

Inductive EventTrigger : Type :=
| PresenceArrive (member : Subject)
| PresenceLeave (member : Subject)
| CameraPerson (camera : Subject)
| CameraMotion (camera : Subject)
| Sensor (sensor_type : text) (device : Subject) (threshold : Threshold)
| DeviceChange (key : text) (device : Subject)
| TimeDaily (hour minute : N).

(** A [CronSchedule] is its six fields. *)
Definition daily_at (hour minute : N) : text :=
  lit "0 " ++ dec minute ++ lit " " ++ dec hour ++ lit " * * *".

Definition trigger_clock (t : EventTrigger) : option text :=
  match t with TimeDaily hour minute => Some (daily_at hour minute) | _ => None end.

Record ScheduleActivation := { sa_cron : text; sa_brief : text; sa_cooldown : N }.
Record EventActivation := {
  ea_trigger : EventTrigger; ea_brief : text; ea_cooldown : N; ea_window : option ClockWindow }.

Inductive Activation : Type :=
| Delegated
| TaskStep
| Schedule (s : ScheduleActivation)
| Event (e : EventActivation)
| Agent (from : list text).

Definition default_activations : list Activation := [Delegated; TaskStep].

(** ** Hooks *)

Inductive BeforeHook : Type := Today | Weather | Presence.
Inductive AfterHook : Type := NotifyOwner | SaveArtifact | StartTask | HandTo (agent : text).

#[export] Instance AfterHook_eq_dec : EqDecision AfterHook.
Proof. solve_decision. Defined.

Record RoleHooks := { hook_before : list BeforeHook; hook_after : list AfterHook }.
Definition RoleHooks_default : RoleHooks := {| hook_before := []; hook_after := [] |}.

Definition hook_hand_to (h : RoleHooks) : option text :=
  head (omap (λ a, match a with HandTo agent => Some agent | _ => None end) (hook_after h)).
Definition after_has (h : RoleHooks) (a : AfterHook) : bool := bool_decide (a ∈ hook_after h).

(** ** Lemmas: times of day *)

Definition MINUTES_A_DAY : N := 1440.

Definition clock_reads_back (m : N) : bool :=
  bool_decide (parse_clock (display_clock m) = Some (m / 60, m mod 60)) &&
  forallb (λ c, negb (c =? 45)) (display_clock m).

Lemma clocks_read_back : forallb (λ n, clock_reads_back (N.of_nat n)) (List.seq 0 1440) = true.
Proof. vm_compute. reflexivity. Qed.

Lemma clock_read_back m :
  m < MINUTES_A_DAY →
  parse_clock (display_clock m) = Some (m / 60, m mod 60) ∧
  Forall (λ c, negb (c =? 45) = true) (display_clock m).
Proof.
  intros Hm. pose proof (proj1 (forallb_forall _ _) clocks_read_back (N.to_nat m)) as H.
  unfold MINUTES_A_DAY in Hm.
  assert (In (N.to_nat m) (List.seq 0 1440)) as Hin by (apply in_seq; lia).
  specialize (H Hin). cbv beta in H. rewrite N2Nat.id in H. unfold clock_reads_back in H.
  apply andb_prop in H as [H1%bool_decide_eq_true H2]. split; [done|].
  apply Forall_forall. intros c Hc. by apply (proj1 (forallb_elem_of _ _) H2).
Qed.

Lemma split_once_app p a b :
  Forall (λ c, negb (c =? p) = true) a → split_once p (a ++ p :: b) = Some (a, b).
Proof.
  induction 1 as [|c a Hc _ IH]; simpl; [by rewrite N.eqb_refl|].
  apply negb_true_iff in Hc. by rewrite Hc, IH.
Qed.

Lemma mod_day x : x < 2 * MINUTES_A_DAY →
  x mod MINUTES_A_DAY = if x <? MINUTES_A_DAY then x else x - MINUTES_A_DAY.
Proof.
  unfold MINUTES_A_DAY. intros H. pose proof (N.div_mod x 1440 ltac:(lia)). pose proof (N.mod_lt x 1440 ltac:(lia)).
  set (q := x / 1440) in *. set (r := x mod 1440) in *. destruct (N.ltb_spec x 1440); lia.
Qed.

Lemma parse_clock_range raw h m : parse_clock raw = Some (h, m) → h < 24 ∧ m < 60.
Proof.
  unfold parse_clock. destruct (split_once _ _) as [[a b]|]; [|done]. destruct (_ || _); [done|].
  destruct (parse_unsigned u32_max a) as [x|], (parse_unsigned u32_max b) as [y|]; try done.
  destruct ((x <? 24) && (y <? 60)) eqn:E; [|done]. apply andb_prop in E as [E1%N.ltb_lt E2%N.ltb_lt].
  by intros [= <- <-].
Qed.

Definition window_ok (w : ClockWindow) : Prop :=
  cw_from w < MINUTES_A_DAY ∧ cw_to w < MINUTES_A_DAY ∧ cw_from w ≠ cw_to w.

(** What [ClockWindow::parse] accepts are the parts of a day that are not empty, and each is
    written so that it reads back as itself; a time is in the window exactly when it comes, going
    round the clock from its start, before its end. *)
Theorem window_reads_back :
  (∀ raw w, ClockWindow_parse raw = Ok w → window_ok w) ∧
  (∀ w, window_ok w → ClockWindow_parse (ClockWindow_display w) = Ok w) ∧
  ∀ w hour minute, window_ok w → hour < 24 → minute < 60 →
    window_contains w hour minute = true ↔
      (hour * 60 + minute + MINUTES_A_DAY - cw_from w) mod MINUTES_A_DAY <
      (cw_to w + MINUTES_A_DAY - cw_from w) mod MINUTES_A_DAY.
Proof.
  split; [|split].
  - intros raw w. unfold ClockWindow_parse. destruct (split_once 45 raw) as [[a b]|]; [|done].
    destruct (parse_clock a) as [[fh fm]|] eqn:Ea, (parse_clock b) as [[th tm]|] eqn:Eb; try done.
    apply parse_clock_range in Ea, Eb. cbn [cw_from cw_to]. destruct (N.eqb_spec (fh * 60 + fm) (th * 60 + tm)); [done|].
    intros [= <-]. unfold window_ok, MINUTES_A_DAY. simpl. lia.
  - intros [f t] (Hf & Ht & Hne). unfold ClockWindow_parse, ClockWindow_display. cbn [cw_from cw_to] in *.
    destruct (clock_read_back f Hf) as [Ef Nf], (clock_read_back t Ht) as [Et _].
    rewrite split_once_app by done. rewrite Ef, Et.
    replace (f / 60 * 60 + f mod 60) with f by (pose proof (N.div_mod f 60 ltac:(lia)); lia).
    replace (t / 60 * 60 + t mod 60) with t by (pose proof (N.div_mod t 60 ltac:(lia)); lia).
    by rewrite (proj2 (N.eqb_neq f t)).
  - intros [f t] h m (Hf & Ht & Hne) Hh Hm. unfold window_contains. cbn [cw_from cw_to] in *.
    rewrite !mod_day by (unfold MINUTES_A_DAY in *; lia). unfold MINUTES_A_DAY in *.
    destruct (N.ltb_spec f t), (N.ltb_spec (h * 60 + m + 1440 - f) 1440), (N.ltb_spec (t + 1440 - f) 1440);
      rewrite ?andb_true_iff, ?orb_true_iff, !N.leb_le, !N.ltb_lt; lia.
Qed.

(** ** Lemmas: durations *)

Lemma digits_value_dec t v :
  Forall (λ c, is_ascii_digit c = true) t →
  digits_value t v = Some (foldl (λ v d, v * 10 + (d - 48)) v t).
Proof.
  intros H. revert v. induction H as [|c t Hc _ IH]; intros v; [done|]. simpl. rewrite Hc. apply IH.
Qed.

Lemma parse_unsigned_dec max n : n ≤ max → parse_unsigned max (dec n) = Some n.
Proof.
  intros Hn. unfold parse_unsigned. pose proof (dec_digits n) as Hd. pose proof (dec_nonempty n) as Hne.
  pose proof (dec_undec n) as Hu. unfold undec in Hu. destruct (dec n) as [|c t]; [done|].
  assert (c ≠ 43) as Hc by (intros ->; by apply Forall_cons in Hd as [[=] _]).
  assert (match c :: t with 43 :: (_ :: _) as rest => tl (c :: t) | _ => c :: t end = c :: t) as ->.
  { destruct c as [|p]; [done|]. by do 7 (destruct p as [p|p|]; try done). }
  rewrite digits_value_dec by done. cbn [is_empty]. rewrite Hu. by rewrite (proj2 (N.leb_le n max)).
Qed.

Inductive unit_char : N → N → Prop :=
| unit_s : unit_char 115 1 | unit_m : unit_char 109 60 | unit_h : unit_char 104 3600 | unit_d : unit_char 100 86400.

Lemma cooldown_loop_digits raw ds cs total digits :
  Forall (λ c, is_ascii_digit c = true) ds →
  cooldown_loop raw (ds ++ cs) total digits = cooldown_loop raw cs total (digits ++ ds).
Proof.
  intros H. revert digits. induction H as [|c ds Hc _ IH]; intros digits; [by rewrite app_nil_r|].
  simpl. rewrite Hc, IH, <-app_assoc. done.
Qed.

(** The parts of a duration, written one after the other. *)
Definition part_text (p : N * N) : text := dec p.1 ++ [p.2].
Definition part_secs (p : N * N) : N := p.1 * default 0 (unit_secs p.2).
Definition total_secs (total : N) (parts : list (N * N)) : N :=
  foldl (λ total p, u64_sat_add total (N.min u64_max (part_secs p))) total parts.

Lemma cooldown_loop_parts raw parts total :
  Forall (λ p, p.1 ≤ u64_max ∧ ∃ secs, unit_char p.2 secs) parts →
  cooldown_loop raw (concat (part_text <$> parts)) total [] = Ok (total_secs total parts).
Proof.
  intros H. revert total. induction H as [|[n u] parts [Hn [secs Hu]] _ IH]; intros total; [done|].
  rewrite fmap_cons. cbn [concat]. unfold part_text at 1. cbn [fst snd] in *. rewrite <-!app_assoc.
  rewrite cooldown_loop_digits by apply dec_digits. cbn [app cooldown_loop].
  assert (is_ascii_digit u = false ∧ unit_secs u = Some secs) as [-> Eu] by (by destruct Hu).
  rewrite Eu, parse_unsigned_dec by done. rewrite IH. unfold total_secs, part_secs. simpl. by rewrite Eu.
Qed.

Lemma total_secs_bound parts total : total ≤ u64_max → total_secs total parts ≤ u64_max.
Proof.
  revert total. induction parts as [|p parts IH]; intros total Ht; [done|]. apply IH. unfold u64_sat_add. lia.
Qed.

Lemma cooldown_loop_bound raw cs total digits out :
  total ≤ u64_max → cooldown_loop raw cs total digits = Ok out → out ≤ u64_max.
Proof.
  revert total digits. induction cs as [|c cs IH]; intros total digits Ht; simpl.
  - destruct (is_empty digits); by intros [= <-].
  - destruct (is_ascii_digit c); [by apply IH|]. destruct (unit_secs c) as [u|]; [|done].
    destruct (parse_unsigned u64_max digits) as [n|]; [|done]. apply IH. unfold u64_sat_add. lia.
Qed.

(** A cooldown written as parts, such as [1h30m], is their sum, saturating; what is accepted is
    never below the least cooldown, and has no upper bound but the type's. *)
Theorem cooldown_is_the_sum parts :
  Forall (λ p, p.1 ≤ u64_max ∧ ∃ secs, unit_char p.2 secs) parts → parts ≠ [] →
  let raw := concat (part_text <$> parts) in
  Cooldown_parse raw =
    (if from_secs (total_secs 0 parts) <? MIN_ACTIVATION_COOLDOWN then Err (CooldownTooShort raw)
     else Ok (from_secs (total_secs 0 parts))) ∧
  ∀ t c, Cooldown_parse t = Ok c → MIN_ACTIVATION_COOLDOWN ≤ c ≤ from_secs u64_max.
Proof.
  intros Hall Hne raw. split.
  - assert (Forall (λ c, is_whitespace c = false ∧ to_ascii_lowercase c = c) raw) as Hraw.
    { subst raw. clear Hne. induction Hall as [|[n u] parts [_ [secs Hu]] _ IH]; [constructor|].
      rewrite fmap_cons. cbn [concat]. apply Forall_app. split; [|exact IH].
      unfold part_text. cbn [fst snd] in *. apply Forall_app. split; [|apply Forall_singleton; by destruct Hu].
      apply (Forall_impl _ _ _ (dec_digits n)). intros c Hc. unfold is_ascii_digit in Hc.
      apply andb_prop in Hc as [H1%N.leb_le H2%N.leb_le].
      assert (c = 48 ∨ c = 49 ∨ c = 50 ∨ c = 51 ∨ c = 52 ∨ c = 53 ∨ c = 54 ∨ c = 55 ∨ c = 56 ∨ c = 57) as Hcs by lia.
      by destruct Hcs as [->|[->|[->|[->|[->|[->|[->|[->|[->| ->]]]]]]]]]. }
    assert (raw ≠ []) as Hraw_ne.
    { subst raw. destruct parts as [|[n u] parts]; [done|]. rewrite fmap_cons. cbn [concat]. unfold part_text.
      cbn [fst snd]. destruct (dec n); done. }
    unfold Cooldown_parse. rewrite trimmed_trim.
    2:{ split; intros c Hc; [apply head_Some_elem_of in Hc|apply last_Some_elem_of in Hc];
          by apply (proj1 (Forall_forall _ _) Hraw). }
    assert (lowercase raw = raw) as ->.
    { unfold lowercase. clear -Hraw. induction Hraw as [|c t [_ Hc] _ IH]; [done|]. rewrite fmap_cons. by rewrite Hc, IH. }
    rewrite (proj2 (is_empty_false raw) Hraw_ne). rewrite filter_true.
    2:{ intros c Hc. apply (proj1 (Forall_forall _ _) Hraw) in Hc as [-> _]. done. }
    subst raw. rewrite cooldown_loop_parts by done. done.
  - intros t c. unfold Cooldown_parse. destruct (is_empty _); [done|]. intros H.
    apply result_bind_ok in H as (total & Ht & H). apply cooldown_loop_bound in Ht; [|done].
    destruct (N.ltb_spec (from_secs total) MIN_ACTIVATION_COOLDOWN); [done|]. injection H as <-.
    split; [done|]. unfold from_secs. lia.
Qed.

Lemma cooldown_is_the_sum_witness : Cooldown_parse (lit "1h30m") = Ok (from_secs 5400).
Proof.
  destruct (cooldown_is_the_sum [(1, 104); (30, 109)]) as [H _].
  - repeat constructor; try (vm_compute; discriminate); eexists; constructor.
  - done.
  - exact H.
Defined.
