(* ===== verification/Delegation.v ===== *)
(** * Delegation: what a helper may do, and under whose authority

    [crates/pond-core/src/shared/domain/orchestration.rs]: [DelegationDepth], [AgentRole]
    ([new], [with_model], [with_max_turns] and the activations it accepts),
    [DelegationAuthority] ([root], [with_read_tools], [for_turn], [delegate]), [ChildScope],
    [TaskSpec] with its builders and [grants_tool], and [TaskRun].
    A [BTreeSet] is a [gset]; the random id [delegate] draws is its argument [uuid]; an [f32]
    is the rational it denotes, or no number. A role's activations and hooks are RoleBlock's; its
    examples and agent-to-agent settings are read by nothing here and left out. *)
From S2P Require Import Prelude Text Scope HandBack ToolGroups RoleBlock.
From Stdlib Require Import QArith.
Local Open Scope N_scope.

(** ** Depth *)

Definition MAX_DELEGATION_DEPTH : N := 1.
Definition DEFAULT_ROLE_MAX_TURNS : N := 6.
Definition MAX_ROLE_MAX_TURNS : N := 12.

Notation DelegationDepth := N (only parsing).
Definition ROOT : DelegationDepth := 0.
Definition is_root (d : DelegationDepth) : bool := d =? 0.

Inductive DelegationRefused : Type :=
| DepthExceeded (requested cap : N)
| RoleMismatch (requested supplied : text)
| EmptyInstructions (role : text)
| UnknownRole (role : text).

Definition u8_sat_add (a b : N) : N := N.min 255 (a + b).

Definition deeper (d : DelegationDepth) : result DelegationDepth DelegationRefused :=
  let next := u8_sat_add d 1 in
  if MAX_DELEGATION_DEPTH <? next then Err (DepthExceeded next MAX_DELEGATION_DEPTH) else Ok next.

(** ** Roles *)

Inductive RolePersonalData : Type := Inherit | Deny.

Definition narrow (p : RolePersonalData) (parent : ProfileScope) : ProfileScope :=
  match p with Inherit => parent | Deny => Guest end.

Inductive f32 : Type := Finite (q : Q) | NotFinite.

Record AgentRole := {
  role_name : text;
  role_instructions : text;
  role_tool_groups : gset text;
  role_personal_data : RolePersonalData;
  role_max_turns : N;
  role_context_fraction : f32;
  role_model : option text;
  role_activations : list Activation;
  role_hooks : RoleHooks;
}.

Inductive RoleError : Type :=
| RoleMissingName
| RoleMissingInstructions (role : text)
| MaxTurnsOutOfRange (role : text) (requested cap : N)
| ContextFractionOutOfRange (role : text) (requested : f32)
| EmptyModel (role : text).

Definition fraction_in_range (f : f32) : bool :=
  match f with
  | Finite q => negb (Qle_bool q 0) && Qle_bool q 1
  | NotFinite => false
  end.

Definition AgentRole_new (name instructions : text) (tool_groups : gset text)
    (personal_data : RolePersonalData) (max_turns : N) (context_fraction : f32) :
    result AgentRole RoleError :=
  if is_empty (trim name) then Err RoleMissingName else
  if is_empty (trim instructions) then Err (RoleMissingInstructions name) else
  if (max_turns =? 0) || (MAX_ROLE_MAX_TURNS <? max_turns)
  then Err (MaxTurnsOutOfRange name max_turns MAX_ROLE_MAX_TURNS) else
  if negb (fraction_in_range context_fraction)
  then Err (ContextFractionOutOfRange name context_fraction) else
  Ok {| role_name := name; role_instructions := instructions; role_tool_groups := tool_groups;
        role_personal_data := personal_data; role_max_turns := max_turns;
        role_context_fraction := context_fraction; role_model := None;
        role_activations := default_activations; role_hooks := RoleHooks_default |}.

Definition role_with (r : AgentRole) (max_turns : N) (model : option text) : AgentRole :=
  {| role_name := role_name r; role_instructions := role_instructions r;
     role_tool_groups := role_tool_groups r; role_personal_data := role_personal_data r;
     role_max_turns := max_turns; role_context_fraction := role_context_fraction r;
     role_model := model; role_activations := role_activations r;
     role_hooks := role_hooks r |}.

Definition with_model (r : AgentRole) (model : option text) : result AgentRole RoleError :=
  match model with
  | None => Ok (role_with r (role_max_turns r) None)
  | Some model =>
      if is_empty (trim model) then Err (EmptyModel (role_name r))
      else Ok (role_with r (role_max_turns r) (Some (trim model)))
  end.

Definition with_max_turns (r : AgentRole) (max_turns : N) : AgentRole :=
  role_with r (N.min (N.max 1 max_turns) MAX_ROLE_MAX_TURNS) (role_model r).

Definition accepts_delegation (r : AgentRole) : bool :=
  existsb (λ a, match a with Delegated => true | _ => false end) (role_activations r).
Definition accepts_task_steps (r : AgentRole) : bool :=
  existsb (λ a, match a with TaskStep => true | _ => false end) (role_activations r).
Definition accepts_hand_off_from (r : AgentRole) (source : text) : bool :=
  existsb (λ a, match a with
                | Agent from => existsb (λ name, bool_decide (name = source)) from
                | _ => false
                end) (role_activations r).
Definition runs_on_its_own (r : AgentRole) : bool :=
  existsb (λ a, match a with Schedule _ | Event _ => true | _ => false end) (role_activations r).

(** ** Authority *)

Record TaskRequest := {
  rq_role : text; rq_instructions : text; rq_inputs : Json; rq_background : bool;
}.

Record DelegationAuthority := {
  da_session_id : text;
  da_scope : ProfileScope;
  da_tool_groups : gset text;
  da_read_tools : gset text;
  da_depth : DelegationDepth;
}.

Definition authority_root (session_id : text) (scope : ProfileScope) (tool_groups : gset text) :
    DelegationAuthority :=
  {| da_session_id := session_id; da_scope := scope; da_tool_groups := tool_groups;
     da_read_tools := ∅; da_depth := ROOT |}.

Definition with_read_tools (a : DelegationAuthority) (tools : list text) : DelegationAuthority :=
  {| da_session_id := da_session_id a; da_scope := da_scope a;
     da_tool_groups := da_tool_groups a;
     da_read_tools :=
       list_to_set (List.filter (λ tool, bool_decide (tool ∈ HOUSEHOLD_READ_TOOLS)) tools);
     da_depth := da_depth a |}.

Definition for_turn (session_id : text) (scope : ProfileScope) (allowed_tools : list text) :
    DelegationAuthority :=
  authority_root session_id scope (list_to_set (omap group_of_tool allowed_tools)).

Definition may_delegate (a : DelegationAuthority) : bool := is_ok (deeper (da_depth a)).

(** [ChildScope::clamp] and [ChildScope::for_role]; the wrapped scope. *)
Definition clamp (candidate parent : ProfileScope) : ProfileScope :=
  if is_within candidate parent then candidate else Guest.
Definition ChildScope_for_role (personal_data : RolePersonalData) (parent : ProfileScope) :
    ProfileScope :=
  clamp (narrow personal_data parent) parent.

Definition narrow_child_groups (requested parent : gset text) (child : ProfileScope) : gset text :=
  let groups := requested ∩ parent in
  let groups :=
    if excludes_everything child then groups ∖ list_to_set groups_denied_to_guests else groups in
  groups ∖ list_to_set groups_denied_to_subagents.

Definition may_read (requested : gset text) (child : ProfileScope) (tool : text) : bool :=
  match group_of_tool tool with
  | None => false
  | Some group =>
      bool_decide (group ∈ requested) &&
      negb (excludes_everything child && bool_decide (group ∈ groups_denied_to_guests))
  end.
Definition narrow_read_tools (requested parent : gset text) (child : ProfileScope) : gset text :=
  filter (λ tool, may_read requested child tool = true) parent.

(** ** [TaskSpec] *)

Record TaskSpec := {
  ts_id : text;
  ts_role : text;
  ts_instructions : text;
  ts_inputs : Json;
  ts_parent_session_id : text;
  ts_scope : ProfileScope;
  ts_tool_groups : gset text;
  ts_read_tools : gset text;
  ts_withheld : gset text;
  ts_depth : DelegationDepth;
  ts_max_turns : N;
  ts_context_fraction : f32;
  ts_model : option text;
  ts_background : bool;
  ts_compile_shape : option text;
  ts_prefill_retention : option N;
  ts_prefill_rebuild : bool;
  ts_persona : text;
  ts_nudge : option text;
}.

Definition delegate (uuid : text) (a : DelegationAuthority) (role : AgentRole)
    (request : TaskRequest) : result TaskSpec DelegationRefused :=
  if negb (bool_decide (rq_role request = role_name role))
  then Err (RoleMismatch (rq_role request) (role_name role)) else
  let instructions := trim (rq_instructions request) in
  if is_empty instructions then Err (EmptyInstructions (role_name role)) else
  let? depth := deeper (da_depth a) in
  let scope := ChildScope_for_role (role_personal_data role) (da_scope a) in
  let tool_groups := narrow_child_groups (role_tool_groups role) (da_tool_groups a) scope in
  let read_tools := narrow_read_tools (role_tool_groups role) (da_read_tools a) scope in
  Ok {| ts_id := uuid; ts_role := role_name role; ts_instructions := instructions;
        ts_inputs := rq_inputs request; ts_parent_session_id := da_session_id a;
        ts_scope := scope; ts_tool_groups := tool_groups; ts_read_tools := read_tools;
        ts_withheld := ∅; ts_depth := depth; ts_max_turns := role_max_turns role;
        ts_context_fraction := role_context_fraction role; ts_model := role_model role;
        ts_background := rq_background request; ts_compile_shape := None;
        ts_prefill_retention := None; ts_prefill_rebuild := false;
        ts_persona := role_instructions role; ts_nudge := None |}.

(** The fields a builder may assign. *)
Definition spec_with (s : TaskSpec) (withheld : gset text) (compile_shape : option text)
    (retention : option N) (rebuild : bool) (nudge : option text) : TaskSpec :=
  {| ts_id := ts_id s; ts_role := ts_role s; ts_instructions := ts_instructions s;
     ts_inputs := ts_inputs s; ts_parent_session_id := ts_parent_session_id s;
     ts_scope := ts_scope s; ts_tool_groups := ts_tool_groups s;
     ts_read_tools := ts_read_tools s; ts_withheld := withheld; ts_depth := ts_depth s;
     ts_max_turns := ts_max_turns s; ts_context_fraction := ts_context_fraction s;
     ts_model := ts_model s; ts_background := ts_background s;
     ts_compile_shape := compile_shape; ts_prefill_retention := retention;
     ts_prefill_rebuild := rebuild; ts_persona := ts_persona s; ts_nudge := nudge |}.

Definition compiling_prefill (s : TaskSpec) (shape : text) : TaskSpec :=
  spec_with s (ts_withheld s) (Some shape) (ts_prefill_retention s) (ts_prefill_rebuild s) (ts_nudge s).
Definition retaining_helpers_for (s : TaskSpec) (retention : N) : TaskSpec :=
  spec_with s (ts_withheld s) (ts_compile_shape s) (Some retention) (ts_prefill_rebuild s) (ts_nudge s).
Definition rebuilding (s : TaskSpec) : TaskSpec :=
  spec_with s (ts_withheld s) (ts_compile_shape s) (ts_prefill_retention s) true (ts_nudge s).
Definition withholding (s : TaskSpec) (tools : list text) : TaskSpec :=
  spec_with s (ts_withheld s ∪ list_to_set tools) (ts_compile_shape s) (ts_prefill_retention s)
    (ts_prefill_rebuild s) (ts_nudge s).
Definition nudging (s : TaskSpec) (nudge : text) : TaskSpec :=
  spec_with s (ts_withheld s) (ts_compile_shape s) (ts_prefill_retention s)
    (ts_prefill_rebuild s) (Some nudge).

Definition grants_tool (s : TaskSpec) (tool_name : text) : bool :=
  if bool_decide (tool_name ∈ ts_withheld s) then false else
  match group_of_tool tool_name with
  | Some extension =>
      bool_decide (extension ∈ ts_tool_groups s) || bool_decide (tool_name ∈ ts_read_tools s)
  | None => false
  end.

Definition child_authority (s : TaskSpec) (child_session_id : text) : DelegationAuthority :=
  {| da_session_id := child_session_id; da_scope := ts_scope s;
     da_tool_groups := ts_tool_groups s; da_read_tools := ts_read_tools s;
     da_depth := ts_depth s |}.

(** ** [TaskRun] *)

Module TaskStatus.
Inductive TaskStatus : Type :=
| Queued | Running | Completed | Cancelled | TurnBudgetExhausted | Failed.
End TaskStatus.
Notation TaskStatus := TaskStatus.TaskStatus.

#[export] Instance TaskStatus_eq_dec : EqDecision TaskStatus.
Proof. solve_decision. Defined.

Definition TaskStatus_is_terminal (s : TaskStatus) : bool :=
  match s with TaskStatus.Queued | TaskStatus.Running => false | _ => true end.
Definition produced_an_answer (s : TaskStatus) : bool :=
  match s with TaskStatus.Completed => true | _ => false end.

Record TaskRun := {
  tr_id : text;
  tr_role : text;
  tr_parent_session_id : text;
  tr_status : TaskStatus;
  tr_result : option text;
  tr_error : option text;
  tr_started_at : Z;
  tr_finished_at : option Z;
}.

Definition TaskRun_started (spec : TaskSpec) (at_ : Z) : TaskRun :=
  {| tr_id := ts_id spec; tr_role := ts_role spec;
     tr_parent_session_id := ts_parent_session_id spec; tr_status := TaskStatus.Running;
     tr_result := None; tr_error := None; tr_started_at := at_; tr_finished_at := None |}.

Definition result_for_parent (r : TaskRun) : option text :=
  if produced_an_answer (tr_status r) then tr_result r else None.

(** ** What an authority and a spec hold *)

(** The tools an authority's turn may use. *)
Definition holds_tool (a : DelegationAuthority) (tool : text) : Prop :=
  tool ∈ da_read_tools a ∨ ∃ g, group_of_tool tool = Some g ∧ g ∈ da_tool_groups a.

(** The builders of a spec, between [delegate] and the run. *)
Inductive spec_step : TaskSpec → TaskSpec → Prop :=
| step_compiling s shape : spec_step s (compiling_prefill s shape)
| step_retaining s r : spec_step s (retaining_helpers_for s r)
| step_rebuilding s : spec_step s (rebuilding s)
| step_withholding s tools : spec_step s (withholding s tools)
| step_nudging s nudge : spec_step s (nudging s nudge).

(** [b] is no wider than [a]. *)
Record attenuated (a b : DelegationAuthority) : Prop := {
  at_scope : is_within (da_scope b) (da_scope a) = true;
  at_groups : da_tool_groups b ⊆ da_tool_groups a;
  at_read : da_read_tools b ⊆ da_read_tools a;
  at_depth : da_depth a ≤ da_depth b;
}.

(** One delegation: [b] is the authority of a child [a] started. *)
Inductive delegation : DelegationAuthority → DelegationAuthority → Prop :=
| delegation_step uuid a role request spec spec' sid :
    delegate uuid a role request = Ok spec → star spec_step spec spec' →
    delegation a (child_authority spec' sid).

(** ** Lemmas *)

Lemma deeper_ok d d' : deeper d = Ok d' ↔ d = 0 ∧ d' = 1.
Proof.
  unfold deeper, u8_sat_add, MAX_DELEGATION_DEPTH. destruct (N.ltb_spec 1 (N.min 255 (d + 1))).
  - split; [done|lia].
  - split; [intros [= <-]; lia|]. intros [-> ->]. done.
Qed.

Lemma clamp_within c p : is_within (clamp c p) p = true.
Proof. unfold clamp. destruct (is_within c p) eqn:E; [done|]. by destruct p. Qed.

Lemma delegate_ok uuid a role request spec :
  delegate uuid a role request = Ok spec →
  rq_role request = role_name role ∧ da_depth a = 0 ∧ ts_depth spec = 1 ∧
  ts_scope spec = ChildScope_for_role (role_personal_data role) (da_scope a) ∧
  ts_tool_groups spec =
    narrow_child_groups (role_tool_groups role) (da_tool_groups a) (ts_scope spec) ∧
  ts_read_tools spec =
    narrow_read_tools (role_tool_groups role) (da_read_tools a) (ts_scope spec) ∧
  ts_withheld spec = ∅ ∧ ts_max_turns spec = role_max_turns role.
Proof.
  unfold delegate. case_bool_decide; simpl; [|done]. destruct (is_empty _); [done|].
  intros H'. apply result_bind_ok in H' as (d & [Hd ->]%deeper_ok & [= <-]). done.
Qed.

Lemma narrow_groups_spec requested parent child g :
  g ∈ narrow_child_groups requested parent child →
  g ∈ requested ∧ g ∈ parent ∧ g ∉ groups_denied_to_subagents ∧
  (excludes_everything child = true → g ∉ groups_denied_to_guests).
Proof.
  unfold narrow_child_groups. rewrite elem_of_difference, elem_of_list_to_set.
  destruct (excludes_everything child).
  - rewrite elem_of_difference, elem_of_list_to_set, elem_of_intersection. tauto.
  - rewrite elem_of_intersection. intros [[? ?] ?]. split_and!; try done.
Qed.

Lemma narrow_read_spec requested parent child t :
  t ∈ narrow_read_tools requested parent child →
  t ∈ parent ∧ ∃ g, group_of_tool t = Some g ∧ g ∈ requested ∧
    (excludes_everything child = true → g ∉ groups_denied_to_guests).
Proof.
  unfold narrow_read_tools, may_read. intros [Hm Ht]%elem_of_filter. split; [done|].
  destruct (group_of_tool t) as [g|]; [|done]. exists g. split; [done|].
  apply andb_prop in Hm as [Hr%bool_decide_eq_true Hn%negb_true_iff]. split; [done|].
  intros He Hd. rewrite He, bool_decide_eq_true_2 in Hn by done. done.
Qed.

Lemma spec_step_same s s' : star spec_step s s' →
  ts_scope s' = ts_scope s ∧ ts_tool_groups s' = ts_tool_groups s ∧
  ts_read_tools s' = ts_read_tools s ∧ ts_depth s' = ts_depth s ∧
  ts_withheld s ⊆ ts_withheld s' ∧ ts_max_turns s' = ts_max_turns s.
Proof.
  induction 1 as [|s t u Hst _ (E1&E2&E3&E4&E5&E6)]; [done|].
  rewrite E1, E2, E3, E4, E6. destruct Hst; simpl in *; split_and!; try done; set_solver.
Qed.

Lemma delegation_attenuated a b : delegation a b → attenuated a b ∧ da_depth a = 0 ∧ da_depth b = 1.
Proof.
  destruct 1 as [uuid a role request spec spec' sid H Hst].
  apply delegate_ok in H as (_ & Hd & Hd' & Hs & Hg & Hr & _).
  apply spec_step_same in Hst as (E1&E2&E3&E4&_&_).
  split; [|simpl; by rewrite E4]. constructor; simpl.
  - rewrite E1, Hs. apply clamp_within.
  - rewrite E2, Hg. intros g Hin%narrow_groups_spec. tauto.
  - rewrite E3, Hr. intros t [Hin _]%narrow_read_spec. done.
  - rewrite E4. lia.
Qed.

(** ** Properties *)

(** A helper never holds more than the turn that started it: its scope is within its parent's
    (a guest's when the role denies personal data); every tool it is granted its parent held,
    its role asked for, and no builder withheld; it holds no group denied to helpers and, as a
    guest, none denied to guests; and it is at depth one, so neither it nor any authority made
    from it can delegate again. Builders may only withhold. *)
Theorem delegation_attenuates uuid a role request spec spec' :
  delegate uuid a role request = Ok spec → star spec_step spec spec' →
  is_within (ts_scope spec') (da_scope a) = true ∧
  (role_personal_data role = Deny → ts_scope spec' = Guest) ∧
  (∀ tool, grants_tool spec' tool = true →
     grants_tool spec tool = true ∧ holds_tool a tool ∧
     ∃ g, group_of_tool tool = Some g ∧ g ∈ role_tool_groups role ∧
       (ts_scope spec' = Guest → g ∉ groups_denied_to_guests) ∧
       (g ∈ groups_denied_to_subagents → tool ∈ da_read_tools a)) ∧
  ts_max_turns spec' = role_max_turns role ∧
  ∀ uuid' sid role' request', is_ok (delegate uuid' (child_authority spec' sid) role' request') = false.
Proof.
  intros H Hst. pose proof H as Hok.
  apply delegate_ok in H as (_ & Hd & Hd' & Hs & Hg & Hr & _ & Ht).
  apply spec_step_same in Hst as (E1&E2&E3&E4&E5&E6).
  split; [rewrite E1, Hs; apply clamp_within|].
  split; [intros Hdeny; rewrite E1, Hs, Hdeny; unfold ChildScope_for_role, clamp; simpl; done|].
  split; [|split; [congruence|]].
  - intros tool Hgr. unfold grants_tool in Hgr |- *. rewrite E2, E3 in Hgr.
    case_bool_decide as Hw; [done|]. rewrite bool_decide_eq_false_2 by set_solver.
    destruct (group_of_tool tool) as [g|] eqn:Eg; [|done]. split; [exact Hgr|].
    apply orb_prop in Hgr as [Hin%bool_decide_eq_true|Hin%bool_decide_eq_true].
    + rewrite Hg in Hin. apply narrow_groups_spec in Hin as (Hreq & Hpar & Hsub & Hguest).
      split; [right; by exists g|]. exists g. split; [done|]. split; [done|].
      split; [|done]. rewrite E1. intros Eguest. apply Hguest. by rewrite Eguest.
    + rewrite Hr in Hin. apply narrow_read_spec in Hin as (Hpar & g' & Eg' & Hreq & Hguest).
      rewrite Eg in Eg'. injection Eg' as <-. split; [by left|]. exists g. split; [done|].
      split; [done|]. split; [|done]. rewrite E1. intros Eguest. apply Hguest. by rewrite Eguest.
  - intros uuid' sid role' request'.
    destruct (delegate uuid' (child_authority spec' sid) role' request') as [s|] eqn:E; [|done].
    apply delegate_ok in E as (_ & E & _). simpl in E. lia.
Qed.

(** A member's turn hands research to a helper that may read the web and the cameras' log. *)
Definition member_turn : DelegationAuthority :=
  with_read_tools
    (for_turn (lit "s1") (Owner (lit "ann"))
      [lit "giap-knowledge__search_web"; lit "giap-memory__recall"; lit "giap-system__now"])
    [lit "giap-vision__get_recent_camera_events"; lit "giap-vision__live_feed"].

Definition scout : AgentRole :=
  {| role_name := lit "scout"; role_instructions := lit "Look things up";
     role_tool_groups := {[ lit "giap-knowledge"; lit "giap-memory"; lit "giap-system"; lit "giap-vision" ]};
     role_personal_data := Deny; role_max_turns := 6; role_context_fraction := Finite (1 # 2);
     role_model := None; role_activations := default_activations; role_hooks := RoleHooks_default |}.

Definition scout_request : TaskRequest :=
  {| rq_role := lit "scout"; rq_instructions := lit "Find flights"; rq_inputs := JNull;
     rq_background := false |}.

Definition scout_spec : TaskSpec :=
  match delegate (lit "u1") member_turn scout scout_request with
  | Ok s => s
  | Err _ => {| ts_id := []; ts_role := []; ts_instructions := []; ts_inputs := JNull;
                ts_parent_session_id := []; ts_scope := Household; ts_tool_groups := ∅;
                ts_read_tools := ∅; ts_withheld := ∅; ts_depth := 0; ts_max_turns := 0;
                ts_context_fraction := NotFinite; ts_model := None; ts_background := false;
                ts_compile_shape := None; ts_prefill_retention := None;
                ts_prefill_rebuild := false; ts_persona := []; ts_nudge := None |}
  end.

Lemma delegation_attenuates_witness :
  ts_scope (withholding scout_spec [lit "giap-knowledge__read_page"]) = Guest ∧
  grants_tool scout_spec (lit "giap-knowledge__search_web") = true ∧
  grants_tool scout_spec (lit "giap-memory__recall") = false ∧
  is_ok (delegate (lit "u2") (child_authority scout_spec (lit "s2")) scout scout_request) = false.
Proof.
  destruct (delegation_attenuates (lit "u1") member_turn scout scout_request scout_spec
    (withholding scout_spec [lit "giap-knowledge__read_page"])) as (_ & H & _ & _ & Hno).
  - vm_compute. reflexivity.
  - apply star_one. constructor.
  - split; [by apply H|]. split; [vm_compute; reflexivity|]. split; [vm_compute; reflexivity|].
    apply (Hno (lit "u2") (lit "s2") scout scout_request).
Defined.

(** [delegate] refuses exactly what it should: it succeeds if and only if the request names the
    role supplied, carries instructions, and the turn is at the root; and along any chain of
    delegations from any turn the scope, the groups and the read tools only shrink and the
    chain has at most one link. *)
Theorem delegation_chain_bounded a :
  (∀ uuid role request, is_ok (delegate uuid a role request) = true ↔
     rq_role request = role_name role ∧ trim (rq_instructions request) ≠ [] ∧
     may_delegate a = true) ∧
  (∀ b, star delegation a b → attenuated a b) ∧
  (∀ b c, delegation a b → ¬ delegation b c).
Proof.
  split; [|split].
  - intros uuid role request. unfold delegate, may_delegate. rewrite <-is_empty_false.
    case_bool_decide; simpl; [|by split; [|intros [? _]]].
    destruct (is_empty _); simpl; [by split; [|intros (_ & ? & _)]|].
    destruct (deeper _); simpl; [done|]. by split; [|intros (_ & _ & ?)].
  - intros b Hab. assert (attenuated a a) as Hrefl by (constructor; [apply is_within_refl|done|done|lia]).
    revert Hrefl. generalize a at 1 3. intros a0 H0. induction Hab as [|x y z Hxy _ IH]; [done|].
    apply IH. apply delegation_attenuated in Hxy as [[H1 H2 H3 H4] _]. destruct H0 as [G1 G2 G3 G4].
    constructor; [by eapply is_within_trans|set_solver|set_solver|lia].
  - intros b c [_ [_ Hb]]%delegation_attenuated [_ [Hb' _]]%delegation_attenuated. lia.
Qed.
