(* ===== verification/TurnAuthority.v ===== *)
(** * TurnAuthority: the live turns' authorities

    [crates/pond-core/src/shared/services/turn_authority.rs]: [TurnAuthorityRegistry] with
    [publish], [authority_for_engine_session], [parent_turn_token], [tracked_turns] and
    [revoke], and the lease whose drop revokes. The map and the queue under the lock are the
    state; a cancellation token ([tokio_util]) is an opaque identity. A pond is the registry
    together with the leases not yet dropped. *)
From S2P Require Import Prelude Text Scope HandBack Delegation.
Local Open Scope nat_scope.

Definition MAX_TRACKED_TURNS : nat := 64.

Notation CancellationToken := N (only parsing).

Record TurnEntry := { te_authority : DelegationAuthority; te_cancel : CancellationToken }.

Record Entries := { by_engine_session : gmap text TurnEntry; order : list text }.

Definition Entries_default : Entries := {| by_engine_session := ∅; order := [] |}.

(** [while order.len() > MAX_TRACKED_TURNS]: the fuel is the queue's length, which every round
    shortens by one. *)
Fixpoint evict (fuel : nat) (e : Entries) : Entries :=
  match fuel with
  | O => e
  | S fuel =>
      if MAX_TRACKED_TURNS <? length (order e) then
        match order e with
        | oldest :: rest =>
            evict fuel {| by_engine_session := delete oldest (by_engine_session e); order := rest |}
        | [] => e
        end
      else e
  end.

Definition publish (e : Entries) (engine_session_id : text) (authority : DelegationAuthority)
    (cancel : CancellationToken) : Entries :=
  let entry := {| te_authority := authority; te_cancel := cancel |} in
  let order :=
    match by_engine_session e !! engine_session_id with
    | None => order e ++ [engine_session_id]
    | Some _ => order e
    end in
  let e := {| by_engine_session := <[engine_session_id := entry]> (by_engine_session e);
              order := order |} in
  evict (length order) e.

Definition authority_for_engine_session (e : Entries) (id : text) : option DelegationAuthority :=
  te_authority <$> by_engine_session e !! id.

(** [values().find(..)]: a hash map's values come in no fixed order, so any matching entry's
    token may be returned. *)
Definition parent_turn_token (e : Entries) (giap_session_id : text) (token : CancellationToken) : Prop :=
  ∃ id entry, by_engine_session e !! id = Some entry ∧
    da_session_id (te_authority entry) = giap_session_id ∧ te_cancel entry = token.

Definition tracked_turns (e : Entries) : nat := size (by_engine_session e).

Definition revoke (e : Entries) (engine_session_id : text) : Entries :=
  match by_engine_session e !! engine_session_id with
  | Some _ =>
      {| by_engine_session := delete engine_session_id (by_engine_session e);
         order := List.filter (λ id, negb (bool_decide (id = engine_session_id))) (order e) |}
  | None => e
  end.

(** ** The pond: the registry and the leases held *)

Record Pond := { entries : Entries; leases : list text }.

Inductive turn_event : Type :=
| Publish (id : text) (authority : DelegationAuthority) (cancel : CancellationToken)
| DropLease (id : text).

(** One lease with [id] is dropped. *)
Fixpoint drop_one (id : text) (ls : list text) : option (list text) :=
  match ls with
  | [] => None
  | l :: ls => if bool_decide (l = id) then Some ls else cons l <$> drop_one id ls
  end.

Inductive pond_step : Pond → turn_event → Pond → Prop :=
| pond_publish p id authority cancel :
    pond_step p (Publish id authority cancel)
      {| entries := publish (entries p) id authority cancel; leases := id :: leases p |}
| pond_drop p id leases' :
    drop_one id (leases p) = Some leases' →
    pond_step p (DropLease id) {| entries := revoke (entries p) id; leases := leases' |}.

Inductive pond_run : Pond → list turn_event → Pond → Prop :=
| pond_start : pond_run {| entries := Entries_default; leases := [] |} []
                        {| entries := Entries_default; leases := [] |}
| pond_next p evs q ev r : pond_run p evs q → pond_step q ev r → pond_run p (evs ++ [ev]) r.

(** The authority published last for [id] and not revoked since. *)
Fixpoint last_published (id : text) (evs : list turn_event) : option DelegationAuthority :=
  match evs with
  | [] => None
  | ev :: evs =>
      match last_published id evs with
      | Some a => Some a
      | None =>
          if existsb (λ ev, match ev with DropLease j => bool_decide (j = id) | _ => false end) evs
          then None
          else match ev with
               | Publish j a _ => if bool_decide (j = id) then Some a else None
               | DropLease _ => None
               end
      end
  end.

(** ** Lemmas *)

(** The queue and the map hold the same turns, each once. *)
Record consistent (e : Entries) : Prop := {
  co_nodup : NoDup (order e);
  co_same : ∀ id, id ∈ order e ↔ is_Some (by_engine_session e !! id);
}.

Lemma evict_consistent fuel e :
  consistent e → length (order e) ≤ MAX_TRACKED_TURNS + fuel →
  consistent (evict fuel e) ∧ length (order (evict fuel e)) ≤ MAX_TRACKED_TURNS ∧
  (∀ id, by_engine_session (evict fuel e) !! id = by_engine_session e !! id ∨
         by_engine_session (evict fuel e) !! id = None) ∧
  ∀ id, last (order e) = Some id → by_engine_session (evict fuel e) !! id = by_engine_session e !! id.
Proof.
  revert e. induction fuel as [|fuel IH]; intros e Hc Hlen; simpl.
  { split; [done|]. split; [lia|]. split; [by left|done]. }
  destruct (Nat.ltb_spec MAX_TRACKED_TURNS (length (order e))) as [Hlt|Hle];
    [|split; [done|]; split; [done|]; split; [by left|done]].
  destruct e as [m [|oldest rest]]; simpl in *; [unfold MAX_TRACKED_TURNS in Hlt; lia|].
  destruct Hc as [Hnd Hsame]. simpl in *. apply NoDup_cons in Hnd as [Hn Hnd].
  destruct (IH {| by_engine_session := delete oldest m; order := rest |}) as (H1 & H2 & H3 & H4).
  - constructor; simpl; [done|]. intros id. destruct (decide (id = oldest)) as [->|Hne].
    + rewrite lookup_delete_eq. split; [done|by intros []].
    + rewrite lookup_delete_ne by done. rewrite <-Hsame, elem_of_cons. tauto.
  - simpl. lia.
  - split; [done|]. split; [done|]. split.
    + intros id. simpl in H3. destruct (H3 id) as [->|?]; [|by right].
      destruct (decide (id = oldest)) as [->|]; [right; apply lookup_delete_eq|left; by apply lookup_delete_ne].
    + intros id Hl. simpl in H4. destruct rest as [|r rest]; [simpl in Hlt; unfold MAX_TRACKED_TURNS in Hlt; lia|].
      rewrite (H4 id Hl). apply lookup_delete_ne. intros <-. apply Hn.
      change (last (r :: rest) = Some oldest) in Hl. by apply last_Some_elem_of.
Qed.

Lemma publish_spec e id a c : consistent e → length (order e) ≤ MAX_TRACKED_TURNS →
  consistent (publish e id a c) ∧ length (order (publish e id a c)) ≤ MAX_TRACKED_TURNS ∧
  authority_for_engine_session (publish e id a c) id = Some a ∧
  ∀ j, j ≠ id → by_engine_session (publish e id a c) !! j = by_engine_session e !! j ∨
                by_engine_session (publish e id a c) !! j = None.
Proof.
  intros [Hnd Hsame] Hlen. unfold publish.
  set (entry := {| te_authority := a; te_cancel := c |}).
  set (ord := match by_engine_session e !! id with None => order e ++ [id] | Some _ => order e end).
  assert (consistent {| by_engine_session := <[id:=entry]> (by_engine_session e); order := ord |}) as Hc.
  { unfold ord. constructor; simpl.
    - destruct (by_engine_session e !! id) eqn:E; [done|]. apply NoDup_app. split; [done|].
      split; [|apply NoDup_singleton]. intros x Hx ->%elem_of_one. apply Hsame in Hx.
      rewrite E in Hx. by destruct Hx.
    - intros j. destruct (decide (j = id)) as [->|Hne].
      + rewrite lookup_insert_eq. split; [by eexists|]. intros _.
        destruct (by_engine_session e !! id) eqn:E; [apply Hsame; by rewrite E|].
        apply elem_of_app. right. by apply elem_of_one.
      + rewrite lookup_insert_ne, <-Hsame by done.
        destruct (by_engine_session e !! id); [done|].
        rewrite elem_of_app, elem_of_one. tauto. }
  destruct (evict_consistent (length ord) _ Hc) as (H1 & H2 & H3 & H4); [simpl; lia|].
  simpl in *. split; [done|]. split; [done|]. split.
  - unfold authority_for_engine_session.
    destruct (by_engine_session e !! id) as [old|] eqn:E.
    + assert (evict (length ord) {| by_engine_session := <[id:=entry]> (by_engine_session e); order := ord |}
        = {| by_engine_session := <[id:=entry]> (by_engine_session e); order := ord |}) as ->.
      { unfold ord. destruct (length (order e)) eqn:El; simpl; [done|].
        by rewrite (proj2 (Nat.ltb_ge _ _)) by lia. }
      simpl. by rewrite lookup_insert_eq.
    + rewrite H4; [by rewrite lookup_insert_eq|]. unfold ord. by rewrite last_snoc.
  - intros j Hj. destruct (H3 j) as [->|?]; [left; by apply lookup_insert_ne|by right].
Qed.

Lemma revoke_spec e id : consistent e →
  consistent (revoke e id) ∧ length (order (revoke e id)) ≤ length (order e) ∧
  by_engine_session (revoke e id) !! id = None ∧
  ∀ j, j ≠ id → by_engine_session (revoke e id) !! j = by_engine_session e !! j.
Proof.
  intros [Hnd Hsame]. unfold revoke. destruct (by_engine_session e !! id) eqn:E; [|split; [done|]; split; [lia|]; by split].
  split; [|split; [|split]]; simpl.
  - constructor; simpl.
    + rewrite <-(list_fmap_id (List.filter _ _)). apply NoDup_fmap_filter. by rewrite list_fmap_id.
    + intros j. rewrite elem_of_filter_bool, negb_true_iff, bool_decide_eq_false.
      destruct (decide (j = id)) as [->|].
      * rewrite lookup_delete_eq. split; [tauto|by intros []].
      * rewrite lookup_delete_ne, Hsame by done. tauto.
  - apply length_filter_bool_le.
  - apply lookup_delete_eq.
  - intros j Hj. by apply lookup_delete_ne.
Qed.

Lemma last_published_snoc id evs ev :
  last_published id (evs ++ [ev]) =
  match ev with
  | Publish j a _ => if bool_decide (j = id) then Some a else last_published id evs
  | DropLease j => if bool_decide (j = id) then None else last_published id evs
  end.
Proof.
  induction evs as [|e evs IH].
  { destruct ev; simpl; [done|]. by destruct (bool_decide _). }
  simpl. rewrite IH, existsb_app. simpl.
  destruct ev as [j a c|j]; case_bool_decide as Ej; simpl; rewrite ?orb_false_r, ?orb_true_r; done.
Qed.

Lemma drop_one_spec id ls ls' : drop_one id ls = Some ls' → ∀ j, j ≠ id → j ∈ ls → j ∈ ls'.
Proof.
  revert ls'. induction ls as [|l ls IH]; intros ls' H j Hj Hin; simpl in H; [done|].
  case_bool_decide as E.
  - injection H as <-. apply elem_of_cons in Hin as [->|?]; [congruence|done].
  - apply fmap_Some in H as (ls'' & H & ->). apply elem_of_cons in Hin as [->|?]; [left|right; by eapply IH].
Qed.

(** What holds of a pond after any events. *)
Record pond_inv (evs : list turn_event) (p : Pond) : Prop := {
  pi_consistent : consistent (entries p);
  pi_bounded : length (order (entries p)) ≤ MAX_TRACKED_TURNS;
  pi_leased : ∀ id, is_Some (by_engine_session (entries p) !! id) → id ∈ leases p;
  pi_last : ∀ id a, authority_for_engine_session (entries p) id = Some a →
    last_published id evs = Some a;
}.

Lemma pond_run_inv p evs q : pond_run p evs q → pond_inv evs q.
Proof.
  induction 1 as [|p evs q ev r _ IH Hstep].
  { constructor; simpl; [|unfold MAX_TRACKED_TURNS; lia|by intros id []|done].
    constructor; simpl; [constructor|]. intros id. split; [by intros ?%elem_of_nil|by intros []]. }
  destruct IH as [Hc Hb Hl Hp].
  destruct Hstep as [q id a c|q id ls Hdrop]; simpl in *.
  - destruct (publish_spec (entries q) id a c Hc Hb) as (H1 & H2 & H3 & H4).
    constructor; simpl; [done|done| |].
    + intros j Hj. destruct (decide (j = id)) as [->|Hne]; [left|]. right. apply Hl.
      destruct (H4 j Hne) as [<-|E]; [done|]. rewrite E in Hj. by destruct Hj.
    + intros j b Hj. rewrite last_published_snoc. case_bool_decide as E; [subst; congruence|].
      apply Hp. unfold authority_for_engine_session in *.
      destruct (H4 j ltac:(congruence)) as [<-|E']; [done|]. by rewrite E' in Hj.
  - destruct (revoke_spec (entries q) id Hc) as (H1 & H2 & H3 & H4).
    constructor; simpl; [done|lia| |].
    + intros j Hj. destruct (decide (j = id)) as [->|Hne]; [rewrite H3 in Hj; by destruct Hj|].
      rewrite H4 in Hj by done. eapply drop_one_spec; eauto.
    + intros j b Hj. rewrite last_published_snoc. unfold authority_for_engine_session in *.
      case_bool_decide as E; [subst; by rewrite H3 in Hj|].
      apply Hp. by rewrite H4 in Hj by congruence.
Qed.

Lemma tracked_bounded e : consistent e → tracked_turns e = length (order e).
Proof.
  intros [Hnd Hsame]. unfold tracked_turns. rewrite <-size_dom.
  assert (dom (by_engine_session e) = list_to_set (order e)) as ->.
  { apply set_eq. intros id. rewrite elem_of_dom, elem_of_list_to_set. by rewrite Hsame. }
  by apply size_list_to_set.
Qed.

(** ** Properties *)

(** C36: whatever turns are published and dropped, in whatever order: an authority is only ever
    found while a lease of that turn is held, and it is the one published last for that session
    with no drop since (so a stale one never answers); a turn just published is found; at most 64
    turns are tracked; and dropping a lease leaves that session with no authority and every
    other turn's as it was. *)
Theorem authority_never_outlives_turn p evs q :
  pond_run p evs q →
  (∀ id a, authority_for_engine_session (entries q) id = Some a →
     id ∈ leases q ∧ last_published id evs = Some a) ∧
  tracked_turns (entries q) ≤ MAX_TRACKED_TURNS ∧
  (∀ ev r, pond_step q ev r →
     match ev with
     | Publish id a _ => authority_for_engine_session (entries r) id = Some a
     | DropLease id =>
         authority_for_engine_session (entries r) id = None ∧
         ∀ j, j ≠ id → authority_for_engine_session (entries r) j
                       = authority_for_engine_session (entries q) j
     end).
Proof.
  intros [Hc Hb Hl Hp]%pond_run_inv. split; [|split].
  - intros id a H. split; [|by apply Hp]. apply Hl. unfold authority_for_engine_session in H.
    by apply fmap_Some in H as (e & -> & _).
  - by rewrite tracked_bounded.
  - intros ev r Hs. destruct Hs as [q id a c|q id ls Hdrop]; simpl in *.
    + by destruct (publish_spec (entries q) id a c Hc Hb) as (_ & _ & ? & _).
    + destruct (revoke_spec (entries q) id Hc) as (_ & _ & H3 & H4).
      unfold authority_for_engine_session. rewrite H3. split; [done|].
      intros j Hj. by rewrite H4.
Qed.

Definition two_turns : list turn_event :=
  [Publish (lit "g1") member_turn 1; Publish (lit "g2") member_turn 2; DropLease (lit "g1")].

Definition after_two_turns : Pond :=
  {| entries := revoke (publish (publish Entries_default (lit "g1") member_turn 1)
                          (lit "g2") member_turn 2) (lit "g1");
     leases := [lit "g2"] |}.

Lemma authority_never_outlives_turn_witness :
  authority_for_engine_session (entries after_two_turns) (lit "g2") = Some member_turn ∧
  lit "g2" ∈ leases after_two_turns.
Proof.
  assert (pond_run {| entries := Entries_default; leases := [] |} two_turns after_two_turns) as Hrun.
  { apply (pond_next _ [Publish (lit "g1") member_turn 1; Publish (lit "g2") member_turn 2] _ (DropLease (lit "g1"))
      _ (pond_next _ [Publish (lit "g1") member_turn 1] _ _ _
          (pond_next _ [] _ _ _ pond_start (pond_publish _ _ _ _)) (pond_publish _ _ _ _))).
    apply pond_drop. reflexivity. }
  destruct (authority_never_outlives_turn _ _ _ Hrun) as (H & _ & _).
  assert (authority_for_engine_session (entries after_two_turns) (lit "g2") = Some member_turn) as E
    by reflexivity.
  split; [exact E|]. apply (H _ _ E).
Defined.
