(* ===== verification/Queue.v ===== *)
(** * Queue: the line open long tasks wait in

    [crates/pond-core/src/shared/services/long_task_queue.rs]: [run_order], [reaches],
    [place_of], [waiting_line] and [clip], with [is_activation_task] of
    [services/agent_activations.rs]. A [QueuePlace] holds the tasks it borrows by value. *)
From stdpp Require Import sorting.
From S2P Require Import Prelude Text Scope LongTask.
Local Open Scope N_scope.

(** ** The line *)

Definition ACTIVATION_TASK_ID_PREFIX : text := lit "agent-".
Definition is_activation_task (t : LongTask) : bool :=
  starts_with ACTIVATION_TASK_ID_PREFIX (task_id t).

Definition is_open (t : LongTask) : bool :=
  match task_state t with Planning | Running => true | _ => false end.

Definition line_compare (a b : LongTask) : comparison :=
  then_with (then_with (bool_compare (is_activation_task a) (is_activation_task b))
               (task_created_at a ?= task_created_at b)%Z)
    (text_compare (task_id a) (task_id b)).
Definition not_after : LongTask → LongTask → bool := not_greater line_compare.

Definition run_order (tasks : list LongTask) : list LongTask :=
  sort_with not_after (List.filter is_open tasks).

Definition reaches (viewer : option text) (t : LongTask) : bool :=
  match task_owner t with
  | None => true
  | Some owner => bool_decide (viewer = Some owner)
  end.

Inductive Ahead : Type :=
| Reachable (t : LongTask)
| AnotherMember.

Record QueuePlace := { qp_position : nat; qp_of : nat; qp_ahead : list Ahead }.

Definition is_waiting (p : QueuePlace) : bool := (1 <? qp_position p)%nat.

Definition ahead_of (viewer : option text) (t : LongTask) : Ahead :=
  if reaches viewer t then Reachable t else AnotherMember.

Definition place_of (order : list LongTask) (id : text) (viewer : option text) :
    option QueuePlace :=
  (λ index,
     {| qp_position := index + 1; qp_of := length order;
        qp_ahead := ahead_of viewer <$> take index order |}) <$>
  position (λ t, bool_decide (task_id t = id)) order.

Definition GOAL_CHARS : nat := 80.
Definition clip (goal : text) : text :=
  let goal := join (lit " ") (split_whitespace goal) in
  if (length goal <=? GOAL_CHARS)%nat then goal
  else trim_end (take GOAL_CHARS goal) ++ lit "...".

Definition named (a : Ahead) : option text :=
  match a with
  | Reachable t => Some ([34] ++ clip (task_goal t) ++ [34])
  | AnotherMember => None
  end.

Definition waiting_line (p : QueuePlace) : option text :=
  if negb (is_waiting p) then None else
  let theirs := omap named (qp_ahead p) in
  let others := (length (qp_ahead p) - length theirs)%nat in
  let ahead :=
    (if is_empty theirs then [] else [join (lit ", ") theirs]) ++
    match others with
    | O => []
    | S O => [lit "one task for another member"]
    | n => [dec (N.of_nat n) ++ lit " tasks for other members"]
    end in
  let line :=
    lit "It is number " ++ dec (N.of_nat (qp_position p)) ++ lit " in line, so it starts once " ++
    join (lit " and ") ahead ++ lit " " ++
    (if (length (qp_ahead p) =? 1)%nat then lit "finishes" else lit "finish") ++ lit "." in
  Some (line ++
    if is_empty theirs then lit " Tell the person it waits its turn."
    else lit " Tell the person it waits its turn, and that the task's card in the chat lets them " ++
         lit "stop any of their tasks they no longer need.").

(** ** Lemmas *)

#[export] Instance line_comparator : Comparator line_compare.
Proof. unfold line_compare. apply _. Qed.

Lemma line_compare_id a b : line_compare a b = Eq → task_id a = task_id b.
Proof.
  unfold line_compare, then_with. destruct (bool_compare _ _); try done.
  destruct (_ ?= _)%Z; try done. apply text_compare_eq.
Qed.

Lemma not_after_total a b : not_after a b = true ∨ not_after b a = true.
Proof. apply (not_greater_total line_compare). Qed.
Lemma not_after_trans a b c : not_after a b = true → not_after b c = true → not_after a c = true.
Proof. apply (not_greater_trans line_compare). Qed.


(** The order depends on the tasks alone, not on how a listing gave them. *)
Lemma run_order_perm tasks tasks' :
  tasks ≡ₚ tasks' → NoDup (task_id <$> tasks) → run_order tasks = run_order tasks'.
Proof.
  intros Hp Hnd. unfold run_order.
  apply (StronglySorted_unique_strong not_after).
  - intros a b Ha Hb H1%Is_true_true H2%Is_true_true.
    rewrite elem_of_sort_with in Ha, Hb. apply elem_of_filter_bool in Ha as [Ha _], Hb as [Hb _].
    rewrite <-Hp in Hb. apply (NoDup_fmap_inj_elem task_id tasks); try assumption.
    by apply line_compare_id, not_greater_antisym; [apply _|..].
  - apply sort_with_sorted; [exact not_after_total|exact not_after_trans].
  - apply sort_with_sorted; [exact not_after_total|exact not_after_trans].
  - rewrite !sort_with_perm. by apply filter_bool_perm.
Qed.

(** A change that keeps what the order looks at keeps the order. *)
Lemma run_order_fmap (f : LongTask → LongTask) tasks :
  (∀ t, task_id (f t) = task_id t ∧ task_created_at (f t) = task_created_at t ∧
        is_open (f t) = is_open t) →
  run_order (f <$> tasks) = f <$> run_order tasks.
Proof.
  intros Hf. unfold run_order. rewrite filter_fmap_bool.
  rewrite (filter_ext_elem (λ t, is_open (f t)) is_open) by (intros t _; apply Hf).
  apply sort_with_fmap. intros x y _ _. unfold not_after, not_greater, line_compare, is_activation_task.
  destruct (Hf x) as (-> & -> & _), (Hf y) as (-> & -> & _). done.
Qed.

Lemma position_ext {A} (p q : A → bool) l : (∀ a, p a = q a) → position p l = position q l.
Proof. intros H. induction l as [|a l IH]; [done|]. simpl. by rewrite H, IH. Qed.

(** ** Properties *)

(** There is one line: it holds exactly the open tasks, each once, members' tasks before
    background activations and otherwise in the order they were asked for; it does not depend on
    the order a listing gives them, so no two readers disagree; and a task keeps its place
    whatever methods move it, as long as it stays open. *)
Theorem run_order_is_one_line tasks :
  NoDup (task_id <$> tasks) →
  run_order tasks ≡ₚ List.filter is_open tasks ∧
  StronglySorted not_after (run_order tasks) ∧
  (∀ tasks', tasks ≡ₚ tasks' → run_order tasks' = run_order tasks) ∧
  (∀ f : LongTask → LongTask, (∀ t, star task_step t (f t) ∧ is_open (f t) = is_open t) →
     run_order (f <$> tasks) = f <$> run_order tasks).
Proof.
  intros Hnd. split; [apply sort_with_perm|]. split.
  { apply sort_with_sorted; [exact not_after_total|exact not_after_trans]. }
  split.
  - intros tasks' Hp. symmetry. by apply run_order_perm.
  - intros f Hf. apply run_order_fmap. intros t. destruct (Hf t) as [Hs Ho].
    apply task_star_same in Hs as (H1 & _ & _ & _ & _ & _ & H2). by split.
Qed.

(** Ann's task and Sam's, and one the pond started for the household before them. *)
Definition queued (id : String.string) (owner : option String.string) (goal : String.string) (at_ : Z) :
    LongTask :=
  {| task_id := lit id; task_owner := lit <$> owner;
     task_scope := match owner with Some o => Owner (lit o) | None => Household end;
     task_goal := lit goal; task_origin := None; task_state := Planning; task_budget := budget12;
     task_kind := General; task_answer := Auto; task_created_at := at_; task_updated_at := at_;
     task_finished_at := None |}.
Definition ann_trip : LongTask := queued "t3" (Some "ann"%string) "a packing list" 20.
Definition sam_plumber : LongTask := queued "t2" (Some "sam"%string) "find a plumber" 10.
Definition pond_welcome : LongTask := queued "agent-1" None "welcome them home" 5.
Definition queue3 : list LongTask := [pond_welcome; ann_trip; sam_plumber].

Lemma queue3_nodup : NoDup (task_id <$> queue3).
Proof. apply (bool_decide_unpack _). vm_compute. exact I. Qed.

Lemma run_order_is_one_line_witness :
  run_order queue3 = [sam_plumber; ann_trip; pond_welcome] ∧
  run_order [sam_plumber; ann_trip; pond_welcome] = run_order queue3.
Proof.
  split; [vm_compute; reflexivity|]. apply (run_order_is_one_line queue3 queue3_nodup).
  exact (Permutation_rev queue3).
Defined.

(** Another member's tasks are theirs alone: what a viewer is shown of the line, and what the
    prime is told to say, is the same whatever the goals and every other field of the tasks they
    may not see, as long as those hold their places. A viewer sees a task of theirs or the
    household's, the position counts from one, and one entry stands for each task ahead. *)
Theorem place_keeps_goals_private (f : LongTask → LongTask) tasks id viewer :
  (∀ t, task_id (f t) = task_id t ∧ task_created_at (f t) = task_created_at t ∧
        is_open (f t) = is_open t ∧ reaches viewer (f t) = reaches viewer t ∧
        (reaches viewer t = true → f t = t)) →
  place_of (run_order (f <$> tasks)) id viewer = place_of (run_order tasks) id viewer ∧
  (waiting_line <$> place_of (run_order (f <$> tasks)) id viewer) =
    (waiting_line <$> place_of (run_order tasks) id viewer) ∧
  ∀ p, place_of (run_order tasks) id viewer = Some p →
    (∃ t, run_order tasks !! pred (qp_position p) = Some t ∧ task_id t = id) ∧
    (1 ≤ qp_position p ≤ qp_of p)%nat ∧ length (qp_ahead p) = pred (qp_position p) ∧
    (waiting_line p = None ↔ qp_position p = 1%nat) ∧
    (∀ t, Reachable t ∈ qp_ahead p →
       t ∈ tasks ∧ (task_owner t = None ∨ ∃ o, task_owner t = Some o ∧ viewer = Some o)).
Proof.
  intros Hf.
  assert (place_of (run_order (f <$> tasks)) id viewer = place_of (run_order tasks) id viewer) as E.
  { rewrite run_order_fmap by (intros t; destruct (Hf t) as (? & ? & ? & _); auto).
    unfold place_of. rewrite position_fmap, length_fmap.
    rewrite (position_ext _ (λ t, bool_decide (task_id t = id))) by (intros t; by destruct (Hf t) as [-> _]).
    destruct (position _ _) as [i|]; [|done]. simpl. do 2 f_equal.
    rewrite <-fmap_take, <-list_fmap_compose. apply list_fmap_ext. intros _ t _. unfold ahead_of. simpl.
    destruct (Hf t) as (_ & _ & _ & -> & Hsame). destruct (reaches viewer t) eqn:Er; [|done].
    by rewrite Hsame. }
  split; [exact E|]. split; [by rewrite E|]. intros p Hp. unfold place_of in Hp.
  destruct (position _ _) as [i|] eqn:Ei; [|done]. injection Hp as <-. simpl.
  apply position_Some in Ei as [(t & Ht & Hid%bool_decide_eq_true) _].
  pose proof (lookup_lt_Some _ _ _ Ht) as Hlt. replace (pred (i + 1)) with i by lia.
  split; [by exists t|]. split; [lia|]. split; [rewrite length_fmap, length_take; lia|]. split.
  - unfold waiting_line, is_waiting. simpl. destruct (Nat.ltb_spec 1 (i + 1)); simpl; [|split; [lia|done]].
    split; [done|lia].
  - intros u (v & Hv & Hin)%list_elem_of_fmap. unfold ahead_of in Hv.
    destruct (reaches viewer v) eqn:Er; [|done]. injection Hv as ->.
    assert (v ∈ run_order tasks) as Hr by (by apply elem_of_take in Hin as (j & Hj & _); eapply list_elem_of_lookup_2).
    unfold run_order in Hr. rewrite elem_of_sort_with in Hr. apply elem_of_filter_bool in Hr as [Hr _].
    split; [exact Hr|]. unfold reaches in Er. destruct (task_owner v) as [o|]; [|by left]. right.
    exists o. split; [done|by apply bool_decide_eq_true in Er].
Qed.

(** What another member's task is about, changed. *)
Definition reworded (viewer : option text) (t : LongTask) : LongTask :=
  if reaches viewer t then t else
  {| task_id := task_id t; task_owner := task_owner t; task_scope := task_scope t;
     task_goal := lit "something else"; task_origin := task_origin t; task_state := task_state t;
     task_budget := task_budget t; task_kind := Research; task_answer := Report;
     task_created_at := task_created_at t; task_updated_at := task_updated_at t;
     task_finished_at := task_finished_at t |}.

Lemma place_keeps_goals_private_witness :
  waiting_line <$> place_of (run_order (reworded (Some (lit "ann")) <$> queue3)) (lit "t3") (Some (lit "ann"))
  = Some (Some (lit "It is number 2 in line, so it starts once one task for another member finishes. Tell the person it waits its turn.")).
Proof.
  destruct (place_keeps_goals_private (reworded (Some (lit "ann"))) queue3 (lit "t3") (Some (lit "ann")))
    as (_ & E & _).
  - intros t. unfold reworded. destruct (reaches (Some (lit "ann")) t) eqn:Er; [done|].
    split; [done|]. split; [done|]. split; [done|]. split; [exact Er|done].
  - rewrite E. vm_compute. reflexivity.
Defined.
