(* ===== verification/Lane.v ===== *)
(** * Lane: one lane for the background jobs that spend inference

    [crates/pond-core/src/user_data/services/inference_lane.rs]: [LaneJob], [precedence],
    [select_next], [compaction_quiet] and [embedding_may_run]; and the gate of
    [user_data/services/consolidation_schedule.rs] each job passes first. A [Duration] is its
    nanoseconds as an [N], at most [DURATION_MAX]; an [Instant] or [DateTime] is nanoseconds
    as a [Z]. [Instant::elapsed] reads the clock, whose reading is an argument. *)
From S2P Require Import Prelude Text Scope.
Local Open Scope N_scope.

Definition DURATION_MAX : N := u64_max * 1000000000 + 999999999.

(** ** The gate *)

Inductive SkipReason : Type := Disabled | NoActivitySinceStart | StillActive | IntervalFloor.

#[export] Instance SkipReason_eq_dec : EqDecision SkipReason.
Proof. solve_decision. Defined.

Definition SkipReason_as_str (r : SkipReason) : text :=
  match r with
  | Disabled => lit "disabled"
  | NoActivitySinceStart => lit "no_activity_since_start"
  | StillActive => lit "still_active"
  | IntervalFloor => lit "interval_floor"
  end.

Record GateInputs := {
  gi_enabled : bool;
  gi_saw_activity : bool;
  gi_idle_for : N;
  gi_idle_threshold : N;
  gi_since_last_run : option N;
  gi_interval_floor : N;
}.

Inductive GateDecision : Type := GateRun | GateSkip (reason : SkipReason).

Definition is_run (d : GateDecision) : bool := match d with GateRun => true | GateSkip _ => false end.

Definition should_run (i : GateInputs) : GateDecision :=
  if negb (gi_enabled i) then GateSkip Disabled else
  if negb (gi_saw_activity i) then GateSkip NoActivitySinceStart else
  if gi_idle_for i <? gi_idle_threshold i then GateSkip StillActive else
  match gi_since_last_run i with
  | Some since => if since <? gi_interval_floor i then GateSkip IntervalFloor else GateRun
  | None => GateRun
  end.

Definition saw_activity_since_start (started_at in_process_at started_at_utc : Z)
    (db_activity : option Z) : bool :=
  (started_at <? in_process_at)%Z ||
  match db_activity with Some at_ => (started_at_utc <? at_)%Z | None => false end.

(** [to_std] refuses a negative difference. *)
Definition combined_idle_for (in_process_idle : N) (db_activity : option Z) (now_utc : Z) : N :=
  match db_activity with
  | Some at_ =>
      if (now_utc - at_ <? 0)%Z then in_process_idle
      else N.min in_process_idle (Z.to_N (now_utc - at_))
  | None => in_process_idle
  end.

Definition interval_floor_from_hours (hours : N) : N := from_secs (N.max hours 1 * 3600).

(** ** Jobs *)

Inductive LaneJob : Type :=
| Compaction | Consolidation | Titling | LongTaskStep | ProactiveReview | SummaryRefresh
| MemoryExtraction | SuggestionGeneration.

#[export] Instance LaneJob_eq_dec : EqDecision LaneJob.
Proof. solve_decision. Defined.

Definition LaneJob_ALL : list LaneJob :=
  [Compaction; Consolidation; Titling; LongTaskStep; ProactiveReview; SummaryRefresh;
   MemoryExtraction; SuggestionGeneration].

Definition LaneJob_as_str (j : LaneJob) : text :=
  match j with
  | Compaction => lit "compaction"
  | Consolidation => lit "consolidation"
  | Titling => lit "titling"
  | LongTaskStep => lit "long_task_step"
  | ProactiveReview => lit "proactive_review"
  | SummaryRefresh => lit "summary_refresh"
  | MemoryExtraction => lit "memory_extraction"
  | SuggestionGeneration => lit "suggestion_generation"
  end.

Definition title (j : LaneJob) : text :=
  match j with
  | Compaction => lit "Make room in long conversations"
  | Consolidation => lit "Tidy the memory store"
  | Titling => lit "Name conversations"
  | LongTaskStep => lit "Work on long tasks"
  | ProactiveReview => lit "Look for something to suggest"
  | SummaryRefresh => lit "Refresh conversation summaries"
  | MemoryExtraction => lit "Read conversations for memories"
  | SuggestionGeneration => lit "Think of things to suggest"
  end.

#[export] Instance LaneJob_stored : StoredEnum LaneJob.
Proof.
  refine {| enum_all := LaneJob_ALL; enum_str := LaneJob_as_str |}.
  - abstract stored_enum_complete.
  - abstract stored_enum_inj.
Defined.

Definition from_wire (name : text) : option LaneJob := enum_parse name.

Record JobState := {
  js_job : LaneJob;
  js_enabled : bool;
  js_since_last_run : option N;
  js_interval_floor : N;
  js_idle_threshold : N;
  js_exempt : bool;
}.

Record LaneInputs := {
  li_saw_activity : bool;
  li_idle_for : N;
  li_jobs : list JobState;
  li_asking : option LaneJob;
}.

Inductive LaneDecision : Type := LaneRun (job : LaneJob) | LaneIdle (reason : SkipReason).
Definition decided_job (d : LaneDecision) : option LaneJob :=
  match d with LaneRun job => Some job | LaneIdle _ => None end.

(** ** [select_next] *)

Definition CHORE_PATIENCE : N := from_secs (30 * 60).

Definition starved (s : JobState) : bool :=
  match js_since_last_run s with Some d => CHORE_PATIENCE <=? d | None => false end.

(** [Lt] is [Less]: [a] goes first. *)
Definition precedence (a b : JobState) : comparison :=
  match js_job a, js_job b with
  | Compaction, Compaction => Eq
  | Compaction, _ => Lt
  | _, Compaction => Gt
  | LongTaskStep, LongTaskStep => Eq
  | LongTaskStep, _ => if starved b then Gt else Lt
  | _, LongTaskStep => if starved a then Lt else Gt
  | _, _ => Eq
  end.

Definition reason_rank (r : SkipReason) : N :=
  match r with NoActivitySinceStart => 3 | StillActive => 2 | IntervalFloor => 1 | Disabled => 0 end.
Definition most_informative (a b : SkipReason) : SkipReason :=
  if reason_rank a <? reason_rank b then b else a.

Definition waited (s : JobState) : N := default DURATION_MAX (js_since_last_run s).

Definition gate_of (i : LaneInputs) (s : JobState) : GateDecision :=
  should_run {| gi_enabled := js_enabled s;
                gi_saw_activity := li_saw_activity i || js_exempt s;
                gi_idle_for := li_idle_for i; gi_idle_threshold := js_idle_threshold s;
                gi_since_last_run := js_since_last_run s;
                gi_interval_floor := js_interval_floor s |}.

Definition beats (i : LaneInputs) (s : JobState) (best : option (JobState * N)) : bool :=
  match best with
  | None => true
  | Some (leader, best_waited) =>
      match precedence s leader with
      | Lt => true
      | Gt => false
      | Eq => (best_waited <? waited s) ||
              ((waited s =? best_waited) && bool_decide (li_asking i = Some (js_job s)))
      end
  end.

(** One round of the loop: the best so far, and why jobs were skipped. *)
Definition consider (i : LaneInputs) (acc : option (JobState * N) * option SkipReason)
    (s : JobState) : option (JobState * N) * option SkipReason :=
  let '(best, blocked) := acc in
  match gate_of i s with
  | GateSkip reason =>
      (best, Some match blocked with
                  | None => reason
                  | Some existing => most_informative existing reason
                  end)
  | GateRun => (if beats i s best then Some (s, waited s) else best, blocked)
  end.

Definition select_next (i : LaneInputs) : LaneDecision :=
  match foldl (consider i) (None, None) (li_jobs i) with
  | (Some (s, _), _) => LaneRun (js_job s)
  | (None, blocked) => LaneIdle (default Disabled blocked)
  end.

(** ** Quiet before a compaction, and the embedding slot *)

Definition COMPACTION_QUIET_FOR_ITS_TURN : N := from_secs 5.
Definition COMPACTION_QUIET : N := from_secs 30.
Definition COMPACTION_QUIET_FOR_ANOTHER : N := from_secs 120.
Definition COMPACTION_QUIET_MAX_DOUBLINGS : N := 4.

Definition compaction_quiet (in_use its_turn_compacts : bool) (times_stopped : N) : N :=
  let base :=
    match in_use, its_turn_compacts with
    | true, true => COMPACTION_QUIET_FOR_ITS_TURN
    | true, false => COMPACTION_QUIET
    | false, _ => COMPACTION_QUIET_FOR_ANOTHER
    end in
  base * N.shiftl 1 (N.min times_stopped COMPACTION_QUIET_MAX_DOUBLINGS).

Record EmbedGate := {
  eg_turn_running : bool;
  eg_holder : option LaneJob;
  eg_lane : LaneInputs;
}.

Definition holds_off_embedding (j : LaneJob) : bool :=
  match j with Compaction | LongTaskStep => true | _ => false end.
Definition is_some_and {A} (o : option A) (p : A → bool) : bool :=
  match o with Some a => p a | None => false end.

Definition embedding_may_run (g : EmbedGate) : bool :=
  if eg_turn_running g || is_some_and (eg_holder g) holds_off_embedding then false else
  negb (is_some_and (decided_job (select_next (eg_lane g))) holds_off_embedding).

(** ** Lemmas *)

Section choosing.
Context (i : LaneInputs).

Definition ready (s : JobState) : Prop := gate_of i s = GateRun.
Definition is_chore (s : JobState) : Prop := js_job s ≠ Compaction ∧ js_job s ≠ LongTaskStep.

Definition choose (jobs : list JobState) : option (JobState * N) * option SkipReason :=
  foldl (consider i) (None, None) jobs.

Lemma choose_snoc jobs s : choose (jobs ++ [s]) = consider i (choose jobs) s.
Proof. unfold choose. by rewrite foldl_app. Qed.

(** What the best so far is, of the jobs seen. *)
Record chosen (jobs : list JobState) (best : option (JobState * N)) : Prop := {
  ch_none : best = None ↔ ∀ s, s ∈ jobs → ¬ ready s;
  ch_some : ∀ s w, best = Some (s, w) → s ∈ jobs ∧ ready s ∧ w = waited s;
  ch_compaction : ∀ c s w, c ∈ jobs → ready c → js_job c = Compaction → best = Some (s, w) →
    js_job s = Compaction;
  ch_task : ∀ t s w, t ∈ jobs → ready t → js_job t = LongTaskStep → best = Some (s, w) →
    (∀ u, u ∈ jobs → ready u → is_chore u → starved u = false) →
    js_job s = LongTaskStep ∨ js_job s = Compaction;
  ch_longest : ∀ s w, best = Some (s, w) → (∀ u, u ∈ jobs → ready u → is_chore u) →
    ∀ u, u ∈ jobs → ready u → waited u ≤ w;
  ch_starved : ∀ u s w, u ∈ jobs → ready u → is_chore u → starved u = true →
    best = Some (s, w) → (∀ u, u ∈ jobs → ready u → js_job u ≠ Compaction) →
    (∀ u, u ∈ jobs → ready u → is_chore u → is_Some (js_since_last_run u)) →
    is_chore s ∧ starved s = true;
}.

Lemma starved_waited s : is_Some (js_since_last_run s) →
  starved s = (CHORE_PATIENCE <=? waited s).
Proof. unfold starved, waited. by intros [d ->]. Qed.

Lemma chosen_nil : chosen [] None.
Proof.
  split; try done; try (intros; by match goal with H : _ ∈ [] |- _ => apply elem_of_nil in H end).
  split; [|done]. by intros _ s ?%elem_of_nil.
Qed.

(** A skipped job changes nothing. *)
Lemma chosen_skip jobs best s : chosen jobs best → ¬ ready s → chosen (jobs ++ [s]) best.
Proof.
  intros [H1 H2 H3 H4 H5 H6] Hs.
  assert (∀ u, u ∈ jobs ++ [s] → ready u → u ∈ jobs) as Hin.
  { intros u [?| ->%elem_of_one]%elem_of_app ?; done. }
  assert (∀ u, u ∈ jobs → u ∈ jobs ++ [s]) as Hout by (intros; apply elem_of_app; by left).
  split.
  - rewrite H1. split; intros H u Hu Hr; [by apply (H u); [apply Hin|]|by apply (H u); [apply Hout|]].
  - intros t w Ht. destruct (H2 t w Ht) as (? & ? & ?). auto.
  - intros c t w Hc Hr. by apply H3; [apply Hin|].
  - intros t u w Ht Hr Hj Hb Hn. apply (H4 t u w); auto.
  - intros t w Hb Hn u Hu Hr. apply (H5 t w Hb); auto.
  - intros u t w Hu Hr Hc Hst Hb Hn Hrun. apply (H6 u t w); auto.
Qed.

(** *** Of two ready jobs, the one kept goes first. *)

Definition goes_first (x y : JobState) : Prop :=
  precedence x y = Lt ∨ (precedence x y = Eq ∧ waited y ≤ waited x).

Lemma precedence_antisym a b : precedence b a = CompOpp (precedence a b).
Proof. unfold precedence. destruct (js_job a), (js_job b), (starved a), (starved b); reflexivity. Qed.

Lemma beats_true s b : beats i s (Some (b, waited b)) = true → goes_first s b.
Proof.
  unfold beats, goes_first. destruct (precedence s b); [|by left|done].
  rewrite orb_true_iff, andb_true_iff, N.ltb_lt, N.eqb_eq. intros H. right. split; [done|].
  destruct H as [?|[? _]]; lia.
Qed.

Lemma beats_false s b : beats i s (Some (b, waited b)) = false → goes_first b s.
Proof.
  unfold beats, goes_first. rewrite (precedence_antisym s b). destruct (precedence s b); [|done|by left].
  rewrite orb_false_iff, N.ltb_ge. intros [? _]. by right.
Qed.

Lemma first_compaction x y : goes_first x y → js_job y = Compaction → js_job x = Compaction.
Proof.
  unfold goes_first, precedence. intros H E. rewrite E in H.
  destruct (js_job x); try done; by destruct H as [|[]].
Qed.

Lemma first_task x y : goes_first x y → js_job y = LongTaskStep ∨ js_job y = Compaction →
  (is_chore x → starved x = false) → js_job x = LongTaskStep ∨ js_job x = Compaction.
Proof.
  unfold goes_first, precedence, is_chore. intros H Hy Hx. destruct Hy as [E|E]; rewrite E in H;
    destruct (js_job x); auto; try (by destruct H as [|[]]);
    rewrite Hx in H by done; by destruct H as [|[]].
Qed.

Lemma first_chores x y : goes_first x y → is_chore x → is_chore y → waited y ≤ waited x.
Proof.
  unfold goes_first, precedence, is_chore. intros H [] [].
  destruct (js_job x), (js_job y); try done; by destruct H as [|[]].
Qed.

Lemma first_starved x y : goes_first x y → is_chore y → starved y = true →
  js_job x ≠ Compaction → (is_chore x → is_Some (js_since_last_run x)) →
  is_some_and (js_since_last_run y) (λ _, true) = true → is_chore x ∧ starved x = true.
Proof.
  intros H Hy Hst Hx Hrun Hry.
  assert (is_chore x) as Hc.
  { split; [exact Hx|]. intros E. unfold goes_first, precedence in H. rewrite E, Hst in H.
    destruct Hy. destruct (js_job y); try done; by destruct H as [|[]]. }
  split; [exact Hc|]. pose proof (first_chores x y H Hc Hy) as Hw.
  rewrite starved_waited in Hst by (by destruct (js_since_last_run y)).
  rewrite starved_waited by by apply Hrun.
  apply N.leb_le in Hst. apply N.leb_le. lia.
Qed.

(** Keeping the one that goes first keeps what is said of the best. *)
Lemma chosen_first jobs b s x y :
  chosen jobs (Some (b, waited b)) → ready s → (x = b ∧ y = s ∨ x = s ∧ y = b) → goes_first x y →
  chosen (jobs ++ [s]) (Some (x, waited x)).
Proof.
  intros [H1 H2 H3 H4 H5 H6] Hs Hxy Hf. destruct (H2 b _ eq_refl) as (Hbj & Hbr & _).
  assert (∀ u, u ∈ jobs → u ∈ jobs ++ [s]) as Hout by (intros; apply elem_of_app; by left).
  assert (s ∈ jobs ++ [s]) as Hsin by (apply elem_of_app; right; by apply elem_of_one).
  assert (x ∈ jobs ++ [s] ∧ ready x) as [Hxin Hxr].
  { destruct Hxy as [[-> _]|[-> _]]; [split; [by apply Hout|done]|by split]. }
  split.
  - split; [done|]. intros H. by destruct (H x).
  - intros ? ? [= <- <-]. auto.
  - intros c ? ? Hc Hr Hj [= <- _].
    assert (js_job b = Compaction ∨ js_job s = Compaction) as Hor.
    { apply elem_of_app in Hc as [Hc| ->%elem_of_one]; [left|by right]. by eapply H3. }
    pose proof (first_compaction x y Hf). destruct Hxy as [[-> ->]|[-> ->]], Hor; auto.
  - intros t ? ? Ht Hr Hj [= <- _] Hn.
    assert (∀ u, u = b ∨ u = s → is_chore u → starved u = false) as Hus.
    { intros u [->| ->] Hc; apply Hn; auto. }
    assert ((js_job b = LongTaskStep ∨ js_job b = Compaction) ∨ js_job s = LongTaskStep) as Hor.
    { apply elem_of_app in Ht as [Ht| ->%elem_of_one]; [left|by right].
      apply (H4 t b _ Ht Hr Hj eq_refl). intros u Hu. apply Hn. auto. }
    pose proof (first_task x y Hf) as Hft. destruct Hxy as [[-> ->]|[-> ->]]; destruct Hor; auto.
  - intros ? ? [= <- <-] Hn u Hu Hr.
    assert (waited y ≤ waited x) as Hw.
    { apply first_chores; [exact Hf| |]; destruct Hxy as [[-> ->]|[-> ->]]; apply Hn; auto. }
    assert (u ∈ jobs → waited u ≤ waited b) as Hub.
    { intros Hu'. apply (H5 b (waited b) eq_refl); auto. }
    apply elem_of_app in Hu as [Hu| ->%elem_of_one]; destruct Hxy as [[-> ->]|[-> ->]];
      try specialize (Hub Hu); lia.
  - intros u ? ? Hu Hr Hc Hst [= <- _] Hn Hrun.
    assert (∀ v, v = b ∨ v = s → is_chore v → is_Some (js_since_last_run v)) as Hbs.
    { intros v [->| ->]; apply Hrun; auto. }
    assert (is_chore b ∧ starved b = true ∨ is_chore s ∧ starved s = true) as Hor.
    { apply elem_of_app in Hu as [Hu| ->%elem_of_one]; [left|by right].
      apply (H6 u b _ Hu Hr Hc Hst eq_refl); intros v Hv; [apply Hn|apply Hrun]; auto. }
    assert (∀ v, is_chore v → starved v = true → is_some_and (js_since_last_run v) (λ _, true) = true) as Hsr.
    { intros v _. unfold starved. by destruct (js_since_last_run v). }
    assert (x = b ∨ x = s) as Hx by (destruct Hxy as [[-> _]|[-> _]]; auto).
    assert (is_chore y → starved y = true → is_chore x ∧ starved x = true) as Hyx.
    { intros Hcy Hsy. apply (first_starved x y); auto. }
    destruct Hxy as [[-> ->]|[-> ->]], Hor as [[]|[]]; auto.
Qed.

Lemma chosen_ready jobs best s :
  chosen jobs best → ready s → chosen (jobs ++ [s]) (if beats i s best then Some (s, waited s) else best).
Proof.
  intros H Hs. destruct best as [[b w]|].
  - pose proof H as [_ H2 _ _ _ _]. destruct (H2 b w eq_refl) as (_ & _ & ->).
    destruct (beats i s (Some (b, waited b))) eqn:E.
    + apply (chosen_first jobs b s s b); auto using beats_true.
    + apply (chosen_first jobs b s b s); auto using beats_false.
  - cbn [beats]. pose proof H as [[H1 _] _ _ _ _ _]. specialize (H1 eq_refl).
    assert (∀ u, u ∈ jobs ++ [s] → ready u → u = s) as Hu.
    { intros u [Hu| ->%elem_of_one]%elem_of_app Hr; [by destruct (H1 u Hu)|done]. }
    assert (s ∈ jobs ++ [s]) as Hin by (apply elem_of_app; right; by apply elem_of_one).
    split.
    + split; [done|]. intros Hn. by destruct (Hn s Hin).
    + intros ? ? [= <- <-]. auto.
    + intros c ? ? Hc Hr Hj [= <- _]. by rewrite <-(Hu c Hc Hr).
    + intros t ? ? Ht Hr Hj [= <- _] _. left. by rewrite <-(Hu t Ht Hr).
    + intros ? ? [= <- <-] _ u Hin' Hr. by rewrite (Hu u Hin' Hr).
    + intros u ? ? Hin' Hr Hc Hst [= <- _] _ _. by rewrite <-(Hu u Hin' Hr).
Qed.

Lemma ready_dec s : {ready s} + {∃ r, gate_of i s = GateSkip r}.
Proof. unfold ready. destruct (gate_of i s) as [|r]; [by left|right; by exists r]. Qed.

Lemma choose_chosen jobs : chosen jobs (choose jobs).1.
Proof.
  induction jobs as [|s jobs IH] using rev_ind; [apply chosen_nil|]. rewrite choose_snoc.
  unfold consider. destruct (choose jobs) as [best blocked]. simpl in IH.
  destruct (gate_of i s) as [|r] eqn:E; simpl.
  - by apply chosen_ready.
  - apply chosen_skip; [exact IH|]. unfold ready. by rewrite E.
Qed.

(** Why nothing runs: the reason that says most. *)
Lemma choose_blocked jobs :
  match (choose jobs).2 with
  | None => ∀ s, s ∈ jobs → ready s
  | Some r => (∃ s, s ∈ jobs ∧ gate_of i s = GateSkip r) ∧
              ∀ s r', s ∈ jobs → gate_of i s = GateSkip r' → reason_rank r' ≤ reason_rank r
  end.
Proof.
  induction jobs as [|s jobs IH] using rev_ind; [by intros s ?%elem_of_nil|].
  rewrite choose_snoc. unfold consider. destruct (choose jobs) as [best blocked]. simpl in IH.
  destruct (gate_of i s) as [|r] eqn:E; simpl.
  - destruct blocked as [r|].
    + destruct IH as [(t & Ht & Hr) Hmax]. split.
      * exists t. split; [apply elem_of_app; by left|done].
      * intros u r' [Hu| ->%elem_of_one]%elem_of_app Hg; [by eapply Hmax|congruence].
    + intros u [Hu| ->%elem_of_one]%elem_of_app; [by apply IH|done].
  - destruct blocked as [r0|].
    + destruct IH as [(t & Ht & Hr) Hmax]. unfold most_informative.
      destruct (N.ltb_spec (reason_rank r0) (reason_rank r)).
      * split; [exists s; split; [apply elem_of_app; right; by apply elem_of_one|done]|].
        intros u r' [Hu| ->%elem_of_one]%elem_of_app Hg; [|by replace r' with r by congruence].
        specialize (Hmax u r' Hu Hg). lia.
      * split; [exists t; split; [apply elem_of_app; by left|done]|].
        intros u r' [Hu| ->%elem_of_one]%elem_of_app Hg; [by eapply Hmax|].
        by replace r' with r by congruence.
    + split; [exists s; split; [apply elem_of_app; right; by apply elem_of_one|done]|].
      intros u r' [Hu| ->%elem_of_one]%elem_of_app Hg.
      * specialize (IH u Hu). unfold ready in IH. congruence.
      * by replace r' with r by congruence.
Qed.
End choosing.

Definition chore (s : JobState) : bool := negb (holds_off_embedding (js_job s)).

Lemma chore_true s : chore s = true ↔ is_chore s.
Proof. unfold chore, is_chore. destruct (js_job s); simpl; split; try done; by intros []. Qed.

Lemma is_run_ready i s : is_run (gate_of i s) = true ↔ ready i s.
Proof. unfold ready. by destruct (gate_of i s). Qed.

Lemma doublings_bounds n : 1 ≤ N.shiftl 1 (N.min n COMPACTION_QUIET_MAX_DOUBLINGS) ≤ 16.
Proof.
  rewrite N.shiftl_1_l. split.
  - pose proof (N.pow_nonzero 2 (N.min n COMPACTION_QUIET_MAX_DOUBLINGS)). lia.
  - change 16 with (2 ^ 4). apply N.pow_le_mono_r; [done|]. unfold COMPACTION_QUIET_MAX_DOUBLINGS. lia.
Qed.

(** What the lane picks may run; a compaction that may run comes before the rest; and a chore that
    has waited out its patience keeps a long task back. *)
Lemma select_next_run i job : select_next i = LaneRun job →
  (∃ s, s ∈ li_jobs i ∧ js_job s = job ∧ ready i s) ∧
  (∀ c, c ∈ li_jobs i → ready i c → js_job c = Compaction → job = Compaction).
Proof.
  destruct (choose_chosen i (li_jobs i)) as [_ H2 H3 _ _ _]. unfold select_next.
  change (foldl (consider i) (None, None) (li_jobs i)) with (choose i (li_jobs i)).
  destruct (choose i (li_jobs i)) as [[[s w]|] blocked]; simpl in *; [|done]. intros [= <-]. split.
  - destruct (H2 s w eq_refl) as (? & ? & _). by exists s.
  - intros c Hc Hr Hj. by apply (H3 c s w).
Qed.

Lemma select_next_starved i u : u ∈ li_jobs i → ready i u → is_chore u → starved u = true →
  (∀ v, v ∈ li_jobs i → ready i v → js_job v ≠ Compaction) →
  (∀ v, v ∈ li_jobs i → ready i v → is_chore v → is_Some (js_since_last_run v)) →
  select_next i ≠ LaneRun LongTaskStep.
Proof.
  intros Hu Hr Hc Hst Hn Hrun. destruct (choose_chosen i (li_jobs i)) as [_ _ _ _ _ H6]. unfold select_next.
  change (foldl (consider i) (None, None) (li_jobs i)) with (choose i (li_jobs i)).
  destruct (choose i (li_jobs i)) as [[[s w]|] blocked]; simpl in *; [|done]. intros [= E].
  by destruct (H6 u s w Hu Hr Hc Hst eq_refl Hn Hrun) as [[_ ?] _].
Qed.

(** ** Properties *)

(** The lane runs at most one job, one that passed its own gate, and idles only when none
    passed, giving the reason that says most. A compaction that may run runs. Without one, a
    member's long task goes before every chore that has not waited out its patience; a chore
    that has goes before it, when every chore that may run has run before; and chores among
    themselves go by who has waited longest. *)
Theorem select_next_correct i :
  match select_next i with
  | LaneRun job => ∃ s, s ∈ li_jobs i ∧ js_job s = job ∧ ready i s
  | LaneIdle r =>
      (∀ s, s ∈ li_jobs i → ¬ ready i s) ∧
      (li_jobs i = [] ∧ r = Disabled ∨
       (∃ s, s ∈ li_jobs i ∧ gate_of i s = GateSkip r) ∧
       ∀ s r', s ∈ li_jobs i → gate_of i s = GateSkip r' → reason_rank r' ≤ reason_rank r)
  end ∧
  (∀ c, c ∈ li_jobs i → ready i c → js_job c = Compaction → select_next i = LaneRun Compaction) ∧
  ((∀ c, c ∈ li_jobs i → ready i c → js_job c ≠ Compaction) →
   (∀ t, t ∈ li_jobs i → ready i t → js_job t = LongTaskStep →
      (∀ u, u ∈ li_jobs i → ready i u → is_chore u → starved u = false) →
      select_next i = LaneRun LongTaskStep) ∧
   (∀ u, u ∈ li_jobs i → ready i u → is_chore u → starved u = true →
      (∀ v, v ∈ li_jobs i → ready i v → is_chore v → is_Some (js_since_last_run v)) →
      ∃ s, s ∈ li_jobs i ∧ select_next i = LaneRun (js_job s) ∧ is_chore s ∧ starved s = true)) ∧
  ((∀ u, u ∈ li_jobs i → ready i u → is_chore u) → (∃ u, u ∈ li_jobs i ∧ ready i u) →
   ∃ s, s ∈ li_jobs i ∧ ready i s ∧ select_next i = LaneRun (js_job s) ∧
     ∀ u, u ∈ li_jobs i → ready i u → waited u ≤ waited s).
Proof.
  destruct (choose_chosen i (li_jobs i)) as [H1 H2 H3 H4 H5 H6].
  pose proof (choose_blocked i (li_jobs i)) as Hb. unfold select_next.
  change (foldl (consider i) (None, None) (li_jobs i)) with (choose i (li_jobs i)).
  destruct (choose i (li_jobs i)) as [[[s w]|] blocked]; simpl in *.
  - destruct (H2 s w eq_refl) as (Hin & Hr & ->). split; [by exists s|]. split.
    { intros c Hc Hcr Hj. by rewrite (H3 c s _ Hc Hcr Hj eq_refl). }
    split; [intros Hn; split|].
    + intros t Ht Htr Hj Hst. destruct (H4 t s _ Ht Htr Hj eq_refl Hst) as [->|E]; [done|].
      by destruct (Hn s).
    + intros u Hu Hur Hc Hst Hrun. destruct (H6 u s _ Hu Hur Hc Hst eq_refl Hn Hrun). by exists s.
    + intros Hc _. exists s. split; [done|]. split; [done|]. split; [done|]. by apply (H5 s _ eq_refl).
  - destruct H1 as [H1 _]. specialize (H1 eq_refl). split.
    { split; [exact H1|]. destruct blocked as [r|]; [by right|]. left. split; [|done].
      destruct (li_jobs i) as [|s jobs]; [done|]. destruct (H1 s); [left|apply Hb; left]. }
    split; [intros c Hc Hr; by destruct (H1 c)|]. split.
    + intros _. split; intros u Hu Hr; by destruct (H1 u).
    + intros _ (u & Hu & Hr). by destruct (H1 u).
Qed.

(** A lane on which a consolidation has waited [d], titling has not run since start and a long
    task has a step to run. *)
Definition lane_job (j : LaneJob) (since : option N) : JobState :=
  {| js_job := j; js_enabled := true; js_since_last_run := since;
     js_interval_floor := from_secs 60; js_idle_threshold := from_secs 30; js_exempt := false |}.
Definition busy_lane (titled : option N) (d : N) : LaneInputs :=
  {| li_saw_activity := true; li_idle_for := from_secs 600;
     li_jobs := [lane_job Consolidation (Some d); lane_job Titling titled;
                 lane_job LongTaskStep (Some (from_secs 60))];
     li_asking := None |}.

(** The patience of a chore has a hole: one that has not run since start hides a starved one.
    However long a consolidation has waited, if titling has never run the long task goes first,
    every tick; had titling run at any time, the consolidation would. The comment on [precedence]
    says a long line of tasks never starves a chore that has waited out its patience. *)
Theorem never_run_chore_hides_starved d t :
  CHORE_PATIENCE ≤ d → d < DURATION_MAX → from_secs 60 ≤ t → t < d →
  select_next (busy_lane None d) = LaneRun LongTaskStep ∧
  select_next (busy_lane (Some t) d) = LaneRun Consolidation.
Proof.
  intros Hp Hd Ht Htd.
  assert (from_secs 60 ≤ d) as Hf by (unfold CHORE_PATIENCE, from_secs in *; lia).
  unfold select_next, busy_lane, consider, gate_of, should_run, beats, precedence, starved, waited.
  cbn -[N.ltb N.leb N.eqb from_secs CHORE_PATIENCE DURATION_MAX].
  rewrite (proj2 (N.ltb_ge d (from_secs 60))) by exact Hf.
  rewrite (proj2 (N.ltb_ge t (from_secs 60))) by exact Ht.
  change (from_secs 600 <? from_secs 30) with false. change (from_secs 60 <? from_secs 60) with false.
  cbn -[N.ltb N.leb N.eqb from_secs CHORE_PATIENCE DURATION_MAX].
  split.
  - rewrite (proj2 (N.ltb_lt d DURATION_MAX)) by exact Hd. reflexivity.
  - rewrite (proj2 (N.ltb_ge d t)) by lia. rewrite (proj2 (N.eqb_neq t d)) by lia.
    cbn -[N.ltb N.leb N.eqb from_secs CHORE_PATIENCE DURATION_MAX].
    rewrite (proj2 (N.leb_le CHORE_PATIENCE d)) by exact Hp. reflexivity.
Qed.

Lemma never_run_chore_hides_starved_witness :
  select_next (busy_lane None (from_secs 86400)) = LaneRun LongTaskStep ∧
  select_next (busy_lane (Some (from_secs 3600)) (from_secs 86400)) = LaneRun Consolidation.
Proof. apply never_run_chore_hides_starved; vm_compute; try discriminate; reflexivity. Defined.

(** Embedding never runs beside what the household waits on: not beside a turn, nor a
    compaction or a long task's step holding the slot; not while a compaction may run; and while
    a long task's step may run, only if a chore that has waited out its patience goes first. *)
Theorem embedding_keeps_away g :
  embedding_may_run g = true →
  eg_turn_running g = false ∧ eg_holder g ≠ Some Compaction ∧ eg_holder g ≠ Some LongTaskStep ∧
  ∀ s, s ∈ li_jobs (eg_lane g) → ready (eg_lane g) s →
    js_job s ≠ Compaction ∧
    (js_job s = LongTaskStep →
     ∃ u, u ∈ li_jobs (eg_lane g) ∧ ready (eg_lane g) u ∧ is_chore u ∧ starved u = true).
Proof.
  unfold embedding_may_run. destruct (eg_turn_running g); [done|]. cbn [orb].
  destruct (is_some_and (eg_holder g) holds_off_embedding) eqn:Eh; [done|]. intros Hn%negb_true_iff.
  split; [done|]. split; [by intros E; rewrite E in Eh|]. split; [by intros E; rewrite E in Eh|].
  destruct (choose_chosen (eg_lane g) (li_jobs (eg_lane g))) as [H1 _ H3 H4 _ _].
  unfold select_next in Hn.
  change (foldl _ _ _) with (choose (eg_lane g) (li_jobs (eg_lane g))) in Hn.
  destruct (choose (eg_lane g) (li_jobs (eg_lane g))) as [[[b w]|] blocked]; simpl in *; cycle 1.
  { destruct H1 as [H1 _]. intros s Hs Hr. by destruct (H1 eq_refl s Hs). }
  intros s Hs Hr. assert (js_job s ≠ Compaction) as Hc.
  { intros E. by rewrite (H3 s b w Hs Hr E eq_refl) in Hn. }
  split; [exact Hc|]. intros E.
  destruct (existsb (λ u, is_run (gate_of (eg_lane g) u) && chore u && starved u) (li_jobs (eg_lane g))) eqn:Ex.
  - apply existsb_elem_of in Ex as (u & Hu & H). rewrite !andb_true_iff in H.
    destruct H as [[Hg Hch] Hst]. exists u. split; [exact Hu|]. split; [by apply is_run_ready|].
    split; [by apply chore_true|exact Hst].
  - exfalso. destruct (H4 s b w Hs Hr E eq_refl) as [E'|E']; [|by rewrite E' in Hn..].
    intros u Hu Hru Hch. apply not_true_iff_false. intros Hst. apply not_true_iff_false in Ex. apply Ex.
    apply existsb_elem_of. exists u. split; [exact Hu|]. rewrite !andb_true_iff.
    split; [split; [by rewrite Hru|by apply chore_true]|exact Hst].
Qed.

Definition quiet_gate : EmbedGate :=
  {| eg_turn_running := false; eg_holder := Some Titling;
     eg_lane := busy_lane (Some (from_secs 3600)) (from_secs 86400) |}.
Lemma embedding_keeps_away_witness :
  embedding_may_run quiet_gate = true ∧ eg_holder quiet_gate ≠ Some LongTaskStep.
Proof.
  assert (embedding_may_run quiet_gate = true) as H by (vm_compute; reflexivity).
  split; [exact H|]. apply (embedding_keeps_away quiet_gate H).
Defined.

(** How quiet it must be before a compaction is from five seconds to 32 minutes, never less for
    a pass that was stopped more often, and longest for a conversation not in use. *)
Theorem compaction_quiet_bounds in_use its_turn n :
  from_secs 5 ≤ compaction_quiet in_use its_turn n ≤ from_secs 1920 ∧
  (∀ m, n ≤ m → compaction_quiet in_use its_turn n ≤ compaction_quiet in_use its_turn m) ∧
  compaction_quiet in_use its_turn n ≤ compaction_quiet false its_turn n ∧
  compaction_quiet in_use true n ≤ compaction_quiet in_use its_turn n.
Proof.
  unfold compaction_quiet. pose proof (doublings_bounds n) as Hn. split; [|split; [|split]].
  - destruct in_use, its_turn; unfold from_secs, COMPACTION_QUIET_FOR_ITS_TURN, COMPACTION_QUIET,
      COMPACTION_QUIET_FOR_ANOTHER, from_secs in *; lia.
  - intros m Hm. apply N.mul_le_mono_l. rewrite !N.shiftl_1_l. apply N.pow_le_mono_r; [done|]. lia.
  - apply N.mul_le_mono_r. by destruct in_use, its_turn.
  - apply N.mul_le_mono_r. by destruct in_use, its_turn.
Qed.
