(* ===== verification/Activity.v ===== *)
(** * Activity: whether somebody is using the pond, and who is there

    crates/pond-core/src/shared/domain/session_activity.rs: [ActivityObserver] tells of new
    conversations and of the pond falling quiet and being used again, [PresenceObserver] of
    members arriving and leaving, both folded over polls of the session store by the loop of
    pond-server (run_session_activity_observer). Instants are [Z] nanoseconds, durations [N]. *)
From S2P Require Import Prelude Text Scope Lane.
From Stdlib Require Import NArith ZArith Lia.
Open Scope N_scope.

(** What the observers read of a session. *)
Record Session := {
  se_id : text; se_profile_id : option text; se_created_at : Z; se_updated_at : Z }.

Inductive SessionPhase : Type := Started | Idle | Resumed.

Definition POND_AUTHORED_SESSION_PREFIXES : list text := [lit "sched-"].

Inductive SessionOrigin : Type := Human | Machine.
Definition origin_of (session_id : text) : SessionOrigin :=
  if existsb (λ prefix, starts_with prefix session_id) POND_AUTHORED_SESSION_PREFIXES
  then Machine else Human.
Definition is_human (o : SessionOrigin) : bool := match o with Human => true | Machine => false end.

Record SessionLifecycle := {
  sl_phase : SessionPhase; sl_session_id : option text; sl_at : Z; sl_idle_secs : N }.

Record SessionStart := { ss_id : text; ss_created_at : Z; ss_origin : SessionOrigin }.
Definition start_of (s : Session) : SessionStart :=
  {| ss_id := se_id s; ss_created_at := se_created_at s; ss_origin := origin_of (se_id s) |}.

Record HumanActivity := { ha_starts : list SessionStart; ha_newest_activity : option Z }.

(** [Option<DateTime>::max]. *)
Definition later (a : option Z) (b : Z) : option Z :=
  match a with Some a => Some (Z.max a b) | None => Some b end.

Definition human_activity (sessions : list Session) : HumanActivity :=
  foldl (λ acc s,
    if negb (is_human (origin_of (se_id s))) then acc else
    {| ha_starts := ha_starts acc ++ [start_of s];
       ha_newest_activity := later (ha_newest_activity acc) (se_updated_at s) |})
  {| ha_starts := []; ha_newest_activity := None |} sessions.

Record ActivityInputs := {
  ai_saw_activity_since_start : bool; ai_idle_for : N; ai_idle_threshold : N; ai_now : Z }.

(** The clocks of a poll; [pc_in_process_idle] is what [in_process_at.elapsed()] answers. *)
Record PollClock := {
  pc_started_at : Z; pc_started_at_utc : Z; pc_in_process_at : Z; pc_in_process_idle : N;
  pc_now : Z; pc_idle_threshold : N }.

Definition poll_inputs (sessions : list Session) (clock : PollClock) : ActivityInputs :=
  let db_activity := ha_newest_activity (human_activity sessions) in
  {| ai_saw_activity_since_start :=
       saw_activity_since_start (pc_started_at clock) (pc_in_process_at clock) (pc_started_at_utc clock) db_activity;
     ai_idle_for := combined_idle_for (pc_in_process_idle clock) db_activity (pc_now clock);
     ai_idle_threshold := pc_idle_threshold clock;
     ai_now := pc_now clock |}.

Inductive Observed : Type := ObservedActive | ObservedIdle.

Record ActivityObserver := { ao_phase : option Observed; ao_known : option (gset text) }.

Definition awaiting_baseline : ActivityObserver := {| ao_phase := None; ao_known := None |}.
Definition seeded_from {E : Type} (sessions : result (list Session) E) : ActivityObserver :=
  match sessions with
  | Ok sessions => {| ao_phase := None; ao_known := Some (list_to_set (se_id <$> sessions)) |}
  | Err _ => awaiting_baseline
  end.

Definition created_le (a b : SessionStart) : bool := bool_decide (ss_created_at a ≤ ss_created_at b)%Z.

(** The first half of [observe]: the conversations announced, and the observer that knows them. *)
Definition announce (o : ActivityObserver) (sessions : list SessionStart) (i : ActivityInputs) :
    list SessionLifecycle * ActivityObserver :=
  let taking_baseline := bool_decide (ao_known o = None) in
  let known := default ∅ (ao_known o) in
  let fresh := sort_with created_le
    (List.filter (λ s, is_human (ss_origin s) && negb (bool_decide (ss_id s ∈ known))) sessions) in
  let out := if taking_baseline then [] else
    (λ s, {| sl_phase := Started; sl_session_id := Some (ss_id s); sl_at := ai_now i;
             sl_idle_secs := as_secs (ai_idle_for i) |}) <$> fresh in
  (out, {| ao_phase := if is_empty out then ao_phase o else Some ObservedActive;
           ao_known := Some (list_to_set (ss_id <$> fresh) ∪ known) |}).

(** The second: the edge of the activity clock. *)
Definition clock_edge (phase : option Observed) (i : ActivityInputs) : list SessionLifecycle * option Observed :=
  let event p := [{| sl_phase := p; sl_session_id := None; sl_at := ai_now i;
                     sl_idle_secs := as_secs (ai_idle_for i) |}] in
  if negb (ai_saw_activity_since_start i) then ([], phase) else
  let quiet := ai_idle_threshold i <=? ai_idle_for i in
  match phase, quiet with
  | None, _ => ([], Some (if quiet then ObservedIdle else ObservedActive))
  | Some ObservedActive, true => (event Idle, Some ObservedIdle)
  | Some ObservedIdle, false => (event Resumed, Some ObservedActive)
  | _, _ => ([], phase)
  end.

Definition observe (o : ActivityObserver) (sessions : list SessionStart) (i : ActivityInputs) :
    list SessionLifecycle * ActivityObserver :=
  let '(out, o) := announce o sessions i in
  let '(edge, phase) := clock_edge (ao_phase o) i in
  (out ++ edge, {| ao_phase := phase; ao_known := ao_known o |}).

Definition poll (o : ActivityObserver) (sessions : list Session) (clock : PollClock) :
    list SessionLifecycle * ActivityObserver :=
  observe o (ha_starts (human_activity sessions)) (poll_inputs sessions clock).

(** ** Presence *)

Inductive PresenceTransition : Type := Arrived | Departed.

Record ProfilePresence := {
  pp_profile_id : text; pp_transition : PresenceTransition; pp_source : IdentificationSource;
  pp_confidence : option N; pp_session_id : text; pp_at : Z }.

Record PresenceEvidence := {
  pe_session_id : text; pe_origin : SessionOrigin; pe_last_activity : Z; pe_identity : SessionIdentity }.

(** [num_seconds] truncates towards zero. *)
Definition is_fresh (last_activity : Z) (window : N) (now : Z) : bool :=
  let secs := as_secs window in
  let window := if bool_decide (Z.of_N secs ≤ i64_max)%Z then Z.of_N secs else i64_max in
  bool_decide (Z.quot (now - last_activity) 1000000000 < window)%Z.

Definition last_spoken_at (s : Session) : Z := se_updated_at s.

Definition evidence_of (s : Session) (identity : SessionIdentity) : PresenceEvidence :=
  {| pe_session_id := se_id s; pe_origin := origin_of (se_id s); pe_last_activity := last_spoken_at s;
     pe_identity := identity |}.

Definition INACTIVITY_THRESHOLD_SECS : N := 15 * 60.
Definition PRESENCE_WINDOW : N := from_secs INACTIVITY_THRESHOLD_SECS.

Definition attribution_candidates (sessions : list Session) (now : Z) : list Session :=
  List.filter (λ s, is_fresh (last_spoken_at s) PRESENCE_WINDOW now)
    (List.filter (λ s, bool_decide (is_Some (se_profile_id s)))
      (List.filter (λ s, is_human (origin_of (se_id s))) sessions)).

Definition household_has_multiple_members {T E : Type} (profiles : result (list T) E) : bool :=
  match profiles with Ok members => (1 <? length members)%nat | Err _ => true end.

Record PresenceInputs := {
  pi_sessions : list PresenceEvidence; pi_household_has_multiple_members : bool;
  pi_presence_window : N; pi_now : Z }.

Definition inputs_for_poll (sessions : list PresenceEvidence) (several : bool) (now : Z) : PresenceInputs :=
  {| pi_sessions := sessions; pi_household_has_multiple_members := several;
     pi_presence_window := PRESENCE_WINDOW; pi_now := now |}.

Record Believed := {
  be_source : IdentificationSource; be_confidence : option N; be_session_id : text; be_last_activity : Z }.

Definition beats (self held : Believed) : bool :=
  match rank (be_source self) ?= rank (be_source held) with
  | Lt => true
  | Gt => false
  | Eq => bool_decide (be_last_activity held < be_last_activity self)%Z
  end.

Definition transition (b : Believed) (profile_id : text) (t : PresenceTransition) (at_ : Z) : ProfilePresence :=
  {| pp_profile_id := profile_id; pp_transition := t; pp_source := be_source b;
     pp_confidence := be_confidence b; pp_session_id := be_session_id b; pp_at := at_ |}.

(** Whom one row of evidence names, if it counts. *)
Definition names (i : PresenceInputs) (e : PresenceEvidence) : option (text * Believed) :=
  if negb (is_human (pe_origin e)) then None else
  if negb (is_fresh (pe_last_activity e) (pi_presence_window i) (pi_now i)) then None else
  let resolved := resolve {| ri_paired_device_profile := None; ri_session := pe_identity e;
                             ri_household_has_multiple_members := pi_household_has_multiple_members i |} in
  match rid_scope resolved with
  | Owner profile_id =>
      if is_empty (trim profile_id) then None else
      Some (profile_id, {| be_source := rid_source resolved; be_confidence := si_confidence (pe_identity e);
                           be_session_id := pe_session_id e; be_last_activity := pe_last_activity e |})
  | Household | Guest => None
  end.

Definition hold (present : gmap text Believed) (candidate : text * Believed) : gmap text Believed :=
  match present !! candidate.1 with
  | None => <[candidate.1 := candidate.2]> present
  | Some held => if beats candidate.2 held then <[candidate.1 := candidate.2]> present else present
  end.

Definition present_members (i : PresenceInputs) : gmap text Believed :=
  foldl (λ present e, match names i e with Some c => hold present c | None => present end) ∅ (pi_sessions i).

(** A [BTreeMap] is walked in the order of its keys. *)
Definition entries (m : gmap text Believed) : list (text * Believed) :=
  sort_with (λ a b, not_greater text_compare a.1 b.1) (map_to_list m).

(** [PresenceObserver]: what is believed, [None] before the first poll. *)
Definition presence_observe (believed : option (gmap text Believed)) (i : PresenceInputs) :
    list ProfilePresence * option (gmap text Believed) :=
  let present := present_members i in
  match believed with
  | None => ([], Some present)
  | Some previous =>
      (((λ p, transition p.2 p.1 Arrived (pi_now i)) <$>
          List.filter (λ p, negb (bool_decide (is_Some (previous !! p.1)))) (entries present)) ++
       ((λ p, transition p.2 p.1 Departed (pi_now i)) <$>
          List.filter (λ p, negb (bool_decide (is_Some (present !! p.1)))) (entries previous)),
       Some present)
  end.

Definition observe_read {E : Type} (believed : option (gmap text Believed)) (read : result PresenceInputs E) :
    list ProfilePresence * option (gmap text Believed) :=
  match read with Ok i => presence_observe believed i | Err _ => ([], believed) end.

(** ** The loop *)

(** What one round of the loop reads: the sessions, the identities of the candidates, the
    household's members. A round whose sessions cannot be read folds nothing in. *)
Record Round := {
  ro_sessions : result (list Session) text;
  ro_identity : text → result SessionIdentity text;
  ro_profiles : result (list text) text;
  ro_clock : PollClock }.

Definition identities (f : text → result SessionIdentity text) (sessions : list Session) :
    result (list PresenceEvidence) text :=
  traverse (λ s, result_map (evidence_of s) (f (se_id s))) sessions.

Definition presence_read (r : Round) (sessions : list Session) : result PresenceInputs text :=
  result_map
    (λ evidence, inputs_for_poll evidence (household_has_multiple_members (ro_profiles r)) (pc_now (ro_clock r)))
    (identities (ro_identity r) (attribution_candidates sessions (pc_now (ro_clock r)))).

Definition observer_round (s : ActivityObserver * option (gmap text Believed)) (r : Round) :
    list SessionLifecycle * list ProfilePresence * (ActivityObserver * option (gmap text Believed)) :=
  match ro_sessions r with
  | Err _ => ([], [], s)
  | Ok sessions =>
      let '(lifecycle, o) := poll s.1 sessions (ro_clock r) in
      let '(edges, believed) := observe_read s.2 (presence_read r sessions) in
      (lifecycle, edges, (o, believed))
  end.

(** ** Lemmas: what a poll reads *)

Definition human_sessions (sessions : list Session) : list Session :=
  List.filter (λ s, is_human (origin_of (se_id s))) sessions.
Definition human_ids (sessions : list Session) : list text := se_id <$> human_sessions sessions.

Lemma human_activity_starts sessions :
  ha_starts (human_activity sessions) = start_of <$> human_sessions sessions.
Proof.
  unfold human_activity, human_sessions. induction sessions as [|s sessions IH] using rev_ind; [done|].
  rewrite foldl_snoc, List.filter_app. cbn [List.filter].
  destruct (is_human (origin_of (se_id s))); cbn [negb].
  - cbn [ha_starts]. by rewrite IH, fmap_app.
  - by rewrite IH, app_nil_r.
Qed.

(** ** Conversations are announced once *)

Definition Poll : Type := list Session * PollClock.

Fixpoint poll_all (o : ActivityObserver) (polls : list Poll) : list (list SessionLifecycle) * ActivityObserver :=
  match polls with
  | [] => ([], o)
  | p :: polls =>
      let '(out, o) := poll o p.1 p.2 in
      let '(outs, o) := poll_all o polls in (out :: outs, o)
  end.

Lemma poll_all_snoc o polls p :
  poll_all o (polls ++ [p]) =
    let '(outs, o) := poll_all o polls in let '(out, o) := poll o p.1 p.2 in (outs ++ [out], o).
Proof.
  revert o. induction polls as [|q polls IH]; intros o; cbn [poll_all app]; [done|].
  destruct (poll o q.1 q.2) as [out o1]. rewrite IH. destruct (poll_all o1 polls) as [outs o2].
  by destruct (poll o2 p.1 p.2).
Qed.

Definition started_ids (events : list SessionLifecycle) : list text :=
  omap (λ e, match sl_phase e with Started => sl_session_id e | _ => None end) events.

Definition fresh_in (known : gset text) (sessions : list Session) : list SessionStart :=
  sort_with created_le
    (List.filter (λ s, is_human (ss_origin s) && negb (bool_decide (ss_id s ∈ known)))
       (start_of <$> human_sessions sessions)).

Lemma fresh_in_ids known sessions :
  ss_id <$> fresh_in known sessions ≡ₚ List.filter (λ id, negb (bool_decide (id ∈ known))) (human_ids sessions).
Proof.
  unfold fresh_in, human_ids. rewrite sort_with_perm, filter_fmap_bool, <-list_fmap_compose, filter_fmap_bool.
  unfold human_sessions. rewrite !filter_andb.
  rewrite (filter_ext_elem _ (λ s, is_human (origin_of (se_id s)) && negb (bool_decide (se_id s ∈ known))));
    [done|]. intros s _. simpl. by destruct (is_human (origin_of (se_id s))).
Qed.

Lemma clock_edge_started phase i : started_ids (clock_edge phase i).1 = [].
Proof.
  unfold clock_edge. destruct (ai_saw_activity_since_start i); [|done]. simpl.
  by destruct phase as [[]|], (ai_idle_threshold i <=? ai_idle_for i).
Qed.

Lemma started_ids_app a b : started_ids (a ++ b) = started_ids a ++ started_ids b.
Proof. apply omap_app. Qed.

(** What a poll announces, and what it knows afterwards. *)
Lemma poll_announces o sessions clock :
  let fresh := fresh_in (default ∅ (ao_known o)) sessions in
  started_ids (poll o sessions clock).1 = (if bool_decide (ao_known o = None) then [] else ss_id <$> fresh) ∧
  ao_known (poll o sessions clock).2 = Some (list_to_set (ss_id <$> fresh) ∪ default ∅ (ao_known o)).
Proof.
  intros fresh. unfold poll, observe, announce. rewrite human_activity_starts. fold (fresh_in (default ∅ (ao_known o)) sessions).
  fold fresh. cbn [ao_phase ao_known].
  set (phase := if is_empty _ then _ else _).
  pose proof (clock_edge_started phase (poll_inputs sessions clock)) as He.
  destruct (clock_edge phase (poll_inputs sessions clock)) as [edge phase']. cbn [fst snd ao_known] in *.
  split; [|done]. rewrite started_ids_app, He, app_nil_r. case_bool_decide; [done|].
  unfold started_ids. clear. induction fresh as [|s l IH]; [done|]. rewrite !fmap_cons. simpl. f_equal. exact IH.
Qed.

(** What was known before a poll: the seed, and the conversations of the polls so far. *)
Definition already {E} (seed : result (list Session) E) (polls : list Poll) (id : text) : Prop :=
  (∃ l, seed = Ok l ∧ id ∈ se_id <$> l) ∨ ∃ p, p ∈ polls ∧ id ∈ human_ids p.1.

Lemma poll_all_knows {E} (seed : result (list Session) E) polls :
  let o := (poll_all (seeded_from seed) polls).2 in
  (ao_known o = None ↔ is_ok seed = false ∧ polls = []) ∧
  ∀ id, id ∈ default ∅ (ao_known o) ↔ already seed polls id.
Proof.
  unfold already. induction polls as [|p polls IH] using rev_ind; cbv zeta in *.
  - destruct seed as [l|e]; simpl.
    + split; [split; [done|by intros []]|]. intros id. rewrite elem_of_list_to_set. split.
      * intros H. left. eauto.
      * intros [(l' & [= <-] & H)|(p & ?%elem_of_nil & _)]; done.
    + split; [done|]. intros id. split; [set_solver|]. intros [(l & [=] & _)|(p & ?%elem_of_nil & _)]; done.
  - rewrite poll_all_snoc. destruct (poll_all (seeded_from seed) polls) as [outs o]. cbn [snd] in IH.
    destruct IH as [_ IH]. pose proof (poll_announces o p.1 p.2) as [_ Hk]. cbv zeta in Hk.
    destruct (poll o p.1 p.2) as [out o']. cbn [snd] in *. rewrite Hk. split.
    { split; [done|]. intros [_ H]. by destruct polls. }
    intros id. simpl. rewrite elem_of_union, elem_of_list_to_set, fresh_in_ids, elem_of_filter_bool, negb_true_iff,
      bool_decide_eq_false, IH. setoid_rewrite elem_of_app. setoid_rewrite elem_of_one. split.
    + intros [[H _]|[H|(q & Hq & H)]]; eauto 6.
    + intros [H|(q & [Hq| ->] & H)]; [eauto|eauto 6|].
      destruct (decide (id ∈ default ∅ (ao_known o))) as [Hin|Hin]; rewrite IH in Hin; [by right|by left].
Qed.

(** Whatever the store held when the observer was seeded, and whatever was polled since, a poll
    announces exactly the conversations people opened that no one has been told of, each once:
    none of the seed's, none twice, none of the pond's own. When the seed could not be read, the
    first poll is the seed. *)
Theorem conversations_are_announced_once {E : Type} (seed : result (list Session) E) polls sessions clock :
  NoDup (se_id <$> sessions) →
  let events := (poll (poll_all (seeded_from seed) polls).2 sessions clock).1 in
  NoDup (started_ids events) ∧
  ∀ id, id ∈ started_ids events ↔
    ¬ (is_ok seed = false ∧ polls = []) ∧ id ∈ human_ids sessions ∧ ¬ already seed polls id.
Proof.
  intros Hnd. cbv zeta. destruct (poll_all_knows seed polls) as [Hnone Hknown]. cbv zeta in Hnone, Hknown.
  destruct (poll_announces (poll_all (seeded_from seed) polls).2 sessions clock) as [-> _].
  case_bool_decide as E1.
  - split; [constructor|]. intros id. split; [by intros ?%elem_of_nil|]. rewrite Hnone in E1. by intros [? _].
  - rewrite fresh_in_ids. split.
    + apply NoDup_ListNoDup, List.NoDup_filter, NoDup_ListNoDup. unfold human_ids, human_sessions. by apply NoDup_fmap_filter.
    + intros id. rewrite fresh_in_ids, elem_of_filter_bool, negb_true_iff, bool_decide_eq_false, Hknown, <-Hnone. tauto.
Qed.

Lemma conversations_are_announced_once_witness :
  let s id at_ := {| se_id := lit id; se_profile_id := None; se_created_at := at_; se_updated_at := at_ |} in
  let clock := {| pc_started_at := 0; pc_started_at_utc := 0; pc_in_process_at := 1; pc_in_process_idle := 0;
                  pc_now := 9; pc_idle_threshold := 60 |} in
  let events := (poll (poll_all (seeded_from (E := text) (Ok [s "a" 1%Z])) [([s "a" 1%Z; s "b" 2%Z], clock)]).2
                   [s "a" 1%Z; s "b" 2%Z; s "c" 3%Z; s "sched-x-1" 4%Z] clock).1 in
  NoDup (started_ids events) ∧ started_ids events = [lit "c"].
Proof.
  intros s clock events. split; [|vm_compute; reflexivity].
  apply (conversations_are_announced_once (E := text) (Ok [s "a" 1%Z]) [([s "a" 1%Z; s "b" 2%Z], clock)]
           [s "a" 1%Z; s "b" 2%Z; s "c" 3%Z; s "sched-x-1" 4%Z] clock).
  apply (bool_decide_unpack _). vm_compute. reflexivity.
Defined.

(** ** The activity clock alternates *)

(** What the events so far tell of the pond; [None] for a sequence the diagram forbids. *)
Definition told (st : option Observed) (p : SessionPhase) : option (option Observed) :=
  match p, st with
  | Started, _ => Some (Some ObservedActive)
  | Idle, Some ObservedIdle => None
  | Idle, _ => Some (Some ObservedIdle)
  | Resumed, Some ObservedActive => None
  | Resumed, _ => Some (Some ObservedActive)
  end.
Fixpoint told_all (st : option Observed) (events : list SessionLifecycle) : option (option Observed) :=
  match events with
  | [] => Some st
  | e :: events => match told st (sl_phase e) with Some st => told_all st events | None => None end
  end.

Lemma told_all_app st a b :
  told_all st (a ++ b) = match told_all st a with Some st => told_all st b | None => None end.
Proof. revert st. induction a as [|e a IH]; intros st; simpl; [done|]. by destruct (told st (sl_phase e)). Qed.

Lemma told_started st l (f : SessionStart → SessionLifecycle) :
  (∀ s, sl_phase (f s) = Started) → l ≠ [] → told_all st (f <$> l) = Some (Some ObservedActive).
Proof.
  intros Hf. revert st. induction l as [|s l IH]; intros st; [done|]. intros _. rewrite fmap_cons. simpl.
  rewrite Hf. simpl. destruct l; [done|]. by apply IH.
Qed.

(** A poll tells what the observer holds, and no edge before there was activity. *)
Lemma poll_told o sessions clock st :
  st = None ∨ st = ao_phase o →
  ∃ st', told_all st (poll o sessions clock).1 = Some st' ∧
    (st' = None ∨ st' = ao_phase (poll o sessions clock).2).
Proof.
  intros Hst. unfold poll, observe, announce. set (i := poll_inputs sessions clock).
  set (fresh := sort_with _ _). set (out := if bool_decide _ then _ else _). cbn [ao_phase].
  set (phase := if is_empty out then _ else _).
  assert (∃ st1, told_all st out = Some st1 ∧ (st1 = None ∨ st1 = phase)) as (st1 & E1 & H1).
  { subst out phase. case_bool_decide; [by exists st|]. destruct fresh as [|s l] eqn:E; [by exists st|].
    exists (Some ObservedActive). split; [by apply told_started|by right]. }
  unfold clock_edge. destruct (ai_saw_activity_since_start i); cbn [negb fst snd ao_phase].
  2:{ rewrite app_nil_r. by exists st1. }
  destruct phase as [[]|], (ai_idle_threshold i <=? ai_idle_for i); cbn [fst snd ao_phase];
    rewrite told_all_app, E1; destruct H1 as [->| ->]; simpl; eexists; (split; [reflexivity|]); by auto.
Qed.

(** The clock's edges alternate. In all that is ever told, the pond is never said to fall idle
    twice without being used between, nor to be used again without having been idle; and no poll
    tells of either before there was activity since the start, nor against its own clock. *)
Theorem activity_edges_alternate {E : Type} (seed : result (list Session) E) polls :
  (∃ st, told_all None (concat (poll_all (seeded_from seed) polls).1) = Some st) ∧
  ∀ o sessions clock e,
    e ∈ (poll o sessions clock).1 → sl_phase e ≠ Started →
    let i := poll_inputs sessions clock in
    ai_saw_activity_since_start i = true ∧
    (sl_phase e = Idle ↔ ai_idle_threshold i ≤ ai_idle_for i).
Proof.
  split.
  - assert (∃ st, told_all None (concat (poll_all (seeded_from seed) polls).1) = Some st ∧
      (st = None ∨ st = ao_phase (poll_all (seeded_from seed) polls).2)) as (st & H & _); [|by exists st].
    induction polls as [|p polls (st & IH & Hst)] using rev_ind; [exists None; split; [done|by left]|].
    rewrite poll_all_snoc. destruct (poll_all (seeded_from seed) polls) as [outs o]. cbn [fst snd] in *.
    destruct (poll_told o p.1 p.2 st Hst) as (st' & E' & Hst'). destruct (poll o p.1 p.2) as [out o'].
    cbn [fst snd] in *. rewrite concat_app. cbn [concat]. rewrite app_nil_r, told_all_app, IH. by exists st'.
  - intros o sessions clock e He Hne. cbv zeta. unfold poll, observe, announce in He.
    set (i := poll_inputs sessions clock) in *.
    set (out := if bool_decide _ then _ else _) in *.
    assert (∀ e, e ∈ out → sl_phase e = Started) as Hout.
    { intros e' He'. subst out. case_bool_decide; [by apply elem_of_nil in He'|].
      apply list_elem_of_fmap in He' as (s & -> & _). done. }
    cbn [ao_phase] in He. set (phase := if is_empty out then _ else _) in *.
    unfold clock_edge in He. cbv zeta in He. destruct (ai_saw_activity_since_start i); cbn [negb fst] in He.
    2:{ rewrite app_nil_r in He. by apply Hout in He. }
    split; [done|]. destruct phase as [[]|], (N.leb_spec (ai_idle_threshold i) (ai_idle_for i)); cbn [fst] in He;
      rewrite ?app_nil_r in He; try (by apply Hout in He);
      apply elem_of_app in He as [He|He]; try (by apply Hout in He);
      apply elem_of_one in He; subst e; cbn [sl_phase]; split; intros; first [done | discriminate | lia].
Qed.

(** ** Presence follows the evidence *)

Lemma beats_irrefl_like b c d : beats c b = true → beats d b = false → beats d c = false.
Proof.
  unfold beats.
  destruct (N.compare_spec (rank (be_source c)) (rank (be_source b))),
    (N.compare_spec (rank (be_source d)) (rank (be_source b))),
    (N.compare_spec (rank (be_source d)) (rank (be_source c)));
    rewrite ?bool_decide_eq_true, ?bool_decide_eq_false; intros; done || lia.
Qed.

Lemma beats_irrefl b : beats b b = false.
Proof. unfold beats. rewrite N.compare_refl, bool_decide_eq_false. lia. Qed.

(** What a list of rows holds of a member: one of the rows naming them, that no other beats. *)
Definition best_of (i : PresenceInputs) (l : list PresenceEvidence) (p : text) (held : option Believed) : Prop :=
  match held with
  | None => ∀ e b, e ∈ l → names i e ≠ Some (p, b)
  | Some held => (∃ e, e ∈ l ∧ names i e = Some (p, held)) ∧
      ∀ e b, e ∈ l → names i e = Some (p, b) → beats b held = false
  end.

Lemma present_best i l p :
  best_of i l p
    (foldl (λ present e, match names i e with Some c => hold present c | None => present end) ∅ l !! p).
Proof.
  induction l as [|e l IH] using rev_ind; [simpl; rewrite lookup_empty; by intros e b ?%elem_of_nil|].
  rewrite foldl_snoc. set (m := foldl _ ∅ l) in *.
  assert (names i e = None ∨ (∃ q b, names i e = Some (q, b) ∧ q ≠ p) ∨ ∃ b, names i e = Some (p, b)) as H.
  { destruct (names i e) as [[q b]|]; [|by left]. right. destruct (decide (q = p)) as [->|]; eauto 6. }
  assert ((∀ b, names i e ≠ Some (p, b)) → best_of i (l ++ [e]) p (m !! p)) as Hsame.
  { intros Hno. destruct (m !! p) as [held|]; simpl in IH |- *.
    - destruct IH as [(e0 & He0 & Hn) Hall]. split; [exists e0; set_solver|].
      intros e1 b [H1|Heq%elem_of_one]%elem_of_app Hb; [by eapply Hall|subst e1; by destruct (Hno b)].
    - intros e1 b [H1|Heq%elem_of_one]%elem_of_app; [by apply IH|subst e1; apply Hno]. }
  destruct H as [Hn|[(q & b & Hn & Hq)|(b & Hb)]].
  - rewrite Hn. apply Hsame. intros b. by rewrite Hn.
  - rewrite Hn. unfold hold. simpl. destruct (m !! q) as [held|]; [destruct (beats b held)|];
      rewrite ?lookup_insert_ne by done; apply Hsame; intros b'; rewrite Hn; congruence.
  - rewrite Hb. unfold hold. simpl. destruct (m !! p) as [held|] eqn:Ep; simpl in IH.
    + destruct IH as [(e0 & He0 & Hn) Hall]. destruct (beats b held) eqn:Eb.
      * rewrite lookup_insert_eq. split; [exists e; set_solver|].
        intros e1 b1 [H1|Heq%elem_of_one]%elem_of_app Hb1.
        -- eapply beats_irrefl_like; [exact Eb|by eapply Hall].
        -- subst e1. rewrite Hb in Hb1. injection Hb1 as <-. apply beats_irrefl.
      * rewrite Ep. split; [exists e0; set_solver|].
        intros e1 b1 [H1|Heq%elem_of_one]%elem_of_app Hb1; [by eapply Hall|subst e1; congruence].
    + rewrite lookup_insert_eq. split; [exists e; set_solver|].
      intros e1 b1 [H1|Heq%elem_of_one]%elem_of_app Hb1; [by destruct (IH e1 b1)|].
      subst e1. rewrite Hb in Hb1. injection Hb1 as <-. apply beats_irrefl.
Qed.

Lemma names_Some i e p b :
  names i e = Some (p, b) ↔
    pe_origin e = Human ∧ is_fresh (pe_last_activity e) (pi_presence_window i) (pi_now i) = true ∧
    is_empty (trim p) = false ∧
    resolve {| ri_paired_device_profile := None; ri_session := pe_identity e;
               ri_household_has_multiple_members := pi_household_has_multiple_members i |}
      = {| rid_scope := Owner p; rid_source := be_source b |} ∧
    be_confidence b = si_confidence (pe_identity e) ∧ be_session_id b = pe_session_id e ∧
    be_last_activity b = pe_last_activity e.
Proof.
  unfold names. destruct (pe_origin e); cbn [is_human negb]; [|split; [done|by intros [? _]]].
  destruct (is_fresh _ _ _); cbn [negb]; [|split; [done|by intros (_ & ? & _)]].
  destruct (resolve _) as [[q| |] source] eqn:E; cbn [rid_scope rid_source];
    [|split; [done|by intros (_ & _ & _ & [=] & _)]..].
  destruct (is_empty (trim q)) eqn:Eq.
  - split; [done|]. intros (_ & _ & H & [= ->] & _). congruence.
  - split.
    + intros [= -> <-]. simpl. done.
    + intros (_ & _ & _ & [= -> ->] & H1 & H2 & H3). destruct b; simpl in *. by subst.
Qed.

(** A member is believed present exactly when a conversation a person opened, still fresh,
    resolves to them under the rule that authorises turns (so never a guest, never the household
    as a whole, never the pond's own sessions); and the belief rests on the row of the strongest
    rung, the newest of equals. *)
Theorem presence_is_the_evidence i p :
  (is_Some (present_members i !! p) ↔
     ∃ e source, e ∈ pi_sessions i ∧ pe_origin e = Human ∧
       is_fresh (pe_last_activity e) (pi_presence_window i) (pi_now i) = true ∧ is_empty (trim p) = false ∧
       resolve {| ri_paired_device_profile := None; ri_session := pe_identity e;
                  ri_household_has_multiple_members := pi_household_has_multiple_members i |}
         = {| rid_scope := Owner p; rid_source := source |}) ∧
  ∀ b, present_members i !! p = Some b →
    (∃ e, e ∈ pi_sessions i ∧ names i e = Some (p, b)) ∧
    ∀ e b', e ∈ pi_sessions i → names i e = Some (p, b') →
      rank (be_source b) < rank (be_source b') ∨
      rank (be_source b) = rank (be_source b') ∧ (be_last_activity b' ≤ be_last_activity b)%Z.
Proof.
  pose proof (present_best i (pi_sessions i) p) as H. fold (present_members i) in H. split.
  - split.
    + intros [b Hb]. rewrite Hb in H. destruct H as [(e & He & Hn) _]. exists e, (be_source b).
      apply names_Some in Hn. tauto.
    + intros (e & source & He & H1 & H2 & H3 & H4). destruct (present_members i !! p) as [b|]; [done|].
      exfalso. eapply (H e {| be_source := source; be_confidence := si_confidence (pe_identity e);
        be_session_id := pe_session_id e; be_last_activity := pe_last_activity e |}); [done|].
      by apply names_Some.
  - intros b Hb. rewrite Hb in H. destruct H as [Hex Hall]. split; [done|]. intros e b' He Hn.
    specialize (Hall e b' He Hn). unfold beats in Hall.
    destruct (N.compare_spec (rank (be_source b')) (rank (be_source b))); [|done|by left; lia].
    apply bool_decide_eq_false in Hall. right. lia.
Qed.

(** ** The loop reads less and believes the same *)

Lemma foldl_filter {A B} (f : B → A → B) (p : A → bool) l z :
  (∀ a z, a ∈ l → p a = false → f z a = z) → foldl f z (List.filter p l) = foldl f z l.
Proof.
  revert z. induction l as [|a l IH]; intros z H; [done|]. cbn [List.filter foldl].
  destruct (p a) eqn:E; cbn [foldl].
  - apply IH. intros b z' Hb. apply H. by right.
  - rewrite (H a z) by (done || left). apply IH. intros b z' Hb. apply H. by right.
Qed.

Lemma identities_ok f sessions :
  (∀ s, s ∈ sessions → ∃ i, f (se_id s) = Ok i) →
  identities f sessions =
    Ok ((λ s, evidence_of s (match f (se_id s) with Ok i => i | Err _ => SessionIdentity_unknown end)) <$> sessions).
Proof.
  intros H. unfold identities. rewrite <-(list_fmap_id sessions) at 1. apply traverse_fmap. intros s Hs. simpl.
  by destruct (H s Hs) as [i ->].
Qed.

(** The candidates are only a saving: when every identity can be read and a session's names the
    member its row does, the members believed present from the candidates alone are those the
    whole store gives. *)
Theorem candidates_lose_nobody r sessions :
  (∀ s, s ∈ sessions → ∃ i, ro_identity r (se_id s) = Ok i ∧ si_profile_id i = se_profile_id s) →
  ∃ few all, presence_read r sessions = Ok few ∧
    identities (ro_identity r) sessions = Ok all ∧
    present_members few =
      present_members (inputs_for_poll all (household_has_multiple_members (ro_profiles r)) (pc_now (ro_clock r))).
Proof.
  intros Hid. set (now := pc_now (ro_clock r)).
  assert (∀ s, s ∈ sessions → ∃ i, ro_identity r (se_id s) = Ok i) as Hok.
  { intros s Hs. destruct (Hid s Hs) as (i & Hi & _). by exists i. }
  assert (∀ s, s ∈ attribution_candidates sessions now → s ∈ sessions) as Hsub.
  { intros s. unfold attribution_candidates. rewrite !elem_of_filter_bool. tauto. }
  unfold presence_read. fold now. rewrite identities_ok by auto. rewrite identities_ok by done.
  eexists _, _. split; [reflexivity|]. split; [reflexivity|].
  set (several := household_has_multiple_members (ro_profiles r)).
  assert (∀ evidence, present_members (inputs_for_poll evidence several now) =
    foldl (λ present e, match names (inputs_for_poll [] several now) e with
                        | Some c => hold present c | None => present end) ∅ evidence) as Hp by done.
  rewrite !Hp, !foldl_fmap. unfold attribution_candidates. rewrite !filter_andb.
  apply foldl_filter. intros s z Hs Hdrop.
  destruct (Hid s Hs) as (i & Hi & Hprof). rewrite Hi.
  destruct (names _ _) as [[q b]|] eqn:E; [|done]. apply names_Some in E as (H1 & H2 & _ & H4 & _).
  cbn [evidence_of pe_origin pe_last_activity pe_identity inputs_for_poll pi_presence_window pi_now] in H1, H2, H4.
  rewrite H1, H2 in Hdrop. simpl in Hdrop. unfold resolve in H4. cbn [ri_paired_device_profile ri_session] in H4.
  rewrite Hprof in H4. destruct (se_profile_id s); [by rewrite bool_decide_true in Hdrop|].
  by destruct several.
Qed.

(** ** Edges rebuild the belief *)

Fixpoint presence_all {E : Type} (believed : option (gmap text Believed)) (reads : list (result PresenceInputs E)) :
    list ProfilePresence * option (gmap text Believed) :=
  match reads with
  | [] => ([], believed)
  | r :: reads =>
      let '(out, believed) := observe_read believed r in
      let '(outs, believed) := presence_all believed reads in (out ++ outs, believed)
  end.

(** Who is here after an edge; [None] for an edge that tells nothing new. *)
Definition apply_edge (here : gset text) (e : ProfilePresence) : option (gset text) :=
  match pp_transition e with
  | Arrived => if bool_decide (pp_profile_id e ∈ here) then None else Some ({[pp_profile_id e]} ∪ here)
  | Departed => if bool_decide (pp_profile_id e ∈ here) then Some (here ∖ {[pp_profile_id e]}) else None
  end.
Fixpoint apply_edges (here : gset text) (edges : list ProfilePresence) : option (gset text) :=
  match edges with
  | [] => Some here
  | e :: edges => match apply_edge here e with Some here => apply_edges here edges | None => None end
  end.

Lemma apply_edges_app here a b :
  apply_edges here (a ++ b) = match apply_edges here a with Some h => apply_edges h b | None => None end.
Proof. revert here. induction a as [|e a IH]; intros here; simpl; [done|]. by destruct (apply_edge here e). Qed.

Lemma apply_arrivals at_ l here :
  NoDup l.*1 → (∀ p, p ∈ l → p.1 ∉ here) →
  apply_edges here ((λ p, transition p.2 p.1 Arrived at_) <$> l) = Some (list_to_set l.*1 ∪ here).
Proof.
  revert here. induction l as [|p l IH]; intros here Hnd Hl; [simpl; f_equal; set_solver|].
  rewrite fmap_cons in *. apply NoDup_cons in Hnd as [Hp Hnd]. cbn [apply_edges apply_edge transition pp_transition pp_profile_id].
  unfold apply_edge. simpl. rewrite bool_decide_false by (apply Hl; left). rewrite IH; [f_equal; set_solver|done|].
  intros q Hq. specialize (Hl q ltac:(by right)). intros [Hqp%elem_of_singleton|?]%elem_of_union; [|done].
  apply Hp, list_elem_of_fmap. exists q. split; [congruence|done].
Qed.

Lemma apply_departures at_ l here :
  NoDup l.*1 → (∀ p, p ∈ l → p.1 ∈ here) →
  apply_edges here ((λ p, transition p.2 p.1 Departed at_) <$> l) = Some (here ∖ list_to_set l.*1).
Proof.
  revert here. induction l as [|p l IH]; intros here Hnd Hl; [simpl; f_equal; set_solver|].
  rewrite fmap_cons in *. apply NoDup_cons in Hnd as [Hp Hnd]. cbn [apply_edges].
  unfold apply_edge. simpl. rewrite bool_decide_true by (apply Hl; left). rewrite IH; [f_equal; set_solver|done|].
  intros q Hq. specialize (Hl q ltac:(by right)). apply elem_of_difference. split; [done|].
  intros E%elem_of_singleton. apply Hp, list_elem_of_fmap. exists q. split; [congruence|done].
Qed.

Lemma entries_nodup m : NoDup (entries m).*1.
Proof. unfold entries. rewrite sort_with_perm. apply NoDup_fst_map_to_list. Qed.

Lemma elem_of_entries m p b : (p, b) ∈ entries m ↔ m !! p = Some b.
Proof. unfold entries. rewrite elem_of_sort_with. apply elem_of_map_to_list. Qed.

Lemma observe_edges previous i :
  apply_edges (dom previous) (presence_observe (Some previous) i).1 = Some (dom (present_members i)).
Proof.
  unfold presence_observe. set (present := present_members i). cbn [fst].
  rewrite apply_edges_app, apply_arrivals; [|apply NoDup_fmap_filter, entries_nodup|].
  2:{ intros [p b] [_ H]%elem_of_filter_bool. simpl in *. apply negb_true_iff, bool_decide_eq_false in H.
      by rewrite elem_of_dom. }
  rewrite apply_departures; [|apply NoDup_fmap_filter, entries_nodup|].
  2:{ intros [p b] [Hin _]%elem_of_filter_bool. simpl in *. apply elem_of_entries in Hin.
      apply elem_of_union_r, elem_of_dom. by exists b. }
  f_equal. apply set_eq. intros p.
  rewrite elem_of_difference, elem_of_union, !elem_of_list_to_set, !elem_of_dom.
  assert (∀ (m m' : gmap text Believed),
    p ∈ (List.filter (λ q, negb (bool_decide (is_Some (m' !! q.1)))) (entries m)).*1 ↔ is_Some (m !! p) ∧ ¬ is_Some (m' !! p)) as H.
  { intros m m'. split.
    - intros ([q b] & -> & [Hin Hn]%elem_of_filter_bool)%list_elem_of_fmap. apply elem_of_entries in Hin.
      apply negb_true_iff, bool_decide_eq_false in Hn. by split; [exists b|].
    - intros [[b Hb] Hn]. apply list_elem_of_fmap. exists (p, b). split; [done|]. apply elem_of_filter_bool.
      split; [by apply elem_of_entries|]. simpl. by apply negb_true_iff, bool_decide_eq_false. }
  rewrite !H. destruct (present !! p), (previous !! p); naive_solver.
Qed.

(** C37: the edges published are the belief: played over whoever was here at the first poll that could
    be read, every one of them tells something new, and they end with exactly the members
    believed present. A read that fails publishes nothing and nobody leaves. *)
Theorem presence_edges_rebuild_belief {E : Type} (reads : list (result PresenceInputs E)) :
  let '(edges, believed) := presence_all None reads in
  match find_first is_ok reads with
  | Some (Ok i) => ∃ here, believed = Some here ∧ apply_edges (dom (present_members i)) edges = Some (dom here)
  | _ => edges = [] ∧ believed = None
  end.
Proof.
  assert (∀ reads previous,
    ∃ here, (presence_all (E := E) (Some previous) reads).2 = Some here ∧
      apply_edges (dom previous) (presence_all (Some previous) reads).1 = Some (dom here)) as Hall.
  { clear reads. intros reads. induction reads as [|[i|e] reads IH]; intros previous; cbn [presence_all observe_read].
    - by exists previous.
    - pose proof (observe_edges previous i) as He. unfold presence_observe in *. cbv zeta in *. cbn [fst] in He.
      destruct (IH (present_members i)) as (here & H1 & H2).
      destruct (presence_all (Some (present_members i)) reads) as [outs b]. cbn [fst snd] in *.
      exists here. split; [done|]. by rewrite apply_edges_app, He.
    - destruct (IH previous) as (here & H1 & H2). destruct (presence_all (Some previous) reads) as [outs b].
      by exists here. }
  induction reads as [|[i|e] reads IH]; cbn [presence_all observe_read]; [done| |].
  - unfold find_first. cbn [List.find is_ok presence_observe]. destruct (Hall reads (present_members i)) as (here & H1 & H2).
    destruct (presence_all (Some (present_members i)) reads) as [outs b]. cbn [fst snd app] in *. by exists here.
  - unfold find_first in *. cbn [List.find is_ok]. by destruct (presence_all None reads).
Qed.

Lemma candidates_lose_nobody_witness :
  let identity := {| si_profile_id := Some (lit "ana"); si_source := Explicit; si_confidence := None |} in
  let s := {| se_id := lit "kitchen"; se_profile_id := Some (lit "ana"); se_created_at := 0; se_updated_at := 5 |} in
  let clock := {| pc_started_at := 0; pc_started_at_utc := 0; pc_in_process_at := 1; pc_in_process_idle := 0;
                  pc_now := 9; pc_idle_threshold := 60 |} in
  let r := {| ro_sessions := Ok [s]; ro_identity := λ _, Ok identity; ro_profiles := Ok [lit "ana"; lit "bo"];
              ro_clock := clock |} in
  ∃ few, presence_read r [s] = Ok few ∧ is_Some (present_members few !! lit "ana").
Proof.
  intros identity s clock r.
  destruct (candidates_lose_nobody r [s]) as (few & all & H1 & H2 & H3).
  - intros s' ->%elem_of_one. by exists identity.
  - exists few. split; [exact H1|]. rewrite H3. vm_compute in H2. injection H2 as <-. vm_compute. eauto.
Defined.
