(* ===== verification/LaneSlot.v ===== *)
(** * LaneSlot: the inference lane at run time

    [crates/pond-server/src/inference_lane_runner.rs]: the registry of what each background job
    wants and the one slot a job must hold to spend inference. [InferenceLane] is shared by the
    loops of all jobs, by the turns that preempt and by the embedding loop, each of its fields
    behind a lock of its own; so an operation here is a program of the locked sections it goes
    through ([LaneCall]), which run one at a time, and the sections of different operations
    interleave ([lane_step]). The policy, [select_next], is [Lane]'s.

    The probes set by [watch_turns] and [watch_presence], the clocks and the bells
    ([tokio::sync::Notify]) are outside: a probe is what it answers now, a bell the number of
    times it was rung, a token its number. No section panics holding its lock, so no lock is
    poisoned. [snapshot] only reads, and is left out. *)
From S2P Require Import Prelude Prog Text Scope Lane.
Local Open Scope N_scope.

#[export] Instance LaneJob_countable : Countable LaneJob.
Proof.
  refine (inj_countable' (λ j, match j with
      | Compaction => 0 | Consolidation => 1 | Titling => 2 | LongTaskStep => 3
      | ProactiveReview => 4 | SummaryRefresh => 5 | MemoryExtraction => 6
      | SuggestionGeneration => 7 end%nat)
    (λ n, match n with
      | 0 => Compaction | 1 => Consolidation | 2 => Titling | 3 => LongTaskStep
      | 4 => ProactiveReview | 5 => SummaryRefresh | 6 => MemoryExtraction
      | _ => SuggestionGeneration end%nat) _).
  by intros [].
Defined.

(** The derived [Ord]: declaration order. *)
Definition job_order (j : LaneJob) : N :=
  match j with
  | Compaction => 0 | Consolidation => 1 | Titling => 2 | LongTaskStep => 3
  | ProactiveReview => 4 | SummaryRefresh => 5 | MemoryExtraction => 6 | SuggestionGeneration => 7
  end.

(** A [CancellationToken] and its clones. *)
Notation LaneToken := N (only parsing).

(** Proof of owning the slot. *)
Record LaneSlot := { slot_job : LaneJob; slot_cancel : LaneToken }.

Record Registration := {
  rg_enabled : bool;
  rg_interval_floor : N;
  rg_idle_threshold : N;
  rg_exempt : bool;
}.

Record Cadence := { cd_interval_floor : N; cd_idle_threshold : N; cd_exempt : bool }.

(** A job's two bells, by the times each was rung, and whether its loop is there. *)
Record Wake := { wk_by_hand : N; wk_scheduled : N; wk_present : bool }.

Record Observation := { ob_at : Z; ob_saw_activity : bool; ob_idle_for : N }.

Record Tally := {
  ta_granted : N;
  ta_nudged : N;
  ta_slot_busy : N;
  ta_refused : SkipReason → N;
  ta_lost_to : gmap LaneJob N;
}.

Definition Tally_default : Tally :=
  {| ta_granted := 0; ta_nudged := 0; ta_slot_busy := 0; ta_refused := λ _, 0; ta_lost_to := ∅ |}.

Definition count_granted (t : Tally) : Tally :=
  {| ta_granted := u32_incr (ta_granted t); ta_nudged := ta_nudged t;
     ta_slot_busy := ta_slot_busy t; ta_refused := ta_refused t; ta_lost_to := ta_lost_to t |}.
Definition count_nudged (t : Tally) : Tally :=
  {| ta_granted := ta_granted t; ta_nudged := u32_incr (ta_nudged t);
     ta_slot_busy := ta_slot_busy t; ta_refused := ta_refused t; ta_lost_to := ta_lost_to t |}.
Definition count_busy (t : Tally) : Tally :=
  {| ta_granted := ta_granted t; ta_nudged := ta_nudged t;
     ta_slot_busy := u32_incr (ta_slot_busy t); ta_refused := ta_refused t;
     ta_lost_to := ta_lost_to t |}.
Definition count_refused (r : SkipReason) (t : Tally) : Tally :=
  {| ta_granted := ta_granted t; ta_nudged := ta_nudged t; ta_slot_busy := ta_slot_busy t;
     ta_refused := λ r', if decide (r' = r) then u32_incr (ta_refused t r) else ta_refused t r';
     ta_lost_to := ta_lost_to t |}.
Definition count_lost (winner : LaneJob) (t : Tally) : Tally :=
  {| ta_granted := ta_granted t; ta_nudged := ta_nudged t; ta_slot_busy := ta_slot_busy t;
     ta_refused := ta_refused t;
     ta_lost_to := <[winner := u32_incr (default 0 (ta_lost_to t !! winner))]> (ta_lost_to t) |}.

Record InferenceLane := {
  il_slot : bool;  (* held *)
  il_last_run : gmap LaneJob Z;
  il_runs : option (list (LaneJob * Z));  (* what was sent to the run log *)
  il_holder : option (LaneJob * Z);
  il_registry : gmap LaneJob Registration;
  il_wake : gmap LaneJob Wake;
  il_observed : option Observation;
  il_tallies : gmap LaneJob Tally;
  il_turns : option bool;
  il_embedding_slot : option Z;
  il_active_cancel : option LaneToken;
  il_presence : option bool;
}.

Definition with_slot (x : bool) (l : InferenceLane) : InferenceLane :=
  {| il_slot := x; il_last_run := il_last_run l; il_runs := il_runs l; il_holder := il_holder l;
     il_registry := il_registry l; il_wake := il_wake l; il_observed := il_observed l;
     il_tallies := il_tallies l; il_turns := il_turns l; il_embedding_slot := il_embedding_slot l;
     il_active_cancel := il_active_cancel l; il_presence := il_presence l |}.
Definition with_last_run (x : gmap LaneJob Z) (l : InferenceLane) : InferenceLane :=
  {| il_slot := il_slot l; il_last_run := x; il_runs := il_runs l; il_holder := il_holder l;
     il_registry := il_registry l; il_wake := il_wake l; il_observed := il_observed l;
     il_tallies := il_tallies l; il_turns := il_turns l; il_embedding_slot := il_embedding_slot l;
     il_active_cancel := il_active_cancel l; il_presence := il_presence l |}.
Definition with_runs (x : option (list (LaneJob * Z))) (l : InferenceLane) : InferenceLane :=
  {| il_slot := il_slot l; il_last_run := il_last_run l; il_runs := x; il_holder := il_holder l;
     il_registry := il_registry l; il_wake := il_wake l; il_observed := il_observed l;
     il_tallies := il_tallies l; il_turns := il_turns l; il_embedding_slot := il_embedding_slot l;
     il_active_cancel := il_active_cancel l; il_presence := il_presence l |}.
Definition with_holder (x : option (LaneJob * Z)) (l : InferenceLane) : InferenceLane :=
  {| il_slot := il_slot l; il_last_run := il_last_run l; il_runs := il_runs l; il_holder := x;
     il_registry := il_registry l; il_wake := il_wake l; il_observed := il_observed l;
     il_tallies := il_tallies l; il_turns := il_turns l; il_embedding_slot := il_embedding_slot l;
     il_active_cancel := il_active_cancel l; il_presence := il_presence l |}.
Definition with_registry (x : gmap LaneJob Registration) (l : InferenceLane) : InferenceLane :=
  {| il_slot := il_slot l; il_last_run := il_last_run l; il_runs := il_runs l;
     il_holder := il_holder l; il_registry := x; il_wake := il_wake l;
     il_observed := il_observed l; il_tallies := il_tallies l; il_turns := il_turns l;
     il_embedding_slot := il_embedding_slot l; il_active_cancel := il_active_cancel l;
     il_presence := il_presence l |}.
Definition with_wake (x : gmap LaneJob Wake) (l : InferenceLane) : InferenceLane :=
  {| il_slot := il_slot l; il_last_run := il_last_run l; il_runs := il_runs l;
     il_holder := il_holder l; il_registry := il_registry l; il_wake := x;
     il_observed := il_observed l; il_tallies := il_tallies l; il_turns := il_turns l;
     il_embedding_slot := il_embedding_slot l; il_active_cancel := il_active_cancel l;
     il_presence := il_presence l |}.
Definition with_observed (x : option Observation) (l : InferenceLane) : InferenceLane :=
  {| il_slot := il_slot l; il_last_run := il_last_run l; il_runs := il_runs l;
     il_holder := il_holder l; il_registry := il_registry l; il_wake := il_wake l;
     il_observed := x; il_tallies := il_tallies l; il_turns := il_turns l;
     il_embedding_slot := il_embedding_slot l; il_active_cancel := il_active_cancel l;
     il_presence := il_presence l |}.
Definition with_tallies (x : gmap LaneJob Tally) (l : InferenceLane) : InferenceLane :=
  {| il_slot := il_slot l; il_last_run := il_last_run l; il_runs := il_runs l;
     il_holder := il_holder l; il_registry := il_registry l; il_wake := il_wake l;
     il_observed := il_observed l; il_tallies := x; il_turns := il_turns l;
     il_embedding_slot := il_embedding_slot l; il_active_cancel := il_active_cancel l;
     il_presence := il_presence l |}.
Definition with_embedding_slot (x : option Z) (l : InferenceLane) : InferenceLane :=
  {| il_slot := il_slot l; il_last_run := il_last_run l; il_runs := il_runs l;
     il_holder := il_holder l; il_registry := il_registry l; il_wake := il_wake l;
     il_observed := il_observed l; il_tallies := il_tallies l; il_turns := il_turns l;
     il_embedding_slot := x; il_active_cancel := il_active_cancel l;
     il_presence := il_presence l |}.
Definition with_active_cancel (x : option LaneToken) (l : InferenceLane) : InferenceLane :=
  {| il_slot := il_slot l; il_last_run := il_last_run l; il_runs := il_runs l;
     il_holder := il_holder l; il_registry := il_registry l; il_wake := il_wake l;
     il_observed := il_observed l; il_tallies := il_tallies l; il_turns := il_turns l;
     il_embedding_slot := il_embedding_slot l; il_active_cancel := x;
     il_presence := il_presence l |}.

(** The lane with what is outside it: the two clocks, how many tokens were made, and which were
    cancelled. *)
Record World := {
  w_lane : InferenceLane;
  w_utc : Z;
  w_instant : Z;
  w_tokens : N;
  w_cancelled : gset LaneToken;
}.

Definition in_lane (f : InferenceLane → InferenceLane) (w : World) : World :=
  {| w_lane := f (w_lane w); w_utc := w_utc w; w_instant := w_instant w;
     w_tokens := w_tokens w; w_cancelled := w_cancelled w |}.
Definition make_token (w : World) : World :=
  {| w_lane := w_lane w; w_utc := w_utc w; w_instant := w_instant w;
     w_tokens := w_tokens w + 1; w_cancelled := w_cancelled w |}.
Definition cancel_token (t : LaneToken) (w : World) : World :=
  {| w_lane := w_lane w; w_utc := w_utc w; w_instant := w_instant w;
     w_tokens := w_tokens w; w_cancelled := {[t]} ∪ w_cancelled w |}.

Definition restored (last_run : gmap LaneJob Z) (runs : option (list (LaneJob * Z))) : InferenceLane :=
  {| il_slot := false; il_last_run := last_run; il_runs := runs; il_holder := None;
     il_registry := ∅;
     il_wake := list_to_map
       ((λ job, (job, {| wk_by_hand := 0; wk_scheduled := 0; wk_present := false |})) <$> LaneJob_ALL);
     il_observed := None; il_tallies := ∅; il_turns := None; il_embedding_slot := None;
     il_active_cancel := None; il_presence := None |}.

(** ** The registered jobs' states *)

Definition elapsed_since (now then_ : Z) : N := Z.to_N (now - then_).

Definition state_of (last_run : gmap LaneJob Z) (now : Z) (entry : LaneJob * Registration) : JobState :=
  let '(job, reg) := entry in
  {| js_job := job; js_enabled := rg_enabled reg;
     js_since_last_run := elapsed_since now <$> last_run !! job;
     js_interval_floor := rg_interval_floor reg; js_idle_threshold := rg_idle_threshold reg;
     js_exempt := rg_exempt reg |}.

Definition job_states (registry : gmap LaneJob Registration) (last_run : gmap LaneJob Z) (now : Z)
    : list JobState :=
  sort_by (λ s, job_order (js_job s)) (state_of last_run now <$> map_to_list registry).

(** ** The sections *)

Inductive LaneCall : Type → Type :=
| ReadTurns : LaneCall bool
| ReadPresence : LaneCall bool
| Register (job : LaneJob) (reg : Registration) : LaneCall unit
| Observe (saw_activity : bool) (idle_for : N) : LaneCall unit
| ReadStates : LaneCall (list JobState)
| Count (job : LaneJob) (f : Tally → Tally) : LaneCall unit
| RingScheduled (job : LaneJob) : LaneCall bool
| TryLock : LaneCall bool
| SetHolder (job : LaneJob) : LaneCall unit
| NewToken : LaneCall LaneToken
| SetCancel (token : LaneToken) : LaneCall unit
| ClearCancel : LaneCall unit
| ReadUtc : LaneCall Z
| StampRun (job : LaneJob) (at_ : Z) : LaneCall unit
| SendRun (job : LaneJob) (at_ : Z) : LaneCall unit
| ClearHolder : LaneCall unit
| Unlock : LaneCall unit
| ReadCancel : LaneCall (option LaneToken)
| Cancel (token : LaneToken) : LaneCall unit
| ReadHolder : LaneCall (option LaneJob)
| ReadObserved : LaneCall (bool * N)
| ShowEmbedding : LaneCall unit
| HideEmbedding : LaneCall unit
| SetPresent (job : LaneJob) : LaneCall unit
| IsPresent (job : LaneJob) : LaneCall bool
| RingByHand (job : LaneJob) : LaneCall unit.

Definition alter_wake (f : Wake → Wake) (job : LaneJob) (l : InferenceLane) : InferenceLane :=
  with_wake (alter f job (il_wake l)) l.

Definition ring_scheduled (k : Wake) : Wake :=
  {| wk_by_hand := wk_by_hand k; wk_scheduled := wk_scheduled k + 1; wk_present := wk_present k |}.
Definition ring_by_hand (k : Wake) : Wake :=
  {| wk_by_hand := wk_by_hand k + 1; wk_scheduled := wk_scheduled k; wk_present := wk_present k |}.
Definition set_present (k : Wake) : Wake :=
  {| wk_by_hand := wk_by_hand k; wk_scheduled := wk_scheduled k; wk_present := true |}.

(** [probe.get().is_some_and(|f| f())] *)
Definition probed (probe : option bool) : bool := default false probe.

Definition lane_states (w : World) : list JobState :=
  job_states (il_registry (w_lane w)) (il_last_run (w_lane w)) (w_utc w).

(** [observed_now]; [Instant::elapsed] is never negative. *)
Definition observed_now (w : World) : bool * N :=
  match il_observed (w_lane w) with
  | Some o => (ob_saw_activity o, ob_idle_for o + elapsed_since (w_instant w) (ob_at o))
  | None => (false, 0)
  end.

Definition lane_call : Handler LaneCall World := λ R c,
  match c in LaneCall R return World → R * World with
  | ReadTurns => λ w, (probed (il_turns (w_lane w)), w)
  | ReadPresence => λ w, (probed (il_presence (w_lane w)), w)
  | Register job reg => λ w, (tt, in_lane (λ l, with_registry (<[job := reg]> (il_registry l)) l) w)
  | Observe saw idle_for => λ w,
      (tt, in_lane (with_observed (Some {| ob_at := w_instant w; ob_saw_activity := saw;
                                           ob_idle_for := idle_for |})) w)
  | ReadStates => λ w, (lane_states w, w)
  | Count job f => λ w,
      (tt, in_lane (λ l, with_tallies
        (<[job := f (default Tally_default (il_tallies l !! job))]> (il_tallies l)) l) w)
  | RingScheduled job => λ w,
      (bool_decide (is_Some (il_wake (w_lane w) !! job)), in_lane (alter_wake ring_scheduled job) w)
  | TryLock => λ w, (negb (il_slot (w_lane w)), in_lane (with_slot true) w)
  | SetHolder job => λ w, (tt, in_lane (with_holder (Some (job, w_instant w))) w)
  | NewToken => λ w, (w_tokens w, make_token w)
  | SetCancel t => λ w, (tt, in_lane (with_active_cancel (Some t)) w)
  | ClearCancel => λ w, (tt, in_lane (with_active_cancel None) w)
  | ReadUtc => λ w, (w_utc w, w)
  | StampRun job at_ => λ w,
      (tt, in_lane (λ l, with_last_run (<[job := at_]> (il_last_run l)) l) w)
  | SendRun job at_ => λ w,
      (tt, in_lane (λ l, with_runs ((λ sent, sent ++ [(job, at_)]) <$> il_runs l) l) w)
  | ClearHolder => λ w, (tt, in_lane (with_holder None) w)
  | Unlock => λ w, (tt, in_lane (with_slot false) w)
  | ReadCancel => λ w, (il_active_cancel (w_lane w), w)
  | Cancel t => λ w, (tt, cancel_token t w)
  | ReadHolder => λ w, (fst <$> il_holder (w_lane w), w)
  | ReadObserved => λ w, (observed_now w, w)
  | ShowEmbedding => λ w,
      (tt, in_lane (λ l, with_embedding_slot
        (Some (default (w_instant w) (il_embedding_slot l))) l) w)
  | HideEmbedding => λ w, (tt, in_lane (with_embedding_slot None) w)
  | SetPresent job => λ w, (tt, in_lane (alter_wake set_present job) w)
  | IsPresent job => λ w,
      (match il_wake (w_lane w) !! job with Some k => wk_present k | None => false end, w)
  | RingByHand job => λ w, (tt, in_lane (alter_wake ring_by_hand job) w)
  end.

(** ** [acquire] *)

Definition is_job (job : LaneJob) (s : JobState) : bool := bool_decide (js_job s = job).

(** A long task or a compaction, which the member is waiting on. *)
Definition waited_on (job : LaneJob) : bool :=
  match job with LongTaskStep | Compaction => true | _ => false end.

(** A turn in flight is no quiet for any job, a person in view none for a chore. *)
Definition idle_seen (job : LaneJob) (idle_for : N) : Prog LaneCall N :=
  let! running := ReadTurns in
  if running then Ret 0 else
  if waited_on job then Ret idle_for else
  let! present := ReadPresence in
  Ret (if present then 0 else idle_for).

(** The waiver, on the asker's own copy. *)
Definition waived (s : JobState) : JobState :=
  {| js_job := js_job s; js_enabled := js_enabled s; js_since_last_run := js_since_last_run s;
     js_interval_floor := 0; js_idle_threshold := 0; js_exempt := true |}.
Definition waive_asker (job : LaneJob) (states : list JobState) : list JobState :=
  match find_first (is_job job) states with
  | Some asker => set_first (is_job job) (waived asker) states
  | None => states
  end.

Definition lane_inputs (saw_activity : bool) (idle_for : N) (states : list JobState)
    (asking : option LaneJob) : LaneInputs :=
  {| li_saw_activity := saw_activity; li_idle_for := idle_for; li_jobs := states;
     li_asking := asking |}.

(** What follows a successful [try_lock]: no await, so nothing abandons it. *)
Definition grant (job : LaneJob) : Prog LaneCall (option LaneSlot) :=
  do! Count job count_granted in
  do! SetHolder job in
  let! cancel := NewToken in
  do! SetCancel cancel in
  Ret (Some {| slot_job := job; slot_cancel := cancel |}).

(** The verdict acted on. *)
Definition take_slot (job : LaneJob) (decision : LaneDecision) : Prog LaneCall (option LaneSlot) :=
  match decision with
  | LaneRun winner =>
      if decide (winner = job) then
        let! locked := TryLock in
        if locked then grant job
        else do! Count job count_busy in Ret None
      else
        let! rung := RingScheduled winner in
        if rung then
          do! Count winner count_nudged in
          do! Count job (count_lost winner) in
          Ret None
        else do! Count job (count_lost winner) in Ret None
  | LaneIdle _ => Ret None
  end.

Definition count_verdict (job : LaneJob) (mine : option GateDecision) : Prog LaneCall unit :=
  match mine with
  | Some (GateSkip reason) => do! Count job (count_refused reason) in Ret tt
  | _ => Ret tt
  end.

Definition acquire (job : LaneJob) (enabled : bool) (cadence : Cadence) (waive saw_activity : bool)
    (idle_for : N) : Prog LaneCall (option LaneSlot) :=
  prog_bind (idle_seen job idle_for) (λ idle_for,
  do! Register job {| rg_enabled := enabled; rg_interval_floor := cd_interval_floor cadence;
                      rg_idle_threshold := cd_idle_threshold cadence;
                      rg_exempt := cd_exempt cadence |} in
  do! Observe saw_activity idle_for in
  let! states := ReadStates in
  let states := if waive then waive_asker job states else states in
  let inputs := lane_inputs saw_activity idle_for states (Some job) in
  let mine := gate_of inputs <$> find_first (is_job job) states in
  prog_bind (count_verdict job mine) (λ _, take_slot job (select_next inputs))).

(** ** The other operations *)

(** [Drop for LaneSlot], then the guard's own drop. *)
Definition drop_slot (slot : LaneSlot) : Prog LaneCall unit :=
  do! ClearCancel in
  let! at_ := ReadUtc in
  do! StampRun (slot_job slot) at_ in
  do! SendRun (slot_job slot) at_ in
  do! ClearHolder in
  do! Unlock in
  Ret tt.

Definition preempt : Prog LaneCall unit :=
  let! token := ReadCancel in
  match token with
  | Some token => do! Cancel token in Ret tt
  | None => Ret tt
  end.

Definition lane_embedding_may_run : Prog LaneCall bool :=
  let! turn_running := ReadTurns in
  let! holder := ReadHolder in
  let! observed := ReadObserved in
  let! states := ReadStates in
  Ret (embedding_may_run
    {| eg_turn_running := turn_running; eg_holder := holder;
       eg_lane := lane_inputs observed.1 observed.2 states None |}).

Definition embedding_slot_running : Prog LaneCall unit := do! ShowEmbedding in Ret tt.
Definition drop_embedding_shown : Prog LaneCall unit := do! HideEmbedding in Ret tt.
Definition claim (job : LaneJob) : Prog LaneCall unit := do! SetPresent job in Ret tt.

Inductive WakeOutcome : Type := Woken | NotPresent.

Definition wake (job : LaneJob) : Prog LaneCall WakeOutcome :=
  let! present := IsPresent job in
  if present then do! RingByHand job in Ret Woken else Ret NotPresent.

Inductive Tick : Type := Poll | HandAsked | Scheduled.
Definition waives (t : Tick) : bool := match t with HandAsked => true | _ => false end.

(** ** The tasks that use the lane, interleaved

    [Asking] is an [acquire] on its way, [Holding] a slot owned, [Dropping] its drop on the way,
    [Calling] any other operation, [Watching] a clone of a slot's token, which whoever has it may
    cancel. *)

Inductive Thread : Type :=
| Asking (p : Prog LaneCall (option LaneSlot))
| Holding (slot : LaneSlot)
| Dropping (p : Prog LaneCall unit)
| Calling (p : Prog LaneCall unit)
| Watching (token : LaneToken)
| Done.

Definition void {A} (p : Prog LaneCall A) : Prog LaneCall unit := prog_bind p (λ _, Ret tt).

Inductive starts : Thread → Prop :=
| st_acquire job enabled cadence waive saw idle_for :
    starts (Asking (acquire job enabled cadence waive saw idle_for))
| st_preempt : starts (Calling preempt)
| st_embedding_may_run : starts (Calling (void lane_embedding_may_run))
| st_embedding_running : starts (Calling embedding_slot_running)
| st_embedding_shown : starts (Calling drop_embedding_shown)
| st_claim job : starts (Calling (claim job))
| st_wake job : starts (Calling (void (wake job))).

(** The next section of a task, or what it becomes when its operation has returned. *)
Definition thread_step (t : Thread) (w : World) : option (Thread * World) :=
  match t with
  | Asking (Ret (Some slot)) => Some (Holding slot, w)
  | Asking (Ret None) => Some (Done, w)
  | Asking p => prod_map Asking id <$> call_step lane_call (p, w)
  | Dropping (Ret _) | Calling (Ret _) => Some (Done, w)
  | Dropping p => prod_map Dropping id <$> call_step lane_call (p, w)
  | Calling p => prod_map Calling id <$> call_step lane_call (p, w)
  | Watching token => Some (Done, cancel_token token w)
  | Holding _ | Done => None
  end.

(** The sections [acquire] awaits, where its future may be dropped. *)
Definition awaits {A} (p : Prog LaneCall A) : bool :=
  match p with
  | Call c _ => match c with Register _ _ | ReadStates => true | _ => false end
  | Ret _ => false
  end.

(** What changes outside: the clocks, and what the probes answer. *)
Definition outside (utc instant : Z) (turns presence : option bool) (w : World) : World :=
  {| w_lane :=
       {| il_slot := il_slot (w_lane w); il_last_run := il_last_run (w_lane w);
          il_runs := il_runs (w_lane w); il_holder := il_holder (w_lane w);
          il_registry := il_registry (w_lane w); il_wake := il_wake (w_lane w);
          il_observed := il_observed (w_lane w); il_tallies := il_tallies (w_lane w);
          il_turns := turns; il_embedding_slot := il_embedding_slot (w_lane w);
          il_active_cancel := il_active_cancel (w_lane w); il_presence := presence |};
     w_utc := utc; w_instant := instant; w_tokens := w_tokens w; w_cancelled := w_cancelled w |}.

Definition Pool : Type := World * list Thread.

Inductive lane_step : Pool → Pool → Prop :=
| ls_outside utc instant turns presence w ts :
    lane_step (w, ts) (outside utc instant turns presence w, ts)
| ls_start t w ts : starts t → lane_step (w, ts) (w, ts ++ [t])
| ls_run i t t' w w' ts :
    ts !! i = Some t → thread_step t w = Some (t', w') → lane_step (w, ts) (w', <[i := t']> ts)
| ls_abandon i p w ts :
    ts !! i = Some (Asking p) → awaits p = true → lane_step (w, ts) (w, <[i := Done]> ts)
| ls_clone i slot w ts :
    ts !! i = Some (Holding slot) → lane_step (w, ts) (w, ts ++ [Watching (slot_cancel slot)])
| ls_drop i slot w ts :
    ts !! i = Some (Holding slot) → lane_step (w, ts) (w, <[i := Dropping (drop_slot slot)]> ts).

(** A pond that started with what the run log says, at some time. *)
Definition fresh (last_run : gmap LaneJob Z) (runs : option (list (LaneJob * Z))) (utc instant : Z)
    : Pool :=
  ({| w_lane := restored last_run runs; w_utc := utc; w_instant := instant; w_tokens := 0;
      w_cancelled := ∅ |}, []).

Definition reached (c : Pool) : Prop :=
  ∃ last_run runs utc instant, star lane_step (fresh last_run runs utc instant) c.

(** ** Lemmas: who owns the slot *)

(** The fields that say so: the lock, the holder and the active token. *)
Definition view (w : World) : bool * option LaneJob * option LaneToken :=
  (il_slot (w_lane w), fst <$> il_holder (w_lane w), il_active_cancel (w_lane w)).

(** Sections that leave those fields and all tokens alone. *)
Definition harmless {R} (c : LaneCall R) : bool :=
  match c with
  | TryLock | SetHolder _ | NewToken | SetCancel _ | ClearCancel | ClearHolder | Unlock | Cancel _ =>
      false
  | _ => true
  end.

Definition same (w w' : World) : Prop :=
  view w' = view w ∧ w_tokens w' = w_tokens w ∧ w_cancelled w' = w_cancelled w.

Lemma harmless_same {R} (c : LaneCall R) w : harmless c = true → same w (lane_call R c w).2.
Proof. by destruct c. Qed.

(** An [acquire] before its [try_lock], or refused. *)
Fixpoint unowned (p : Prog LaneCall (option LaneSlot)) : Prop :=
  match p with
  | Ret o => o = None
  | Call c k =>
      match c in LaneCall R return (R → Prog LaneCall (option LaneSlot)) → (R → Prop) → Prop with
      | TryLock => λ k ok, (∃ job, k true = grant job) ∧ ok false
      | c => λ _ ok, harmless c = true ∧ ∀ r, ok r
      end k (λ r, unowned (k r))
  end.

Lemma take_slot_unowned job decision : unowned (take_slot job decision).
Proof.
  destruct decision as [winner|]; [|done]. unfold take_slot. destruct (decide _).
  - split; [by exists job|]. by repeat split.
  - split; [done|]. by intros [|]; repeat split.
Qed.

Lemma acquire_unowned job enabled cadence waive saw idle_for :
  unowned (acquire job enabled cadence waive saw idle_for).
Proof.
  unfold acquire.
  assert (∀ idle k, unowned (k idle) → unowned (k 0) →
            unowned (prog_bind (idle_seen job idle) k)) as Hidle.
  { intros idle k H1 H2. unfold idle_seen. split; [done|]. intros [|]; [exact H2|].
    destruct (waited_on job); [exact H1|]. split; [done|]. by intros [|]. }
  assert (∀ mine k, unowned k → unowned (prog_bind (count_verdict job mine) (λ _, k))) as Hcount.
  { intros [[|r]|] k Hk; [exact Hk| |exact Hk]. split; [done|]. by intros _. }
  apply Hidle; (split; [done|]; intros _; split; [done|]; intros _; split; [done|]; intros states;
    apply Hcount, take_slot_unowned).
Qed.

(** Where the owner of the slot is, with the holder and the token shown meanwhile. *)
Inductive owns : Thread → option LaneJob → option LaneToken → Prop :=
| ow_granted job : owns (Asking (grant job)) None None
| ow_counted job :
    owns (Asking (do! SetHolder job in let! t := NewToken in do! SetCancel t in
                  Ret (Some {| slot_job := job; slot_cancel := t |}))) None None
| ow_shown job :
    owns (Asking (let! t := NewToken in do! SetCancel t in
                  Ret (Some {| slot_job := job; slot_cancel := t |}))) (Some job) None
| ow_publishes job t :
    owns (Asking (do! SetCancel t in Ret (Some {| slot_job := job; slot_cancel := t |})))
         (Some job) None
| ow_returns slot : owns (Asking (Ret (Some slot))) (Some (slot_job slot)) (Some (slot_cancel slot))
| ow_holds slot : owns (Holding slot) (Some (slot_job slot)) (Some (slot_cancel slot))
| ow_drops slot :
    owns (Dropping (drop_slot slot)) (Some (slot_job slot)) (Some (slot_cancel slot))
| ow_uncancelled job :
    owns (Dropping (let! at_ := ReadUtc in do! StampRun job at_ in do! SendRun job at_ in
                    do! ClearHolder in do! Unlock in Ret tt)) (Some job) None
| ow_dated job at_ :
    owns (Dropping (do! StampRun job at_ in do! SendRun job at_ in
                    do! ClearHolder in do! Unlock in Ret tt)) (Some job) None
| ow_stamped job at_ :
    owns (Dropping (do! SendRun job at_ in do! ClearHolder in do! Unlock in Ret tt)) (Some job) None
| ow_sent job : owns (Dropping (do! ClearHolder in do! Unlock in Ret tt)) (Some job) None
| ow_hidden : owns (Dropping (do! Unlock in Ret tt)) None None.

(** A task that does not own the slot. *)
Inductive idle : Thread → Prop :=
| id_asking p : unowned p → idle (Asking p)
| id_dropped u : idle (Dropping (Ret u))
| id_preempt : idle (Calling preempt)
| id_cancels t : idle (Calling (do! Cancel t in Ret tt))
| id_calling p : only_calls (λ R c, harmless c = true) p → idle (Calling p)
| id_watching t : idle (Watching t)
| id_done : idle Done.

(** It is about to cancel this token. *)
Definition aims (x : LaneToken) (t : Thread) : Prop :=
  t = Watching x ∨ t = Calling (do! Cancel x in Ret tt).

Definition publishes (job : LaneJob) (x : LaneToken) : Thread :=
  Asking (do! SetCancel x in Ret (Some {| slot_job := job; slot_cancel := x |})).

(** What one section does to the tokens. *)
Record token_effect (t : Thread) (w : World) (t' : Thread) (w' : World) : Prop := {
  te_tokens : w_tokens w ≤ w_tokens w';
  te_cancelled : ∀ x, x ∈ w_cancelled w' → x ∈ w_cancelled w ∨ aims x t;
  te_aims : ∀ x, aims x t' → il_active_cancel (w_lane w) = Some x;
  te_active : ∀ x, il_active_cancel (w_lane w') = Some x →
    il_active_cancel (w_lane w) = Some x ∨ ∃ job, t = publishes job x;
  te_publish : ∀ job x, t' = publishes job x → x = w_tokens w ∧ w_tokens w' = x + 1 ∧
    w_cancelled w' = w_cancelled w;
}.

Lemma asking_step R (c : LaneCall R) k w :
  thread_step (Asking (Call c k)) w =
    Some (Asking (k (lane_call R c w).1), (lane_call R c w).2).
Proof. cbn. unfold call_step. simpl. by destruct (lane_call R c w). Qed.
Lemma dropping_step R (c : LaneCall R) k w :
  thread_step (Dropping (Call c k)) w =
    Some (Dropping (k (lane_call R c w).1), (lane_call R c w).2).
Proof. cbn. unfold call_step. simpl. by destruct (lane_call R c w). Qed.
Lemma calling_step R (c : LaneCall R) k w :
  thread_step (Calling (Call c k)) w =
    Some (Calling (k (lane_call R c w).1), (lane_call R c w).2).
Proof. cbn. unfold call_step. simpl. by destruct (lane_call R c w). Qed.

Definition published (t : Thread) : option LaneToken :=
  match t with Asking (Call (SetCancel x) _) => Some x | _ => None end.

Lemma unowned_publishes p job x : unowned p → Asking p ≠ publishes job x.
Proof. intros Hp [= ->]. by destruct Hp. Qed.
Lemma harmless_aims (p : Prog LaneCall unit) x :
  only_calls (λ R c, harmless c = true) p → ¬ aims x (Calling p).
Proof. intros Hp [H|H]; [done|]. injection H as ->. by destruct Hp. Qed.

(** A section that leaves the tokens alone, of a task that then publishes and cancels nothing. *)
Lemma same_effect t t' w w' :
  same w w' → (∀ x, ¬ aims x t') → (∀ job x, t' ≠ publishes job x) → token_effect t w t' w'.
Proof.
  intros (Hv & Ht & Hc) Ha Hp. unfold view in Hv. injection Hv as _ _ Hv.
  split; [lia|rewrite Hc; auto|intros x H; by destruct (Ha x)|rewrite Hv; auto|].
  intros job x H. by destruct (Hp job x).
Qed.

(** A section of a task without the slot leaves it so, or takes the free slot. *)
Lemma idle_runs t w t' w' : idle t → thread_step t w = Some (t', w') →
  (idle t' ∧ view w' = view w ∨
   (view w).1.1 = false ∧ owns t' None None ∧ view w' = (true, (view w).1.2, (view w).2)) ∧
  token_effect t w t' w'.
Proof.
  intros Hi. destruct Hi as [p Hp|u| |x|p Hp|x|]; intros E.
  - destruct p as [o|R c k].
    { rewrite Hp in E. injection E as <- <-. split; [left; by split; [constructor|]|].
      by apply same_effect; [|intros x []|]. }
    rewrite asking_step in E. injection E as <- <-.
    assert (harmless c = true ∧ (∀ r, unowned (k r)) →
      (idle (Asking (k (lane_call R c w).1)) ∧ view (lane_call R c w).2 = view w ∨
       (view w).1.1 = false ∧ owns (Asking (k (lane_call R c w).1)) None None ∧
       view (lane_call R c w).2 = (true, (view w).1.2, (view w).2)) ∧
      token_effect (Asking (Call c k)) w (Asking (k (lane_call R c w).1)) (lane_call R c w).2) as Hsame.
    { intros [Hc Hk]. pose proof (harmless_same c w Hc) as Hs. split.
      - left. split; [constructor; apply Hk|apply Hs].
      - apply same_effect; [exact Hs|intros x [|]; done|]. intros job x. apply unowned_publishes, Hk. }
    destruct c; try (by apply Hsame); try (by destruct Hp).
    clear Hsame. destruct Hp as [[job Hjob] Hf]. simpl. unfold view. simpl.
    destruct (il_slot (w_lane w)) eqn:Es; simpl.
    + split; [left; split; [by constructor|done]|].
      split; simpl; [lia|by left|by intros x [|]|by left|]. intros j x Hx. by destruct (unowned_publishes _ j x Hf).
    + rewrite Hjob. split; [right; split; [done|]; split; [constructor|done]|].
      split; simpl; [lia|by left|by intros x [|]|by left|done].
  - injection E as <- <-. split; [left; by split; [constructor|]|]. by apply same_effect; [|intros x []|].
  - unfold preempt in E. rewrite calling_step in E. injection E as <- <-. simpl.
    destruct (il_active_cancel (w_lane w)) as [x|] eqn:Ex; simpl.
    + split; [left; split; [constructor|done]|]. split; [lia|by left| |by left|done].
      intros y [|[= ->]]; [done|exact Ex].
    + split; [left; split; [by constructor|done]|]. by apply same_effect; [|intros y []|].
  - rewrite calling_step in E. injection E as <- <-. split; [left; split; [by constructor|done]|].
    split; simpl; [lia| |by intros y [|]|by left|done].
    intros y [->%elem_of_singleton|?]%elem_of_union; [right; by right|by left].
  - destruct p as [u|R c k].
    { injection E as <- <-. split; [left; by split; [constructor|]|]. by apply same_effect; [|intros x []|]. }
    rewrite calling_step in E. injection E as <- <-. destruct Hp as [Hc Hk].
    pose proof (harmless_same c w Hc) as Hs. split.
    + left. split; [constructor; apply Hk|apply Hs].
    + apply same_effect; [exact Hs| |done]. intros x. apply harmless_aims, Hk.
  - injection E as <- <-. split; [left; split; [constructor|done]|].
    split; simpl; [lia| |by intros y [|]|by left|done].
    intros y [->%elem_of_singleton|?]%elem_of_union; [right; by left|by left].
  - done.
Qed.

(** The holder and the token shown. *)
Definition shows (w : World) (h : option LaneJob) (c : option LaneToken) : Prop :=
  view w = (true, h, c).

(** A section of the owner: it still owns the slot, or has released it with nothing left. *)
Lemma owner_runs t h c w t' w' :
  owns t h c → shows w h c → thread_step t w = Some (t', w') →
  ((∃ h' c', owns t' h' c' ∧ shows w' h' c') ∨ idle t' ∧ view w' = (false, None, None)) ∧
  token_effect t w t' w'.
Proof.
  unfold shows, view. intros Ho [= Hs Hh Hc]. destruct Ho; try (unfold grant, drop_slot);
    rewrite ?asking_step, ?dropping_step; cbn [thread_step]; intros [= <- <-]; simpl;
    (split; [first [by right; split; [constructor|]; rewrite Hh, Hc |
                    left; eexists _, _; split; [constructor|]; simpl; by rewrite ?Hs, ?Hh, ?Hc]|]).
  all: split; simpl; auto; try lia; try (by intros x [|]); try (by intros x H; left; congruence); try done.
  all: try (intros x [= <-]; right; by eexists).
  intros j x E. apply (f_equal published) in E. by injection E as <-.
Qed.

(** *** The pool *)

(** Nobody owns the slot and it is free, or one task does and it is taken. *)
Definition owned_by (w : World) (ts : list Thread) (o : option nat) : Prop :=
  (∀ j t, ts !! j = Some t → o ≠ Some j → idle t) ∧
  match o with
  | None => view w = (false, None, None)
  | Some i => ∃ t h c, ts !! i = Some t ∧ owns t h c ∧ shows w h c
  end.

Record tokens_ok (w : World) (ts : list Thread) : Prop := {
  tk_cancelled : ∀ x, x ∈ w_cancelled w → x < w_tokens w;
  tk_active : ∀ x, il_active_cancel (w_lane w) = Some x → x < w_tokens w;
  tk_aimed : ∀ i t x, ts !! i = Some t → aims x t → x < w_tokens w;
  tk_published : ∀ i job x, ts !! i = Some (publishes job x) →
    x < w_tokens w ∧ x ∉ w_cancelled w ∧ ∀ j t, ts !! j = Some t → ¬ aims x t;
}.

Definition pool_ok (c : Pool) : Prop := (∃ o, owned_by c.1 c.2 o) ∧ tokens_ok c.1 c.2.

Lemma owner_not_idle t h c : owns t h c → idle t → False.
Proof.
  intros Ho Hi. destruct Ho; inversion Hi as [p Hp| | | | | |]; subst; try done.
  - destruct Hp as [_ Hp]. by destruct (Hp tt).
  - by destruct Hp.
  - by destruct Hp.
  - by destruct Hp.
Qed.

Lemma lookup_update (i j : nat) (ts : list Thread) t t' :
  <[i := t']> ts !! j = Some t → j = i ∧ t = t' ∨ j ≠ i ∧ ts !! j = Some t.
Proof. intros [(-> & -> & _)|[? ?]]%list_lookup_insert_Some; auto. Qed.

Lemma lookup_snoc j (ts : list Thread) t0 t :
  (ts ++ [t0]) !! j = Some t → ts !! j = Some t ∨ (j = length ts ∧ t = t0).
Proof.
  intros [H|[Hl H]]%lookup_app_Some; [by left|right].
  apply list_lookup_singleton_Some in H as [H ->]. split; [lia|done].
Qed.

(** A task replaced: what it was and what it becomes decide who owns the slot. *)
Lemma owned_update w ts o i t t' w' :
  owned_by w ts o → ts !! i = Some t →
  (idle t → idle t' ∧ view w' = view w ∨
            (view w).1.1 = false ∧ owns t' None None ∧ view w' = (true, (view w).1.2, (view w).2)) →
  (∀ h c, owns t h c → shows w h c →
     (∃ h' c', owns t' h' c' ∧ shows w' h' c') ∨ idle t' ∧ view w' = (false, None, None)) →
  ∃ o', owned_by w' (<[i := t']> ts) o'.
Proof.
  intros [Hi Ho] Ht Hidle Howner. pose proof (lookup_lt_Some _ _ _ Ht) as Hlt.
  assert (idle t' → ∀ j u, <[i := t']> ts !! j = Some u → o ≠ Some j ∨ j = i → idle u) as Hkeep.
  { intros Ht' j u [[-> ->]|[Hji Hu]]%lookup_update Hj; [done|]. destruct Hj; [|done]. by eapply Hi. }
  assert (o = Some i ∨ o ≠ Some i) as [->|Hne] by (destruct (decide (o = Some i)); auto).
  - destruct Ho as (t0 & h & c & Ht0 & Ho & Hs). simplify_eq.
    assert (∀ j u, <[i := t']> ts !! j = Some u → Some i ≠ Some j → idle u) as Hothers.
    { intros j u [[-> ->]|[Hji Hu]]%lookup_update Hj; [done|]. by eapply Hi. }
    destruct (Howner h c Ho Hs) as [(h' & c' & Ho' & Hs')|[Ht' Hv]].
    + exists (Some i). split; [exact Hothers|]. exists t', h', c'. by rewrite list_lookup_insert_eq.
    + exists None. split; [|exact Hv]. intros j u Hu _. apply (Hkeep Ht' j u Hu).
      destruct (decide (j = i)); [by right|left]. congruence.
  - destruct (Hidle (Hi i t Ht Hne)) as [[Ht' Hv]|(Hfree & Ho' & Hv)].
    + exists o. split; [intros j u Hu Hj; apply (Hkeep Ht' j u Hu); by left|].
      destruct o as [k|]; [|by rewrite Hv]. destruct Ho as (t0 & h & c & Ht0 & Ho & Hs).
      exists t0, h, c. rewrite list_lookup_insert_ne by congruence. unfold shows. by rewrite Hv.
    + destruct o as [k|].
      { destruct Ho as (t0 & h & c & _ & _ & Hs). unfold shows in Hs. by rewrite Hs in Hfree. }
      exists (Some i). split.
      * intros j u [[-> ->]|[Hji Hu]]%lookup_update Hj; [done|]. by eapply Hi.
      * exists t', None, None. rewrite list_lookup_insert_eq by done. unfold shows. by rewrite Hv, Ho.
Qed.

Lemma owned_snoc w ts o t : owned_by w ts o → idle t → owned_by w (ts ++ [t]) o.
Proof.
  intros [Hi Ho] Ht. split.
  - intros j u [Hu|[_ ->]]%lookup_snoc Hj; [by eapply Hi|done].
  - destruct o as [i|]; [|exact Ho]. destruct Ho as (t0 & h & c & Ht0 & ?). exists t0, h, c.
    by rewrite lookup_app_l by by eapply lookup_lt_Some.
Qed.

(** While a token is being published none is shown. *)
Lemma publisher_unshown w ts o i job x :
  owned_by w ts o → ts !! i = Some (publishes job x) → il_active_cancel (w_lane w) = None.
Proof.
  intros [Hi Ho] Ht. destruct (decide (o = Some i)) as [->|Hne].
  - destruct Ho as (t & h & c & Ht' & Ho & Hs). simplify_eq.
    assert (c = None) as -> by (by inversion Ho). unfold shows, view in Hs. by injection Hs.
  - destruct (owner_not_idle _ _ _ (ow_publishes job x)). by eapply Hi.
Qed.

Lemma tokens_update w ts o i t t' w' :
  owned_by w ts o → tokens_ok w ts → ts !! i = Some t → token_effect t w t' w' →
  tokens_ok w' (<[i := t']> ts).
Proof.
  intros Hown [Hc Ha Hm Hp] Ht [E1 E2 E3 E4 E5]. split.
  - intros x Hx. destruct (E2 x Hx) as [?|?]; [specialize (Hc x); lia|].
    assert (x < w_tokens w) by (by eapply Hm). lia.
  - intros x Hx. destruct (E4 x Hx) as [H|[job ->]]; [specialize (Ha x H); lia|].
    destruct (Hp i job x Ht). lia.
  - intros j u x [[-> ->]|[Hji Hu]]%lookup_update Haim; [specialize (Ha x (E3 x Haim)); lia|].
    assert (x < w_tokens w) by (by eapply Hm). lia.
  - intros j job x [[-> Hpub]|[Hji Hu]]%lookup_update.
    + destruct (E5 job x (eq_sym Hpub)) as (-> & -> & ->). split; [lia|]. split; [intros H; specialize (Hc _ H); lia|].
      intros k u [[-> ->]|[Hki Hu]]%lookup_update Haim; [by rewrite <-Hpub in Haim; destruct Haim|].
      assert (w_tokens w < w_tokens w) by (by eapply Hm). lia.
    + destruct (Hp j job x Hu) as (Hlt & Hnc & Hna). pose proof (publisher_unshown w ts o j job x Hown Hu) as Hnone.
      split; [lia|]. split.
      * intros [?|?]%E2; [done|]. by destruct (Hna i t Ht).
      * intros k u [[-> ->]|[Hki Hk]]%lookup_update Haim; [|by destruct (Hna k u Hk)].
        rewrite (E3 x Haim) in Hnone. done.
Qed.

Lemma tokens_snoc w ts o t :
  owned_by w ts o → tokens_ok w ts → (∀ x, aims x t → il_active_cancel (w_lane w) = Some x) →
  (∀ job x, t ≠ publishes job x) → tokens_ok w (ts ++ [t]).
Proof.
  intros Hown [Hc Ha Hm Hp] Haims Hpub. split; [done|done| |].
  - intros i u x [Hu|[_ ->]]%lookup_snoc Haim; [by eapply Hm|]. by apply Ha, Haims.
  - intros i job x [Hu|[_ Hu]]%lookup_snoc; [|by destruct (Hpub job x)].
    destruct (Hp i job x Hu) as (? & ? & Hna). split; [done|]. split; [done|].
    intros j v [Hv|[_ ->]]%lookup_snoc Haim; [by destruct (Hna j v Hv)|].
    pose proof (publisher_unshown w ts o i job x Hown Hu) as Hnone. by rewrite (Haims x Haim) in Hnone.
Qed.

Lemma pool_same w w' ts : same w w' → pool_ok (w, ts) → pool_ok (w', ts).
Proof.
  intros (Hv & Ht & Hx) [[o [Hi Ho]] [Hc Ha Hm Hp]]. split.
  - exists o. split; [exact Hi|]. unfold shows. simpl. by rewrite Hv.
  - unfold view in Hv. injection Hv as _ _ Hact. simpl. split; rewrite ?Hact, ?Ht, ?Hx; done.
Qed.

Lemma starts_idle t : starts t → idle t ∧ ∀ x, ¬ aims x t.
Proof.
  intros []; (split; [|try (by intros x [|])]).
  1: constructor; apply acquire_unowned.
  1: constructor.
  all: constructor; by repeat (split || intros ? || case_match).
Qed.

Lemma slot_keeps_owner i slot w ts o :
  owned_by w ts o → ts !! i = Some (Holding slot) →
  o = Some i ∧ shows w (Some (slot_job slot)) (Some (slot_cancel slot)).
Proof.
  intros [Hi Ho] Ht. destruct (decide (o = Some i)) as [->|Hne].
  - destruct Ho as (t & h & c & Ht' & Ho & Hs). simplify_eq. by inversion Ho; subst.
  - destruct (owner_not_idle _ _ _ (ow_holds slot)). by eapply Hi.
Qed.

Lemma pool_step c c' : pool_ok c → lane_step c c' → pool_ok c'.
Proof.
  intros Hok Hstep. pose proof Hok as [[o Hown] Htok].
  destruct Hstep as [utc instant turns presence w ts|t w ts Hst|i t t' w w' ts Ht Hrun|i p w ts Ht Haw|
                     i slot w ts Ht|i slot w ts Ht]; simpl in *.
  - by apply (pool_same w).
  - destruct (starts_idle t Hst) as [Hi Ha]. split; simpl.
    + exists o. by apply owned_snoc.
    + apply (tokens_snoc w ts o); try done; [intros x H; by destruct (Ha x)|]. intros job x ->.
      by eapply owner_not_idle; [apply (ow_publishes job x)|].
  - split; simpl.
    + apply (owned_update w ts o i t); try done.
      * intros Hi. by destruct (idle_runs t w t' w' Hi Hrun).
      * intros h k Ho Hs. by destruct (owner_runs t h k w t' w' Ho Hs Hrun).
    + apply (tokens_update w ts o i t); try done. destruct Hown as [Hi Ho]. destruct (decide (o = Some i)) as [->|Hne].
      * destruct Ho as (t0 & h & k & Ht0 & Ho & Hs). simplify_eq. by apply (owner_runs t h k w).
      * apply idle_runs; [by eapply Hi|done].
  - assert (∀ h k, ¬ owns (Asking p) h k) as Hno.
    { intros h k Ho. by inversion Ho; subst. }
    split; simpl.
    + apply (owned_update w ts o i (Asking p)); try done; [intros _; left; split; [constructor|done]|].
      intros h k Ho. by destruct (Hno h k).
    + apply (tokens_update w ts o i (Asking p)); try done. by apply same_effect; [|intros x []|].
  - destruct (slot_keeps_owner i slot w ts o Hown Ht) as [-> Hs]. split; simpl.
    + exists (Some i). apply owned_snoc; [done|constructor].
    + apply (tokens_snoc w ts (Some i)); try done. intros x [[= <-]|]; [|done].
      unfold shows, view in Hs. by injection Hs.
  - destruct (slot_keeps_owner i slot w ts o Hown Ht) as [-> Hs]. split; simpl.
    + apply (owned_update w ts (Some i) i (Holding slot)); try done.
      * intros Hi. destruct (owner_not_idle _ _ _ (ow_holds slot) Hi).
      * intros h k Ho Hsh. left. exists h, k. split; [|done]. inversion Ho; subst. constructor.
    + apply (tokens_update w ts (Some i) i (Holding slot)); try done. by apply same_effect; [|intros x []|].
Qed.

Lemma reached_ok c : reached c → pool_ok c.
Proof.
  intros (last_run & runs & utc & instant & Hs).
  apply (star_invariant lane_step pool_ok pool_step _ _ Hs). split; simpl.
  - exists None. split; [|done]. by intros j t Hj.
  - split; simpl; [intros x H; set_solver|done|by intros i t x Hi|by intros i job x Hi].
Qed.

(** *** [acquire] alone *)

Lemma elem_of_job_states s registry last_run now :
  s ∈ job_states registry last_run now ↔
  ∃ job reg, registry !! job = Some reg ∧ s = state_of last_run now (job, reg).
Proof.
  unfold job_states. rewrite elem_of_sort_by, list_elem_of_fmap. split.
  - intros ([job reg] & -> & Hin%elem_of_map_to_list). by exists job, reg.
  - intros (job & reg & Hr & ->). exists (job, reg). by rewrite elem_of_map_to_list.
Qed.

Lemma job_states_distinct registry last_run now :
  NoDup (js_job <$> job_states registry last_run now).
Proof.
  unfold job_states. rewrite (fmap_Permutation js_job _ _ (sort_by_perm _ _)), <-list_fmap_compose.
  rewrite (list_fmap_ext _ fst); [apply NoDup_fst_map_to_list|]. by intros i [job reg] _.
Qed.

Lemma elem_of_waive s job states : NoDup (js_job <$> states) →
  s ∈ waive_asker job states ↔
  (js_job s ≠ job ∧ s ∈ states) ∨ ∃ asker, asker ∈ states ∧ js_job asker = job ∧ s = waived asker.
Proof.
  intros Hnd. assert (∀ u, is_job job u = true ↔ js_job u = job) as Hp.
  { intros u. unfold is_job. by rewrite bool_decide_eq_true. }
  unfold waive_asker. destruct (find_first (is_job job) states) as [asker|] eqn:E.
  - pose proof (proj1 (find_first_key js_job job _ states asker Hp Hnd) E) as [Hin Hj].
    destruct (find_first_split _ _ _ E) as (l1 & l2 & Hl & _ & _ & Hset). rewrite Hset, Hl.
    assert (∀ u, u ∈ l1 ++ l2 → js_job u ≠ job) as Hother.
    { intros u Hu Hju. rewrite Hl, fmap_app, fmap_cons in Hnd.
      apply NoDup_app in Hnd as (_ & Hd & [Hd2 _]%NoDup_cons). rewrite Hj in Hd, Hd2.
      apply elem_of_app in Hu as [Hu|Hu]; apply (list_elem_of_fmap_2 js_job) in Hu; rewrite Hju in Hu; [|done].
      apply (Hd job Hu). left. }
    rewrite !elem_of_app, !elem_of_cons. split.
    + intros [Hs|[->|Hs]].
      * left. split; [apply Hother, elem_of_app; by left|by left].
      * right. exists asker. split; [apply elem_of_app; right; left|done].
      * left. split; [apply Hother, elem_of_app; by right|right; by right].
    + intros [[Hs [?|[->|?]]]|(u & Hu & Hju & ->)]; auto; [done|]. right. left. f_equal.
      apply elem_of_app in Hu as [Hu|[->|Hu]%elem_of_cons]; [|done|];
        (destruct (Hother u); [apply elem_of_app; auto|done]).
  - rewrite find_first_None in E. assert (∀ u, u ∈ states → js_job u ≠ job) as Hother.
    { intros u Hu Hju%Hp. by rewrite (E u Hu) in Hju. }
    split; [intros Hs; left; auto|]. intros [[_ ?]|(u & Hu & Hju & _)]; [done|]. by destruct (Hother u).
Qed.

(** What an [acquire] reads: the quiet it takes, and the states it decides on. *)
Definition quiet_read (w : World) (job : LaneJob) (idle_for : N) : N :=
  if probed (il_turns (w_lane w)) || negb (waited_on job) && probed (il_presence (w_lane w))
  then 0 else idle_for.

Definition standing (enabled : bool) (cadence : Cadence) : Registration :=
  {| rg_enabled := enabled; rg_interval_floor := cd_interval_floor cadence;
     rg_idle_threshold := cd_idle_threshold cadence; rg_exempt := cd_exempt cadence |}.

Definition states_read (w : World) (job : LaneJob) (enabled : bool) (cadence : Cadence) (waive : bool)
    : list JobState :=
  let states := job_states (<[job := standing enabled cadence]> (il_registry (w_lane w)))
                  (il_last_run (w_lane w)) (w_utc w) in
  if waive then waive_asker job states else states.

(** The fields no section of [acquire] but [Register] changes. *)
Definition kept (w w' : World) : Prop :=
  il_registry (w_lane w') = il_registry (w_lane w) ∧ il_last_run (w_lane w') = il_last_run (w_lane w) ∧
  il_runs (w_lane w') = il_runs (w_lane w) ∧ il_turns (w_lane w') = il_turns (w_lane w) ∧
  il_presence (w_lane w') = il_presence (w_lane w) ∧ w_utc w' = w_utc w ∧
  w_cancelled w' = w_cancelled w.

Lemma take_slot_runs job decision w :
  let '(r, w') := run lane_call (take_slot job decision) w in
  kept w w' ∧
  match r with
  | Some slot =>
      decision = LaneRun job ∧ il_slot (w_lane w) = false ∧
      slot = {| slot_job := job; slot_cancel := w_tokens w |} ∧
      view w' = (true, Some job, Some (w_tokens w)) ∧ w_tokens w' = w_tokens w + 1
  | None =>
      (decision = LaneRun job → il_slot (w_lane w) = true) ∧ view w' = view w ∧
      w_tokens w' = w_tokens w
  end.
Proof.
  destruct decision as [winner|r]; [|done]. unfold take_slot. destruct (decide (winner = job)) as [->|Hne].
  - unfold view. cbn [run lane_call]. destruct (il_slot (w_lane w)) eqn:Es; simpl; [|done].
    by repeat split.
  - assert (LaneRun winner ≠ LaneRun job) by congruence. cbn [run lane_call].
    by destruct (bool_decide (is_Some _)).
Qed.

Lemma run_idle_seen job idle_for w :
  run lane_call (idle_seen job idle_for) w = (quiet_read w job idle_for, w).
Proof.
  unfold idle_seen, quiet_read. cbn [run lane_call]. destruct (probed (il_turns (w_lane w))); [done|].
  destruct (waited_on job); [done|]. cbn [run lane_call]. by destruct (probed (il_presence (w_lane w))).
Qed.

Lemma count_verdict_runs job mine w :
  let w' := (run lane_call (count_verdict job mine) w).2 in
  kept w w' ∧ view w' = view w ∧ w_tokens w' = w_tokens w.
Proof. by destruct mine as [[|r]|]. Qed.

Lemma acquire_runs w job enabled cadence waive saw idle_for :
  let inputs := lane_inputs saw (quiet_read w job idle_for)
                  (states_read w job enabled cadence waive) (Some job) in
  let '(r, w') := run lane_call (acquire job enabled cadence waive saw idle_for) w in
  kept (in_lane (λ l, with_registry (<[job := standing enabled cadence]> (il_registry l)) l) w) w' ∧
  match r with
  | Some slot =>
      select_next inputs = LaneRun job ∧ il_slot (w_lane w) = false ∧
      slot = {| slot_job := job; slot_cancel := w_tokens w |} ∧
      view w' = (true, Some job, Some (w_tokens w)) ∧ w_tokens w' = w_tokens w + 1
  | None =>
      (select_next inputs = LaneRun job → il_slot (w_lane w) = true) ∧ view w' = view w ∧
      w_tokens w' = w_tokens w
  end.
Proof.
  intros inputs. unfold acquire. rewrite run_bind, run_idle_seen. cbn [run lane_call].
  match goal with |- context [run _ (prog_bind (count_verdict job ?m) _) ?v] =>
    set (mine := m); set (w1 := v) end.
  rewrite run_bind. pose proof (count_verdict_runs job mine w1) as Hc.
  destruct (run lane_call (count_verdict job mine) w1) as [u w2]. simpl in Hc. destruct Hc as (Hk & Hv & Ht).
  change (lane_inputs _ _ _ _) with inputs.
  pose proof (take_slot_runs job (select_next inputs) w2) as Hs.
  destruct (run lane_call (take_slot job (select_next inputs)) w2) as [r w']. destruct Hs as [Hk' Hs].
  assert (kept w1 w') as Hkept by (unfold kept in *; intuition congruence).
  split; [exact Hkept|]. rewrite Hv, Ht in Hs. change (view w1) with (view w) in Hs.
  change (w_tokens w1) with (w_tokens w) in Hs.
  replace (il_slot (w_lane w2)) with (il_slot (w_lane w)) in Hs; [exact Hs|].
  unfold view in Hv. by injection Hv.
Qed.

(** *** What the gates ask of a job that gets the slot *)

Lemma gate_passed i s : ready i s →
  js_enabled s = true ∧ (li_saw_activity i || js_exempt s = true) ∧
  js_idle_threshold s ≤ li_idle_for i ∧
  ∀ since, js_since_last_run s = Some since → js_interval_floor s ≤ since.
Proof.
  unfold ready, gate_of, should_run. simpl. destruct (js_enabled s); [|done].
  destruct (li_saw_activity i || js_exempt s); [|done].
  destruct (N.ltb_spec (li_idle_for i) (js_idle_threshold s)); [done|].
  destruct (js_since_last_run s) as [d|]; [|by repeat split].
  destruct (N.ltb_spec d (js_interval_floor s)); [done|]. repeat split; try done. by intros since [= <-].
Qed.

Lemma gate_passes i s :
  js_enabled s = true → li_saw_activity i || js_exempt s = true →
  js_idle_threshold s ≤ li_idle_for i →
  (∀ since, js_since_last_run s = Some since → js_interval_floor s ≤ since) → ready i s.
Proof.
  unfold ready, gate_of, should_run. simpl. intros -> -> Hi Hf. simpl.
  destruct (N.ltb_spec (li_idle_for i) (js_idle_threshold s)); [lia|].
  destruct (js_since_last_run s) as [d|]; [|done]. specialize (Hf d eq_refl).
  destruct (N.ltb_spec d (js_interval_floor s)); [lia|done].
Qed.

(** The asker's own state among those read. *)
Lemma asker_state w job enabled cadence waive s :
  s ∈ states_read w job enabled cadence waive → js_job s = job →
  let own := state_of (il_last_run (w_lane w)) (w_utc w) (job, standing enabled cadence) in
  s = if waive then waived own else own.
Proof.
  set (states := job_states (<[job := standing enabled cadence]> (il_registry (w_lane w)))
                            (il_last_run (w_lane w)) (w_utc w)).
  assert (∀ u, u ∈ states → js_job u = job →
            u = state_of (il_last_run (w_lane w)) (w_utc w) (job, standing enabled cadence)) as Hown.
  { intros u (j & reg & Hreg & ->)%elem_of_job_states E. simpl in E. subst j.
    rewrite lookup_insert_eq in Hreg. by injection Hreg as <-. }
  unfold states_read. fold states. destruct waive; intros Hs Hj; [|by apply Hown].
  apply elem_of_waive in Hs as [[? _]|(u & Hu & Hju & ->)]; [done| |apply job_states_distinct].
  simpl. by rewrite (Hown u Hu Hju).
Qed.

(** Another job's state is what its last tick registered, whatever the asker's waiver. *)
Lemma other_state w job enabled cadence waive j reg :
  j ≠ job → il_registry (w_lane w) !! j = Some reg →
  state_of (il_last_run (w_lane w)) (w_utc w) (j, reg) ∈ states_read w job enabled cadence waive.
Proof.
  intros Hj Hreg. unfold states_read.
  assert (state_of (il_last_run (w_lane w)) (w_utc w) (j, reg) ∈
          job_states (<[job := standing enabled cadence]> (il_registry (w_lane w)))
            (il_last_run (w_lane w)) (w_utc w)) as Hin.
  { apply elem_of_job_states. exists j, reg. by rewrite lookup_insert_ne. }
  destruct waive; [|exact Hin]. apply elem_of_waive; [apply job_states_distinct|]. left. by split.
Qed.

(** And every other job's state read is one of those. *)
Lemma read_state w job enabled cadence waive s :
  s ∈ states_read w job enabled cadence waive → js_job s ≠ job →
  ∃ reg, il_registry (w_lane w) !! js_job s = Some reg ∧
    s = state_of (il_last_run (w_lane w)) (w_utc w) (js_job s, reg).
Proof.
  intros Hs Hj. unfold states_read in Hs.
  set (states := job_states (<[job := standing enabled cadence]> (il_registry (w_lane w)))
                            (il_last_run (w_lane w)) (w_utc w)) in Hs.
  assert (s ∈ states) as (j & reg & Hreg & ->)%elem_of_job_states.
  { destruct waive; [|exact Hs]. apply elem_of_waive in Hs as [[_ ?]|(u & Hu & Hju & ->)]; [done| |apply job_states_distinct].
    done. }
  simpl in *. exists reg. by rewrite lookup_insert_ne in Hreg.
Qed.

(** A granted [acquire] passed the gates of its job, on the quiet it read. *)
Lemma granted_gates w job enabled cadence waive saw idle_for slot w' :
  run lane_call (acquire job enabled cadence waive saw idle_for) w = (Some slot, w') →
  enabled = true ∧
  (waive = false →
     saw || cd_exempt cadence = true ∧ cd_idle_threshold cadence ≤ quiet_read w job idle_for ∧
     ∀ at_, il_last_run (w_lane w) !! job = Some at_ →
       cd_interval_floor cadence ≤ elapsed_since (w_utc w) at_).
Proof.
  intros E. pose proof (acquire_runs w job enabled cadence waive saw idle_for) as H. cbv zeta in H.
  rewrite E in H. destruct H as (_ & Hsel & _). apply select_next_run in Hsel as [(s & Hs & Hj & Hr) _].
  pose proof (asker_state w job enabled cadence waive s Hs Hj) as Es. cbv zeta in Es.
  apply gate_passed in Hr as (He & Ha & Hi & Hf). simpl in Ha, Hi. rewrite Es in He, Ha, Hi, Hf.
  destruct waive; simpl in *; [done|]. split; [done|]. intros _. split; [done|]. split; [done|].
  intros at_ Hat. apply Hf. by rewrite Hat.
Qed.

Lemma dropping_runs w ts i p :
  ts !! i = Some (Dropping p) →
  star lane_step (w, ts)
    ((run lane_call p w).2, <[i := Dropping (Ret (run lane_call p w).1)]> ts).
Proof.
  revert w ts. induction p as [u|R c k IH]; intros w ts Hi; simpl.
  - rewrite list_insert_id by done. apply star_refl.
  - destruct (lane_call R c w) as [r v] eqn:E. eapply star_step.
    + eapply ls_run; [exact Hi|]. by rewrite dropping_step.
    + rewrite E. simpl. specialize (IH r v (<[i := Dropping (k r)]> ts)).
      rewrite list_insert_insert_eq in IH. apply IH. apply list_lookup_insert_eq. by eapply lookup_lt_Some.
Qed.

Lemma asking_runs w ts i p :
  ts !! i = Some (Asking p) →
  star lane_step (w, ts)
    ((run lane_call p w).2, <[i := Asking (Ret (run lane_call p w).1)]> ts).
Proof.
  revert w ts. induction p as [u|R c k IH]; intros w ts Hi; simpl.
  - rewrite list_insert_id by done. apply star_refl.
  - destruct (lane_call R c w) as [r v] eqn:E. eapply star_step.
    + eapply ls_run; [exact Hi|]. by rewrite asking_step.
    + rewrite E. simpl. specialize (IH r v (<[i := Asking (k r)]> ts)).
      rewrite list_insert_insert_eq in IH. apply IH. apply list_lookup_insert_eq. by eapply lookup_lt_Some.
Qed.

Lemma drop_slot_runs slot w :
  let w' := (run lane_call (drop_slot slot) w).2 in
  view w' = (false, None, None) ∧
  il_last_run (w_lane w') = <[slot_job slot := w_utc w]> (il_last_run (w_lane w)) ∧
  il_runs (w_lane w') = (λ sent, sent ++ [(slot_job slot, w_utc w)]) <$> il_runs (w_lane w).
Proof. done. Qed.

(** Where an owner is, letting it run frees the slot. *)
Lemma dropping_frees w ts i p :
  ts !! i = Some (Dropping p) → (∃ h c, owns (Dropping p) h c) →
  ∃ c', star lane_step (w, ts) c' ∧ il_slot (w_lane c'.1) = false.
Proof.
  intros Hi (h & c & Ho). eexists. split; [by apply dropping_runs|]. by inversion Ho.
Qed.

Lemma holding_frees w ts i slot :
  ts !! i = Some (Holding slot) → ∃ c', star lane_step (w, ts) c' ∧ il_slot (w_lane c'.1) = false.
Proof.
  intros Hi. destruct (dropping_frees w (<[i := Dropping (drop_slot slot)]> ts) i (drop_slot slot))
    as (c' & Hs & Hf).
  - apply list_lookup_insert_eq. by eapply lookup_lt_Some.
  - eexists _, _. constructor.
  - exists c'. split; [|exact Hf]. eapply star_step; [by eapply ls_drop|exact Hs].
Qed.

Lemma owner_frees w ts i t h c :
  ts !! i = Some t → owns t h c → ∃ c', star lane_step (w, ts) c' ∧ il_slot (w_lane c'.1) = false.
Proof.
  intros Hi Ho. pose proof (lookup_lt_Some _ _ _ Hi) as Hlt.
  assert (∀ p, t = Asking p → (∃ slot, (run lane_call p w).1 = Some slot) →
            ∃ c', star lane_step (w, ts) c' ∧ il_slot (w_lane c'.1) = false) as Hask.
  { intros p -> [slot Hr]. pose proof (asking_runs w ts i p Hi) as Hs. rewrite Hr in Hs.
    destruct (holding_frees (run lane_call p w).2 (<[i := Holding slot]> ts) i slot) as (c' & Hs' & Hf);
      [by apply list_lookup_insert_eq|].
    exists c'. split; [|exact Hf]. eapply star_trans; [exact Hs|]. eapply star_step; [|exact Hs'].
    rewrite <-(list_insert_insert_eq ts i (Holding slot) (Asking (Ret (Some slot)))).
    eapply ls_run; [by apply list_lookup_insert_eq|done]. }
  destruct t as [p|slot|p| | |]; try by inversion Ho.
  - apply (Hask p eq_refl). inversion Ho; subst; by eexists.
  - by apply (holding_frees w ts i slot).
  - apply (dropping_frees w ts i p Hi). by exists h, c.
Qed.

(** ** Properties *)

(** C5: whatever acquires, drops, preempts and other operations interleave, and whichever are
    abandoned at an await, at most one task holds the slot; the lock, the holder shown and the
    active token then name that task, so a preemption cancels its token and its drop frees the
    slot, dated and logged. The slot is never wedged: taken, it can always be brought free again,
    and with every task done nothing of it is left. And a preemption aimed at an earlier owner
    never reaches a new one: a token about to be shown is not cancelled and nobody is about to. *)
Theorem one_slot_at_a_time w ts :
  reached (w, ts) →
  (∀ i j slot slot', ts !! i = Some (Holding slot) → ts !! j = Some (Holding slot') → i = j) ∧
  (∀ i slot, ts !! i = Some (Holding slot) →
     view w = (true, Some (slot_job slot), Some (slot_cancel slot)) ∧
     slot_cancel slot ∈ w_cancelled (run lane_call preempt w).2 ∧
     let freed := (run lane_call (drop_slot slot) w).2 in
     view freed = (false, None, None) ∧
     il_last_run (w_lane freed) = <[slot_job slot := w_utc w]> (il_last_run (w_lane w)) ∧
     il_runs (w_lane freed) = (λ sent, sent ++ [(slot_job slot, w_utc w)]) <$> il_runs (w_lane w)) ∧
  (∃ c', star lane_step (w, ts) c' ∧ il_slot (w_lane c'.1) = false) ∧
  ((∀ t, t ∈ ts → t = Done) → view w = (false, None, None)) ∧
  (∀ i job x, ts !! i = Some (publishes job x) →
     x ∉ w_cancelled w ∧ ∀ t, t ∈ ts → ¬ aims x t).
Proof.
  intros Hr. destruct (reached_ok _ Hr) as [[o Hown] [_ _ _ Hpub]]. simpl in *.
  split; [|split; [|split; [|split]]].
  - intros i j s s' Hi Hj. destruct (slot_keeps_owner i s w ts o Hown Hi) as [E _].
    destruct (slot_keeps_owner j s' w ts o Hown Hj) as [E' _]. congruence.
  - intros i slot Hi. destruct (slot_keeps_owner i slot w ts o Hown Hi) as [_ Hs]. split; [exact Hs|]. split.
    + unfold shows, view in Hs. injection Hs as _ _ Hc. unfold preempt. cbn [run lane_call]. rewrite Hc.
      cbn. set_solver.
    + apply drop_slot_runs.
  - destruct Hown as [_ Ho]. destruct o as [i|].
    + destruct Ho as (t & h & c & Ht & Ho & _). by apply (owner_frees w ts i t h c).
    + exists (w, ts). split; [apply star_refl|]. simpl. unfold view in Ho. by injection Ho.
  - intros Hdone. destruct Hown as [_ Ho]. destruct o as [i|]; [|exact Ho].
    destruct Ho as (t & h & c & Ht & Ho & _). rewrite (Hdone t) in Ho by by eapply list_elem_of_lookup_2.
    inversion Ho.
  - intros i job x Hi. destruct (Hpub i job x Hi) as (_ & Hnc & Hna). split; [exact Hnc|].
    intros t [j Hj]%list_elem_of_lookup_1. by apply (Hna j).
Qed.

(** A pond whose long task has just been given the slot. *)
Definition task_cadence : Cadence :=
  {| cd_interval_floor := from_secs 1; cd_idle_threshold := from_secs 2; cd_exempt := true |}.
Definition task_asks : Prog LaneCall (option LaneSlot) :=
  acquire LongTaskStep true task_cadence false false (from_secs 60).
Definition task_slot : LaneSlot := {| slot_job := LongTaskStep; slot_cancel := 0 |}.
Definition task_running : World :=
  (run lane_call task_asks (fresh ∅ (Some []) 1000 1000).1).2.

Lemma task_reached : reached (task_running, [Holding task_slot]).
Proof.
  exists ∅, (Some []), 1000%Z, 1000%Z.
  eapply star_step; [apply (ls_start (Asking task_asks)); constructor|].
  eapply star_trans; [by apply (asking_runs _ _ 0)|].
  eapply star_step; [|apply star_refl].
  apply (ls_run 0 (Asking (Ret (Some task_slot))) (Holding task_slot)); reflexivity.
Qed.

Lemma one_slot_at_a_time_witness :
  slot_cancel task_slot ∈ w_cancelled (run lane_call preempt task_running).2.
Proof.
  destruct (one_slot_at_a_time task_running [Holding task_slot] task_reached) as (_ & H & _).
  apply (H 0%nat task_slot eq_refl).
Defined.

(** Asking for the slot: only a job that passes its own gates gets it, only while it is free,
    and never before a compaction that may run. Unasked, that means no turn in flight and, for a
    chore, nobody in view, unless it wants no quiet at all; enough quiet; and its floor waited
    out. Asked by hand it is spared those, and that alone: what it leaves in the registry is its
    standing cadence, waived or not, so the waiver never reaches another job. A refusal leaves
    the slot, its holder and its token as they were, and no date moves until a slot is dropped. *)
Theorem acquire_passes_gates w job enabled cadence waive saw idle_for r w' :
  run lane_call (acquire job enabled cadence waive saw idle_for) w = (r, w') →
  il_registry (w_lane w') = <[job := standing enabled cadence]> (il_registry (w_lane w)) ∧
  il_last_run (w_lane w') = il_last_run (w_lane w) ∧
  match r with
  | None => view w' = view w
  | Some slot =>
      slot_job slot = job ∧ il_slot (w_lane w) = false ∧ enabled = true ∧
      view w' = (true, Some job, Some (slot_cancel slot)) ∧ slot_cancel slot = w_tokens w ∧
      (waive = false →
         saw || cd_exempt cadence = true ∧ cd_idle_threshold cadence ≤ idle_for ∧
         (probed (il_turns (w_lane w)) = true → cd_idle_threshold cadence = 0) ∧
         (waited_on job = false → probed (il_presence (w_lane w)) = true →
            cd_idle_threshold cadence = 0) ∧
         ∀ at_, il_last_run (w_lane w) !! job = Some at_ →
           cd_interval_floor cadence ≤ elapsed_since (w_utc w) at_) ∧
      (∀ reg, il_registry (w_lane w) !! Compaction = Some reg →
         ready (lane_inputs saw (quiet_read w job idle_for) [] None)
           (state_of (il_last_run (w_lane w)) (w_utc w) (Compaction, reg)) → job = Compaction)
  end.
Proof.
  intros E. pose proof (acquire_runs w job enabled cadence waive saw idle_for) as H. cbv zeta in H.
  rewrite E in H. destruct H as [Hk H]. unfold kept in Hk. simpl in Hk. split; [apply Hk|]. split; [apply Hk|].
  destruct r as [slot|]; [|apply H]. destruct H as (Hsel & Hfree & -> & Hv & _).
  destruct (granted_gates _ _ _ _ _ _ _ _ _ E) as [He Hg]. simpl.
  do 3 (split; [done|]). split; [exact Hv|]. split; [done|]. split.
  - intros Hw. destruct (Hg Hw) as (Ha & Hi & Hf). split; [exact Ha|]. unfold quiet_read in Hi.
    split; [by destruct (probed (il_turns (w_lane w)) || _); lia|]. split; [intros Ht; rewrite Ht in Hi; simpl in Hi; lia|].
    split; [|exact Hf]. intros Hj Hp. rewrite Hj, Hp, orb_true_r in Hi. lia.
  - intros reg Hreg Hready. destruct (decide (job = Compaction)) as [|Hne]; [done|].
    apply select_next_run in Hsel as [_ Hc]. eapply Hc; [by apply other_state|exact Hready|done].
Qed.

Lemma acquire_passes_gates_witness :
  il_registry (w_lane task_running) !! LongTaskStep = Some (standing true task_cadence).
Proof.
  pose proof (acquire_passes_gates (fresh ∅ (Some []) 1000 1000).1 LongTaskStep true task_cadence false
    false (from_secs 60) (Some task_slot) task_running eq_refl) as [-> _].
  apply lookup_insert_eq.
Defined.

(** *** A person in view, a chore that has waited, and the member's task *)

(** Somebody is in view of the camera and no turn is in flight; a chore that may run when all is
    quiet has waited out its patience, every chore has run before, and no compaction is wanted. *)
Record held_back (chore_ : LaneJob) (cadence : Cadence) (w : World) : Prop := {
  hb_chore : waited_on chore_ = false;
  hb_turns : probed (il_turns (w_lane w)) = false;
  hb_presence : probed (il_presence (w_lane w)) = true;
  hb_registered : il_registry (w_lane w) !! chore_ = Some (standing true cadence);
  hb_quiet : 0 < cd_idle_threshold cadence;
  hb_waited : ∃ at_, il_last_run (w_lane w) !! chore_ = Some at_ ∧
    CHORE_PATIENCE ≤ elapsed_since (w_utc w) at_ ∧
    cd_interval_floor cadence ≤ elapsed_since (w_utc w) at_;
  hb_compaction : ∀ reg, il_registry (w_lane w) !! Compaction = Some reg → rg_enabled reg = false;
  hb_ran : ∀ j reg, il_registry (w_lane w) !! j = Some reg → waited_on j = false →
    is_Some (il_last_run (w_lane w) !! j);
}.

(** Time passes; what the probes answer stays. *)
Definition later (d : N) (w : World) : World :=
  outside (w_utc w + Z.of_N d) (w_instant w + Z.of_N d) (il_turns (w_lane w))
    (il_presence (w_lane w)) w.

(** Ticks of the long task, with its cadence and waiver, and of the chore: after how long, and
    with what quiet of the household. *)
Inductive LaneTick : Type :=
| TaskTick (cadence : Cadence) (waive : bool) (after quiet : N)
| ChoreTick (after quiet : N).

Definition tick_quiet (t : LaneTick) : N :=
  match t with TaskTick _ _ _ quiet | ChoreTick _ quiet => quiet end.

Definition tick (chore_ : LaneJob) (cadence : Cadence) (t : LaneTick) (w : World)
    : option LaneSlot * World :=
  match t with
  | TaskTick cadence waive after quiet =>
      run lane_call (acquire LongTaskStep true cadence waive true quiet) (later after w)
  | ChoreTick after quiet =>
      run lane_call (acquire chore_ true cadence false true quiet) (later after w)
  end.

Fixpoint ticks (chore_ : LaneJob) (cadence : Cadence) (l : list LaneTick) (w : World)
    : list (option LaneSlot) :=
  match l with
  | [] => []
  | t :: l => let '(r, w) := tick chore_ cadence t w in r :: ticks chore_ cadence l w
  end.

Lemma held_back_later chore_ cadence d w :
  held_back chore_ cadence w → held_back chore_ cadence (later d w).
Proof.
  intros [H1 H2 H3 H4 H5 (at_ & Ha & Hb & Hc) H7 H8]. split; try done. exists at_. split; [exact Ha|].
  unfold later, elapsed_since in *. simpl. lia.
Qed.

(** A refused tick of either leaves it so. *)
Lemma held_back_refused chore_ cadence w job cadence' waive saw quiet w' :
  held_back chore_ cadence w → job = LongTaskStep ∨ job = chore_ ∧ cadence' = cadence →
  run lane_call (acquire job true cadence' waive saw quiet) w = (None, w') →
  held_back chore_ cadence w'.
Proof.
  intros [H1 H2 H3 H4 H5 H6 H7 H8] Hjob E.
  pose proof (acquire_runs w job true cadence' waive saw quiet) as H. cbv zeta in H. rewrite E in H.
  destruct H as ((Kr & Kl & _ & Kt & Kp & Ku & _) & _). simpl in *.
  assert (job ≠ Compaction) as Hjc by (destruct Hjob as [->|[-> _]]; [done|intros ->; done]).
  split; try done; rewrite ?Kt, ?Kp, ?Kl, ?Ku; try done; rewrite ?Kr.
  - destruct Hjob as [->|[-> ->]]; [|apply lookup_insert_eq].
    rewrite lookup_insert_ne; [exact H4|]. intros E'. by rewrite <-E' in H1.
  - intros reg. rewrite lookup_insert_ne by done. apply H7.
  - intros j reg [[-> <-]|[Hne Hreg]]%lookup_insert_Some Hj; [|by eapply H8].
    destruct Hjob as [->|[-> _]]; [done|]. by eapply H8.
Qed.

Lemma held_back_task chore_ cadence w cadence' waive quiet :
  held_back chore_ cadence w → cd_idle_threshold cadence ≤ quiet →
  (run lane_call (acquire LongTaskStep true cadence' waive true quiet) w).1 = None.
Proof.
  intros [H1 H2 H3 H4 H5 (at_ & Ha & Hb & Hc) H7 H8] Hq.
  pose proof (acquire_runs w LongTaskStep true cadence' waive true quiet) as H. cbv zeta in H.
  destruct (run _ _ _) as [[slot|] w']; [|done]. destruct H as (_ & Hsel & _). exfalso. revert Hsel.
  set (i := lane_inputs _ _ _ _).
  assert (chore_ ≠ LongTaskStep) as Hct by (intros ->; done).
  assert (is_chore (state_of (il_last_run (w_lane w)) (w_utc w) (chore_, standing true cadence))) as Hchore.
  { split; simpl; [by intros ->|done]. }
  assert (∀ v, v ∈ li_jobs i → js_job v ≠ LongTaskStep →
            ∃ reg, il_registry (w_lane w) !! js_job v = Some reg ∧
              v = state_of (il_last_run (w_lane w)) (w_utc w) (js_job v, reg)) as Hread.
  { intros v Hv Hj. exact (read_state _ _ _ _ _ v Hv Hj). }
  apply (select_next_starved i (state_of (il_last_run (w_lane w)) (w_utc w) (chore_, standing true cadence))).
  - apply other_state; [done|exact H4].
  - apply gate_passes; simpl; [done|done|unfold quiet_read; rewrite H2; simpl; exact Hq|].
    intros since. rewrite Ha. by intros [= <-].
  - exact Hchore.
  - unfold starved. simpl. rewrite Ha. simpl. by apply N.leb_le.
  - intros v Hv Hr Hj. destruct (Hread v Hv) as (reg & Hreg & Ev); [by rewrite Hj|]. rewrite Hj in Hreg.
    apply gate_passed in Hr as (He & _). rewrite Ev in He. simpl in He. by rewrite (H7 reg Hreg) in He.
  - intros v Hv Hr [Hnc Hnl]. destruct (Hread v Hv Hnl) as (reg & Hreg & Ev). rewrite Ev. simpl.
    assert (waited_on (js_job v) = false) as Hw by (by destruct (js_job v)).
    destruct (H8 _ _ Hreg Hw) as [at' Hat]. rewrite Hat. by eexists.
Qed.

Lemma held_back_chore chore_ cadence w quiet :
  held_back chore_ cadence w →
  (run lane_call (acquire chore_ true cadence false true quiet) w).1 = None.
Proof.
  intros [H1 H2 H3 H4 H5 _ _ _]. destruct (run _ _ _) as [[slot|] w'] eqn:E; [|done].
  destruct (granted_gates _ _ _ _ _ _ _ _ _ E) as [_ Hg]. destruct (Hg eq_refl) as (_ & Hi & _).
  unfold quiet_read in Hi. rewrite H1, H3, orb_true_r in Hi. lia.
Qed.

(** While a person is in view of the camera and the household is otherwise quiet, one chore
    that has waited out its patience keeps a member's long task from the slot for good: at each
    of its ticks, asked by hand or not, the task loses to the chore, which is judged there on the
    household's real quiet; at its own ticks the chore is judged on no quiet at all and stands
    down. The comment in [acquire] says a person in view holds back only unasked chores, never a
    long task the member is waiting on. *)
Theorem presence_starves_long_task chore_ cadence l w :
  held_back chore_ cadence w →
  Forall (λ t, cd_idle_threshold cadence ≤ tick_quiet t) l →
  Forall (λ r, r = None) (ticks chore_ cadence l w).
Proof.
  intros Hw Hl. revert w Hw. induction Hl as [|t l Hq Hl IH]; intros w Hw; simpl; [constructor|].
  assert ((tick chore_ cadence t w).1 = None ∧ held_back chore_ cadence (tick chore_ cadence t w).2) as [Hr Hb].
  { destruct t as [cadence' waive d quiet|d quiet]; unfold tick; apply (held_back_later _ _ d) in Hw.
    - pose proof (held_back_task chore_ cadence (later d w) cadence' waive quiet Hw Hq) as Hn.
      split; [exact Hn|]. destruct (run _ _ _) as [r w'] eqn:E. cbn [fst snd] in Hn |- *. subst r.
      apply (held_back_refused chore_ cadence _ _ _ _ _ _ _ Hw (or_introl eq_refl) E).
    - pose proof (held_back_chore chore_ cadence (later d w) quiet Hw) as Hn.
      split; [exact Hn|]. destruct (run _ _ _) as [r w'] eqn:E. cbn [fst snd] in Hn |- *. subst r.
      apply (held_back_refused chore_ cadence _ _ _ _ _ _ _ Hw (or_intror (conj eq_refl eq_refl)) E). }
  destruct (tick chore_ cadence t w) as [r w']. simpl in Hr, Hb. constructor; [exact Hr|]. by apply IH.
Qed.

(** The summaries were last refreshed an hour ago and somebody sits in the room; with nobody there
    the chore gets its turn, and with no chore waiting the task does. *)
Definition chore_cadence : Cadence :=
  {| cd_interval_floor := from_secs 600; cd_idle_threshold := from_secs 120; cd_exempt := false |}.
Definition sat_in_view (last : Z) (present : bool) : World :=
  outside (Z.of_N (from_secs 10000)) 0 (Some false) (Some present)
    (in_lane (with_registry {[SummaryRefresh := standing true chore_cadence]})
       (fresh {[SummaryRefresh := last]} None 0 0).1).

Lemma presence_starves_long_task_witness :
  Forall (λ r, r = None)
    (ticks SummaryRefresh chore_cadence
       [TaskTick task_cadence false 0 (from_secs 900); ChoreTick 5 (from_secs 900);
        TaskTick task_cadence true 5 (from_secs 910)] (sat_in_view 0 true)) ∧
  is_Some (tick SummaryRefresh chore_cadence (ChoreTick 0 (from_secs 900)) (sat_in_view 0 false)).1 ∧
  is_Some (tick SummaryRefresh chore_cadence (TaskTick task_cadence false 0 (from_secs 900))
             (sat_in_view (Z.of_N (from_secs 9900)) true)).1.
Proof.
  split; [|split; by eexists].
  apply presence_starves_long_task.
  - split; try done.
    + exists 0%Z. split; [done|]. split; vm_compute; discriminate.
    + intros j reg H _. change (il_registry _) with ({[SummaryRefresh := standing true chore_cadence]} : gmap LaneJob Registration) in H.
      apply lookup_singleton_Some in H as [<- _]. by eexists.
  - repeat constructor; vm_compute; discriminate.
Defined.
