(* ===== verification/Booking.v ===== *)
(** * Booking: a member's rides, quoted, confirmed, requested and followed

    [crates/pond-core/src/rides/]: [domain.rs], [booking.rs] ([RideBooking]) and [tracking.rs]
    ([track_once]). Every operation is a program of the calls it makes: a section under the
    mutex of the rides ([Locked]), the provider's, the store's and the notifier's methods, a new
    id, the clock. Between two calls other operations run, an operation may be dropped (an HTTP
    handler whose phone goes away), and the pond may stop and start again with what the store
    kept ([pond_step]).

    An [f64] is its bits, and [distance_km], built on the platform's trigonometry, is an argument
    with the test [> MAX_RIDE_KM]. A [DateTime] is nanoseconds. The order in which a hash map
    lists its rides is [map_to_list]'s. Error texts from outside are kept as they come. *)
From S2P Require Import Prelude Prog Text.
Local Open Scope N_scope.

Notation f64 := N (only parsing).

(** ** [domain.rs] *)

Record Place := { pl_name : text; pl_latitude : f64; pl_longitude : f64 }.

Record FareQuote := {
  fq_fare_id : text;
  fq_display : text;
  fq_currency_code : text;
  fq_expires_at : Z;
  fq_pickup_eta_mins : option N;
  fq_product_id : option text;
}.

Inductive RideStatus : Type :=
| Processing | NoDriversAvailable | Accepted | Arriving | InProgress | DriverCanceled
| RiderCanceled | Completed | OtherStatus (s : text).

#[export] Instance RideStatus_eq_dec : EqDecision RideStatus.
Proof. solve_decision. Defined.

Definition ride_is_terminal (s : RideStatus) : bool :=
  match s with
  | NoDriversAvailable | DriverCanceled | RiderCanceled | Completed => true
  | _ => false
  end.

Record Driver := { dr_name : text; dr_phone_number : option text; dr_rating : option N }.
Record Vehicle := { ve_make : text; ve_model : text; ve_license_plate : text }.

Record Ride := {
  ri_request_id : text;
  ri_status : RideStatus;
  ri_driver : option Driver;
  ri_vehicle : option Vehicle;
  ri_pickup_eta_mins : option N;
}.

Definition announcement (r : Ride) (previous : option RideStatus) : option text :=
  if bool_decide (previous = Some (ri_status r)) then None else
  let car := (λ v, ve_make v ++ lit " " ++ ve_model v ++ lit " " ++ ve_license_plate v) <$> ri_vehicle r in
  let driver := dr_name <$> ri_driver r in
  match ri_status r with
  | Processing => None
  | Accepted =>
      match driver, car, ri_pickup_eta_mins r with
      | Some d, Some c, Some m =>
          Some (d ++ lit " is coming in a " ++ c ++ lit ", " ++ dec m ++ lit " min away.")
      | Some d, Some c, None => Some (d ++ lit " is coming in a " ++ c ++ lit ".")
      | _, _, _ => Some (lit "A driver accepted your ride.")
      end
  | Arriving =>
      match car with
      | Some c => Some (lit "Your driver is arriving: " ++ c ++ lit ".")
      | None => Some (lit "Your driver is arriving.")
      end
  | InProgress => Some (lit "Your trip has started.")
  | Completed => Some (lit "You have arrived.")
  | NoDriversAvailable => Some (lit "No drivers were available. Nothing was charged by this request.")
  | DriverCanceled => Some (lit "The driver cancelled the ride.")
  | RiderCanceled => Some (lit "The ride was cancelled.")
  | OtherStatus _ => None
  end.

Inductive RequestFailure : Type := Refused (reason : text) | Uncertain (reason : text).

Inductive BookingState : Type :=
| AwaitingConfirmation
| Requesting
| Requested (ride : Ride)
| OutcomeUnknown (reason : text)
| Declined
| BookingFailed (reason : text).

Record QuotedTrip := { qt_pickup : Place; qt_dropoff : Place; qt_quote : FareQuote }.

Record PendingRide := {
  pr_id : text;
  pr_profile_id : text;
  pr_trip : option QuotedTrip;
  pr_created_at : Z;
  pr_state : BookingState;
}.

Definition with_state (s : BookingState) (p : PendingRide) : PendingRide :=
  {| pr_id := pr_id p; pr_profile_id := pr_profile_id p; pr_trip := pr_trip p;
     pr_created_at := pr_created_at p; pr_state := s |}.

Inductive Reading : Type := On | GaveUp | GaveUpTold.

#[export] Instance Reading_eq_dec : EqDecision Reading.
Proof. solve_decision. Defined.

Record SavedRide := {
  sr_ride : PendingRide;
  sr_announced : option RideStatus;
  sr_failed_reads : N;
  sr_reading : Reading;
}.

(** ** [booking.rs] *)

(** [Entry] has the fields of [SavedRide]; [saved] and [from_saved] copy them. *)
Notation Entry := SavedRide (only parsing).
Notation Rides := (gmap text SavedRide).

Definition MAX_FAILED_READS : N := 40.
Definition KEEP_FINISHED : Z := 24 * 3600 * 1000000000.

Inductive BookingError : Type :=
| RideNotFound
| NotYours
| Expired
| AlreadyDecided (word : text)
| NotRequested
| TooFar (km : f64)
| ProviderError (error : text).

Definition new_entry (ride : PendingRide) (announced : option RideStatus) : Entry :=
  {| sr_ride := ride; sr_announced := announced; sr_failed_reads := 0; sr_reading := On |}.

Definition entry_with_state (s : BookingState) (e : Entry) : Entry :=
  {| sr_ride := with_state s (sr_ride e); sr_announced := sr_announced e;
     sr_failed_reads := sr_failed_reads e; sr_reading := sr_reading e |}.
Definition entry_with_announced (a : option RideStatus) (e : Entry) : Entry :=
  {| sr_ride := sr_ride e; sr_announced := a; sr_failed_reads := sr_failed_reads e;
     sr_reading := sr_reading e |}.
Definition entry_with_failed_reads (n : N) (e : Entry) : Entry :=
  {| sr_ride := sr_ride e; sr_announced := sr_announced e; sr_failed_reads := n;
     sr_reading := sr_reading e |}.
Definition entry_with_reading (r : Reading) (e : Entry) : Entry :=
  {| sr_ride := sr_ride e; sr_announced := sr_announced e; sr_failed_reads := sr_failed_reads e;
     sr_reading := r |}.

Notation entry_state e := (pr_state (sr_ride e)).

Definition is_over (e : Entry) (now : Z) : bool :=
  match sr_reading e with
  | GaveUpTold => true
  | GaveUp => false
  | On =>
      match entry_state e with
      | Declined | BookingFailed _ => true
      | AwaitingConfirmation =>
          match pr_trip (sr_ride e) with
          | Some trip => (fq_expires_at (qt_quote trip) <=? now)%Z
          | None => true
          end
      | Requested ride =>
          ride_is_terminal (ri_status ride) && bool_decide (sr_announced e = Some (ri_status ride))
      | Requesting | OutcomeUnknown _ => false
      end
  end.

Inductive RideNews : Type :=
| NewsStatus (status : RideStatus) (message : option text)
| LostTrack (message : text).

Definition state_word (s : BookingState) : text :=
  match s with
  | AwaitingConfirmation => lit "waiting"
  | Requesting => lit "being requested"
  | Requested _ => lit "requested"
  | OutcomeUnknown _ => lit "sent without a clear answer"
  | Declined => lit "declined"
  | BookingFailed _ => lit "tried and failed"
  end.

Definition owned (rides : Rides) (id profile_id : text) : result PendingRide BookingError :=
  match rides !! id with
  | None => Err RideNotFound
  | Some e => if decide (pr_profile_id (sr_ride e) = profile_id) then Ok (sr_ride e) else Err NotYours
  end.

Definition follows (request_id : text) (e : Entry) : bool :=
  match entry_state e with Requested ride => bool_decide (ri_request_id ride = request_id) | _ => false end.

Definition followed (rides : Rides) (except : option text) (request_id : text) : bool :=
  existsb (λ '(id, e), negb (bool_decide (Some id = except)) && follows request_id e) (map_to_list rides).

(** ** The calls *)

Inductive MemberDelivery : Type := Reached (devices : list text) | NoPhone | DeliveryFailed (why : text).

Record Notification := { nt_target : text; nt_title : text; nt_body : text; nt_followed : bool }.

Inductive RideCall : Type → Type :=
| Locked {A} (section : Rides → A * Rides) : RideCall A
| ProviderQuote (profile_id : text) (pickup dropoff : Place) : RideCall (result FareQuote text)
(** The provider is given the fare; [id] only names in the log whose ride it was. *)
| ProviderRequest (id profile_id : text) (trip : QuotedTrip) : RideCall (result Ride RequestFailure)
| ProviderRide (profile_id request_id : text) : RideCall (result Ride text)
| ProviderCurrent (profile_id : text) : RideCall (result (option Ride) text)
| ProviderCancel (profile_id request_id : text) : RideCall (result unit text)
| StoreSave (ride : SavedRide) : RideCall (result unit text)
| StoreRemove (id : text) : RideCall (result unit text)
| StoreLoad : RideCall (result (list SavedRide) text)
| NewUuid : RideCall text
| UtcNow : RideCall Z
| NotifyMember (n : Notification) : RideCall MemberDelivery.

(** A section that only reads. *)
Definition Peek {A} (f : Rides → A) : RideCall A := Locked (λ rides, (f rides, rides)).
(** A section that only writes. *)
Definition Poke (f : Rides → Rides) : RideCall unit := Locked (λ rides, (tt, f rides)).

Section booking.
(** Whether a store is wired, the provider's name, [uuid::new_v5], and the distance. *)
Context (has_store : bool) (provider_name : text) (uuid_v5 : text → text).
Context (distance_km : f64 * f64 → f64 * f64 → f64) (beyond_max : f64 → bool).

Definition try_persist (id : text) : Prog RideCall (result unit text) :=
  if has_store then
    let! saved := Peek (λ rides, rides !! id) in
    match saved with
    | Some saved => let! r := StoreSave saved in Ret r
    | None => let! r := StoreRemove id in Ret r
    end
  else Ret (Ok tt).

Definition persist (id : text) : Prog RideCall unit := prog_bind (try_persist id) (λ _, Ret tt).

Definition set_state (id : text) (s : BookingState) (rides : Rides) : Rides :=
  alter (entry_with_state s) id rides.

Definition point (p : Place) : f64 * f64 := (pl_latitude p, pl_longitude p).

Definition quote (profile_id : text) (pickup dropoff : Place) (now : Z)
    : Prog RideCall (result PendingRide BookingError) :=
  let km := distance_km (point pickup) (point dropoff) in
  if beyond_max km then Ret (Err (TooFar km)) else
  let! quoted := ProviderQuote profile_id pickup dropoff in
  match quoted with
  | Err e => Ret (Err (ProviderError e))
  | Ok quote =>
      let! id := NewUuid in
      let pending :=
        {| pr_id := id; pr_profile_id := profile_id;
           pr_trip := Some {| qt_pickup := pickup; qt_dropoff := dropoff; qt_quote := quote |};
           pr_created_at := now; pr_state := AwaitingConfirmation |} in
      do! Poke (<[id := new_entry pending None]>) in
      prog_bind (persist id) (λ _, Ret (Ok pending))
  end.

(** The claim of a quote, under the lock. *)
Definition claim_quote (id profile_id : text) (now : Z) (rides : Rides)
    : result QuotedTrip BookingError * Rides :=
  match owned rides id profile_id with
  | Err e => (Err e, rides)
  | Ok pending =>
      match pr_state pending, pr_trip pending with
      | AwaitingConfirmation, Some trip =>
          if (fq_expires_at (qt_quote trip) <=? now)%Z then (Err Expired, rides)
          else (Ok trip, set_state id Requesting rides)
      | other, _ => (Err (AlreadyDecided (state_word other)), rides)
      end
  end.

Definition live_trip (except : option text) (profile_id : text)
    : Prog RideCall (result (option Ride) text) :=
  let! current := ProviderCurrent profile_id in
  match current with
  | Err e => Ret (Err e)
  | Ok None => Ret (Ok None)
  | Ok (Some ride) =>
      if ride_is_terminal (ri_status ride) then Ret (Ok None) else
      let! other := Peek (λ rides, followed rides except (ri_request_id ride)) in
      Ret (Ok (if other then None else Some ride))
  end.

(** What the provider's answer makes of the ride. *)
Definition settle_request (id profile_id : text) (outcome : result Ride RequestFailure)
    : Prog RideCall (result BookingState BookingError) :=
  let keep state :=
    do! Poke (set_state id state) in
    prog_bind (persist id) (λ _, Ret (Ok state)) in
  match outcome with
  | Ok ride => keep (Requested ride)
  | Err (Refused reason) =>
      do! Poke (set_state id (BookingFailed reason)) in
      prog_bind (persist id) (λ _, Ret (Err (ProviderError reason)))
  | Err (Uncertain reason) =>
      prog_bind (live_trip (Some id) profile_id) (λ found,
      keep match found with
           | Ok (Some ride) => Requested ride
           | Ok None | Err _ => OutcomeUnknown reason
           end)
  end.

Definition confirm (id profile_id : text) (now : Z) : Prog RideCall (result BookingState BookingError) :=
  let! claimed := Locked (claim_quote id profile_id now) in
  match claimed with
  | Err e => Ret (Err e)
  | Ok trip =>
      prog_bind (try_persist id) (λ kept,
      match kept with
      | Err _ =>
          do! Poke (set_state id AwaitingConfirmation) in
          Ret (Err (ProviderError
            (lit "the pond could not save this ride, so it was not booked; try again")))
      | Ok _ =>
          let! outcome := ProviderRequest id profile_id trip in
          settle_request id profile_id outcome
      end)
  end.

Definition get (id profile_id : text) (rides : Rides) : result PendingRide BookingError :=
  owned rides id profile_id.

Definition recheck (id profile_id : text) : Prog RideCall (result BookingState BookingError) :=
  let! pending := Peek (get id profile_id) in
  match pending with
  | Err e => Ret (Err e)
  | Ok pending =>
      match pr_state pending with
      | OutcomeUnknown _ as state =>
          prog_bind (live_trip (Some id) profile_id) (λ found,
          match found with
          | Err e => Ret (Err (ProviderError e))
          | Ok (Some ride) =>
              do! Poke (set_state id (Requested ride)) in
              prog_bind (persist id) (λ _, Ret (Ok (Requested ride)))
          | Ok None => Ret (Ok state)
          end)
      | state => Ret (Ok state)
      end
  end.

Definition taken_over (id profile_id : text) (now : Z) (ride : Ride) : Entry :=
  new_entry {| pr_id := id; pr_profile_id := profile_id; pr_trip := None; pr_created_at := now;
               pr_state := Requested ride |} (Some (ri_status ride)).

Definition take_over_section (id profile_id : text) (now : Z) (ride : Ride) (rides : Rides)
    : bool * Rides :=
  if bool_decide (is_Some (rides !! id)) || followed rides None (ri_request_id ride) then (false, rides)
  else (true, <[id := taken_over id profile_id now ride]> rides).

Definition take_over_current (profile_id : text) (now : Z)
    : Prog RideCall (result (option text) BookingError) :=
  prog_bind (live_trip None profile_id) (λ found,
  match found with
  | Err e => Ret (Err (ProviderError e))
  | Ok None => Ret (Ok None)
  | Ok (Some ride) =>
      let id := uuid_v5 (provider_name ++ lit ":" ++ ri_request_id ride) in
      let! taken := Locked (take_over_section id profile_id now ride) in
      if taken then prog_bind (persist id) (λ _, Ret (Ok (Some id))) else Ret (Ok None)
  end).

Definition decline_section (id profile_id : text) (rides : Rides) : result unit BookingError * Rides :=
  match owned rides id profile_id with
  | Err e => (Err e, rides)
  | Ok pending =>
      match pr_state pending with
      | AwaitingConfirmation => (Ok tt, set_state id Declined rides)
      | other => (Err (AlreadyDecided (state_word other)), rides)
      end
  end.

Definition decline (id profile_id : text) : Prog RideCall (result unit BookingError) :=
  let! declined := Locked (decline_section id profile_id) in
  match declined with
  | Err e => Ret (Err e)
  | Ok _ => prog_bind (persist id) (λ _, Ret (Ok tt))
  end.

Definition requested_id (id profile_id : text) (rides : Rides) : result text BookingError :=
  match owned rides id profile_id with
  | Err e => Err e
  | Ok pending =>
      match pr_state pending with Requested ride => Ok (ri_request_id ride) | _ => Err NotRequested end
  end.

Definition cancel (id profile_id : text) : Prog RideCall (result unit BookingError) :=
  prog_bind (recheck id profile_id) (λ checked,
  match checked with
  | Err e => Ret (Err e)
  | Ok _ =>
      let! request_id := Peek (requested_id id profile_id) in
      match request_id with
      | Err e => Ret (Err e)
      | Ok request_id =>
          let! r := ProviderCancel profile_id request_id in
          Ret match r with Ok _ => Ok tt | Err e => Err (ProviderError e) end
      end
  end).

Definition refresh (id profile_id : text) : Prog RideCall (result Ride BookingError) :=
  let! request_id := Peek (requested_id id profile_id) in
  match request_id with
  | Err e => Ret (Err e)
  | Ok request_id =>
      let! r := ProviderRide profile_id request_id in
      match r with
      | Err e => Ret (Err (ProviderError e))
      | Ok ride =>
          do! Poke (set_state id (Requested ride)) in
          prog_bind (persist id) (λ _, Ret (Ok ride))
      end
  end.

Definition to_be_followed (e : Entry) : bool :=
  match sr_reading e with
  | GaveUpTold => false
  | GaveUp => true
  | On =>
      match entry_state e with
      | Requested ride =>
          negb (ride_is_terminal (ri_status ride)) || negb (bool_decide (sr_announced e = Some (ri_status ride)))
      | OutcomeUnknown _ => true
      | _ => false
      end
  end.

Definition to_follow (rides : Rides) : list PendingRide :=
  sr_ride <$> List.filter to_be_followed (snd <$> map_to_list rides).

Definition is_read (id : text) (rides : Rides) : bool :=
  match rides !! id with Some e => bool_decide (sr_reading e = On) | None => false end.

Definition read_succeeded (id : text) : Prog RideCall unit :=
  let! changed := Locked (λ rides,
    match rides !! id with
    | Some e =>
        if sr_failed_reads e =? 0 then (false, rides)
        else (true, <[id := entry_with_failed_reads 0 e]> rides)
    | None => (false, rides)
    end) in
  if changed then persist id else Ret tt.

(** [None] is the early [return false]. *)
Definition read_failed_section (id : text) (rides : Rides) : option bool * Rides :=
  match rides !! id with
  | None => (None, rides)
  | Some e =>
      let e := entry_with_failed_reads (u32_incr (sr_failed_reads e)) e in
      let gave_up := bool_decide (sr_reading e = On) && (MAX_FAILED_READS <=? sr_failed_reads e) in
      (Some gave_up, <[id := if gave_up then entry_with_reading GaveUp e else e]> rides)
  end.

Definition read_failed (id : text) : Prog RideCall bool :=
  let! gave_up := Locked (read_failed_section id) in
  match gave_up with
  | None => Ret false
  | Some gave_up => prog_bind (persist id) (λ _, Ret gave_up)
  end.

Definition lost_message (s : BookingState) : text :=
  match s with
  | OutcomeUnknown _ =>
      lit "The pond could not confirm this booking. The ride app shows whether it was booked."
  | _ => lit "The pond can no longer check on this ride. The ride app shows where it is."
  end.

Definition news (id : text) (rides : Rides) : option RideNews :=
  match rides !! id with
  | None => None
  | Some e =>
      match sr_reading e with
      | GaveUpTold => None
      | GaveUp => Some (LostTrack (lost_message (entry_state e)))
      | On =>
          match entry_state e with
          | Requested ride =>
              if bool_decide (sr_announced e = Some (ri_status ride)) then None
              else Some (NewsStatus (ri_status ride) (announcement ride (sr_announced e)))
          | _ => None
          end
      end
  end.

Definition told_section (id : text) (n : RideNews) : Rides → Rides :=
  alter (match n with
         | NewsStatus status _ => entry_with_announced (Some status)
         | LostTrack _ => entry_with_reading GaveUpTold
         end) id.

Definition told (id : text) (n : RideNews) : Prog RideCall unit :=
  do! Poke (told_section id n) in persist id.

Definition forgettable (now : Z) (e : Entry) : bool :=
  (pr_created_at (sr_ride e) + KEEP_FINISHED <=? now)%Z && is_over e now.

Definition prune_section (now : Z) (rides : Rides) : list text * Rides :=
  let gone := fst <$> List.filter (λ '(id, e), forgettable now e) (map_to_list rides) in
  (gone, foldr delete rides gone).

Definition prune (now : Z) : Prog RideCall N :=
  let! forgotten := Locked (prune_section now) in
  prog_bind (for_each persist forgotten) (λ _, Ret (N.of_nat (length forgotten))).

(** A ride kept while it was being requested is taken back as one whose outcome is not known. *)
Definition taken_back (kept : SavedRide) : Entry * bool :=
  match entry_state kept with
  | Requesting =>
      (entry_with_state (OutcomeUnknown (lit "the pond stopped while this ride was being requested")) kept, true)
  | _ => (kept, false)
  end.

Definition restore_section (saved : list SavedRide) (rides : Rides) : list text * Rides :=
  let back := taken_back <$> saved in
  ((λ b, pr_id (sr_ride b.1)) <$> List.filter snd back,
   foldl (λ rides b, <[pr_id (sr_ride b.1) := b.1]> rides) rides back).

Definition restore (now : Z) : Prog RideCall N :=
  if has_store then
    let! saved := StoreLoad in
    match saved with
    | Err _ => Ret 0
    | Ok saved =>
        let! interrupted := Locked (restore_section saved) in
        prog_bind (for_each persist interrupted) (λ _,
        let! restored := Peek (λ rides, N.of_nat (size rides)) in
        prog_bind (prune now) (λ _, Ret restored))
    end
  else Ret 0.

(** ** [tracking.rs] *)

Inductive Read : Type := ReadDone | ReadNothing | ReadFailed (why : text).

Definition read (pending : PendingRide) : Prog RideCall Read :=
  match pr_state pending with
  | OutcomeUnknown _ =>
      prog_bind (recheck (pr_id pending) (pr_profile_id pending)) (λ checked,
      (* the reasons, only logged, are left out *)
      Ret match checked with
          | Ok (Requested _) => ReadDone
          | Ok _ => ReadFailed (lit "no trip of the member's shows the ride yet")
          | Err _ => ReadFailed []
          end)
  | Requested ride =>
      if negb (ride_is_terminal (ri_status ride)) then
        prog_bind (refresh (pr_id pending) (pr_profile_id pending)) (λ r,
        Ret match r with Ok _ => ReadDone | Err _ => ReadFailed [] end)
      else Ret ReadNothing
  | _ => Ret ReadNothing
  end.

Definition ride_title (p : PendingRide) : text :=
  match pr_trip p with
  | Some trip => lit "Your ride to " ++ pl_name (qt_dropoff trip)
  | None => lit "Your ride"
  end.

Definition announce (pending : PendingRide) (n : RideNews) : Prog RideCall N :=
  let send message followed :=
    let! delivery := NotifyMember
      {| nt_target := pr_profile_id pending; nt_title := ride_title pending; nt_body := message;
         nt_followed := followed |} in
    match delivery with
    | Reached _ => prog_bind (told (pr_id pending) n) (λ _, Ret 1)
    | NoPhone => prog_bind (told (pr_id pending) n) (λ _, Ret 0)
    | DeliveryFailed _ => Ret 0
    end in
  match n with
  | NewsStatus _ None => prog_bind (told (pr_id pending) n) (λ _, Ret 0)
  | NewsStatus _ (Some message) => send message true
  | LostTrack message => send message false
  end.

(** One ride of a pass: [false] from [read_failed] moves on to the next. *)
Definition track_ride (pending : PendingRide) : Prog RideCall N :=
  let tell :=
    let! n := Peek (news (pr_id pending)) in
    match n with Some n => announce pending n | None => Ret 0 end in
  let! reading := Peek (is_read (pr_id pending)) in
  if reading then
    prog_bind (read pending) (λ outcome,
    match outcome with
    | ReadDone => prog_bind (read_succeeded (pr_id pending)) (λ _, tell)
    | ReadNothing => tell
    | ReadFailed _ =>
        prog_bind (read_failed (pr_id pending)) (λ gave_up,
        if gave_up : bool then tell else Ret 0)
    end)
  else tell.

Definition track_once : Prog RideCall N :=
  let! now := UtcNow in
  prog_bind (prune now) (λ _,
  let! pendings := Peek to_follow in
  sum_each track_ride pendings).
End booking.

(** ** The pond: operations interleaved, dropped, and lost in a restart *)

(** Whose ride it is and what was quoted for it, which nothing changes. *)
Notation Terms := (text * option QuotedTrip)%type (only parsing).
Definition terms_of (e : SavedRide) : Terms := (pr_profile_id (sr_ride e), pr_trip (sr_ride e)).

(** Memory and store; each request the provider was sent; and, for the statements, the terms of
    every id ever put in memory, the ids [uuid::new_v4] gave, and those a quote answered with. *)
Record BookWorld := {
  bw_rides : Rides;
  bw_store : gmap text SavedRide;
  bw_requests : list (text * text * QuotedTrip);
  bw_terms : gmap text Terms;
  bw_uuids : gset text;
  bw_shown : gset text;
}.

Definition with_rides (rides : Rides) (w : BookWorld) : BookWorld :=
  {| bw_rides := rides; bw_store := bw_store w; bw_requests := bw_requests w;
     bw_terms := bw_terms w ∪ (terms_of <$> rides); bw_uuids := bw_uuids w; bw_shown := bw_shown w |}.
Definition with_store (store : gmap text SavedRide) (w : BookWorld) : BookWorld :=
  {| bw_rides := bw_rides w; bw_store := store; bw_requests := bw_requests w;
     bw_terms := bw_terms w; bw_uuids := bw_uuids w; bw_shown := bw_shown w |}.
Definition requested (id profile_id : text) (trip : QuotedTrip) (w : BookWorld) : BookWorld :=
  {| bw_rides := bw_rides w; bw_store := bw_store w;
     bw_requests := bw_requests w ++ [(id, profile_id, trip)];
     bw_terms := bw_terms w; bw_uuids := bw_uuids w; bw_shown := bw_shown w |}.
Definition gave_uuid (id : text) (w : BookWorld) : BookWorld :=
  {| bw_rides := bw_rides w; bw_store := bw_store w; bw_requests := bw_requests w;
     bw_terms := bw_terms w; bw_uuids := {[id]} ∪ bw_uuids w; bw_shown := bw_shown w |}.
Definition shown_to_member (id : text) (w : BookWorld) : BookWorld :=
  {| bw_rides := bw_rides w; bw_store := bw_store w; bw_requests := bw_requests w;
     bw_terms := bw_terms w; bw_uuids := bw_uuids w; bw_shown := {[id]} ∪ bw_shown w |}.
(** The process ends: memory is gone. *)
Definition stopped (w : BookWorld) : BookWorld :=
  {| bw_rides := ∅; bw_store := bw_store w; bw_requests := bw_requests w;
     bw_terms := bw_terms w; bw_uuids := bw_uuids w; bw_shown := bw_shown w |}.

Section pond.
Context (has_store : bool) (provider_name : text) (uuid_v5 : text → text).
Context (distance_km : f64 * f64 → f64 * f64 → f64) (beyond_max : f64 → bool).

(** What a call may answer and do. The provider and the notifier may answer anything; a save or
    a removal that fails may have been done all the same; a load may skip rides it cannot read;
    a random id is not one given or used before, nor one of [new_v5]. *)
Inductive ride_call : ∀ R, RideCall R → BookWorld → R → BookWorld → Prop :=
| rc_locked A (f : Rides → A * Rides) w :
    ride_call A (Locked f) w (f (bw_rides w)).1 (with_rides (f (bw_rides w)).2 w)
| rc_quote p a b r w : ride_call _ (ProviderQuote p a b) w r w
| rc_request id p trip r w : ride_call _ (ProviderRequest id p trip) w r (requested id p trip w)
| rc_ride p q r w : ride_call _ (ProviderRide p q) w r w
| rc_current p r w : ride_call _ (ProviderCurrent p) w r w
| rc_cancel p q r w : ride_call _ (ProviderCancel p q) w r w
| rc_saved s r w : ride_call _ (StoreSave s) w r (with_store (<[pr_id (sr_ride s) := s]> (bw_store w)) w)
| rc_not_saved s e w : ride_call _ (StoreSave s) w (Err e) w
| rc_removed id r w : ride_call _ (StoreRemove id) w r (with_store (delete id (bw_store w)) w)
| rc_not_removed id e w : ride_call _ (StoreRemove id) w (Err e) w
| rc_loaded l w :
    (∀ s, s ∈ l → bw_store w !! pr_id (sr_ride s) = Some s) → ride_call _ StoreLoad w (Ok l) w
| rc_not_loaded e w : ride_call _ StoreLoad w (Err e) w
| rc_uuid id w :
    id ∉ bw_uuids w → bw_terms w !! id = None → (∀ name, id ≠ uuid_v5 name) →
    ride_call _ NewUuid w id (gave_uuid id w)
| rc_now t w : ride_call _ UtcNow w t w
| rc_notify n r w : ride_call _ (NotifyMember n) w r w.

Inductive Task : Type :=
| Quoting (p : Prog RideCall (result PendingRide BookingError))
| Confirming (id profile_id : text) (p : Prog RideCall (result BookingState BookingError))
| Serving (p : Prog RideCall unit)
| Over.

Definition served {A} (p : Prog RideCall A) : Task := Serving (prog_bind p (λ _, Ret tt)).

(** The operations the routes, the tool and the tracker call. A phone confirms only an id a quote
    answered with: no route lists the ids of quotes, and they are random. *)
Inductive starts (w : BookWorld) : Task → Prop :=
| st_quote profile_id pickup dropoff now :
    starts w (Quoting (quote has_store distance_km beyond_max profile_id pickup dropoff now))
| st_confirm id profile_id now :
    id ∈ bw_shown w → starts w (Confirming id profile_id (confirm has_store id profile_id now))
| st_decline id profile_id : starts w (served (decline has_store id profile_id))
| st_recheck id profile_id : starts w (served (recheck has_store id profile_id))
| st_refresh id profile_id : starts w (served (refresh has_store id profile_id))
| st_cancel id profile_id : starts w (served (cancel has_store id profile_id))
| st_take_over profile_id now :
    starts w (served (take_over_current has_store provider_name uuid_v5 profile_id now))
| st_track : starts w (served (track_once has_store)).

Definition is_awaited {R} (c : RideCall R) : bool :=
  match c with Locked _ | NewUuid | UtcNow => false | _ => true end.

(** A task waiting for an answer may be dropped. *)
Definition droppable (t : Task) : bool :=
  match t with
  | Quoting (Call c _) | Serving (Call c _) => is_awaited c
  | Confirming _ _ (Call c _) => is_awaited c
  | _ => false
  end.

Inductive task_step : Task → BookWorld → Task → BookWorld → Prop :=
| ts_quoting R (c : RideCall R) k w r w' :
    ride_call R c w r w' → task_step (Quoting (Call c k)) w (Quoting (k r)) w'
| ts_confirming R (c : RideCall R) id profile_id k w r w' :
    ride_call R c w r w' →
    task_step (Confirming id profile_id (Call c k)) w (Confirming id profile_id (k r)) w'
| ts_serving R (c : RideCall R) k w r w' :
    ride_call R c w r w' → task_step (Serving (Call c k)) w (Serving (k r)) w'
| ts_quoted pending w :
    task_step (Quoting (Ret (Ok pending))) w Over (shown_to_member (pr_id pending) w)
| ts_quote_failed e w : task_step (Quoting (Ret (Err e))) w Over w
| ts_confirmed id profile_id r w : task_step (Confirming id profile_id (Ret r)) w Over w
| ts_served u w : task_step (Serving (Ret u)) w Over w
| ts_dropped t w : droppable t = true → task_step t w Over w
(** The call was made, and its answer comes to nobody. *)
| ts_lost t w t' w' : droppable t = true → task_step t w t' w' → task_step t w Over w'.

(** A pond is serving its tasks, or starting: [restore] runs alone, before any route or the
    tracker may use the booking. *)
Inductive Pond : Type :=
| Serves (w : BookWorld) (tasks : list Task)
| Boots (w : BookWorld) (p : Prog RideCall N).

Inductive pond_step : Pond → Pond → Prop :=
| ps_start t w ts : starts w t → pond_step (Serves w ts) (Serves w (ts ++ [t]))
| ps_run i t t' w w' ts :
    ts !! i = Some t → task_step t w t' w' → pond_step (Serves w ts) (Serves w' (<[i := t']> ts))
| ps_boot_step R (c : RideCall R) k w r w' :
    ride_call R c w r w' → pond_step (Boots w (Call c k)) (Boots w' (k r))
| ps_booted n w : pond_step (Boots w (Ret n)) (Serves w [])
| ps_stop w ts now : pond_step (Serves w ts) (Boots (stopped w) (restore has_store now))
| ps_stop_booting w p now : pond_step (Boots w p) (Boots (stopped w) (restore has_store now)).

Definition new_pond : Pond :=
  Serves {| bw_rides := ∅; bw_store := ∅; bw_requests := []; bw_terms := ∅; bw_uuids := ∅;
            bw_shown := ∅ |} [].

(** ** Lemmas: a quote is asked of the provider at most once *)

Definition look (rides : Rides) (id : text) : option (BookingState * Terms) :=
  (λ e, (entry_state e, terms_of e)) <$> rides !! id.

(** Decided: nothing makes it confirmable again. *)
Definition decided (s : BookingState) : Prop :=
  match s with Requested _ | OutcomeUnknown _ | Declined | BookingFailed _ => True | _ => False end.

(** Each ride is under its own id, and the pond gave up only on decided ones. *)
Definition sound_entry (e : Entry) : Prop := sr_reading e ≠ On → decided (entry_state e).
Definition sound (rides : gmap text SavedRide) : Prop :=
  ∀ id e, rides !! id = Some e → pr_id (sr_ride e) = id ∧ sound_entry e.

Definition never_v5 (id : text) : Prop := ∀ name, id ≠ uuid_v5 name.

Definition unawaited (rides : gmap text SavedRide) (id : text) : Prop :=
  ∀ e, rides !! id = Some e → entry_state e ≠ AwaitingConfirmation.
Definition is_decided (rides : gmap text SavedRide) (id : text) : Prop :=
  ∀ e, rides !! id = Some e → decided (entry_state e).

(** What a section may do to a ride: leave its state, forget it, or decide it, which it may not do to a ride
    that is being requested unless it is its own; only what is its
    own may it touch while it is being requested, and only a taken over trip may it add. *)
Inductive allowed (own : text → Prop) (id : text) :
    option (BookingState * Terms) → option (BookingState * Terms) → Prop :=
| al_same b : allowed own id b b
| al_gone s t : s ≠ Requesting → allowed own id (Some (s, t)) None
| al_decided s t s' :
    own id ∨ s ≠ Requesting → decided s' → allowed own id (Some (s, t)) (Some (s', t))
| al_added name s t : id = uuid_v5 name → decided s → allowed own id None (Some (s, t)).

(** What a task has seen: ids that are decided, and rides as they stood, none confirmable. *)
Record Seen := { sn_ids : text → Prop; sn_rides : SavedRide → Prop }.

Definition more (k k' : Seen) : Prop :=
  (∀ id, sn_ids k id → sn_ids k' id) ∧ (∀ s, sn_rides k s → sn_rides k' s).

Definition holds_in (own : text → Prop) (k : Seen) (rides : Rides) : Prop :=
  sound rides ∧ (∀ id, sn_ids k id → is_decided rides id) ∧ (∀ id, own id → unawaited rides id).

Implicit Types (k : Seen) (own : text → Prop) (rides : Rides) (id : text).

(** What a section may learn of the rides before and after it. *)
Definition learned (k k' : Seen) (before after : Rides) : Prop :=
  more k k' ∧
  (∀ id, sn_ids k' id →
     sn_ids k id ∨ (is_Some (before !! id) ∨ is_Some (after !! id)) ∧ is_decided after id) ∧
  (∀ s, sn_rides k' s → sn_rides k s ∨
     (after !! pr_id (sr_ride s) = Some s ∧ entry_state s ≠ AwaitingConfirmation)).

(** A program that keeps to what is allowed, and saves no confirmable ride. *)
Inductive tame {A} (own : text → Prop) : Seen → Prog RideCall A → Prop :=
| tm_ret k a : tame own k (Ret a)
| tm_locked k B (f : Rides → B * Rides) (p : B → Prog RideCall A) :
    (∀ rides, holds_in own k rides →
       sound (f rides).2 ∧ (∀ id, allowed own id (look rides id) (look (f rides).2 id)) ∧
       ∃ k', learned k k' rides (f rides).2 ∧ tame own k' (p (f rides).1)) →
    tame own k (Call (Locked f) p)
| tm_save k s p :
    has_store = true → sn_rides k s → (∀ r, tame own k (p r)) → tame own k (Call (StoreSave s) p)
| tm_remove k id p : (∀ r, tame own k (p r)) → tame own k (Call (StoreRemove id) p)
| tm_ride k m q p : (∀ r, tame own k (p r)) → tame own k (Call (ProviderRide m q) p)
| tm_current k m p : (∀ r, tame own k (p r)) → tame own k (Call (ProviderCurrent m) p)
| tm_cancel k m q p : (∀ r, tame own k (p r)) → tame own k (Call (ProviderCancel m q) p)
| tm_now k p : (∀ r, tame own k (p r)) → tame own k (Call UtcNow p)
| tm_notify k n p : (∀ r, tame own k (p r)) → tame own k (Call (NotifyMember n) p).

Lemma more_refl k : more k k.
Proof. by split. Qed.

Lemma learned_mono k1 k2 k1' rides rides' :
  more k1 k2 → learned k1 k1' rides rides' → ∃ k2', more k1' k2' ∧ learned k2 k2' rides rides'.
Proof.
  intros [Hi Hr] ([Mi Mr] & Li & Lr).
  exists {| sn_ids := λ id, sn_ids k2 id ∨ sn_ids k1' id; sn_rides := λ s, sn_rides k2 s ∨ sn_rides k1' s |}.
  split; [split; simpl; auto|]. split; [split; simpl; auto|]. simpl. split.
  - intros id [?|[?|?]%Li]; auto.
  - intros s [?|[?|?]%Lr]; auto.
Qed.

Lemma tame_mono {A : Type} own k k' (p : Prog RideCall A) : more k k' → tame own k p → tame own k' p.
Proof.
  intros Hm Hp. revert k' Hm. revert k p Hp. fix IH 3. intros k p Hp k' Hm.
  destruct Hp as [k a|k B f p H|k s p Hst Hs H|k id p H|k m q p H|k m p H|k m q p H|k p H|k n p H].
  - constructor.
  - constructor. intros rides Hr.
    assert (holds_in own k rides) as Hk.
    { destruct Hr as (Hs & Hd & Ho), Hm as [Hi _]. split; [done|]. split; auto. }
    destruct (H rides Hk) as (Hs & Ha & k1 & Hl & Ht). split; [done|]. split; [done|].
    destruct (learned_mono k k' k1 rides (f rides).2 Hm Hl) as (k2 & Hm2 & Hl2). exists k2. split; [done|].
    by apply (IH k1).
  - constructor; [done|by apply Hm|]. intros r. by apply (IH k).
  - constructor. intros r. by apply (IH k).
  - constructor. intros r. by apply (IH k).
  - constructor. intros r. by apply (IH k).
  - constructor. intros r. by apply (IH k).
  - constructor. intros r. by apply (IH k).
  - constructor. intros r. by apply (IH k).
Qed.

Lemma tame_bind {A B : Type} own k (p : Prog RideCall A) (f : A → Prog RideCall B) :
  tame own k p → (∀ a, tame own k (f a)) → tame own k (prog_bind p f).
Proof.
  intros Hp. revert f. revert k p Hp. fix IH 3. intros k p Hp f Hf.
  destruct Hp as [k a|k C g p H|k s p Hst Hs H|k id p H|k m q p H|k m p H|k m q p H|k p H|k n p H]; simpl.
  - apply Hf.
  - constructor. intros rides Hr. destruct (H rides Hr) as (Hs & Ha & k1 & Hl & Ht).
    split; [done|]. split; [done|]. exists k1. split; [done|]. apply (IH k1); [done|].
    intros a. apply (tame_mono own k); [apply Hl|apply Hf].
  - constructor; [done|done|]. intros r. by apply (IH k).
  - constructor. intros r. by apply (IH k).
  - constructor. intros r. by apply (IH k).
  - constructor. intros r. by apply (IH k).
  - constructor. intros r. by apply (IH k).
  - constructor. intros r. by apply (IH k).
  - constructor. intros r. by apply (IH k).
Qed.

(** A section that only reads may teach what it reads. *)
Lemma tame_peek {A B : Type} own k (f : Rides → B) (p : B → Prog RideCall A) :
  (∀ rides, holds_in own k rides → ∃ k', learned k k' rides rides ∧ tame own k' (p (f rides))) →
  tame own k (Call (Peek f) p).
Proof.
  intros H. constructor. intros rides Hr. destruct (H rides Hr) as (k' & ? & ?). simpl.
  split; [apply Hr|]. split; [intros; constructor|]. by exists k'.
Qed.

Lemma learned_refl k rides rides' : learned k k rides rides'.
Proof. split; [apply more_refl|]. auto. Qed.

Definition knows (k : Seen) (id : text) : Seen :=
  {| sn_ids := λ i, sn_ids k i ∨ i = id; sn_rides := sn_rides k |}.
Definition keeps (k : Seen) (s : SavedRide) : Seen :=
  {| sn_ids := sn_ids k; sn_rides := λ r, sn_rides k r ∨ r = s |}.

Lemma learn_id k rides rides' id :
  is_Some (rides !! id) ∨ is_Some (rides' !! id) → is_decided rides' id → learned k (knows k id) rides rides'.
Proof.
  intros He Hd. split; [split; simpl; auto|]. split; simpl; [|auto]. intros i [?| ->]; auto.
Qed.

Lemma learn_decided k rides rides' id e :
  rides' !! id = Some e → decided (entry_state e) → learned k (knows k id) rides rides'.
Proof.
  intros He Hd. apply learn_id; [right; by eexists|]. intros e' He'. by simplify_eq.
Qed.

Lemma learn_ride k rides s :
  rides !! pr_id (sr_ride s) = Some s → entry_state s ≠ AwaitingConfirmation →
  learned k (keeps k s) rides rides.
Proof. intros Hs Ha. split; [split; simpl; auto|]. split; simpl; [auto|]. intros r [?| ->]; auto. Qed.

Lemma decided_unawaited s : decided s → s ≠ AwaitingConfirmation.
Proof. by destruct s. Qed.

Lemma tame_try_persist own k id : sn_ids k id ∨ own id → tame own k (try_persist has_store id).
Proof.
  intros Hid. unfold try_persist. destruct has_store eqn:Est; [|constructor].
  apply tame_peek. intros rides (Hsound & Hd & Ho). destruct (rides !! id) as [e|] eqn:He.
  - destruct (Hsound id e He) as [Hkey _]. exists (keeps k e). split.
    + apply learn_ride; [by rewrite Hkey|]. destruct Hid as [Hid|Hid]; [|by apply (Ho id)].
      apply decided_unawaited. by apply (Hd id).
    + constructor; [done|by right|]. intros r. constructor.
  - exists k. split; [apply learned_refl|]. constructor. intros r. constructor.
Qed.

Lemma tame_persist {A : Type} own k id (f : unit → Prog RideCall A) :
  sn_ids k id ∨ own id → tame own k (f tt) → tame own k (prog_bind (persist has_store id) f).
Proof.
  intros Hid Hf. apply tame_bind; [|by intros []]. apply tame_bind; [by apply tame_try_persist|].
  intros r. constructor.
Qed.

Lemma look_alter f rides i id :
  (∀ e, terms_of (f e) = terms_of e) →
  look (alter f i rides) id =
    if decide (i = id) then (λ e, (entry_state (f e), terms_of e)) <$> rides !! id else look rides id.
Proof.
  intros Hf. unfold look. destruct (decide (i = id)) as [->|Hne].
  - rewrite lookup_alter_eq, <-option_fmap_compose. destruct (rides !! id); [|done]. simpl. by rewrite Hf.
  - by rewrite lookup_alter_ne.
Qed.

(** An alteration of one ride that keeps its id and terms. *)
Lemma alter_ok own f rides i :
  sound rides →
  (∀ e, rides !! i = Some e → pr_id (sr_ride (f e)) = pr_id (sr_ride e) ∧ sound_entry (f e) ∧
     allowed own i (Some (entry_state e, terms_of e)) (Some (entry_state (f e), terms_of e))) →
  (∀ e, terms_of (f e) = terms_of e) →
  sound (alter f i rides) ∧ ∀ id, allowed own id (look rides id) (look (alter f i rides) id).
Proof.
  intros Hs Hf Ht. split.
  - intros id e He. destruct (decide (i = id)) as [->|Hne].
    + rewrite lookup_alter_eq in He. destruct (rides !! id) as [e'|] eqn:E; [|done]. injection He as <-.
      destruct (Hs id e' E) as [Hk _], (Hf e' eq_refl) as (Hp & Hse & _). by rewrite Hp.
    + rewrite lookup_alter_ne in He by done. by apply Hs.
  - intros id. rewrite look_alter by done. destruct (decide (i = id)) as [->|]; [|constructor].
    unfold look. destruct (rides !! id) as [e|] eqn:E; [|constructor]. simpl. by apply (Hf e eq_refl).
Qed.

Lemma set_state_ok own rides id s :
  sound rides → decided s → own id ∨ is_decided rides id →
  sound (set_state id s rides) ∧ ∀ i, allowed own i (look rides i) (look (set_state id s rides) i).
Proof.
  intros Hs Hd Hid. apply alter_ok; [done| |done]. intros e He. split; [done|]. split; [by intros _|].
  simpl. constructor; [|done]. destruct Hid as [?|Hid]; [by left|right]. specialize (Hid e He).
  by intros E; rewrite E in Hid.
Qed.

(** What follows a state set to a decided one, which is then known. *)
Lemma tame_decide {A : Type} own k id s (f : unit → Prog RideCall A) :
  decided s → sn_ids k id ∨ own id →
  tame own k (f tt) → tame own k (Call (Poke (set_state id s)) (λ _, prog_bind (persist has_store id) f)).
Proof.
  intros Hd Hid Hf. constructor. intros rides (Hs & Hdec & Hown). simpl.
  destruct (set_state_ok own rides id s Hs Hd) as [H1 H2]; [destruct Hid; auto|].
  split; [exact H1|]. split; [exact H2|]. exists k. split; [apply learned_refl|]. by apply tame_persist.
Qed.

(** The operations. *)
Lemma tame_live_trip {A : Type} own k except profile_id (f : result (option Ride) text → Prog RideCall A) :
  (∀ r, tame own k (f r)) → tame own k (prog_bind (live_trip except profile_id) f).
Proof.
  intros Hf. constructor. intros [[ride|]|e]; simpl; [|apply Hf|apply Hf].
  destruct (ride_is_terminal (ri_status ride)); [apply Hf|]. apply tame_peek. intros rides _.
  exists k. split; [apply learned_refl|apply Hf].
Qed.

Lemma owned_ok rides id profile_id p :
  owned rides id profile_id = Ok p → ∃ e, rides !! id = Some e ∧ sr_ride e = p.
Proof. unfold owned. destruct (rides !! id) as [e|]; [|done]. destruct (decide _); [|done]. intros [= <-]. by exists e. Qed.

Lemma tame_recheck {A : Type} own k id profile_id (f : result BookingState BookingError → Prog RideCall A) :
  (∀ r, tame own k (f r)) → tame own k (prog_bind (recheck has_store id profile_id) f).
Proof.
  intros Hf. apply tame_bind; [|exact Hf]. unfold recheck. apply tame_peek. intros rides Hr.
  destruct (get id profile_id rides) as [p|e] eqn:Eg.
  - apply owned_ok in Eg as (e & He & <-). destruct (entry_state e) as [| |r|reason| |r] eqn:Es;
      try (exists k; split; [apply learned_refl|apply tm_ret]).
    exists (knows k id). split; [apply (learn_decided k rides rides id e He); by rewrite Es|].
    apply tame_live_trip. intros [[ride|]|err]; [|constructor|constructor].
    apply tame_decide; [done|left; by right|constructor].
  - exists k. split; [apply learned_refl|constructor].
Qed.

Lemma tame_refresh {A : Type} own k id profile_id (f : result Ride BookingError → Prog RideCall A) :
  (∀ r, tame own k (f r)) → tame own k (prog_bind (refresh has_store id profile_id) f).
Proof.
  intros Hf. apply tame_bind; [|exact Hf]. unfold refresh. apply tame_peek. intros rides Hr.
  unfold requested_id. destruct (owned rides id profile_id) as [p|e] eqn:Eg.
  - apply owned_ok in Eg as (e & He & <-). destruct (entry_state e) as [| |r|reason| |r] eqn:Es;
      try (exists k; split; [apply learned_refl|apply tm_ret]).
    exists (knows k id). split; [apply (learn_decided k rides rides id e He); by rewrite Es|].
    constructor. intros [ride|err]; [|constructor]. apply tame_decide; [done|left; by right|constructor].
  - exists k. split; [apply learned_refl|constructor].
Qed.

Lemma tame_cancel own k id profile_id : tame own k (cancel has_store id profile_id).
Proof.
  apply tame_recheck. intros [s|e]; [|constructor]. apply tame_peek. intros rides _.
  exists k. split; [apply learned_refl|]. destruct (requested_id _ _ _); [|constructor].
  constructor. intros [u|e]; constructor.
Qed.

Lemma tame_decline own k id profile_id : tame own k (decline has_store id profile_id).
Proof.
  unfold decline. constructor. intros rides (Hs & Hd & Ho). unfold decline_section.
  destruct (owned rides id profile_id) as [p|e] eqn:Eg; simpl.
  - apply owned_ok in Eg as (e & He & <-).
    destruct (entry_state e) as [| |r|reason| |r] eqn:Es; simpl;
      try (split; [done|]; split; [intros; constructor|]; exists k; split; [apply learned_refl|apply tm_ret]).
    assert (sound (set_state id Declined rides) ∧
            ∀ i, allowed own i (look rides i) (look (set_state id Declined rides) i)) as [H1 H2].
    { apply alter_ok; [done| |done]. intros e' He'. simplify_eq. split; [done|]. split; [by intros _|].
      simpl. rewrite Es. constructor; [by right|done]. }
    split; [exact H1|]. split; [exact H2|]. exists (knows k id). split.
    + apply (learn_decided k _ _ id (entry_with_state Declined e)); [|done].
      unfold set_state. by rewrite lookup_alter_eq, He.
    + apply tame_persist; [left; by right|constructor].
  - split; [done|]. split; [intros; constructor|]. exists k. split; [apply learned_refl|constructor].
Qed.

Lemma insert_ok own rides id e e' :
  sound rides → rides !! id = Some e → pr_id (sr_ride e') = pr_id (sr_ride e) → sound_entry e' →
  entry_state e' = entry_state e → terms_of e' = terms_of e →
  sound (<[id := e']> rides) ∧ ∀ i, allowed own i (look rides i) (look (<[id := e']> rides) i).
Proof.
  intros Hs He Hk Hse Hst Ht. split.
  - intros i u [[<- <-]|[_ Hu]]%lookup_insert_Some; [|by apply Hs]. rewrite Hk. by split; [apply (Hs id e He)|].
  - intros i. unfold look. destruct (decide (id = i)) as [<-|Hne].
    + rewrite lookup_insert_eq, He. simpl. rewrite Hst, Ht. constructor.
    + rewrite lookup_insert_ne by done. constructor.
Qed.

Lemma tame_read_succeeded {A : Type} own k id (f : unit → Prog RideCall A) :
  sn_ids k id → tame own k (f tt) → tame own k (prog_bind (read_succeeded has_store id) f).
Proof.
  intros Hid Hf. apply tame_bind; [|by intros []]. unfold read_succeeded. constructor.
  intros rides (Hs & Hd & Ho). destruct (rides !! id) as [e|] eqn:He; simpl.
  - destruct (sr_failed_reads e =? 0); simpl.
    + split; [done|]. split; [intros; constructor|]. exists k. split; [apply learned_refl|constructor].
    + destruct (insert_ok own rides id e (entry_with_failed_reads 0 e)) as [H1 H2]; try done;
        [by destruct (Hs id e He)|].
      split; [done|]. split; [done|]. exists k. split; [apply learned_refl|].
      apply tame_bind; [by apply tame_try_persist; left|]. constructor.
  - split; [done|]. split; [intros; constructor|]. exists k. split; [apply learned_refl|constructor].
Qed.

Lemma tame_read_failed {A : Type} own k id (f : bool → Prog RideCall A) :
  sn_ids k id → (∀ b, tame own k (f b)) → tame own k (prog_bind (read_failed has_store id) f).
Proof.
  intros Hid Hf. apply tame_bind; [|exact Hf]. unfold read_failed. constructor.
  intros rides (Hs & Hd & Ho). unfold read_failed_section. destruct (rides !! id) as [e|] eqn:He; simpl.
  - match goal with |- context [<[id := ?x]> rides] => set (e' := x) end.
    assert (decided (entry_state e)) as Hde by by apply (Hd id).
    destruct (insert_ok own rides id e e') as [H1 H2]; try done.
    { unfold e'. by destruct (_ && _). }
    { intros _. unfold e'. by destruct (_ && _). }
    { unfold e'. by destruct (_ && _). }
    { unfold e'. by destruct (_ && _). }
    split; [exact H1|]. split; [exact H2|]. exists k. split; [apply learned_refl|].
    apply tame_persist; [by left|constructor].
  - split; [done|]. split; [intros; constructor|]. exists k. split; [apply learned_refl|constructor].
Qed.

Lemma tame_told {A : Type} own k id n (f : unit → Prog RideCall A) :
  sn_ids k id → tame own k (f tt) → tame own k (prog_bind (told has_store id n) f).
Proof.
  intros Hid Hf. apply tame_bind; [|by intros []]. constructor. intros rides (Hs & Hd & Ho). simpl.
  assert (sound (told_section id n rides) ∧
          ∀ i, allowed own i (look rides i) (look (told_section id n rides) i)) as [H1 H2].
  { apply alter_ok; [done| |by destruct n]. intros e He. destruct (Hs id e He) as [_ Hse].
    destruct n; simpl; (split; [done|]; split; [|constructor]); [exact Hse|]. intros _. exact (Hd id Hid e He). }
  split; [exact H1|]. split; [exact H2|]. exists k. split; [apply learned_refl|].
  apply tame_bind; [by apply tame_try_persist; left|]. constructor.
Qed.

Lemma tame_for_each {B : Type} own k (f : B → Prog RideCall unit) l :
  (∀ x, x ∈ l → tame own k (f x)) → tame own k (for_each f l).
Proof.
  induction l as [|x l IH]; intros H; [constructor|]. simpl. apply tame_bind; [apply H; left|].
  intros _. apply IH. intros y Hy. apply H. by right.
Qed.

Lemma tame_sum_each {B : Type} own k (f : B → Prog RideCall N) l :
  (∀ x, x ∈ l → tame own k (f x)) → tame own k (sum_each f l).
Proof.
  induction l as [|x l IH]; intros H; [constructor|]. simpl. apply tame_bind; [apply H; left|].
  intros n. apply tame_bind; [apply IH; intros y Hy; apply H; by right|]. intros m. constructor.
Qed.

Definition knows_all (k : Seen) (ids : list text) : Seen :=
  {| sn_ids := λ i, sn_ids k i ∨ i ∈ ids; sn_rides := sn_rides k |}.

Lemma lookup_foldr_delete (rides : Rides) (l : list text) id :
  foldr delete rides l !! id = if decide (id ∈ l) then None else rides !! id.
Proof.
  induction l as [|x l IH]; simpl; [done|]. destruct (decide (id = x)) as [->|Hne].
  - rewrite lookup_delete_eq, decide_True by left. done.
  - rewrite lookup_delete_ne by done. rewrite IH. destruct (decide (id ∈ l)), (decide (id ∈ x :: l)) as [H|H];
      try done; [by destruct H; right|]. by apply elem_of_cons in H as [?|?].
Qed.

Lemma over_settled rides id e now :
  sound rides → rides !! id = Some e → forgettable now e = true → entry_state e ≠ Requesting.
Proof.
  intros Hs He [_ Ho]%andb_prop Hr. destruct (Hs id e He) as [_ Hse]. revert Ho. unfold is_over.
  destruct (sr_reading e) eqn:E; [by rewrite Hr|done|]. intros _. unfold sound_entry in Hse.
  rewrite Hr, E in Hse. by apply Hse.
Qed.

Lemma tame_prune own k now : tame own k (prune has_store now).
Proof.
  unfold prune. constructor. intros rides (Hs & Hd & Ho). unfold prune_section. simpl.
  set (gone := fst <$> _). split; [|split].
  - intros id e He. rewrite lookup_foldr_delete in He. destruct (decide _); [done|]. by apply Hs.
  - intros id. unfold look. rewrite lookup_foldr_delete. destruct (decide (id ∈ gone)) as [Hin|]; [|constructor].
    destruct (rides !! id) as [e|] eqn:He; [|constructor]. constructor. unfold gone in Hin.
    apply list_elem_of_fmap in Hin as ([i e'] & -> & [Hin Hf]%elem_of_filter_bool).
    apply elem_of_map_to_list in Hin. simpl in He. rewrite He in Hin. injection Hin as <-.
    by apply (over_settled rides i e now).
  - exists (knows_all k gone). split.
    + split; [split; simpl; auto|]. split; simpl; [|auto]. intros id [?|Hin]; [by left|right]. split.
      * left. unfold gone in Hin. apply list_elem_of_fmap in Hin as ([i e] & -> & Hin).
        apply elem_of_filter_bool in Hin as [Hin _]. apply elem_of_map_to_list in Hin. by eexists.
      * intros e He. rewrite lookup_foldr_delete in He. by destruct (decide (id ∈ gone)).
    + apply tame_bind; [|constructor]. apply tame_for_each. intros id Hid. apply tame_bind; [|constructor].
      apply tame_try_persist. left. by right.
Qed.

Lemma tame_take_over own k profile_id now :
  tame own k (take_over_current has_store provider_name uuid_v5 profile_id now).
Proof.
  unfold take_over_current. apply tame_live_trip. intros [[ride|]|e]; [|constructor|constructor].
  set (id := uuid_v5 _). constructor. intros rides (Hs & Hd & Ho). unfold take_over_section.
  destruct (bool_decide (is_Some (rides !! id))) eqn:Eb; simpl.
  { split; [done|]. split; [intros; constructor|]. exists k. split; [apply learned_refl|constructor]. }
  destruct (followed _ _ _); simpl.
  { split; [done|]. split; [intros; constructor|]. exists k. split; [apply learned_refl|constructor]. }
  apply bool_decide_eq_false, eq_None_not_Some in Eb. split; [|split].
  - intros i e [[<- <-]|[_ He]]%lookup_insert_Some; [by split|by apply Hs].
  - intros i. unfold look. destruct (decide (id = i)) as [<-|Hne].
    + rewrite lookup_insert_eq, Eb. simpl. by eapply al_added.
    + rewrite lookup_insert_ne by done. constructor.
  - exists (knows k id). split; [by apply (learn_decided k _ _ id (taken_over id profile_id now ride)); [apply lookup_insert_eq|]|].
    apply tame_persist; [left; by right|constructor].
Qed.

Lemma tame_track_ride own k pending : sn_ids k (pr_id pending) → tame own k (track_ride has_store pending).
Proof.
  intros Hid. unfold track_ride.
  assert (tame own k (let! n := Peek (news (pr_id pending)) in
                      match n with Some n => announce has_store pending n | None => Ret 0 end)) as Htell.
  { apply tame_peek. intros rides _. exists k. split; [apply learned_refl|].
    destruct (news _ _) as [[status [message|]|message]|]; [| | |constructor].
    - constructor. intros [devices| |why]; [apply tame_told; [done|constructor]..|constructor].
    - apply tame_told; [done|constructor].
    - constructor. intros [devices| |why]; [apply tame_told; [done|constructor]..|constructor]. }
  apply tame_peek. intros rides _. exists k. split; [apply learned_refl|]. destruct (is_read _ _); [|exact Htell].
  apply tame_bind.
  - unfold read. destruct (pr_state pending) as [| |ride|reason| |r]; try apply tm_ret.
    + destruct (negb _); [|constructor]. apply tame_refresh. intros [ride'|e]; constructor.
    + apply tame_recheck. intros r. constructor.
  - intros [| |why]; [by apply tame_read_succeeded|exact Htell|]. apply tame_read_failed; [done|].
    intros [|]; [exact Htell|constructor].
Qed.

Lemma tame_track_once own k : tame own k (track_once has_store).
Proof.
  unfold track_once. constructor. intros now. apply tame_bind; [apply tame_prune|]. intros _.
  apply tame_peek. intros rides (Hs & Hd & Ho). exists (knows_all k (pr_id <$> to_follow rides)). split.
  - split; [split; simpl; auto|]. split; simpl; [|auto]. intros id [?|Hin]; [by left|right].
    apply list_elem_of_fmap in Hin as (p & -> & Hin). unfold to_follow in Hin.
    apply list_elem_of_fmap in Hin as (e & -> & Hin). apply elem_of_filter_bool in Hin as [Hin Hf].
    apply list_elem_of_fmap in Hin as ([id e'] & -> & Hin). apply elem_of_map_to_list in Hin. simpl in *.
    destruct (Hs id e' Hin) as [-> Hse]. split; [left; by eexists|]. intros e He. simplify_eq.
    unfold to_be_followed in Hf. destruct (sr_reading e') eqn:Er; [|by apply Hse; rewrite Er|by apply Hse; rewrite Er].
    by destruct (entry_state e').
  - apply tame_sum_each. intros p Hp. apply tame_track_ride. right. by apply list_elem_of_fmap_2.
Qed.

(** *** What holds of the pond *)

Definition asked_for (w : BookWorld) (id : text) : Prop := id ∈ (λ r, r.1.1) <$> bw_requests w.

(** The terms kept for its id, but for a taken over trip, which may be forgotten and found again. *)
Definition bears (w : BookWorld) (s : SavedRide) : Prop :=
  never_v5 (pr_id (sr_ride s)) → bw_terms w !! pr_id (sr_ride s) = Some (terms_of s).

Record world_ok (w : BookWorld) : Prop := {
  wo_rides : sound (bw_rides w);
  wo_store : sound (bw_store w);
  wo_rides_terms : ∀ id e, bw_rides w !! id = Some e → is_Some (bw_terms w !! id) ∧ bears w e;
  wo_store_terms : ∀ id e, bw_store w !! id = Some e → bears w e;
  wo_shown : ∀ id, id ∈ bw_shown w → is_Some (bw_terms w !! id) ∧ never_v5 id;
  wo_asked : ∀ id profile_id trip, (id, profile_id, trip) ∈ bw_requests w →
    bw_terms w !! id = Some (profile_id, Some trip) ∧ id ∈ bw_shown w ∧
    unawaited (bw_rides w) id ∧ unawaited (bw_store w) id;
  wo_once : NoDup ((λ r, r.1.1) <$> bw_requests w);
  wo_no_store : has_store = false → bw_store w = ∅;
}.

Definition seen_ok (w : BookWorld) (k : Seen) : Prop :=
  (∀ id, sn_ids k id → is_Some (bw_terms w !! id) ∧ is_decided (bw_rides w) id) ∧
  (∀ s, sn_rides k s → bears w s ∧ sound_entry s ∧ entry_state s ≠ AwaitingConfirmation).

(** How a section of one task may change a ride, for the others. [mine] is the ride the task has
    to itself: one it is quoting, or has claimed and not asked the provider for yet; [own] the one
    it asked for. *)
Inductive change (w : BookWorld) own (mine : option text) (id : text) :
    option (BookingState * Terms) → option (BookingState * Terms) → Prop :=
| ch_same b : change w own mine id b b
| ch_gone s t : s ≠ Requesting → change w own mine id (Some (s, t)) None
| ch_decided s t s' : s ≠ Requesting ∨ own id ∧ asked_for w id → decided s' →
    change w own mine id (Some (s, t)) (Some (s', t))
| ch_added s t : ¬ never_v5 id → decided s → change w own mine id None (Some (s, t))
| ch_claimed t : change w own mine id (Some (AwaitingConfirmation, t)) (Some (Requesting, t))
| ch_unclaimed t : mine = Some id → ¬ asked_for w id →
    change w own mine id (Some (Requesting, t)) (Some (AwaitingConfirmation, t))
| ch_quoted t : mine = Some id → bw_terms w !! id = None →
    change w own mine id None (Some (AwaitingConfirmation, t)).

Record effect own (mine : option text) (w w' : BookWorld) : Prop := {
  ef_change : ∀ id, change w own mine id (look (bw_rides w) id) (look (bw_rides w') id);
  ef_terms : ∀ id t, bw_terms w !! id = Some t → bw_terms w' !! id = Some t;
  ef_new_terms : ∀ id, bw_terms w !! id = None → bw_terms w' !! id = None ∨ ¬ never_v5 id ∨ mine = Some id;
  ef_shown : ∀ id, id ∈ bw_shown w → id ∈ bw_shown w';
  ef_new_shown : ∀ id, id ∈ bw_shown w' → id ∈ bw_shown w ∨ mine = Some id;
  ef_uuids : ∀ id, id ∈ bw_uuids w → id ∈ bw_uuids w';
  ef_asked : ∀ id, asked_for w id → asked_for w' id;
  ef_new_asked : ∀ id, asked_for w' id → asked_for w id ∨ mine = Some id;
  ef_store : ∀ id, id ∈ bw_shown w → unawaited (bw_store w) id → unawaited (bw_store w') id;
}.

Definition quote_inserts (pending : PendingRide) : Prog RideCall (result PendingRide BookingError) :=
  do! Poke (<[pr_id pending := new_entry pending None]>) in
  prog_bind (persist has_store (pr_id pending)) (λ _, Ret (Ok pending)).

Definition requesting (w : BookWorld) (id : text) : Prop :=
  ∃ e, bw_rides w !! id = Some e ∧ entry_state e = Requesting.

(** Where a quote is, and the id it has to itself. *)
Inductive quoting (w : BookWorld) : option text → Prog RideCall (result PendingRide BookingError) → Prop :=
| qu_failed e : quoting w None (Ret (Err e))
| qu_asks profile_id pickup dropoff now :
    quoting w None (quote has_store distance_km beyond_max profile_id pickup dropoff now)
| qu_names next :
    (∀ id, ∃ p, pr_id p = id ∧ pr_state p = AwaitingConfirmation ∧ next id = quote_inserts p) →
    quoting w None (Call NewUuid next)
| qu_inserts p :
    pr_state p = AwaitingConfirmation → pr_id p ∈ bw_uuids w → never_v5 (pr_id p) →
    bw_terms w !! pr_id p = None → quoting w (Some (pr_id p)) (quote_inserts p)
| qu_holds p q :
    pr_id p ∈ bw_uuids w → never_v5 (pr_id p) → is_Some (bw_terms w !! pr_id p) →
    pr_id p ∉ bw_shown w →
    q = prog_bind (persist has_store (pr_id p)) (λ _, Ret (Ok p)) ∨
    (has_store = true ∧
     ((∃ s next, pr_id (sr_ride s) = pr_id p ∧ bears w s ∧ sound_entry s ∧ q = Call (StoreSave s) next ∧
              ∀ r, next r = Ret (Ok p)) ∨
      (∃ next, q = Call (StoreRemove (pr_id p)) next ∧ ∀ r, next r = Ret (Ok p)))) ∨
    q = Ret (Ok p) →
    quoting w (Some (pr_id p)) q.

Definition when_kept (id profile_id : text) (trip : QuotedTrip) (kept : result unit text)
    : Prog RideCall (result BookingState BookingError) :=
  match kept with
  | Err _ =>
      do! Poke (set_state id AwaitingConfirmation) in
      Ret (Err (ProviderError
        (lit "the pond could not save this ride, so it was not booked; try again")))
  | Ok _ =>
      let! outcome := ProviderRequest id profile_id trip in
      settle_request has_store id profile_id outcome
  end.

(** Where a confirmation is, and the id it has to itself. *)
Inductive confirming (w : BookWorld) (id profile_id : text)
    : option text → Prog RideCall (result BookingState BookingError) → Prop :=
| co_done r : confirming w id profile_id None (Ret r)
| co_claims now :
    id ∈ bw_shown w → confirming w id profile_id None (confirm has_store id profile_id now)
| co_claimed trip q :
    id ∈ bw_shown w → bw_terms w !! id = Some (profile_id, Some trip) → ¬ asked_for w id →
    requesting w id →
    q = prog_bind (try_persist has_store id) (when_kept id profile_id trip) ∨
    (has_store = true ∧
     ((∃ s next, pr_id (sr_ride s) = id ∧ bears w s ∧ sound_entry s ∧ entry_state s ≠ AwaitingConfirmation ∧
              q = Call (StoreSave s) next ∧ ∀ r, next r = when_kept id profile_id trip r) ∨
      (∃ next, q = Call (StoreRemove id) next ∧ ∀ r, next r = when_kept id profile_id trip r))) ∨
    (∃ e, q = when_kept id profile_id trip (Err e)) ∨
    (unawaited (bw_store w) id ∧ q = when_kept id profile_id trip (Ok tt)) →
    confirming w id profile_id (Some id) q
| co_asked k q :
    asked_for w id → tame (λ i, i = id) k q → seen_ok w k → confirming w id profile_id None q.

Inductive stage (w : BookWorld) : Task → option text → Prop :=
| sg_quoting o p : quoting w o p → stage w (Quoting p) o
| sg_confirming id profile_id o p : confirming w id profile_id o p → stage w (Confirming id profile_id p) o
| sg_serving k p : tame (λ _, False) k p → seen_ok w k → stage w (Serving p) None
| sg_over : stage w Over None.

(** *** Another task's step leaves a task where it is *)

Lemma look_Some rides id s t :
  look rides id = Some (s, t) ↔ ∃ e, rides !! id = Some e ∧ entry_state e = s ∧ terms_of e = t.
Proof.
  unfold look. destruct (rides !! id) as [e|] eqn:E; simpl; split.
  - intros [= <- <-]. by exists e.
  - intros (e' & [= <-] & <- & <-). done.
  - done.
  - by intros (e' & ? & _).
Qed.
Lemma look_None rides id : look rides id = None ↔ rides !! id = None.
Proof. unfold look. by destruct (rides !! id). Qed.

(** A ride now in memory, by what it was. *)
Lemma change_some own w mine id b s t : change w own mine id b (Some (s, t)) →
  b = Some (s, t) ∨
  (∃ s0, b = Some (s0, t) ∧
     ((s0 ≠ Requesting ∨ asked_for w id) ∧ decided s ∨
      s0 = AwaitingConfirmation ∧ s = Requesting ∨
      mine = Some id ∧ ¬ asked_for w id ∧ s0 = Requesting ∧ s = AwaitingConfirmation)) ∨
  b = None ∧ (¬ never_v5 id ∧ decided s ∨
              mine = Some id ∧ bw_terms w !! id = None ∧ s = AwaitingConfirmation).
Proof. inversion 1; subst; naive_solver. Qed.

Lemma ride_now own mine w w' id e : effect own mine w w' → bw_rides w' !! id = Some e →
  (∃ e0, bw_rides w !! id = Some e0 ∧
     (entry_state e = entry_state e0 ∨
      (entry_state e0 ≠ Requesting ∨ asked_for w id) ∧ decided (entry_state e) ∨
      entry_state e0 = AwaitingConfirmation ∧ entry_state e = Requesting ∨
      mine = Some id ∧ ¬ asked_for w id ∧ entry_state e0 = Requesting ∧
        entry_state e = AwaitingConfirmation)) ∨
  bw_rides w !! id = None ∧
    (¬ never_v5 id ∧ decided (entry_state e) ∨
     mine = Some id ∧ bw_terms w !! id = None ∧ entry_state e = AwaitingConfirmation).
Proof.
  intros He Hid. pose proof (ef_change _ _ _ _ He id) as Hc.
  rewrite (proj2 (look_Some (bw_rides w') id (entry_state e) (terms_of e))) in Hc by by exists e.
  apply change_some in Hc as [H|[(s0 & H & Hor)|[H Hor]]].
  - apply look_Some in H as (e0 & ? & ? & _). left. exists e0. auto.
  - apply look_Some in H as (e0 & ? & <- & _). left. exists e0. split; [done|]. tauto.
  - apply look_None in H. by right.
Qed.

Lemma decided_kept own mine w w' id :
  effect own mine w w' → is_Some (bw_terms w !! id) → is_decided (bw_rides w) id → is_decided (bw_rides w') id.
Proof.
  intros He [t Ht] Hd e He'. destruct (ride_now own mine w w' id e He He') as [(e0 & H0 & Hor)|[_ [[_ ?]|(_ & ? & _)]]];
    [|done|congruence].
  specialize (Hd e0 H0). destruct Hor as [->|[[_ ?]|[[E _]|(_ & _ & E & _)]]]; try done; by rewrite E in Hd.
Qed.

Lemma seen_kept own mine w w' k : effect own mine w w' → seen_ok w k → seen_ok w' k.
Proof.
  intros He [Hi Hr]. split.
  - intros id H. destruct (Hi id H) as [[t Ht] Hd]. split; [exists t; by apply (ef_terms _ _ _ _ He)|].
    apply (decided_kept own mine w); [done|by exists t|done].
  - intros s H. destruct (Hr s H) as (Hb & ? & ?). split; [intros ?; by apply (ef_terms _ _ _ _ He), Hb|done].
Qed.

Lemma change_requesting w own mine id s t b :
  change w own mine id (Some (s, t)) b → s = Requesting → mine ≠ Some id → ¬ (own id ∧ asked_for w id) →
  b = Some (Requesting, t).
Proof. intros Hc. by inversion Hc as [|s' t' Hg|s' t' s'' [?|?] ?| | | |]; intros; simplify_eq. Qed.

Lemma requesting_kept own mine w w' id :
  effect own mine w w' → mine ≠ Some id → ¬ (own id ∧ asked_for w id) → requesting w id → requesting w' id.
Proof.
  intros He Hm Ha (e & Hid & Hr). pose proof (ef_change _ _ _ _ He id) as Hc.
  rewrite (proj2 (look_Some (bw_rides w) id _ (terms_of e))) in Hc by by exists e.
  apply change_requesting in Hc; [|done..]. apply look_Some in Hc as (e' & ? & ? & _). by exists e'.
Qed.

Lemma quoting_kept own mine w w' o p :
  effect own mine w w' → (∀ id, mine = Some id → o ≠ Some id) → quoting w o p → quoting w' o p.
Proof.
  intros He Hm Hp. revert Hm.
  destruct Hp as [e|profile_id pickup dropoff now|k Hk|q Hq Hu Hv Ht|q x Hu Hv [t Ht] Hs Hx]; intros Hm.
  - constructor.
  - constructor.
  - by constructor.
  - constructor; [done|by apply (ef_uuids _ _ _ _ He)|done|].
    destruct (ef_new_terms _ _ _ _ He _ Ht) as [?|[?|H]]; [done|done|]. exfalso. exact (Hm _ H eq_refl).
  - constructor; [by apply (ef_uuids _ _ _ _ He)|done|exists t; by apply (ef_terms _ _ _ _ He)| |].
    + intros Hin. destruct (ef_new_shown _ _ _ _ He _ Hin) as [?|H]; [done|]. exfalso. exact (Hm _ H eq_refl).
    + destruct Hx as [?|[(Hst & [(s & k & H1 & H2 & H3)|?])|?]]; auto.
      right; left. split; [done|]. left. exists s, k. split; [done|]. split; [intros ?; by apply (ef_terms _ _ _ _ He), H2|done].
Qed.

Lemma confirming_kept own mine w w' id profile_id o p :
  world_ok w → effect own mine w w' → (∀ i, mine = Some i → o ≠ Some i) →
  confirming w id profile_id o p → confirming w' id profile_id o p.
Proof.
  intros Hw He Hm Hp. revert Hm.
  destruct Hp as [r|now Hs|trip q Hs Ht Ha Hreq Hq|k q Ha Htame Hseen]; intros Hm.
  - constructor.
  - constructor. by apply (ef_shown _ _ _ _ He).
  - assert (mine ≠ Some id) as Hne by (intros E; by destruct (Hm id E)).
    destruct (wo_shown w Hw id Hs) as [Hterm Hv]. apply (co_claimed w' id profile_id trip).
    + by apply (ef_shown _ _ _ _ He).
    + by apply (ef_terms _ _ _ _ He).
    + intros H. by destruct (ef_new_asked _ _ _ _ He _ H).
    + apply (requesting_kept own mine w w'); [done|done| |done]. by intros [_ ?].
    + destruct Hq as [?|[(Hst & [(s & k & H1 & H2 & H3)|?])|[?|[Hun ?]]]]; auto.
      * right; left. split; [done|]. left. exists s, k. split; [done|]. split; [intros ?; by apply (ef_terms _ _ _ _ He), H2|done].
      * do 3 right. split; [by apply (ef_store _ _ _ _ He)|done].
  - apply (co_asked w' id profile_id k); [by apply (ef_asked _ _ _ _ He)|done|by eapply seen_kept].
Qed.

Lemma stage_kept own mine w w' t o :
  world_ok w → effect own mine w w' → (∀ id, mine = Some id → o ≠ Some id) → stage w t o → stage w' t o.
Proof.
  intros Hw He Hm Hp. revert Hm. destruct Hp as [o p Hq|id profile_id o p Hc|k p Ht Hs|]; intros Hm.
  - constructor. by eapply quoting_kept.
  - constructor. by eapply confirming_kept.
  - apply (sg_serving w' k); [done|by eapply seen_kept].
  - constructor.
Qed.

(** *** A tame section *)

Lemma effect_refl own mine w : effect own mine w w.
Proof. split; try by auto. intros id. constructor. Qed.

(** A ride in memory after a tame section, by what it was before. *)
Lemma allowed_now own id rides rides' e :
  allowed own id (look rides id) (look rides' id) → rides' !! id = Some e →
  (∃ e0, rides !! id = Some e0 ∧ terms_of e0 = terms_of e ∧
     (entry_state e0 = entry_state e ∨ decided (entry_state e))) ∨
  rides !! id = None ∧ ¬ never_v5 id ∧ decided (entry_state e).
Proof.
  intros Ha He. rewrite (proj2 (look_Some rides' id (entry_state e) (terms_of e))) in Ha by by exists e.
  remember (look rides id) as b eqn:Hb. remember (Some (entry_state e, terms_of e)) as b' eqn:Hb'.
  destruct Ha as [b|s t Hg|s t s' Hor Hd|name s t Hid Hd]; subst; try done.
  - apply look_Some in Hb' as (e0 & ? & ? & ?). left. exists e0. auto.
  - injection Hb' as -> ->. symmetry in Hb. apply look_Some in Hb as (e0 & ? & _ & ?). left. exists e0. auto.
  - injection Hb' as -> ->. symmetry in Hb. apply look_None in Hb. right. split; [done|].
    split; [|done]. intros Hv. by destruct (Hv name).
Qed.

Lemma locked_ok own w rides' :
  world_ok w → (∀ id, own id → asked_for w id) → sound rides' →
  (∀ id, allowed own id (look (bw_rides w) id) (look rides' id)) →
  world_ok (with_rides rides' w) ∧ effect own None w (with_rides rides' w).
Proof.
  intros [W1 W2 W3 W4 W5 W6 W7 W8] Hown Hs Ha.
  pose proof (λ id e, allowed_now own id (bw_rides w) rides' e (Ha id)) as Hnow.
  assert (∀ id e, rides' !! id = Some e → bw_terms w !! id = None → ¬ never_v5 id) as Hnew.
  { intros id e He Hn. destruct (Hnow id e He) as [(e0 & He0 & _)|(_ & ? & _)]; [|done].
    destruct (W3 id e0 He0) as [[t Ht] _]. congruence. }
  assert (∀ id t, bw_terms w !! id = Some t → (bw_terms w ∪ (terms_of <$> rides')) !! id = Some t) as Hterms.
  { intros id t Ht. by apply lookup_union_Some_l. }
  split; split; simpl; try done; try by auto.
  - intros id e He. destruct (Hs id e He) as [Hk _]. split.
    + rewrite lookup_union_is_Some, lookup_fmap, He. right. by eexists.
    + unfold bears. rewrite Hk. cbn [with_rides bw_terms]. intros Hv.
      destruct (Hnow id e He) as [(e0 & He0 & <- & _)|(_ & ? & _)]; [|done].
      destruct (W3 id e0 He0) as [_ Hb]. unfold bears in Hb. rewrite (proj1 (W1 id e0 He0)) in Hb.
      by apply Hterms, Hb.
  - intros id e He Hv. apply Hterms. by apply (W4 id e He).
  - intros id Hin. destruct (W5 id Hin) as [[t Ht] ?]. split; [|done]. exists t. by apply Hterms.
  - intros id profile_id trip Hin. destruct (W6 id profile_id trip Hin) as (Ht & ? & Hun & ?).
    split; [by apply Hterms|]. split; [done|]. split; [|done]. intros e He.
    destruct (Hnow id e He) as [(e0 & He0 & _ & [<-|?])|(_ & _ & ?)];
      [by apply Hun|by apply decided_unawaited..].
  - intros id. destruct (Ha id) as [b|s t Hg|s t s' [?|?] Hd|name s t Hid Hd]; constructor; auto.
    intros Hv. by destruct (Hv name).
  - intros id Hn. rewrite lookup_union_None, lookup_fmap. destruct (rides' !! id) as [e|] eqn:E; [|by left].
    right; left. by apply (Hnew id e).
Qed.

Lemma learned_ok own w rides' k k' :
  world_ok w → world_ok (with_rides rides' w) → effect own None w (with_rides rides' w) →
  seen_ok w k → learned k k' (bw_rides w) rides' → seen_ok (with_rides rides' w) k'.
Proof.
  intros Hw Hw' He Hk (_ & Li & Lr). pose proof (seen_kept own None _ _ k He Hk) as [Hi Hr]. split.
  - intros id [?|[Hor Hd]]%Li; [by apply Hi|]. split; [|done]. destruct Hor as [[e H]|[e H]].
    + destruct (wo_rides_terms w Hw id e H) as [[t Ht] _]. exists t. by apply (ef_terms _ _ _ _ He).
    + by apply (wo_rides_terms _ Hw' id e).
  - intros s [?|[Hs Ha]]%Lr; [by apply Hr|]. split; [by apply (wo_rides_terms _ Hw' _ s Hs)|].
    split; [|done]. by apply (wo_rides _ Hw' _ s Hs).
Qed.

Lemma store_ok w store' :
  world_ok w → sound store' → (∀ id e, store' !! id = Some e → bears w e) →
  (∀ id, asked_for w id → unawaited store' id) → (has_store = false → store' = ∅) →
  world_ok (with_store store' w).
Proof.
  intros [W1 W2 W3 W4 W5 W6 W7 W8] Hs Hb Hu Hn. split; simpl; try done.
  intros id profile_id trip Hin. destruct (W6 id profile_id trip Hin) as (? & ? & ? & _).
  do 3 (split; [done|]). apply Hu. unfold asked_for. apply list_elem_of_fmap. by exists (id, profile_id, trip).
Qed.

Lemma asked_unawaited w id :
  world_ok w → asked_for w id → unawaited (bw_rides w) id ∧ unawaited (bw_store w) id.
Proof.
  intros Hw Ha. unfold asked_for in Ha. apply list_elem_of_fmap in Ha as ([[i profile_id] trip] & -> & Hin).
  by apply (wo_asked w Hw i profile_id trip).
Qed.

Lemma save_ok own mine w s :
  world_ok w → has_store = true → sound_entry s → bears w s →
  entry_state s ≠ AwaitingConfirmation ∨ (pr_id (sr_ride s) ∉ bw_shown w) →
  world_ok (with_store (<[pr_id (sr_ride s) := s]> (bw_store w)) w) ∧
  effect own mine w (with_store (<[pr_id (sr_ride s) := s]> (bw_store w)) w).
Proof.
  intros Hw Hst Hse Hb Hor. pose proof Hw as [W1 W2 W3 W4 W5 W6 W7 W8]. split.
  - apply store_ok; try done.
    + intros id e [[<- <-]|[_ He]]%lookup_insert_Some; [by split|by apply W2].
    + intros id e [[<- <-]|[_ He]]%lookup_insert_Some; [done|by eapply W4].
    + intros id Ha e [[<- <-]|[_ He]]%lookup_insert_Some.
      * destruct Hor as [?|Hns]; [done|]. destruct Hns. unfold asked_for in Ha.
        apply list_elem_of_fmap in Ha as ([[i profile_id] trip] & Heq & Hin). simpl in Heq.
        destruct (W6 _ _ _ Hin) as (_ & Hsh & _). by rewrite Heq.
      * by apply (asked_unawaited w id Hw Ha).
    + by rewrite Hst.
  - split; simpl; try by auto.
    + intros id. constructor.
    + intros id Hsh Hu e [[<- <-]|[_ He]]%lookup_insert_Some; [|by apply Hu]. by destruct Hor.
Qed.

Lemma remove_ok own mine w id :
  world_ok w → world_ok (with_store (delete id (bw_store w)) w) ∧ effect own mine w (with_store (delete id (bw_store w)) w).
Proof.
  intros Hw. pose proof Hw as [W1 W2 W3 W4 W5 W6 W7 W8]. split.
  - apply store_ok; try done.
    + intros i e [_ He]%lookup_delete_Some. by apply W2.
    + intros i e [_ He]%lookup_delete_Some. by eapply W4.
    + intros i Ha e [_ He]%lookup_delete_Some. by apply (asked_unawaited w i Hw Ha).
    + intros E. by rewrite W8, delete_empty.
  - split; simpl; try by auto.
    + intros i. constructor.
    + intros i Hsh Hu e [_ He]%lookup_delete_Some. by apply Hu.
Qed.

(** The next call of a tame program. *)
Definition tame_call {A R} own (k : Seen) (c : RideCall R) (p : R → Prog RideCall A) : Prop :=
  match c in RideCall R return (R → Prog RideCall A) → Prop with
  | Locked f => λ p, ∀ rides, holds_in own k rides →
       sound (f rides).2 ∧ (∀ id, allowed own id (look rides id) (look (f rides).2 id)) ∧
       ∃ k', learned k k' rides (f rides).2 ∧ tame own k' (p (f rides).1)
  | StoreSave s => λ p, has_store = true ∧ sn_rides k s ∧ ∀ r, tame own k (p r)
  | StoreRemove _ | ProviderRide _ _ | ProviderCurrent _ | ProviderCancel _ _ | UtcNow
  | NotifyMember _ => λ p, ∀ r, tame own k (p r)
  | _ => λ _, False
  end p.

Lemma tame_view {A : Type} own k (q : Prog RideCall A) :
  tame own k q → match q with Ret _ => True | Call c p => tame_call own k c p end.
Proof. intros []; simpl; auto. Qed.

Lemma tame_step {A R : Type} own k (c : RideCall R) (p : R → Prog RideCall A) w r w' :
  world_ok w → (∀ id, own id → asked_for w id) → seen_ok w k →
  tame own k (Call c p) → ride_call R c w r w' →
  world_ok w' ∧ effect own None w w' ∧ ∃ k', tame own k' (p r) ∧ seen_ok w' k'.
Proof.
  intros Hw Hown Hk Ht%tame_view Hc. revert p Ht.
  destruct Hc as [B f w|m a b r w|id m trip r w|m q r w|m r w|m q r w|s r w|s e w|id r w|id e w|l w Hl|e w|id w H1 H2 H3|t w|n r w];
    simpl; intros p Ht; try done;
    try (by split; [done|]; split; [apply effect_refl|]; exists k; split; [apply Ht|]).
  - assert (holds_in own k (bw_rides w)) as Hh.
    { split; [apply Hw|]. split; [intros id Hid; by apply Hk|]. intros id Hid.
      by apply (asked_unawaited w id Hw), Hown. }
    destruct (Ht _ Hh) as (Hs & Ha & k' & Hl & Htame).
    destruct (locked_ok own w _ Hw Hown Hs Ha) as [Hw' He]. split; [done|]. split; [done|].
    exists k'. split; [done|]. by apply (learned_ok own w _ k).
  - destruct Ht as (Hst & Hs & Ht). destruct Hk as [Hi Hr]. destruct (Hr s Hs) as (Hb & Hse & Hna).
    destruct (save_ok own None w s Hw Hst Hse Hb (or_introl Hna)) as [Hw' He].
    split; [done|]. split; [done|]. exists k. split; [apply Ht|]. by apply (seen_kept own None w).
  - destruct (remove_ok own None w id Hw) as [Hw' He]. split; [done|]. split; [done|].
    exists k. split; [apply Ht|]. by apply (seen_kept own None w).
Qed.

(** *** A quote's and a confirmation's own steps *)

Lemma effect_weaken (own own' : text → Prop) mine w w' :
  (∀ id, own id → own' id) → effect own None w w' → effect own' mine w w'.
Proof.
  intros Ho [H1 H2 H3 H4 H5 H6 H7 H8 H9]. split; try done.
  - intros id. specialize (H1 id). remember None as m eqn:Em.
    destruct H1 as [b|s t ?|s t s' Hor ?|s t ? ?|t|t E ?|t E ?];
      [constructor|by constructor| |by constructor|apply ch_claimed|congruence..].
    apply ch_decided; [|done]. destruct Hor as [?|[? ?]]; auto.
  - intros id Hn. destruct (H3 id Hn) as [?|[?|?]]; auto; done.
  - intros id Hin. destruct (H5 id Hin); auto; done.
  - intros id Ha. destruct (H8 id Ha); auto; done.
Qed.

Lemma effect_mine own mine w w' : effect own None w w' → effect own mine w w'.
Proof. by apply effect_weaken. Qed.

(** What a call does to the pond. *)
Definition call_view {R} (c : RideCall R) (w : BookWorld) (r : R) (w' : BookWorld) : Prop :=
  match c in RideCall R return R → Prop with
  | Locked f => λ r, r = (f (bw_rides w)).1 ∧ w' = with_rides (f (bw_rides w)).2 w
  | ProviderRequest id p trip => λ _, w' = requested id p trip w
  | StoreSave s => λ r,
      w' = with_store (<[pr_id (sr_ride s) := s]> (bw_store w)) w ∨ w' = w ∧ ∃ e, r = Err e
  | StoreRemove id => λ r, w' = with_store (delete id (bw_store w)) w ∨ w' = w ∧ ∃ e, r = Err e
  | StoreLoad => λ r, w' = w ∧ ∀ l, r = Ok l → ∀ s, s ∈ l → bw_store w !! pr_id (sr_ride s) = Some s
  | NewUuid => λ id, w' = gave_uuid id w ∧ id ∉ bw_uuids w ∧ bw_terms w !! id = None ∧ never_v5 id
  | _ => λ _, w' = w
  end r.

Lemma ride_call_view {R} (c : RideCall R) w r w' : ride_call R c w r w' → call_view c w r w'.
Proof. intros []; simpl; eauto 6; by (split; [done|]; intros ? [=]; subst). Qed.

(** An id a task may take for its own. *)
Definition free (w : BookWorld) (id : text) : Prop :=
  (id ∉ bw_uuids w ∧ bw_terms w !! id = None) ∨
  (id ∈ bw_shown w ∧ ∃ e, bw_rides w !! id = Some e ∧ entry_state e = AwaitingConfirmation).

Definition own_next (w : BookWorld) (o o' : option text) : Prop :=
  o' = o ∨ o' = None ∨ o = None ∧ ∃ id, o' = Some id ∧ free w id.

(** Every answer to the next call of [q] leads to [P]. *)
Definition after {A} (w : BookWorld) (q : Prog RideCall A) (P : Prog RideCall A → BookWorld → Prop) : Prop :=
  match q with Ret _ => True | Call c p => ∀ r w', ride_call _ c w r w' → P (p r) w' end.

Definition moved {T} (at_stage : BookWorld → option text → T → Prop)
    own (w : BookWorld) (o : option text) (q : T) (w' : BookWorld) : Prop :=
  world_ok w' ∧ effect own o w w' ∧ ∃ o', at_stage w' o' q ∧ own_next w o o'.

Lemma peek_ok own w : world_ok w → world_ok (with_rides (bw_rides w) w) ∧ effect own None w (with_rides (bw_rides w) w).
Proof.
  intros Hw. destruct (locked_ok (λ _, False) w (bw_rides w) Hw) as [Hw' He]; [done|apply Hw|intros id; constructor|].
  split; [done|]. by apply (effect_weaken (λ _, False)).
Qed.

Lemma uuid_ok own w id : world_ok w → world_ok (gave_uuid id w) ∧ effect own None w (gave_uuid id w).
Proof.
  intros [W1 W2 W3 W4 W5 W6 W7 W8]. split; split; simpl; try done; try by auto.
  - intros i. constructor.
  - intros i Hi. set_solver.
Qed.

Lemma insert_quote_ok own w p :
  world_ok w → pr_state p = AwaitingConfirmation → bw_terms w !! pr_id p = None →
  world_ok (with_rides (<[pr_id p := new_entry p None]> (bw_rides w)) w) ∧
  effect own (Some (pr_id p)) w (with_rides (<[pr_id p := new_entry p None]> (bw_rides w)) w).
Proof.
  intros [W1 W2 W3 W4 W5 W6 W7 W8] Hp Hn.
  assert (bw_rides w !! pr_id p = None) as Hr.
  { destruct (bw_rides w !! pr_id p) as [e|] eqn:E; [|done]. destruct (W3 _ e E) as [[t Ht] _]. congruence. }
  assert (∀ id t, bw_terms w !! id = Some t →
    (bw_terms w ∪ (terms_of <$> <[pr_id p := new_entry p None]> (bw_rides w))) !! id = Some t) as Hterms.
  { intros id t Ht. by apply lookup_union_Some_l. }
  split; split; simpl; try done; try by auto.
  - intros id e [[<- <-]|[_ He]]%lookup_insert_Some; [|by apply W1]. split; [done|]. by intros ?.
  - intros id e [[<- <-]|[_ He]]%lookup_insert_Some.
    + assert ((bw_terms w ∪ (terms_of <$> <[pr_id p := new_entry p None]> (bw_rides w))) !! pr_id p =
              Some (terms_of (new_entry p None))) as Ht.
      { rewrite lookup_union_r by done. by rewrite lookup_fmap, lookup_insert_eq. }
      split; [by eexists|]. intros _. exact Ht.
    + destruct (W3 id e He) as [[t Ht] Hb]. split; [exists t; by apply Hterms|]. intros Hv. by apply Hterms, Hb.
  - intros id e He Hv. apply Hterms. by apply (W4 id e He).
  - intros id Hin. destruct (W5 id Hin) as [[t Ht] ?]. split; [|done]. exists t. by apply Hterms.
  - intros id profile_id trip Hin. destruct (W6 id profile_id trip Hin) as (Ht & ? & Hun & ?).
    split; [by apply Hterms|]. split; [done|]. split; [|done].
    intros e [[Hid <-]|[_ He]]%lookup_insert_Some; [|by apply Hun]. subst id. by rewrite Hn in Ht.
  - intros id. unfold look. destruct (decide (pr_id p = id)) as [<-|Hne].
    + rewrite Hr, lookup_insert_eq. simpl. rewrite Hp. by constructor.
    + rewrite lookup_insert_ne by done. constructor.
  - intros id Hi. destruct (decide (pr_id p = id)) as [<-|Hne]; [auto|].
    rewrite lookup_union_None, lookup_fmap, lookup_insert_ne by done.
    destruct (bw_rides w !! id) as [e|] eqn:E; [|by left]. destruct (W3 id e E) as [[t Ht] _]. congruence.
Qed.

Lemma quoting_step own w o q : world_ok w → quoting w o q → after w q (moved quoting own w o).
Proof.
  intros Hw Hq. destruct Hq as [e|profile_id pickup dropoff now|next Hnext|p Hp Hu Hv Ht|p q Hu Hv Ht Hs Hq];
    [done| | | |].
  - unfold quote. destruct (beyond_max _); [done|]. intros r w' ->%ride_call_view.
    split; [done|]. split; [apply effect_refl|]. exists None. split; [|by left].
    destruct r as [fare|e]; [|constructor]. apply qu_names. intros id. by eexists {| pr_id := id |}.
  - intros id w' (-> & Hu & Ht & Hv)%ride_call_view. destruct (uuid_ok own w id Hw) as [Hw' He].
    split; [done|]. split; [done|]. exists (Some id). split.
    + destruct (Hnext id) as (p & Hid & Hp & ->). rewrite <-Hid. rewrite <-Hid in Hv, Ht.
      apply qu_inserts; simpl; [done| |done|done]. rewrite Hid. set_solver.
    + right; right. split; [done|]. exists id. split; [done|]. by left.
  - intros r w' [-> ->]%ride_call_view. destruct (insert_quote_ok own w p Hw Hp Ht) as [Hw' He].
    split; [done|]. split; [done|]. exists (Some (pr_id p)). split; [|by left].
    apply qu_holds; simpl; [done|done| | |by left].
    + rewrite lookup_union_r by done. by rewrite lookup_fmap, lookup_insert_eq.
    + intros Hin. destruct (wo_shown w Hw _ Hin) as [[t Ht'] _]. congruence.
  - assert (∀ w', effect own None w w' → bw_shown w' = bw_shown w → ∀ q', 
              ((has_store = true ∧
     ((∃ s next, pr_id (sr_ride s) = pr_id p ∧ bears w s ∧ sound_entry s ∧ q' = Call (StoreSave s) next ∧
              ∀ r, next r = Ret (Ok p)) ∨
      (∃ next, q' = Call (StoreRemove (pr_id p)) next ∧ ∀ r, next r = Ret (Ok p)))) ∨
    q' = Ret (Ok p)) → quoting w' (Some (pr_id p)) q') as Hgo.
    { intros w' He Hsh q' Hq'. apply (quoting_kept own None w); [done|done|]. apply qu_holds; auto. }
    destruct Hq as [->|[(Hst & [(s & next & Hid & Hb & Hse & -> & Hn)|(next & -> & Hn)])| ->]]; [| | |done].
    + unfold persist, try_persist. destruct has_store eqn:Hst; [|done].
      intros r w' [-> ->]%ride_call_view. simpl. destruct (peek_ok own w Hw) as [Hw' He].
      split; [done|]. split; [by apply effect_mine|]. exists (Some (pr_id p)). split; [|by left].
      apply Hgo; [done|done|]. left. split; [done|].
      destruct (bw_rides w !! pr_id p) as [e|] eqn:E; [left|right; by eexists].
      destruct (wo_rides w Hw _ e E) as [Hid Hse], (wo_rides_terms w Hw _ e E) as [_ Hb].
      eexists e, _. split; [done|]. split; [exact Hb|]. split; [done|]. done.
    + intros r w' [->|[-> _]]%ride_call_view; rewrite Hn.
      * destruct (save_ok own None w s Hw Hst Hse Hb) as [Hw' He]; [right; by rewrite Hid|].
        split; [done|]. split; [by apply effect_mine|]. exists (Some (pr_id p)). split; [|by left].
        apply Hgo; auto.
      * split; [done|]. split; [apply effect_refl|]. exists (Some (pr_id p)). split; [|by left].
        apply Hgo; [apply effect_refl|done|auto].
    + intros r w' [->|[-> _]]%ride_call_view; rewrite Hn.
      * destruct (remove_ok own None w (pr_id p) Hw) as [Hw' He].
        split; [done|]. split; [by apply effect_mine|]. exists (Some (pr_id p)). split; [|by left].
        apply Hgo; auto.
      * split; [done|]. split; [apply effect_refl|]. exists (Some (pr_id p)). split; [|by left].
        apply Hgo; [apply effect_refl|done|auto].
Qed.

Lemma tame_settle own k id profile_id outcome : own id → tame own k (settle_request has_store id profile_id outcome).
Proof.
  intros Hid. unfold settle_request. destruct outcome as [ride|[reason|reason]].
  - apply tame_decide; [done|by right|constructor].
  - apply tame_decide; [done|by right|constructor].
  - apply tame_live_trip. intros [[ride|]|e]; apply tame_decide; try done; try (by right); constructor.
Qed.

Lemma request_ok own w id profile_id trip :
  world_ok w → id ∈ bw_shown w → bw_terms w !! id = Some (profile_id, Some trip) → ¬ asked_for w id →
  unawaited (bw_rides w) id → unawaited (bw_store w) id →
  world_ok (requested id profile_id trip w) ∧ effect own (Some id) w (requested id profile_id trip w).
Proof.
  intros [W1 W2 W3 W4 W5 W6 W7 W8] Hs Ht Ha Hr Hst. unfold asked_for in Ha.
  split; split; unfold asked_for; simpl; try done; try by auto.
  - intros i m t [Hin|Hin%list_elem_of_singleton]%elem_of_app; [by apply W6|]. by simplify_eq.
  - rewrite fmap_app. apply NoDup_app. split; [done|]. split; [|apply NoDup_singleton].
    intros i Hi ->%list_elem_of_singleton. done.
  - intros i. constructor.
  - intros i Hi. rewrite fmap_app. apply elem_of_app. by left.
  - intros i. rewrite fmap_app, elem_of_app. intros [?| ->%list_elem_of_singleton]; auto.
Qed.

(** Setting the state of a ride one has claimed back, or claiming it. *)
Lemma swap_ok own mine w id s :
  world_ok w → ¬ asked_for w id → (s = AwaitingConfirmation ∨ s = Requesting) →
  (∀ e, bw_rides w !! id = Some e → sr_reading e = On ∧
     (entry_state e = AwaitingConfirmation ∧ s = Requesting ∨
      entry_state e = Requesting ∧ s = AwaitingConfirmation ∧ mine = Some id)) →
  world_ok (with_rides (set_state id s (bw_rides w)) w) ∧
  effect own mine w (with_rides (set_state id s (bw_rides w)) w).
Proof.
  intros [W1 W2 W3 W4 W5 W6 W7 W8] Hna Hs He.
  assert (∀ i e, set_state id s (bw_rides w) !! i = Some e → ∃ e0, bw_rides w !! i = Some e0 ∧
    (e = e0 ∨ i = id ∧ e = entry_with_state s e0)) as Hnow.
  { intros i e. unfold set_state. destruct (decide (id = i)) as [<-|Hne].
    - rewrite lookup_alter_eq. destruct (bw_rides w !! id) as [e0|]; [|done]. intros [= <-]. eauto.
    - rewrite lookup_alter_ne by done. eauto. }
  assert (∀ i t, bw_terms w !! i = Some t →
    (bw_terms w ∪ (terms_of <$> set_state id s (bw_rides w))) !! i = Some t) as Hterms.
  { intros i t Ht. by apply lookup_union_Some_l. }
  split; split; simpl; try done; try by auto.
  - intros i e (e0 & E0 & [->|[-> ->]])%Hnow; [by apply W1|]. split; [by apply (W1 id e0 E0)|].
    intros Hoff. simpl in Hoff. by destruct (He e0 E0).
  - intros i e (e0 & E0 & Hor)%Hnow. destruct (W3 i e0 E0) as [[t Ht] Hb].
    split; [exists t; by apply Hterms|]. destruct Hor as [->|[-> ->]]; intros Hv; by apply Hterms, Hb.
  - intros i e Hi Hv. apply Hterms. by apply (W4 i e Hi).
  - intros i Hin. destruct (W5 i Hin) as [[t Ht] ?]. split; [|done]. exists t. by apply Hterms.
  - intros i m t Hin. destruct (W6 i m t Hin) as (? & ? & Hun & ?).
    split; [by apply Hterms|]. split; [done|]. split; [|done].
    intros e (e0 & E0 & [->|[-> ->]])%Hnow; [by apply Hun|]. destruct Hna. unfold asked_for.
    apply list_elem_of_fmap. by exists (id, m, t).
  - intros i. unfold set_state. rewrite look_alter by done. destruct (decide (id = i)) as [<-|]; [|constructor].
    unfold look. destruct (bw_rides w !! id) as [e|] eqn:E; [|constructor]. simpl.
    destruct (He e eq_refl) as [_ [[-> ->]|(-> & -> & ->)]]; by constructor.
  - intros i Hi. left. rewrite lookup_union_None, lookup_fmap. split; [done|]. unfold set_state.
    destruct (decide (id = i)) as [<-|Hne].
    + rewrite lookup_alter_eq. destruct (bw_rides w !! id) as [e|] eqn:E; [|done].
      destruct (W3 id e E) as [[t Ht] _]. congruence.
    + rewrite lookup_alter_ne by done. destruct (bw_rides w !! i) as [e|] eqn:E; [|done].
      destruct (W3 i e E) as [[t Ht] _]. congruence.
Qed.

Lemma claim_cases id profile_id now rides :
  (∃ e, claim_quote id profile_id now rides = (Err e, rides)) ∨
  ∃ e trip, rides !! id = Some e ∧ entry_state e = AwaitingConfirmation ∧ terms_of e = (profile_id, Some trip) ∧
    claim_quote id profile_id now rides = (Ok trip, set_state id Requesting rides).
Proof.
  unfold claim_quote, owned. destruct (rides !! id) as [e|]; [|eauto].
  destruct (decide (pr_profile_id (sr_ride e) = profile_id)) as [Hp|]; [|eauto].
  destruct (entry_state e) eqn:Es; [|eauto..]. destruct (pr_trip (sr_ride e)) as [trip|] eqn:Et; [|eauto].
  destruct (_ <=? now)%Z; [eauto|]. right. exists e, trip. unfold terms_of. by rewrite Hp, Et.
Qed.

(** A ride being claimed or requested is read: the pond gave up only on decided ones. *)
Lemma sound_on w id e : world_ok w → bw_rides w !! id = Some e → ¬ decided (entry_state e) → sr_reading e = On.
Proof.
  intros Hw He Hd. destruct (wo_rides w Hw id e He) as [_ Hs]. destruct (sr_reading e) eqn:E; [done| |];
    destruct Hd; apply Hs; congruence.
Qed.

Lemma confirming_step w id profile_id o q :
  world_ok w → confirming w id profile_id o q →
  after w q (moved (λ w, confirming w id profile_id) (λ i, i = id) w o).
Proof.
  intros Hw Hq. set (own := λ i, i = id).
  destruct Hq as [r|now Hs|trip q Hs Ht Ha Hreq Hq|k q Ha Htame Hseen]; [done| | |].
  - unfold confirm. intros r w' [-> ->]%ride_call_view.
    destruct (claim_cases id profile_id now (bw_rides w)) as [(e & ->)|(e & trip & He & Hst & Hte & ->)]; simpl.
    + destruct (peek_ok own w Hw) as [Hw' He]. split; [done|]. split; [done|]. exists None. split; [constructor|by left].
    + assert (¬ asked_for w id) as Ha by (intros Ha; by apply (proj1 (asked_unawaited w id Hw Ha) e)).
      destruct (swap_ok own None w id Requesting Hw Ha) as [Hw' Hef]; [by right| |].
      { intros e' He'. rewrite He in He'. injection He' as <-.
        split; [apply (sound_on w id e Hw He); rewrite Hst; by intros []|by left]. }
      split; [done|]. split; [done|]. exists (Some id). split.
      * destruct (wo_shown w Hw id Hs) as [_ Hv]. apply (co_claimed _ id profile_id trip); [done| |done| |by left].
        -- rewrite <-Hte. apply (ef_terms own None w _ Hef). destruct (wo_rides_terms w Hw id e He) as [_ Hb].
           unfold bears in Hb. rewrite (proj1 (wo_rides w Hw id e He)) in Hb. by apply Hb.
        -- exists (entry_with_state Requesting e). simpl. unfold set_state. by rewrite lookup_alter_eq, He.
      * right; right. split; [done|]. exists id. split; [done|]. right. split; [done|]. by exists e.
  - assert (∀ e, bw_rides w !! id = Some e → entry_state e = Requesting) as Hst.
    { destruct Hreq as (e & He & Hr). intros e' He'. rewrite He in He'. by injection He' as <-. }
    assert (∀ w', world_ok w' → effect own None w w' → ∀ q',
      ((has_store = true ∧
     ((∃ s next, pr_id (sr_ride s) = id ∧ bears w s ∧ sound_entry s ∧ entry_state s ≠ AwaitingConfirmation ∧
              q' = Call (StoreSave s) next ∧ ∀ r, next r = when_kept id profile_id trip r) ∨
      (∃ next, q' = Call (StoreRemove id) next ∧ ∀ r, next r = when_kept id profile_id trip r))) ∨
    (∃ e, q' = when_kept id profile_id trip (Err e)) ∨
    (unawaited (bw_store w') id ∧ q' = when_kept id profile_id trip (Ok tt))) →
    moved (λ w, confirming w id profile_id) (λ i, i = id) w (Some id) q' w') as Hgo.
    { intros w' Hw' He q' Hq'. split; [done|]. split; [by apply effect_mine|]. exists (Some id). split; [|by left].
      apply (co_claimed w' id profile_id trip); [by apply (ef_shown _ _ _ _ He)|by apply (ef_terms _ _ _ _ He)| | |].
      - intros H. by destruct (ef_new_asked _ _ _ _ He _ H).
      - apply (requesting_kept own None w w'); [done|done| |done]. by intros [_ ?].
      - right. destruct Hq' as [(? & [(s & next & ? & Hb & ?)|?])|?]; [|by auto..]. left. split; [done|]. left.
        exists s, next. split; [done|]. split; [intros ?; by apply (ef_terms _ _ _ _ He), Hb|done]. }
    assert (has_store = false → unawaited (bw_store w) id) as Hnone.
    { intros E. rewrite (wo_no_store w Hw E). intros e. by rewrite lookup_empty. }
    assert (unawaited (bw_store w) id → after w (when_kept id profile_id trip (Ok tt))
              (moved (λ w, confirming w id profile_id) (λ i, i = id) w (Some id))) as Hask.
    { intros Hun outcome w' ->%ride_call_view.
      destruct (request_ok own w id profile_id trip Hw Hs Ht Ha) as [Hw' He]; [|done|].
      { intros e He. by rewrite (Hst e He). }
      split; [done|]. split; [done|]. exists None. split; [|by right; left].
      apply (co_asked _ id profile_id {| sn_ids := λ _, False; sn_rides := λ _, False |}).
      - unfold asked_for. simpl. rewrite fmap_app. apply elem_of_app. right. by apply list_elem_of_singleton.
      - by apply tame_settle.
      - by split. }
    assert (∀ w' (r : result unit text), world_ok w' → effect own None w w' → unawaited (bw_store w') id ∨ (∃ e, r = Err e) →
      moved (λ w, confirming w id profile_id) (λ i, i = id) w (Some id) (when_kept id profile_id trip r) w') as Hkept.
    { intros w' r Hw' He Hor. apply Hgo; [done|done|]. right. destruct r as [[]|e]; [right|left; eauto].
      split; [|done]. by destruct Hor as [?|[? [=]]]. }
    destruct Hq as [->|[(Hhas & [(s & next & Hid & Hb & Hse & Hna & -> & Hn)|(next & -> & Hn)])|[[e ->]|[Hun ->]]]].
    + unfold try_persist. destruct has_store eqn:Hhas; [|by apply Hask, Hnone].
      intros r w' [-> ->]%ride_call_view. simpl. destruct (peek_ok own w Hw) as [Hw' He].
      apply Hgo; [done|done|]. left. split; [done|].
      destruct (bw_rides w !! id) as [e|] eqn:E; [left|right; by eexists].
      destruct (wo_rides w Hw _ e E) as [Hid Hse], (wo_rides_terms w Hw _ e E) as [_ Hb].
      eexists e, _. split; [done|]. split; [exact Hb|]. split; [done|]. split; [by rewrite (Hst e eq_refl)|done].
    + intros r w' [->|[-> Herr]]%ride_call_view; rewrite Hn.
      * destruct (save_ok own None w s Hw Hhas Hse Hb) as [Hw' He]; [by left|]. apply Hkept; [done|done|left].
        intros e. simpl. rewrite Hid, lookup_insert_eq. by intros [= <-].
      * apply Hkept; [done|apply effect_refl|by right].
    + intros r w' [->|[-> Herr]]%ride_call_view; rewrite Hn.
      * destruct (remove_ok own None w id Hw) as [Hw' He]. apply Hkept; [done|done|left].
        intros e. simpl. by rewrite lookup_delete_eq.
      * apply Hkept; [done|apply effect_refl|by right].
    + intros r w' [-> ->]%ride_call_view. simpl.
      destruct (swap_ok own (Some id) w id AwaitingConfirmation Hw Ha) as [Hw' He]; [by left| |].
      { intros e' He'. split; [apply (sound_on w id e' Hw He'); rewrite (Hst e' He'); by intros []|].
        right. by rewrite (Hst e' He'). }
      split; [done|]. split; [done|]. exists None. split; [constructor|by right; left].
    + by apply Hask.
  - destruct q as [r|R c next]; [done|]. intros r w' Hc.
    destruct (tame_step own k c next w r w' Hw) as (Hw' & He & k' & Htame' & Hseen'); [by intros ? ->|done..|].
    split; [done|]. split; [done|]. exists None. split; [|by left].
    apply (co_asked w' id profile_id k'); [by apply (ef_asked _ _ _ _ He)|done|done].
Qed.

(** *** Every task, and a start *)

Lemma shown_ok own w o p :
  world_ok w → pr_id p ∈ bw_uuids w → never_v5 (pr_id p) → is_Some (bw_terms w !! pr_id p) →
  o = Some (pr_id p) →
  world_ok (shown_to_member (pr_id p) w) ∧ effect own o w (shown_to_member (pr_id p) w).
Proof.
  intros [W1 W2 W3 W4 W5 W6 W7 W8] Hu Hv Ht ->. split; split; simpl; try done; try by auto.
  - intros id [->%elem_of_singleton|?]%elem_of_union; [done|by apply W5].
  - intros id profile_id trip Hin. destruct (W6 _ _ _ Hin) as (? & ? & ? & ?). set_solver.
  - intros id. constructor.
  - set_solver.
  - intros id [->%elem_of_singleton|?]%elem_of_union; auto.
Qed.

Lemma quoted_own w o pending : quoting w o (Ret (Ok pending)) →
  pr_id pending ∈ bw_uuids w ∧ never_v5 (pr_id pending) ∧ is_Some (bw_terms w !! pr_id pending) ∧
  o = Some (pr_id pending).
Proof.
  intros Hq. remember (Ret (Ok pending)) as q eqn:E.
  destruct Hq as [e|profile_id pickup dropoff now|next Hnext|p Hp Hu Hv Ht|p q Hu Hv Ht Hs Hq]; try done.
  - revert E. unfold quote. by destruct (beyond_max _).
  - subst q. assert (pending = p) as ->; [|auto].
    destruct Hq as [Hq|[(_ & [(s & next & _ & _ & _ & Hq & _)|(next & Hq & _)])|[= ->]]]; try done.
    unfold persist, try_persist in Hq. destruct has_store; [done|]. by injection Hq as ->.
Qed.

(** The ride a task may settle: the one it confirms. *)
Definition confirms (t : Task) (id : text) : Prop :=
  match t with Confirming i _ _ => id = i | _ => False end.

Lemma stays own w w' o t :
  world_ok w' → effect own o w w' → stage w' t None → moved (λ w o t, stage w t o) own w o t w'.
Proof. intros. split; [done|]. split; [done|]. exists None. split; [done|by right; left]. Qed.

Lemma task_moves t o w t' w' :
  world_ok w → stage w t o → task_step t w t' w' → moved (λ w o t, stage w t o) (confirms t) w o t' w'.
Proof.
  intros Hw Hp Hstep. revert Hw Hp.
  induction Hstep as [R c next w r w' Hc|R c id profile_id next w r w' Hc|R c next w r w' Hc
    |pending w|e w|id profile_id r w|u w|t w Hd|t w t' w' Hd _ IH]; intros Hw Hp.
  - inversion Hp as [o' p Hq| | |]; subst. destruct (quoting_step (confirms (Quoting (Call c next))) w o _ Hw Hq r w' Hc) as (Hw' & He & o' & ? & ?).
    split; [done|]. split; [done|]. exists o'. by split; [constructor|].
  - inversion Hp as [|i m o' p Hq| |]; subst.
    destruct (confirming_step w id profile_id o _ Hw Hq r w' Hc) as (Hw' & He & o' & ? & ?).
    split; [done|]. split; [done|]. exists o'. by split; [constructor|].
  - inversion Hp as [| |k p Ht Hs|]; subst.
    destruct (tame_step (λ _, False) k c next w r w' Hw) as (Hw' & He & k' & ? & ?); [done..|].
    apply stays; [done|done|]. by apply (sg_serving w' k').
  - inversion Hp as [o' p Hq| | |]; subst. destruct (quoted_own w o pending Hq) as (? & ? & ? & ?).
    destruct (shown_ok (confirms (Quoting (Ret (Ok pending)))) w o pending) as [Hw' He]; [done..|]. apply stays; [done|done|constructor].
  - apply stays; [done|apply effect_refl|constructor].
  - apply stays; [done|apply effect_refl|constructor].
  - apply stays; [done|apply effect_refl|constructor].
  - apply stays; [done|apply effect_refl|constructor].
  - destruct (IH Hw Hp) as (Hw' & He & _). apply stays; [done|done|constructor].
Qed.

Definition unseen : Seen := {| sn_ids := λ _, False; sn_rides := λ _, False |}.

Lemma served_tame {A : Type} own k (p : Prog RideCall A) : tame own k p → tame own k (prog_bind p (λ _, Ret tt)).
Proof. intros Hp. apply tame_bind; [exact Hp|]. intros a. apply tm_ret. Qed.

Lemma starts_stage w t : starts w t → stage w t None.
Proof.
  intros []; try (apply (sg_serving w unseen); [|by split]).
  - constructor. constructor.
  - constructor. by constructor.
  - apply served_tame, tame_decline.
  - apply tame_recheck. intros r. apply tm_ret.
  - apply tame_refresh. intros r. apply tm_ret.
  - apply served_tame, tame_cancel.
  - apply served_tame, tame_take_over.
  - apply served_tame, tame_track_once.
Qed.

Lemma own_not_free w t o id : world_ok w → stage w t o → free w id → o ≠ Some id.
Proof.
  intros Hw Hp Hf ->. inversion Hp as [o' p Hq|i m o' p Hc| |]; subst.
  - inversion Hq; subst; destruct Hf as [[Hu Hn]|[Hs (e & He & _)]]; try done.
    destruct (wo_shown w Hw _ Hs) as [[t Ht] _]. congruence.
  - inversion Hc as [| |trip q Hs Ht Ha Hreq Hq|]; subst. destruct Hf as [[_ Hn]|[_ (e & He & Haw)]]; [congruence|].
    destruct Hreq as (e' & He' & Hr). rewrite He in He'. injection He' as <-. by rewrite Hr in Haw.
Qed.

(** *** The pond *)

(** Where each task is, no ride held by two of them. *)
Definition pool_ok (w : BookWorld) (ts : list Task) (os : list (option text)) : Prop :=
  Forall2 (stage w) ts os ∧ ∀ i j id, os !! i = Some (Some id) → os !! j = Some (Some id) → i = j.

Lemma tasks_start w ts os t : pool_ok w ts os → starts w t → pool_ok w (ts ++ [t]) (os ++ [None]).
Proof.
  intros [Hos Hone] Ht. split.
  - apply Forall2_app; [done|]. constructor; [by apply starts_stage|constructor].
  - intros i j id Hi Hj. apply lookup_app_Some in Hi as [Hi|[_ Hi]]; [|by apply list_lookup_singleton_Some in Hi as [_ ?]].
    apply lookup_app_Some in Hj as [Hj|[_ Hj]]; [|by apply list_lookup_singleton_Some in Hj as [_ ?]].
    by apply (Hone i j id).
Qed.

Lemma tasks_run w ts os i t t' w' :
  world_ok w → pool_ok w ts os → ts !! i = Some t → task_step t w t' w' →
  ∃ o o', os !! i = Some o ∧ world_ok w' ∧ effect (confirms t) o w w' ∧ own_next w o o' ∧
    pool_ok w' (<[i := t']> ts) (<[i := o']> os).
Proof.
  intros Hw [Hos Hone] Hi Hstep. destruct (Forall2_lookup_l _ _ _ _ _ Hos Hi) as (o & Ho & Hp).
  destruct (task_moves t o w t' w' Hw Hp Hstep) as (Hw' & He & o' & Hp' & Hnext).
  exists o, o'. do 4 (split; [done|]).
  assert (∀ j u id, j ≠ i → os !! j = Some u → o' = Some id → u ≠ Some id) as Hother.
  { intros j u id Hne Hj -> ->. destruct Hnext as [<-|[?|(_ & i' & [= <-] & Hf)]]; [|done|].
    - destruct Hne. by apply (Hone j i id).
    - destruct (Forall2_lookup_r _ _ _ _ _ Hos Hj) as (tj & _ & Hpj). by apply (own_not_free w tj _ id Hw Hpj Hf). }
  split.
  - apply Forall2_lookup. intros j. destruct (decide (i = j)) as [<-|Hne].
    + rewrite !list_lookup_insert_eq by eauto using lookup_lt_Some. by constructor.
    + rewrite !list_lookup_insert_ne by done. destruct (ts !! j) as [tj|] eqn:Ej.
      * destruct (Forall2_lookup_l _ _ _ _ _ Hos Ej) as (oj & Eo & Hpj). rewrite Eo. constructor.
        apply (stage_kept (confirms t) o w w' tj oj Hw He); [|done]. intros id -> ->. destruct Hne. by apply (Hone i j id).
      * apply lookup_ge_None in Ej. rewrite (Forall2_length _ _ _ Hos) in Ej. apply lookup_ge_None in Ej.
        rewrite Ej. constructor.
  - intros j j' id Hj Hj'.
    destruct (decide (i = j)) as [<-|Hne], (decide (i = j')) as [<-|Hne']; [done| | |].
    + rewrite list_lookup_insert_eq in Hj by eauto using lookup_lt_Some. injection Hj as ->.
      rewrite list_lookup_insert_ne in Hj' by done. by destruct (Hother j' (Some id) id).
    + rewrite list_lookup_insert_eq in Hj' by eauto using lookup_lt_Some. injection Hj' as ->.
      rewrite list_lookup_insert_ne in Hj by done. by destruct (Hother j (Some id) id).
    + rewrite list_lookup_insert_ne in Hj, Hj' by done. by apply (Hone j j' id).
Qed.

(** A start of the pond: the program it runs, alone. *)
Inductive booting (w : BookWorld) : Prog RideCall N → Prop :=
| bo_starts now : bw_rides w = ∅ → booting w (restore has_store now)
| bo_loaded saved next :
    bw_rides w = ∅ → (∀ s, s ∈ saved → bw_store w !! pr_id (sr_ride s) = Some s) →
    (∀ interrupted, ∃ now, next interrupted =
       prog_bind (for_each (persist has_store) interrupted) (λ _,
       let! restored := Peek (λ rides, N.of_nat (size rides)) in
       prog_bind (prune has_store now) (λ _, Ret restored))) →
    booting w (Call (Locked (restore_section saved)) next)
| bo_restores k p : tame (λ _, False) k p → seen_ok w k → booting w p.

Lemma taken_back_keeps s :
  pr_id (sr_ride (taken_back s).1) = pr_id (sr_ride s) ∧ terms_of (taken_back s).1 = terms_of s ∧
  (sound_entry s → sound_entry (taken_back s).1) ∧
  (entry_state s ≠ AwaitingConfirmation → entry_state (taken_back s).1 ≠ AwaitingConfirmation) ∧
  ((taken_back s).2 = true → decided (entry_state (taken_back s).1)).
Proof. unfold taken_back, sound_entry. destruct (entry_state s) eqn:E; simpl; rewrite ?E; by auto. Qed.

Lemma restored_ride saved rides id e :
  foldl (λ rides b, <[pr_id (sr_ride b.1) := b.1]> rides) rides (taken_back <$> saved) !! id = Some e →
  rides !! id = Some e ∨ ∃ s, s ∈ saved ∧ pr_id (sr_ride s) = id ∧ e = (taken_back s).1.
Proof.
  revert rides. induction saved as [|s saved IH]; intros rides; simpl; [by left|].
  intros [H|(s' & ? & ?)]%IH; [|right; exists s'; set_solver].
  apply lookup_insert_Some in H as [[<- <-]|[_ H]]; [right|by left].
  exists s. split; [left|]. split; [|done]. symmetry. by apply taken_back_keeps.
Qed.

Lemma restored_key saved rides s :
  s ∈ saved → is_Some (foldl (λ rides b, <[pr_id (sr_ride b.1) := b.1]> rides) rides (taken_back <$> saved)
                         !! pr_id (sr_ride s)).
Proof.
  assert (∀ l (rides : Rides) id, is_Some (rides !! id) →
    is_Some (foldl (λ rides b, <[pr_id (sr_ride b.1) := b.1]> rides) rides (taken_back <$> l) !! id)) as Hkeep.
  { induction l as [|s' l IH]; intros rides' id H; simpl; [done|]. apply IH.
    destruct (decide (pr_id (sr_ride (taken_back s').1) = id)) as [->|?];
      [rewrite lookup_insert_eq; by eexists|by rewrite lookup_insert_ne]. }
  revert rides. induction saved as [|s' saved IH]; intros rides Hin; [by apply not_elem_of_nil in Hin|].
  apply elem_of_cons in Hin as [<-|Hin]; simpl; [|by apply IH]. apply Hkeep.
  rewrite (proj1 (taken_back_keeps s)), lookup_insert_eq. by eexists.
Qed.

Lemma restored_ok w saved :
  world_ok w → bw_rides w = ∅ → (∀ s, s ∈ saved → bw_store w !! pr_id (sr_ride s) = Some s) →
  world_ok (with_rides (restore_section saved ∅).2 w) ∧
  seen_ok (with_rides (restore_section saved ∅).2 w) (knows_all unseen (restore_section saved ∅).1).
Proof.
  intros [W1 W2 W3 W4 W5 W6 W7 W8] Hr Hsaved. unfold restore_section. simpl. set (rides' := foldl _ _ _).
  assert (∀ id e, rides' !! id = Some e → ∃ s, s ∈ saved ∧ bw_store w !! id = Some s ∧
            pr_id (sr_ride s) = id ∧ e = (taken_back s).1) as Hnow.
  { intros id e [H|(s & Hs & <- & ->)]%restored_ride; [by rewrite lookup_empty in H|].
    exists s. split; [done|]. by split; [apply Hsaved|]. }
  assert (∀ id t, bw_terms w !! id = Some t → (bw_terms w ∪ (terms_of <$> rides')) !! id = Some t) as Hterms.
  { intros id t Ht. by apply lookup_union_Some_l. }
  split; [split|split]; simpl; try done.
  - intros id e (s & _ & Hst & <- & ->)%Hnow. destruct (taken_back_keeps s) as (? & _ & Hse & _).
    split; [done|]. apply Hse. by apply (W2 _ s Hst).
  - intros id e He. split; [rewrite lookup_union_is_Some, lookup_fmap, He; right; by eexists|].
    apply Hnow in He as (s & _ & Hst & <- & ->). destruct (taken_back_keeps s) as (Hk & Ht & _).
    unfold bears. rewrite Hk, Ht. intros Hv. by apply Hterms, (W4 _ s Hst).
  - intros id e He Hv. by apply Hterms, (W4 id e He).
  - intros id Hin. destruct (W5 id Hin) as [[t Ht] ?]. split; [|done]. exists t. by apply Hterms.
  - intros id profile_id trip Hin. destruct (W6 _ _ _ Hin) as (? & ? & ? & Hun).
    split; [by apply Hterms|]. split; [done|]. split; [|done].
    intros e (s & _ & Hst & _ & ->)%Hnow. apply (taken_back_keeps s). by apply (Hun s).
  - intros id [[]|Hin]. apply list_elem_of_fmap in Hin as (b & -> & [Hb Hin]%elem_of_filter_bool).
    apply list_elem_of_fmap in Hb as (s & -> & Hs). destruct (taken_back_keeps s) as (-> & _ & _ & _ & Hd).
    split.
    + destruct (restored_key saved ∅ s Hs) as [e He]. rewrite lookup_union_is_Some, lookup_fmap. right.
      fold rides' in He. rewrite He. by eexists.
    + intros e (s' & _ & Hst & _ & ->)%Hnow. rewrite (Hsaved s Hs) in Hst. injection Hst as <-. by apply Hd.
Qed.

Lemma boot_step w p : world_ok w → booting w p → after w p (λ p' w', world_ok w' ∧ booting w' p').
Proof.
  intros Hw [now Hr|saved next Hr Hsaved Hnext|k q Ht Hk].
  - unfold restore. destruct has_store eqn:E; [|done]. intros r w' [-> Hl]%ride_call_view. split; [done|].
    destruct r as [saved|e]; [|apply (bo_restores w unseen); [apply tm_ret|split; by intros ? []]].
    apply bo_loaded; [done|by apply Hl|]. intros ints. exists now. by rewrite E.
  - intros ints w' [-> ->]%ride_call_view. rewrite Hr. destruct (restored_ok w saved Hw Hr Hsaved) as [Hw' Hk].
    split; [done|]. destruct (Hnext (restore_section saved ∅).1) as [now ->].
    eapply bo_restores; [|exact Hk]. apply tame_bind.
    + apply tame_for_each. intros id Hid. apply tame_bind; [|intros r; apply tm_ret].
      apply tame_try_persist. left. by right.
    + intros _. apply tame_peek. intros rides _. eexists. split; [apply learned_refl|].
      apply tame_bind; [apply tame_prune|]. intros m. apply tm_ret.
  - destruct q as [n|R c next]; [done|]. intros r w' Hc.
    destruct (tame_step (λ _, False) k c next w r w' Hw) as (Hw' & _ & k' & ? & ?); [done..|].
    split; [done|]. by apply (bo_restores w' k').
Qed.

Definition pond_ok (p : Pond) : Prop :=
  match p with
  | Serves w ts => world_ok w ∧ ∃ os, pool_ok w ts os
  | Boots w p => world_ok w ∧ booting w p
  end.

Lemma stopped_ok w : world_ok w → world_ok (stopped w).
Proof.
  intros [W1 W2 W3 W4 W5 W6 W7 W8]. split; simpl; try done.
  intros id profile_id trip Hin. by destruct (W6 _ _ _ Hin) as (? & ? & _ & ?).
Qed.

Lemma pond_step_ok p p' : pond_ok p → pond_step p p' → pond_ok p'.
Proof.
  intros Hp Hstep. revert Hp. destruct Hstep as [t w ts Ht|i t t' w w' ts Hi Hstep|R c next w r w' Hc|n w|w ts now|w q now];
    intros [Hw Hp]; simpl.
  - destruct Hp as [os Hp]. split; [done|]. exists (os ++ [None]). by apply tasks_start.
  - destruct Hp as [os Hp].
    destruct (tasks_run w ts os i t t' w' Hw Hp Hi Hstep) as (o & o' & _ & ? & _ & _ & ?).
    split; [done|by eexists].
  - by apply (boot_step w _ Hw Hp r w' Hc).
  - split; [done|]. exists []. split; [constructor|]. intros i j id H. by rewrite lookup_nil in H.
  - split; [by apply stopped_ok|by constructor].
  - split; [by apply stopped_ok|by constructor].
Qed.

Definition world_of (p : Pond) : BookWorld := match p with Serves w _ | Boots w _ => w end.

Lemma pond_reached p : star pond_step new_pond p → pond_ok p.
Proof.
  intros Hs. apply (star_invariant pond_step pond_ok pond_step_ok new_pond); [done|]. split.
  - split; simpl; try done; intros *; rewrite ?lookup_empty, ?elem_of_empty, ?elem_of_nil; try done; constructor.
  - exists []. split; [constructor|]. intros i j id H. by rewrite lookup_nil in H.
Qed.

Lemma pond_world p : star pond_step new_pond p → world_ok (world_of p).
Proof. intros Hs%pond_reached. by destruct p, Hs. Qed.

(** ** A quote is confirmed at most once *)

(** C7: In every pond that can be reached, whatever tasks run beside each other, are dropped
    half-way or lost in a restart, and whatever the provider and the store answer, the provider
    was asked for each ride at most once; and each request was made for a fare the pond had
    answered to a member, in the name of that member and with the trip quoted then. *)
Theorem requested_at_most_once p :
  star pond_step new_pond p →
  NoDup ((λ r, r.1.1) <$> bw_requests (world_of p)) ∧
  ∀ id profile_id trip, (id, profile_id, trip) ∈ bw_requests (world_of p) →
    id ∈ bw_shown (world_of p) ∧ bw_terms (world_of p) !! id = Some (profile_id, Some trip).
Proof.
  intros Hp. pose proof (pond_world p Hp) as Hw. split; [apply Hw|].
  intros id profile_id trip Hin. by destruct (wo_asked _ Hw id profile_id trip Hin) as (? & ? & _).
Qed.

(** ** A confirmation dropped while the provider answers *)

(** Nothing of the task can settle the ride [id] another confirmation left being requested. *)
Definition away (id : text) (t : Task) : Prop :=
  match t with
  | Confirming i m q => i = id → (∃ r, q = Ret r) ∨ ∃ now, q = confirm has_store id m now
  | _ => True
  end.

Definition left_requesting (id : text) (w : BookWorld) (ts : list Task) : Prop :=
  world_ok w ∧ id ∈ bw_shown w ∧ requesting w id ∧ (∀ j t, ts !! j = Some t → away id t) ∧
  ∃ os, pool_ok w ts os ∧ ∀ j, os !! j ≠ Some (Some id).

Lemma not_free w id : world_ok w → id ∈ bw_shown w → requesting w id → ¬ free w id.
Proof.
  intros Hw Hs (e & He & Hr) [[_ Hn]|[_ (e' & He' & Ha)]].
  - destruct (wo_shown w Hw id Hs) as [[t Ht] _]. congruence.
  - rewrite He in He'. injection He' as <-. by rewrite Hr in Ha.
Qed.

(** A confirmation started later is refused, and the ride stays. *)
Lemma confirm_refused w id m now :
  requesting w id →
  after w (confirm has_store id m now) (λ q w', (∃ r, q = Ret r) ∧ bw_rides w' = bw_rides w).
Proof.
  intros (e & He & Hr) r w' [-> ->]%ride_call_view.
  destruct (claim_cases id m now (bw_rides w)) as [(err & ->)|(e' & trip & He' & Ha & _)]; [by eauto|].
  rewrite He in He'. injection He' as <-. by rewrite Hr in Ha.
Qed.

Lemma away_step id t w t' w' :
  requesting w id → away id t → task_step t w t' w' → away id t' ∧ (confirms t id → requesting w' id).
Proof.
  intros Hr Ha Hstep.
  assert (droppable t = true → ¬ confirms t id) as Hnd.
  { intros Hd Hc. destruct t as [q|i m q|q|]; try done. simpl in Hc. subst i.
    by destruct (Ha eq_refl) as [[r ->]|[now ->]]. }
  revert Ha Hnd. destruct Hstep as [R c next w r w' Hc|R c i m next w r w' Hc|R c next w r w' Hc
    |pending w|e w|i m r w|u w|t w Hd|t w t' w' Hd Hstep]; intros Ha Hnd; simpl; try done.
  - destruct (decide (i = id)) as [->|Hne]; [|done]. destruct (Ha eq_refl) as [[x [=]]|[now Hq]].
    pose proof (confirm_refused w id m now Hr) as H. rewrite <-Hq in H. destruct (H r w' Hc) as [? Hrides].
    split; [by left|]. intros _. unfold requesting. by rewrite Hrides.
  - split; [done|]. by intros ?%Hnd.
Qed.

Lemma left_step id w ts w' ts' :
  left_requesting id w ts → pond_step (Serves w ts) (Serves w' ts') → left_requesting id w' ts'.
Proof.
  intros (Hw & Hs & Hr & Haway & os & Hp & Hown) Hstep. remember (Serves w ts) as p. remember (Serves w' ts') as p'.
  destruct Hstep as [t w0 ts0 Ht|i t t' w0 w1 ts0 Hi Hstep| | | |]; simplify_eq.
  - split; [done|]. split; [done|]. split; [done|]. split.
    + intros j u [Hj|[_ Hj]]%lookup_app_Some; [by apply (Haway j)|].
      apply list_lookup_singleton_Some in Hj as [_ <-]. destruct Ht; try done. intros ->. right. by eexists.
    + exists (os ++ [None]). split; [by apply tasks_start|]. intros j [Hj|[_ Hj]]%lookup_app_Some; [by destruct (Hown j)|].
      by apply list_lookup_singleton_Some in Hj as [_ ?].
  - destruct (tasks_run w ts os i t t' w' Hw Hp Hi Hstep) as (o & o' & Ho & Hw' & He & Hnext & Hp').
    destruct (away_step id t w t' w' Hr (Haway i t Hi) Hstep) as [Ha' Hmine].
    split; [done|]. split; [by apply (ef_shown _ _ _ _ He)|]. split.
    { assert (confirms t id ∨ ¬ confirms t id) as [Hc|Hc]; [|by apply Hmine|].
      { destruct t as [q|i' m q|q|]; simpl; auto. destruct (decide (id = i')); auto. }
      apply (requesting_kept (confirms t) o w); [done| |by intros [? _]|done]. intros ->. by apply (Hown i). }
    split.
    + intros j u Hj. destruct (decide (i = j)) as [<-|Hne].
      * rewrite list_lookup_insert_eq in Hj by eauto using lookup_lt_Some. by injection Hj as <-.
      * rewrite list_lookup_insert_ne in Hj by done. by apply (Haway j).
    + exists (<[i := o']> os). split; [done|]. intros j Hj. destruct (decide (i = j)) as [<-|Hne].
      * rewrite list_lookup_insert_eq in Hj by eauto using lookup_lt_Some. injection Hj as ->.
        destruct Hnext as [<-|[?|(_ & i' & [= <-] & Hf)]]; [by apply (Hown i)|done|by apply (not_free w id)].
      * rewrite list_lookup_insert_ne in Hj by done. by apply (Hown j).
Qed.

Definition serving_step (s s' : BookWorld * list Task) : Prop :=
  pond_step (Serves s.1 s.2) (Serves s'.1 s'.2).

Lemma asking_stage w id m trip next o :
  stage w (Confirming id m (Call (ProviderRequest id m trip) next)) o →
  o = Some id ∧ id ∈ bw_shown w ∧ requesting w id ∧ ¬ asked_for w id.
Proof.
  intros Hp. inversion Hp as [|i m' o' q Hq| |]; subst. remember (Call _ next) as q eqn:Eq.
  destruct Hq as [r|now Hs|trip' q Hs Ht Ha Hreq _|k q _ Ht%tame_view _]; try done.
  by rewrite Eq in Ht.
Qed.

Lemma asking_rides w id m trip next t' w' :
  task_step (Confirming id m (Call (ProviderRequest id m trip) next)) w t' w' → bw_rides w' = bw_rides w.
Proof.
  intros Hstep. remember (Confirming _ _ _) as t eqn:Et. induction Hstep; try done; [|by auto].
  apply (f_equal (λ t, match t with Confirming _ _ q => q | _ => Ret (Err RideNotFound) end)) in Et as Hc.
  simpl in Hc. assert (after w (Call c k) (λ _ w', bw_rides w' = bw_rides w)) as Ha.
  { rewrite Hc. by intros x y ->%ride_call_view. }
  by apply (Ha r w').
Qed.

Lemma dropped_left w ts i id m trip next w0 :
  star pond_step new_pond (Serves w ts) →
  ts !! i = Some (Confirming id m (Call (ProviderRequest id m trip) next)) →
  task_step (Confirming id m (Call (ProviderRequest id m trip) next)) w Over w0 →
  left_requesting id w0 (<[i := Over]> ts).
Proof.
  intros Hst Hi Hstep. destruct (pond_reached _ Hst) as [Hw [os Hp]].
  destruct (tasks_run w ts os i _ _ w0 Hw Hp Hi Hstep) as (o & o' & Ho & Hw0 & He & _ & Hp0).
  assert (stage w (Confirming id m (Call (ProviderRequest id m trip) next)) o) as Hstage.
  { destruct (Forall2_lookup_l _ _ _ _ _ (proj1 Hp) Hi) as (u & Hu & ?). by simplify_eq. }
  destruct (asking_stage w id m trip next o Hstage) as (-> & Hs & Hr & Hna).
  split; [done|]. split; [by apply (ef_shown _ _ _ _ He)|]. split.
  { unfold requesting. by rewrite (asking_rides _ _ _ _ _ _ _ Hstep). }
  assert (∀ j u, i ≠ j → os !! j = Some u → u ≠ Some id) as Hother.
  { intros j u Hne Hj ->. by destruct Hne, (proj2 Hp i j id). }
  split.
  - intros j t Hj. destruct (decide (i = j)) as [<-|Hne].
    { rewrite list_lookup_insert_eq in Hj by eauto using lookup_lt_Some. by injection Hj as <-. }
    rewrite list_lookup_insert_ne in Hj by done. destruct (Forall2_lookup_l _ _ _ _ _ (proj1 Hp) Hj) as (u & Hu & Hsu).
    destruct t as [q|i' m' q|q|]; try done. intros ->. inversion Hsu as [|i1 m1 o1 q1 Hq| |]; subst.
    inversion Hq; subst; [by left; eexists|by right; eexists|by destruct (Hother j _ Hne Hu)|done].
  - exists (<[i := o']> os). split; [done|]. intros j Hj. destruct (decide (i = j)) as [<-|Hne].
    + rewrite list_lookup_insert_eq in Hj by eauto using lookup_lt_Some. injection Hj as ->.
      assert (stage w0 Over (Some id)) as Hover; [|by inversion Hover].
      apply (Forall2_lookup_lr _ _ _ i _ _ (proj1 Hp0)); apply list_lookup_insert_eq; eauto using lookup_lt_Some.
    + rewrite list_lookup_insert_ne in Hj by done. by apply (Hother j (Some id)).
Qed.

(** What a ride being requested is to the rest of the booking. *)
Lemma requesting_stranded w id :
  world_ok w → requesting w id →
  ∃ e, bw_rides w !! id = Some e ∧ entry_state e = Requesting ∧
    sr_ride e ∉ to_follow (bw_rides w) ∧ news id (bw_rides w) = None ∧ sr_reading e = On.
Proof.
  intros Hw (e & He & Hr). assert (sr_reading e = On) as Hon.
  { apply (sound_on w id e Hw He). rewrite Hr. by intros []. }
  exists e. split; [done|]. split; [done|]. split.
  - unfold to_follow. intros (e' & Heq & [Hin Hf]%elem_of_filter_bool)%list_elem_of_fmap.
    apply list_elem_of_fmap in Hin as ([i' u] & -> & Hin%elem_of_map_to_list). simpl in Heq, Hf.
    rewrite Heq in Hr. assert (sr_reading u = On) as Hu by (apply (sound_on w i' u Hw Hin); rewrite Hr; by intros []).
    unfold to_be_followed in Hf. by rewrite Hu, Hr in Hf.
  - split; [|done]. unfold news. by rewrite He, Hon, Hr.
Qed.

(** A confirmation dropped while the provider answers it (the phone closed its connection)
    leaves the ride as it claimed it, whether or not the request was made: for as long as the
    pond runs it is being requested, nothing of it is followed, there is no news of it to tell
    its member, it is not over (so it is not pruned), and it can be neither confirmed nor
    declined nor cancelled. Only a restart, which takes it back as one whose outcome is not
    known, has the tracker look for its trip. *)
Theorem dropped_confirmation_strands_ride w ts i id profile_id trip next w0 w' ts' :
  star pond_step new_pond (Serves w ts) →
  ts !! i = Some (Confirming id profile_id (Call (ProviderRequest id profile_id trip) next)) →
  task_step (Confirming id profile_id (Call (ProviderRequest id profile_id trip) next)) w Over w0 →
  star serving_step (w0, <[i := Over]> ts) (w', ts') →
  ∃ e, bw_rides w' !! id = Some e ∧ entry_state e = Requesting ∧
    sr_ride e ∉ to_follow (bw_rides w') ∧ news id (bw_rides w') = None ∧
    ∀ now, is_over e now = false ∧
      (∃ err, claim_quote id profile_id now (bw_rides w') = (Err err, bw_rides w')) ∧
      (∃ err, decline_section id profile_id (bw_rides w') = (Err err, bw_rides w')) ∧
      (∃ err, requested_id id profile_id (bw_rides w') = Err err).
Proof.
  intros Hst Hi Hstep Hrun. pose proof (dropped_left w ts i id profile_id trip next w0 Hst Hi Hstep) as Hleft.
  apply (star_invariant serving_step (λ s, left_requesting id s.1 s.2)) in Hrun as (Hw & _ & Hr & _);
    [|intros [] []; apply left_step|done].
  destruct (requesting_stranded w' id Hw Hr) as (e & He & Hreq & Hf & Hn & Hon). exists e.
  do 4 (split; [done|]). intros now. unfold is_over. rewrite Hon, Hreq. split; [done|].
  unfold claim_quote, decline_section, requested_id, owned. simpl in *. rewrite He.
  destruct (decide _); rewrite ?Hreq; eauto 6.
Qed.
End pond.

(** ** Witnesses: Ann's fare, and her yes *)

Definition ann : text := lit "ann".
Definition fare_a : text := lit "a".
Definition at_home : Place := {| pl_name := lit "Home"; pl_latitude := 0; pl_longitude := 0 |}.
Definition at_work : Place := {| pl_name := lit "Work"; pl_latitude := 0; pl_longitude := 0 |}.
Definition to_work : QuotedTrip :=
  {| qt_pickup := at_home; qt_dropoff := at_work;
     qt_quote := {| fq_fare_id := lit "f"; fq_display := lit "12"; fq_currency_code := lit "EUR";
                    fq_expires_at := 100%Z; fq_pickup_eta_mins := None; fq_product_id := None |} |}.

(** A pond of Ann's, with a store. *)
Definition v5_name (name : text) : text := lit "v5:" ++ name.
Definition no_distance (_ _ : f64 * f64) : f64 := 0.
Definition never_far (_ : f64) : bool := false.
Notation ann_step := (pond_step true (lit "uber") v5_name no_distance never_far).

Lemma ann_quoting i w ts R (c : RideCall R) k r w' p :
  ts !! i = Some (Quoting (Call c k)) → ride_call v5_name R c w r w' →
  star ann_step (Serves w' (<[i := Quoting (k r)]> ts)) p → star ann_step (Serves w ts) p.
Proof. intros Hi Hc. apply star_step. by eapply ps_run; [|eapply ts_quoting]. Qed.

Lemma ann_confirming i w ts id m R (c : RideCall R) k r w' p :
  ts !! i = Some (Confirming id m (Call c k)) → ride_call v5_name R c w r w' →
  star ann_step (Serves w' (<[i := Confirming id m (k r)]> ts)) p → star ann_step (Serves w ts) p.
Proof. intros Hi Hc. apply star_step. by eapply ps_run; [|eapply ts_confirming]. Qed.

Lemma ann_asks : ∃ w ts next,
  star ann_step new_pond (Serves w ts) ∧
  ts !! 1%nat = Some (Confirming fare_a ann (Call (ProviderRequest fare_a ann to_work) next)) ∧
  bw_requests w = [].
Proof.
  do 3 eexists. split.
  - eapply star_step; [apply ps_start, (st_quote _ _ _ _ _ _ ann at_home at_work 0%Z)|].
    eapply (ann_quoting 0); [reflexivity|apply (rc_quote _ _ _ _ (Ok (qt_quote to_work)))|].
    eapply (ann_quoting 0); [reflexivity|apply (rc_uuid _ fare_a); [set_solver|reflexivity|discriminate]|].
    eapply (ann_quoting 0); [reflexivity|apply rc_locked|].
    eapply (ann_quoting 0); [reflexivity|apply rc_locked|].
    eapply (ann_quoting 0); [reflexivity|apply (rc_saved _ _ (Ok tt))|].
    eapply star_step; [eapply (ps_run _ _ _ _ _ 0); [reflexivity|apply ts_quoted]|].
    eapply star_step; [apply ps_start, (st_confirm _ _ _ _ _ _ fare_a ann 1%Z); set_solver|].
    eapply (ann_confirming 1); [reflexivity|apply rc_locked|].
    eapply (ann_confirming 1); [reflexivity|apply rc_locked|].
    eapply (ann_confirming 1); [reflexivity|apply (rc_saved _ _ (Ok tt))|].
    apply star_refl.
  - split; reflexivity.
Qed.

Lemma requested_at_most_once_witness : ∃ p,
  star ann_step new_pond p ∧ bw_requests (world_of p) = [(fare_a, ann, to_work)] ∧
  NoDup ((λ r, r.1.1) <$> bw_requests (world_of p)) ∧
  bw_terms (world_of p) !! fare_a = Some (ann, Some to_work).
Proof.
  destruct ann_asks as (w & ts & next & Hs & Hi & Hn).
  eexists (Serves (requested fare_a ann to_work w) _).
  assert (star ann_step new_pond (Serves (requested fare_a ann to_work w)
            (<[1%nat := Confirming fare_a ann (next (Err (Uncertain [])))]> ts))) as Hrun.
  { apply (star_trans _ _ _ _ Hs). eapply (ann_confirming 1); [exact Hi|apply rc_request|apply star_refl]. }
  destruct (requested_at_most_once _ _ _ _ _ _ Hrun) as [Honce Hterms].
  split; [exact Hrun|]. simpl in *. rewrite Hn in *. split; [reflexivity|]. split; [exact Honce|].
  apply (Hterms fare_a ann to_work). left.
Defined.

Lemma dropped_confirmation_strands_ride_witness : ∃ w e,
  bw_rides w !! fare_a = Some e ∧ entry_state e = Requesting ∧ sr_ride e ∉ to_follow (bw_rides w) ∧
  is_over e 1000 = false.
Proof.
  destruct ann_asks as (w & ts & next & Hs & Hi & Hn).
  destruct (dropped_confirmation_strands_ride true (lit "uber") v5_name no_distance never_far
              w ts 1 fare_a ann to_work next (requested fare_a ann to_work w)
              (requested fare_a ann to_work w) (<[1%nat := Over]> ts ++ [served (track_once true)]) Hs Hi)
    as (e & He & Hr & Hf & _ & Hnow).
  - eapply ts_lost; [reflexivity|]. eapply ts_confirming. apply (rc_request _ _ _ _ (Err (Uncertain []))).
  - eapply star_step; [|apply star_refl]. apply ps_start, st_track.
  - exists (requested fare_a ann to_work w), e. split; [exact He|]. split; [exact Hr|]. split; [exact Hf|].
    apply (Hnow 1000%Z).
Defined.
