(* ===== verification/Setup.v ===== *)
(** * Setup: the printed setup code, the claim it makes, and how fast it may be guessed

    [crates/pond-core/src/network/]: [domain/setup_code.rs], [domain/setup_record.rs],
    [domain/claim.rs], [services/setup_guess_throttle.rs] and [services/setup_claim.rs], whose
    methods are programs over the store under the service's mutex ([Guarded]); of the store,
    [pond-infra/src/file_setup_code_store.rs], what its methods do to the record. A [u8] digit is
    an [N]; an [Instant] and a [DateTime] are nanoseconds ([Z]), a [Duration] nanoseconds ([N]). *)
From S2P Require Import Prelude Prog Guarded Text.
Local Open Scope N_scope.

(** ** [setup_code.rs] *)

Definition SETUP_CODE_RANDOM_DIGITS : nat := 10.
Definition SETUP_CODE_LEN : nat := 11.

Inductive SetupCodeError : Type :=
| WrongLength (found : nat)
| NotDigits
| CheckDigitMismatch
| DigitOutOfRange.

(** The digits as text. *)
Notation SetupCode := text (only parsing).

(** What a digit counts for, [position] from the right of the payload. *)
Definition luhn_weight (position : nat) (digit : N) : N :=
  if Nat.even position then let doubled := digit * 2 in if 9 <? doubled then doubled - 9 else doubled
  else digit.

Definition luhn_sum (payload : list N) : N :=
  foldl N.add 0 (imap luhn_weight (rev payload)).

Definition luhn_check_digit (payload : list N) : N := (10 - luhn_sum payload mod 10) mod 10.

Definition digit_char (digit : N) : N := 48 + digit.

(** [random] has [SETUP_CODE_RANDOM_DIGITS] digits. *)
Definition setup_code_from_digits (random : list N) : result SetupCode SetupCodeError :=
  if existsb (λ digit, 9 <? digit) random then Err DigitOutOfRange
  else Ok (digit_char <$> (random ++ [luhn_check_digit random])).

(** The loop over the characters: the slots, and how many digits were found. *)
Fixpoint setup_digits (input : text) (digits : list N) (found : nat) : result (list N * nat) SetupCodeError :=
  match input with
  | [] => Ok (digits, found)
  | c :: input =>
      if (c =? 45) || (c =? 32) then setup_digits input digits found
      else if negb (is_ascii_digit c) then Err NotDigits
      else setup_digits input (<[found := c - 48]> digits) (S found)
  end.

Definition parse_setup_code (input : text) : result SetupCode SetupCodeError :=
  match setup_digits input (replicate SETUP_CODE_LEN 0) 0 with
  | Err e => Err e
  | Ok (digits, found) =>
      if negb (Nat.eqb found SETUP_CODE_LEN) then Err (WrongLength found) else
      let random := take SETUP_CODE_RANDOM_DIGITS digits in
      let check := drop SETUP_CODE_RANDOM_DIGITS digits in
      if negb (bool_decide (check = [luhn_check_digit random])) then Err CheckDigitMismatch
      else Ok (digit_char <$> digits)
  end.

(** [4-3-4]. *)
Definition display_setup_code (d : SetupCode) : text :=
  take 4 d ++ lit "-" ++ take 3 (drop 4 d) ++ lit "-" ++ drop 7 d.

(** ** [claim.rs], [setup_record.rs] *)

Definition SECOND : N := 1000000000.

Definition as_secs_ceil (retry_after : N) : N :=
  retry_after / SECOND + (if 0 <? retry_after mod SECOND then 1 else 0).

Inductive ClaimRefusal : Type := SetupCodeUnavailable | SetupCodeCooling (retry_after : N).

Inductive ClaimState : Type := Unclaimed | Claimed (at_ : Z).

Definition is_claimed (s : ClaimState) : bool := match s with Claimed _ => true | Unclaimed => false end.

Record SetupRecord := {
  sr_version : N;
  sr_code : SetupCode;
  sr_discriminator : N;
  sr_created_at : Z;
  sr_claimed_at : option Z;
  sr_claimed_by : option text;
}.

Definition SETUP_RECORD_VERSION : N := 1.

Definition new_setup_record (code : SetupCode) (discriminator : N) (created_at : Z) : SetupRecord :=
  {| sr_version := SETUP_RECORD_VERSION; sr_code := code; sr_discriminator := discriminator;
     sr_created_at := created_at; sr_claimed_at := None; sr_claimed_by := None |}.

Definition record_claim_state (r : SetupRecord) : ClaimState :=
  match sr_claimed_at r with Some at_ => Claimed at_ | None => Unclaimed end.

Record SetupStatus := { ss_discriminator : N; ss_claim : ClaimState; ss_claimed_by : option text }.

Definition record_status (r : SetupRecord) : SetupStatus :=
  {| ss_discriminator := sr_discriminator r; ss_claim := record_claim_state r; ss_claimed_by := sr_claimed_by r |}.

Definition status_claimed_by (s : SetupStatus) (device : option text) : bool :=
  is_claimed (ss_claim s) &&
  match device with Some d => negb (is_empty d) | None => false end &&
  bool_decide (ss_claimed_by s = device).

(** ** [setup_guess_throttle.rs] *)

Definition FREE_SETUP_FAILURES : N := 5.
Definition FIRST_SETUP_DELAY : N := 30 * SECOND.
Definition MAX_SETUP_DELAY : N := 10 * 60 * SECOND.
Definition DURATION_MAX : N := u64_max * SECOND + 999999999.

Record SetupGuessThrottle := { st_failures : N; st_wait_until : option Z }.

Definition throttle_new : SetupGuessThrottle := {| st_failures := 0; st_wait_until := None |}.

Definition throttle_check (t : SetupGuessThrottle) (now : Z) : result unit N :=
  match st_wait_until t with
  | Some until => if (now <? until)%Z then Err (Z.to_N (until - now)) else Ok tt
  | None => Ok tt
  end.

Definition delay_after (failures : N) : option N :=
  if failures <? FREE_SETUP_FAILURES then None else
  let doublings := failures - FREE_SETUP_FAILURES in
  let factor := N.shiftl 1 (N.min doublings 16) in
  Some (N.min (N.min DURATION_MAX (FIRST_SETUP_DELAY * factor)) MAX_SETUP_DELAY).

Definition record_failure (t : SetupGuessThrottle) (now : Z) : SetupGuessThrottle :=
  let failures := u32_sat_add (st_failures t) 1 in
  {| st_failures := failures;
     st_wait_until :=
       match delay_after failures with
       | Some delay => Some (now + Z.of_N delay)%Z
       | None => st_wait_until t
       end |}.

Definition record_success (t : SetupGuessThrottle) : SetupGuessThrottle := throttle_new.

Inductive ThrottleCall : Type → Type :=
| ThrottleCheck (now : Z) : ThrottleCall (result unit N)
| RecordFailure (now : Z) : ThrottleCall unit
| RecordSuccess : ThrottleCall unit.

(** A throttle, and the guesses charged to it since it was last cleared. *)
Record Charged := { ch_throttle : SetupGuessThrottle; ch_guesses : list Z }.

Definition uncharged : Charged := {| ch_throttle := throttle_new; ch_guesses := [] |}.

Definition throttle_call {A} (c : ThrottleCall A) (t : Charged) : A * Charged :=
  match c in ThrottleCall A return A * Charged with
  | ThrottleCheck now => (throttle_check (ch_throttle t) now, t)
  | RecordFailure now =>
      (tt, {| ch_throttle := record_failure (ch_throttle t) now; ch_guesses := ch_guesses t ++ [now] |})
  | RecordSuccess => (tt, {| ch_throttle := record_success (ch_throttle t); ch_guesses := [] |})
  end.

(** ** [setup_claim.rs] *)

Inductive ClaimCall : Type → Type :=
| Throttle {A} (c : ThrottleCall A) : ClaimCall A
| StoreLoad : ClaimCall (result (option SetupRecord) text)
| MarkClaimed (at_ : Z) (by_ : option text) : ClaimCall (result SetupRecord text)
(** [claimed.notify_one()] *)
| NotifyClaimed : ClaimCall unit
(** For the statements: a device is told the pond is its own. *)
| Told (at_ : Z) (device : text) (r : SetupRecord) : ClaimCall unit.

Notation Service := (Prog (Guarded ClaimCall)) (only parsing).

Definition admit_setup_attempt (now : Z) : Service (result SetupCode ClaimRefusal) :=
  do! Take in
  let! loaded := Do StoreLoad in
  match loaded with
  | Ok (Some record) =>
      if is_claimed (record_claim_state record) then leave (Err SetupCodeUnavailable) else
      let! open := Do (Throttle (ThrottleCheck now)) in
      match open with
      | Err retry_after => leave (Err (SetupCodeCooling retry_after))
      | Ok _ =>
          do! Do (Throttle (RecordFailure now)) in
          leave (Ok (sr_code record))
      end
  | Ok None | Err _ => leave (Err SetupCodeUnavailable)
  end.

(** [None] is the store's error. *)
Definition record_claim (at_ : Z) (device : text) : Service (result SetupRecord (option ClaimRefusal)) :=
  do! Take in
  let! loaded := Do StoreLoad in
  match loaded with
  | Err _ => leave (Err None)
  | Ok (Some record) =>
      if is_claimed (record_claim_state record) then leave (Err (Some SetupCodeUnavailable)) else
      let! marked := Do (MarkClaimed at_ (Some device)) in
      match marked with
      | Err _ => leave (Err None)
      | Ok record =>
          do! Do (Throttle RecordSuccess) in
          do! Do NotifyClaimed in
          leave (Ok record)
      end
  | Ok None => leave (Err (Some SetupCodeUnavailable))
  end.

Definition latch_claim (at_ : Z) (device : text) : Service (result bool text) :=
  do! Take in
  let! loaded := Do StoreLoad in
  match loaded with
  | Err e => leave (Err e)
  | Ok (Some record) =>
      if is_claimed (record_claim_state record) then leave (Ok false) else
      let! marked := Do (MarkClaimed at_ (Some device)) in
      match marked with
      | Err e => leave (Err e)
      | Ok _ => do! Do NotifyClaimed in leave (Ok true)
      end
  | Ok None => leave (Ok false)
  end.

Definition claim_state : Service (result ClaimState text) :=
  let! loaded := Do StoreLoad in
  Ret match loaded with
      | Err e => Err e
      | Ok None => Ok Unclaimed
      | Ok (Some record) => Ok (record_claim_state record)
      end.

Definition setup_status : Service (result (option SetupStatus) text) :=
  let! loaded := Do StoreLoad in
  Ret match loaded with Err e => Err e | Ok record => Ok (record_status <$> record) end.

Definition claimed_by : Service (result (option text) text) :=
  let! loaded := Do StoreLoad in
  Ret match loaded with
      | Err e => Err e
      | Ok None => Ok None
      | Ok (Some record) => Ok (if is_claimed (record_claim_state record) then sr_claimed_by record else None)
      end.

(** ** What the store does to the record ([file_setup_code_store.rs]) *)

Definition mark_claimed (at_ : Z) (by_ : option text) (record : SetupRecord) : SetupRecord :=
  match sr_claimed_at record with
  | Some _ => record
  | None =>
      {| sr_version := sr_version record; sr_code := sr_code record;
         sr_discriminator := sr_discriminator record; sr_created_at := sr_created_at record;
         sr_claimed_at := Some at_; sr_claimed_by := by_ |}
  end.

Definition rearm (record : SetupRecord) : SetupRecord :=
  match sr_claimed_at record, sr_claimed_by record with
  | None, None => record
  | _, _ =>
      {| sr_version := sr_version record; sr_code := sr_code record;
         sr_discriminator := sr_discriminator record; sr_created_at := sr_created_at record;
         sr_claimed_at := None; sr_claimed_by := None |}
  end.

(** The file, and who was told the pond is theirs. *)
Record ClaimStore := {
  cs_record : option SetupRecord;
  cs_told : list (Z * text * SetupRecord);
}.

Definition with_record (r : SetupRecord) (e : ClaimStore) : ClaimStore :=
  {| cs_record := Some r; cs_told := cs_told e |}.

Inductive claim_call : ∀ R, ClaimCall R → Charged → ClaimStore → R → Charged → ClaimStore → Prop :=
| cc_throttle A (c : ThrottleCall A) l e :
    claim_call A (Throttle c) l e (throttle_call c l).1 (throttle_call c l).2 e
| cc_loaded l e : claim_call _ StoreLoad l e (Ok (cs_record e)) l e
| cc_not_loaded err l e : claim_call _ StoreLoad l e (Err err) l e
| cc_marked at_ by_ r l e :
    cs_record e = Some r →
    claim_call _ (MarkClaimed at_ by_) l e (Ok (mark_claimed at_ by_ r)) l (with_record (mark_claimed at_ by_ r) e)
| cc_not_marked at_ by_ err l e : claim_call _ (MarkClaimed at_ by_) l e (Err err) l e
| cc_notified l e : claim_call _ NotifyClaimed l e tt l e
| cc_told_by at_ device r l e :
    claim_call _ (Told at_ device r) l e tt l
      {| cs_record := cs_record e; cs_told := cs_told e ++ [(at_, device, r)] |}.

Definition claim_awaited {R} (c : ClaimCall R) : bool :=
  match c with StoreLoad | MarkClaimed _ _ => true | _ => false end.

Definition served {A} (p : Service A) : Service unit := prog_bind p (λ _, Ret tt).

(** A pairing with the printed code: the device is told once its claim is recorded. *)
Definition claims (at_ : Z) (device : text) : Service unit :=
  prog_bind (record_claim at_ device) (λ r,
  match r with Ok record => do! Do (Told at_ device record) in Ret tt | Err _ => Ret tt end).

Inductive claim_starts : Service unit → Prop :=
| cl_admit now : claim_starts (served (admit_setup_attempt now))
| cl_claim at_ device : claim_starts (claims at_ device)
| cl_latch at_ device : claim_starts (served (latch_claim at_ device))
| cl_state : claim_starts (served claim_state)
| cl_status : claim_starts (served setup_status)
| cl_claimed_by : claim_starts (served claimed_by).

(** The command line, from another process: a code made where there was none, a card re-armed. *)
Inductive claim_outside : ClaimStore → ClaimStore → Prop :=
| co_created code discriminator at_ e :
    cs_record e = None → claim_outside e (with_record (new_setup_record code discriminator at_) e)
| co_rearmed r e : cs_record e = Some r → claim_outside e (with_record (rearm r) e).

Notation claim_step := (turn_step claim_call (@claim_awaited) claim_starts claim_outside).

Definition pond_with_card (e : ClaimStore) : Turns (C := ClaimCall) (L := Charged) (E := ClaimStore) :=
  {| tn_held := None; tn_state := uncharged; tn_store := e; tn_tasks := [] |}.

(** ** Guesses are spaced *)

(** Each guess after the free ones waits out the delay the one before it left. *)
Definition spaced (ts : list Z) : Prop :=
  ∀ k t t' delay, ts !! k = Some t → ts !! S k = Some t' →
    delay_after (N.of_nat (S k)) = Some delay → (t + Z.of_N delay ≤ t')%Z.

Definition charged_ok (c : Charged) : Prop :=
  spaced (ch_guesses c) ∧
  st_failures (ch_throttle c) = N.min u32_max (N.of_nat (length (ch_guesses c))) ∧
  st_wait_until (ch_throttle c) =
    match last (ch_guesses c), delay_after (st_failures (ch_throttle c)) with
    | Some t, Some delay => Some (t + Z.of_N delay)%Z
    | _, _ => None
    end.

Lemma delay_after_capped n : delay_after (N.min u32_max n) = delay_after n.
Proof.
  unfold delay_after, FREE_SETUP_FAILURES.
  destruct (N.min_spec u32_max n) as [[Hlt ->]|[_ ->]]; [|done]. unfold u32_max in *.
  rewrite (proj2 (N.ltb_ge _ 5)) by lia. rewrite (proj2 (N.ltb_ge n 5)) by lia.
  do 4 f_equal. rewrite !N.min_r by lia. done.
Qed.

Lemma charged_failure c now :
  charged_ok c → throttle_check (ch_throttle c) now = Ok tt → charged_ok (throttle_call (RecordFailure now) c).2.
Proof.
  intros (Hs & Hf & Hw) Hc. unfold charged_ok. simpl. rewrite length_app, last_snoc. simpl.
  assert (u32_sat_add (st_failures (ch_throttle c)) 1 = N.min u32_max (N.of_nat (length (ch_guesses c) + 1))) as Hn.
  { unfold u32_sat_add. rewrite Hf. lia. }
  rewrite Hn. split; [|split; [done|]].
  - intros k t t' delay Hk Hk' Hd. destruct (decide (S k = length (ch_guesses c))) as [Heq|Hne].
    + rewrite lookup_app_r in Hk' by lia. rewrite Heq, Nat.sub_diag in Hk'. injection Hk' as <-.
      rewrite lookup_app_l in Hk by lia.
      assert (last (ch_guesses c) = Some t) as Hl by (rewrite last_lookup, <-Heq; done).
      rewrite Hl, Hf, delay_after_capped, <-Heq, Hd in Hw. unfold throttle_check in Hc. rewrite Hw in Hc.
      destruct (now <? t + Z.of_N delay)%Z eqn:E; [done|]. by apply Z.ltb_ge.
    + assert (S k < length (ch_guesses c))%nat as Hlt.
      { apply lookup_lt_Some in Hk'. rewrite length_app in Hk'. simpl in Hk'. lia. }
      rewrite lookup_app_l in Hk, Hk' by lia. by apply (Hs k).
  - rewrite delay_after_capped. destruct (delay_after (N.of_nat (length (ch_guesses c) + 1))) as [d|] eqn:E; [done|].
    rewrite Hw, Hf, delay_after_capped. destruct (last (ch_guesses c)) as [t|]; [|done].
    destruct (delay_after (N.of_nat (length (ch_guesses c)))) as [d|] eqn:E'; [|done].
    unfold delay_after, FREE_SETUP_FAILURES in E, E'.
    destruct (N.ltb_spec (N.of_nat (length (ch_guesses c) + 1)) 5); [|done].
    destruct (N.ltb_spec (N.of_nat (length (ch_guesses c))) 5); [done|lia].
Qed.

Lemma uncharged_ok : charged_ok uncharged.
Proof. split; [|done]. by intros k t t' d [=]. Qed.

(** ** The discipline of the service *)

(** Whoever is told the pond is theirs holds the claim that says so. *)
Definition told_ok (e : ClaimStore) : Prop :=
  ∀ at_ device r, (at_, device, r) ∈ cs_told e → sr_claimed_at r = Some at_ ∧ sr_claimed_by r = Some device.

Definition claim_inv (l : Charged) (e : ClaimStore) : Prop := charged_ok l ∧ told_ok e.

Definition unclaimed_at (e : ClaimStore) : Prop := ∃ r, cs_record e = Some r ∧ sr_claimed_at r = None.

Definition claim_rely (e e' : ClaimStore) : Prop := (unclaimed_at e → unclaimed_at e') ∧ (told_ok e → told_ok e').

Notation claim_discipline := (discipline claim_call (@claim_awaited) claim_inv claim_inv claim_rely).

Lemma told_same e e' : cs_told e' = cs_told e → told_ok e → told_ok e'.
Proof. unfold told_ok. by intros ->. Qed.

Lemma claim_rely_refl e : claim_rely e e.
Proof. by split. Qed.

Lemma claim_outside_rely e e' : claim_outside e e' → claim_rely e e'.
Proof.
  intros []; split; try apply told_same; try done.
  - intros _. eexists. by split.
  - intros (r' & Hr & Hc). rewrite H in Hr. injection Hr as ->. eexists. split; [done|].
    unfold rearm. rewrite Hc. by destruct (sr_claimed_by r').
Qed.

Lemma claim_inv_kept l e e' : claim_rely e e' → claim_inv l e → claim_inv l e'.
Proof. intros [_ H] [? ?]. split; [done|by apply H]. Qed.

#[export] Hint Resolve claim_rely_refl claim_inv_kept : pond.

(** What a call of the service does. *)
Definition claim_view {R} (c : ClaimCall R) (l : Charged) (e : ClaimStore) (r : R) (l' : Charged) (e' : ClaimStore) : Prop :=
  match c in ClaimCall R return R → Prop with
  | Throttle c => λ r, r = (throttle_call c l).1 ∧ l' = (throttle_call c l).2 ∧ e' = e
  | StoreLoad => λ r, l' = l ∧ e' = e ∧ (r = Ok (cs_record e) ∨ ∃ err, r = Err err)
  | MarkClaimed at_ by_ => λ r, l' = l ∧
      ((∃ m, cs_record e = Some m ∧ r = Ok (mark_claimed at_ by_ m) ∧ e' = with_record (mark_claimed at_ by_ m) e) ∨
       (∃ err, r = Err err) ∧ e' = e)
  | NotifyClaimed => λ _, l' = l ∧ e' = e
  | Told at_ device m => λ _, l' = l ∧
      e' = {| cs_record := cs_record e; cs_told := cs_told e ++ [(at_, device, m)] |}
  end r.

Lemma claim_call_view {R} (c : ClaimCall R) l e r l' e' : claim_call R c l e r l' e' → claim_view c l e r l' e'.
Proof. intros []; simpl; eauto 9. Qed.

Lemma record_cases r : is_claimed (record_claim_state r) = true ∨
  is_claimed (record_claim_state r) = false ∧ sr_claimed_at r = None.
Proof. unfold record_claim_state. destruct (sr_claimed_at r); auto. Qed.

Lemma claim_leaves {A} l (P : ClaimStore → Prop) (a : A) f :
  (∀ e e', claim_rely e e' → P e → P e') → (∀ e, P e → claim_inv l e) →
  claim_discipline None (f a) → claim_discipline (Some (l, P)) (prog_bind (leave a) f).
Proof. intros HP Hl Hf. by apply in_release. Qed.

Lemma claim_does {R} (c : ClaimCall R) l (P : ClaimStore → Prop) k :
  (∀ e e', claim_rely e e' → P e → P e') → (∀ e, P e → claim_inv l e) →
  (∀ e r l' e', P e → claim_view c l e r l' e' →
     (claim_awaited c = true → claim_inv l e') ∧ ∃ P' : ClaimStore → Prop, P' e' ∧ claim_discipline (Some (l', P')) (k r)) →
  claim_discipline (Some (l, P)) (Call (Do c) k).
Proof.
  intros HP Hl Hk. apply in_do; [done..|]. intros e r l' e' He Hc. apply (Hk e); [done|].
  by apply claim_call_view.
Qed.

Definition free_inv (l : Charged) (e : ClaimStore) : Prop := claim_inv l e ∧ unclaimed_at e.

Lemma free_inv_kept l e e' : claim_rely e e' → free_inv l e → free_inv l e'.
Proof. intros [H1 H2] [[? ?] ?]. split; [split; [done|by apply H2]|by apply H1]. Qed.

(** The mutex is taken and the record looked at: a claim, or none, to be told apart. *)
Lemma claim_loads {A} (f : result (option SetupRecord) text → Service A) (g : A → Service unit) :
  (∀ l r, charged_ok l → claim_discipline (Some (l, claim_inv l)) (prog_bind (f r) g) ∨
     ∃ m, r = Ok (Some m) ∧ sr_claimed_at m = None ∧ claim_discipline (Some (l, free_inv l)) (prog_bind (f r) g)) →
  claim_discipline None (prog_bind (do! Take in Call (Do StoreLoad) f) g).
Proof.
  intros H. apply out_take. intros l e Hinv. exists (claim_inv l). split; [done|]. cbn [prog_bind].
  apply claim_does; [eauto with pond|done|]. intros e1 r l' e' He (-> & -> & Hr). split; [done|].
  destruct (H l r (proj1 He)) as [?|(m & -> & Hm & ?)]; [by exists (claim_inv l)|].
  exists (free_inv l). split; [|done]. split; [done|]. exists m. split; [|done]. destruct Hr as [[= ->]|[? [=]]]. done.
Qed.

Lemma admit_disciplined now : claim_discipline None (served (admit_setup_attempt now)).
Proof.
  apply claim_loads. intros l [[m|]|err] Hl; [|left; apply claim_leaves; eauto with pond; done..].
  destruct (record_cases m) as [->|[-> Hm]]; [left; apply claim_leaves; eauto with pond; done|].
  right. exists m. split; [done|]. split; [done|]. cbn [prog_bind].
  apply claim_does; [apply free_inv_kept|by intros e []|]. intros e r l' e' He (-> & -> & ->). split; [done|].
  exists (free_inv l). split; [done|]. simpl. destruct (throttle_check (ch_throttle l) now) as [[]|retry] eqn:Ec.
  - cbn [prog_bind]. apply claim_does; [apply free_inv_kept|by intros ? []|]. intros e1 [] l' e' [[? Ht] Hu] (_ & -> & ->).
    split; [done|]. exists (free_inv (throttle_call (RecordFailure now) l).2). split.
    + split; [|done]. split; [|done]. by apply charged_failure.
    + apply claim_leaves; [apply free_inv_kept|by intros ? []|done].
  - apply claim_leaves; [apply free_inv_kept|by intros ? []|done].
Qed.

(** The claim written, the store answers; [m] is then the device's own. *)
Lemma claim_marks at_ device l k :
  charged_ok l →
  (∀ err, claim_discipline (Some (l, claim_inv l)) (k (Err err))) →
  (∀ m, sr_claimed_at m = Some at_ → sr_claimed_by m = Some device →
     claim_discipline (Some (l, claim_inv l)) (k (Ok m))) →
  claim_discipline (Some (l, free_inv l)) (Call (Do (MarkClaimed at_ (Some device))) k).
Proof.
  intros Hl Herr Hok. apply claim_does; [apply free_inv_kept|by intros ? []|].
  intros e r l' e' [[_ Ht] (u & Hu & Hfree)] (-> & [(m & Hm & -> & ->)|[[err ->] ->]]).
  - split; [by split|]. exists (claim_inv l). split; [by split|]. rewrite Hm in Hu. injection Hu as ->.
    unfold mark_claimed. rewrite Hfree. by apply Hok.
  - split; [by split|]. exists (claim_inv l). split; [by split|]. apply Herr.
Qed.

Lemma claim_notifies l k :
  charged_ok l → claim_discipline (Some (l, claim_inv l)) (k tt) →
  claim_discipline (Some (l, claim_inv l)) (Call (Do NotifyClaimed) k).
Proof.
  intros Hl Hk. apply claim_does; [eauto with pond|done|]. intros e [] l' e' He (-> & ->). split; [done|].
  by exists (claim_inv l).
Qed.

Lemma told_disciplined at_ device m :
  sr_claimed_at m = Some at_ → sr_claimed_by m = Some device →
  claim_discipline None (do! Do (Told at_ device m) in Ret tt).
Proof.
  intros Ha Hd. apply out_do. intros l e r l' e' [-> ->]%claim_call_view. split; [done|]. split; [|done].
  split; [done|]. intros Ht a d m'. simpl. rewrite elem_of_app, list_elem_of_singleton. intros [?|[= -> -> ->]]; [|done].
  by apply Ht.
Qed.

Lemma claims_disciplined at_ device : claim_discipline None (claims at_ device).
Proof.
  apply claim_loads. intros l [[m|]|err] Hl; [|left; apply claim_leaves; eauto with pond; done..].
  destruct (record_cases m) as [->|[-> Hm]]; [left; apply claim_leaves; eauto with pond; done|].
  right. exists m. split; [done|]. split; [done|]. cbn [prog_bind].
  apply claim_marks; [done|intros e; apply claim_leaves; eauto with pond; done|].
  intros m' Ha Hd. cbn [prog_bind]. apply claim_does; [eauto with pond|done|].
  intros e1 r l' e' [_ Ht] (_ & -> & ->). split; [done|]. exists (claim_inv uncharged).
  split; [split; [apply uncharged_ok|done]|]. cbn [prog_bind throttle_call snd].
  apply claim_notifies; [apply uncharged_ok|].
  apply claim_leaves; [eauto with pond|done|]. by apply told_disciplined.
Qed.

Lemma latch_disciplined at_ device : claim_discipline None (served (latch_claim at_ device)).
Proof.
  apply claim_loads. intros l [[m|]|err] Hl; [|left; apply claim_leaves; eauto with pond; done..].
  destruct (record_cases m) as [->|[-> Hm]]; [left; apply claim_leaves; eauto with pond; done|].
  right. exists m. split; [done|]. split; [done|]. cbn [prog_bind].
  apply claim_marks; [done|intros e; apply claim_leaves; eauto with pond; done|].
  intros m' _ _. cbn [prog_bind]. apply claim_notifies; [done|]. apply claim_leaves; [eauto with pond|done|done].
Qed.

Lemma claim_reads {A} (g : result (option SetupRecord) text → A) :
  claim_discipline None (served (let! loaded := Do StoreLoad in Ret (g loaded))).
Proof. apply out_do. intros l e r l' e' (-> & -> & _)%claim_call_view. by split; [|split]. Qed.

Lemma claim_starts_disciplined p : claim_starts p → claim_discipline None p.
Proof.
  intros []; [apply admit_disciplined|apply claims_disciplined|apply latch_disciplined|apply claim_reads..].
Qed.

Lemma claim_always e s :
  cs_told e = [] → star claim_step (pond_with_card e) s → claim_inv (tn_state s) (tn_store s).
Proof.
  intros He. apply (turns_always _ _ _ _ claim_inv claim_inv claim_rely).
  - apply claim_inv_kept.
  - done.
  - apply claim_outside_rely.
  - apply claim_starts_disciplined.
  - split; [apply uncharged_ok|]. unfold told_ok. rewrite He. by intros ? ? ? ?%not_elem_of_nil.
Qed.

(** ** Guesses of the setup code are charged, and spaced *)

Lemma spaced_sum ts m a b :
  spaced ts → ts !! 4%nat = Some a → ts !! (9 + m)%nat = Some b →
  (a + Z.of_N ((930 + 600 * N.of_nat m) * SECOND) ≤ b)%Z.
Proof.
  intros Hs Ha. revert b.
  assert (∀ k d t', delay_after (N.of_nat (S k)) = Some d → ts !! S k = Some t' →
            ∃ t, ts !! k = Some t ∧ (t + Z.of_N d ≤ t')%Z) as Hstep.
  { intros k d t' Hd Ht'. destruct (lookup_lt_is_Some_2 ts k) as [t Ht]; [apply lookup_lt_Some in Ht'; lia|].
    exists t. split; [done|]. by apply (Hs k). }
  induction m as [|m IH]; intros b Hb.
  - destruct (Hstep 8%nat (480 * SECOND) b) as (t8 & H8 & ?); [done..|].
    destruct (Hstep 7%nat (240 * SECOND) t8) as (t7 & H7 & ?); [done..|].
    destruct (Hstep 6%nat (120 * SECOND) t7) as (t6 & H6 & ?); [done..|].
    destruct (Hstep 5%nat (60 * SECOND) t6) as (t5 & H5 & ?); [done..|].
    destruct (Hstep 4%nat (30 * SECOND) t5) as (t4 & H4 & ?); [done..|].
    rewrite Ha in H4. injection H4 as <-. unfold SECOND in *. lia.
  - rewrite Nat.add_succ_r in Hb. destruct (Hstep (9 + m)%nat MAX_SETUP_DELAY b) as (t & Ht & Hle); [|done|].
    + unfold delay_after, FREE_SETUP_FAILURES. rewrite (proj2 (N.ltb_ge _ 5)) by lia. f_equal.
      assert (5 ≤ N.min (N.of_nat (S (9 + m)) - 5) 16 ≤ 16) as [Hlo Hhi] by lia.
      generalize dependent (N.min (N.of_nat (S (9 + m)) - 5) 16). intros d Hlo Hhi. rewrite N.shiftl_1_l.
      assert (2 ^ 5 ≤ 2 ^ d ≤ 2 ^ 16) as [? ?] by (split; apply N.pow_le_mono_r; lia).
      unfold FIRST_SETUP_DELAY, MAX_SETUP_DELAY, DURATION_MAX, SECOND, u64_max in *. lia.
    + specialize (IH t Ht). unfold MAX_SETUP_DELAY, SECOND in *. lia.
Qed.

(** C38: A setup code leaves the service only for an attempt made while the stored record was
    unclaimed, which the throttle let through and which was charged as a failure first; and
    whatever tasks run beside each other or are dropped, from the sixth on each charged attempt
    waits out the delay the one before it left: between the fifth and the [10 + m]-th there are
    at least [930 + 600 m] seconds, until a claim clears the count. *)
Theorem setup_attempts_charged_and_spaced :
  (∀ now calls code, path (admit_setup_attempt now) calls (Ok code) →
     ∃ m, called (Do StoreLoad) (Ok (Some m)) calls ∧ sr_claimed_at m = None ∧ sr_code m = code ∧
       called (Do (Throttle (ThrottleCheck now))) (Ok tt) calls ∧
       called (Do (Throttle (RecordFailure now))) tt calls) ∧
  ∀ e s m a b, cs_told e = [] → star claim_step (pond_with_card e) s →
    ch_guesses (tn_state s) !! 4%nat = Some a → ch_guesses (tn_state s) !! (9 + m)%nat = Some b →
    (a + Z.of_N ((930 + 600 * N.of_nat m) * SECOND) ≤ b)%Z.
Proof.
  split; [|by intros e s m a b He Hs; apply spaced_sum, (claim_always e s)].
  intros now calls code ([] & l0 & -> & (loaded & l1 & -> & Hp)%path_inv)%path_inv. revert Hp.
  destruct loaded as [[m|]|err]; [|by intros ([] & ? & -> & [_ [=]]%path_inv)%path_inv..].
  destruct (record_cases m) as [->|[-> Hm]]; [by intros ([] & ? & -> & [_ [=]]%path_inv)%path_inv|].
  intros ([[]|retry] & ? & -> & Hp)%path_inv; [|by apply path_inv in Hp as ([] & ? & -> & [_ [=]]%path_inv)].
  apply path_inv in Hp as ([] & ? & -> & ([] & ? & -> & [-> [= ->]]%path_inv)%path_inv).
  exists m. unfold called. set_solver.
Qed.

(** C39: Whoever is told they claimed the pond did: the record they are answered with carries
    their own device and time, never those of a claim that came first, whatever pairings run
    beside each other and whenever another process re-arms the card. *)
Theorem claim_is_told_to_its_device e s at_ device r :
  cs_told e = [] → star claim_step (pond_with_card e) s → (at_, device, r) ∈ cs_told (tn_store s) →
  sr_claimed_at r = Some at_ ∧ sr_claimed_by r = Some device.
Proof. intros He Hs. by apply (claim_always e s). Qed.

(** ** The check digit *)

(** The weighted sum of a code, its check digit included. *)
Fixpoint luhn_total (digits : list N) : N :=
  match digits with [] => 0 | d :: l => luhn_weight (S (length l)) d + luhn_total l end.

Lemma foldl_add l a : foldl N.add a l = a + foldl N.add 0 l.
Proof.
  revert a. induction l as [|x l IH]; intros a; cbn [foldl]; [lia|]. rewrite (IH (a + x)), (IH (0 + x)). lia.
Qed.

Lemma luhn_total_check random c : luhn_total (random ++ [c]) = luhn_sum random + c.
Proof.
  unfold luhn_sum. induction random as [|d l IH]; simpl; [unfold luhn_weight; simpl; lia|].
  rewrite IH, length_app, imap_app, foldl_app, length_rev. simpl.
  rewrite Nat.add_1_r, Nat.add_0_r. unfold luhn_weight. cbn [Nat.even]. lia.
Qed.

Lemma check_digit_valid random c :
  c ≤ 9 → (c = luhn_check_digit random ↔ luhn_total (random ++ [c]) mod 10 = 0).
Proof.
  intros Hc. rewrite luhn_total_check. unfold luhn_check_digit. generalize (luhn_sum random). intros s.
  pose proof (N.mod_lt s 10 ltac:(lia)). rewrite N.Div0.add_mod, (N.mod_small c) by lia.
  generalize dependent (s mod 10). intros r Hr.
  destruct (decide (r = 0)) as [->|].
  - change ((10 - 0) mod 10) with 0. rewrite N.mod_small by lia. lia.
  - rewrite (N.mod_small (10 - r)) by lia. destruct (decide (r + c < 10)) as [|Hge].
    + rewrite N.mod_small by lia. lia.
    + replace (r + c) with ((r + c - 10) + 1 * 10) by lia. rewrite N.Div0.mod_add, N.mod_small by lia. lia.
Qed.

Lemma luhn_total_insert l i x y :
  l !! i = Some x →
  luhn_total (<[i := y]> l) + luhn_weight (length l - i) x = luhn_total l + luhn_weight (length l - i) y.
Proof.
  revert i. induction l as [|d l IH]; intros [|i] H; simplify_eq/=; [lia|].
  rewrite length_insert. specialize (IH i H). lia.
Qed.

Lemma luhn_weight_bound p d : d ≤ 9 → luhn_weight p d ≤ 9.
Proof. intros Hd. unfold luhn_weight. destruct (Nat.even p); [|done]. destruct (N.ltb_spec 9 (d * 2)); lia. Qed.

Lemma luhn_weight_inj p d d' : d ≤ 9 → d' ≤ 9 → luhn_weight p d = luhn_weight p d' → d = d'.
Proof.
  intros Hd Hd'. unfold luhn_weight. destruct (Nat.even p); [|done].
  destruct (N.ltb_spec 9 (d * 2)), (N.ltb_spec 9 (d' * 2)); lia.
Qed.

Lemma mod10_cancel s t x y : s + x = t + y → x ≤ 9 → y ≤ 9 → s mod 10 = 0 → t mod 10 = 0 → x = y.
Proof.
  intros Heq Hx Hy Hs Ht. apply N.Div0.mod_divides in Hs as [a ->], Ht as [b ->]. lia.
Qed.

(** A code is digits whose weighted sum is a multiple of ten. *)
Definition good_digits (digits : list N) : Prop :=
  length digits = SETUP_CODE_LEN ∧ Forall (λ d, d ≤ 9) digits.

Lemma setup_digits_app a b digits found :
  setup_digits (a ++ b) digits found =
  match setup_digits a digits found with Ok (digits, found) => setup_digits b digits found | Err e => Err e end.
Proof.
  revert digits found. induction a as [|c a IH]; intros digits found; simpl; [done|].
  destruct (_ || _); [done|]. by destruct (negb _).
Qed.

Lemma setup_digits_chars ds digits found :
  Forall (λ d, d ≤ 9) ds → (found + length ds ≤ length digits)%nat →
  setup_digits (digit_char <$> ds) digits found =
    Ok (take found digits ++ ds ++ drop (found + length ds) digits, (found + length ds)%nat).
Proof.
  intros Hds. revert digits found. induction Hds as [|d ds Hd _ IH]; intros digits found Hlen; simpl in *.
  - rewrite Nat.add_0_r. by rewrite take_drop.
  - rewrite (proj2 (N.eqb_neq _ 45)), (proj2 (N.eqb_neq _ 32)) by (unfold digit_char; lia). simpl.
    replace (is_ascii_digit (digit_char d)) with true; simpl.
    2: { unfold is_ascii_digit, digit_char. symmetry. apply andb_true_intro. split; apply N.leb_le; lia. }
    replace (digit_char d - 48) with d by (unfold digit_char; lia).
    rewrite IH by (rewrite length_insert; lia). rewrite Nat.add_succ_r. simpl. do 2 f_equal.
    rewrite drop_insert_lt by lia. rewrite (take_S_r _ _ d) by (apply list_lookup_insert_eq; lia).
    rewrite take_insert_ge by lia. by rewrite <-app_assoc.
Qed.

Lemma parse_digits digits :
  good_digits digits →
  parse_setup_code (digit_char <$> digits) =
    if decide (luhn_total digits mod 10 = 0) then Ok (digit_char <$> digits) else Err CheckDigitMismatch.
Proof.
  intros [Hlen Hd]. unfold parse_setup_code. rewrite setup_digits_chars by (rewrite ?length_replicate; lia || done).
  simpl. rewrite Hlen. unfold SETUP_CODE_LEN. simpl. rewrite app_nil_r.
  assert (∃ random c, digits = random ++ [c] ∧ length random = SETUP_CODE_RANDOM_DIGITS) as (random & c & -> & Hr).
  { exists (take 10 digits), (default 0 (digits !! 10%nat)). rewrite length_take, Hlen. split; [|done].
    destruct (lookup_lt_is_Some_2 digits 10) as [c Hc]; [rewrite Hlen; unfold SETUP_CODE_LEN; lia|].
    rewrite Hc. simpl. rewrite <-(take_S_r _ _ _ Hc). rewrite take_ge; [done|]. rewrite Hlen. done. }
  apply Forall_app in Hd as [_ Hd]. assert (c ≤ 9) as Hc by (by inversion Hd).
  rewrite take_app_length', drop_app_length' by done.
  pose proof (check_digit_valid random c Hc) as Hv.
  destruct (decide (luhn_total _ mod 10 = 0)) as [E|E].
  - rewrite bool_decide_eq_true_2; [done|]. by rewrite (proj2 Hv E).
  - rewrite bool_decide_eq_false_2; [done|]. intros [= Heq]. by apply E, Hv.
Qed.

Lemma made_code random c :
  length random = SETUP_CODE_RANDOM_DIGITS → setup_code_from_digits random = Ok c →
  ∃ digits, c = digit_char <$> digits ∧ good_digits digits ∧ luhn_total digits mod 10 = 0.
Proof.
  intros Hlen. unfold setup_code_from_digits. destruct (existsb _ random) eqn:E; [done|]. intros [= <-].
  exists (random ++ [luhn_check_digit random]).
  assert (luhn_check_digit random ≤ 9) as Hc.
  { unfold luhn_check_digit. pose proof (N.mod_lt (10 - luhn_sum random mod 10) 10 ltac:(lia)). lia. }
  split; [done|]. split; [split|].
  - by rewrite length_app, Hlen.
  - apply Forall_app. split; [|by repeat constructor]. apply Forall_forall. intros d Hd.
    destruct (N.ltb_spec 9 d) as [Hlt|]; [|done]. exfalso.
    assert (existsb (λ digit, 9 <? digit) random = true) as Ht; [|congruence].
    apply existsb_exists. exists d. split; [by apply list_elem_of_In|by apply N.ltb_lt].
  - by apply check_digit_valid.
Qed.

(** Two neighbours swapped change the sum unless they are equal, or a nought and a nine. *)
Lemma luhn_swap p a b :
  a ≤ 9 → b ≤ 9 → a ≠ b → ¬ (a = 0 ∧ b = 9 ∨ a = 9 ∧ b = 0) → ∀ s t,
  s + luhn_weight (S p) a + luhn_weight p b = t + luhn_weight (S p) b + luhn_weight p a →
  s mod 10 = 0 → t mod 10 = 0 → False.
Proof.
  intros Ha Hb Hne Hn s t Heq Hs Ht. apply N.Div0.mod_divides in Hs as [x ->], Ht as [y ->].
  unfold luhn_weight in Heq. rewrite Nat.even_succ, <-Nat.negb_even in Heq.
  destruct (Nat.even p); simpl in Heq; destruct (N.ltb_spec 9 (a * 2)), (N.ltb_spec 9 (b * 2)); lia.
Qed.

Lemma setup_digits_dash a b digits found :
  setup_digits (a ++ lit "-" ++ b) digits found = setup_digits (a ++ b) digits found.
Proof. rewrite !setup_digits_app. by destruct (setup_digits a digits found) as [[]|]. Qed.

Lemma display_reads_back digits :
  good_digits digits → luhn_total digits mod 10 = 0 →
  parse_setup_code (display_setup_code (digit_char <$> digits)) = Ok (digit_char <$> digits).
Proof.
  intros [Hlen Hd] Hv. assert (∃ a b c, digits = a ++ b ++ c ∧ length a = 4%nat ∧ length b = 3%nat) as (a & b & c & -> & Ha & Hb).
  { exists (take 4 digits), (take 3 (drop 4 digits)), (drop 3 (drop 4 digits)). rewrite !take_drop.
    rewrite !length_take, length_drop, Hlen. done. }
  rewrite <-(decide_True (P := luhn_total (a ++ b ++ c) mod 10 = 0) (Ok (digit_char <$> (a ++ b ++ c))) (Err CheckDigitMismatch)) by done.
  rewrite <-parse_digits by done. unfold parse_setup_code, display_setup_code. f_equal.
  rewrite !fmap_app. rewrite take_app_length', drop_app_length' by (by rewrite length_fmap).
  rewrite take_app_length' by (by rewrite length_fmap).
  replace (drop 7 _) with (digit_char <$> c).
  2: { rewrite app_assoc, drop_app_length'; [done|]. by rewrite length_app, !length_fmap, Ha, Hb. }
  by rewrite setup_digits_dash, app_assoc, setup_digits_dash, <-app_assoc.
Qed.

(** Every code the pond makes is read back from its digits and from the card's grouping; and a
    code typed with one digit wrong, or with two neighbouring digits swapped, is refused as a
    typing mistake before it spends a guess, but for a nought and a nine swapped, which Luhn's
    check digit cannot see. *)
Theorem setup_code_typos_are_caught random c :
  length random = SETUP_CODE_RANDOM_DIGITS → setup_code_from_digits random = Ok c →
  parse_setup_code c = Ok c ∧ parse_setup_code (display_setup_code c) = Ok c ∧
  (∀ i d x, c !! i = Some x → d ≤ 9 → x ≠ digit_char d →
     parse_setup_code (<[i := digit_char d]> c) = Err CheckDigitMismatch) ∧
  (∀ i x y, c !! i = Some x → c !! S i = Some y → x ≠ y →
     ¬ (x = digit_char 0 ∧ y = digit_char 9 ∨ x = digit_char 9 ∧ y = digit_char 0) →
     parse_setup_code (<[i := y]> (<[S i := x]> c)) = Err CheckDigitMismatch).
Proof.
  intros Hlen (digits & -> & Hg & Hv)%made_code; [|done]. split; [|split; [by apply display_reads_back|split]].
  - rewrite parse_digits by done. by rewrite decide_True.
  - intros i d x Hx Hd Hne. apply list_lookup_fmap_Some in Hx as (d0 & -> & Hd0).
    rewrite <-list_fmap_insert, parse_digits.
    + rewrite decide_False; [done|]. intros Hv'. apply Hne. f_equal.
      pose proof (luhn_total_insert digits i d0 d Hd0) as Heq. destruct Hg as [_ Hall].
      assert (d0 ≤ 9) as H9 by (by apply (Forall_lookup_1 _ _ _ _ Hall Hd0)).
      apply (luhn_weight_inj (length digits - i)); [done..|]. symmetry.
      apply (mod10_cancel _ _ _ _ (eq_sym Heq)); [by apply luhn_weight_bound..|done|done].
    + destruct Hg. split; [by rewrite length_insert|by apply Forall_insert].
  - intros i x y Hx Hy Hne Hn. apply list_lookup_fmap_Some in Hx as (a & -> & Ha), Hy as (b & -> & Hb).
    destruct Hg as [Hl Hall].
    assert (a ≤ 9) as Ha9 by (by apply (Forall_lookup_1 _ _ _ _ Hall Ha)).
    assert (b ≤ 9) as Hb9 by (by apply (Forall_lookup_1 _ _ _ _ Hall Hb)).
    rewrite <-!list_fmap_insert, parse_digits.
    + rewrite decide_False; [done|]. intros Hv'.
      pose proof (luhn_total_insert digits (S i) b a Hb) as H1.
      pose proof (luhn_total_insert (<[S i := a]> digits) i a b) as H2.
      rewrite list_lookup_insert_ne, length_insert in H2 by lia. specialize (H2 Ha).
      apply lookup_lt_Some in Hb as Hlt.
      replace (length digits - i)%nat with (S (length digits - S i)) in H2 by lia.
      apply (luhn_swap (length digits - S i) a b Ha9 Hb9) with (s := luhn_total (<[i:=b]> (<[S i:=a]> digits)))
        (t := luhn_total digits); [by intros ->| |lia|done|done].
      unfold digit_char in Hn. lia.
    + split; [by rewrite !length_insert|by apply Forall_insert; [apply Forall_insert|]].
Qed.

(** ** Witnesses: the Luhn vector's card *)

Definition vector_digits : list N := [7; 9; 9; 2; 7; 3; 9; 8; 7; 1].
Definition vector_code : SetupCode := lit "79927398713".
Definition vector_store : ClaimStore :=
  {| cs_record := Some (new_setup_record vector_code 7 0); cs_told := [] |}.

Lemma setup_code_typos_are_caught_witness :
  setup_code_from_digits vector_digits = Ok vector_code ∧
  parse_setup_code (<[3%nat := digit_char 5]> vector_code) = Err CheckDigitMismatch ∧
  parse_setup_code (<[0%nat := digit_char 9]> (<[1%nat := digit_char 7]> vector_code)) = Err CheckDigitMismatch.
Proof.
  assert (setup_code_from_digits vector_digits = Ok vector_code) as Hc by reflexivity.
  destruct (setup_code_typos_are_caught vector_digits vector_code eq_refl Hc) as (_ & _ & Hd & Hs).
  split; [exact Hc|]. split.
  - apply (Hd 3%nat 5 (digit_char 2)); [reflexivity|lia|discriminate].
  - apply (Hs 0%nat (digit_char 7) (digit_char 9)); [reflexivity|reflexivity|discriminate|].
    intros [[H _]|[H _]]; discriminate H.
Defined.

(** One attempt, run alone. *)
Lemma admits_once now c ts :
  throttle_check (ch_throttle c) now = Ok tt →
  star claim_step {| tn_held := None; tn_state := c; tn_store := vector_store; tn_tasks := ts |}
    {| tn_held := None; tn_state := (throttle_call (RecordFailure now) c).2; tn_store := vector_store;
       tn_tasks := ts ++ [Ret tt] |}.
Proof.
  intros Hc. apply runs_alone with (p := served (admit_setup_attempt now)); [constructor|].
  apply al_take. eapply al_do; [apply cc_loaded|]. eapply al_do; [apply cc_throttle|]. simpl. rewrite Hc.
  eapply al_do; [apply cc_throttle|]. apply al_release, al_ret.
Qed.

Fixpoint admits (times : list Z) (c : Charged) : Charged :=
  match times with [] => c | now :: times => admits times (throttle_call (RecordFailure now) c).2 end.
Fixpoint all_open (times : list Z) (c : Charged) : Prop :=
  match times with
  | [] => True
  | now :: times => throttle_check (ch_throttle c) now = Ok tt ∧ all_open times (throttle_call (RecordFailure now) c).2
  end.

Lemma admits_run times c ts : all_open times c → ∃ ts',
  star claim_step {| tn_held := None; tn_state := c; tn_store := vector_store; tn_tasks := ts |}
    {| tn_held := None; tn_state := admits times c; tn_store := vector_store; tn_tasks := ts' |}.
Proof.
  revert c ts. induction times as [|now times IH]; intros c ts; [intros _; eexists; apply star_refl|].
  intros [Hc Ho]. destruct (IH _ (ts ++ [Ret tt]) Ho) as [ts' Hs]. exists ts'.
  eapply star_trans; [by apply admits_once|exact Hs].
Qed.

(** Ten wrong guesses, each as soon as the throttle lets it through. *)
Definition ten_guesses : list Z :=
  (λ s, s * 1000000000)%Z <$> [0; 0; 0; 0; 0; 30; 90; 210; 450; 930]%Z.

Lemma setup_attempts_charged_and_spaced_witness : ∃ s a b,
  star claim_step (pond_with_card vector_store) s ∧
  ch_guesses (tn_state s) !! 4%nat = Some a ∧ ch_guesses (tn_state s) !! 9%nat = Some b ∧
  (a + 930 * 1000000000 ≤ b)%Z.
Proof.
  destruct (admits_run ten_guesses uncharged []) as [ts Hs]; [repeat split; vm_compute; reflexivity|].
  eexists _, _, _. split; [exact Hs|]. split; [reflexivity|]. split; [reflexivity|].
  apply (proj2 setup_attempts_charged_and_spaced vector_store _ 0%nat _ _ eq_refl Hs); reflexivity.
Defined.

Lemma claim_is_told_to_its_device_witness : ∃ s r,
  star claim_step (pond_with_card vector_store) s ∧ (5%Z, lit "ann", r) ∈ cs_told (tn_store s) ∧
  sr_claimed_at r = Some 5%Z ∧ sr_claimed_by r = Some (lit "ann").
Proof.
  assert (∃ s r, star claim_step (pond_with_card vector_store) s ∧ (5%Z, lit "ann", r) ∈ cs_told (tn_store s))
    as (s & r & Hs & Hin).
  { do 2 eexists. split.
    - apply runs_alone with (p := claims 5%Z (lit "ann")); [constructor|].
      apply al_take. eapply al_do; [apply cc_loaded|]. eapply al_do; [apply cc_marked; reflexivity|].
      eapply al_do; [apply cc_throttle|]. eapply al_do; [apply cc_notified|]. apply al_release.
      eapply al_do; [apply cc_told_by|]. apply al_ret.
    - left. }
  exists s, r. split; [exact Hs|]. split; [exact Hin|].
  exact (claim_is_told_to_its_device vector_store s 5%Z (lit "ann") r eq_refl Hs Hin).
Defined.
