(* ===== verification/Elevation.v ===== *)
(** * Elevation: which device may administer the pond, by the admin card or its own key

    [crates/pond-core/src/security/]: [domain/admin_card.rs] ([AdminPassword]) and
    [services/admin_elevation.rs] ([AdminElevation]), whose methods are programs under the
    ledger's mutex ([Guarded]) over the ports of [ports/admin_card.rs]; of the adapters, what
    [pond-infra/src/file_admin_card.rs] and [sqlite_admin_keys.rs] keep and answer; and
    [run_admin_card] of [pond-server/src/main.rs], which replaces the card from another process.
    The guess throttle is that of Setup. A verifier's check and the keys' digest are parameters:
    they are computed by the crates [pbkdf2] and [sha2]. *)
From S2P Require Import Prelude Prog Guarded Text Setup.
Local Open Scope N_scope.

(** ** [admin_card.rs] *)

Definition ADMIN_PASSWORD_LEN : nat := 16.
Definition ALPHABET : text := lit "0123456789ABCDEFGHJKMNPQRSTVWXYZ".

Inductive AdminPasswordError : Type :=
| PasswordWrongLength (found : nat)
| NotOnTheCard
| SymbolOutOfRange.

(** Its normalised characters. *)
Notation AdminPassword := text (only parsing).

Fixpoint password_from_symbols (symbols : list N) : result AdminPassword AdminPasswordError :=
  match symbols with
  | [] => Ok []
  | s :: symbols =>
      match ALPHABET !! N.to_nat s with
      | None => Err SymbolOutOfRange
      | Some c =>
          match password_from_symbols symbols with Ok out => Ok (c :: out) | Err e => Err e end
      end
  end.

(** What a person means by a character of the card. *)
Definition card_char (c : N) : N :=
  let c := to_ascii_uppercase c in
  if c =? 79 then 48 else if (c =? 73) || (c =? 76) then 49 else c.

Fixpoint password_chars (input out : text) (found : nat) : result (text * nat) AdminPasswordError :=
  match input with
  | [] => Ok (out, found)
  | c :: input =>
      if (c =? 45) || is_whitespace c then password_chars input out found else
      let c := card_char c in
      if negb (bool_decide (c ∈ ALPHABET)) then Err NotOnTheCard else
      let found := S found in
      password_chars input (if Nat.leb found ADMIN_PASSWORD_LEN then out ++ [c] else out) found
  end.

Definition parse_password (input : text) : result AdminPassword AdminPasswordError :=
  match password_chars input [] 0 with
  | Err e => Err e
  | Ok (out, found) =>
      if negb (Nat.eqb found ADMIN_PASSWORD_LEN) then Err (PasswordWrongLength found) else Ok out
  end.

(** [chunks(4)], joined with dashes. *)
Definition grouped (p : AdminPassword) : text :=
  join (lit "-") [take 4 p; take 4 (drop 4 p); take 4 (drop 8 p); drop 12 p].

(** ** A password is always the card's sixteen characters *)

Definition canonical (p : text) : Prop := length p = ADMIN_PASSWORD_LEN ∧ Forall (.∈ ALPHABET) p.

Lemma password_chars_spec input out found out' found' :
  Forall (.∈ ALPHABET) out → length out = Nat.min found ADMIN_PASSWORD_LEN →
  password_chars input out found = Ok (out', found') →
  Forall (.∈ ALPHABET) out' ∧ length out' = Nat.min found' ADMIN_PASSWORD_LEN.
Proof.
  revert out found. induction input as [|c input IH]; intros out found Ho Hl; cbn -[Nat.leb card_char].
  - by intros [= <- <-].
  - destruct (_ || _); [by apply IH|].
    destruct (negb _) eqn:Ec; [done|]. apply negb_false_iff, bool_decide_eq_true in Ec.
    destruct (Nat.leb_spec (S found) ADMIN_PASSWORD_LEN); apply IH; try done; try lia.
    + apply Forall_app. by split; [|constructor].
    + rewrite length_app. cbn [length]. lia.
Qed.

Lemma parse_canonical typed p : parse_password typed = Ok p → canonical p.
Proof.
  unfold parse_password. destruct (password_chars typed [] 0) as [[out found]|] eqn:E; [|done].
  destruct (Nat.eqb_spec found ADMIN_PASSWORD_LEN) as [->|]; [|done]. intros [= <-].
  apply password_chars_spec in E as [? ?]; [|constructor|done]. by split.
Qed.

Lemma symbols_canonical symbols p :
  password_from_symbols symbols = Ok p → length p = length symbols ∧ Forall (.∈ ALPHABET) p.
Proof.
  revert p. induction symbols as [|s symbols IH]; intros p; cbn -[ALPHABET]; [by intros [= <-]|].
  destruct (ALPHABET !! N.to_nat s) as [c|] eqn:Ec; [|done].
  destruct (password_from_symbols symbols) as [out|]; [|done]. intros [= <-].
  destruct (IH out eq_refl) as [<- ?]. split; [done|]. constructor; [by apply list_elem_of_lookup_2 in Ec|done].
Qed.

Lemma canonical_symbols p : Forall (.∈ ALPHABET) p → ∃ symbols,
  length symbols = length p ∧ password_from_symbols symbols = Ok p.
Proof.
  induction 1 as [|c p Hc _ (symbols & Hl & Hs)]; [by exists []|].
  apply list_elem_of_lookup_1 in Hc as [i Hi]. exists (N.of_nat i :: symbols). cbn -[ALPHABET].
  rewrite Nat2N.id, Hi, Hs, Hl. done.
Qed.

(** A card's character means itself, in either case. *)
Lemma card_char_spec c : c ∈ ALPHABET →
  ∀ d, d = c ∨ d = to_ascii_lowercase c → (d =? 45) || is_whitespace d = false ∧ card_char d = c.
Proof.
  assert (Forall (λ c, (c =? 45) || is_whitespace c = false ∧ card_char c = c ∧
    (to_ascii_lowercase c =? 45) || is_whitespace (to_ascii_lowercase c) = false ∧
    card_char (to_ascii_lowercase c) = c) ALPHABET) as H by (repeat constructor; vm_compute; reflexivity).
  intros Hc d Hd. rewrite Forall_forall in H. destruct (H c Hc) as (? & ? & ? & ?). by destruct Hd as [->| ->].
Qed.

(** Text that spells [p]: its characters in either case, with dashes between. *)
Lemma password_chars_read typed p out found :
  Forall2 (λ d c, c ∈ ALPHABET ∧ (d = c ∨ d = to_ascii_lowercase c)) typed p →
  (found + length p ≤ ADMIN_PASSWORD_LEN)%nat → ∀ rest,
  password_chars (typed ++ rest) out found = password_chars rest (out ++ p) (found + length p).
Proof.
  intros H. revert out found. induction H as [|d c typed p [Hc Hd] _ IH]; intros out found Hl rest.
  - simpl. by rewrite app_nil_r, Nat.add_0_r.
  - simpl in Hl. destruct (card_char_spec c Hc d Hd) as [Hb Hm]. cbn -[Nat.leb card_char]. rewrite Hb, Hm.
    rewrite bool_decide_eq_true_2 by done. cbn -[Nat.leb].
    rewrite (proj2 (Nat.leb_le _ _)) by lia. rewrite IH by lia. by rewrite <-app_assoc, Nat.add_succ_r.
Qed.

Lemma spells_itself p : Forall (.∈ ALPHABET) p →
  Forall2 (λ d c, c ∈ ALPHABET ∧ (d = c ∨ d = to_ascii_lowercase c)) p p.
Proof. induction 1; constructor; auto. Qed.

Lemma spells_lowercase p : Forall (.∈ ALPHABET) p →
  Forall2 (λ d c, c ∈ ALPHABET ∧ (d = c ∨ d = to_ascii_lowercase c)) (lowercase p) p.
Proof. induction 1; constructor; auto. Qed.

Lemma parse_spelled typed p :
  canonical p → password_chars typed [] 0 = Ok (p, ADMIN_PASSWORD_LEN) → parse_password typed = Ok p.
Proof. intros [Hl _] H. unfold parse_password. by rewrite H. Qed.

Lemma grouped_reads p : canonical p → password_chars (grouped p) [] 0 = Ok (p, ADMIN_PASSWORD_LEN).
Proof.
  intros [Hl Hp].
  assert (∃ a b c d, p = a ++ b ++ c ++ d ∧ length a = 4%nat ∧ length b = 4%nat ∧ length c = 4%nat ∧ length d = 4%nat)
    as (a & b & c & d & -> & Ha & Hb & Hc & Hd).
  { exists (take 4 p), (take 4 (drop 4 p)), (take 4 (drop 8 p)), (drop 12 p).
    split; [|rewrite !length_take, !length_drop, Hl; by repeat split].
    replace (drop 12 p) with (drop 4 (drop 8 p)) by (by rewrite drop_drop). rewrite take_drop.
    replace (drop 8 p) with (drop 4 (drop 4 p)) by (by rewrite drop_drop). by rewrite !take_drop. }
  apply Forall_app in Hp as [Pa [Pb [Pc Pd]%Forall_app]%Forall_app].
  assert (grouped (a ++ b ++ c ++ d) = a ++ lit "-" ++ b ++ lit "-" ++ c ++ lit "-" ++ d) as ->.
  { unfold grouped. rewrite take_app_length', drop_app_length' by done. rewrite take_app_length' by done.
    assert (drop 8 (a ++ b ++ c ++ d) = c ++ d) as ->.
    { rewrite app_assoc, drop_app_length'; [done|]. by rewrite length_app, Ha, Hb. }
    assert (drop 12 (a ++ b ++ c ++ d) = d) as ->.
    { rewrite !app_assoc, drop_app_length'; [done|]. by rewrite !length_app, Ha, Hb, Hc. }
    by rewrite take_app_length'. }
  pose proof (spells_itself a Pa). pose proof (spells_itself b Pb). pose proof (spells_itself c Pc).
  pose proof (spells_itself d Pd).
  rewrite (password_chars_read a a) by (done || (rewrite Ha; unfold ADMIN_PASSWORD_LEN; lia)). simpl.
  rewrite (password_chars_read b b) by (done || (rewrite Ha, Hb; unfold ADMIN_PASSWORD_LEN; lia)). simpl.
  rewrite (password_chars_read c c) by (done || (rewrite Ha, Hb, Hc; unfold ADMIN_PASSWORD_LEN; lia)). simpl.
  rewrite <-(app_nil_r d) at 1.
  rewrite (password_chars_read d d) by (done || (rewrite Ha, Hb, Hc, Hd; unfold ADMIN_PASSWORD_LEN; lia)). simpl.
  rewrite Ha, Hb, Hc, Hd. by rewrite <-!app_assoc.
Qed.

(** Whatever is typed, and whatever symbols are drawn, a value of the type is the card's
    sixteen characters of Crockford's alphabet and nothing else; and each such value is one that
    can be drawn, and is read back from itself, in lower case, and as the card prints it. *)
Theorem admin_password_is_canonical :
  (∀ typed p, parse_password typed = Ok p → canonical p) ∧
  (∀ symbols p, length symbols = ADMIN_PASSWORD_LEN → password_from_symbols symbols = Ok p → canonical p) ∧
  ∀ p, canonical p →
    parse_password p = Ok p ∧ parse_password (lowercase p) = Ok p ∧ parse_password (grouped p) = Ok p ∧
    ∃ symbols, length symbols = ADMIN_PASSWORD_LEN ∧ password_from_symbols symbols = Ok p.
Proof.
  split; [exact parse_canonical|]. split.
  - intros symbols p Hl [Hp ?]%symbols_canonical. split; [by rewrite Hp|done].
  - intros p Hc. pose proof Hc as [Hl Hp]. split; [|split; [|split]].
    + apply parse_spelled; [done|]. rewrite <-(app_nil_r p) at 1.
      rewrite (password_chars_read p p [] 0); [by rewrite Hl|by apply spells_itself|by rewrite Hl].
    + apply parse_spelled; [done|]. rewrite <-(app_nil_r (lowercase p)).
      rewrite (password_chars_read _ p [] 0); [by rewrite Hl|by apply spells_lowercase|by rewrite Hl].
    + apply parse_spelled; [done|]. by apply grouped_reads.
    + destruct (canonical_symbols p Hp) as (symbols & Hs & ?). exists symbols. by rewrite Hs.
Qed.

(** ** [ports/admin_card.rs] *)

Inductive CardCheck : Type := Matches (card_id : text) | Mismatch | Missing.

(** ** [admin_elevation.rs] *)

Definition ADMIN_IDLE : N := 15 * 60 * SECOND.

Inductive UnlockRefusal : Type :=
| Malformed
| Rejected
| KeyRejected
| CardMissing
| Cooling (retry_after : N)
| Unavailable (error : text).

Inductive Locked : Type := NotUnlocked | Expired | CardChanged | LockedUnavailable (error : text).

Record AdminStatus := {
  ad_card_present : bool;
  ad_key_held : bool;
  ad_unlocked_for : option N;
  ad_retry_after : option N;
}.

Record Grant := { gr_card_id : option text; gr_last_used : Z }.

(** What the statements are about: a card shown, a key shown, an unlock, an admission, its end. *)
Inductive AdminEvent : Type :=
| EvCard (password card_id : text)
| EvKey (device key : text)
| EvGranted (device : text) (g : Grant)
| EvAdmitted (device : text) (now : Z) (current : option text)
| EvEnded (device : text).

Record AdminLedger := {
  al_charged : Charged;
  al_grants : gmap text Grant;
  al_events : list AdminEvent;
}.

Definition with_grants (g : gmap text Grant) (events : list AdminEvent) (l : AdminLedger) : AdminLedger :=
  {| al_charged := al_charged l; al_grants := g; al_events := al_events l ++ events |}.
Definition with_charged (c : Charged) (l : AdminLedger) : AdminLedger :=
  {| al_charged := c; al_grants := al_grants l; al_events := al_events l |}.

(** What the methods do to the ledger between two awaits. *)
Inductive LedgerCall : Type → Type :=
| LedgerThrottle {A} (c : ThrottleCall A) : LedgerCall A
| InsertGrant (device : text) (g : Grant) : LedgerCall unit
| AdmitGrant (device : text) (now : Z) (current : option text) : LedgerCall (result N Locked)
| RemoveGrant (device : text) : LedgerCall bool
| ReadGrant (device : text) (now : Z) (current : option text) : LedgerCall (option N * option N).

Inductive AdminCall : Type → Type :=
| InLedger {A} (c : LedgerCall A) : AdminCall A
| CheckCard (password : AdminPassword) : AdminCall (result CardCheck text)
| CurrentCard : AdminCall (result (option text) text)
| IssueKey (device : text) : AdminCall (result text text)
| CheckKey (device key : text) : AdminCall (result bool text)
| HoldsKey (device : text) : AdminCall (result bool text)
| RevokeKey (device : text) : AdminCall (result bool text).

Notation Admin := (Prog (Guarded AdminCall)) (only parsing).

(** [saturating_duration_since] *)
Definition since (now earlier : Z) : N := Z.to_N (now - earlier).

Section elevation.
Context (idle : N).

Definition admit_grant (device : text) (now : Z) (current : option text) (l : AdminLedger)
    : result N Locked * AdminLedger :=
  match al_grants l !! device with
  | None => (Err NotUnlocked, l)
  | Some grant =>
      if negb (bool_decide (current = gr_card_id grant))
      then (Err CardChanged, with_grants (delete device (al_grants l)) [EvEnded device] l) else
      if idle <=? since now (gr_last_used grant)
      then (Err Expired, with_grants (delete device (al_grants l)) [EvEnded device] l) else
      (Ok idle,
       with_grants (<[device := {| gr_card_id := gr_card_id grant; gr_last_used := now |}]> (al_grants l))
         [EvAdmitted device now current] l)
  end.

Definition unlocked_for (device : text) (now : Z) (current : option text) (l : AdminLedger) : option N :=
  match al_grants l !! device with
  | None => None
  | Some grant =>
      if negb (bool_decide (current = gr_card_id grant)) then None else
      let used := since now (gr_last_used grant) in
      if (used <=? idle) && negb (idle - used =? 0) then Some (idle - used) else None
  end.

Definition ledger_call {A} (c : LedgerCall A) (l : AdminLedger) : A * AdminLedger :=
  match c in LedgerCall A return A * AdminLedger with
  | LedgerThrottle c => let '(a, t) := throttle_call c (al_charged l) in (a, with_charged t l)
  | InsertGrant device g => (tt, with_grants (<[device := g]> (al_grants l)) [EvGranted device g] l)
  | AdmitGrant device now current => admit_grant device now current l
  | RemoveGrant device =>
      (bool_decide (is_Some (al_grants l !! device)),
       with_grants (delete device (al_grants l)) [EvEnded device] l)
  | ReadGrant device now current =>
      ((unlocked_for device now current l,
        match throttle_check (ch_throttle (al_charged l)) now with Ok _ => None | Err r => Some r end), l)
  end.

Definition unlock (device typed : text) (now : Z) : Admin (result N UnlockRefusal) :=
  match parse_password typed with
  | Err _ => Ret (Err Malformed)
  | Ok password =>
      do! Take in
      let! open := Do (InLedger (LedgerThrottle (ThrottleCheck now))) in
      match open with
      | Err retry_after => leave (Err (Cooling retry_after))
      | Ok _ =>
          let! check := Do (CheckCard password) in
          match check with
          | Err e => leave (Err (Unavailable e))
          | Ok Missing => leave (Err CardMissing)
          | Ok Mismatch =>
              do! Do (InLedger (LedgerThrottle (RecordFailure now))) in
              leave (Err Rejected)
          | Ok (Matches card_id) =>
              do! Do (InLedger (LedgerThrottle RecordSuccess)) in
              do! Do (InLedger (InsertGrant device {| gr_card_id := Some card_id; gr_last_used := now |})) in
              leave (Ok idle)
          end
      end
  end.

Definition unlock_with_key (device key : text) (now : Z) : Admin (result N UnlockRefusal) :=
  do! Take in
  let! open := Do (InLedger (LedgerThrottle (ThrottleCheck now))) in
  match open with
  | Err retry_after => leave (Err (Cooling retry_after))
  | Ok _ =>
      let! live := Do (CheckKey device key) in
      match live with
      | Err e => leave (Err (Unavailable e))
      | Ok false =>
          do! Do (InLedger (LedgerThrottle (RecordFailure now))) in
          leave (Err KeyRejected)
      | Ok true =>
          let! current := Do CurrentCard in
          match current with
          | Err e => leave (Err (Unavailable e))
          | Ok card_id =>
              do! Do (InLedger (LedgerThrottle RecordSuccess)) in
              do! Do (InLedger (InsertGrant device {| gr_card_id := card_id; gr_last_used := now |})) in
              leave (Ok idle)
          end
      end
  end.

Definition admit_device (device : text) (now : Z) : Admin (result N Locked) :=
  let! current := Do CurrentCard in
  match current with
  | Err e => Ret (Err (LockedUnavailable e))
  | Ok current =>
      do! Take in
      let! admitted := Do (InLedger (AdmitGrant device now current)) in
      leave admitted
  end.

Definition enroll (device : text) (now : Z) : Admin (result text Locked) :=
  prog_bind (admit_device device now) (λ admitted,
  match admitted with
  | Err e => Ret (Err e)
  | Ok _ =>
      let! key := Do (IssueKey device) in
      Ret match key with Ok key => Ok key | Err e => Err (LockedUnavailable e) end
  end).

Definition issue_first_key (device : text) : Admin (result text text) :=
  let! key := Do (IssueKey device) in Ret key.

Definition lock (device : text) : Admin bool :=
  do! Take in
  let! held := Do (InLedger (RemoveGrant device)) in
  leave held.

Definition revoke_device (device : text) : Admin (result bool text) :=
  prog_bind (lock device) (λ _, let! revoked := Do (RevokeKey device) in Ret revoked).

Definition status (device : text) (now : Z) : Admin (result AdminStatus text) :=
  let! current := Do CurrentCard in
  match current with
  | Err e => Ret (Err e)
  | Ok current =>
      let! key_held := Do (HoldsKey device) in
      match key_held with
      | Err e => Ret (Err e)
      | Ok key_held =>
          do! Take in
          let! read := Do (InLedger (ReadGrant device now current)) in
          leave (Ok {| ad_card_present := bool_decide (is_Some current); ad_key_held := key_held;
                       ad_unlocked_for := read.1; ad_retry_after := read.2 |})
      end
  end.

(** ** The card, the keys, and the command line that replaces them *)

Context (matches : text → text → bool) (digest : text → text).

(** The card file, its id and verifier; the keys' digests; and whether a rotation has yet to
    revoke them. *)
Record AdminStore := {
  as_card : option (text * text);
  as_keys : gmap text text;
  as_rotating : bool;
}.

Definition with_keys (keys : gmap text text) (e : AdminStore) : AdminStore :=
  {| as_card := as_card e; as_keys := keys; as_rotating := as_rotating e |}.

Definition check_card (password : text) (e : AdminStore) : CardCheck :=
  match as_card e with
  | None => Missing
  | Some (card_id, verifier) => if matches verifier password then Matches card_id else Mismatch
  end.

Definition check_key (device key : text) (e : AdminStore) : bool :=
  bool_decide (as_keys e !! device = Some (digest key)).

Definition log_event (ev : list AdminEvent) (l : AdminLedger) : AdminLedger := with_grants (al_grants l) ev l.

Inductive admin_call : ∀ R, AdminCall R → AdminLedger → AdminStore → R → AdminLedger → AdminStore → Prop :=
| ac_ledger A (c : LedgerCall A) l e : admin_call A (InLedger c) l e (ledger_call c l).1 (ledger_call c l).2 e
| ac_checked password l e :
    admin_call _ (CheckCard password) l e (Ok (check_card password e))
      (log_event match check_card password e with Matches card_id => [EvCard password card_id] | _ => [] end l) e
| ac_not_checked password err l e : admin_call _ (CheckCard password) l e (Err err) l e
| ac_current l e : admin_call _ CurrentCard l e (Ok (fst <$> as_card e)) l e
| ac_no_current err l e : admin_call _ CurrentCard l e (Err err) l e
| ac_issued device key l e :
    admin_call _ (IssueKey device) l e (Ok key) l (with_keys (<[device := digest key]> (as_keys e)) e)
| ac_not_issued device err l e : admin_call _ (IssueKey device) l e (Err err) l e
| ac_key device key l e :
    admin_call _ (CheckKey device key) l e (Ok (check_key device key e))
      (log_event (if check_key device key e then [EvKey device key] else []) l) e
| ac_no_key device key err l e : admin_call _ (CheckKey device key) l e (Err err) l e
| ac_holds device l e : admin_call _ (HoldsKey device) l e (Ok (bool_decide (is_Some (as_keys e !! device)))) l e
| ac_not_held device err l e : admin_call _ (HoldsKey device) l e (Err err) l e
| ac_revoked device l e :
    admin_call _ (RevokeKey device) l e (Ok (bool_decide (is_Some (as_keys e !! device)))) l
      (with_keys (delete device (as_keys e)) e)
| ac_not_revoked device err l e : admin_call _ (RevokeKey device) l e (Err err) l e.

Definition admin_awaited {R} (c : AdminCall R) : bool :=
  match c with InLedger _ => false | _ => true end.

Definition served {A} (p : Admin A) : Admin unit := prog_bind p (λ _, Ret tt).

Inductive admin_starts : Admin unit → Prop :=
| as_unlock device typed now : admin_starts (served (unlock device typed now))
| as_unlock_with_key device key now : admin_starts (served (unlock_with_key device key now))
| as_enroll device now : admin_starts (served (enroll device now))
| as_first_key device : admin_starts (served (issue_first_key device))
| as_revoke device : admin_starts (served (revoke_device device))
| as_admit device now : admin_starts (served (admit_device device now))
| as_lock device : admin_starts (served (lock device))
| as_status device now : admin_starts (served (status device now)).

(** [run_admin_card], in its order: the card first, then, when it replaced one, every key. *)
Inductive admin_outside : AdminStore → AdminStore → Prop :=
| ao_issued card_id verifier e :
    as_card e = None →
    admin_outside e {| as_card := Some (card_id, verifier); as_keys := as_keys e; as_rotating := as_rotating e |}
| ao_rotated card_id verifier e :
    admin_outside e {| as_card := Some (card_id, verifier); as_keys := as_keys e; as_rotating := true |}
| ao_revoked_all e :
    as_rotating e = true →
    admin_outside e {| as_card := as_card e; as_keys := ∅; as_rotating := false |}
| ao_removed device e : admin_outside e (with_keys (delete device (as_keys e)) e).

Notation admin_step := (turn_step admin_call (@admin_awaited) admin_starts admin_outside).

Definition new_ledger : AdminLedger := {| al_charged := uncharged; al_grants := ∅; al_events := [] |}.

(** The server just started: nobody is unlocked. *)
Definition locked_pond (e : AdminStore) : Turns (C := AdminCall) (L := AdminLedger) (E := AdminStore) :=
  {| tn_held := None; tn_state := new_ledger; tn_store := e; tn_tasks := [] |}.

(** ** An admission is earned *)

(** The grants the events so far leave. *)
Definition stand (grants : gmap text Grant) (ev : AdminEvent) : gmap text Grant :=
  match ev with
  | EvGranted device g => <[device := g]> grants
  | EvAdmitted device now _ =>
      alter (λ g, {| gr_card_id := gr_card_id g; gr_last_used := now |}) device grants
  | EvEnded device => delete device grants
  | EvCard _ _ | EvKey _ _ => grants
  end.
Definition stands (events : list AdminEvent) : gmap text Grant := foldl stand ∅ events.

(** What shows that [device] may be unlocked under the card [card_id]. *)
Definition shows (device : text) (card_id : option text) (ev : AdminEvent) : Prop :=
  match ev with
  | EvCard _ id => card_id = Some id
  | EvKey d _ => d = device
  | _ => False
  end.

(** Each unlock right after what earned it, each admission of a device that stands. *)
Definition earned (pre : list AdminEvent) (ev : AdminEvent) : Prop :=
  match ev with
  | EvGranted device g => ∃ shown, last pre = Some shown ∧ shows device (gr_card_id g) shown
  | EvAdmitted device now current =>
      ∃ g, stands pre !! device = Some g ∧ gr_card_id g = current ∧ since now (gr_last_used g) < idle
  | _ => True
  end.
Definition all_earned (events : list AdminEvent) : Prop :=
  ∀ pre ev post, events = pre ++ ev :: post → earned pre ev.

Definition ledger_ok (l : AdminLedger) : Prop :=
  al_grants l = stands (al_events l) ∧ all_earned (al_events l) ∧ charged_ok (al_charged l).

Notation admin_discipline :=
  (discipline admin_call (@admin_awaited) (λ l _, ledger_ok l) (λ l _, ledger_ok l) (λ _ _, True)).
Notation holding l p := (admin_discipline (Some (l, λ _, True)) p).

Lemma all_earned_snoc events ev : all_earned events → earned events ev → all_earned (events ++ [ev]).
Proof.
  intros Ha He pre ev' post Heq. destruct post as [|x post _] using rev_ind.
  - apply app_inj_tail in Heq as [-> ->]. exact He.
  - rewrite app_comm_cons, app_assoc in Heq. apply app_inj_tail in Heq as [-> _]. by apply (Ha pre ev' post).
Qed.

Lemma stands_snoc events ev : stands (events ++ [ev]) = stand (stands events) ev.
Proof. unfold stands. by rewrite foldl_app. Qed.

(** An event that is earned, with the grants it leaves. *)
Lemma event_ok l ev grants :
  ledger_ok l → earned (al_events l) ev → grants = stand (al_grants l) ev → ledger_ok (with_grants grants [ev] l).
Proof.
  intros (Hg & Ha & Hc) He ->. split; [|split; [by apply all_earned_snoc|done]]. simpl. by rewrite stands_snoc, Hg.
Qed.

Lemma quiet_ok l : ledger_ok l → ledger_ok (log_event [] l).
Proof. intros (? & ? & ?). split; simpl; rewrite app_nil_r; done. Qed.

Lemma charge_ok l c : ledger_ok l → charged_ok c → ledger_ok (with_charged c l).
Proof. by intros (? & ? & ?). Qed.

(** *** A call at a time *)

Definition admin_view {R} (c : AdminCall R) (l : AdminLedger) (r : R) (l' : AdminLedger) : Prop :=
  match c in AdminCall R return R → Prop with
  | InLedger c => λ r, r = (ledger_call c l).1 ∧ l' = (ledger_call c l).2
  | CheckCard password => λ r,
      (∃ id, r = Ok (Matches id) ∧ l' = log_event [EvCard password id] l) ∨
      (∀ id, r ≠ Ok (Matches id)) ∧ (l' = l ∨ l' = log_event [] l)
  | CheckKey device key => λ r,
      r = Ok true ∧ l' = log_event [EvKey device key] l ∨
      r ≠ Ok true ∧ (l' = l ∨ l' = log_event [] l)
  | _ => λ _, l' = l
  end r.

Lemma admin_call_view {R} (c : AdminCall R) l e r l' e' : admin_call R c l e r l' e' → admin_view c l r l'.
Proof.
  intros Hc. destruct Hc as [A c l e|pw l e|pw err l e|l e|err l e|d key l e|d err l e|d key l e|d key err l e
    |d l e|d err l e|d l e|d err l e]; simpl; try done; try (right; by split; [|left]).
  - destruct (check_card pw e) as [id| |]; [left; by exists id|right; by split; [|right]..].
  - destruct (check_key d key e); [by left|right; by split; [|right]].
Qed.

Lemma admin_does {R} (c : AdminCall R) l k :
  ledger_ok l → (∀ r l', admin_view c l r l' → (admin_awaited c = true → ledger_ok l') ∧ holding l' (k r)) →
  holding l (Call (Do c) k).
Proof.
  intros Hl Hk. apply in_do; [done..|]. intros e r l' e' _ Hc%admin_call_view. destruct (Hk r l' Hc).
  split; [done|]. by exists (λ _, True).
Qed.

Lemma admin_leaves {A} l (a : A) f : ledger_ok l → admin_discipline None (f a) → holding l (prog_bind (leave a) f).
Proof. intros Hl Hf. by apply in_release. Qed.

Lemma admin_takes k : (∀ l, ledger_ok l → holding l (k tt)) → admin_discipline None (Call Take k).
Proof. intros H. apply out_take. intros l e Hl. exists (λ _, True). by split; [|apply H]. Qed.

(** Without the mutex: nothing that touches the ledger. *)
Definition asks {R} (c : AdminCall R) : bool :=
  match c with InLedger _ | CheckCard _ | CheckKey _ _ => false | _ => true end.

Lemma admin_asks {R} (c : AdminCall R) k :
  asks c = true → (∀ r, admin_discipline None (k r)) → admin_discipline None (Call (Do c) k).
Proof.
  intros Hc Hk. apply out_do. intros l e r l' e' Hv%admin_call_view. split; [|by split]. by destruct c.
Qed.

(** The throttle lets a guess through, or the unlock ends. *)
Lemma admin_throttled {A} now (f : Admin (result A UnlockRefusal)) g :
  (∀ r, admin_discipline None (g r)) →
  (∀ l, ledger_ok l → throttle_check (ch_throttle (al_charged l)) now = Ok tt → holding l (prog_bind f g)) →
  admin_discipline None (prog_bind (
    do! Take in
    let! open := Do (InLedger (LedgerThrottle (ThrottleCheck now))) in
    match open with Err retry_after => leave (Err (Cooling retry_after)) | Ok _ => f end) g).
Proof.
  intros Hg Hf. apply admin_takes. intros l Hl. cbn [prog_bind]. apply admin_does; [done|].
  intros r l' [-> ->]. split; [done|]. simpl. assert (with_charged (al_charged l) l = l) as -> by by destruct l.
  destruct (throttle_check (ch_throttle (al_charged l)) now) as [[]|retry] eqn:Ec; [by apply Hf|].
  by apply admin_leaves.
Qed.

(** A wrong guess is charged. *)
Lemma admin_charges {A} now l (a : A) g :
  ledger_ok l → throttle_check (ch_throttle (al_charged l)) now = Ok tt → admin_discipline None (g a) →
  holding l (prog_bind (do! Do (InLedger (LedgerThrottle (RecordFailure now))) in leave a) g).
Proof.
  intros Hl Hc Hg. cbn [prog_bind]. apply admin_does; [done|]. intros r l' [-> ->]. split; [done|].
  apply admin_leaves; [|done]. apply charge_ok; [done|]. by apply charged_failure; [apply Hl|].
Qed.

(** A device that showed what it takes is unlocked. *)
Lemma admin_grants device g l shown (a : result N UnlockRefusal) f :
  ledger_ok l → last (al_events l) = Some shown → shows device (gr_card_id g) shown → admin_discipline None (f a) →
  holding l (prog_bind (
    do! Do (InLedger (LedgerThrottle RecordSuccess)) in
    do! Do (InLedger (InsertGrant device g)) in
    leave a) f).
Proof.
  intros Hl Hlast Hs Hf. cbn [prog_bind]. apply admin_does; [done|]. intros r l' [-> ->]. split; [done|].
  assert (ledger_ok (with_charged uncharged l)) as Hl' by (apply charge_ok; [done|apply uncharged_ok]).
  apply admin_does; [exact Hl'|]. intros r' l'' [-> ->]. split; [done|]. apply admin_leaves; [|done].
  apply event_ok; [exact Hl'|by exists shown|done].
Qed.

(** *** The methods *)

Lemma unlock_disciplined device typed now : admin_discipline None (served (unlock device typed now)).
Proof.
  unfold unlock. destruct (parse_password typed) as [password|e]; [|done]. apply admin_throttled; [done|].
  intros l Hl Hc. cbn [prog_bind]. apply admin_does; [done|].
  intros r l' [(id & -> & ->)|(Hr & Hl')].
  - assert (ledger_ok (log_event [EvCard password id] l)) as Hlog by by apply event_ok.
    split; [done|]. eapply admin_grants; [done|simpl; by rewrite last_snoc|done|done].
  - assert (ledger_ok l' ∧ al_charged l' = al_charged l) as [Hlog Hch].
    { destruct Hl' as [->| ->]; [done|]. by split; [apply quiet_ok|]. }
    split; [done|]. destruct r as [[id| |]|e]; [by destruct (Hr id)| | |]; [|by apply admin_leaves..].
    apply admin_charges; [done|by rewrite Hch|done].
Qed.

Lemma unlock_with_key_disciplined device key now : admin_discipline None (served (unlock_with_key device key now)).
Proof.
  apply admin_throttled; [done|]. intros l Hl Hc. cbn [prog_bind]. apply admin_does; [done|].
  intros r l' [[-> ->]|(Hr & Hl')].
  - assert (ledger_ok (log_event [EvKey device key] l)) as Hlog by by apply event_ok.
    split; [done|]. cbn [prog_bind]. apply admin_does; [done|]. intros current l' ->. split; [done|].
    destruct current as [card_id|e]; [|by apply admin_leaves].
    eapply admin_grants; [done|simpl; by rewrite last_snoc|done|done].
  - assert (ledger_ok l' ∧ al_charged l' = al_charged l) as [Hlog Hch].
    { destruct Hl' as [->| ->]; [done|]. by split; [apply quiet_ok|]. }
    split; [done|]. destruct r as [[|]|e]; [done| |by apply admin_leaves].
    apply admin_charges; [done|by rewrite Hch|done].
Qed.

Lemma admit_grant_ok device now current l : ledger_ok l → ledger_ok (admit_grant device now current l).2.
Proof.
  intros Hl. unfold admit_grant. destruct (al_grants l !! device) as [g|] eqn:Eg; [|done].
  destruct (negb _) eqn:Ec; [by apply event_ok|]. destruct (N.leb_spec idle (since now (gr_last_used g))); [by apply event_ok|].
  apply event_ok; [done| |].
  - exists g. destruct Hl as [<- _]. split; [done|]. split; [|done].
    apply negb_false_iff, bool_decide_eq_true in Ec. done.
  - simpl. apply map_eq. intros d. destruct (decide (device = d)) as [<-|].
    + by rewrite lookup_insert_eq, lookup_alter_eq, Eg.
    + by rewrite lookup_insert_ne, lookup_alter_ne.
Qed.

Lemma admit_device_disciplined {A} device now (f : result N Locked → Admin A) g :
  (∀ r, admin_discipline None (prog_bind (f r) g)) → admin_discipline None (prog_bind (prog_bind (admit_device device now) f) g).
Proof.
  intros Hf. unfold admit_device. cbn [prog_bind]. apply admin_asks; [done|]. intros [current|e]; [|apply Hf].
  cbn [prog_bind]. apply admin_takes. intros l Hl. apply admin_does; [done|]. intros r l' [-> ->]. split; [done|].
  cbn [prog_bind leave]. apply in_release; [done|done| |apply Hf]. intros _ _. by apply admit_grant_ok.
Qed.

Lemma lock_disciplined {A} device (f : bool → Admin A) g :
  (∀ r, admin_discipline None (prog_bind (f r) g)) → admin_discipline None (prog_bind (prog_bind (lock device) f) g).
Proof.
  intros Hf. unfold lock. cbn [prog_bind]. apply admin_takes. intros l Hl. apply admin_does; [done|].
  intros r l' [-> ->]. split; [done|]. cbn [prog_bind leave]. apply in_release; [done|done| |apply Hf].
  intros _ _. by apply event_ok.
Qed.

Lemma admin_starts_disciplined p : admin_starts p → admin_discipline None p.
Proof.
  intros [device typed now|device key now|device now|device|device|device now|device|device now].
  - apply unlock_disciplined.
  - apply unlock_with_key_disciplined.
  - apply admit_device_disciplined. intros [left|e]; [|done]. by apply admin_asks.
  - by apply admin_asks.
  - apply lock_disciplined. intros r. by apply admin_asks.
  - unfold served, admit_device. cbn [prog_bind]. apply admin_asks; [done|]. intros [current|e]; [|done].
    cbn [prog_bind]. apply admin_takes. intros l Hl. apply admin_does; [done|]. intros r l' [-> ->]. split; [done|].
    apply admin_leaves; [by apply admit_grant_ok|done].
  - unfold served, lock. cbn [prog_bind]. apply admin_takes. intros l Hl. apply admin_does; [done|].
    intros r l' [-> ->]. split; [done|]. apply admin_leaves; [by apply event_ok|done].
  - unfold served, status. cbn [prog_bind]. apply admin_asks; [done|]. intros [current|e]; [|done].
    cbn [prog_bind]. apply admin_asks; [done|]. intros [held|e]; [|done]. cbn [prog_bind]. apply admin_takes.
    intros l Hl. apply admin_does; [done|]. intros r l' [-> ->]. split; [done|]. by apply admin_leaves.
Qed.

Lemma ledger_always e s : star admin_step (locked_pond e) s → ledger_ok (tn_state s).
Proof.
  apply (turns_always _ _ _ _ (λ l _, ledger_ok l) (λ l _, ledger_ok l) (λ _ _, True)); try done.
  - apply admin_starts_disciplined.
  - split; [done|]. split; [|apply uncharged_ok]. by intros pre ev post ?%app_cons_not_nil.
Qed.

(** What the grants that stand say of the events. *)
Definition last_use (device : text) (t : Z) (events : list AdminEvent) : Z :=
  foldl (λ t ev, match ev with
                 | EvAdmitted d now _ => if decide (d = device) then now else t
                 | _ => t
                 end) t events.

Lemma stands_since events device g :
  stands events !! device = Some g → ∃ pre g0 post,
    events = pre ++ EvGranted device g0 :: post ∧ gr_card_id g0 = gr_card_id g ∧
    EvEnded device ∉ post ∧ gr_last_used g = last_use device (gr_last_used g0) post.
Proof.
  revert g. induction events as [|ev events IH] using rev_ind; intros g; [done|]. rewrite stands_snoc.
  assert (stands events !! device = Some g → ev ≠ EvEnded device →
    (∀ now c, ev ≠ EvAdmitted device now c) → ∃ pre g0 post,
    events ++ [ev] = pre ++ EvGranted device g0 :: post ∧ gr_card_id g0 = gr_card_id g ∧
    EvEnded device ∉ post ∧ gr_last_used g = last_use device (gr_last_used g0) post) as Hskip.
  { intros Hg Hne Ha. destruct (IH g Hg) as (pre & g0 & post & -> & Hc & Hn & Hu).
    exists pre, g0, (post ++ [ev]). split; [by rewrite <-app_assoc|]. split; [done|]. split; [set_solver|].
    unfold last_use. rewrite foldl_app. simpl. destruct ev; try done.
    destruct (decide _) as [->|]; [by destruct (Ha now current)|done]. }
  destruct ev as [pw id|d k|d g'|d now c|d]; simpl.
  - intros Hg. by apply Hskip.
  - intros Hg. by apply Hskip.
  - intros [[-> ->]|[Hne Hg]]%lookup_insert_Some.
    + exists events, g, []. split; [done|]. split; [done|]. split; [apply not_elem_of_nil|done].
    + by apply Hskip.
  - destruct (decide (d = device)) as [->|Hne].
    + rewrite lookup_alter_eq. intros (g' & Hg & ->)%fmap_Some.
      destruct (IH g' Hg) as (pre & g0 & post & -> & Hc & Hn & Hu). exists pre, g0, (post ++ [EvAdmitted device now c]).
      split; [by rewrite <-app_assoc|]. split; [done|]. split; [set_solver|].
      unfold last_use. rewrite foldl_app. simpl. by rewrite decide_True.
    + rewrite lookup_alter_ne by done. intros Hg. apply Hskip; [done|done|]. intros n c' [= -> _ _]. done.
  - intros [Hne Hg]%lookup_delete_Some. apply Hskip; [done|congruence|done].
Qed.

(** C21: Whatever requests run beside each other, are dropped, or meet a card or keys changed from
    the command line, an admin request is admitted only of a device that unlocked itself before,
    by showing the card or its own key, under the very card in force when the request was looked
    at; that has not been locked, expired or found under another card since; and whose last use
    lies within the idle window. Wrong guesses are spaced as the throttle asks. *)
Theorem admission_is_earned e s :
  star admin_step (locked_pond e) s →
  (∀ before device now current after,
     al_events (tn_state s) = before ++ EvAdmitted device now current :: after →
     ∃ pre shown g post, before = pre ++ shown :: EvGranted device g :: post ∧
       shows device current shown ∧ gr_card_id g = current ∧ EvEnded device ∉ post ∧
       since now (last_use device (gr_last_used g) post) < idle) ∧
  spaced (ch_guesses (al_charged (tn_state s))).
Proof.
  intros Hs. destruct (ledger_always e s Hs) as (_ & Ha & Hc & _). split; [|exact Hc].
  intros before device now current after Hev.
  destruct (Ha _ _ _ Hev) as (g & Hg & <- & Hidle).
  destruct (stands_since before device g Hg) as (pre & g0 & post & -> & Hcard & Hn & Hu).
  destruct (Ha pre (EvGranted device g0) (post ++ EvAdmitted device now (gr_card_id g) :: after)) as (shown & Hl & Hshows).
  { by rewrite Hev, <-app_assoc. }
  apply last_Some in Hl as [pre' ->]. exists pre', shown, g0, post.
  split; [by rewrite <-app_assoc|]. split; [by rewrite <-Hcard|]. split; [done|]. split; [done|]. by rewrite <-Hu.
Qed.

(** ** Replacing the card does not lock out a phone that asks while it is replaced *)

Lemma key_unlocks device key now card_id l e :
  throttle_check (ch_throttle (al_charged l)) now = Ok tt → as_keys e !! device = Some (digest key) →
  (fst <$> as_card e) = Some card_id →
  ∃ l', alone admin_call false l e (served (unlock_with_key device key now)) l' e ∧
    al_charged l' = uncharged ∧
    al_grants l' = <[device := {| gr_card_id := Some card_id; gr_last_used := now |}]> (al_grants l) ∧
    al_events l' = al_events l ++
      [EvKey device key; EvGranted device {| gr_card_id := Some card_id; gr_last_used := now |}].
Proof.
  intros Hc Hk Hcard. eexists. split.
  - apply al_take. eapply al_do; [apply ac_ledger|]. simpl. rewrite Hc.
    eapply al_do; [apply ac_key|]. unfold check_key. rewrite bool_decide_eq_true_2 by done.
    eapply al_do; [apply ac_current|]. simpl. rewrite Hcard.
    eapply al_do; [apply ac_ledger|]. eapply al_do; [apply ac_ledger|]. apply al_release, al_ret.
  - simpl. split; [done|]. split; [done|]. by rewrite <-app_assoc.
Qed.

Lemma unlocked_enrolls device new_key now now' card_id l e :
  al_grants l !! device = Some {| gr_card_id := Some card_id; gr_last_used := now |} →
  (fst <$> as_card e) = Some card_id → since now' now < idle →
  ∃ l', alone admin_call false l e (served (enroll device now')) l'
          (with_keys (<[device := digest new_key]> (as_keys e)) e) ∧
    al_grants l' !! device = Some {| gr_card_id := Some card_id; gr_last_used := now' |} ∧
    al_events l' = al_events l ++ [EvAdmitted device now' (Some card_id)].
Proof.
  intros Hg Hcard Hi. eexists. split.
  - eapply al_do; [apply ac_current|]. simpl. rewrite Hcard. apply al_take.
    eapply al_do; [apply ac_ledger|]. simpl. unfold admit_grant. rewrite Hg. simpl.
    rewrite bool_decide_eq_true_2 by done. simpl. rewrite (proj2 (N.leb_gt _ _)) by done. simpl. apply al_release.
    eapply al_do; [apply (ac_issued device new_key)|]. apply al_ret.
  - simpl. split; [by rewrite lookup_insert_eq|done].
Qed.

(** Replacing the admin card is to lock every phone and revoke every key, but the command
    writes the new card before it revokes the keys: a phone that unlocks with its key in between
    is unlocked under the new card, still is when every key has been revoked, and may then have a
    new key issued, nobody having shown the new card. *)
Theorem rotation_keeps_old_key_in device key new_key card_id verifier card_id' verifier' now now' :
  since now' now < idle →
  ∃ s, star admin_step
      (locked_pond {| as_card := Some (card_id, verifier); as_keys := {[device := digest key]}; as_rotating := false |}) s ∧
    tn_store s = {| as_card := Some (card_id', verifier'); as_keys := {[device := digest new_key]}; as_rotating := false |} ∧
    al_grants (tn_state s) !! device = Some {| gr_card_id := Some card_id'; gr_last_used := now' |} ∧
    ∀ password id, EvCard password id ∉ al_events (tn_state s).
Proof.
  intros Hi. pose (mid := {| as_card := Some (card_id', verifier'); as_keys := {[device := digest key]}; as_rotating := true |}).
  pose (after := {| as_card := Some (card_id', verifier'); as_keys := ∅; as_rotating := false |}).
  destruct (key_unlocks device key now card_id' new_ledger mid) as (l & Hl & _ & Hg & Hev); [done|by apply lookup_singleton_eq|done|].
  destruct (unlocked_enrolls device new_key now now' card_id' l after) as (l' & Hl' & Hg' & Hev').
  { by rewrite Hg, lookup_insert_eq. }
  { done. }
  { done. }
  eexists {| tn_held := None; tn_state := l'; tn_store := _; tn_tasks := _ |}.
  split; [|split; [|split; [exact Hg'|]]].
  - eapply star_step; [apply tn_others, (ao_rotated card_id' verifier')|].
    eapply star_trans; [eapply runs_alone; [constructor|exact Hl]|].
    eapply star_step; [apply tn_others, ao_revoked_all; done|].
    eapply runs_alone; [|exact Hl']. constructor.
  - done.
  - intros password id. simpl. rewrite Hev', Hev. set_solver.
Qed.
End elevation.

(** ** Witnesses: a phone with its own key, and the card of the tests *)

Definition same_text (verifier password : text) : bool := bool_decide (verifier = password).
Definition as_is (key : text) : text := key.
Definition phone : text := lit "phone".
Definition phone_key : text := lit "k1".
Definition one_phone : AdminStore :=
  {| as_card := Some (lit "card-1", lit "0123AJPVZYXW9876"); as_keys := {[phone := phone_key]}; as_rotating := false |}.

Lemma admin_password_is_canonical_witness :
  parse_password (lit " o123 AJPV zyxw 9876 ") = Ok (lit "0123AJPVZYXW9876") ∧
  length (lit "0123AJPVZYXW9876") = ADMIN_PASSWORD_LEN ∧
  parse_password (grouped (lit "0123AJPVZYXW9876")) = Ok (lit "0123AJPVZYXW9876").
Proof.
  assert (parse_password (lit " o123 AJPV zyxw 9876 ") = Ok (lit "0123AJPVZYXW9876")) as Hp by (vm_compute; reflexivity).
  destruct admin_password_is_canonical as (Ht & _ & Hr). pose proof (Ht _ _ Hp) as Hc.
  split; [exact Hp|]. split; [apply Hc|]. apply (Hr _ Hc).
Defined.

(** The phone unlocks with its key and has a new one issued. *)
Lemma phone_enrolls : ∃ l e,
  star (turn_step (admin_call ADMIN_IDLE same_text as_is) (@admin_awaited) (admin_starts ADMIN_IDLE) admin_outside)
    (locked_pond one_phone) {| tn_held := None; tn_state := l; tn_store := e; tn_tasks := [Ret tt; Ret tt] |} ∧
  al_events l = [EvKey phone phone_key; EvGranted phone {| gr_card_id := Some (lit "card-1"); gr_last_used := 0 |};
                 EvAdmitted phone 60 (Some (lit "card-1"))].
Proof.
  destruct (key_unlocks ADMIN_IDLE same_text as_is phone phone_key 0 (lit "card-1") new_ledger one_phone)
    as (l & Hl & _ & Hg & Hev); [reflexivity..|].
  destruct (unlocked_enrolls ADMIN_IDLE same_text as_is phone (lit "k2") 0 60 (lit "card-1") l one_phone) as (l' & Hl' & _ & Hev').
  { by rewrite Hg, lookup_insert_eq. }
  { reflexivity. }
  { vm_compute. reflexivity. }
  eexists l', _. split.
  - eapply star_trans; [eapply (runs_alone _ _ _ _ []); [constructor|exact Hl]|].
    eapply (runs_alone _ _ _ _ [Ret tt]); [constructor|exact Hl'].
  - rewrite Hev', Hev. reflexivity.
Qed.

Lemma admission_is_earned_witness : ∃ l shown g,
  al_events l = [shown; EvGranted phone g; EvAdmitted phone 60 (Some (lit "card-1"))] ∧
  (∃ pre shown' g' post, [shown; EvGranted phone g] = pre ++ shown' :: EvGranted phone g' :: post ∧
     shows phone (Some (lit "card-1")) shown') ∧
  spaced (ch_guesses (al_charged l)).
Proof.
  destruct phone_enrolls as (l & e & Hs & Hev). do 3 eexists. split; [exact Hev|].
  destruct (admission_is_earned ADMIN_IDLE same_text as_is one_phone _ Hs) as [Hearned Hspaced].
  split; [|exact Hspaced].
  destruct (Hearned [EvKey phone phone_key; EvGranted phone {| gr_card_id := Some (lit "card-1"); gr_last_used := 0 |}]
    phone 60%Z (Some (lit "card-1")) [] Hev) as (pre & shown & g & post & Heq & Hsh & _).
  exists pre, shown, g, post. split; [exact Heq|exact Hsh].
Defined.

Lemma rotation_keeps_old_key_in_witness : ∃ s : Turns (C := AdminCall) (L := AdminLedger) (E := AdminStore),
  as_keys (tn_store s) = {[phone := lit "k2"]} ∧
  al_grants (tn_state s) !! phone = Some {| gr_card_id := Some (lit "card-2"); gr_last_used := 60 |}.
Proof.
  destruct (rotation_keeps_old_key_in ADMIN_IDLE same_text as_is phone phone_key (lit "k2") (lit "card-1") (lit "v1")
    (lit "card-2") (lit "v2") 0 60) as (s & _ & Hstore & Hg & _); [vm_compute; reflexivity|].
  exists s. split; [rewrite Hstore; reflexivity|exact Hg].
Defined.
