(* ===== verification/Trimmer.v ===== *)
(** * Trimmer: what of a conversation is kept when its window fills

    [crates/pond-core/src/models/services/context/turn_trimmer.rs] ([trim_history],
    [plan_replay]), the cut of one long text [truncate_head_tail] and the profile's budgets of
    context_budget.rs, and the plan of replayed images of image_history.rs.

    A text is a list of scalar values and every limit is in bytes of UTF-8. The counter of
    tokens is a port, so it is a parameter: nothing is assumed of it. Sums of counts do not
    wrap (a history of [2 ^ 64] tokens is not held in memory). [compaction_threshold], a float
    no function here reads, is left out of the profile. The loop that drops turns carries the
    number of messages as fuel ([drop_turns_settles] proves it enough). *)
From S2P Require Import Prelude Text.
From Stdlib Require Import NArith Lia.
Local Open Scope N_scope.

(** ** Cutting one text: [truncate_head_tail] *)

(** [&text[..n]] and [&text[n..]] at a boundary ([truncate_head_tail_keeps_ends] shows that
    every slice taken is at one). *)
Definition slice_to (t : text) (n : N) : text := default [] (byte_take t n).
Definition slice_from (t : text) (n : N) : text := default [] (byte_drop t n).

Definition truncated_marker (dropped : N) : text :=
  10 :: lit "[... truncated " ++ dec dropped ++ lit " chars ...]".

Definition truncate_head_tail (t : text) (max_chars : N) : option text :=
  let len := byte_len t in
  if len <=? max_chars then None else
  if max_chars <? 64 then
    let end_ := N.of_nat (walk_back t (N.to_nat (N.min max_chars len))) in
    Some (slice_to t end_ ++ truncated_marker (len - end_))
  else
  let head_len := max_chars * 3 / 5 in
  let tail_len := max_chars - head_len in
  let head_end := N.of_nat (walk_back t (N.to_nat head_len)) in
  let tail_start := walk_on t (len - tail_len) (N.to_nat (len - (len - tail_len))) in
  if tail_start <=? head_end
  then Some (slice_to t head_end ++ truncated_marker (len - head_end))
  else Some (slice_to t head_end ++ truncated_marker (tail_start - head_end) ++
             10 :: slice_from t tail_start).

Definition TOOL_RESULT_MAX_BYTES : N := 1500.
Definition AGED_TOOL_RESULT_MAX_BYTES : N := TOOL_RESULT_MAX_BYTES / 4.
Definition AGED_FIXED_POINT_BYTES : N := AGED_TOOL_RESULT_MAX_BYTES + 64.

(** ** The budgets *)

Record CompactionProfile : Type := mk_profile {
  memory_token_budget : N;
  max_memory_fragments : N;
  system_prompt_budget : N;
  history_token_budget : N;
  output_reserve_tokens : N;
  context_window_tokens : N;
  prompt_window_tokens : N
}.

Definition usable_prompt_tokens (p : CompactionProfile) : N :=
  p.(context_window_tokens) - p.(output_reserve_tokens).
Definition usable_history_tokens (p : CompactionProfile) : N :=
  usable_prompt_tokens p - (p.(system_prompt_budget) + p.(memory_token_budget)).

Definition MIN_HISTORY_TOKENS : N := 64.

Record HistoryBudget : Type := mk_budget { budget_tokens : N; overshoot_corrected : bool }.

Definition effective_history_budget (p : CompactionProfile)
    (last_real_prompt_tokens : option N) : HistoryBudget :=
  let usable := usable_prompt_tokens p in
  let tokens :=
    if 0 <? usable
    then N.max (N.min p.(history_token_budget) (usable_history_tokens p)) MIN_HISTORY_TOKENS
    else p.(history_token_budget) in
  match last_real_prompt_tokens with
  | Some real =>
      if (0 <? usable) && (usable <? real)
      then mk_budget (N.max (tokens - (real - usable)) MIN_HISTORY_TOKENS) true
      else mk_budget tokens false
  | None => mk_budget tokens false
  end.

(** [verbatim_horizon_from_days], in seconds. *)
Definition verbatim_horizon_from_days (days : N) : option N :=
  if days =? 0 then None else Some (days * 24 * 60 * 60).

(** ** Messages *)

Inductive TrimRole : Type := User | Assistant | ToolResult.
#[export] Instance TrimRole_eq_dec : EqDecision TrimRole.
Proof. solve_decision. Defined.

Record TrimMessage : Type := mk_msg {
  tm_index : N;
  tm_role : TrimRole;
  tm_text : text;
  is_summary : bool;
  age_secs : option N
}.
#[export] Instance TrimMessage_eq_dec : EqDecision TrimMessage.
Proof. solve_decision. Defined.

Definition set_text (m : TrimMessage) (t : text) : TrimMessage :=
  mk_msg m.(tm_index) m.(tm_role) t m.(is_summary) m.(age_secs).

Inductive CurrentTurn : Type := NotYetAppended | AlreadyAppended.
Inductive CachePosture : Type := Warm | Cold.

Record TrimOutcome : Type := mk_outcome {
  out_messages : list TrimMessage;
  dropped_turns : nat;
  estimated_tokens : N;
  aged_truncations : nat;
  out_changed : bool;
  cold_recompaction : bool
}.

(** [m.role == TrimRole::User && !m.is_summary]: what opens a turn. *)
Definition opens_turn (m : TrimMessage) : bool :=
  bool_decide (m.(tm_role) = User) && negb m.(is_summary).

(** [Cow::Owned] is [Some]. The patterns are ASCII, so an index of characters slices where
    the byte offset does. *)
Definition strip_system_context (t : text) : option text :=
  match find_sub (lit "<system-context>") t with
  | None => None
  | Some start =>
      match find_sub (lit "</system-context>") (drop start t) with
      | None => None
      | Some close =>
          let end_ := (start + close + length (lit "</system-context>"))%nat in
          Some (take start t ++ drop_while (N.eqb 10) (drop end_ t))
      end
  end.

(** [rposition]. *)
Fixpoint last_position {A} (p : A → bool) (l : list A) : option nat :=
  match l with
  | [] => None
  | a :: l =>
      match last_position p l with
      | Some i => Some (S i)
      | None => if p a then Some O else None
      end
  end.

Definition last_turn_start (msgs : list TrimMessage) : nat :=
  default O (last_position opens_turn msgs).

(** A loop over [iter_mut().enumerate()] that may replace a text, with how many it replaced. *)
Definition rewrite_texts (f : nat → TrimMessage → option text) (msgs : list TrimMessage)
    : list TrimMessage * nat :=
  (imap (λ i m, match f i m with Some t => set_text m t | None => m end) msgs,
   length (List.filter (λ o : option text, bool_decide (is_Some o)) (imap f msgs))).

(** Step 1. *)
Definition strip_stale (current_turn : CurrentTurn) (msgs : list TrimMessage)
    : list TrimMessage * nat :=
  let spare_last_user :=
    match current_turn with
    | AlreadyAppended => last_position opens_turn msgs
    | NotYetAppended => None
    end in
  rewrite_texts (λ i m,
    if opens_turn m && negb (bool_decide (Some i = spare_last_user))
    then strip_system_context m.(tm_text) else None) msgs.

(** Step 2. *)
Definition cut_tool_results (msgs : list TrimMessage) : list TrimMessage * nat :=
  rewrite_texts (λ _ m,
    if bool_decide (m.(tm_role) = ToolResult)
    then truncate_head_tail m.(tm_text) TOOL_RESULT_MAX_BYTES else None) msgs.

(** Step 3. *)
Definition summary_body (summary : text) : text :=
  lit "<conversation-summary>" ++ 10 :: summary ++ 10 :: lit "</conversation-summary>".

Definition splice_summary (rolling_summary : option text) (msgs : list TrimMessage)
    : list TrimMessage * bool :=
  match rolling_summary with
  | None => (msgs, false)
  | Some summary =>
      let body := summary_body summary in
      match position is_summary msgs with
      | Some i =>
          match msgs !! i with
          | Some existing =>
              if bool_decide (existing.(tm_text) = body) then (msgs, false)
              else (<[i := set_text existing body]> msgs, true)
          | None => (msgs, false)
          end
      | None => (mk_msg u64_max User body true (Some 0) :: msgs, true)
      end
  end.

Section trimming.
Context (count : text → N).

Definition PER_MESSAGE_TOKEN_OVERHEAD : N := 4.

Fixpoint estimate_tokens (msgs : list TrimMessage) : N :=
  match msgs with
  | [] => 0
  | m :: msgs => count m.(tm_text) + PER_MESSAGE_TOKEN_OVERHEAD + estimate_tokens msgs
  end.

(** Step 4: the messages, how many were cut, and whether only a cold cache allowed it. *)
Definition age_cut (horizon : N) (keep_verbatim_from i : nat) (m : TrimMessage) : option text :=
  if (keep_verbatim_from <=? i)%nat || negb (bool_decide (m.(tm_role) = ToolResult)) ||
     (byte_len m.(tm_text) <=? AGED_FIXED_POINT_BYTES) ||
     negb match m.(age_secs) with Some age => horizon <? age | None => false end
  then None
  else truncate_head_tail m.(tm_text) AGED_TOOL_RESULT_MAX_BYTES.

Definition cut_aged (verbatim_horizon : option N) (cache : CachePosture) (budget : N)
    (msgs : list TrimMessage) : list TrimMessage * nat * bool :=
  match verbatim_horizon with
  | None => (msgs, O, false)
  | Some horizon =>
      let over_budget := budget <? estimate_tokens msgs in
      if over_budget || match cache with Cold => true | Warm => false end
      then (rewrite_texts (age_cut horizon (last_turn_start msgs)) msgs, negb over_budget)
      else (msgs, O, false)
  end.

(** Step 5. *)
Definition first_real (msgs : list TrimMessage) : nat :=
  default O (position (λ m, negb m.(is_summary)) msgs).

(** [iter().enumerate().skip(k).find(p)], as a position in the whole list. *)
Definition turn_end (first keep_from : nat) (msgs : list TrimMessage) : nat :=
  match position opens_turn (drop (S first) msgs) with
  | Some i => (S first + i)%nat
  | None => keep_from
  end.

Fixpoint drop_turns (fuel : nat) (budget : N) (msgs : list TrimMessage) (dropped : nat)
    : list TrimMessage * nat :=
  match fuel with
  | O => (msgs, dropped)
  | S fuel =>
      if estimate_tokens msgs <=? budget then (msgs, dropped) else
      let keep_from := last_turn_start msgs in
      let first := first_real msgs in
      if (keep_from <=? first)%nat then (msgs, dropped) else
      drop_turns fuel budget
        (take first msgs ++ drop (turn_end first keep_from msgs) msgs) (S dropped)
  end.

(** Steps 1 to 4: the messages as they will be sent, and what was done to them. *)
Definition reshape (budget : N) (rolling_summary : option text) (current_turn : CurrentTurn)
    (verbatim_horizon : option N) (cache : CachePosture) (msgs : list TrimMessage)
    : list TrimMessage * (nat * nat * bool * nat * bool) :=
  let '(msgs, stripped) := strip_stale current_turn msgs in
  let '(msgs, cut) := cut_tool_results msgs in
  let '(msgs, spliced) := splice_summary rolling_summary msgs in
  let '(msgs, aged, cold) := cut_aged verbatim_horizon cache budget msgs in
  (msgs, (stripped, cut, spliced, aged, cold)).

Definition trim_history (msgs : list TrimMessage) (p : CompactionProfile)
    (rolling_summary : option text) (last_real_prompt_tokens : option N)
    (current_turn : CurrentTurn) (verbatim_horizon : option N) (cache : CachePosture)
    : TrimOutcome :=
  let b := effective_history_budget p last_real_prompt_tokens in
  let budget := b.(budget_tokens) in
  let '(msgs, (stripped, cut, spliced, aged, cold)) :=
    reshape budget rolling_summary current_turn verbatim_horizon cache msgs in
  let '(msgs, dropped) := drop_turns (S (length msgs)) budget msgs O in
  mk_outcome msgs dropped (estimate_tokens msgs) aged
    (b.(overshoot_corrected) || (0 <? stripped)%nat || (0 <? cut)%nat || spliced ||
     (0 <? aged)%nat || (0 <? dropped)%nat)
    (cold && (0 <? aged)%nat).

(** [while matches!(rows.last(), Some((User, _))) { rows.pop(); }]. *)
Definition pop_users (rows : list (TrimRole * text)) : list (TrimRole * text) :=
  reverse (drop_while (λ r, bool_decide (r.1 = User)) (reverse rows)).

Definition replay_rows (messages : list (TrimRole * text)) : list (TrimRole * text) :=
  pop_users (List.filter (λ r, negb (is_empty (trim r.2))) messages).

Definition replay_input (rows : list (TrimRole * text)) : list TrimMessage :=
  imap (λ i r, mk_msg (N.of_nat i) r.1 r.2 false None) rows.

Definition plan_replay (messages : list (TrimRole * text)) (p : CompactionProfile)
    (rolling_summary : option text) : list TrimMessage :=
  let rows := replay_rows messages in
  if is_empty rows then [] else
  (trim_history (replay_input rows) p rolling_summary None NotYetAppended None Cold).(out_messages).
End trimming.

(** ** Images of the history: image_history.rs *)

Definition MAX_HISTORY_REPLAY_IMAGES : N := 1.

(** The loop of [plan_image_replay] over the counts, newest first. *)
Fixpoint spend_images (newest_first : list N) (remaining : N) : list N :=
  match newest_first with
  | [] => []
  | count :: older =>
      if remaining =? 0 then 0 :: ((λ _, 0) <$> older) else
      let take := N.min count remaining in
      take :: spend_images older (remaining - take)
  end.

Definition plan_image_replay (image_counts : list N) (budget : N) : list N :=
  reverse (spend_images (reverse image_counts) budget).

Definition plan_history_images (image_counts : list N) : list N :=
  plan_image_replay image_counts MAX_HISTORY_REPLAY_IMAGES.

Definition dropped_image_count (image_counts plan : list N) : N :=
  foldr N.add 0 (zip_with N.sub image_counts plan).

Example strip_example :
  strip_system_context (lit "a<system-context>x</system-context>b") = Some (lit "ab").
Proof. reflexivity. Qed.
Example replay_example :
  tm_text <$> plan_replay byte_len [(User, lit "hi"); (Assistant, lit "yes"); (User, lit "and")]
    (mk_profile 200 3 1500 1200 0 3072 3072) None = [lit "hi"; lit "yes"].
Proof. vm_compute. reflexivity. Qed.
Example images_example : plan_image_replay [2; 0; 1] 2 = [1; 0; 1].
Proof. reflexivity. Qed.

(** ** Offsets: what the walks to a character boundary find *)

(** Two boundaries in order split a text in three. *)
Lemma boundary_split t n m : boundary t n → boundary t m → n ≤ m →
  ∃ a mid b, t = a ++ mid ++ b ∧ byte_len a = n ∧ byte_len mid = m - n ∧
    slice_to t n = a ∧ slice_from t m = b.
Proof.
  intros Hn Hm Hle. destruct (boundary_between t n m Hn Hm Hle) as (a & mid & b & -> & Ha & Hmid).
  exists a, mid, b. do 3 (split; [done|]). unfold slice_to, slice_from. split.
  - by rewrite <-Ha, byte_take_app.
  - replace m with (byte_len (a ++ mid)) by (rewrite byte_len_app; lia).
    by rewrite app_assoc, byte_drop_app.
Qed.

(** ** The cut of one text *)

Lemma byte_len_ascii t : Forall (λ c, c < 128) t → byte_len t = N.of_nat (length t).
Proof.
  induction 1 as [|c t Hc _ IH]; [done|]. simpl. unfold len_utf8.
  rewrite (proj2 (N.ltb_lt _ _)) by done. lia.
Qed.

Lemma byte_len_dec n : byte_len (dec n) = N.of_nat (length (dec n)).
Proof.
  apply byte_len_ascii. eapply Forall_impl; [apply dec_digits|]. intros c. unfold is_ascii_digit.
  intros [_ H]%andb_prop. apply N.leb_le in H. lia.
Qed.

Lemma truncated_marker_len n : n ≤ u64_max → 28 ≤ byte_len (truncated_marker n) ≤ 47.
Proof.
  intros Hn. unfold truncated_marker. cbn [byte_len]. rewrite !byte_len_app, byte_len_dec.
  change (len_utf8 10) with 1. change (byte_len (lit "[... truncated ")) with 15.
  change (byte_len (lit " chars ...]")) with 11.
  pose proof (dec_length_usize n Hn). pose proof (dec_nonempty n) as Hne.
  destruct (dec n); [done|]. simpl in *. lia.
Qed.

(** What a cut keeps of a text: both ends, whole characters, three fifths of the limit from
    the head and the rest from the tail, each short of it by less than a character. *)
Lemma truncate_head_tail_keeps_ends t max t' : 64 ≤ max → truncate_head_tail t max = Some t' →
  ∃ a mid b, t = a ++ mid ++ b ∧ t' = a ++ truncated_marker (byte_len mid) ++ 10 :: b ∧
    byte_len a ≤ max * 3 / 5 < byte_len a + 4 ∧
    byte_len b ≤ max - max * 3 / 5 < byte_len b + 4.
Proof.
  intros Hmax. unfold truncate_head_tail.
  destruct (N.leb_spec (byte_len t) max) as [|Hlen]; [done|].
  rewrite (proj2 (N.ltb_ge _ _)) by done.
  set (h := max * 3 / 5). assert (h ≤ max) by (unfold h; lia).
  destruct (walk_back_spec t (N.to_nat h)) as (Hb1 & Hle1 & Hmax1).
  set (e := N.of_nat (walk_back t (N.to_nat h))) in *. rewrite N2Nat.id in Hle1, Hmax1.
  edestruct (walk_on_spec t (byte_len t - (max - h))
    (N.to_nat (byte_len t - (byte_len t - (max - h))))) as (Hb2 & Hge2 & Hmin2); [lia|].
  set (s := walk_on _ _ _) in *. rewrite (proj2 (N.leb_gt s e)) by lia. intros [= <-].
  destruct (boundary_split t e s Hb1 Hb2 ltac:(lia)) as (a & mid & b & Ht & Ha & Hmid & -> & ->).
  exists a, mid, b. split; [done|]. split; [by rewrite Hmid|].
  destruct (boundary_near t h ltac:(lia)) as [(x & Hx & Hxh) _].
  destruct (boundary_near t (byte_len t - (max - h)) ltac:(lia)) as [_ (y & Hy & Hyh)].
  pose proof (Hmax1 x Hx ltac:(lia)). pose proof (Hmin2 y Hy ltac:(lia)).
  assert (byte_len t = byte_len a + byte_len mid + byte_len b) by (rewrite Ht, !byte_len_app; lia).
  lia.
Qed.

Lemma truncate_head_tail_None t max : truncate_head_tail t max = None ↔ byte_len t ≤ max.
Proof.
  unfold truncate_head_tail. destruct (N.leb_spec (byte_len t) max); [done|].
  split; [|lia]. repeat case_match; done.
Qed.

Lemma truncate_head_tail_Some t max : max < byte_len t → ∃ t', truncate_head_tail t max = Some t'.
Proof.
  intros H. destruct (truncate_head_tail t max) eqn:E; [by eexists|].
  apply truncate_head_tail_None in E. lia.
Qed.

(** The length of what is left: the limit, less two characters at most, and the marker. *)
Lemma truncate_head_tail_len t max t' : 64 ≤ max → byte_len t ≤ u64_max →
  truncate_head_tail t max = Some t' → max + 23 ≤ byte_len t' ≤ max + 48.
Proof.
  intros Hmax Ht Hcut.
  destruct (truncate_head_tail_keeps_ends t max t' Hmax Hcut) as (a & mid & b & -> & -> & Ha & Hb).
  rewrite !byte_len_app in Ht.
  pose proof (truncated_marker_len (byte_len mid) ltac:(lia)).
  rewrite !byte_len_app. cbn [byte_len]. change (len_utf8 10) with 1. lia.
Qed.

(** ** Loops that rewrite texts *)

(** All of a message but its text. *)
Definition meta (m : TrimMessage) : N * TrimRole * bool * option N :=
  (m.(tm_index), m.(tm_role), m.(is_summary), m.(age_secs)).

Lemma meta_set_text m t : meta (set_text m t) = meta m.
Proof. done. Qed.
Lemma meta_role m m' : meta m = meta m' → tm_role m = tm_role m' ∧ is_summary m = is_summary m'.
Proof. by intros [=]. Qed.
Lemma set_text_same m : set_text m (tm_text m) = m.
Proof. by destruct m. Qed.

Lemma rewrite_texts_lookup f msgs i :
  (rewrite_texts f msgs).1 !! i =
  (λ m, match f i m with Some t => set_text m t | None => m end) <$> msgs !! i.
Proof. simpl. apply list_lookup_imap. Qed.

Lemma rewrite_texts_length f msgs : length (rewrite_texts f msgs).1 = length msgs.
Proof. simpl. apply length_imap. Qed.

Lemma rewrite_texts_meta f msgs : meta <$> (rewrite_texts f msgs).1 = meta <$> msgs.
Proof.
  apply list_eq. intros i. rewrite !list_lookup_fmap, rewrite_texts_lookup.
  destruct (msgs !! i) as [m|]; [|done]. simpl. by destruct (f i m).
Qed.

(** The count says whether anything was rewritten. *)
Lemma rewrite_texts_none f msgs : (rewrite_texts f msgs).2 = O ↔
  ∀ i m, msgs !! i = Some m → f i m = None.
Proof.
  simpl. rewrite length_zero_iff_nil. split.
  - intros H i m Hm. destruct (f i m) as [t|] eqn:Hf; [|done]. exfalso.
    assert (Some t ∈ List.filter (λ o : option text, bool_decide (is_Some o)) (imap f msgs)) as Hin.
    { apply elem_of_filter_bool. split; [|by rewrite bool_decide_eq_true].
      apply list_elem_of_lookup. exists i. by rewrite list_lookup_imap, Hm, <-Hf. }
    rewrite H in Hin. by apply elem_of_nil in Hin.
  - intros H. destruct (List.filter _ _) as [|o l] eqn:E; [done|]. exfalso.
    assert (o ∈ List.filter (λ o : option text, bool_decide (is_Some o)) (imap f msgs)) as Hin
      by (rewrite E; left).
    apply elem_of_filter_bool in Hin as [(i & Hi)%list_elem_of_lookup Ho].
    rewrite list_lookup_imap in Hi. apply fmap_Some in Hi as (m & Hm & ->).
    rewrite (H i m Hm) in Ho. done.
Qed.

Lemma rewrite_texts_untouched f msgs : (rewrite_texts f msgs).2 = O → (rewrite_texts f msgs).1 = msgs.
Proof.
  intros H. apply list_eq. intros i. rewrite rewrite_texts_lookup.
  destruct (msgs !! i) as [m|] eqn:Hm; [|done]. simpl.
  by rewrite (proj1 (rewrite_texts_none f msgs) H i m Hm).
Qed.

(** ** Positions *)

Lemma lookup_app_at {A} (l k : list A) i : (l ++ k) !! (length l + i)%nat = k !! i.
Proof. rewrite lookup_app_r by lia. f_equal. lia. Qed.

Lemma last_position_None {A} (p : A → bool) l :
  last_position p l = None ↔ ∀ a, a ∈ l → p a = false.
Proof.
  induction l as [|a l IH]; simpl; [split; [by intros _ a []%not_elem_of_nil|done]|].
  destruct (last_position p l) as [i|] eqn:E.
  - split; [done|]. intros H. destruct IH as [_ IH]. discriminate IH. intros b Hb. apply H. by right.
  - destruct IH as [IH _]. specialize (IH eq_refl). destruct (p a) eqn:Hp.
    + split; [done|]. intros H. rewrite (H a ltac:(left)) in Hp. done.
    + split; [|done]. intros _ b [->|Hb]%elem_of_cons; [done|by apply IH].
Qed.

Lemma last_position_Some {A} (p : A → bool) l i : last_position p l = Some i →
  (∃ a, l !! i = Some a ∧ p a = true) ∧ ∀ j b, (i < j)%nat → l !! j = Some b → p b = false.
Proof.
  revert i. induction l as [|a l IH]; intros i; simpl; [done|].
  destruct (last_position p l) as [k|] eqn:E.
  - intros [= <-]. destruct (IH k eq_refl) as [H1 H2]. split; [done|].
    intros [|j] b Hj; [lia|]. apply H2. lia.
  - destruct (p a) eqn:Hp; [|done]. intros [= <-]. split; [by exists a|].
    intros [|j] b Hj; [lia|]. intros Hb. apply (proj1 (last_position_None p l) E).
    by eapply list_elem_of_lookup_2.
Qed.

Lemma opens_turn_true m : opens_turn m = true ↔ m.(tm_role) = User ∧ m.(is_summary) = false.
Proof. unfold opens_turn. by rewrite andb_true_iff, bool_decide_eq_true, negb_true_iff. Qed.

Lemma summary_opens_none m : is_summary m = true → opens_turn m = false.
Proof. intros H. unfold opens_turn. rewrite H. by rewrite andb_false_r. Qed.

(** ** Turns *)

(** The turns of a history: a turn opens at a user's message; what precedes the first one is
    a turn of its own. *)
Fixpoint turns (l : list TrimMessage) : list (list TrimMessage) :=
  match l with
  | [] => []
  | m :: l =>
      match turns l with
      | t :: ts => if default false (opens_turn <$> head l) then [m] :: t :: ts else (m :: t) :: ts
      | [] => [[m]]
      end
  end.

Lemma turns_nil_inv l : turns l = [] → l = [].
Proof. destruct l as [|m l]; [done|]. simpl. destruct (turns l); [done|]. by destruct (default _ _). Qed.

Lemma turns_cons m l : turns (m :: l) =
  match position opens_turn l with
  | Some i => (m :: take i l) :: turns (drop i l)
  | None => [m :: l]
  end.
Proof.
  revert m. induction l as [|n l IH]; intros m; [done|].
  change (turns (m :: n :: l)) with
    (match turns (n :: l) with
     | t :: ts => if opens_turn n then [m] :: t :: ts else (m :: t) :: ts
     | [] => [[m]] end).
  cbn [position]. destruct (opens_turn n) eqn:Hn.
  - destruct (turns (n :: l)) as [|t ts] eqn:E; [by apply turns_nil_inv in E|].
    cbn [take drop]. by rewrite E.
  - rewrite IH. by destruct (position opens_turn l).
Qed.

Lemma concat_turns l : concat (turns l) = l.
Proof.
  induction l as [|m l IH]; [done|]. simpl. destruct (turns l) as [|t ts] eqn:E.
  - by apply turns_nil_inv in E as ->.
  - destruct (default _ _); simpl in *; by rewrite IH.
Qed.

Lemma turns_drop l i m r : position opens_turn l = Some i → drop i l = m :: r → opens_turn m = true.
Proof.
  intros [(a & Ha & Hp) _]%position_Some Hd. assert (drop i l !! 0%nat = Some m) as Hm by by rewrite Hd.
  rewrite lookup_drop, Nat.add_0_r in Hm. congruence.
Qed.

(** Each turn but the first opens with a user's message, and holds no other. *)
Lemma turns_open l ts t : turns l = ts → t ∈ tail ts →
  ∃ m r, t = m :: r ∧ opens_turn m = true ∧ ∀ n, n ∈ r → opens_turn n = false.
Proof.
  intros <-. remember (length l) as n eqn:Hn. revert l t Hn.
  induction n as [n IH] using lt_wf_ind. intros [|m l] t Hn; [by intros ?%elem_of_nil|].
  rewrite turns_cons. destruct (position opens_turn l) as [i|] eqn:Hi; simpl; [|by intros ?%elem_of_nil].
  destruct (drop i l) as [|m' r] eqn:Hd; [by intros ?%elem_of_nil|].
  pose proof (turns_drop _ _ _ _ Hi Hd) as Hopen. intros Ht.
  assert (length (m' :: r) ≤ length l)%nat by (rewrite <-Hd, length_drop; lia).
  rewrite turns_cons in Ht. specialize (IH (length (m' :: r)) ltac:(simpl in *; lia) (m' :: r) t eq_refl).
  rewrite turns_cons in IH. destruct (position opens_turn r) as [j|] eqn:Hj.
  - apply elem_of_cons in Ht as [->|Ht]; [|by apply IH].
    exists m', (take j r). split; [done|]. split; [done|]. intros x (k & Hk)%list_elem_of_lookup.
    apply lookup_take_Some in Hk as [Hk Hlt]. apply position_Some in Hj as [_ Hj]. by eapply Hj.
  - apply elem_of_one in Ht as ->. exists m', r. split; [done|]. split; [done|].
    by apply position_None.
Qed.

(** ** The loop that drops turns *)

Section dropping.
Context (count : text → N).
Local Notation estimate := (estimate_tokens count).

Definition summaries_first (msgs : list TrimMessage) : Prop :=
  ∃ f body, msgs = f ++ body ∧ Forall (λ m, is_summary m = true) f ∧
    Forall (λ m, is_summary m = false) body.

Lemma first_real_at f m l : Forall (λ m, is_summary m = true) f → is_summary m = false →
  first_real (f ++ m :: l) = length f.
Proof.
  intros Hf Hm. unfold first_real. induction Hf as [|n f Hn _ IH]; simpl; [by rewrite Hm|].
  rewrite Hn. simpl. destruct (position _ (f ++ m :: l)) as [i|] eqn:E; simpl in *; [lia|].
  rewrite position_None in E. assert (negb (is_summary m) = false); [apply E; set_solver|].
  by rewrite Hm in *.
Qed.

(** Nothing is left to drop exactly when one turn is left. *)
Lemma nothing_to_drop f m l : Forall (λ m, is_summary m = true) f →
  (last_turn_start (f ++ m :: l) ≤ length f)%nat ↔ position opens_turn l = None.
Proof.
  intros Hf. unfold last_turn_start. rewrite position_None. split.
  - intros Hle n (k & Hk)%list_elem_of_lookup. destruct (opens_turn n) eqn:Hn; [|done]. exfalso.
    assert ((f ++ m :: l) !! (length f + S k)%nat = Some n) as Hat by by rewrite lookup_app_at.
    destruct (last_position opens_turn (f ++ m :: l)) as [i|] eqn:E; simpl in Hle.
    + apply last_position_Some in E as [_ E]. rewrite (E (length f + S k)%nat n ltac:(lia) Hat) in Hn.
      done.
    + rewrite last_position_None in E. rewrite (E n) in Hn; [done|]. by eapply list_elem_of_lookup_2.
  - intros Hl. destruct (last_position opens_turn (f ++ m :: l)) as [i|] eqn:E; simpl; [|lia].
    apply last_position_Some in E as [(a & Ha & Hp) _].
    destruct (decide (i ≤ length f)%nat) as [|Hgt]; [done|]. exfalso.
    replace i with (length f + S (i - length f - 1))%nat in Ha by lia. rewrite lookup_app_at in Ha.
    simpl in Ha. rewrite (Hl a) in Hp; [done|]. by eapply list_elem_of_lookup_2.
Qed.

(** What the loop does to summaries and the turns behind them: turns go from the oldest,
    as few as will do, and the last one never. *)
Lemma drop_turns_settles fuel budget f body d : Forall (λ m, is_summary m = true) f →
  Forall (λ m, is_summary m = false) body → (length body < fuel)%nat →
  ∃ k, let ts := turns body in
    drop_turns count fuel budget (f ++ body) d = (f ++ concat (drop k ts), (d + k)%nat) ∧
    (k = O ∨ k < length ts)%nat ∧
    (estimate (f ++ concat (drop k ts)) ≤ budget ∨ (length (drop k ts) ≤ 1)%nat) ∧
    ∀ j, (j < k)%nat → budget < estimate (f ++ concat (drop j ts)).
Proof.
  intros Hf. revert body d. induction fuel as [|fuel IH]; intros body d Hb Hfuel; [lia|].
  cbn [drop_turns]. destruct (N.leb_spec (estimate (f ++ body)) budget) as [Hle|Hgt].
  { exists O. cbn zeta. rewrite ?drop_0. rewrite concat_turns, Nat.add_0_r.
    split; [done|]. split; [by left|]. split; [by left|]. intros. lia. }
  destruct body as [|m l].
  { exists O. cbn zeta. rewrite ?drop_0. rewrite Nat.add_0_r. simpl. rewrite app_nil_r in *.
    assert ((last_turn_start f <=? first_real f)%nat = true) as ->.
    { apply Nat.leb_le. unfold last_turn_start.
      rewrite (proj2 (last_position_None opens_turn f)); [simpl; lia|].
      intros a Ha. rewrite Forall_forall in Hf. by apply summary_opens_none, Hf. }
    split; [done|]. split; [by left|]. split; [by right; lia|]. intros. lia. }
  apply Forall_cons in Hb as [Hm Hl]. rewrite (first_real_at f m l Hf Hm).
  destruct (Nat.leb_spec (last_turn_start (f ++ m :: l)) (length f)) as [Hlast|Hlast].
  { apply (nothing_to_drop f m l Hf) in Hlast. exists O. cbn zeta. rewrite ?drop_0.
    rewrite concat_turns, Nat.add_0_r. split; [done|]. split; [by left|].
    split; [|intros; lia]. right. rewrite turns_cons, Hlast. simpl. lia. }
  destruct (position opens_turn l) as [i|] eqn:Hi.
  2:{ apply (nothing_to_drop f m l Hf) in Hi. lia. }
  assert (turn_end (length f) (last_turn_start (f ++ m :: l)) (f ++ m :: l)
          = (S (length f) + i)%nat) as ->.
  { unfold turn_end. replace (drop (S (length f)) (f ++ m :: l)) with l; [by rewrite Hi|].
    rewrite <-Nat.add_1_r, drop_app_add'; [done|done]. }
  assert (take (length f) (f ++ m :: l) ++ drop (S (length f) + i) (f ++ m :: l)
          = f ++ drop i l) as ->.
  { rewrite take_app_length. f_equal.
    replace (S (length f) + i)%nat with (length f + S i)%nat by lia. by rewrite drop_app_add'. }
  assert (length (drop i l) < fuel)%nat as Hf' by (rewrite length_drop; simpl in Hfuel; lia).
  destruct (IH (drop i l) (S d) (Forall_drop _ _ _ Hl) Hf') as (k & -> & Hk & Hfit & Hmin).
  exists (S k). cbn zeta. rewrite turns_cons, Hi. cbn [drop length].
  split; [f_equal; lia|].
  assert (drop i l ≠ []) as Hne.
  { intros E. apply position_Some in Hi as [(a & Ha & _) _]. apply lookup_lt_Some in Ha.
    apply (f_equal length) in E. rewrite length_drop in E. simpl in E. lia. }
  assert (0 < length (turns (drop i l)))%nat.
  { destruct (turns (drop i l)) eqn:E; [by apply turns_nil_inv in E|simpl; lia]. }
  split; [right; lia|]. split; [done|].
  intros [|j] Hj; [|apply Hmin; lia]. cbn [drop]. cbn [concat].
  by rewrite concat_turns, <-app_comm_cons, take_drop.
Qed.
End dropping.

Lemma filter_all {A} (p : A → bool) l : (∀ a, a ∈ l → p a = true) → List.filter p l = l.
Proof.
  induction l as [|a l IH]; simpl; [done|]. intros H. rewrite (H a ltac:(left)), IH; [done|].
  intros b Hb. apply H. by right.
Qed.


Lemma drop_turns_dropped count fuel budget msgs d : (d ≤ (drop_turns count fuel budget msgs d).2)%nat.
Proof.
  revert msgs d. induction fuel as [|fuel IH]; intros msgs d; simpl; [lia|].
  repeat case_match; simpl; [lia|lia|]. etransitivity; [|apply IH]. lia.
Qed.

Lemma drop_turns_none count fuel budget msgs d :
  (drop_turns count fuel budget msgs d).2 = d → (drop_turns count fuel budget msgs d).1 = msgs.
Proof.
  destruct fuel as [|fuel]; simpl; [done|]. repeat case_match; [done|done|]. intros E.
  match type of E with snd (drop_turns _ _ _ ?l _) = _ =>
    pose proof (drop_turns_dropped count fuel budget l (S d)) end. lia.
Qed.

(** ** Steps 1 to 4 *)

(** Whether a summary is put in front, rather than one already there refreshed. *)
Definition summary_added (rolling_summary : option text) (msgs : list TrimMessage) : bool :=
  match rolling_summary, position is_summary msgs with
  | Some _, None => true
  | _, _ => false
  end.

Definition summary_meta : N * TrimRole * bool * option N := (u64_max, User, true, Some 0).

Lemma meta_summaries (msgs msgs' : list TrimMessage) : meta <$> msgs' = meta <$> msgs →
  is_summary <$> msgs' = is_summary <$> msgs.
Proof.
  intros H. apply (f_equal (fmap (λ q : N * TrimRole * bool * option N, q.1.2))) in H.
  by rewrite <-!list_fmap_compose in H.
Qed.

Lemma summary_added_meta rs (msgs msgs' : list TrimMessage) : meta <$> msgs' = meta <$> msgs →
  summary_added rs msgs' = summary_added rs msgs.
Proof.
  intros H%meta_summaries. unfold summary_added.
  pose proof (position_fmap is_summary (λ s, s) msgs) as E.
  pose proof (position_fmap is_summary (λ s, s) msgs') as E'. cbn beta in *.
  change (position is_summary) with (position (λ m, is_summary m)).
  by rewrite <-E, <-E', H.
Qed.

Lemma splice_summary_meta rs msgs : meta <$> (splice_summary rs msgs).1 =
  if summary_added rs msgs then summary_meta :: (meta <$> msgs) else meta <$> msgs.
Proof.
  unfold splice_summary, summary_added. destruct rs as [s|]; [|done].
  destruct (position is_summary msgs) as [i|]; [|done].
  destruct (msgs !! i) as [m|] eqn:Hm; [|done]. case_bool_decide; [done|].
  simpl. rewrite list_fmap_insert, meta_set_text. apply list_insert_id.
  by rewrite list_lookup_fmap, Hm.
Qed.

Lemma splice_summary_untouched rs msgs : (splice_summary rs msgs).2 = false →
  (splice_summary rs msgs).1 = msgs.
Proof. unfold splice_summary. by repeat case_match. Qed.

Section reshaping.
Context (count : text → N).

Lemma cut_aged_meta vh cache budget msgs :
  meta <$> (cut_aged count vh cache budget msgs).1.1 = meta <$> msgs.
Proof.
  unfold cut_aged. destruct vh as [h|]; [|done]. destruct (_ || _); [|done].
  apply rewrite_texts_meta.
Qed.

Lemma cut_aged_untouched vh cache budget msgs :
  (cut_aged count vh cache budget msgs).1.2 = O → (cut_aged count vh cache budget msgs).1.1 = msgs.
Proof.
  unfold cut_aged. destruct vh as [h|]; [|done]. destruct (_ || _); [|done].
  apply rewrite_texts_untouched.
Qed.

(** Nothing but texts changes, and one summary may be put in front. *)
Lemma reshape_meta budget rs ct vh cache msgs :
  meta <$> (reshape count budget rs ct vh cache msgs).1 =
  if summary_added rs msgs then summary_meta :: (meta <$> msgs) else meta <$> msgs.
Proof.
  unfold reshape. destruct (strip_stale ct msgs) as [m1 c1] eqn:E1.
  destruct (cut_tool_results m1) as [m2 c2] eqn:E2.
  destruct (splice_summary rs m2) as [m3 c3] eqn:E3.
  destruct (cut_aged count vh cache budget m3) as [[m4 c4] c5] eqn:E4. simpl.
  pose proof (rewrite_texts_meta _ msgs : meta <$> (strip_stale ct msgs).1 = _) as H1.
  pose proof (rewrite_texts_meta _ m1 : meta <$> (cut_tool_results m1).1 = _) as H2.
  pose proof (splice_summary_meta rs m2) as H3. pose proof (cut_aged_meta vh cache budget m3) as H4.
  rewrite E1 in H1. rewrite E2 in H2. rewrite E3 in H3. rewrite E4 in H4. simpl in *.
  rewrite H4, H3, (summary_added_meta rs msgs m2) by congruence.
  by rewrite H2, H1.
Qed.

Lemma reshape_untouched budget rs ct vh cache msgs e a b c d x :
  reshape count budget rs ct vh cache msgs = (e, (a, b, c, d, x)) →
  a = O → b = O → c = false → d = O → e = msgs.
Proof.
  unfold reshape. destruct (strip_stale ct msgs) as [m1 c1] eqn:E1.
  destruct (cut_tool_results m1) as [m2 c2] eqn:E2.
  destruct (splice_summary rs m2) as [m3 c3] eqn:E3.
  destruct (cut_aged count vh cache budget m3) as [[m4 c4] c5] eqn:E4.
  intros [= -> -> -> -> -> ->] -> -> -> ->.
  pose proof (rewrite_texts_untouched _ msgs : (strip_stale ct msgs).2 = _ → (strip_stale ct msgs).1 = _) as H1.
  pose proof (rewrite_texts_untouched _ m1 : (cut_tool_results m1).2 = _ → (cut_tool_results m1).1 = _) as H2.
  pose proof (splice_summary_untouched rs m2) as H3.
  pose proof (cut_aged_untouched vh cache budget m3) as H4.
  rewrite E1 in H1. rewrite E2 in H2. rewrite E3 in H3. rewrite E4 in H4. cbn [fst snd] in *.
  by rewrite H4, H3, H2, H1.
Qed.

Lemma summaries_first_meta (msgs msgs' : list TrimMessage) : meta <$> msgs' = meta <$> msgs →
  summaries_first msgs → summaries_first msgs'.
Proof.
  intros H%meta_summaries (f & body & -> & Hf & Hb). rewrite fmap_app in H.
  apply fmap_app_inv in H as (f' & body' & Ef & Eb & ->).
  exists f', body'. split; [done|]. split.
  - assert (Forall (λ s, s = true) (is_summary <$> f')) as H; [|by apply Forall_fmap in H].
    rewrite <-Ef. by apply Forall_fmap.
  - assert (Forall (λ s, s = false) (is_summary <$> body')) as H; [|by apply Forall_fmap in H].
    rewrite <-Eb. by apply Forall_fmap.
Qed.

Lemma reshape_summaries_first budget rs ct vh cache msgs : summaries_first msgs →
  summaries_first (reshape count budget rs ct vh cache msgs).1.
Proof.
  intros H. pose proof (reshape_meta budget rs ct vh cache msgs) as E.
  destruct (summary_added rs msgs).
  - apply (summaries_first_meta (mk_msg u64_max User [] true (Some 0) :: msgs)); [done|].
    destruct H as (f & body & -> & Hf & Hb). eexists (_ :: f), body. split; [done|].
    split; [by constructor|done].
  - by apply (summaries_first_meta msgs).
Qed.

Lemma trim_history_eq msgs p rs real ct vh cache :
  let b := effective_history_budget p real in
  let r := reshape count b.(budget_tokens) rs ct vh cache msgs in
  let d := drop_turns count (S (length r.1)) b.(budget_tokens) r.1 O in
  let out := trim_history count msgs p rs real ct vh cache in
  out.(out_messages) = d.1 ∧ out.(dropped_turns) = d.2 ∧
  out.(estimated_tokens) = estimate_tokens count d.1 ∧
  out.(aged_truncations) = r.2.1.2 ∧
  out.(out_changed) = (b.(overshoot_corrected) || (0 <? r.2.1.1.1.1)%nat ||
    (0 <? r.2.1.1.1.2)%nat || r.2.1.1.2 || (0 <? r.2.1.2)%nat || (0 <? d.2)%nat).
Proof.
  cbn zeta. unfold trim_history. cbn zeta.
  destruct (reshape _ _ _ _ _ _ _) as [e [[[[n1 n2] n3] n4] n5]]. cbn [fst snd].
  destruct (drop_turns _ _ _ _ _) as [m k]. simpl. by repeat split.
Qed.
End reshaping.

(** ** What is kept *)

(** Trimming keeps the newest turns, whole. When its summaries come first, the outcome is the
    reshaped history (the same messages with texts edited, a summary put in front at most) cut
    to the summaries and a tail of its turns, as long a tail as the budget allows: it fits, or
    one turn is left, and with any turn more it would not fit. The last turn is never dropped,
    and the estimate returned is that of what is returned. *)
Theorem trim_keeps_newest_turns count msgs p rs real ct vh cache : summaries_first msgs →
  let budget := (effective_history_budget p real).(budget_tokens) in
  let e := (reshape count budget rs ct vh cache msgs).1 in
  let f := List.filter is_summary e in
  let ts := turns (List.filter (λ m, negb (is_summary m)) e) in
  let out := trim_history count msgs p rs real ct vh cache in
  let k := out.(dropped_turns) in
  meta <$> e = (if summary_added rs msgs then [summary_meta] else []) ++ (meta <$> msgs) ∧
  out.(out_messages) = f ++ concat (drop k ts) ∧
  out.(estimated_tokens) = estimate_tokens count out.(out_messages) ∧
  (k = O ∨ k < length ts)%nat ∧
  (out.(estimated_tokens) ≤ budget ∨ (length (drop k ts) ≤ 1)%nat) ∧
  ∀ j, (j < k)%nat → budget < estimate_tokens count (f ++ concat (drop j ts)).
Proof.
  intros Hfirst budget e f ts out k.
  destruct (trim_history_eq count msgs p rs real ct vh cache) as (Hm & Hk & He & _).
  fold out budget e in Hm, Hk, He. fold k in Hk.
  assert (∃ f' body, e = f' ++ body ∧ f = f' ∧ ts = turns body ∧
    Forall (λ m, is_summary m = true) f' ∧ Forall (λ m, is_summary m = false) body)
    as (f' & body & Ee & Ef & Ets & Hf & Hb).
  { destruct (reshape_summaries_first count budget rs ct vh cache msgs Hfirst)
      as (f' & body & Ee & Hf & Hb). exists f', body. split; [done|].
    unfold f, ts. fold e in Ee. rewrite Ee, !List.filter_app.
    rewrite Forall_forall in Hf, Hb.
    rewrite (filter_all is_summary f'), (filter_none is_summary body), app_nil_r by done.
    rewrite (filter_none _ f'), (filter_all _ body);
      [by rewrite !Forall_forall|intros m Hm'; by rewrite Hb|intros m Hm'; by rewrite Hf]. }
  destruct (drop_turns_settles count (S (length e)) budget f' body O Hf Hb) as (k' & Hd & Hlt & Hfit & Hmin).
  { rewrite Ee, length_app. lia. }
  rewrite <-Ee in Hd. rewrite Hd in Hm, Hk, He. cbn [fst snd] in *. rewrite Nat.add_0_l in Hk.
  rewrite Ef, Ets, Hk, He, Hm. split; [|done].
  unfold e. rewrite reshape_meta. by destruct (summary_added rs msgs).
Qed.

(** [changed] is false only when nothing was: the messages are the ones given, no turn was
    dropped, no aged result was cut and last turn's prompt had not overshot. *)
Theorem unchanged_is_untouched count msgs p rs real ct vh cache :
  let out := trim_history count msgs p rs real ct vh cache in
  out.(out_changed) = false →
  out.(out_messages) = msgs ∧ out.(dropped_turns) = O ∧ out.(aged_truncations) = O ∧
  (effective_history_budget p real).(overshoot_corrected) = false.
Proof.
  intros out. destruct (trim_history_eq count msgs p rs real ct vh cache) as (Hm & Hk & _ & Ha & Hc).
  fold out in Hm, Hk, Ha, Hc. rewrite Hc. clear Hc. destruct (reshape _ _ _ _ _ _ _) as [e [[[[n1 n2] n3] n4] n5]] eqn:Hr.
  cbn [fst snd] in *. rewrite !orb_false_iff, !Nat.ltb_ge, !Nat.le_0_r. intros [[[[[Ho ->] ->] ->] ->] Hd].
  rewrite Hk, Ha, Hm. split; [|done].
  rewrite (reshape_untouched count _ _ _ _ _ _ _ _ _ _ _ _ Hr) in * by done.
  by apply drop_turns_none.
Qed.

(** ** A replay *)

(** What is sent of a stored row: its text, less the context of its own turn or the middle
    of a long tool result. *)
Definition sent_text (r : TrimRole * text) : text :=
  match r.1 with
  | User => default r.2 (strip_system_context r.2)
  | Assistant => r.2
  | ToolResult => default r.2 (truncate_head_tail r.2 TOOL_RESULT_MAX_BYTES)
  end.
Definition sent (i : nat) (r : TrimRole * text) : TrimMessage :=
  mk_msg (N.of_nat i) r.1 (sent_text r) false None.
Definition summary_sent (rs : option text) : list TrimMessage :=
  match rs with
  | Some s => [mk_msg u64_max User (summary_body s) true (Some 0)]
  | None => []
  end.

Lemma replay_reshaped count budget rs rows :
  (reshape count budget rs NotYetAppended None Cold (replay_input rows)).1 =
  summary_sent rs ++ imap sent rows.
Proof.
  unfold reshape. destruct (strip_stale NotYetAppended (replay_input rows)) as [m1 c1] eqn:E1.
  destruct (cut_tool_results m1) as [m2 c2] eqn:E2.
  assert (m2 = imap sent rows) as ->.
  { change m2 with (m2, c2).1. rewrite <-E2. change m1 with (m1, c1).1. rewrite <-E1.
    apply list_eq. intros i. unfold cut_tool_results, strip_stale.
    rewrite !rewrite_texts_lookup. unfold replay_input. rewrite !list_lookup_imap.
    destruct (rows !! i) as [[ro t]|]; [|done]. cbn [fmap option_fmap option_map tm_role tm_text fst snd].
    f_equal. unfold sent, sent_text, opens_turn. cbn [tm_role tm_text is_summary fst snd].
    destruct ro; cbn; try done; repeat (case_bool_decide; try done; cbn).
    - exfalso. by destruct (strip_system_context t).
    - by destruct (strip_system_context t).
    - by destruct (truncate_head_tail t TOOL_RESULT_MAX_BYTES). }
  assert (position is_summary (imap sent rows) = None) as Hnone.
  { apply position_None. intros m (i & Hi)%list_elem_of_lookup.
    rewrite list_lookup_imap in Hi. by apply fmap_Some in Hi as (r & _ & ->). }
  unfold splice_summary, summary_sent. destruct rs as [s|]; [by rewrite Hnone|done].
Qed.

Lemma imap_sent_real rows : ∀ m, m ∈ imap sent rows → is_summary m = false.
Proof.
  intros m (i & Hi)%list_elem_of_lookup.
  rewrite list_lookup_imap in Hi. by apply fmap_Some in Hi as (r & _ & ->).
Qed.

Lemma replay_rows_last messages r : last (replay_rows messages) = Some r → r.1 ≠ User.
Proof.
  unfold replay_rows, pop_users. rewrite last_reverse. intros H%drop_while_head.
  by apply bool_decide_eq_false in H.
Qed.

Lemma concat_drop_last {A} k (ts : list (list A)) : (k < length ts)%nat →
  (∀ t, t ∈ ts → t ≠ []) → last (concat (drop k ts)) = last (concat ts) ∧ concat (drop k ts) ≠ [].
Proof.
  intros Hk Hne.
  assert (concat (drop k ts) ≠ []) as Hn.
  { destruct (drop k ts) as [|t r] eqn:E; [apply (f_equal length) in E; rewrite length_drop in E; simpl in E; lia|].
    assert (t ∈ ts). { apply list_elem_of_lookup. exists k. assert (drop k ts !! 0%nat = Some t) by by rewrite E.
      by rewrite lookup_drop, Nat.add_0_r in H. }
    simpl. specialize (Hne t H). by destruct t. }
  split; [|done]. rewrite <-(take_drop k ts) at 2. rewrite concat_app, last_app.
  destruct (last (concat (drop k ts))) eqn:E; [done|]. by apply last_None in E.
Qed.

Lemma turns_nonempty l t : t ∈ turns l → t ≠ [].
Proof.
  revert t. induction l as [|m l IH]; simpl; [by intros t ?%elem_of_nil|]. intros t.
  destruct (turns l) as [|u us]; [by intros ->%elem_of_one|].
  destruct (default _ _).
  - intros [->|Ht]%elem_of_cons; [done|by apply IH].
  - intros [->|Ht]%elem_of_cons; [done|]. apply IH. by right.
Qed.

(** A replay sends the stored rows it was given, blank rows and the trailing user rows
    left out, as the newest whole turns that fit the budget (one at least), each row under its
    own index and role, and the summary in front. Something is sent whenever a row is left,
    and what is sent last is not the user's. *)
Theorem plan_replay_correct count messages p rs :
  let rows := replay_rows messages in
  let ts := turns (imap sent rows) in
  let budget := (effective_history_budget p None).(budget_tokens) in
  let out := plan_replay count messages p rs in
  (rows = [] → out = []) ∧
  (rows ≠ [] → ∃ k,
    out = summary_sent rs ++ concat (drop k ts) ∧ (k < length ts)%nat ∧
    (estimate_tokens count out ≤ budget ∨ S k = length ts) ∧
    (∀ j, (j < k)%nat → budget < estimate_tokens count (summary_sent rs ++ concat (drop j ts))) ∧
    ∃ m, last out = Some m ∧ m.(tm_role) ≠ User ∧ m.(is_summary) = false) ∧
  (∀ m, m ∈ out → m.(is_summary) = false → ∃ t,
    rows !! N.to_nat m.(tm_index) = Some (m.(tm_role), t) ∧ m.(tm_text) = sent_text (m.(tm_role), t)).
Proof.
  intros rows ts budget out. unfold plan_replay in out. fold rows in out.
  destruct (is_empty rows) eqn:Hrows.
  { rewrite is_empty_true in Hrows. split; [done|]. split; [done|]. by intros m ?%elem_of_nil. }
  rewrite is_empty_false in Hrows.
  assert (∃ k, out = summary_sent rs ++ concat (drop k ts) ∧ (k = O ∨ k < length ts)%nat ∧
    (estimate_tokens count out ≤ budget ∨ (length (drop k ts) ≤ 1)%nat) ∧
    ∀ j, (j < k)%nat → budget < estimate_tokens count (summary_sent rs ++ concat (drop j ts)))
    as (k & Hout & Hk & Hfit & Hmin).
  { unfold out. destruct (trim_history_eq count (replay_input rows) p rs None NotYetAppended None Cold)
      as (Hm & _). rewrite Hm, replay_reshaped. fold budget.
    edestruct (drop_turns_settles count) as (k & Hd & Hk & Hfit & Hmin);
      [| | |exists k; rewrite Hd; cbn [fst]; done].
    - destruct rs; simpl; by repeat constructor.
    - apply Forall_forall, imap_sent_real.
    - rewrite length_app. lia. }
  assert (0 < length ts)%nat as Hts.
  { destruct ts eqn:E; [|simpl; lia]. apply turns_nil_inv, (f_equal length) in E.
    rewrite length_imap in E. by apply nil_length_inv in E. }
  assert (k < length ts)%nat as Hk' by (destruct Hk; lia). clear Hk.
  destruct (concat_drop_last k ts Hk' (turns_nonempty _)) as [Hlast Hne].
  unfold ts in Hlast at 2. rewrite concat_turns in Hlast.
  split; [done|]. split.
  - intros _. exists k. split; [done|]. split; [done|]. split.
    { destruct Hfit as [Hfit|Hfit]; [by left|right]. rewrite length_drop in Hfit. lia. }
    split; [done|].
    destruct (last (concat (drop k ts))) as [m|] eqn:Hm; [|by apply last_None in Hm].
    exists m. rewrite Hout, last_app, Hm. split; [done|].
    rewrite last_lookup, list_lookup_imap in Hlast. symmetry in Hlast.
    apply fmap_Some in Hlast as (q & Hq & ->). split; [|done].
    rewrite length_imap, <-last_lookup in Hq. by apply replay_rows_last in Hq.
  - intros m Hm Hreal. rewrite Hout in Hm. apply elem_of_app in Hm as [Hm|Hm].
    { destruct rs as [s|]; [apply elem_of_one in Hm as ->; done|by apply elem_of_nil in Hm]. }
    assert (m ∈ imap sent rows) as (i & Hi)%list_elem_of_lookup.
    { rewrite <-(concat_turns (imap sent rows)). fold ts. rewrite <-(take_drop k ts), concat_app.
      apply elem_of_app. by right. }
    rewrite list_lookup_imap in Hi. apply fmap_Some in Hi as ([ro t] & Hi & ->). exists t.
    simpl. by rewrite Nat2N.id.
Qed.

(** ** Cuts that settle, and one that does not *)

Lemma splice_summary_keeps rs msgs m : m ∈ msgs → is_summary m = false →
  m ∈ (splice_summary rs msgs).1.
Proof.
  intros Hm Hreal. unfold splice_summary. destruct rs as [s|]; [|done].
  destruct (position is_summary msgs) as [i|] eqn:Hi; [|by right].
  destruct (msgs !! i) as [e|] eqn:He; [|done]. case_bool_decide; [done|]. simpl.
  apply list_elem_of_lookup in Hm as (j & Hj). apply list_elem_of_lookup. exists j.
  rewrite list_lookup_insert_ne; [done|]. intros ->.
  apply position_Some in Hi as [(a & Ha & Hsum) _]. congruence.
Qed.

(** A cut tool result is still over the limit it was cut to, by its marker. *)
Lemma cut_stays_over t t' : byte_len t ≤ u64_max →
  truncate_head_tail t TOOL_RESULT_MAX_BYTES = Some t' →
  TOOL_RESULT_MAX_BYTES < byte_len t' ≤ TOOL_RESULT_MAX_BYTES + 48.
Proof.
  intros Hle Hcut. pose proof (truncate_head_tail_len t TOOL_RESULT_MAX_BYTES t' ltac:(done) Hle Hcut).
  unfold TOOL_RESULT_MAX_BYTES in *. lia.
Qed.

Lemma strip_stale_keeps ct msgs i m : msgs !! i = Some m → opens_turn m = false →
  (strip_stale ct msgs).1 !! i = Some m.
Proof.
  intros Hm Ho. unfold strip_stale. rewrite rewrite_texts_lookup, Hm. cbn [fmap option_fmap option_map].
  by rewrite Ho.
Qed.

Lemma cut_tool_results_cuts msgs i m t' : msgs !! i = Some m → tm_role m = ToolResult →
  truncate_head_tail m.(tm_text) TOOL_RESULT_MAX_BYTES = Some t' →
  (cut_tool_results msgs).1 !! i = Some (set_text m t') ∧ (cut_tool_results msgs).2 ≠ O.
Proof.
  intros Hm Hrole Hcut. unfold cut_tool_results. split.
  - rewrite rewrite_texts_lookup, Hm. cbn [fmap option_fmap option_map].
    by rewrite bool_decide_eq_true_2, Hcut.
  - intros H. pose proof (proj1 (rewrite_texts_none _ _) H i m Hm) as Hnone. cbn beta in Hnone.
    rewrite bool_decide_eq_true_2, Hcut in Hnone; done.
Qed.

(** A tool result over the limit is over it still once cut: the marker makes up for what
    was cut away and more. So every trim of a history that holds one cuts it again, down to a
    marker that counts only the last cut, and reports a change, for as long as its turn stays;
    while a result cut for its age is below the length the age rule leaves alone, and below
    the limit. *)
Theorem tool_result_cut_never_settles count msgs p rs real ct cache i m :
  msgs !! i = Some m → m.(tm_role) = ToolResult → m.(is_summary) = false →
  TOOL_RESULT_MAX_BYTES < byte_len m.(tm_text) ≤ u64_max →
  let out := trim_history count msgs p rs real ct None cache in
  out.(out_changed) = true ∧
  (out.(dropped_turns) = O → ∃ m', m' ∈ out.(out_messages) ∧ meta m' = meta m ∧
    truncate_head_tail m.(tm_text) TOOL_RESULT_MAX_BYTES = Some m'.(tm_text) ∧
    TOOL_RESULT_MAX_BYTES < byte_len m'.(tm_text) ≤ u64_max) ∧
  (∀ t, truncate_head_tail m.(tm_text) AGED_TOOL_RESULT_MAX_BYTES = Some t →
    (∀ horizon from j, age_cut horizon from j (set_text m t) = None) ∧
    truncate_head_tail t TOOL_RESULT_MAX_BYTES = None).
Proof.
  intros Hm Hrole Hreal [Hover Hlen] out.
  destruct (truncate_head_tail_Some _ _ Hover) as (t' & Hcut).
  destruct (trim_history_eq count msgs p rs real ct None cache) as (Hout & Hk & _ & _ & Hc).
  fold out in Hout, Hk, Hc.
  assert (opens_turn m = false) as Ho.
  { destruct (opens_turn m) eqn:E; [|done]. apply opens_turn_true in E as [E _]. congruence. }
  assert (∃ n, (0 < n)%nat ∧ (reshape count (effective_history_budget p real).(budget_tokens) rs ct None
      cache msgs).2.1.1.1.2 = n ∧ set_text m t' ∈ (reshape count
      (effective_history_budget p real).(budget_tokens) rs ct None cache msgs).1) as (n & Hn & Hn2 & Hin).
  { unfold reshape. pose proof (strip_stale_keeps ct msgs i m Hm Ho) as H1.
    destruct (strip_stale ct msgs) as [m1 c1]. cbn [fst] in H1.
    destruct (cut_tool_results_cuts m1 i m t' H1 Hrole Hcut) as [H2 H2'].
    destruct (cut_tool_results m1) as [m2 c2]. cbn [fst snd] in H2, H2'.
    pose proof (splice_summary_keeps rs m2 (set_text m t') ltac:(by eapply list_elem_of_lookup_2) Hreal) as H3.
    destruct (splice_summary rs m2) as [m3 c3]. cbn. exists c2. split; [lia|]. by split. }
  rewrite Hn2 in Hc. split.
  { rewrite Hc, (proj2 (Nat.ltb_lt 0 n) Hn). by rewrite !orb_true_r. }
  split.
  - intros Hzero. exists (set_text m t'). split; [|split; [done|split; [done|]]].
    + rewrite Hout, drop_turns_none; [done|]. by rewrite <-Hk.
    + pose proof (cut_stays_over _ _ Hlen Hcut). unfold TOOL_RESULT_MAX_BYTES, u64_max in *.
      cbn [tm_text set_text]. lia.
  - intros t Haged.
    pose proof (truncate_head_tail_len _ AGED_TOOL_RESULT_MAX_BYTES t ltac:(done) Hlen Haged) as Hl.
    assert (byte_len t ≤ AGED_FIXED_POINT_BYTES) as Hfix by (unfold AGED_FIXED_POINT_BYTES; lia).
    split.
    + intros horizon from j. unfold age_cut. cbn [tm_text set_text].
      rewrite (proj2 (N.leb_le _ _) Hfix), !orb_true_r. done.
    + apply truncate_head_tail_None. etransitivity; [exact Hfix|done].
Qed.

(** A blank row is left out before the texts are stripped, so a row that holds nothing but a
    context is sent blank. *)
Theorem plan_replay_can_send_blank :
  tm_text <$> plan_replay byte_len
    [(User, lit "<system-context>now</system-context>"); (Assistant, lit "yes")]
    (mk_profile 200 3 1500 1200 0 3072 3072) None = [[]; lit "yes"].
Proof. vm_compute. reflexivity. Qed.

(** ** Images *)

Definition sum (l : list N) : N := foldr N.add 0 l.

Lemma sum_app a b : sum (a ++ b) = sum a + sum b.
Proof. unfold sum. induction a as [|x a IH]; simpl; [lia|]. rewrite IH. lia. Qed.
Lemma sum_reverse a : sum (reverse a) = sum a.
Proof.
  induction a as [|x a IH]; [done|]. rewrite reverse_cons, sum_app, IH. unfold sum. simpl. lia.
Qed.
Lemma sum_zeros {A} (l : list A) : sum ((λ _, 0) <$> l) = 0.
Proof. induction l as [|a l IH]; [done|]. rewrite fmap_cons. unfold sum in *. simpl. lia. Qed.

Lemma spend_images_length l b : length (spend_images l b) = length l.
Proof.
  revert b. induction l as [|c l IH]; intros b; simpl; [done|].
  case_match; simpl; [by rewrite length_fmap|by rewrite IH].
Qed.

Lemma spend_images_sum l b : sum (spend_images l b) = N.min b (sum l).
Proof.
  revert b. induction l as [|c l IH]; intros b; cbn [spend_images]; [unfold sum; simpl; lia|].
  destruct (N.eqb_spec b 0) as [->|].
  - change (sum (0 :: ?l)) with (0 + sum l). change (sum (c :: l)) with (c + sum l).
    fold (sum ((λ _ : N, 0) <$> l)). cbn [sum foldr]. fold (sum ((λ _ : N, 0) <$> l)).
    rewrite sum_zeros. lia.
  - cbn [sum foldr]. fold (sum (spend_images l (b - N.min c b))). rewrite IH. fold (sum l). lia.
Qed.

(** Where a message loses an image, no older one keeps any. *)
Lemma spend_images_newest l b i k c : spend_images l b !! i = Some k → l !! i = Some c →
  k ≤ c ∧ (k < c → ∀ j k', (i < j)%nat → spend_images l b !! j = Some k' → k' = 0).
Proof.
  assert (∀ (l : list N) j k', ((λ _, 0) <$> l) !! j = Some k' → k' = 0) as Hz.
  { intros l' j k' H. rewrite list_lookup_fmap in H. by apply fmap_Some in H as (? & _ & ->). }
  revert b i. induction l as [|x l IH]; intros b i; cbn [spend_images]; [done|].
  destruct (N.eqb_spec b 0) as [->|Hb].
  - intros Hk _. assert (∀ j k', (0 :: ((λ _ : N, 0) <$> l)) !! j = Some k' → k' = 0) as Hall.
    { intros [|j] k'; simpl; [by intros [= <-]|apply Hz]. }
    rewrite (Hall _ _ Hk). split; [lia|]. intros _ j k' _. apply Hall.
  - destruct i as [|i]; simpl.
    + intros [= <-] [= <-]. split; [lia|]. intros Hlt [|j] k' Hj; [lia|]. simpl.
      replace (b - N.min x b) with 0 by lia. destruct l as [|y l]; [done|]. cbn [spend_images].
      destruct j as [|j]; simpl; [by intros [= <-]|apply Hz].
    + intros Hk Hc. destruct (IH _ _ Hk Hc) as [H1 H2]. split; [done|].
      intros Hlt [|j] k' Hj; [lia|]. apply H2; [done|lia].
Qed.

(** The plan of the replayed images spends the whole budget, if there are images for it, on
    the newest messages, and drops the rest. *)
Theorem plan_image_replay_correct counts budget :
  let plan := plan_image_replay counts budget in
  length plan = length counts ∧ sum plan = N.min budget (sum counts) ∧
  ∀ i k c, plan !! i = Some k → counts !! i = Some c →
    k ≤ c ∧ (k < c → ∀ j k', (j < i)%nat → plan !! j = Some k' → k' = 0).
Proof.
  intros plan. unfold plan, plan_image_replay.
  split; [by rewrite length_reverse, spend_images_length, length_reverse|].
  split; [by rewrite sum_reverse, spend_images_sum, sum_reverse|].
  set (sp := spend_images (reverse counts) budget).
  assert (length sp = length counts) as Hsp
    by (unfold sp; by rewrite spend_images_length, length_reverse).
  intros i k c Hk Hc. pose proof (lookup_lt_Some _ _ _ Hc) as Hi.
  rewrite reverse_lookup in Hk by lia. rewrite Hsp in Hk.
  assert (reverse counts !! (length counts - S i)%nat = Some c) as Hc'.
  { rewrite reverse_lookup by lia. by replace (_ - _)%nat with i by lia. }
  destruct (spend_images_newest _ _ _ _ _ Hk Hc') as [H1 H2]. split; [done|].
  intros Hlt j k' Hj Hk'. rewrite reverse_lookup in Hk' by lia. rewrite Hsp in Hk'.
  eapply (H2 Hlt (length counts - S j)%nat); [lia|done].
Qed.

(** ** Witnesses *)

Definition small_profile : CompactionProfile := mk_profile 0 0 0 80 0 100 100.
Definition asked (i : N) (t : text) : TrimMessage := mk_msg i User t false None.
Definition said (i : N) (t : text) : TrimMessage := mk_msg i Assistant t false None.
Definition two_turns : list TrimMessage :=
  [asked 0 (repeat 120 60); said 1 (lit "yes"); asked 2 (lit "and"); said 3 (lit "no")].

(** The older turn does not fit and goes, the newer one stays behind the summary. *)
Lemma trim_keeps_newest_turns_witness :
  let out := trim_history byte_len two_turns small_profile (Some (lit "s")) None NotYetAppended None Warm in
  out.(dropped_turns) = 1%nat ∧ length out.(out_messages) = 3%nat ∧
  (out.(estimated_tokens) ≤ 80 ∨ (length (drop 1 (turns (List.filter (λ m, negb (is_summary m))
    (reshape byte_len 80 (Some (lit "s")) NotYetAppended None Warm two_turns).1))) ≤ 1)%nat).
Proof.
  split; [reflexivity|]. split; [reflexivity|].
  assert (summaries_first two_turns) as H by (exists [], two_turns; repeat constructor).
  destruct (trim_keeps_newest_turns byte_len two_turns small_profile (Some (lit "s")) None NotYetAppended None
    Warm H) as (_ & _ & _ & _ & Hfit & _). exact Hfit.
Defined.

Definition long_result : TrimMessage := mk_msg 1 ToolResult (repeat 97 1600) false None.

Lemma tool_result_cut_never_settles_witness :
  out_changed (trim_history byte_len [asked 0 (lit "q"); long_result] (mk_profile 0 0 0 4000 0 8000 8000) None None
    NotYetAppended None Warm) = true.
Proof.
  refine (proj1 (tool_result_cut_never_settles byte_len [asked 0 (lit "q"); long_result]
    (mk_profile 0 0 0 4000 0 8000 8000) None None NotYetAppended Warm 1 long_result
    eq_refl eq_refl eq_refl _)).
  split; [vm_compute; reflexivity|vm_compute; discriminate].
Defined.

(** The second trim of the same history cuts the same result again. *)
Example second_trim_cuts_again :
  let pass msgs := trim_history byte_len msgs (mk_profile 0 0 0 4000 0 8000 8000) None None NotYetAppended None Warm in
  let once := pass [asked 0 (lit "q"); long_result] in
  let twice := pass once.(out_messages) in
  once.(dropped_turns) = O ∧ twice.(out_changed) = true ∧
  (byte_len ∘ tm_text) <$> once.(out_messages) = [1; 1531].
Proof. vm_compute. repeat split. Qed.

Lemma unchanged_is_untouched_witness :
  let out := trim_history byte_len [asked 0 (lit "q")] small_profile None None NotYetAppended None Warm in
  out.(out_messages) = [asked 0 (lit "q")].
Proof.
  refine (proj1 (unchanged_is_untouched byte_len [asked 0 (lit "q")] small_profile None None NotYetAppended
    None Warm _)). reflexivity.
Defined.

Lemma plan_replay_correct_witness :
  let out := plan_replay byte_len [(User, repeat 120 60); (Assistant, lit "yes"); (User, lit "and");
    (Assistant, lit "no"); (User, lit "now")] small_profile (Some (lit "s")) in
  length out = 3%nat ∧ ∃ m, last out = Some m ∧ m.(tm_role) ≠ User ∧ m.(is_summary) = false.
Proof.
  split; [vm_compute; reflexivity|].
  destruct (plan_replay_correct byte_len [(User, repeat 120 60); (Assistant, lit "yes"); (User, lit "and");
    (Assistant, lit "no"); (User, lit "now")] small_profile (Some (lit "s"))) as (_ & H & _).
  destruct H as (k & _ & _ & _ & _ & Hlast); [vm_compute; discriminate|exact Hlast].
Defined.
