(* ===== verification/Thought.v ===== *)
(** * Thought: the filter that keeps a model's reasoning out of the reply

    [crates/pond-core/src/models/services/thought_filter.rs]: [ThoughtFilter], fed the chunks
    of a stream, and [strip_reasoning], the filter of a whole text. A text is a list of scalar
    values; a marker is ASCII, so an index of characters cuts where the byte offset does
    ([safe_emit_len] still counts bytes, as the code). The loop of [push] carries the length
    of its buffer as fuel, of which every turn takes a marker ([push_spec] proves it enough);
    [replace_all] and the loops of [strip_block] carry the length of their text.

    What the filter is to do is [segments]: the text outside blocks, of the whole stream at
    once. The proofs cut a text into runs, each from one [<] to the next: every marker begins
    with its only [<]. *)
From S2P Require Import Prelude Text.
From Stdlib Require Import NArith Lia.
Local Open Scope N_scope.

Definition PAIRED_TAGS : list (text * text) :=
  [ (lit "<|channel>thought", lit "<channel|>");
    (lit "<|channel>thought", lit "<|channel|>");
    (lit "<|channel|>thought", lit "<|channel|>");
    (lit "<|channel|>thought", lit "<channel|>");
    (lit "<|tool_call>", lit "<tool_call|>");
    (lit "<tool_call>", lit "</tool_call>");
    (lit "<think>", lit "</think>");
    (lit "<thinking>", lit "</thinking>");
    (lit "<thought>", lit "</thought>");
    (lit "<|thought>", lit "</thought>");
    (lit "<|thought>", lit "<|thought|>");
    (lit "<reasoning>", lit "</reasoning>") ].

Definition ANSWER_OPEN : text := lit "<answer>".
Definition ANSWER_CLOSE : text := lit "</answer>".

Definition STANDALONE_SENTINELS : list text :=
  [ lit "<eos>"; lit "<|eos|>"; lit "<end_of_turn>"; lit "</think>"; lit "</thinking>";
    lit "</thought>"; lit "</reasoning>"; lit "<channel|>"; lit "<|channel|>";
    lit "<tool_call|>"; lit "</tool_call>"; ANSWER_OPEN; ANSWER_CLOSE ].

Definition NORMAL_MARKERS : list text := PAIRED_TAGS.*1 ++ STANDALONE_SENTINELS.

(** [str::contains], and [str::replace] by the empty text. *)
Definition contains (pat t : text) : bool := bool_decide (is_Some (find_sub pat t)).

Fixpoint replace_fuel (fuel : nat) (pat t : text) : text :=
  match fuel with
  | O => t
  | S fuel =>
      match find_sub pat t with
      | Some i => take i t ++ replace_fuel fuel pat (drop (i + length pat) t)
      | None => t
      end
  end.
Definition replace_all (pat t : text) : text := replace_fuel (S (length t)) pat t.

Definition has_answer_tag (t : text) : bool := contains ANSWER_OPEN t || contains ANSWER_CLOSE t.

(** [strip_standalones], which is also the second loop of [strip_reasoning]. *)
Definition strip_standalones (t : text) : text :=
  foldl (λ out s, if contains s out then replace_all s out else out) t STANDALONE_SENTINELS.

(** The two loops of [strip_block]. *)
Fixpoint drop_orphans (fuel : nat) (open close t : text) : text :=
  match fuel with
  | O => t
  | S fuel =>
      match find_sub close t with
      | None => t
      | Some c =>
          if match find_sub open t with Some o => (o <? c)%nat | None => false end then t
          else drop_orphans fuel open close (drop (c + length close) t)
      end
  end.
Fixpoint drop_blocks (fuel : nat) (open close t : text) : text :=
  match fuel with
  | O => t
  | S fuel =>
      match find_sub open t with
      | None => t
      | Some start =>
          let body := (start + length open)%nat in
          match find_sub close (drop body t) with
          | Some rel =>
              drop_blocks fuel open close (take start t ++ drop (body + rel + length close) t)
          | None => take start t
          end
      end
  end.
Definition strip_block (t open close : text) : text :=
  let s := drop_orphans (S (length t)) open close t in
  drop_blocks (S (length s)) open close s.

Definition strip_reasoning (t : text) : text :=
  let s := foldl (λ s '(open, close), strip_block s open close) t PAIRED_TAGS in
  trim (strip_standalones s).

(** ** The stream *)

(** How many characters of [s] may be emitted. [i] is the byte offset of the suffix looked
    at; the suffixes are the offsets that are character boundaries. *)
Fixpoint safe_emit_from (markers : list text) (earliest i : N) (tail : text) : nat :=
  match tail with
  | [] => O
  | c :: rest =>
      if (earliest <=? i) &&
         existsb (λ m, (byte_len tail <? byte_len m) && starts_with tail m) markers
      then O
      else S (safe_emit_from markers earliest (i + len_utf8 c) rest)
  end.
Definition longest (markers : list text) : N := foldr N.max 0 (byte_len <$> markers).
Definition safe_emit_len (s : text) (markers : list text) : nat :=
  safe_emit_from markers (byte_len s - (longest markers - 1)) 0 s.

Inductive State : Type :=
| Normal
| InsideBlock (close : text).

Record ThoughtFilter : Type := mk_filter { tf_state : State; tf_buf : text }.

Definition thought_new : ThoughtFilter := mk_filter Normal [].

(** [filter_map] then [min_by_key], which keeps the first of equals. *)
Fixpoint min_by_index (l : list (nat * text * text)) : option (nat * text * text) :=
  match l with
  | [] => None
  | x :: l =>
      match min_by_index l with
      | Some y => if (y.1.1 <? x.1.1)%nat then Some y else Some x
      | None => Some x
      end
  end.
Definition earliest_pair (buf : text) : option (nat * text * text) :=
  min_by_index (omap (λ '(open, close), (λ i, (i, open, close)) <$> find_sub open buf) PAIRED_TAGS).

(** The loop of [push]: what is forwarded, and the filter left. *)
Fixpoint push_loop (fuel : nat) (st : State) (buf out : text) : text * ThoughtFilter :=
  match fuel with
  | O => (out, mk_filter st buf)
  | S fuel =>
      match st with
      | Normal =>
          match earliest_pair buf with
          | Some (i, open, close) =>
              push_loop fuel (InsideBlock close) (drop (i + length open) buf)
                (out ++ strip_standalones (take i buf))
          | None =>
              let safe := safe_emit_len buf NORMAL_MARKERS in
              (out ++ strip_standalones (take safe buf), mk_filter Normal (drop safe buf))
          end
      | InsideBlock close =>
          match find_sub close buf with
          | Some i => push_loop fuel Normal (drop (i + length close) buf) out
          | None =>
              let safe := safe_emit_len buf [close] in
              (out, mk_filter (InsideBlock close) (drop safe buf))
          end
      end
  end.

Definition push (f : ThoughtFilter) (chunk : text) : text * ThoughtFilter :=
  let buf := f.(tf_buf) ++ chunk in
  push_loop (S (length buf)) f.(tf_state) buf [].

Definition flush (f : ThoughtFilter) : text :=
  match f.(tf_state) with
  | Normal => strip_standalones f.(tf_buf)
  | InsideBlock _ => []
  end.

(** A whole stream through one filter. *)
Fixpoint stream (f : ThoughtFilter) (chunks : list text) : text :=
  match chunks with
  | [] => flush f
  | chunk :: chunks => let '(out, f) := push f chunk in out ++ stream f chunks
  end.

Example strips_split_across_chunks :
  stream thought_new [lit "<thi"; lit "nk>reason</thi"; lit "nk>ok"] = lit "ok".
Proof. vm_compute. reflexivity. Qed.
Example holds_back_only_a_marker :
  fst (push thought_new (lit "text <thi")) = lit "text ".
Proof. vm_compute. reflexivity. Qed.
Example strip_reasoning_orphans :
  strip_reasoning (lit "r1</think><think>r2</think>done") = lit "done".
Proof. vm_compute. reflexivity. Qed.
Example a_lost_reply :
  strip_reasoning (lit "<|channel>thought hm<|channel|>Hi") = [] ∧
  stream thought_new [lit "<|channel>thought hm<|channel|>Hi"] = [].
Proof. vm_compute. done. Qed.
Example chunks_matter_for_nested :
  stream thought_new [lit "</th<eos>ink>"] = [] ∧
  stream thought_new [lit "</th<"; lit "eos>ink>"] = lit "</think>".
Proof. vm_compute. done. Qed.

(** ** Markers and prefixes *)

Definition LT : N := 60.

(** A marker begins with its only [<]. *)
Definition markerb (m : text) : bool :=
  match m with c :: r => (c =? LT) && forallb (λ c, negb (c =? LT)) r | [] => false end.
Definition marker (m : text) : Prop := ∃ r, m = LT :: r ∧ LT ∉ r.

Lemma markerb_marker m : markerb m = true → marker m.
Proof.
  destruct m as [|c r]; simpl; [done|]. intros [Hc%N.eqb_eq Hr]%andb_prop. exists r. subst.
  split; [done|]. intros Hin. rewrite forallb_elem_of in Hr. specialize (Hr _ Hin). done.
Qed.

Lemma markers_of ms : forallb markerb ms = true → ∀ m, m ∈ ms → marker m.
Proof. rewrite forallb_elem_of. intros H m Hm. by apply markerb_marker, H. Qed.

Lemma sentinels_are_markers m : m ∈ STANDALONE_SENTINELS → marker m.
Proof. by apply markers_of. Qed.
Lemma normal_are_markers m : m ∈ NORMAL_MARKERS → marker m.
Proof. by apply markers_of. Qed.

Lemma marker_nonempty m : marker m → (0 < length m)%nat.
Proof. intros (r & -> & _). simpl. lia. Qed.

Lemma starts_with_app_mono m t r : starts_with m t = true → starts_with m (t ++ r) = true.
Proof. rewrite !starts_with_spec. intros (k & ->). exists (k ++ r). by rewrite app_assoc. Qed.

(** [x] could still become [m]. *)
Definition proper_prefix (x m : text) : Prop := starts_with x m = true ∧ (length x < length m)%nat.

Lemma starts_with_app_inv m t r : starts_with m (t ++ r) = true →
  starts_with m t = true ∨ proper_prefix t m.
Proof.
  rewrite starts_with_spec. intros (k & E). apply app_eq_inv in E as [(l & -> & ->)|(l & -> & ->)].
  - left. apply starts_with_spec. by exists l.
  - destruct l as [|c l]; [left; rewrite app_nil_r; apply starts_with_spec; exists []; by rewrite app_nil_r|].
    right. split; [apply starts_with_spec; by eexists|]. rewrite length_app. simpl. lia.
Qed.

(** Behind its first character, what could become a marker holds no [<]. *)
Lemma proper_prefix_lt x m c : marker m → proper_prefix (c :: x) m → LT ∉ x ∧ c = LT.
Proof.
  intros (r & -> & Hr) [(k & [= <- ->])%starts_with_spec _]. split; [|done].
  intros Hx. apply Hr. set_solver.
Qed.

Lemma proper_prefix_part x y m : proper_prefix (x ++ y) m → proper_prefix x m.
Proof.
  intros [(k & ->)%starts_with_spec Hl]. rewrite !length_app in Hl.
  split; [apply starts_with_spec; exists (y ++ k); by rewrite app_assoc|rewrite !length_app; lia].
Qed.

(** ** The first place of a text where a marker starts *)

Fixpoint first_at (P : text → bool) (t : text) : option nat :=
  if P t then Some 0%nat else match t with [] => None | _ :: t => S <$> first_at P t end.

Lemma find_sub_first_at m t : find_sub m t = first_at (starts_with m) t.
Proof. induction t as [|c t IH]; cbn [find_sub first_at]; [done|]. by rewrite IH. Qed.

Lemma first_at_ext P Q t : (∀ t, P t = Q t) → first_at P t = first_at Q t.
Proof. intros H. induction t as [|c t IH]; simpl; rewrite H; [done|by rewrite IH]. Qed.

Lemma first_at_Some P t i : first_at P t = Some i →
  P (drop i t) = true ∧ ∀ j, (j < i)%nat → P (drop j t) = false.
Proof.
  revert i. induction t as [|c t IH]; intros i; cbn [first_at].
  - destruct (P []) eqn:E; [|done]. intros [= <-]. split; [done|]. intros. lia.
  - destruct (P (c :: t)) eqn:E; [intros [= <-]; split; [done|]; intros; lia|].
    intros (k & Hk & ->)%fmap_Some. destruct (IH k Hk) as [H1 H2]. split; [done|].
    intros [|j] Hj; [done|]. apply H2. lia.
Qed.

Definition at_any (ms : list text) (t : text) : bool := existsb (λ m, starts_with m t) ms.

Lemma at_any_true ms t : at_any ms t = true ↔ ∃ m, m ∈ ms ∧ starts_with m t = true.
Proof. unfold at_any. rewrite existsb_exists. by setoid_rewrite <-list_elem_of_In. Qed.

Section places.
  Context (ms : list text) (Hms : ∀ m, m ∈ ms → marker m).

Lemma at_any_nil : at_any ms [] = false.
Proof.
  destruct (at_any ms []) eqn:E; [|done]. apply at_any_true in E as (m & Hm & H).
  apply starts_with_spec in H as (r & H). symmetry in H. apply app_nil in H as [-> _].
  by destruct (Hms _ Hm) as (r' & [=] & _).
Qed.

Lemma at_any_lt c t : at_any ms (c :: t) = true → c = LT.
Proof.
  intros (m & Hm & (r & H)%starts_with_spec)%at_any_true. destruct (Hms _ Hm) as (r' & -> & _).
  by injection H.
Qed.

Lemma first_at_lt t i : first_at (at_any ms) t = Some i → t !! i = Some LT.
Proof.
  intros [H _]%first_at_Some. destruct (drop i t) as [|c r] eqn:E; [by rewrite at_any_nil in H|].
  apply at_any_lt in H as ->. assert (drop i t !! 0%nat = Some LT) as H by by rewrite E.
  by rewrite lookup_drop, Nat.add_0_r in H.
Qed.

(** More text behind does not move a marker that was found whole. *)
Lemma first_at_app t r i : first_at (at_any ms) t = Some i → first_at (at_any ms) (t ++ r) = Some i.
Proof.
  revert i. induction t as [|c t IH]; intros i H; [simpl in H; by rewrite at_any_nil in H|].
  cbn [first_at app] in *. destruct (at_any ms (c :: t)) eqn:E.
  - injection H as <-. assert (at_any ms (c :: t ++ r) = true) as ->; [|done].
    apply at_any_true in E as (m & Hm & H). apply at_any_true. exists m. split; [done|].
    by apply (starts_with_app_mono m (c :: t) r).
  - apply fmap_Some in H as (k & Hk & ->). rewrite (IH k Hk).
    destruct (at_any ms (c :: t ++ r)) eqn:E'; [|done]. exfalso.
    apply at_any_true in E' as (m & Hm & H). apply (starts_with_app_inv m (c :: t) r) in H as [H|H].
    + enough (at_any ms (c :: t) = true) by congruence. apply at_any_true. by exists m.
    + apply (proper_prefix_lt _ _ _ (Hms m Hm)) in H as [H _]. apply H.
      apply first_at_lt in Hk. by eapply list_elem_of_lookup_2.
Qed.

(** Nor does a text that holds no marker, and ends in no beginning of one, hide any. *)
Lemma first_at_skip n t r : first_at (at_any ms) t = None → (n ≤ length t)%nat →
  (∀ j m, (j < n)%nat → m ∈ ms → ¬ proper_prefix (drop j t) m) →
  first_at (at_any ms) (t ++ r) = (λ i, (n + i)%nat) <$> first_at (at_any ms) (drop n t ++ r).
Proof.
  revert t. induction n as [|n IH]; intros t Hnone Hn Hpp.
  { rewrite drop_0. destruct (first_at (at_any ms) (t ++ r)) as [i|]; reflexivity. }
  destruct t as [|c t]; [simpl in Hn; lia|]. cbn [first_at app drop] in *.
  destruct (at_any ms (c :: t)) eqn:E; [done|]. apply fmap_None in Hnone.
  destruct (at_any ms (c :: t ++ r)) eqn:E'.
  - exfalso. apply at_any_true in E' as (m & Hm & H).
    apply (starts_with_app_inv m (c :: t) r) in H as [H|H].
    + enough (at_any ms (c :: t) = true) by congruence. apply at_any_true. by exists m.
    + apply (Hpp 0%nat m); [lia|done|done].
  - rewrite (IH t Hnone ltac:(simpl in Hn; lia)).
    + destruct (first_at (at_any ms) (drop n t ++ r)) as [i|]; reflexivity.
    + intros j m Hj Hm. apply (Hpp (S j) m); [lia|done].
Qed.
End places.

Lemma find_sub_any m t : find_sub m t = first_at (at_any [m]) t.
Proof.
  rewrite find_sub_first_at. apply first_at_ext. intros x. unfold at_any. simpl. by rewrite orb_false_r.
Qed.

Lemma one_marker m : marker m → ∀ x, x ∈ [m] → marker x.
Proof. intros H x ->%elem_of_one. done. Qed.

Lemma find_sub_split m t i : find_sub m t = Some i →
  t = take i t ++ m ++ drop (i + length m) t ∧ (i + length m ≤ length t)%nat.
Proof.
  intros (a & b & -> & <-)%find_sub_Some. rewrite take_app_length, <-drop_drop, !drop_app_length.
  split; [done|]. rewrite !length_app. lia.
Qed.

(** ** Removing sentinels piece by piece *)

Lemma replace_fuel_enough m t f : marker m → (length t < f)%nat → replace_fuel f m t = replace_all m t.
Proof.
  intros Hm%marker_nonempty. unfold replace_all.
  enough (∀ f f' t, (length t < f)%nat → (length t < f')%nat → replace_fuel f m t = replace_fuel f' m t)
    as H by (intros; apply H; lia).
  clear f t. induction f as [|f IH]; intros [|f'] t Hf Hf'; [lia|lia|lia|]. cbn [replace_fuel].
  destruct (find_sub m t) as [i|] eqn:E; [|done]. f_equal. apply find_sub_split in E as [_ E].
  apply IH; rewrite length_drop; lia.
Qed.

Lemma replace_all_eq m t : marker m → replace_all m t =
  match find_sub m t with
  | Some i => take i t ++ replace_all m (drop (i + length m) t)
  | None => t
  end.
Proof.
  intros Hm. unfold replace_all at 1. cbn [replace_fuel].
  destruct (find_sub m t) as [i|] eqn:E; [|done]. f_equal. apply find_sub_split in E as [_ E].
  pose proof (marker_nonempty _ Hm). apply replace_fuel_enough; [done|]. rewrite length_drop. lia.
Qed.

(** Both loops of [strip_block] end, each turn of them shortening the text. *)
Lemma drop_orphans_enough open close t f : marker close → (length t < f)%nat →
  drop_orphans f open close t = drop_orphans (S (length t)) open close t.
Proof.
  intros Hm%marker_nonempty.
  enough (∀ f f' t, (length t < f)%nat → (length t < f')%nat →
    drop_orphans f open close t = drop_orphans f' open close t) as H by (intros; apply H; lia).
  clear f t. induction f as [|f IH]; intros [|f'] t Hf Hf'; [lia|lia|lia|]. cbn [drop_orphans].
  destruct (find_sub close t) as [c|] eqn:E; [|done]. apply find_sub_split in E as [_ E].
  destruct (match find_sub open t with Some o => (o <? c)%nat | None => false end); [done|].
  apply IH; rewrite length_drop; lia.
Qed.

Lemma drop_blocks_enough open close t f : marker open → (length t < f)%nat →
  drop_blocks f open close t = drop_blocks (S (length t)) open close t.
Proof.
  intros Hm%marker_nonempty.
  enough (∀ f f' t, (length t < f)%nat → (length t < f')%nat →
    drop_blocks f open close t = drop_blocks f' open close t) as H by (intros; apply H; lia).
  clear f t. induction f as [|f IH]; intros [|f'] t Hf Hf'; [lia|lia|lia|]. cbn [drop_blocks].
  destruct (find_sub open t) as [i|] eqn:E; [|done]. apply find_sub_split in E as [_ E]. cbv zeta.
  destruct (find_sub close _) as [k|]; [|done].
  apply IH; rewrite length_app, length_take, length_drop; lia.
Qed.

(** Nothing in [t] that could begin a sentinel is cut short, by another [<] or by the end. *)
Definition firm (t : text) : Prop := ∀ a x b m, t = a ++ x ++ b → x ≠ [] →
  (b = [] ∨ head b = Some LT) → m ∈ STANDALONE_SENTINELS → ¬ proper_prefix x m.

Lemma firm_app_r a b : firm (a ++ b) → firm b.
Proof.
  intros H a' x b' m -> Hx Hb. apply (H (a ++ a') x b' m); [by rewrite app_assoc|done|done].
Qed.

(** Taking a sentinel out leaves a firm text firm. *)
Lemma firm_remove a m b : marker m → firm (a ++ m ++ b) → firm (a ++ b).
Proof.
  intros (r & -> & _) H a' x b' s E Hx Hb Hs Hpp.
  apply app_eq_inv in E as [(k & -> & E)|(k & -> & ->)].
  2:{ apply (H (a ++ (LT :: r) ++ k) x b' s); [by rewrite <-!app_assoc|done..]. }
  apply app_eq_inv in E as [(l & -> & ->)|(l & -> & ->)].
  - destruct k as [|c k].
    + apply (H (a' ++ LT :: r) l b' s); [by rewrite app_nil_r, <-app_assoc|done..].
    + apply (H a' (c :: k) ((LT :: r) ++ l ++ b') s); [by rewrite <-!app_assoc|done|by right|done|].
      by eapply proper_prefix_part.
  - apply (H a' x (l ++ (LT :: r) ++ b) s); [by rewrite <-!app_assoc|done| |done|done].
    right. destruct l as [|c l]; [done|]. by destruct Hb as [Hb|Hb].
Qed.

Lemma firm_replace m t a : marker m → firm (a ++ t) → firm (a ++ replace_all m t).
Proof.
  intros Hm. remember (length t) as n eqn:Hn. revert a t Hn.
  induction n as [n IH] using lt_wf_ind. intros a t Hn Hfirm.
  rewrite replace_all_eq by done. destruct (find_sub m t) as [i|] eqn:E; [|done].
  apply find_sub_split in E as [Ht Hi]. pose proof (marker_nonempty _ Hm).
  rewrite app_assoc. apply (IH (length (drop (i + length m) t))); [rewrite length_drop; lia|done|].
  rewrite <-app_assoc. rewrite app_assoc. apply (firm_remove _ m); [done|].
  by rewrite <-app_assoc, <-Ht.
Qed.

Lemma firm_no_prefix p j m : firm p → (j < length p)%nat → m ∈ STANDALONE_SENTINELS →
  ¬ proper_prefix (drop j p) m.
Proof.
  intros H Hj. apply (H (take j p) (drop j p) []); [by rewrite app_nil_r, take_drop| |by left].
  intros E%(f_equal length). rewrite length_drop in E. simpl in E. lia.
Qed.

(** A sentinel is not found across the end of a firm text. *)
Lemma replace_all_app m p s : m ∈ STANDALONE_SENTINELS → firm p →
  replace_all m (p ++ s) = replace_all m p ++ replace_all m s.
Proof.
  intros Hm. pose proof (sentinels_are_markers m Hm) as Hmark.
  remember (length p) as n eqn:Hn. revert p Hn. induction n as [n IH] using lt_wf_ind. intros p Hn Hfirm.
  rewrite (replace_all_eq m (p ++ s)), (replace_all_eq m p) by done. rewrite !find_sub_any.
  destruct (first_at (at_any [m]) p) as [i|] eqn:E.
  - rewrite (first_at_app _ (one_marker _ Hmark) _ s _ E). rewrite <-find_sub_any in E.
    apply find_sub_split in E as [Hp Hi]. pose proof (marker_nonempty _ Hmark).
    rewrite take_app_le, drop_app_le by lia. rewrite (IH (length (drop (i + length m) p)));
      [by rewrite app_assoc|rewrite length_drop; lia|done|].
    apply (firm_app_r (take i p ++ m)). by rewrite <-app_assoc, <-Hp.
  - rewrite (first_at_skip _ (length p)); [|done|done|].
    2:{ intros j x Hj ->%elem_of_one. by apply firm_no_prefix. }
    rewrite drop_ge by done. simpl. rewrite (replace_all_eq m s), find_sub_any by done.
    destruct (first_at (at_any [m]) s) as [k|]; [|done]. simpl.
    rewrite take_app_add, <-app_assoc. f_equal. f_equal. f_equal.
    by rewrite <-Nat.add_assoc, drop_app_add.
Qed.

Lemma replace_absent m t : contains m t = false → replace_all m t = t.
Proof.
  unfold contains, replace_all. cbn [replace_fuel]. destruct (find_sub m t); [|done].
  intros H%bool_decide_eq_false. by destruct H.
Qed.

Lemma strip_standalones_eq t : strip_standalones t = foldl (λ out s, replace_all s out) t STANDALONE_SENTINELS.
Proof.
  unfold strip_standalones. generalize t. induction STANDALONE_SENTINELS as [|m l IH]; intros u; [done|].
  simpl. rewrite IH. destruct (contains m u) eqn:E; [done|]. by rewrite (replace_absent m u E).
Qed.

(** So a firm piece can be forwarded before what follows it is known. *)
Lemma strip_standalones_app p s : firm p →
  strip_standalones (p ++ s) = strip_standalones p ++ strip_standalones s.
Proof.
  rewrite !strip_standalones_eq. intros Hfirm.
  assert (∀ m, m ∈ STANDALONE_SENTINELS → m ∈ STANDALONE_SENTINELS) as Hin by done.
  revert Hin. generalize STANDALONE_SENTINELS at 1 3 4 5 as l.
  intros l. revert p s Hfirm. induction l as [|m l IH]; intros p s Hfirm Hin; [done|]. simpl.
  rewrite replace_all_app by (done || apply Hin; left). apply IH; [|set_solver].
  apply (firm_replace m p []); [|done]. apply sentinels_are_markers, Hin. left.
Qed.

(** ** What is held back *)

Lemma proper_prefix_bytes x m :
  (byte_len x <? byte_len m) && starts_with x m = true ↔ proper_prefix x m.
Proof.
  rewrite andb_true_iff, N.ltb_lt. unfold proper_prefix. rewrite starts_with_spec. split.
  - intros [Hl (k & ->)]. split; [by eexists|]. rewrite byte_len_app in Hl. rewrite length_app.
    destruct k; [simpl in Hl; lia|simpl; lia].
  - intros [(k & ->) Hl]. split; [|by eexists]. rewrite length_app in Hl. rewrite byte_len_app.
    destruct k as [|c k]; [simpl in Hl; lia|]. simpl. pose proof (len_utf8_pos c). lia.
Qed.

Lemma longest_le ms m : m ∈ ms → byte_len m ≤ longest ms.
Proof.
  unfold longest. induction ms as [|x ms IH]; [by intros ?%elem_of_nil|].
  rewrite fmap_cons. cbn [foldr]. intros [->|H]%elem_of_cons; [lia|]. specialize (IH H). lia.
Qed.

Lemma safe_emit_from_spec ms e i t : e ≤ i + byte_len t - (longest ms - 1) →
  let n := safe_emit_from ms e i t in
  (n ≤ length t)%nat ∧
  (∀ j m, (j < n)%nat → m ∈ ms → ¬ proper_prefix (drop j t) m) ∧
  ((n < length t)%nat → ∃ m, m ∈ ms ∧ proper_prefix (drop n t) m).
Proof.
  revert i. induction t as [|c t IH]; intros i He; [simpl; repeat split; lia|].
  cbn [safe_emit_from]. cbv zeta.
  destruct (existsb _ ms) eqn:E.
  - apply existsb_exists in E as (m & Hm%list_elem_of_In & H%proper_prefix_bytes).
    assert (byte_len (c :: t) < byte_len m) as Hlen.
    { destruct H as [(k & ->)%starts_with_spec Hl]. rewrite byte_len_app. rewrite length_app in Hl.
      destruct k as [|d k]; [simpl in Hl; lia|]. cbn [byte_len]. pose proof (len_utf8_pos d). lia. }
    pose proof (longest_le _ _ Hm). rewrite (proj2 (N.leb_le e i)) by lia. simpl.
    split; [lia|]. split; [lia|]. intros _. by exists m.
  - rewrite andb_false_r. destruct (IH (i + len_utf8 c)) as (H1 & H2 & H3).
    { cbn [byte_len] in He. lia. }
    split; [simpl; lia|]. split; [|simpl; intros; apply H3; lia].
    intros [|j] m Hj Hm; [|apply H2; [lia|done]]. intros Hpp%proper_prefix_bytes.
    enough (existsb (λ m, (byte_len (c :: t) <? byte_len m) && starts_with (c :: t) m) ms = true)
      by congruence.
    apply existsb_exists. exists m. by rewrite <-list_elem_of_In.
Qed.

(** A suffix is held back only if it could still become a marker, and every such one is. *)
Lemma safe_emit_len_spec s ms : let n := safe_emit_len s ms in
  (n ≤ length s)%nat ∧
  (∀ j m, (j < n)%nat → m ∈ ms → ¬ proper_prefix (drop j s) m) ∧
  ((n < length s)%nat → ∃ m, m ∈ ms ∧ proper_prefix (drop n s) m).
Proof. apply safe_emit_from_spec. lia. Qed.

(** ** The earliest open tag *)

Definition open_tags : list text := PAIRED_TAGS.*1.
Definition row_at (table : list (text * text)) (t : text) : option (text * text) :=
  List.find (λ r, starts_with r.1 t) table.
Local Arguments row_at : simpl never.

Lemma open_tags_are_markers m : m ∈ open_tags → marker m.
Proof. by apply markers_of. Qed.
Lemma closes_are_markers r : r ∈ PAIRED_TAGS → marker r.2.
Proof. intros H. apply (markers_of PAIRED_TAGS.*2); [done|]. by apply list_elem_of_fmap_2. Qed.
Lemma opens_normal m : m ∈ open_tags → m ∈ NORMAL_MARKERS.
Proof. intros H. apply elem_of_app. by left. Qed.
Lemma sentinels_normal m : m ∈ STANDALONE_SENTINELS → m ∈ NORMAL_MARKERS.
Proof. intros H. apply elem_of_app. by right. Qed.

Lemma opens_prefix_free m m' : m ∈ open_tags → m' ∈ open_tags → ¬ proper_prefix m m'.
Proof.
  assert (forallb (λ m, forallb (λ m', negb (starts_with m m' && (length m <? length m')%nat)) open_tags)
    open_tags = true) as H by (vm_compute; reflexivity).
  intros Hm Hm' [Hp Hl]. rewrite forallb_elem_of in H. specialize (H m Hm).
  rewrite forallb_elem_of in H. specialize (H m' Hm'). cbn beta in H.
  by rewrite Hp, (proj2 (Nat.ltb_lt _ _) Hl) in H.
Qed.

Lemma row_at_Some table t r : row_at table t = Some r → r ∈ table ∧ starts_with r.1 t = true.
Proof. intros [H1 H2]%find_some. split; [by apply list_elem_of_In|done]. Qed.

Definition pairs_in (table : list (text * text)) (t : text) : list (nat * text * text) :=
  omap (λ '(open, close), (λ i, (i, open, close)) <$> find_sub open t) table.
Definition shift (n : nat) (x : nat * text * text) : nat * text * text :=
  ((n + x.1.1)%nat, x.1.2, x.2).

Lemma find_sub_here m t : starts_with m t = true → find_sub m t = Some 0%nat.
Proof. intros H. destruct t; cbn [find_sub]; by rewrite H. Qed.
Lemma find_sub_not_here m t i : starts_with m t = false → find_sub m t = Some i → (0 < i)%nat.
Proof.
  intros H. destruct t as [|c t]; cbn [find_sub]; rewrite H; [done|].
  intros (k & _ & ->)%fmap_Some. lia.
Qed.

Lemma pairs_hit table t o c : row_at table t = Some (o, c) →
  min_by_index (pairs_in table t) = Some (0%nat, o, c).
Proof.
  induction table as [|[o' c'] table IH]; [done|]. unfold row_at. cbn [List.find fst].
  unfold pairs_in. cbn [omap list_omap]. fold (pairs_in table t).
  destruct (starts_with o' t) eqn:E.
  - intros [= <- <-]. rewrite (find_sub_here _ _ E). simpl. by destruct (min_by_index _) as [[[] ?]|].
  - intros H. specialize (IH H). destruct (find_sub o' t) as [i|] eqn:Ei; simpl; [|done].
    rewrite IH. simpl. apply (find_sub_not_here _ _ _ E) in Ei. destruct i; [lia|done].
Qed.

Lemma min_by_index_shift l : min_by_index (shift 1 <$> l) = shift 1 <$> min_by_index l.
Proof.
  induction l as [|x l IH]; [done|]. rewrite fmap_cons. cbn [min_by_index]. rewrite IH.
  destruct (min_by_index l) as [y|]; [|done]. simpl.
  change (S y.1.1 <? S x.1.1)%nat with (y.1.1 <? x.1.1)%nat. by destruct (y.1.1 <? x.1.1)%nat.
Qed.

Lemma pairs_miss table d t : row_at table (d :: t) = None →
  pairs_in table (d :: t) = shift 1 <$> pairs_in table t.
Proof.
  induction table as [|[o c] table IH]; [done|]. unfold row_at. cbn [List.find fst].
  unfold pairs_in. cbn [omap list_omap]. fold (pairs_in table t) (pairs_in table (d :: t)).
  destruct (starts_with o (d :: t)) eqn:E; [done|]. intros H. rewrite (IH H). cbn [find_sub]. rewrite E.
  by destruct (find_sub o t).
Qed.

Lemma row_at_any table t : at_any table.*1 t = bool_decide (is_Some (row_at table t)).
Proof.
  unfold at_any, row_at. induction table as [|r table IH]; [done|]. cbn [fmap list_fmap existsb List.find].
  destruct (starts_with r.1 t); [by rewrite bool_decide_eq_true_2 by by eexists|done].
Qed.

(** The earliest pair is the first row of the table at the first place an open tag starts. *)
Lemma earliest_pair_eq t : earliest_pair t =
  i ← first_at (at_any open_tags) t; r ← row_at PAIRED_TAGS (drop i t); Some (i, r.1, r.2).
Proof.
  change (earliest_pair t) with (min_by_index (pairs_in PAIRED_TAGS t)). unfold open_tags.
  induction t as [|d t IH]; cbn [first_at]; rewrite row_at_any; [done|].
  destruct (row_at PAIRED_TAGS (d :: t)) as [[o c]|] eqn:E.
  - rewrite (pairs_hit _ _ _ _ E). rewrite bool_decide_eq_true_2 by by eexists.
    cbn [mbind option_bind drop]. by rewrite E.
  - rewrite (pairs_miss _ _ _ E), min_by_index_shift, IH.
    rewrite bool_decide_eq_false_2 by by intros [? [=]].
    destruct (first_at _ t) as [i|]; [|done]. cbn [fmap option_fmap option_map mbind option_bind drop].
    by destruct (row_at PAIRED_TAGS (drop i t)).
Qed.

Lemma earliest_pair_Some t i o c : earliest_pair t = Some (i, o, c) →
  t = take i t ++ o ++ drop (i + length o) t ∧ (i + length o ≤ length t)%nat ∧
  (0 < length o)%nat ∧ marker c.
Proof.
  rewrite earliest_pair_eq. intros (k & Hk & H)%bind_Some. apply bind_Some in H as ([o' c'] & Hr & [= -> <- <-]).
  apply row_at_Some in Hr as [Hin Hs]. simpl in *. apply starts_with_spec in Hs as (r & Hs).
  assert (o' ∈ open_tags) as Ho by by apply (list_elem_of_fmap_2 fst _ _ Hin).
  pose proof (marker_nonempty _ (open_tags_are_markers _ Ho)).
  assert (i < length t)%nat as Hi.
  { eapply lookup_lt_Some. by apply (first_at_lt _ open_tags_are_markers) in Hk. }
  rewrite <-drop_drop, Hs, drop_app_length, <-Hs, take_drop. split; [done|].
  apply (f_equal length) in Hs. rewrite length_drop, length_app in Hs.
  split; [lia|]. split; [done|]. apply (closes_are_markers _ Hin).
Qed.

Lemma row_at_app u r row : row_at PAIRED_TAGS u = Some row → row_at PAIRED_TAGS (u ++ r) = Some row.
Proof.
  intros H. pose proof (row_at_Some _ _ _ H) as [Hin Hs].
  assert (∀ row', row' ∈ PAIRED_TAGS → ¬ proper_prefix u row'.1) as Hpp.
  { intros row' Hin' [(k & Hk)%starts_with_spec Hl]. apply starts_with_spec in Hs as (l & Hu).
    apply (opens_prefix_free row.1 row'.1); [by apply list_elem_of_fmap_2..|].
    split; [apply starts_with_spec; exists (l ++ k); by rewrite app_assoc, <-Hu|].
    rewrite Hu, length_app in Hl. lia. }
  clear Hin Hs. revert H Hpp. unfold row_at. generalize PAIRED_TAGS as table.
  induction table as [|x table IH]; [done|]. cbn [List.find]. intros H Hpp.
  destruct (starts_with x.1 u) eqn:E; [by rewrite (starts_with_app_mono _ _ r E)|].
  destruct (starts_with x.1 (u ++ r)) eqn:E'.
  - apply starts_with_app_inv in E' as [E'|E']; [congruence|]. exfalso. apply (Hpp x); [left|done].
  - apply IH; [done|]. intros. apply Hpp. by right.
Qed.

(** More of the stream does not move an open tag found whole. *)
Lemma earliest_pair_app b r x : earliest_pair b = Some x → earliest_pair (b ++ r) = Some x.
Proof.
  rewrite !earliest_pair_eq. intros (i & Hi & H)%bind_Some. apply bind_Some in H as (row & Hr & <-).
  rewrite (first_at_app _ open_tags_are_markers _ _ _ Hi). simpl.
  pose proof (lookup_lt_Some _ _ _ (first_at_lt _ open_tags_are_markers _ _ Hi)).
  by rewrite drop_app_le, (row_at_app _ _ _ Hr) by lia.
Qed.

Lemma earliest_pair_None b : earliest_pair b = None → first_at (at_any open_tags) b = None.
Proof.
  rewrite earliest_pair_eq. destruct (first_at _ b) as [i|] eqn:E; [|done]. simpl.
  apply first_at_Some in E as [E _]. unfold open_tags in E. rewrite row_at_any in E.
  apply bool_decide_eq_true in E as [row ->]. done.
Qed.

(** Nor does what was emitted hide one. *)
Lemma earliest_pair_skip b r n : earliest_pair b = None → (n ≤ length b)%nat →
  (∀ j m, (j < n)%nat → m ∈ open_tags → ¬ proper_prefix (drop j b) m) →
  earliest_pair (b ++ r) = shift n <$> earliest_pair (drop n b ++ r).
Proof.
  intros H%earliest_pair_None Hn Hpp. rewrite !earliest_pair_eq.
  rewrite (first_at_skip _ n b r H Hn Hpp).
  destruct (first_at _ (drop n b ++ r)) as [i|]; [|done]. simpl.
  rewrite <-drop_drop, drop_app_le by done. by destruct (row_at _ _).
Qed.

(** ** The reference: the text outside blocks *)

(** The pieces of a whole stream that lie outside its blocks, in order. *)
Fixpoint segments_fuel (fuel : nat) (st : State) (t : text) : list text :=
  match fuel with
  | O => []
  | S fuel =>
      match st with
      | Normal =>
          match earliest_pair t with
          | Some (i, open, close) =>
              take i t :: segments_fuel fuel (InsideBlock close) (drop (i + length open) t)
          | None => [t]
          end
      | InsideBlock close =>
          match find_sub close t with
          | Some i => segments_fuel fuel Normal (drop (i + length close) t)
          | None => []
          end
      end
  end.
Definition segments (st : State) (t : text) : list text := segments_fuel (S (length t)) st t.

(** What a filter is to show of a stream. *)
Definition shown (ss : list text) : text := concat (strip_standalones <$> ss).

Definition state_ok (st : State) : Prop :=
  match st with Normal => True | InsideBlock close => marker close end.

Lemma segments_enough f st t : state_ok st → (length t < f)%nat → segments_fuel f st t = segments st t.
Proof.
  unfold segments.
  enough (∀ f f' st t, state_ok st → (length t < f)%nat → (length t < f')%nat →
    segments_fuel f st t = segments_fuel f' st t) as H by (intros; apply H; [done|lia..]).
  clear f st t. induction f as [|f IH]; intros [|f'] st t Hst Hf Hf'; [lia|lia|lia|].
  cbn [segments_fuel]. destruct st as [|close].
  - destruct (earliest_pair t) as [[[i o] c]|] eqn:E; [|done].
    apply earliest_pair_Some in E as (_ & Hi & Ho & Hc). f_equal. apply IH; [done|rewrite length_drop; lia..].
  - destruct (find_sub close t) as [i|] eqn:E; [|done]. apply find_sub_split in E as [_ Hi].
    pose proof (marker_nonempty _ Hst). apply IH; [done|rewrite length_drop; lia..].
Qed.

Lemma segments_normal t : segments Normal t =
  match earliest_pair t with
  | Some (i, o, c) => take i t :: segments (InsideBlock c) (drop (i + length o) t)
  | None => [t]
  end.
Proof.
  unfold segments at 1. cbn [segments_fuel]. destruct (earliest_pair t) as [[[i o] c]|] eqn:E; [|done].
  apply earliest_pair_Some in E as (_ & Hi & Ho & Hc). f_equal. apply segments_enough; [done|].
  rewrite length_drop. lia.
Qed.

Lemma segments_inside c t : marker c → segments (InsideBlock c) t =
  match find_sub c t with Some i => segments Normal (drop (i + length c) t) | None => [] end.
Proof.
  intros Hc. unfold segments at 1. cbn [segments_fuel]. destruct (find_sub c t) as [i|] eqn:E; [|done].
  apply find_sub_split in E as [_ Hi]. pose proof (marker_nonempty _ Hc).
  apply segments_enough; [done|]. rewrite length_drop. lia.
Qed.

(** What could begin a sentinel is not cut short by another [<]. *)
Definition settled (t : text) : Prop := ∀ a x b m, t = a ++ x ++ LT :: b → x ≠ [] →
  m ∈ STANDALONE_SENTINELS → ¬ proper_prefix x m.

Lemma settled_app_r a b : settled (a ++ b) → settled b.
Proof. intros H a' x b' m ->. apply (H (a ++ a') x b' m). by rewrite app_assoc. Qed.

(** A piece that may be emitted is firm: what follows it is settled, or begins with [<]. *)
Lemma settled_firm p s : settled (p ++ s) →
  (head s = Some LT ∨ ∀ j m, (j < length p)%nat → m ∈ STANDALONE_SENTINELS →
    ¬ proper_prefix (drop j p) m) → firm p.
Proof.
  intros Hset Hend a x b m -> Hx Hb Hm Hpp. destruct Hb as [->|Hb].
  - rewrite app_nil_r in *. destruct Hend as [Hs|Hend].
    + destruct s as [|c s]; [done|]. injection Hs as ->.
      apply (Hset a x s m); [by rewrite <-app_assoc|done..].
    + apply (Hend (length a) m); [|done|by rewrite drop_app_length].
      rewrite length_app. destruct x; [done|simpl; lia].
  - destruct b as [|c b]; [done|]. injection Hb as ->.
    apply (Hset a x (b ++ s) m); [by rewrite <-!app_assoc|done..].
Qed.

(** ** One chunk *)

Lemma head_drop_prefix n b r m : marker m → (n < length b)%nat → proper_prefix (drop n b) m →
  head (drop n b ++ r) = Some LT.
Proof.
  intros Hm Hn Hpp. destruct (drop n b) as [|c x] eqn:E.
  - apply (f_equal length) in E. rewrite length_drop in E. simpl in E. lia.
  - by destruct (proper_prefix_lt _ _ _ Hm Hpp) as [_ ->].
Qed.

(** Outside a block, with no open tag in the buffer: what is emitted is shown whatever
    follows, and what is held back begins with [<]. *)
Lemma emit_normal b r : earliest_pair b = None →
  let n := safe_emit_len b NORMAL_MARKERS in
  Forall settled (segments Normal (b ++ r)) →
  shown (segments Normal (b ++ r)) =
    strip_standalones (take n b) ++ shown (segments Normal (drop n b ++ r)) ∧
  Forall settled (segments Normal (drop n b ++ r)).
Proof.
  intros Hnone n. destruct (safe_emit_len_spec b NORMAL_MARKERS) as (Hn & Hpp & Hheld).
  fold n in Hn, Hpp, Hheld.
  pose proof (earliest_pair_skip b r n Hnone Hn (λ j m Hj Hm, Hpp j m Hj (opens_normal m Hm))) as Hskip.
  assert (∃ s ss, segments Normal (drop n b ++ r) = s :: ss ∧
    segments Normal (b ++ r) = (take n b ++ s) :: ss ∧ ∃ k, s = take k (drop n b ++ r)) as (s & ss & Es & Eb & k & Ek).
  { rewrite !segments_normal, Hskip.
    destruct (earliest_pair (drop n b ++ r)) as [[[i o] c]|] eqn:E; cbn [fmap option_fmap option_map shift fst snd].
    - exists (take i (drop n b ++ r)). eexists. split; [done|].
      assert (b ++ r = take n b ++ drop n b ++ r) as -> by by rewrite app_assoc, take_drop.
      assert (length (take n b) = n) as Hl by (rewrite length_take; lia).
      rewrite <-Nat.add_assoc. rewrite take_app_add', drop_app_add' by done.
      split; [done|by exists i].
    - exists (drop n b ++ r). eexists. split; [done|]. rewrite app_assoc, take_drop. split; [done|].
      exists (length (drop n b ++ r)). by rewrite take_ge. }
  rewrite Es, Eb. intros [Hset Hss]%Forall_cons. split; [|constructor; [by eapply settled_app_r|done]].
  unfold shown. rewrite !fmap_cons. cbn [concat]. rewrite app_assoc. f_equal.
  destruct s as [|c s].
  { by rewrite !app_nil_r. }
  apply strip_standalones_app. apply (settled_firm _ _ Hset).
  destruct (decide (n < length b)%nat) as [Hlt|Hge].
  - left. destruct (Hheld Hlt) as (m & Hm & Hp).
    pose proof (head_drop_prefix n b r m (normal_are_markers _ Hm) Hlt Hp) as Hh.
    destruct k as [|k]; [done|]. destruct (drop n b ++ r) as [|d l]; [done|]. by injection Ek as ->.
  - right. rewrite (take_ge b) by lia. intros j m Hj Hm. apply Hpp; [lia|]. by apply sentinels_normal.
Qed.

(** Inside one, nothing is: what is dropped holds no part of the close tag. *)
Lemma skip_inside c b r : marker c → find_sub c b = None →
  segments (InsideBlock c) (b ++ r) = segments (InsideBlock c) (drop (safe_emit_len b [c]) b ++ r).
Proof.
  intros Hc Hnone. destruct (safe_emit_len_spec b [c]) as (Hn & Hpp & _).
  set (n := safe_emit_len b [c]) in *. rewrite !segments_inside by done.
  rewrite !find_sub_any in *. rewrite (first_at_skip _ n b r Hnone Hn Hpp).
  destruct (first_at _ (drop n b ++ r)) as [i|]; [|done]. cbn [fmap option_fmap option_map].
  rewrite <-Nat.add_assoc. f_equal.
  rewrite <-(take_drop n b) at 1. rewrite <-app_assoc. apply drop_app_add'. rewrite length_take. lia.
Qed.

(** A filter between chunks: its buffer holds no tag it is waiting for. *)
Definition quiet (f : ThoughtFilter) : Prop :=
  state_ok f.(tf_state) ∧
  segments f.(tf_state) f.(tf_buf) = match f.(tf_state) with Normal => [f.(tf_buf)] | _ => [] end.

Lemma push_spec fuel st b out : state_ok st → (length b < fuel)%nat →
  ∃ piece f, push_loop fuel st b out = (out ++ piece, f) ∧ quiet f ∧
    ∀ r, Forall settled (segments st (b ++ r)) →
      shown (segments st (b ++ r)) = piece ++ shown (segments f.(tf_state) (f.(tf_buf) ++ r)) ∧
      Forall settled (segments f.(tf_state) (f.(tf_buf) ++ r)).
Proof.
  revert st b out. induction fuel as [|fuel IH]; intros st b out Hst Hf; [lia|].
  cbn [push_loop]. destruct st as [|c].
  - destruct (earliest_pair b) as [[[i o] c]|] eqn:E.
    + pose proof (earliest_pair_Some _ _ _ _ E) as (_ & Hi & Ho & Hc).
      destruct (IH (InsideBlock c) (drop (i + length o) b) (out ++ strip_standalones (take i b)))
        as (piece & f & -> & Hq & Hr); [done|rewrite length_drop; lia|].
      exists (strip_standalones (take i b) ++ piece), f. rewrite app_assoc. split; [done|]. split; [done|].
      intros r. rewrite segments_normal, (earliest_pair_app _ r _ E), take_app_le, drop_app_le by lia.
      intros [_ Hset]%Forall_cons. destruct (Hr r Hset) as [H1 H2]. split; [|done].
      unfold shown in *. rewrite fmap_cons. cbn [concat]. by rewrite H1, app_assoc.
    + exists (strip_standalones (take (safe_emit_len b NORMAL_MARKERS) b)). eexists. split; [done|].
      split; [|intros r; by apply emit_normal]. split; [done|]. cbn [tf_state tf_buf].
      rewrite segments_normal.
      destruct (safe_emit_len_spec b NORMAL_MARKERS) as (Hn & Hpp & _).
      pose proof (earliest_pair_skip b [] _ E Hn (λ j m Hj Hm, Hpp j m Hj (opens_normal m Hm))) as H.
      rewrite !app_nil_r, E in H. by destruct (earliest_pair (drop _ b)).
  - destruct (find_sub c b) as [i|] eqn:E.
    + pose proof (find_sub_split _ _ _ E) as [_ Hi]. pose proof (marker_nonempty _ Hst).
      destruct (IH Normal (drop (i + length c) b) out) as (piece & f & -> & Hq & Hr);
        [done|rewrite length_drop; lia|].
      exists piece, f. split; [done|]. split; [done|]. intros r. rewrite segments_inside by done.
      rewrite find_sub_any in *. rewrite (first_at_app _ (one_marker _ Hst) _ r _ E), drop_app_le by lia.
      apply Hr.
    + exists []. eexists. rewrite app_nil_r. split; [done|]. cbn [tf_state tf_buf]. split.
      * split; [done|]. cbn [tf_state tf_buf]. pose proof (skip_inside c b [] Hst E) as H.
        rewrite !app_nil_r, (segments_inside c b), E in H by done. done.
      * intros r. rewrite (skip_inside c b r Hst E). done.
Qed.

Lemma stream_shown f chunks : quiet f →
  Forall settled (segments f.(tf_state) (f.(tf_buf) ++ concat chunks)) →
  stream f chunks = shown (segments f.(tf_state) (f.(tf_buf) ++ concat chunks)).
Proof.
  revert f. induction chunks as [|ch chunks IH]; intros [st b] [Hst Hq] Hset; cbn [stream concat tf_state tf_buf] in *.
  - rewrite app_nil_r, Hq. unfold flush. destruct st; cbn [tf_state tf_buf]; [|done].
    unfold shown. cbn [fmap list_fmap concat]. by rewrite app_nil_r.
  - unfold push. cbn [tf_state tf_buf].
    destruct (push_spec (S (length (b ++ ch))) st (b ++ ch) [] Hst ltac:(lia)) as (piece & f & -> & Hf & Hr).
    rewrite app_assoc in *. destruct (Hr _ Hset) as [H1 H2]. rewrite H1.
    cbn [app]. f_equal. by apply IH.
Qed.

(** C40: for a reply in which, outside its blocks, nothing that could begin a sentinel, a lone [<]
    included, is followed at once by another [<]: however it is cut into chunks, the filter forwards the
    text outside its blocks, in order, less the sentinels, which is what it forwards of the reply in one
    piece. The condition is on the reply, not on the chunks, and is needed: [chunking_matters_when_nested]. *)
Theorem chunking_does_not_matter chunks :
  Forall settled (segments Normal (concat chunks)) →
  stream thought_new chunks = shown (segments Normal (concat chunks)) ∧
  stream thought_new chunks = stream thought_new [concat chunks].
Proof.
  intros H. assert (quiet thought_new) as Hq by (split; [exact I|vm_compute; reflexivity]).
  rewrite !(stream_shown thought_new) by (done || by cbn [concat]; rewrite app_nil_r). split; [done|].
  cbn [concat]. by rewrite app_nil_r.
Qed.

(** Without the condition a sentinel can be taken out of another in one piece and not in two. *)
Lemma chunking_matters_when_nested :
  let t := lit "</th<eos>ink>" in
  concat [t] = concat [lit "</th<"; lit "eos>ink>"] ∧ ¬ Forall settled (segments Normal t) ∧
  stream thought_new [t] = [] ∧
  stream thought_new [lit "</th<"; lit "eos>ink>"] = lit "</think>".
Proof.
  cbv zeta. split; [reflexivity|]. split; [|vm_compute; done].
  intros H. assert (segments Normal (lit "</th<eos>ink>") = [lit "</th<eos>ink>"]) as E by (vm_compute; reflexivity).
  rewrite E in H. apply Forall_cons in H as [H _].
  apply (H [] (lit "</th") (lit "eos>ink>") (lit "</think>")); [reflexivity|done| |].
  - apply list_elem_of_In. simpl. tauto.
  - split; [reflexivity|simpl; lia].
Qed.

(** ** Rows of the table that are never used *)

Lemma block_from_start open close body : row_at PAIRED_TAGS open = Some (open, close) →
  segments Normal (open ++ body) = [] :: segments (InsideBlock close) body.
Proof.
  intros H. pose proof (row_at_app open body _ H) as Hr. rewrite segments_normal, earliest_pair_eq.
  assert (first_at (at_any open_tags) (open ++ body) = Some 0%nat) as ->.
  { assert (at_any open_tags (open ++ body) = true) as E
      by (unfold open_tags; rewrite (row_at_any PAIRED_TAGS); apply bool_decide_eq_true_2; by eexists).
    destruct (open ++ body); cbn [first_at]; by rewrite E. }
  cbn [mbind option_bind]. rewrite drop_0, Hr. cbn [mbind option_bind fst snd].
  by rewrite Nat.add_0_l, drop_app_length.
Qed.

Lemma settled_nil : settled [].
Proof. intros a x b m E. by destruct a, x. Qed.

(** The table of paired tags gives some open tags two close tags, and the filter only ever waits
    for the first of the two. A reply whose block is closed by the second, and that never spells
    the first, is dropped whole, however it is cut into chunks: the answer behind the block too.
    Three rows of the table are of this kind; for two of them the filter of whole texts drops such
    a reply as well. *)
Theorem second_closer_never_closes open close first said reply chunks :
  (open, close) ∈ PAIRED_TAGS → row_at PAIRED_TAGS open = Some (open, first) →
  find_sub first (said ++ close ++ reply) = None →
  concat chunks = open ++ said ++ close ++ reply →
  let unused := List.filter (λ r, negb (bool_decide (row_at PAIRED_TAGS r.1 = Some r))) PAIRED_TAGS in
  stream thought_new chunks = [] ∧
  (first ≠ close → (open, close) ∈ unused) ∧ length unused = 3%nat ∧
  strip_reasoning (lit "<|channel>thought hm<|channel|>Hi") = [] ∧
  strip_reasoning (lit "<|thought>hm<|thought|>Hi") = [].
Proof.
  intros Hrow Hfirst Hnone Hchunks unused. split; [|split; [|split]].
  - pose proof (closes_are_markers _ (proj1 (row_at_Some _ _ _ Hfirst))) as Hm.
    assert (segments Normal (concat chunks) = [[]]) as E.
    { by rewrite Hchunks, (block_from_start _ _ _ Hfirst), segments_inside, Hnone. }
    rewrite (stream_shown thought_new chunks).
    + cbn [thought_new tf_state tf_buf app]. rewrite E. vm_compute. reflexivity.
    + split; [exact I|vm_compute; reflexivity].
    + cbn [thought_new tf_state tf_buf app]. rewrite E. constructor; [apply settled_nil|constructor].
  - intros Hne. apply elem_of_filter_bool. split; [done|]. cbn [fst]. rewrite Hfirst.
    rewrite bool_decide_eq_false_2; [done|]. congruence.
  - vm_compute. reflexivity.
  - split; vm_compute; reflexivity.
Qed.

(** ** Witnesses *)

(** A text with one [<] at most cuts nothing short. *)
Lemma settled_one t : (length (List.filter (N.eqb LT) t) ≤ 1)%nat → settled t.
Proof.
  intros H a x b m -> Hx Hm Hpp. destruct x as [|c x]; [done|].
  destruct (proper_prefix_lt _ _ _ (sentinels_are_markers _ Hm) Hpp) as [_ ->].
  rewrite !List.filter_app, !length_app in H. simpl in H. lia.
Qed.

Lemma chunking_does_not_matter_witness :
  stream thought_new [lit "<thi"; lit "nk>reason</thi"; lit "nk>ok<e"; lit "os>"] = lit "ok".
Proof.
  destruct (chunking_does_not_matter [lit "<thi"; lit "nk>reason</thi"; lit "nk>ok<e"; lit "os>"]) as [-> _];
    [|vm_compute; reflexivity].
  assert (segments Normal (concat [lit "<thi"; lit "nk>reason</thi"; lit "nk>ok<e"; lit "os>"])
    = [[]; lit "ok<eos>"]) as -> by (vm_compute; reflexivity).
  apply Forall_cons_2; [apply settled_nil|apply Forall_cons_2; [|constructor]].
  apply settled_one. vm_compute. lia.
Defined.

Lemma second_closer_never_closes_witness :
  stream thought_new [lit "<|thought>hm<|tho"; lit "ught|>Hello"] = [].
Proof.
  refine (proj1 (second_closer_never_closes (lit "<|thought>") (lit "<|thought|>") (lit "</thought>")
    (lit "hm") (lit "Hello") _ _ _ _ _)); [|vm_compute; reflexivity..].
  apply list_elem_of_In. simpl. tauto.
Defined.

(** The close tag [<|channel|>] is part of the open tag [<|channel|>thought], so the filter of
    whole texts takes the open tag for an orphaned close and drops what is before it; the filter
    of streams shows it. *)
Theorem whole_text_loses_what_precedes_a_block :
  let reply := lit "Sure. <|channel|>thought hm<|channel|>Here." in
  strip_reasoning reply = lit "Here." ∧ stream thought_new [reply] = lit "Sure. Here.".
Proof. vm_compute. done. Qed.
