(* ===== verification/Settle.v ===== *)
(** * Settle: what the pond borrowed of its peers, and the payments that settle it

    [UsageTally] over SQLite (pond-infra/src/sqlite_usage_tally.rs): what a pond owes each peer
    and is owed, as statements on one table. [SettlementService]
    (pond-core/src/mesh/services/settlement.rs) is a program over the tally, the peers and the
    payment rail, with the rail of pond-adapters-lightning written out down to the wallet's
    two calls; the server's job (pond-server) runs it every quarter of an hour, among everything
    that borrows meanwhile, and may be restarted at any moment. Last, the accounting: what was
    cleared was paid, and each payment beyond that has one of three causes. *)
From S2P Require Import Prelude Prog Text.
From Stdlib Require Import ZArith Lia.
Open Scope N_scope.

(** ** Peers and their tally *)

(** 32 bytes of a public key. *)
Definition PeerId : Type := list N.

(** [as i64] of a [u64], and back. *)
Definition as_i64 (n : N) : Z :=
  if bool_decide (Z.of_N n ≤ i64_max)%Z then Z.of_N n else (Z.of_N n - 18446744073709551616)%Z.
Definition as_u64 (z : Z) : N := Z.to_N (z mod 18446744073709551616).

Record TallyRow := { tokens_borrowed : Z; tokens_lent : Z }.
Notation Tally := (gmap PeerId TallyRow).

(** A row's columns when there is none: the table's defaults. *)
Definition tally_row (t : Tally) (peer : PeerId) : TallyRow :=
  default {| tokens_borrowed := 0; tokens_lent := 0 |} (t !! peer).

Definition record_borrowed (t : Tally) (peer : PeerId) (tokens : N) : Tally :=
  let row := tally_row t peer in
  <[peer := {| tokens_borrowed := tokens_borrowed row + as_i64 tokens;
               tokens_lent := tokens_lent row |}]> t.
Definition record_lent (t : Tally) (peer : PeerId) (tokens : N) : Tally :=
  let row := tally_row t peer in
  <[peer := {| tokens_borrowed := tokens_borrowed row;
               tokens_lent := tokens_lent row + as_i64 tokens |}]> t.
Definition pending_borrowed (t : Tally) (peer : PeerId) : N :=
  as_u64 (tokens_borrowed (tally_row t peer)).
Definition pending_lent (t : Tally) (peer : PeerId) : N :=
  as_u64 (tokens_lent (tally_row t peer)).

(** [UPDATE .. WHERE peer_id = ? AND tokens_borrowed >= ?]: no row changed is an error. *)
Definition mark_settled (t : Tally) (peer : PeerId) (up_to : N) : option Tally :=
  match t !! peer with
  | Some row =>
      if bool_decide (as_i64 up_to ≤ tokens_borrowed row)%Z
      then Some (<[peer := {| tokens_borrowed := tokens_borrowed row - as_i64 up_to;
                              tokens_lent := tokens_lent row |}]> t)
      else None
  | None => None
  end.

(** ** The calls of the service, and the rail *)

Inductive MeshCall : Type → Type :=
| ListTrustedPeers : MeshCall (result (list PeerId) text)
| PendingBorrowed (peer : PeerId) : MeshCall (result N text)
| RequestInvoice (peer : PeerId) (amount : N) : MeshCall (result text text)
| PrepareSend (invoice : text) : MeshCall (result N text)
(** The wallet is told the invoice only; whose batch it pays is the model's note. *)
| SendPayment (invoice : text) (sats : N) (batch : PeerId * N) :
    MeshCall (result (option (option text)) text)
| MarkSettled (peer : PeerId) (up_to : N) : MeshCall (result unit text)
| UtcNow : MeshCall Z.

Definition MESH_SETTLEMENT_MILLISATS_PER_TOKEN : N := 30.
Definition MSATS_PER_SAT : N := 1000.

Inductive PaymentRailError : Type :=
| InvalidInvoice (e : text)
| AmountMismatch (prepared expected : N)
| SettlementFailed (e : text)
| NoPreimageReleased
| NotALightningPayment.

Record SettlementRecord := {
  sr_peer : PeerId; sr_amount : N; sr_preimage : text; sr_settled_at : Z }.

(** [issue_invoice] asks the wallet for whole sats. *)
Definition invoice_sats (amount : N) : N := amount / 1000.

(** A received payment of the wallet: the invoice it paid and the preimage, if released;
    [None] for details that are not Lightning's. *)
Definition verify_preimage (payments : list (option (text * option text))) (invoice preimage : text) :
    result bool text :=
  match head (omap (λ d, match d with
                         | Some (inv, released) => if bool_decide (inv = invoice) then Some released else None
                         | None => None
                         end) payments) with
  | Some (Some real) => Ok (bool_decide (real = preimage))
  | Some None => Ok false
  | None => Err invoice
  end.

Definition batch_settle (peer : PeerId) (tokens amount : N) (invoice : text) :
    Prog MeshCall (result SettlementRecord PaymentRailError) :=
  let expected_sats := amount / 1000 in
  let! prepared := PrepareSend invoice in
  match prepared with
  | Err e => Ret (Err (InvalidInvoice e))
  | Ok sats =>
      if negb (sats =? expected_sats) then Ret (Err (AmountMismatch sats expected_sats)) else
      let! response := SendPayment invoice sats (peer, tokens) in
      match response with
      | Err e => Ret (Err (SettlementFailed e))
      | Ok (Some (Some preimage)) =>
          let! now := UtcNow in
          Ret (Ok {| sr_peer := peer; sr_amount := amount; sr_preimage := preimage; sr_settled_at := now |})
      | Ok (Some None) => Ret (Err NoPreimageReleased)
      | Ok None => Ret (Err NotALightningPayment)
      end
  end.

(** ** The service *)

Inductive SettleError : Type :=
| PendingUnread (e : text)
| AmountOverflow (pending rate : N)
| NoInvoice (e : text)
| PaymentFailed (e : PaymentRailError).

Inductive SettlementOutcome : Type :=
| NothingPending (peer : PeerId)
| BelowSettlementMinimum (peer : PeerId) (amount : N)
| Settled (peer : PeerId) (amount : N) (preimage : text)
| Failed (peer : PeerId) (error : SettleError).

Definition settle_one (peer : PeerId) (rate : N) : Prog MeshCall SettlementOutcome :=
  let! read := PendingBorrowed peer in
  match read with
  | Err e => Ret (Failed peer (PendingUnread e))
  | Ok pending =>
      if pending =? 0 then Ret (NothingPending peer) else
      let amount := pending * rate in
      if u64_max <? amount then Ret (Failed peer (AmountOverflow pending rate)) else
      if amount <? MSATS_PER_SAT then Ret (BelowSettlementMinimum peer amount) else
      let! invoice := RequestInvoice peer amount in
      match invoice with
      | Err e => Ret (Failed peer (NoInvoice e))
      | Ok invoice =>
          prog_bind (batch_settle peer pending amount invoice) (λ paid,
            match paid with
            | Ok record =>
                do! MarkSettled peer pending in
                Ret (Settled peer amount (sr_preimage record))
            | Err e => Ret (Failed peer (PaymentFailed e))
            end)
      end
  end.

Fixpoint settle_each (peers : list PeerId) (rate : N) : Prog MeshCall (list SettlementOutcome) :=
  match peers with
  | [] => Ret []
  | peer :: peers =>
      prog_bind (settle_one peer rate) (λ o,
        prog_bind (settle_each peers rate) (λ os, Ret (o :: os)))
  end.

Definition run_once (rate : N) : Prog MeshCall (result (list SettlementOutcome) text) :=
  if rate =? 0 then Ret (Ok []) else
  let! peers := ListTrustedPeers in
  match peers with
  | Err e => Ret (Err e)
  | Ok peers => prog_bind (settle_each peers rate) (λ os, Ret (Ok os))
  end.

(** ** The world: the tally, the wallet, and everything that decides the answers *)

Record Payment := { py_peer : PeerId; py_tokens : N; py_sats : N; py_invoice : text }.

(** What the wallet makes of a send: the details it answers, or an error, which may come of a
    payment that was made all the same. *)
Inductive SendAnswer : Type :=
| SentLightning (preimage : option text)
| SentOther
| SendError (e : text) (moved : bool).

Record Outside := {
  o_db_error : option text;
  o_invoice : PeerId → N → result text text;
  o_prepare : text → result N text;
  o_send : text → SendAnswer;
  o_now : Z }.

(** The last six are the model's notes: what was recorded as borrowed, paid and marked, and
    how often a payment had no proof, a mark failed, the pond restarted. *)
Record World := {
  w_tally : Tally;
  w_trusted : list PeerId;
  w_outside : Outside;
  w_records : list (PeerId * N);
  w_payments : list Payment;
  w_marked : list (PeerId * N);
  w_unproven : nat;
  w_unmarked : nat;
  w_restarts : nat }.

Definition with_payment (y : Payment) (proven : bool) (w : World) : World :=
  {| w_tally := w_tally w; w_trusted := w_trusted w; w_outside := w_outside w;
     w_records := w_records w; w_payments := y :: w_payments w; w_marked := w_marked w;
     w_unproven := (if proven then w_unproven w else S (w_unproven w));
     w_unmarked := w_unmarked w; w_restarts := w_restarts w |}.

Definition with_mark (t : Tally) (peer : PeerId) (n : N) (w : World) : World :=
  {| w_tally := t; w_trusted := w_trusted w; w_outside := w_outside w;
     w_records := w_records w; w_payments := w_payments w; w_marked := (peer, n) :: w_marked w;
     w_unproven := w_unproven w; w_unmarked := w_unmarked w; w_restarts := w_restarts w |}.

Definition mark_failed (w : World) : World :=
  {| w_tally := w_tally w; w_trusted := w_trusted w; w_outside := w_outside w;
     w_records := w_records w; w_payments := w_payments w; w_marked := w_marked w;
     w_unproven := w_unproven w; w_unmarked := S (w_unmarked w); w_restarts := w_restarts w |}.

Definition restarted (w : World) : World :=
  {| w_tally := w_tally w; w_trusted := w_trusted w; w_outside := w_outside w;
     w_records := w_records w; w_payments := w_payments w; w_marked := w_marked w;
     w_unproven := w_unproven w; w_unmarked := w_unmarked w; w_restarts := S (w_restarts w) |}.

(** A statement fails when the database does. *)
Definition statement {A} (w : World) (a : A) : result A text :=
  match o_db_error (w_outside w) with Some e => Err e | None => Ok a end.

Definition send_payment (invoice : text) (sats : N) (batch : PeerId * N) (w : World) :
    result (option (option text)) text * World :=
  let y := {| py_peer := batch.1; py_tokens := batch.2; py_sats := sats; py_invoice := invoice |} in
  match o_send (w_outside w) invoice with
  | SentLightning (Some p) => (Ok (Some (Some p)), with_payment y true w)
  | SentLightning None => (Ok (Some None), with_payment y false w)
  | SentOther => (Ok None, with_payment y false w)
  | SendError e true => (Err e, with_payment y false w)
  | SendError e false => (Err e, w)
  end.

Definition mesh_handler : Handler MeshCall World := λ R c w,
  match c in MeshCall R return R * World with
  | ListTrustedPeers => (statement w (w_trusted w), w)
  | PendingBorrowed p => (statement w (pending_borrowed (w_tally w) p), w)
  | RequestInvoice p a => (o_invoice (w_outside w) p a, w)
  | PrepareSend i => (o_prepare (w_outside w) i, w)
  | SendPayment i s b => send_payment i s b w
  | MarkSettled p n =>
      match statement w tt, mark_settled (w_tally w) p n with
      | Ok _, Some t => (Ok tt, with_mark t p n w)
      | Ok _, None => (Err (lit "settled more than pending"), mark_failed w)
      | Err e, _ => (Err e, mark_failed w)
      end
  | UtcNow => (o_now (w_outside w), w)
  end.

(** Between any two calls: replies of peers are billed ([u32] tokens; the column is an [i64], and
    a sum beyond it is out of the model's reach), replies to peers are, and peers, network and
    wallet change as they like. *)
Inductive outside : World → World → Prop :=
| outside_borrows w p n :
    n ≤ u32_max → (tokens_borrowed (tally_row (w_tally w) p) + Z.of_N n ≤ i64_max)%Z →
    outside w {| w_tally := record_borrowed (w_tally w) p n; w_trusted := w_trusted w;
                 w_outside := w_outside w; w_records := (p, n) :: w_records w;
                 w_payments := w_payments w; w_marked := w_marked w; w_unproven := w_unproven w;
                 w_unmarked := w_unmarked w; w_restarts := w_restarts w |}
| outside_lends w p n :
    outside w {| w_tally := record_lent (w_tally w) p n; w_trusted := w_trusted w;
                 w_outside := w_outside w; w_records := w_records w;
                 w_payments := w_payments w; w_marked := w_marked w; w_unproven := w_unproven w;
                 w_unmarked := w_unmarked w; w_restarts := w_restarts w |}
| outside_changes w trusted o :
    outside w {| w_tally := w_tally w; w_trusted := trusted; w_outside := o;
                 w_records := w_records w; w_payments := w_payments w; w_marked := w_marked w;
                 w_unproven := w_unproven w; w_unmarked := w_unmarked w; w_restarts := w_restarts w |}.

(** ** The server's job *)

(** One tick: with mesh or lightning off there is nothing to settle. *)
Definition settlement_tick (enabled : bool) : Prog MeshCall (result (list SettlementOutcome) text) :=
  if enabled then run_once MESH_SETTLEMENT_MILLISATS_PER_TOKEN else Ret (Ok []).

Definition Job : Type := Prog MeshCall (result (list SettlementOutcome) text) * World.

(** The job's loop: a pass at a time, the next when a tick finds it idle; a restart drops it. *)
Inductive job_step : Job → Job → Prop :=
| job_runs j j' : config_step mesh_handler outside j j' → job_step j j'
| job_ticks r w enabled : job_step (Ret r, w) (settlement_tick enabled, w)
| job_restarts p w : job_step (p, w) (Ret (Ok []), restarted w).

Definition opened (trusted : list PeerId) (o : Outside) : World :=
  {| w_tally := ∅; w_trusted := trusted; w_outside := o; w_records := []; w_payments := [];
     w_marked := []; w_unproven := 0; w_unmarked := 0; w_restarts := 0 |}.

(** ** Sums over a peer's batches *)

Definition total (p : PeerId) (l : list (PeerId * N)) : N :=
  foldr (λ b a, if decide (b.1 = p) then b.2 + a else a) 0 l.
Definition count (p : PeerId) (l : list (PeerId * N)) : N :=
  N.of_nat (length (List.filter (λ b, bool_decide (b.1 = p)) l)).
(** The sats paid for a batch. *)
Definition batch_sats (rate : N) (b : PeerId * N) : PeerId * N := (b.1, b.2 * rate / 1000).
Definition batches (w : World) : list (PeerId * N) := (λ y, (py_peer y, py_tokens y)) <$> w_payments w.
Definition paid (p : PeerId) (w : World) : N := total p ((λ y, (py_peer y, py_sats y)) <$> w_payments w).

(** ** Lemmas: sums *)

Lemma total_app p l1 l2 : total p (l1 ++ l2) = total p l1 + total p l2.
Proof. induction l1 as [|b l1 IH]; simpl; [done|]. rewrite IH. case_decide; lia. Qed.

Lemma total_perm p l1 l2 : l1 ≡ₚ l2 → total p l1 = total p l2.
Proof. induction 1; simpl; repeat case_decide; lia. Qed.

Lemma count_app p l1 l2 : count p (l1 ++ l2) = count p l1 + count p l2.
Proof. unfold count. rewrite List.filter_app, length_app. lia. Qed.

Lemma count_perm p l1 l2 : l1 ≡ₚ l2 → count p l1 = count p l2.
Proof.
  unfold count. intros H. f_equal. induction H; simpl; repeat case_bool_decide; simpl; lia.
Qed.

(** Rounding down loses less than a sat a batch, and gains nothing. *)
Lemma batch_rounding rate p l :
  1000 * total p (batch_sats rate <$> l) ≤ rate * total p l ≤
    1000 * total p (batch_sats rate <$> l) + 999 * count p l.
Proof.
  induction l as [|[q n] l IH]; [simpl; unfold count; simpl; lia|].
  rewrite fmap_cons. unfold count in *. cbn [total foldr List.filter batch_sats fst snd] in *.
  fold (total p l) (total p (batch_sats rate <$> l)).
  case_decide as E; [rewrite bool_decide_true by done|rewrite bool_decide_false by done]; [|exact IH].
  cbn [length]. pose proof (N.div_mod (n * rate) 1000 ltac:(lia)).
  pose proof (N.mod_lt (n * rate) 1000 ltac:(lia)). lia.
Qed.

(** ** Lemmas: the tally *)

Lemma as_i64_small n : n ≤ u32_max → as_i64 n = Z.of_N n.
Proof. intros H. unfold as_i64. rewrite bool_decide_true; [done|]. unfold u32_max, i64_max in *. lia. Qed.

Lemma as_u64_nonneg z : (0 ≤ z ≤ i64_max)%Z → as_u64 z = Z.to_N z.
Proof. intros H. unfold as_u64, i64_max in *. rewrite Z.mod_small by lia. done. Qed.

Lemma tally_row_insert t p row q :
  tally_row (<[p := row]> t) q = if decide (q = p) then row else tally_row t q.
Proof.
  unfold tally_row. case_decide as E; [subst; by rewrite lookup_insert_eq|].
  by rewrite lookup_insert_ne by done.
Qed.

Lemma mark_settled_row t p n t' :
  mark_settled t p n = Some t' ↔
    ∃ row, t !! p = Some row ∧ (as_i64 n ≤ tokens_borrowed row)%Z ∧
      t' = <[p := {| tokens_borrowed := tokens_borrowed row - as_i64 n;
                     tokens_lent := tokens_lent row |}]> t.
Proof.
  unfold mark_settled. split.
  - destruct (t !! p) as [row|] eqn:E; [|done]. case_bool_decide; [|done]. intros [= <-]. eauto.
  - intros (row & -> & H & ->). by rewrite bool_decide_true.
Qed.

(** ** The invariant of the accounts *)

Definition payment_ok (rate : N) (y : Payment) : Prop :=
  py_sats y = py_tokens y * rate / 1000 ∧ 1 ≤ py_sats y ∧ py_tokens y * rate ≤ u64_max.

(** What is recorded is pending or cleared, and the column never leaves [i64]. *)
Definition tally_ok (w : World) : Prop := ∀ p,
  (0 ≤ tokens_borrowed (tally_row (w_tally w) p) ≤ i64_max)%Z ∧
  Z.of_N (total p (w_records w)) =
    (tokens_borrowed (tally_row (w_tally w) p) + Z.of_N (total p (w_marked w)))%Z.

Definition excuses (w : World) : nat := (w_unproven w + w_unmarked w + w_restarts w)%nat.

Record accounts (rate : N) (inflight : list (PeerId * N)) (w : World) : Prop := {
  acc_payments : Forall (payment_ok rate) (w_payments w);
  acc_tally : tally_ok w;
  acc_cleared : inflight ++ w_marked w ⊆+ batches w;
  acc_excused : (length (w_payments w) ≤ length inflight + length (w_marked w) + excuses w)%nat }.

(** At any moment at most one payment is made and not yet marked. *)
Definition accounts_now (rate : N) (w : World) : Prop :=
  accounts rate [] w ∨ ∃ b, accounts rate [b] w.

Definition owes (p : PeerId) (n : N) (w : World) : Prop :=
  (Z.of_N n ≤ tokens_borrowed (tally_row (w_tally w) p))%Z.

Lemma accounts_opened rate trusted o : accounts rate [] (opened trusted o).
Proof.
  split; simpl; [constructor| |done|lia]. intros p. unfold tally_row. simpl.
  rewrite lookup_empty. simpl. unfold i64_max. lia.
Qed.

Lemma outside_keeps rate l w w' : outside w w' → accounts rate l w → accounts rate l w'.
Proof.
  intros Ho [Hp Ht Hc Hx]. destruct Ho as [w p n Hn Hs|w p n|w tr o]; split; simpl in *; try done.
  - intros q. specialize (Ht q). simpl. unfold record_borrowed.
    rewrite tally_row_insert, as_i64_small by done.
    destruct (decide (q = p)) as [->|E]; simpl; [rewrite decide_True by done; lia|].
    rewrite decide_False by done. exact Ht.
  - intros q. specialize (Ht q). unfold record_lent. simpl. rewrite tally_row_insert.
    by case_decide; subst.
Qed.

Lemma outside_owes p n w w' : outside w w' → owes p n w → owes p n w'.
Proof.
  unfold owes. intros [w0 q m Hm _|w0 q m|w0 tr o] H; simpl; [| |done].
  - unfold record_borrowed. rewrite tally_row_insert, as_i64_small by done.
    case_decide; subst; simpl; lia.
  - unfold record_lent. rewrite tally_row_insert. by case_decide; subst.
Qed.

Lemma accounts_stable rate l : stable outside (accounts rate l).
Proof. intros w w'. apply outside_keeps. Qed.

Lemma accounts_restarted rate w : accounts_now rate w → accounts rate [] (restarted w).
Proof.
  intros H.
  assert (∃ l, accounts rate l w ∧ (length l ≤ 1)%nat) as (l & [Hp Ht Hc Hx] & Hl).
  { destruct H as [H|[b H]]; eauto. }
  split; simpl; [done|done| |].
  - etrans; [|exact Hc]. by apply submseteq_inserts_l.
  - unfold excuses in *. simpl. lia.
Qed.

(** A payment takes the batch in flight, if its proof comes back, or is excused. *)
Lemma accounts_paid rate y w proven :
  payment_ok rate y → accounts rate [] w →
  accounts rate (if proven : bool then [(py_peer y, py_tokens y)] else []) (with_payment y proven w).
Proof.
  intros Hy [Hp Ht Hc Hx]. destruct proven; split; try done.
  - by constructor.
  - by apply submseteq_skip.
  - simpl in *. unfold excuses in *. simpl. lia.
  - by constructor.
  - by apply submseteq_cons.
  - simpl in *. unfold excuses in *. simpl. lia.
Qed.

Lemma accounts_mark_failed rate b w : accounts rate [b] w → accounts rate [] (mark_failed w).
Proof.
  intros [Hp Ht Hc Hx]. split; try done; simpl in *.
  - etrans; [|exact Hc]. by apply submseteq_cons.
  - unfold excuses in *. simpl. lia.
Qed.

Lemma accounts_marked rate p n w t :
  n ≤ u64_max → owes p n w → mark_settled (w_tally w) p n = Some t →
  accounts rate [(p, n)] w → accounts rate [] (with_mark t p n w).
Proof.
  intros Hn Ho (row & Hrow & Hle & ->)%mark_settled_row [Hp Ht Hc Hx].
  assert (tally_row (w_tally w) p = row) as Er by (unfold tally_row; by rewrite Hrow).
  assert (as_i64 n = Z.of_N n) as En.
  { unfold as_i64. rewrite bool_decide_true; [done|]. unfold owes in Ho. specialize (Ht p). lia. }
  split; [done| |done|].
  - intros q. specialize (Ht q). simpl. rewrite tally_row_insert.
    destruct (decide (q = p)) as [->|E]; [rewrite decide_True by done|rewrite decide_False by done; done].
    unfold owes in Ho. rewrite Er in *. simpl. lia.
  - unfold excuses in *. simpl in *. lia.
Qed.

(** What was read as pending is still owed when it is marked, so the guard cannot refuse it. *)
Lemma owed_is_marked p n w :
  0 < n → tally_ok w → owes p n w → ∃ t, mark_settled (w_tally w) p n = Some t.
Proof.
  intros Hn Ht Ho. unfold owes, tally_row in Ho. destruct (w_tally w !! p) as [row|] eqn:E; simpl in Ho; [|lia].
  specialize (Ht p). unfold tally_row in Ht. rewrite E in Ht. simpl in Ht.
  eexists. apply mark_settled_row. exists row. split; [done|]. split; [|done].
  unfold as_i64. rewrite bool_decide_true; lia.
Qed.

(** ** The proof of a payment *)

(** The first receipt for an invoice decides: its own preimage is accepted, no other. *)
Lemma verify_preimage_first l1 invoice real l2 preimage :
  (∀ r, Some (invoice, r) ∉ l1) →
  verify_preimage (l1 ++ Some (invoice, Some real) :: l2) invoice preimage =
    Ok (bool_decide (real = preimage)).
Proof.
  unfold verify_preimage. intros H. induction l1 as [|d l1 IH].
  - simpl. rewrite bool_decide_true by done. done.
  - assert (∀ r, Some (invoice, r) ∉ l1) as Hl by (intros r Hr; apply (H r); by right).
    specialize (IH Hl). destruct d as [[inv r]|]; simpl; [|exact IH].
    rewrite bool_decide_false; [exact IH|]. intros ->. apply (H r). left.
Qed.

(** ** The service keeps the accounts *)

Section safety.
Variable rate : N.

Local Notation safe' := (safe mesh_handler outside (accounts_now rate)).

Definition settled_up {A} (a : A) (w : World) : Prop := accounts rate [] w.

Lemma now_of (w : World) : accounts rate [] w → accounts_now rate w.
Proof. by left. Qed.

Lemma returns {A} (a : A) : safe' settled_up (Ret a) (accounts rate []).
Proof. split; [apply accounts_stable|]. split; [exact now_of|done]. Qed.

(** A call that leaves the world alone. *)
Lemma asks {A R} (Q : A → World → Prop) (c : MeshCall R) k (pre : World → Prop) :
  stable outside pre → (∀ w, pre w → accounts_now rate w) → (∀ w, (mesh_handler R c w).2 = w) →
  (∀ r, safe' Q (k r) pre) → safe' Q (Call c k) pre.
Proof.
  intros Hst Hnow Hw Hk. apply safe_call; [done|done|]. intros w r w' Hpre E. exists pre.
  specialize (Hw w). rewrite E in Hw. simpl in Hw. subst w'. split; [done|apply Hk].
Qed.

(** The batch was read, and is still owed. *)
Definition batch_read (p : PeerId) (n : N) (w : World) : Prop := accounts rate [] w ∧ owes p n w.
(** It was paid and proven. *)
Definition batch_paid (p : PeerId) (n : N) (w : World) : Prop := accounts rate [(p, n)] w ∧ owes p n w.

Lemma batch_read_stable p n : stable outside (batch_read p n).
Proof. intros w w' Ho [H1 H2]. split; [by eapply outside_keeps|by eapply outside_owes]. Qed.

Lemma batch_paid_stable p n : stable outside (batch_paid p n).
Proof. intros w w' Ho [H1 H2]. split; [by eapply outside_keeps|by eapply outside_owes]. Qed.

Lemma batch_read_now p n w : batch_read p n w → accounts_now rate w.
Proof. intros [H _]. by left. Qed.

Lemma batch_paid_now p n w : batch_paid p n w → accounts_now rate w.
Proof. intros [H _]. right. by eexists. Qed.

Lemma returns_from {A} (a : A) (pre : World → Prop) :
  stable outside pre → (∀ w, pre w → accounts rate [] w) → safe' settled_up (Ret a) pre.
Proof. intros Hst H. apply (safe_weaken _ _ _ _ _ pre (accounts rate [])); [done|done|apply returns]. Qed.

Definition rail_left (p : PeerId) (n : N) (r : result SettlementRecord PaymentRailError) : World → Prop :=
  match r with Ok _ => batch_paid p n | Err _ => accounts rate [] end.

Lemma batch_settle_safe p n invoice :
  1000 ≤ n * rate → n * rate ≤ u64_max →
  safe' (rail_left p n) (batch_settle p n (n * rate) invoice) (batch_read p n).
Proof.
  intros Hlo Hhi.
  assert (∀ e, safe' (rail_left p n) (Ret (Err e)) (batch_read p n)) as Herr.
  { intros e. split; [apply batch_read_stable|]. split; [apply (batch_read_now p n)|]. by intros w [H _]. }
  assert (∀ e, safe' (rail_left p n) (Ret (Err e)) (accounts rate [])) as Hleft.
  { intros e. split; [apply accounts_stable|]. split; [exact now_of|done]. }
  apply asks; [apply batch_read_stable|apply (batch_read_now p n)|done|].
  intros [sats|e]; [|apply Herr].
  destruct (sats =? n * rate / 1000) eqn:E; cbn [negb]; [|apply Herr]. apply N.eqb_eq in E. subst sats.
  assert (payment_ok rate {| py_peer := p; py_tokens := n; py_sats := n * rate / 1000;
                             py_invoice := invoice |}) as Hy.
  { split; simpl; [done|]. split; [|done]. apply N.div_le_lower_bound; lia. }
  apply safe_call; [apply batch_read_stable|apply (batch_read_now p n)|].
  intros w r w' [Ha Ho] Hs. simpl in Hs. unfold send_payment in Hs.
  destruct (o_send (w_outside w) invoice) as [[pre|]| |e []]; injection Hs as <- <-.
  - exists (batch_paid p n). split; [|].
    { split; [by apply (accounts_paid rate _ w true Hy)|exact Ho]. }
    apply asks; [apply batch_paid_stable|apply (batch_paid_now p n)|done|]. intros now.
    split; [apply batch_paid_stable|]. split; [apply (batch_paid_now p n)|done].
  - eexists. split; [by apply (accounts_paid rate _ w false Hy)|apply Hleft].
  - eexists. split; [by apply (accounts_paid rate _ w false Hy)|apply Hleft].
  - eexists. split; [by apply (accounts_paid rate _ w false Hy)|apply Hleft].
  - exists (accounts rate []). split; [done|apply Hleft].
Qed.

Lemma mark_settled_safe p n (o : SettlementOutcome) :
  n ≤ u64_max → safe' settled_up (Call (MarkSettled p n) (λ _, Ret o)) (batch_paid p n).
Proof.
  intros Hn. apply safe_call; [apply batch_paid_stable|apply (batch_paid_now p n)|].
  intros w r w' [Ha Ho] E. exists (accounts rate []). split; [|apply returns].
  simpl in E. unfold statement in E. destruct (o_db_error _); [injection E as _ <-; by eapply accounts_mark_failed|].
  destruct (mark_settled (w_tally w) p n) as [t|] eqn:Em; injection E as _ <-; [|by eapply accounts_mark_failed].
  by apply accounts_marked.
Qed.

Lemma settle_one_safe p : safe' settled_up (settle_one p rate) (accounts rate []).
Proof.
  apply safe_call; [apply accounts_stable|exact now_of|]. intros w r w' Ha E. simpl in E.
  unfold statement in E. destruct (o_db_error _) as [e|]; injection E as <- <-.
  { exists (accounts rate []). split; [done|apply returns]. }
  set (n := pending_borrowed (w_tally w) p).
  assert (batch_read p n w) as Hread.
  { split; [done|]. unfold owes, n, pending_borrowed. pose proof (acc_tally _ _ _ Ha p) as [Hr _].
    rewrite as_u64_nonneg by done. lia. }
  assert (n ≤ u64_max) as Hn.
  { unfold n, pending_borrowed. pose proof (acc_tally _ _ _ Ha p) as [Hr _].
    rewrite as_u64_nonneg by done. unfold i64_max, u64_max in *. lia. }
  exists (batch_read p n). split; [done|].
  assert (∀ o : SettlementOutcome, safe' settled_up (Ret o) (batch_read p n)) as Hret.
  { intros o. apply returns_from; [apply batch_read_stable|by intros w0 []]. }
  clearbody n. cbv beta match zeta. destruct (n =? 0); [apply Hret|]. destruct (u64_max <? n * rate) eqn:Ho; [apply Hret|].
  destruct (n * rate <? MSATS_PER_SAT) eqn:Hl; [apply Hret|].
  apply N.ltb_ge in Ho, Hl. unfold MSATS_PER_SAT in Hl.
  apply asks; [apply batch_read_stable|apply (batch_read_now p n)|done|].
  intros [invoice|e]; [|apply Hret].
  eapply safe_bind; [by apply batch_settle_safe|].
  intros [record|e]; [by apply mark_settled_safe|apply returns].
Qed.

Lemma settle_each_safe peers : safe' settled_up (settle_each peers rate) (accounts rate []).
Proof.
  induction peers as [|p peers IH]; cbn [settle_each]; [apply returns|].
  eapply safe_bind; [apply settle_one_safe|]. intros o.
  eapply safe_bind; [exact IH|]. intros os. apply returns.
Qed.

Lemma run_once_safe : safe' settled_up (run_once rate) (accounts rate []).
Proof.
  unfold run_once. destruct (rate =? 0); [apply returns|].
  apply asks; [apply accounts_stable|exact now_of|done|]. intros [peers|e]; [|apply returns].
  eapply safe_bind; [apply settle_each_safe|]. intros os. apply returns.
Qed.
End safety.
Arguments settled_up rate {A} a w.

(** ** The job *)

Definition job_ok (j : Job) : Prop := ∃ pre : World → Prop,
  safe mesh_handler outside (accounts_now MESH_SETTLEMENT_MILLISATS_PER_TOKEN)
    (settled_up MESH_SETTLEMENT_MILLISATS_PER_TOKEN) j.1 pre ∧ pre j.2.

Lemma job_accounts trusted o j : star job_step (Ret (Ok []), opened trusted o) j → job_ok j.
Proof.
  intros Hs. refine (star_invariant job_step job_ok _ _ _ Hs _).
  - intros j1 j2 (pre & H1 & H2) Hstep. destruct Hstep as [j1' j2' Hc|r w enabled|p w].
    + exact (safe_step _ _ _ _ _ _ _ Hc H1 H2).
    + exists (accounts MESH_SETTLEMENT_MILLISATS_PER_TOKEN []). split; [|by apply H1].
      destruct enabled; [apply run_once_safe|apply returns].
    + exists (accounts MESH_SETTLEMENT_MILLISATS_PER_TOKEN []). split; [apply returns|].
      apply accounts_restarted. by apply (safe_now _ _ _ (settled_up _) _ _ _ H1 H2).
  - exists (accounts MESH_SETTLEMENT_MILLISATS_PER_TOKEN []). split; [apply returns|apply accounts_opened].
Qed.

Lemma accounts_at rate trusted o (j : Job) :
  rate = MESH_SETTLEMENT_MILLISATS_PER_TOKEN →
  star job_step (Ret (Ok []), opened trusted o) j →
  ∃ l, accounts rate l j.2 ∧ (length l ≤ match j.1 with Ret _ => 0 | Call _ _ => 1 end)%nat.
Proof.
  intros -> (pre & Hs & Hp)%job_accounts. destruct j as [[r|R c k] w]; simpl in *.
  - exists []. split; [by apply Hs|done].
  - destruct Hs as (_ & HP & _). destruct (HP w Hp) as [H|[b H]]; eauto.
Qed.

Lemma paid_batches rate p w :
  Forall (payment_ok rate) (w_payments w) → paid p w = total p (batch_sats rate <$> batches w).
Proof.
  unfold paid, batches. induction 1 as [|y l [Hy _] _ IH]; [done|]. rewrite !fmap_cons. simpl.
  rewrite IH, Hy. done.
Qed.

(** C3: whatever borrows, fails or restarts meanwhile, at every moment of the settlement job and
    for every peer: what was recorded as borrowed is pending or cleared; what was cleared at the
    fixed rate has been paid, to within a sat a batch; and what was paid beyond that went to
    batches paid again, which number at most the payments answered without their proof, the
    marks that failed and the restarts (and one in flight, while a pass runs). *)
Theorem settlement_accounts trusted o j p :
  star job_step (Ret (Ok []), opened trusted o) j →
  let w := j.2 in
  let rate := MESH_SETTLEMENT_MILLISATS_PER_TOKEN in
  total p (w_records w) = pending_borrowed (w_tally w) p + total p (w_marked w) ∧
  rate * total p (w_marked w) ≤ 1000 * paid p w + 999 * count p (w_marked w) ∧
  ∃ again, batches w ≡ₚ w_marked w ++ again ∧
    1000 * paid p w ≤ rate * (total p (w_marked w) + total p again) ∧
    (length again ≤ excuses w + match j.1 with Ret _ => 0 | Call _ _ => 1 end)%nat.
Proof.
  intros (l & [Hp Ht Hc Hx] & Hl)%(accounts_at MESH_SETTLEMENT_MILLISATS_PER_TOKEN); [|done].
  set (rate := MESH_SETTLEMENT_MILLISATS_PER_TOKEN) in *. cbv zeta.
  apply submseteq_Permutation in Hc as [more Hc].
  assert (batches (j.2) ≡ₚ w_marked j.2 ++ (l ++ more)) as Hb.
  { rewrite Hc, (Permutation_app_comm l), <-app_assoc. done. }
  assert (paid p j.2 = total p (batch_sats rate <$> w_marked j.2) +
                       total p (batch_sats rate <$> (l ++ more))) as Epaid.
  { rewrite (paid_batches rate) by done. rewrite <-total_app, <-fmap_app. by apply total_perm, fmap_Permutation. }
  pose proof (batch_rounding rate p (w_marked j.2)). pose proof (batch_rounding rate p (l ++ more)).
  specialize (Ht p) as [Hr Hsum]. split; [|split].
  - unfold pending_borrowed. rewrite as_u64_nonneg by done. lia.
  - lia.
  - exists (l ++ more). split; [done|]. split; [lia|].
    apply Permutation_length in Hb. unfold batches in Hb. rewrite length_fmap, length_app in Hb. lia.
Qed.

Lemma Forall2_elem_impl {A B} (P Q : A → B → Prop) l k :
  Forall2 P l k → (∀ a b, a ∈ l → P a b → Q a b) → Forall2 Q l k.
Proof.
  induction 1 as [|a b l k Hab _ IH]; intros H; constructor.
  - apply H; [left|done].
  - apply IH. intros c d Hc. apply H. by right.
Qed.

(** ** A pass in which nothing fails *)

(** The database answers, peers issue the invoices they are asked for, and the wallet releases
    the proof of what it sends. *)
Definition honest (w : World) : Prop :=
  o_db_error (w_outside w) = None ∧
  ∀ p a, ∃ i pre, o_invoice (w_outside w) p a = Ok i ∧
    o_prepare (w_outside w) i = Ok (invoice_sats a) ∧ o_send (w_outside w) i = SentLightning (Some pre).

Definition payable (rate n : N) : bool := (MSATS_PER_SAT <=? n * rate) && (n * rate <=? u64_max).

Definition outcome_ok (rate : N) (p : PeerId) (n : N) (o : SettlementOutcome) : Prop :=
  if n =? 0 then o = NothingPending p
  else if u64_max <? n * rate then o = Failed p (AmountOverflow n rate)
  else if n * rate <? MSATS_PER_SAT then o = BelowSettlementMinimum p (n * rate)
  else ∃ preimage, o = Settled p (n * rate) preimage.

(** What a pass leaves of a peer's pending tokens, and the sats it pays for them. *)
Definition left_pending (rate n : N) : N := if payable rate n then 0 else n.
Definition pass_sats (rate n : N) : N := if payable rate n then n * rate / 1000 else 0.

Lemma run_settled rate {A} (p : Prog MeshCall A) w :
  safe mesh_handler outside (accounts_now rate) (settled_up rate) p (accounts rate []) →
  accounts rate [] w → accounts rate [] (run mesh_handler p w).2.
Proof.
  intros Hs Hw. pose proof (safe_sound _ _ _ _ _ _ _ _ Hs Hw (run_steps mesh_handler outside p w)) as [_ H].
  exact (H _ eq_refl).
Qed.

Lemma settle_one_unpayable rate p w :
  o_db_error (w_outside w) = None → payable rate (pending_borrowed (w_tally w) p) = false →
  ∃ o, run mesh_handler (settle_one p rate) w = (o, w) ∧
    outcome_ok rate p (pending_borrowed (w_tally w) p) o.
Proof.
  intros Hdb Hp. unfold settle_one, outcome_ok, payable in *. cbn [run mesh_handler].
  unfold statement. rewrite Hdb. set (n := pending_borrowed (w_tally w) p) in *. clearbody n. cbv beta match zeta.
  destruct (n =? 0); [by eexists|]. destruct (u64_max <? n * rate) eqn:E1; [by eexists|].
  destruct (n * rate <? MSATS_PER_SAT) eqn:E2; [by eexists|].
  apply N.ltb_ge in E1, E2. apply N.leb_le in E1, E2. by rewrite E1, E2 in Hp.
Qed.

Lemma settle_one_payable rate p w :
  honest w → accounts rate [] w → payable rate (pending_borrowed (w_tally w) p) = true →
  let n := pending_borrowed (w_tally w) p in
  ∃ t i pre, mark_settled (w_tally w) p n = Some t ∧
    run mesh_handler (settle_one p rate) w =
      (Settled p (n * rate) pre,
       with_mark t p n (with_payment {| py_peer := p; py_tokens := n; py_sats := n * rate / 1000;
                                        py_invoice := i |} true w)).
Proof.
  intros [Hdb Hon] Ha Hp n. assert (owes p n w) as Ho.
  { unfold owes, n, pending_borrowed. pose proof (acc_tally _ _ _ Ha p) as [Hr _].
    rewrite as_u64_nonneg by done. lia. }
  unfold payable in Hp. apply andb_prop in Hp as [H1%N.leb_le H2%N.leb_le]. fold n in H1, H2.
  unfold MSATS_PER_SAT in H1. assert (0 < n) as Hn by (destruct (N.eq_0_gt_0_cases n) as [->|]; [lia|done]).
  destruct (owed_is_marked p n w Hn (acc_tally _ _ _ Ha) Ho) as [t Ht].
  destruct (Hon p (n * rate)) as (i & pre & Hi & Hq & Hs). exists t, i, pre. split; [done|].
  unfold settle_one. cbn [run mesh_handler]. unfold statement at 1. rewrite Hdb. cbv beta match zeta.
  fold n. rewrite (proj2 (N.eqb_neq n 0)) by lia. rewrite (proj2 (N.ltb_ge u64_max (n * rate))) by lia.
  rewrite (proj2 (N.ltb_ge (n * rate) MSATS_PER_SAT)) by (unfold MSATS_PER_SAT; lia).
  cbn [run mesh_handler]. rewrite Hi. rewrite run_bind. unfold batch_settle. cbn [run mesh_handler].
  rewrite Hq. unfold invoice_sats. rewrite N.eqb_refl. cbn [negb run mesh_handler].
  unfold send_payment. rewrite Hs. cbn [run mesh_handler with_payment w_outside w_tally sr_preimage fst snd].
  unfold statement. cbn [w_outside with_payment]. rewrite Hdb, Ht. done.
Qed.

Lemma tally_row_marked t p n t' q :
  mark_settled t p n = Some t' →
  tokens_borrowed (tally_row t' q) =
    (tokens_borrowed (tally_row t q) - if decide (q = p) then as_i64 n else 0)%Z.
Proof.
  intros (row & Hrow & _ & ->)%mark_settled_row. rewrite tally_row_insert.
  case_decide as E; [subst; unfold tally_row; by rewrite Hrow|lia].
Qed.

(** One peer's turn in such a pass. *)
Lemma settle_one_honest rate p w :
  honest w → accounts rate [] w →
  let n := pending_borrowed (w_tally w) p in
  ∃ o w', run mesh_handler (settle_one p rate) w = (o, w') ∧ outcome_ok rate p n o ∧
    honest w' ∧ accounts rate [] w' ∧ 
    ∀ q, pending_borrowed (w_tally w') q =
           (if decide (q = p) then left_pending rate n else pending_borrowed (w_tally w) q) ∧
         paid q w' = paid q w + if decide (q = p) then pass_sats rate n else 0.
Proof.
  intros Hon Ha n. unfold left_pending, pass_sats. destruct (payable rate n) eqn:Hp.
  - destruct (settle_one_payable rate p w Hon Ha Hp) as (t & i & pre & Ht & Hrun). fold n in Ht, Hrun.
    eexists _, _. split; [exact Hrun|]. split; [|split; [exact Hon|split]].
    + unfold payable in Hp. apply andb_prop in Hp as [H1%N.leb_le H2%N.leb_le]. unfold outcome_ok.
      destruct (n =? 0) eqn:E0; [apply N.eqb_eq in E0; rewrite E0 in H1; unfold MSATS_PER_SAT in H1; lia|].
      rewrite (proj2 (N.ltb_ge _ _) H2), (proj2 (N.ltb_ge _ _) H1). by eexists.
    + pose proof (run_settled rate _ w (settle_one_safe rate p) Ha) as H. by rewrite Hrun in H.
    + intros q. split.
      * cbn [w_tally with_mark]. unfold pending_borrowed. rewrite (tally_row_marked _ _ _ _ q Ht).
        case_decide as E; [|by rewrite Z.sub_0_r]. subst q. unfold n, pending_borrowed.
        pose proof (acc_tally _ _ _ Ha p) as [Hr _]. rewrite (as_u64_nonneg _ Hr).
        unfold as_i64. rewrite bool_decide_true by lia. rewrite Z2N.id by lia. by rewrite Z.sub_diag.
      * unfold paid. cbn [w_payments with_mark with_payment]. rewrite fmap_cons. cbn [total foldr fst snd py_peer py_sats].
        fold (total q ((λ y, (py_peer y, py_sats y)) <$> w_payments w)).
        destruct (decide (q = p)) as [->|E]; [rewrite decide_True by done; lia|].
        rewrite decide_False by congruence. lia.
  - destruct (settle_one_unpayable rate p w (proj1 Hon) Hp) as (o & Hrun & Ho).
    exists o, w. split; [done|]. split; [done|]. split; [done|]. split; [done|].
    intros q. split; case_decide; subst; lia || done.
Qed.

Lemma settle_each_honest rate peers w :
  honest w → accounts rate [] w → NoDup peers →
  ∃ os w', run mesh_handler (settle_each peers rate) w = (os, w') ∧
    Forall2 (λ p o, outcome_ok rate p (pending_borrowed (w_tally w) p) o) peers os ∧
    ∀ q, pending_borrowed (w_tally w') q =
           (if decide (q ∈ peers) then left_pending rate (pending_borrowed (w_tally w) q)
            else pending_borrowed (w_tally w) q) ∧
         paid q w' = paid q w +
           if decide (q ∈ peers) then pass_sats rate (pending_borrowed (w_tally w) q) else 0.
Proof.
  revert w. induction peers as [|p peers IH]; intros w Hon Ha Hnd.
  { exists [], w. split; [done|]. split; [constructor|]. intros q.
    rewrite !decide_False by set_solver. split; [done|lia]. }
  apply NoDup_cons in Hnd as [Hp Hnd].
  destruct (settle_one_honest rate p w Hon Ha) as (o & w1 & Hr1 & Ho & Hon1 & Ha1 & Hq1).
  destruct (IH w1 Hon1 Ha1 Hnd) as (os & w2 & Hr2 & Hos & Hq2).
  exists (o :: os), w2. split; [|split].
  - cbn [settle_each]. rewrite run_bind, Hr1, run_bind, Hr2. done.
  - constructor; [done|]. apply (Forall2_elem_impl _ _ _ _ Hos). intros q o' Hq H.
    destruct (Hq1 q) as [E _]. rewrite decide_False in E by set_solver. by rewrite E in H.
  - intros q. destruct (Hq1 q) as [E1 E2], (Hq2 q) as [E3 E4]. rewrite E3, E4, E1, E2.
    destruct (decide (q = p)) as [->|Hqp].
    + rewrite !(decide_False (P := p ∈ peers)) by done. rewrite !(decide_True (P := p ∈ p :: peers)) by set_solver.
      split; [done|lia].
    + destruct (decide (q ∈ peers)); [rewrite !(decide_True (P := q ∈ p :: peers)) by set_solver|
        rewrite !(decide_False (P := q ∈ p :: peers)) by set_solver]; split; first [done | lia].
Qed.

(** A pass in which nothing fails, from any idle moment of the job, answers each trusted
    peer its outcome, clears exactly the peers who are owed at least a sat and pays each of them
    its amount rounded down to sats, once; nobody else's tally or account is touched. *)
Theorem honest_pass_settles trusted o r w :
  star job_step (Ret (Ok []), opened trusted o) (Ret r, w) → honest w → NoDup (w_trusted w) →
  let rate := MESH_SETTLEMENT_MILLISATS_PER_TOKEN in
  ∃ os w', run mesh_handler (run_once rate) w = (Ok os, w') ∧
    Forall2 (λ p o, outcome_ok rate p (pending_borrowed (w_tally w) p) o) (w_trusted w) os ∧
    ∀ q, pending_borrowed (w_tally w') q =
           (if decide (q ∈ w_trusted w) then left_pending rate (pending_borrowed (w_tally w) q)
            else pending_borrowed (w_tally w) q) ∧
         paid q w' = paid q w +
           if decide (q ∈ w_trusted w) then pass_sats rate (pending_borrowed (w_tally w) q) else 0.
Proof.
  intros (l & Ha & Hl)%(accounts_at MESH_SETTLEMENT_MILLISATS_PER_TOKEN) Hon Hnd rate; [|done].
  destruct l; [|simpl in Hl; lia].
  destruct (settle_each_honest rate (w_trusted w) w Hon Ha Hnd) as (os & w' & Hr & Hos & Hq).
  exists os, w'. split; [|done]. unfold run_once. change (rate =? 0) with false. cbn [run mesh_handler].
  unfold statement. rewrite (proj1 Hon). cbv beta match.
  rewrite run_bind. fold rate. by rewrite Hr.
Qed.

(** ** A pass whose payment is made and not proven *)

(** Everything works, except that the wallet answers a send before its preimage is known. *)
Definition proof_withheld (w : World) : Prop :=
  o_db_error (w_outside w) = None ∧
  ∀ p a, ∃ i, o_invoice (w_outside w) p a = Ok i ∧
    o_prepare (w_outside w) i = Ok (invoice_sats a) ∧ o_send (w_outside w) i = SentLightning None.

Definition passes (k : nat) (w : World) : World :=
  Nat.iter k (λ w, (run mesh_handler (run_once MESH_SETTLEMENT_MILLISATS_PER_TOKEN) w).2) w.

Lemma withheld_pass p w :
  proof_withheld w → w_trusted w = [p] →
  payable MESH_SETTLEMENT_MILLISATS_PER_TOKEN (pending_borrowed (w_tally w) p) = true →
  ∃ i, run mesh_handler (run_once MESH_SETTLEMENT_MILLISATS_PER_TOKEN) w =
    (Ok [Failed p (PaymentFailed NoPreimageReleased)],
     with_payment {| py_peer := p; py_tokens := pending_borrowed (w_tally w) p;
                     py_sats := pass_sats MESH_SETTLEMENT_MILLISATS_PER_TOKEN (pending_borrowed (w_tally w) p);
                     py_invoice := i |} false w).
Proof.
  intros [Hdb Hon] Htr Hp. unfold pass_sats. rewrite Hp.
  unfold run_once. set (rate := MESH_SETTLEMENT_MILLISATS_PER_TOKEN) in *. change (rate =? 0) with false.
  cbn [run mesh_handler]. unfold statement at 1. rewrite Hdb, Htr. cbv beta match.
  rewrite run_bind. cbn [settle_each]. rewrite run_bind. unfold settle_one. cbn [run mesh_handler].
  unfold statement at 1. rewrite Hdb. cbv beta match zeta.
  set (n := pending_borrowed (w_tally w) p) in *. clearbody n rate.
  unfold payable in Hp. apply andb_prop in Hp as [H1%N.leb_le H2%N.leb_le].
  destruct (Hon p (n * rate)) as (i & Hi & Hq & Hs). exists i.
  rewrite (proj2 (N.eqb_neq n 0)) by (unfold MSATS_PER_SAT in H1; intros ->; lia).
  rewrite (proj2 (N.ltb_ge _ _) H2), (proj2 (N.ltb_ge _ _) H1).
  cbn [run mesh_handler]. rewrite Hi. rewrite run_bind. unfold batch_settle. cbn [run mesh_handler].
  rewrite Hq. unfold invoice_sats. rewrite N.eqb_refl. cbn [negb run mesh_handler].
  unfold send_payment. rewrite Hs. done.
Qed.

(** While the wallet answers sends without a preimage, every pass pays the same tokens
    again: the payment is made, the outcome says it failed, and the tally still holds the debt.
    After [k] passes a peer owed once has been paid [k] times. *)
Theorem unproven_payment_repeats p w k :
  proof_withheld w → w_trusted w = [p] →
  payable MESH_SETTLEMENT_MILLISATS_PER_TOKEN (pending_borrowed (w_tally w) p) = true →
  w_tally (passes k w) = w_tally w ∧ w_records (passes k w) = w_records w ∧
  (run mesh_handler (run_once MESH_SETTLEMENT_MILLISATS_PER_TOKEN) (passes k w)).1 =
    Ok [Failed p (PaymentFailed NoPreimageReleased)] ∧
  paid p (passes k w) = paid p w +
    N.of_nat k * pass_sats MESH_SETTLEMENT_MILLISATS_PER_TOKEN (pending_borrowed (w_tally w) p).
Proof.
  intros Hon Htr Hp.
  assert (w_tally (passes k w) = w_tally w ∧ w_records (passes k w) = w_records w ∧
    w_outside (passes k w) = w_outside w ∧ w_trusted (passes k w) = w_trusted w ∧
    paid p (passes k w) = paid p w +
      N.of_nat k * pass_sats MESH_SETTLEMENT_MILLISATS_PER_TOKEN (pending_borrowed (w_tally w) p))
    as (Ht & Hr & Ho & Htr' & Hpaid).
  { induction k as [|k (Ht & Hr & Ho & Htr' & IH)]; [simpl; repeat split; lia|].
    destruct (withheld_pass p (passes k w)) as (i & Hrun).
    { unfold proof_withheld. by rewrite Ho. } { by rewrite Htr'. } { by rewrite Ht. }
    change (passes (S k) w) with
      (run mesh_handler (run_once MESH_SETTLEMENT_MILLISATS_PER_TOKEN) (passes k w)).2.
    rewrite Hrun. cbn [snd w_tally w_records w_outside w_trusted with_payment].
    split; [done|]. split; [done|]. split; [done|]. split; [done|].
    unfold paid in *. cbn [w_payments with_payment]. rewrite fmap_cons.
    cbn [total foldr fst snd py_peer py_sats]. rewrite decide_True by done. fold (total p ((λ y, (py_peer y, py_sats y)) <$> w_payments (passes k w))).
    rewrite IH, Ht. lia. }
  split; [done|]. split; [done|]. split; [|done].
  destruct (withheld_pass p (passes k w)) as (i & Hrun); [..|by rewrite Hrun].
  { unfold proof_withheld. by rewrite Ho. } { by rewrite Htr'. } { by rewrite Ht. }
Qed.

(** ** Concrete runs *)

Definition demo_outside (sent : SendAnswer) : Outside :=
  {| o_db_error := None; o_invoice := λ _ a, Ok [a]; o_prepare := λ i, Ok (invoice_sats (hd 0 i));
     o_send := λ _, sent; o_now := 0 |}.

Definition after {A} (w : World) (p : Prog MeshCall A) : World := (run mesh_handler p w).2.
Definition demo_world (sent : SendAnswer) (n : N) : World :=
  {| w_tally := record_borrowed ∅ [1] n; w_trusted := [[1]]; w_outside := demo_outside sent;
     w_records := [([1], n)]; w_payments := []; w_marked := []; w_unproven := 0; w_unmarked := 0;
     w_restarts := 0 |}.

Lemma job_pass r w :
  star job_step (Ret r, w)
    (Ret (run mesh_handler (settlement_tick true) w).1, after w (settlement_tick true)).
Proof.
  eapply star_step; [apply (job_ticks r w true)|].
  refine (star_mono _ _ _ _ _ (run_steps mesh_handler outside (settlement_tick true) w)).
  intros j j'. apply job_runs.
Qed.

Lemma demo_borrowed sent n :
  n ≤ u32_max →
  star job_step (Ret (Ok []), opened [[1]] (demo_outside sent)) (Ret (Ok []), demo_world sent n).
Proof.
  intros Hn. apply star_one, job_runs, cs_env. apply (outside_borrows (opened [[1]] (demo_outside sent)) [1] n Hn).
  unfold opened, tally_row, u32_max, i64_max in *. simpl. rewrite lookup_empty. simpl. lia.
Qed.

Definition demo_job : Job :=
  let w := demo_world (SentLightning (Some [7])) 1001 in
  (Ret (run mesh_handler (settlement_tick true) w).1, after w (settlement_tick true)).

Lemma demo_job_reached :
  star job_step (Ret (Ok []), opened [[1]] (demo_outside (SentLightning (Some [7])))) demo_job.
Proof.
  assert (1001 ≤ u32_max) as Hn by (unfold u32_max; lia).
  exact (star_trans _ _ _ _ (demo_borrowed (SentLightning (Some [7])) 1001 Hn)
           (job_pass (Ok []) (demo_world (SentLightning (Some [7])) 1001))).
Qed.

Lemma settlement_accounts_witness :
  total [1] (w_records demo_job.2) = 1001 ∧ paid [1] demo_job.2 = 30 ∧
  total [1] (w_records demo_job.2) =
    pending_borrowed (w_tally demo_job.2) [1] + total [1] (w_marked demo_job.2) ∧
  30 * total [1] (w_marked demo_job.2) ≤ 1000 * paid [1] demo_job.2 + 999 * count [1] (w_marked demo_job.2).
Proof.
  destruct (settlement_accounts _ _ _ [1] demo_job_reached) as (H1 & H2 & _).
  split; [vm_compute; reflexivity|]. split; [vm_compute; reflexivity|]. split; [exact H1|exact H2].
Defined.

Lemma honest_pass_settles_witness :
  ∃ os w', run mesh_handler (run_once 30) (demo_world (SentLightning (Some [7])) 1001) = (Ok os, w') ∧
    pending_borrowed (w_tally w') [1] = 0 ∧ paid [1] w' = 30.
Proof.
  destruct (honest_pass_settles _ _ _ _ (demo_borrowed (SentLightning (Some [7])) 1001 ltac:(vm_compute; discriminate)))
    as (os & w' & Hr & _ & Hq).
  - split; [done|]. intros p a. by exists [a], [7].
  - apply NoDup_singleton.
  - exists os, w'. split; [exact Hr|]. destruct (Hq [1]) as [E1 E2]. rewrite E1, E2.
    split; vm_compute; reflexivity.
Defined.

Lemma unproven_payment_repeats_witness :
  w_records (passes 3 (demo_world (SentLightning None) 1001)) = [([1], 1001)] ∧
  paid [1] (passes 3 (demo_world (SentLightning None) 1001)) = 90.
Proof.
  destruct (unproven_payment_repeats [1] (demo_world (SentLightning None) 1001) 3) as (_ & H1 & _ & H2).
  - split; [done|]. intros p a. by exists [a].
  - done.
  - vm_compute. reflexivity.
  - split; [exact H1|]. rewrite H2. vm_compute. reflexivity.
Defined.
