(* ===== verification/Lend.v ===== *)
(** * Lend: a pond answers with a trusted peer's model, and both keep the account

    [MeshInferenceService::serve_request] and the lend window (the lender) and
    [MeshInferenceProvider] (the borrower) of crates/pond-adapters-mesh-inference, with the
    credit of pond-infra/src/sqlite_credit_ledger.rs. A provider's stream is the list of what it
    yields, and a model, an argument; the chunks sent are a list in order. A send that fails is
    only logged, so the lender goes on as if it had been received. The borrower's side hands each frame over
    in a task of its own, so what it borrows may come out of order: its bill is the same in any order, its
    texts are those sent when the order is. *)
From S2P Require Import Prelude Prog Text Thought Settle.
From Stdlib Require Import NArith ZArith Lia.
Open Scope N_scope.

(** ** What is streamed, and what goes over the wire *)

Record UsageStats := { us_prompt : N; us_completion : N; us_reasoning : option N }.
Inductive StreamToken : Type := TokenText (t : text) | TokenUsage (u : UsageStats).

Record ChatMessageWire := { cm_role : text; cm_content : text }.
Record InferenceRequest := {
  ir_request_id : N; ir_system_prompt : text; ir_messages : list ChatMessageWire; ir_max_tokens : N }.
Record UsageWire := { uw_prompt : N; uw_completion : N; uw_charged : N }.
Inductive ChunkKind : Type := KText (t : text) | KUsage (u : UsageWire) | KError (message : text).
Record InferenceChunk := { ic_request_id : N; ic_seq : N; ic_kind : option ChunkKind }.

(** ** The lend window *)

Record LendWindowState := { lw_started_at : Z; lw_tokens_lent : N }.
Notation LendWindow := (gmap PeerId LendWindowState).

(** [lend_window_check], with its readings of the clock: for a new entry, for the age of the
    window and for its new start. *)
Definition lend_window_check (duration : N) (peer : PeerId) (ceiling : N) (t1 t2 t3 : Z) (w : LendWindow) :
    bool * LendWindow :=
  if ceiling =? 0 then (true, w) else
  let state := default {| lw_started_at := t1; lw_tokens_lent := 0 |} (w !! peer) in
  let state := if bool_decide (lw_started_at state + Z.of_N duration ≤ t2)%Z
               then {| lw_started_at := t3; lw_tokens_lent := 0 |} else state in
  (lw_tokens_lent state <? ceiling, <[peer := state]> w).

Definition lend_window_record (peer : PeerId) (tokens : N) (w : LendWindow) : LendWindow :=
  match w !! peer with
  | Some state =>
      <[peer := {| lw_started_at := lw_started_at state;
                   lw_tokens_lent := N.min u64_max (lw_tokens_lent state + tokens) |}]> w
  | None => w
  end.

(** ** The lender *)

Definition MAX_EMPTY_COMPLETION_ATTEMPTS : nat := 2.

(** The locals of one attempt, and what it has sent. *)
Record Attempt := {
  at_pending : list InferenceChunk;
  at_filter : ThoughtFilter;
  at_seen : bool;
  at_seq : N;
  at_estimated : N;
  at_usage : option UsageWire;
  at_sent : list InferenceChunk }.

Definition attempt_new : Attempt :=
  {| at_pending := []; at_filter := thought_new; at_seen := false; at_seq := 0; at_estimated := 0;
     at_usage := None; at_sent := [] |}.

Definition is_blank (t : text) : bool := is_empty (trim t).

Definition estimate (t : text) : N := (N.of_nat (length t) / 4) mod (u32_max + 1).

Definition take_text (id : N) (st : Attempt) (t : text) : Attempt :=
  let '(visible, filter) := push (at_filter st) t in
  let chunk := {| ic_request_id := id; ic_seq := at_seq st; ic_kind := Some (KText t) |} in
  let next pending seen sent :=
    {| at_pending := pending; at_filter := filter; at_seen := seen; at_seq := u32_incr (at_seq st);
       at_estimated := u32_sat_add (at_estimated st) (estimate t); at_usage := at_usage st;
       at_sent := sent |} in
  if at_seen st then next (at_pending st) true (at_sent st ++ [chunk])
  else if negb (is_blank visible) then next [] true (at_sent st ++ at_pending st ++ [chunk])
  else next (at_pending st ++ [chunk]) false (at_sent st).

Definition take_usage (st : Attempt) (u : UsageStats) : Attempt :=
  {| at_pending := at_pending st; at_filter := at_filter st; at_seen := at_seen st; at_seq := at_seq st;
     at_estimated := at_estimated st;
     at_usage := Some {| uw_prompt := us_prompt u; uw_completion := us_completion u; uw_charged := 0 |};
     at_sent := at_sent st |}.

(** The loop over the stream: the attempt left, and the error that ended it. *)
Fixpoint read_stream (id max_tokens : N) (items : list (result StreamToken text)) (st : Attempt) :
    Attempt * option text :=
  match items with
  | [] => (st, None)
  | Ok (TokenText t) :: items =>
      let st := take_text id st t in
      if max_tokens <=? at_estimated st then (st, None) else read_stream id max_tokens items st
  | Ok (TokenUsage u) :: items => read_stream id max_tokens items (take_usage st u)
  | Err e :: _ => (st, Some e)
  end.

Inductive LendEnd : Type := LendErrored | LendServed (sent_usage : option UsageWire).

(** The attempts from [attempt] on, [rest] of them. *)
Fixpoint serve_attempts (provider : nat → list (result StreamToken text)) (id max_tokens : N)
    (rest attempt : nat) (discarded : N) : list InferenceChunk * LendEnd :=
  match rest with
  | O => ([], LendServed None)
  | S rest =>
      let chunk st kind := {| ic_request_id := id; ic_seq := at_seq st; ic_kind := Some kind |} in
      match read_stream id max_tokens (provider attempt) attempt_new with
      | (st, Some e) => (at_sent st ++ at_pending st ++ [chunk st (KError e)], LendErrored)
      | (st, None) =>
          let shows := negb (at_seen st) && negb (is_blank (flush (at_filter st))) in
          let sent := if shows then at_sent st ++ at_pending st else at_sent st in
          if (at_seen st || shows) || bool_decide (rest = O) then
            let usage := default {| uw_prompt := 0; uw_completion := at_estimated st; uw_charged := 0 |}
                           (at_usage st) in
            let usage := {| uw_prompt := uw_prompt usage; uw_completion := uw_completion usage;
                            uw_charged := u32_sat_add discarded (uw_completion usage) |} in
            (sent ++ [chunk st (KUsage usage)], LendServed (Some usage))
          else
            let '(chunks, end_) :=
              serve_attempts provider id max_tokens rest (S attempt)
                (u32_sat_add discarded
                   (match at_usage st with Some u => uw_completion u | None => at_estimated st end)) in
            (sent ++ chunks, end_)
      end
  end.

Definition LEND_WINDOW_EXHAUSTED : text :=
  lit "lend window exhausted " ++ [8212] ++
  lit " this pond has reached its lending limit for this peer for the current window; try again shortly".

(** The provider: what each attempt at a prompt streams. *)
Definition Provider : Type := text → list ChatMessageWire → nat → list (result StreamToken text).

(** [serve_request]: the chunks sent, the tokens recorded as lent, the window left. *)
Definition serve_request (provider : Provider) (duration : N) (peer : PeerId) (request : InferenceRequest)
    (settings : result N text) (t1 t2 t3 : Z) (w : LendWindow) :
    list InferenceChunk * option N * LendWindow :=
  let ceiling := match settings with Ok c => c | Err _ => 0 end in
  let '(may, w) := lend_window_check duration peer ceiling t1 t2 t3 w in
  if negb may then
    ([{| ic_request_id := ir_request_id request; ic_seq := 0;
         ic_kind := Some (KError LEND_WINDOW_EXHAUSTED) |}], None, w)
  else
    match serve_attempts (provider (ir_system_prompt request) (ir_messages request))
            (ir_request_id request) (ir_max_tokens request) MAX_EMPTY_COMPLETION_ATTEMPTS 0 0 with
    | (chunks, LendErrored) => (chunks, None, w)
    | (chunks, LendServed usage) =>
        let charged := match usage with Some u => uw_charged u | None => 0 end in
        (chunks, Some charged, lend_window_record peer charged w)
    end.

(** ** The borrower *)

Notation Credit := (gmap PeerId Z).

Definition balance (c : Credit) (peer : PeerId) : N := as_u64 (default 0%Z (c !! peer)).
Definition credit (c : Credit) (peer : PeerId) (amount : N) : Credit :=
  <[peer := (default 0 (c !! peer) + as_i64 amount)%Z]> c.
Definition debit (c : Credit) (peer : PeerId) (amount : N) : option Credit :=
  match c !! peer with
  | Some b => if bool_decide (as_i64 amount ≤ b)%Z then Some (<[peer := (b - as_i64 amount)%Z]> c) else None
  | None => None
  end.

Definition DEFAULT_MAX_TOKENS : N := 2048.

(** The first trusted, connected peer with credit. *)
Fixpoint select_funded (connected : gset PeerId) (c : Credit) (trusted : list PeerId) : option PeerId :=
  match trusted with
  | [] => None
  | peer :: trusted =>
      if negb (bool_decide (peer ∈ connected)) then select_funded connected c trusted
      else if 0 <? balance c peer then Some peer else select_funded connected c trusted
  end.

(** What the wait for the next chunk gives. *)
Inductive Received : Type := Got (c : InferenceChunk) | ChannelClosed | TimedOut.
Inductive MeshInferenceError : Type := PeerError (message : text) | Timeout.
Inductive Yielded : Type :=
| YieldText (t : text) | YieldUsage (prompt completion : N) | YieldError (e : MeshInferenceError).

Definition billed_tokens (u : UsageWire) : N :=
  if 0 <? uw_charged u then uw_charged u else uw_completion u.

(** The loop of [stream_complete]: what it yields, and the tokens it is billed. *)
Fixpoint borrow (replies : list Received) : list Yielded * option N :=
  match replies with
  | [] => ([], None)
  | Got c :: replies =>
      match ic_kind c with
      | Some (KText t) => let '(ys, billed) := borrow replies in (YieldText t :: ys, billed)
      | Some (KUsage u) => ([YieldUsage (uw_prompt u) (uw_completion u)], Some (billed_tokens u))
      | Some (KError m) => ([YieldError (PeerError m)], None)
      | None => borrow replies
      end
  | (ChannelClosed | TimedOut) :: _ => ([YieldError Timeout], None)
  end.

(** Billed: recorded as borrowed, and debited at the fixed rate; a debit refused is only logged. *)
Definition bill (peer : PeerId) (billed : N) (t : Tally) (c : Credit) : Tally * Credit :=
  (record_borrowed t peer billed,
   default c (debit c peer (billed * MESH_SETTLEMENT_MILLISATS_PER_TOKEN))).

(** ** What a reply is: an attempt's texts, all of them or none *)

(** What an attempt reads: texts up to the cap, the last usage, the estimate, and an error. *)
Record Reading := { rd_texts : list text; rd_usage : option UsageWire; rd_estimated : N; rd_error : option text }.

Fixpoint reading (max_tokens : N) (items : list (result StreamToken text)) (u : option UsageWire) (est : N) :
    Reading :=
  match items with
  | [] => {| rd_texts := []; rd_usage := u; rd_estimated := est; rd_error := None |}
  | Ok (TokenText t) :: items =>
      let est := u32_sat_add est (estimate t) in
      let r := if max_tokens <=? est
               then {| rd_texts := []; rd_usage := u; rd_estimated := est; rd_error := None |}
               else reading max_tokens items u est in
      {| rd_texts := t :: rd_texts r; rd_usage := rd_usage r; rd_estimated := rd_estimated r;
         rd_error := rd_error r |}
  | Ok (TokenUsage s) :: items =>
      reading max_tokens items
        (Some {| uw_prompt := us_prompt s; uw_completion := us_completion s; uw_charged := 0 |}) est
  | Err e :: _ => {| rd_texts := []; rd_usage := u; rd_estimated := est; rd_error := Some e |}
  end.

(** The pieces a member would be shown, one per chunk and the last at the end. *)
Fixpoint pieces (f : ThoughtFilter) (texts : list text) : list text :=
  match texts with
  | [] => [flush f]
  | t :: texts => (push f t).1 :: pieces (push f t).2 texts
  end.
Definition shows_something (texts : list text) : bool :=
  existsb (λ t, negb (is_blank t)) (pieces thought_new texts).

Definition reported (r : Reading) : N :=
  match rd_usage r with Some u => uw_completion u | None => rd_estimated r end.

Definition seq_after (texts : list text) : N := Nat.iter (length texts) u32_incr 0.

Fixpoint numbered (id seq : N) (texts : list text) : list InferenceChunk :=
  match texts with
  | [] => []
  | t :: texts => {| ic_request_id := id; ic_seq := seq; ic_kind := Some (KText t) |} ::
                  numbered id (u32_incr seq) texts
  end.

(** The reply the attempts make: the first that shows something or fails, or the last. *)
Fixpoint reply (readings : nat → Reading) (id : N) (rest attempt : nat) (discarded : N) :
    list InferenceChunk * LendEnd :=
  match rest with
  | O => ([], LendServed None)
  | S rest =>
      let r := readings attempt in
      let texts := numbered id 0 (rd_texts r) in
      let last kind := {| ic_request_id := id; ic_seq := seq_after (rd_texts r); ic_kind := Some kind |} in
      match rd_error r with
      | Some e => (texts ++ [last (KError e)], LendErrored)
      | None =>
          if shows_something (rd_texts r) || bool_decide (rest = O) then
            let usage := {| uw_prompt := default 0 (uw_prompt <$> rd_usage r);
                            uw_completion := reported r;
                            uw_charged := u32_sat_add discarded (reported r) |} in
            ((if shows_something (rd_texts r) then texts else []) ++ [last (KUsage usage)],
             LendServed (Some usage))
          else reply readings id rest (S attempt) (u32_sat_add discarded (reported r))
      end
  end.

(** ** Lemmas: an attempt *)

Lemma numbered_app id seq l1 l2 :
  numbered id seq (l1 ++ l2) = numbered id seq l1 ++ numbered id (Nat.iter (length l1) u32_incr seq) l2.
Proof.
  revert seq. induction l1 as [|t l1 IH]; intros seq; [done|].
  cbn [app numbered length]. rewrite IH. by rewrite Nat.iter_succ_r.
Qed.

(** An attempt that has read [texts], and what its filter forwarded of each. *)
Fixpoint filter_after (f : ThoughtFilter) (texts : list text) : ThoughtFilter :=
  match texts with [] => f | t :: texts => filter_after (push f t).2 texts end.
Fixpoint forwarded (f : ThoughtFilter) (texts : list text) : list text :=
  match texts with [] => [] | t :: texts => (push f t).1 :: forwarded (push f t).2 texts end.

Lemma pieces_forwarded f texts : pieces f texts = forwarded f texts ++ [flush (filter_after f texts)].
Proof. revert f. induction texts as [|t texts IH]; intros f; simpl; [done|]. by rewrite IH. Qed.

Lemma filter_after_snoc f texts t : filter_after f (texts ++ [t]) = (push (filter_after f texts) t).2.
Proof. revert f. induction texts as [|u texts IH]; intros f; simpl; [done|]. apply IH. Qed.

Lemma forwarded_snoc f texts t :
  forwarded f (texts ++ [t]) = forwarded f texts ++ [(push (filter_after f texts) t).1].
Proof. revert f. induction texts as [|u texts IH]; intros f; simpl; [done|]. by rewrite IH. Qed.

Definition forwards_something (texts : list text) : bool :=
  existsb (λ t, negb (is_blank t)) (forwarded thought_new texts).

Record has_read (id : N) (texts : list text) (st : Attempt) : Prop := {
  hr_filter : at_filter st = filter_after thought_new texts;
  hr_seen : at_seen st = forwards_something texts;
  hr_seq : at_seq st = seq_after texts;
  hr_sent : at_sent st = if at_seen st then numbered id 0 texts else [];
  hr_pending : at_pending st = if at_seen st then [] else numbered id 0 texts }.

Lemma has_read_new id : has_read id [] attempt_new.
Proof. by split. Qed.

Lemma has_read_text id texts st t : has_read id texts st → has_read id (texts ++ [t]) (take_text id st t).
Proof.
  intros [Hf Hn Hq Hs Hp]. unfold take_text. pose proof (filter_after_snoc thought_new texts t) as Ef.
  assert (forwards_something (texts ++ [t]) =
    at_seen st || negb (is_blank (push (at_filter st) t).1)) as En.
  { unfold forwards_something. rewrite forwarded_snoc, existsb_app. simpl. by rewrite orb_false_r, <-Hf, Hn. }
  rewrite <-Hf in Ef. destruct (push (at_filter st) t) as [visible filter] eqn:E. simpl in Ef, En.
  assert (u32_incr (at_seq st) = seq_after (texts ++ [t])) as Eq.
  { unfold seq_after in *. rewrite length_app, Nat.add_1_r, Hq. done. }
  assert (numbered id 0 (texts ++ [t]) = numbered id 0 texts ++
    [{| ic_request_id := id; ic_seq := at_seq st; ic_kind := Some (KText t) |}]) as Enum.
  { rewrite numbered_app. simpl. by rewrite Hq. }
  destruct (at_seen st) eqn:Es; [|destruct (negb (is_blank visible)) eqn:Ev]; simpl in En;
    (split; cbn [at_filter at_seen at_seq at_sent at_pending]; try done; try congruence).
  rewrite Hs, Hp. by rewrite Enum.
Qed.

Lemma has_read_usage id texts st u : has_read id texts st → has_read id texts (take_usage st u).
Proof. intros [? ? ? ? ?]. by split. Qed.

Lemma read_stream_spec id max items texts st :
  has_read id texts st →
  let r := reading max items (at_usage st) (at_estimated st) in
  let '(st', e) := read_stream id max items st in
  has_read id (texts ++ rd_texts r) st' ∧ at_usage st' = rd_usage r ∧
  at_estimated st' = rd_estimated r ∧ e = rd_error r.
Proof.
  revert texts st. induction items as [|[[t|u]|e] items IH]; intros texts st Hst.
  - simpl. by rewrite app_nil_r.
  - pose proof (has_read_text _ _ _ t Hst) as Ht.
    assert (at_usage (take_text id st t) = at_usage st ∧
      at_estimated (take_text id st t) = u32_sat_add (at_estimated st) (estimate t)) as [Eu Ee].
    { unfold take_text. destruct (push (at_filter st) t) as [v f]. by destruct (at_seen st), (negb (is_blank v)). }
    cbn [reading read_stream]. cbv zeta. rewrite Ee. destruct (max <=? u32_sat_add (at_estimated st) (estimate t)).
    + simpl. by rewrite Eu, Ee.
    + specialize (IH _ _ Ht). cbv zeta in IH. rewrite Eu, Ee in IH. destruct (read_stream id max items (take_text id st t)).
      rewrite <-app_assoc in IH. exact IH.
  - cbn [reading read_stream]. apply (IH _ _ (has_read_usage _ _ _ u Hst)).
  - simpl. by rewrite app_nil_r.
Qed.

Lemma lender_reply provider id max rest attempt discarded :
  serve_attempts provider id max rest attempt discarded =
  reply (λ i, reading max (provider i) None 0) id rest attempt discarded.
Proof.
  revert attempt discarded. induction rest as [|rest IH]; intros attempt discarded; [done|].
  cbn [serve_attempts reply]. pose proof (read_stream_spec id max (provider attempt) [] attempt_new (has_read_new id)) as H.
  cbn [at_usage at_estimated attempt_new] in H.
  destruct (read_stream id max (provider attempt) attempt_new) as [st e].
  set (r := reading max (provider attempt) None 0) in *. destruct H as ([Hf Hn Hq Hs Hp] & Hu & He & ->).
  cbn [app] in *. destruct (rd_error r) as [e|].
  { rewrite Hq, Hs, Hp, app_assoc. f_equal. by destruct (at_seen st); rewrite ?app_nil_r. }
  assert (shows_something (rd_texts r) =
    at_seen st || (negb (at_seen st) && negb (is_blank (flush (at_filter st))))) as Esh.
  { unfold shows_something. rewrite pieces_forwarded, existsb_app. cbn [existsb]. rewrite orb_false_r, <-Hf.
    fold (forwards_something (rd_texts r)). rewrite <-Hn. by destruct (at_seen st). }
  rewrite <-Esh. unfold reported. rewrite Hu, He, Hq.
  destruct (shows_something (rd_texts r)) eqn:Es; cbn [orb].
  - f_equal; [|by destruct (rd_usage r)]. f_equal; [|by destruct (rd_usage r)].
    rewrite Hs, Hp. symmetry in Esh. apply orb_prop in Esh as [->|[Ens ->]%andb_prop]; simpl; [done|].
    by rewrite Ens; apply negb_true_iff in Ens as ->.
  - symmetry in Esh. apply orb_false_elim in Esh as [Ens Ef]. rewrite Ens in *. simpl in Ef.
    rewrite Ef. cbn [negb andb]. rewrite Hs.
    destruct (bool_decide (rest = O)).
    + by destruct (rd_usage r).
    + rewrite IH. by destruct (reply _ _ _ _ _).
Qed.

(** What a reply says: all the texts of the first attempt that shows a member something or fails, then
    what ended it; or, when none does, only what the attempts cost. *)
Fixpoint said (readings : nat → Reading) (rest attempt : nat) (discarded : N) : list ChunkKind * LendEnd :=
  match rest with
  | O => ([], LendServed None)
  | S rest =>
      let r := readings attempt in
      match rd_error r with
      | Some e => ((KText <$> rd_texts r) ++ [KError e], LendErrored)
      | None =>
          let usage := {| uw_prompt := default 0 (uw_prompt <$> rd_usage r);
                          uw_completion := reported r;
                          uw_charged := u32_sat_add discarded (reported r) |} in
          if shows_something (rd_texts r) then ((KText <$> rd_texts r) ++ [KUsage usage], LendServed (Some usage))
          else if bool_decide (rest = O) then ([KUsage usage], LendServed (Some usage))
          else said readings rest (S attempt) (u32_sat_add discarded (reported r))
      end
  end.

(** The chunks of a request, numbered on from [seq]. *)
Fixpoint counted (id seq : N) (kinds : list ChunkKind) : list InferenceChunk :=
  match kinds with
  | [] => []
  | k :: kinds => {| ic_request_id := id; ic_seq := seq; ic_kind := Some k |} :: counted id (u32_incr seq) kinds
  end.

Lemma counted_texts id seq texts k :
  numbered id seq texts ++ [{| ic_request_id := id; ic_seq := Nat.iter (length texts) u32_incr seq; ic_kind := Some k |}] =
  counted id seq ((KText <$> texts) ++ [k]).
Proof.
  revert seq. induction texts as [|t texts IH]; intros seq; [done|].
  cbn [numbered fmap list_fmap app counted length]. by rewrite <-IH, Nat.iter_succ_r.
Qed.

Lemma reply_said readings id rest attempt discarded :
  let '(kinds, ended) := said readings rest attempt discarded in
  ∃ n, reply readings id rest attempt discarded = (counted id n kinds, ended) ∧ (n = 0 ∨ ∃ u, kinds = [KUsage u]).
Proof.
  revert attempt discarded. induction rest as [|rest IH]; intros attempt discarded; [exists 0; by auto|]. cbn [said reply].
  destruct (rd_error (readings attempt)) as [e|]; [exists 0; split; [unfold seq_after; by rewrite counted_texts|by left]|].
  destruct (shows_something (rd_texts (readings attempt))) eqn:Es; cbn [orb].
  - exists 0. split; [unfold seq_after; by rewrite counted_texts|by left].
  - destruct (bool_decide (rest = O)); [|apply IH]. exists (seq_after (rd_texts (readings attempt))). split; [done|]. right. by eexists.
Qed.

(** C22: what the lender sends is what its attempts say: all the texts of the first that shows a member
    something or fails, in order, whatever was buffered and when, and one chunk that ends them; all of the
    request, and numbered from 0. When none shows anything the last attempt's texts are withheld too, and
    only its terminal chunk goes out. A discarded attempt is never sent, and its tokens are on the bill. *)
Theorem lender_sends_the_reply provider id max rest attempt discarded :
  let '(kinds, ended) := said (λ i, reading max (provider i) None 0) rest attempt discarded in
  ∃ n, serve_attempts provider id max rest attempt discarded = (counted id n kinds, ended) ∧
    (n = 0 ∨ ∃ u, kinds = [KUsage u]).
Proof. rewrite lender_reply. apply reply_said. Qed.

(** ** The two accounts *)

Definition sent_texts (chunks : list InferenceChunk) : list text :=
  omap (λ c, match ic_kind c with Some (KText t) => Some t | _ => None end) chunks.
Definition yielded_texts (ys : list Yielded) : list text :=
  omap (λ y, match y with YieldText t => Some t | _ => None end) ys.

Lemma borrow_texts id seq texts replies :
  borrow ((Got <$> numbered id seq texts) ++ replies) =
  ((YieldText <$> texts) ++ (borrow replies).1, (borrow replies).2).
Proof.
  revert seq. induction texts as [|t texts IH]; intros seq; [simpl; by destruct (borrow replies)|].
  cbn [numbered]. rewrite fmap_cons, <-app_comm_cons. cbn [borrow ic_kind]. by rewrite IH.
Qed.

(** Every reply is some texts and then one chunk, which ends it. *)
Definition terminal (k : ChunkKind) : bool := match k with KText _ => false | _ => true end.

Lemma reply_shape readings id rest attempt discarded :
  (0 < rest)%nat →
  ∃ texts seq k,
    reply readings id rest attempt discarded =
      (numbered id 0 texts ++ [{| ic_request_id := id; ic_seq := seq; ic_kind := Some k |}],
       match k with KUsage u => LendServed (Some u) | _ => LendErrored end) ∧
    match k with KText _ => False | KUsage u => uw_charged u = 0 → uw_completion u = 0 | KError _ => True end.
Proof.
  revert attempt discarded. induction rest as [|rest IH]; intros attempt discarded Hr; [lia|].
  cbn [reply]. destruct (rd_error (readings attempt)) as [e|]; [by eexists _, _, (KError e); split|].
  destruct (shows_something (rd_texts (readings attempt)) || bool_decide (rest = O)) eqn:E.
  - eexists (if shows_something (rd_texts (readings attempt)) then rd_texts (readings attempt) else []),
      _, (KUsage _). split.
    + by destruct (shows_something (rd_texts (readings attempt))).
    + simpl. unfold u32_sat_add, u32_max. lia.
  - apply orb_false_elim in E as [_ E]. apply bool_decide_eq_false in E. apply IH. lia.
Qed.

Lemma sent_texts_reply id seq texts k n :
  match k with KText _ => False | _ => True end →
  sent_texts (numbered id seq texts ++ [{| ic_request_id := id; ic_seq := n; ic_kind := Some k |}]) = texts.
Proof.
  unfold sent_texts. rewrite omap_app. intros Hk. revert seq. induction texts as [|t texts IH]; intros seq.
  - by destruct k.
  - cbn [numbered omap list_omap ic_kind]. rewrite <-app_comm_cons. f_equal. apply IH.
Qed.

Lemma yielded_texts_app texts ys : yielded_texts ((YieldText <$> texts) ++ ys) = texts ++ yielded_texts ys.
Proof. unfold yielded_texts. induction texts as [|t texts IH]; [done|]. simpl. f_equal. exact IH. Qed.

Lemma take_numbered id seq texts c k :
  (k ≤ length texts)%nat → take k (numbered id seq texts ++ [c]) = numbered id seq (take k texts).
Proof.
  revert seq k. induction texts as [|t texts IH]; intros seq [|k] Hk; simpl in *; try done; [lia|].
  by rewrite IH by lia.
Qed.

Lemma length_numbered id seq texts : length (numbered id seq texts) = length texts.
Proof. revert seq. induction texts as [|t texts IH]; intros seq; simpl; [done|]. by rewrite IH. Qed.

(** The texts of a reply do not matter to its bill, wherever the chunk that ends it comes. *)
Lemma borrow_bill texts c rest :
  Forall (λ c, ∃ t, ic_kind c = Some (KText t)) texts → (borrow (Got <$> texts ++ c :: rest)).2 = (borrow (Got <$> c :: rest)).2.
Proof.
  induction 1 as [|c' texts [t Ht] _ IH]; [done|]. rewrite <-app_comm_cons, fmap_cons. cbn [borrow]. rewrite Ht, <-IH.
  by destruct (borrow (Got <$> texts ++ c :: rest)).
Qed.

Lemma numbered_texts id seq texts : Forall (λ c, ∃ t, ic_kind c = Some (KText t)) (numbered id seq texts).
Proof. revert seq. induction texts as [|t texts IH]; intros seq; constructor; [by exists t|apply IH]. Qed.

Lemma borrow_any_order texts c k chunks :
  Forall (λ c, ∃ t, ic_kind c = Some (KText t)) texts → ic_kind c = Some k → match k with KText _ => False | _ => True end →
  chunks ≡ₚ texts ++ [c] → (borrow (Got <$> chunks)).2 = (borrow [Got c]).2.
Proof.
  intros Ht Hc Hk HP. assert (c ∈ chunks) as (l1 & l2 & ->)%list_elem_of_split by (rewrite HP; apply elem_of_app; right; left).
  assert (l1 ++ l2 ≡ₚ texts) as E.
  { apply (Permutation_app_inv_r [c]). rewrite <-HP. rewrite <-app_assoc, (Permutation_app_comm l2). done. }
  rewrite borrow_bill.
  - cbn [fmap list_fmap borrow]. rewrite Hc. by destruct k.
  - rewrite <-E in Ht. by apply Forall_app in Ht as [? _].
Qed.

Lemma usage_billed id seq u : (uw_charged u = 0 → uw_completion u = 0) →
  (borrow [Got {| ic_request_id := id; ic_seq := seq; ic_kind := Some (KUsage u) |}]).2 = Some (uw_charged u).
Proof.
  intros Hu. simpl. unfold billed_tokens. destruct (0 <? uw_charged u) eqn:E; [done|]. apply N.ltb_ge in E. f_equal. lia.
Qed.

(** C23: a reply that arrives bills the borrower exactly the tokens the lender records as lent, by
    whatever way the attempts went and in whatever order its chunks are handed over, and nothing when it
    was refused or failed; handed over in the order sent, the borrower's texts are the ones that were
    sent. A reply cut short bills nothing. *)
Theorem borrower_and_lender_agree provider duration peer request settings t1 t2 t3 w :
  let '(chunks, lent, _) := serve_request provider duration peer request settings t1 t2 t3 w in
  (borrow (Got <$> chunks)).2 = lent ∧
  (∀ handed, handed ≡ₚ chunks → (borrow (Got <$> handed)).2 = lent) ∧
  yielded_texts (borrow (Got <$> chunks)).1 = sent_texts chunks ∧
  ∀ k, (k < length chunks)%nat → (borrow ((Got <$> take k chunks) ++ [TimedOut])).2 = None.
Proof.
  unfold serve_request. destruct (lend_window_check _ _ _ _ _ _ _) as [[] w']; cbn [negb].
  - rewrite lender_reply.
    destruct (reply_shape (λ i, reading (ir_max_tokens request)
        (provider (ir_system_prompt request) (ir_messages request) i) None 0) (ir_request_id request)
        MAX_EMPTY_COMPLETION_ATTEMPTS 0 0 ltac:(unfold MAX_EMPTY_COMPLETION_ATTEMPTS; lia))
      as (texts & seq & k & -> & Hk).
    set (id := ir_request_id request).
    assert (∀ j, (j < length (numbered id 0 texts ++
        [{| ic_request_id := id; ic_seq := seq; ic_kind := Some k |}]))%nat →
      (borrow ((Got <$> take j (numbered id 0 texts ++
        [{| ic_request_id := id; ic_seq := seq; ic_kind := Some k |}])) ++ [TimedOut])).2 = None) as Hcut.
    { intros j Hj. rewrite length_app, length_numbered in Hj. simpl in Hj.
      rewrite take_numbered by lia. by rewrite borrow_texts. }
    set (c := {| ic_request_id := id; ic_seq := seq; ic_kind := Some k |}) in *.
    assert (∀ handed, handed ≡ₚ numbered id 0 texts ++ [c] → (borrow (Got <$> handed)).2 = (borrow [Got c]).2) as Hany.
    { intros handed. apply (borrow_any_order _ c k); [apply numbered_texts|done|by destruct k]. }
    assert (sent_texts (numbered id 0 texts ++ [c]) = texts) as Hsent by (apply sent_texts_reply; by destruct k).
    assert (yielded_texts (borrow (Got <$> numbered id 0 texts ++ [c])).1 = sent_texts (numbered id 0 texts ++ [c])) as Hy.
    { rewrite Hsent, fmap_app, borrow_texts. cbn [fst]. rewrite yielded_texts_app. destruct k; [done|..]; by rewrite app_nil_r. }
    destruct k as [t|u|m]; [done| |]; (split; [|split; [|split; [exact Hy|exact Hcut]]]).
    + rewrite Hany by done. by apply usage_billed.
    + intros handed Hh. rewrite Hany by done. by apply usage_billed.
    + by rewrite Hany by done.
    + intros handed Hh. by rewrite Hany by done.
  - split; [done|]. split; [|split; [done|]].
    + intros handed ->%Permutation_singleton_r. done.
    + intros k Hk. simpl in Hk. by destruct k; [|lia].
Qed.

(** ** The cap and the estimate *)

Lemma short_texts_reading max texts est :
  est < max → Forall (λ t, (length t < 4)%nat) texts → est ≤ u32_max →
  reading max (Ok ∘ TokenText <$> texts) None est =
    {| rd_texts := texts; rd_usage := None; rd_estimated := est; rd_error := None |}.
Proof.
  intros Hmax Hall Hest. induction Hall as [|t texts Ht _ IH]; [done|].
  rewrite fmap_cons. cbn [reading compose]. cbv zeta.
  assert (u32_sat_add est (estimate t) = est) as ->.
  { unfold estimate. rewrite N.div_small by lia. unfold u32_sat_add. rewrite N.mod_0_l by done. lia. }
  rewrite (proj2 (N.leb_gt max est)) by done. by rewrite IH.
Qed.

(** The cap is on an estimate that counts a chunk's characters by fours, so chunks of up to
    three characters count nothing: however many the provider streams, all of them are sent
    under any cap, and a provider that reports no usage lends them for nothing. *)
Theorem short_chunks_are_never_capped provider id max rest texts :
  0 < max → Forall (λ t, (length t < 4)%nat) texts → shows_something texts = true →
  provider O = Ok ∘ TokenText <$> texts →
  serve_attempts provider id max (S rest) 0 0 =
    (numbered id 0 texts ++
       [{| ic_request_id := id; ic_seq := seq_after texts;
           ic_kind := Some (KUsage {| uw_prompt := 0; uw_completion := 0; uw_charged := 0 |}) |}],
     LendServed (Some {| uw_prompt := 0; uw_completion := 0; uw_charged := 0 |})).
Proof.
  intros Hmax Hall Hshow Hp. rewrite lender_reply. cbn [reply]. rewrite Hp.
  rewrite short_texts_reading by (done || lia). cbn [rd_texts rd_usage rd_estimated rd_error].
  by rewrite Hshow.
Qed.

Lemma short_chunks_are_never_capped_witness :
  serve_attempts (λ _, Ok ∘ TokenText <$> repeat (lit "ab ") 40) 1 2 2 0 0 =
    (numbered 1 0 (repeat (lit "ab ") 40) ++
       [{| ic_request_id := 1; ic_seq := 40;
           ic_kind := Some (KUsage {| uw_prompt := 0; uw_completion := 0; uw_charged := 0 |}) |}],
     LendServed (Some {| uw_prompt := 0; uw_completion := 0; uw_charged := 0 |})).
Proof.
  apply (short_chunks_are_never_capped _ 1 2 1 (repeat (lit "ab ") 40)).
  - lia.
  - apply Forall_forall. intros t Ht%list_elem_of_In%repeat_spec. subst t. vm_compute. lia.
  - vm_compute. reflexivity.
  - reflexivity.
Defined.

(** ** Credit *)

Definition bill_all (peer : PeerId) (bills : list N) (s : Tally * Credit) : Tally * Credit :=
  foldl (λ s billed, bill peer billed s.1 s.2) s bills.

(** A bill larger than what is left of a peer's credit is not debited at all, so the credit
    stays as it is, above zero: the peer is chosen again and again, whatever is borrowed of it,
    and all of it is recorded to be paid. *)
Theorem short_credit_is_never_spent peer others connected bills t c b :
  c !! peer = Some b → (0 < b ≤ i64_max)%Z → peer ∈ connected →
  Forall (λ n, n ≤ u32_max ∧ (b < Z.of_N (n * MESH_SETTLEMENT_MILLISATS_PER_TOKEN))%Z) bills →
  let '(t', c') := bill_all peer bills (t, c) in
  c' = c ∧ select_funded connected c' (peer :: others) = Some peer ∧
  tokens_borrowed (tally_row t' peer) = (tokens_borrowed (tally_row t peer) + Z.of_N (foldr N.add 0%N bills))%Z.
Proof.
  intros Hc Hb Hconn Hall.
  assert (select_funded connected c (peer :: others) = Some peer) as Hsel.
  { simpl. rewrite bool_decide_true by done. simpl. unfold balance. rewrite Hc. simpl.
    rewrite as_u64_nonneg by lia. rewrite (proj2 (N.ltb_lt _ _)) by lia. done. }
  revert t. induction Hall as [|n bills [Hn Hlt] _ IH]; intros t; [simpl; split; [done|]; split; [done|lia]|].
  unfold bill_all in *. cbn [foldl]. unfold bill at 2. cbn [fst snd].
  assert (debit c peer (n * MESH_SETTLEMENT_MILLISATS_PER_TOKEN) = None) as ->.
  { unfold debit. rewrite Hc, bool_decide_false; [done|]. unfold as_i64.
    rewrite bool_decide_true by (unfold MESH_SETTLEMENT_MILLISATS_PER_TOKEN, u32_max, i64_max in *; lia). lia. }
  cbn [default]. specialize (IH (record_borrowed t peer n)).
  destruct (foldl _ (record_borrowed t peer n, c) bills) as [t' c']. destruct IH as (-> & Hs & Hrow).
  split; [done|]. split; [done|]. rewrite Hrow. unfold record_borrowed. rewrite tally_row_insert, decide_True by done.
  rewrite as_i64_small by done. cbn [tokens_borrowed foldr]. lia.
Qed.

Lemma short_credit_is_never_spent_witness :
  let '(t', c') := bill_all [1] [2048; 2048; 2048] (∅, {[ [1] := 5%Z ]}) in
  c' = {[ [1] := 5%Z ]} ∧ select_funded {[ [1] ]} c' [[1]] = Some [1] ∧
  tokens_borrowed (tally_row t' [1]) = 6144%Z.
Proof.
  assert (Forall (λ n, n ≤ u32_max ∧ (5 < Z.of_N (n * MESH_SETTLEMENT_MILLISATS_PER_TOKEN))%Z)
            [2048; 2048; 2048]) as Hall by (repeat constructor; vm_compute; congruence).
  assert (0 < 5 ≤ i64_max)%Z as Hb by (unfold i64_max; lia).
  pose proof (short_credit_is_never_spent [1] [] {[ [1] ]} [2048; 2048; 2048] ∅ {[ [1] := 5%Z ]} 5%Z
                eq_refl Hb ltac:(set_solver) Hall) as H.
  destruct (bill_all _ _ _) as [t' c']. exact H.
Defined.

(** ** Two small runs *)

(** A reply that is all reasoning: nothing of it is sent, but its numbers are taken. *)
Lemma hidden_reply_skips_numbers :
  serve_attempts (λ _, [Ok (TokenText (lit "<think>")); Ok (TokenText (lit "hm"))]) 1 2048 2 0 0 =
    ([{| ic_request_id := 1; ic_seq := 2;
         ic_kind := Some (KUsage {| uw_prompt := 0; uw_completion := 1; uw_charged := 2 |}) |}],
     LendServed (Some {| uw_prompt := 0; uw_completion := 1; uw_charged := 2 |})).
Proof. vm_compute. reflexivity. Qed.

(** An attempt discarded before one that fails: its tokens never reach the lend window. *)
Lemma failed_reply_is_not_counted :
  let provider (_ : text) (_ : list ChatMessageWire) i :=
    match i with
    | O => [Ok (TokenUsage {| us_prompt := 9; us_completion := 700; us_reasoning := None |})]
    | _ => [Err (lit "down")]
    end in
  let request := {| ir_request_id := 1; ir_system_prompt := []; ir_messages := []; ir_max_tokens := 2048 |} in
  let '(_, lent, w) := serve_request provider 60 [1] request (Ok 100) 0 0 0 ∅ in
  lent = None ∧ lw_tokens_lent <$> w !! [1] = Some 0.
Proof. vm_compute. split; reflexivity. Qed.
