(* ===== verification/GpuGate.v ===== *)
(** * GpuGate: compute runs side by side, a model's setup runs alone

    crates/pond-core/src/models/domain/gpu_gate.rs: a mutex over a count and a flag, a condition
    variable for threads, a [Notify] for async tasks. What the mutex guards is one step; the
    three statements of [SetupGuard::drop] are three, and so are an async task's registering,
    its check and its wait. Every task moves on its own; a thread may wake for no reason, an
    async wait may be cancelled, and a lease may be dropped before its decode ends. *)
From S2P Require Import Prelude.
From Stdlib Require Import NArith Lia.
Open Scope N_scope.

(** Where a task is. *)
Inductive Task : Type :=
(** [compute]: at the top of the loop; registered, about to check; waiting. The flag says whether
    the registration has been notified. *)
| AsyncTop
| AsyncArmed (notified : bool)
| AsyncWaiting (notified : bool)
(** [compute_blocking]: about to check, with the lock to take; asleep on the condition. *)
| BlockingCheck
| BlockingAsleep
(** [setup_blocking] *)
| SetupCheck
| SetupAsleep
(** Holding a [ComputeGuard]; holding one for a lease that was dropped unfinished. *)
| Computing
| Lingering
(** Holding a [SetupGuard]; its drop, after the flag is cleared, after [notify_all]. *)
| SettingUp
| SetupCleared
| SetupNotified
| Gone.

#[export] Instance task_eq_dec : EqDecision Task.
Proof. solve_decision. Defined.

Record GpuGate := { computing : N; setting_up : bool; tasks : list Task }.

Definition gate_default : GpuGate := {| computing := 0; setting_up := false; tasks := [] |}.

(** [Condvar::notify_all] and [Notify::notify_waiters]. *)
Definition notify_all (t : Task) : Task :=
  match t with BlockingAsleep => BlockingCheck | SetupAsleep => SetupCheck | t => t end.
Definition notify_waiters (t : Task) : Task :=
  match t with AsyncArmed _ => AsyncArmed true | AsyncWaiting _ => AsyncWaiting true | t => t end.

(** [try_compute]'s and [setup_blocking]'s conditions. *)
Definition may_compute (g : GpuGate) : bool := negb (setting_up g).
Definition may_set_up (g : GpuGate) : bool := negb ((0 <? computing g) || setting_up g).

Definition enter (g : GpuGate) (i : nat) (t : Task) (n : N) (s : bool) : GpuGate :=
  {| computing := n; setting_up := s; tasks := <[i := t]> (tasks g) |}.

Definition woken (f : Task → Task) (g : GpuGate) : GpuGate :=
  {| computing := computing g; setting_up := setting_up g; tasks := f <$> tasks g |}.

(** The next step of task [i]'s own code: [None] when it has none, or must be woken. *)
Definition advance (g : GpuGate) (i : nat) : option GpuGate :=
  match tasks g !! i with
  | Some AsyncTop => Some (enter g i (AsyncArmed false) (computing g) (setting_up g))
  | Some (AsyncArmed notified) =>
      Some (if may_compute g then enter g i Computing (computing g + 1) (setting_up g)
            else enter g i (AsyncWaiting notified) (computing g) (setting_up g))
  | Some (AsyncWaiting true) => Some (enter g i AsyncTop (computing g) (setting_up g))
  | Some BlockingCheck =>
      Some (if may_compute g then enter g i Computing (computing g + 1) (setting_up g)
            else enter g i BlockingAsleep (computing g) (setting_up g))
  | Some SetupCheck =>
      Some (if may_set_up g then enter g i SettingUp (computing g) true
            else enter g i SetupAsleep (computing g) (setting_up g))
  | Some (Computing | Lingering) =>
      let g := enter g i Gone (computing g - 1) (setting_up g) in
      Some (if computing g =? 0 then woken notify_all g else g)
  | Some SettingUp => Some (enter g i SetupCleared (computing g) false)
  | Some SetupCleared =>
      Some (woken notify_all (enter g i SetupNotified (computing g) (setting_up g)))
  | Some SetupNotified =>
      Some (woken notify_waiters (enter g i Gone (computing g) (setting_up g)))
  | Some (AsyncWaiting false | BlockingAsleep | SetupAsleep | Gone) | None => None
  end.

(** What happens to a task from outside: a spurious wake-up, a cancelled wait, a lease dropped
    before its decode ended. *)
Definition disturb (t : Task) : option Task :=
  match t with
  | BlockingAsleep => Some BlockingCheck
  | SetupAsleep => Some SetupCheck
  | AsyncTop | AsyncArmed _ | AsyncWaiting _ => Some Gone
  | Computing => Some Lingering
  | _ => None
  end.

Definition arrives (t : Task) : bool :=
  match t with AsyncTop | BlockingCheck | SetupCheck => true | _ => false end.

Inductive gate_step : GpuGate → GpuGate → Prop :=
| gate_arrives g t :
    arrives t = true →
    gate_step g {| computing := computing g; setting_up := setting_up g; tasks := tasks g ++ [t] |}
| gate_advances g i g' : advance g i = Some g' → gate_step g g'
| gate_disturbed g i t t' :
    tasks g !! i = Some t → disturb t = Some t' →
    gate_step g (enter g i t' (computing g) (setting_up g)).

(** ** Counting tasks *)

Definition b2n (b : bool) : N := if b then 1 else 0.
Definition how_many (p : Task → bool) (l : list Task) : N := foldr (λ t n, b2n (p t) + n) 0 l.

Definition computes (t : Task) : bool := match t with Computing | Lingering => true | _ => false end.
Definition sets_up (t : Task) : bool := match t with SettingUp => true | _ => false end.

Lemma how_many_app p l1 l2 : how_many p (l1 ++ l2) = how_many p l1 + how_many p l2.
Proof. induction l1 as [|t l1 IH]; simpl; [done|]. rewrite IH. lia. Qed.

Lemma how_many_insert p l i t t' :
  l !! i = Some t → how_many p (<[i := t']> l) + b2n (p t) = how_many p l + b2n (p t').
Proof.
  revert i. induction l as [|u l IH]; intros [|i] H; simpl in *; try done.
  - injection H as ->. lia.
  - specialize (IH _ H). lia.
Qed.

Lemma how_many_fmap p f l : (∀ t, p (f t) = p t) → how_many p (f <$> l) = how_many p l.
Proof. intros H. induction l as [|t l IH]; [done|]. rewrite fmap_cons. simpl. by rewrite H, IH. Qed.

Lemma how_many_pos p l : 0 < how_many p l ↔ ∃ i t, l !! i = Some t ∧ p t = true.
Proof.
  induction l as [|u l IH]; simpl.
  - split; [lia|]. by intros (i & t & ? & _).
  - split.
    + intros H. destruct (p u) eqn:Hu; [by exists 0%nat, u|]. simpl in H.
      apply IH in H as (i & t & Hi & Ht). by exists (S i), t.
    + intros ([|i] & t & Hi & Ht); simpl in Hi; [injection Hi as ->; rewrite Ht; simpl; lia|].
      assert (0 < how_many p l) by (apply IH; by exists i, t). lia.
Qed.

(** ** Exclusion *)

Record gate_ok (g : GpuGate) : Prop := {
  ok_computing : computing g = how_many computes (tasks g);
  ok_setting_up : b2n (setting_up g) = how_many sets_up (tasks g);
  ok_apart : setting_up g = true → computing g = 0 }.

Lemma notify_all_computes t : computes (notify_all t) = computes t. Proof. by destruct t. Qed.
Lemma notify_all_sets_up t : sets_up (notify_all t) = sets_up t. Proof. by destruct t. Qed.
Lemma notify_waiters_computes t : computes (notify_waiters t) = computes t. Proof. by destruct t. Qed.
Lemma notify_waiters_sets_up t : sets_up (notify_waiters t) = sets_up t. Proof. by destruct t. Qed.

Lemma gate_ok_woken f g :
  (∀ t, computes (f t) = computes t) → (∀ t, sets_up (f t) = sets_up t) → gate_ok g →
  gate_ok (woken f g).
Proof.
  intros H1 H2 [Hc Hs Ha]. split; unfold woken; cbn [computing setting_up tasks]; [| |done].
  - by rewrite how_many_fmap.
  - by rewrite how_many_fmap.
Qed.

(** A task moves: its counts follow its place. *)
Lemma gate_ok_enter g i t t' n s :
  gate_ok g → tasks g !! i = Some t →
  n + b2n (computes t) = computing g + b2n (computes t') →
  b2n s + b2n (sets_up t) = b2n (setting_up g) + b2n (sets_up t') →
  (s = true → n = 0) → gate_ok (enter g i t' n s).
Proof.
  intros [Hc Hs Ha] Ht Hn Hb Hx. pose proof (how_many_insert computes _ _ _ t' Ht).
  pose proof (how_many_insert sets_up _ _ _ t' Ht). split; cbn [computing setting_up tasks enter]; [lia|lia|done].
Qed.

Lemma holds_counted g i t :
  gate_ok g → tasks g !! i = Some t →
  (computes t = true → 0 < computing g) ∧ (sets_up t = true → setting_up g = true).
Proof.
  intros [Hc Hs _] Ht. split; intros H.
  - rewrite Hc. apply how_many_pos. eauto.
  - assert (0 < how_many sets_up (tasks g)) by (apply how_many_pos; eauto). by destruct (setting_up g); simpl in *; [|lia].
Qed.

Lemma advance_ok g i g' : gate_ok g → advance g i = Some g' → gate_ok g'.
Proof.
  intros Hg. unfold advance, may_compute, may_set_up. destruct (tasks g !! i) as [t|] eqn:Ht; [|done].
  destruct (holds_counted g i t Hg Ht) as [Hpos Hset]. pose proof (ok_apart _ Hg) as Hapart.
  destruct t as [|b|[]| | | | | | | | | |]; cbv zeta; intros H; try discriminate H; injection H as <-; simpl in Hpos, Hset;
    repeat match goal with
    | |- gate_ok (if ?b then _ else _) => destruct b eqn:?
    | |- gate_ok (woken _ _) => apply gate_ok_woken; [intros []; done|intros []; done|]
    end;
    (eapply gate_ok_enter; [exact Hg|exact Ht|..]); cbn [computes sets_up b2n];
    destruct (setting_up g); cbn [b2n negb orb] in *; try done; try lia.
  intros _. destruct (0 <? computing g) eqn:E; [done|]. apply N.ltb_ge in E. lia.
Qed.

Lemma step_ok g g' : gate_ok g → gate_step g g' → gate_ok g'.
Proof.
  intros Hg Hstep. destruct Hstep as [g t Ht|g i g' H|g i t t' Ht Hd].
  - destruct Hg as [Hc Hs Ha]. split; cbn [computing setting_up tasks];
      [rewrite how_many_app, Hc|rewrite how_many_app, Hs|done]; by destruct t; simpl; rewrite ?N.add_0_r.
  - by eapply advance_ok.
  - eapply gate_ok_enter; [exact Hg|exact Ht|..]; [| |apply (ok_apart _ Hg)]; destruct t; try discriminate Hd; by injection Hd as <-.
Qed.

Lemma gate_ok_default : gate_ok gate_default.
Proof. by split. Qed.

Lemma gate_reachable_ok g : star gate_step gate_default g → gate_ok g.
Proof. intros H. eapply (star_invariant gate_step gate_ok); [apply step_ok|exact H|apply gate_ok_default]. Qed.

(** ** No wake-up is lost *)

Definition cleared (t : Task) : bool := match t with SetupCleared => true | _ => false end.
Definition notified (t : Task) : bool := match t with SetupNotified => true | _ => false end.

(** What keeps a task asleep: a guard it must wait for, or a drop that has yet to wake it. *)
Definition kept (g : GpuGate) (t : Task) : Prop :=
  let setup := b2n (setting_up g) + how_many cleared (tasks g) in
  match t with
  | BlockingAsleep => 0 < setup
  | SetupAsleep => 0 < setup + computing g
  | AsyncWaiting false => 0 < setup + how_many notified (tasks g)
  | _ => True
  end.

Definition wake_ok (g : GpuGate) : Prop := Forall (kept g) (tasks g).

Lemma wake_ok_move f g i t t' n s :
  wake_ok g → tasks g !! i = Some t →
  let g' := woken f (enter g i t' n s) in
  kept g' (f t') → (∀ u, kept g u → kept g' (f u)) → wake_ok g'.
Proof.
  intros Hw Ht g' Hk Hu. unfold wake_ok. subst g'. unfold woken, enter at 2. cbn [tasks].
  apply Forall_fmap. apply Forall_insert; [|exact Hk].
  apply (Forall_impl _ _ _ Hw). exact Hu.
Qed.

Lemma woken_id g : woken id g = g.
Proof. destruct g. unfold woken. simpl. by rewrite list_fmap_id. Qed.

Lemma how_many_woken p f g i t t' n s :
  (∀ u, p (f u) = p u) → tasks g !! i = Some t →
  how_many p (tasks (woken f (enter g i t' n s))) + b2n (p t) = how_many p (tasks g) + b2n (p t').
Proof. intros Hp Ht. simpl. rewrite how_many_fmap by done. by apply how_many_insert. Qed.

Lemma moves_ok f g i t t' n s :
  (f = id ∨ f = notify_all ∨ f = notify_waiters) →
  wake_ok g → tasks g !! i = Some t →
  (∀ c k : N, c + b2n (cleared t) = how_many cleared (tasks g) + b2n (cleared t') →
     k + b2n (notified t) = how_many notified (tasks g) + b2n (notified t') →
     ∀ u, (u = t' ∨ kept g u) →
       match f u with
       | BlockingAsleep => 0 < b2n s + c
       | SetupAsleep => 0 < b2n s + c + n
       | AsyncWaiting false => 0 < b2n s + c + k
       | _ => True
       end) →
  wake_ok (woken f (enter g i t' n s)).
Proof.
  intros Hf Hw Ht H.
  assert (∀ u, (u = t' ∨ kept g u) → kept (woken f (enter g i t' n s)) (f u)) as Hk.
  { intros u Hu. apply (H (how_many cleared (tasks (woken f (enter g i t' n s))))
      (how_many notified (tasks (woken f (enter g i t' n s))))); [..|exact Hu];
      (apply how_many_woken; [|exact Ht]); intros v; by destruct Hf as [->|[->| ->]], v. }
  eapply wake_ok_move; [exact Hw|exact Ht|apply Hk; by left|]. intros u Hu. apply Hk. by right.
Qed.

Lemma advance_wakes g i g' : gate_ok g → wake_ok g → advance g i = Some g' → wake_ok g'.
Proof.
  intros Hg Hw. unfold advance, may_compute, may_set_up. destruct (tasks g !! i) as [t|] eqn:Ht; [|done].
  destruct (holds_counted g i t Hg Ht) as [Hpos Hset]. pose proof (ok_apart _ Hg) as Hapart.
  destruct t as [|b|[]| | | | | | | | | |]; cbv zeta; intros H; try discriminate H; injection H as <-; simpl in Hpos, Hset;
    repeat match goal with
    | |- wake_ok (if ?b then _ else _) => destruct b eqn:?
    | |- wake_ok (enter ?g ?i ?t ?n ?s) => rewrite <-(woken_id (enter g i t n s))
    end;
    (eapply moves_ok; [by eauto|exact Hw|exact Ht|]); intros c k Hc Hk u Hu;
    simpl in Hc, Hk; unfold kept in Hu;
    (destruct Hu as [->|Hu]; [|destruct u as [| |[]| | | | | | | | | |]]); cbn [id notify_all notify_waiters b2n] in *;
    destruct (setting_up g); cbn [b2n negb orb] in *; try done; try lia;
    repeat match goal with
    | H : negb ((0 <? ?n) || _) = false |- _ => destruct (0 <? n) eqn:?; [|discriminate H]; clear H
    | H : (0 <? _) = true |- _ => apply N.ltb_lt in H
    | H : (_ =? 0) = false |- _ => apply N.eqb_neq in H; cbn [computing enter] in H
    end; try lia;
    match goal with |- if ?b then _ else _ => destruct b end; done || lia.
Qed.

Lemma step_wakes g g' : gate_ok g → wake_ok g → gate_step g g' → wake_ok g'.
Proof.
  intros Hg Hw Hstep. destruct Hstep as [g t Ht|g i g' H|g i t t' Ht Hd].
  - unfold wake_ok in *. cbn [tasks]. apply Forall_app. split.
    + apply (Forall_impl _ _ _ Hw). intros u Hu. unfold kept in *. cbn [setting_up tasks computing].
      rewrite !how_many_app. destruct u as [| |[]| | | | | | | | | |]; done || lia.
    + apply Forall_singleton. by destruct t.
  - by eapply advance_wakes.
  - rewrite <-(woken_id (enter g i t' (computing g) (setting_up g))).
    eapply moves_ok; [by eauto|exact Hw|exact Ht|]. intros c k Hc Hk u Hu. unfold kept in Hu.
    destruct t; try discriminate Hd; injection Hd as <-; simpl in Hc, Hk;
      (destruct Hu as [->|Hu]; [done|destruct u as [| |[]| | | | | | | | | |]]); cbn [id] in *; done || lia.
Qed.

Lemma reachable_both g : star gate_step gate_default g → gate_ok g ∧ wake_ok g.
Proof.
  intros H. eapply (star_invariant gate_step (λ g, gate_ok g ∧ wake_ok g)); [|exact H|].
  - intros g1 g2 [Hg Hw] Hs. split; [by eapply step_ok|by eapply step_wakes].
  - split; [apply gate_ok_default|constructor].
Qed.

(** C11: whatever tasks come, wait, are cancelled or linger: the count is the number of compute
    guards held, the flag says whether a setup guard is, at most one setup guard is held, and
    none beside a compute guard. *)
Theorem gate_excludes g :
  star gate_step gate_default g →
  computing g = how_many computes (tasks g) ∧
  setting_up g = (0 <? how_many sets_up (tasks g)) ∧ how_many sets_up (tasks g) ≤ 1 ∧
  (0 < how_many sets_up (tasks g) → how_many computes (tasks g) = 0).
Proof.
  intros [[Hc Hs Ha] _]%reachable_both. split; [done|]. rewrite <-Hs, <-Hc.
  split; [by destruct (setting_up g)|]. split; [destruct (setting_up g); simpl; lia|].
  intros H. apply Ha. destruct (setting_up g); simpl in H; [done|lia].
Qed.

(** ** Every waiter gets in *)

Definition waiting (t : Task) : bool :=
  match t with
  | AsyncTop | AsyncArmed _ | AsyncWaiting _ | BlockingCheck | BlockingAsleep | SetupCheck | SetupAsleep => true
  | _ => false
  end.

(** Steps of the tasks' own code. *)
Definition advances (g g' : GpuGate) : Prop := ∃ i, advance g i = Some g'.

(** The statements the guards held, and the drops under way, have yet to run. *)
Definition weight (g : GpuGate) : N :=
  how_many computes (tasks g) + 3 * how_many sets_up (tasks g) + 2 * how_many cleared (tasks g) +
  how_many notified (tasks g).

Definition weight_of (t : Task) : N :=
  b2n (computes t) + 3 * b2n (sets_up t) + 2 * b2n (cleared t) + b2n (notified t).

(** A step of a task that is not waiting takes it on, and wakes some. *)
Lemma busy_shape g j t g' :
  tasks g !! j = Some t → waiting t = false → advance g j = Some g' →
  ∃ f t' n s, (f = id ∨ f = notify_all ∨ f = notify_waiters) ∧ g' = woken f (enter g j t' n s) ∧
    weight_of t' < weight_of t.
Proof.
  intros Ht Hw H. unfold advance in H. rewrite Ht in H.
  destruct t; try discriminate Hw; try discriminate H; injection H as <-;
    try match goal with |- context [if ?b then _ else _] => destruct b end;
    match goal with
    | |- context [woken ?f (enter _ _ ?t' ?n ?s) = _] => exists f, t', n, s
    | |- context [enter _ _ ?t' ?n ?s = _] => exists id, t', n, s; rewrite woken_id
    end; (split; [by eauto|]); by split.
Qed.

Lemma woken_keeps p f :
  (f = id ∨ f = notify_all ∨ f = notify_waiters) → p = computes ∨ p = sets_up ∨ p = cleared ∨ p = notified ∨ p = waiting →
  ∀ u, p (f u) = p u.
Proof. intros [->|[->| ->]] [->|[->|[->|[->| ->]]]] u; by destruct u. Qed.

Lemma advance_lookup g j t g' i u :
  tasks g !! j = Some t → waiting t = false → advance g j = Some g' →
  tasks g !! i = Some u → waiting u = true → ∃ u', tasks g' !! i = Some u' ∧ waiting u' = true.
Proof.
  intros Ht Hw H Hi Hu. assert (i ≠ j) as Hij by (intros ->; congruence).
  destruct (busy_shape _ _ _ _ Ht Hw H) as (f & t' & n & s & Hf & -> & _).
  exists (f u). cbn [woken enter tasks]. rewrite list_lookup_fmap, list_lookup_insert_ne, Hi by done.
  split; [done|]. by rewrite (woken_keeps waiting f) by eauto.
Qed.

Lemma busy_advances g :
  0 < weight g →
  ∃ j t g', tasks g !! j = Some t ∧ waiting t = false ∧ advance g j = Some g' ∧ weight g' < weight g.
Proof.
  intros Hw.
  assert (∃ j t, tasks g !! j = Some t ∧
    (computes t || sets_up t || cleared t || notified t) = true) as (j & t & Ht & Hb).
  { assert (0 < how_many (λ t, computes t || sets_up t || cleared t || notified t) (tasks g)) as H.
    { unfold weight in Hw. induction (tasks g) as [|t l IH]; simpl in *; [lia|].
      destruct t; simpl in *; lia || (apply IH; lia). }
    apply how_many_pos in H as (j & t & ? & ?). by exists j, t. }
  assert (waiting t = false) as Hwt by by destruct t.
  assert (∃ g', advance g j = Some g') as [g' Hg'].
  { unfold advance. rewrite Ht. destruct t; simpl in Hb; try discriminate Hb; by eexists. }
  exists j, t, g'. split; [done|]. split; [done|]. split; [done|].
  destruct (busy_shape _ _ _ _ Ht Hwt Hg') as (f & t' & n & s & Hf & -> & Hlt).
  unfold weight, weight_of in *.
  pose proof (how_many_woken computes f g j t t' n s ltac:(apply woken_keeps; eauto) Ht).
  pose proof (how_many_woken sets_up f g j t t' n s ltac:(apply woken_keeps; eauto) Ht).
  pose proof (how_many_woken cleared f g j t t' n s ltac:(apply woken_keeps; eauto) Ht).
  pose proof (how_many_woken notified f g j t t' n s ltac:(apply woken_keeps; eauto 6) Ht).
  lia.
Qed.

(** With nothing held and no drop under way, a waiter's own steps take it in. *)
Lemma free_waiter_enters g i t :
  gate_ok g → wake_ok g → weight g = 0 → tasks g !! i = Some t → waiting t = true →
  ∃ g' t', star advances g g' ∧ tasks g' !! i = Some t' ∧ (computes t' || sets_up t') = true.
Proof.
  intros [Hc Hs _] Hw H0 Ht Hwt. unfold weight in H0.
  assert (setting_up g = false) as Es by (destruct (setting_up g); simpl in Hs; [lia|done]).
  assert (computing g = 0) as Ec by lia.
  assert (kept g t) as Hk by by apply (proj1 (Forall_lookup _ _) Hw _ _ Ht).
  assert (∀ g b, setting_up g = false → tasks g !! i = Some (AsyncArmed b) →
    ∃ g' t', star advances g g' ∧ tasks g' !! i = Some t' ∧ (computes t' || sets_up t') = true) as Harmed.
  { intros h b Eh Hh. exists (enter h i Computing (computing h + 1) (setting_up h)), Computing.
    split; [apply star_one; exists i; unfold advance, may_compute; by rewrite Hh, Eh|].
    split; [|done]. apply list_lookup_insert_eq. by eapply lookup_lt_Some. }
  assert (∀ g, setting_up g = false → tasks g !! i = Some AsyncTop →
    ∃ g' t', star advances g g' ∧ tasks g' !! i = Some t' ∧ (computes t' || sets_up t') = true) as Htop.
  { intros h Eh Hh.
    destruct (Harmed (enter h i (AsyncArmed false) (computing h) (setting_up h)) false Eh) as (g' & t' & H1 & H2).
    { apply list_lookup_insert_eq. by eapply lookup_lt_Some. }
    exists g', t'. split; [|done]. eapply star_step; [|exact H1]. exists i. unfold advance. by rewrite Hh. }
  unfold kept in Hk. rewrite Es, Ec in Hk. simpl in Hk.
  destruct t as [|b|[]| | | | | | | | | |]; try discriminate Hwt; try (exfalso; lia); [by apply Htop|by eapply Harmed|..].
  - destruct (Htop (enter g i AsyncTop (computing g) (setting_up g)) Es) as (g' & t' & H1 & H2).
    { apply list_lookup_insert_eq. by eapply lookup_lt_Some. }
    exists g', t'. split; [|done]. eapply star_step; [|exact H1]. exists i. unfold advance. by rewrite Ht.
  - exists (enter g i Computing (computing g + 1) (setting_up g)), Computing.
    split; [apply star_one; exists i; unfold advance, may_compute; by rewrite Ht, Es|].
    split; [|done]. apply list_lookup_insert_eq. by eapply lookup_lt_Some.
  - exists (enter g i SettingUp (computing g) true), SettingUp.
    split; [apply star_one; exists i; unfold advance, may_set_up; by rewrite Ht, Es, Ec|].
    split; [|done]. apply list_lookup_insert_eq. by eapply lookup_lt_Some.
Qed.

Lemma waiter_enters n g i t :
  weight g ≤ n → gate_ok g → wake_ok g → tasks g !! i = Some t → waiting t = true →
  ∃ g' t', star advances g g' ∧ tasks g' !! i = Some t' ∧ (computes t' || sets_up t') = true.
Proof.
  revert g t. induction n as [|n IH] using N.peano_ind; intros g t Hn Hg Hw Ht Hwt.
  { eapply free_waiter_enters; eauto. lia. }
  destruct (decide (weight g = 0)) as [E|E]; [by eapply free_waiter_enters|].
  destruct (busy_advances g ltac:(lia)) as (j & tj & g1 & Hj & Hwj & Hadv & Hlt).
  destruct (advance_lookup _ _ _ _ _ _ Hj Hwj Hadv Ht Hwt) as (t1 & Ht1 & Hwt1).
  destruct (IH g1 t1 ltac:(lia) (advance_ok _ _ _ Hg Hadv) (advance_wakes _ _ _ Hg Hw Hadv) Ht1 Hwt1)
    as (g' & t' & H1 & H2).
  exists g', t'. split; [|done]. eapply star_step; [|exact H1]. by exists j.
Qed.

(** C10: no wake-up is lost and nothing deadlocks. At any moment a task that waits, asleep on the
    condition or on the notification, gets its guard by steps of the tasks' own code alone, with
    no spurious wake-up: the guards held are dropped, their drops run to the end, and it enters. *)
Theorem every_waiter_enters g i t :
  star gate_step gate_default g → tasks g !! i = Some t → waiting t = true →
  ∃ g' t', star advances g g' ∧ tasks g' !! i = Some t' ∧ (computes t' || sets_up t') = true.
Proof. intros [Hg Hw]%reachable_both. by apply (waiter_enters (weight g)). Qed.

(** ** A run *)

(** A setup is held; a stream waits, and a thread sleeps. *)
Definition demo_gate : GpuGate :=
  {| computing := 0; setting_up := true; tasks := [SettingUp; AsyncWaiting false; BlockingAsleep] |}.

Lemma demo_gate_reached : star gate_step gate_default demo_gate.
Proof.
  eapply star_step; [apply (gate_arrives _ SetupCheck); reflexivity|].
  eapply star_step; [apply (gate_advances _ 0); reflexivity|].
  eapply star_step; [apply (gate_arrives _ AsyncTop); reflexivity|].
  eapply star_step; [apply (gate_advances _ 1); reflexivity|].
  eapply star_step; [apply (gate_advances _ 1); reflexivity|].
  eapply star_step; [apply (gate_arrives _ BlockingCheck); reflexivity|].
  eapply star_step; [apply (gate_advances _ 2); reflexivity|]. apply star_refl.
Qed.

Lemma gate_excludes_witness :
  computing demo_gate = how_many computes (tasks demo_gate) ∧ how_many sets_up (tasks demo_gate) ≤ 1.
Proof.
  destruct (gate_excludes demo_gate demo_gate_reached) as (H1 & _ & H2 & _). split; [exact H1|exact H2].
Defined.

Lemma every_waiter_enters_witness :
  ∃ g' t', star advances demo_gate g' ∧ tasks g' !! 1%nat = Some t' ∧ (computes t' || sets_up t') = true.
Proof.
  apply (every_waiter_enters demo_gate 1 (AsyncWaiting false) demo_gate_reached); reflexivity.
Defined.
