(* ===== verification/Throttle.v ===== *)
(** * Throttle: codes read aloud, and devices that resume

    crates/pond-core/src/network/services/spoken_code_limiter.rs and
    device_resume_throttle.rs: two rolling windows over a queue of instants. Instants are [Z]
    nanoseconds and a process's readings never go back; durations are [N] nanoseconds. A
    [HashMap]'s order of iteration is a parameter, of which only that it lists the entries is
    assumed. *)
From S2P Require Import Prelude Text.
From Stdlib Require Import NArith ZArith Lia.
Open Scope N_scope.

(** [Instant::saturating_duration_since]. *)
Definition since (now earlier : Z) : N := Z.to_N (now - earlier).

(** [while let Some(&oldest) = front() { if since(oldest) < window { break } pop_front() }] *)
Fixpoint forget_expired (window : N) (now : Z) (charges : list Z) : list Z :=
  match charges with
  | [] => []
  | oldest :: rest => if since now oldest <? window then charges else forget_expired window now rest
  end.

(** ** Codes read aloud *)

Definition SPOKEN_CODE_SPACING : N := from_secs 30.
Definition SPOKEN_CODES_PER_WINDOW : nat := 10.
Definition SPOKEN_CODE_WINDOW : N := from_secs (60 * 60).

(** [try_acquire]: the wait told, if refused, and the queue left. *)
Definition try_acquire (spoken : list Z) (now : Z) : result unit N * list Z :=
  let spoken := forget_expired SPOKEN_CODE_WINDOW now spoken in
  let spacing := match last spoken with
                 | Some l => SPOKEN_CODE_SPACING - since now l
                 | None => 0
                 end in
  let window := match head spoken with
                | Some oldest => if (SPOKEN_CODES_PER_WINDOW <=? length spoken)%nat
                                 then SPOKEN_CODE_WINDOW - since now oldest else 0
                | None => 0
                end in
  let wait := N.max spacing window in
  if negb (wait =? 0) then (Err wait, spoken) else (Ok tt, spoken ++ [now]).

(** ** Devices that resume *)

Definition DEVICE_RESUME_ATTEMPTS : nat := 5.
Definition DEVICE_RESUME_WINDOW : N := from_secs (10 * 60).
Definition MAX_TRACKED_DEVICES : nat := 256.

Notation Charges := (gmap text (list Z)).

Section throttle.
(** [HashMap::iter]. *)
Variable iter : Charges → list (text * list Z).

(** [Option<Instant>]'s order: [None] first. *)
Definition back_le (a b : option Z) : bool :=
  match a, b with
  | None, _ => true
  | Some _, None => false
  | Some a, Some b => bool_decide (a ≤ b)%Z
  end.

(** [min_by_key], which keeps the first of equals. *)
Fixpoint stalest (l : list (text * list Z)) : option (text * list Z) :=
  match l with
  | [] => None
  | x :: l =>
      match stalest l with
      | Some y => if back_le (last x.2) (last y.2) then Some x else Some y
      | None => Some x
      end
  end.

Definition make_room (charges : Charges) (now : Z) : Charges :=
  if (size charges <? MAX_TRACKED_DEVICES)%nat then charges else
  let charges := omap (λ q, let q := forget_expired DEVICE_RESUME_WINDOW now q in
                            if is_empty q then None else Some q) charges in
  if (size charges <? MAX_TRACKED_DEVICES)%nat then charges else
  match stalest (iter charges) with
  | Some (device, _) => delete device charges
  | None => charges
  end.

Definition admit_device_run (charges : Charges) (device : text) (now : Z) : result unit N * Charges :=
  match charges !! device with
  | Some q =>
      let q := forget_expired DEVICE_RESUME_WINDOW now q in
      if (DEVICE_RESUME_ATTEMPTS <=? length q)%nat then
        (Err (DEVICE_RESUME_WINDOW - since now (default now (head q))), <[device := q]> charges)
      else (Ok tt, <[device := q ++ [now]]> charges)
  | None => (Ok tt, <[device := [now]]> (make_room charges now))
  end.

Definition record_device_success (charges : Charges) (device : text) : Charges := delete device charges.

Definition charged (charges : Charges) (device : text) (now : Z) : nat :=
  match charges !! device with
  | Some q => length (List.filter (λ at_, since now at_ <? DEVICE_RESUME_WINDOW) q)
  | None => O
  end.

Definition tracked (charges : Charges) : nat := size charges.
End throttle.

(** ** Lemmas: rolling windows *)

(** In [log], the entry [n] places later is at least [window] later. *)
Definition rolling (n : nat) (window : N) (log : list Z) : Prop :=
  ∀ i a b, log !! i = Some a → log !! (i + n)%nat = Some b → (a + Z.of_N window ≤ b)%Z.

Lemma rolling_nil n window : rolling n window [].
Proof. by intros i a b. Qed.

Lemma rolling_snoc n window log now :
  (0 < n)%nat → rolling n window log →
  (∀ i a, (i + n)%nat = length log → log !! i = Some a → (a + Z.of_N window ≤ now)%Z) →
  rolling n window (log ++ [now]).
Proof.
  intros Hn Hr Hnew i a b Ha Hb. rewrite lookup_app in Hb. destruct (log !! (i + n)%nat) as [b'|] eqn:E.
  - injection Hb as ->. rewrite lookup_app_l in Ha; [by eapply Hr|].
    apply lookup_lt_Some in E. lia.
  - apply lookup_ge_None in E. apply list_lookup_singleton_Some in Hb as [Hi ->].
    rewrite lookup_app_l in Ha by lia. apply (Hnew i a); [lia|done].
Qed.

Lemma forget_expired_split window now q :
  ∃ k, q = k ++ forget_expired window now q ∧ Forall (λ a, window ≤ since now a) k.
Proof.
  induction q as [|a q (k & Hq & Hk)]; [by exists []|]. cbn [forget_expired].
  destruct (since now a <? window) eqn:E; [by exists []|]. apply N.ltb_ge in E.
  exists (a :: k). split; [by rewrite <-app_comm_cons, <-Hq|]. by constructor.
Qed.

Lemma forget_expired_head window now q a :
  head (forget_expired window now q) = Some a → since now a < window.
Proof.
  induction q as [|b q IH]; [done|]. cbn [forget_expired]. destruct (since now b <? window) eqn:E; [|done].
  intros [= ->]. by apply N.ltb_lt in E.
Qed.

Lemma forget_expired_id window now q :
  (∀ a, head q = Some a → since now a < window) → forget_expired window now q = q.
Proof.
  destruct q as [|a q]; [done|]. intros H. cbn [forget_expired].
  by rewrite (proj2 (N.ltb_lt _ _) (H a eq_refl)).
Qed.

(** A queue is what is left of a log when the expired are forgotten. *)
Record windowed (window : N) (t : Z) (log q : list Z) : Prop := {
  wd_past : Forall (λ a, (a ≤ t)%Z) log;
  wd_split : ∃ k, log = k ++ q ∧ Forall (λ a, (a + Z.of_N window ≤ t)%Z) k }.

Lemma windowed_nil window t : windowed window t [] [].
Proof. split; [constructor|]. by exists []. Qed.

Lemma windowed_later window t now log q : (t ≤ now)%Z → windowed window t log q → windowed window now log q.
Proof.
  intros Ht [Hp (k & Hl & Hk)]. split.
  - apply (Forall_impl _ _ _ Hp). lia.
  - exists k. split; [done|]. apply (Forall_impl _ _ _ Hk). lia.
Qed.

Lemma windowed_forget window now log q :
  0 < window → windowed window now log q → windowed window now log (forget_expired window now q).
Proof.
  intros Hw [Hp (k & Hl & Hk)]. split; [done|].
  destruct (forget_expired_split window now q) as (k' & Hq & Hk').
  exists (k ++ k'). split; [by rewrite <-app_assoc, <-Hq|]. apply Forall_app. split; [done|].
  apply (Forall_impl _ _ _ Hk'). unfold since. lia.
Qed.

Lemma windowed_snoc window now log q : windowed window now log q → windowed window now (log ++ [now]) (q ++ [now]).
Proof.
  intros [Hp (k & -> & Hk)]. split; [apply Forall_app; split; [done|by apply Forall_singleton]|].
  exists k. by rewrite <-app_assoc.
Qed.

(** Room in the queue keeps the log within its rate. *)
Lemma windowed_rolling n window now log q :
  (0 < n)%nat → rolling n window log → windowed window now log q → (length q < n)%nat →
  rolling n window (log ++ [now]).
Proof.
  intros Hn Hr [_ (k & -> & Hk)] Hq. apply rolling_snoc; [done|done|].
  intros i a Hi Ha. rewrite length_app in Hi. rewrite lookup_app_l in Ha by lia.
  by apply (proj1 (Forall_lookup _ _) Hk i a).
Qed.

(** ** Codes are spaced *)

(** The instants at which a code was read aloud, of those asked for. *)
Fixpoint read_aloud (spoken : list Z) (asked : list Z) : list Z :=
  match asked with
  | [] => []
  | now :: asked =>
      let '(answer, spoken) := try_acquire spoken now in
      (if is_ok answer then [now] else []) ++ read_aloud spoken asked
  end.

Lemma try_acquire_Ok spoken now spoken' :
  try_acquire spoken now = (Ok tt, spoken') →
  let q := forget_expired SPOKEN_CODE_WINDOW now spoken in
  spoken' = q ++ [now] ∧ (∀ l, last q = Some l → SPOKEN_CODE_SPACING ≤ since now l) ∧
  (length q < SPOKEN_CODES_PER_WINDOW)%nat.
Proof.
  unfold try_acquire. cbv zeta. set (q := forget_expired _ now spoken).
  pose proof (forget_expired_head SPOKEN_CODE_WINDOW now spoken) as Hh. fold q in Hh.
  destruct (N.max _ _ =? 0) eqn:E; [|done]. apply N.eqb_eq in E. intros [= <-]. split; [done|]. split.
  - intros l Hl. rewrite Hl in E. lia.
  - destruct (head q) as [o|] eqn:Eo; [|destruct q; [unfold SPOKEN_CODES_PER_WINDOW; simpl; lia|done]].
    destruct (SPOKEN_CODES_PER_WINDOW <=? length q)%nat eqn:El; [|by apply Nat.leb_gt in El].
    specialize (Hh o eq_refl). lia.
Qed.

Lemma try_acquire_Err spoken now w spoken' :
  try_acquire spoken now = (Err w, spoken') → spoken' = forget_expired SPOKEN_CODE_WINDOW now spoken.
Proof. unfold try_acquire. cbv zeta. destruct (negb _); by intros [= <- <-]. Qed.

Lemma rolling_spaced log q now :
  rolling 1 SPOKEN_CODE_SPACING log → windowed SPOKEN_CODE_WINDOW now log q →
  (∀ l, last q = Some l → SPOKEN_CODE_SPACING ≤ since now l) →
  rolling 1 SPOKEN_CODE_SPACING (log ++ [now]).
Proof.
  intros Hr [_ (k & -> & Hk)] Hq. apply rolling_snoc; [lia|done|]. intros i a Hi Ha.
  destruct (decide (q = [])) as [->|Hne].
  - rewrite app_nil_r in Ha. pose proof (proj1 (Forall_lookup _ _) Hk i a Ha) as H. cbv beta in H.
    unfold SPOKEN_CODE_SPACING, SPOKEN_CODE_WINDOW, from_secs in *. lia.
  - assert (last q = Some a) as Hl.
    { rewrite last_lookup. rewrite length_app in Hi. assert (0 < length q)%nat by (destruct q; [done|simpl; lia]).
      rewrite lookup_app_r in Ha by lia. by replace (pred (length q)) with (i - length k)%nat by lia. }
    specialize (Hq a Hl). unfold since, SPOKEN_CODE_SPACING, from_secs in *. lia.
Qed.

Lemma read_aloud_ok asked : ∀ log spoken t,
  StronglySorted Z.le asked → Forall (λ now, (t ≤ now)%Z) asked →
  windowed SPOKEN_CODE_WINDOW t log spoken →
  rolling 1 SPOKEN_CODE_SPACING log → rolling SPOKEN_CODES_PER_WINDOW SPOKEN_CODE_WINDOW log →
  rolling 1 SPOKEN_CODE_SPACING (log ++ read_aloud spoken asked) ∧
  rolling SPOKEN_CODES_PER_WINDOW SPOKEN_CODE_WINDOW (log ++ read_aloud spoken asked).
Proof.
  induction asked as [|now asked IH]; intros log spoken t Hs Ht Hw H1 H2; cbn [read_aloud].
  { by rewrite app_nil_r. }
  apply StronglySorted_inv in Hs as [Hs Hall]. apply Forall_cons in Ht as [Hnow Ht].
  apply (windowed_later _ _ now) in Hw; [|done].
  apply windowed_forget in Hw; [|by vm_compute].
  destruct (try_acquire spoken now) as [[[]|w] spoken'] eqn:E; cbn [is_ok].
  - destruct (try_acquire_Ok _ _ _ E) as (-> & Hsp & Hlen). rewrite app_assoc.
    apply (IH _ _ now); [done|done|by apply windowed_snoc|by eapply rolling_spaced|].
    eapply windowed_rolling; [|exact H2|exact Hw|exact Hlen]. unfold SPOKEN_CODES_PER_WINDOW. lia.
  - rewrite (try_acquire_Err _ _ _ _ E). cbn [app]. by apply (IH _ _ now).
Qed.

(** However often the pond is asked, codes are read aloud at least thirty seconds apart, and
    any eleven of them take at least an hour. *)
Theorem spoken_codes_are_rare asked :
  StronglySorted Z.le asked →
  rolling 1 SPOKEN_CODE_SPACING (read_aloud [] asked) ∧
  rolling SPOKEN_CODES_PER_WINDOW SPOKEN_CODE_WINDOW (read_aloud [] asked).
Proof.
  intros Hs. destruct asked as [|now asked]; [split; apply rolling_nil|].
  apply (read_aloud_ok (now :: asked) [] [] now); [done| |apply windowed_nil|apply rolling_nil|apply rolling_nil].
  apply StronglySorted_inv in Hs as [_ Hall]. constructor; [lia|exact Hall].
Qed.

Lemma spoken_codes_are_rare_witness :
  rolling 1 SPOKEN_CODE_SPACING (read_aloud [] [0; 5; 30000000000]%Z) ∧
  read_aloud [] [0; 5; 30000000000]%Z = [0; 30000000000]%Z.
Proof.
  split; [|vm_compute; reflexivity].
  apply (spoken_codes_are_rare [0; 5; 30000000000]%Z). repeat constructor; vm_compute; congruence.
Defined.

(** ** The wait told is the wait *)

Lemma try_acquire_admits spoken now :
  is_ok (try_acquire spoken now).1 = true ↔
  let q := forget_expired SPOKEN_CODE_WINDOW now spoken in
  (∀ l, last q = Some l → SPOKEN_CODE_SPACING ≤ since now l) ∧ (length q < SPOKEN_CODES_PER_WINDOW)%nat.
Proof.
  split.
  - destruct (try_acquire spoken now) as [[[]|w] s] eqn:E; [|done]. intros _.
    by apply try_acquire_Ok in E as (_ & ?).
  - cbv zeta. unfold try_acquire. cbv zeta. set (q := forget_expired _ now spoken). intros [Hl Hn].
    assert (match last q with Some l => SPOKEN_CODE_SPACING - since now l | None => 0 end = 0) as ->.
    { destruct (last q) as [l|]; [|done]. specialize (Hl l eq_refl). lia. }
    rewrite (proj2 (Nat.leb_gt _ _) Hn). by destruct (head q).
Qed.

(** A refusal names the larger of two waits. *)
Lemma try_acquire_wait spoken now w q :
  try_acquire spoken now = (Err w, q) →
  w = N.max (match last q with Some l => SPOKEN_CODE_SPACING - since now l | None => 0 end)
            (match head q with
             | Some o => if (SPOKEN_CODES_PER_WINDOW <=? length q)%nat
                         then SPOKEN_CODE_WINDOW - since now o else 0
             | None => 0
             end).
Proof. unfold try_acquire. cbv zeta. destruct (negb _); by intros [= <- <-]. Qed.

Lemma forget_expired_last window now q l :
  last (forget_expired window now q) = Some l → last q = Some l.
Proof.
  destruct (forget_expired_split window now q) as (k & Hq & _). intros H. rewrite Hq, last_app, H. done.
Qed.

Lemma ascending_head_last (q : list Z) o l :
  StronglySorted Z.le q → head q = Some o → last q = Some l → (o ≤ l)%Z.
Proof.
  destruct q as [|a q]; [done|]. intros [_ Hall]%StronglySorted_inv [= ->] Hl.
  destruct q as [|b q]; [injection Hl as ->; lia|].
  rewrite last_cons_cons in Hl. apply last_Some_elem_of in Hl.
  by apply (proj1 (Forall_forall _ _) Hall l Hl).
Qed.

(** A refusal tells exactly when the next code may be read: asked again any earlier the pond
    refuses, from then on it reads. Asking in vain does not put it off. *)
Theorem spoken_wait_is_exact spoken now w q t :
  Forall (λ a, (a ≤ now)%Z) spoken → (length spoken ≤ SPOKEN_CODES_PER_WINDOW)%nat →
  StronglySorted Z.le spoken →
  try_acquire spoken now = (Err w, q) → (now ≤ t)%Z →
  is_ok (try_acquire q t).1 = true ↔ (now + Z.of_N w ≤ t)%Z.
Proof.
  intros Hpast Hlen Hs E Ht. pose proof (try_acquire_Err _ _ _ _ E) as Hq. pose proof (try_acquire_wait _ _ _ _ E) as Hw.
  destruct (forget_expired_split SPOKEN_CODE_WINDOW now spoken) as (k0 & Hk0 & _). rewrite <-Hq in Hk0.
  rewrite Hk0 in Hpast, Hlen. apply Forall_app in Hpast as [_ Hpast]. rewrite length_app in Hlen.
  rewrite try_acquire_admits. cbv zeta.
  destruct (forget_expired_split SPOKEN_CODE_WINDOW t q) as (k & Hk & Hexp).
  pose proof (forget_expired_head SPOKEN_CODE_WINDOW t q) as Hhead.
  pose proof (forget_expired_last SPOKEN_CODE_WINDOW t q) as Hlast.
  set (q2 := forget_expired SPOKEN_CODE_WINDOW t q) in *.
  destruct (last q) as [l|] eqn:El; [|].
  2:{ apply last_None in El. assert (q2 = []) as E2 by (subst q2; by rewrite El).
      rewrite El in Hw. simpl in Hw. rewrite E2. split; [intros _; rewrite Hw; simpl; lia|]. intros _.
      split; [done|unfold SPOKEN_CODES_PER_WINDOW; simpl; lia]. }
  destruct (head q) as [o|] eqn:Eo; [|by destruct q].
  assert (o ≤ l ≤ now)%Z as Hol.
  { split; [|apply last_Some_elem_of in El; by apply (proj1 (Forall_forall _ _) Hpast)].
    eapply ascending_head_last; [|exact Eo|exact El]. rewrite Hk0 in Hs.
    clear -Hs. induction k0 as [|x k0 IH]; [exact Hs|]. apply IH. exact (proj1 (StronglySorted_inv Hs)). }
  assert (SPOKEN_CODE_SPACING ≤ SPOKEN_CODE_WINDOW) as Hle by (vm_compute; discriminate).
  destruct (decide (k = [])) as [->|Hne].
  - assert (q2 = q) as Eq by done. rewrite Eq in *. specialize (Hhead o Eo). rewrite El.
    unfold since in *. split.
    + intros [H1 H2]. specialize (H1 l eq_refl). rewrite (proj2 (Nat.leb_gt _ _) H2) in Hw. lia.
    + intros H. destruct (SPOKEN_CODES_PER_WINDOW <=? length q)%nat eqn:E10; [lia|].
      apply Nat.leb_gt in E10. split; [intros l' [= <-]; lia|done].
  - assert (SPOKEN_CODE_WINDOW ≤ since t o) as Ho.
    { destruct k as [|x k]; [done|]. rewrite Hk in Eo. injection Eo as ->. by apply Forall_cons in Hexp as [? _]. }
    assert (length q2 < SPOKEN_CODES_PER_WINDOW)%nat as H2.
    { apply (f_equal length) in Hk. rewrite length_app in Hk. assert (0 < length k)%nat by (destruct k; [done|simpl; lia]). lia. }
    assert ((∀ l', last q2 = Some l' → SPOKEN_CODE_SPACING ≤ since t l') ↔ SPOKEN_CODE_SPACING ≤ since t l) as Hl.
    { split; [|intros H l' Hl'; apply Hlast in Hl'; congruence].
      intros H. destruct (last q2) as [l'|] eqn:E2; [specialize (Hlast l' eq_refl); injection Hlast as ->; by apply H|].
      apply last_None in E2. rewrite E2, app_nil_r in Hk. subst k.
      apply last_Some_elem_of in El. apply (proj1 (Forall_forall _ _) Hexp) in El. lia. }
    rewrite Hl. unfold since in *. destruct (SPOKEN_CODES_PER_WINDOW <=? length q)%nat; split; lia || (intros; split; lia).
Qed.

Lemma spoken_wait_is_exact_witness :
  is_ok (try_acquire [0]%Z 30000000000).1 = true ↔ (10 + Z.of_N 29999999990 ≤ 30000000000)%Z.
Proof.
  apply (spoken_wait_is_exact [0]%Z 10 29999999990 [0]%Z 30000000000%Z).
  - repeat constructor. lia.
  - vm_compute. lia.
  - repeat constructor.
  - vm_compute. reflexivity.
  - lia.
Defined.

(** ** Devices are bounded *)

Section devices.
Context (iter : Charges → list (text * list Z)).

Inductive DeviceOp : Type := Admits (device : text) (now : Z) | Succeeds (device : text).

(** The throttle, and the runs each device was admitted to since it last succeeded or was
    evicted for room. *)
Record Devices := { dv_charges : Charges; dv_runs : Charges }.

Definition retained (charges : Charges) (now : Z) : Charges :=
  omap (λ q, let q := forget_expired DEVICE_RESUME_WINDOW now q in
             if is_empty q then None else Some q) charges.

Definition evicted (charges : Charges) (device : text) (now : Z) : option text :=
  match charges !! device with
  | Some _ => None
  | None =>
      if (size charges <? MAX_TRACKED_DEVICES)%nat || (size (retained charges now) <? MAX_TRACKED_DEVICES)%nat
      then None else fst <$> stalest (iter (retained charges now))
  end.

Definition device_step (s : Devices) (op : DeviceOp) : Devices :=
  match op with
  | Admits device now =>
      let '(answer, charges) := admit_device_run iter (dv_charges s) device now in
      let runs := match evicted (dv_charges s) device now with
                  | Some e => delete e (dv_runs s)
                  | None => dv_runs s
                  end in
      {| dv_charges := charges;
         dv_runs := if is_ok answer then <[device := default [] (runs !! device) ++ [now]]> runs else runs |}
  | Succeeds device =>
      {| dv_charges := record_device_success (dv_charges s) device; dv_runs := delete device (dv_runs s) |}
  end.

Definition instant (op : DeviceOp) : option Z := match op with Admits _ now => Some now | Succeeds _ => None end.

Definition no_devices : Devices := {| dv_charges := ∅; dv_runs := ∅ |}.

(** What is held of each device, at an instant [t] no reading precedes. *)
Definition device_ok (t : Z) (s : Devices) (d : text) : Prop :=
  let log := default [] (dv_runs s !! d) in
  windowed DEVICE_RESUME_WINDOW t log (default [] (dv_charges s !! d)) ∧
  rolling DEVICE_RESUME_ATTEMPTS DEVICE_RESUME_WINDOW log.

Record devices_ok (t : Z) (s : Devices) : Prop := {
  do_each d : device_ok t s d;
  do_size : (size (dv_charges s) ≤ MAX_TRACKED_DEVICES)%nat }.

Lemma stalest_some l : l ≠ [] → ∃ x, stalest l = Some x ∧ x ∈ l.
Proof.
  induction l as [|x l IH]; [done|]. intros _. cbn [stalest]. destruct l as [|y l].
  - exists x. split; [done|left].
  - destruct IH as (z & -> & Hz); [done|]. destruct (back_le _ _); eexists; (split; [done|]); [left|by right].
Qed.

Lemma retained_lookup charges now d :
  default [] (retained charges now !! d) =
  forget_expired DEVICE_RESUME_WINDOW now (default [] (charges !! d)).
Proof.
  unfold retained. rewrite lookup_omap. destruct (charges !! d) as [q|]; [|done]. simpl.
  by destruct (forget_expired _ now q).
Qed.

Lemma retained_size charges now : (size (retained charges now) ≤ size charges)%nat.
Proof.
  unfold retained. rewrite <-!(size_dom (D := gset text)). apply subseteq_size, dom_omap_subseteq.
Qed.

Context (iter_perm : ∀ charges, iter charges ≡ₚ map_to_list charges).

(** What [make_room] leaves of each device, and that there is room. *)
Lemma make_room_spec charges device now :
  charges !! device = None → (size charges ≤ MAX_TRACKED_DEVICES)%nat →
  (size (make_room iter charges now) < MAX_TRACKED_DEVICES)%nat ∧
  ∀ d, default [] (make_room iter charges now !! d) =
       (if decide (evicted charges device now = Some d) then []
        else default [] (charges !! d)) ∨
       default [] (make_room iter charges now !! d) =
       (if decide (evicted charges device now = Some d) then []
        else forget_expired DEVICE_RESUME_WINDOW now (default [] (charges !! d))).
Proof.
  intros Hd Hsize. unfold make_room, evicted. rewrite Hd. fold (retained charges now).
  destruct (size charges <? MAX_TRACKED_DEVICES)%nat eqn:E1; [apply Nat.ltb_lt in E1; simpl; split; [done|by left]|].
  destruct (size (retained charges now) <? MAX_TRACKED_DEVICES)%nat eqn:E2; simpl.
  - apply Nat.ltb_lt in E2. split; [done|]. intros d. right. apply retained_lookup.
  - apply Nat.ltb_ge in E1, E2. pose proof (retained_size charges now) as Hr.
    destruct (stalest_some (iter (retained charges now))) as ([e q] & -> & Hin).
    { intros Hnil. specialize (iter_perm (retained charges now)). rewrite Hnil in iter_perm.
      apply Permutation_nil_l in iter_perm. apply (f_equal length) in iter_perm.
      rewrite length_map_to_list in iter_perm. unfold MAX_TRACKED_DEVICES in E2. simpl in iter_perm. lia. }
    rewrite iter_perm in Hin. apply elem_of_map_to_list in Hin. split.
    + rewrite map_size_delete, Hin. simpl. unfold MAX_TRACKED_DEVICES in *. lia.
    + intros d. right. simpl. destruct (decide (e = d)) as [->|Hne].
      * rewrite decide_True by done. by rewrite lookup_delete_eq.
      * rewrite decide_False by congruence. rewrite lookup_delete_ne by done. apply retained_lookup.
Qed.

Lemma device_ok_later t now s d : (t ≤ now)%Z → device_ok t s d → device_ok now s d.
Proof. intros Ht [H1 H2]. split; [by eapply windowed_later|done]. Qed.

Lemma window_positive : 0 < DEVICE_RESUME_WINDOW.
Proof. by vm_compute. Qed.

Lemma admits_ok t s device now : (t ≤ now)%Z → devices_ok t s → devices_ok now (device_step s (Admits device now)).
Proof.
  intros Ht [Hd Hsize]. assert (∀ d, device_ok now s d) as Hnow by (intros d; by eapply device_ok_later).
  pose proof (Hnow device) as [Hw Hr]. cbn [device_step]. unfold admit_device_run.
  destruct (dv_charges s !! device) as [q|] eqn:Eq.
  - assert (evicted (dv_charges s) device now = None) as -> by (unfold evicted; by rewrite Eq).
    simpl in Hw. apply windowed_forget in Hw; [|apply window_positive].
    destruct (DEVICE_RESUME_ATTEMPTS <=? _)%nat eqn:E; cbn [is_ok]; split; cbn [dv_charges dv_runs];
      try (rewrite map_size_insert_Some by eauto; done); intros d; unfold device_ok; cbn [dv_charges dv_runs].
    + destruct (decide (d = device)) as [->|Hne].
      * rewrite lookup_insert_eq. by split.
      * rewrite lookup_insert_ne by done. apply Hnow.
    + apply Nat.leb_gt in E. destruct (decide (d = device)) as [->|Hne].
      * rewrite !lookup_insert_eq. split; [by apply windowed_snoc|].
        eapply windowed_rolling; [|exact Hr|exact Hw|exact E]. unfold DEVICE_RESUME_ATTEMPTS. lia.
      * rewrite !lookup_insert_ne by done. apply Hnow.
  - destruct (make_room_spec (dv_charges s) device now Eq Hsize) as [Hroom Heach].
    set (ev := evicted (dv_charges s) device now) in *. clearbody ev. cbn [is_ok].
    assert (∀ d, default [] ((match ev with Some e => delete e (dv_runs s) | None => dv_runs s end) !! d) =
      if decide (ev = Some d) then [] else default [] (dv_runs s !! d)) as Hruns.
    { intros d. destruct ev as [e|]; [|by rewrite decide_False].
      destruct (decide (e = d)) as [->|Hne]; [rewrite decide_True by done; by rewrite lookup_delete_eq|].
      rewrite decide_False by congruence. by rewrite lookup_delete_ne. }
    assert (∀ d, device_ok now {| dv_charges := make_room iter (dv_charges s) now;
        dv_runs := match ev with Some e => delete e (dv_runs s) | None => dv_runs s end |} d) as Hkept.
    { intros d. unfold device_ok. cbn [dv_charges dv_runs]. rewrite Hruns. destruct (Hnow d) as [Hwd Hrd].
      destruct (Heach d) as [-> | ->]; destruct (decide (ev = Some d));
        try (split; [apply windowed_nil|apply rolling_nil]); [by split|].
      split; [|done]. apply windowed_forget; [apply window_positive|done]. }
    split; cbn [dv_charges dv_runs].
    + intros d. unfold device_ok. cbn [dv_charges dv_runs]. destruct (Hkept d) as [Hwd Hrd]. cbn [dv_charges dv_runs] in *.
      destruct (decide (d = device)) as [->|Hne]; [|by rewrite !lookup_insert_ne].
      rewrite !lookup_insert_eq. cbn [default].
      assert (default [] (make_room iter (dv_charges s) now !! device) = []) as Eroom.
      { destruct (Heach device) as [-> | ->]; rewrite Eq; by case_decide. }
      rewrite Eroom in Hwd. split; [by apply (windowed_snoc _ _ _ [])|].
      eapply windowed_rolling; [|exact Hrd|exact Hwd|]; unfold DEVICE_RESUME_ATTEMPTS; simpl; lia.
    + assert (size (<[device:=[now]]> (make_room iter (dv_charges s) now)) ≤ S (size (make_room iter (dv_charges s) now)))%nat.
      { rewrite map_size_insert. destruct (make_room _ _ _ !! device); simpl; lia. }
      lia.
Qed.

Lemma succeeds_ok t s device : devices_ok t s → devices_ok t (device_step s (Succeeds device)).
Proof.
  intros [Hd Hsize]. split; cbn [device_step dv_charges dv_runs record_device_success].
  - intros d. unfold device_ok, record_device_success. cbn [dv_charges dv_runs].
    destruct (decide (d = device)) as [->|Hne].
    + rewrite !lookup_delete_eq. split; [apply windowed_nil|apply rolling_nil].
    + rewrite !lookup_delete_ne by done. apply Hd.
  - unfold record_device_success. rewrite map_size_delete. destruct (_ !! device); simpl; lia.
Qed.

Lemma device_steps_ok ops : ∀ t s,
  devices_ok t s → StronglySorted Z.le (t :: omap instant ops) →
  ∃ t', devices_ok t' (foldl device_step s ops).
Proof.
  induction ops as [|[d now|d] ops IH]; intros t s Hs Hsorted; cbn [foldl]; [by exists t| |].
  - cbn [omap list_omap instant] in Hsorted. apply StronglySorted_inv in Hsorted as [Hs2 Hall].
    apply Forall_cons in Hall as [Hnow _]. apply (IH now); [by apply (admits_ok t)|exact Hs2].
  - apply (IH t); [by apply succeeds_ok|exact Hsorted].
Qed.
End devices.

(** However devices flood the resume channel, and in whatever order the map is walked, no
    device starts a sixth run within ten minutes of a first, unless it succeeded or was evicted
    for room meanwhile; and never more than 256 devices are tracked. *)
Theorem device_runs_are_bounded (iter : Charges → list (text * list Z)) ops :
  (∀ charges, iter charges ≡ₚ map_to_list charges) →
  StronglySorted Z.le (omap instant ops) →
  let s := foldl (device_step iter) no_devices ops in
  (tracked (dv_charges s) ≤ MAX_TRACKED_DEVICES)%nat ∧
  ∀ d, rolling DEVICE_RESUME_ATTEMPTS DEVICE_RESUME_WINDOW (default [] (dv_runs s !! d)).
Proof.
  intros Hperm Hsorted.
  destruct (device_steps_ok iter Hperm ops (default 0%Z (head (omap instant ops))) no_devices) as (t & Hd & Hs).
  - split; [|simpl; unfold MAX_TRACKED_DEVICES; rewrite map_size_empty; lia].
    intros d. unfold device_ok. simpl. rewrite !lookup_empty. split; [apply windowed_nil|apply rolling_nil].
  - destruct (omap instant ops) as [|t l] eqn:E; [repeat constructor|]. simpl.
    pose proof Hsorted as [_ Hall]%StronglySorted_inv. constructor; [done|]. constructor; [lia|done].
  - split; [exact Hs|]. intros d. apply Hd.
Qed.

Lemma device_runs_are_bounded_witness :
  let s := foldl (device_step map_to_list) no_devices
             [Admits [7%N] 0; Admits [7%N] 1; Admits [7%N] 2; Admits [7%N] 3; Admits [7%N] 4; Admits [7%N] 5]%Z in
  (tracked (dv_charges s) ≤ MAX_TRACKED_DEVICES)%nat ∧ dv_runs s !! [7] = Some [0; 1; 2; 3; 4]%Z.
Proof.
  intros s. split; [|vm_compute; reflexivity].
  apply (device_runs_are_bounded map_to_list
    [Admits [7%N] 0; Admits [7%N] 1; Admits [7%N] 2; Admits [7%N] 3; Admits [7%N] 4; Admits [7%N] 5]%Z).
  - reflexivity.
  - repeat constructor; lia.
Defined.
