(* ===== verification/Runner.v ===== *)
(** * Runner: what a long task runs next, and how a run settles

    [crates/pond-core/src/shared/services/long_task_runner.rs]: the decisions of the runner
    ([next_run], [settle_run], [inline_ids], [turns_for], the ceiling of a task's helpers and
    the roles it makes), the notes and answers it picks out, and how it sizes an answer. The
    briefs it assembles from these (planner, worker, verifier) are prompt text and are left
    out. [char::is_alphanumeric] beyond ASCII is the Unicode table, a section variable. *)
From S2P Require Import Prelude Text Scope LongTask HandBack.
From S2P Require Import Step PlanCycle Plan Artifact ToolGroups RoleBlock Delegation.
Local Open Scope N_scope.

(** ** The ceiling of a long task's helpers *)

Definition PLANNER_ROLE : text := lit "long-task-planner".
Definition WORKER_ROLE : text := lit "long-task-worker".
Definition VERIFIER_ROLE : text := lit "long-task-verifier".

Definition LONG_TASK_ROOT_GROUPS : list text :=
  [TASK_WORK_EXTENSION; lit "giap-knowledge"; lit "giap-memory"; lit "giap-weather";
   lit "giap-sensors"].

Definition long_task_authority (session_id : text) (scope : ProfileScope) : DelegationAuthority :=
  with_read_tools (authority_root session_id scope (list_to_set LONG_TASK_ROOT_GROUPS))
    HOUSEHOLD_READ_TOOLS.

Definition lane_reaches_group (group : text) : bool :=
  bool_decide (group ∈ LONG_TASK_ROOT_GROUPS) ||
  existsb (λ tool, bool_decide (group_of_tool tool = Some group)) HOUSEHOLD_READ_TOOLS.

Definition LONG_TASK_SESSION_PREFIX : text := lit "sched-long-task-".
Definition long_task_session_id (task_id run_id : text) : text :=
  LONG_TASK_SESSION_PREFIX ++ task_id ++ lit "-" ++ run_id.

(** ** [next_run] *)

Definition MAX_STEP_ATTEMPTS : N := 2.
Definition MAX_FRUITLESS_PLANS : N := 3.

Inductive PlanReason : Type := Fresh | Blocked (steps : list StepKey).

Inductive NextRun : Type :=
| RunPlan (reason : PlanReason)
| Do (step : PlanStep)
| Finish
| GiveUp (why : text)
| Wait.

Definition may_retry_step (s : PlanStep) : bool :=
  bool_decide (ps_state s = StepState.Failed) && (ps_attempts s <? MAX_STEP_ATTEMPTS).

Definition is_settled (s : PlanStep) : bool :=
  match ps_state s with StepState.Completed | StepState.Skipped => true | _ => false end.

Definition next_run (task : LongTask) (steps : list PlanStep) (fruitless_plans : N) (now : Z) :
    NextRun :=
  match task_state task with
  | Planning | Running =>
      if deadline_passed (task_budget task) now then GiveUp (lit "it ran past its deadline") else
      if MAX_FRUITLESS_PLANS <=? fruitless_plans
      then GiveUp (dec fruitless_plans ++ lit " plans in a row left nothing that could run") else
      if bool_decide (task_state task = Planning) || is_empty steps then RunPlan Fresh else
      match min_by ps_ordinal (List.filter may_retry_step steps) with
      | Some retry => Do retry
      | None =>
          let blocked := blocked_steps steps in
          if negb (is_empty blocked) then RunPlan (Blocked (ps_key <$> blocked)) else
          match next_ready_step steps with
          | Some step => Do step
          | None =>
              if forallb is_settled steps then Finish else
              if existsb (λ s, bool_decide (ps_state s = StepState.Failed)) steps
              then RunPlan (Blocked []) else Wait
          end
      end
  | _ => Wait
  end.

(** ** Made agents *)

Definition MADE_AGENT_RULES : text :=
  lit "How you work:" ++
  [10] ++
  lit "1. Your brief gives the task's goal, your step and your inputs. Use only your tools." ++
  [10] ++
  lit "2. Save what you make with artifact_write, titled as the reader should see it. On " ++
  lit "your last" ++
  [10] ++
  lit "   save, when the step is done, set finish to true: that reports the step completed." ++
  [10] ++
  lit "3. Otherwise finish with step_report once, last: outcome completed or failed, what " ++
  lit "you did in a" ++
  [10] ++
  lit "   few sentences, and the ids of what you saved." ++
  [10] ++
  lit "Never put a person's name, health or diet in a web search.".
Definition RESEARCH_SOURCES : text :=
  lit "This is research the person asked for. First decide where the answer lives. What " ++
  lit "happened in this house, who the cameras saw, what the sensors read, what is " ++
  lit "scheduled and what the household has said live in the house, and a step reads them " ++
  lit "with get_recent_camera_events, the sensor, schedule and device tools, or the memory " ++
  lit "tools. Look only where the goal points: a question about the cameras reads the " ++
  lit "camera tools, not the schedule or what was said. A question about this house needs " ++
  lit "no web step at all. Plan a web step only for something the goal itself asks about " ++
  lit "that lies outside the house, such as places, prices or facts about the world. When " ++
  lit "part of the answer is out of every helper's reach, such as old camera footage or a " ++
  lit "picture, plan no step for it: the Result says what could not be read and how the " ++
  lit "person can get it." ++
  [10].
Definition SHORT_PLAN : text :=
  lit "The person wants a short answer. You only write the plan: a helper does each step. " ++
  lit "Plan one step whose helper finds the answer and saves it as the Result itself. Plan " ++
  lit "a second step only when the answer needs two different places looked in, never a " ++
  lit "step that only writes or compiles, and no sections. The Result is the answer in its " ++
  lit "first sentence, then a sentence or two on what it rests on, at most 150 words in " ++
  lit "all, with its sources, and no heading." ++
  [10].
Definition RESEARCH_REPORT_PLAN : text :=
  lit "The person wants a report, as long as the question needs: a page for a narrow " ++
  lit "question, many for a trip or a big decision. Plan it in three parts. First, one " ++
  lit "step for each thing the question is about, such as each option a comparison weighs, " ++
  lit "that looks into all of it and saves its findings with their sources: not a step for " ++
  lit "each question about one thing. Then one step per section of the report, each " ++
  lit "writing its section from the findings it is given and saving it as a draft artifact " ++
  lit "titled as the reader should see it. Plan only the sections the goal asks for or " ++
  lit "cannot do without. A section that is itself a plan, such as an itinerary, goes to " ++
  lit "long-task-composer. Last, one step writes the artifact titled " ++
  [34] ++
  lit "Result" ++
  [34] ++
  lit ": a short title on its first line as a " ++
  [34] ++
  lit "# " ++
  [34] ++
  lit " heading, then a few paragraphs that answer the question and introduce the sections " ++
  lit "without repeating them. Do not plan a step that combines, compiles or merges " ++
  lit "sections: the pond joins the Result and the sections, in plan order, into the " ++
  lit "report itself." ++
  [10].
Definition REPORT_PLAN : text :=
  lit "The person wants all of it: plan the steps the work needs, and the last step saves " ++
  lit "the Result in full." ++
  [10].
Definition DECIDE_ANSWER : text :=
  lit "Nobody has said how long the answer should be, so decide it from the goal and what " ++
  lit "the person said, and pass it as plan_write's answer. Choose report only when the " ++
  lit "person asked for a report, a plan such as a trip or a meal plan, a comparison of " ++
  lit "many options, or to be thorough. Anything else is short, a question with one answer " ++
  lit "most of all: a fact, a number, a time, a yes or no, the fastest or best way, or " ++
  lit "what happened." ++
  [10].
Definition RESEARCH_STEP : text :=
  lit "This is research. Answer from sources, never from memory: the house's own tools for " ++
  lit "what happened here, such as get_recent_camera_events, the sensor and schedule tools " ++
  lit "and the memory tools, and search_web or get_wikipedia_article only for what is " ++
  lit "outside the house. Before you write a number, price, time or date from the web, " ++
  lit "read the page it came from with read_web_page: give the source's domain as " ++
  lit "search_web showed it, or the link the goal gives, and the question. Read one page " ++
  lit "in your step, two at most, and at most one more part of a page: each read is a " ++
  lit "turn. Then save what you found. Keep only what the sources say, and cite each web " ++
  lit "source as a Markdown link, [its title](its address), using the address " ++
  lit "read_web_page gave, or the search's domain. If the sources disagree, say so. Write " ++
  lit "only what your tools returned or your inputs say: never write that the house has " ++
  lit "nothing of something unless the house's own tool said so. If what your step needs " ++
  lit "is out of your tools' reach, do not search the web for it: save what you could " ++
  lit "find, say plainly what is missing and how the person could get it, and report the " ++
  lit "step completed. Use no emoji. Never put a person's name, health or diet in a web " ++
  lit "search: search for the place, the dish or the thing." ++
  [10].
Definition SECTION_STEP : text :=
  lit "If your step writes a section, save it as a draft artifact titled as the reader " ++
  lit "should see it, such as " ++
  [34] ++
  lit "Getting around" ++
  [34] ++
  lit ", and write it in full: the pond puts it in the report as you wrote it. A section " ++
  lit "is 400 to 900 words of specifics from the findings: names, prices, times, " ++
  lit "distances, addresses and what each is good for, not a summary of them. A plan " ++
  lit "covers every day or item with its times, places and costs." ++
  [10].
Definition SHORT_STEP : text :=
  lit "The person wants a short answer. If your step saves the Result, put the answer " ++
  lit "itself in its first sentence, then a sentence or two on what it rests on, such as " ++
  lit "the times and what the camera or the source said. Keep the whole to 150 words with " ++
  lit "its sources, no heading and no sections." ++
  [10].
Definition SHORT_ANSWER_STEP : text :=
  lit "Answer the task's goal for the person. Find what it needs with your tools, then " ++
  lit "save the answer with artifact_write, titled " ++
  [34] ++
  lit "Result" ++
  [34] ++
  lit ", with finish true.".

(** [role_for_agent]: the made agent's tools are those it asked for within the ceiling. *)
Definition role_for_agent (step : PlanStep) (agent : StepAgent) (worker : AgentRole) :
    result AgentRole RoleError :=
  let tools := List.filter lane_reaches_group (sa_tools agent) ++ [TASK_WORK_EXTENSION] in
  AgentRole_new (ps_role step)
    (lit "You are " ++ sa_name agent ++ lit ", an agent made for one step of a longer task. " ++
     sa_instructions agent ++ [10; 10] ++ MADE_AGENT_RULES)
    (list_to_set tools) Inherit (role_max_turns worker) (role_context_fraction worker).

(** ** The conversation's brief *)

Definition BRIEF_TITLE : text := lit "Brief".
Definition BRIEF_CHARS : N := 4000.

Definition brief_artifact (artifacts : list ArtifactSummary) : option ArtifactSummary :=
  find_first (λ a, negb (bool_decide (is_Some (as_step_key a))) &&
                   bool_decide (as_title a = BRIEF_TITLE)) artifacts.

Inductive Role : Type := RoleSystem | RoleUser | RoleAssistant | RoleTool.

Definition brief_line (m : Role * text) : option text :=
  let t := trim m.2 in
  match m.1 with
  | RoleUser => if is_empty t then None else Some (lit "The person: " ++ t)
  | RoleAssistant => if is_empty t then None else Some (lit "The assistant: " ++ t)
  | RoleSystem | RoleTool => None
  end.

(** The loop over the lines, newest first: [Err] is the early return with the newest line's
    tail, [Ok] the lines kept, newest first. *)
Fixpoint keep_lines (lines kept : list text) (total : N) : result (list text) text :=
  match lines with
  | [] => Ok kept
  | line :: lines =>
      if BRIEF_CHARS <? total + byte_len line + 1 then
        if is_empty kept
        then Err (reverse (take (N.to_nat BRIEF_CHARS) (reverse line)))
        else Ok kept
      else keep_lines lines (kept ++ [line]) (total + (byte_len line + 1))
  end.

Definition conversation_brief (earlier : list (Role * text)) : option text :=
  let lines := omap brief_line earlier in
  if is_empty lines then None else
  match keep_lines (reverse lines) [] 0 with
  | Err tail => Some (lit "Earlier in the conversation:" ++ [10] ++ lit "..." ++ tail)
  | Ok kept => Some (lit "Earlier in the conversation:" ++ [10] ++ join [10] (reverse kept))
  end.

Definition clip_brief (t : text) : option text :=
  let t := trim t in
  if is_empty t then None else Some (take (N.to_nat BRIEF_CHARS) t).

(** ** What a step is given *)

Definition INLINE_ARTIFACT_TOKENS : N := 1500.
Definition INLINE_TOTAL_TOKENS : N := 3000.

Definition is_given (step : PlanStep) (a : ArtifactSummary) : bool :=
  bool_decide (as_id a ∈ ps_inputs step) ||
  (negb (bool_decide (is_Some (as_step_key a))) && bool_decide (as_title a = BRIEF_TITLE)) ||
  match as_step_key a with
  | Some key =>
      bool_decide (key ∈ ps_depends_on step) ||
      ((0 <? ps_attempts step) && bool_decide (key = ps_key step))
  | None => false
  end.

Definition given_artifacts (step : PlanStep) (artifacts : list ArtifactSummary) :
    list ArtifactSummary :=
  List.filter (is_given step) artifacts.

(** The loop of [inline_ids]. The source adds in [u32]; [total] and the addend are checked to be
    small first, so the sum never wraps ([inline_within_budget] below). *)
Fixpoint inline_loop (given : list ArtifactSummary) (total : N) (ids : list ArtifactSummary) :
    list ArtifactSummary :=
  match given with
  | [] => ids
  | a :: given =>
      if (as_tokens a <=? INLINE_ARTIFACT_TOKENS) && (total + as_tokens a <=? INLINE_TOTAL_TOKENS)
      then inline_loop given (total + as_tokens a) (ids ++ [a])
      else inline_loop given total ids
  end.

Definition inline_artifacts (step : PlanStep) (artifacts : list ArtifactSummary) :=
  inline_loop (given_artifacts step artifacts) 0 [].
Definition inline_ids (step : PlanStep) (artifacts : list ArtifactSummary) : list text :=
  as_id <$> inline_artifacts step artifacts.

Definition OUT_OF_TURNS : text := lit "the helper ran out of turns before reporting".
Definition CAME_BACK_EMPTY : text := lit "the helper reported done but gave no result".
Definition MIN_RESULT_CHARS : nat := 20.

Definition turns_for (role_max_turns : N) (step : PlanStep) : N :=
  if (0 <? ps_attempts step) && bool_decide (ps_failure step = Some OUT_OF_TURNS)
  then role_max_turns + div_ceil role_max_turns 2 else role_max_turns.

(** ** The answer *)

Definition RESULT_TITLE : text := lit "Result".

Definition same_title (a b : text) : bool := bool_decide (lowercase a = lowercase b).

(** [text.lines().map(trim).find(not empty)]. *)
Definition first_line (t : text) : text :=
  default [] (find_first (λ l, negb (is_empty l)) (trim <$> split_on (N.eqb 10) t)).

Definition last_step_line (steps : list PlanStep) (step : PlanStep) : option text :=
  let later := existsb (λ other, (ps_ordinal step <? ps_ordinal other) && negb (is_settled other)) steps in
  if later then None
  else Some (lit "Your step is the plan's last: save what answers the goal as the artifact " ++
        lit "titled " ++
        [34] ++
        lit "Result" ++
        [34] ++
        lit "." ++
        [10]).

Section unicode.
Context (is_alphanumeric : N → bool).

Definition names_result (title : text) : bool :=
  existsb (λ word, same_title word RESULT_TITLE) (split_on (λ c, negb (is_alphanumeric c)) title).

Definition result_artifact (artifacts : list ArtifactSummary) : option ArtifactSummary :=
  match find_first (λ a, same_title (trim (as_title a)) RESULT_TITLE) (rev artifacts) with
  | Some a => Some a
  | None => find_first (λ a, names_result (as_title a)) (rev artifacts)
  end.

Definition answer_artifact (task : LongTask) (artifacts : list ArtifactSummary) :
    option ArtifactSummary :=
  match result_artifact artifacts with
  | Some a => Some a
  | None =>
      if bool_decide (task_answer task = Short)
      then find_first (λ a, bool_decide (is_Some (as_step_key a))) (rev artifacts)
      else None
  end.

Definition summary_as_result (uuid : text) (task : LongTask) (steps : list PlanStep)
    (artifacts : list ArtifactSummary) (now : Z) : option Artifact :=
  if negb (bool_decide (task_answer task = Short)) ||
     bool_decide (is_Some (answer_artifact task artifacts)) then None else
  last ← max_by ps_ordinal
           (List.filter (λ s, bool_decide (ps_state s = StepState.Completed)) steps);
  summary ← non_blank (ps_summary last);
  match Artifact_new uuid (task_id task) (Some (ps_key last)) Draft RESULT_TITLE
          (first_line summary) summary now with
  | Ok a => Some a
  | Err _ => None
  end.
End unicode.

(** ** Sizing the answer *)

Definition SHORT_ANSWER_KEY : text := lit "answer".

Definition short_answer_plan (task : LongTask) : result ValidatedPlan PlanError :=
  validate_plan task
    [{| sd_key := SHORT_ANSWER_KEY; sd_role := WORKER_ROLE; sd_new_agent := None;
        sd_instructions := SHORT_ANSWER_STEP; sd_inputs := []; sd_depends_on := [];
        sd_acceptance := None |}] [].

Definition is_research (task : LongTask) : bool := bool_decide (task_kind task = Research).

Definition answer_plan (task : LongTask) : text :=
  let report := if is_research task then RESEARCH_REPORT_PLAN else REPORT_PLAN in
  (if is_research task then RESEARCH_SOURCES else []) ++
  match task_answer task with
  | Short => SHORT_PLAN
  | Report => report
  | Auto => DECIDE_ANSWER ++ lit "If short: " ++ SHORT_PLAN ++ lit "If report: " ++ report
  end.

Definition answer_step (task : LongTask) : text :=
  (if is_research task then RESEARCH_STEP else []) ++
  match task_answer task with
  | Short => SHORT_STEP
  | Report | Auto => if is_research task then SECTION_STEP else []
  end.

(** ** How a run settles *)

Inductive RunEnd : Type := Reported (o : StepOutcome) | Preempted.

Definition tools_withheld (role_name : text) : list text :=
  if bool_decide (role_name = PLANNER_ROLE)
  then [lit "giap-task-work__artifact_write"; lit "giap-task-work__step_report"]
  else if bool_decide (role_name = VERIFIER_ROLE)
  then [lit "giap-task-work__artifact_write"; lit "giap-task-work__plan_write"]
  else [lit "giap-task-work__plan_write"].

Definition failed (reason : text) : StepOutcome :=
  StepOutcome_new OutcomeKind.Failed reason [] (Some reason).

Section serde_json.
Context (json_display : Json → text) (from_str : text → option Json).

Definition settle_run (reported : option StepOutcome) (written : list text) (run : TaskRun)
    (may_retry : bool) : RunEnd :=
  match reported with
  | Some outcome =>
      let empty :=
        bool_decide (so_outcome outcome = OutcomeKind.Completed) &&
        is_empty (so_artifacts outcome) && is_empty written &&
        (length (trim (so_summary outcome)) <? MIN_RESULT_CHARS)%nat in
      Reported (if empty then failed CAME_BACK_EMPTY else outcome)
  | None =>
      if bool_decide (tr_status run = TaskStatus.Cancelled) then Preempted else
      if bool_decide (tr_status run = TaskStatus.TurnBudgetExhausted) && may_retry
      then Reported (failed OUT_OF_TURNS) else
      if negb (is_empty written) then
        let summary :=
          default (lit "Saved " ++ dec (N.of_nat (length written)) ++ lit " artifact(s).")
            (non_blank (tr_result run)) in
        Reported (StepOutcome_new OutcomeKind.Completed summary written None) else
      if bool_decide (tr_status run = TaskStatus.TurnBudgetExhausted)
      then Reported (failed OUT_OF_TURNS) else
      match StepOutcome_parse json_display from_str <$> result_for_parent run with
      | Some (Ok outcome) => Reported outcome
      | Some (Err _) | None =>
          Reported (failed (default (lit "the helper ended without reporting") (tr_error run)))
      end
  end.
End serde_json.

(** ** Lemmas *)

Lemma is_settled_true s :
  is_settled s = true ↔ ps_state s = StepState.Completed ∨ ps_state s = StepState.Skipped.
Proof. unfold is_settled. destruct (ps_state s); split; try done; try (by left); try (by right); by intros [?|?]. Qed.

Lemma may_retry_true s :
  may_retry_step s = true ↔ ps_state s = StepState.Failed ∧ ps_attempts s < MAX_STEP_ATTEMPTS.
Proof. unfold may_retry_step. by rewrite andb_true_iff, bool_decide_eq_true, N.ltb_lt. Qed.

(** What [next_run] answers on an open task within its limits, in the order it decides. *)
Inductive decides (steps : list PlanStep) : NextRun → Prop :=
| decides_retry s :
    s ∈ steps → ps_state s = StepState.Failed → ps_attempts s < MAX_STEP_ATTEMPTS →
    decides steps (Do s)
| decides_ready s :
    s ∈ steps → ps_state s = StepState.Pending →
    (∀ dep, dep ∈ ps_depends_on s → step_states steps !! dep = Some StepState.Completed) →
    decides steps (Do s)
| decides_blocked ks :
    ks ≠ [] → (∀ k, k ∈ ks → ∃ s, s ∈ steps ∧ ps_key s = k ∧ blocked_key steps k) →
    decides steps (RunPlan (Blocked ks))
| decides_failed s :
    s ∈ steps → ps_state s = StepState.Failed → MAX_STEP_ATTEMPTS ≤ ps_attempts s →
    decides steps (RunPlan (Blocked []))
| decides_finish :
    (∀ s, s ∈ steps → ps_state s = StepState.Completed ∨ ps_state s = StepState.Skipped) →
    decides steps Finish
| decides_wait :
    (∀ s, s ∈ steps → ps_state s ≠ StepState.Failed ∧ ¬ blocked_key steps (ps_key s)) →
    next_ready_step steps = None →
    (∃ s, s ∈ steps ∧ is_settled s = false) → decides steps Wait.

Lemma next_run_decides task steps fruitless now :
  task_state task = Running → deadline_passed (task_budget task) now = false →
  fruitless < MAX_FRUITLESS_PLANS → steps ≠ [] → decides steps (next_run task steps fruitless now).
Proof.
  intros Ht Hd Hf Hne. unfold next_run. rewrite Ht, Hd, (proj2 (N.leb_gt _ _)) by done.
  apply is_empty_false in Hne. rewrite Hne. cbn [orb bool_decide].
  rewrite bool_decide_eq_false_2 by done. cbn [orb].
  destruct (min_by ps_ordinal _) as [r|] eqn:Er.
  { apply min_by_Some in Er as [[Hr Hm%may_retry_true]%elem_of_filter_bool _].
    destruct Hm. by apply decides_retry. }
  apply min_by_None in Er.
  assert (∀ s, s ∈ steps → may_retry_step s = false) as Hnr.
  { intros s Hs. destruct (may_retry_step s) eqn:E; [|done]. exfalso.
    assert (s ∈ List.filter may_retry_step steps) as Hin by by apply elem_of_filter_bool.
    rewrite Er in Hin. by apply elem_of_nil in Hin. }
  destruct (is_empty (blocked_steps steps)) eqn:Eb; simpl; cycle 1.
  { apply decides_blocked.
    - apply is_empty_false in Eb. intros E%fmap_nil_inv. done.
    - intros k (s & -> & Hs)%list_elem_of_fmap. apply elem_of_blocked_steps in Hs as [??]. by exists s. }
  apply is_empty_true in Eb.
  assert (∀ s, s ∈ steps → ¬ blocked_key steps (ps_key s)) as Hnb.
  { intros s Hs Hb. assert (s ∈ blocked_steps steps) as Hin by by apply elem_of_blocked_steps.
    rewrite Eb in Hin. by apply elem_of_nil in Hin. }
  destruct (next_ready_step steps) as [r|] eqn:En.
  { apply ready_Some in En as [(?&?&?) _]. by apply decides_ready. }
  destruct (forallb is_settled steps) eqn:Es.
  { apply decides_finish. intros s Hs. rewrite forallb_elem_of in Es. by apply is_settled_true, Es. }
  apply forallb_false_elem_of in Es as (u & Hu & Eu).
  destruct (existsb _ steps) eqn:Ef.
  - apply existsb_elem_of in Ef as (s & Hs & E%bool_decide_eq_true). apply (decides_failed _ s); [done..|].
    specialize (Hnr s Hs). apply Bool.not_true_iff_false in Hnr. rewrite may_retry_true in Hnr.
    destruct (N.lt_ge_cases (ps_attempts s) MAX_STEP_ATTEMPTS); [|done]. by destruct Hnr.
  - apply decides_wait; [|done|by exists u]. intros s Hs. split; [|by apply Hnb].
    intros E. apply Bool.not_true_iff_false in Ef. apply Ef, existsb_elem_of.
    exists s. by rewrite bool_decide_eq_true.
Qed.

Lemma inline_loop_spec given total ids :
  total = N.of_nat (sum_list_with (λ a, N.to_nat (as_tokens a)) ids) →
  total ≤ INLINE_TOTAL_TOKENS →
  (∀ a, a ∈ ids → as_tokens a ≤ INLINE_ARTIFACT_TOKENS) →
  N.of_nat (sum_list_with (λ a, N.to_nat (as_tokens a)) (inline_loop given total ids)) ≤ INLINE_TOTAL_TOKENS ∧
  (∀ a, a ∈ inline_loop given total ids → as_tokens a ≤ INLINE_ARTIFACT_TOKENS) ∧
  (∀ a, a ∈ inline_loop given total ids → a ∈ ids ∨ a ∈ given).
Proof.
  revert total ids. induction given as [|a given IH]; intros total ids Ht Hle Hall; simpl.
  - split; [lia|]. by auto.
  - destruct (N.leb_spec (as_tokens a) INLINE_ARTIFACT_TOKENS) as [Ha|];
      destruct (N.leb_spec (total + as_tokens a) INLINE_TOTAL_TOKENS) as [Hta|]; simpl;
      [|destruct (IH total ids Ht Hle Hall) as (H1 & H2 & H3); split; [done|]; split; [done|];
        intros x [?|?]%H3; [by left|right; by right]..].
    destruct (IH (total + as_tokens a) (ids ++ [a])) as (H1 & H2 & H3).
    + rewrite sum_list_with_app. simpl. lia.
    + done.
    + intros x [?| ->%elem_of_one]%elem_of_app; [by apply Hall|done].
    + split; [done|]. split; [done|].
      intros x [[?| ->%elem_of_one]%elem_of_app|?]%H3; [by left|right; left|right; by right].
Qed.

(** A failure is never a completion. *)
Lemma failed_settles reason (P Q R S : Prop) :
  (so_outcome (failed reason) = OutcomeKind.Completed → P) ∧
  (Q → R → S → so_outcome (failed reason) = OutcomeKind.Failed).
Proof. split; [intros H; discriminate H|reflexivity]. Qed.

(** ** Properties *)


Definition running_trip : LongTask :=
  {| task_id := lit "t1"; task_owner := Some (lit "ann"); task_scope := Owner (lit "ann");
     task_goal := lit "plan a trip"; task_origin := None; task_state := Running;
     task_budget := budget12; task_kind := General; task_answer := Auto;
     task_created_at := 5; task_updated_at := 5; task_finished_at := None |}.


(** A run settles as completed only on evidence: the helper reported it completed and named an
    artifact, saved one or said at least twenty characters; or it reported nothing but saved
    work, was not stopped, and did not run out of turns with a try left; or its own final answer
    parses as a completed hand-back. A run counts as preempted exactly when it reported nothing
    and was cancelled, and whatever it settles as, a failed step carries a reason. *)
Theorem settle_run_needs_evidence json_display from_str reported written run may_retry :
  (settle_run json_display from_str reported written run may_retry = Preempted ↔
     reported = None ∧ tr_status run = TaskStatus.Cancelled) ∧
  ∀ o, settle_run json_display from_str reported written run may_retry = Reported o →
    (so_outcome o = OutcomeKind.Completed →
       (reported = Some o ∧
          (so_artifacts o ≠ [] ∨ written ≠ [] ∨ (MIN_RESULT_CHARS ≤ length (trim (so_summary o)))%nat)) ∨
       (reported = None ∧ written ≠ [] ∧ so_artifacts o = clean_ids written ∧
          tr_status run ≠ TaskStatus.Cancelled ∧
          (tr_status run = TaskStatus.TurnBudgetExhausted → may_retry = false)) ∨
       (reported = None ∧ tr_status run = TaskStatus.Completed ∧
          ∃ t, tr_result run = Some t ∧ StepOutcome_parse json_display from_str t = Ok o)) ∧
    (reported = None → written = [] → tr_status run ≠ TaskStatus.Completed →
       so_outcome o = OutcomeKind.Failed).
Proof.
  unfold settle_run. destruct reported as [r|].
  - split; [by split; [|intros [? _]]|]. intros o [= <-]. split; [|done].
    destruct (_ && _) eqn:E; [done|]. intros Hc. left. split; [done|].
    rewrite Hc in E. simpl in E.
    destruct (is_empty (so_artifacts r)) eqn:Ea; [|left; by apply is_empty_false].
    destruct (is_empty written) eqn:Ew; [|right; left; by apply is_empty_false].
    right. right. simpl in E. by apply Nat.ltb_ge.
  - case_bool_decide as Ec; [split; [by split|done]|].
    split.
    { split; [|by intros [_ ?]]. intros H.
      destruct (bool_decide (tr_status run = TaskStatus.TurnBudgetExhausted) && may_retry); [discriminate H|].
      destruct (negb (is_empty written)); [discriminate H|].
      destruct (bool_decide (tr_status run = TaskStatus.TurnBudgetExhausted)); [discriminate H|].
      destruct (_ <$> result_for_parent run) as [[?|?]|]; discriminate H. }
    intros o H.
    destruct (bool_decide (tr_status run = TaskStatus.TurnBudgetExhausted) && may_retry) eqn:Et.
    { injection H as <-. apply failed_settles. }
    destruct (is_empty written) eqn:Ew; simpl in H; cycle 1.
    { injection H as <-. apply is_empty_false in Ew. split; [|intros _ E; congruence].
      intros _. right. left. do 4 (split; [first [exact Ew|exact Ec|reflexivity]|]).
      intros Hb. rewrite bool_decide_eq_true_2 in Et by exact Hb. exact Et. }
    case_bool_decide as Eb; [injection H as <-; apply failed_settles|].
    unfold result_for_parent, produced_an_answer in H.
    destruct (tr_status run) eqn:Es; simpl in H; try (injection H as <-; apply failed_settles).
    destruct (tr_result run) as [t|] eqn:Er; simpl in H; [|injection H as <-; apply failed_settles].
    destruct (StepOutcome_parse json_display from_str t) as [o'|] eqn:Ep;
      [|injection H as <-; apply failed_settles].
    injection H as <-. split; [|intros _ _ E; congruence]. intros _. right. right.
    split; [reflexivity|]. split; [reflexivity|]. by exists t.
Qed.

(** The artifacts put whole in a helper's brief are ones its step was given, each of at most
    1500 tokens and together of at most 3000, so the sum the source keeps in a [u32] never wraps. *)
Theorem inline_within_budget step artifacts :
  N.of_nat (sum_list_with (λ a, N.to_nat (as_tokens a)) (inline_artifacts step artifacts))
    ≤ INLINE_TOTAL_TOKENS ∧
  (∀ id, id ∈ inline_ids step artifacts →
     ∃ a, a ∈ given_artifacts step artifacts ∧ as_id a = id ∧ as_tokens a ≤ INLINE_ARTIFACT_TOKENS) ∧
  (∀ a, a ∈ given_artifacts step artifacts →
     a ∈ artifacts ∧
     (as_id a ∈ ps_inputs step ∨ (as_step_key a = None ∧ as_title a = BRIEF_TITLE) ∨
      ∃ key, as_step_key a = Some key ∧
        (key ∈ ps_depends_on step ∨ (0 < ps_attempts step ∧ key = ps_key step)))).
Proof.
  destruct (inline_loop_spec (given_artifacts step artifacts) 0 []) as (H1 & H2 & H3);
    [done|unfold INLINE_TOTAL_TOKENS; lia|by intros a ?%elem_of_nil|].
  split; [exact H1|]. split.
  - intros id (a & -> & Ha)%list_elem_of_fmap. exists a.
    destruct (H3 a Ha) as [?%elem_of_nil|?]; [done|]. split; [done|]. split; [done|by apply H2].
  - intros a [Ha Hg]%elem_of_filter_bool. split; [done|]. unfold is_given in Hg.
    rewrite !orb_true_iff, andb_true_iff, negb_true_iff, !bool_decide_eq_true, bool_decide_eq_false in Hg.
    destruct Hg as [[?|[Hn ?]]|Hk]; [by left|right; left|right; right].
    + split; [|done]. destruct (as_step_key a); [|done]. destruct Hn. by eexists.
    + destruct (as_step_key a) as [key|]; [|done]. exists key. split; [done|].
      rewrite orb_true_iff, andb_true_iff, !bool_decide_eq_true, N.ltb_lt in Hk. tauto.
Qed.

(** No step of a long task can act on the world. Whatever role a step has, a helper started
    under a task's authority is granted only tools of the ceiling's read-only groups and the
    task's own ledger, or one of the house's read-only tools; and an agent a plan makes has
    only groups the lane reaches, whatever it asked for. *)
Theorem lane_helpers_only_read uuid sid scope role request spec tool :
  delegate uuid (long_task_authority sid scope) role request = Ok spec →
  grants_tool spec tool = true →
  (tool ∈ HOUSEHOLD_READ_TOOLS ∨ ∃ g, group_of_tool tool = Some g ∧ g ∈ LONG_TASK_ROOT_GROUPS) ∧
  (∀ step agent worker, role_for_agent step agent worker = Ok role →
     ∀ g, g ∈ role_tool_groups role →
       lane_reaches_group g = true ∧ (g ∈ sa_tools agent ∨ g = TASK_WORK_EXTENSION)).
Proof.
  intros H Hg. split.
  - apply delegate_ok in H as (_ & _ & _ & _ & Hgr & Hrd & Hw & _).
    unfold grants_tool in Hg. rewrite Hw, bool_decide_eq_false_2 in Hg by apply not_elem_of_empty.
    destruct (group_of_tool tool) as [g|] eqn:E; [|done].
    apply orb_prop in Hg as [Hin%bool_decide_eq_true|Hin%bool_decide_eq_true].
    + right. exists g. split; [done|]. rewrite Hgr in Hin.
      apply narrow_groups_spec in Hin as (_ & Hin & _).
      unfold long_task_authority in Hin. cbn [with_read_tools authority_root da_tool_groups] in Hin.
      by apply elem_of_list_to_set in Hin.
    + left. rewrite Hrd in Hin. apply narrow_read_spec in Hin as [Hin _].
      unfold long_task_authority, with_read_tools in Hin. cbn [da_read_tools] in Hin.
      by apply elem_of_list_to_set, elem_of_filter_bool in Hin as [? _].
  - intros step agent worker Hr g Hgi. unfold role_for_agent, AgentRole_new in Hr.
    destruct (is_empty _); [done|]. destruct (is_empty _); [done|]. destruct (_ || _); [done|].
    destruct (negb _); [done|]. injection Hr as <-. cbn [role_tool_groups] in Hgi.
    apply elem_of_list_to_set, elem_of_app in Hgi as [[Hi Hl]%elem_of_filter_bool| ->%elem_of_one].
    + split; [exact Hl|by left].
    + split; [vm_compute; reflexivity|by right].
Qed.

Definition lane_spec : TaskSpec :=
  match delegate (lit "u1") (long_task_authority (lit "s1") Household)
          {| role_name := lit "scout"; role_instructions := lit "Look";
             role_tool_groups := {[ lit "giap-knowledge"; lit "giap-device-control"; lit "giap-vision" ]};
             role_personal_data := Inherit; role_max_turns := 6; role_context_fraction := Finite (QArith_base.Qmake 1 1);
             role_model := None; role_activations := default_activations; role_hooks := RoleHooks_default |} scout_request with
  | Ok s => s
  | Err _ => scout_spec
  end.

Lemma lane_helpers_only_read_witness :
  grants_tool lane_spec (lit "giap-device-control__turn_on") = false ∧
  (lit "giap-knowledge__search_web" ∈ HOUSEHOLD_READ_TOOLS ∨
   ∃ g, group_of_tool (lit "giap-knowledge__search_web") = Some g ∧ g ∈ LONG_TASK_ROOT_GROUPS).
Proof.
  split; [vm_compute; reflexivity|].
  apply (lane_helpers_only_read (lit "u1") (lit "s1") Household
    {| role_name := lit "scout"; role_instructions := lit "Look";
       role_tool_groups := {[ lit "giap-knowledge"; lit "giap-device-control"; lit "giap-vision" ]};
       role_personal_data := Inherit; role_max_turns := 6; role_context_fraction := Finite (QArith_base.Qmake 1 1);
       role_model := None; role_activations := default_activations; role_hooks := RoleHooks_default |} scout_request lane_spec).
  - vm_compute. reflexivity.
  - vm_compute. reflexivity.
Defined.
