(* ===== verification/Conversation.v ===== *)
(** * Conversation: the sessions of the pond and their messages

    crates/pond-infra/src/sqlite_session_storage.rs over its tables (pond-infra/migrations/system):
    a session's title with who wrote it, its rolling summary, the cursor of memory extraction, and
    its messages. [datetime('now')] is a parameter, in seconds ([Z]); a statement that the database
    refuses is [StorageError], its words left out. Attachments, reasoning, tool calls, token
    counts, feedback, profiles and the engine's pairing are not modelled. *)
From S2P Require Import Prelude Text Runner.
From Stdlib Require Import NArith ZArith Lia.
Open Scope N_scope.

Inductive SessionStorageError : Type :=
| SessionNotFound (id : text) | MessageNotFound (id : text) | StorageError (words : text).
Notation answer A := (result A SessionStorageError).

Record SessionRow := {
  sr_title : option text; sr_title_source : option text; sr_title_through : option text;
  sr_summary : option text; sr_summary_through : option text; sr_summary_at : option Z;
  sr_extracted_through : option text; sr_extracted_at : option Z; sr_attempts : Z; sr_updated_at : Z }.

Record MessageRow := {
  mr_rowid : N; mr_id : text; mr_session : text; mr_role : Role; mr_content : text; mr_created_at : Z }.

#[export] Instance role_eq_dec : EqDecision Role.
Proof. solve_decision. Defined.

(** The table of messages is kept in the order of its rowids. *)
Record Conversations := { cv_sessions : gmap text SessionRow; cv_messages : list MessageRow }.

Record SessionMessage := { sm_id : text; sm_role : Role; sm_content : text; sm_created_at : Z }.
Definition message_of (r : MessageRow) : SessionMessage :=
  {| sm_id := mr_id r; sm_role := mr_role r; sm_content := mr_content r; sm_created_at := mr_created_at r |}.

(** ** Sessions *)

Definition fresh_session (now : Z) : SessionRow :=
  {| sr_title := None; sr_title_source := None; sr_title_through := None; sr_summary := None;
     sr_summary_through := None; sr_summary_at := None; sr_extracted_through := None; sr_extracted_at := None;
     sr_attempts := 0; sr_updated_at := now |}.

Definition get_session (id : text) (cv : Conversations) : answer SessionRow :=
  match cv_sessions cv !! id with Some r => Ok r | None => Err (SessionNotFound id) end.

(** [UPDATE sessions SET ... WHERE id = ?]: nothing happens to a session that is not there. *)
Definition update_session (f : SessionRow → SessionRow) (id : text) (cv : Conversations) : Conversations :=
  {| cv_sessions := alter f id (cv_sessions cv); cv_messages := cv_messages cv |}.

Definition create_session (now : Z) (id : text) (cv : Conversations) : answer SessionRow * Conversations :=
  match cv_sessions cv !! id with
  | Some _ => (Err (StorageError []), cv)
  | None =>
      let cv := {| cv_sessions := <[id := fresh_session now]> (cv_sessions cv); cv_messages := cv_messages cv |} in
      (get_session id cv, cv)
  end.

(** Its messages go with it ([ON DELETE CASCADE]). *)
Definition delete_session (id : text) (cv : Conversations) : answer unit * Conversations :=
  (Ok tt, {| cv_sessions := delete id (cv_sessions cv);
             cv_messages := List.filter (λ r, negb (bool_decide (mr_session r = id))) (cv_messages cv) |}).

Definition touched (now : Z) (r : SessionRow) : SessionRow :=
  {| sr_title := sr_title r; sr_title_source := sr_title_source r; sr_title_through := sr_title_through r;
     sr_summary := sr_summary r; sr_summary_through := sr_summary_through r; sr_summary_at := sr_summary_at r;
     sr_extracted_through := sr_extracted_through r; sr_extracted_at := sr_extracted_at r;
     sr_attempts := sr_attempts r; sr_updated_at := now |}.

Definition titled (title source : text) (through : option text) (r : SessionRow) : SessionRow :=
  {| sr_title := Some title; sr_title_source := Some source; sr_title_through := through;
     sr_summary := sr_summary r; sr_summary_through := sr_summary_through r; sr_summary_at := sr_summary_at r;
     sr_extracted_through := sr_extracted_through r; sr_extracted_at := sr_extracted_at r;
     sr_attempts := sr_attempts r; sr_updated_at := sr_updated_at r |}.

Definition summarised (now : Z) (summary through : text) (r : SessionRow) : SessionRow :=
  {| sr_title := sr_title r; sr_title_source := sr_title_source r; sr_title_through := sr_title_through r;
     sr_summary := Some summary; sr_summary_through := Some through; sr_summary_at := Some now;
     sr_extracted_through := sr_extracted_through r; sr_extracted_at := sr_extracted_at r;
     sr_attempts := sr_attempts r; sr_updated_at := sr_updated_at r |}.

Definition extracted (through : option text) (at_ : option Z) (attempts : Z) (r : SessionRow) : SessionRow :=
  {| sr_title := sr_title r; sr_title_source := sr_title_source r; sr_title_through := sr_title_through r;
     sr_summary := sr_summary r; sr_summary_through := sr_summary_through r; sr_summary_at := sr_summary_at r;
     sr_extracted_through := through; sr_extracted_at := at_; sr_attempts := attempts;
     sr_updated_at := sr_updated_at r |}.

(** An [UPDATE] behind the guard that the session exists. *)
Definition guarded_update (f : SessionRow → SessionRow) (id : text) (cv : Conversations) : answer unit * Conversations :=
  match get_session id cv with Err e => (Err e, cv) | Ok _ => (Ok tt, update_session f id cv) end.

Definition update_title (now : Z) (id title : text) : Conversations → answer unit * Conversations :=
  guarded_update (λ r, touched now (titled title (lit "user") None r)) id.
Definition set_derived_title (id title : text) : Conversations → answer unit * Conversations :=
  guarded_update (titled title (lit "derived") None) id.
Definition set_generated_title (id title through : text) : Conversations → answer unit * Conversations :=
  guarded_update (titled title (lit "model") (Some through)) id.

Definition get_title_provenance (id : text) (cv : Conversations) : option text * option text :=
  match cv_sessions cv !! id with Some r => (sr_title_source r, sr_title_through r) | None => (None, None) end.

Definition get_rolling_summary (id : text) (cv : Conversations) : option text * option text :=
  match cv_sessions cv !! id with Some r => (sr_summary r, sr_summary_through r) | None => (None, None) end.
Definition set_rolling_summary (now : Z) (id summary through : text) (cv : Conversations) : answer unit * Conversations :=
  (Ok tt, update_session (summarised now summary through) id cv).

(** The cursor of memory extraction; the count is kept in 64 bits and read as 32. *)
Record ExtractionCursor := { ec_through : option text; ec_at : option Z; ec_attempts : N }.
Definition attempts_u32 (n : Z) : N := Z.to_N (Z.max n 0) mod (u32_max + 1).
Definition extraction_cursor (id : text) (cv : Conversations) : ExtractionCursor :=
  match cv_sessions cv !! id with
  | Some r => {| ec_through := sr_extracted_through r; ec_at := sr_extracted_at r; ec_attempts := attempts_u32 (sr_attempts r) |}
  | None => {| ec_through := None; ec_at := None; ec_attempts := 0 |}
  end.
Definition set_extraction_cursor (now : Z) (id : text) (through : option text) (cv : Conversations) : answer unit * Conversations :=
  (Ok tt, update_session (extracted through (match through with Some _ => Some now | None => None end) 0) id cv).
Definition note_extraction_attempt (id : text) (cv : Conversations) : answer N * Conversations :=
  let cv := update_session (λ r, extracted (sr_extracted_through r) (sr_extracted_at r) (sr_attempts r + 1) r) id cv in
  (Ok (attempts_u32 (default 0%Z (sr_attempts <$> cv_sessions cv !! id))), cv).

(** ** Messages *)

Definition of_session (id : text) (r : MessageRow) : bool := bool_decide (mr_session r = id).
Definition is_message (session id : text) (r : MessageRow) : bool := bool_decide (mr_id r = id) && of_session session r.

(** [ORDER BY created_at ASC, rowid ASC]. *)
Definition row_le (a b : MessageRow) : bool :=
  (mr_created_at a <? mr_created_at b)%Z || ((mr_created_at a =? mr_created_at b)%Z && (mr_rowid a <=? mr_rowid b)).
Definition ordered_rows (id : text) (cv : Conversations) : list MessageRow :=
  sort_with row_le (List.filter (of_session id) (cv_messages cv)).

(** The history of a session, as it is read. *)
Definition history (id : text) (cv : Conversations) : list SessionMessage := message_of <$> ordered_rows id cv.
Definition get_messages (id : text) (cv : Conversations) : answer (list SessionMessage) :=
  let? _ := get_session id cv in Ok (history id cv).
Definition get_messages_paginated (id : text) (limit offset : nat) (cv : Conversations) : answer (list SessionMessage) :=
  let? _ := get_session id cv in Ok (take limit (drop offset (history id cv))).
Definition count_messages (id : text) (cv : Conversations) : N :=
  N.of_nat (length (List.filter (of_session id) (cv_messages cv))).
Definition first_user_message (id : text) (cv : Conversations) : option text :=
  mr_content <$> find_first (λ r, bool_decide (mr_role r = RoleUser)) (ordered_rows id cv).

Definition next_rowid (rows : list MessageRow) : N := foldr N.max 0 (mr_rowid <$> rows) + 1.

Definition add_message (now : Z) (id : text) (m : SessionMessage) (cv : Conversations) : answer unit * Conversations :=
  match get_session id cv with
  | Err e => (Err e, cv)
  | Ok _ =>
      if existsb (λ r, bool_decide (mr_id r = sm_id m)) (cv_messages cv) then (Err (StorageError []), cv) else
      let row := {| mr_rowid := next_rowid (cv_messages cv); mr_id := sm_id m; mr_session := id; mr_role := sm_role m;
                    mr_content := sm_content m; mr_created_at := now |} in
      (Ok tt, update_session (touched now) id {| cv_sessions := cv_sessions cv; cv_messages := cv_messages cv ++ [row] |})
  end.

(** [created_at > ? OR (created_at = ? AND rowid > ?)]. *)
Definition row_after (anchor r : MessageRow) : bool :=
  (mr_created_at anchor <? mr_created_at r)%Z ||
  ((mr_created_at r =? mr_created_at anchor)%Z && (mr_rowid anchor <? mr_rowid r)).

Definition messages_after (session id : text) (cv : Conversations) : option N :=
  anchor ← find_first (is_message session id) (cv_messages cv);
  Some (N.of_nat (length (List.filter (λ r, of_session session r && row_after anchor r) (cv_messages cv)))).

(** The method a store without its own gets. *)
Definition default_messages_after (session id : text) (cv : Conversations) : answer (option N) :=
  let? messages := get_messages session cv in
  Ok ((λ i, N.of_nat (length messages - i - 1)) <$> position (λ m, bool_decide (sm_id m = id)) messages).

Definition delete_messages_from (now : Z) (session id : text) (cv : Conversations) : answer unit * Conversations :=
  match find_first (is_message session id) (cv_messages cv) with
  | None => (Err (MessageNotFound id), cv)
  | Some anchor =>
      let kept := List.filter (λ r, negb (of_session session r && (mr_rowid anchor <=? mr_rowid r))) (cv_messages cv) in
      (Ok tt, update_session (touched now) session {| cv_sessions := cv_sessions cv; cv_messages := kept |})
  end.

(** ** Everything that may happen to the store *)

Inductive store_step : Conversations → Conversations → Prop :=
| ss_create now id cv : store_step cv (create_session now id cv).2
| ss_delete id cv : store_step cv (delete_session id cv).2
| ss_update f id cv : store_step cv (update_session f id cv)
| ss_add now id m cv : store_step cv (add_message now id m cv).2
| ss_cut now session id cv : store_step cv (delete_messages_from now session id cv).2.

Definition no_conversations : Conversations := {| cv_sessions := ∅; cv_messages := [] |}.

(** The keys of the messages' table. *)
Record table_ok (cv : Conversations) : Prop := {
  tk_ids : NoDup (mr_id <$> cv_messages cv);
  tk_rowids : StronglySorted N.lt (mr_rowid <$> cv_messages cv);
  tk_sessions : ∀ r, r ∈ cv_messages cv → is_Some (cv_sessions cv !! mr_session r) }.

(** ** Lemmas *)

Lemma next_rowid_above rows r : r ∈ rows → mr_rowid r < next_rowid rows.
Proof.
  unfold next_rowid. induction rows as [|x rows IH]; intros Hr; [by apply not_elem_of_nil in Hr|].
  rewrite fmap_cons. cbn [foldr]. apply elem_of_cons in Hr as [->|Hr]; [lia|]. specialize (IH Hr). lia.
Qed.

Lemma table_ok_kept (p : MessageRow → bool) sessions cv : table_ok cv →
  (∀ r, r ∈ cv_messages cv → p r = true → is_Some (sessions !! mr_session r)) →
  table_ok {| cv_sessions := sessions; cv_messages := List.filter p (cv_messages cv) |}.
Proof.
  intros [H1 H2 H3] Hs. split; simpl.
  - by apply NoDup_fmap_filter.
  - clear H1 H3 Hs. induction (cv_messages cv) as [|r l IH]; simpl; [done|].
    inversion H2 as [|? ? Hl Hr]; subst. destruct (p r); [|by apply IH]. simpl. constructor; [by apply IH|].
    apply Forall_forall. intros n (x & -> & [Hx _]%elem_of_filter_bool)%list_elem_of_fmap.
    rewrite Forall_forall in Hr. apply Hr. by apply list_elem_of_fmap_2.
  - intros r [Hr Hp]%elem_of_filter_bool. by apply Hs.
Qed.

Lemma table_ok_update f id cv : table_ok cv → table_ok (update_session f id cv).
Proof.
  intros [H1 H2 H3]. split; simpl; [done|done|]. intros r Hr. specialize (H3 r Hr) as [v Hv].
  destruct (decide (mr_session r = id)) as [<-|Hne];
    [rewrite lookup_alter_eq, Hv; by eexists|rewrite lookup_alter_ne by done; by eexists].
Qed.

Lemma StronglySorted_snoc {A} (R : A → A → Prop) l x :
  StronglySorted R l → Forall (λ a, R a x) l → StronglySorted R (l ++ [x]).
Proof.
  induction 1 as [|a l Hl IH Ha]; intros Hx; simpl; [by repeat constructor|].
  apply Forall_cons in Hx as [Hax Hx]. constructor; [by apply IH|]. apply Forall_app. split; [done|by constructor].
Qed.

Lemma add_message_added now id m cv :
  (add_message now id m cv).1 = Ok tt →
  ∃ row, (add_message now id m cv).2 = update_session (touched now) id
           {| cv_sessions := cv_sessions cv; cv_messages := cv_messages cv ++ [row] |} ∧
    mr_rowid row = next_rowid (cv_messages cv) ∧ mr_session row = id ∧ mr_created_at row = now ∧
    is_Some (cv_sessions cv !! id) ∧ mr_id row ∉ mr_id <$> cv_messages cv.
Proof.
  unfold add_message, get_session. destruct (cv_sessions cv !! id) as [s|] eqn:E; [|done].
  destruct (existsb _ _) eqn:Ex; [done|]. intros _. eexists. split; [done|]. do 3 (split; [done|]).
  split; [by eexists|]. intros (r & Hr & Hin)%list_elem_of_fmap. simpl in Hr.
  apply not_true_iff_false in Ex. apply Ex. apply existsb_elem_of. exists r. split; [done|]. by rewrite bool_decide_true.
Qed.

Lemma store_step_ok cv cv' : table_ok cv → store_step cv cv' → table_ok cv'.
Proof.
  intros H. destruct 1 as [now id cv|id cv|f id cv|now id m cv|now session id cv].
  - unfold create_session. destruct (cv_sessions cv !! id) eqn:E; simpl; [done|]. destruct H as [H1 H2 H3].
    split; simpl; [done|done|]. intros r Hr. destruct (decide (mr_session r = id)) as [->|Hne].
    + by rewrite lookup_insert_eq.
    + rewrite lookup_insert_ne by done. by apply H3.
  - apply table_ok_kept; [done|]. intros r Hr Hp. apply negb_true_iff, bool_decide_eq_false in Hp.
    rewrite lookup_delete_ne by done. by apply (tk_sessions _ H).
  - by apply table_ok_update.
  - destruct (add_message now id m cv).1 as [[]|e] eqn:E.
    + apply add_message_added in E as (row & -> & Hr & Hs & _ & Hex & Hid). apply table_ok_update.
      destruct H as [H1 H2 H3]. split; simpl.
      * rewrite fmap_app. apply NoDup_app. split; [done|]. split; [|apply NoDup_singleton].
        intros x Hx Hi. apply elem_of_one in Hi as ->. done.
      * rewrite fmap_app. apply StronglySorted_snoc; [done|]. apply Forall_forall.
        intros n (r & -> & Hin)%list_elem_of_fmap. rewrite Hr. by apply next_rowid_above.
      * intros r [Hin|Hin]%elem_of_app; [by apply H3|]. apply elem_of_one in Hin as ->. by rewrite Hs.
    + revert E. unfold add_message. destruct (get_session id cv); [|done]. destruct (existsb _ _); done.
  - unfold delete_messages_from. destruct (find_first _ _); [|done]. simpl. apply table_ok_update.
    apply table_ok_kept; [done|]. intros r Hr _. by apply (tk_sessions _ H).
Qed.

Lemma reachable_table_ok cv : star store_step no_conversations cv → table_ok cv.
Proof.
  intros H. apply (star_invariant store_step table_ok) with no_conversations; [intros; by eapply store_step_ok|done|].
  split; simpl; [constructor|constructor|by intros r []%not_elem_of_nil].
Qed.

Lemma row_le_total a b : row_le a b = true ∨ row_le b a = true.
Proof. unfold row_le. rewrite !orb_true_iff, !andb_true_iff, !Z.ltb_lt, !Z.eqb_eq, !N.leb_le. lia. Qed.

Lemma row_le_trans a b c : row_le a b = true → row_le b c = true → row_le a c = true.
Proof. unfold row_le. rewrite !orb_true_iff, !andb_true_iff, !Z.ltb_lt, !Z.eqb_eq, !N.leb_le. lia. Qed.

Lemma row_after_le a b : mr_rowid a ≠ mr_rowid b → row_after a b = row_le a b.
Proof.
  intros Hne. unfold row_after, row_le. rewrite Z.eqb_sym.
  destruct (N.ltb_spec (mr_rowid a) (mr_rowid b)), (N.leb_spec (mr_rowid a) (mr_rowid b)); try done; lia.
Qed.

Lemma row_after_not_le a b : row_after a b = negb (row_le b a).
Proof.
  unfold row_after, row_le.
  destruct (Z.ltb_spec (mr_created_at a) (mr_created_at b)), (Z.eqb_spec (mr_created_at b) (mr_created_at a)),
    (Z.ltb_spec (mr_created_at b) (mr_created_at a)), (N.ltb_spec (mr_rowid a) (mr_rowid b)),
    (N.leb_spec (mr_rowid b) (mr_rowid a)); simpl; try done; lia.
Qed.

(** What comes after an entry of a list in order, where no two compare equal. *)
Lemma sorted_after l i a :
  StronglySorted row_le l → NoDup (mr_rowid <$> l) → l !! i = Some a →
  length (List.filter (row_after a) l) = (length l - i - 1)%nat.
Proof.
  intros Hs. revert i. induction Hs as [|x l Hl IH Hx]; intros i Hnd Ha; [done|].
  apply NoDup_cons in Hnd as [Hxl Hnd]. destruct i as [|i].
  - injection Ha as ->. simpl. rewrite row_after_not_le.
    assert (row_le a a = true) as -> by (destruct (row_le_total a a); done). simpl.
    rewrite filter_true; [lia|]. intros b Hb. rewrite row_after_le.
    + rewrite Forall_forall in Hx. specialize (Hx b Hb). by apply Is_true_true in Hx.
    + intros E. apply Hxl. rewrite E. by apply list_elem_of_fmap_2.
  - simpl in Ha. simpl. rewrite row_after_not_le. rewrite Forall_forall in Hx.
    specialize (Hx a (list_elem_of_lookup_2 _ _ _ Ha)). apply Is_true_true in Hx. rewrite Hx. simpl.
    rewrite (IH i Hnd Ha). lia.
Qed.

Lemma sort_with_snoc {A} (le : A → A → bool) l x :
  (∀ a, a ∈ l → le a x = true) → sort_with le (l ++ [x]) = sort_with le l ++ [x].
Proof.
  intros H. induction l as [|a l IH]; [done|]. change (sort_with le ((a :: l) ++ [x])) with (insert_with le a (sort_with le (l ++ [x]))).
  rewrite IH by (intros b Hb; apply H; by right). change (sort_with le (a :: l)) with (insert_with le a (sort_with le l)).
  specialize (H a ltac:(left)). generalize (sort_with le l). intros m.
  induction m as [|b m IHm]; simpl; [by rewrite H|]. destruct (le a b); [done|]. by rewrite IHm.
Qed.

Lemma ordered_rows_perm id cv : ordered_rows id cv ≡ₚ List.filter (of_session id) (cv_messages cv).
Proof. apply sort_with_perm. Qed.

Lemma ordered_rows_sorted id cv : StronglySorted row_le (ordered_rows id cv).
Proof. apply sort_with_sorted; [apply row_le_total|apply row_le_trans]. Qed.

Lemma elem_of_ordered_rows id cv r : r ∈ ordered_rows id cv ↔ r ∈ cv_messages cv ∧ mr_session r = id.
Proof.
  rewrite ordered_rows_perm, elem_of_filter_bool. unfold of_session. by rewrite bool_decide_eq_true.
Qed.

Lemma StronglySorted_NoDup l : StronglySorted N.lt l → NoDup l.
Proof.
  induction 1 as [|n l Hl IH Hn]; constructor; [|done]. intros Hin. rewrite Forall_forall in Hn. specialize (Hn n Hin). lia.
Qed.

Lemma ordered_rows_NoDup id cv : table_ok cv → NoDup (mr_rowid <$> ordered_rows id cv) ∧ NoDup (mr_id <$> ordered_rows id cv).
Proof.
  intros [H1 H2 _]. apply StronglySorted_NoDup in H2. rewrite (ordered_rows_perm id cv).
  split; by apply NoDup_fmap_filter.
Qed.

(** A message added at a clock that has not run back goes to the end of the history. *)
Lemma ordered_rows_add now id m cv :
  (∀ r, r ∈ ordered_rows id cv → (mr_created_at r ≤ now)%Z) →
  ∃ rows, ordered_rows id (add_message now id m cv).2 = ordered_rows id cv ++ rows.
Proof.
  intros Hle. destruct (add_message now id m cv).1 as [[]|e] eqn:E.
  - apply add_message_added in E as (row & -> & Hr & Hs & Hn & _). exists [row].
    unfold ordered_rows in *. simpl. rewrite List.filter_app. simpl.
    assert (of_session id row = true) as -> by (by apply bool_decide_eq_true).
    apply sort_with_snoc. intros r Hin. apply elem_of_filter_bool in Hin as Hin'. destruct Hin' as [Hin' _].
    apply next_rowid_above in Hin'. specialize (Hle r ltac:(by apply elem_of_sort_with)). unfold row_le.
    rewrite Hn, Hr, orb_true_iff, andb_true_iff, Z.ltb_lt, Z.eqb_eq, N.leb_le. lia.
  - exists []. revert E. unfold add_message. destruct (get_session id cv); [|by rewrite app_nil_r].
    destruct (existsb _ _); [|done]. by rewrite app_nil_r.
Qed.

(** What is written to one session leaves the history of the others. *)
Lemma ordered_rows_add_other now id session m cv : session ≠ id →
  ordered_rows id (add_message now session m cv).2 = ordered_rows id cv.
Proof.
  intros Hne. destruct (add_message now session m cv).1 as [[]|e] eqn:E.
  - apply add_message_added in E as (row & -> & _ & Hs & _). unfold ordered_rows. simpl. rewrite List.filter_app. simpl.
    unfold of_session at 2. rewrite bool_decide_false by congruence. by rewrite app_nil_r.
  - revert E. unfold add_message. destruct (get_session session cv); [|done]. by destruct (existsb _ _).
Qed.

Lemma ordered_rows_kept id p sessions cv : (∀ r, mr_session r = id → p r = true) →
  ordered_rows id {| cv_sessions := sessions; cv_messages := List.filter p (cv_messages cv) |} = ordered_rows id cv.
Proof.
  intros Hp. unfold ordered_rows. simpl. f_equal. rewrite filter_andb. apply filter_ext_elem.
  intros r _. unfold of_session. case_bool_decide as E; [by rewrite Hp|by rewrite andb_false_r].
Qed.

(** ** A conversation that goes on

    What else happens to the store while the conversation [id] only goes on: messages are added to
    it, at a clock that does not run back behind those it has; its row is written, but for what [g]
    sees of it; other sessions are written, cut and deleted. *)
Section going_on.
Context {X : Type} (g : SessionRow → X) (d : X) (id : text).

Inductive goes_on : Conversations → Conversations → Prop :=
| go_add now session m cv :
    (session = id → ∀ r, r ∈ ordered_rows id cv → (mr_created_at r ≤ now)%Z) →
    goes_on cv (add_message now session m cv).2
| go_create now session cv : goes_on cv (create_session now session cv).2
| go_update f session cv : (session = id → ∀ r, g (f r) = g r) → goes_on cv (update_session f session cv)
| go_delete session cv : session ≠ id → goes_on cv (delete_session session cv).2
| go_cut now session m cv : session ≠ id → goes_on cv (delete_messages_from now session m cv).2.

(** What [g] sees of the session, [d] of one that is not there. *)
Definition seen_as (cv : Conversations) : X := match cv_sessions cv !! id with Some r => g r | None => d end.

Context (g_touched : ∀ now r, g (touched now r) = g r) (g_fresh : ∀ now, g (fresh_session now) = d).

Lemma goes_on_spec cv cv' : goes_on cv cv' → table_ok cv →
  table_ok cv' ∧ (∃ new, history id cv' = history id cv ++ new) ∧ seen_as cv' = seen_as cv.
Proof.
  unfold history, seen_as. intros Hst Hok.
  assert (∀ l : list SessionMessage, ∃ new, l = l ++ new) as Hnil by (intros l; exists []; by rewrite app_nil_r).
  destruct Hst as [now session m cv Hle|now session cv|f session cv Hf|session cv Hne|now session m cv Hne]; simpl.
  - split; [eapply store_step_ok; [done|apply ss_add]|]. split.
    + destruct (decide (session = id)) as [->|Hne]; [|rewrite ordered_rows_add_other by done; apply Hnil].
      destruct (ordered_rows_add now id m cv) as (rows & ->); [by apply Hle|]. rewrite fmap_app. by eexists.
    + unfold add_message. destruct (get_session session cv); [|done]. destruct (existsb _ _); [done|]. simpl.
      destruct (decide (session = id)) as [->|Hne]; [rewrite lookup_alter_eq|by rewrite lookup_alter_ne].
      by destruct (cv_sessions cv !! id); simpl.
  - split; [eapply store_step_ok; [done|apply ss_create]|]. unfold create_session.
    destruct (cv_sessions cv !! session) eqn:E; simpl; (split; [apply Hnil|]); [done|].
    destruct (decide (session = id)) as [->|Hne]; [by rewrite lookup_insert_eq, E|by rewrite lookup_insert_ne].
  - split; [by apply table_ok_update|]. split; [apply Hnil|].
    destruct (decide (session = id)) as [->|Hne]; [rewrite lookup_alter_eq|by rewrite lookup_alter_ne].
    destruct (cv_sessions cv !! id) as [r|]; simpl; [|done]. by apply Hf.
  - split; [eapply store_step_ok; [done|apply ss_delete]|]. split.
    + unfold delete_session. simpl. rewrite ordered_rows_kept; [apply Hnil|]. intros r Hr.
      apply negb_true_iff, bool_decide_eq_false. congruence.
    + by rewrite lookup_delete_ne.
  - split; [eapply store_step_ok; [done|apply ss_cut]|]. unfold delete_messages_from.
    destruct (find_first _ _) as [a|]; simpl; (split; [|by rewrite ?lookup_alter_ne]); [|apply Hnil].
    rewrite <-(ordered_rows_kept id (λ r, negb (of_session session r && (mr_rowid a <=? mr_rowid r)))
                 (cv_sessions cv) cv); [apply Hnil|].
    intros r Hr. unfold of_session. by rewrite bool_decide_false by congruence.
Qed.
End going_on.

Lemma history_NoDup id cv : table_ok cv → NoDup (sm_id <$> history id cv).
Proof.
  intros H. unfold history. rewrite <-list_fmap_compose. by apply (ordered_rows_NoDup id cv).
Qed.

(** A session with a message is there. *)
Lemma history_session id cv : table_ok cv → history id cv ≠ [] → is_Some (cv_sessions cv !! id).
Proof.
  intros Hok Hne. destruct (history id cv) as [|m l] eqn:E; [done|].
  assert (m ∈ history id cv) as (r & _ & Hr)%list_elem_of_fmap by (rewrite E; left).
  apply elem_of_ordered_rows in Hr as [Hr Hrs]. rewrite <-Hrs. by apply (tk_sessions _ Hok).
Qed.

(** A pointer at the last of the first [k] messages is found where it points. *)
Lemma position_of_last ms k : NoDup (sm_id <$> ms) → (k < length ms)%nat →
  ∃ m, last (take (S k) ms) = Some m ∧ position (λ x, bool_decide (sm_id x = sm_id m)) ms = Some k.
Proof.
  intros Hnd Hk. destruct (lookup_lt_is_Some_2 ms k Hk) as [m Hm]. exists m.
  split; [rewrite (take_S_r _ _ m) by done; apply last_snoc|].
  apply position_Some. split; [exists m; split; [done|by rewrite bool_decide_true]|].
  intros j m' Hj Hm'. apply bool_decide_eq_false. intros E. assert (j = k); [|lia].
  eapply (NoDup_lookup (sm_id <$> ms)); [done| |]; rewrite list_lookup_fmap; [rewrite Hm'|rewrite Hm]; simpl; by rewrite ?E.
Qed.

(** The count made in the database, over the history it shows. *)
Lemma messages_after_history cv session id : table_ok cv →
  messages_after session id cv =
    (λ i, N.of_nat (length (history session cv) - i - 1)) <$>
      position (λ m, bool_decide (sm_id m = id)) (history session cv).
Proof.
  intros Hcv. unfold history. rewrite position_fmap. unfold messages_after. simpl.
  assert (∀ a, a ∈ cv_messages cv → mr_session a = session → mr_id a = id →
    find_first (is_message session id) (cv_messages cv) = Some a) as Hfind.
  { intros a Ha Hs Hi. destruct (find_first _ _) as [b|] eqn:E.
    - apply find_some_iff in E. destruct E as [Hb Hm]. f_equal. unfold is_message in Hm.
      apply andb_prop in Hm as [Hm _]. apply bool_decide_eq_true in Hm.
      apply (NoDup_fmap_inj_elem mr_id (cv_messages cv)); [apply (tk_ids _ Hcv)|done|done|congruence].
    - apply find_first_None with (a := a) in E; [|done]. unfold is_message, of_session in E.
      by rewrite !bool_decide_true in E. }
  destruct (position _ (ordered_rows session cv)) as [i|] eqn:E; simpl.
  - apply position_Some in E as [(a & Ha & Hid) _]. apply bool_decide_eq_true in Hid. simpl in Hid.
    assert (a ∈ ordered_rows session cv) as [Hin Hs]%elem_of_ordered_rows by (by eapply list_elem_of_lookup_2).
    rewrite (Hfind a Hin Hs Hid). simpl. f_equal. f_equal. rewrite length_fmap.
    destruct (ordered_rows_NoDup session cv Hcv) as [Hnd _].
    rewrite <-(sorted_after _ i a (ordered_rows_sorted session cv) Hnd Ha).
    rewrite (filter_bool_perm (row_after a) _ _ (ordered_rows_perm session cv)).
    f_equal. rewrite filter_andb. done.
  - destruct (find_first _ _) as [a|] eqn:Ef; [|done]. simpl. apply find_some_iff in Ef as [Ha Hm].
    unfold is_message, of_session in Hm. apply andb_prop in Hm as [Hi%bool_decide_eq_true Hs%bool_decide_eq_true].
    rewrite position_None in E. specialize (E a). simpl in E. rewrite bool_decide_true in E by done.
    discriminate E. by apply elem_of_ordered_rows.
Qed.

Lemma count_messages_history id cv : count_messages id cv = N.of_nat (length (history id cv)).
Proof. unfold count_messages, history. by rewrite length_fmap, (ordered_rows_perm id cv). Qed.

(** ** Properties *)

(** The count made in the database is the one the port's own method makes by walking the history. In
    every state the store can get to, [messages_after] of a session that exists answers how many
    messages the history shows after the one named, and [None] when the session has no such
    message: whatever order the clock gave them, and however many share a second. *)
Theorem messages_after_agrees cv session id :
  star store_step no_conversations cv → is_Some (cv_sessions cv !! session) →
  default_messages_after session id cv = Ok (messages_after session id cv).
Proof.
  intros Hcv [row Hrow]. apply reachable_table_ok in Hcv. rewrite messages_after_history by done.
  unfold default_messages_after, get_messages, get_session. by rewrite Hrow.
Qed.

(** A message added at a clock that ran back is shown first, and counted so. *)
Lemma messages_after_agrees_witness :
  let m n := {| sm_id := n; sm_role := RoleUser; sm_content := lit "hi"; sm_created_at := 0 |} in
  let cv := (add_message 50 (lit "s") (m (lit "b")) (add_message 90 (lit "s") (m (lit "a"))
               (create_session 80 (lit "s") no_conversations).2).2).2 in
  star store_step no_conversations cv ∧ is_Some (cv_sessions cv !! lit "s") ∧
  messages_after (lit "s") (lit "b") cv = Some 1 ∧
  default_messages_after (lit "s") (lit "b") cv = Ok (messages_after (lit "s") (lit "b") cv).
Proof.
  set (m := λ n, {| sm_id := n; sm_role := RoleUser; sm_content := lit "hi"; sm_created_at := 0 |}).
  set (cv := (add_message 50 (lit "s") (m (lit "b")) (add_message 90 (lit "s") (m (lit "a"))
               (create_session 80 (lit "s") no_conversations).2).2).2).
  assert (star store_step no_conversations cv) as Hs.
  { eapply star_step; [apply (ss_create 80 (lit "s"))|]. eapply star_step; [apply (ss_add 90 (lit "s") (m (lit "a")))|].
    eapply star_step; [apply (ss_add 50 (lit "s") (m (lit "b")))|]. apply star_refl. }
  assert (is_Some (cv_sessions cv !! lit "s")) as Hi by (apply (bool_decide_unpack _); vm_compute; exact I).
  split; [exact Hs|]. split; [exact Hi|]. split; [by vm_compute|].
  apply (messages_after_agrees cv (lit "s") (lit "b") Hs Hi).
Defined.
