(* ===== verification/Summary.v ===== *)
(** * Summary: the rolling summary of a session

    crates/pond-core/src/shared/services/session_summary.rs: [SessionSummaryService::refresh] as a
    program over the sessions' store ([Conversation]), the model and the token the next turn
    cancels, among everything else that writes to the store. Of [select!] a call answers [None]
    when the token wins. The loop of the server that asks for refreshes, one at a time behind the
    inference lane, is not modelled. *)
From S2P Require Import Prelude Prog Text Runner Conversation.
From Stdlib Require Import NArith ZArith Lia.
Open Scope N_scope.

Definition KEEP_RECENT_MESSAGES : nat := 6.
Definition MIN_UNSUMMARIZED_MESSAGES : nat := 4.

Inductive RefreshOutcome : Type := Refreshed (through_message_id : text) | NothingToDo | Cancelled.
Inductive RefreshError : Type :=
| ReadSummary (e : SessionStorageError) | ReadMessages (e : SessionStorageError) | ModelFailed (words : text)
| PersistSummary (e : SessionStorageError).

Definition role_label (r : Role) : text :=
  match r with
  | RoleUser => lit "User" | RoleAssistant => lit "Assistant" | RoleSystem => lit "System" | RoleTool => lit "Tool"
  end.

Inductive SummaryCall : Type → Type :=
| IsCancelled : SummaryCall bool
| GetRollingSummary (id : text) : SummaryCall (answer (option text * option text))
| GetMessages (id : text) : SummaryCall (answer (list SessionMessage))
| Complete (system prompt : text) : SummaryCall (option (result text text))
| SetRollingSummary (id summary through : text) : SummaryCall (answer unit).

(** The messages to fold: after the pointer, all of them when it points at none, and not the newest. *)
Definition fold_start (messages : list SessionMessage) (through : option text) : nat :=
  match through with
  | Some id => match position (λ m, bool_decide (sm_id m = id)) messages with Some i => S i | None => O end
  | None => O
  end.
Definition fold_end (messages : list SessionMessage) : nat := (length messages - KEEP_RECENT_MESSAGES)%nat.

Definition message_line (m : SessionMessage) : text :=
  role_label (sm_role m) ++ lit ": " ++ sm_content m ++ [10].
Definition summary_transcript (old : option text) (window : list SessionMessage) : text :=
  match old with
  | Some old => lit "Existing summary of even earlier turns:" ++ [10] ++ old ++ [10; 10] ++
                lit "Newer turns to fold in:" ++ [10]
  | None => []
  end ++ concat (message_line <$> window).

Definition SUMMARY_SYSTEM : text :=
  lit "You summarise conversations accurately and concisely for use as model context.".
Definition refresh_prompt (old : option text) (window : list SessionMessage) : text :=
  lit "Merge the existing summary (if any) and the newer turns below into ONE " ++
  lit "accurate summary of the conversation so far. Preserve important facts, " ++
  lit "names, decisions, and open questions. Write 3-5 sentences maximum, " ++
  lit "plain prose, no preamble." ++ [10; 10] ++ summary_transcript old window.

(** The window is never empty here, so it has a last message. *)
Definition new_through (window : list SessionMessage) : text := default [] (sm_id <$> last window).

Definition refresh (id : text) : Prog SummaryCall (result RefreshOutcome RefreshError) :=
  let! cancelled := IsCancelled in
  if (cancelled : bool) then Ret (Ok Cancelled) else
  let! read := GetRollingSummary id in
  match read with
  | Err e => Ret (Err (ReadSummary e))
  | Ok (old, through) =>
      let! read := GetMessages id in
      match read with
      | Err e => Ret (Err (ReadMessages e))
      | Ok messages =>
          let start := fold_start messages through in
          let end_ := fold_end messages in
          if (end_ <=? start)%nat || (end_ - start <? MIN_UNSUMMARIZED_MESSAGES)%nat then Ret (Ok NothingToDo) else
          let window := drop start (take end_ messages) in
          let! response := Complete SUMMARY_SYSTEM (refresh_prompt old window) in
          match response with
          | None => Ret (Ok Cancelled)
          | Some (Err words) => Ret (Err (ModelFailed words))
          | Some (Ok content) =>
              let! cancelled := IsCancelled in
              if (cancelled : bool) then Ret (Ok Cancelled) else
              let summary := trim content in
              if is_empty summary then Ret (Ok NothingToDo) else
              let! stored := SetRollingSummary id summary (new_through window) in
              match stored with
              | Err e => Ret (Err (PersistSummary e))
              | Ok _ => Ret (Ok (Refreshed (new_through window)))
              end
          end
      end
  end.

(** ** The world a refresh runs in *)

(** The store and its clock, what the model answers and whether the token is cancelled, which change
    as they please; an error the store would give now; and every answer of the model so far. *)
Record SumWorld := {
  sw_store : Conversations; sw_now : Z; sw_cancelled : bool; sw_answer : option (result text text);
  sw_down : option SessionStorageError; sw_said : list (text * text) }.

Definition with_store (cv : Conversations) (w : SumWorld) : SumWorld :=
  {| sw_store := cv; sw_now := sw_now w; sw_cancelled := sw_cancelled w; sw_answer := sw_answer w;
     sw_down := sw_down w; sw_said := sw_said w |}.
Definition saying (prompt words : text) (w : SumWorld) : SumWorld :=
  {| sw_store := sw_store w; sw_now := sw_now w; sw_cancelled := sw_cancelled w; sw_answer := sw_answer w;
     sw_down := sw_down w; sw_said := (prompt, words) :: sw_said w |}.

Definition summary_handler : Handler SummaryCall SumWorld := λ R c,
  match c in SummaryCall R return SumWorld → R * SumWorld with
  | IsCancelled => λ w, (sw_cancelled w, w)
  | GetRollingSummary id => λ w,
      (match sw_down w with Some e => Err e | None => Ok (get_rolling_summary id (sw_store w)) end, w)
  | GetMessages id => λ w,
      (match sw_down w with Some e => Err e | None => get_messages id (sw_store w) end, w)
  | Complete _ prompt => λ w,
      (sw_answer w, match sw_answer w with Some (Ok words) => saying prompt words w | _ => w end)
  | SetRollingSummary id summary through => λ w,
      match sw_down w with
      | Some e => (Err e, w)
      | None => let '(r, cv) := set_rolling_summary (sw_now w) id summary through (sw_store w) in (r, with_store cv w)
      end
  end.

(** What a session's row says of its summary. *)
Definition summary_fields (r : SessionRow) : option text * option text := (sr_summary r, sr_summary_through r).

(** What else happens: the conversation goes on, its messages only added to and at a clock not before the
    newest of them ([goes_on]), its summary left alone, and what is outside the store changes. *)
Inductive others_step (id : text) : SumWorld → SumWorld → Prop :=
| os_store cv w : goes_on summary_fields id (sw_store w) cv → others_step id w (with_store cv w)
| os_outside now cancelled ans down w :
    others_step id w {| sw_store := sw_store w; sw_now := now; sw_cancelled := cancelled; sw_answer := ans;
                        sw_down := down; sw_said := sw_said w |}.

(** ** The specification *)

(** A summary that is the messages folded in order, each once, by answers the model gave. *)
Inductive folded (said : list (text * text)) : list SessionMessage → option text → Prop :=
| folded_none : folded said [] None
| folded_more messages old window words :
    folded said messages old → (MIN_UNSUMMARIZED_MESSAGES ≤ length window)%nat →
    (refresh_prompt old window, words) ∈ said → trim words ≠ [] →
    folded said (messages ++ window) (Some (trim words)).

Definition summary_of (id : text) (w : SumWorld) : option text * option text := get_rolling_summary id (sw_store w).

(** The summary of the first [k] messages, and a pointer at the last of them. *)
Definition covers (id : text) (w : SumWorld) (k : nat) : Prop :=
  (k ≤ length (history id (sw_store w)))%nat ∧ folded (sw_said w) (take k (history id (sw_store w))) (summary_of id w).1 ∧
  (summary_of id w).2 = sm_id <$> last (take k (history id (sw_store w))).
Definition covered (id : text) (w : SumWorld) : Prop := ∃ k, covers id w k.

(** ** Lemmas *)

Lemma folded_mono said said' ms s : (∀ x, x ∈ said → x ∈ said') → folded said ms s → folded said' ms s.
Proof. intros Hin. induction 1 as [|ms old window words _ IH Hl Hs Ht]; [constructor|]. apply (folded_more _ _ old); [done|done|by apply Hin|done]. Qed.

Lemma others_go_on id w w' : others_step id w w' → table_ok (sw_store w) →
  table_ok (sw_store w') ∧ (∃ new, history id (sw_store w') = history id (sw_store w) ++ new) ∧
  summary_of id w' = summary_of id w ∧ sw_said w' = sw_said w.
Proof.
  assert (∀ cv, get_rolling_summary id cv = seen_as summary_fields (None, None) id cv) as Hsum
    by (intros cv; unfold get_rolling_summary, seen_as; by destruct (cv_sessions cv !! id)).
  unfold summary_of. intros [cv w1 H|now c a d w1] Hok; simpl.
  - destruct (goes_on_spec summary_fields (None, None) id ltac:(done) ltac:(done) _ _ H Hok) as (H1 & H2 & H3).
    rewrite !Hsum. done.
  - split; [done|]. split; [exists []; by rewrite app_nil_r|done].
Qed.

Lemma covers_go_on id w w' k : others_step id w w' → table_ok (sw_store w) → covers id w k → covers id w' k.
Proof.
  intros Hst Hok (Hk & Hf & Hp). destruct (others_go_on id w w' Hst Hok) as (_ & [new Hn] & Hs & Hsaid).
  unfold covers. rewrite Hn, Hs, Hsaid, take_app_le by done. split; [rewrite length_app; lia|]. done.
Qed.

(** Where the next fold starts is where the last one ended. *)
Lemma fold_start_covered ms k : NoDup (sm_id <$> ms) → (k ≤ length ms)%nat →
  fold_start ms (sm_id <$> last (take k ms)) = k.
Proof.
  intros Hnd Hk. destruct k as [|k]; [done|]. destruct (position_of_last ms k) as (m & -> & Hp); [done|lia|].
  simpl. by rewrite Hp.
Qed.

Lemma last_app_ne {A} (l1 l2 : list A) : l2 ≠ [] → last (l1 ++ l2) = last l2.
Proof. intros H. rewrite last_app. destruct (last l2) eqn:E; [done|]. by apply last_None in E. Qed.

(** ** What holds at each moment of a refresh *)

Section refreshing.
Context (id : text) (k0 : nat) (old through : option text).

(** Nothing is written yet, whatever was added. *)
Definition untouched (w : SumWorld) : Prop :=
  table_ok (sw_store w) ∧ covers id w k0 ∧ summary_of id w = (old, through).
(** The messages read are still the first of the history. *)
Definition having_read (ms : list SessionMessage) (w : SumWorld) : Prop :=
  untouched w ∧ ∃ new, history id (sw_store w) = ms ++ new.
Definition having_heard (ms : list SessionMessage) (prompt words : text) (w : SumWorld) : Prop :=
  having_read ms w ∧ (prompt, words) ∈ sw_said w.
(** The summary covers four messages more at least, and not the newest six. *)
Definition advanced (t : text) (w : SumWorld) : Prop :=
  table_ok (sw_store w) ∧ ∃ k, covers id w k ∧ (summary_of id w).2 = Some t ∧
    (k0 + MIN_UNSUMMARIZED_MESSAGES ≤ k)%nat ∧ (k + KEEP_RECENT_MESSAGES ≤ length (history id (sw_store w)))%nat.

Lemma untouched_stable : stable (others_step id) untouched.
Proof.
  intros s s' Hst (Hok & Hc & Hs). destruct (others_go_on id s s' Hst Hok) as (Hok' & _ & Hs' & _).
  split; [done|]. split; [by apply (covers_go_on id s s')|congruence].
Qed.

Lemma having_read_stable ms : stable (others_step id) (having_read ms).
Proof.
  intros s s' Hst [Hu [new Hn]]. split; [by apply (untouched_stable s s')|].
  destruct (others_go_on id s s' Hst (proj1 Hu)) as (_ & [more Hm] & _). exists (new ++ more). by rewrite Hm, Hn, <-app_assoc.
Qed.

Lemma having_heard_stable ms prompt words : stable (others_step id) (having_heard ms prompt words).
Proof.
  intros s s' Hst [Hr Hin]. split; [by apply (having_read_stable ms s s')|].
  destruct (others_go_on id s s' Hst (proj1 (proj1 Hr))) as (_ & _ & _ & E). by rewrite E.
Qed.

Lemma advanced_stable t : stable (others_step id) (advanced t).
Proof.
  intros s s' Hst (Hok & k & Hc & Hs & Hk & Hl). destruct (others_go_on id s s' Hst Hok) as (Hok' & [new Hn] & Hs' & _).
  split; [done|]. exists k. split; [by apply (covers_go_on id s s')|]. split; [congruence|]. split; [done|].
  rewrite Hn, length_app. lia.
Qed.

(** The write: what was folded is the next stretch of the history, in order. *)
Lemma refresh_write ms window words w :
  having_heard ms (refresh_prompt old window) words w → trim words ≠ [] →
  window = drop k0 (take (fold_end ms) ms) → (k0 < fold_end ms)%nat →
  (MIN_UNSUMMARIZED_MESSAGES ≤ fold_end ms - k0)%nat →
  advanced (new_through window)
    (with_store (set_rolling_summary (sw_now w) id (trim words) (new_through window) (sw_store w)).2 w).
Proof.
  intros [[(Hok & (Hk & Hf & Hp) & Hs) [new Hn]] Hin] Ht Hw Hlt Hmin.
  set (w' := with_store _ w). assert (history id (sw_store w') = history id (sw_store w)) as Hh by done.
  assert (fold_end ms + KEEP_RECENT_MESSAGES ≤ length ms)%nat as Hend by (unfold fold_end in *; lia).
  assert (length ms ≤ length (history id (sw_store w)))%nat as Hlen by (rewrite Hn, length_app; lia).
  assert (take (fold_end ms) (history id (sw_store w)) = take k0 (history id (sw_store w)) ++ window) as Htake.
  { rewrite Hn, !take_app_le by lia. rewrite Hw. rewrite <-(take_drop k0 (take (fold_end ms) ms)) at 1.
    by rewrite take_take, Nat.min_l by lia. }
  assert (length window = fold_end ms - k0)%nat as Hwl by (rewrite Hw, length_drop, length_take; lia).
  assert (window ≠ []) as Hne by (intros E; rewrite E in Hwl; simpl in Hwl; lia).
  assert (summary_of id w' = (Some (trim words), Some (new_through window))) as Hsum.
  { unfold summary_of, get_rolling_summary. simpl. rewrite lookup_alter_eq.
    destruct (history_session id (sw_store w) Hok) as [row Hrow]; [|by rewrite Hrow].
    intros E. rewrite E in Hlen. simpl in Hlen. unfold KEEP_RECENT_MESSAGES in *. lia. }
  split; [by apply table_ok_update|]. exists (fold_end ms). unfold covers. rewrite Hh, Hsum. split.
  - split; [lia|]. rewrite Htake. split.
    + apply (folded_more _ _ old); [|lia|done|done]. simpl. by rewrite Hs in Hf.
    + rewrite last_app_ne by done. unfold new_through. by destruct (last window) eqn:E; [|apply last_None in E].
  - split; [done|]. split; lia.
Qed.

Definition refresh_post (out : result RefreshOutcome RefreshError) (w : SumWorld) : Prop :=
  match out with Ok (Refreshed t) => advanced t w | _ => untouched w end.
Definition in_order_always (w : SumWorld) : Prop := untouched w ∨ ∃ t, advanced t w.

Lemma refresh_safe :
  safe summary_handler (others_step id) in_order_always refresh_post (refresh id) untouched.
Proof.
  assert (∀ ms w, having_read ms w → in_order_always w) as Hr by (intros ms w [H _]; by left).
  assert (∀ ms p a w, having_heard ms p a w → in_order_always w) as Hh by (intros ms p a w [[H _] _]; by left).
  assert (∀ out, (∀ t, out ≠ Ok (Refreshed t)) →
    safe summary_handler (others_step id) in_order_always refresh_post (Ret out) untouched) as Hret.
  { intros out Hout. apply safe_ret; [apply untouched_stable|by left|]. intros s Hs. unfold refresh_post.
    destruct out as [[t| |]|]; try done. by destruct (Hout t). }
  assert (∀ ms out, (∀ t, out ≠ Ok (Refreshed t)) →
    safe summary_handler (others_step id) in_order_always refresh_post (Ret out) (having_read ms)) as Hret'.
  { intros ms out Hout. eapply safe_weaken; [apply having_read_stable|by intros s [H _]|by apply Hret]. }
  assert (∀ ms p a out, (∀ t, out ≠ Ok (Refreshed t)) →
    safe summary_handler (others_step id) in_order_always refresh_post (Ret out) (having_heard ms p a)) as Hret''.
  { intros ms p a out Hout. eapply safe_weaken; [apply having_heard_stable|by intros s [[H _] _]|by apply Hret]. }
  unfold refresh. apply safe_call; [apply untouched_stable|by left|]. intros s c s' Hs E. injection E as <- <-.
  exists untouched. split; [done|]. destruct (sw_cancelled s); [cbv beta iota; by apply Hret|]. clear s Hs.
  apply safe_call; [apply untouched_stable|by left|]. intros s c s' Hs E. injection E as <- <-.
  exists untouched. split; [done|]. destruct (sw_down s); [cbv beta iota; by apply Hret|].
  change (get_rolling_summary id (sw_store s)) with (summary_of id s). rewrite (proj2 (proj2 Hs)). clear s Hs.
  apply safe_call; [apply untouched_stable|by left|]. intros s c s' Hs E. injection E as <- <-.
  destruct (sw_down s); [exists untouched; split; [done|cbv beta iota; by apply Hret]|].
  unfold get_messages. destruct (get_session id (sw_store s)); cbn [result_bind]; [|exists untouched; split; [done|cbv beta iota; by apply Hret]].
  exists (having_read (history id (sw_store s))). split; [split; [done|exists []; by rewrite app_nil_r]|].
  assert (fold_start (history id (sw_store s)) through = k0) as ->.
  { destruct Hs as (Hok & (Hk & _ & Hp) & Hs). rewrite Hs in Hp. simpl in Hp. rewrite Hp.
    apply fold_start_covered; [by apply history_NoDup|done]. }
  generalize (history id (sw_store s)). clear s Hs. intros ms.
  destruct (Nat.leb_spec (fold_end ms) k0); cbn [orb]; [cbv beta iota; by apply Hret'|].
  destruct (Nat.ltb_spec (fold_end ms - k0) MIN_UNSUMMARIZED_MESSAGES); [cbv beta iota; by apply Hret'|].
  set (window := drop k0 (take (fold_end ms) ms)).
  apply safe_call; [apply having_read_stable|by apply Hr|]. intros s c s' Hs E. injection E as <- <-.
  destruct (sw_answer s) as [[words|words]|];
    [|exists (having_read ms); split; [done|cbv beta iota; by apply Hret']|exists (having_read ms); split; [done|cbv beta iota; by apply Hret']].
  exists (having_heard ms (refresh_prompt old window) words). split.
  { destruct Hs as [(Hok & (Hk & Hf & Hp) & Hs) Hn]. split; [|by left]. split; [|done]. split; [done|]. split; [|done].
    split; [done|]. split; [|done]. eapply folded_mono; [|exact Hf]. intros x Hx. by right. }
  clear s Hs. apply safe_call; [apply having_heard_stable|by apply Hh|]. intros s c s' Hs E. injection E as <- <-.
  exists (having_heard ms (refresh_prompt old window) words). split; [done|].
  destruct (sw_cancelled s); [cbv beta iota; by apply Hret''|]. destruct (is_empty (trim words)) eqn:Ht; [cbv beta iota; by apply Hret''|].
  apply is_empty_false in Ht. clear s Hs.
  apply safe_call; [apply having_heard_stable|by apply Hh|]. intros s c s' Hs E. simpl in E.
  destruct (sw_down s); injection E as <- <-.
  - exists (having_heard ms (refresh_prompt old window) words). split; [done|cbv beta iota; by apply Hret''].
  - exists (advanced (new_through window)). split; [by apply (refresh_write ms)|].
    apply safe_ret; [apply advanced_stable|intros t Hadv; right; by eexists|done].
Qed.
End refreshing.

(** ** Properties *)

(** C31: the rolling summary is one fold of the conversation. While a session's messages are only added
    to, by a clock that does not run back behind those it has, and its summary is left to the refresh,
    whatever else is written to the store, whatever the model answers and whenever the next
    turn cancels: a refresh folds exactly the messages after the pointer, in order and each once,
    so at every moment the summary is that of the first messages up to the pointer. A refresh that
    says it refreshed moved the pointer to the message it names, four further at least, and kept
    the newest six out; one that ends otherwise, cancelled or failed, wrote nothing. *)
Theorem summary_is_one_fold id w k old through cfg :
  table_ok (sw_store w) → covers id w k → summary_of id w = (old, through) →
  star (config_step summary_handler (others_step id)) (refresh id, w) cfg →
  covered id cfg.2 ∧
  (∀ t, cfg.1 = Ret (Ok (Refreshed t)) → ∃ k', covers id cfg.2 k' ∧ (summary_of id cfg.2).2 = Some t ∧
     (k + MIN_UNSUMMARIZED_MESSAGES ≤ k')%nat ∧ (k' + KEEP_RECENT_MESSAGES ≤ length (history id (sw_store cfg.2)))%nat) ∧
  (∀ out, cfg.1 = Ret out → (∀ t, out ≠ Ok (Refreshed t)) →
     covers id cfg.2 k ∧ summary_of id cfg.2 = (old, through)).
Proof.
  intros Hok Hc Hs Hstar.
  destruct (safe_sound summary_handler (others_step id) (in_order_always id k old through) (refresh_post id k old through)
              (refresh id) (untouched id k old through) w cfg) as [Hnow Hend]; [apply refresh_safe|done|done|].
  split; [|split].
  - destruct Hnow as [(_ & H & _)|(t & _ & k' & H & _)]; by eexists.
  - intros t E. apply Hend in E as (_ & k' & H). by exists k'.
  - intros out E Hout. apply Hend in E. unfold refresh_post in E.
    destruct out as [[t| |]|]; [by destruct (Hout t)|apply E|apply E|apply E].
Qed.

(** ** Runs *)

Definition msg (n : N) : SessionMessage :=
  {| sm_id := lit "m" ++ dec n; sm_role := if N.even n then RoleAssistant else RoleUser; sm_content := lit "said " ++ dec n; sm_created_at := 0 |}.
Definition add_all (id : text) (ms : list SessionMessage) (cv : Conversations) : Conversations :=
  foldl (λ cv m, (add_message 100 id m cv).2) cv ms.
Definition tea_chat : Conversations :=
  add_all (lit "s") (msg <$> [1; 2; 3; 4; 5; 6; 7; 8; 9; 10]) (create_session 100 (lit "s") no_conversations).2.
Definition tea_world : SumWorld :=
  {| sw_store := tea_chat; sw_now := 200; sw_cancelled := false; sw_answer := Some (Ok (lit " They talked. ")); sw_down := None;
     sw_said := [] |}.

Lemma add_all_steps id ms cv : star store_step cv (add_all id ms cv).
Proof.
  revert cv. induction ms as [|m ms IH]; intros cv; [apply star_refl|]. eapply star_step; [apply ss_add|]. apply IH.
Qed.

Lemma tea_chat_ok : table_ok tea_chat.
Proof.
  apply reachable_table_ok. eapply star_step; [apply (ss_create 100 (lit "s"))|]. apply add_all_steps.
Qed.

(** Ten messages: the first four are folded. *)
Lemma summary_is_one_fold_witness :
  table_ok tea_chat ∧ covers (lit "s") tea_world 0 ∧ summary_of (lit "s") tea_world = (None, None) ∧
  ∃ cfg, star (config_step summary_handler (others_step (lit "s"))) (refresh (lit "s"), tea_world) cfg ∧
    cfg.1 = Ret (Ok (Refreshed (lit "m4"))) ∧ (summary_of (lit "s") cfg.2).1 = Some (lit "They talked.") ∧
    covered (lit "s") cfg.2.
Proof.
  pose proof tea_chat_ok as Hok.
  assert (covers (lit "s") tea_world 0) as Hc by (split; [lia|]; split; [apply folded_none|done]).
  split; [exact Hok|]. split; [exact Hc|]. split; [done|].
  pose proof (run_steps summary_handler (others_step (lit "s")) (refresh (lit "s")) tea_world) as Hs.
  eexists. split; [exact Hs|]. split; [by vm_compute|]. split; [by vm_compute|].
  apply (summary_is_one_fold (lit "s") tea_world 0 None None _ Hok Hc eq_refl Hs).
Defined.

(** A message edited among those already summarised: [delete_messages_from] leaves the summary and a
    pointer at a message that is gone. The next refresh folds the whole conversation again, the
    messages already in the summary too, onto a summary that still holds the deleted ones. *)
Definition edited_world : SumWorld :=
  let '(_, w) := run summary_handler (refresh (lit "s")) tea_world in
  let cut := (delete_messages_from 200 (lit "s") (lit "m3") (sw_store w)).2 in
  with_store (add_all (lit "s") (msg <$> [11; 12; 13; 14; 15; 16; 17; 18]) cut) w.

Example edit_keeps_the_old_summary :
  summary_of (lit "s") edited_world = (Some (lit "They talked."), Some (lit "m4")) ∧
  fold_start (history (lit "s") (sw_store edited_world)) (Some (lit "m4")) = O ∧
  head (sw_said (run summary_handler (refresh (lit "s")) edited_world).2) =
    Some (refresh_prompt (Some (lit "They talked.")) (msg <$> [1; 2; 11; 12]), lit " They talked. ").
Proof. split; [by vm_compute|]. split; by vm_compute. Qed.
