(* ===== verification/Titles.v ===== *)
(** * Titles: who names a conversation

    crates/pond-core/src/shared/services/session_title.rs: the gate, the normaliser, and
    [SessionTitleService::run] (retitle and retitle_now); of services/chat.rs the two that name a
    conversation after its first exchange ([maybe_generate_title], [ensure_session_title]). Each is a
    program over the sessions' store ([Conversation]) among its other writers, a person renaming
    the conversation (update_title) too. [char::is_alphanumeric] is a section variable. *)
From S2P Require Import Prelude Prog Text Runner Conversation Summary.
From Stdlib Require Import NArith ZArith Lia.
Open Scope N_scope.

Definition MAX_TITLE_WORDS : nat := 10.
Definition MAX_TITLE_CHARS : nat := 72.
Definition REJECT_OVER_WORDS : nat := 20.
Definition MIN_MESSAGES_TO_TITLE : N := 3.
Definition REFRESH_AFTER_MESSAGES : N := 8.
Definition EVIDENCE_MESSAGES : nat := 10.
Definition EVIDENCE_CHARS_PER_MESSAGE : nat := 280.

Inductive TitleSource : Type := Derived | ByModel | ByUser.
Definition TitleSource_as_str (s : TitleSource) : text :=
  match s with Derived => lit "derived" | ByModel => lit "model" | ByUser => lit "user" end.
Definition TitleSource_parse (raw : text) : option TitleSource :=
  if bool_decide (raw = lit "derived") then Some Derived
  else if bool_decide (raw = lit "model") then Some ByModel
  else if bool_decide (raw = lit "user") then Some ByUser else None.

(** ** The gate *)

Record TitleGateInputs := {
  tg_title : option text; tg_source : option TitleSource; tg_derived_fallback : option text;
  tg_total_messages : N; tg_messages_since_covered : N }.

Inductive TitleSkip : Type := TooShort | UserNamed | UnknownProvenance | StillCurrent.
#[export] Instance title_skip_eq_dec : EqDecision TitleSkip.
Proof. solve_decision. Defined.
Inductive TitleDecision : Type := Retitle | Skip (reason : TitleSkip).

Definition should_retitle (i : TitleGateInputs) : TitleDecision :=
  if tg_total_messages i <? MIN_MESSAGES_TO_TITLE then Skip TooShort else
  match tg_source i with
  | Some ByUser => Skip UserNamed
  | Some Derived => Retitle
  | Some ByModel => if REFRESH_AFTER_MESSAGES <=? tg_messages_since_covered i then Retitle else Skip StillCurrent
  | None =>
      match tg_title i, tg_derived_fallback i with
      | None, _ => Retitle
      | Some t, f =>
          if is_empty (trim t) then Retitle
          else match f with
               | Some fallback => if bool_decide (t = fallback) then Retitle else Skip UnknownProvenance
               | None => Skip UnknownProvenance
               end
      end
  end.

(** ** Names *)

Definition trim_matches (c : N) (t : text) : text :=
  trim_end_matches (N.eqb c) (drop_while (N.eqb c) t).

(** The lines of [str::lines] but for the ends the callers trim. *)
Definition text_lines (t : text) : list text := split_on (N.eqb 10) t.

Definition strip_prefix_ci (s prefix : text) : option text :=
  head ← byte_slice s 0 (byte_len prefix);
  if bool_decide (lowercase head = lowercase prefix) then byte_drop s (byte_len prefix) else None.

Definition TITLE_LABELS : list text := [lit "chat title:"; lit "title:"; lit "title -"; lit "name:"].
Fixpoint strip_label (labels : list text) (t : text) : text :=
  match labels with
  | [] => t
  | prefix :: labels => match strip_prefix_ci t prefix with Some rest => trim rest | None => strip_label labels t end
  end.

(** [rsplit_once]: what is before the last [c]. *)
Definition rsplit_head (c : N) (t : text) : option text :=
  match drop_while (λ x, negb (x =? c)) (reverse t) with [] => None | _ :: h => Some (reverse h) end.

Definition cap_title (title : text) : text :=
  if (MAX_TITLE_CHARS <? length title)%nat then
    let truncated := take MAX_TITLE_CHARS title in
    match rsplit_head 32 truncated with
    | Some h => if is_empty (trim h) then trim truncated else trim h
    | None => trim truncated
    end
  else title.

Definition truncate (t : text) (max_chars : nat) : text :=
  let trimmed := trim t in
  if (length trimmed <=? max_chars)%nat then trimmed else trim_end (take max_chars trimmed) ++ [8230].

Definition first_words (t : text) : text :=
  let cleaned := trim_matches 39 (trim_matches 34 (trim t)) in
  let title := join (lit " ") (take 6 (split_whitespace cleaned)) in
  trim (trim_matches 39 (trim_matches 34 (trim title))).

Definition derive_fallback_title (t : text) : text := take 60 (first_words t).
(** The rule of chat.rs that it copies. *)
Definition derive_title_from_text (t : text) : text :=
  let title := first_words t in
  if (length title <=? 60)%nat then title else trim_end (take 60 title) ++ [8230].

(** ** What the model is shown *)

Definition evidence_line (m : SessionMessage) : option text :=
  match sm_role m with
  | RoleUser | RoleAssistant =>
      let body := truncate (sm_content m) EVIDENCE_CHARS_PER_MESSAGE in
      if is_empty (trim body) then None
      else Some ((match sm_role m with RoleUser => lit "User" | _ => lit "Assistant" end) ++ lit ": " ++ body)
  | RoleSystem | RoleTool => None
  end.

Definition transcript_evidence (messages : list SessionMessage) : text :=
  let opened := match find_first (λ m, bool_decide (sm_role m = RoleUser)) messages with
                | Some m => [lit "Opened with: " ++ truncate (sm_content m) EVIDENCE_CHARS_PER_MESSAGE]
                | None => []
                end in
  join [10] (opened ++ omap evidence_line (drop (length messages - EVIDENCE_MESSAGES) messages)).

Definition title_evidence (summary : option text) (messages : list SessionMessage) : text :=
  match summary with
  | Some s => if is_empty (trim s) then transcript_evidence messages
              else lit "Summary of the conversation:" ++ [10] ++ trim s
  | None => transcript_evidence messages
  end.

Definition TITLE_SYSTEM_PROMPT : text :=
  join [10] [lit "You name conversations. Reply with the name and nothing else."; [];
             lit "- Ten words at most. Fewer is better.";
             lit "- Name the real subject, so it is recognisable in a list weeks from now.";
             lit "- Be concrete: name the thing itself, not the category it belongs to.";
             lit "- Sentence case. No quotes, no full stop, no " ++ [34] ++ lit "Chat about" ++ [34] ++ lit ".";
             lit "- If it covers several things, name the one it kept coming back to."].

(** ** The calls *)

Inductive TitleCall : Type → Type :=
| TitleCancelled : TitleCall bool
| GetSession (id : text) : TitleCall (answer SessionRow)
| GetTitleProvenance (id : text) : TitleCall (answer (option text * option text))
| CountMessages (id : text) : TitleCall (answer N)
| MessagesAfter (id message : text) : TitleCall (answer (option N))
| FirstUserMessage (id : text) : TitleCall (answer (option text))
| AllMessages (id : text) : TitleCall (answer (list SessionMessage))
| MessagesPage (id : text) (limit offset : nat) : TitleCall (answer (list SessionMessage))
| ReadRollingSummary (id : text) : TitleCall (answer (option text * option text))
| CompleteTitle (system prompt : text) : TitleCall (option (result text text))
| SetGeneratedTitle (id title through : text) : TitleCall (answer unit)
| SetDerivedTitle (id title : text) : TitleCall (answer unit).

Inductive RetitleOutcome : Type :=
| Retitled (title through_message_id : text) | Skipped (reason : TitleSkip) | RetitleCancelled | Unusable.
Inductive TitleError : Type := TitleStore (e : SessionStorageError) | TitleModel (words : text).
Notation titling := (Prog TitleCall (result RetitleOutcome TitleError)).

(** [call.await?] on the store. *)
Definition ask {A} (c : TitleCall (answer A)) (k : A → titling) : titling :=
  Call c (λ r, match r with Ok a => k a | Err e => Ret (Err (TitleStore e)) end).

Section unicode.
Context (is_alphanumeric : N → bool).

Definition normalise_title (raw : text) : option text :=
  first_line ← find_first (λ l, negb (is_empty (trim l))) (text_lines raw);
  let cleaned := strip_label TITLE_LABELS (trim first_line) in
  let cleaned := trim (trim_end_matches (N.eqb 46) (trim (trim_matches 42 (trim_matches 39 (trim_matches 34 cleaned))))) in
  if is_empty cleaned then None else
  let words := split_whitespace cleaned in
  if is_empty words then None else
  if (REJECT_OVER_WORDS <? length words)%nat then None else
  let title := cap_title (join (lit " ") (take MAX_TITLE_WORDS words)) in
  if negb (existsb is_alphanumeric title) then None else Some title.

(** The second half of [run], once the gate agrees or is overridden. *)
Definition retitle_allowed (id : text) : titling :=
  ask (AllMessages id) (λ messages,
    match last messages with
    | None => Ret (Ok (Skipped TooShort))
    | Some newest =>
        ask (ReadRollingSummary id) (λ read,
          let! cancelled := TitleCancelled in
          if (cancelled : bool) then Ret (Ok RetitleCancelled) else
          let prompt := title_evidence read.1 messages ++ [10; 10] ++ lit "Name this conversation." in
          let! response := CompleteTitle TITLE_SYSTEM_PROMPT prompt in
          match response with
          | None => Ret (Ok RetitleCancelled)
          | Some (Err words) => Ret (Err (TitleModel words))
          | Some (Ok content) =>
              let! cancelled := TitleCancelled in
              if (cancelled : bool) then Ret (Ok RetitleCancelled) else
              match normalise_title content with
              | None => Ret (Ok Unusable)
              | Some title =>
                  ask (SetGeneratedTitle id title (sm_id newest)) (λ _, Ret (Ok (Retitled title (sm_id newest))))
              end
          end)
    end).

(** What the gate says, and whether a click overrides it. *)
Definition gate_then (force : bool) (id : text) (i : TitleGateInputs) : titling :=
  match should_retitle i with
  | Skip reason => if force && negb (bool_decide (reason = TooShort)) then retitle_allowed id else Ret (Ok (Skipped reason))
  | Retitle => retitle_allowed id
  end.

(** Only a row with no source needs the fallback, to recognise it. *)
Definition gate_since (force : bool) (id : text) (session : SessionRow) (source : option TitleSource) (total since : N) : titling :=
  match source with
  | None =>
      ask (FirstUserMessage id) (λ t,
        gate_then force id
          {| tg_title := sr_title session; tg_source := source; tg_derived_fallback := derive_fallback_title <$> t;
             tg_total_messages := total; tg_messages_since_covered := since |})
  | Some _ =>
      gate_then force id
        {| tg_title := sr_title session; tg_source := source; tg_derived_fallback := None;
           tg_total_messages := total; tg_messages_since_covered := since |}
  end.

Definition run_title (force : bool) (id : text) : titling :=
  let! cancelled := TitleCancelled in
  if (cancelled : bool) then Ret (Ok RetitleCancelled) else
  ask (GetSession id) (λ session,
  ask (GetTitleProvenance id) (λ provenance,
  ask (CountMessages id) (λ total,
    let source := provenance.1 ≫= TitleSource_parse in
    match source, provenance.2 with
    | Some ByModel, Some through =>
        ask (MessagesAfter id through) (λ n, gate_since force id session source total (default total n))
    | _, _ => gate_since force id session source total total
    end))).

Definition retitle : text → titling := run_title false.
Definition retitle_now : text → titling := run_title true.

(** ** The first name (chat.rs); what fails is only logged. *)

(** [has_provider]: a chat without a model is left to the fallback. *)
Definition maybe_generate_title (has_provider : bool) (id user_text assistant_text : text) : Prog TitleCall unit :=
  if negb has_provider then Ret tt else
  let! session := GetSession id in
  if (match session with Ok s => bool_decide (is_Some (sr_title s)) | Err _ => false end) then Ret tt else
  let! page := MessagesPage id 3 0 in
  match page with
  | Ok [_; newest] =>
      let context := lit "User: " ++ user_text ++ [10] ++ lit "Assistant: " ++ assistant_text in
      let! response := CompleteTitle TITLE_SYSTEM_PROMPT context in
      match response with
      | Some (Ok content) =>
          match normalise_title content with
          | None => Ret tt
          | Some title => let! _ := SetGeneratedTitle id title (sm_id newest) in Ret tt
          end
      | _ => Ret tt
      end
  | _ => Ret tt
  end.

Definition ensure_session_title (id : text) : Prog TitleCall unit :=
  let! session := GetSession id in
  if (match session with Ok s => bool_decide (is_Some (sr_title s)) | Err _ => false end) then Ret tt else
  let! page := MessagesPage id 20 0 in
  let first := match page with
               | Ok messages => find_first (λ m, bool_decide (sm_role m = RoleUser)) messages
               | Err _ => None
               end in
  match first with
  | None => Ret tt
  | Some m =>
      let title := derive_title_from_text (sm_content m) in
      if is_empty title then Ret tt else
      let! _ := SetDerivedTitle id title in Ret tt
  end.
End unicode.

(** ** The world they run in: the one of the summaries. *)

Definition writing_store (r : answer unit * Conversations) (w : SumWorld) : answer unit * SumWorld :=
  match sw_down w with Some e => (Err e, w) | None => (r.1, with_store r.2 w) end.
Definition reading_store {A} (r : answer A) (w : SumWorld) : answer A * SumWorld :=
  (match sw_down w with Some e => Err e | None => r end, w).

Definition title_handler : Handler TitleCall SumWorld := λ R c,
  match c in TitleCall R return SumWorld → R * SumWorld with
  | TitleCancelled => λ w, (sw_cancelled w, w)
  | GetSession id => λ w, reading_store (get_session id (sw_store w)) w
  | GetTitleProvenance id => λ w, reading_store (Ok (get_title_provenance id (sw_store w))) w
  | CountMessages id => λ w, reading_store (Ok (count_messages id (sw_store w))) w
  | MessagesAfter id m => λ w, reading_store (Ok (messages_after id m (sw_store w))) w
  | FirstUserMessage id => λ w, reading_store (Ok (first_user_message id (sw_store w))) w
  | AllMessages id => λ w, reading_store (get_messages id (sw_store w)) w
  | MessagesPage id limit offset => λ w, reading_store (get_messages_paginated id limit offset (sw_store w)) w
  | ReadRollingSummary id => λ w, reading_store (Ok (get_rolling_summary id (sw_store w))) w
  | CompleteTitle _ prompt => λ w,
      (sw_answer w, match sw_answer w with Some (Ok words) => saying prompt words w | _ => w end)
  | SetGeneratedTitle id title through => λ w, writing_store (set_generated_title id title through (sw_store w)) w
  | SetDerivedTitle id title => λ w, writing_store (set_derived_title id title (sw_store w)) w
  end.

(** ** Lemmas: cutting a line of words *)

Definition spaces (t : text) : nat := length (List.filter (N.eqb 32) t).

Lemma spaces_app a b : spaces (a ++ b) = (spaces a + spaces b)%nat.
Proof. unfold spaces. by rewrite List.filter_app, length_app. Qed.

Lemma spaces_word w : word w → spaces w = O.
Proof.
  intros [_ Hw]. unfold spaces. rewrite filter_none; [done|]. intros c Hc. rewrite Forall_forall in Hw.
  specialize (Hw c Hc). destruct (N.eqb_spec 32 c) as [<-|]; [by vm_compute in Hw|done].
Qed.

Lemma spaces_join ws : Forall word ws → spaces (join (lit " ") ws) = (length ws - 1)%nat.
Proof.
  induction 1 as [|w ws Hw Hws IH]; [done|]. destruct (decide (ws = [])) as [->|Hne]; [by apply spaces_word|].
  rewrite join_cons_app by done. rewrite !spaces_app, spaces_word, IH by done.
  destruct ws; [done|]. change (spaces (lit " ")) with 1%nat. simpl. lia.
Qed.

Lemma words_of_one_lined t ws : Forall word ws → t = join (lit " ") ws → split_whitespace t = ws.
Proof. intros Hws ->. by apply split_whitespace_join. Qed.

(** A line of at most [n] words, joined by single spaces. *)
Definition words_at_most (n : nat) (t : text) : Prop :=
  ∃ ws, Forall word ws ∧ t = join (lit " ") ws ∧ (length ws ≤ n)%nat.

(** The start of such a line, trimmed, is one too. *)
Lemma trim_take_words n k t : words_at_most n t → words_at_most n (trim (take k t)).
Proof.
  intros (ws & Hws & -> & Hn). set (t := join (lit " ") ws).
  assert (one_lined t) as Hone by (by exists ws).
  assert (trim (take k t) = trim_end (take k t)) as ->.
  { unfold trim. f_equal. apply drop_while_id. intros c Hc%head_take.
    destruct (one_lined_trimmed t Hone) as [Hh _]. by apply Hh. }
  destruct (trim_end_take_words k ws Hws) as (vs & Hvs & E). fold t in E. exists vs. split; [done|]. split; [done|].
  destruct (decide (vs = [])) as [->|Hne]; [simpl; lia|].
  assert (spaces (join (lit " ") vs) ≤ spaces t)%nat as Hsp.
  { rewrite <-E. destruct (trim_end_matches_prefix is_whitespace (take k t)) as (r & Hr & _).
    change (trim_end_matches is_whitespace) with trim_end in Hr.
    rewrite <-(take_drop k t) at 2. rewrite spaces_app. rewrite Hr at 2. rewrite spaces_app. lia. }
  unfold t in Hsp. rewrite !spaces_join in Hsp by done.
  destruct (decide (ws = [])) as [->|Hwne]; [|destruct ws; [done|]; destruct vs; [done|]; simpl in *; lia].
  unfold t in E. simpl in E. rewrite take_nil in E. symmetry in E. by apply join_words_nonempty in E.
Qed.

Lemma rsplit_head_take c t h : rsplit_head c t = Some h → h = take (length h) t ∧ (length h < length t)%nat.
Proof.
  unfold rsplit_head. destruct (drop_while_suffix (λ x, negb (x =? c)) (reverse t)) as (k & Hk & _).
  destruct (drop_while _ _) as [|x l]; [done|]. intros [= <-].
  assert (t = reverse l ++ x :: reverse k) as ->.
  { rewrite <-(reverse_involutive t), Hk, reverse_app, reverse_cons, <-app_assoc. done. }
  rewrite length_app. simpl. split; [|lia]. by rewrite take_app_length.
Qed.

Lemma trim_take_length k t : (length (trim (take k t)) ≤ k)%nat.
Proof. etrans; [apply trim_length|]. rewrite length_take. lia. Qed.

Lemma cap_title_names n t : words_at_most n t →
  words_at_most n (cap_title t) ∧ (length (cap_title t) ≤ MAX_TITLE_CHARS)%nat.
Proof.
  intros Ht. unfold cap_title. destruct (Nat.ltb_spec MAX_TITLE_CHARS (length t)); [|done].
  assert (∀ k, (k ≤ MAX_TITLE_CHARS)%nat → words_at_most n (trim (take k t)) ∧ (length (trim (take k t)) ≤ MAX_TITLE_CHARS)%nat) as Hcut.
  { intros k Hk. split; [by apply trim_take_words|]. pose proof (trim_take_length k t). lia. }
  destruct (rsplit_head 32 _) as [h|] eqn:E; [|by apply Hcut].
  destruct (is_empty (trim h)); [by apply Hcut|]. apply rsplit_head_take in E as [-> Hl].
  rewrite length_take in Hl. rewrite take_take. apply Hcut. lia.
Qed.

(** ** Lemmas: a name a person gave *)

(** A person named this conversation. *)
Definition named (id : text) (w : SumWorld) : Prop :=
  ∃ r, cv_sessions (sw_store w) !! id = Some r ∧ sr_title_source r = Some (lit "user") ∧ is_Some (sr_title r).
Definition named_and_up (id : text) (w : SumWorld) : Prop := named id w ∧ sw_down w = None.

(** What others do leaves the conversation with a person's name: they may rename it, write anything
    else of it, write, cut and delete other conversations, and change what is outside the store. *)
Definition name_kept (id : text) (w w' : SumWorld) : Prop := named id w → named id w'.
Definition name_kept_and_up (id : text) (w w' : SumWorld) : Prop := named_and_up id w → named_and_up id w'.

Lemma renamed_is_kept id now title w :
  is_Some (cv_sessions (sw_store w) !! id) → named id (with_store (update_title now id title (sw_store w)).2 w).
Proof.
  intros [r Hr]. unfold update_title, guarded_update, get_session. rewrite Hr. simpl.
  eexists. split; [simpl; rewrite lookup_alter_eq, Hr; done|]. split; [done|by eexists].
Qed.

Lemma gate_refuses i : tg_source i = Some ByUser → ∃ reason, should_retitle i = Skip reason.
Proof. intros H. unfold should_retitle. destruct (_ <? _); [by eexists|]. rewrite H. by eexists. Qed.

Section named.
Context (is_alphanumeric : N → bool) (id : text).

Definition not_retitled (out : result RetitleOutcome TitleError) (w : SumWorld) : Prop :=
  ∀ t m, out ≠ Ok (Retitled t m).

Lemma retitle_named :
  safe title_handler (name_kept id) (named id) not_retitled (retitle is_alphanumeric id) (named id).
Proof.
  assert (stable (name_kept id) (named id)) as Hst by (intros s s' H; exact H).
  assert (∀ out, (∀ t m, out ≠ Ok (Retitled t m)) →
    safe title_handler (name_kept id) (named id) not_retitled (Ret out) (named id)) as Hret by (intros out Ho; by apply safe_ret).
  unfold retitle, run_title. apply safe_call; [done|done|]. intros s c s' Hs E. injection E as <- <-. exists (named id). split; [done|].
  destruct (sw_cancelled s); [cbv beta iota; by apply Hret|]. clear s Hs.
  unfold ask at 1. apply safe_call; [done|done|]. intros s r s' Hs E. injection E as <- <-. exists (named id). split; [done|].
  destruct (sw_down s); [cbv beta iota; by apply Hret|]. destruct (get_session id (sw_store s)) as [session|e]; [|cbv beta iota; by apply Hret].
  clear s Hs. unfold ask at 1. apply safe_call; [done|done|]. intros s r s' Hs E. injection E as <- <-. exists (named id). split; [done|].
  destruct (sw_down s); [cbv beta iota; by apply Hret|]. destruct Hs as (row & Hrow & Hsrc & _).
  unfold get_title_provenance. rewrite Hrow, Hsrc. clear s Hrow. cbv beta iota. cbn [fst snd].
  change (Some (lit "user") ≫= TitleSource_parse) with (Some ByUser).
  unfold ask at 1. apply safe_call; [done|done|]. intros s r s' Hs E. injection E as <- <-. exists (named id). split; [done|].
  destruct (sw_down s); [cbv beta iota; by apply Hret|]. cbv beta iota zeta. unfold gate_since, gate_then.
  match goal with |- context [should_retitle ?i] => destruct (gate_refuses i eq_refl) as [reason ->] end.
  cbn [andb]. by apply Hret.
Qed.

(** The two writers of a first name, whose read of the title is not refused. *)
Lemma first_name_named (k : answer SessionRow → Prog TitleCall unit) :
  (∀ s, is_Some (sr_title s) → k (Ok s) = Ret tt) →
  safe title_handler (name_kept_and_up id) (named_and_up id) (λ _ _, True) (Call (GetSession id) k) (named_and_up id).
Proof.
  intros Hk. apply safe_call; [by intros s s' H|done|]. intros s r s' [Hs Hup] E. injection E as <- <-.
  exists (named_and_up id). split; [done|]. rewrite Hup. destruct Hs as (row & Hrow & _ & Ht). unfold get_session. rewrite Hrow.
  rewrite Hk by done. by apply safe_ret; [intros s1 s2 H|..].
Qed.

Lemma maybe_generate_named has_provider user_text assistant_text :
  safe title_handler (name_kept_and_up id) (named_and_up id) (λ _ _, True)
    (maybe_generate_title is_alphanumeric has_provider id user_text assistant_text) (named_and_up id).
Proof.
  unfold maybe_generate_title. destruct (negb has_provider); [by apply safe_ret; [intros s1 s2 H|..]|].
  apply first_name_named. intros s Hs. by rewrite bool_decide_true.
Qed.

Lemma ensure_named :
  safe title_handler (name_kept_and_up id) (named_and_up id) (λ _ _, True) (ensure_session_title id) (named_and_up id).
Proof. unfold ensure_session_title. apply first_name_named. intros s Hs. by rewrite bool_decide_true. Qed.
End named.

(** ** Properties *)

(** Whatever a model answers, the name kept is a name: one line of one to ten words with single
    spaces between them, of at most seventy-two characters, with a letter or a digit in it. *)
Theorem titles_are_names is_alphanumeric raw title :
  normalise_title is_alphanumeric raw = Some title →
  title = join (lit " ") (split_whitespace title) ∧ (1 ≤ length (split_whitespace title) ≤ MAX_TITLE_WORDS)%nat ∧
  (length title ≤ MAX_TITLE_CHARS)%nat ∧ trim title = title ∧ 10 ∉ title ∧
  (∃ c, c ∈ title ∧ is_alphanumeric c = true).
Proof.
  unfold normalise_title. intros (line & _ & H)%bind_Some.
  destruct (is_empty _) in H; [done|]. set (words := split_whitespace _) in H.
  assert (Forall word words) as Hw by apply split_whitespace_words.
  destruct (is_empty words) in H; [done|]. destruct (REJECT_OVER_WORDS <? _)%nat in H; [done|].
  destruct (cap_title_names MAX_TITLE_WORDS (join (lit " ") (take MAX_TITLE_WORDS words))) as [(ws & Hws & E & Hn) Hl].
  { exists (take MAX_TITLE_WORDS words). split; [by apply Forall_take|]. split; [done|]. rewrite length_take. lia. }
  set (t := cap_title _) in *. clearbody t. destruct (existsb is_alphanumeric t) eqn:Ha; simpl in H; [|done]. injection H as <-.
  apply existsb_elem_of in Ha as (c & Hc & Hac).
  assert (one_lined t) as Hone by (by exists ws). pose proof (one_lined_trimmed t Hone) as Htr.
  rewrite (words_of_one_lined t ws) by done. split; [done|].
  split; [destruct ws; [|simpl in *; lia]; subst t; by apply not_elem_of_nil in Hc|].
  split; [done|]. split; [by apply trimmed_trim|]. split; [|by exists c].
  subst t. clear -Hws. induction Hws as [|w ws [_ Hw] Hws IH]; [by apply not_elem_of_nil|].
  assert (10 ∉ w) as Hnw by (intros H; rewrite Forall_forall in Hw; specialize (Hw 10 H); by vm_compute in Hw).
  destruct (decide (ws = [])) as [->|Hne]; [done|]. rewrite join_cons_app by done.
  intros [Hin|[Hin|Hin]%elem_of_app]%elem_of_app; [done| |done]. by apply elem_of_one in Hin.
Qed.

Lemma titles_are_names_witness :
  let raw := [10] ++ lit "Title: " ++ [34] ++ lit "Greenhouse  vents." ++ [34] in
  normalise_title is_ascii_lowercase raw = Some (lit "Greenhouse vents") ∧
  (length (lit "Greenhouse vents") ≤ MAX_TITLE_CHARS)%nat.
Proof.
  split; [by vm_compute|].
  apply (titles_are_names is_ascii_lowercase ([10] ++ lit "Title: " ++ [34] ++ lit "Greenhouse  vents." ++ [34])). by vm_compute.
Defined.

(** A name a person gave a conversation stands. From a state where it has one, whatever renames it
    again or writes anything else meanwhile: the background pass ends without a title of its own,
    and at every moment of it the name is a person's; so it is at every moment of the two writers
    of a first name, as long as the store answers their reads. *)
Theorem given_names_stand is_alphanumeric id w :
  named id w →
  (∀ cfg, star (config_step title_handler (name_kept id)) (retitle is_alphanumeric id, w) cfg →
     named id cfg.2 ∧ ∀ t m, cfg.1 ≠ Ret (Ok (Retitled t m))) ∧
  (sw_down w = None → ∀ has_provider user_text assistant_text cfg,
     star (config_step title_handler (name_kept_and_up id))
       (maybe_generate_title is_alphanumeric has_provider id user_text assistant_text, w) cfg ∨
     star (config_step title_handler (name_kept_and_up id)) (ensure_session_title id, w) cfg → named id cfg.2).
Proof.
  intros Hw. split.
  - intros cfg Hs. destruct (safe_sound title_handler (name_kept id) (named id) not_retitled _ _ w cfg
      (retitle_named is_alphanumeric id) Hw Hs) as [Hn Hend]. split; [done|]. intros t m E. by destruct (Hend _ E t m).
  - intros Hup hp u a cfg [Hs|Hs].
    + by apply (safe_sound title_handler (name_kept_and_up id) (named_and_up id) (λ _ _, True) _ _ w cfg
        (maybe_generate_named is_alphanumeric id hp u a) (conj Hw Hup) Hs).
    + by apply (safe_sound title_handler (name_kept_and_up id) (named_and_up id) (λ _ _, True) _ _ w cfg
        (ensure_named id) (conj Hw Hup) Hs).
Qed.

(** ** Runs *)

Definition renamed (w : SumWorld) : SumWorld := with_store (update_title 300 (lit "s") (lit "Our roof") (sw_store w)).2 w.
Definition title_of (w : SumWorld) : option (option text * option text) :=
  (λ r, (sr_title r, sr_title_source r)) <$> cv_sessions (sw_store w) !! lit "s".

(** A long conversation a person named. *)
Lemma given_names_stand_witness :
  named (lit "s") (renamed tea_world) ∧
  ∃ cfg, star (config_step title_handler (name_kept (lit "s"))) (retitle is_ascii_lowercase (lit "s"), renamed tea_world) cfg ∧
    cfg.1 = Ret (Ok (Skipped UserNamed)) ∧ named (lit "s") cfg.2.
Proof.
  assert (named (lit "s") (renamed tea_world)) as Hn by (apply renamed_is_kept, (bool_decide_unpack _); vm_compute; exact I).
  split; [exact Hn|].
  pose proof (run_steps title_handler (name_kept (lit "s")) (retitle is_ascii_lowercase (lit "s")) (renamed tea_world)) as Hs.
  eexists. split; [exact Hs|]. split; [by vm_compute|].
  destruct (given_names_stand is_ascii_lowercase (lit "s") (renamed tea_world) Hn) as [H _].
  exact (proj1 (H _ Hs)).
Defined.

(** A program stopped after [n] calls, and what the rest of it does once the store has changed. *)
Fixpoint after_calls {A} (n : nat) (p : Prog TitleCall A) (w : SumWorld) : Prog TitleCall A * SumWorld :=
  match n, p with
  | S n, Call c k => let '(r, w) := title_handler _ c w in after_calls n (k r) w
  | _, _ => (p, w)
  end.
Definition then_renamed {A} (n : nat) (p : Prog TitleCall A) (w : SumWorld) : SumWorld :=
  let '(p, w) := after_calls n p w in (run title_handler p (renamed w)).2.

(** A name given while the model thinks is lost: the pass does not look again before it writes. *)
Example rename_during_a_pass_is_lost :
  title_of (then_renamed 8 (retitle is_ascii_lowercase (lit "s")) tea_world) = Some (Some (lit "They talked"), Some (lit "model")).
Proof. by vm_compute. Qed.

(** A read the store refuses counts as no title at all. *)
Definition short_chat : SumWorld :=
  with_store (add_all (lit "s") (msg <$> [1; 2]) (create_session 100 (lit "s") no_conversations).2) tea_world.
Example a_failed_read_loses_the_name :
  ∃ k, ensure_session_title (lit "s") = Call (GetSession (lit "s")) k ∧
     title_of (run title_handler (k (Err (StorageError []))) (renamed short_chat)).2 = Some (Some (lit "said 1"), Some (lit "derived")).
Proof. eexists. split; [reflexivity|]. by vm_compute. Qed.

(** The copy of the fallback's rule has drifted: a long one is cut there with no ellipsis. *)
Example fallback_rules_differ :
  let t := concat (replicate 6 (lit "greenhouses ")) in
  (length (derive_fallback_title t), length (derive_title_from_text t)) = (60%nat, 60%nat) ∧
  derive_fallback_title t ≠ derive_title_from_text t.
Proof. by vm_compute. Qed.
