(* ===== verification/Window.v ===== *)
(** * Window: cutting what is next to be read of a conversation

    [carve_window] of crates/pond-core/src/user_data/services/memory_extraction.rs over the messages
    of user_data/ports/conversation_extractor.rs: the oldest stretch within a budget of characters
    that ends on a reply. *)
From S2P Require Import Prelude Text.
From Stdlib Require Import NArith ZArith Lia.

Record WindowMessage := { wm_id : text; wm_role : text; wm_content : text; wm_created_at : Z }.
Definition is_user (m : WindowMessage) : bool := bool_decide (wm_role m = lit "user").

Inductive WindowCarve : Type :=
| WindowReady (carved : list WindowMessage) | NoExchange | Oversized (chars : nat) (through : text).

Definition window_chars (c : list WindowMessage) : nat := sum_list_with (λ m, length (wm_content m)) c.

(** The loops over the messages, [i] of them walked. *)
Fixpoint carve_end (max_chars used end_ i : nat) (messages : list WindowMessage) : nat :=
  match messages with
  | [] => end_
  | m :: messages =>
      let cost := length (wm_content m) in
      if ((max_chars <? used + cost) && (0 <? end_))%nat then end_
      else carve_end max_chars (used + cost) (i + 1) (i + 1) messages
  end.

Fixpoint first_pair_end (seen_user : bool) (i : nat) (slice : list WindowMessage) : option nat :=
  match slice with
  | [] => None
  | m :: slice =>
      if is_user m then first_pair_end true (i + 1) slice
      else if seen_user then Some (i + 1) else first_pair_end seen_user (i + 1) slice
  end.
Definition first_complete_pair (slice : list WindowMessage) : option (list WindowMessage) :=
  (λ e, take e slice) <$> first_pair_end false 0 slice.

Fixpoint last_pair_end (seen_user : bool) (end_ : option nat) (i : nat) (slice : list WindowMessage) : option nat :=
  match slice with
  | [] => end_
  | m :: slice =>
      if is_user m then last_pair_end true end_ (i + 1) slice
      else last_pair_end seen_user (if seen_user then Some (i + 1) else end_) (i + 1) slice
  end.
Definition last_complete_pair (slice : list WindowMessage) : option (list WindowMessage) :=
  (λ e, take e slice) <$> last_pair_end false None 0 slice.

Definition carve_window (messages : list WindowMessage) (max_chars : nat) : WindowCarve :=
  match last_complete_pair (take (carve_end max_chars 0 0 0 messages) messages) with
  | Some carved => WindowReady carved
  | None =>
      match first_complete_pair messages with
      | Some first => Oversized (window_chars first) (default [] (wm_id <$> last first))
      | None => NoExchange
      end
  end.

(** ** The specification *)

(** It ends on a reply, and somebody asked before. *)
Definition exchange (c : list WindowMessage) : bool :=
  match last c with Some r => negb (is_user r) && existsb is_user c | None => false end.

(** ** Lemmas *)

Lemma exchange_snoc p m : exchange (p ++ [m]) = negb (is_user m) && existsb is_user p.
Proof.
  unfold exchange. rewrite last_snoc, existsb_app. simpl. destruct (is_user m); [done|]. by rewrite !orb_false_r.
Qed.

Lemma exchange_two c : exchange c = true → (2 ≤ length c)%nat.
Proof.
  destruct c as [|a [|b c]]; simpl; [done| |lia]. unfold exchange. simpl. by destruct (is_user a).
Qed.

Lemma prefix_of_snoc {A} (q p : list A) (m : A) : q `prefix_of` p ++ [m] ↔ q `prefix_of` p ∨ q = p ++ [m].
Proof.
  split.
  - intros [k Hk]. destruct k as [|x k _] using rev_ind; [right; by rewrite app_nil_r in Hk|left].
    rewrite app_assoc in Hk. apply app_inj_tail in Hk as [-> _]. by exists k.
  - intros [H| ->]; [by apply prefix_app_r|done].
Qed.

Lemma prefix_take_eq {A} (q l : list A) : q `prefix_of` l → q = take (length q) l.
Proof. intros [k ->]. by rewrite take_app_length. Qed.

Lemma prefix_take_le {A} (q l : list A) n : q `prefix_of` l → (length q ≤ n)%nat → q `prefix_of` take n l.
Proof. intros [k ->] Hn. rewrite take_app_ge by done. by eexists. Qed.

Lemma window_chars_prefix q c : q `prefix_of` c → (window_chars q ≤ window_chars c)%nat.
Proof. intros [k ->]. unfold window_chars. rewrite sum_list_with_app. lia. Qed.

Definition no_exchange (p : list WindowMessage) : Prop := ∀ q, q `prefix_of` p → exchange q = false.

Lemma no_exchange_snoc p m : no_exchange p → exchange (p ++ [m]) = false → no_exchange (p ++ [m]).
Proof. intros Hp Hm q [Hq| ->]%prefix_of_snoc; [by apply Hp|done]. Qed.

Lemma no_exchange_nil : no_exchange [].
Proof. by intros q ->%prefix_nil_inv. Qed.

Lemma app_cons_snoc {A} (p : list A) m l : p ++ m :: l = (p ++ [m]) ++ l.
Proof. by rewrite <-app_assoc. Qed.

Lemma existsb_snoc {A} (f : A → bool) p m : existsb f (p ++ [m]) = existsb f p || f m.
Proof. rewrite existsb_app. simpl. by rewrite orb_false_r. Qed.

(** The first exchange: what is walked holds none. *)
Lemma first_pair_end_spec p ms : no_exchange p →
  match first_pair_end (existsb is_user p) (length p) ms with
  | Some e => exchange (take e (p ++ ms)) = true ∧
              ∀ q, q `prefix_of` p ++ ms → exchange q = true → (e ≤ length q)%nat
  | None => no_exchange (p ++ ms)
  end.
Proof.
  revert p. induction ms as [|m ms IH]; intros p Hp; simpl; [by rewrite app_nil_r|].
  rewrite app_cons_snoc. specialize (IH (p ++ [m])). rewrite length_app, existsb_snoc in IH. simpl in IH.
  pose proof (exchange_snoc p m) as Hm. destruct (is_user m) eqn:Hu; simpl in Hm.
  - rewrite orb_true_r in IH. apply IH. by apply no_exchange_snoc.
  - rewrite orb_false_r in IH. destruct (existsb is_user p) eqn:Hs.
    + replace (length p + 1)%nat with (length (p ++ [m])) by (by rewrite length_app).
      rewrite take_app_length. split; [done|]. intros q Hq He.
      destruct (Nat.le_gt_cases (length (p ++ [m])) (length q)) as [|Hlt]; [done|]. rewrite length_app in Hlt. simpl in Hlt.
      rewrite <-app_assoc in Hq. rewrite Hp in He; [done|]. rewrite (prefix_take_eq q (p ++ [m] ++ ms)) by done.
      rewrite take_app_le by lia. apply prefix_take.
    + apply IH. by apply no_exchange_snoc.
Qed.

(** The last exchange of what is walked. *)
Definition last_exchange (p : list WindowMessage) (e : option nat) : Prop :=
  match e with
  | Some n => (n ≤ length p)%nat ∧ exchange (take n p) = true ∧
              ∀ q, q `prefix_of` p → exchange q = true → (length q ≤ n)%nat
  | None => no_exchange p
  end.

Lemma last_exchange_snoc p e m : last_exchange p e → exchange (p ++ [m]) = false → last_exchange (p ++ [m]) e.
Proof.
  destruct e as [n|]; simpl; [|apply no_exchange_snoc]. intros (Hn & He & Hmax) Hm.
  split; [rewrite length_app; lia|]. rewrite take_app_le by done. split; [done|].
  intros q [Hq| ->]%prefix_of_snoc Hx; [by apply Hmax|congruence].
Qed.

Lemma last_pair_end_spec p e ms : last_exchange p e →
  last_exchange (p ++ ms) (last_pair_end (existsb is_user p) e (length p) ms).
Proof.
  revert p e. induction ms as [|m ms IH]; intros p e He; simpl; [by rewrite app_nil_r|].
  rewrite app_cons_snoc. pose proof (IH (p ++ [m])) as IHm. rewrite length_app, existsb_snoc in IHm. simpl in IHm.
  pose proof (exchange_snoc p m) as Hm. destruct (is_user m) eqn:Hu; simpl in Hm.
  - rewrite orb_true_r in IHm. apply IHm. by apply last_exchange_snoc.
  - rewrite orb_false_r in IHm. destruct (existsb is_user p) eqn:Hs; [|apply IHm; by apply last_exchange_snoc].
    apply IHm. simpl. split; [rewrite length_app; simpl; lia|]. rewrite take_ge by (rewrite length_app; simpl; lia).
    split; [done|]. intros q Hq _. apply prefix_length in Hq. rewrite length_app in Hq. simpl in Hq. lia.
Qed.

(** The prefix within the budget, the first message taken whatever it costs. *)
Lemma carve_end_spec max_chars p ms : ((length p ≤ 1)%nat ∨ (window_chars p ≤ max_chars)%nat) →
  let e := carve_end max_chars (window_chars p) (length p) (length p) ms in
  ((e ≤ 1)%nat ∨ (window_chars (take e (p ++ ms)) ≤ max_chars)%nat) ∧
  ∀ q, q `prefix_of` p ++ ms → (window_chars q ≤ max_chars)%nat → (length q ≤ e)%nat.
Proof.
  revert p. induction ms as [|m ms IH]; intros p Hp; simpl.
  - rewrite app_nil_r, take_ge by done. split; [done|]. intros q Hq _. by apply prefix_length.
  - specialize (IH (p ++ [m])). rewrite app_cons_snoc.
    assert (window_chars (p ++ [m]) = window_chars p + length (wm_content m))%nat as Hc
      by (unfold window_chars; rewrite sum_list_with_app; simpl; lia).
    rewrite length_app in IH. simpl in IH. rewrite Hc in IH.
    destruct (Nat.ltb_spec max_chars (window_chars p + length (wm_content m))) as [Hlt|Hge]; simpl.
    + destruct (Nat.ltb_spec 0 (length p)) as [Hpos|Hz].
      * split.
        { destruct Hp as [|Hp]; [by left|right]. by rewrite <-app_assoc, take_app_length. }
        intros q Hq Hfit. destruct (Nat.le_gt_cases (length q) (length p)) as [|Hlen]; [done|exfalso].
        assert (p ++ [m] `prefix_of` q) as Hpq.
        { rewrite (prefix_take_eq q _ Hq). replace (p ++ [m]) with (take (length (p ++ [m])) ((p ++ [m]) ++ ms)) at 1
            by apply take_app_length. rewrite <-(Nat.min_l (length (p ++ [m])) (length q)), <-take_take; [apply prefix_take|].
          rewrite length_app. simpl. lia. }
        apply window_chars_prefix in Hpq. lia.
      * apply IH. lia.
    + apply IH. by right.
Qed.

(** What [carve_window] may answer. *)
Definition carve_spec (messages : list WindowMessage) (max_chars : nat) (answer : WindowCarve) : Prop :=
  match answer with
  | WindowReady c =>
      c `prefix_of` messages ∧ exchange c = true ∧ (window_chars c ≤ max_chars)%nat ∧
      ∀ q, q `prefix_of` messages → exchange q = true → (window_chars q ≤ max_chars)%nat → q `prefix_of` c
  | Oversized chars through =>
      ∃ c m, c ++ [m] `prefix_of` messages ∧ exchange (c ++ [m]) = true ∧ wm_id m = through ∧
        chars = window_chars (c ++ [m]) ∧ (max_chars < chars)%nat ∧
        ∀ q, q `prefix_of` messages → exchange q = true → c ++ [m] `prefix_of` q
  | NoExchange => ∀ q, q `prefix_of` messages → exchange q = false
  end.

Lemma carve_window_spec messages max_chars : carve_spec messages max_chars (carve_window messages max_chars).
Proof.
  pose proof (carve_end_spec max_chars [] messages ltac:(left; simpl; lia)) as [Hfit Hmax]. simpl in Hfit, Hmax.
  unfold carve_spec, carve_window. set (e := carve_end max_chars 0 0 0 messages) in *.
  pose proof (last_pair_end_spec [] None (take e messages) no_exchange_nil) as Hlast. simpl in Hlast.
  pose proof (first_pair_end_spec [] messages no_exchange_nil) as Hfirst. simpl in Hfirst.
  unfold last_complete_pair, first_complete_pair.
  destruct (last_pair_end false None 0 (take e messages)) as [n|] eqn:El; simpl.
  - destruct Hlast as (Hn & Hx & Hlong). rewrite length_take in Hn.
    rewrite take_take, Nat.min_l in Hx |- * by lia. pose proof (exchange_two _ Hx) as H2. rewrite length_take in H2.
    split; [apply prefix_take|]. split; [done|]. split.
    + destruct Hfit as [|Hfit]; [lia|]. etrans; [|exact Hfit]. apply window_chars_prefix.
      rewrite <-(Nat.min_l n e), <-take_take by lia. apply prefix_take.
    + intros q Hq Hqx Hqf. apply prefix_take_le; [done|]. apply Hlong; [|done]. apply prefix_take_le; [done|]. by apply Hmax.
  - destruct (first_pair_end false 0 messages) as [n|] eqn:Ef; simpl; [|done]. destruct Hfirst as (Hx & Hshort).
    destruct (take n messages) as [|m c _] eqn:Et using rev_ind; [done|]. exists c, m. rewrite last_snoc. simpl.
    assert (c ++ [m] `prefix_of` messages) as Hpre by (rewrite <-Et; apply prefix_take).
    split; [done|]. split; [done|]. split; [done|]. split; [done|]. split.
    + destruct (Nat.le_gt_cases (window_chars (c ++ [m])) max_chars) as [Hle|]; [|done].
      rewrite Hlast in Hx; [done|]. apply prefix_take_le; [done|]. by apply Hmax.
    + intros q Hq Hqx. specialize (Hshort q Hq Hqx). rewrite <-Et, (prefix_take_eq q messages Hq).
      rewrite <-(Nat.min_l n (length q)), <-take_take by done. apply prefix_take.
Qed.

(** ** Properties *)

(** A window is the longest stretch of what is unread that fits the budget and ends on a reply. What is
    refused as oversized is the first exchange there is, it alone overruns the budget, and the
    message it is stepped past to is the last of it; nothing is carved only where the messages
    hold no exchange. *)
Theorem carve_window_correct messages max_chars :
  match carve_window messages max_chars with
  | WindowReady c =>
      c `prefix_of` messages ∧ exchange c = true ∧ (window_chars c ≤ max_chars)%nat ∧
      ∀ q, q `prefix_of` messages → exchange q = true → (window_chars q ≤ max_chars)%nat → q `prefix_of` c
  | Oversized chars through =>
      ∃ c m, c ++ [m] `prefix_of` messages ∧ exchange (c ++ [m]) = true ∧ wm_id m = through ∧
        chars = window_chars (c ++ [m]) ∧ (max_chars < chars)%nat ∧
        ∀ q, q `prefix_of` messages → exchange q = true → c ++ [m] `prefix_of` q
  | NoExchange => ∀ q, q `prefix_of` messages → exchange q = false
  end.
Proof. apply carve_window_spec. Qed.
