(* ===== verification/Proposal.v ===== *)
(** * Proposal: what the pond suggests by itself, and what it may not suggest again

    crates/pond-core/src/user_data/domain/proposal.rs (a proposal, whom it is addressed to, its shape
    and the decisions on it) and the decisions of user_data/services/proactive_review.rs: whom a
    review is for, how the answer of its helper becomes proposals ([interpret_answer]) and what a
    member's rejections forbid ([FeedbackLedger]). Instants and durations are [Z] nanoseconds; an
    [f32] is the rational it denotes, or no number; an id drawn is an argument. Of a rule only what
    a summary shows is kept apart. The role's recipe, and the projection of a bus event, are left out. *)
From S2P Require Import Prelude Text Scope Lane Activity Delegation.
From Stdlib Require Import NArith ZArith QArith Lia.
Open Scope N_scope.

Definition PROPOSAL_DRAFT_KIND : text := lit "proposal".
Definition PROPOSAL_ORIGIN : text := lit "proactive".
(** The session a proposal's row is filed under: no conversation's. *)
Definition PROPOSAL_SESSION_ID : text := lit "giap:proactive".
Definition from_hours (h : Z) : Z := h * 3600000000000.
Definition MAX_PROPOSAL_TTL : Z := from_hours 24.
Definition MAX_PROPOSALS_PER_DAY : nat := 6.
Definition MAX_PROPOSALS_PER_RUN : nat := 3.
Definition PROPOSAL_TTL : Z := from_hours 12.
Definition MIN_PROPOSAL_CONFIDENCE : Q := 1 # 2.
Definition AUDIENCE_WINDOW : Z := from_hours 6.
Definition SUPPRESSION_WINDOW : Z := from_hours (30 * 24).
Definition REJECTIONS_THAT_SILENCE_A_TRIGGER : nat := 3.

Inductive DraftStatus : Type := Pending | Approved | Rejected | DraftExpired.
#[export] Instance draft_status_eq_dec : EqDecision DraftStatus.
Proof. solve_decision. Defined.

Inductive ProposalError : Type :=
| MissingId | MissingRationale (id : text) | MissingTriggerKind | ConfidenceOutOfRange (id : text) (requested : option Q)
| AlreadyExpired (id : text) | TtlTooLong (id : text) (hours : Z) | UnaddressableAudience (scope : text) | NotADecision.

(** ** The trigger *)

Record BusEventRef := {
  br_kind : text; br_source_id : option text; br_signal : option text; br_observed_at : Z }.

Definition blank_to_none (v : option text) : option text :=
  s ← trim <$> v; if is_empty s then None else Some s.
Definition bus_event_ref (kind : text) (source_id signal : option text) (observed_at : Z) : result BusEventRef ProposalError :=
  if is_empty (trim kind) then Err MissingTriggerKind else
  Ok {| br_kind := trim kind; br_source_id := blank_to_none source_id; br_signal := blank_to_none signal;
        br_observed_at := observed_at |}.

(** ** The audience: the profile id of one member *)

Record ProposalAudience := { pa_profile_id : text }.
Definition for_member (profile_id : text) : result ProposalAudience ProposalError :=
  let id := trim profile_id in
  if is_empty id then Err (UnaddressableAudience (lit "an empty profile id")) else Ok {| pa_profile_id := id |}.
Definition audience_scope (a : ProposalAudience) : ProfileScope := Owner (pa_profile_id a).
Definition audience_from_scope (scope : ProfileScope) : result ProposalAudience ProposalError :=
  match scope with
  | Owner id => for_member id
  | Household => Err (UnaddressableAudience (lit "the whole household"))
  | Guest => Err (UnaddressableAudience (lit "an unidentified speaker"))
  end.

(** ** The action *)

Inductive TriggerAction : Type :=
| ActionPrompt (prompt : text) | DevicePower (device_id : text) (on : bool) | Notify (title body : text).
(** [rest]: the condition, actions and cooldown of a rule. *)
Inductive TaskKind : Type :=
| AgentPrompt (prompt : text) | Webhook (webhook_url : text)
| SensorTrigger (device_id signal : option text) (rest : text) | Routine (actions : list TriggerAction).

Definition action_summary (a : TriggerAction) : text :=
  match a with
  | DevicePower device_id on => device_id ++ lit " " ++ (if on then lit "on" else lit "off")
  | Notify title _ => lit "notify " ++ [34] ++ title ++ [34]
  | ActionPrompt _ => lit "ask the assistant"
  end.
Definition routine_summary (actions : list TriggerAction) : text := join (lit ", ") (action_summary <$> actions).

(** ** The proposal *)

Record Proposal := {
  pp_id : text; pp_trigger : BusEventRef; pp_rationale : text; pp_action : TaskKind; pp_audience : ProposalAudience;
  pp_confidence : option Q; pp_created_at : Z; pp_expires_at : Z }.
Record ProposalPayload := { py_trigger : BusEventRef; py_action : TaskKind; py_confidence : option Q }.
Definition payload_of (p : Proposal) : ProposalPayload :=
  {| py_trigger := pp_trigger p; py_action := pp_action p; py_confidence := pp_confidence p |}.

(** [is_finite() && (0.0..=1.0).contains(..)]. *)
Definition confidence_in_range (c : option Q) : bool :=
  match c with Some q => Qle_bool 0 q && Qle_bool q 1 | None => false end.

Definition from_parts (id : text) (trigger : BusEventRef) (rationale : text) (action : TaskKind)
    (audience : ProposalAudience) (confidence : option Q) (created_at expires_at : Z) : result Proposal ProposalError :=
  if is_empty (trim id) then Err MissingId
  else if is_empty (trim rationale) then Err (MissingRationale id)
  else if negb (confidence_in_range confidence) then Err (ConfidenceOutOfRange id confidence)
  else if (expires_at <=? created_at)%Z then Err (AlreadyExpired id)
  else if (MAX_PROPOSAL_TTL <? expires_at - created_at)%Z then Err (TtlTooLong id 24)
  else Ok {| pp_id := trim id; pp_trigger := trigger; pp_rationale := trim rationale; pp_action := action;
             pp_audience := audience; pp_confidence := confidence; pp_created_at := created_at; pp_expires_at := expires_at |}.
Definition expiring_after (id : text) (trigger : BusEventRef) (rationale : text) (action : TaskKind)
    (audience : ProposalAudience) (confidence : option Q) (created_at ttl : Z) : result Proposal ProposalError :=
  from_parts id trigger rationale action audience confidence created_at (created_at + ttl)%Z.
Definition is_live_at (p : Proposal) (now : Z) : bool := (now <? pp_expires_at p)%Z.

Definition summary_cut (s : text) (max_chars : nat) : text :=
  let trimmed := trim s in
  if (length trimmed <=? max_chars)%nat then trimmed else take (max_chars - 3) trimmed ++ lit "...".
Definition proposal_summary (p : Proposal) : text :=
  match pp_action p with
  | AgentPrompt prompt => summary_cut prompt 120
  | Webhook url => lit "POST to " ++ summary_cut url 100
  | SensorTrigger device_id signal _ =>
      lit "watch " ++ default (lit "any device") device_id ++ lit " for " ++ default (lit "any signal") signal
  | Routine actions => summary_cut (routine_summary actions) 120
  end.

(** ** Its shape, and the decisions on it *)

Record TriggerIdentity := { ti_kind : text; ti_source_id : option text; ti_signal : option text }.
#[export] Instance trigger_identity_eq_dec : EqDecision TriggerIdentity.
Proof. solve_decision. Defined.
#[export] Instance trigger_identity_countable : Countable TriggerIdentity.
Proof.
  refine (inj_countable' (λ t, (ti_kind t, ti_source_id t, ti_signal t))
    (λ p, {| ti_kind := p.1.1; ti_source_id := p.1.2; ti_signal := p.2 |}) _). by intros [].
Defined.

Record ProposalShape := { ps_trigger : TriggerIdentity; ps_action : text }.
#[export] Instance proposal_shape_eq_dec : EqDecision ProposalShape.
Proof. solve_decision. Defined.
#[export] Instance proposal_shape_countable : Countable ProposalShape.
Proof.
  refine (inj_countable' (λ s, (ps_trigger s, ps_action s)) (λ p, {| ps_trigger := p.1; ps_action := p.2 |}) _). by intros [].
Defined.

Record ProposalDecision := { pd_shape : ProposalShape; pd_status : DraftStatus; pd_decided_at : Z }.
Definition recorded (shape : ProposalShape) (status : DraftStatus) (decided_at : Z) : result ProposalDecision ProposalError :=
  if decide (status = Pending) then Err NotADecision else
  Ok {| pd_shape := shape; pd_status := status; pd_decided_at := decided_at |}.
Definition silences_a_repeat (d : ProposalDecision) : bool := match pd_status d with Rejected => true | _ => false end.

Definition describe (t : TriggerIdentity) : text :=
  match ti_source_id t, ti_signal t with
  | Some source, Some signal => ti_kind t ++ lit " events from " ++ source ++ lit " (" ++ signal ++ lit ")"
  | Some source, None => ti_kind t ++ lit " events from " ++ source
  | None, Some signal => ti_kind t ++ lit " events of type " ++ signal
  | None, None => ti_kind t ++ lit " events"
  end.
Definition memory_fact (d : ProposalDecision) : option text :=
  let told verb := Some (lit "The user " ++ verb ++ lit " a proactive suggestion about " ++
    describe (ps_trigger (pd_shape d)) ++ lit ": " ++ ps_action (pd_shape d) ++ lit ".") in
  match pd_status d with
  | Approved => told (lit "approved") | Rejected => told (lit "rejected") | DraftExpired | Pending => None
  end.

(** ** The ledger of rejections *)

(** The derived orders, [None] first: a [BTreeMap] or [BTreeSet] is walked in the order of its keys. *)
Definition option_compare (a b : option text) : comparison :=
  match a, b with
  | Some a, Some b => text_compare a b
  | None, None => Eq | None, Some _ => Lt | Some _, None => Gt
  end.
Definition identity_compare (a b : TriggerIdentity) : comparison :=
  then_with (text_compare (ti_kind a) (ti_kind b))
    (then_with (option_compare (ti_source_id a) (ti_source_id b)) (option_compare (ti_signal a) (ti_signal b))).
Definition shape_compare (a b : ProposalShape) : comparison :=
  then_with (identity_compare (ps_trigger a) (ps_trigger b)) (text_compare (ps_action a) (ps_action b)).

Inductive Suppression : Type := AlreadyRejected | TriggerSilenced (rejections : nat).

Record FeedbackLedger := { fl_rejected : gset ProposalShape; fl_silenced : gmap TriggerIdentity nat }.
Definition empty_ledger : FeedbackLedger := {| fl_rejected := ∅; fl_silenced := ∅ |}.

Definition rejected_in (decisions : list ProposalDecision) (now : Z) : gset ProposalShape :=
  foldl (λ rejected d,
    if negb (silences_a_repeat d) then rejected
    else if (SUPPRESSION_WINDOW <? now - pd_decided_at d)%Z then rejected
    else {[ pd_shape d ]} ∪ rejected) ∅ decisions.
(** [*entry(..).or_insert(0) += 1], and what is kept of it. *)
Definition count_triggers (shapes : list ProposalShape) : gmap TriggerIdentity nat :=
  foldr (λ s m, <[ps_trigger s := S (default O (m !! ps_trigger s))]> m) ∅ shapes.
Definition from_decisions (decisions : list ProposalDecision) (now : Z) : FeedbackLedger :=
  let rejected := rejected_in decisions now in
  {| fl_rejected := rejected;
     fl_silenced := filter (λ p, (REJECTIONS_THAT_SILENCE_A_TRIGGER ≤ p.2)%nat) (count_triggers (elements rejected)) |}.
Definition suppression_of (l : FeedbackLedger) (shape : ProposalShape) : option Suppression :=
  if decide (shape ∈ fl_rejected l) then Some AlreadyRejected
  else TriggerSilenced <$> fl_silenced l !! ps_trigger shape.

Definition declined_descriptions (l : FeedbackLedger) : list text :=
  (λ s, describe (ps_trigger s) ++ lit ": " ++ ps_action s) <$>
    sort_with (not_greater shape_compare) (elements (fl_rejected l)).

(** ** When and for whom *)

Inductive ReviewSkip : Type :=
| OrchestratorDisabled | ScheduleSkip (reason : SkipReason) | RunInFlight | DailyCapReached (made cap : nat).
Inductive ReviewDecision : Type := ReviewRun | ReviewSkipped (why : ReviewSkip).
Record ReviewInputs := {
  rv_schedule : GateInputs; rv_orchestrator_enabled : bool; rv_proposals_today : nat; rv_run_in_flight : bool }.

Definition reviewer_refusal (run_in_flight : bool) (proposals_today : nat) : option ReviewSkip :=
  if run_in_flight then Some RunInFlight
  else if (MAX_PROPOSALS_PER_DAY <=? proposals_today)%nat then Some (DailyCapReached proposals_today MAX_PROPOSALS_PER_DAY)
  else None.
Definition should_review (i : ReviewInputs) : ReviewDecision :=
  if negb (rv_orchestrator_enabled i) then ReviewSkipped OrchestratorDisabled else
  match should_run (rv_schedule i) with
  | GateSkip reason => ReviewSkipped (ScheduleSkip reason)
  | GateRun =>
      match reviewer_refusal (rv_run_in_flight i) (rv_proposals_today i) with
      | Some skip => ReviewSkipped skip
      | None => ReviewRun
      end
  end.

(** A review in flight is cancelled by what [should_run] calls activity. *)
Definition cancelled_by_activity (run_started_at in_process_activity run_started_at_utc : Z) (db_activity : option Z) : bool :=
  saw_activity_since_start run_started_at in_process_activity run_started_at_utc db_activity.

Definition PROACTIVE_REVIEWER_ROLE : text := lit "proactive-reviewer".
Definition PROACTIVE_ROOT_GROUPS : list text :=
  [lit "giap-memory"; lit "giap-device"; lit "giap-sensors"; lit "giap-weather"; lit "giap-knowledge"].
Definition REVIEW_SESSION_PREFIX : text := lit "sched-proactive-review-".
Definition review_session_id (run_id : text) : text := REVIEW_SESSION_PREFIX ++ trim run_id.
Definition review_authority (audience : ProposalAudience) (session_id : text) : DelegationAuthority :=
  authority_root session_id (audience_scope audience) (list_to_set PROACTIVE_ROOT_GROUPS).
Definition plan_review (uuid : text) (role : AgentRole) (audience : ProposalAudience) (session_id brief : text)
    (inputs : HandBack.Json) : result TaskSpec DelegationRefused :=
  delegate uuid (review_authority audience session_id) role
    {| rq_role := role_name role; rq_instructions := brief; rq_inputs := inputs; rq_background := false |}.

Definition sole_member (members : list text) : option text := match members with [only] => Some only | _ => None end.

(** [max_by_key]: of the latest, the last. *)
Definition latest_by {A} (key : A → Z) (l : list A) : option A :=
  foldl (λ best a, match best with Some b => if (key b <=? key a)%Z then Some a else Some b | None => Some a end) None l.

Definition audience_for_review (sessions : list Session) (now : Z) (members : list text) : option ProposalAudience :=
  let cutoff := (now - AUDIENCE_WINDOW)%Z in
  let here := List.filter (λ s, is_human (origin_of (se_id s)) && (cutoff <? se_updated_at s)%Z) sessions in
  let attributed := snd <$> latest_by fst (omap (λ s, p ← se_profile_id s; Some (se_updated_at s, p)) here) in
  profile_id ← match attributed with
               | Some id => Some id
               | None => if is_empty here then None else sole_member members
               end;
  match for_member profile_id with Ok a => Some a | Err _ => None end.

(** ** What the helper said *)

(** The first balanced brackets outside the strings of JSON: [i] characters walked. *)
Fixpoint json_array_loop (start : option nat) (depth : nat) (in_string escaped : bool) (i : nat) (t : text) : option (nat * nat) :=
  match t with
  | [] => None
  | c :: t =>
      if in_string then
        if escaped then json_array_loop start depth true false (S i) t
        else if c =? 92 then json_array_loop start depth true true (S i) t
        else if c =? 34 then json_array_loop start depth false false (S i) t
        else json_array_loop start depth true false (S i) t
      else if c =? 34 then json_array_loop start depth true escaped (S i) t
      else if c =? 91 then
        json_array_loop (if (depth =? 0)%nat then Some i else start) (S depth) false escaped (S i) t
      else if c =? 93 then
        let depth := pred depth in
        match start with
        | Some from => if (depth =? 0)%nat then Some (from, i) else json_array_loop start depth false escaped (S i) t
        | None => json_array_loop start depth false escaped (S i) t
        end
      else json_array_loop start depth false escaped (S i) t
  end.
Definition first_json_array (t : text) : option text :=
  (λ p, take (S (p.2 - p.1)) (drop p.1 t)) <$> json_array_loop None 0 false false 0 t.

Record ReviewerImpulse := {
  im_trigger_kind : text; im_source_id : option text; im_signal : option text; im_rationale : text;
  im_suggestion : text; im_confidence : option Q }.
Definition impulse_action (suggestion : text) : TaskKind := AgentPrompt (trim suggestion).

Inductive ImpulseRefused : Type :=
| NoAnswer | NotAJsonArray | Unreadable (index : nat) (message : text) | LowConfidence (index : nat) (confidence : option Q)
| Invalid (index : nat) (error : ProposalError) | Suppressed (index : nat) (suppression : Suppression)
| RepeatedInThisRun (index : nat) | OverCap (index allowance : nat).

Record ReviewYield := { ry_proposals : list Proposal; ry_refusals : list ImpulseRefused }.
Definition yield_refused (r : ImpulseRefused) : ReviewYield := {| ry_proposals := []; ry_refusals := [r] |}.

(** [is_finite() && >= MIN_PROPOSAL_CONFIDENCE]. *)
Definition confident (c : option Q) : bool := match c with Some q => Qle_bool MIN_PROPOSAL_CONFIDENCE q | None => false end.

Definition build_proposal (uuid : text) (i : ReviewerImpulse) (audience : ProposalAudience) (now : Z) : result Proposal ProposalError :=
  let? trigger := bus_event_ref (im_trigger_kind i) (im_source_id i) (im_signal i) now in
  expiring_after uuid trigger (im_rationale i) (impulse_action (im_suggestion i)) audience (im_confidence i) now PROPOSAL_TTL.

Section words.
(** [char::is_alphanumeric] and [str::to_lowercase], which are Unicode's. *)
Context (is_alphanumeric : N → bool) (to_lowercase : text → text).

Definition comparison_key (raw : text) : text :=
  let stripped c := negb (is_alphanumeric c) in
  join (lit " ") (to_lowercase <$> List.filter (λ w, negb (is_empty w))
    ((λ w, trim_end_matches stripped (drop_while stripped w)) <$> split_whitespace raw)).
Definition identity_of (t : BusEventRef) : TriggerIdentity :=
  let key v := s ← comparison_key <$> v; if is_empty s then None else Some s in
  {| ti_kind := comparison_key (br_kind t); ti_source_id := key (br_source_id t); ti_signal := key (br_signal t) |}.
Definition shape_of (p : Proposal) : ProposalShape :=
  {| ps_trigger := identity_of (pp_trigger p); ps_action := comparison_key (proposal_summary p) |}.

(** The events a review for a member may be told of: the newest of each trigger, nobody else's presence. *)
Definition MAX_BRIEF_EVENTS : nat := 24.
Definition keep_newest (audience : ProposalAudience) (newest : gmap TriggerIdentity BusEventRef) (event : BusEventRef) :
    gmap TriggerIdentity BusEventRef :=
  if bool_decide (br_kind event = lit "presence") && negb (bool_decide (br_source_id event = Some (pa_profile_id audience)))
  then newest else
  match newest !! identity_of event with
  | Some kept => if (br_observed_at event <=? br_observed_at kept)%Z then newest else <[identity_of event := event]> newest
  | None => <[identity_of event := event]> newest
  end.
Definition newest_of (audience : ProposalAudience) (observed : list BusEventRef) : gmap TriggerIdentity BusEventRef :=
  foldl (keep_newest audience) ∅ observed.
Definition brief_events (audience : ProposalAudience) (observed : list BusEventRef) : list BusEventRef :=
  let events := snd <$> sort_with (λ a b, not_greater identity_compare a.1 b.1) (map_to_list (newest_of audience observed)) in
  take MAX_BRIEF_EVENTS (sort_with (λ a b, (br_observed_at b <=? br_observed_at a)%Z) events).

(** [to_rfc3339] of [chrono]. *)
Context (to_rfc3339 : Z → text).
Definition newline : text := [10].
Definition review_brief (now : Z) (recent : list BusEventRef) (ledger : FeedbackLedger) : text :=
  lit "The current time is " ++ to_rfc3339 now ++
  lit " (UTC). Review what has happened and answer with the JSON array." ++ newline ++
  (if is_empty recent then newline ++ lit "Nothing has been observed since the last review." ++ newline
   else newline ++ lit "Recent events:" ++ newline ++
     concat ((λ e, lit "- " ++ describe (identity_of e) ++ lit " at " ++ to_rfc3339 (br_observed_at e) ++ newline) <$> recent)) ++
  (let declined := declined_descriptions ledger in
   if is_empty declined then [] else
   newline ++ lit "Already declined, do not suggest again:" ++ newline ++
     concat ((λ line, lit "- " ++ line ++ newline) <$> declined)).

(** The values of a JSON array, and one of them read as an impulse ([serde_json]). *)
Context {Value : Type} (elements_of : text → option (list Value)) (impulse_of : Value → result ReviewerImpulse text).
(** The id drawn for the element at an index. *)
Context (uuid : nat → text) (audience : ProposalAudience) (now : Z) (ledger : FeedbackLedger).

(** The loop over the elements, [index] of them read. *)
Fixpoint interpret_loop (allowance index : nat) (seen : gset ProposalShape) (elements : list Value) (y : ReviewYield) : ReviewYield :=
  match elements with
  | [] => y
  | element :: elements =>
      let refuse r := interpret_loop allowance (S index) seen elements
        {| ry_proposals := ry_proposals y; ry_refusals := ry_refusals y ++ [r] |} in
      if (allowance <=? length (ry_proposals y))%nat then refuse (OverCap index allowance) else
      match impulse_of element with
      | Err e => refuse (Unreadable index e)
      | Ok impulse =>
          if negb (confident (im_confidence impulse)) then refuse (LowConfidence index (im_confidence impulse)) else
          match build_proposal (uuid index) impulse audience now with
          | Err e => refuse (Invalid index e)
          | Ok proposal =>
              let shape := shape_of proposal in
              match suppression_of ledger shape with
              | Some s => refuse (Suppressed index s)
              | None =>
                  if decide (shape ∈ seen) then refuse (RepeatedInThisRun index) else
                  interpret_loop allowance (S index) ({[ shape ]} ∪ seen) elements
                    {| ry_proposals := ry_proposals y ++ [proposal]; ry_refusals := ry_refusals y |}
              end
          end
      end
  end.

Definition allowance (proposals_today : nat) : nat := Nat.min MAX_PROPOSALS_PER_RUN (MAX_PROPOSALS_PER_DAY - proposals_today).
Definition interpret_answer (run : TaskRun) (proposals_today : nat) : ReviewYield :=
  match result_for_parent run with
  | None => yield_refused NoAnswer
  | Some answer =>
      match first_json_array answer with
      | None => yield_refused NotAJsonArray
      | Some array =>
          match elements_of array with
          | None => yield_refused NotAJsonArray
          | Some elements =>
              interpret_loop (allowance proposals_today) O ∅ elements {| ry_proposals := []; ry_refusals := [] |}
          end
      end
  end.
End words.

(** ** Lemmas: the ledger *)

(** A rejection that still counts. *)
Definition recent_rejection (decisions : list ProposalDecision) (now : Z) (s : ProposalShape) : Prop :=
  ∃ d, d ∈ decisions ∧ pd_status d = Rejected ∧ (now - pd_decided_at d ≤ SUPPRESSION_WINDOW)%Z ∧ pd_shape d = s.

Lemma rejected_in_spec decisions now s : s ∈ rejected_in decisions now ↔ recent_rejection decisions now s.
Proof.
  unfold rejected_in, recent_rejection. induction decisions as [|d l IH] using rev_ind.
  { simpl. split; [by intros ?%not_elem_of_empty|]. intros (d & ?%not_elem_of_nil & _). done. }
  rewrite foldl_app. simpl.
  assert ((∃ d0, d0 ∈ l ++ [d] ∧ pd_status d0 = Rejected ∧ (now - pd_decided_at d0 ≤ SUPPRESSION_WINDOW)%Z ∧ pd_shape d0 = s) ↔
    recent_rejection l now s ∨ (pd_status d = Rejected ∧ (now - pd_decided_at d ≤ SUPPRESSION_WINDOW)%Z ∧ pd_shape d = s)) as ->.
  { split.
    - intros (d0 & [Hin| ->%elem_of_one]%elem_of_app & H); [left; by exists d0|by right].
    - intros [(d0 & Hin & H)|H]; [exists d0|exists d]; (split; [apply elem_of_app; rewrite ?elem_of_one; auto|done]). }
  fold (recent_rejection l now s) in IH. unfold silences_a_repeat. destruct (pd_status d); simpl; rewrite ?IH.
  - naive_solver.
  - naive_solver.
  - destruct (Z.ltb_spec SUPPRESSION_WINDOW (now - pd_decided_at d)).
    + rewrite IH. split; [by left|]. intros [?|(_ & ? & _)]; [done|lia].
    + rewrite elem_of_union, elem_of_singleton, IH. naive_solver.
  - naive_solver.
Qed.

Lemma count_triggers_spec t shapes :
  default O (count_triggers shapes !! t) = length (List.filter (λ s, bool_decide (ps_trigger s = t)) shapes).
Proof.
  induction shapes as [|s l IH]; simpl; [by rewrite lookup_empty|].
  case_bool_decide as E.
  - subst t. rewrite lookup_insert_eq. simpl. by rewrite IH.
  - by rewrite lookup_insert_ne.
Qed.

(** What the ledger lets through was not rejected lately, nor was its trigger silenced. *)
Lemma unsuppressed decisions now shape : suppression_of (from_decisions decisions now) shape = None →
  ¬ recent_rejection decisions now shape ∧
  ∀ X : gset ProposalShape, (∀ s, s ∈ X → ps_trigger s = ps_trigger shape ∧ recent_rejection decisions now s) →
    (size X < REJECTIONS_THAT_SILENCE_A_TRIGGER)%nat.
Proof.
  unfold suppression_of. destruct (decide _) as [|Hno]; [done|]. cbn [fl_rejected from_decisions] in Hno.
  rewrite rejected_in_spec in Hno. intros H. split; [done|]. intros X HX.
  apply fmap_None in H. cbn [fl_silenced from_decisions] in H. set (shapes := elements (rejected_in decisions now)) in *.
  assert (size X ≤ length (List.filter (λ s, bool_decide (ps_trigger s = ps_trigger shape)) shapes))%nat as Hle.
  { unfold size, set_size. simpl. apply submseteq_length, NoDup_submseteq; [apply NoDup_elements|].
    intros s Hs. apply elem_of_elements, HX in Hs as [Ht Hr]. apply elem_of_filter_bool. split; [|by apply bool_decide_eq_true].
    unfold shapes. by rewrite elem_of_elements, rejected_in_spec. }
  rewrite <-count_triggers_spec in Hle. rewrite map_lookup_filter_None in H. destruct H as [H|H].
  - rewrite H in Hle. simpl in Hle. unfold REJECTIONS_THAT_SILENCE_A_TRIGGER. lia.
  - destruct (count_triggers shapes !! ps_trigger shape) as [n|]; [|simpl in Hle; unfold REJECTIONS_THAT_SILENCE_A_TRIGGER; lia].
    simpl in Hle. specialize (H n eq_refl). simpl in H. lia.
Qed.

(** ** Lemmas: a proposal built *)

Lemma from_parts_ok id trigger rationale action audience confidence created expires p :
  from_parts id trigger rationale action audience confidence created expires = Ok p ↔
  trim id ≠ [] ∧ trim rationale ≠ [] ∧ confidence_in_range confidence = true ∧
  (created < expires)%Z ∧ (expires - created ≤ MAX_PROPOSAL_TTL)%Z ∧
  p = {| pp_id := trim id; pp_trigger := trigger; pp_rationale := trim rationale; pp_action := action;
         pp_audience := audience; pp_confidence := confidence; pp_created_at := created; pp_expires_at := expires |}.
Proof.
  unfold from_parts. destruct (is_empty (trim id)) eqn:E1; [apply is_empty_true in E1; naive_solver|].
  destruct (is_empty (trim rationale)) eqn:E2; [apply is_empty_true in E2; naive_solver|].
  apply is_empty_false in E1, E2. destruct (confidence_in_range confidence); [|naive_solver]. simpl.
  destruct (Z.leb_spec expires created); [split; [done|]; intros (_ & _ & _ & ? & _); lia|].
  destruct (Z.ltb_spec MAX_PROPOSAL_TTL (expires - created)); [split; [done|]; intros (_ & _ & _ & _ & ? & _); lia|].
  split; [intros [= <-]; naive_solver|]. by intros (_ & _ & _ & _ & _ & ->).
Qed.

(** What a proposal of a review is, whatever the helper wrote. *)
Record of_review (audience : ProposalAudience) (now : Z) (p : Proposal) : Prop := {
  or_audience : pp_audience p = audience;
  or_prompt : ∃ prompt, pp_action p = AgentPrompt prompt;
  or_times : pp_created_at p = now ∧ pp_expires_at p = (now + PROPOSAL_TTL)%Z ∧ br_observed_at (pp_trigger p) = now;
  or_trigger : br_kind (pp_trigger p) ≠ [];
  or_rationale : pp_rationale p ≠ [];
  or_confidence : ∃ q, pp_confidence p = Some q ∧ (MIN_PROPOSAL_CONFIDENCE <= q <= 1)%Q }.

Lemma build_proposal_ok uuid i audience now p : confident (im_confidence i) = true →
  build_proposal uuid i audience now = Ok p → of_review audience now p.
Proof.
  unfold build_proposal, bus_event_ref, expiring_after. intros Hc.
  destruct (is_empty (trim (im_trigger_kind i))) eqn:Ek; [done|]. apply is_empty_false in Ek. simpl.
  intros (_ & Hr & Hrange & _ & _ & ->)%from_parts_ok. split; simpl; try done; [by eexists|].
  unfold confident in Hc. unfold confidence_in_range in Hrange. destruct (im_confidence i) as [q|]; [|done].
  exists q. split; [done|]. apply andb_prop in Hrange as [_ H1]. apply Qle_bool_iff in H1, Hc. done.
Qed.

(** ** Lemmas: the loop *)

Section loop.
Context (is_alphanumeric : N → bool) (to_lowercase : text → text).
Context {Value : Type} (impulse_of : Value → result ReviewerImpulse text).
Context (uuid : nat → text) (audience : ProposalAudience) (now : Z) (ledger : FeedbackLedger).
Notation shape_of := (shape_of is_alphanumeric to_lowercase).

(** What holds of the yield after each element. *)
Record good_yield (allowance index : nat) (seen : gset ProposalShape) (y : ReviewYield) : Prop := {
  gy_cap : (length (ry_proposals y) ≤ allowance)%nat;
  gy_each : ∀ p, p ∈ ry_proposals y → of_review audience now p ∧ suppression_of ledger (shape_of p) = None;
  gy_seen : ∀ p, p ∈ ry_proposals y → shape_of p ∈ seen;
  gy_distinct : NoDup (shape_of <$> ry_proposals y);
  gy_count : (length (ry_proposals y) + length (ry_refusals y) = index)%nat }.

Lemma refusal_good allowance index seen y r : good_yield allowance index seen y →
  good_yield allowance (S index) seen {| ry_proposals := ry_proposals y; ry_refusals := ry_refusals y ++ [r] |}.
Proof. intros [H1 H2 H3 H4 H5]. split; simpl; try done. rewrite length_app. simpl. lia. Qed.

Lemma interpret_loop_good allowance index seen elements y : good_yield allowance index seen y →
  ∃ seen', good_yield allowance (index + length elements) seen'
    (interpret_loop is_alphanumeric to_lowercase impulse_of uuid audience now ledger allowance index seen elements y).
Proof.
  revert index seen y. induction elements as [|e elements IH]; intros index seen y Hy; simpl.
  { exists seen. by rewrite Nat.add_0_r. }
  rewrite Nat.add_succ_r, <-Nat.add_succ_l.
  pose proof (λ r, IH (S index) seen _ (refusal_good allowance index seen y r Hy)) as Hrefuse.
  destruct (Nat.leb_spec allowance (length (ry_proposals y))) as [|Hlt]; [apply Hrefuse|].
  destruct (impulse_of e) as [impulse|]; [|apply Hrefuse]. destruct (confident (im_confidence impulse)) eqn:Hc; [|apply Hrefuse]. simpl.
  destruct (build_proposal (uuid index) impulse audience now) as [p|] eqn:Hb; [|apply Hrefuse].
  destruct (suppression_of ledger (shape_of p)) eqn:Hs; [apply Hrefuse|].
  destruct (decide (shape_of p ∈ seen)) as [|Hns]; [apply Hrefuse|]. apply (IH (S index)).
  apply build_proposal_ok in Hb; [|done]. destruct Hy as [H1 H2 H3 H4 H5]. split; simpl.
  - rewrite length_app. simpl. lia.
  - intros q [Hq| ->%elem_of_one]%elem_of_app; [by apply H2|done].
  - intros q [Hq| ->%elem_of_one]%elem_of_app; [apply elem_of_union_r; by apply H3|by apply elem_of_union_l, elem_of_singleton].
  - rewrite fmap_app. apply NoDup_app. split; [done|]. split; [|apply NoDup_singleton].
    intros s Hin ->%elem_of_one. apply list_elem_of_fmap in Hin as (q & Hq & Hin). apply Hns. rewrite Hq. by apply H3.
  - rewrite length_app. simpl. lia.
Qed.
End loop.

Lemma interpret_answer_good is_alphanumeric to_lowercase {Value} (elements_of : text → option (list Value)) impulse_of
    uuid audience now ledger run today :
  let y := interpret_answer is_alphanumeric to_lowercase elements_of impulse_of uuid audience now ledger run today in
  (length (ry_proposals y) ≤ allowance today)%nat ∧
  (∀ p, p ∈ ry_proposals y → of_review audience now p ∧ suppression_of ledger (shape_of is_alphanumeric to_lowercase p) = None) ∧
  NoDup (shape_of is_alphanumeric to_lowercase <$> ry_proposals y) ∧
  (tr_status run ≠ TaskStatus.Completed → ry_proposals y = []) ∧
  (∀ answer array elements, result_for_parent run = Some answer → first_json_array answer = Some array →
     elements_of array = Some elements → (length (ry_proposals y) + length (ry_refusals y) = length elements)%nat).
Proof.
  intros y. unfold y, interpret_answer.
  assert (∀ r, let y := yield_refused r in (length (ry_proposals y) ≤ allowance today)%nat ∧
    (∀ p, p ∈ ry_proposals y → of_review audience now p ∧ suppression_of ledger (shape_of is_alphanumeric to_lowercase p) = None) ∧
    NoDup (shape_of is_alphanumeric to_lowercase <$> ry_proposals y) ∧ (tr_status run ≠ TaskStatus.Completed → ry_proposals y = [])) as Hnone.
  { intros r. split; [simpl; lia|]. split; [by intros p []%not_elem_of_nil|]. split; [constructor|done]. }
  destruct (result_for_parent run) as [answer|] eqn:Er.
  2:{ destruct (Hnone NoAnswer) as (H1 & H2 & H3 & H4). done. }
  assert (tr_status run = TaskStatus.Completed) as Hst by (unfold result_for_parent in Er; by destruct (tr_status run)).
  destruct (first_json_array answer) as [array|] eqn:Ea.
  2:{ destruct (Hnone NotAJsonArray) as (H1 & H2 & H3 & H4). do 4 (split; [done|]). intros a b c [= <-]. by rewrite Ea. }
  destruct (elements_of array) as [elements|] eqn:Ee.
  2:{ destruct (Hnone NotAJsonArray) as (H1 & H2 & H3 & H4). do 4 (split; [done|]).
      intros a b c [= <-]. rewrite Ea. intros [= <-]. by rewrite Ee. }
  destruct (interpret_loop_good is_alphanumeric to_lowercase impulse_of uuid audience now ledger
    (allowance today) 0 ∅ elements {| ry_proposals := []; ry_refusals := [] |}) as [seen [H1 H2 H3 H4 H5]].
  { split; simpl; [lia|by intros p []%not_elem_of_nil|by intros p []%not_elem_of_nil|constructor|done]. }
  do 3 (split; [done|]). split; [done|]. intros a b c [= <-]. rewrite Ea. intros [= <-]. rewrite Ee. by intros [= <-].
Qed.

(** ** Properties *)

(** Whatever the helper answers, what a review proposes keeps to its bounds. Each proposal is addressed
    to the member reviewed for, asks and does nothing itself, names its trigger and says why, is at
    least half sure, and lives twelve hours from now; none is of a shape the member rejected in the
    last thirty days, nor of a trigger of which three suggestions were; no two have one shape; there
    are at most three, and with those made today six; a run that did not complete proposes
    nothing; and every element of the answer is a proposal or has a refusal. *)
Theorem proposals_keep_their_bounds is_alphanumeric to_lowercase {Value} (elements_of : text → option (list Value))
    impulse_of uuid audience now decisions run today :
  let y := interpret_answer is_alphanumeric to_lowercase elements_of impulse_of uuid audience now
             (from_decisions decisions now) run today in
  (length (ry_proposals y) ≤ MAX_PROPOSALS_PER_RUN)%nat ∧
  (length (ry_proposals y) + today ≤ Nat.max MAX_PROPOSALS_PER_DAY today)%nat ∧
  (∀ p, p ∈ ry_proposals y → of_review audience now p ∧
     let shape := shape_of is_alphanumeric to_lowercase p in
     ¬ recent_rejection decisions now shape ∧
     ∀ X : gset ProposalShape, (∀ s, s ∈ X → ps_trigger s = ps_trigger shape ∧ recent_rejection decisions now s) →
       (size X < REJECTIONS_THAT_SILENCE_A_TRIGGER)%nat) ∧
  NoDup (shape_of is_alphanumeric to_lowercase <$> ry_proposals y) ∧
  (tr_status run ≠ TaskStatus.Completed → ry_proposals y = []) ∧
  (∀ answer array elements, result_for_parent run = Some answer → first_json_array answer = Some array →
     elements_of array = Some elements → (length (ry_proposals y) + length (ry_refusals y) = length elements)%nat).
Proof.
  intros y. destruct (interpret_answer_good is_alphanumeric to_lowercase elements_of impulse_of uuid audience now
    (from_decisions decisions now) run today) as (H1 & H2 & H3 & H4 & H5). fold y in H1, H2, H3, H4, H5.
  unfold allowance, MAX_PROPOSALS_PER_RUN, MAX_PROPOSALS_PER_DAY in *. split; [lia|]. split; [lia|]. split; [|by split].
  intros p Hp. destruct (H2 p Hp) as [Ho Hs]. split; [done|]. by apply unsuppressed.
Qed.
