(* ===== verification/Extraction.v ===== *)
(** * Extraction: the walk that reads conversations for what is worth remembering

    crates/pond-core/src/user_data/services/memory_extraction.rs, with the port
    user_data/ports/conversation_extractor.rs: a pass over the stored conversations ([run_pass]), one
    window of one conversation ([examine_session]), whose conversation it is
    ([resolve_window_subject]) and the cursor it leaves ([Conversation]). A pass is a program: the
    sessions' store, the extractor, the memories ([KnownMemories], [GetEvents], [LogEvent]), the
    clocks and the token are calls. What becomes of a window's candidates, the write gate
    [dispose_candidates], is a call too: it writes no session. The thresholds, numbers in floats,
    and the health of the embedder are left out, and so are the words of the log. *)
From S2P Require Import Prelude Prog Proposal Text Scope Activity Runner Conversation Summary Window.
From Stdlib Require Import NArith ZArith Lia.
Open Scope N_scope.

Definition EXTRACTION_WINDOW_CHARS : nat := 6000.
Definition MIN_NEW_MESSAGES : N := 2.
Definition MAX_PARSE_ATTEMPTS : N := 3.
Definition EXTRACTION_PASS_MAX_SECS : N := 300.
Definition REMINDER_MAX_AGE_DAYS : Z := 7.

Inductive ExtractionMode : Type := ModeShadow | ModeWrite | ModeReinforce.
Definition mode_as_str (m : ExtractionMode) : text :=
  match m with ModeShadow => lit "shadow" | ModeWrite => lit "write" | ModeReinforce => lit "reinforce" end.
(** No character beyond ASCII has one of these letters for its lower case. *)
Definition mode_parse (raw : text) : ExtractionMode :=
  let raw := lowercase (trim raw) in
  if bool_decide (raw = lit "write") then ModeWrite
  else if bool_decide (raw = lit "reinforce") then ModeReinforce else ModeShadow.
Definition writes (m : ExtractionMode) : bool := match m with ModeShadow => false | _ => true end.

(** ** Whose conversation it is *)

Record WindowSubject := { ws_name : text; ws_gate_aliases : list text; ws_profile_id : option text }.
Definition anonymous : WindowSubject := {| ws_name := lit "the user"; ws_gate_aliases := []; ws_profile_id := None |}.
Definition named_subject (name : text) : WindowSubject :=
  {| ws_name := name; ws_gate_aliases := [name]; ws_profile_id := None |}.
Definition member_subject (profile_id display_name : text) : WindowSubject :=
  {| ws_name := display_name; ws_gate_aliases := [display_name]; ws_profile_id := Some profile_id |}.
Definition subject_scope (s : WindowSubject) : ProfileScope :=
  match ws_profile_id s with Some id => Owner id | None => Household end.

Definition HouseholdRoster : Type := list (text * text).
Definition display_name (roster : HouseholdRoster) (profile_id : text) : option text :=
  snd <$> find_first (λ m, bool_decide (m.1 = profile_id)) roster.
Definition has_several_members (roster : HouseholdRoster) : bool := (1 <? length roster)%nat.

Inductive SubjectResolution : Type := NamedSubject (s : WindowSubject) | Unnameable.

Definition resolve_window_subject (identity : SessionIdentity) (roster : HouseholdRoster) (fallback : WindowSubject) :
    SubjectResolution :=
  match si_profile_id identity with
  | Some profile_id =>
      match display_name roster profile_id with
      | Some display => if is_empty (trim display) then Unnameable else NamedSubject (member_subject profile_id (trim display))
      | None => Unnameable
      end
  | None => if has_several_members roster then Unnameable else NamedSubject fallback
  end.

Record BatchExtractionConfig := {
  bc_mode : ExtractionMode; bc_sessions_per_pass : nat; bc_window_messages : nat; bc_window_chars : nat;
  bc_max_memories : nat; bc_assistant_name : text; bc_fallback_subject : WindowSubject;
  bc_roster : HouseholdRoster; bc_allow_reminders : bool; bc_max_pass_secs : N }.

(** What a pass reads of the settings. *)
Record ExtractionSettings := {
  xs_user_name : text; xs_mode : text; xs_sessions_per_pass : nat; xs_window_messages : nat; xs_max_facts : nat;
  xs_assistant_name : text; xs_date_proposals_enabled : bool }.

Definition from_settings (s : ExtractionSettings) : BatchExtractionConfig :=
  let name := trim (xs_user_name s) in
  {| bc_mode := mode_parse (xs_mode s); bc_sessions_per_pass := Nat.max (xs_sessions_per_pass s) 1;
     bc_window_messages := Nat.max (xs_window_messages s) 2; bc_window_chars := EXTRACTION_WINDOW_CHARS;
     bc_max_memories := Nat.max (xs_max_facts s) 1; bc_assistant_name := xs_assistant_name s;
     bc_fallback_subject :=
       if is_empty name || bool_decide (name = lit "Friend") then anonymous else named_subject name;
     bc_roster := []; bc_allow_reminders := xs_date_proposals_enabled s; bc_max_pass_secs := EXTRACTION_PASS_MAX_SECS |}.
Definition model_call_budget (c : BatchExtractionConfig) : nat := bc_sessions_per_pass c.
Definition with_household (roster : HouseholdRoster) (c : BatchExtractionConfig) : BatchExtractionConfig :=
  {| bc_mode := bc_mode c; bc_sessions_per_pass := bc_sessions_per_pass c; bc_window_messages := bc_window_messages c;
     bc_window_chars := bc_window_chars c; bc_max_memories := bc_max_memories c; bc_assistant_name := bc_assistant_name c;
     bc_fallback_subject := bc_fallback_subject c; bc_roster := roster; bc_allow_reminders := bc_allow_reminders c;
     bc_max_pass_secs := bc_max_pass_secs c |}.

(** ** What the extractor is asked, and what it answers *)

Inductive MemoryKind : Type := KindRelationship | KindPreference | KindRoutine | KindCorrection | KindContext.

Record KnownMemory := { km_note : text; km_kind_label : text; km_pattern : bool }.
Record ExtractionWindow := {
  ew_subject : WindowSubject; ew_assistant_name : text; ew_session_id : text; ew_window_id : text;
  ew_messages : list WindowMessage; ew_known : list KnownMemory; ew_max_memories : nat; ew_allow_reminders : bool }.
Record ExtractedMemory := { em_note : text; em_kind : MemoryKind }.
Record ExtractedReminder := { er_about : text; er_when_said : text }.
Record WindowExtraction := {
  we_memories : list ExtractedMemory; we_reminders : list ExtractedReminder; we_rejected : nat }.
Inductive ExtractionError : Type := NoProvider | ProviderFailed (words : text) | Unparseable (raw_head : text).

(** [num_days] rounds toward zero; instants in nanoseconds. *)
Definition window_is_fresh_enough (last_message_at now : Z) : bool :=
  (Z.quot (now - last_message_at) 86400000000000 <? REMINDER_MAX_AGE_DAYS)%Z.

(** ** The report of a pass *)

Record BandHistogram := { bh_same : nat; bh_related : nat; bh_fresh : nat; bh_unscored : nat }.
Record WindowOutcome := {
  wo_bands : BandHistogram; wo_written : nat; wo_refused : nat; wo_dated : nat; wo_dates_lost : nat;
  wo_demoted : nat; wo_reminders : nat; wo_reminders_stored : nat; wo_reminders_deduped : nat;
  wo_reminders_lost : nat; wo_dropped_onto : list text }.

(** The numbers of a [PassReport], by their fields. *)
Inductive Counter : Type :=
| WindowsExamined | ModelCalls | WindowsSkipped | CursorResets | ParseFailures | GaveUp | MemoriesOffered
| RemindersOffered | RejectedKinds | BandsSame | BandsRelated | BandsFresh | BandsUnscored | MemoriesWritten
| MemoriesRefused | MemoriesDated | MemoriesDatesLost | MemoriesDemoted | MemoriesDropped | RemindersCaptured
| RemindersWritten | RemindersLost | SessionsUnnameable | WindowsOversized | WindowsAlreadyMined | ProviderFailures.
#[export] Instance counter_eq_dec : EqDecision Counter.
Proof. solve_decision. Defined.

Record PassReport := {
  pr_count : Counter → nat; pr_no_provider : bool; pr_deadline_reached : bool; pr_blocked_on : option text }.
Definition empty_report : PassReport :=
  {| pr_count := λ _, O; pr_no_provider := false; pr_deadline_reached := false; pr_blocked_on := None |}.
Definition bump (c : Counter) (n : nat) (r : PassReport) : PassReport :=
  {| pr_count := λ d, if decide (d = c) then (pr_count r d + n)%nat else pr_count r d;
     pr_no_provider := pr_no_provider r; pr_deadline_reached := pr_deadline_reached r; pr_blocked_on := pr_blocked_on r |}.
Definition found_no_provider (r : PassReport) : PassReport :=
  {| pr_count := pr_count r; pr_no_provider := true; pr_deadline_reached := pr_deadline_reached r;
     pr_blocked_on := pr_blocked_on r |}.
Definition out_of_time (r : PassReport) : PassReport :=
  {| pr_count := pr_count r; pr_no_provider := pr_no_provider r; pr_deadline_reached := true;
     pr_blocked_on := pr_blocked_on r |}.
Definition blocked_on (why : option text) (r : PassReport) : PassReport :=
  {| pr_count := pr_count r; pr_no_provider := pr_no_provider r; pr_deadline_reached := pr_deadline_reached r;
     pr_blocked_on := why |}.

Definition pass_blocker (r : PassReport) : option text :=
  if (0 <? pr_count r WindowsExamined)%nat then None
  else if pr_no_provider r then Some (lit "no_provider")
  else if (0 <? pr_count r ProviderFailures)%nat then Some (lit "provider_error")
  else if (0 <? pr_count r SessionsUnnameable)%nat then Some (lit "unnameable_subject")
  else None.

(** ** The calls of a pass *)

Inductive ExtractionCall : Type → Type :=
| EmbedderIsUsable : ExtractionCall bool
| ListSessions : ExtractionCall (answer (list Activity.Session))
| ReadCursor (id : text) : ExtractionCall (answer ExtractionCursor)
| ReadIdentity (id : text) : ExtractionCall (answer SessionIdentity)
| CountMessages (id : text) : ExtractionCall (answer N)
| MessagesAfter (id message_id : text) : ExtractionCall (answer (option N))
| GetPage (id : text) (limit offset : nat) : ExtractionCall (answer (list SessionMessage))
| SetCursor (id : text) (through : option text) : ExtractionCall (answer unit)
| NoteAttempt (id : text) : ExtractionCall (answer N)
| GetEvents (memory_id : text) (limit : nat) : ExtractionCall (result (list (option text)) text)
| LogEvent (memory_id session_id data : text) : ExtractionCall (result unit text)
| KnownMemories (scope : ProfileScope) (window : list WindowMessage) : ExtractionCall (list KnownMemory)
| ExtractWindow (window : ExtractionWindow) : ExtractionCall (result WindowExtraction ExtractionError)
| DisposeCandidates (extraction : WindowExtraction) (subject : WindowSubject) (scope : ProfileScope)
    (session_id window_id : text) (said_at : Z) (allow_reminders : bool) : ExtractionCall WindowOutcome
| UtcNow : ExtractionCall Z
| InstantNow : ExtractionCall N
| PassCancelled : ExtractionCall bool.

(** ** One window *)

Inductive CursorState : Type := Unstarted (total : N) | InProgress (remaining total : N) | Reset_.
Definition unread (s : CursorState) : option (N * nat) :=
  match s with
  | Unstarted total => Some (total, O)
  | InProgress remaining total => Some (remaining, N.to_nat (total - remaining))
  | Reset_ => None
  end.

Definition cursor_state (id : text) : Prog ExtractionCall (option CursorState) :=
  let! cursor := ReadCursor id in
  match cursor with
  | Err _ => Ret None
  | Ok cursor =>
      let! total := CountMessages id in
      match total with
      | Err _ => Ret None
      | Ok total =>
          match ec_through cursor with
          | None => Ret (Some (Unstarted total))
          | Some anchor =>
              let! after := MessagesAfter id anchor in
              Ret match after with
                  | Ok (Some remaining) => Some (InProgress remaining total)
                  | Ok None => Some Reset_
                  | Err _ => None
                  end
          end
      end
  end.

(** What the model is shown of a message: nothing of what nobody said. *)
Definition window_message (m : SessionMessage) : option WindowMessage :=
  match sm_role m with
  | RoleUser => Some {| wm_id := sm_id m; wm_role := lit "user"; wm_content := sm_content m; wm_created_at := sm_created_at m |}
  | RoleAssistant =>
      Some {| wm_id := sm_id m; wm_role := lit "assistant"; wm_content := sm_content m; wm_created_at := sm_created_at m |}
  | RoleSystem | RoleTool => None
  end.

Definition quote : text := [34].
Definition backslash : text := [92].
Definition replace_char (c : N) (by_ t : text) : text := concat ((λ x, if (x =? c) then by_ else [x]) <$> t).
Definition escape_json (raw : text) : text :=
  replace_char 34 (backslash ++ quote) (replace_char 92 (backslash ++ backslash) raw).
Definition quoted (t : text) : text := quote ++ t ++ quote.
Definition window_event_id (window_id : text) : text := lit "window:" ++ window_id.

Definition json_field (name value : text) : text := quoted name ++ lit ":" ++ value.
Definition json_number (name : String.string) (n : nat) : text := json_field (lit name) (dec (N.of_nat n)).
Definition json_object (fields : list text) : text := lit "{" ++ join (lit ",") fields ++ lit "}".

Definition skipped_event (window_id : text) : text :=
  json_object [json_field (lit "window") (quoted (escape_json window_id)); json_field (lit "parse_failed") (lit "true");
               json_field (lit "skipped") (lit "true")].

Open Scope string_scope.
Definition examined_event (mode : ExtractionMode) (window_id : text) (e : WindowExtraction) (o : WindowOutcome) : text :=
  json_object [json_field (lit "window") (quoted (escape_json window_id));
    json_field (lit "mode") (quoted (mode_as_str mode));
    json_number "offered" (length (we_memories e)); json_number "kept" (wo_written o);
    json_number "refused" (wo_refused o); json_number "dated" (wo_dated o); json_number "dates_lost" (wo_dates_lost o);
    json_number "demoted" (wo_demoted o); json_number "reminders" (wo_reminders o);
    json_number "reminders_stored" (wo_reminders_stored o); json_number "reminders_lost" (wo_reminders_lost o);
    json_number "rejected" (we_rejected e); json_number "same" (bh_same (wo_bands o));
    json_number "related" (bh_related (wo_bands o)); json_number "new" (bh_fresh (wo_bands o));
    json_number "unscored" (bh_unscored (wo_bands o));
    json_field (lit "dropped_onto")
      (lit "[" ++ join (lit ",") ((λ id, quoted (escape_json id)) <$> wo_dropped_onto o) ++ lit "]")].
Close Scope string_scope.

Definition count_extraction (e : WindowExtraction) (r : PassReport) : PassReport :=
  bump RejectedKinds (we_rejected e)
    (bump RemindersOffered (length (we_reminders e)) (bump MemoriesOffered (length (we_memories e)) r)).

Definition count_outcome (o : WindowOutcome) (r : PassReport) : PassReport :=
  foldl (λ r c, bump c.1 c.2 r) r
    [(BandsSame, bh_same (wo_bands o)); (BandsRelated, bh_related (wo_bands o)); (BandsFresh, bh_fresh (wo_bands o));
     (BandsUnscored, bh_unscored (wo_bands o)); (MemoriesWritten, wo_written o); (MemoriesRefused, wo_refused o);
     (MemoriesDated, wo_dated o); (MemoriesDatesLost, wo_dates_lost o); (MemoriesDemoted, wo_demoted o);
     (MemoriesDropped, length (wo_dropped_onto o)); (RemindersCaptured, wo_reminders o);
     (RemindersWritten, wo_reminders_stored o); (RemindersLost, wo_reminders_lost o)].

Section walking.
(** [kept_of data]: the number under [kept] in the JSON of an event ([serde_json]). *)
Context (kept_of : text → option N) (cfg : BatchExtractionConfig).

Definition already_mined (events : result (list (option text)) text) : option N :=
  match events with
  | Err _ => None
  | Ok events => head (omap (λ data, d ← data; kept ← kept_of d; if 0 <? kept then Some kept else None) events)
  end.

(** A window carved, which is not empty. *)
Definition read_window (id : text) (subject : WindowSubject) (carved : list WindowMessage) (report : PassReport) :
    Prog ExtractionCall PassReport :=
  let window_id := default [] (wm_id <$> last carved) in
  let! events := GetEvents (window_event_id window_id) 8 in
  match already_mined events with
  | Some _ => do! SetCursor id (Some window_id) in Ret (bump WindowsAlreadyMined 1 report)
  | None =>
      let scope := subject_scope subject in
      let! known := KnownMemories scope carved in
      let! now := UtcNow in
      let last_said_at := default now ((λ m, (wm_created_at m * 1000000000)%Z) <$> last carved) in
      let allow_reminders := bc_allow_reminders cfg && window_is_fresh_enough last_said_at now in
      let report := bump ModelCalls 1 report in
      let! extraction := ExtractWindow {|
        ew_subject := subject; ew_assistant_name := bc_assistant_name cfg; ew_session_id := id; ew_window_id := window_id;
        ew_messages := carved; ew_known := known; ew_max_memories := bc_max_memories cfg;
        ew_allow_reminders := allow_reminders |} in
      match extraction with
      | Err NoProvider => Ret (found_no_provider report)
      | Err (ProviderFailed _) => Ret (bump ProviderFailures 1 report)
      | Err (Unparseable _) =>
          let report := bump ParseFailures 1 report in
          let! noted := NoteAttempt id in
          let attempts := match noted with Ok n => n | Err _ => MAX_PARSE_ATTEMPTS end in
          if MAX_PARSE_ATTEMPTS <=? attempts then
            do! SetCursor id (Some window_id) in
            do! LogEvent (window_event_id window_id) id (skipped_event window_id) in
            Ret (bump GaveUp 1 report)
          else Ret report
      | Ok e =>
          let report := count_extraction e report in
          let! outcome := DisposeCandidates e subject scope id window_id last_said_at allow_reminders in
          let report := count_outcome outcome report in
          do! LogEvent (window_event_id window_id) id (examined_event (bc_mode cfg) window_id e outcome) in
          let! stored := SetCursor id (Some window_id) in
          match stored with Err _ => Ret report | Ok _ => Ret (bump WindowsExamined 1 report) end
      end
  end.

Definition examine_page (id : text) (subject : WindowSubject) (messages : list SessionMessage) (report : PassReport) :
    Prog ExtractionCall PassReport :=
  match carve_window (omap window_message messages) (bc_window_chars cfg) with
  | Oversized _ through => do! SetCursor id (Some through) in Ret (bump WindowsOversized 1 report)
  | NoExchange =>
      let report := bump WindowsSkipped 1 report in
      if (bc_window_messages cfg <=? length messages)%nat then
        match last messages with
        | Some m => do! SetCursor id (Some (sm_id m)) in Ret report
        | None => Ret report
        end
      else Ret report
  | WindowReady carved => read_window id subject carved report
  end.

Definition examine_session (id : text) (subject : WindowSubject) (report : PassReport) : Prog ExtractionCall PassReport :=
  prog_bind (cursor_state id) (λ state,
  match state with
  | None => Ret report
  | Some Reset_ =>
      let! cleared := SetCursor id None in
      Ret match cleared with Err _ => report | Ok _ => bump CursorResets 1 report end
  | Some other =>
      match unread other with
      | None => Ret report
      | Some (remaining, offset) =>
          if remaining <? MIN_NEW_MESSAGES then Ret (bump WindowsSkipped 1 report) else
          let! page := GetPage id (bc_window_messages cfg) offset in
          match page with
          | Err _ => Ret report
          | Ok messages => examine_page id subject messages report
          end
      end
  end).

(** ** A pass *)

Record SessionCandidate := { sc_id : text; sc_updated_at : Z; sc_extracted_at : option Z }.

Definition is_eligible_session (id : text) : bool :=
  Activity.is_human (Activity.origin_of id) && negb (bool_decide (id = PROPOSAL_SESSION_ID)).

Definition activity_compare (a b : SessionCandidate) : comparison :=
  then_with (Z.compare (sc_updated_at a) (sc_updated_at b)) (text_compare (sc_id b) (sc_id a)).
(** [Option]'s order: [None] first. *)
Definition option_compare (a b : option Z) : comparison :=
  match a, b with
  | None, None => Eq | None, Some _ => Lt | Some _, None => Gt
  | Some a, Some b => Z.compare a b
  end.
Definition backlog_compare (a b : SessionCandidate) : comparison :=
  then_with (then_with (then_with
    (bool_compare (bool_decide (is_Some (sc_extracted_at a))) (bool_decide (is_Some (sc_extracted_at b))))
    (option_compare (sc_extracted_at a) (sc_extracted_at b)))
    (Z.compare (sc_updated_at b) (sc_updated_at a)))
    (text_compare (sc_id a) (sc_id b)).

(** [enumerate().max_by(..)]: of the greatest, the last. *)
Definition newest (candidates : list SessionCandidate) : option (nat * SessionCandidate) :=
  foldl (λ best p,
    match best with
    | None => Some p
    | Some b => match activity_compare b.2 p.2 with Gt => Some b | _ => Some p end
    end) None (imap pair candidates).

Definition order_pass (candidates : list SessionCandidate) : list SessionCandidate :=
  let candidates := List.filter (λ c, is_eligible_session (sc_id c)) candidates in
  match newest candidates with
  | None => candidates
  | Some (i, first) =>
      first :: sort_with (not_greater backlog_compare) (take i candidates ++ drop (S i) candidates)
  end.

(** The candidates that may be read, each with its subject. *)
Fixpoint gather (candidates : list SessionCandidate) (with_cursors : list (SessionCandidate * WindowSubject))
    (report : PassReport) : Prog ExtractionCall (list (SessionCandidate * WindowSubject) * PassReport) :=
  match candidates with
  | [] => Ret (with_cursors, report)
  | c :: candidates =>
      let! cursor := ReadCursor (sc_id c) in
      match cursor with
      | Err _ => gather candidates with_cursors report
      | Ok cursor =>
          if MAX_PARSE_ATTEMPTS <=? ec_attempts cursor then gather candidates with_cursors report else
          let! identity := ReadIdentity (sc_id c) in
          let identity := match identity with Ok i => i | Err _ => SessionIdentity_unknown end in
          match resolve_window_subject identity (bc_roster cfg) (bc_fallback_subject cfg) with
          | NamedSubject subject =>
              let c := {| sc_id := sc_id c; sc_updated_at := sc_updated_at c; sc_extracted_at := ec_at cursor |} in
              gather candidates (with_cursors ++ [(c, subject)]) report
          | Unnameable => gather candidates with_cursors (bump SessionsUnnameable 1 report)
          end
      end
  end.

(** [report.model_calls > 0 && started.elapsed() >= deadline]: the clock is read only after a call. *)
Definition out_of_deadline (started : N) (report : PassReport) {A} (k : bool → Prog ExtractionCall A) :
    Prog ExtractionCall A :=
  if (0 <? pr_count report ModelCalls)%nat then
    let! now := InstantNow in k (from_secs (bc_max_pass_secs cfg) <=? now - started)
  else k false.

Fixpoint pass_loop (started : N) (ordered : list SessionCandidate) (subjects : gmap text WindowSubject)
    (report : PassReport) : Prog ExtractionCall PassReport :=
  match ordered with
  | [] => Ret report
  | c :: ordered =>
      if (model_call_budget cfg <=? pr_count report ModelCalls)%nat then Ret report
      else if (bc_sessions_per_pass cfg <=? pr_count report WindowsExamined)%nat then Ret report
      else out_of_deadline started report (λ late,
        if (late : bool) then Ret (out_of_time report) else
        let! cancelled := PassCancelled in
        if (cancelled : bool) then Ret report else
        match subjects !! sc_id c with
        | None => pass_loop started ordered subjects report
        | Some subject =>
            prog_bind (examine_session (sc_id c) subject report) (λ report,
              pass_loop started ordered (delete (sc_id c) subjects) report)
        end)
  end.

Definition candidates_of (sessions : list Activity.Session) : list SessionCandidate :=
  (λ s, {| sc_id := Activity.se_id s; sc_updated_at := Activity.se_updated_at s; sc_extracted_at := None |}) <$>
    List.filter (λ s, is_eligible_session (Activity.se_id s)) sessions.

Definition run_pass : Prog ExtractionCall PassReport :=
  let! usable := EmbedderIsUsable in
  if negb (usable : bool) then Ret (blocked_on (Some (lit "no_embedder")) empty_report) else
  let! sessions := ListSessions in
  match sessions with
  | Err _ => Ret (blocked_on (Some (lit "session_list_failed")) empty_report)
  | Ok sessions =>
      prog_bind (gather (candidates_of sessions) [] empty_report) (λ '(with_cursors, report),
      let! started := InstantNow in
      let ordered := order_pass (fst <$> with_cursors) in
      let subjects := collect_map ((λ p, (sc_id p.1, p.2)) <$> with_cursors) in
      prog_bind (pass_loop started ordered subjects report) (λ report,
      Ret (blocked_on (pass_blocker report) report)))
  end.
End walking.

(** ** Lemmas: the counters *)

Lemma count_bump c n r : pr_count (bump c n r) c = (pr_count r c + n)%nat.
Proof. simpl. by rewrite decide_True. Qed.
Lemma count_bump_other c n r d : d ≠ c → pr_count (bump c n r) d = pr_count r d.
Proof. intros H. simpl. by rewrite decide_False. Qed.

(** The numbers of an extraction and of its outcome are not those of the walk. *)
Lemma count_outcome_other o r d : d ∈ [WindowsExamined; ModelCalls] → pr_count (count_outcome o r) d = pr_count r d.
Proof.
  intros Hd. unfold count_outcome. cbn [foldl]. rewrite !count_bump_other; [done|..];
    intros ->; by repeat (apply elem_of_cons in Hd as [Hd|Hd]; [discriminate Hd|]); apply not_elem_of_nil in Hd.
Qed.
Lemma count_extraction_other e r d : d ∈ [WindowsExamined; ModelCalls] → pr_count (count_extraction e r) d = pr_count r d.
Proof.
  intros Hd. unfold count_extraction. rewrite !count_bump_other; [done|..];
    intros ->; by repeat (apply elem_of_cons in Hd as [Hd|Hd]; [discriminate Hd|]); apply not_elem_of_nil in Hd.
Qed.

Lemma count_no_provider r d : pr_count (found_no_provider r) d = pr_count r d.
Proof. done. Qed.

(** Computes a counter of the walk in a report. *)
Ltac count_walk :=
  repeat first
    [ rewrite count_no_provider | rewrite count_bump | rewrite count_bump_other by done
    | rewrite count_outcome_other by (repeat constructor) | rewrite count_extraction_other by (repeat constructor) ].

(** ** Whom it reads, by the calls it makes *)

Section calls_made.
Context (kept_of : text → option N) (cfg : BatchExtractionConfig).
Notation trail := (list {R : Type & (ExtractionCall R * R)%type}).

Definition asks (e : {R : Type & (ExtractionCall R * R)%type}) : nat :=
  match e with existT _ (c, _) => match c with ExtractWindow _ => 1 | _ => 0 end end.
(** How often the model was asked. *)
Definition asked (l : trail) : nat := sum_list_with asks l.

(** The conversation [id] is a person's, and the identity the store gave it makes it [subject]'s. *)
Definition resolved_in (l : trail) (id : text) (subject : WindowSubject) : Prop :=
  is_eligible_session id = true ∧ ∃ identity, called (ReadIdentity id) identity l ∧
    resolve_window_subject (match identity with Ok i => i | Err _ => SessionIdentity_unknown end)
      (bc_roster cfg) (bc_fallback_subject cfg) = NamedSubject subject.

(** A call that speaks of one conversation and its subject only. *)
Definition within (id : text) (subject : WindowSubject) : ∀ R, ExtractionCall R → Prop := λ R c,
  match c with
  | ExtractWindow w => ew_session_id w = id ∧ ew_subject w = subject
  | KnownMemories scope _ => scope = subject_scope subject
  | SetCursor i _ | NoteAttempt i => i = id
  | _ => True
  end.

Lemma examine_within id subject report : only_calls (within id subject) (examine_session kept_of cfg id subject report).
Proof.
  unfold examine_session, cursor_state, examine_page, read_window.
  repeat (first [progress simpl | case_match | split | intros ? | done]).
Qed.

Lemma examine_asks id subject report l report' :
  path (examine_session kept_of cfg id subject report) l report' →
  pr_count report' ModelCalls = (pr_count report ModelCalls + asked l)%nat ∧ (asked l ≤ 1)%nat.
Proof.
  unfold examine_session, cursor_state, examine_page, read_window. intros H. simpl in H.
  repeat (first
    [ progress cbn [prog_bind] in H
    | match type of H with
      | path (Ret _) _ _ => apply path_inv in H as [-> ->]
      | path (Call _ _) _ _ => apply path_inv in H as (? & ? & -> & H)
      | path (match ?x with _ => _ end) _ _ => destruct x
      | path (prog_bind (match ?x with _ => _ end) _) _ _ => destruct x
      end ]); cbn [asked asks sum_list_with];
    repeat case_match; count_walk; (split; lia).
Qed.
End calls_made.

Section whom_it_reads.
Context (kept_of : text → option N) (cfg : BatchExtractionConfig).
Notation trail := (list {R : Type & (ExtractionCall R * R)%type}).

Lemma asked_app (l1 l2 : trail) : asked (l1 ++ l2) = (asked l1 + asked l2)%nat.
Proof. apply sum_list_with_app. Qed.

Lemma called_cons {R S} (c : ExtractionCall R) r (d : ExtractionCall S) s (l : trail) :
  called c r (existT S (d, s) :: l) ↔ (existT R (c, r) : {R : Type & (ExtractionCall R * R)%type}) = existT S (d, s) ∨ called c r l.
Proof. apply elem_of_cons. Qed.

Lemma resolved_in_sub (l l' : trail) id subject :
  (∀ e, e ∈ l → e ∈ l') → resolved_in cfg l id subject → resolved_in cfg l' id subject.
Proof. intros Hl (He & identity & Hc & Hr). split; [done|]. exists identity. split; [by apply Hl|done]. Qed.

(** The candidates kept are those of whom it could be said whose conversation it is; nobody is asked. *)
Lemma gather_path cs acc report l acc' report' :
  path (gather cfg cs acc report) l (acc', report') → Forall (λ c, is_eligible_session (sc_id c) = true) cs →
  pr_count report' ModelCalls = pr_count report ModelCalls ∧ asked l = O ∧
  ∀ p, p ∈ acc' → p ∈ acc ∨ resolved_in cfg l (sc_id p.1) p.2.
Proof.
  revert acc report l. induction cs as [|c cs IH]; intros acc report l H Hcs; cbn [gather] in H.
  - apply path_inv in H as [-> [= -> ->]]. split; [done|]. split; [done|]. by left.
  - apply Forall_cons in Hcs as [Hc Hcs]. apply path_inv in H as (cursor & l1 & -> & H). cbn [asked asks sum_list_with].
    assert (∀ acc report l, path (gather cfg cs acc report) l (acc', report') →
      pr_count report' ModelCalls = pr_count report ModelCalls ∧ asked l = O ∧
      ∀ p, p ∈ acc' → p ∈ acc ∨ resolved_in cfg l (sc_id p.1) p.2) as IH' by (intros; by apply IH).
    clear IH. destruct cursor as [cursor|].
    2:{ apply IH' in H as (H1 & H2 & H3). split; [done|]. split; [done|]. intros p [?|Hp]%H3; [by left|right].
        eapply resolved_in_sub; [|exact Hp]. by intros ev Hev; right. }
    destruct (MAX_PARSE_ATTEMPTS <=? ec_attempts cursor).
    { apply IH' in H as (H1 & H2 & H3). split; [done|]. split; [done|]. intros p [?|Hp]%H3; [by left|right].
      eapply resolved_in_sub; [|exact Hp]. by intros ev Hev; right. }
    apply path_inv in H as (identity & l2 & -> & H). cbn [asked asks sum_list_with].
    destruct (resolve_window_subject _ _ _) as [subject|] eqn:Hr; apply IH' in H as (H1 & H2 & H3).
    + split; [done|]. split; [done|]. intros p [Hp|Hp]%H3.
      * apply elem_of_app in Hp as [Hp|Hp%elem_of_one]; [by left|right]. subst p. simpl. split; [done|].
        exists identity. split; [right; left|done].
      * right. eapply resolved_in_sub; [|exact Hp]. by intros ev Hev; right; right.
    + rewrite count_bump_other in H1 by done. split; [done|]. split; [done|]. intros p [?|Hp]%H3; [by left|right].
      eapply resolved_in_sub; [|exact Hp]. by intros ev Hev; right; right.
Qed.

(** A call about a conversation and its subject that are [ok]. *)
Definition concerns (ok : text → WindowSubject → Prop) : ∀ R, ExtractionCall R → Prop := λ R c,
  match c with
  | ExtractWindow w => ok (ew_session_id w) (ew_subject w)
  | KnownMemories scope _ => ∃ id subject, ok id subject ∧ scope = subject_scope subject
  | _ => True
  end.

Lemma pass_loop_concerns started ordered subjects report :
  only_calls (concerns (λ id s, subjects !! id = Some s)) (pass_loop kept_of cfg started ordered subjects report).
Proof.
  revert subjects report. induction ordered as [|c ordered IH]; intros subjects report; simpl; [done|].
  case_match; [done|]. case_match; [done|].
  assert (∀ late : bool, only_calls (concerns (λ id s, subjects !! id = Some s))
    (if late then Ret (out_of_time report) else
     let! cancelled := PassCancelled in
     if (cancelled : bool) then Ret report else
     match subjects !! sc_id c with
     | None => pass_loop kept_of cfg started ordered subjects report
     | Some subject =>
         prog_bind (examine_session kept_of cfg (sc_id c) subject report) (λ report,
           pass_loop kept_of cfg started ordered (delete (sc_id c) subjects) report)
     end)) as Hk.
  { intros []; [done|]. split; [done|]. intros []; [done|]. cbv beta iota. destruct (subjects !! sc_id c) as [subject|] eqn:Es; [|apply IH].
    apply only_calls_bind.
    - eapply only_calls_mono; [|apply examine_within]. intros R d. destruct d; simpl; try done.
      + intros ->. by eexists _, _.
      + by intros [-> ->].
    - intros report'. eapply only_calls_mono; [|apply IH]. intros R d. destruct d; simpl; try done.
      + intros (id & s & Hs%lookup_delete_Some & ->). exists id, s. by split; [apply Hs|].
      + by intros [_ Hs]%lookup_delete_Some. }
  unfold out_of_deadline. destruct (0 <? pr_count report ModelCalls)%nat; [|apply (Hk false)].
  split; [done|intros now; apply Hk].
Qed.

Lemma pass_loop_asks started ordered subjects report l report' :
  path (pass_loop kept_of cfg started ordered subjects report) l report' →
  (pr_count report ModelCalls ≤ model_call_budget cfg)%nat →
  (pr_count report ModelCalls + asked l ≤ model_call_budget cfg)%nat.
Proof.
  revert subjects report l. induction ordered as [|c ordered IH]; intros subjects report l H Hle; cbn [pass_loop] in H.
  { apply path_inv in H as [-> ->]. simpl. lia. }
  destruct (Nat.leb_spec (model_call_budget cfg) (pr_count report ModelCalls)); [apply path_inv in H as [-> ->]; simpl; lia|].
  destruct (bc_sessions_per_pass cfg <=? _)%nat; [apply path_inv in H as [-> ->]; simpl; lia|].
  assert (∀ (late : bool) l, path
    (if late then Ret (out_of_time report) else
     let! cancelled := PassCancelled in
     if (cancelled : bool) then Ret report else
     match subjects !! sc_id c with
     | None => pass_loop kept_of cfg started ordered subjects report
     | Some subject =>
         prog_bind (examine_session kept_of cfg (sc_id c) subject report) (λ report,
           pass_loop kept_of cfg started ordered (delete (sc_id c) subjects) report)
     end) l report' → (pr_count report ModelCalls + asked l ≤ model_call_budget cfg)%nat) as Hk.
  { clear l H. intros [] l H; [apply path_inv in H as [-> ->]; simpl; lia|]. apply path_inv in H as (cancelled & l1 & -> & H).
    cbn [asked asks sum_list_with]. destruct cancelled; [apply path_inv in H as [-> ->]; simpl; lia|].
    destruct (subjects !! sc_id c) as [subject|]; [|by apply (IH _ _ _ H)].
    apply path_bind in H as (r1 & l2 & l3 & -> & H1 & H2). apply examine_asks in H1 as [H1 Hone].
    fold (asked (l2 ++ l3)). rewrite asked_app. apply IH in H2; lia. }
  unfold out_of_deadline in H. destruct (0 <? _)%nat; [|by apply (Hk false)].
  apply path_inv in H as (now & l1 & -> & H). cbn [asked asks sum_list_with]. by apply Hk in H.
Qed.
End whom_it_reads.

(** ** The world a pass runs in *)

Notation trail := (list {R : Type & (ExtractionCall R * R)%type}).

(** The store and its clock, the error it would give now, what everything else would answer, and
    the calls made so far with their answers. *)
Record ExtractionWorld := {
  xw_store : Conversations; xw_now : Z; xw_down : option SessionStorageError;
  xw_outside : ∀ R, ExtractionCall R → R; xw_log : trail }.

Definition in_store {A} (a : A) (w : ExtractionWorld) : answer A :=
  match xw_down w with Some e => Err e | None => Ok a end.
Definition storing {A} (op : Conversations → answer A * Conversations) (w : ExtractionWorld) : answer A * Conversations :=
  match xw_down w with Some e => (Err e, xw_store w) | None => op (xw_store w) end.

(** What a call answers, and the store it leaves. *)
Definition answer_of {R} (c : ExtractionCall R) (w : ExtractionWorld) : R * Conversations :=
  match c in ExtractionCall R return R * Conversations with
  | ReadCursor id => (in_store (extraction_cursor id (xw_store w)) w, xw_store w)
  | CountMessages id => (in_store (count_messages id (xw_store w)) w, xw_store w)
  | MessagesAfter id m => (in_store (messages_after id m (xw_store w)) w, xw_store w)
  | GetPage id limit offset =>
      (match xw_down w with Some e => Err e | None => get_messages_paginated id limit offset (xw_store w) end, xw_store w)
  | SetCursor id through => storing (set_extraction_cursor (xw_now w) id through) w
  | NoteAttempt id => storing (note_extraction_attempt id) w
  | EmbedderIsUsable => (xw_outside w _ EmbedderIsUsable, xw_store w)
  | ListSessions => (xw_outside w _ ListSessions, xw_store w)
  | ReadIdentity id => (xw_outside w _ (ReadIdentity id), xw_store w)
  | GetEvents id n => (xw_outside w _ (GetEvents id n), xw_store w)
  | LogEvent id s d => (xw_outside w _ (LogEvent id s d), xw_store w)
  | KnownMemories s m => (xw_outside w _ (KnownMemories s m), xw_store w)
  | ExtractWindow x => (xw_outside w _ (ExtractWindow x), xw_store w)
  | DisposeCandidates e s sc i m t b => (xw_outside w _ (DisposeCandidates e s sc i m t b), xw_store w)
  | UtcNow => (xw_outside w _ UtcNow, xw_store w)
  | InstantNow => (xw_outside w _ InstantNow, xw_store w)
  | PassCancelled => (xw_outside w _ PassCancelled, xw_store w)
  end.

Definition with_log (cv : Conversations) (log : trail) (w : ExtractionWorld) : ExtractionWorld :=
  {| xw_store := cv; xw_now := xw_now w; xw_down := xw_down w; xw_outside := xw_outside w; xw_log := log |}.
Definition extraction_handler : Handler ExtractionCall ExtractionWorld := λ R c w,
  let '(r, cv) := answer_of c w in (r, with_log cv (existT R (c, r) :: xw_log w) w).

(** What else happens while the conversation [id] only goes on, its messages only added to and at a clock
    not before the newest of them ([goes_on]), its pointer left to the walk. *)
Inductive beside (id : text) : ExtractionWorld → ExtractionWorld → Prop :=
| be_store cv w : goes_on sr_extracted_through id (xw_store w) cv → beside id w (with_log cv (xw_log w) w)
| be_outside now down outside w :
    beside id w {| xw_store := xw_store w; xw_now := now; xw_down := down; xw_outside := outside; xw_log := xw_log w |}.

(** ** The specification of the walk *)

Section walk_spec.
Context (kept_of : text → option N) (cfg : BatchExtractionConfig) (id : text).

Notation spoken := (omap window_message).

(** Why the walk may leave a stretch of the conversation behind it: the extractor was shown what was
    said in it and answered, or gave no answer that could be read for the last time; its one
    exchange overruns the budget; it is a whole page with no exchange in it; or the events say that
    the window ending with it already gave memories. *)
Inductive passed_over (log : trail) (stretch : list SessionMessage) : Prop :=
| po_read w e : ew_session_id w = id → ew_messages w = spoken stretch → called (ExtractWindow w) (Ok e) log →
    passed_over log stretch
| po_gave_up w head noted : ew_session_id w = id → ew_messages w = spoken stretch →
    called (ExtractWindow w) (Err (Unparseable head)) log → called (NoteAttempt id) noted log →
    (∀ n, noted = Ok n → MAX_PARSE_ATTEMPTS ≤ n) → passed_over log stretch
| po_oversized : exchange (spoken stretch) = true → (bc_window_chars cfg < window_chars (spoken stretch))%nat →
    (∀ q, q `prefix_of` spoken stretch → exchange q = true → q = spoken stretch) → passed_over log stretch
| po_silent : (bc_window_messages cfg ≤ length stretch)%nat →
    (∀ q, q `prefix_of` spoken stretch → exchange q = false) → passed_over log stretch
| po_mined m events n : last (spoken stretch) = Some m → called (GetEvents (window_event_id (wm_id m)) 8) events log →
    already_mined kept_of events = Some n → passed_over log stretch.

(** The first [k] messages are behind the walk: each lies in a stretch it may leave. *)
Definition walked (log : trail) (h : list SessionMessage) (k : nat) : Prop :=
  ∀ i, (i < k)%nat → ∃ off j, (off ≤ i < j)%nat ∧ (j ≤ length h)%nat ∧ passed_over log (take (j - off) (drop off h)).

(** The pointer of the conversation is at the last of its first [k] messages. *)
Definition cursor_at (k : nat) (cv : Conversations) : Prop :=
  (k ≤ length (history id cv))%nat ∧ seen_as sr_extracted_through None id cv = sm_id <$> last (take k (history id cv)).

Definition tracked_at (k : nat) (w : ExtractionWorld) : Prop :=
  table_ok (xw_store w) ∧ cursor_at k (xw_store w) ∧ walked (xw_log w) (history id (xw_store w)) k.
Definition tracked (w : ExtractionWorld) : Prop := ∃ k, tracked_at k w.

(** ** Lemmas *)

Lemma called_mono {R} (c : ExtractionCall R) r (log log' : trail) :
  (∀ e, e ∈ log → e ∈ log') → called c r log → called c r log'.
Proof. intros H. apply H. Qed.

Lemma passed_over_mono log log' s : (∀ e, e ∈ log → e ∈ log') → passed_over log s → passed_over log' s.
Proof.
  intros Hin [w e ? ? ?|w hd noted ? ? ? ? ?|? ? ?|? ?|m events n ? ? ?].
  - by eapply po_read; [done|done|eapply called_mono].
  - by eapply po_gave_up; [done|done|eapply called_mono|eapply called_mono|done].
  - by apply po_oversized.
  - by apply po_silent.
  - by eapply po_mined; [done|eapply called_mono|done].
Qed.

Lemma walked_none log h : walked log h O.
Proof. intros i Hi. lia. Qed.

(** On to the end of a stretch that starts among those behind it. *)
Lemma walked_on log h k off j : walked log h k → (off ≤ k)%nat → (j ≤ length h)%nat →
  passed_over log (take (j - off) (drop off h)) → walked log h j.
Proof.
  intros Hw Ho Hj Hp i Hi. destruct (Nat.le_gt_cases off i); [by exists off, j|]. apply Hw. lia.
Qed.

Lemma walked_mono log log' h new k :
  (∀ e, e ∈ log → e ∈ log') → walked log h k → walked log' (h ++ new) k.
Proof.
  intros Hin Hw i Hi. destruct (Hw i Hi) as (off & j & Hij & Hj & Hp). exists off, j. split; [done|].
  split; [rewrite length_app; lia|]. rewrite drop_app_le, take_app_le by (rewrite ?length_drop; lia). by eapply passed_over_mono.
Qed.

(** A world that is [w] gone on: the history longer, the pointer the same, the log longer. *)
Definition gone_on (w w' : ExtractionWorld) : Prop :=
  table_ok (xw_store w') ∧ (∃ new, history id (xw_store w') = history id (xw_store w) ++ new) ∧
  seen_as sr_extracted_through None id (xw_store w') = seen_as sr_extracted_through None id (xw_store w) ∧
  ∀ e, e ∈ xw_log w → e ∈ xw_log w'.

Lemma beside_gone_on w w' : beside id w w' → table_ok (xw_store w) → gone_on w w'.
Proof.
  intros [cv w1 H|now down outside w1] Hok; unfold gone_on; simpl.
  - destruct (goes_on_spec sr_extracted_through None id ltac:(done) ltac:(done) _ _ H Hok) as (H1 & H2 & H3). done.
  - split; [done|]. split; [exists []; by rewrite app_nil_r|done].
Qed.

Lemma gone_on_tracked k w w' : gone_on w w' → tracked_at k w → tracked_at k w'.
Proof.
  intros (Hok & [new Hn] & Hs & Hin) (_ & [Hk Hp] & Hw). unfold tracked_at, cursor_at. rewrite Hn, Hs.
  split; [done|]. split; [|by eapply walked_mono]. rewrite take_app_le by done. split; [rewrite length_app; lia|done].
Qed.

(** A call that does not move the pointer of [id]. *)
Definition leaves_pointer : ∀ R, ExtractionCall R → Prop := λ R c,
  match c with SetCursor i _ => i ≠ id | _ => True end.

Lemma call_gone_on {R} (c : ExtractionCall R) w : leaves_pointer R c → table_ok (xw_store w) →
  gone_on w (extraction_handler R c w).2.
Proof.
  intros Hc Hok. unfold extraction_handler.
  assert (∀ r, gone_on w (with_log (xw_store w) (existT R (c, r) :: xw_log w) w)) as Hsame.
  { intros r. unfold gone_on. simpl. split; [done|]. split; [exists []; by rewrite app_nil_r|]. split; [done|]. by right. }
  assert (∀ r f i, (i = id → ∀ row, sr_extracted_through (f row) = sr_extracted_through row) →
    gone_on w (with_log (update_session f i (xw_store w)) (existT R (c, r) :: xw_log w) w)) as Hupd.
  { intros r f i Hf. unfold gone_on. simpl.
    destruct (goes_on_spec sr_extracted_through None id ltac:(done) ltac:(done) _ _
                (go_update _ _ f i (xw_store w) Hf) Hok) as (H1 & H2 & H3). do 3 (split; [done|]). by right. }
  destruct c; simpl; try apply Hsame.
  - unfold storing. destruct (xw_down w); [apply Hsame|]. simpl. by apply Hupd.
  - unfold storing. destruct (xw_down w); [apply Hsame|]. simpl. by apply Hupd.
Qed.

Lemma gone_on_trans w1 w2 w3 : gone_on w1 w2 → gone_on w2 w3 → gone_on w1 w3.
Proof.
  intros (_ & [n1 H1] & Hs1 & Hl1) (Hok & [n2 H2] & Hs2 & Hl2). split; [done|].
  split; [exists (n1 ++ n2); by rewrite H2, H1, app_assoc|]. split; [congruence|]. eauto.
Qed.

Lemma tracked_stable : stable (beside id) tracked.
Proof.
  intros w w' Hst [k Hk]. exists k. apply (gone_on_tracked k w); [|done]. apply beside_gone_on; [done|apply Hk].
Qed.

(** A program that never moves the pointer of [id] keeps what is known of the walk. *)
Lemma leaves_safe {A} (p : Prog ExtractionCall A) : only_calls leaves_pointer p →
  safe extraction_handler (beside id) tracked (λ _, tracked) p tracked.
Proof.
  induction p as [a|R c k IH]; intros Hp.
  - by apply safe_ret; [apply tracked_stable|..].
  - apply safe_call; [apply tracked_stable|done|]. intros w r w' [n Hn] E. exists tracked.
    split; [|apply IH, Hp]. exists n. pose proof (call_gone_on c w (proj1 Hp) (proj1 Hn)) as Hg.
    rewrite E in Hg. by apply (gone_on_tracked n w).
Qed.
End walk_spec.

(** ** What is known at each moment of reading the conversation [id] *)

Section keeping.
Context (id : text).

(** A fact that stays true as the world goes on. *)
Definition kept (F : ExtractionWorld → Prop) : Prop := ∀ w w', gone_on id w w' → F w → F w'.
Lemma kept_and F G : kept F → kept G → kept (λ w, F w ∧ G w).
Proof. intros HF HG w w' Hg [H1 H2]. split; [by eapply HF|by eapply HG]. Qed.
Lemma kept_called {R} (c : ExtractionCall R) r : kept (λ w, called c r (xw_log w)).
Proof. intros w w' (_ & _ & _ & H). by apply called_mono. Qed.
Lemma kept_pure φ : kept (λ _, φ).
Proof. by intros w w' _ H. Qed.

(** [page] is what the history shows from [off] on. *)
Definition shows (off : nat) (page : list SessionMessage) (w : ExtractionWorld) : Prop :=
  (off ≤ length (history id (xw_store w)))%nat ∧ ∃ more, drop off (history id (xw_store w)) = page ++ more.

Lemma kept_shows off page : kept (shows off page).
Proof.
  intros w w' (_ & [new Hn] & _) (Hoff & more & H). unfold shows. rewrite Hn, length_app. split; [lia|].
  exists (more ++ new). by rewrite drop_app_le, H, app_assoc by done.
Qed.
End keeping.

Section reading.
Context (kept_of : text → option N) (cfg : BatchExtractionConfig) (id : text).
Notation spoken := (omap window_message).
Notation tracked := (tracked kept_of cfg id).
Notation tracked_at := (tracked_at kept_of cfg id).
Notation kept := (kept id).
Notation shows := (shows id).
Notation reads p := (safe extraction_handler (beside id) tracked (λ _, tracked) p).

Definition facts (k : nat) (F : ExtractionWorld → Prop) (w : ExtractionWorld) : Prop := tracked_at k w ∧ F w.

Lemma facts_stable k F : kept F → stable (beside id) (facts k F).
Proof.
  intros HF w w' Hst [Ht H]. pose proof (beside_gone_on id w w' Hst (proj1 Ht)) as Hg.
  split; [by apply (gone_on_tracked kept_of cfg id k w)|by apply (HF w)].
Qed.

Lemma facts_tracked k F w : facts k F w → tracked w.
Proof. intros [H _]. by exists k. Qed.

Lemma reads_ret {A} (a : A) k F : kept F → reads (Ret a) (facts k F).
Proof. intros HF. apply safe_ret; [by apply facts_stable|intros w; apply facts_tracked|intros w; apply facts_tracked]. Qed.

(** A call that does not move the pointer: what was known stays so, and the call was made. *)
Lemma reads_call {A R} k F F' (c : ExtractionCall R) (cont : R → Prog ExtractionCall A) Q :
  kept F → leaves_pointer id R c →
  (∀ w, tracked_at k w → F w → F' (answer_of c w).1 w) → (∀ r, kept (F' r)) →
  (∀ r, safe extraction_handler (beside id) tracked Q (cont r) (facts k (λ w, F w ∧ F' r w ∧ called c r (xw_log w)))) →
  safe extraction_handler (beside id) tracked Q (Call c cont) (facts k F).
Proof.
  intros HF Hc HF' Hk Hs. apply safe_call; [by apply facts_stable|intros w; apply facts_tracked|].
  intros w r w' [Ht Hw] E. eexists. split; [|apply Hs].
  pose proof (call_gone_on id c w Hc (proj1 Ht)) as Hg. rewrite E in Hg. simpl in Hg.
  split; [by apply (gone_on_tracked kept_of cfg id k w)|]. split; [by apply (HF w)|].
  assert (r = (answer_of c w).1 ∧ called c r (xw_log w')) as [-> Hcall].
  { unfold extraction_handler in E. destruct (answer_of c w) as [r0 cv]. injection E as <- <-. split; [done|left]. }
  split; [|done]. apply (Hk _ w); [done|]. by apply HF'.
Qed.

Lemma facts_pure {A} k F φ (p : Prog ExtractionCall A) Q :
  kept F → (φ → safe extraction_handler (beside id) tracked Q p (facts k F)) →
  safe extraction_handler (beside id) tracked Q p (facts k (λ w, φ ∧ F w)).
Proof.
  intros HF H. apply (safe_weaken _ _ _ _ _ _ (λ w, φ ∧ facts k F w)).
  - apply facts_stable. apply kept_and; [apply kept_pure|done].
  - intros w (Ht & Hφ & Hw). split; [done|]. by split.
  - by apply safe_pure.
Qed.

Lemma facts_weaken {A} k F G (p : Prog ExtractionCall A) Q :
  kept F → (∀ w, F w → G w) → safe extraction_handler (beside id) tracked Q p (facts k G) →
  safe extraction_handler (beside id) tracked Q p (facts k F).
Proof. intros HF H Hs. eapply safe_weaken; [by apply facts_stable| |exact Hs]. intros w [Ht Hw]. split; [done|by apply H]. Qed.

(** The same where the answer says nothing of the store, and where it is not needed. *)
Lemma reads_told {A R} k F (c : ExtractionCall R) (cont : R → Prog ExtractionCall A) Q :
  kept F → leaves_pointer id R c →
  (∀ r, kept (λ w, F w ∧ called c r (xw_log w)) →
     safe extraction_handler (beside id) tracked Q (cont r) (facts k (λ w, F w ∧ called c r (xw_log w)))) →
  safe extraction_handler (beside id) tracked Q (Call c cont) (facts k F).
Proof.
  intros HF Hc Hs. apply (reads_call k F (λ _ _, True)); [done|done|done|intros; apply kept_pure|]. intros r.
  assert (kept (λ w, F w ∧ called c r (xw_log w))) as Hk by (apply kept_and; [done|apply kept_called]).
  apply (facts_weaken k _ (λ w, F w ∧ called c r (xw_log w))); [|by intros w (? & _ & ?)|by apply Hs].
  apply kept_and; [done|]. apply kept_and; [apply kept_pure|apply kept_called].
Qed.

Lemma reads_past {A R} k F (c : ExtractionCall R) (cont : R → Prog ExtractionCall A) Q :
  kept F → leaves_pointer id R c →
  (∀ r, safe extraction_handler (beside id) tracked Q (cont r) (facts k F)) →
  safe extraction_handler (beside id) tracked Q (Call c cont) (facts k F).
Proof.
  intros HF Hc Hs. apply reads_told; [done|done|]. intros r Hk.
  apply (facts_weaken k _ F); [done|by intros w [? _]|done].
Qed.

(** A call to the store: an error teaches nothing, an answer what it was read from. *)
Lemma reads_ok {A B} k F (G : B → ExtractionWorld → Prop) (c : ExtractionCall (answer B))
    (cont : answer B → Prog ExtractionCall A) Q :
  kept F → leaves_pointer id _ c → (∀ b, kept (G b)) →
  (∀ w b, tracked_at k w → F w → (answer_of c w).1 = Ok b → G b w) →
  (∀ e, safe extraction_handler (beside id) tracked Q (cont (Err e)) (facts k F)) →
  (∀ b, safe extraction_handler (beside id) tracked Q (cont (Ok b)) (facts k (λ w, F w ∧ G b w))) →
  safe extraction_handler (beside id) tracked Q (Call c cont) (facts k F).
Proof.
  intros HF Hc HG Hans Herr Hok. set (F' := λ (r : answer B) w, ∀ b, r = Ok b → G b w).
  assert (∀ r, kept (F' r)) as HF' by (intros r w w' Hg H b Hb; by apply (HG b w), H).
  apply (reads_call k F F'); [done|done|intros w Ht Hw b; by apply Hans|done|]. intros r.
  assert (kept (λ w, F w ∧ F' r w ∧ called c r (xw_log w))) as Hk
    by (apply kept_and; [done|]; apply kept_and; [done|apply kept_called]).
  destruct r as [b|e]; [apply (facts_weaken k _ (λ w, F w ∧ G b w))|apply (facts_weaken k _ F)]; try done.
  - intros w (H1 & H2 & _). split; [done|by apply H2].
  - by intros w [H _].
Qed.

(** ** The pointer moves *)

Lemma storing_same {R} (c : ExtractionCall R) w r w' k : extraction_handler R c w = (r, w') →
  (answer_of c w).2 = xw_store w → tracked_at k w → tracked_at k w'.
Proof.
  unfold extraction_handler. destruct (answer_of c w) as [r0 cv]. simpl. intros [= <- <-] -> (Hok & Hc & Hw).
  split; [done|]. split; [done|]. simpl. rewrite <-(app_nil_r (history _ _)). eapply walked_mono; [|exact Hw]. by right.
Qed.

(** To the end of a stretch that the walk may leave, which starts behind it. *)
Lemma pointer_moves {A} k F off page i x (cont : answer unit → Prog ExtractionCall A) :
  kept F → (off ≤ k)%nat → page !! i = Some x →
  (∀ w, facts k F w → shows off page w ∧ passed_over kept_of cfg id (xw_log w) (take (S i) page)) →
  (∀ r, only_calls (leaves_pointer id) (cont r)) →
  reads (Call (SetCursor id (Some (sm_id x))) cont) (facts k F).
Proof.
  intros HF Hoff Hx Hw Hcont. apply safe_call; [by apply facts_stable|intros w; apply facts_tracked|].
  intros w r w' Hfw E. exists tracked. split; [|by apply leaves_safe]. destruct (Hw w Hfw) as [(Ho & more & Hpage) Hp].
  destruct Hfw as [Ht _]. destruct (xw_down w) as [e|] eqn:Ed.
  { exists k. apply (storing_same _ _ _ _ _ E); [simpl; unfold storing; by rewrite Ed|done]. }
  unfold extraction_handler in E. simpl in E. unfold storing in E. rewrite Ed in E. injection E as <- <-.
  destruct Ht as (Hok & _ & Hwalk). set (h := history id (xw_store w)) in *.
  assert (S i ≤ length page)%nat as Hi by (apply lookup_lt_Some in Hx; lia).
  assert (off + S i ≤ length h)%nat as Hlen.
  { apply (f_equal length) in Hpage. rewrite length_drop, length_app in Hpage. lia. }
  exists (off + S i)%nat. split; [by apply table_ok_update|]. split.
  - split; [done|]. destruct (history_session id (xw_store w) Hok) as [row Hrow].
    { fold h. intros E. rewrite E in Hlen. simpl in Hlen. lia. }
    unfold seen_as. simpl. rewrite lookup_alter_eq, Hrow. simpl.
    change (history id (update_session _ _ _)) with h. rewrite Nat.add_succ_r.
    assert (h !! (off + i)%nat = Some x) as Hhx.
    { rewrite <-lookup_drop, Hpage. by apply lookup_app_l_Some. }
    by rewrite (take_S_r _ _ x), last_snoc.
  - simpl. apply (walked_on _ _ _ _ _ k off); [|done|done|].
    + rewrite <-(app_nil_r (history _ _)). eapply walked_mono; [|exact Hwalk]. by right.
    + change (history id (update_session _ _ _)) with h. replace (off + S i - off)%nat with (S i) by lia.
      rewrite Hpage, take_app_le by done. eapply passed_over_mono; [|exact Hp]. by right.
Qed.

(** To nothing: it walks again from the start. *)
Lemma pointer_cleared {A} k F (cont : answer unit → Prog ExtractionCall A) :
  kept F → (∀ r, only_calls (leaves_pointer id) (cont r)) → reads (Call (SetCursor id None) cont) (facts k F).
Proof.
  intros HF Hcont. apply safe_call; [by apply facts_stable|intros w; apply facts_tracked|].
  intros w r w' Hfw E. exists tracked. split; [|by apply leaves_safe]. destruct Hfw as [Ht _].
  destruct (xw_down w) as [e|] eqn:Ed.
  { exists k. apply (storing_same _ _ _ _ _ E); [simpl; unfold storing; by rewrite Ed|done]. }
  unfold extraction_handler in E. simpl in E. unfold storing in E. rewrite Ed in E. injection E as <- <-.
  exists O. split; [apply table_ok_update, Ht|]. split; [|apply walked_none]. split; [lia|]. rewrite take_0. unfold seen_as. simpl.
  rewrite lookup_alter_eq. by destruct (cv_sessions (xw_store w) !! id).
Qed.
End reading.

(** The last message of a prefix of what was said, found in the page. *)
Lemma spoken_prefix page c m : c ++ [m] `prefix_of` omap window_message page →
  ∃ i x, page !! i = Some x ∧ omap window_message (take (S i) page) = c ++ [m] ∧ sm_id x = wm_id m.
Proof.
  revert c. induction page as [|a page IH]; intros c [more H]; simpl in H; [by destruct c|].
  destruct (window_message a) as [b|] eqn:Eb.
  - destruct c as [|c0 c]; simpl in H; injection H as -> H.
    + exists O, a. split; [done|]. simpl. rewrite Eb. split; [done|].
      unfold window_message in Eb. destruct (sm_role a); by simplify_eq.
    + destruct (IH c) as (i & x & Hx & Ho & Hid); [by exists more|]. exists (S i), x. split; [done|].
      split; [|done]. cbn [app]. rewrite <-Ho, firstn_cons. cbn [omap list_omap]. by rewrite Eb.
  - destruct (IH c) as (i & x & Hx & Ho & Hid); [by exists more|]. exists (S i), x. split; [done|].
    split; [|done]. cbn [app]. rewrite <-Ho, firstn_cons. cbn [omap list_omap]. by rewrite Eb.
Qed.

Section reading_safe.
Context (kept_of : text → option N) (cfg : BatchExtractionConfig) (id : text).
Notation spoken := (omap window_message).
Notation tracked := (tracked kept_of cfg id).
Notation facts := (facts kept_of cfg id).
Notation shows := (shows id).
Notation kept := (kept id).
Notation reads p := (safe extraction_handler (beside id) tracked (λ _, tracked) p).

Lemma read_window_safe k off page c m i x subject report :
  (off ≤ k)%nat → page !! i = Some x → spoken (take (S i) page) = c ++ [m] → sm_id x = wm_id m →
  reads (read_window kept_of cfg id subject (c ++ [m]) report) (facts k (shows off page)).
Proof.
  intros Hoff Hx Hs Hid. unfold read_window. rewrite last_snoc. cbn [option_map fmap option_fmap from_option]. simpl (default _ _).
  rewrite <-Hid. pose proof (kept_shows id off page) as Hks.
  assert (∀ {A} F (cont : answer unit → Prog ExtractionCall A), kept F →
    (∀ w, F w → shows off page w ∧ passed_over kept_of cfg id (xw_log w) (take (S i) page)) →
    (∀ r, only_calls (leaves_pointer id) (cont r)) → reads (Call (SetCursor id (Some (sm_id x))) cont) (facts k F)) as Hset.
  { intros A F cont HF Hw Hc. apply (pointer_moves kept_of cfg id k F off page i x); try done. intros w [_ H]. by apply Hw. }
  apply reads_told; [done|done|]. intros events HK. destruct (already_mined kept_of events) as [n|] eqn:Em.
  { apply Hset; [done| |done]. intros w (Hsh & Hc). split; [done|].
    apply (po_mined _ _ _ _ _ m events n); [by rewrite Hs, last_snoc|by rewrite <-Hid|done]. }
  apply (facts_weaken kept_of cfg id k _ (shows off page)); [done|by intros w [? _]|]. clear HK.
  apply reads_past; [done|done|]. intros known. apply reads_past; [done|done|]. intros now.
  apply reads_told; [done|done|]. intros extraction HK.
  destruct extraction as [e|[|words|raw_head]]; [|by apply reads_ret|by apply reads_ret|].
  - apply reads_past; [done|done|]. intros outcome. apply reads_past; [done|done|]. intros logged.
    apply Hset; [done| |by intros []]. intros w [Hsh Hc]. split; [done|]. by eapply po_read; [..|exact Hc].
  - apply reads_told; [done|done|]. intros noted HK2.
    destruct (N.leb_spec MAX_PARSE_ATTEMPTS match noted with Ok n => n | Err _ => MAX_PARSE_ATTEMPTS end) as [Hle|];
      [|by apply reads_ret].
    apply Hset; [done| |done]. intros w [[Hsh Hc] Hn]. split; [done|].
    eapply po_gave_up; [..|exact Hc|exact Hn|]; [done|done|]. by intros n ->.
Qed.

Lemma examine_page_safe k off page subject report :
  (off ≤ k)%nat → reads (examine_page kept_of cfg id subject page report) (facts k (shows off page)).
Proof.
  intros Hoff. unfold examine_page. pose proof (kept_shows id off page) as Hks.
  pose proof (carve_window_spec (spoken page) (bc_window_chars cfg)) as Hc.
  destruct (carve_window (spoken page) (bc_window_chars cfg)) as [c| |n through].
  - destruct Hc as (Hpre & Hx & _). destruct c as [|m c _] using rev_ind; [done|].
    destruct (spoken_prefix page c m Hpre) as (i & x & Hi & Hs & Hid). by apply (read_window_safe k off page c m i x).
  - destruct (Nat.leb_spec (bc_window_messages cfg) (length page)); [|by apply reads_ret].
    destruct (last page) as [x|] eqn:El; [|by apply reads_ret]. apply last_Some in El as [front ->].
    apply (pointer_moves kept_of cfg id k _ off (front ++ [x]) (length front) x); [done|done| | |done].
    + by rewrite lookup_app_r, Nat.sub_diag by lia.
    + intros w [_ Hw]. split; [done|]. rewrite take_ge by (rewrite length_app; simpl; lia). by apply po_silent.
  - destruct Hc as (c & m & Hpre & Hx & <- & Hn & Hlt & Hmin).
    destruct (spoken_prefix page c m Hpre) as (i & x & Hi & Hs & <-).
    apply (pointer_moves kept_of cfg id k _ off page i x); [done|done|done| |done].
    intros w [_ Hw]. split; [done|]. apply po_oversized; rewrite Hs; [done|lia|].
    intros q Hq Hqx. apply (anti_symm prefix); [done|]. apply Hmin; [|done]. by etrans.
Qed.

(** What was read of the pointer, and of the number of messages. *)
Definition sees (c : ExtractionCursor) (w : ExtractionWorld) : Prop :=
  ec_through c = seen_as sr_extracted_through None id (xw_store w).
Definition counted (n : N) (w : ExtractionWorld) : Prop := (N.to_nat n ≤ length (history id (xw_store w)))%nat.

Lemma kept_sees c : kept (sees c).
Proof. intros w w' (_ & _ & Hs & _) H. unfold sees. by rewrite Hs. Qed.
Lemma kept_counted n : kept (counted n).
Proof. intros w w' (_ & [new Hn] & _) H. unfold counted in *. rewrite Hn, length_app. lia. Qed.

Definition starts_behind (k : nat) (st : option CursorState) : Prop :=
  ∀ s rem off, st = Some s → unread s = Some (rem, off) → (off ≤ k)%nat.

(** What the three reads of the cursor come to, the store written between them or not: where it
    starts is not past the pointer. *)
Lemma cursor_state_safe k :
  safe extraction_handler (beside id) tracked (λ st, facts k (λ _, starts_behind k st)) (cursor_state id)
    (facts k (λ _, True)).
Proof.
  assert (∀ st F, kept F → (∀ w, facts k F w → starts_behind k st) →
    safe extraction_handler (beside id) tracked (λ st, facts k (λ _, starts_behind k st)) (Ret st) (facts k F)) as Hret.
  { intros st F HF H. apply safe_ret; [by apply facts_stable|intros w; apply facts_tracked|].
    intros w Hw. split; [apply Hw|by apply (H w)]. }
  pose proof kept_sees as Hks. pose proof kept_counted as Hkn. pose proof (kept_pure id True) as HT. unfold cursor_state.
  apply (reads_ok kept_of cfg id k _ sees); [done|done|done| |intros e; by apply Hret|].
  { intros w c _ _. simpl. unfold in_store. destruct (xw_down w); [done|]. intros [= <-]. unfold sees, extraction_cursor, seen_as.
    by destruct (cv_sessions (xw_store w) !! id). }
  intros c. assert (kept (λ w, True ∧ sees c w)) as HF by (by apply kept_and).
  apply (reads_ok kept_of cfg id k _ counted); [done|done|done| |intros e; by apply Hret|].
  { intros w n _ _. simpl. unfold in_store. destruct (xw_down w); [done|]. intros [= <-]. unfold counted.
    rewrite count_messages_history. lia. }
  intros total. assert (kept (λ w, (True ∧ sees c w) ∧ counted total w)) as HF2 by (by apply kept_and).
  destruct (ec_through c) as [anchor|] eqn:Ec; [|apply Hret; [done|]].
  2:{ intros _ _ s rem off [= <-] [= <- <-]. lia. }
  apply (reads_ok kept_of cfg id k _ (λ r _, ∀ n, r = Some n → (N.to_nat (total - n) ≤ k)%nat));
    [done|done|intros; apply kept_pure| |intros e; by apply Hret|].
  { intros w r (Hok & [Hk Hp] & _) [[_ Hc] Hn]. simpl. unfold in_store. destruct (xw_down w); [done|]. intros [= <-] n E.
    unfold sees in Hc. unfold counted in Hn. rewrite messages_after_history in E by done. rewrite <-Hc, Ec in Hp.
    destruct k as [|k']; [by rewrite take_0 in Hp|].
    destruct (position_of_last (history id (xw_store w)) k') as (m & Hl & Hpos); [by apply history_NoDup|lia|].
    rewrite Hl in Hp. injection Hp as ->. rewrite Hpos in E. injection E as <-. lia. }
  intros r. apply Hret; [apply kept_and; [done|apply kept_pure]|]. intros w [_ [_ Hr]] s rem off.
  destruct r as [n|]; intros [= <-]; [|done]. intros [= <- <-]. by apply Hr.
Qed.

Lemma examine_safe subject report : reads (examine_session kept_of cfg id subject report) tracked.
Proof.
  apply (safe_weaken _ _ _ _ _ _ (λ w, ∃ k, facts k (λ _, True) w)); [apply tracked_stable|intros w [k Hk]; by exists k|].
  apply safe_ex. intros k. unfold examine_session. eapply safe_bind; [apply cursor_state_safe|]. intros st.
  apply (facts_weaken kept_of cfg id k _ (λ _, starts_behind k st ∧ True)); [apply kept_pure|done|].
  apply facts_pure; [apply kept_pure|]. intros Hst. pose proof (kept_pure id True) as HT.
  destruct st as [s|]; [|by apply reads_ret].
  assert (∀ s', s = s' → reads (match unread s' with
    | None => Ret report
    | Some (remaining, offset) =>
        if remaining <? MIN_NEW_MESSAGES then Ret (bump WindowsSkipped 1 report) else
        let! page := GetPage id (bc_window_messages cfg) offset in
        match page with
        | Err _ => Ret report
        | Ok messages => examine_page kept_of cfg id subject messages report
        end
    end) (facts k (λ _, True))) as Hread.
  2:{ destruct s as [total|rem total|]; [by apply Hread|by apply Hread|]. apply pointer_cleared; [done|by intros []]. }
  intros s' <-. destruct (unread s) as [[rem off]|] eqn:Eu; [|by apply reads_ret].
  destruct (rem <? MIN_NEW_MESSAGES); [by apply reads_ret|]. specialize (Hst s rem off eq_refl Eu).
  apply (reads_ok kept_of cfg id k _ (shows off)); [done|done|apply kept_shows| |intros e; by apply reads_ret|].
  - intros w page (_ & [Hk _] & _) _. simpl. destruct (xw_down w); [done|]. unfold get_messages_paginated.
    destruct (get_session id (xw_store w)); [|done]. intros [= <-]. split; [lia|].
    exists (drop (bc_window_messages cfg) (drop off (history id (xw_store w)))). by rewrite take_drop.
  - intros page. apply (facts_weaken kept_of cfg id k _ (shows off page)); [apply kept_and; [done|apply kept_shows]|by intros w [_ ?]|].
    by apply examine_page_safe.
Qed.

(** ** A pass *)

Lemma gather_leaves cs acc report : only_calls (leaves_pointer id) (gather cfg cs acc report).
Proof.
  revert acc report. induction cs as [|c cs IH]; intros acc report; [done|]. simpl. split; [done|].
  intros [cursor|]; [|apply IH]. destruct (MAX_PARSE_ATTEMPTS <=? _); [apply IH|]. split; [done|].
  intros identity. destruct (resolve_window_subject _ _ _); apply IH.
Qed.

Lemma examine_any_safe i subject report : reads (examine_session kept_of cfg i subject report) tracked.
Proof.
  destruct (decide (i = id)) as [->|Hne]; [apply examine_safe|]. apply leaves_safe.
  eapply only_calls_mono; [|apply examine_within]. intros R c. destruct c; simpl; try done. congruence.
Qed.

Lemma reads_passing {A R} (c : ExtractionCall R) (cont : R → Prog ExtractionCall A) :
  leaves_pointer id R c → (∀ r, reads (cont r) tracked) → reads (Call c cont) tracked.
Proof.
  intros Hc Hk. apply (safe_bind _ _ _ _ (λ _, tracked) (Call c Ret) cont); [|done]. by apply leaves_safe.
Qed.

Lemma tracked_ret {A} (a : A) : reads (Ret a) tracked.
Proof. by apply leaves_safe. Qed.

Lemma pass_loop_safe started ordered subjects report : reads (pass_loop kept_of cfg started ordered subjects report) tracked.
Proof.
  revert subjects report. induction ordered as [|c ordered IH]; intros subjects report; cbn [pass_loop]; [apply tracked_ret|].
  destruct (model_call_budget cfg <=? _)%nat; [apply tracked_ret|]. destruct (bc_sessions_per_pass cfg <=? _)%nat; [apply tracked_ret|].
  assert (∀ late : bool, reads
    (if late then Ret (out_of_time report) else
     let! cancelled := PassCancelled in
     if (cancelled : bool) then Ret report else
     match subjects !! sc_id c with
     | None => pass_loop kept_of cfg started ordered subjects report
     | Some subject =>
         prog_bind (examine_session kept_of cfg (sc_id c) subject report) (λ report,
           pass_loop kept_of cfg started ordered (delete (sc_id c) subjects) report)
     end) tracked) as Hk.
  { intros []; [apply tracked_ret|]. apply reads_passing; [done|]. intros []; [apply tracked_ret|]. cbv beta iota.
    destruct (subjects !! sc_id c); [|apply IH]. eapply safe_bind; [apply examine_any_safe|]. intros report'. apply IH. }
  unfold out_of_deadline. destruct (0 <? _)%nat; [|apply (Hk false)]. apply reads_passing; [done|]. intros now. apply Hk.
Qed.

Lemma pass_tracked : reads (run_pass kept_of cfg) tracked.
Proof.
  unfold run_pass. apply reads_passing; [done|]. intros usable. destruct (negb usable); [apply tracked_ret|].
  apply reads_passing; [done|]. intros [sessions|e]; [|apply tracked_ret].
  eapply safe_bind; [apply leaves_safe, gather_leaves|]. intros [with_cursors report].
  apply reads_passing; [done|]. intros started. eapply safe_bind; [apply pass_loop_safe|]. intros report'. apply tracked_ret.
Qed.
End reading_safe.

(** ** Whom a pass asks about *)

Section asking.
Context (kept_of : text → option N) (cfg : BatchExtractionConfig).

Lemma gather_concerns cs acc report : only_calls (concerns (λ _ _, False)) (gather cfg cs acc report).
Proof.
  revert acc report. induction cs as [|c cs IH]; intros acc report; [done|]. simpl. split; [done|].
  intros [cursor|]; [|apply IH]. destruct (MAX_PARSE_ATTEMPTS <=? _); [apply IH|]. split; [done|].
  intros identity. destruct (resolve_window_subject _ _ _); apply IH.
Qed.

Lemma concerns_mono (ok ok' : text → WindowSubject → Prop) R (c : ExtractionCall R) :
  (∀ id s, ok id s → ok' id s) → concerns ok R c → concerns ok' R c.
Proof. intros H. destruct c; simpl; try done; [|by apply H]. intros (id & s & Hs & ->). eauto. Qed.

Lemma same_call ok R (c : ExtractionCall R) r S (d : ExtractionCall S) s :
  (existT R (c, r) : {R : Type & (ExtractionCall R * R)%type}) = existT S (d, s) → concerns ok S d → concerns ok R c.
Proof.
  intros H Hd. change (match existT R (c, r) : {R : Type & (ExtractionCall R * R)%type} with existT _ (c, _) => concerns ok _ c end).
  by rewrite H.
Qed.

(** What a pass that got to its loop did: it gathered the subjects, and went through them. *)
Lemma run_pass_path l report : path (run_pass kept_of cfg) l report →
  (asked l = O ∧ ∀ R (c : ExtractionCall R) r, called c r l → concerns (λ _ _, False) R c) ∨
  ∃ sessions with_cursors report1 report2 started ordered l1 l2,
    path (gather cfg (candidates_of sessions) [] empty_report) l1 (with_cursors, report1) ∧
    path (pass_loop kept_of cfg started ordered (collect_map ((λ p, (sc_id p.1, p.2)) <$> with_cursors)) report1) l2 report2 ∧
    (∀ e, e ∈ l1 → e ∈ l) ∧ asked l = (asked l1 + asked l2)%nat ∧
    ∀ R (c : ExtractionCall R) r, called c r l → concerns (λ _ _, False) R c ∨ called c r l1 ∨ called c r l2.
Proof.
  unfold run_pass. intros H. apply path_inv in H as (usable & l1 & -> & H). destruct (negb usable).
  { apply path_inv in H as [-> _]. left. split; [done|]. intros R c r Hc. apply elem_of_one in Hc. by eapply same_call. }
  apply path_inv in H as ([sessions|e] & l2 & -> & H); cbv beta iota in H.
  2:{ apply path_inv in H as [-> _]. left. split; [done|]. intros R c r Hc.
      apply elem_of_cons in Hc as [Hc|Hc%elem_of_one]; by eapply same_call. }
  apply path_bind in H as ([wc report1] & l3 & l4 & -> & H1 & H). apply path_inv in H as (started & l5 & -> & H).
  apply path_bind in H as (report2 & l6 & l7 & -> & H2 & H). apply path_inv in H as [-> _]. right.
  exists sessions, wc, report1, report2, started, (order_pass (fst <$> wc)), l3, l6. split; [done|]. split; [done|].
  split; [intros ev Hev; do 2 right; by apply elem_of_app; left|].
  cbn [asked asks sum_list_with]. rewrite app_nil_r. fold (asked (l3 ++ existT _ (InstantNow, started) :: l6)).
  rewrite asked_app. split; [done|]. intros R c r Hc.
  apply elem_of_cons in Hc as [Hc|Hc]; [left; by eapply same_call|]. apply elem_of_cons in Hc as [Hc|Hc]; [left; by eapply same_call|].
  apply elem_of_app in Hc as [Hc|Hc]; [right; by left|]. apply elem_of_cons in Hc as [Hc|Hc]; [left; by eapply same_call|].
  right. by right.
Qed.

Lemma run_pass_concerns l report : path (run_pass kept_of cfg) l report →
  (asked l ≤ model_call_budget cfg)%nat ∧
  ∀ R (c : ExtractionCall R) r, called c r l → concerns (resolved_in cfg l) R c.
Proof.
  intros [[-> Hc]|(sessions & wc & r1 & r2 & started & ordered & l1 & l2 & H1 & H2 & Hin & -> & Hc)]%run_pass_path.
  { split; [lia|]. intros R c r Hcall. by eapply concerns_mono, Hc. }
  pose proof (gather_path _ _ _ _ _ _ _ H1) as (Hcalls & Hasked & Hwc).
  { apply Forall_forall. intros c (s & -> & [_ Hs]%elem_of_filter_bool)%list_elem_of_fmap. exact Hs. }
  split. { apply pass_loop_asks in H2; rewrite Hcalls in *; simpl in *; lia. }
  intros R c r [H|[H|H]]%Hc; [by eapply concerns_mono, H| |].
  - eapply concerns_mono; [|by eapply only_calls_path; [apply gather_concerns|exact H1|]]. done.
  - eapply concerns_mono; [|by eapply only_calls_path; [apply pass_loop_concerns|exact H2|]].
    intros id s Hs%collect_map_Some. apply list_elem_of_fmap in Hs as ([cand s'] & [= -> ->] & Hp).
    apply Hwc in Hp as [Hp|Hp]; [by apply not_elem_of_nil in Hp|]. by eapply resolved_in_sub, Hp.
Qed.
End asking.

Lemma resolve_named identity roster fallback subject : has_several_members roster = true →
  resolve_window_subject identity roster fallback = NamedSubject subject →
  ∃ p name, si_profile_id identity = Some p ∧ display_name roster p = Some name ∧ subject = member_subject p (trim name).
Proof.
  unfold resolve_window_subject. intros ->. destruct (si_profile_id identity) as [p|]; [|done].
  destruct (display_name roster p) as [name|] eqn:E; [|done]. destruct (is_empty (trim name)); [done|].
  intros [= <-]. by exists p, name.
Qed.

(** ** Properties *)

(** C29: the walk leaves nothing behind unread and unsaid. While a conversation is only added to, at times
    that do not go back, and only the pass moves its pointer, whatever else runs between the calls: at
    every moment of a pass the pointer of the conversation is at a message, and each message up to it lies
    in a stretch that the extractor was shown and answered, that it failed to answer readably for the last
    time, that is one exchange longer than the budget, that is a whole page without an exchange, or that
    the events say was mined before. Without that it need not: [an_edit_mid_pass_is_never_read]. *)
Theorem walk_passes_nothing_unseen kept_of cfg id w k c :
  table_ok (xw_store w) → cursor_at id k (xw_store w) →
  walked kept_of cfg id (xw_log w) (history id (xw_store w)) k →
  star (config_step extraction_handler (beside id)) (run_pass kept_of cfg, w) c →
  ∃ k', cursor_at id k' (xw_store c.2) ∧ walked kept_of cfg id (xw_log c.2) (history id (xw_store c.2)) k'.
Proof.
  intros Hok Hc Hw Hs.
  destruct (safe_sound extraction_handler (beside id) (tracked kept_of cfg id) (λ _, tracked kept_of cfg id)
              (run_pass kept_of cfg) (tracked kept_of cfg id) w c) as [(k' & _ & H1 & H2) _];
    [apply pass_tracked|by exists k|done|by exists k'].
Qed.

(** C30: nobody's conversation is mined under another's name. In every way a pass can go, the model is asked
    within the budget, and only of conversations a person had, each under the subject that the
    identity its store gave it resolves to; the memories it is shown beside are read in the scope of
    such a subject. Where several members live, that is always one of them, by the name the
    household gives them: a conversation nobody is named in is never sent. *)
Theorem only_the_named_are_mined kept_of cfg l report :
  path (run_pass kept_of cfg) l report →
  (asked l ≤ model_call_budget cfg)%nat ∧
  (∀ w r, called (ExtractWindow w) r l → resolved_in cfg l (ew_session_id w) (ew_subject w)) ∧
  (∀ scope ms r, called (KnownMemories scope ms) r l →
     ∃ id subject, resolved_in cfg l id subject ∧ scope = subject_scope subject) ∧
  (has_several_members (bc_roster cfg) = true → ∀ id subject, resolved_in cfg l id subject →
     ∃ identity p name, called (ReadIdentity id) (Ok identity) l ∧ si_profile_id identity = Some p ∧
       display_name (bc_roster cfg) p = Some name ∧ subject = member_subject p (trim name)).
Proof.
  intros [Hasked Hl]%run_pass_concerns. split; [done|]. split; [|split].
  - intros w r Hc. exact (Hl _ _ _ Hc).
  - intros scope ms r Hc. exact (Hl _ _ _ Hc).
  - intros Hm id subject (_ & [identity|e] & Hc & Hr).
    + destruct (resolve_named _ _ _ _ Hm Hr) as (p & name & H). by exists identity, p, name.
    + by destruct (resolve_named _ _ _ _ Hm Hr) as (p & name & H & _).
Qed.

(** ** Runs *)

Definition no_outcome : WindowOutcome :=
  {| wo_bands := {| bh_same := 0; bh_related := 0; bh_fresh := 0; bh_unscored := 0 |}; wo_written := 0; wo_refused := 0;
     wo_dated := 0; wo_dates_lost := 0; wo_demoted := 0; wo_reminders := 0; wo_reminders_stored := 0;
     wo_reminders_deduped := 0; wo_reminders_lost := 0; wo_dropped_onto := [] |}.

(** An outside with these conversations, all Ada's, and this extractor. *)
Definition outside_of (sessions : list text) (extractor : ExtractionWindow → result WindowExtraction ExtractionError) :
    ∀ R, ExtractionCall R → R := λ R c,
  match c in ExtractionCall R return R with
  | EmbedderIsUsable => true
  | ListSessions => Ok ((λ id, {| Activity.se_id := id; Activity.se_profile_id := Some (lit "p1"); Activity.se_created_at := 0;
                                  Activity.se_updated_at := 0 |}) <$> sessions)
  | ReadIdentity _ => Ok {| si_profile_id := Some (lit "p1"); si_source := Explicit; si_confidence := None |}
  | GetEvents _ _ => Ok []
  | LogEvent _ _ _ => Ok tt
  | KnownMemories _ _ => []
  | ExtractWindow w => extractor w
  | DisposeCandidates _ _ _ _ _ _ _ => no_outcome
  | UtcNow => 0%Z
  | InstantNow => 0
  | PassCancelled => false
  | ReadCursor _ | CountMessages _ | MessagesAfter _ _ | GetPage _ _ _ | SetCursor _ _ | NoteAttempt _ =>
      Err (StorageError [])
  end.

Definition home_config (sessions_per_pass : nat) : BatchExtractionConfig :=
  with_household [(lit "p1", lit "Ada"); (lit "p2", lit "Grace")]
    (from_settings {| xs_user_name := lit "Friend"; xs_mode := lit " Write"; xs_sessions_per_pass := sessions_per_pass;
                      xs_window_messages := 20; xs_max_facts := 3; xs_assistant_name := lit "Pond";
                      xs_date_proposals_enabled := true |}).

Definition reading_world (cv : Conversations) (outside : ∀ R, ExtractionCall R → R) : ExtractionWorld :=
  {| xw_store := cv; xw_now := 200; xw_down := None; xw_outside := outside; xw_log := [] |}.
Definition tea_reading : ExtractionWorld :=
  reading_world Summary.tea_chat (outside_of [lit "s"] (λ _, Ok {| we_memories := []; we_reminders := []; we_rejected := 0 |})).

Definition no_json : text → option N := λ _, None.

(** Ten messages, read in one window. *)
Lemma walk_passes_nothing_unseen_witness :
  table_ok (xw_store tea_reading) ∧ cursor_at (lit "s") 0 (xw_store tea_reading) ∧
  walked no_json (home_config 3) (lit "s") (xw_log tea_reading) (history (lit "s") (xw_store tea_reading)) 0 ∧
  ∃ c k, star (config_step extraction_handler (beside (lit "s"))) (run_pass no_json (home_config 3), tea_reading) c ∧
    seen_as sr_extracted_through None (lit "s") (xw_store c.2) = Some (lit "m10") ∧
    cursor_at (lit "s") k (xw_store c.2) ∧
    walked no_json (home_config 3) (lit "s") (xw_log c.2) (history (lit "s") (xw_store c.2)) k.
Proof.
  pose proof Summary.tea_chat_ok as Hok.
  assert (cursor_at (lit "s") 0 (xw_store tea_reading)) as Hc by (split; [lia|by vm_compute]).
  pose proof (walked_none no_json (home_config 3) (lit "s") (xw_log tea_reading) (history (lit "s") (xw_store tea_reading))) as Hw.
  split; [exact Hok|]. split; [exact Hc|]. split; [exact Hw|].
  pose proof (run_steps extraction_handler (beside (lit "s")) (run_pass no_json (home_config 3)) tea_reading) as Hs.
  destruct (walk_passes_nothing_unseen no_json (home_config 3) (lit "s") tea_reading 0 _ Hok Hc Hw Hs) as (k & H1 & H2).
  eexists _, k. split; [exact Hs|]. split; [by vm_compute|]. split; [exact H1|exact H2].
Defined.

(** Of a household of two, a conversation of Ada's. *)
Lemma only_the_named_are_mined_witness :
  ∃ l report, path (run_pass no_json (home_config 3)) l report ∧ asked l = 1%nat ∧
    (asked l ≤ model_call_budget (home_config 3))%nat ∧ has_several_members (bc_roster (home_config 3)) = true.
Proof.
  pose proof (trace_path extraction_handler (run_pass no_json (home_config 3)) tea_reading) as H.
  destruct (only_the_named_are_mined no_json (home_config 3) _ _ H) as [Hasked _].
  eexists _, _. split; [exact H|]. split; [by vm_compute|]. split; [exact Hasked|done].
Defined.

(** The three reads of the cursor are not one: two messages that come between the count and the
    question what follows the pointer make it start two before it, on messages already read. *)
Definition half_read : Conversations := (set_extraction_cursor 150 (lit "s") (Some (lit "m4")) Summary.tea_chat).2.
Example a_message_in_between_is_read_twice :
  ∃ c, star (config_step extraction_handler (beside (lit "s"))) (cursor_state (lit "s"), reading_world half_read (xw_outside tea_reading)) c ∧
    cursor_at (lit "s") 4 half_read ∧ c.1 = Ret (Some (InProgress 8 10)) ∧ unread (InProgress 8 10) = Some (8, 2%nat).
Proof.
  set (w := reading_world half_read (xw_outside tea_reading)).
  set (two := λ c : Prog ExtractionCall (option CursorState) * ExtractionWorld, default c (call_step extraction_handler c)).
  set (c2 := two (two (cursor_state (lit "s"), w))).
  set (cv1 := (add_message 200 (lit "s") (Summary.msg 11) half_read).2).
  set (cv2 := (add_message 200 (lit "s") (Summary.msg 12) cv1).2).
  exists (two (c2.1, with_log cv2 (xw_log c2.2) c2.2)). split; [|split; [split; [vm_compute; lia|by vm_compute]|split; by vm_compute]].
  assert (∀ m cv, forallb (λ r, (mr_created_at r <=? 200)%Z) (ordered_rows (lit "s") cv) = true →
    goes_on sr_extracted_through (lit "s") cv (add_message 200 (lit "s") m cv).2) as Hadd.
  { intros m cv Hle. apply go_add. intros _ r Hr. rewrite forallb_elem_of in Hle. by apply Z.leb_le, Hle. }
  assert (∀ c, match c.1 with Ret _ => False | Call _ _ => True end →
    config_step extraction_handler (beside (lit "s")) c (two c)) as Hcall
    by (intros c H; apply cs_call, call_step_taken, H).
  eapply star_step; [apply Hcall; exact I|]. eapply star_step; [apply Hcall; vm_compute; exact I|]. fold c2.
  eapply star_step; [apply (env_step extraction_handler (beside (lit "s")) c2 (with_log cv1 (xw_log c2.2) c2.2))|].
  { apply be_store. change (xw_store c2.2) with half_read. apply Hadd. vm_compute. reflexivity. }
  eapply star_step; [apply (env_step extraction_handler (beside (lit "s")) (c2.1, with_log cv1 (xw_log c2.2) c2.2) (with_log cv2 (xw_log c2.2) c2.2))|].
  { apply (be_store (lit "s") cv2 (with_log cv1 (xw_log c2.2) c2.2)). apply Hadd. vm_compute. reflexivity. }
  eapply star_step; [apply Hcall; vm_compute; exact I|apply star_refl].
Qed.

(** An edit and what is said after it, between the question what follows the pointer and the page: the
    place counted before the edit is kept, so the first two of the new messages are behind the pointer,
    and no pass ever shows them to the extractor. *)
Definition shown (log : trail) : list text :=
  concat ((λ e : {R : Type & (ExtractionCall R * R)%type},
     match e with existT _ (c, _) => match c with ExtractWindow w => wm_id <$> ew_messages w | _ => [] end end) <$> log).
Definition half_read_calls : nat := 9.
Definition counted_before : Prog ExtractionCall PassReport * ExtractionWorld :=
  calls_made extraction_handler half_read_calls (run_pass no_json (home_config 3), reading_world half_read (xw_outside tea_reading)).
Definition edited_chat : Conversations :=
  Summary.add_all (lit "s") (Summary.msg <$> [11; 12; 13; 14; 15; 16]) (delete_messages_from 100 (lit "s") (lit "m3") half_read).2.
Definition after_edit : PassReport * ExtractionWorld :=
  run extraction_handler counted_before.1 (with_log edited_chat (xw_log counted_before.2) counted_before.2).
Example an_edit_mid_pass_is_never_read :
  sm_id <$> history (lit "s") (xw_store after_edit.2) = lit <$> ["m1"; "m2"; "m11"; "m12"; "m13"; "m14"; "m15"; "m16"]%string ∧
  seen_as sr_extracted_through None (lit "s") (xw_store after_edit.2) = Some (lit "m16") ∧
  shown (xw_log after_edit.2) = lit <$> ["m13"; "m14"; "m15"; "m16"]%string.
Proof. vm_compute. repeat split. Qed.

(** Given up, and the pointer not moved past it: the third note was stored, the pointer was not. No
    pass asks about the conversation again. *)
Definition three_notes : Conversations :=
  let note cv := (note_extraction_attempt (lit "s") cv).2 in note (note (note Summary.tea_chat)).
Example a_failed_step_past_is_for_ever :
  let w := reading_world three_notes (xw_outside tea_reading) in
  ec_through (extraction_cursor (lit "s") three_notes) = None ∧
  let '(l, report) := trace extraction_handler (run_pass no_json (home_config 3)) w in
  asked l = O ∧ pr_blocked_on report = None ∧ pr_count report WindowsSkipped = O ∧
  xw_store (run extraction_handler (run_pass no_json (home_config 3)) w).2 = three_notes.
Proof. split; [by vm_compute|]. vm_compute. repeat split. Qed.

(** Conversations [a], nothing new in it, [b], on which the provider always fails, and [c]: a failure
    moves nothing and leaves no stamp, so [b] is the head of the backlog again, and a pass with one
    call for it never gets to [c]. *)
Definition three_chats : Conversations :=
  let chat id ms cv := Summary.add_all id (Summary.msg <$> ms) (create_session 100 id cv).2 in
  chat (lit "c") [5; 6] (chat (lit "b") [3; 4] (chat (lit "a") [1] no_conversations)).
Definition failing_world : ExtractionWorld :=
  reading_world three_chats (outside_of [lit "a"; lit "b"; lit "c"] (λ w,
    if bool_decide (ew_session_id w = lit "b") then Err (ProviderFailed [])
    else Ok {| we_memories := []; we_reminders := []; we_rejected := 0 |})).
Example a_failing_conversation_blocks_the_backlog :
  let '(report, w) := run extraction_handler (run_pass no_json (home_config 1)) failing_world in
  pr_count report ModelCalls = 1%nat ∧ pr_count report ProviderFailures = 1%nat ∧ xw_store w = three_chats.
Proof. vm_compute. repeat split. Qed.
