(* ===== verification/Open.v ===== *)
(** * Open: storing a new long task

    [crates/pond-core/src/shared/services/long_task_open.rs]: [open_task], a program over the
    calls of the [LongTaskRepository] port. The instants it reads ([Utc::now]) and the random id
    of the brief's artifact are arguments. The runner's bell only wakes the runner up; it
    neither reads nor writes the store and is left out. *)
From S2P Require Import Prelude Prog Text Scope LongTask HandBack Step PlanCycle Plan.
From S2P Require Import Artifact Ledger Runner.
Local Open Scope N_scope.

Record OpeningBrief := { ob_summary : text; ob_body : text }.

(** The instants of [open_task]'s calls to the clock, in the order of its text. *)
Record OpenClock := { oc_paused : Z; oc_brief : Z; oc_running : Z; oc_cancelled : Z }.

Section opening.
Context (clock : OpenClock) (uuid : text).

(** [Err(e)] of the [started] block: the task is cancelled, whatever that answers. *)
Definition cancel_and_fail (id : text) (e : RepoError) : Prog RepoCall (result LongTask RepoError) :=
  Call (SetTaskState id Cancelled (oc_cancelled clock)) (λ _, Ret (Err e)).

Definition start_short (task : LongTask) : Prog RepoCall (result LongTask RepoError) :=
  match short_answer_plan task with
  | Err e => cancel_and_fail (task_id task) (InvalidPlan e)
  | Ok plan =>
      Call (ReplaceOpenSteps plan) (λ r,
        match r with
        | Err e => cancel_and_fail (task_id task) e
        | Ok _ =>
            Call (SetTaskState (task_id task) Running (oc_running clock)) (λ r,
              match r with
              | Ok (Some running) => Ret (Ok running)
              | Ok None => cancel_and_fail (task_id task) (Vanished (task_id task))
              | Err e => cancel_and_fail (task_id task) e
              end)
        end)
  end.

Definition store_brief (task : LongTask) (brief : option OpeningBrief)
    (k : Prog RepoCall (result LongTask RepoError)) : Prog RepoCall (result LongTask RepoError) :=
  match brief with
  | None => k
  | Some b =>
      match Artifact_new uuid (task_id task) None Note BRIEF_TITLE (ob_summary b) (ob_body b)
              (oc_brief clock) with
      | Err e => Ret (Err (Invalid e))
      | Ok artifact => await_ok (InsertArtifact artifact) (λ _, k)
      end
  end.

Definition open_task (task : LongTask) (brief : option OpeningBrief) :
    Prog RepoCall (result LongTask RepoError) :=
  let quick := bool_decide (task_answer task = Short) in
  match (if quick then transition_to task Paused (oc_paused clock) else Ok task) with
  | Err e => Ret (Err (TaskRefused e))
  | Ok task =>
      await_ok (CreateTask task) (λ _,
        store_brief task brief (if quick then start_short task else Ret (Ok task)))
  end.
End opening.

(** ** What is seen of the task while it opens *)

(** Everyone else's calls: they do not know the new task's id, so none writes to it. *)
Definition others (id : text) (l l' : Ledger) : Prop :=
  ∃ R (c : RepoCall R), admissible c ∧ writes_to c ≠ Some id ∧ l' = (repository R c l).2.

(** A moment at which the ledger holds just this of the task. *)
Definition holding (id : text) (v : option LongTask * list PlanStep * list Artifact) (l : Ledger) : Prop :=
  ledger_ok l ∧ view id l = v.

(** The callers that do write to it: a member cancels or deletes it, the runner runs its step and ends
    it, artifacts come and go. None of them creates it again, sets it going (only its opener does), or
    writes a plan for it, which the runner has done only when it is told to plan. *)
Definition leaves_plan {R} (id : text) (c : RepoCall R) (l : Ledger) : Prop :=
  match c with
  | CreateTask t => task_id t ≠ id
  | SetTaskState i state _ => i = id → state ≠ Planning ∧ state ≠ Running
  | ReplaceOpenSteps p => vp_task_id p ≠ id
  | UpdateStep s => ps_task_id s = id → ∀ u, u ∈ lg_steps l → ps_task_id u = id → ps_key u = ps_key s → same_step u s
  | _ => True
  end.
Definition meddlers (id : text) (l l' : Ledger) : Prop :=
  ∃ R (c : RepoCall R), admissible c ∧ leaves_plan id c l ∧ l' = (repository R c l).2.

(** Whatever the hour and the failures so far, the runner would not plan this task. *)
Definition not_planned (id : text) (l : Ledger) : Prop :=
  ∀ t fruitless now reason, get_task id l = Some t →
    next_run t (list_steps id l) fruitless now ≠ RunPlan reason.

(** It would plan it only once a step of it has failed. *)
Definition planned_only_failed (id : text) (l : Ledger) : Prop :=
  ∀ t fruitless now reason, get_task id l = Some t → next_run t (list_steps id l) fruitless now = RunPlan reason →
    ∃ s, s ∈ list_steps id l ∧ ps_state s = StepState.Failed.

(** ** Lemmas *)

Lemma holding_stable id v : stable (others id) (holding id v).
Proof.
  intros l l' (R & c & Hc & Hw & ->) [Hl Hv]. split; [by apply call_ledger_ok|].
  by rewrite call_frame.
Qed.

Lemma view_list_steps id l l' : view id l = view id l' → list_steps id l = list_steps id l'.
Proof. unfold view, list_steps. by intros [= _ -> _]. Qed.

Lemma holding_call {R} (c : RepoCall R) id v l :
  holding id v l → admissible c → holding id (view id (repository R c l).2) (repository R c l).2.
Proof. intros [Hl _] Hc. split; [by apply call_ledger_ok|done]. Qed.

(** The plan of a short answer: one fresh step that waits for nothing. *)
Definition short_step (id : text) : PlanStep :=
  {| ps_task_id := id; ps_key := SHORT_ANSWER_KEY; ps_ordinal := 1; ps_role := trim WORKER_ROLE;
     ps_instructions := trim SHORT_ANSWER_STEP; ps_inputs := []; ps_depends_on := [];
     ps_acceptance := None; ps_state := StepState.Pending; ps_attempts := 0; ps_summary := None;
     ps_failure := None; ps_started_at := None; ps_finished_at := None; ps_agent := None |}.
Definition lone_plan (id : text) (s : PlanStep) : ValidatedPlan :=
  {| vp_task_id := id; vp_steps := [s]; vp_kept := []; vp_relaxed := [] |}.
Definition short_plan (id : text) : ValidatedPlan := lone_plan id (short_step id).

Lemma short_plan_spec task :
  is_terminal (task_state task) = false → 1 ≤ max_steps (task_budget task) →
  short_answer_plan task = Ok (short_plan (task_id task)).
Proof.
  intros Ht Hb. unfold short_answer_plan, validate_plan. rewrite Ht. cbn [find_first List.find].
  change (kept_steps []) with (@nil PlanStep). cbn [is_empty andb length Nat.add].
  rewrite (proj2 (N.ltb_ge _ _)) by exact Hb. vm_compute. reflexivity.
Qed.

(** A task's one step, not started and waiting for nothing. *)
Definition lone (id : text) (s : PlanStep) : Prop :=
  ps_task_id s = id ∧ ps_state s = StepState.Pending ∧ ps_depends_on s = [].

Lemma short_step_lone id : lone id (short_step id).
Proof. done. Qed.

Lemma lone_never_blocked s : ps_depends_on s = [] → blocked_steps [s] = [].
Proof.
  intros Hd. destruct (blocked_steps [s]) as [|x l] eqn:E; [done|]. exfalso.
  assert (x ∈ blocked_steps [s]) as Hx by (rewrite E; left). apply elem_of_blocked_steps in Hx as [_ Hx].
  destruct Hx as [y dep Hy _ Hdep _|y dep Hy _ Hdep _]; apply elem_of_one in Hy as ->;
    rewrite Hd in Hdep; by apply elem_of_nil in Hdep.
Qed.

(** The runner, asked about a running task whose one step is that one, starts it. *)
Lemma lone_step_next t s fruitless now reason :
  task_state t = Running → lone (task_id t) s → next_run t [s] fruitless now ≠ RunPlan reason ∧
  (deadline_passed (task_budget t) now = false → next_run t [s] 0 now = Do s).
Proof.
  intros Hs (_ & Hp & Hd). unfold next_run. rewrite Hs.
  rewrite (bool_decide_eq_false_2 (Running = Planning)) by done. cbn [orb is_empty].
  set (rest := match min_by _ _ with Some _ => _ | None => _ end).
  assert (rest = Do s) as ->; [|split; [destruct (deadline_passed _ _); [done|]; by destruct (_ <=? _)|by intros ->]].
  unfold rest. assert (may_retry_step s = false) as Hr by (unfold may_retry_step; by rewrite Hp). simpl. rewrite Hr. simpl.
  rewrite (lone_never_blocked s Hd). simpl. unfold next_ready_step. simpl. unfold is_pending, waits_met. by rewrite Hp, Hd.
Qed.

(** And whatever became of that step, it is planned anew only if the step failed. *)
Lemma lone_step_plan t s fruitless now reason :
  task_state t ≠ Planning → ps_depends_on s = [] → next_run t [s] fruitless now = RunPlan reason → ps_state s = StepState.Failed.
Proof.
  intros Hs Hd. unfold next_run. assert (bool_decide (task_state t = Planning) = false) as -> by by apply bool_decide_eq_false.
  cbn [orb is_empty]. set (rest := match min_by _ _ with Some _ => _ | None => _ end).
  assert (∀ r, rest = RunPlan r → ps_state s = StepState.Failed) as Hrest.
  { unfold rest. destruct (min_by _ _); [done|]. rewrite (lone_never_blocked s Hd). cbn [is_empty negb]. destruct (next_ready_step _); [done|].
    destruct (forallb _ _); [done|]. cbn [existsb]. rewrite orb_false_r. case_bool_decide; done. }
  intros H. destruct (task_state t); try done; (destruct (deadline_passed _ _); [done|]); (destruct (_ <=? _); [done|]); by eapply Hrest.
Qed.

(** *** What each of [open_task]'s calls does to the view of its task. *)

Lemma holding_missing id l : ledger_ok l → get_task id l = None → holding id (None, [], []) l.
Proof.
  intros Hl Hg. split; [done|]. unfold view. rewrite Hg. apply get_task_None in Hg.
  rewrite !filter_none; [done| |].
  - intros a Ha. apply artifact_of_false. intros E. apply Hg. rewrite <-E. by apply (lo_artifact_task _ Hl).
  - intros s Hs. apply of_task_false. intros E. apply Hg. rewrite <-E. by apply (lo_step_task _ Hl).
Qed.

Lemma create_holding task l : well_formed task → end_stamped task →
  holding (task_id task) (None, [], []) l →
  ∀ r l', repository _ (CreateTask task) l = (r, l') →
    r = Ok tt ∧ holding (task_id task) (Some task, [], []) l'.
Proof.
  intros Hw He Hh r l' E0. pose proof (holding_call (CreateTask task) _ _ l Hh (conj Hw He)) as [Hok _].
  rewrite E0 in Hok. destruct Hh as [_ [= Hg Hs Ha]]. revert E0.
  unfold repository, MockLongTaskRepository, create_task. destruct (existsb (is_task (task_id task)) (lg_tasks l)) eqn:E.
  { apply existsb_tasks in E. apply get_task_None in Hg. done. }
  intros [= <- <-]. split; [done|]. split; [exact Hok|]. unfold view. simpl. rewrite Hs, Ha. f_equal. f_equal.
  unfold get_task. apply find_first_app; [|by apply is_task_true].
  apply find_first_None. exact Hg.
Qed.

Lemma set_state_holding id t t' state at_ ss rs l : transition_to t state at_ = Ok t' →
  holding id (Some t, ss, rs) l →
  ∀ r l', repository _ (SetTaskState id state at_) l = (r, l') →
    r = Ok (Some t') ∧ holding id (Some t', ss, rs) l'.
Proof.
  intros Ht Hh r l' E0. pose proof (holding_call (SetTaskState id state at_) _ _ l Hh I) as [Hok _].
  rewrite E0 in Hok. destruct Hh as [Hl [= Hg Hs Ha]]. revert E0.
  unfold repository, MockLongTaskRepository, set_task_state. rewrite Hg, Ht. intros [= <- <-].
  split; [done|]. split; [exact Hok|].
  unfold view. simpl. rewrite Hs, Ha. f_equal. f_equal. unfold get_task. simpl.
  pose proof Hg as (l1 & l2 & _ & Hid & Hl1 & ->)%find_first_split.
  apply find_first_app; [exact Hl1|]. apply is_task_true in Hid. apply is_task_true.
  apply transition_to_ok in Ht as (_ & (-> & _) & _). done.
Qed.

Lemma insert_artifact_holding id t rs a l : ar_task_id a = id →
  holding id (Some t, [], rs) l → ∃ rs', holding id (Some t, [], rs') (insert_artifact a l).2.
Proof.
  intros <- Hh. pose proof (holding_call (InsertArtifact a) _ _ l Hh I) as Hok.
  unfold repository, MockLongTaskRepository in Hok. destruct Hh as [_ [= Hg Hs _]].
  exists (List.filter (artifact_of (ar_task_id a)) (lg_artifacts (insert_artifact a l).2)).
  destruct Hok as [Hok _]. split; [exact Hok|]. unfold view. f_equal. f_equal.
  - rewrite <-Hg. unfold get_task. f_equal. by apply (call_tasks_same (InsertArtifact a)).
  - rewrite <-Hs. f_equal. by apply (call_steps_same (InsertArtifact a)).
Qed.

Lemma replace_lone_holding t s rs l :
  is_terminal (task_state t) = false → plan_ok t [] (lone_plan (task_id t) s) →
  holding (task_id t) (Some t, [], rs) l →
  ∀ r l', repository _ (ReplaceOpenSteps (lone_plan (task_id t) s)) l = (r, l') →
    r = Ok tt ∧ holding (task_id t) (Some t, [s], rs) l'.
Proof.
  intros Ht Hok Hh r l' E0. pose proof (plan_ok_writable _ _ _ Hok) as Hpw.
  pose proof (holding_call (ReplaceOpenSteps (lone_plan (task_id t) s)) _ _ l Hh Hpw) as [Hl' _].
  rewrite E0 in Hl'. destruct Hh as [Hl [= Hg Hs Ha]].
  assert (replace_open_steps (lone_plan (task_id t) s) l =
    (Ok tt, with_steps (List.filter (kept_by_replan (task_id t)) (lg_steps l) ++ [s]) l)) as E.
  { apply replace_open_steps_ok. split; [by exists t|]. split; [|done]. simpl. rewrite Hs.
    apply (plan_ok_current t [] _ (NoDup_nil_2) Hok). }
  unfold repository, MockLongTaskRepository in E0. rewrite E in E0. injection E0 as <- <-.
  split; [done|]. split; [exact Hl'|]. unfold view. simpl. rewrite Ha.
  f_equal. f_equal; [exact Hg|].
  pose proof (filter_of_task_replanned (lone_plan (task_id t) s) l Hpw) as Hf. simpl in Hf.
  rewrite Hs in Hf. exact Hf.
Qed.

(** The runner leaves a task alone that is not there, paused or cancelled, or has its one step. *)
Lemma holding_not_planned id o ss rs l :
  holding id (o, ss, rs) l →
  (∀ t, o = Some t → task_state t = Paused ∨ task_state t = Cancelled ∨
     (task_state t = Running ∧ ∃ s, lone (task_id t) s ∧ ss = [s])) →
  not_planned id l.
Proof.
  intros [_ [= Hg Hs _]] Ho t fruitless now reason Ht. rewrite Hg in Ht.
  destruct (Ho t Ht) as [E|[E|(E & s & Hl & ->)]]; [unfold next_run; by rewrite E..|].
  unfold list_steps. rewrite Hs. by apply (lone_step_next t s fruitless now reason).
Qed.

(** What is said when [open_task] has answered. *)
Definition opened (id : text) (brief : option OpeningBrief) (r : result LongTask RepoError)
    (l : Ledger) : Prop :=
  match r with
  | Ok t =>
      task_state t = Running ∧ get_task id l = Some t ∧ list_steps id l = [short_step id] ∧
      ∀ now, deadline_passed (task_budget t) now = false →
        next_run t (list_steps id l) 0 now = Do (short_step id)
  | Err _ => is_Some brief ∧ ∀ t, get_task id l = Some t → task_state t = Paused
  end.

Section safety.
Context (clock : OpenClock) (uuid : text) (brief : option OpeningBrief) (paused : LongTask).
Context (Hpaused : task_state paused = Paused) (Hbudget : 1 ≤ max_steps (task_budget paused)).

Notation id := (task_id paused).
Notation safely := (safe repository (others id) (not_planned id) (opened id brief)).

Lemma paused_not_planned ss rs l : holding id (Some paused, ss, rs) l → not_planned id l.
Proof. intros H. apply (holding_not_planned _ _ _ _ _ H). intros t [= <-]. by left. Qed.

Lemma start_short_safe rs : safely (start_short clock paused) (holding id (Some paused, [], rs)).
Proof.
  assert (is_terminal (task_state paused) = false) as Ht by by rewrite Hpaused.
  unfold start_short. rewrite short_plan_spec by assumption.
  apply safe_call; [apply holding_stable|apply paused_not_planned|].
  intros l r l' Hl E. pose proof (short_plan_spec paused Ht Hbudget) as [Hok _]%validate_plan_ok.
  destruct (replace_lone_holding paused (short_step id) rs l Ht Hok Hl r l' E) as [-> Hl'].
  exists (holding id (Some paused, [short_step id], rs)). split; [exact Hl'|].
  apply safe_call; [apply holding_stable|apply paused_not_planned|]. clear l l' Hl Hl' E.
  intros l r l' Hl E. destruct (transition_to paused Running (oc_running clock)) as [t|e] eqn:Et;
    [|unfold transition_to in Et; by rewrite Hpaused in Et].
  destruct (set_state_holding id paused t Running (oc_running clock) _ _ l Et Hl r l' E) as [-> Hl'].
  exists (holding id (Some t, [short_step id], rs)). split; [exact Hl'|].
  apply transition_to_ok in Et as (_ & Hsame & Hr & _). assert (task_id t = id) as Hid by apply Hsame.
  split; [apply holding_stable|]. split.
  { intros m Hm. apply (holding_not_planned _ _ _ _ _ Hm). intros u [= <-]. right. right. split; [done|]. exists (short_step id). by rewrite Hid. }
  intros m [Hm [= Hg Hs _]]. split; [exact Hr|]. split; [exact Hg|].
  assert (list_steps id m = [short_step id]) as -> by (unfold list_steps; by rewrite Hs).
  split; [done|]. intros now Hd. apply (lone_step_next t (short_step id) 0 now Fresh); [done|by rewrite Hid|done].
Qed.

Lemma store_brief_safe rs k :
  (∀ rs, safely k (holding id (Some paused, [], rs))) →
  safely (store_brief clock uuid paused brief k) (holding id (Some paused, [], rs)).
Proof.
  intros Hk. unfold store_brief. destruct brief as [b|] eqn:Eb; [|apply Hk].
  assert (∀ e, safe repository (others id) (not_planned id) (opened id (Some b)) (Ret (Err e))
    (holding id (Some paused, [], rs))) as Herr.
  { intros e. split; [apply holding_stable|]. split; [apply paused_not_planned|].
    intros l [_ [= Hg _ _]]. split; [by exists b|]. intros t. rewrite Hg. by intros [= <-]. }
  destruct (Artifact_new _ _ _ _ _ _ _ _) as [a|e] eqn:Ea; [|apply Herr].
  assert (ar_task_id a = id) as Hid by by apply Artifact_from_parts_ok in Ea as (_ & _ & _ & ? & _).
  apply safe_call; [apply holding_stable|apply paused_not_planned|].
  intros l [[]|e] l' Hl E; unfold repository, MockLongTaskRepository in E.
  - destruct (insert_artifact_holding id paused rs a l Hid Hl) as [rs' Hl']. rewrite E in Hl'.
    exists (holding id (Some paused, [], rs')). split; [exact Hl'|apply Hk].
  - apply insert_artifact_err in E as ->. exists (holding id (Some paused, [], rs)).
    split; [exact Hl|apply Herr].
Qed.
End safety.

(** *** Among callers that write to the task too *)

(** The task is gone, or it is not planning, not running before [act], and has no step, or the one
    of its plan, however far it got. *)
Definition phase (id : text) (act : bool) (plan : option PlanStep) (l : Ledger) : Prop :=
  ledger_ok l ∧ ∀ t, get_task id l = Some t →
    task_state t ≠ Planning ∧ (act = false → task_state t ≠ Running) ∧
    match plan with
    | None => List.filter (of_task id) (lg_steps l) = []
    | Some s0 => ∃ s, List.filter (of_task id) (lg_steps l) = [s] ∧ same_step s0 s
    end.
Definition missing (id : text) (l : Ledger) : Prop := ledger_ok l ∧ get_task id l = None.

Lemma get_task_set id t t' l : get_task id l = Some t → task_id t' = task_id t →
  get_task id (with_tasks (set_first (is_task id) t' (lg_tasks l)) l) = Some t'.
Proof.
  intros (l1 & l2 & _ & Hid & Hl1 & E)%find_first_split Ht. unfold get_task. simpl. rewrite E.
  apply find_first_app; [exact Hl1|]. apply is_task_true in Hid. apply is_task_true. congruence.
Qed.

(** What such a caller leaves of the task it writes to. *)
Lemma meddled {R} (c : RepoCall R) id l t' :
  admissible c → leaves_plan id c l → get_task id (repository R c l).2 = Some t' →
  ∃ t, get_task id l = Some t ∧ (task_state t' = task_state t ∨ (task_state t' ≠ Planning ∧ task_state t' ≠ Running)) ∧
    (List.filter (of_task id) (lg_steps (repository R c l).2) = List.filter (of_task id) (lg_steps l) ∨
     ∃ ss s s' ss', List.filter (of_task id) (lg_steps l) = ss ++ s :: ss' ∧ same_step s s' ∧
       List.filter (of_task id) (lg_steps (repository R c l).2) = ss ++ s' :: ss').
Proof.
  intros Hc Hp Hg'. destruct (decide (writes_to c = Some id)) as [Hw|Hw].
  2:{ pose proof (call_frame c l id Hc Hw) as [= E1 E2 _]. rewrite E1 in Hg'. exists t'. by auto. }
  destruct c; try discriminate Hw; injection Hw as Hw; subst; unfold repository, MockLongTaskRepository in *; simpl in *; try done.
  - unfold set_task_state in *. destruct (get_task id l) as [t|] eqn:Eg; [|simpl in Hg'; congruence].
    destruct (transition_to t state at_) as [u|e] eqn:Et; simpl in *; [|exists t; split; [done|]; split; left; congruence].
    apply transition_to_ok in Et as (_ & (Hid & _) & Hst & _). rewrite (get_task_set id t u l Eg Hid) in Hg'. injection Hg' as <-.
    exists t. split; [done|]. split; [right; by rewrite Hst; apply Hp|by left].
  - unfold decide_task_answer in *. destruct (get_task id l) as [t|] eqn:Eg; [|simpl in Hg'; congruence].
    pose proof (decide_answer_fst t answer) as Hd. destruct (decide_answer t answer) as [u b]. simpl in *.
    assert (task_id u = task_id t ∧ task_state u = task_state t) as [Hid Hst] by (by destruct Hd as [->| ->]).
    rewrite (get_task_set id t u l Eg Hid) in Hg'. injection Hg' as <-. exists t. by auto.
  - unfold update_step in *. set (mine := is_step (ps_task_id step) (ps_key step)) in *.
    destruct (find_first mine (lg_steps l)) as [u|] eqn:Ef; [|exists t'; by auto].
    destruct (negb _); [exists t'; by auto|]. simpl in *. exists t'. split; [exact Hg'|]. split; [by left|]. right.
    apply find_first_split in Ef as (l1 & l2 & E & Hu%is_step_true & _ & ->). injection Hu as Hu1 Hu2.
    exists (List.filter (of_task (ps_task_id step)) l1), u, step, (List.filter (of_task (ps_task_id step)) l2).
    rewrite E, !List.filter_app. simpl. rewrite (proj2 (of_task_true (ps_task_id step) u) Hu1), (proj2 (of_task_true (ps_task_id step) step) eq_refl).
    split; [done|]. split; [|done]. apply Hp; [done| |done|done]. rewrite E. apply elem_of_app. right. left.
  - exists t'. unfold insert_artifact in *. repeat case_match; simpl in *; by auto.
  - exfalso. unfold delete_task in Hg'. destruct (_ =? _)%nat; simpl in Hg';
      (apply find_some_iff in Hg' as [[_ Hn%negb_true_iff]%elem_of_filter_bool Hy]; congruence).
  - exists t'. by auto.
Qed.

Lemma phase_stable id act plan : stable (meddlers id) (phase id act plan).
Proof.
  intros l l' (R & c & Hc & Hp & ->) [Hl H]. split; [by apply call_ledger_ok|]. intros t' Hg'.
  destruct (meddled c id l t' Hc Hp Hg') as (t & Hg & Hst & Hss). destruct (H t Hg) as (H1 & H2 & H3).
  split; [|split].
  - destruct Hst as [->|[? _]]; done.
  - intros Ha. destruct Hst as [->|[_ ?]]; [by apply H2|done].
  - destruct Hss as [E|(ss & s & s' & ss' & E & Hsame & E')]; [by destruct plan; rewrite E|].
    destruct plan as [s0|]; [|rewrite E in H3; by destruct ss].
    destruct H3 as (s1 & E1 & H1'). rewrite E in E1. destruct ss as [|? [|]]; simplify_eq/=. exists s'. split; [done|]. by eapply same_step_trans.
Qed.

Lemma missing_stable id : stable (meddlers id) (missing id).
Proof.
  intros l l' (R & c & Hc & Hp & ->) [Hl H]. split; [by apply call_ledger_ok|].
  destruct (get_task id (repository R c l).2) as [t'|] eqn:E; [|done]. destruct (meddled c id l t' Hc Hp E) as (t & Hg & _). congruence.
Qed.

Lemma missing_phase id act plan l : missing id l → phase id act plan l.
Proof. intros [Hl Hg]. split; [done|]. intros t. by rewrite Hg. Qed.

Lemma phase_unplanned id act plan l : match plan with Some s0 => ps_depends_on s0 = [] | None => act = false end →
  phase id act plan l → planned_only_failed id l.
Proof.
  intros Hd [_ H] t fruitless now reason Hg Hn. destruct (H t Hg) as (H1 & H2 & H3). destruct plan as [s0|].
  - destruct H3 as (s & E & Hsame). unfold list_steps in *. rewrite E in *. exists s. split; [by left|].
    apply (lone_step_plan t s fruitless now reason H1); [|exact Hn]. destruct Hsame as (_ & _ & _ & _ & _ & _ & -> & _). exact Hd.
  - specialize (H2 Hd). unfold next_run in Hn. by destruct (task_state t).
Qed.

Lemma phase_list id act s0 l t : phase id act (Some s0) l → get_task id l = Some t →
  task_state t ≠ Planning ∧ ∃ s, list_steps id l = [s] ∧ same_step s0 s.
Proof.
  intros [_ H] Hg. destruct (H t Hg) as (H1 & _ & s & E & Hs). split; [done|]. exists s. split; [|done]. unfold list_steps. by rewrite E.
Qed.

(** *** What the opener's own calls do to it *)

Lemma phase_call {R} (c : RepoCall R) id act plan l r l' : phase id act plan l → admissible c → leaves_plan id c l →
  repository R c l = (r, l') → phase id act plan l'.
Proof. intros H Hc Hp E. eapply phase_stable; [|exact H]. exists R, c. split; [done|]. split; [done|]. by rewrite E. Qed.

Lemma phase_created task l r l' : well_formed task → end_stamped task → task_state task = Paused →
  missing (task_id task) l → repository _ (CreateTask task) l = (r, l') → r = Ok tt ∧ phase (task_id task) false None l'.
Proof.
  intros Hw He Hst [Hl Hg] E. destruct (create_holding task l Hw He (holding_missing _ _ Hl Hg) r l' E) as [-> [Hl' [= Hg' Hs _]]].
  split; [done|]. split; [done|]. intros t. rewrite Hg'. intros [= <-]. by rewrite Hst.
Qed.

Lemma phase_planned task s l r l' : plan_ok task [] (lone_plan (task_id task) s) →
  phase (task_id task) false None l → repository _ (ReplaceOpenSteps (lone_plan (task_id task) s)) l = (r, l') →
  match r with Ok _ => phase (task_id task) false (Some s) l' | Err _ => phase (task_id task) false None l' end.
Proof.
  intros Hok H E. pose proof (plan_ok_writable _ _ _ Hok) as Hpw.
  pose proof (call_ledger_ok (ReplaceOpenSteps (lone_plan (task_id task) s)) l (proj1 H) Hpw) as Hl'. rewrite E in Hl'.
  unfold repository, MockLongTaskRepository in E. destruct r as [[]|e]; [|apply replace_open_steps_err in E as ->; exact H].
  split; [exact Hl'|]. apply replace_open_steps_ok in E as ((t & Hg & _) & _ & ->). intros t' Hg'.
  assert (t' = t) as -> by (unfold get_task in *; simpl in *; congruence). destruct (proj2 H t Hg) as (H1 & H2 & H3).
  split; [done|]. split; [done|]. exists s. split; [|apply same_step_refl].
  pose proof (filter_of_task_replanned (lone_plan (task_id task) s) l Hpw) as Hf. simpl in *. rewrite Hf, H3. done.
Qed.

Lemma phase_started id plan at_ l r l' : phase id false plan l → repository _ (SetTaskState id Running at_) l = (r, l') →
  match r with Ok (Some t) => task_state t = Running ∧ phase id true plan l' | _ => phase id false plan l' end.
Proof.
  intros H E. pose proof (call_ledger_ok (SetTaskState id Running at_) l (proj1 H) I) as Hl'. rewrite E in Hl'.
  unfold repository, MockLongTaskRepository, set_task_state in E. destruct (get_task id l) as [t|] eqn:Eg; [|by injection E as <- <-].
  destruct (transition_to t Running at_) as [u|e] eqn:Et; injection E as <- <-; [|done].
  apply transition_to_ok in Et as (_ & (Hid & _) & Hst & _). split; [done|]. split; [exact Hl'|].
  intros t'. rewrite (get_task_set id t u l Eg Hid). intros [= <-]. split; [by rewrite Hst|]. split; [done|]. apply (proj2 H t Eg).
Qed.

(** What is said, among such callers, when [open_task] has answered. *)
Definition opened_among (id : text) (r : result LongTask RepoError) (l : Ledger) : Prop :=
  match r with
  | Ok t =>
      task_state t = Running ∧ ∀ u, get_task id l = Some u →
        task_state u ≠ Planning ∧ ∃ s, list_steps id l = [s] ∧ same_step (short_step id) s
  | Err _ => ∀ u, get_task id l = Some u → task_state u ≠ Planning ∧ task_state u ≠ Running
  end.

Section among.
Context (clock : OpenClock) (uuid : text) (brief : option OpeningBrief) (paused : LongTask).
Context (Hpaused : task_state paused = Paused) (Hbudget : 1 ≤ max_steps (task_budget paused)).

Notation id := (task_id paused).
Notation among := (safe repository (meddlers id) (planned_only_failed id) (opened_among id)).

Lemma among_err e plan : match plan with Some s0 => ps_depends_on s0 = [] | None => True end →
  among (Ret (Err e)) (phase id false plan).
Proof.
  intros Hd. apply safe_ret; [apply phase_stable|intros l; apply phase_unplanned; by destruct plan|].
  intros l [_ H] u Hg. destruct (H u Hg) as (H1 & H2 & _). by auto.
Qed.

Lemma among_cancel e plan : match plan with Some s0 => ps_depends_on s0 = [] | None => True end →
  among (cancel_and_fail clock id e) (phase id false plan).
Proof.
  intros Hd. apply safe_call; [apply phase_stable|intros l; apply phase_unplanned; by destruct plan|].
  intros l r l' Hl E. exists (phase id false plan). split; [|by apply among_err].
  eapply (phase_call (SetTaskState id Cancelled (oc_cancelled clock))); [exact Hl|exact I| |exact E]. by split.
Qed.

Lemma start_short_among : among (start_short clock paused) (phase id false None).
Proof.
  assert (is_terminal (task_state paused) = false) as Ht by by rewrite Hpaused.
  unfold start_short. rewrite short_plan_spec by assumption.
  pose proof (short_plan_spec paused Ht Hbudget) as [Hok _]%validate_plan_ok.
  apply safe_call; [apply phase_stable|intros l; by apply phase_unplanned|]. intros l r l' Hl E.
  pose proof (phase_planned paused (short_step id) l r l' Hok Hl E) as H. destruct r as [[]|e]; [|exists (phase id false None); by split; [|apply among_cancel]].
  exists (phase id false (Some (short_step id))). split; [exact H|]. clear l l' Hl H E.
  apply safe_call; [apply phase_stable|intros l; by apply phase_unplanned|]. intros l r l' Hl E.
  pose proof (phase_started _ _ _ _ _ _ Hl E) as H. destruct r as [[t|]|e];
    [|exists (phase id false (Some (short_step id))); by split; [|apply among_cancel]..].
  destruct H as [Hst H]. exists (phase id true (Some (short_step id))). split; [exact H|].
  apply safe_ret; [apply phase_stable|intros m; by apply phase_unplanned|].
  intros m Hm. split; [done|]. intros u Hu. by eapply phase_list.
Qed.

Lemma store_brief_among k : among k (phase id false None) → among (store_brief clock uuid paused brief k) (phase id false None).
Proof.
  intros Hk. unfold store_brief. destruct brief as [b|]; [|exact Hk].
  destruct (Artifact_new _ _ _ _ _ _ _ _) as [a|e]; [|by apply among_err].
  apply safe_call; [apply phase_stable|intros l; by apply phase_unplanned|]. intros l r l' Hl E.
  exists (phase id false None). split; [by eapply (phase_call (InsertArtifact a))|].
  destruct r; [exact Hk|by apply among_err].
Qed.
End among.

(** ** Properties *)

(** C4: a short answer the member chose is not handed to the planner. While callers leave this task
    to its opener, the runner that asks what to run next for it is at no moment of [open_task] told
    to plan it; when it has answered, the task is running with its one step, which is what the
    runner does next; it fails only over its brief, and then the task is at most left paused. And
    though at any moment others cancel or delete the task, run its step or end it, it is planned only
    once its step has failed: answered with the task, it is gone or has its one step, and answered
    with an error, it is gone or at rest. *)
Theorem short_task_never_planned clock uuid task brief l :
  star repo_step empty_ledger l → well_formed task → end_stamped task →
  task_state task = Planning → task_answer task = Short → get_task (task_id task) l = None →
  (∀ cfg, star (config_step repository (others (task_id task))) (open_task clock uuid task brief, l) cfg →
     holds_at (not_planned (task_id task)) (opened (task_id task) brief) cfg) ∧
  (∀ cfg, star (config_step repository (meddlers (task_id task))) (open_task clock uuid task brief, l) cfg →
     holds_at (planned_only_failed (task_id task)) (opened_among (task_id task)) cfg).
Proof.
  intros Hl%reachable_ok Hw He Hst Hans Hg. set (id := task_id task) in *.
  unfold open_task. rewrite Hans, (bool_decide_eq_true_2 (Short = Short)) by done.
  destruct (transition_to task Paused (oc_paused clock)) as [paused|e] eqn:Ep;
    [|unfold transition_to in Ep; by rewrite Hst in Ep].
  pose proof Ep as (_ & Hsame & Hps & _)%transition_to_ok.
  assert (task_step task paused) as Hstep by by econstructor.
  pose proof (end_stamped_step _ _ He Hstep) as He'. pose proof (well_formed_same _ _ Hsame Hw) as Hw'.
  assert (id = task_id paused) as Hid by (symmetry; apply Hsame). clearbody id. subst id. split; intros cfg.
  - apply (safe_sound repository) with (pre := holding (task_id paused) (None, [], [])); [|by apply holding_missing].
    apply safe_call; [apply holding_stable| |].
    { intros m Hm. apply (holding_not_planned _ _ _ _ _ Hm). by intros t [=]. }
    intros m r m' Hm E. destruct (create_holding paused m Hw' He' Hm r m' E) as [-> Hm'].
    exists (holding (task_id paused) (Some paused, [], [])). split; [exact Hm'|].
    apply store_brief_safe; [exact Hps|]. intros rs. apply start_short_safe; [exact Hps|].
    apply (wf_budget _ Hw').
  - apply (safe_sound repository) with (pre := missing (task_id paused)); [|done].
    apply safe_call; [apply missing_stable| |].
    { intros m Hm. by apply (phase_unplanned _ false None), missing_phase. }
    intros m r m' Hm E. destruct (phase_created paused m r m' Hw' He' Hps Hm E) as [-> Hm'].
    exists (phase (task_id paused) false None). split; [exact Hm'|].
    apply store_brief_among. apply start_short_among; [exact Hps|]. apply (wf_budget _ Hw').
Qed.

(** Ann asks for a short answer while her trip is planned. *)
Definition bell_task : LongTask :=
  {| task_id := lit "t2"; task_owner := Some (lit "ann"); task_scope := Owner (lit "ann");
     task_goal := lit "who rang the bell"; task_origin := Some (lit "s1"); task_state := Planning;
     task_budget := budget12; task_kind := General; task_answer := Short;
     task_created_at := 8; task_updated_at := 8; task_finished_at := None |}.
Definition bell_brief : option OpeningBrief :=
  Some {| ob_summary := lit "before the ask"; ob_body := lit "We have a doorbell camera." |}.
Definition bell_clock : OpenClock :=
  {| oc_paused := 9; oc_brief := 9; oc_running := 10; oc_cancelled := 10 |}.
Definition bell_open : result LongTask RepoError * Ledger :=
  run repository (open_task bell_clock (lit "a1") bell_task bell_brief) trip_ledger.
Definition bell_opened : LongTask := match bell_open.1 with Ok t => t | Err _ => bell_task end.

(** The same, cancelled by a member right after it was stored. *)
Definition bell_stored : Prog RepoCall (result LongTask RepoError) * Ledger :=
  calls_made repository 1 (open_task bell_clock (lit "a1") bell_task bell_brief, trip_ledger).
Definition bell_cancelled : Ledger := after (SetTaskState (lit "t2") Cancelled 9) bell_stored.2.
Definition bell_refused : result LongTask RepoError * Ledger := run repository bell_stored.1 bell_cancelled.

Lemma short_task_never_planned_witness :
  (not_planned (lit "t2") bell_open.2 ∧ get_task (lit "t2") bell_open.2 = Some bell_opened ∧
   next_run bell_opened (list_steps (lit "t2") bell_open.2) 0 11 = Do (short_step (lit "t2"))) ∧
  task_state <$> get_task (lit "t2") bell_refused.2 = Some Cancelled ∧ planned_only_failed (lit "t2") bell_refused.2.
Proof.
  destruct (short_task_never_planned bell_clock (lit "a1") bell_task bell_brief trip_ledger) as [H H'].
  - exact trip_ledger_reachable.
  - constructor; [vm_compute; discriminate| |split; [vm_compute; discriminate|reflexivity]| |].
    + split; [|discriminate]. by split; intros c [= <-].
    + intros o [= <-]. vm_compute. discriminate.
    + vm_compute. split; discriminate.
  - by split; [intros [? [=]]|].
  - reflexivity.
  - reflexivity.
  - vm_compute. reflexivity.
  - split.
    + destruct (H (Ret bell_open.1, bell_open.2)) as [H1 H2]; [apply run_steps|]. split; [exact H1|].
      assert (bell_open.1 = Ok bell_opened) as E by (vm_compute; reflexivity).
      specialize (H2 bell_open.1 eq_refl). unfold opened in H2. rewrite E in H2.
      destruct H2 as (_ & Hg & Hl & Hn). split; [exact Hg|]. apply Hn. vm_compute. reflexivity.
    + split; [vm_compute; reflexivity|]. apply (H' (Ret bell_refused.1, bell_refused.2)).
      eapply star_step; [apply (cs_call repository _ _ bell_stored); reflexivity|].
      eapply star_step; [|apply (run_steps repository _ bell_stored.1 bell_cancelled)].
      apply (env_step repository (meddlers (lit "t2")) bell_stored bell_cancelled).
      exists _, (SetTaskState (lit "t2") Cancelled 9). split; [exact I|]. split; [|reflexivity]. by split.
Defined.
