(* ===== verification/Firing.v ===== *)
(** * Firing: which of the household's agents runs on its own, and when

    [crates/pond-core/src/shared/services/agent_activations.rs]: [match_event], [ActivationBook],
    [firings_for_event], [firings_for_clock], [live_keys] and [PresenceBoard].
    [crates/pond-server/src/agent_activations.rs]: a round of [run_agent_activations] up to the
    firings it queues.
    chrono, chrono-tz and croner are outside the repository and make up the class [Calendar]; how
    an [f64] is written and the hash of an activation are parameters too. [None] of an operation
    of the book is chrono's panic on a time it cannot represent. *)
From S2P Require Import Prelude Text Scope Locality RoleBlock Delegation Activity.
Local Open Scope N_scope.

(** ** What the calendar answers *)

Class Calendar := {
  from_std : N → option N;
  plus_window : Z → N → option Z;
  local_clock : text → Z → N * N;
  next_after : text → Z → text → option Z;
}.

(** What chrono and croner document. *)
Class CalendarLaws `{Calendar} : Prop := {
  from_std_exact d w : from_std d = Some w → w = d;
  plus_window_exact t w u : plus_window t w = Some u → u = (t + Z.of_N w)%Z;
  next_after_later cron now tz due : next_after cron now tz = Some due → (now < due)%Z;
}.

(** ** Events *)

Inductive DeviceStateValue : Type := ValueBool (b : bool) | ValueInt (i : Z) | ValueFloat (x : f64) | ValueText (t : text).

(** The fields the triggers read. *)
Record SensorReading := { sr_device_id : text; sr_sensor_type : text; sr_value : f64; sr_unit : text }.
Record CameraEvent := { ce_camera_id : text; ce_event_type : text }.
Record DeviceStateChanged := { dc_device_id : text; dc_key : text; dc_value : DeviceStateValue }.

Inductive BusEvent : Type :=
| BusSensor (r : SensorReading)
| BusCamera (c : CameraEvent)
| BusDevice (d : DeviceStateChanged)
| BusTime
| BusPresence (p : ProfilePresence)
| BusSession (s : SessionLifecycle).

Record EventMatch := {
  em_member : option text; em_source : option text; em_past_threshold : option bool; em_detail : text }.

Definition presence_match (p : ProfilePresence) (detail : text) : EventMatch :=
  {| em_member := Some (pp_profile_id p); em_source := None; em_past_threshold := None; em_detail := detail |}.
Definition source_match (source detail : text) : EventMatch :=
  {| em_member := None; em_source := Some source; em_past_threshold := None; em_detail := detail |}.

Definition int_text (i : Z) : text := if (i <? 0)%Z then 45 :: dec (Z.to_N (- i)) else dec (Z.to_N i).

Section matching.
Context (f64_text : f64 → text).

Definition value_detail (v : DeviceStateValue) : text :=
  match v with
  | ValueBool b => if b then lit "true" else lit "false"
  | ValueInt i => int_text i
  | ValueFloat x => f64_text x
  | ValueText t => t
  end.

Definition match_event (trigger : EventTrigger) (event : BusEvent) (owner : option text) : option EventMatch :=
  match trigger, event with
  | PresenceArrive member, BusPresence p =>
      match pp_transition p with
      | Arrived => if admits member (pp_profile_id p) owner then Some (presence_match p (lit "arrived home")) else None
      | Departed => None
      end
  | PresenceLeave member, BusPresence p =>
      match pp_transition p with
      | Departed => if admits member (pp_profile_id p) owner then Some (presence_match p (lit "left home")) else None
      | Arrived => None
      end
  | CameraPerson camera, BusCamera c =>
      if eq_ignore_ascii_case (ce_event_type c) (lit "person") && admits camera (ce_camera_id c) owner
      then Some (source_match (ce_camera_id c) (lit "camera " ++ ce_camera_id c ++ lit " saw a person")) else None
  | CameraMotion camera, BusCamera c =>
      if eq_ignore_ascii_case (ce_event_type c) (lit "motion") && admits camera (ce_camera_id c) owner
      then Some (source_match (ce_camera_id c) (lit "camera " ++ ce_camera_id c ++ lit " saw motion")) else None
  | Sensor sensor_type device threshold, BusSensor r =>
      if eq_ignore_ascii_case (sr_sensor_type r) sensor_type && admits device (sr_device_id r) owner then
        let '(word, limit) := match threshold with Above x => (lit "above", x) | Below x => (lit "below", x) end in
        Some {| em_member := None; em_source := Some (sr_device_id r);
                em_past_threshold := Some (passes threshold (sr_value r));
                em_detail := sr_sensor_type r ++ lit " on " ++ sr_device_id r ++ lit " read " ++ f64_text (sr_value r) ++
                             lit " " ++ sr_unit r ++ lit ", " ++ word ++ lit " " ++ f64_text limit |}
      else None
  | DeviceChange key device, BusDevice d =>
      if eq_ignore_ascii_case (dc_key d) key && admits device (dc_device_id d) owner
      then Some (source_match (dc_device_id d)
             (dc_key d ++ lit " on " ++ dc_device_id d ++ lit " changed to " ++ value_detail (dc_value d))) else None
  | _, _ => None
  end.
End matching.

(** ** The book *)

Record ActivationKey := { ak_agent : text; ak_index : nat; ak_fingerprint : N }.

#[export] Instance ActivationKey_eq_dec : EqDecision ActivationKey.
Proof. solve_decision. Defined.
#[export] Instance ActivationKey_countable : Countable ActivationKey.
Proof.
  refine (inj_countable' (λ k, (ak_agent k, ak_index k, ak_fingerprint k))
    (λ '(a, i, f), {| ak_agent := a; ak_index := i; ak_fingerprint := f |}) _).
  by intros [].
Defined.

Inductive Admission : Type := Fire | CoolingDown | NoEdge | NotDue | Baseline.

#[export] Instance Admission_eq_dec : EqDecision Admission.
Proof. solve_decision. Defined.

Record ActivationBook := {
  bk_last_fired : gmap ActivationKey Z;
  bk_levels : gmap (ActivationKey * text) bool;
  bk_next_due : gmap ActivationKey Z;
  bk_tasks : gmap ActivationKey text;
}.

Definition book_default : ActivationBook :=
  {| bk_last_fired := ∅; bk_levels := ∅; bk_next_due := ∅; bk_tasks := ∅ |}.
Definition with_last_fired (m : gmap ActivationKey Z) (b : ActivationBook) : ActivationBook :=
  {| bk_last_fired := m; bk_levels := bk_levels b; bk_next_due := bk_next_due b; bk_tasks := bk_tasks b |}.
Definition with_levels (m : gmap (ActivationKey * text) bool) (b : ActivationBook) : ActivationBook :=
  {| bk_last_fired := bk_last_fired b; bk_levels := m; bk_next_due := bk_next_due b; bk_tasks := bk_tasks b |}.
Definition with_next_due (m : gmap ActivationKey Z) (b : ActivationBook) : ActivationBook :=
  {| bk_last_fired := bk_last_fired b; bk_levels := bk_levels b; bk_next_due := m; bk_tasks := bk_tasks b |}.

Definition note_task (key : ActivationKey) (id : text) (b : ActivationBook) : ActivationBook :=
  {| bk_last_fired := bk_last_fired b; bk_levels := bk_levels b; bk_next_due := bk_next_due b;
     bk_tasks := <[key := id]> (bk_tasks b) |}.
Definition task_for (key : ActivationKey) (b : ActivationBook) : option text := bk_tasks b !! key.
Definition retain (live : gset ActivationKey) (b : ActivationBook) : ActivationBook :=
  {| bk_last_fired := filter (λ p, p.1 ∈ live) (bk_last_fired b);
     bk_levels := filter (λ p, p.1.1 ∈ live) (bk_levels b);
     bk_next_due := filter (λ p, p.1 ∈ live) (bk_next_due b);
     bk_tasks := filter (λ p, p.1 ∈ live) (bk_tasks b) |}.
Definition reset_clocks (b : ActivationBook) : ActivationBook := with_next_due ∅ b.

Section book.
Context `{Calendar}.

Definition cool (key : ActivationKey) (cooldown : N) (now : Z) (b : ActivationBook) : option (Admission * ActivationBook) :=
  let window := default 0 (from_std cooldown) in
  let fired := Some (Fire, with_last_fired (<[key := now]> (bk_last_fired b)) b) in
  match bk_last_fired b !! key with
  | None => fired
  | Some last =>
      match plus_window last window with
      | None => None
      | Some until => if (now <? until)%Z then Some (CoolingDown, b) else fired
      end
  end.

Definition admit_event (key : ActivationKey) (matched : EventMatch) (cooldown : N) (now : Z) (b : ActivationBook) :
    option (Admission * ActivationBook) :=
  match em_past_threshold matched with
  | None => cool key cooldown now b
  | Some level =>
      let source := default [] (em_source matched) in
      let b' := with_levels (<[(key, source) := level]> (bk_levels b)) b in
      match bk_levels b !! (key, source) with
      | None => Some (Baseline, b')
      | Some true => Some (NoEdge, b')
      | Some false => if negb level then Some (NoEdge, b') else cool key cooldown now b'
      end
  end.

Definition admit_clock (key : ActivationKey) (cron : text) (cooldown : N) (timezone : text) (now : Z)
    (b : ActivationBook) : option (Admission * ActivationBook) :=
  match bk_next_due b !! key with
  | None =>
      Some (Baseline, match next_after cron now timezone with
                      | Some next => with_next_due (<[key := next]> (bk_next_due b)) b
                      | None => b
                      end)
  | Some due =>
      if (now <? due)%Z then Some (NotDue, b) else
      cool key cooldown now
        (with_next_due (match next_after cron now timezone with
                        | Some next => <[key := next]> (bk_next_due b)
                        | None => delete key (bk_next_due b)
                        end) b)
  end.
End book.

(** ** The household's agents *)

Record ActivationAgent := { aa_role : AgentRole; aa_owner_profile_id : option text }.

Inductive FiringReason : Type := ReasonSchedule (cron : text) | ReasonDaily (at_ : text) | ReasonEvent (m : EventMatch).

Record Firing := { fi_key : ActivationKey; fi_agent : text; fi_brief : text; fi_reason : FiringReason }.

(** The two nested loops, agent by agent, activation by activation. *)
Definition numbered (agents : list ActivationAgent) : list (ActivationAgent * nat * Activation) :=
  concat ((λ a, imap (λ i act, (a, i, act)) (role_activations (aa_role a))) <$> agents).

(** [for] over candidates: each may be admitted, and what is admitted fires. *)
Fixpoint admit_each {A} (admits_it : A → ActivationBook → option (option Firing * ActivationBook)) (l : list A)
    (firings : list Firing) (b : ActivationBook) : option (list Firing * ActivationBook) :=
  match l with
  | [] => Some (firings, b)
  | a :: l =>
      match admits_it a b with
      | None => None
      | Some (fired, b) => admit_each admits_it l (firings ++ option_list fired) b
      end
  end.

Section firings.
Context `{Calendar} (f64_text : f64 → text) (fingerprint : Activation → N).

Definition key_of (agent : text) (index : nat) (activation : Activation) : ActivationKey :=
  {| ak_agent := agent; ak_index := index; ak_fingerprint := fingerprint activation |}.

Definition fire_if (admitted : option (Admission * ActivationBook)) (f : Firing) : option (option Firing * ActivationBook) :=
  (λ '(a, b), (if bool_decide (a = Fire) then Some f else None, b)) <$> admitted.

Definition in_window (e : EventActivation) (timezone : text) (now : Z) : bool :=
  let '(hour, minute) := local_clock timezone now in
  match ea_window e with Some window => window_contains window hour minute | None => true end.

Definition event_candidate (event : BusEvent) (timezone : text) (now : Z) (c : ActivationAgent * nat * Activation)
    (b : ActivationBook) : option (option Firing * ActivationBook) :=
  let '(agent, index, activation) := c in
  match activation with
  | Event e =>
      if negb (in_window e timezone now) then Some (None, b) else
      match match_event f64_text (ea_trigger e) event (aa_owner_profile_id agent) with
      | None => Some (None, b)
      | Some matched =>
          let key := key_of (role_name (aa_role agent)) index activation in
          fire_if (admit_event key matched (ea_cooldown e) now b)
            {| fi_key := key; fi_agent := role_name (aa_role agent); fi_brief := ea_brief e;
               fi_reason := ReasonEvent matched |}
      end
  | _ => Some (None, b)
  end.

Definition firings_for_event (agents : list ActivationAgent) (event : BusEvent) (timezone : text)
    (b : ActivationBook) (now : Z) : option (list Firing * ActivationBook) :=
  admit_each (event_candidate event timezone now) (numbered agents) [] b.

(** The cron, the cooldown, the brief and the reason of an activation with a clock. *)
Definition clock_of (activation : Activation) : option (text * N * text * FiringReason) :=
  match activation with
  | Schedule s => Some (sa_cron s, sa_cooldown s, sa_brief s, ReasonSchedule (sa_cron s))
  | Event e =>
      match ea_trigger e, trigger_clock (ea_trigger e) with
      | TimeDaily hour minute, Some cron =>
          Some (cron, ea_cooldown e, ea_brief e, ReasonDaily (dec2 hour ++ 58 :: dec2 minute))
      | _, _ => None
      end
  | _ => None
  end.

Definition clock_candidate (timezone : text) (now : Z) (c : ActivationAgent * nat * Activation)
    (b : ActivationBook) : option (option Firing * ActivationBook) :=
  let '(agent, index, activation) := c in
  match clock_of activation with
  | None => Some (None, b)
  | Some (cron, cooldown, brief, reason) =>
      let key := key_of (role_name (aa_role agent)) index activation in
      fire_if (admit_clock key cron cooldown timezone now b)
        {| fi_key := key; fi_agent := role_name (aa_role agent); fi_brief := brief; fi_reason := reason |}
  end.

Definition firings_for_clock (agents : list ActivationAgent) (timezone : text) (b : ActivationBook) (now : Z) :
    option (list Firing * ActivationBook) :=
  admit_each (clock_candidate timezone now) (numbered agents) [] b.

Definition live_keys (agents : list ActivationAgent) : gset ActivationKey :=
  list_to_set ((λ '(a, i, act), key_of (role_name (aa_role a)) i act) <$>
    List.filter (λ c, match c.2 with Schedule _ | Event _ => true | _ => false end) (numbered agents)).
End firings.

(** ** Who was seen arriving and leaving *)

Notation PresenceBoard := (gmap text (bool * Z)) (only parsing).

Definition board_record (board : PresenceBoard) (p : ProfilePresence) : PresenceBoard :=
  let home := match pp_transition p with Arrived => true | Departed => false end in
  let newer := match board !! pp_profile_id p with None => true | Some (_, at_) => (at_ <=? pp_at p)%Z end in
  if newer then <[pp_profile_id p := (home, pp_at p)]> board else board.

(** [BTreeMap] order, then most recent first; the sort is stable. *)
Definition snapshot (board : PresenceBoard) : list (text * bool * Z) :=
  sort_with (λ a b, (b.2 <=? a.2)%Z)
    ((λ '(id, (home, at_)), (id, home, at_)) <$>
       sort_with (λ a b, not_greater text_compare a.1 b.1) (map_to_list board)).

(** ** The loop *)

Record Gate := { gate_enabled : bool; gate_timezone : text }.
Definition gate_closed : Gate := {| gate_enabled := false; gate_timezone := lit "UTC" |}.

Definition RELOAD_SECS : N := 60.

Record ActivationLoop := {
  al_book : ActivationBook; al_agents : list ActivationAgent; al_loaded_at : option Z; al_gate : Gate;
  al_presence : PresenceBoard }.

(** [ActivationDeps]' answers, the clocks, and the event when it is not a tick. [wk_settings] holds
    the three switches together and the timezone; [wk_loaded] the agents of the recipes that parse. *)
Record Wakeup := {
  wk_event : option BusEvent; wk_settings : option (bool * text); wk_loaded : option (list ActivationAgent);
  wk_instant : Z; wk_now : Z }.

Section loop.
Context `{Calendar} (f64_text : f64 → text) (fingerprint : Activation → N).

Definition record_presence (w : Wakeup) (board : PresenceBoard) : PresenceBoard :=
  match wk_event w with Some (BusPresence p) => board_record board p | _ => board end.

(** A tick, before anything fires. *)
Definition reread (w : Wakeup) (s : ActivationLoop) : ActivationLoop :=
  let next := match wk_settings w with
              | Some (enabled, timezone) => {| gate_enabled := enabled; gate_timezone := timezone |}
              | None => gate_closed
              end in
  let book := if negb (gate_enabled next) || negb (bool_decide (gate_timezone next = gate_timezone (al_gate s)))
              then reset_clocks (al_book s) else al_book s in
  if negb (gate_enabled next)
  then {| al_book := book; al_agents := al_agents s; al_loaded_at := al_loaded_at s; al_gate := next;
          al_presence := al_presence s |} else
  let stale := match al_loaded_at s with
               | None => true
               | Some at_ => (Z.of_N (from_secs RELOAD_SECS) <=? wk_instant w - at_)%Z
               end in
  if stale then
    match wk_loaded w with
    | Some agents =>
        {| al_book := retain (live_keys fingerprint agents) book; al_agents := agents;
           al_loaded_at := Some (wk_instant w); al_gate := next; al_presence := al_presence s |}
    | None => {| al_book := book; al_agents := al_agents s; al_loaded_at := Some (wk_instant w);
                 al_gate := next; al_presence := al_presence s |}
    end
  else {| al_book := book; al_agents := al_agents s; al_loaded_at := al_loaded_at s; al_gate := next;
          al_presence := al_presence s |}.

(** One turn of the loop: the firings to queue, and the state they are queued from. *)
Definition activation_round (w : Wakeup) (s : ActivationLoop) : option (list Firing * ActivationLoop) :=
  let s := {| al_book := al_book s; al_agents := al_agents s; al_loaded_at := al_loaded_at s;
              al_gate := al_gate s; al_presence := record_presence w (al_presence s) |} in
  let s := match wk_event w with None => reread w s | Some _ => s end in
  if negb (gate_enabled (al_gate s)) || is_empty (al_agents s) then Some ([], s) else
  let fired := match wk_event w with
               | Some event => firings_for_event f64_text fingerprint (al_agents s) event (gate_timezone (al_gate s)) (al_book s) (wk_now w)
               | None => firings_for_clock fingerprint (al_agents s) (gate_timezone (al_gate s)) (al_book s) (wk_now w)
               end in
  (λ '(firings, book),
     (firings, {| al_book := book; al_agents := al_agents s; al_loaded_at := al_loaded_at s; al_gate := al_gate s;
                  al_presence := al_presence s |})) <$> fired.
End loop.

(** ** The book's calls, one after another *)

Inductive BookCall : Type :=
| CallEvent (key : ActivationKey) (matched : EventMatch) (cooldown : N) (now : Z)
| CallClock (key : ActivationKey) (cron : text) (cooldown : N) (timezone : text) (now : Z)
| CallNote (key : ActivationKey) (id : text)
| CallRetain (live : gset ActivationKey)
| CallReset.

Section calls.
Context `{Calendar}.

Definition book_call (c : BookCall) (b : ActivationBook) : option (option Admission * ActivationBook) :=
  match c with
  | CallEvent key matched cooldown now => (λ '(a, b), (Some a, b)) <$> admit_event key matched cooldown now b
  | CallClock key cron cooldown tz now => (λ '(a, b), (Some a, b)) <$> admit_clock key cron cooldown tz now b
  | CallNote key id => Some (None, note_task key id b)
  | CallRetain live => Some (None, retain live b)
  | CallReset => Some (None, reset_clocks b)
  end.

(** A run of calls, each with its answer. *)
Inductive book_run : ActivationBook → list (BookCall * option Admission) → ActivationBook → Prop :=
| run_none b : book_run b [] b
| run_call b c a b' log b'' :
    book_call c b = Some (a, b') → book_run b' log b'' → book_run b ((c, a) :: log) b''.

Lemma book_run_app b l1 l2 b' :
  book_run b (l1 ++ l2) b' → ∃ m, book_run b l1 m ∧ book_run m l2 b'.
Proof.
  revert b. induction l1 as [|[c a] l1 IH]; intros b Hr; [exists b; split; [constructor|done]|].
  inversion Hr; subst. destruct (IH _ ltac:(eassumption)) as (m & H1 & H2). exists m. split; [|done].
  by econstructor.
Qed.

(** *** One call *)

(** The cooldown of a call that may fire, and when it is made. *)
Definition fires_at (c : BookCall) : option (ActivationKey * N * Z) :=
  match c with
  | CallEvent key _ cooldown now | CallClock key _ cooldown _ now => Some (key, cooldown, now)
  | _ => None
  end.
Definition drops (k : ActivationKey) (c : BookCall) : bool :=
  match c with CallRetain live => negb (bool_decide (k ∈ live)) | _ => false end.

Lemma filter_live_Some {V} (m : gmap ActivationKey V) (live : gset ActivationKey) k :
  filter (λ p, p.1 ∈ live) m !! k = if bool_decide (k ∈ live) then m !! k else None.
Proof.
  case_bool_decide as Hk; destruct (m !! k) as [v|] eqn:E.
  - by apply map_lookup_filter_Some.
  - apply map_lookup_filter_None. by left.
  - apply map_lookup_filter_None. right. intros v' _. done.
  - apply map_lookup_filter_None. by left.
Qed.

Lemma filter_live_level (m : gmap (ActivationKey * text) bool) (live : gset ActivationKey) k src :
  filter (λ p, p.1.1 ∈ live) m !! (k, src) = if bool_decide (k ∈ live) then m !! (k, src) else None.
Proof.
  case_bool_decide as Hk; destruct (m !! (k, src)) as [v|] eqn:E.
  - by apply map_lookup_filter_Some.
  - apply map_lookup_filter_None. by left.
  - apply map_lookup_filter_None. right. intros v' _. done.
  - apply map_lookup_filter_None. by left.
Qed.

Lemma cool_spec key cooldown now b a b' :
  cool key cooldown now b = Some (a, b') →
  (a = CoolingDown ∧ b' = b ∧ is_Some (bk_last_fired b !! key)) ∨
  (a = Fire ∧ b' = with_last_fired (<[key := now]> (bk_last_fired b)) b ∧
   ∀ last, bk_last_fired b !! key = Some last →
     ∃ until, plus_window last (default 0 (from_std cooldown)) = Some until ∧ (until ≤ now)%Z).
Proof.
  unfold cool. destruct (bk_last_fired b !! key) as [last|].
  - destruct (plus_window _ _) as [until|] eqn:E; [|done]. destruct (Z.ltb_spec now until) as [Hl|Hl].
    + intros [= <- <-]. left. eauto.
    + intros [= <- <-]. right. split; [done|]. split; [done|]. intros ? [= <-]. eauto.
  - intros [= <- <-]. by right.
Qed.

Lemma admit_event_spec key matched cooldown now b a b' :
  admit_event key matched cooldown now b = Some (a, b') →
  let b1 := match em_past_threshold matched with
            | Some level => with_levels (<[(key, default [] (em_source matched)) := level]> (bk_levels b)) b
            | None => b
            end in
  (b' = b1 ∧ (a = NoEdge ∨ a = Baseline)) ∨ cool key cooldown now b1 = Some (a, b').
Proof.
  unfold admit_event. destruct (em_past_threshold matched) as [level|]; [|by right].
  destruct (bk_levels b !! _) as [[]|]; [by intros [= <- <-]; auto| |by intros [= <- <-]; auto].
  destruct level; simpl; [by right|by intros [= <- <-]; auto].
Qed.

Lemma admit_clock_spec key cron cooldown tz now b a b' :
  admit_clock key cron cooldown tz now b = Some (a, b') →
  ∃ b1, bk_last_fired b1 = bk_last_fired b ∧ bk_levels b1 = bk_levels b ∧
    ((b' = b1 ∧ (a = NotDue ∨ a = Baseline)) ∨ cool key cooldown now b1 = Some (a, b')).
Proof.
  unfold admit_clock. destruct (bk_next_due b !! key) as [due|].
  - destruct (now <? due)%Z; [intros [= <- <-]; exists b; split_and!; auto|]. intros Hc.
    eexists. split; [|split; [|right; exact Hc]]; done.
  - intros [= <- <-]. eexists. split; [|split; [|left; split; [reflexivity|by right]]]; by destruct (next_after cron now tz).
Qed.

(** What a call does to the last time a key fired. *)
Lemma call_last_fired c b a b' k :
  book_call c b = Some (a, b') →
  (∃ cooldown now, fires_at c = Some (k, cooldown, now) ∧ a = Some Fire ∧ bk_last_fired b' !! k = Some now ∧
    ∀ last, bk_last_fired b !! k = Some last →
      ∃ until, plus_window last (default 0 (from_std cooldown)) = Some until ∧ (until ≤ now)%Z) ∨
  ((∀ cooldown now, fires_at c = Some (k, cooldown, now) → a ≠ Some Fire) ∧
   bk_last_fired b' !! k = if drops k c then None else bk_last_fired b !! k).
Proof.
  assert (∀ key cooldown now b1 b2 x, cool key cooldown now b1 = Some (x, b2) → bk_last_fired b1 = bk_last_fired b →
    (∃ cd t, Some (key, cooldown, now) = Some (k, cd, t) ∧ Some x = Some Fire ∧ bk_last_fired b2 !! k = Some t ∧
      ∀ last, bk_last_fired b !! k = Some last →
        ∃ until, plus_window last (default 0 (from_std cd)) = Some until ∧ (until ≤ t)%Z) ∨
    ((∀ cd t, Some (key, cooldown, now) = Some (k, cd, t) → Some x ≠ Some Fire) ∧
     bk_last_fired b2 !! k = bk_last_fired b !! k)) as Hcool.
  { intros key cooldown now b1 b2 x Hc Hb. apply cool_spec in Hc as [(-> & -> & _)|(-> & -> & Hl)]; rewrite Hb in *.
    - right. by split.
    - destruct (decide (key = k)) as [->|Hne].
      + left. exists cooldown, now. simpl. by rewrite lookup_insert_eq.
      + right. split; [intros cd t E; exfalso; congruence|]. simpl. by rewrite lookup_insert_ne. }
  destruct c as [key m cd t|key cron cd tz t|key id|live|]; simpl.
  - destruct (admit_event key m cd t b) as [[x b2]|] eqn:E; [|done]. intros [= <- <-].
    apply admit_event_spec in E as [[-> Hx]|Hc].
    + right. split; [by destruct Hx as [-> | ->]|]. by destruct (em_past_threshold m).
    + apply (Hcool _ _ _ _ _ _ Hc). by destruct (em_past_threshold m).
  - destruct (admit_clock key cron cd tz t b) as [[x b2]|] eqn:E; [|done]. intros [= <- <-].
    apply admit_clock_spec in E as (b1 & Hb & _ & [[-> Hx]|Hc]).
    + right. split; [by destruct Hx as [-> | ->]|]. by rewrite Hb.
    + by apply (Hcool _ _ _ _ _ _ Hc).
  - intros [= <- <-]. by right.
  - intros [= <- <-]. right. split; [done|]. simpl. rewrite filter_live_Some. by case_bool_decide.
  - intros [= <- <-]. by right.
Qed.
End calls.

(** ** The book is its history *)

Section history.
Context `{CalendarLaws}.

Definition entry : Type := BookCall * option Admission.

(** The last reading of a source a key has seen, and the time its clock waits for. *)
Definition level_after (k : ActivationKey) (src : text) (x : option bool) (e : entry) : option bool :=
  match e.1 with
  | CallEvent key m _ _ =>
      if bool_decide (key = k) && bool_decide (default [] (em_source m) = src)
      then match em_past_threshold m with Some level => Some level | None => x end else x
  | CallRetain live => if bool_decide (k ∈ live) then x else None
  | _ => x
  end.
Definition due_after (k : ActivationKey) (x : option Z) (e : entry) : option Z :=
  match e with
  | (CallClock key cron _ tz now, a) =>
      if bool_decide (key = k) then if bool_decide (a = Some NotDue) then x else next_after cron now tz else x
  | (CallRetain live, _) => if bool_decide (k ∈ live) then x else None
  | (CallReset, _) => None
  | _ => x
  end.

Lemma cool_keeps key cooldown now b a b' :
  cool key cooldown now b = Some (a, b') →
  bk_levels b' = bk_levels b ∧ bk_next_due b' = bk_next_due b ∧ (a = Fire ∨ a = CoolingDown).
Proof. intros [(-> & -> & _)|(-> & -> & _)]%cool_spec; auto. Qed.

Lemma call_levels c b a b' k src :
  book_call c b = Some (a, b') → bk_levels b' !! (k, src) = level_after k src (bk_levels b !! (k, src)) (c, a).
Proof.
  destruct c as [key m cd t|key cron cd tz t|key id|live|]; simpl; unfold level_after; cbn [fst].
  - destruct (admit_event key m cd t b) as [[x b2]|] eqn:E; [|done]. intros [= <- <-].
    assert (bk_levels b2 = match em_past_threshold m with
      | Some level => <[(key, default [] (em_source m)) := level]> (bk_levels b) | None => bk_levels b end) as ->.
    { apply admit_event_spec in E as [[-> _]|Hc]; [by destruct (em_past_threshold m)|].
      apply cool_keeps in Hc as [-> _]. by destruct (em_past_threshold m). }
    destruct (em_past_threshold m) as [level|]; [|by destruct (_ && _)].
    case_bool_decide as Hk; simpl; [subst key|by rewrite lookup_insert_ne by congruence].
    case_bool_decide as Hs; [by rewrite Hs, lookup_insert_eq|by rewrite lookup_insert_ne by congruence].
  - destruct (admit_clock key cron cd tz t b) as [[x b2]|] eqn:E; [|done]. intros [= <- <-].
    apply admit_clock_spec in E as (b1 & _ & Hb & [[-> _]|Hc]); [by rewrite Hb|].
    apply cool_keeps in Hc as [-> _]. by rewrite Hb.
  - by intros [= <- <-].
  - intros [= <- <-]. simpl. apply filter_live_level.
  - by intros [= <- <-].
Qed.

Lemma call_next_due c b a b' k :
  book_call c b = Some (a, b') → bk_next_due b' !! k = due_after k (bk_next_due b !! k) (c, a).
Proof.
  destruct c as [key m cd t|key cron cd tz t|key id|live|]; simpl; unfold due_after.
  - destruct (admit_event key m cd t b) as [[x b2]|] eqn:E; [|done]. intros [= <- <-].
    apply admit_event_spec in E as [[-> _]|Hc]; [by destruct (em_past_threshold m)|].
    apply cool_keeps in Hc as (_ & -> & _). by destruct (em_past_threshold m).
  - destruct (admit_clock key cron cd tz t b) as [[x b2]|] eqn:E; [|done]. intros [= <- <-].
    unfold admit_clock in E. case_bool_decide as Hk.
    + subst key. destruct (bk_next_due b !! k) as [due|] eqn:Ed.
      * destruct (t <? due)%Z; [injection E as <- <-; by rewrite bool_decide_eq_true_2|].
        apply cool_keeps in E as (_ & -> & Hx). rewrite bool_decide_eq_false_2 by (by destruct Hx as [-> | ->]).
        simpl. destruct (next_after cron t tz); [by rewrite lookup_insert_eq|by rewrite lookup_delete_eq].
      * injection E as <- <-. rewrite bool_decide_eq_false_2 by done.
        destruct (next_after cron t tz); [by simpl; rewrite lookup_insert_eq|done].
    + destruct (bk_next_due b !! key) as [due|].
      * destruct (t <? due)%Z; [by injection E as <- <-|]. apply cool_keeps in E as (_ & -> & _).
        simpl. destruct (next_after cron t tz); [by rewrite lookup_insert_ne|by rewrite lookup_delete_ne].
      * injection E as <- <-. destruct (next_after cron t tz); [by simpl; rewrite lookup_insert_ne|done].
  - by intros [= <- <-].
  - intros [= <- <-]. simpl. apply filter_live_Some.
  - by intros [= <- <-].
Qed.

Lemma run_levels b log b' k src :
  book_run b log b' → bk_levels b' !! (k, src) = foldl (level_after k src) (bk_levels b !! (k, src)) log.
Proof. induction 1 as [|b c a b1 log b2 Hc _ IH]; [done|]. rewrite IH. simpl. by erewrite call_levels. Qed.

Lemma run_next_due b log b' k :
  book_run b log b' → bk_next_due b' !! k = foldl (due_after k) (bk_next_due b !! k) log.
Proof. induction 1 as [|b c a b1 log b2 Hc _ IH]; [done|]. rewrite IH. simpl. by erewrite call_next_due. Qed.

(** From a fire on, as long as its key is kept, the next is at least a cooldown later. *)
Lemma run_spaced b log b' k last :
  book_run b log b' → bk_last_fired b !! k = Some last →
  Forall (λ e : entry, drops k e.1 = false) log →
  ∀ c cooldown now, (c, Some Fire) ∈ log → fires_at c = Some (k, cooldown, now) →
    (last + Z.of_N (default 0%N (from_std cooldown)) ≤ now)%Z.
Proof.
  intros Hr. revert last. induction Hr as [|b c a b1 log b2 Hc _ IH]; intros last Hl Hd c' cd now Hin Hf;
    [by apply elem_of_nil in Hin|].
  apply Forall_cons in Hd as [Hd1 Hd]. apply (call_last_fired _ _ _ _ k) in Hc as [Hc|[Hno Hc]].
  - destruct Hc as (cd1 & t & Hf1 & -> & Hb1 & Hlast). destruct (Hlast _ Hl) as (until & Hu & Hle).
    apply plus_window_exact in Hu. apply elem_of_cons in Hin as [[= ->]|Hin].
    + rewrite Hf in Hf1. injection Hf1 as -> ->. lia.
    + pose proof (IH t Hb1 Hd c' cd now Hin Hf). lia.
  - simpl in Hd1. rewrite Hd1, Hl in Hc. apply elem_of_cons in Hin as [[= -> <-]|Hin]; [by destruct (Hno _ _ Hf)|].
    by apply (IH last Hc Hd c' cd now).
Qed.

(** ** Properties *)

(** C28: an activation's runs are spaced by its cooldown: whatever events, ticks and clock resets come
    between, and however the wall clock moves, in one life of the book two admissions of one activation that no reload
    dropped in between are at least the second's cooldown apart. *)
Theorem fires_are_spaced log b i j ci cj k cdi cdj ti tj :
  book_run book_default log b → (i < j)%nat →
  log !! i = Some (ci, Some Fire) → fires_at ci = Some (k, cdi, ti) →
  log !! j = Some (cj, Some Fire) → fires_at cj = Some (k, cdj, tj) →
  (∀ m e, (i < m < j)%nat → log !! m = Some e → drops k e.1 = false) →
  (ti + Z.of_N (default 0%N (from_std cdj)) ≤ tj)%Z.
Proof.
  intros Hr Hij Hi Hfi Hj Hfj Hkeep.
  rewrite <-(take_drop_middle log i _ Hi) in Hr. apply book_run_app in Hr as (m & _ & Hr).
  inversion Hr as [|? ? ? b1 ? ? Hc Hr']; subst.
  apply (call_last_fired _ _ _ _ k) in Hc as [(cd & t & Hf & _ & Hb1 & _)|[Hno _]]; [|by destruct (Hno _ _ Hfi)].
  rewrite Hfi in Hf. injection Hf as <- <-.
  assert (drop (S i) log !! (j - S i)%nat = Some (cj, Some Fire)) as Hj' by (rewrite lookup_drop; rewrite <-Hj; f_equal; lia).
  rewrite <-(take_drop_middle _ _ _ Hj') in Hr'.
  rewrite cons_middle, app_assoc in Hr'. apply book_run_app in Hr' as (m2 & Hr' & _).
  apply (run_spaced _ _ _ k ti Hr' Hb1) with cj.
  - apply Forall_app. split; [|apply Forall_singleton; by destruct cj].
    apply Forall_lookup. intros n e He. apply lookup_take_Some in He as [He Hn]. rewrite lookup_drop in He.
    apply (Hkeep (S i + n)%nat e); [lia|exact He].
  - apply elem_of_app. right. by apply elem_of_one.
  - exact Hfj.
Qed.

(** A threshold fires on its crossing and on nothing else: of a source whose last reading, since
    the agent was last loaded, was short of the threshold, a reading past it fires unless the
    activation is cooling down; a source's first reading, and any other reading, never fires. *)
Theorem crossings_fire log b k m cooldown now level x b' :
  book_run book_default log b → em_past_threshold m = Some level →
  book_call (CallEvent k m cooldown now) b = Some (Some x, b') →
  let last := foldl (level_after k (default [] (em_source m))) None log in
  (x = Baseline ↔ last = None) ∧
  (x = Fire ∨ x = CoolingDown ↔ last = Some false ∧ level = true) ∧
  (x = CoolingDown → is_Some (bk_last_fired b !! k)).
Proof.
  intros Hr Hm Hc last. pose proof (run_levels _ _ _ k (default [] (em_source m)) Hr) as Hl.
  simpl in Hl, Hc. rewrite lookup_empty in Hl. fold last in Hl. unfold admit_event in Hc. rewrite Hm, Hl in Hc.
  clearbody last. destruct last as [[]|]; [| |by injection Hc as <- <-; naive_solver].
  { injection Hc as <- <-. naive_solver. }
  destruct level; simpl in Hc; [|by injection Hc as <- <-; naive_solver].
  destruct (cool _ _ _ _) as [[a b2]|] eqn:E; [|done]. injection Hc as <- <-.
  apply cool_spec in E as [(-> & _ & Hs)|(-> & _)]; naive_solver.
Qed.

(** A clock fires once for the times that came round since it last looked, however many: at its
    first look, and its first after a reset, nothing runs; before the time it waits for, nothing;
    from then on it fires unless cooling down, and then waits for a time still to come. *)
Theorem clocks_collapse_missed_times log b k cron cooldown tz now x b' :
  book_run book_default log b → book_call (CallClock k cron cooldown tz now) b = Some (Some x, b') →
  match foldl (due_after k) None log with
  | None => x = Baseline
  | Some due => if (now <? due)%Z then x = NotDue else x = Fire ∨ x = CoolingDown
  end ∧
  (x ≠ NotDue → ∀ due, bk_next_due b' !! k = Some due → next_after cron now tz = Some due ∧ (now < due)%Z).
Proof.
  intros Hr Hc. pose proof (run_next_due _ _ _ k Hr) as Hd. simpl in Hd. rewrite lookup_empty in Hd.
  pose proof (call_next_due _ _ _ _ k Hc) as Hn. rewrite <-Hd. clear Hd. split.
  - simpl in Hc. unfold admit_clock in Hc. destruct (bk_next_due b !! k) as [due|]; [|by injection Hc as <- <-].
    destruct (now <? due)%Z; [by injection Hc as <- <-|]. destruct (cool _ _ _ _) as [[a b2]|] eqn:E; [|done].
    injection Hc as <- <-. by apply cool_keeps in E as (_ & _ & ?).
  - intros Hx due Hdue. rewrite Hn in Hdue. unfold due_after in Hdue.
    rewrite bool_decide_eq_true_2, bool_decide_eq_false_2 in Hdue by congruence.
    split; [done|]. by eapply next_after_later.
Qed.
End history.

(** ** Lemmas: the loop *)

Lemma admit_each_ind {A} (admits_it : A → ActivationBook → option (option Firing * ActivationBook))
    (P : ActivationBook → Prop) (Q : Firing → Prop) l firings b firings' b' :
  (∀ a b f b', a ∈ l → admits_it a b = Some (f, b') → P b → P b' ∧ ∀ x, f = Some x → Q x) →
  admit_each admits_it l firings b = Some (firings', b') → P b → Forall Q firings →
  P b' ∧ Forall Q firings'.
Proof.
  revert firings b. induction l as [|a l IH]; intros firings b Hstep; simpl; [by intros [= <- <-]|].
  destruct (admits_it a b) as [[f b1]|] eqn:E; [|done]. intros H HP HQ.
  destruct (Hstep a b f b1 (list_elem_of_here _ _) E HP) as [HP1 HQ1].
  apply (IH (firings ++ option_list f) b1); [|done..|].
  { intros a' b2 f' b3 Hin. apply Hstep. by apply elem_of_cons; right. }
  apply Forall_app. split; [done|]. destruct f as [x|]; [|constructor]. apply Forall_singleton. by apply HQ1.
Qed.

Lemma elem_of_numbered agents c :
  c ∈ numbered agents ↔ ∃ a i act, c = (a, i, act) ∧ a ∈ agents ∧ role_activations (aa_role a) !! i = Some act.
Proof.
  unfold numbered. rewrite list_elem_of_In, in_concat. setoid_rewrite <-list_elem_of_In. split.
  - intros (l & (a & -> & Ha)%list_elem_of_fmap & Hc). apply elem_of_lookup_imap in Hc as (i & act & -> & Hi).
    by exists a, i, act.
  - intros (a & i & act & -> & Ha & Hi). eexists. split; [apply list_elem_of_fmap; by exists a|].
    apply elem_of_lookup_imap. by exists i, act.
Qed.

Section rounds.
Context `{CalendarLaws} (f64_text : f64 → text) (fingerprint : Activation → N).

Notation round := (activation_round f64_text fingerprint).

(** What a firing is for: an activation of a loaded agent, heard in its window or come round. *)
Inductive firing_of (w : Wakeup) (s : ActivationLoop) (f : Firing) : Prop :=
| firing_event event agent i e m :
    wk_event w = Some event → agent ∈ al_agents s → role_activations (aa_role agent) !! i = Some (Event e) →
    in_window e (gate_timezone (al_gate s)) (wk_now w) = true →
    match_event f64_text (ea_trigger e) event (aa_owner_profile_id agent) = Some m →
    f = {| fi_key := key_of fingerprint (role_name (aa_role agent)) i (Event e);
           fi_agent := role_name (aa_role agent); fi_brief := ea_brief e; fi_reason := ReasonEvent m |} →
    firing_of w s f
| firing_clock agent i act cron cooldown brief reason :
    wk_event w = None → agent ∈ al_agents s → role_activations (aa_role agent) !! i = Some act →
    clock_of act = Some (cron, cooldown, brief, reason) →
    f = {| fi_key := key_of fingerprint (role_name (aa_role agent)) i act;
           fi_agent := role_name (aa_role agent); fi_brief := brief; fi_reason := reason |} →
    firing_of w s f.

(** A round, or the task its queueing notes. *)
Inductive loop_step : ActivationLoop → ActivationLoop → Prop :=
| step_round w s firings s' : round w s = Some (firings, s') → loop_step s s'
| step_note s key id :
    loop_step s {| al_book := note_task key id (al_book s); al_agents := al_agents s; al_loaded_at := al_loaded_at s;
                   al_gate := al_gate s; al_presence := al_presence s |}.

Definition loop_start : ActivationLoop :=
  {| al_book := book_default; al_agents := []; al_loaded_at := None; al_gate := gate_closed; al_presence := ∅ |}.

(** While the switches are off no clock is kept. *)
Definition off_means_no_clocks (s : ActivationLoop) : Prop :=
  gate_enabled (al_gate s) = false → bk_next_due (al_book s) = ∅.

Definition next_gate (w : Wakeup) : Gate :=
  match wk_settings w with
  | Some (enabled, timezone) => {| gate_enabled := enabled; gate_timezone := timezone |}
  | None => gate_closed
  end.

Lemma reread_spec w s :
  al_gate (reread fingerprint w s) = next_gate w ∧
  (bk_next_due (al_book s) = ∅ ∨ gate_enabled (next_gate w) = false ∨ gate_timezone (next_gate w) ≠ gate_timezone (al_gate s) →
   bk_next_due (al_book (reread fingerprint w s)) = ∅).
Proof.
  unfold reread. fold (next_gate w). set (book := if _ || _ then _ else _).
  assert (bk_next_due (al_book s) = ∅ ∨ gate_enabled (next_gate w) = false ∨
    gate_timezone (next_gate w) ≠ gate_timezone (al_gate s) → bk_next_due book = ∅) as Hb.
  { unfold book. intros [Hs|[Hg|Ht]].
    - by destruct (_ || _).
    - by rewrite Hg.
    - rewrite bool_decide_eq_false_2 by done. by rewrite orb_true_r. }
  destruct (negb (gate_enabled (next_gate w))); [done|].
  destruct (match al_loaded_at s with None => _ | Some _ => _ end); [|done].
  destruct (wk_loaded w); [|done]. split; [done|]. intros Hoff. simpl. rewrite Hb by done. apply map_filter_empty.
Qed.

Lemma round_spec w s firings s' :
  round w s = Some (firings, s') →
  ∃ s1, al_gate s' = al_gate s1 ∧ al_agents s' = al_agents s1 ∧
    al_book s1 = al_book (match wk_event w with None => reread fingerprint w s | Some _ => s end) ∧
    al_gate s1 = al_gate (match wk_event w with None => reread fingerprint w s | Some _ => s end) ∧
    ((gate_enabled (al_gate s1) = false ∨ al_agents s1 = []) ∧ firings = [] ∧ al_book s' = al_book s1 ∨
     gate_enabled (al_gate s1) = true ∧
     match wk_event w with
     | Some event => firings_for_event f64_text fingerprint (al_agents s1) event (gate_timezone (al_gate s1)) (al_book s1) (wk_now w)
     | None => firings_for_clock fingerprint (al_agents s1) (gate_timezone (al_gate s1)) (al_book s1) (wk_now w)
     end = Some (firings, al_book s')).
Proof.
  unfold activation_round.
  set (s0 := {| al_book := al_book s; al_agents := _; al_loaded_at := _; al_gate := _; al_presence := _ |}).
  set (s1 := match wk_event w with None => _ | Some _ => s0 end).
  assert (al_book s1 = al_book (match wk_event w with None => reread fingerprint w s | Some _ => s end) ∧
          al_gate s1 = al_gate (match wk_event w with None => reread fingerprint w s | Some _ => s end)) as [Hb Hg].
  { unfold s1. destruct (wk_event w); [done|]. unfold reread. cbn [al_gate al_book al_loaded_at s0].
    destruct (negb (gate_enabled _)); [done|].
    destruct (match al_loaded_at s with None => _ | Some _ => _ end); [|done]. by destruct (wk_loaded w). }
  destruct (_ || _) eqn:Eoff.
  - intros [= <- <-]. exists s1. split_and!; try done. left.
    apply orb_prop in Eoff as [E|E]; [apply negb_true_iff in E|apply is_empty_true in E]; auto.
  - apply orb_false_elim in Eoff as [E _]. apply negb_false_iff in E.
    destruct (match wk_event w with Some _ => _ | None => firings_for_clock _ _ _ _ _ end) as [[fs b']|] eqn:Ef; [|done].
    intros [= <- <-]. exists s1. split_and!; try done. by right.
Qed.
Lemma round_off_clocks s : star loop_step loop_start s → off_means_no_clocks s.
Proof.
  intros Hs. refine (star_invariant _ off_means_no_clocks _ _ _ Hs _); [|done].
  intros s1 s2 Hoff Hst. destruct Hst as [w s1 firings s2 Hr|s1 key id]; [|exact Hoff].
  intros Hg. apply round_spec in Hr as (s0 & Eg & _ & Eb & Eg' & [(_ & _ & Eb')|[Hon _]]); [|congruence].
  rewrite Eb', Eb. rewrite Eg, Eg' in Hg. destruct (wk_event w); [by apply Hoff|].
  destruct (reread_spec w s1) as [Egr Hclk]. rewrite Egr in Hg. by apply Hclk; auto.
Qed.

Lemma clock_round_quiet agents tz b now firings b' :
  firings_for_clock fingerprint agents tz b now = Some (firings, b') →
  (∀ k due, bk_next_due b !! k = Some due → (now < due)%Z) → firings = [].
Proof.
  intros Hf Hb.
  assert (Forall (λ _, False) firings) as H'; [|by destruct firings; [|apply Forall_cons in H' as [[] _]]].
  refine (proj2 (admit_each_ind _ (λ b, ∀ k due, bk_next_due b !! k = Some due → (now < due)%Z)
    (λ _, False) _ _ _ _ _ _ Hf Hb _)); [|constructor].
  - clear b b' Hf Hb. intros [[agent i] act] b f b' _ Hc Hb. unfold clock_candidate in Hc.
    destruct (clock_of act) as [[[[cron cd] brief] reason]|]; [|by injection Hc as <- <-].
    set (k := key_of _ _ _ _) in Hc. unfold fire_if in Hc.
    destruct (admit_clock k cron cd tz now b) as [[a b1]|] eqn:E; [|done]. injection Hc as <- <-.
    unfold admit_clock in E. destruct (bk_next_due b !! k) as [due|] eqn:Ed.
    + pose proof (Hb k due Ed) as Hlt. apply Z.ltb_lt in Hlt. rewrite Hlt in E. by injection E as <- <-.
    + injection E as <- <-. split; [|done]. destruct (next_after cron now tz) as [next|] eqn:En; [|done].
      intros k' due. simpl. rewrite lookup_insert_Some. intros [[<- <-]|[_ Hd]]; [by eapply next_after_later|by apply (Hb k')].
Qed.

(** Turning agent activations on, and moving the household to another timezone, runs nothing by
    itself: in any state the loop reaches with the switches off, whatever wakes it next, and at a
    tick that changes the timezone, no activation fires, however many scheduled times were missed
    meanwhile. *)
Theorem switching_on_fires_nothing s w firings s' :
  star loop_step loop_start s → round w s = Some (firings, s') →
  gate_enabled (al_gate s) = false ∨ wk_event w = None ∧ gate_timezone (al_gate s') ≠ gate_timezone (al_gate s) →
  firings = [].
Proof.
  intros Hs%round_off_clocks Hr Hoff.
  apply round_spec in Hr as (s0 & Eg & _ & Eb & Eg' & [(_ & -> & _)|[Hon Hf]]); [done|].
  destruct (wk_event w) as [event|].
  - destruct Hoff as [Hoff|[[=] _]]. congruence.
  - apply (clock_round_quiet _ _ _ _ _ _ Hf). intros k due. rewrite Eb.
    destruct (reread_spec w s) as [Egr Hclk]. rewrite Hclk; [by rewrite lookup_empty|].
    destruct Hoff as [Hoff|[_ Htz]]; [left; by apply Hs|]. right. right. rewrite <-Egr. congruence.
Qed.

Lemma event_round_firings agents event tz b now firings b' :
  firings_for_event f64_text fingerprint agents event tz b now = Some (firings, b') →
  Forall (λ f, ∃ agent i e m, agent ∈ agents ∧ role_activations (aa_role agent) !! i = Some (Event e) ∧
    in_window e tz now = true ∧ match_event f64_text (ea_trigger e) event (aa_owner_profile_id agent) = Some m ∧
    f = {| fi_key := key_of fingerprint (role_name (aa_role agent)) i (Event e);
           fi_agent := role_name (aa_role agent); fi_brief := ea_brief e; fi_reason := ReasonEvent m |}) firings.
Proof.
  intros Hf. refine (proj2 (admit_each_ind _ (λ _, True) _ _ _ _ _ _ _ Hf I _));
    [|constructor].
  clear b b' Hf. intros c b f b' (agent & i & act & -> & Ha & Hi)%elem_of_numbered Hc _. split; [done|].
  intros x ->. unfold event_candidate in Hc. destruct act as [| | |e|]; try done.
  destruct (in_window e tz now) eqn:Ew; [|done]. simpl in Hc.
  destruct (match_event _ _ _ _) as [m|] eqn:Em; [|done]. unfold fire_if in Hc.
  destruct (admit_event _ _ _ _ _) as [[a b1]|]; [|done]. injection Hc as Hx _.
  case_bool_decide; [|done]. injection Hx as <-. by exists agent, i, e, m.
Qed.

Lemma clock_round_firings agents tz b now firings b' :
  firings_for_clock fingerprint agents tz b now = Some (firings, b') →
  Forall (λ f, ∃ agent i act cron cooldown brief reason, agent ∈ agents ∧ role_activations (aa_role agent) !! i = Some act ∧
    clock_of act = Some (cron, cooldown, brief, reason) ∧
    f = {| fi_key := key_of fingerprint (role_name (aa_role agent)) i act;
           fi_agent := role_name (aa_role agent); fi_brief := brief; fi_reason := reason |}) firings.
Proof.
  intros Hf. refine (proj2 (admit_each_ind _ (λ _, True) _ _ _ _ _ _ _ Hf I _));
    [|constructor].
  clear b b' Hf. intros c b f b' (agent & i & act & -> & Ha & Hi)%elem_of_numbered Hc _. split; [done|].
  intros x ->. unfold clock_candidate in Hc. destruct (clock_of act) as [[[[cron cd] brief] reason]|] eqn:Ec; [|done].
  unfold fire_if in Hc. destruct (admit_clock _ _ _ _ _ _) as [[a b1]|]; [|done]. injection Hc as Hx _.
  case_bool_decide; [|done]. injection Hx as <-. by exists agent, i, act, cron, cd, brief, reason.
Qed.

(** What the loop fires is what the household asked for: only while the three switches are on,
    and each firing is one activation of a loaded agent, either an event activation whose trigger
    the event matches for that agent's owner inside its window, or, at a tick, one with a clock. *)
Theorem rounds_fire_what_is_asked w s :
  match round w s with
  | Some (firings, s') =>
      Forall (firing_of w s') firings ∧ (firings ≠ [] → gate_enabled (al_gate s') = true)
  | None => True
  end.
Proof.
  destruct (round w s) as [[firings s']|] eqn:Hr; [|done].
  apply round_spec in Hr as (s0 & Eg & Ea & _ & _ & [(_ & -> & _)|[Hon Hf]]); [by split; [constructor|]|].
  split; [|by rewrite Eg]. destruct (wk_event w) as [event|] eqn:Ew.
  - apply event_round_firings in Hf. eapply Forall_impl; [exact Hf|].
    intros f (agent & i & e & m & Ha & Hi & Hw & Hm & ->). rewrite <-Ea in Ha. rewrite <-Eg in Hw. by eapply firing_event.
  - apply clock_round_firings in Hf. eapply Forall_impl; [exact Hf|].
    intros f (agent & i & act & cron & cd & brief & reason & Ha & Hi & Hc & ->). rewrite <-Ea in Ha. by eapply firing_clock.
Qed.
End rounds.

(** ** A concrete calendar *)

Definition DAY : Z := 86400000000000.
Definition no_f64_text (x : f64) : text := lit "0".

(** UTC, with every cron read as midnight. *)
Definition utc_calendar : Calendar :=
  {| from_std := Some; plus_window := λ t w, Some (t + Z.of_N w)%Z;
     local_clock := λ _ now, let minutes := Z.to_N (now mod DAY / 60000000000) in (minutes / 60, minutes mod 60);
     next_after := λ _ now _, Some ((now / DAY + 1) * DAY)%Z |}.

Lemma utc_laws : @CalendarLaws utc_calendar.
Proof.
  split; simpl.
  - by intros d w [= ->].
  - by intros t w u [= <-].
  - intros _ now _ due [= <-]. unfold DAY. pose proof (Z.div_mod now 86400000000000 ltac:(lia)).
    pose proof (Z.mod_pos_bound now 86400000000000 ltac:(lia)). lia.
Qed.

Definition fridge_key : ActivationKey := {| ak_agent := lit "w"; ak_index := 0; ak_fingerprint := 7 |}.
Definition fridge_read (past : bool) : EventMatch :=
  {| em_member := None; em_source := Some (lit "f"); em_past_threshold := Some past; em_detail := [] |}.
Definition fridge_call (past : bool) (now : Z) : BookCall := CallEvent fridge_key (fridge_read past) (from_secs 60) now.

(** Cold, warm, cold again, then warm twice. *)
Definition fridge_log : list (BookCall * option Admission) :=
  [(fridge_call false 0, Some Baseline); (fridge_call true 1, Some Fire); (fridge_call false 2, Some NoEdge);
   (fridge_call true 90000000000, Some Fire)].

Definition answer_of (c : BookCall) (b : ActivationBook) : option Admission * ActivationBook :=
  default (None, b) (@book_call utc_calendar c b).

Lemma book_run_next (c : BookCall) a b log b' :
  @book_call utc_calendar c b = Some (a, (answer_of c b).2) → @book_run utc_calendar (answer_of c b).2 log b' →
  @book_run utc_calendar b ((c, a) :: log) b'.
Proof. intros H1 H2. eapply run_call; eassumption. Qed.

Definition after_fridge : ActivationBook :=
  foldl (λ b e, (answer_of e.1 b).2) book_default fridge_log.

Lemma fridge_runs : @book_run utc_calendar book_default fridge_log after_fridge.
Proof. do 4 (apply book_run_next; [vm_compute; reflexivity|]). apply run_none. Qed.

Lemma fires_are_spaced_witness : (1 + Z.of_N (from_secs 60) ≤ 90000000000)%Z.
Proof.
  apply (@fires_are_spaced utc_calendar utc_laws fridge_log after_fridge 1 3 (fridge_call true 1)
    (fridge_call true 90000000000) fridge_key (from_secs 60) (from_secs 60) 1 90000000000).
  - exact fridge_runs.
  - lia.
  - reflexivity.
  - reflexivity.
  - reflexivity.
  - reflexivity.
  - intros m e Hm He. assert (m = 2%nat) as -> by lia. by injection He as <-.
Defined.

Lemma crossings_fire_witness :
  answer_of (fridge_call true 95000000000) after_fridge = (Some NoEdge, (answer_of (fridge_call true 95000000000) after_fridge).2) ∧
  NoEdge ≠ Fire.
Proof.
  split; [vm_compute; reflexivity|]. intros E.
  pose proof (proj1 (proj1 (proj2 (@crossings_fire utc_calendar fridge_log after_fridge fridge_key (fridge_read true)
    (from_secs 60) 95000000000 true NoEdge (answer_of (fridge_call true 95000000000) after_fridge).2 fridge_runs eq_refl
    ltac:(vm_compute; reflexivity)))) (or_introl E)) as [H _].
  vm_compute in H. discriminate H.
Defined.

Definition morning_key : ActivationKey := {| ak_agent := lit "h"; ak_index := 0; ak_fingerprint := 8 |}.
Definition morning_call (now : Z) : BookCall := CallClock morning_key (lit "0 0 0 * * *") (from_secs 60) (lit "UTC") now.

Lemma morning_looks :
  @book_run utc_calendar book_default [(morning_call 5, Some Baseline)] (answer_of (morning_call 5) book_default).2.
Proof. apply book_run_next; [vm_compute; reflexivity|]. apply run_none. Qed.

(** Three midnights missed, one run, and the next wait is for the fourth. *)
Lemma clocks_collapse_missed_times_witness :
  (3 * DAY < 4 * DAY)%Z ∧
  bk_next_due (answer_of (morning_call (3 * DAY)) (answer_of (morning_call 5) book_default).2).2 !! morning_key = Some (4 * DAY)%Z.
Proof.
  assert (bk_next_due (answer_of (morning_call (3 * DAY)) (answer_of (morning_call 5) book_default).2).2 !! morning_key = Some (4 * DAY)%Z)
    as Hd by (vm_compute; reflexivity).
  destruct (@clocks_collapse_missed_times utc_calendar utc_laws _ _ morning_key (lit "0 0 0 * * *") (from_secs 60) (lit "UTC")
    (3 * DAY) Fire (answer_of (morning_call (3 * DAY)) (answer_of (morning_call 5) book_default).2).2 morning_looks
    ltac:(vm_compute; reflexivity)) as [_ H].
  split; [|exact Hd]. apply H; [discriminate|exact Hd].
Defined.

Definition herald : ActivationAgent :=
  {| aa_role := {| role_name := lit "herald"; role_instructions := lit "Brief the day"; role_tool_groups := ∅;
                   role_personal_data := Deny; role_max_turns := 6; role_context_fraction := NotFinite; role_model := None;
                   role_activations := [Schedule {| sa_cron := lit "0 0 0 * * *"; sa_brief := lit "Brief us"; sa_cooldown := from_secs 60 |}];
                   role_hooks := RoleHooks_default |};
     aa_owner_profile_id := None |}.
Definition herald_tick (now : Z) : Wakeup :=
  {| wk_event := None; wk_settings := Some (true, lit "UTC"); wk_loaded := Some [herald]; wk_instant := now; wk_now := now |}.
Definition herald_round (now : Z) (s : ActivationLoop) : list Firing * ActivationLoop :=
  default ([], s) (@activation_round utc_calendar no_f64_text (λ _, 7) (herald_tick now) s).

(** The tick that switches it on runs nothing; three days later its schedule has come round. *)
Lemma switching_on_fires_nothing_witness :
  (herald_round 5 loop_start).1 = [] ∧
  length (herald_round (3 * DAY) (herald_round 5 loop_start).2).1 = 1%nat.
Proof.
  split; [|vm_compute; reflexivity].
  apply (@switching_on_fires_nothing utc_calendar utc_laws no_f64_text (λ _, 7) loop_start (herald_tick 5)
    (herald_round 5 loop_start).1 (herald_round 5 loop_start).2).
  - apply star_refl.
  - vm_compute. reflexivity.
  - by left.
Defined.
