(* ===== verification/HandOff.v ===== *)
(** * HandOff: the task an agent's run is, and what its finished step leads to

    [crates/pond-core/src/shared/services/agent_activations.rs]: whose run an activation is
    ([activation_owner], [activation_scope]), the task it queues ([activation_task]), which role may
    run a step, the blocks before hooks add to a brief, the actions after hooks ask for, the follow-up
    task, and hand-offs ([plan_hand_off] with its chain and its keys).
    [crates/pond-server/src/agent_activations.rs]: [queue], [hand_on] and [apply_after_actions] as
    programs over the store's calls, and [BeforeHookSources] over what its sources answer. Ids drawn
    at random and the instants read are arguments; the loops of log lines are left out. *)
From S2P Require Import Prelude Prog Text Scope LongTask HandBack Step PlanCycle Plan Artifact Ledger.
From S2P Require Import RoleBlock Delegation Activity Firing Queue Runner Open.
Local Open Scope N_scope.

Definition MAX_HAND_OFFS_PER_TASK : N := 4.
Definition HAND_OFF_KEY_PREFIX : text := lit "hand-to-".
Definition FOLLOW_UP_TASK_ID_PREFIX : text := lit "follow-up-".
Definition ACTIVATION_DEADLINE : N := from_secs (2 * 60 * 60).
Definition MAX_BEFORE_HOOK_ITEMS : nat := 8.
Definition MAX_OFFERED_HAND_OFFS : nat := 6.
Definition BEFORE_HOOKS_HEADING : text := lit "Gathered before you started:".
Definition WHY_HEADING : text := lit "Why this run started:".
Definition GOAL_CHARS : nat := 120.
Definition newline : text := [10].

(** ** Whose run it is *)

Definition activation_owner (event_member recipe_owner : option text) : option text :=
  non_blank (match event_member with Some m => Some m | None => recipe_owner end).

Definition activation_scope (owner : option text) (household_members : N) : option ProfileScope :=
  match owner with
  | Some owner => Some (Owner owner)
  | None => if household_members <=? 1 then Some Household else None
  end.

Definition firing_reason_line (reason : FiringReason) (member_name : option text) : text :=
  match reason with
  | ReasonSchedule cron => lit "its schedule came round (" ++ cron ++ lit ")"
  | ReasonDaily at_ => lit "it is " ++ at_ ++ lit ", its time each day"
  | ReasonEvent matched =>
      match em_member matched with
      | Some _ => default (lit "a household member") member_name ++ lit " " ++ em_detail matched
      | None => em_detail matched
      end
  end.

Definition activation_instructions (brief reason_line : text) : text :=
  trim brief ++ newline ++ newline ++ WHY_HEADING ++ lit " " ++ reason_line ++ lit ".".

(** ** The task *)

Inductive ActivationRefused : Type :=
| RefusedTask (e : LongTaskError)
| RefusedPlan (e : PlanError)
| RefusedState (e : LongTaskStateRefused).

Definition map_err {A E F} (f : E → F) (r : result A E) : result A F :=
  match r with Ok a => Ok a | Err e => Err (f e) end.

Definition first_line_capped (t : text) (max : nat) : text :=
  let line := first_line t in
  if (max <? length line)%nat then trim_end (take max line) ++ lit "..." else line.

Definition step_slug (name : text) (max : nat) : text :=
  let slug := trim_end_matches (N.eqb 45) (take max (foldl slug_push [] name)) in
  if is_empty slug then lit "agent" else slug.

Definition with_id_prefix (t : LongTask) (prefix : text) : result LongTask LongTaskError :=
  LongTask_from_parts
    {| tp_id := prefix ++ task_id t; tp_owner_profile_id := task_owner t; tp_scope := task_scope t;
       tp_goal := task_goal t; tp_origin_session_id := task_origin t; tp_state := task_state t;
       tp_max_steps := max_steps (task_budget t); tp_deadline := deadline (task_budget t);
       tp_kind := task_kind t; tp_answer := task_answer t; tp_created_at := task_created_at t;
       tp_updated_at := task_updated_at t; tp_finished_at := task_finished_at t |}.

Definition is_follow_up_task (t : LongTask) : bool := starts_with FOLLOW_UP_TASK_ID_PREFIX (task_id t).

Definition activation_draft (role : AgentRole) (instructions : text) : StepDraft :=
  {| sd_key := step_slug (role_name role) (N.to_nat MAX_STEP_KEY_CHARS); sd_role := role_name role;
     sd_new_agent := None; sd_instructions := instructions; sd_inputs := []; sd_depends_on := [];
     sd_acceptance := None |}.

(** [deadline] is [at_] plus [ACTIVATION_DEADLINE]. *)
Definition activation_task (uuid : text) (role : AgentRole) (instructions : text) (scope : ProfileScope)
    (owner : option text) (deadline : option Z) (at_ : Z) :
    result (LongTask * ValidatedPlan) ActivationRefused :=
  let? budget := map_err RefusedTask (LongTaskBudget_new (1 + MAX_HAND_OFFS_PER_TASK) deadline) in
  let goal := role_name role ++ lit ": " ++ first_line_capped instructions GOAL_CHARS in
  let? started := map_err RefusedTask (LongTask_start uuid scope owner goal None budget at_) in
  let? task := map_err RefusedTask (with_id_prefix started ACTIVATION_TASK_ID_PREFIX) in
  let? task := map_err RefusedState (transition_to task Paused at_) in
  let? plan := map_err RefusedPlan (validate_plan task [activation_draft role instructions] []) in
  Ok (task, plan).

Section deadline.
Context `{Calendar}.
(** [None] is chrono's panic. *)
Definition activation_deadline (at_ : Z) : option (option Z) :=
  match from_std ACTIVATION_DEADLINE with
  | None => Some None
  | Some window => Some <$> plus_window at_ window
  end.
End deadline.

Definition follow_up_task (uuid : text) (task : LongTask) (goal : text) (at_ : Z) : result LongTask LongTaskError :=
  let? budget := LongTaskBudget_new DEFAULT_LONG_TASK_STEPS None in
  let? started := LongTask_start uuid (task_scope task) (task_owner task) goal None budget at_ in
  with_id_prefix started FOLLOW_UP_TASK_ID_PREFIX.

(** ** Around a step *)

Inductive StepNotAllowed : Type :=
| ForAnotherRole (key wanted role : text)
| TakesNoSteps (role : text).

Definition is_hand_off (s : PlanStep) : bool := starts_with HAND_OFF_KEY_PREFIX (ps_key s).

Definition step_role_allowed (task : LongTask) (step : PlanStep) (role : AgentRole) : result unit StepNotAllowed :=
  if negb (bool_decide (ps_role step = role_name role))
  then Err (ForAnotherRole (ps_key step) (ps_role step) (role_name role)) else
  if is_activation_task task || is_hand_off step || accepts_task_steps role then Ok tt
  else Err (TakesNoSteps (role_name role)).

Definition plannable_roles (offered : list AgentRole) : list AgentRole := List.filter accepts_task_steps offered.

Definition runner_notifies_at_end (task : LongTask) (steps : list PlanStep) (roles : list AgentRole) (finished : bool) : bool :=
  if negb (is_activation_task task) then true else
  if finished then false else
  match min_by ps_ordinal steps with
  | None => false
  | Some first =>
      match find_first (λ r, bool_decide (role_name r = ps_role first)) roles with
      | Some role => after_has (role_hooks role) NotifyOwner
      | None => false
      end
  end.

Definition hand_back_offer (role : AgentRole) (roles : list AgentRole) : text :=
  let targets :=
    (λ target, role_name target ++ lit " (" ++ first_line_capped (role_instructions target) GOAL_CHARS ++ lit ")") <$>
    take MAX_OFFERED_HAND_OFFS
      (List.filter (λ target, negb (bool_decide (role_name target = role_name role)) &&
                              accepts_hand_off_from target (role_name role)) roles) in
  (if is_empty targets then [] else
   newline ++ lit "When you finish, you may hand this on to: " ++ join (lit "; ") targets ++
   lit ". To do so, add `hand_to` (the agent's name) and `brief` (what it should do next) to step_report." ++ newline) ++
  (if after_has (role_hooks role) StartTask then
   lit "If what you found needs a long piece of work of its own, add `start_task` (its goal, in one sentence) to step_report." ++ newline
   else []).

(** ** Before a step *)

Record PresenceLine := { pl_name : text; pl_home : bool; pl_since : text }.
Record BeforeHookContext := {
  bh_date : option text; bh_schedule : list text; bh_weather : option text; bh_presence : list PresenceLine }.
Definition BeforeHookContext_default : BeforeHookContext :=
  {| bh_date := None; bh_schedule := []; bh_weather := None; bh_presence := [] |}.

Definition capped_list (items : list text) : text :=
  join (lit "; ") (take MAX_BEFORE_HOOK_ITEMS items) ++
  (if (MAX_BEFORE_HOOK_ITEMS <? length items)%nat
   then lit " and " ++ dec (N.of_nat (length items - MAX_BEFORE_HOOK_ITEMS)) ++ lit " more" else []).

Definition presence_names (home : bool) (lines : list PresenceLine) : list text :=
  (λ p, pl_name p ++ lit " (since " ++ pl_since p ++ lit ")") <$> List.filter (λ p, Bool.eqb (pl_home p) home) lines.

Definition before_hook_line (private : bool) (context : BeforeHookContext) (hook : BeforeHook) : text :=
  match hook with
  | Today =>
      let date := default (lit "unknown") (bh_date context) in
      if private then lit "Today: " ++ date ++ lit ". Its schedule is withheld: this run sees no personal data."
      else if is_empty (bh_schedule context) then lit "Today: " ++ date ++ lit ". Nothing is scheduled."
      else lit "Today: " ++ date ++ lit ". Scheduled: " ++ capped_list (bh_schedule context) ++ lit "."
  | Weather =>
      match bh_weather context with
      | Some weather => lit "Weather: " ++ weather ++ lit "."
      | None => lit "Weather: could not be read just now."
      end
  | Presence =>
      if private then lit "Who is home: withheld, since this run sees no personal data."
      else if is_empty (bh_presence context)
      then lit "Who is home: nobody has been seen arriving or leaving since the pond started."
      else
        let home := presence_names true (bh_presence context) in
        let away := presence_names false (bh_presence context) in
        let parts := (if is_empty home then [] else [lit "home: " ++ capped_list home]) ++
                     (if is_empty away then [] else [lit "away: " ++ capped_list away]) in
        lit "Who is home, as last seen: " ++ join (lit "; ") parts ++ lit "."
  end.

Definition render_before_hooks (hooks : list BeforeHook) (context : BeforeHookContext) (scope : ProfileScope) : text :=
  if is_empty hooks then [] else
  newline ++ BEFORE_HOOKS_HEADING ++ newline ++
  concat ((λ hook, lit "- " ++ before_hook_line (excludes_everything scope) context hook ++ newline) <$> hooks).

(** What the sources of [gather] answer, read only when asked. *)
Record BeforeHookSources := {
  bs_date : text; bs_today : list text; bs_weather_line : option text; bs_presence_lines : list PresenceLine }.

Definition has_hook (hooks : list BeforeHook) (h : BeforeHook) : bool :=
  existsb (λ x, match x, h with Today, Today | Weather, Weather | Presence, Presence => true | _, _ => false end) hooks.

Definition gather (src : BeforeHookSources) (hooks : list BeforeHook) (scope : ProfileScope) : BeforeHookContext :=
  let private := excludes_everything scope in
  {| bh_date := if has_hook hooks Today then Some (bs_date src) else None;
     bh_schedule := if has_hook hooks Today && negb private then bs_today src else [];
     bh_weather := if has_hook hooks Weather then bs_weather_line src else None;
     bh_presence := if has_hook hooks Presence && negb private then bs_presence_lines src else [] |}.

Definition block_for (src : BeforeHookSources) (role : AgentRole) (scope : ProfileScope) : text :=
  let hooks := hook_before (role_hooks role) in
  if is_empty hooks then [] else
  let scope := match role_personal_data role with Deny => Guest | Inherit => scope end in
  render_before_hooks hooks (gather src hooks scope) scope.

(** ** After a step *)

Inductive AfterAction : Type :=
| ActNotifyOwner (body : text)
| ActSaveArtifact
| ActStartTask (goal : text)
| ActHandTo (agent brief : text).

Definition or_else {A} (a b : option A) : option A := match a with Some _ => a | None => b end.

Definition hook_action (task : LongTask) (outcome : StepOutcome) (hook : AfterHook) : option AfterAction :=
  let summary := trim (so_summary outcome) in
  match hook with
  | NotifyOwner =>
      if bool_decide (is_Some (task_owner task))
      then Some (ActNotifyOwner (if is_empty summary then lit "It's done." else summary)) else None
  | SaveArtifact => if negb (is_empty summary) then Some ActSaveArtifact else None
  | StartTask => if negb (is_follow_up_task task) then ActStartTask <$> ask_start_task (so_asks outcome) else None
  | HandTo _ => None
  end.

Definition after_hook_actions (task : LongTask) (role : AgentRole) (step : PlanStep) (outcome : StepOutcome) : list AfterAction :=
  if negb (bool_decide (ps_role step = role_name role)) || negb (bool_decide (ps_state step = StepState.Completed)) ||
     negb (bool_decide (so_outcome outcome = OutcomeKind.Completed)) then [] else
  let summary := trim (so_summary outcome) in
  let actions := omap (hook_action task outcome) (hook_after (role_hooks role)) in
  let asked := (λ ask, (ht_agent ask, default summary (ht_brief ask))) <$> ask_hand_to (so_asks outcome) in
  let hooked := (λ agent, (agent, summary)) <$> hook_hand_to (role_hooks role) in
  match or_else asked hooked with
  | Some (agent, brief) => actions ++ [ActHandTo agent brief]
  | None => actions
  end.

Definition hook_result_artifact (uuid : text) (task : LongTask) (step : PlanStep) (outcome : StepOutcome) (at_ : Z) :
    result Artifact ArtifactError :=
  Artifact_new uuid (task_id task) (Some (ps_key step)) Findings RESULT_TITLE
    (first_line_capped (so_summary outcome) GOAL_CHARS) (so_summary outcome) at_.

(** ** Hand-offs *)

Inductive HandOffRefused : Type :=
| NoSuchAgent (agent : text)
| NotAccepted (from to_ : text)
| HandOffCycle (chain : list text)
| CapReached (cap : N)
| EmptyBrief
| HandOffPlan (e : PlanError).

(** The step whose hand-back added [current]. *)
Definition handed_from (steps : list PlanStep) (current : PlanStep) : option PlanStep :=
  match ps_depends_on current with
  | dep :: _ => find_first (λ s, bool_decide (ps_key s = dep)) steps
  | [] => None
  end.

(** The [for] of [hand_off_chain], over as many turns as there are steps. *)
Fixpoint chain_loop (turns : nat) (steps : list PlanStep) (current : PlanStep) (chain : list text) : list text :=
  match turns with
  | O => chain
  | S turns =>
      if negb (is_hand_off current) then chain else
      match handed_from steps current with
      | None => chain
      | Some previous => chain_loop turns steps previous (chain ++ [ps_role previous])
      end
  end.
Definition hand_off_chain (steps : list PlanStep) (source : PlanStep) : list text :=
  chain_loop (length steps) steps source [ps_role source].

Definition SUFFIX_ROOM : N := 3.

Definition key_taken (steps : list PlanStep) (key : text) : bool := existsb (λ s, bool_decide (ps_key s = key)) steps.

(** The [loop] over [n]; [None] when [fuel] ran out. *)
Fixpoint suffix_loop (fuel : nat) (steps : list PlanStep) (base : text) (n : N) : option text :=
  match fuel with
  | O => None
  | S fuel =>
      let key := base ++ lit "-" ++ dec n in
      if negb (key_taken steps key) then Some key else suffix_loop fuel steps base (n + 1)
  end.

Definition hand_off_base (target : text) : text :=
  let room := MAX_STEP_KEY_CHARS - byte_len HAND_OFF_KEY_PREFIX - SUFFIX_ROOM in
  HAND_OFF_KEY_PREFIX ++ step_slug target (N.to_nat room).

Definition hand_off_key (target : text) (steps : list PlanStep) : option text :=
  let base := hand_off_base target in
  if negb (key_taken steps base) then Some base else suffix_loop (S (length steps)) steps base 2.

Definition hand_off_instructions (brief : text) (source : PlanStep) : text :=
  match non_blank (ps_summary source) with
  | Some summary =>
      brief ++ newline ++ newline ++ lit "Handed on by the " ++ ps_role source ++ lit " agent, whose step reported: " ++ summary
  | None => brief ++ newline ++ newline ++ lit "Handed on by the " ++ ps_role source ++ lit " agent."
  end.

Definition hand_off_draft (key : text) (target : AgentRole) (source : PlanStep) (brief : text) (artifacts : list ArtifactSummary) :
    StepDraft :=
  {| sd_key := key; sd_role := role_name target; sd_new_agent := None;
     sd_instructions := hand_off_instructions brief source;
     sd_inputs := as_id <$> List.filter (λ a, bool_decide (as_step_key a = Some (ps_key source))) artifacts;
     sd_depends_on := [ps_key source]; sd_acceptance := None |}.

(** [None]: the search for a free key ran out of fuel. *)
Definition plan_hand_off (task : LongTask) (steps : list PlanStep) (source : PlanStep) (agent brief : text)
    (roles : list AgentRole) (artifacts : list ArtifactSummary) : option (result ValidatedPlan HandOffRefused) :=
  let agent := trim agent in
  match find_first (λ r, bool_decide (role_name r = agent)) roles with
  | None => Some (Err (NoSuchAgent agent))
  | Some target =>
      let chain := hand_off_chain steps source in
      if existsb (λ seen, bool_decide (seen = role_name target)) chain
      then Some (Err (HandOffCycle (rev chain ++ [role_name target]))) else
      if negb (accepts_hand_off_from target (ps_role source))
      then Some (Err (NotAccepted (ps_role source) (role_name target))) else
      let taken := N.of_nat (length (List.filter is_hand_off steps)) in
      if MAX_HAND_OFFS_PER_TASK <=? taken then Some (Err (CapReached MAX_HAND_OFFS_PER_TASK)) else
      let brief := trim brief in
      if is_empty brief then Some (Err EmptyBrief) else
      match hand_off_key (role_name target) steps with
      | None => None
      | Some key =>
          Some (map_err HandOffPlan (validate_appended_step task (hand_off_draft key target source brief artifacts) steps))
      end
  end.

(** ** The server's part *)

(** A firing's task, from the runs still open to the bell. [QueueClock] holds the two instants read;
    [members] are the household's ids and names, [None] when they could not be read. *)
Record QueueReads := {
  qr_members : option (list (text * text)); qr_uuid : text; qr_at : Z; qr_running : Z; qr_cancelled : Z }.

Inductive Queued : Type := NotQueued | NotedOpen (id : text) | QueuedTask (id : text) | QueuePanicked.

Section server.
Context `{Calendar}.

Definition cancel_unqueued (id : text) (at_ : Z) : Prog RepoCall Queued :=
  do! SetTaskState id Cancelled at_ in Ret NotQueued.

Definition queue_new (q : QueueReads) (agent : ActivationAgent) (firing : Firing) : Prog RepoCall Queued :=
  let member := match fi_reason firing with ReasonEvent m => em_member m | ReasonSchedule _ | ReasonDaily _ => None end in
  let owner := activation_owner member (aa_owner_profile_id agent) in
  match qr_members q with
  | None => Ret NotQueued
  | Some members =>
      match activation_scope owner (N.of_nat (length members)) with
      | None => Ret NotQueued
      | Some scope =>
          let member_name := m ← member; snd <$> find_first (λ p, bool_decide (p.1 = m)) members in
          let reason := firing_reason_line (fi_reason firing) member_name in
          let instructions := activation_instructions (fi_brief firing) reason in
          match activation_deadline (qr_at q) with
          | None => Ret QueuePanicked
          | Some deadline =>
              match activation_task (qr_uuid q) (aa_role agent) instructions scope owner deadline (qr_at q) with
              | Err _ => Ret NotQueued
              | Ok (task, plan) =>
                  let! created := CreateTask task in
                  match created with
                  | Err _ => Ret NotQueued
                  | Ok _ =>
                      let! replaced := ReplaceOpenSteps plan in
                      match replaced with
                      | Err _ => cancel_unqueued (task_id task) (qr_cancelled q)
                      | Ok _ =>
                          let! moved := SetTaskState (task_id task) Running (qr_running q) in
                          match moved with
                          | Ok (Some _) => Ret (QueuedTask (task_id task))
                          | _ => cancel_unqueued (task_id task) (qr_cancelled q)
                          end
                      end
                  end
              end
          end
      end
  end.

Definition queue_unless_open (q : QueueReads) (agent : ActivationAgent) (firing : Firing) : Prog RepoCall Queued :=
  let goal_prefix := fi_agent firing ++ lit ":" in
  let! open_tasks := ListTasks Everyone false in
  match open_tasks with
  | Ok open_tasks =>
      match find_first (λ t, is_activation_task t && starts_with goal_prefix (task_goal t)) open_tasks with
      | Some existing => Ret (NotedOpen (task_id existing))
      | None => queue_new q agent firing
      end
  | Err _ => queue_new q agent firing
  end.

(** [queue]; what the book is then told is its answer. *)
Definition queue (q : QueueReads) (agents : list ActivationAgent) (firing : Firing) (book : ActivationBook) : Prog RepoCall Queued :=
  match find_first (λ a, bool_decide (role_name (aa_role a) = fi_agent firing)) agents with
  | None => Ret NotQueued
  | Some agent =>
      match task_for (fi_key firing) book with
      | None => queue_unless_open q agent firing
      | Some open =>
          let! found := GetTask open in
          match found with
          | Ok (Some task) => if negb (is_terminal (task_state task)) then Ret NotQueued else queue_unless_open q agent firing
          | Ok None => queue_unless_open q agent firing
          | Err _ => Ret NotQueued
          end
      end
  end.

Definition noted (r : Queued) (key : ActivationKey) (book : ActivationBook) : ActivationBook :=
  match r with NotedOpen id | QueuedTask id => note_task key id book | NotQueued | QueuePanicked => book end.
End server.

(** A member's devices are told, or the store is called. *)
Inductive AfterCall : Type → Type :=
| Repo {R} (c : RepoCall R) : AfterCall R
| SendToProfile (owner : text) (title body : text) : AfterCall unit.

(** [None]: no free key was found in time. *)
Definition hand_on (task : LongTask) (step : PlanStep) (agent brief : text) (roles : list AgentRole) :
    Prog AfterCall (option (result unit HandOffRefused)) :=
  let! steps := Repo (ListSteps (task_id task)) in
  let! artifacts := Repo (ListArtifacts (task_id task)) in
  match steps, artifacts with
  | Ok steps, Ok artifacts =>
      let source := default step (find_first (λ s, bool_decide (ps_key s = ps_key step)) steps) in
      match plan_hand_off task steps source agent brief roles artifacts with
      | None => Ret None
      | Some (Err refused) => Ret (Some (Err refused))
      | Some (Ok plan) => do! Repo (ReplaceOpenSteps plan) in Ret (Some (Ok tt))
      end
  | _, _ => Ret (Some (Ok tt))
  end.

(** The id and the instant of the [n]th action that makes something. *)
Definition apply_after_action (ids : nat → text * Z) (task : LongTask) (step : PlanStep) (outcome : StepOutcome)
    (roles : list AgentRole) (n : nat) (action : AfterAction) : Prog AfterCall unit :=
  match action with
  | ActNotifyOwner body =>
      match task_owner task with
      | None => Ret tt
      | Some owner => do! SendToProfile owner (lit "From " ++ ps_role step) body in Ret tt
      end
  | ActSaveArtifact =>
      match hook_result_artifact (ids n).1 task step outcome (ids n).2 with
      | Ok artifact => do! Repo (InsertArtifact artifact) in Ret tt
      | Err _ => Ret tt
      end
  | ActStartTask goal =>
      match follow_up_task (ids n).1 task goal (ids n).2 with
      | Ok follow_up => do! Repo (CreateTask follow_up) in Ret tt
      | Err _ => Ret tt
      end
  | ActHandTo agent brief => prog_bind (hand_on task step agent brief roles) (λ _, Ret tt)
  end.

Fixpoint apply_after_actions (ids : nat → text * Z) (task : LongTask) (step : PlanStep) (outcome : StepOutcome)
    (roles : list AgentRole) (n : nat) (actions : list AfterAction) : Prog AfterCall unit :=
  match actions with
  | [] => Ret tt
  | action :: actions =>
      prog_bind (apply_after_action ids task step outcome roles n action)
        (λ _, apply_after_actions ids task step outcome roles (S n) actions)
  end.

(** ** Lemmas: keys *)

Lemma step_slug_chars name max :
  step_slug name max ≠ [] ∧ Forall (λ c, key_char c = true) (step_slug name max) ∧ (length (step_slug name max) ≤ Nat.max 5 max)%nat.
Proof.
  unfold step_slug. set (t := take max _).
  destruct (is_empty _) eqn:E; [split; [done|]; split; [by repeat constructor|simpl; lia]|].
  apply is_empty_false in E. split; [done|]. destruct (trim_end_matches_prefix_of (N.eqb 45) t) as [r Hr].
  assert (Forall (λ c, key_char c = true) t) as Ht by (apply Forall_take, slug_chars; constructor).
  split; [rewrite Hr in Ht; by apply Forall_app in Ht as [? _]|].
  pose proof (trim_end_matches_length (N.eqb 45) t). unfold t in *. rewrite length_take in *. lia.
Qed.

Lemma hand_off_base_spec target :
  Forall (λ c, key_char c = true) (hand_off_base target) ∧ (length (hand_off_base target) ≤ 29)%nat ∧
  ∀ t, starts_with HAND_OFF_KEY_PREFIX (hand_off_base target ++ t) = true.
Proof.
  unfold hand_off_base. set (room := N.to_nat _). assert (room = 21%nat) as -> by reflexivity.
  destruct (step_slug_chars target 21) as (_ & Hc & Hl). split; [|split].
  - apply Forall_app. split; [by repeat constructor|done].
  - rewrite length_app. simpl in *. lia.
  - intros t. apply starts_with_spec. exists (step_slug target 21 ++ t). by rewrite app_assoc.
Qed.

Definition suffixed (base : text) (n : N) : text := base ++ lit "-" ++ dec n.

Lemma suffixed_inj base n m : suffixed base n = suffixed base m → n = m.
Proof. unfold suffixed. intros H%app_inv_head%app_inv_head. by apply dec_inj. Qed.

Lemma key_taken_true steps k : key_taken steps k = true ↔ k ∈ ps_key <$> steps.
Proof.
  unfold key_taken. rewrite existsb_elem_of, list_elem_of_fmap. setoid_rewrite bool_decide_eq_true.
  split; intros (s & ? & ?); exists s; auto.
Qed.

Lemma suffix_loop_spec fuel steps base n :
  match suffix_loop fuel steps base n with
  | Some k => ∃ i, (i < fuel)%nat ∧ k = suffixed base (n + N.of_nat i) ∧ k ∉ ps_key <$> steps ∧
      ∀ j, (j < i)%nat → suffixed base (n + N.of_nat j) ∈ ps_key <$> steps
  | None => ∀ j, (j < fuel)%nat → suffixed base (n + N.of_nat j) ∈ ps_key <$> steps
  end.
Proof.
  revert n. induction fuel as [|fuel IH]; intros n; cbn [suffix_loop]; [intros j Hj; lia|].
  fold (suffixed base n). destruct (key_taken steps (suffixed base n)) eqn:E; cbn [negb].
  - apply key_taken_true in E. specialize (IH (n + 1)).
    assert (∀ j, n + 1 + N.of_nat j = n + N.of_nat (S j)) as Hn by lia.
    destruct (suffix_loop fuel steps base (n + 1)) as [k|].
    + destruct IH as (i & Hi & -> & Hk & Hj). exists (S i). rewrite <-Hn. split; [lia|]. split; [done|].
      split; [done|]. intros [|j] Hlt; [by rewrite N.add_0_r|]. rewrite <-Hn. apply Hj. lia.
    + intros [|j] Hlt; [by rewrite N.add_0_r|]. rewrite <-Hn. apply IH. lia.
  - exists 0%nat. rewrite N.add_0_r. split; [lia|]. split; [done|]. split; [|lia].
    intros Hk%key_taken_true. congruence.
Qed.

(** Distinct keys that are all taken are no more than the steps. *)
Lemma taken_keys_bound steps base n m :
  (∀ j, (j < m)%nat → suffixed base (n + N.of_nat j) ∈ ps_key <$> steps) → (m ≤ length steps)%nat.
Proof.
  intros H. assert (NoDup ((λ j, suffixed base (n + N.of_nat j)) <$> seq 0 m)) as Hnd.
  { apply NoDup_fmap_2; [intros i j Hij%suffixed_inj; lia|apply NoDup_seq]. }
  pose proof (submseteq_length ((λ j, suffixed base (n + N.of_nat j)) <$> seq 0 m) (ps_key <$> steps)) as Hl.
  rewrite !length_fmap, length_seq in Hl. apply Hl. apply NoDup_submseteq; [done|].
  intros k (j & -> & Hj%elem_of_seq)%list_elem_of_fmap. apply H. lia.
Qed.

Lemma dec_two_digits n : n < 100 → (length (dec n) ≤ 2)%nat.
Proof. intros Hn. by apply dec_fuel_length. Qed.

Lemma suffixed_chars base n :
  Forall (λ c, key_char c = true) base → Forall (λ c, key_char c = true) (suffixed base n).
Proof.
  intros Hc. apply Forall_app. split; [done|]. apply Forall_app. split; [by repeat constructor|].
  apply (Forall_impl _ _ _ (dec_digits _)). intros c Hd. unfold key_char. rewrite Hd. by rewrite orb_true_r.
Qed.

Lemma hand_off_key_spec target steps :
  ∃ k, hand_off_key target steps = Some k ∧ k ∉ ps_key <$> steps ∧ starts_with HAND_OFF_KEY_PREFIX k = true ∧
    k ≠ [] ∧ Forall (λ c, key_char c = true) k ∧ ((length steps ≤ 97)%nat → (length k ≤ 32)%nat).
Proof.
  unfold hand_off_key. destruct (hand_off_base_spec target) as (Hc & Hl & Hp). set (base := hand_off_base target) in *.
  assert (∀ t, base ++ t ≠ []) as Hne by (intros t E; specialize (Hp t); by rewrite E in Hp).
  destruct (key_taken steps base) eqn:E; cbn [negb].
  - pose proof (suffix_loop_spec (S (length steps)) steps base 2) as Hs.
    destruct (suffix_loop _ _ _ _) as [k|]; [|apply taken_keys_bound in Hs; lia].
    destruct Hs as (i & _ & -> & Hk & Hj). apply taken_keys_bound in Hj. exists (suffixed base (2 + N.of_nat i)).
    split_and!; [done|done|apply Hp|apply Hne|by apply suffixed_chars|]. intros Hlen. unfold suffixed.
    rewrite !length_app. pose proof (dec_two_digits (2 + N.of_nat i) ltac:(lia)). simpl in *. lia.
  - specialize (Hp []). specialize (Hne []). rewrite app_nil_r in Hp, Hne. exists base.
    split_and!; [done|intros Hk%key_taken_true; congruence|done..|lia].
Qed.

Lemma key_chars_trim k : Forall (λ c, key_char c = true) k → trim k = k.
Proof.
  intros Hk. apply trimmed_trim. split; intros c Hc; apply key_char_not_blank;
    [apply head_Some_elem_of in Hc|apply last_Some_elem_of in Hc]; by apply (proj1 (Forall_forall _ _) Hk).
Qed.

(** ** Lemmas: chains *)

(** The roles of a chain, newest first, down to the step that began it. *)
Inductive chain (steps : list PlanStep) : text → list text → Prop :=
| chain_root s : s ∈ steps → is_hand_off s = false → chain steps (ps_key s) [ps_role s]
| chain_next s d ds c :
    s ∈ steps → is_hand_off s = true → ps_depends_on s = d :: ds → chain steps d c →
    chain steps (ps_key s) (ps_role s :: c).

(** What hand-offs read of a step. *)
Definition same_place (s s' : PlanStep) : Prop :=
  ps_key s' = ps_key s ∧ ps_role s' = ps_role s ∧ ps_depends_on s' = ps_depends_on s.

Lemma chain_mono steps steps' k c :
  (∀ s, s ∈ steps → ∃ s', s' ∈ steps' ∧ same_place s s') → chain steps k c → chain steps' k c.
Proof.
  intros Hmap. induction 1 as [s Hs Hh|s d ds c Hs Hh Hd _ IH]; destruct (Hmap s Hs) as (s' & Hs' & Hk & Hr & Hds);
    rewrite <-Hk, <-Hr.
  - apply chain_root; [done|]. unfold is_hand_off in *. by rewrite Hk.
  - eapply chain_next; [done| |by rewrite Hds|exact IH]. unfold is_hand_off in *. by rewrite Hk.
Qed.

Lemma chain_steps steps k c : chain steps k c → ∃ vs, ps_role <$> vs = c ∧ ∀ s, s ∈ vs → s ∈ steps.
Proof.
  induction 1 as [s Hs _|s d ds c Hs _ _ _ (vs & <- & Hv)].
  - exists [s]. split; [done|]. by intros x ->%elem_of_one.
  - exists (s :: vs). split; [done|]. intros x [->|Hx]%elem_of_cons; auto.
Qed.

Lemma chain_short steps k c : chain steps k c → NoDup c → (length c ≤ length steps)%nat.
Proof.
  intros (vs & <- & Hv)%chain_steps Hnd%NoDup_fmap_1. rewrite length_fmap.
  apply submseteq_length. by apply NoDup_submseteq.
Qed.

Lemma find_key steps k s :
  NoDup (ps_key <$> steps) → find_first (λ s, bool_decide (ps_key s = k)) steps = Some s ↔ s ∈ steps ∧ ps_key s = k.
Proof. apply find_first_key. intros s'. apply bool_decide_eq_true. Qed.

Lemma same_key steps s t :
  NoDup (ps_key <$> steps) → s ∈ steps → t ∈ steps → ps_key s = ps_key t → s = t.
Proof.
  intros Hnd Hs Ht E. pose proof (proj2 (find_key steps (ps_key t) s Hnd) (conj Hs E)) as E1.
  pose proof (proj2 (find_key steps (ps_key t) t Hnd) (conj Ht eq_refl)) as E2. congruence.
Qed.

Lemma chain_loop_spec steps k c :
  NoDup (ps_key <$> steps) → chain steps k c →
  ∀ turns s acc, s ∈ steps → ps_key s = k → (length c ≤ S turns)%nat →
    chain_loop turns steps s acc = acc ++ tl c.
Proof.
  intros Hnd. induction 1 as [r Hr Hh|r d ds c Hr Hh Hd Hc IH]; intros turns s acc Hs Hk Hlen.
  - apply (same_key steps) in Hk as ->; [|done..]. simpl. rewrite app_nil_r. destruct turns; [done|]. simpl. by rewrite Hh.
  - apply (same_key steps) in Hk as ->; [|done..].
    assert (∃ p, p ∈ steps ∧ ps_key p = d ∧ ∃ c', c = ps_role p :: c') as (p & Hp & Hpk & c' & ->).
    { destruct Hc as [p Hp _|p d' ds' c' Hp]; exists p; eauto. }
    destruct turns as [|turns]; [simpl in Hlen; lia|]. cbn [chain_loop]. rewrite Hh. cbn [negb].
    unfold handed_from. rewrite Hd, (proj2 (find_key steps d p Hnd) (conj Hp Hpk)).
    rewrite (IH turns p _ Hp Hpk) by (simpl in *; lia). by rewrite <-app_assoc.
Qed.

Lemma hand_off_chain_spec steps s c :
  NoDup (ps_key <$> steps) → s ∈ steps → chain steps (ps_key s) c → NoDup c → hand_off_chain steps s = c.
Proof.
  intros Hnd Hs Hc Hndc. unfold hand_off_chain. pose proof (chain_short _ _ _ Hc Hndc) as Hl.
  rewrite (chain_loop_spec steps (ps_key s) c Hnd Hc) by (done || lia). simpl.
  assert (∃ c', c = ps_role s :: c') as [c' ->]; [|done].
  remember (ps_key s) as k eqn:Ek. destruct Hc as [p Hp _|p d ds c' Hp _ _ _];
    (apply (same_key steps) in Ek as ->; [|done..]); eauto.
Qed.

(** ** Lemmas: one hand-off *)

Lemma find_none_trim (k : text) : valid_key k → List.filter (λ raw : text, negb (is_empty raw)) (trim <$> [k]) = [k].
Proof.
  intros Hk. simpl. rewrite trimmed_trim by by apply valid_key_trimmed. destruct Hk as [Hne _].
  apply is_empty_false in Hne. by rewrite Hne.
Qed.

Lemma validate_appended_step_made task d existing p :
  validate_appended_step task d existing = Ok p →
  ∃ s, vp_steps p = List.filter (λ s, negb (survives_replan (ps_state s))) (sort_by ps_ordinal existing) ++ [s] ∧
    ps_key s = trim (sd_key d) ∧ ps_role s = trim (sd_role d) ∧ ps_key s ∉ ps_key <$> existing ∧ valid_key (ps_key s) ∧
    appended_waits existing (ps_key s) (List.filter (λ raw, negb (is_empty raw)) (trim <$> sd_depends_on d)) [] =
      Ok (ps_depends_on s).
Proof.
  intros H. pose proof (validate_appended_ok _ _ _ _ H) as (_ & s & Hok).
  unfold validate_appended_step in H. destruct (is_terminal _); [done|]. destruct (find_first _ _); [done|].
  destruct (_ <? _); [done|]. apply result_bind_ok in H as (key & Hkey & H). destruct (existsb _ _); [done|].
  destruct (is_empty (trim (sd_role d))); [done|]. destruct (is_empty (trim (sd_instructions d))); [done|].
  apply result_bind_ok in H as (deps & Hdeps & [= <-]). apply StepKey_parse_ok in Hkey as [-> Hkey].
  pose proof (ao_key _ _ _ _ Hok) as Hfresh. pose proof (ao_steps _ _ _ _ Hok) as Hsteps. simpl in Hsteps.
  apply app_inj_tail in Hsteps as [_ <-]. simpl in Hfresh. eexists. split; [reflexivity|]. simpl. done.
Qed.

Lemma written_appended existing p s :
  vp_steps p = List.filter (λ s, negb (survives_replan (ps_state s))) (sort_by ps_ordinal existing) ++ [s] →
  written existing p ≡ₚ existing ++ [s].
Proof.
  intros E. unfold written, kept_steps. rewrite E, app_assoc. f_equiv. rewrite sort_by_perm.
  rewrite (filter_bool_perm _ _ _ (sort_by_perm ps_ordinal existing)). apply filter_split_perm.
Qed.

(** A hand-off of one of the task's steps that was accepted, and what it adds. *)
Lemma plan_hand_off_ok task steps source agent brief roles artifacts p :
  NoDup (ps_key <$> steps) → Forall (λ s, valid_key (ps_key s)) steps → source ∈ steps →
  plan_hand_off task steps source agent brief roles artifacts = Some (Ok p) →
  ∃ s, written steps p ≡ₚ steps ++ [s] ∧ ps_key s ∉ ps_key <$> steps ∧ valid_key (ps_key s) ∧ is_hand_off s = true ∧
    ps_depends_on s = [ps_key source] ∧ ps_role s ∉ hand_off_chain steps source ∧
    N.of_nat (length (List.filter is_hand_off steps)) < MAX_HAND_OFFS_PER_TASK ∧
    ∃ target, target ∈ roles ∧ role_name target = ps_role s ∧ accepts_hand_off_from target (ps_role source) = true.
Proof.
  intros Hnd Hv Hsrc. unfold plan_hand_off.
  destruct (find_first _ roles) as [target|] eqn:Et; [|done]. apply find_some_iff in Et as [Ht Hname%bool_decide_eq_true].
  destruct (existsb _ _) eqn:Ecyc; [done|]. destruct (negb (accepts_hand_off_from _ _)) eqn:Eacc; [done|].
  apply negb_false_iff in Eacc. destruct (N.leb_spec MAX_HAND_OFFS_PER_TASK (N.of_nat (length (List.filter is_hand_off steps)))); [done|].
  destruct (is_empty (trim brief)); [done|]. destruct (hand_off_key_spec (role_name target) steps) as (k & Hk & _ & Hpre & _ & Hchars & _).
  rewrite Hk. intros [= H']. destruct (validate_appended_step _ _ _) as [p'|e] eqn:Ev; [|done]. injection H' as ->.
  pose proof (proj1 (Forall_forall _ _) Hv source Hsrc) as Hvs.
  apply validate_appended_step_made in Ev as (s & Hst & Hkey & Hrole & Hfresh & Hvk & Hdep). cbn [sd_key sd_role sd_depends_on hand_off_draft] in *.
  rewrite find_none_trim in Hdep by done. simpl in Hdep.
  rewrite (proj2 (find_key steps (ps_key source) source Hnd) (conj Hsrc eq_refl)) in Hdep. injection Hdep as Hdep.
  assert (trim (role_name target) = role_name target) as Etr by (rewrite Hname; apply trim_idemp).
  rewrite Etr in Hrole. exists s. split; [by apply written_appended|]. split; [done|]. split; [done|].
  split; [|split; [by rewrite <-Hdep|split; [|split; [done|by exists target]]]].
  - unfold is_hand_off. by rewrite Hkey, (key_chars_trim k Hchars).
  - intros Hin. apply Bool.not_true_iff_false in Ecyc. apply Ecyc, existsb_elem_of. exists (ps_role s).
    rewrite bool_decide_eq_true. split; [done|congruence].
Qed.

(** ** Properties: hand-offs *)

(** The steps of a task over its life: a hand-off is written, or the steps run, in any order. *)
Inductive handing : list PlanStep → list PlanStep → Prop :=
| handing_on task steps source agent brief roles artifacts p :
    source ∈ steps → plan_hand_off task steps source agent brief roles artifacts = Some (Ok p) →
    handing steps (written steps p)
| handing_run steps steps' : Forall2 same_step steps steps' → handing steps steps'
| handing_sorted steps steps' : steps ≡ₚ steps' → handing steps steps'.

Record handed_well (n : nat) (steps : list PlanStep) : Prop := {
  hw_nodup : NoDup (ps_key <$> steps);
  hw_keys : Forall (λ s, valid_key (ps_key s)) steps;
  hw_size : (length steps = n + length (List.filter is_hand_off steps))%nat;
  hw_count : N.of_nat (length (List.filter is_hand_off steps)) ≤ MAX_HAND_OFFS_PER_TASK;
  hw_chain : ∀ s, s ∈ steps → ∃ c, chain steps (ps_key s) c ∧ NoDup c;
}.

Lemma same_step_place s s' : same_step s s' → same_place s s'.
Proof. by intros (_ & ? & _ & ? & _ & _ & ? & _). Qed.

Lemma handed_well_perm n steps steps' : steps ≡ₚ steps' → handed_well n steps → handed_well n steps'.
Proof.
  intros HP [H1 H2 H3 H4 H5]. split.
  - by rewrite <-HP.
  - by rewrite <-HP.
  - by rewrite <-(filter_bool_perm _ _ _ HP), <-HP.
  - by rewrite <-(filter_bool_perm _ _ _ HP).
  - intros s Hs. rewrite <-HP in Hs. destruct (H5 s Hs) as (c & Hc & Hnd). exists c. split; [|done].
    apply (chain_mono steps); [|done]. intros t Ht. exists t. by rewrite <-HP.
Qed.

Lemma handed_well_run n steps steps' : Forall2 same_step steps steps' → handed_well n steps → handed_well n steps'.
Proof.
  intros HF [H1 H2 H3 H4 H5].
  assert (ps_key <$> steps' = ps_key <$> steps) as Ek.
  { clear -HF. induction HF as [|s s' l l' (_ & E & _) _ IH]; [done|]. rewrite !fmap_cons. by rewrite E, IH. }
  assert (length (List.filter is_hand_off steps') = length (List.filter is_hand_off steps)) as Eh.
  { clear -HF. induction HF as [|s s' l l' (_ & E & _) _ IH]; [done|]. simpl.
    assert (is_hand_off s' = is_hand_off s) as -> by (unfold is_hand_off; by rewrite E).
    destruct (is_hand_off s); simpl; by rewrite IH. }
  split.
  - by rewrite Ek.
  - rewrite Forall_forall in *. intros s' Hs'. apply (list_elem_of_fmap_2 ps_key) in Hs'. rewrite Ek in Hs'.
    apply list_elem_of_fmap in Hs' as (s & -> & Hs). by apply H2.
  - rewrite Eh, <-(Forall2_length _ _ _ HF). done.
  - by rewrite Eh.
  - intros s' [i Hi]%list_elem_of_lookup. destruct (Forall2_lookup_r _ _ _ _ _ HF Hi) as (s & Hs & Hss).
    apply list_elem_of_lookup_2 in Hs. destruct (H5 s Hs) as (c & Hc & Hnd). exists c. split; [|done]. destruct Hss as (_ & -> & _).
    apply (chain_mono steps); [|done]. intros t [j Hj]%list_elem_of_lookup. destruct (Forall2_lookup_l _ _ _ _ _ HF Hj) as (t' & Ht' & Htt).
    exists t'. split; [by eapply list_elem_of_lookup_2|by apply same_step_place].
Qed.

Lemma handed_well_on n task steps source agent brief roles artifacts p :
  source ∈ steps → plan_hand_off task steps source agent brief roles artifacts = Some (Ok p) →
  handed_well n steps → handed_well n (written steps p).
Proof.
  intros Hsrc Hp [H1 H2 H3 H4 H5].
  destruct (plan_hand_off_ok _ _ _ _ _ _ _ _ H1 H2 Hsrc Hp) as (s & Hw & Hfresh & Hvk & Hh & Hdep & Hrole & Hcap & _).
  apply (handed_well_perm n (steps ++ [s])); [by symmetry|].
  assert (NoDup (ps_key <$> steps ++ [s])) as Hnd.
  { rewrite fmap_app. apply NoDup_app. split; [done|]. split; [|apply NoDup_singleton].
    intros k Hk ->%elem_of_one. done. }
  assert (∀ t, t ∈ steps → ∃ t', t' ∈ steps ++ [s] ∧ same_place t t') as Hmap.
  { intros t Ht. exists t. split; [apply elem_of_app; by left|done]. }
  assert (length (List.filter is_hand_off (steps ++ [s])) = S (length (List.filter is_hand_off steps))) as Eh.
  { rewrite List.filter_app. simpl. rewrite Hh, length_app. simpl. lia. }
  split.
  - exact Hnd.
  - apply Forall_app. split; [done|by apply Forall_singleton].
  - rewrite Eh, length_app. simpl. lia.
  - rewrite Eh. unfold MAX_HAND_OFFS_PER_TASK in *. lia.
  - intros t [Ht|Ht]%elem_of_app.
    + destruct (H5 t Ht) as (c & Hc & Hndc). exists c. split; [by apply (chain_mono steps)|done].
    + apply elem_of_one in Ht as ->. destruct (H5 source Hsrc) as (c & Hc & Hndc).
      rewrite (hand_off_chain_spec steps source c) in Hrole by done. exists (ps_role s :: c).
      split; [|by constructor]. eapply chain_next; [apply elem_of_app; right; by apply elem_of_one|done|done|].
      by apply (chain_mono steps).
Qed.

(** The same with the planner's replans, as the server orders things: a step is handed on once it is
    completed, which it stays; a plan is checked against the listing it replaces the open steps of, and
    none of its own steps is named like a hand-off. *)
Inductive living : list PlanStep → list PlanStep → Prop :=
| living_on task steps source agent brief roles artifacts p :
    source ∈ steps → ps_state source = StepState.Completed →
    plan_hand_off task steps source agent brief roles artifacts = Some (Ok p) →
    living steps (written steps p)
| living_run steps steps' :
    Forall2 (λ s s', same_step s s' ∧ (ps_state s = StepState.Completed → ps_state s' = StepState.Completed)) steps steps' →
    living steps steps'
| living_sorted steps steps' : steps ≡ₚ steps' → living steps steps'
| living_replan task drafts steps p :
    validate_plan task drafts steps = Ok p → Forall (λ s, is_hand_off s = false) (vp_steps p) →
    living steps (written steps p).

(** Each hand-off waits first for a completed step. *)
Definition sources_done (steps : list PlanStep) : Prop := ∀ s, s ∈ steps → is_hand_off s = true →
  ∃ d ds t, ps_depends_on s = d :: ds ∧ t ∈ steps ∧ ps_key t = d ∧ ps_state t = StepState.Completed.

Record lived_well (steps : list PlanStep) : Prop := {
  lw_nodup : NoDup (ps_key <$> steps);
  lw_keys : Forall (λ s, valid_key (ps_key s)) steps;
  lw_count : N.of_nat (length (List.filter is_hand_off steps)) ≤ MAX_HAND_OFFS_PER_TASK;
  lw_chain : ∀ s, s ∈ steps → ∃ c, chain steps (ps_key s) c ∧ NoDup c;
  lw_sources : sources_done steps;
}.

Lemma lived_handed steps : lived_well steps →
  handed_well (length steps - length (List.filter is_hand_off steps)) steps ∧ sources_done steps.
Proof. intros [H1 H2 H3 H4 H5]. split; [|done]. split; try done. pose proof (length_filter_bool_le is_hand_off steps). lia. Qed.

Lemma handed_lived n steps : handed_well n steps → sources_done steps → lived_well steps.
Proof. intros [H1 H2 _ H4 H5] H6. by split. Qed.

(** A replan keeps a chain: all before its newest step are completed. *)
Lemma chain_kept steps steps' k c :
  NoDup (ps_key <$> steps) → sources_done steps →
  (∀ s, s ∈ steps → survives_replan (ps_state s) = true → s ∈ steps') → chain steps k c →
  (∀ s, s ∈ steps → ps_key s = k → survives_replan (ps_state s) = true) → chain steps' k c.
Proof.
  intros Hnd Hsrc Hkeep. induction 1 as [s Hs Hh|s d ds c Hs Hh Hd _ IH]; intros Hk.
  - apply chain_root; [|done]. apply Hkeep; [done|by apply Hk].
  - eapply chain_next; [|done|done|]; [apply Hkeep; [done|by apply Hk]|]. apply IH. intros u Hu Hud.
    destruct (Hsrc s Hs Hh) as (d' & ds' & t & Hd' & Ht & Htd & Hst). rewrite Hd in Hd'. injection Hd' as <- <-.
    assert (u = t) as -> by (apply (same_key steps); [done..|congruence]). by rewrite Hst.
Qed.

Lemma lived_replan task drafts steps p : validate_plan task drafts steps = Ok p →
  Forall (λ s, is_hand_off s = false) (vp_steps p) → lived_well steps → lived_well (written steps p).
Proof.
  intros [Hok _]%validate_plan_ok Hno [H1 H2 H3 H4 H5].
  assert (∀ s, s ∈ steps → survives_replan (ps_state s) = true → s ∈ written steps p) as Hkeep.
  { intros s Hs Hk. apply elem_of_app. left. by apply elem_of_kept. }
  assert (∀ s, s ∈ written steps p → (s ∈ steps ∧ survives_replan (ps_state s) = true) ∨ s ∈ vp_steps p) as Hin.
  { intros s [?%elem_of_kept|?]%elem_of_app; auto. }
  rewrite Forall_forall in Hno. split.
  - by eapply written_nodup.
  - rewrite Forall_forall in *. intros s [[Hs _]|Hs]%Hin; [by apply H2|].
    pose proof (po_fresh _ _ _ Hok) as Hf. rewrite Forall_forall in Hf. apply (Hf s Hs).
  - unfold written. rewrite List.filter_app, (filter_none _ (vp_steps p)), app_nil_r by done.
    assert (length (List.filter is_hand_off (kept_steps steps)) ≤ length (List.filter is_hand_off steps))%nat; [|lia].
    unfold kept_steps. rewrite (filter_bool_perm _ _ _ (sort_by_perm ps_ordinal _)). clear. induction steps as [|s steps IH]; simpl; [done|].
    destruct (survives_replan (ps_state s)); simpl; destruct (is_hand_off s); simpl; lia.
  - intros s [[Hs Hk]|Hs]%Hin.
    + destruct (H4 s Hs) as (c & Hc & Hnd). exists c. split; [|done]. apply (chain_kept steps); [done..|].
      intros t Ht Htk. by apply (same_key steps) in Htk as ->.
    + exists [ps_role s]. split; [|apply NoDup_singleton]. apply chain_root; [apply elem_of_app; by right|by apply Hno].
  - intros s [[Hs Hk]|Hs]%Hin Hh; [|by rewrite Hno in Hh].
    destruct (H5 s Hs Hh) as (d & ds & t & Hd & Ht & Htd & Hst). exists d, ds, t. split; [done|]. split; [|done]. apply Hkeep; [done|by rewrite Hst].
Qed.

Lemma lived_step steps steps' : living steps steps' → lived_well steps → lived_well steps'.
Proof.
  intros Hst Hw. pose proof (lived_handed _ Hw) as [Hh Hsrc]. destruct Hst as [task steps source agent brief roles artifacts p Hs Hdone Hp|steps steps' HF|steps steps' HP|task drafts steps p Hv Hno].
  - eapply handed_lived; [by eapply handed_well_on|].
    destruct (plan_hand_off_ok _ _ _ _ _ _ _ _ (lw_nodup _ Hw) (lw_keys _ Hw) Hs Hp) as (s & HP & _ & _ & _ & Hdep & _).
    intros u. rewrite HP. intros [Hu|Hu]%elem_of_app Hhu.
    + destruct (Hsrc u Hu Hhu) as (d & ds & t & Hd & Ht & Htd). exists d, ds, t. split; [done|]. split; [|done]. rewrite HP. apply elem_of_app. by left.
    + apply elem_of_one in Hu as ->. exists (ps_key source), [], source. split; [done|]. split; [|done]. rewrite HP. apply elem_of_app. by left.
  - eapply handed_lived; [eapply handed_well_run; [|exact Hh]; eapply Forall2_impl; [exact HF|by intros ? ? [? _]]|].
    intros s' [i Hi]%list_elem_of_lookup Hhs. destruct (Forall2_lookup_r _ _ _ _ _ HF Hi) as (s & Hs & Hss & _).
    apply list_elem_of_lookup_2 in Hs. destruct Hss as (_ & Ek & _ & _ & _ & _ & Ed & _).
    destruct (Hsrc s Hs) as (d & ds & t & Hd & [j Hj]%list_elem_of_lookup & Htd & Hdone); [unfold is_hand_off in *; by rewrite Ek in Hhs|].
    destruct (Forall2_lookup_l _ _ _ _ _ HF Hj) as (t' & Ht' & (_ & Etk & _) & Hst). exists d, ds, t'. split; [congruence|].
    split; [by eapply list_elem_of_lookup_2|]. split; [congruence|by apply Hst].
  - eapply handed_lived; [by eapply handed_well_perm|]. intros s. rewrite <-HP. intros Hs Hhs.
    destruct (Hsrc s Hs Hhs) as (d & ds & t & Hd & Ht & Htd). exists d, ds, t. split; [done|]. by rewrite <-HP.
  - by eapply lived_replan.
Qed.

(** C8: of a task that starts with steps none of which is a hand-off. While it is never replanned, as an
    activation's is not, it is handed on at most four times, whoever asks and however its steps run
    meanwhile: it never has more than four steps more. And at every moment of its life, with the planner
    replacing its open steps too (by steps not named like a hand-off), at most four of its steps are
    hand-offs, and work never comes back to an agent already in its chain: the agents of each step's
    chain, read back by [hand_off_chain], are all different. *)
Theorem hand_offs_are_bounded steps0 :
  NoDup (ps_key <$> steps0) → Forall (λ s, valid_key (ps_key s)) steps0 →
  Forall (λ s, is_hand_off s = false) steps0 →
  (∀ steps, star handing steps0 steps →
     (length steps ≤ length steps0 + N.to_nat MAX_HAND_OFFS_PER_TASK)%nat ∧
     N.of_nat (length (List.filter is_hand_off steps)) ≤ MAX_HAND_OFFS_PER_TASK ∧
     ∀ s, s ∈ steps → NoDup (hand_off_chain steps s)) ∧
  (∀ steps, star living steps0 steps →
     N.of_nat (length (List.filter is_hand_off steps)) ≤ MAX_HAND_OFFS_PER_TASK ∧
     ∀ s, s ∈ steps → NoDup (hand_off_chain steps s)).
Proof.
  intros Hnd Hv Hno. assert (handed_well (length steps0) steps0) as H0.
  { assert (List.filter is_hand_off steps0 = []) as E.
    { apply filter_none. intros s Hin. by apply (proj1 (Forall_forall _ _) Hno). }
    split; rewrite ?E; [done|done|simpl; lia|done|]. intros s Hin. exists [ps_role s].
    split; [|apply NoDup_singleton]. apply chain_root; [done|]. by apply (proj1 (Forall_forall _ _) Hno). }
  split; intros steps Hs.
  - assert (handed_well (length steps0) steps) as [H1 H2 H3 H4 H5].
    { refine (star_invariant _ (handed_well (length steps0)) _ _ _ Hs H0).
      intros s1 s2 Hw Hst. destruct Hst; [by eapply handed_well_on|by eapply handed_well_run|by eapply handed_well_perm]. }
    split; [lia|]. split; [done|]. intros s Hin. destruct (H5 s Hin) as (c & Hc & Hndc).
    by rewrite (hand_off_chain_spec steps s c).
  - assert (lived_well steps) as [H1 H2 H3 H4 H5].
    { refine (star_invariant _ lived_well (λ s1 s2 Hw Hst, lived_step s1 s2 Hst Hw) _ _ Hs _).
      apply (handed_lived _ _ H0). intros s Hin Hh. by rewrite (proj1 (Forall_forall _ _) Hno) in Hh. }
    split; [done|]. intros s Hin. destruct (H4 s Hin) as (c & Hc & Hndc).
    by rewrite (hand_off_chain_spec steps s c).
Qed.

(** A hand-off always finds a key of its own: the search for a free suffix ends within one more try
    than there are steps, on a key no step has, marked as a hand-off and, for any task the step budget
    allows, one [StepKey::parse] accepts; so [plan_hand_off] always answers. *)
Theorem hand_off_key_is_free target steps :
  (∃ k, hand_off_key target steps = Some k ∧ k ∉ ps_key <$> steps ∧ starts_with HAND_OFF_KEY_PREFIX k = true ∧
     (N.of_nat (length steps) ≤ MAX_LONG_TASK_STEPS → StepKey_parse k = Ok k)) ∧
  ∀ task source agent brief roles artifacts, plan_hand_off task steps source agent brief roles artifacts ≠ None.
Proof.
  split.
  - destruct (hand_off_key_spec target steps) as (k & H1 & H2 & H3 & H4 & H5 & H6). exists k.
    split_and!; [done..|]. intros Hl. unfold MAX_LONG_TASK_STEPS in Hl. apply StepKey_parse_valid.
    split; [done|]. split; [done|]. apply H6. lia.
  - intros task source agent brief roles artifacts. unfold plan_hand_off.
    destruct (find_first _ _) as [r|]; [|done]. destruct (existsb _ _); [done|]. destruct (negb _); [done|].
    destruct (_ <=? _); [done|]. destruct (is_empty _); [done|].
    by destruct (hand_off_key_spec (role_name r) steps) as (k & -> & _).
Qed.

(** ** A watering run handed on *)

Definition plain_role (name : text) (activations : list Activation) (hooks : RoleHooks) : AgentRole :=
  {| role_name := name; role_instructions := lit "Do it"; role_tool_groups := ∅; role_personal_data := Inherit;
     role_max_turns := 6; role_context_fraction := NotFinite; role_model := None; role_activations := activations;
     role_hooks := hooks |}.
Definition gardener : AgentRole := plain_role (lit "gardener") [] RoleHooks_default.
Definition shopper : AgentRole := plain_role (lit "shopper") [Agent [lit "gardener"]] RoleHooks_default.

Definition garden_built : LongTask * ValidatedPlan :=
  match activation_task (lit "t") gardener (lit "Check the beds") (Owner (lit "ann")) (Some (lit "ann")) (Some 9%Z) 1 with
  | Ok b => b
  | Err _ => (trip_task, handed_off)
  end.
Definition garden_task : LongTask := garden_built.1.
Definition garden_steps : list PlanStep := vp_steps garden_built.2.
Definition garden_source : PlanStep := default dates_step (head garden_steps).
Definition garden_plan : ValidatedPlan :=
  match plan_hand_off garden_task garden_steps garden_source (lit "shopper") (lit "Buy seeds") [gardener; shopper] [] with
  | Some (Ok p) => p
  | _ => handed_off
  end.

(** The bed check is done, and its work handed on; then the rest is planned anew. *)
Definition garden_done : PlanStep :=
  after_call (after_call garden_source (CallStart 2))
    (CallRecord (StepOutcome_new OutcomeKind.Completed (lit "beds are dry") [] None) 3).
Definition garden_on : ValidatedPlan :=
  match plan_hand_off garden_task [garden_done] garden_done (lit "shopper") (lit "Buy seeds") [gardener; shopper] [] with
  | Some (Ok p) => p
  | _ => handed_off
  end.
Definition garden_handed : list PlanStep := written [garden_done] garden_on.
Definition garden_again : ValidatedPlan :=
  match validate_plan garden_task [draft "sow" []] garden_handed with Ok p => p | Err _ => good_plan end.

Lemma hand_offs_are_bounded_witness :
  ((length (written garden_steps garden_plan) ≤ 5)%nat ∧ (length (written garden_steps garden_plan) = 2)%nat) ∧
  (N.of_nat (length (List.filter is_hand_off garden_handed)) ≤ 4 ∧ length (List.filter is_hand_off garden_handed) = 1%nat) ∧
  (N.of_nat (length (List.filter is_hand_off (written garden_handed garden_again))) ≤ 4 ∧
   ps_key <$> written garden_handed garden_again = [lit "gardener"; lit "sow"]).
Proof.
  destruct (hand_offs_are_bounded garden_steps) as [H1 H2].
  - vm_compute. apply NoDup_singleton.
  - apply Forall_singleton. split; [vm_compute; discriminate|]. split; [repeat constructor|vm_compute; lia].
  - apply Forall_singleton. vm_compute. reflexivity.
  - assert (star living garden_steps [garden_done]) as Hrun.
    { apply star_one, living_run. apply Forall2_cons. split; [vm_compute; done|constructor]. }
    assert (star living garden_steps garden_handed) as Hon.
    { eapply star_trans; [exact Hrun|apply star_one].
      apply (living_on garden_task [garden_done] garden_done (lit "shopper") (lit "Buy seeds") [gardener; shopper] []);
        [vm_compute; left|vm_compute; reflexivity|vm_compute; reflexivity]. }
    split_and!.
    + apply H1. apply star_one.
      apply (handing_on garden_task garden_steps garden_source (lit "shopper") (lit "Buy seeds") [gardener; shopper] []);
        [vm_compute; left|vm_compute; reflexivity].
    + vm_compute; reflexivity.
    + by apply H2.
    + vm_compute; reflexivity.
    + apply H2. eapply star_trans; [exact Hon|apply star_one].
      apply (living_replan garden_task [draft "sow" []] garden_handed garden_again); [vm_compute; reflexivity|].
      apply Forall_singleton. vm_compute. reflexivity.
    + vm_compute; reflexivity.
Defined.

(** A planner that names a step like a hand-off gets past both checks that read the prefix: the plan is
    accepted, and an agent that takes no steps of a task may run the step. *)
Definition named_like_a_hand_off : ValidatedPlan :=
  match validate_plan trip_task [draft "hand-to-ann" []] [] with Ok p => p | Err _ => good_plan end.

Example a_planner_may_name_a_hand_off :
  ps_key <$> vp_steps named_like_a_hand_off = [lit "hand-to-ann"] ∧
  forallb is_hand_off (vp_steps named_like_a_hand_off) = true ∧
  is_activation_task trip_task = false ∧
  ∀ s role, s ∈ vp_steps named_like_a_hand_off → accepts_task_steps role = false → role_name role = ps_role s →
    step_role_allowed trip_task s role = Ok tt.
Proof.
  split_and!; [vm_compute; reflexivity..|]. intros s role Hs Hrole Hn. unfold step_role_allowed.
  rewrite (bool_decide_eq_true_2 _ (eq_sym Hn)). cbn [negb].
  assert (is_hand_off s = true) as ->; [|by rewrite orb_true_r].
  assert (forallb is_hand_off (vp_steps named_like_a_hand_off) = true) as H by (vm_compute; reflexivity).
  rewrite forallb_forall in H. apply H. by apply list_elem_of_In.
Qed.

(** ** Lemmas: an activation's task *)

Lemma non_blank_trimmed o t : non_blank o = Some t → trim t = t ∧ t ≠ [].
Proof. intros [Ht Hne]%non_blank_Some. split; [by apply trimmed_trim|done]. Qed.

Lemma activation_owner_for member recipe_owner members scope :
  activation_scope (activation_owner member recipe_owner) members = Some scope →
  owner_for scope (activation_owner member recipe_owner) = Ok (activation_owner member recipe_owner).
Proof.
  unfold activation_scope. destruct (activation_owner member recipe_owner) as [o|] eqn:E.
  - intros [= <-]. unfold activation_owner in E. apply non_blank_trimmed in E as [Et Ene].
    apply owner_for_id; [split; [congruence|done]|]. by intros id [= <-].
  - destruct (members <=? 1); [|done]. intros [= <-]. done.
Qed.

Lemma activation_scope_ok owner members scope :
  activation_scope owner members = Some scope →
  (scope = Household ∧ owner = None ∧ members ≤ 1) ∨ ∃ o, scope = Owner o ∧ owner = Some o.
Proof.
  unfold activation_scope. destruct owner as [o|]; [intros [= <-]; by eauto|].
  destruct (N.leb_spec members 1); [|done]. intros [= <-]. by left.
Qed.

Lemma trim_nonempty_app a t : trim a ≠ [] → trim (a ++ t) ≠ [].
Proof.
  intros Ha E. apply Ha. apply trim_nil. apply trim_nil in E. by apply Forall_app in E as [? _].
Qed.

(** The one step of a plan that waits for nothing. *)
Definition lone_step (id key role instructions : text) : PlanStep :=
  {| ps_task_id := id; ps_key := key; ps_ordinal := 1; ps_role := trim role; ps_instructions := trim instructions;
     ps_inputs := []; ps_depends_on := []; ps_acceptance := None; ps_state := StepState.Pending; ps_attempts := 0;
     ps_summary := None; ps_failure := None; ps_started_at := None; ps_finished_at := None; ps_agent := None |}.

Lemma lone_acyclic s : ps_depends_on s = [] → acyclic [s].
Proof.
  intros Hd i. constructor. intros j (s' & dep & Hs & Hdep & _). destruct i as [|i]; [|done].
  injection Hs as <-. rewrite Hd in Hdep. by apply elem_of_nil in Hdep.
Qed.

Lemma lone_plan_made task role instructions :
  is_terminal (task_state task) = false → 1 ≤ max_steps (task_budget task) →
  trim (role_name role) ≠ [] → trim instructions ≠ [] →
  let key := step_slug (role_name role) (N.to_nat MAX_STEP_KEY_CHARS) in
  valid_key key ∧
  validate_plan task [activation_draft role instructions] [] =
    Ok (lone_plan (task_id task) (lone_step (task_id task) key (role_name role) instructions)).
Proof.
  intros Ht Hb Hr Hi key. assert (valid_key key) as Hk.
  { destruct (step_slug_chars (role_name role) 32) as (H1 & H2 & H3). split; [done|]. split; [done|]. exact H3. }
  split; [done|]. unfold validate_plan. rewrite Ht. cbn [find_first List.find].
  change (kept_steps []) with (@nil PlanStep). cbn [is_empty andb length Nat.add].
  rewrite (proj2 (N.ltb_ge _ _)) by exact Hb. unfold plan_keys. cbn [sd_key activation_draft]. fold key.
  unfold StepKey_lenient. rewrite StepKey_parse_valid by done. cbn [result_bind].
  change (step_states []) with (∅ : gmap text StepState). rewrite lookup_empty.
  rewrite bool_decide_eq_false_2 by (by intros ?%elem_of_nil). cbn [result_bind app zip zip_with].
  unfold plan_steps. cbn [sd_new_agent activation_draft made_role mbind option_bind sd_role sd_instructions sd_depends_on sd_inputs sd_acceptance draft_waits].
  apply is_empty_false in Hr, Hi. rewrite Hr, Hi. cbn [result_bind app].
  change (u32_sat_add (next_ordinal []) (N.min u32_max (N.of_nat 0))) with 1.
  assert (find_cycle [lone_step (task_id task) key (role_name role) instructions] = None) as Hc
    by (by apply find_cycle_None, lone_acyclic).
  match goal with |- context [find_cycle ?l] =>
    change l with [lone_step (task_id task) key (role_name role) instructions] end.
  by rewrite Hc.
Qed.

(** The task an activation queues, as [activation_task] hands it over. *)
Definition queued_task (uuid : text) (role : AgentRole) (instructions : text) (scope : ProfileScope)
    (owner : option text) (deadline : option Z) (at_ : Z) : LongTask :=
  {| task_id := ACTIVATION_TASK_ID_PREFIX ++ uuid; task_owner := owner; task_scope := scope;
     task_goal := trim (role_name role ++ lit ": " ++ first_line_capped instructions GOAL_CHARS);
     task_origin := None; task_state := Paused;
     task_budget := {| max_steps := 5; deadline := deadline |}; task_kind := General; task_answer := Auto;
     task_created_at := at_; task_updated_at := at_; task_finished_at := None |}.
Definition queued_step (uuid : text) (role : AgentRole) (instructions : text) : PlanStep :=
  lone_step (ACTIVATION_TASK_ID_PREFIX ++ uuid) (step_slug (role_name role) (N.to_nat MAX_STEP_KEY_CHARS))
    (role_name role) instructions.

Lemma prefixed_id uuid : trim (ACTIVATION_TASK_ID_PREFIX ++ uuid) ≠ [].
Proof. apply trim_nonempty_app. vm_compute. discriminate. Qed.

Lemma instructions_nonempty brief reason : trim (activation_instructions brief reason) ≠ [].
Proof.
  unfold activation_instructions. intros E%trim_nil. apply Forall_app in E as [_ E]. apply Forall_app in E as [_ E].
  apply Forall_app in E as [_ E]. apply Forall_app in E as [E _]. apply Forall_cons in E as [E _]. discriminate E.
Qed.

Lemma activation_task_made uuid role instructions scope owner deadline at_ :
  trim (role_name role) ≠ [] → trim instructions ≠ [] → owner_for scope owner = Ok owner →
  (∀ d, deadline = Some d → at_ < d)%Z →
  activation_task uuid role instructions scope owner deadline at_ =
    Ok (queued_task uuid role instructions scope owner deadline at_,
        lone_plan (ACTIVATION_TASK_ID_PREFIX ++ uuid) (queued_step uuid role instructions)).
Proof.
  intros Hr Hi Ho Hd. unfold activation_task.
  change (LongTaskBudget_new (1 + MAX_HAND_OFFS_PER_TASK) deadline) with (@Ok _ LongTaskError {| max_steps := 5; deadline := deadline |}).
  cbn [result_bind map_err].
  set (goal := role_name role ++ lit ": " ++ first_line_capped instructions GOAL_CHARS).
  assert (is_empty (trim goal) = false) as Hg by (apply is_empty_false; by apply trim_nonempty_app).
  unfold LongTask_start. rewrite Hg. rewrite Ho. cbn [result_bind origin_for LongTask.deadline].
  assert (match deadline with Some d => (d <=? at_)%Z | None => false end = false) as ->.
  { destruct deadline as [d|]; [|done]. apply Z.leb_gt. by apply Hd. }
  cbn [map_err result_bind]. unfold with_id_prefix, LongTask_from_parts.
  cbn [tp_id tp_goal tp_max_steps tp_scope tp_owner_profile_id tp_origin_session_id tp_state tp_deadline tp_kind tp_answer
    tp_created_at tp_updated_at tp_finished_at task_id task_goal task_owner task_scope task_origin task_budget max_steps
    LongTask.deadline task_state task_kind task_answer task_created_at task_updated_at task_finished_at].
  rewrite (proj2 (is_empty_false _) (prefixed_id uuid)). rewrite trim_idemp, Hg, Ho. cbn [N.eqb result_bind origin_for map_err].
  match goal with |- context [transition_to ?t Paused at_] => 
    change (transition_to t Paused at_) with (@Ok _ LongTaskStateRefused (queued_task uuid role instructions scope owner deadline at_)) end.
  cbn [map_err result_bind].
  destruct (lone_plan_made (queued_task uuid role instructions scope owner deadline at_) role instructions) as [_ E]; try done.
  rewrite E. done.
Qed.

(** An activation that has someone to run for always gets its task: for the owner its event or its
    recipe names, or the one member of a household of one, [activation_task] succeeds, at that member's
    scope and never at everyone's for a larger household, nor at a guest's; the task is paused, marked as
    an activation's, good for its own step and four hand-offs, and its plan is one step its role may run,
    though the role takes no steps of long tasks. *)
Theorem activations_always_get_a_task uuid role brief reason member recipe_owner members scope deadline at_ :
  trimmed (role_name role) → role_name role ≠ [] → (∀ d, deadline = Some d → at_ < d)%Z →
  let owner := activation_owner member recipe_owner in
  activation_scope owner members = Some scope →
  (scope = Household ∧ owner = None ∧ members ≤ 1 ∨ ∃ o, scope = Owner o ∧ owner = Some o) ∧
  ∃ task plan step,
    activation_task uuid role (activation_instructions brief reason) scope owner deadline at_ = Ok (task, plan) ∧
    task_scope task = scope ∧ task_owner task = owner ∧ task_state task = Paused ∧ is_activation_task task = true ∧
    max_steps (task_budget task) = 1 + MAX_HAND_OFFS_PER_TASK ∧ LongTask.deadline (task_budget task) = deadline ∧
    plan_ok task [] plan ∧ vp_steps plan = [step] ∧ step_role_allowed task step role = Ok tt.
Proof.
  intros Ht Hne Hd owner Hs. split; [by apply (activation_scope_ok owner members)|].
  assert (trim (role_name role) = role_name role) as Etr by by apply trimmed_trim.
  pose proof (activation_task_made uuid role (activation_instructions brief reason) scope owner deadline at_) as E.
  rewrite Etr in E. specialize (E Hne (instructions_nonempty _ _) (activation_owner_for _ _ _ _ Hs) Hd).
  do 3 eexists. split; [exact E|]. do 3 (split; [done|]). split; [by apply starts_with_spec; eexists|].
  do 2 (split; [done|]). split; [|split; [done|]].
  - destruct (lone_plan_made (queued_task uuid role (activation_instructions brief reason) scope owner deadline at_) role
      (activation_instructions brief reason)) as [_ Ev]; [done|done|by rewrite Etr|apply instructions_nonempty|].
    by apply validate_plan_ok in Ev as [Hok _].
  - unfold step_role_allowed. cbn [ps_role queued_step lone_step]. rewrite Etr, bool_decide_eq_true_2 by done. cbn [negb].
    assert (is_activation_task (queued_task uuid role (activation_instructions brief reason) scope owner deadline at_) = true) as ->
      by (apply starts_with_spec; by eexists). done.
Qed.

Lemma activations_always_get_a_task_witness :
  is_ok (activation_task (lit "t") gardener (activation_instructions (lit "Water") (lit "it is 06:30, its time each day"))
    (Owner (lit "ann")) (activation_owner None (Some (lit " ann "))) (Some 9%Z) 1) = true.
Proof.
  destruct (activations_always_get_a_task (lit "t") gardener (lit "Water") (lit "it is 06:30, its time each day") None
    (Some (lit " ann ")) 3 (Owner (lit "ann")) (Some 9%Z) 1) as (_ & task & plan & step & E & _).
  - split; by intros c [= <-].
  - discriminate.
  - by intros d [= <-].
  - reflexivity.
  - rewrite E. reflexivity.
Defined.

(** ** Lemmas: queueing *)

(** What is said when [queue] has answered. *)
Definition queued_well (id : text) (r : Queued) (l : Ledger) : Prop :=
  match r with
  | QueuedTask i =>
      i = id ∧ ∃ t s, get_task id l = Some t ∧ task_state t = Running ∧ is_activation_task t = true ∧
        list_steps id l = [s] ∧
        ∀ now, deadline_passed (task_budget t) now = false → next_run t (list_steps id l) 0 now = Do s
  | _ => get_task id l = None
  end.

Lemma queued_task_well_formed uuid role instructions scope owner deadline at_ :
  trim (role_name role) ≠ [] → owner_for scope owner = Ok owner →
  well_formed (queued_task uuid role instructions scope owner deadline at_) ∧
  end_stamped (queued_task uuid role instructions scope owner deadline at_).
Proof.
  intros Hr Ho. split; [constructor; cbn [queued_task task_id task_goal task_scope task_owner task_origin task_budget max_steps]|].
  - apply prefixed_id.
  - split; [apply trim_trimmed|by apply trim_nonempty_app].
  - by apply owner_for_agrees in Ho.
  - done.
  - vm_compute. split; discriminate.
  - split; [by intros [? ?]|done].
Qed.

Section queueing.
Context `{CalendarLaws}.

Lemma deadline_later at_ deadline :
  activation_deadline at_ = Some deadline → ∀ d, deadline = Some d → (at_ < d)%Z.
Proof.
  unfold activation_deadline. destruct (from_std ACTIVATION_DEADLINE) as [w|] eqn:Ew; [|by intros [= <-]].
  apply from_std_exact in Ew as ->. destruct (plus_window at_ ACTIVATION_DEADLINE) as [u|] eqn:Eu; [|done].
  apply plus_window_exact in Eu as ->. intros [= <-] d [= <-]. unfold ACTIVATION_DEADLINE, from_secs. lia.
Qed.

Section safety.
Context (uuid : text).
Notation id := (ACTIVATION_TASK_ID_PREFIX ++ uuid).
Notation safely := (safe repository (others id) (not_planned id) (queued_well id)).
Notation nowhere := (holding id (None, [], [])).

Lemma nowhere_not_planned l : nowhere l → not_planned id l.
Proof. intros Hl. apply (holding_not_planned _ _ _ _ _ Hl). by intros t [=]. Qed.

Lemma refuse_safe (r : Queued) : (∀ i, r ≠ QueuedTask i) → safely (Ret r) nowhere.
Proof.
  intros Hr. split; [apply holding_stable|]. split; [apply nowhere_not_planned|]. intros l [_ [= Hg _ _]].
  destruct r as [|i|i|]; [exact Hg|exact Hg|by destruct (Hr i)|exact Hg].
Qed.

Lemma read_safe {R} (c : RepoCall R) k :
  writes_to c = None → admissible c → (∀ r, safely (k r) nowhere) → safely (Call c k) nowhere.
Proof.
  intros Hw Hc Hk. apply safe_call; [apply holding_stable|apply nowhere_not_planned|].
  intros l r l' Hl E. exists nowhere. split; [|apply Hk].
  pose proof (holding_call c _ _ l Hl Hc) as [Hl' _]. rewrite E in Hl'. split; [exact Hl'|].
  pose proof (call_frame c l id Hc) as Hf. rewrite E in Hf. cbn [snd] in Hf. rewrite Hf by (by rewrite Hw). apply Hl.
Qed.

Lemma queue_task_safe q agent firing :
  qr_uuid q = uuid → trim (role_name (aa_role agent)) ≠ [] → safely (queue_new q agent firing) nowhere.
Proof.
  intros Eu Hr. unfold queue_new. destruct (qr_members q) as [members|]; [|by apply refuse_safe].
  set (member := match fi_reason firing with ReasonEvent m => em_member m | _ => None end).
  set (owner := activation_owner member (aa_owner_profile_id agent)).
  destruct (activation_scope owner _) as [scope|] eqn:Es; [|by apply refuse_safe].
  apply activation_owner_for in Es. fold owner in Es.
  destruct (activation_deadline (qr_at q)) as [deadline|] eqn:Ed; [|by apply refuse_safe].
  set (instructions := activation_instructions _ _).
  pose proof (deadline_later _ _ Ed) as Hd.
  rewrite (activation_task_made (qr_uuid q) (aa_role agent) instructions scope owner deadline (qr_at q) Hr
    (instructions_nonempty _ _) Es Hd). rewrite Eu.
  set (task := queued_task uuid (aa_role agent) instructions scope owner deadline (qr_at q)).
  set (step := queued_step uuid (aa_role agent) instructions).
  destruct (queued_task_well_formed uuid (aa_role agent) instructions scope owner deadline (qr_at q) Hr Es) as [Hwf Hes].
  fold task in Hwf, Hes.
  assert (plan_ok task [] (lone_plan id step)) as Hok.
  { destruct (lone_plan_made task (aa_role agent) instructions) as [_ [Ev _]%validate_plan_ok];
      [done|vm_compute; discriminate|done|apply instructions_nonempty|exact Ev]. }
  apply safe_call; [apply holding_stable|apply nowhere_not_planned|].
  intros l r l' Hl E. destruct (create_holding task l Hwf Hes Hl r l' E) as [-> Hl'].
  exists (holding id (Some task, [], [])). split; [exact Hl'|]. clear l l' Hl Hl' E.
  assert (∀ ss l, holding id (Some task, ss, []) l → not_planned id l) as Hpaused.
  { intros ss l Hl. apply (holding_not_planned _ _ _ _ _ Hl). intros t [= <-]. by left. }
  apply safe_call; [apply holding_stable|apply Hpaused|].
  intros l r l' Hl E. destruct (replace_lone_holding task step [] l eq_refl Hok Hl r l' E) as [-> Hl'].
  exists (holding id (Some task, [step], [])). split; [exact Hl'|]. clear l l' Hl Hl' E.
  apply safe_call; [apply holding_stable|apply Hpaused|]. intros l r l' Hl E.
  destruct (transition_to task Running (qr_running q)) as [t|e] eqn:Et; [|by unfold transition_to in Et].
  destruct (set_state_holding id task t Running (qr_running q) _ _ l Et Hl r l' E) as [-> Hl'].
  exists (holding id (Some t, [step], [])). split; [exact Hl'|]. clear l l' Hl Hl' E.
  apply transition_to_ok in Et as (_ & Hsame & Hrun & _). assert (task_id t = id) as Hid by apply Hsame.
  split; [apply holding_stable|]. split.
  { intros l Hl. apply (holding_not_planned _ _ _ _ _ Hl). intros u [= <-]. right. right. split; [done|].
    exists step. by rewrite Hid. }
  intros l [_ Hv]. split; [done|]. exists t, step.
  pose proof (f_equal (λ v, v.1.1) Hv : get_task id l = Some t) as Hg.
  pose proof (f_equal (λ v, v.1.2) Hv : List.filter (of_task id) (lg_steps l) = [step]) as Hs.
  split; [exact Hg|]. split; [exact Hrun|].
  split; [unfold is_activation_task; rewrite Hid; apply starts_with_spec; by eexists|].
  assert (list_steps id l = [step]) as -> by (unfold list_steps; by rewrite Hs).
  split; [done|]. intros now Hnow. apply (lone_step_next t step 0 now Fresh); [done|by rewrite Hid|done].
Qed.
(** Among callers that write to the new task too. *)
Definition queued_among (r : Queued) (l : Ledger) : Prop :=
  match r with
  | QueuedTask i => i = id ∧ ∀ u, get_task id l = Some u → task_state u ≠ Planning ∧ ∃ s, list_steps id l = [s]
  | _ => ∀ u, get_task id l = Some u → task_state u ≠ Planning ∧ task_state u ≠ Running
  end.
Notation among := (safe repository (meddlers id) (planned_only_failed id) queued_among).

Lemma among_missing (r : Queued) : (∀ i, r ≠ QueuedTask i) → among (Ret r) (missing id).
Proof.
  intros Hr. apply safe_ret; [apply missing_stable|intros l Hl; by apply (phase_unplanned _ false None), missing_phase|].
  intros l [_ Hg]. destruct r as [|i|i|]; try (intros u; by rewrite Hg). by destruct (Hr i).
Qed.

Lemma among_unqueued at_ plan : match plan with Some s0 => ps_depends_on s0 = [] | None => True end →
  among (cancel_unqueued id at_) (phase id false plan).
Proof.
  intros Hd. assert (∀ l, phase id false plan l → planned_only_failed id l) as HP by (intros l; apply phase_unplanned; by destruct plan).
  apply safe_call; [apply phase_stable|exact HP|]. intros l r l' Hl E. exists (phase id false plan). split.
  - by eapply (phase_call (SetTaskState id Cancelled at_)).
  - apply safe_ret; [apply phase_stable|exact HP|]. intros m [_ Hm] u Hu. destruct (Hm u Hu) as (H1 & H2 & _). by auto.
Qed.

Lemma read_among {R} (c : RepoCall R) k :
  writes_to c = None → admissible c → (∀ r, among (k r) (missing id)) → among (Call c k) (missing id).
Proof.
  intros Hw Hc Hk. apply safe_call; [apply missing_stable|intros l Hl; by apply (phase_unplanned _ false None), missing_phase|].
  intros l r l' [Hl Hg] E. exists (missing id). split; [|apply Hk].
  pose proof (call_ledger_ok c l Hl Hc) as Hl'. pose proof (call_frame c l id Hc ltac:(by rewrite Hw)) as Hf.
  rewrite E in Hl', Hf. split; [exact Hl'|]. cbn [snd] in Hf. transitivity (get_task id l); [|exact Hg]. exact (f_equal (λ v, v.1.1) Hf).
Qed.

Lemma queue_task_among q agent firing :
  qr_uuid q = uuid → trim (role_name (aa_role agent)) ≠ [] → among (queue_new q agent firing) (missing id).
Proof.
  intros Eu Hr. unfold queue_new. destruct (qr_members q) as [members|]; [|by apply among_missing].
  set (member := match fi_reason firing with ReasonEvent m => em_member m | _ => None end).
  set (owner := activation_owner member (aa_owner_profile_id agent)).
  destruct (activation_scope owner _) as [scope|] eqn:Es; [|by apply among_missing].
  apply activation_owner_for in Es. fold owner in Es.
  destruct (activation_deadline (qr_at q)) as [deadline|] eqn:Ed; [|by apply among_missing].
  set (instructions := activation_instructions _ _).
  pose proof (deadline_later _ _ Ed) as Hd.
  rewrite (activation_task_made (qr_uuid q) (aa_role agent) instructions scope owner deadline (qr_at q) Hr
    (instructions_nonempty _ _) Es Hd). rewrite Eu.
  set (task := queued_task uuid (aa_role agent) instructions scope owner deadline (qr_at q)).
  set (step := queued_step uuid (aa_role agent) instructions).
  destruct (queued_task_well_formed uuid (aa_role agent) instructions scope owner deadline (qr_at q) Hr Es) as [Hwf Hes].
  fold task in Hwf, Hes.
  assert (plan_ok task [] (lone_plan id step)) as Hok.
  { destruct (lone_plan_made task (aa_role agent) instructions) as [_ [Ev _]%validate_plan_ok];
      [done|vm_compute; discriminate|done|apply instructions_nonempty|exact Ev]. }
  apply safe_call; [apply missing_stable|intros l Hl; by apply (phase_unplanned _ false None), missing_phase|].
  intros l r l' Hl E. destruct (phase_created task l r l' Hwf Hes eq_refl Hl E) as [-> Hl'].
  exists (phase id false None). split; [exact Hl'|]. clear l l' Hl Hl' E.
  apply safe_call; [apply phase_stable|intros l; by apply phase_unplanned|]. intros l r l' Hl E.
  pose proof (phase_planned task step l r l' Hok Hl E) as Hph. destruct r as [[]|e]; [|exists (phase id false None); by split; [|apply among_unqueued]].
  exists (phase id false (Some step)). split; [exact Hph|]. clear l l' Hl Hph E.
  apply safe_call; [apply phase_stable|intros l; by apply phase_unplanned|]. intros l r l' Hl E.
  pose proof (phase_started _ _ _ _ _ _ Hl E) as Hph. destruct r as [[t|]|e];
    [|exists (phase id false (Some step)); by split; [|apply among_unqueued]..].
  exists (phase id true (Some step)). split; [apply Hph|].
  apply safe_ret; [apply phase_stable|intros m; by apply phase_unplanned|].
  intros m Hm. split; [done|]. intros u Hu. destruct (phase_list _ _ _ _ _ Hm Hu) as (H1 & s & H2 & _). split; [done|]. by exists s.
Qed.
End safety.

(** What [queue] does is what [queue_new] does, after reading, or a refusal. *)
Lemma queue_safe_by {Pre : Ledger → Prop} env P Q q agents firing book :
  (∀ r : Queued, (∀ i, r ≠ QueuedTask i) → safe repository env P Q (Ret r) Pre) →
  (∀ R (c : RepoCall R) k, writes_to c = None → admissible c → (∀ r, safe repository env P Q (k r) Pre) → safe repository env P Q (Call c k) Pre) →
  (∀ a, a ∈ agents → safe repository env P Q (queue_new q a firing) Pre) →
  safe repository env P Q (queue q agents firing book) Pre.
Proof.
  intros Hret Hread Hnew. unfold queue. destruct (find_first _ agents) as [agent|] eqn:Ea; [|by apply Hret].
  apply find_some_iff in Ea as [Ha _]. specialize (Hnew agent Ha).
  assert (safe repository env P Q (queue_unless_open q agent firing) Pre) as Hq.
  { unfold queue_unless_open. apply Hread; [done..|]. intros [ts|e]; [|done]. destruct (find_first _ ts); [by apply Hret|done]. }
  destruct (task_for (fi_key firing) book) as [open|]; [|exact Hq]. apply Hread; [done..|].
  intros [[t|]|e]; [destruct (negb _); [by apply Hret|exact Hq]|exact Hq|by apply Hret].
Qed.

(** C6: an activation's run is never planned: from the moment [queue] starts until it has answered,
    whatever callers that leave the new task to it do to the store between its calls, the runner that
    asks what to run next for the new task is not told to plan it; when a task was queued it is running,
    with its one step next; and a firing that is skipped, because its last run is open, its members could
    not be read or it has nobody to run for, leaves no task behind. And though at any moment others cancel
    or delete the new task, run its step or end it, it would be planned only once its step has failed. *)
Theorem queued_runs_are_never_planned q agents firing book l :
  star repo_step empty_ledger l → (∀ a, a ∈ agents → trim (role_name (aa_role a)) ≠ []) →
  get_task (ACTIVATION_TASK_ID_PREFIX ++ qr_uuid q) l = None →
  (∀ cfg, star (config_step repository (others (ACTIVATION_TASK_ID_PREFIX ++ qr_uuid q))) (queue q agents firing book, l) cfg →
     holds_at (not_planned (ACTIVATION_TASK_ID_PREFIX ++ qr_uuid q)) (queued_well (ACTIVATION_TASK_ID_PREFIX ++ qr_uuid q)) cfg) ∧
  (∀ cfg, star (config_step repository (meddlers (ACTIVATION_TASK_ID_PREFIX ++ qr_uuid q))) (queue q agents firing book, l) cfg →
     holds_at (planned_only_failed (ACTIVATION_TASK_ID_PREFIX ++ qr_uuid q)) (queued_among (qr_uuid q)) cfg).
Proof.
  intros Hl%reachable_ok Hroles Hg. split; intros cfg.
  - apply (safe_sound repository) with (pre := holding (ACTIVATION_TASK_ID_PREFIX ++ qr_uuid q) (None, [], []));
      [|by apply holding_missing].
    apply queue_safe_by; [apply refuse_safe|intros R; apply read_safe|]. intros a Ha. apply queue_task_safe; [done|by apply Hroles].
  - apply (safe_sound repository) with (pre := missing (ACTIVATION_TASK_ID_PREFIX ++ qr_uuid q)); [|done].
    apply queue_safe_by; [apply among_missing|intros R; apply read_among|]. intros a Ha. apply queue_task_among; [done|by apply Hroles].
Qed.
End queueing.

(** The gardener's bed check is due; nothing of it is open. *)
Definition garden_firing : Firing :=
  {| fi_key := {| ak_agent := lit "gardener"; ak_index := 0; ak_fingerprint := 7 |}; fi_agent := lit "gardener";
     fi_brief := lit "Check the beds"; fi_reason := ReasonDaily (lit "06:30") |}.
Definition garden_agents : list ActivationAgent := [{| aa_role := gardener; aa_owner_profile_id := Some (lit "ann") |}].
Definition garden_reads : QueueReads :=
  {| qr_members := Some [(lit "ann", lit "Ann"); (lit "bo", lit "Bo")]; qr_uuid := lit "u"; qr_at := 5; qr_running := 6;
     qr_cancelled := 6 |}.
Definition garden_queued : Queued * Ledger :=
  run repository (@queue utc_calendar garden_reads garden_agents garden_firing book_default) empty_ledger.

Lemma queued_runs_are_never_planned_witness :
  garden_queued.1 = QueuedTask (ACTIVATION_TASK_ID_PREFIX ++ qr_uuid garden_reads) ∧ not_planned (ACTIVATION_TASK_ID_PREFIX ++ qr_uuid garden_reads) garden_queued.2 ∧
  ∃ t s, get_task (ACTIVATION_TASK_ID_PREFIX ++ qr_uuid garden_reads) garden_queued.2 = Some t ∧ task_state t = Running ∧ list_steps (ACTIVATION_TASK_ID_PREFIX ++ qr_uuid garden_reads) garden_queued.2 = [s].
Proof.
  destruct (@queued_runs_are_never_planned utc_calendar utc_laws garden_reads garden_agents garden_firing book_default empty_ledger) as [H _].
  - apply star_refl.
  - intros a ->%elem_of_one. vm_compute. discriminate.
  - reflexivity.
  - destruct (H (Ret garden_queued.1, garden_queued.2)) as [H1 H2]; [apply run_steps|].
    assert (garden_queued.1 = QueuedTask (ACTIVATION_TASK_ID_PREFIX ++ qr_uuid garden_reads)) as E by (vm_compute; reflexivity).
    split; [exact E|]. split; [exact H1|]. specialize (H2 _ eq_refl). cbn [snd] in H2. rewrite E in H2.
    destruct H2 as [_ (t & s & Hg & Hr & _ & Hs & _)]. exists t, s. split; [exact Hg|]. split; [exact Hr|exact Hs].
Defined.

(** ** Properties: around a step *)

(** The same before hooks, once what they would read is left out. *)
Definition blind (src : BeforeHookSources) : BeforeHookSources :=
  {| bs_date := bs_date src; bs_today := []; bs_weather_line := bs_weather_line src; bs_presence_lines := [] |}.

(** A run that sees no personal data learns none from its before hooks: for a role that denies
    personal data, or a task run for a guest, the block added to a step's brief is the same whatever the
    household's schedule holds and whoever is home, and even the block rendered from everything the
    sources could say shows nothing more. *)
Theorem before_hooks_hide_personal_data src role scope :
  role_personal_data role = Deny ∨ scope = Guest →
  block_for src role scope = block_for (blind src) role scope ∧
  ∀ hooks context, render_before_hooks hooks context Guest =
    render_before_hooks hooks {| bh_date := bh_date context; bh_schedule := []; bh_weather := bh_weather context; bh_presence := [] |} Guest.
Proof.
  intros Hdeny. split.
  - unfold block_for. destruct (is_empty _); [done|].
    assert (match role_personal_data role with Deny => Guest | Inherit => scope end = Guest) as ->.
    { destruct Hdeny as [-> | ->]; [done|]. by destruct (role_personal_data role). }
    unfold gather. cbn [excludes_everything negb]. rewrite !andb_false_r. done.
  - intros hooks context. unfold render_before_hooks. destruct (is_empty hooks); [done|]. done.
Qed.

Definition nosy : AgentRole :=
  {| role_name := lit "nosy"; role_instructions := lit "Ask"; role_tool_groups := ∅; role_personal_data := Deny;
     role_max_turns := 6; role_context_fraction := NotFinite; role_model := None; role_activations := [];
     role_hooks := {| hook_before := [Today; Presence]; hook_after := [] |} |}.
Definition full_house : BeforeHookSources :=
  {| bs_date := lit "Monday"; bs_today := [lit "07:30 Dentist"]; bs_weather_line := None;
     bs_presence_lines := [{| pl_name := lit "Ann"; pl_home := true; pl_since := lit "07:00" |}] |}.

Lemma before_hooks_hide_personal_data_witness :
  block_for full_house nosy Household = block_for (blind full_house) nosy Household.
Proof. apply (before_hooks_hide_personal_data full_house nosy Household). by left. Defined.

Definition creates_task {R} (c : AfterCall R) : bool :=
  match c with Repo c => match c with CreateTask _ => true | _ => false end | SendToProfile _ _ _ => false end.

Definition keeps_to (P : ∀ R, AfterCall R → Prop) (ids : nat → text * Z) task step outcome roles (a : AfterAction) : Prop :=
  ∀ n, only_calls P (apply_after_action ids task step outcome roles n a).

Lemma apply_actions_keep P ids task step outcome roles actions :
  Forall (keeps_to P ids task step outcome roles) actions →
  ∀ n, only_calls P (apply_after_actions ids task step outcome roles n actions).
Proof.
  induction 1 as [|a l Ha _ IH]; intros n; [exact I|]. simpl. apply only_calls_bind; [apply Ha|]. intros _. apply IH.
Qed.

Lemma hand_on_creates_none task step agent brief roles :
  only_calls (λ R c, @creates_task R c = false) (hand_on task step agent brief roles).
Proof.
  split; [done|]. intros steps. split; [done|]. intros artifacts.
  destruct steps as [steps|e], artifacts as [artifacts|e']; try exact I. unfold hand_on.
  destruct (plan_hand_off _ _ _ _ _ _ _) as [[p|e]|]; try exact I. by split.
Qed.

Lemma after_hook_actions_spec task role step outcome :
  ∃ acts handed, after_hook_actions task role step outcome = acts ++ handed ∧
    (handed = [] ∨ ∃ agent brief, handed = [ActHandTo agent brief]) ∧
    (∀ a, a ∈ acts → ∃ hook, hook ∈ hook_after (role_hooks role) ∧ hook_action task outcome hook = Some a) ∧
    (acts ++ handed ≠ [] → ps_role step = role_name role ∧ ps_state step = StepState.Completed ∧
       so_outcome outcome = OutcomeKind.Completed).
Proof.
  unfold after_hook_actions. destruct (_ || _) eqn:E.
  { exists [], []. split; [done|]. split; [by left|]. split; [by intros a ?%elem_of_nil|done]. }
  apply orb_false_elim in E as [[E1 E2]%orb_false_elim E3].
  apply negb_false_iff, bool_decide_eq_true in E1, E2, E3. cbv zeta.
  assert (∀ a, a ∈ omap (hook_action task outcome) (hook_after (role_hooks role)) →
    ∃ hook, hook ∈ hook_after (role_hooks role) ∧ hook_action task outcome hook = Some a) as Hacts.
  { intros a Ha. apply list_elem_of_omap in Ha as (h & Hh & Ea). by exists h. }
  destruct (or_else _ _) as [[agent brief]|].
  - eexists _, [_]. split; [done|]. split; [right; by eexists _, _|]. split; [exact Hacts|done].
  - eexists _, []. split; [by rewrite app_nil_r|]. split; [by left|]. split; [exact Hacts|done].
Qed.

(** An agent's run never breeds: the long task a [start_task] hook starts keeps its parent's scope and
    owner, reports to no conversation, and, whatever role runs its steps and whatever they report,
    applying their after hooks creates no task. *)
Theorem follow_ups_start_nothing uuid parent goal at_ task :
  owner_agrees (task_scope parent) (task_owner parent) → follow_up_task uuid parent goal at_ = Ok task →
  task_scope task = task_scope parent ∧ task_owner task = task_owner parent ∧ task_origin task = None ∧
  is_follow_up_task task = true ∧
  ∀ role step outcome ids roles n,
    only_calls (λ R c, @creates_task R c = false)
      (apply_after_actions ids task step outcome roles n (after_hook_actions task role step outcome)).
Proof.
  intros Hagree H. unfold follow_up_task in H. apply result_bind_ok in H as (b & _ & H).
  apply result_bind_ok in H as (t0 & Hst & H). unfold LongTask_start in Hst. destruct (is_empty (trim goal)); [done|].
  apply result_bind_ok in Hst as (o & Ho & Hst). cbn [origin_for result_bind] in Hst. destruct (match LongTask.deadline b with Some _ => _ | None => _ end); [done|].
  injection Hst as <-. unfold with_id_prefix, LongTask_from_parts in H. revert H.
  destruct (is_empty _); [done|]. destruct (is_empty _); [done|]. destruct (_ =? 0); [done|].
  intros (o' & Ho' & [= <-])%result_bind_ok. cbn [tp_scope tp_owner_profile_id task_scope task_owner task_origin] in *.
  assert (∀ x y, owner_agrees (task_scope parent) x → owner_for (task_scope parent) x = Ok y → y = x) as Hsame.
  { intros x y Hx Hy. unfold owner_for in Hy. destruct (task_scope parent) as [i| |]; simpl in Hx.
    - destruct Hx as [Hne ->]. destruct (is_empty (trim i)) eqn:E; [done|]. unfold non_blank in Hy. simpl in Hy.
      rewrite E in Hy. case_bool_decide as Eq; [|done]. injection Hy as <-. congruence.
    - injection Hy as <-. destruct x as [x|]; [|done]. destruct (Hx x eq_refl). by apply non_blank_id.
    - subst x. simpl in Hy. by injection Hy as <-. }
  pose proof (Hsame _ _ Hagree Ho) as ->. pose proof (Hsame _ _ Hagree Ho') as ->.
  split; [done|]. split; [done|]. split; [done|]. split; [apply starts_with_spec; by eexists|].
  set (task := {| task_id := _; task_owner := _; task_scope := _; task_goal := _; task_origin := _; task_state := _;
    task_budget := _; task_kind := _; task_answer := _; task_created_at := _; task_updated_at := _; task_finished_at := _ |}).
  assert (is_follow_up_task task = true) as Hf by (apply starts_with_spec; by eexists).
  intros role step outcome ids roles n. apply apply_actions_keep.
  destruct (after_hook_actions_spec task role step outcome) as (acts & handed & -> & Hh & Hacts & _).
  apply Forall_app. split.
  - apply Forall_forall. intros a Ha m. destruct (Hacts a Ha) as (hook & _ & Ea). unfold hook_action in Ea.
    rewrite Hf in Ea. destruct hook; cbn [negb] in Ea; [| |done|done].
    + destruct (bool_decide _); [|done]. injection Ea as <-. simpl. destruct (task_owner parent); by repeat split.
    + destruct (negb _); [|done]. injection Ea as <-. simpl. destruct (hook_result_artifact _ _ _ _ _); by repeat split.
  - destruct Hh as [->|(agent & brief & ->)]; [constructor|]. apply Forall_singleton. intros m.
    unfold apply_after_action. apply only_calls_bind; [apply hand_on_creates_none|done].
Qed.

Lemma follow_ups_start_nothing_witness :
  ∃ t, follow_up_task (lit "f") garden_task (lit "Plan the beds") 9 = Ok t ∧ task_owner t = Some (lit "ann").
Proof.
  eexists. split; [vm_compute; reflexivity|].
  refine (proj1 (proj2 (follow_ups_start_nothing (lit "f") garden_task (lit "Plan the beds") 9 _ _ _))).
  - vm_compute. split; [discriminate|reflexivity].
  - vm_compute. reflexivity.
Defined.
