(* ===== verification/Drafts.v ===== *)
(** * Drafts: the table of staged actions and proposals, and who may decide one

    crates/pond-infra/src/sqlite_proposal.rs and sqlite_draft.rs over the [drafts] table with the
    triggers of its migrations (0018, 0038, 0041, 0042), user_data/domain/draft.rs,
    [is_draft_decision_permitted] (security/ports/policy.rs), security/domain/proven_device.rs, and
    the route that decides a proposal (pond-api/src/routes.rs: [decide_proposal] with
    [proposal_caller_with_source] and [resolve_turn_identity]) as a program of its calls.

    The rows stand in the order they were inserted. A payload column is the value its JSON encodes
    or other text; the time columns are [Z] nanoseconds, what the writers bind being readable. *)
From S2P Require Import Prelude Prog Text Scope Proposal.
From Stdlib Require Import NArith ZArith QArith Lia.
Open Scope N_scope.

Definition NS : Z := 1000000000.
(** [sql_ts], and [datetime()]: whole seconds. *)
Definition sql_ts (t : Z) : Z := (t / NS * NS)%Z.
(** SQLite's [trim]: of spaces. *)
Definition sql_blank (t : text) : bool := forallb (λ c, c =? 32) t.

Inductive DraftPayload : Type := PayloadJson (p : ProposalPayload) | PayloadText (t : text).

Record DraftRow := {
  dw_id : text; dw_session_id : text; dw_kind : text; dw_summary : text; dw_payload : DraftPayload;
  dw_status : DraftStatus; dw_created_at : Z; dw_profile_id : option text;
  dw_identification_source : option IdentificationSource; dw_origin : option text; dw_expires_at : option Z;
  dw_rationale : option text }.
Notation Drafts := (list DraftRow).

Definition with_status (s : DraftStatus) (r : DraftRow) : DraftRow :=
  {| dw_id := dw_id r; dw_session_id := dw_session_id r; dw_kind := dw_kind r; dw_summary := dw_summary r;
     dw_payload := dw_payload r; dw_status := s; dw_created_at := dw_created_at r; dw_profile_id := dw_profile_id r;
     dw_identification_source := dw_identification_source r; dw_origin := dw_origin r;
     dw_expires_at := dw_expires_at r; dw_rationale := dw_rationale r |}.
Definition released (r : DraftRow) : DraftRow :=
  {| dw_id := dw_id r; dw_session_id := dw_session_id r; dw_kind := dw_kind r; dw_summary := dw_summary r;
     dw_payload := dw_payload r; dw_status := dw_status r; dw_created_at := dw_created_at r; dw_profile_id := None;
     dw_identification_source := None; dw_origin := dw_origin r; dw_expires_at := dw_expires_at r;
     dw_rationale := dw_rationale r |}.

(** ** The statements and their triggers *)

Inductive DraftsError : Type := NoRationale | NoExpiry | ExpiredApproval | DuplicateId | DraftNotFound (id : text) | BadRow.

Definition is_proactive (r : DraftRow) : bool := bool_decide (dw_origin r = Some PROPOSAL_ORIGIN).

(** 0041 and 0042, on the new row of an insert or an update. *)
Definition row_veto (new : DraftRow) : option DraftsError :=
  if is_proactive new && match dw_rationale new with Some r => sql_blank r | None => true end then Some NoRationale
  else if is_proactive new && negb (bool_decide (is_Some (dw_expires_at new))) then Some NoExpiry
  else None.
(** 0041, on an update of [status]: [now] is SQLite's. *)
Definition approval_veto (now : Z) (old new : DraftRow) : option DraftsError :=
  if bool_decide (dw_status new = Approved) &&
     match dw_expires_at old with Some e => (sql_ts e <=? sql_ts now)%Z | None => false end
  then Some ExpiredApproval else None.

Definition insert_row (r : DraftRow) (ds : Drafts) : result unit DraftsError * Drafts :=
  match row_veto r with
  | Some e => (Err e, ds)
  | None =>
      if existsb (λ d, bool_decide (dw_id d = dw_id r)) ds then (Err DuplicateId, ds)
      else (Ok tt, ds ++ [r])
  end.

Definition veto (now : Z) (of_status : bool) (set : DraftRow → DraftRow) (r : DraftRow) : option DraftsError :=
  match row_veto (set r) with
  | Some e => Some e
  | None => if of_status then approval_veto now r (set r) else None
  end.

(** [UPDATE drafts SET .. WHERE ..]: one row vetoed, and none is changed. *)
Definition update_where (where_ : DraftRow → bool) (of_status : bool) (set : DraftRow → DraftRow) (now : Z) (ds : Drafts) :
    result nat DraftsError * Drafts :=
  let rows := List.filter where_ ds in
  match omap (veto now of_status set) rows with
  | e :: _ => (Err e, ds)
  | [] => (Ok (length rows), (λ r, if where_ r then set r else r) <$> ds)
  end.

(** [DELETE FROM profiles]: the trigger of 0038, expired first and then released. *)
Definition delete_profile (profile_id : text) (now : Z) (ds : Drafts) : result unit DraftsError * Drafts :=
  let his r := bool_decide (dw_profile_id r = Some profile_id) in
  match update_where (λ r, his r && bool_decide (dw_status r = Pending)) true (with_status DraftExpired) now ds with
  | (Err e, _) => (Err e, ds)
  | (Ok _, ds1) =>
      match update_where his false released now ds1 with
      | (Err e, _) => (Err e, ds)
      | (Ok _, ds2) => (Ok tt, ds2)
      end
  end.

(** ** [SqliteProposalRepository] *)

Definition proposal_row (p : Proposal) : DraftRow :=
  {| dw_id := pp_id p; dw_session_id := PROPOSAL_SESSION_ID; dw_kind := PROPOSAL_DRAFT_KIND;
     dw_summary := proposal_summary p; dw_payload := PayloadJson (payload_of p); dw_status := Pending;
     dw_created_at := sql_ts (pp_created_at p); dw_profile_id := Some (pa_profile_id (pp_audience p));
     dw_identification_source := None; dw_origin := Some PROPOSAL_ORIGIN;
     dw_expires_at := Some (sql_ts (pp_expires_at p)); dw_rationale := Some (pp_rationale p) |}.
Definition save_proposal (p : Proposal) (ds : Drafts) : result unit DraftsError * Drafts := insert_row (proposal_row p) ds.

(** A trigger read back goes through its constructor ([BusEventRefWire]). *)
Definition payload_from_json (p : DraftPayload) : option ProposalPayload :=
  match p with
  | PayloadText _ => None
  | PayloadJson p =>
      match bus_event_ref (br_kind (py_trigger p)) (br_source_id (py_trigger p)) (br_signal (py_trigger p))
              (br_observed_at (py_trigger p)) with
      | Ok trigger => Some {| py_trigger := trigger; py_action := py_action p; py_confidence := py_confidence p |}
      | Err _ => None
      end
  end.

Definition row_to_proposal (r : DraftRow) : result Proposal DraftsError :=
  match for_member (default [] (dw_profile_id r)), payload_from_json (dw_payload r), dw_expires_at r with
  | Ok audience, Some payload, Some expires_at =>
      match from_parts (dw_id r) (py_trigger payload) (default [] (dw_rationale r)) (py_action payload) audience
              (py_confidence payload) (dw_created_at r) expires_at with
      | Ok p => Ok p
      | Err _ => Err BadRow
      end
  | _, _, _ => Err BadRow
  end.

(** [LIVE_PREDICATE] *)
Definition live (now : Z) (r : DraftRow) : bool :=
  is_proactive r && bool_decide (dw_status r = Pending) &&
  match dw_expires_at r with Some e => (sql_ts now <? sql_ts e)%Z | None => false end.
Definition of_member (profile_id : text) (r : DraftRow) : bool := bool_decide (dw_profile_id r = Some profile_id).
(** [ORDER BY created_at DESC] *)
Definition newest_first (ds : Drafts) : Drafts := sort_with (λ a b, (dw_created_at b <=? dw_created_at a)%Z) ds.

Definition list_live_for (profile_id : text) (now : Z) (ds : Drafts) : list Proposal :=
  omap (λ r, match row_to_proposal r with Ok p => Some p | Err _ => None end)
    (newest_first (List.filter (λ r, live now r && of_member profile_id r) ds)).

Definition get_live (id : text) (now : Z) (ds : Drafts) : result (option Proposal) DraftsError :=
  match find_first (λ r, live now r && bool_decide (dw_id r = id)) ds with
  | Some r => result_map Some (row_to_proposal r)
  | None => Ok None
  end.

Definition expire_due (now sqlite_now : Z) (ds : Drafts) : result nat DraftsError * Drafts :=
  update_where (λ r, is_proactive r && bool_decide (dw_status r = Pending) &&
      match dw_expires_at r with Some e => (sql_ts e <=? sql_ts now)%Z | None => true end)
    true (with_status DraftExpired) sqlite_now ds.

Definition made_since (profile_id : text) (since : Z) (r : DraftRow) : bool :=
  is_proactive r && of_member profile_id r && (sql_ts since <=? sql_ts (dw_created_at r))%Z.
Definition count_made_since (profile_id : text) (since : Z) (ds : Drafts) : nat :=
  length (List.filter (made_since profile_id since) ds).

Definition decisions_since (shape_of : Proposal → ProposalShape) (profile_id : text) (since : Z) (ds : Drafts) :
    list ProposalDecision :=
  omap (λ r,
    match row_to_proposal r with
    | Ok p => match recorded (shape_of p) (dw_status r) (dw_created_at r) with Ok d => Some d | Err _ => None end
    | Err _ => None
    end)
    (newest_first (List.filter (λ r, made_since profile_id since r && negb (bool_decide (dw_status r = Pending))) ds)).

(** ** [SqliteDraftRepository] *)

Record Draft := {
  dd_id : text; dd_session_id : text; dd_kind : text; dd_summary : text; dd_payload : DraftPayload;
  dd_profile_id : option text; dd_identification_source : option IdentificationSource; dd_status : DraftStatus;
  dd_created_at : Z; dd_expires_at : option Z }.
Definition draft_is_live_at (d : Draft) (now : Z) : bool :=
  match dd_expires_at d with Some e => (now <? e)%Z | None => true end.

Definition draft_row (d : Draft) : DraftRow :=
  {| dw_id := dd_id d; dw_session_id := dd_session_id d; dw_kind := dd_kind d; dw_summary := dd_summary d;
     dw_payload := dd_payload d; dw_status := dd_status d; dw_created_at := dd_created_at d;
     dw_profile_id := dd_profile_id d; dw_identification_source := dd_identification_source d; dw_origin := None;
     dw_expires_at := sql_ts <$> dd_expires_at d; dw_rationale := None |}.
Definition row_to_draft (r : DraftRow) : Draft :=
  {| dd_id := dw_id r; dd_session_id := dw_session_id r; dd_kind := dw_kind r; dd_summary := dw_summary r;
     dd_payload := dw_payload r; dd_profile_id := dw_profile_id r;
     dd_identification_source := dw_identification_source r; dd_status := dw_status r;
     dd_created_at := dw_created_at r; dd_expires_at := dw_expires_at r |}.
Definition save_draft (d : Draft) (ds : Drafts) : result unit DraftsError * Drafts := insert_row (draft_row d) ds.
Definition list_pending_drafts (session_id : text) (sqlite_now : Z) (ds : Drafts) : list Draft :=
  row_to_draft <$> newest_first (List.filter (λ r, bool_decide (dw_session_id r = session_id) &&
    bool_decide (dw_status r = Pending) &&
    match dw_expires_at r with Some e => (sql_ts sqlite_now <? sql_ts e)%Z | None => true end) ds).
Definition get_draft (id : text) (ds : Drafts) : option Draft :=
  row_to_draft <$> find_first (λ r, bool_decide (dw_id r = id)) ds.
Definition update_status (id : text) (status : DraftStatus) (sqlite_now : Z) (ds : Drafts) : result unit DraftsError * Drafts :=
  match update_where (λ r, bool_decide (dw_id r = id)) true (with_status status) sqlite_now ds with
  | (Err e, ds) => (Err e, ds)
  | (Ok O, ds) => (Err (DraftNotFound id), ds)
  | (Ok _, ds) => (Ok tt, ds)
  end.

(** ** Who may decide *)

Inductive DecisionRefused : Type :=
| UnresolvedActor | ForeignDraft | UnownedDraft | GuestDraftDecision | VoiceDraftDecision.

Definition is_draft_decision_permitted (actor : option ProfileScope) (actor_source : IdentificationSource)
    (actor_session_id : text) (draft_owner : option text) (draft_session_id : text) : result unit DecisionRefused :=
  match actor with
  | None => Err UnresolvedActor
  | Some actor =>
      if bool_decide (actor_source = Voice) then Err VoiceDraftDecision
      else if is_empty (trim actor_session_id) then Err UnresolvedActor
      else match actor with
      | Guest => Err GuestDraftDecision
      | Household => match draft_owner with
                     | Some _ => Ok tt
                     | None => if bool_decide (actor_session_id = draft_session_id) then Ok tt else Err UnownedDraft
                     end
      | Owner id => match draft_owner with
                    | Some owner => if bool_decide (id = owner) then Ok tt else Err ForeignDraft
                    | None => if bool_decide (actor_session_id = draft_session_id) then Ok tt else Err UnownedDraft
                    end
      end
  end.

(** [ProvenDevice]: the device the request's token was issued to. *)
Notation ProvenDevice := (option text) (only parsing).
Inductive DeviceRung : Type := Member (profile_id : text) | NoDevice | Unattributed | Unavailable (why : text).
Definition from_attribution (attribution : result (option text) text) : DeviceRung :=
  match attribution with
  | Ok (Some profile_id) => if is_empty (trim profile_id) then Unattributed else Member profile_id
  | Ok None => Unattributed
  | Err e => Unavailable e
  end.
Definition rung_profile_id (r : DeviceRung) : option text :=
  match r with Member id => Some id | NoDevice | Unattributed | Unavailable _ => None end.

(** ** The route *)

Inductive DecideCall : Type → Type :=
| DeviceProfile (device_id : text) : DecideCall (result (option text) text)
| ClaimSessionIdentity (session_id : text) (proposed : SessionIdentity) : DecideCall (result unit text)
| GetSessionIdentity (session_id : text) : DecideCall (result SessionIdentity text)
| ListProfiles : DecideCall (result (list text) text)
| GetLive (id : text) (now : Z) : DecideCall (result (option Proposal) DraftsError)
| UpdateStatus (id : text) (status : DraftStatus) : DecideCall (result unit DraftsError)
| DecideUtcNow : DecideCall Z.

Definition resolve_turn_identity (session_id : text) (device : ProvenDevice) : Prog DecideCall ResolvedIdentity :=
  let resolved rung :=
    let! identity := GetSessionIdentity session_id in
    let identity := match identity with Ok i => i | Err _ => SessionIdentity_unknown end in
    let! profiles := ListProfiles in
    let several := match profiles with Ok ps => (1 <? length ps)%nat | Err _ => true end in
    Ret (resolve {| ri_paired_device_profile := rung_profile_id rung; ri_session := identity;
                    ri_household_has_multiple_members := several |}) in
  match device with
  | None => resolved NoDevice
  | Some device_id =>
      let! attribution := DeviceProfile device_id in
      match from_attribution attribution with
      | Member profile_id =>
          do! ClaimSessionIdentity session_id
                {| si_profile_id := Some profile_id; si_source := PairedDevice; si_confidence := None |} in
          resolved (Member profile_id)
      | rung => resolved rung
      end
  end.

Inductive Refusal : Type :=
| BadRequest | Forbidden (why : option DecisionRefused) | NotFound | Conflict | InternalError.

(** The caller as one member. *)
Definition proposal_caller_with_source (session_id : text) (device : ProvenDevice) :
    Prog DecideCall (result (ProfileScope * ProposalAudience * IdentificationSource) Refusal) :=
  prog_bind (resolve_turn_identity session_id device) (λ resolved,
  let scope := rid_scope resolved in let source := rid_source resolved in
  match audience_from_scope scope with
  | Ok audience => Ret (Ok (scope, audience, source))
  | Err _ =>
      match scope with
      | Household =>
          let! members := ListProfiles in
          match sole_member (match members with Ok ms => ms | Err _ => [] end) with
          | Some only =>
              Ret match for_member only with
                  | Ok audience => Ok (Owner only, audience, source)
                  | Err _ => Err (Forbidden None)
                  end
          | None => Ret (Err (Forbidden None))
          end
      | Owner _ | Guest => Ret (Err (Forbidden None))
      end
  end).

Inductive RouteDecision : Type := Approve | Reject.
Record DecideProposalRequest := { dp_session_id : text; dp_decision : RouteDecision }.
Definition decided_status (d : RouteDecision) : DraftStatus := match d with Approve => Approved | Reject => Rejected end.

Definition decide_proposal (id : text) (device : ProvenDevice) (body : option DecideProposalRequest) :
    Prog DecideCall (result DraftStatus Refusal) :=
  match body with
  | None => Ret (Err BadRequest)
  | Some request =>
      prog_bind (proposal_caller_with_source (dp_session_id request) device) (λ caller,
      match caller with
      | Err e => Ret (Err e)
      | Ok (scope, _, source) =>
          let! now := DecideUtcNow in
          let! read := GetLive id now in
          match read with
          | Err _ => Ret (Err InternalError)
          | Ok None => Ret (Err NotFound)
          | Ok (Some proposal) =>
              match is_draft_decision_permitted (Some scope) source (dp_session_id request)
                      (Some (pa_profile_id (pp_audience proposal))) (PROPOSAL_SESSION_ID) with
              | Err reason => Ret (Err (Forbidden (Some reason)))
              | Ok _ =>
                  let status := decided_status (dp_decision request) in
                  let! r := UpdateStatus id status in
                  Ret match r with Ok _ => Ok status | Err _ => Err Conflict end
              end
          end
      end)
  end.

(** ** Lemmas: instants in seconds *)

Lemma sql_ts_idemp t : sql_ts (sql_ts t) = sql_ts t.
Proof. unfold sql_ts, NS. lia. Qed.
Lemma sql_ts_le t : (sql_ts t ≤ t)%Z.
Proof. unfold sql_ts, NS. lia. Qed.
Lemma sql_ts_mono a b : (a ≤ b)%Z → (sql_ts a ≤ sql_ts b)%Z.
Proof. unfold sql_ts, NS. lia. Qed.
Lemma sql_ts_ttl a b : (b - a ≤ MAX_PROPOSAL_TTL)%Z → (sql_ts b - sql_ts a ≤ MAX_PROPOSAL_TTL)%Z.
Proof. unfold sql_ts, NS, MAX_PROPOSAL_TTL, from_hours. lia. Qed.

(** ** Lemmas: what becomes of a row *)

(** What a row never loses: all but its status and its owner. *)
Definition core (r : DraftRow) : DraftRow := released (with_status Pending r).
Record evolves (r r' : DraftRow) : Prop := {
  ev_core : core r' = core r;
  ev_decided : dw_status r ≠ Pending → dw_status r' ≠ Pending;
  ev_owner : dw_profile_id r' = dw_profile_id r ∨ (dw_profile_id r' = None ∧ dw_status r' ≠ Pending) }.

#[export] Instance evolves_preorder : PreOrder evolves.
Proof.
  split; [split; auto|]. intros a b c [H1 H2 H3] [H4 H5 H6]. split; [congruence|auto|].
  destruct H6 as [->|H6]; [|by right]. destruct H3 as [->|[-> H3]]; [by left|right; auto].
Qed.

Lemma core_id r r' : core r' = core r → dw_id r' = dw_id r ∧ dw_origin r' = dw_origin r ∧ dw_created_at r' = dw_created_at r ∧
  dw_expires_at r' = dw_expires_at r ∧ dw_rationale r' = dw_rationale r.
Proof. by intros [= -> _ _ _ _ -> -> -> ->]. Qed.

Lemma core_veto r r' : core r' = core r → row_veto r' = row_veto r.
Proof. intros (_ & Ho & _ & He & Hr)%core_id. unfold row_veto, is_proactive. by rewrite Ho, He, Hr. Qed.

(** The same rows, and the same with no others. *)
Definition table_ok (ds : Drafts) : Prop :=
  NoDup (dw_id <$> ds) ∧ Forall (λ r, row_veto r = None) ds ∧
  Forall (λ r, is_proactive r = true → trim (dw_id r) = dw_id r ∧ (dw_profile_id r = None → dw_status r ≠ Pending)) ds.

Lemma evolves_ids ds ds' : Forall2 evolves ds ds' → dw_id <$> ds' = dw_id <$> ds.
Proof. induction 1 as [|r r' ds ds' [H _ _] _ IH]; [done|]. rewrite !fmap_cons, IH. by apply core_id in H as [-> _]. Qed.

Lemma evolves_ok ds ds' : Forall2 evolves ds ds' → table_ok ds → table_ok ds'.
Proof.
  intros Hev (H1 & H2 & H3). split; [by rewrite (evolves_ids ds ds' Hev)|]. clear H1.
  induction Hev as [|r r' ds ds' [Hc Hd Ho] _ IH]; [by split|]. apply Forall_cons in H2 as [Hv H2]. apply Forall_cons in H3 as [Hn H3].
  destruct (IH H2 H3) as [H4 H5]. split; constructor; try done; [by rewrite (core_veto _ _ Hc)|].
  apply core_id in Hc as (Hid & Hor & _). unfold is_proactive in *. rewrite Hor, Hid. intros Hp.
  destruct (Hn Hp) as [Ht Hn']. split; [done|]. intros Hnone. destruct Ho as [Ho|[_ Ho]]; [|done]. apply Hd, Hn'. by rewrite <-Ho.
Qed.

Lemma update_where_cases where_ of_status set now ds r ds' : update_where where_ of_status set now ds = (r, ds') →
  (∃ e, r = Err e ∧ ds' = ds) ∨
  (r = Ok (length (List.filter where_ ds)) ∧ ds' = (λ d, if where_ d then set d else d) <$> ds ∧
   ∀ d, d ∈ ds → where_ d = true → veto now of_status set d = None).
Proof.
  unfold update_where. destruct (omap _ _) as [|e es] eqn:E; intros [= <- <-]; [right|left; by exists e].
  split; [done|]. split; [done|]. intros d Hd Hw. destruct (veto now of_status set d) as [e|] eqn:Ev; [|done].
  assert (e ∈ omap (veto now of_status set) (List.filter where_ ds)) as Hin.
  { apply list_elem_of_omap. exists d. split; [by apply elem_of_filter_bool|done]. }
  rewrite E in Hin. by apply not_elem_of_nil in Hin.
Qed.

Lemma update_where_evolves where_ of_status set now ds r ds' : (∀ d, d ∈ ds → where_ d = true → evolves d (set d)) →
  update_where where_ of_status set now ds = (r, ds') → Forall2 evolves ds ds'.
Proof.
  intros Hset [(e & _ & ->)|(_ & -> & _)]%update_where_cases; [by apply reflexivity|].
  apply Forall2_fmap_r. apply Forall_Forall2_diag, Forall_forall. intros d Hd.
  enough (evolves d (if where_ d then set d else d)) by done. destruct (where_ d) eqn:E; [by apply Hset|done].
Qed.

Lemma settled_evolves s r : s ≠ Pending → evolves r (with_status s r).
Proof. intros Hs. split; [by destruct r|done|by left]. Qed.

Lemma update_status_evolves id s now ds r ds' : s ≠ Pending → update_status id s now ds = (r, ds') → Forall2 evolves ds ds'.
Proof.
  intros Hs. unfold update_status. destruct (update_where _ _ _ _ _) as [u ds1] eqn:E. intros H.
  assert (ds' = ds1) as -> by (by destruct u as [[|]|]; injection H as _ <-).
  eapply update_where_evolves; [|exact E]. intros d _ _. by apply settled_evolves.
Qed.

Lemma delete_profile_evolves m now ds r ds' : delete_profile m now ds = (r, ds') → Forall2 evolves ds ds'.
Proof.
  unfold delete_profile. destruct (update_where _ true _ _ _) as [u1 ds1] eqn:E1.
  assert (Forall2 evolves ds ds1) as H1.
  { eapply update_where_evolves; [|exact E1]. intros d _ _. by apply settled_evolves. }
  destruct u1 as [n1|e1]; [|intros [= _ <-]; by apply reflexivity].
  destruct (update_where _ false _ _ ds1) as [u2 ds2] eqn:E2.
  destruct u2 as [n2|e2]; intros [= _ <-]; [|by apply reflexivity]. transitivity ds1; [exact H1|].
  eapply update_where_evolves; [|exact E2]. intros d Hd Hw%bool_decide_eq_true. split; [by destruct d|done|].
  right. split; [done|]. apply update_where_cases in E1 as [(e & [=] & _)|(_ & -> & _)].
  apply list_elem_of_fmap in Hd as (d0 & -> & Hd0). cbn [dw_status released]. case_match eqn:Ec; [done|].
  apply andb_false_iff in Ec as [Ec|Ec]; apply bool_decide_eq_false in Ec; [congruence|done].
Qed.

(** A proposal its constructors made. *)
Definition constructed (p : Proposal) : Prop :=
  (∃ kind source_id signal at_, bus_event_ref kind source_id signal at_ = Ok (pp_trigger p)) ∧
  (∃ raw, for_member raw = Ok (pp_audience p)) ∧
  ∃ id rationale, from_parts id (pp_trigger p) rationale (pp_action p) (pp_audience p) (pp_confidence p)
    (pp_created_at p) (pp_expires_at p) = Ok p.

Lemma constructed_id p : constructed p → trim (pp_id p) = pp_id p.
Proof.
  intros (_ & _ & rid & ra & Hp). apply from_parts_ok in Hp as (_ & _ & _ & _ & _ & Hp). apply (f_equal pp_id) in Hp. simpl in Hp.
  by rewrite Hp, trim_idemp.
Qed.

(** What the household and the pond do to the table. *)
Inductive drafts_step : Drafts → Drafts → Prop :=
| ds_save p ds r ds' : constructed p → save_proposal p ds = (r, ds') → drafts_step ds ds'
| ds_stage d ds r ds' : save_draft d ds = (r, ds') → drafts_step ds ds'
| ds_decide id d now ds r ds' : update_status id (decided_status d) now ds = (r, ds') → drafts_step ds ds'
| ds_expire now sqlite_now ds r ds' : expire_due now sqlite_now ds = (r, ds') → drafts_step ds ds'
| ds_delete m now ds r ds' : delete_profile m now ds = (r, ds') → drafts_step ds ds'.

Lemma insert_row_cases r ds res ds' : insert_row r ds = (res, ds') →
  (∃ e, res = Err e ∧ ds' = ds) ∨ (res = Ok tt ∧ ds' = ds ++ [r] ∧ row_veto r = None ∧ dw_id r ∉ dw_id <$> ds).
Proof.
  unfold insert_row. destruct (row_veto r) as [e|]; [intros [= <- <-]; left; by exists e|].
  destruct (existsb _ ds) eqn:E; intros [= <- <-]; [left; by exists DuplicateId|]. right. repeat (split; [done|]).
  intros (d & Hd & Hin)%list_elem_of_fmap. assert (existsb (λ d, bool_decide (dw_id d = dw_id r)) ds = true); [|congruence].
  apply existsb_elem_of. exists d. split; [done|]. by apply bool_decide_eq_true.
Qed.

Lemma decided_not_pending d : decided_status d ≠ Pending.
Proof. by destruct d. Qed.

Lemma expire_due_evolves now sqlite_now ds r ds' : expire_due now sqlite_now ds = (r, ds') → Forall2 evolves ds ds'.
Proof. apply update_where_evolves. intros d _ _. by apply settled_evolves. Qed.

(** Every step leaves each row, perhaps decided or released, and may add one. *)
Lemma step_rows ds ds' : drafts_step ds ds' → table_ok ds →
  ∃ ds1 extra, ds' = ds1 ++ extra ∧ Forall2 evolves ds ds1 ∧ table_ok ds'.
Proof.
  intros Hs Hok.
  assert (∀ r res ds', insert_row r ds = (res, ds') → (is_proactive r = true → trim (dw_id r) = dw_id r ∧ dw_profile_id r ≠ None) →
    ∃ ds1 extra, ds' = ds1 ++ extra ∧ Forall2 evolves ds ds1 ∧ table_ok ds') as Hins.
  { intros r res ds'' [(e & _ & ->)|(_ & -> & Hv & Hn)]%insert_row_cases Howner.
    { exists ds, []. split; [by rewrite app_nil_r|]. split; [by apply reflexivity|done]. }
    exists ds, [r]. split; [done|]. split; [by apply reflexivity|]. destruct Hok as (H1 & H2 & H3). split; [|split].
    - rewrite fmap_app. apply NoDup_app. split; [done|]. split; [by intros i Hi ->%elem_of_one|apply NoDup_singleton].
    - apply Forall_app. split; [done|]. by constructor.
    - apply Forall_app. split; [done|]. constructor; [|constructor]. intros Hp. destruct (Howner Hp) as [Ht Ho]. by split. }
  assert (∀ ds', Forall2 evolves ds ds' → ∃ ds1 extra, ds' = ds1 ++ extra ∧ Forall2 evolves ds ds1 ∧ table_ok ds') as Hup.
  { intros ds'' Hev. exists ds'', []. split; [by rewrite app_nil_r|]. split; [done|]. by eapply evolves_ok. }
  destruct Hs as [p ds r ds' Hp H|d ds r ds' H|id d now ds r ds' H|now sn ds r ds' H|m now ds r ds' H].
  - eapply Hins; [exact H|]. intros _. split; [by apply constructed_id|done].
  - by eapply Hins; [exact H|].
  - eapply Hup, update_status_evolves; [apply decided_not_pending|exact H].
  - eapply Hup, expire_due_evolves, H.
  - eapply Hup, delete_profile_evolves, H.
Qed.

Lemma steps_rows ds ds' : star drafts_step ds ds' → table_ok ds →
  table_ok ds' ∧ ∀ r, r ∈ ds → ∃ r', r' ∈ ds' ∧ evolves r r'.
Proof.
  induction 1 as [ds|ds ds1 ds' Hstep _ IH]; intros Hok; [split; [done|]; intros r Hr; by exists r|].
  destruct (step_rows _ _ Hstep Hok) as (ds2 & extra & -> & Hev & Hok1). destruct (IH Hok1) as [Hok' IH']. split; [done|].
  intros r Hr. apply list_elem_of_lookup in Hr as [i Hi]. destruct (Forall2_lookup_l _ _ _ _ _ Hev Hi) as (r1 & Hr1 & Hev1).
  destruct (IH' r1) as (r' & Hr' & Hev'); [apply elem_of_app; left; by eapply list_elem_of_lookup_2|].
  exists r'. split; [done|]. by transitivity r1.
Qed.

Lemma find_by_id ds r : NoDup (dw_id <$> ds) → r ∈ ds → ∀ p : DraftRow → bool,
  find_first (λ d, p d && bool_decide (dw_id d = dw_id r)) ds = if p r then Some r else None.
Proof.
  intros Hnd Hr p. destruct (find_first _ ds) as [d|] eqn:E.
  - apply find_some_iff in E as [Hd [Hp Hid%bool_decide_eq_true]%andb_prop].
    assert (d = r) as -> by (by eapply NoDup_fmap_inj_elem). by rewrite Hp.
  - rewrite find_first_None in E. specialize (E r Hr). destruct (p r); [|done]. by rewrite bool_decide_true in E.
Qed.

(** ** Lemmas: a proposal's row read back *)

(** A proposal, its instants in whole seconds. *)
Definition in_seconds (p : Proposal) : Proposal :=
  {| pp_id := pp_id p; pp_trigger := pp_trigger p; pp_rationale := pp_rationale p; pp_action := pp_action p;
     pp_audience := pp_audience p; pp_confidence := pp_confidence p; pp_created_at := sql_ts (pp_created_at p);
     pp_expires_at := sql_ts (pp_expires_at p) |}.

Lemma blank_to_none_idemp v : blank_to_none (blank_to_none v) = blank_to_none v.
Proof.
  unfold blank_to_none. destruct v as [s|]; simpl; [|done]. destruct (is_empty (trim s)) eqn:E; simpl; [done|].
  by rewrite trim_idemp, E.
Qed.

Lemma bus_event_ref_again kind source_id signal at_ t : bus_event_ref kind source_id signal at_ = Ok t →
  bus_event_ref (br_kind t) (br_source_id t) (br_signal t) (br_observed_at t) = Ok t.
Proof.
  unfold bus_event_ref. destruct (is_empty (trim kind)) eqn:E; [done|]. intros [= <-]. simpl.
  by rewrite trim_idemp, E, !blank_to_none_idemp.
Qed.

Lemma for_member_again raw a : for_member raw = Ok a → for_member (pa_profile_id a) = Ok a.
Proof.
  unfold for_member. destruct (is_empty (trim raw)) eqn:E; [done|]. intros [= <-]. simpl. by rewrite trim_idemp, E.
Qed.

Lemma row_to_proposal_row p : constructed p → (sql_ts (pp_created_at p) < sql_ts (pp_expires_at p))%Z →
  row_to_proposal (proposal_row p) = Ok (in_seconds p).
Proof.
  intros ((k & s & g & o & Ht) & (raw & Ha) & rid & ra & Hp) Hlt. unfold row_to_proposal, proposal_row.
  cbn [dw_profile_id dw_payload dw_expires_at dw_id dw_rationale dw_created_at default from_option id payload_of payload_from_json
       py_trigger py_action py_confidence].
  rewrite (for_member_again _ _ Ha), (bus_event_ref_again _ _ _ _ _ Ht). cbn [py_trigger py_action py_confidence].
  apply from_parts_ok in Hp as (H1 & H2 & H3 & H4 & H5 & Hp). pose proof (f_equal pp_id Hp) as Hid. pose proof (f_equal pp_rationale Hp) as Hra.
  simpl in Hid, Hra.
  destruct (from_parts (pp_id p) _ _ _ _ _ _ _) as [q|e] eqn:E.
  - apply from_parts_ok in E as (_ & _ & _ & _ & _ & ->). f_equal. unfold in_seconds.
    rewrite Hid, Hra, !trim_idemp, <-Hid, <-Hra. done.
  - exfalso. assert (from_parts (pp_id p) (pp_trigger p) (pp_rationale p) (pp_action p) (pp_audience p) (pp_confidence p)
      (sql_ts (pp_created_at p)) (sql_ts (pp_expires_at p)) = Ok {| pp_id := trim (pp_id p); pp_trigger := pp_trigger p;
        pp_rationale := trim (pp_rationale p); pp_action := pp_action p; pp_audience := pp_audience p;
        pp_confidence := pp_confidence p; pp_created_at := sql_ts (pp_created_at p); pp_expires_at := sql_ts (pp_expires_at p) |}); [|congruence].
    apply from_parts_ok. rewrite Hid, Hra, !trim_idemp. repeat (split; [first [done|by apply sql_ts_ttl]|]). done.
Qed.

Lemma row_to_proposal_core r q : core r = core q → dw_profile_id r = dw_profile_id q → row_to_proposal r = row_to_proposal q.
Proof. destruct r, q. intros [= -> -> -> -> -> -> -> -> ->]. simpl. by intros ->. Qed.

Section saved.
Context (p : Proposal) (Hp : constructed p) (Hlt : (sql_ts (pp_created_at p) < sql_ts (pp_expires_at p))%Z).
Notation m := (pa_profile_id (pp_audience p)).

Lemma pending_is_owned r : evolves (proposal_row p) r → dw_status r = Pending → dw_profile_id r = Some m.
Proof. intros [_ _ [->|[_ Hn]]]; done. Qed.

Lemma saved_reads r : evolves (proposal_row p) r → dw_profile_id r = Some m → row_to_proposal r = Ok (in_seconds p).
Proof using Hp Hlt. intros Hev Ho. rewrite <-row_to_proposal_row; [|done..]. apply row_to_proposal_core; [by apply ev_core|done]. Qed.

Lemma saved_live r now : evolves (proposal_row p) r →
  live now r = bool_decide (dw_status r = Pending) && (sql_ts now <? sql_ts (pp_expires_at p))%Z.
Proof.
  intros [(_ & Ho & _ & He & _)%core_id _ _]. unfold live, is_proactive. rewrite Ho, He. cbn [proposal_row dw_origin dw_expires_at].
  by rewrite bool_decide_true, sql_ts_idemp.
Qed.

Lemma saved_get_live r now ds : table_ok ds → r ∈ ds → evolves (proposal_row p) r →
  get_live (pp_id p) now ds =
    Ok (if bool_decide (dw_status r = Pending) && (sql_ts now <? sql_ts (pp_expires_at p))%Z then Some (in_seconds p) else None).
Proof using Hp Hlt.
  intros (Hnd & _) Hr Hev. unfold get_live. assert (pp_id p = dw_id r) as -> by (by apply ev_core, core_id in Hev as [-> _]).
  rewrite find_by_id by done. rewrite (saved_live r now Hev).
  destruct (bool_decide (dw_status r = Pending)) eqn:Es; [|done]. destruct (_ <? _)%Z; [|done]. simpl.
  apply bool_decide_eq_true in Es. by rewrite saved_reads by (done || by apply pending_is_owned).
Qed.

Lemma saved_row ds ds1 ds2 : table_ok ds → save_proposal p ds = (Ok tt, ds1) → star drafts_step ds1 ds2 →
  table_ok ds2 ∧ ∃ r, r ∈ ds2 ∧ dw_id r = pp_id p ∧ evolves (proposal_row p) r.
Proof.
  intros Hok Hsave Hstar. destruct (step_rows ds ds1) as (_ & _ & _ & _ & Hok1); [by eapply ds_save|done|].
  destruct (steps_rows ds1 ds2 Hstar Hok1) as [Hok2 Hrows]. split; [done|].
  apply insert_row_cases in Hsave as [(e & [=] & _)|(_ & -> & _)].
  destruct (Hrows (proposal_row p)) as (r & Hr & Hev); [apply elem_of_app; right; by apply elem_of_one|].
  exists r. split; [done|]. split; [|done]. by apply ev_core, core_id in Hev as [-> _].
Qed.
End saved.

Lemma elem_of_newest_first r ds : r ∈ newest_first ds ↔ r ∈ ds.
Proof. apply elem_of_sort_with. Qed.

Lemma list_live_for_in m now ds q : q ∈ list_live_for m now ds ↔
  ∃ r, r ∈ ds ∧ live now r = true ∧ dw_profile_id r = Some m ∧ row_to_proposal r = Ok q.
Proof.
  unfold list_live_for. rewrite list_elem_of_omap. split.
  - intros (r & [Hr [Hl Ho%bool_decide_eq_true]%andb_prop]%elem_of_newest_first%elem_of_filter_bool & E).
    exists r. repeat (split; [done|]). by destruct (row_to_proposal r); simplify_eq.
  - intros (r & Hr & Hl & Ho & E). exists r. rewrite elem_of_newest_first, elem_of_filter_bool, Hl, E.
    split; [split; [done|]|done]. by apply bool_decide_eq_true.
Qed.

Lemma decisions_since_in shape m since ds r q : r ∈ ds → made_since m since r = true → dw_status r ≠ Pending →
  row_to_proposal r = Ok q →
  {| pd_shape := shape q; pd_status := dw_status r; pd_decided_at := dw_created_at r |} ∈ decisions_since shape m since ds.
Proof.
  intros Hr Hm Hs E. unfold decisions_since. apply list_elem_of_omap. exists r.
  rewrite elem_of_newest_first, elem_of_filter_bool, Hm, E, bool_decide_false by done. split; [done|].
  unfold recorded. by rewrite decide_False.
Qed.

Lemma row_id r q : row_to_proposal r = Ok q → trim (dw_id r) = dw_id r → pp_id q = dw_id r.
Proof.
  unfold row_to_proposal. destruct (for_member (default [] (dw_profile_id r))); [|done].
  destruct (payload_from_json (dw_payload r)); [|done]. destruct (dw_expires_at r); [|done].
  destruct (from_parts _ _ _ _ _ _ _ _) as [q'|] eqn:E; [|done]. intros [= <-] Ht.
  apply from_parts_ok in E as (_ & _ & _ & _ & _ & ->). done.
Qed.

Lemma live_id now r ds : table_ok ds → r ∈ ds → live now r = true → trim (dw_id r) = dw_id r.
Proof.
  intros (_ & _ & H) Hr Hl. rewrite Forall_forall in H. unfold live in Hl. apply andb_prop in Hl as [[Hp _]%andb_prop _].
  by apply (H r Hr).
Qed.

(** ** Lemmas: the way a decision goes *)

Lemma permitted_owner actor source session owner ds : is_draft_decision_permitted (Some actor) source session (Some owner) ds = Ok tt →
  source ≠ Voice ∧ trim session ≠ [] ∧ (actor = Owner owner ∨ actor = Household).
Proof.
  unfold is_draft_decision_permitted. case_bool_decide; [done|]. destruct (is_empty (trim session)) eqn:E; [done|].
  apply is_empty_false in E. destruct actor as [a| |]; [|auto|done]. case_bool_decide; [|done]. subst. auto.
Qed.

(** Why the caller of a route is a member. *)
Definition known_as (m session_id : text) (device : option text) (source : IdentificationSource)
    (l : list {R : Type & (DecideCall R * R)%type}) : Prop :=
  (∃ d, device = Some d ∧ called (DeviceProfile d) (Ok (Some m)) l ∧ source = PairedDevice) ∨
  (∃ i, called (GetSessionIdentity session_id) (Ok i) l ∧ si_profile_id i = Some m ∧ si_source i = source ∧ source ≠ Unknown) ∨
  called ListProfiles (Ok [m]) l.

Lemma known_as_mono m session device source l l' : (∀ e, e ∈ l → e ∈ l') →
  known_as m session device source l → known_as m session device source l'.
Proof. unfold known_as, called. naive_solver. Qed.

Lemma resolve_turn_path session device l rid m : path (resolve_turn_identity session device) l rid →
  rid_scope rid = Owner m → known_as m session device (rid_source rid) l.
Proof.
  set (resolved := λ rung, let! identity := GetSessionIdentity session in
    let identity := match identity with Ok i => i | Err _ => SessionIdentity_unknown end in
    let! profiles := ListProfiles in
    let several := match profiles with Ok ps => (1 <? length ps)%nat | Err _ => true end in
    Ret (resolve {| ri_paired_device_profile := rung_profile_id rung; ri_session := identity;
                    ri_household_has_multiple_members := several |})).
  assert (∀ rung l, path (resolved rung) l rid → rid_scope rid = Owner m →
    (rung = Member m ∧ rid_source rid = PairedDevice) ∨
    ∃ i, called (GetSessionIdentity session) (Ok i) l ∧ si_profile_id i = Some m ∧ si_source i = rid_source rid ∧ rid_source rid ≠ Unknown) as Hres.
  { intros rung l0 (identity & l1 & -> & H)%path_inv Hm. apply path_inv in H as (profiles & l2 & -> & H).
    apply path_inv in H as [_ ->]. destruct (resolve _) as [scope source] eqn:E. simpl in Hm |- *. subst scope.
    apply (proj1 (resolve_follows_evidence _)) in E. destruct E as [Hd|source Hd Hi Hs Hn].
    - left. split; [|done]. destruct rung; simpl in Hd; by simplify_eq.
    - right. simpl in Hi, Hs. destruct identity as [i|e]; [|done]. exists i. split; [by left|done]. }
  unfold resolve_turn_identity. fold resolved. destruct device as [d|].
  - intros (attribution & l1 & -> & H)%path_inv Hm. cbv beta in H. destruct (from_attribution attribution) as [q| | |why] eqn:E.
    + apply path_inv in H as (r & l2 & -> & H). apply Hres in H as [[[= ->] ->]|(i & Hi & H)]; [| |done].
      * left. exists d. split; [done|]. split; [|done]. destruct attribution as [[q|]|e]; simpl in E; try done.
        destruct (is_empty (trim q)); [done|]. injection E as ->. by left.
      * right. left. exists i. split; [do 2 right; exact Hi|done].
    + apply Hres in H as [[[=] _]|(i & Hi & H)]; [|done]. right. left. exists i. split; [right; exact Hi|done].
    + apply Hres in H as [[[=] _]|(i & Hi & H)]; [|done]. right. left. exists i. split; [right; exact Hi|done].
    + apply Hres in H as [[[=] _]|(i & Hi & H)]; [|done]. right. left. exists i. split; [right; exact Hi|done].
  - intros H Hm. apply Hres in H as [[[=] _]|(i & Hi & H)]; [|done]. right. left. by exists i.
Qed.

(** What is asked before the proposal is read. *)
Definition of_caller (R : Type) (c : DecideCall R) : Prop :=
  match c with GetLive _ _ | UpdateStatus _ _ | DecideUtcNow => False | _ => True end.

Lemma caller_only session device : only_calls of_caller (proposal_caller_with_source session device).
Proof.
  unfold proposal_caller_with_source. apply only_calls_bind.
  - unfold resolve_turn_identity. destruct device; [|done]. split; [done|]. intros r. by destruct (from_attribution r).
  - intros a. destruct (audience_from_scope (rid_scope a)); [done|]. destruct (rid_scope a); [done| |done].
    split; [done|]. intros r. by destruct (sole_member _).
Qed.

Lemma caller_path session device l scope audience source :
  path (proposal_caller_with_source session device) l (Ok (scope, audience, source)) →
  ∃ m, scope = Owner m ∧ known_as m session device source l.
Proof.
  unfold proposal_caller_with_source. intros (rid & l1 & l2 & -> & H1 & H2)%path_bind.
  destruct (audience_from_scope (rid_scope rid)) as [a|e] eqn:Ea.
  - apply path_inv in H2 as [-> [= -> -> ->]]. destruct (rid_scope rid) as [m| |] eqn:Es; [|done|done]. exists m. split; [done|].
    rewrite app_nil_r. by eapply resolve_turn_path.
  - destruct (rid_scope rid) as [m| |] eqn:Es; try by apply path_inv in H2 as [_ [=]].
    apply path_inv in H2 as (members & l3 & -> & H2). cbv beta in H2.
    destruct members as [[|m [|]]|]; try by apply path_inv in H2 as [_ [=]]. cbn [sole_member] in H2.
    apply path_inv in H2 as [-> H2]. destruct (for_member m) as [a|]; [|done]. injection H2 as -> -> ->.
    exists m. split; [done|]. right. right. apply elem_of_app. right. by left.
Qed.

(** ** Properties *)

(** C27: a proposal saved comes back as it was, and once gone it does not return. Whatever the household
    does to the table after, the proposal reads back, all but the fractions of its seconds, exactly
    while it is undecided and before its expiry, for its member and nobody else; its shape, by
    which a decision on it is remembered, is the saved one's; and when it is not to be had any
    more, no reading at a later time has it. *)
Theorem proposals_come_back_until_they_are_gone is_alphanumeric to_lowercase p ds ds1 ds2 now :
  table_ok ds → constructed p → (sql_ts (pp_created_at p) < sql_ts (pp_expires_at p))%Z →
  save_proposal p ds = (Ok tt, ds1) → star drafts_step ds1 ds2 →
  let m := pa_profile_id (pp_audience p) in
  let shape := shape_of is_alphanumeric to_lowercase in
  ∃ r, r ∈ ds2 ∧ dw_id r = pp_id p ∧
    get_live (pp_id p) now ds2 =
      Ok (if bool_decide (dw_status r = Pending) && (sql_ts now <? sql_ts (pp_expires_at p))%Z then Some (in_seconds p) else None) ∧
    (∀ m' q, pp_id q = pp_id p →
       q ∈ list_live_for m' now ds2 ↔ m' = m ∧ get_live (pp_id p) now ds2 = Ok (Some q)) ∧
    shape (in_seconds p) = shape p ∧
    (∀ since, dw_status r ≠ Pending → dw_profile_id r = Some m → (sql_ts since ≤ sql_ts (pp_created_at p))%Z →
       {| pd_shape := shape p; pd_status := dw_status r; pd_decided_at := sql_ts (pp_created_at p) |} ∈ decisions_since shape m since ds2) ∧
    (get_live (pp_id p) now ds2 = Ok None → ∀ ds3 later, star drafts_step ds2 ds3 → (now ≤ later)%Z →
       get_live (pp_id p) later ds3 = Ok None).
Proof.
  intros Hok Hp Hlt Hsave Hstar m shape. destruct (saved_row p Hp ds ds1 ds2 Hok Hsave Hstar) as (Hok2 & r & Hr & Hid & Hev).
  pose proof (saved_get_live p Hp Hlt r now ds2 Hok2 Hr Hev) as Hlive. exists r. do 2 (split; [done|]). split; [exact Hlive|].
  split; [|split; [done|split]].
  - intros m' q Hq. rewrite list_live_for_in, Hlive. split.
    + intros (r' & Hr' & Hl' & Ho' & E). assert (r' = r) as ->.
      { eapply NoDup_fmap_inj_elem; [apply Hok2|done|done|]. by rewrite Hid, <-Hq, (row_id r' q) by (done || by eapply live_id). }
      rewrite (saved_live p r now Hev) in Hl'. rewrite Hl'. assert (dw_profile_id r = Some m) as Ho.
      { apply (pending_is_owned p r Hev). apply andb_prop in Hl' as [Hs _]. by apply bool_decide_eq_true in Hs. }
      rewrite (saved_reads p Hp Hlt r Hev Ho) in E. by simplify_eq.
    + intros [-> Hg]. rewrite <-(saved_live p r now Hev) in Hg. destruct (live now r) eqn:El; [|done]. injection Hg as <-.
      assert (dw_profile_id r = Some m) as Ho.
      { apply (pending_is_owned p r Hev). rewrite (saved_live p r now Hev) in El. apply andb_prop in El as [Hs _]. by apply bool_decide_eq_true in Hs. }
      exists r. repeat (split; [done|]). by apply saved_reads.
  - intros since Hs Ho Hsince. pose proof (ev_core _ _ Hev) as (_ & Hor & Hc & _)%core_id. simpl in Hor, Hc. rewrite <-Hc.
    apply (decisions_since_in shape m since ds2 r (in_seconds p)); [done| |done|by apply saved_reads].
    unfold made_since, is_proactive, of_member. rewrite Hor, Ho, Hc, sql_ts_idemp. rewrite !bool_decide_true by done. simpl. by apply Z.leb_le.
  - intros Hnone ds3 later Hstar3 Hle. destruct (steps_rows ds2 ds3 Hstar3 Hok2) as [Hok3 Hrows].
    destruct (Hrows r Hr) as (r3 & Hr3 & Hev3). assert (evolves (proposal_row p) r3) as Hev3' by (by transitivity r).
    rewrite (saved_get_live p Hp Hlt r3 later ds3 Hok3 Hr3 Hev3'). rewrite Hlive in Hnone.
    destruct (decide (dw_status r3 = Pending)) as [Hs3|Hs3]; [|by rewrite bool_decide_false].
    rewrite bool_decide_true by done. rewrite bool_decide_true in Hnone.
    2:{ destruct (decide (dw_status r = Pending)) as [|Hs]; [done|]. by destruct (ev_decided _ _ Hev3 Hs). }
    apply sql_ts_mono in Hle. simpl in Hnone |- *.
    destruct (Z.ltb_spec (sql_ts now) (sql_ts (pp_expires_at p))); [done|]. destruct (Z.ltb_spec (sql_ts later) (sql_ts (pp_expires_at p))); [lia|done].
Qed.

Lemma no_update_by_caller session device l a id s r : path (proposal_caller_with_source session device) l a →
  ¬ called (UpdateStatus id s) r l.
Proof. intros H Hc. by apply (only_calls_path of_caller _ _ _ _ _ _ (caller_only session device) H Hc). Qed.

Lemma caller_refusal session device l e : path (proposal_caller_with_source session device) l (Err e) → e = Forbidden None.
Proof.
  unfold proposal_caller_with_source. intros (rid & l1 & l2 & -> & _ & H2)%path_bind.
  destruct (audience_from_scope (rid_scope rid)); [by apply path_inv in H2 as [_ [=]]|].
  destruct (rid_scope rid); try by apply path_inv in H2 as [_ [= ->]].
  apply path_inv in H2 as (members & l3 & -> & H2). cbv beta in H2.
  destruct (sole_member _) as [only|]; [|by apply path_inv in H2 as [_ [= ->]]].
  apply path_inv in H2 as [_ H2]. destruct (for_member only); by simplify_eq.
Qed.

Lemma reads_no_update now now' id id' read s r :
  ¬ called (UpdateStatus id' s) r [existT _ (DecideUtcNow, now); existT _ (GetLive id now', read)].
Proof. unfold called. intros [Hc|Hc%elem_of_one]%elem_of_cons; simplify_eq. Qed.

(** What a decision read and checked before its update. *)
Definition checked (id : text) (request : DecideProposalRequest) (device : option text)
    (l : list {R : Type & (DecideCall R * R)%type}) (p : Proposal) (source : IdentificationSource) : Prop :=
  (∃ now, called (GetLive id now) (Ok (Some p)) l) ∧
  known_as (pa_profile_id (pp_audience p)) (dp_session_id request) device source l ∧
  source ≠ Voice ∧ trim (dp_session_id request) ≠ [].

(** The last call is the update, or there is none. *)
Lemma decide_path id device request l a : path (decide_proposal id device (Some request)) l a →
  (a ≠ Err Conflict ∧ (∀ s, a ≠ Ok s) ∧ ∀ id' s r, ¬ called (UpdateStatus id' s) r l) ∨
  ∃ l' p source r, let status := decided_status (dp_decision request) in
    l = l' ++ [existT _ (UpdateStatus id status, r)] ∧ a = (match r with Ok _ => Ok status | Err _ => Err Conflict end) ∧
    (∀ id' s r, ¬ called (UpdateStatus id' s) r l') ∧ checked id request device l' p source.
Proof.
  cbn [decide_proposal]. intros (caller & l1 & l2 & -> & H1 & H2)%path_bind.
  pose proof (λ id s r, no_update_by_caller _ _ _ _ id s r H1) as Hno1.
  destruct caller as [[[scope audience] source]|e].
  2:{ apply caller_refusal in H1 as ->. apply path_inv in H2 as [-> ->]. left. by rewrite app_nil_r. }
  pose proof (caller_path _ _ _ _ _ _ H1) as (m & -> & Hm).
  apply path_inv in H2 as (now & l3 & -> & H2). apply path_inv in H2 as (read & l4 & -> & H2). cbv beta in H2.
  set (reads := [existT _ (DecideUtcNow, now); existT _ (GetLive id now, read)] : list {R : Type & (DecideCall R * R)%type}).
  assert (∀ id' s r, ¬ called (UpdateStatus id' s) r (l1 ++ reads)) as Hno.
  { intros id' s r [?|Hc]%called_app; [by eapply Hno1|]. by eapply reads_no_update. }
  assert (∀ l4, l1 ++ existT _ (DecideUtcNow, now) :: existT _ (GetLive id now, read) :: l4 = (l1 ++ reads) ++ l4) as ->.
  { intros l. by rewrite <-app_assoc. }
  destruct read as [[p|]|e]; try (apply path_inv in H2 as [-> ->]; left; rewrite app_nil_r; done).
  destruct (is_draft_decision_permitted _ _ _ _ _) as [[]|reason] eqn:Ep; [|apply path_inv in H2 as [-> ->]; left; rewrite app_nil_r; done].
  apply path_inv in H2 as (r & l5 & -> & H2). apply path_inv in H2 as [-> ->]. right. exists (l1 ++ reads), p, source, r.
  do 3 (split; [done|]). apply permitted_owner in Ep as (Hv & Ht & [[= ->]|[=]]). split; [|split; [|done]].
  - exists now. apply called_app. right. right. by left.
  - eapply known_as_mono; [|exact Hm]. intros e He. apply elem_of_app. by left.
Qed.

Definition update_of (e : {R : Type & (DecideCall R * R)%type}) : option (text * DraftStatus * result unit DraftsError) :=
  match e with
  | existT R (c, r) =>
      match c in DecideCall R return R → option (text * DraftStatus * result unit DraftsError) with
      | UpdateStatus id s => λ r, Some (id, s, r)
      | _ => λ _, None
      end r
  end.
Lemma update_event_inj id s r id' s' r' :
  called (UpdateStatus id s) r [existT _ (UpdateStatus id' s', r')] → id = id' ∧ s = s' ∧ r = r'.
Proof. unfold called. intros H%elem_of_one%(f_equal update_of). by injection H. Qed.

(** C26: only the member a proposal is addressed to decides it. In every way a request can go, the
    status is written at most once, as the last call, and only after the live proposal was read and
    the caller was known to be its member: by the paired device the request came from, by an
    attribution of its session that is not a voice's, or as the only member there is. The answer
    says what became of the write; a request that wrote nothing is answered with a refusal. *)
Theorem only_the_addressed_member_decides id device body l a : path (decide_proposal id device body) l a →
  (∀ id' status r, called (UpdateStatus id' status) r l →
     id' = id ∧ a = (match r with Ok _ => Ok status | Err _ => Err Conflict end) ∧
     (∃ l', l = l' ++ [existT _ (UpdateStatus id status, r)] ∧ ∀ id' s r, ¬ called (UpdateStatus id' s) r l') ∧
     ∃ request p source, body = Some request ∧ status = decided_status (dp_decision request) ∧ checked id request device l p source) ∧
  ((∀ id' status r, ¬ called (UpdateStatus id' status) r l) → ∃ e, a = Err e ∧ e ≠ Conflict).
Proof.
  destruct body as [request|].
  2:{ intros [-> ->]%path_inv. split; [|by exists BadRequest]. by intros id' status r []%not_elem_of_nil. }
  intros [(Hc & Ho & Hno)|(l' & p & source & r & -> & -> & Hno & Hchecked)]%decide_path.
  - split; [by intros id' s r []%Hno|]. intros _. destruct a as [s|e]; [by destruct (Ho s)|]. exists e. split; [done|congruence].
  - split.
    + intros id' status r' [[]%Hno|Hc]%called_app. apply update_event_inj in Hc as (-> & -> & ->).
      split; [done|]. split; [done|]. split; [by exists l'|]. exists request, p, source. do 2 (split; [done|]).
      destruct Hchecked as ((now & Hg) & Hk & Hv). split; [exists now; apply called_app; by left|]. split; [|done].
      eapply known_as_mono; [|exact Hk]. intros e He. apply elem_of_app. by left.
    + intros H. exfalso. apply (H id (decided_status (dp_decision request)) r). apply called_app. right. by left.
Qed.

Lemma drafts_reachable_ok ds : star drafts_step [] ds → table_ok ds.
Proof. intros H. apply (steps_rows [] ds H). split; [constructor|by split]. Qed.

Lemma no_veto ds where_ of_status set now : (∀ d, d ∈ ds → where_ d = true → veto now of_status set d = None) →
  update_where where_ of_status set now ds = (Ok (length (List.filter where_ ds)), (λ d, if where_ d then set d else d) <$> ds).
Proof.
  intros H. destruct (update_where _ _ _ _ _) as [r ds'] eqn:E. pose proof E as E'.
  apply update_where_cases in E as [(e & -> & ->)|(-> & -> & _)]; [|done]. exfalso. revert E'. unfold update_where.
  destruct (omap _ _) as [|e' es] eqn:Eo; [done|]. intros _.
  assert (e' ∈ omap (veto now of_status set) (List.filter where_ ds)) as (d & [Hd Hw]%elem_of_filter_bool & Hv)%list_elem_of_omap
    by (rewrite Eo; by left). by rewrite (H d Hd Hw) in Hv.
Qed.

Lemma settled_no_veto ds s d now : table_ok ds → d ∈ ds → s ≠ Approved → veto now true (with_status s) d = None.
Proof.
  intros (_ & Hv & _) Hd Hs. unfold veto. rewrite (core_veto d (with_status s d)) by by destruct d.
  rewrite Forall_forall in Hv. rewrite (Hv d Hd). unfold approval_veto. by rewrite bool_decide_false.
Qed.

Lemma delete_profile_ok m now ds : table_ok ds → delete_profile m now ds =
  (Ok tt, (λ d, if bool_decide (dw_profile_id d = Some m) then
     released (if bool_decide (dw_status d = Pending) then with_status DraftExpired d else d) else d) <$> ds).
Proof.
  intros Hok. unfold delete_profile. rewrite no_veto by (intros d Hd _; by apply (settled_no_veto ds)).
  rewrite no_veto.
  - rewrite <-list_fmap_compose. f_equal. apply list_fmap_ext. intros _ d _. cbv beta delta [compose] iota.
    destruct (bool_decide (dw_profile_id d = Some m)) eqn:E; cbn [andb]; [|by rewrite E].
    destruct (bool_decide (dw_status d = Pending)); [|by rewrite E]. cbn [with_status dw_profile_id]. by rewrite E.
  - intros d1 (d & -> & Hd)%list_elem_of_fmap _. unfold veto. destruct Hok as (_ & Hv & _). rewrite Forall_forall in Hv.
    rewrite (core_veto d); [by rewrite (Hv d Hd)|]. by destruct d, (_ && _).
Qed.

Lemma live_pending now r : live now r = true → dw_status r = Pending.
Proof. unfold live. by intros [[_ H%bool_decide_eq_true]%andb_prop _]%andb_prop. Qed.

Lemma update_status_found r s now ds : r ∈ ds →
  (∃ ds', update_status (dw_id r) s now ds = (Ok tt, ds')) ↔
  ∀ d, d ∈ ds → dw_id d = dw_id r → veto now true (with_status s) d = None.
Proof.
  intros Hr. unfold update_status. split.
  - intros (ds' & H) d Hd Hid. destruct (update_where _ _ _ _ _) as [u ds1] eqn:E.
    apply update_where_cases in E as [(e & -> & _)|(_ & _ & Hv)]; [done|]. apply Hv; [done|]. by apply bool_decide_eq_true.
  - intros Hv. rewrite no_veto by (intros d Hd Hw%bool_decide_eq_true; by apply Hv).
    destruct (length _) eqn:El; [|by eexists]. apply nil_length_inv in El.
    assert (r ∈ List.filter (λ d, bool_decide (dw_id d = dw_id r)) ds) as Hin
      by (apply elem_of_filter_bool; split; [done|by apply bool_decide_eq_true]).
    rewrite El in Hin. by apply not_elem_of_nil in Hin.
Qed.

(** A suggestion can always be withdrawn, and is approved only in time. On a table that came about by
    any run of its operations, taking a member off the household never fails, and leaves nothing of
    theirs and nothing live that was; a rejection is never refused, nor the sweep, after which no row
    past its expiry is pending; and an approval is written exactly when the row has not expired by
    the database's own clock. *)
Theorem suggestions_can_be_withdrawn ds now : star drafts_step [] ds →
  (∀ m, ∃ ds', delete_profile m now ds = (Ok tt, ds') ∧ (∀ r, r ∈ ds' → dw_profile_id r ≠ Some m) ∧
     ∀ r r', r ∈ ds → dw_profile_id r = Some m → r' ∈ ds' → dw_id r' = dw_id r → ∀ later, live later r' = false) ∧
  (∀ r, r ∈ ds → ∃ ds', update_status (dw_id r) Rejected now ds = (Ok tt, ds')) ∧
  (∀ at_, ∃ n ds', expire_due at_ now ds = (Ok n, ds') ∧
     ∀ r, r ∈ ds' → is_proactive r = true → dw_status r = Pending → live at_ r = true) ∧
  (∀ r, r ∈ ds → (∃ ds', update_status (dw_id r) Approved now ds = (Ok tt, ds')) ↔
     ∀ e, dw_expires_at r = Some e → (sql_ts now < sql_ts e)%Z).
Proof.
  intros Hok%drafts_reachable_ok. split; [|split; [|split]].
  - intros m. rewrite delete_profile_ok by done. eexists. split; [done|]. split.
    + intros r (d & -> & Hd)%list_elem_of_fmap. case_bool_decide; [done|]. done.
    + intros r r' Hr Hm (d & -> & Hd)%list_elem_of_fmap Hid later. assert (d = r) as ->.
      { eapply NoDup_fmap_inj_elem; [apply Hok|done|done|]. rewrite <-Hid. by repeat case_bool_decide. }
      apply not_true_is_false. intros Hl%live_pending. rewrite bool_decide_true in Hl by done. cbn [released dw_status] in Hl.
      destruct (decide (dw_status r = Pending)); [by rewrite bool_decide_true in Hl|by rewrite bool_decide_false in Hl].
  - intros r Hr. apply update_status_found; [done|]. intros d Hd _. by apply (settled_no_veto ds).
  - intros at_. unfold expire_due. rewrite no_veto by (intros d Hd _; by apply (settled_no_veto ds)). do 2 eexists. split; [done|].
    intros r (d & -> & Hd)%list_elem_of_fmap. cbv beta. destruct (_ && _) eqn:E; [done|]. intros Hp Hs. unfold live.
    rewrite Hp, bool_decide_true in E |- * by done. simpl in E |- *. destruct (dw_expires_at d) as [e|]; [|done].
    apply Z.leb_gt in E. by apply Z.ltb_lt.
  - intros r Hr. rewrite update_status_found by done. unfold veto.
    assert (∀ d, d ∈ ds → row_veto (with_status Approved d) = None) as Hv.
    { intros d Hd. destruct Hok as (_ & Hv & _). rewrite Forall_forall in Hv. rewrite (core_veto d); [by apply Hv|by destruct d]. }
    split.
    + intros H e He. specialize (H r Hr eq_refl). rewrite (Hv r Hr) in H. unfold approval_veto in H. rewrite bool_decide_true, He in H by done.
      simpl in H. destruct (Z.leb_spec (sql_ts e) (sql_ts now)); [done|lia].
    + intros H d Hd Hid. assert (d = r) as -> by (eapply NoDup_fmap_inj_elem; [apply Hok|done..]). rewrite (Hv r Hr).
      unfold approval_veto. destruct (dw_expires_at r) as [e|]; [|by rewrite andb_false_r].
      specialize (H e eq_refl). destruct (Z.leb_spec (sql_ts e) (sql_ts now)); [lia|by rewrite andb_false_r].
Qed.

(** ** Runs *)

Record DecideWorld := { rw_drafts : Drafts; rw_now : Z; rw_outside : ∀ R, DecideCall R → R }.
Definition with_drafts (ds : Drafts) (w : DecideWorld) : DecideWorld :=
  {| rw_drafts := ds; rw_now := rw_now w; rw_outside := rw_outside w |}.
Definition decide_handler : Handler DecideCall DecideWorld := λ R c w,
  match c in DecideCall R return R * DecideWorld with
  | GetLive id now => (get_live id now (rw_drafts w), w)
  | UpdateStatus id status => let '(r, ds) := update_status id status (rw_now w) (rw_drafts w) in (r, with_drafts ds w)
  | DecideUtcNow => (rw_now w, w)
  | c => (rw_outside w _ c, w)
  end.

Definition noon : Z := 86400 * 365 * NS.
Definition the_door : Proposal :=
  {| pp_id := lit "prop-1";
     pp_trigger := {| br_kind := lit "camera"; br_source_id := Some (lit "front-door"); br_signal := None; br_observed_at := noon |};
     pp_rationale := lit "a parcel has been at the door for an hour";
     pp_action := AgentPrompt (lit "Remind me about the parcel."); pp_audience := {| pa_profile_id := lit "ada" |};
     pp_confidence := Some (3 # 4)%Q; pp_created_at := noon + 500000000; pp_expires_at := noon + from_hours 12 + 500000000 |}.
Lemma the_door_constructed : constructed the_door.
Proof.
  split; [|split; [by exists (lit "ada")|by exists (lit " prop-1"), (pp_rationale the_door)]].
  by exists (lit "camera "), (Some (lit "front-door")), (Some (lit " ")), noon.
Qed.
Definition one_proposal : Drafts := (save_proposal the_door []).2.

(** Two members, Ada's phone paired. *)
Definition home_world (ds : Drafts) : DecideWorld :=
  {| rw_drafts := ds; rw_now := noon + from_hours 1;
     rw_outside := λ R c,
       match c in DecideCall R return R with
       | DeviceProfile d => Ok (if bool_decide (d = lit "phone-ada") then Some (lit "ada") else Some (lit "grace"))
       | ClaimSessionIdentity _ _ => Ok tt
       | GetSessionIdentity _ => Ok SessionIdentity_unknown
       | ListProfiles => Ok [lit "ada"; lit "grace"]
       | GetLive _ _ => Ok None
       | UpdateStatus _ _ => Ok tt
       | DecideUtcNow => 0%Z
       end |}.
Definition her_request (d : RouteDecision) : option DecideProposalRequest := Some {| dp_session_id := lit "s1"; dp_decision := d |}.
Definition status_of (id : text) (ds : Drafts) : option DraftStatus := dw_status <$> find_first (λ r, bool_decide (dw_id r = id)) ds.

(** The door's proposal, read an hour later; rejected, it is remembered by its shape. *)
Lemma proposals_come_back_until_they_are_gone_witness :
  let ds := (update_status (lit "prop-1") Rejected (noon + from_hours 1) one_proposal).2 in
  get_live (lit "prop-1") (noon + from_hours 1) one_proposal = Ok (Some (in_seconds the_door)) ∧
  get_live (lit "prop-1") (noon + from_hours 1) ds = Ok None ∧
  get_live (lit "prop-1") (noon + from_hours 2) ds = Ok None.
Proof.
  intros ds. assert (table_ok []) as Hok by (split; [constructor|by split]).
  destruct (proposals_come_back_until_they_are_gone (λ _, true) id the_door [] one_proposal ds (noon + from_hours 1)
              Hok the_door_constructed eq_refl eq_refl) as (r & _ & _ & _ & _ & _ & _ & Hgone).
  { apply star_one. by eapply (ds_decide (lit "prop-1") Reject (noon + from_hours 1)). }
  split; [by vm_compute|]. split; [by vm_compute|].
  apply (Hgone eq_refl ds (noon + from_hours 2)%Z); [apply star_refl|]. apply (bool_decide_unpack _). by vm_compute.
Defined.

(** Ada's phone rejects it; Grace's is refused. *)
Lemma only_the_addressed_member_decides_witness :
  (run decide_handler (decide_proposal (lit "prop-1") (Some (lit "phone-grace")) (her_request Reject)) (home_world one_proposal)).1 =
    Err (Forbidden (Some ForeignDraft)) ∧
  ∃ l, path (decide_proposal (lit "prop-1") (Some (lit "phone-ada")) (her_request Reject)) l (Ok Rejected) ∧
    ∃ request p source, her_request Reject = Some request ∧ checked (lit "prop-1") request (Some (lit "phone-ada")) l p source.
Proof.
  split; [by vm_compute|].
  pose proof (trace_path decide_handler (decide_proposal (lit "prop-1") (Some (lit "phone-ada")) (her_request Reject)) (home_world one_proposal)) as H.
  set (tr := trace _ _ _) in H. assert (tr.2 = Ok Rejected) as E by by vm_compute. rewrite E in H. exists tr.1. split; [exact H|].
  destruct (only_the_addressed_member_decides _ _ _ _ _ H) as [Hw _].
  destruct (Hw (lit "prop-1") Rejected (Ok tt)) as (_ & _ & _ & request & p & source & Hr & _ & Hc).
  { unfold called. vm_compute. do 6 right. left. }
  by exists request, p, source.
Defined.

Lemma suggestions_can_be_withdrawn_witness :
  star drafts_step [] one_proposal ∧ ∃ ds, delete_profile (lit "ada") noon one_proposal = (Ok tt, ds) ∧ status_of (lit "prop-1") ds = Some DraftExpired.
Proof.
  assert (star drafts_step [] one_proposal) as H by (apply star_one; by eapply ds_save; [apply the_door_constructed|]).
  split; [exact H|]. destruct (suggestions_can_be_withdrawn one_proposal noon H) as [Hd _].
  destruct (Hd (lit "ada")) as (ds & E & _). exists ds. split; [exact E|]. revert E. vm_compute. by intros [= <-].
Defined.

(** The update does not ask what the status is. Ada approves on one device, and rejects on another while
    the first request is between its reading and its write: both are told they did, and the
    rejection is gone. *)
Example a_rejection_is_overwritten :
  let approving := calls_made decide_handler 6 (decide_proposal (lit "prop-1") (Some (lit "phone-ada")) (her_request Approve), home_world one_proposal) in
  let '(rejected, w) := run decide_handler (decide_proposal (lit "prop-1") (Some (lit "phone-ada")) (her_request Reject)) approving.2 in
  let '(approved, w') := run decide_handler approving.1 w in
  rejected = Ok Rejected ∧ status_of (lit "prop-1") (rw_drafts w) = Some Rejected ∧
  approved = Ok Approved ∧ status_of (lit "prop-1") (rw_drafts w') = Some Approved.
Proof. vm_compute. repeat split. Qed.

(** Nor whose it still is: a member taken off the household in that moment has their expired
    suggestion approved. *)
Example a_removed_members_suggestion_is_approved :
  let approving := calls_made decide_handler 6 (decide_proposal (lit "prop-1") (Some (lit "phone-ada")) (her_request Approve), home_world one_proposal) in
  let w := with_drafts (delete_profile (lit "ada") noon (rw_drafts approving.2)).2 approving.2 in
  let '(approved, w') := run decide_handler approving.1 w in
  status_of (lit "prop-1") (rw_drafts w) = Some DraftExpired ∧
  approved = Ok Approved ∧ status_of (lit "prop-1") (rw_drafts w') = Some Approved.
Proof. vm_compute. repeat split. Qed.
