(* ===== verification/Suggestions.v ===== *)
(** * Suggestions: the two loops that put a suggestion before a member

    The tick of the proactive reviewer (pond-server/src/main.rs: [run_proactive_reviewer]) and the
    promotion of stored reminders (user_data/services/reminder_proposal.rs), which the extraction
    loop runs after its pass; with the reminders themselves (user_data/domain/reminder.rs,
    pond-infra/src/sqlite_reminder.rs, migration 0057). Both write the table of Drafts, and share the
    member's budget of a day. A loop's round is a program of its calls. The lane, the helper, the
    sessions' store and the phones answer from outside; the watcher that cancels a review, and the
    words of the log, are left out. *)
From S2P Require Import Prelude Prog Text Scope Lane Activity HandBack Delegation Proposal Drafts.
From Stdlib Require Import NArith ZArith QArith Lia.
Open Scope N_scope.

Definition DAY : Z := from_hours 24.

(** ** Reminders *)

Inductive ReminderDisposition : Type := ReminderPending | Proposed | Dismissed | ReminderExpired.
#[export] Instance reminder_disposition_eq_dec : EqDecision ReminderDisposition.
Proof. solve_decision. Defined.

Record ReminderCandidate := {
  rc_about : text; rc_when_said : text; rc_session_id : text; rc_window_id : text; rc_subject : text;
  rc_profile_id : option text; rc_said_at : Z }.
Record CapturedReminder := {
  cr_id : text; cr_said : ReminderCandidate; cr_captured_at : Z; cr_disposition : ReminderDisposition }.
Definition from_candidate (candidate : ReminderCandidate) (id : text) (captured_at : Z) : CapturedReminder :=
  {| cr_id := id; cr_said := candidate; cr_captured_at := captured_at; cr_disposition := ReminderPending |}.

(** A row: the [about_key] beside what was captured, and when it was disposed of. *)
Record ReminderRow := { rr_reminder : CapturedReminder; rr_about_key : text; rr_decided_at : option Z }.
Definition disposed (d : ReminderDisposition) (at_ : Z) (r : ReminderRow) : ReminderRow :=
  {| rr_reminder := {| cr_id := cr_id (rr_reminder r); cr_said := cr_said (rr_reminder r);
                       cr_captured_at := cr_captured_at (rr_reminder r); cr_disposition := d |};
     rr_about_key := rr_about_key r; rr_decided_at := Some at_ |}.
Definition disowned (r : ReminderRow) : ReminderRow :=
  let said := cr_said (rr_reminder r) in
  {| rr_reminder := {| cr_id := cr_id (rr_reminder r);
                       cr_said := {| rc_about := rc_about said; rc_when_said := rc_when_said said;
                                     rc_session_id := rc_session_id said; rc_window_id := rc_window_id said;
                                     rc_subject := rc_subject said; rc_profile_id := None; rc_said_at := rc_said_at said |};
                       cr_captured_at := cr_captured_at (rr_reminder r); cr_disposition := cr_disposition (rr_reminder r) |};
     rr_about_key := rr_about_key r; rr_decided_at := rr_decided_at r |}.

Section words.
(** [char::is_alphanumeric], [char::to_lowercase] and [str::to_lowercase], which are Unicode's. *)
Context (is_alphanumeric : N → bool) (char_to_lowercase : N → text) (to_lowercase : text → text).

Definition reminder_dedup_key (about : text) : text :=
  join (lit " ") (List.filter (λ w, negb (is_empty w))
    ((λ word, concat (char_to_lowercase <$> List.filter is_alphanumeric word)) <$> split_whitespace about)).
Definition dedup_key (r : CapturedReminder) : text := reminder_dedup_key (rc_about (cr_said r)).

(** [ON CONFLICT (window_id, about_key) DO NOTHING]; the [CHECK]s of the table and its key. *)
Definition capture (r : CapturedReminder) (rows : list ReminderRow) : result bool text * list ReminderRow :=
  let said := cr_said r in let key := dedup_key r in
  if sql_blank (rc_about said) || sql_blank (rc_when_said said) || sql_blank key then (Err (lit "CHECK"), rows)
  else if existsb (λ row, bool_decide (rc_window_id (cr_said (rr_reminder row)) = rc_window_id said) &&
                          bool_decide (rr_about_key row = key)) rows then (Ok false, rows)
  else if existsb (λ row, bool_decide (cr_id (rr_reminder row) = cr_id r)) rows then (Err (lit "UNIQUE"), rows)
  else (Ok true, rows ++ [{| rr_reminder :=
      {| cr_id := cr_id r;
         cr_said := {| rc_about := rc_about said; rc_when_said := rc_when_said said; rc_session_id := rc_session_id said;
                       rc_window_id := rc_window_id said; rc_subject := rc_subject said;
                       rc_profile_id := rc_profile_id said; rc_said_at := sql_ts (rc_said_at said) |};
         cr_captured_at := sql_ts (cr_captured_at r); cr_disposition := cr_disposition r |};
      rr_about_key := key; rr_decided_at := None |}]).

(** [scope_sql] *)
Definition reminder_in_scope (scope : ProfileScope) (r : ReminderRow) : bool :=
  match scope with
  | Owner id => match rc_profile_id (cr_said (rr_reminder r)) with Some p => bool_decide (p = id) | None => true end
  | Household => true
  | Guest => false
  end.
Definition pending_reminder (r : ReminderRow) : bool := bool_decide (cr_disposition (rr_reminder r) = ReminderPending).
Definition list_pending (scope : ProfileScope) (limit : nat) (rows : list ReminderRow) : list CapturedReminder :=
  rr_reminder <$> take limit
    (sort_with (λ a b, (rc_said_at (cr_said (rr_reminder b)) <=? rc_said_at (cr_said (rr_reminder a)))%Z)
      (List.filter (λ r, pending_reminder r && reminder_in_scope scope r) rows)).
Definition set_disposition (id : text) (scope : ProfileScope) (d : ReminderDisposition) (at_ : Z) (rows : list ReminderRow) :
    bool * list ReminderRow :=
  let hit r := bool_decide (cr_id (rr_reminder r) = id) && pending_reminder r && reminder_in_scope scope r in
  (existsb hit rows, (λ r, if hit r then disposed d (sql_ts at_) r else r) <$> rows).
(** The trigger of 0057. *)
Definition reminders_of_a_deleted (profile_id : text) (sqlite_now : Z) (rows : list ReminderRow) : list ReminderRow :=
  (λ r, if bool_decide (rc_profile_id (cr_said (rr_reminder r)) = Some profile_id) then
          disowned (if pending_reminder r then disposed ReminderExpired (sql_ts sqlite_now) r else r) else r) <$> rows.

(** ** From a reminder to a proposal *)

Definition REMINDER_TRIGGER_KIND : text := lit "reminder".
(** The [f32] nearest to 0.9. *)
Definition REMINDER_PROPOSAL_CONFIDENCE : Q := 15099494 # 16777216.

Inductive ReminderProposalSkip : Type :=
| Unaddressable (subject : text) | SkipCapReached (made cap : nat) | Malformed (reason : ProposalError).

Definition words_quoted (t : text) : text := [34] ++ t ++ [34].
Definition proposal_from_reminder (r : CapturedReminder) (id : text) (now : Z) : result Proposal ReminderProposalSkip :=
  let said := cr_said r in
  match rc_profile_id said with
  | None => Err (Unaddressable (rc_subject said))
  | Some profile_id =>
      match for_member profile_id with
      | Err e => Err (Malformed e)
      | Ok audience =>
          match bus_event_ref REMINDER_TRIGGER_KIND (Some (rc_session_id said)) (Some (dedup_key r)) (rc_said_at said) with
          | Err e => Err (Malformed e)
          | Ok trigger =>
              let rationale := rc_subject said ++ lit " mentioned " ++ rc_about said ++ lit " -- " ++
                words_quoted (rc_when_said said) ++ lit " -- in conversation. A one-off date is never kept as a " ++
                lit "memory, because read back months later it would be false, so it is held here instead. " ++
                lit "The timing is quoted as it was said; the pond has not worked out a date." in
              let prompt := lit "Remind " ++ rc_subject said ++ lit " about " ++ rc_about said ++ lit " -- they said " ++
                words_quoted (rc_when_said said) ++ lit "." in
              match expiring_after id trigger rationale (AgentPrompt prompt) audience (Some REMINDER_PROPOSAL_CONFIDENCE)
                      now PROPOSAL_TTL with
              | Ok p => Ok p
              | Err e => Err (Malformed e)
              end
          end
      end
  end.
Definition reminder_session_id (p : Proposal) : option text :=
  if bool_decide (br_kind (pp_trigger p) = REMINDER_TRIGGER_KIND) then br_source_id (pp_trigger p) else None.

(** ** The calls *)

Record ReviewSettings := {
  rs_proactive_review_enabled : bool; rs_ext_orchestrator_enabled : bool; rs_consolidation_interval_hours : N }.

Inductive SuggestCall : Type → Type :=
| ListPendingReminders (limit : nat) : SuggestCall (result (list CapturedReminder) text)
| SetDisposition (id : text) (d : ReminderDisposition) (at_ : Z) : SuggestCall (result bool text)
| NewId : SuggestCall text
| SuggestUtcNow : SuggestCall Z
| CountMadeSince (profile_id : text) (since : Z) : SuggestCall (result nat text)
| SaveProposal (p : Proposal) : SuggestCall (result unit text)
| ExpireDue (now : Z) : SuggestCall (result nat text)
| DecisionsSince (profile_id : text) (since : Z) : SuggestCall (result (list ProposalDecision) text)
| GetReviewSettings : SuggestCall (result ReviewSettings text)
| ListReviewSessions : SuggestCall (result (list Session) text)
| ListMembers : SuggestCall (result (list text) text)
| LastActivity : SuggestCall (Z * N)
| AcquireLane (enabled waives saw_activity : bool) (interval_floor idle_for : N) : SuggestCall bool
| DropSlot : SuggestCall unit
| DrainObserved : SuggestCall (list BusEventRef)
| PublishAuthority (authority : DelegationAuthority) : SuggestCall unit
| SpawnHelper (spec : TaskSpec) : SuggestCall (result TaskRun text)
| DropLease (session_id : text) : SuggestCall unit
| NewIds : SuggestCall (nat → text)
| TellMember (profile_id : text) (p : Proposal) : SuggestCall unit.

(** ** The promotion *)

Record PromotionReport := {
  pm_considered : nat; pm_proposed : nat; pm_unaddressable : nat; pm_capped : nat; pm_failed : nat; pm_made : list Proposal }.
Definition with_skip (skip : ReminderProposalSkip) (r : PromotionReport) : PromotionReport :=
  {| pm_considered := pm_considered r; pm_proposed := pm_proposed r;
     pm_unaddressable := match skip with Unaddressable _ => S (pm_unaddressable r) | _ => pm_unaddressable r end;
     pm_capped := match skip with SkipCapReached _ _ => S (pm_capped r) | _ => pm_capped r end;
     pm_failed := match skip with Malformed _ => S (pm_failed r) | _ => pm_failed r end; pm_made := pm_made r |}.
Definition with_failure (r : PromotionReport) : PromotionReport :=
  {| pm_considered := pm_considered r; pm_proposed := pm_proposed r; pm_unaddressable := pm_unaddressable r;
     pm_capped := pm_capped r; pm_failed := S (pm_failed r); pm_made := pm_made r |}.
Definition with_proposal (p : Proposal) (r : PromotionReport) : PromotionReport :=
  {| pm_considered := pm_considered r; pm_proposed := S (pm_proposed r); pm_unaddressable := pm_unaddressable r;
     pm_capped := pm_capped r; pm_failed := pm_failed r; pm_made := pm_made r ++ [p] |}.

Fixpoint promote_loop (now : Z) (made_today : gmap text nat) (pending : list CapturedReminder) (report : PromotionReport) :
    Prog SuggestCall PromotionReport :=
  match pending with
  | [] => Ret report
  | reminder :: pending =>
      let! id := NewId in
      match proposal_from_reminder reminder id now with
      | Err skip => promote_loop now made_today pending (with_skip skip report)
      | Ok proposal =>
          let profile_id := pa_profile_id (pp_audience proposal) in
          let made_already made_today made :=
            if (MAX_PROPOSALS_PER_DAY <=? made)%nat
            then promote_loop now made_today pending (with_skip (SkipCapReached made MAX_PROPOSALS_PER_DAY) report) else
            let! saved := SaveProposal proposal in
            match saved with
            | Err _ => promote_loop now made_today pending (with_failure report)
            | Ok _ =>
                let made_today := <[profile_id := S made]> made_today in
                let! moved := SetDisposition (cr_id reminder) Proposed now in
                match moved with
                | Ok true => promote_loop now made_today pending (with_proposal proposal report)
                | Ok false | Err _ => promote_loop now made_today pending (with_failure report)
                end
            end in
          match made_today !! profile_id with
          | Some made => made_already made_today made
          | None =>
              let! made := CountMadeSince profile_id (now - DAY) in
              match made with
              | Ok made => made_already (<[profile_id := made]> made_today) made
              | Err _ => promote_loop now made_today pending (with_failure report)
              end
          end
      end
  end.

Definition promote_pending_reminders (limit : nat) (now : Z) : Prog SuggestCall (result PromotionReport text) :=
  let! pending := ListPendingReminders limit in
  match pending with
  | Err e => Ret (Err e)
  | Ok pending =>
      prog_bind (promote_loop now ∅ pending {| pm_considered := length pending; pm_proposed := O; pm_unaddressable := O;
        pm_capped := O; pm_failed := O; pm_made := [] |}) (λ report, Ret (Ok report))
  end.
Definition REMINDER_PROMOTION_LIMIT : nat := 50.
Definition promotion_round : Prog SuggestCall (result PromotionReport text) :=
  let! now := SuggestUtcNow in promote_pending_reminders REMINDER_PROMOTION_LIMIT now.

(** ** The reviewer *)

Context (to_rfc3339 : Z → text).
Context {Value : Type} (elements_of : text → option (list Value)) (impulse_of : Value → result ReviewerImpulse text).

Fixpoint save_each (audience : ProposalAudience) (ps : list Proposal) : Prog SuggestCall unit :=
  match ps with
  | [] => Ret tt
  | p :: ps =>
      let! saved := SaveProposal p in
      match saved with
      | Err _ => save_each audience ps
      | Ok _ => do! TellMember (pa_profile_id audience) p in save_each audience ps
      end
  end.

(** From the slot on: the run and what becomes of its answer. *)
Definition review_run (role : AgentRole) (audience : ProposalAudience) (now : Z) (proposals_today : nat) : Prog SuggestCall unit :=
  let! decisions := DecisionsSince (pa_profile_id audience) (now - SUPPRESSION_WINDOW) in
  match decisions with
  | Err _ => do! DropSlot in Ret tt
  | Ok decisions =>
      let ledger := from_decisions decisions now in
      let! drained := DrainObserved in
      let events := brief_events is_alphanumeric to_lowercase audience drained in
      let! run_id := NewId in
      let session_id := review_session_id run_id in
      let brief := review_brief is_alphanumeric to_lowercase to_rfc3339 now events ledger in
      let! task_id := NewId in
      match plan_review task_id role audience session_id brief (JObject []) with
      | Err _ => do! DropSlot in Ret tt
      | Ok spec =>
          do! PublishAuthority (review_authority audience session_id) in
          let! run := SpawnHelper spec in
          do! DropLease session_id in
          do! DropSlot in
          match run with
          | Err _ => Ret tt
          | Ok run =>
              let! at_ := SuggestUtcNow in
              let! ids := NewIds in
              save_each audience (ry_proposals
                (interpret_answer is_alphanumeric to_lowercase elements_of impulse_of ids audience at_ ledger run proposals_today))
          end
      end
  end.

(** One round: [waives] when it was asked for by hand. *)
Definition review_round (role : AgentRole) (started_at started_at_utc : Z) (waives : bool) : Prog SuggestCall unit :=
  let! settings := GetReviewSettings in
  match settings with Err _ => Ret tt | Ok settings =>
  let! sessions := ListReviewSessions in
  match sessions with Err _ => Ret tt | Ok sessions =>
  let! now := SuggestUtcNow in
  do! ExpireDue now in
  let! members := ListMembers in
  let audience := audience_for_review sessions now (match members with Ok ms => ms | Err _ => [] end) in
  let db_activity := ha_newest_activity (human_activity sessions) in
  let! activity := LastActivity in
  prog_bind (match audience with
             | Some a =>
                 let! made := CountMadeSince (pa_profile_id a) (now - DAY) in
                 Ret (match made with Ok n => n | Err _ => MAX_PROPOSALS_PER_DAY end)
             | None => Ret O
             end) (λ proposals_today,
  let refusal := reviewer_refusal false proposals_today in
  let! slot := AcquireLane
    (rs_proactive_review_enabled settings && rs_ext_orchestrator_enabled settings &&
     bool_decide (is_Some audience) && negb (bool_decide (is_Some refusal)))
    waives (saw_activity_since_start started_at activity.1 started_at_utc db_activity)
    (interval_floor_from_hours (rs_consolidation_interval_hours settings))
    (combined_idle_for activity.2 db_activity now) in
  if negb slot then Ret tt else
  match audience with
  | None => do! DropSlot in Ret tt
  | Some audience => review_run role audience now proposals_today
  end)
  end end.
End words.

(** ** The pond around them *)

(** [sw_ids]: the ids that will be drawn. *)
Record SuggestWorld := {
  sw_drafts : Drafts; sw_reminders : list ReminderRow; sw_now : Z; sw_down : option text; sw_ids : list text;
  sw_outside : ∀ R, SuggestCall R → R }.
Definition set_drafts (ds : Drafts) (w : SuggestWorld) : SuggestWorld :=
  {| sw_drafts := ds; sw_reminders := sw_reminders w; sw_now := sw_now w; sw_down := sw_down w; sw_ids := sw_ids w;
     sw_outside := sw_outside w |}.
Definition set_reminders (rows : list ReminderRow) (w : SuggestWorld) : SuggestWorld :=
  {| sw_drafts := sw_drafts w; sw_reminders := rows; sw_now := sw_now w; sw_down := sw_down w; sw_ids := sw_ids w;
     sw_outside := sw_outside w |}.
Definition id_drawn (w : SuggestWorld) : SuggestWorld :=
  {| sw_drafts := sw_drafts w; sw_reminders := sw_reminders w; sw_now := sw_now w; sw_down := sw_down w;
     sw_ids := tail (sw_ids w); sw_outside := sw_outside w |}.

Definition db_err {A} (r : result A DraftsError) : result A text := match r with Ok a => Ok a | Err _ => Err (lit "database error") end.

Section handler.
Context (shape : Proposal → ProposalShape).
(** The database may be down for a while: a statement then fails and changes nothing. *)
Definition suggest_handler : Handler SuggestCall SuggestWorld := λ R c w,
  match c in SuggestCall R return R * SuggestWorld with
  | ListPendingReminders limit =>
      (match sw_down w with Some e => Err e | None => Ok (list_pending Household limit (sw_reminders w)) end, w)
  | SetDisposition id d at_ =>
      match sw_down w with
      | Some e => (Err e, w)
      | None => let '(moved, rows) := set_disposition id Household d at_ (sw_reminders w) in (Ok moved, set_reminders rows w)
      end
  | NewId => (default [] (head (sw_ids w)), id_drawn w)
  | SuggestUtcNow => (sw_now w, w)
  | CountMadeSince m since =>
      (match sw_down w with Some e => Err e | None => Ok (count_made_since m since (sw_drafts w)) end, w)
  | SaveProposal p =>
      match sw_down w with
      | Some e => (Err e, w)
      | None => let '(r, ds) := save_proposal p (sw_drafts w) in (db_err r, set_drafts ds w)
      end
  | ExpireDue now =>
      match sw_down w with
      | Some e => (Err e, w)
      | None => let '(r, ds) := expire_due now (sw_now w) (sw_drafts w) in (db_err r, set_drafts ds w)
      end
  | DecisionsSince m since =>
      (match sw_down w with Some e => Err e | None => Ok (decisions_since shape m since (sw_drafts w)) end, w)
  | c => (sw_outside w _ c, w)
  end.
End handler.

(** ** The household, and the rounds *)

(** What others do to the table while a round runs: no suggestion is added. *)
Inductive others_step : Drafts → Drafts → Prop :=
| os_stage d ds r ds' : save_draft d ds = (r, ds') → others_step ds ds'
| os_status id s now ds r ds' : update_status id s now ds = (r, ds') → others_step ds ds'
| os_expire now sqlite_now ds r ds' : expire_due now sqlite_now ds = (r, ds') → others_step ds ds'
| os_delete m now ds r ds' : delete_profile m now ds = (r, ds') → others_step ds ds'.

(** The clock does not go back; of the rest nothing is known. *)
Definition household (w w' : SuggestWorld) : Prop :=
  (sw_now w ≤ sw_now w')%Z ∧ (sw_drafts w' = sw_drafts w ∨ others_step (sw_drafts w) (sw_drafts w')).

(** ** Lemmas: counting *)

(** The suggestions made to a member between two instants. *)
Definition made_between (m : text) (from to : Z) (ds : Drafts) : nat :=
  length (List.filter (λ r, is_proactive r && of_member m r &&
    (from <=? sql_ts (dw_created_at r))%Z && (sql_ts (dw_created_at r) <=? to)%Z) ds).
Definition capped (ds : Drafts) : Prop := ∀ m from, (made_between m from (from + DAY) ds ≤ MAX_PROPOSALS_PER_DAY)%nat.

(** A row keeps what a count asks of it, but for its owner. *)
Definition counted (m : text) (r : DraftRow) : option Z :=
  if is_proactive r && of_member m r then Some (sql_ts (dw_created_at r)) else None.
Lemma count_as_counted m since ds : count_made_since m since ds =
  length (List.filter (λ r, match counted m r with Some c => (sql_ts since <=? c)%Z | None => false end) ds).
Proof.
  unfold count_made_since. f_equal. apply filter_ext_elem. intros r _. unfold made_since, counted.
  by destruct (is_proactive r && of_member m r).
Qed.
Lemma between_as_counted m from to ds : made_between m from to ds =
  length (List.filter (λ r, match counted m r with Some c => (from <=? c)%Z && (c <=? to)%Z | None => false end) ds).
Proof.
  unfold made_between. f_equal. apply filter_ext_elem. intros r _. unfold counted.
  destruct (is_proactive r && of_member m r); done.
Qed.

(** What may become of a row among others, for the counts. *)
Definition no_more_counted (r r' : DraftRow) : Prop := ∀ m c, counted m r' = Some c → counted m r = Some c.

Lemma count_le {A} (p : A → bool) (R : A → A → Prop) l l' : Forall2 R l l' → (∀ a b, R a b → p b = true → p a = true) →
  (length (List.filter p l') ≤ length (List.filter p l))%nat.
Proof.
  intros H HR. induction H as [|a b l l' Hab _ IH]; simpl; [done|]. specialize (HR a b Hab).
  destruct (p b); simpl; [rewrite HR by done; simpl; lia|]. destruct (p a); simpl; lia.
Qed.

Lemma update_no_more where_ of_status set now ds r ds' : (∀ d, no_more_counted d (set d)) →
  update_where where_ of_status set now ds = (r, ds') → Forall2 no_more_counted ds ds'.
Proof.
  intros Hset [(e & _ & ->)|(_ & -> & _)]%update_where_cases.
  - apply Forall_Forall2_diag, Forall_forall. by intros d _ m c.
  - apply Forall2_fmap_r, Forall_Forall2_diag, Forall_forall. intros d _. enough (no_more_counted d (if where_ d then set d else d)) by done.
    destruct (where_ d); [apply Hset|by intros m c].
Qed.

Lemma others_rows ds ds' : others_step ds ds' →
  ∃ ds1 extra, ds' = ds1 ++ extra ∧ Forall2 no_more_counted ds ds1 ∧ Forall (λ r, ∀ m, counted m r = None) extra.
Proof.
  assert (∀ ds, Forall2 no_more_counted ds ds) as Hrefl by (intros ds0; apply Forall_Forall2_diag, Forall_forall; by intros d _ m c).
  assert (∀ ds ds', Forall2 no_more_counted ds ds' →
    ∃ ds1 extra, ds' = ds1 ++ extra ∧ Forall2 no_more_counted ds ds1 ∧ Forall (λ r, ∀ m, counted m r = None) extra) as Hup.
  { intros ds0 ds1 H. exists ds1, []. by rewrite app_nil_r. }
  assert (∀ s d, no_more_counted d (with_status s d)) as Hstatus by by intros s [] m c.
  intros [d ds0 r ds0' H|id s now ds0 r ds0' H|now sn ds0 r ds0' H|m now ds0 r ds0' H].
  - apply insert_row_cases in H as [(e & _ & ->)|(_ & -> & _)]; [by apply Hup|].
    exists ds0, [draft_row d]. split; [done|]. split; [done|]. by constructor.
  - apply Hup. unfold update_status in H. destruct (update_where _ _ _ _ _) as [u ds1] eqn:E.
    assert (ds0' = ds1) as -> by (by destruct u as [[|]|]; injection H as _ <-). by eapply update_no_more; [|exact E].
  - apply Hup. by eapply update_no_more; [|exact H].
  - apply Hup. unfold delete_profile in H. destruct (update_where _ true _ _ _) as [[n1|e1] ds1] eqn:E1; [|by injection H as _ <-].
    destruct (update_where _ false _ _ ds1) as [[n2|e2] ds2] eqn:E2; injection H as _ <-; [|done].
    apply update_no_more in E1; [|done]. apply update_no_more in E2.
    + clear -E1 E2. revert ds2 E2. induction E1 as [|a b l l' H1 _ IH]; intros ds2 E2; inversion E2 as [|? c ? l2 H2 H3]; subst; constructor.
      * intros m' x Hx. by apply H1, H2.
      * by apply IH.
    + intros d m' c. unfold counted, of_member. cbn [released dw_profile_id]. by rewrite (bool_decide_false (None = _)), andb_false_r.
Qed.

Lemma others_count ds ds' m (q : Z → bool) : others_step ds ds' →
  (length (List.filter (λ r, match counted m r with Some c => q c | None => false end) ds') ≤
   length (List.filter (λ r, match counted m r with Some c => q c | None => false end) ds))%nat.
Proof.
  intros (ds1 & extra & -> & H1 & H2)%others_rows. rewrite List.filter_app, length_app.
  rewrite (filter_none _ extra) by (intros r Hr; rewrite Forall_forall in H2; by rewrite (H2 r Hr)). rewrite Nat.add_0_r.
  eapply count_le; [exact H1|]. intros a b Hab. destruct (counted m b) as [c|] eqn:E; [|done]. by rewrite (Hab m c E).
Qed.

Lemma household_count m since w w' : household w w' →
  (count_made_since m since (sw_drafts w') ≤ count_made_since m since (sw_drafts w))%nat.
Proof. intros [_ [->|H]]; [done|]. rewrite !count_as_counted. by apply others_count. Qed.

Lemma household_capped w w' : household w w' → capped (sw_drafts w) → capped (sw_drafts w').
Proof.
  intros [_ [->|H]] Hc; [done|]. intros m from. etrans; [|apply (Hc m from)]. rewrite !between_as_counted.
  by apply (others_count _ _ m (λ c, (from <=? c)%Z && (c <=? from + DAY)%Z)).
Qed.

(** A suggestion added: it counts for its member, and a day with room for one keeps its bound. *)
Lemma save_counts p ds r ds' m since : save_proposal p ds = (r, ds') →
  (count_made_since m since ds' ≤ count_made_since m since ds + if bool_decide (m = pa_profile_id (pp_audience p)) then 1 else 0)%nat.
Proof.
  intros [(e & _ & ->)|(_ & -> & _)]%insert_row_cases; [lia|]. unfold count_made_since. rewrite List.filter_app, length_app.
  apply Nat.add_le_mono_l. cbn [List.filter]. unfold made_since at 1, of_member. cbn [proposal_row dw_profile_id].
  case_bool_decide as E; case_bool_decide as E'; simplify_eq; rewrite ?andb_false_r; simpl; [|lia].
  case_match; simpl; lia.
Qed.

Lemma save_capped p ds r ds' since : save_proposal p ds = (r, ds') → capped ds →
  (sql_ts since + DAY ≤ sql_ts (pp_created_at p))%Z →
  (count_made_since (pa_profile_id (pp_audience p)) since ds < MAX_PROPOSALS_PER_DAY)%nat → capped ds'.
Proof.
  intros [(e & _ & ->)|(_ & -> & _)]%insert_row_cases Hc Hs Hroom; [done|]. intros m from. rewrite between_as_counted, List.filter_app, length_app.
  rewrite <-between_as_counted. cbn [List.filter]. destruct (counted m (proposal_row p)) as [c|] eqn:E; [|simpl; specialize (Hc m from); lia].
  unfold counted, is_proactive, of_member in E. cbn [proposal_row dw_origin dw_profile_id dw_created_at] in E. rewrite sql_ts_idemp in E.
  case_bool_decide; [|done]. case_bool_decide as Em; [|done]. simplify_eq/=.
  destruct (Z.leb_spec from (sql_ts (pp_created_at p))); simpl; [|specialize (Hc (pa_profile_id (pp_audience p)) from); lia].
  destruct (Z.leb_spec (sql_ts (pp_created_at p)) (from + DAY)); simpl; [|specialize (Hc (pa_profile_id (pp_audience p)) from); lia].
  enough (made_between (pa_profile_id (pp_audience p)) from (from + DAY) ds ≤ count_made_since (pa_profile_id (pp_audience p)) since ds)%nat by lia.
  rewrite between_as_counted, count_as_counted. apply filter_length_le. intros row. destruct (counted _ row) as [c|]; [|done].
  intros [H1%Z.leb_le _]%andb_prop. apply Z.leb_le. lia.
Qed.

(** ** Lemmas: a round among others *)

Definition adds_nothing {R} (c : SuggestCall R) : Prop := match c with SaveProposal _ => False | _ => True end.

Section rounds.
Context (shape : Proposal → ProposalShape).
Notation handler := (suggest_handler shape).
Notation kept := (λ w, capped (sw_drafts w)).
Notation keeps p pre := (safe handler household kept (λ _, kept) p pre).

Lemma call_household {R} (c : SuggestCall R) w : adds_nothing c → household w (handler R c w).2.
Proof.
  intros Hc. assert (household w w) as Hrefl by (split; [lia|by left]). unfold suggest_handler.
  destruct c; try done; destruct (sw_down w); try done.
  destruct (expire_due _ _ _) as [r ds] eqn:E. split; [simpl; lia|]. right. by eapply os_expire.
Qed.

Lemma keeps_call {A R} Q (c : SuggestCall R) (k : R → Prog SuggestCall A) (pre : SuggestWorld → Prop) :
  adds_nothing c → stable household pre → (∀ w, pre w → kept w) →
  (∀ r, safe handler household kept Q (k r) pre) → safe handler household kept Q (Call c k) pre.
Proof.
  intros Hc Hst Hk Hr. apply safe_call; [done|done|]. intros w r w' Hw E. exists pre. split; [|apply Hr].
  apply (Hst w); [|done]. replace w' with (handler R c w).2 by by rewrite E. by apply call_household.
Qed.

(** The answer of the call is what its statement gives. *)
Lemma keeps_asked {A R} Q (c : SuggestCall R) (k : R → Prog SuggestCall A) (pre : SuggestWorld → Prop) (post : R → SuggestWorld → Prop) :
  stable household pre → (∀ w, pre w → kept w) → (∀ w, pre w → post (handler R c w).1 (handler R c w).2) →
  (∀ r, safe handler household kept Q (k r) (post r)) → safe handler household kept Q (Call c k) pre.
Proof.
  intros Hst Hk Hpost Hr. apply safe_call; [done|done|]. intros w r w' Hw E. exists (post r). split; [|apply Hr].
  specialize (Hpost w Hw). by rewrite E in Hpost.
Qed.

Lemma sql_ts_day now : sql_ts (now - DAY) = (sql_ts now - DAY)%Z.
Proof. unfold sql_ts, NS, DAY, from_hours. lia. Qed.

Section promoting.
Context (is_alphanumeric : N → bool) (char_to_lowercase : N → text).
(** What a promotion knows: of the members it has counted, no more than it counted. *)
Definition budgeted (now : Z) (made_today : gmap text nat) (w : SuggestWorld) : Prop :=
  kept w ∧ ∀ m n, made_today !! m = Some n → (count_made_since m (now - DAY) (sw_drafts w) ≤ n)%nat.
Lemma budgeted_stable now made_today : stable household (budgeted now made_today).
Proof.
  intros w w' Hw [H1 H2]. split; [by eapply household_capped|]. intros m n Hn. etrans; [by apply household_count|by apply H2].
Qed.
Lemma budgeted_kept now made_today w : budgeted now made_today w → kept w.
Proof. by intros []. Qed.

Lemma proposal_from_reminder_ok r id now p : proposal_from_reminder is_alphanumeric char_to_lowercase r id now = Ok p →
  pp_created_at p = now ∧ rc_profile_id (cr_said r) ≠ None.
Proof.
  unfold proposal_from_reminder. destruct (rc_profile_id (cr_said r)); [|done]. destruct (for_member _); [|done].
  destruct (bus_event_ref _ _ _ _); [|done]. unfold expiring_after. destruct (from_parts _ _ _ _ _ _ _ _) eqn:E; [|done].
  intros [= <-]. apply from_parts_ok in E as (_ & _ & _ & _ & _ & ->). done.
Qed.

Lemma promote_loop_keeps now pending : ∀ made_today report,
  keeps (promote_loop is_alphanumeric char_to_lowercase now made_today pending report) (budgeted now made_today).
Proof.
  pose proof (budgeted_stable now) as Hst. pose proof (budgeted_kept now) as Hkept.
  induction pending as [|reminder pending IH]; intros made_today report; [apply safe_ret; eauto|].
  cbn [promote_loop]. apply keeps_call; [done|eauto..|]. intros id.
  destruct (proposal_from_reminder _ _ _ _ _) as [p|skip] eqn:Ep; [|apply IH].
  apply proposal_from_reminder_ok in Ep as [Hcreated _]. cbv zeta. set (m := pa_profile_id (pp_audience p)).
  assert (∀ made_today made report', made_today !! m = Some made →
    keeps (if (MAX_PROPOSALS_PER_DAY <=? made)%nat
           then promote_loop is_alphanumeric char_to_lowercase now made_today pending report' else
           let! saved := SaveProposal p in
           match saved with
           | Err _ => promote_loop is_alphanumeric char_to_lowercase now made_today pending (with_failure report)
           | Ok _ =>
               let! moved := SetDisposition (cr_id reminder) Proposed now in
               match moved with
               | Ok true => promote_loop is_alphanumeric char_to_lowercase now (<[m := S made]> made_today) pending (with_proposal p report)
               | Ok false | Err _ => promote_loop is_alphanumeric char_to_lowercase now (<[m := S made]> made_today) pending (with_failure report)
               end
           end) (budgeted now made_today)) as Halready.
  { intros mt made report' Hm. destruct (Nat.leb_spec MAX_PROPOSALS_PER_DAY made) as [|Hroom]; [apply IH|].
    apply (keeps_asked _ _ _ _ (λ r w, match r with Ok _ => budgeted now (<[m := S made]> mt) w | Err _ => budgeted now mt w end));
      [apply Hst|apply Hkept| |].
    - intros w [Hc Hb]. unfold suggest_handler. destruct (sw_down w); [done|]. destruct (save_proposal p (sw_drafts w)) as [r ds] eqn:E.
      assert (capped ds) as Hc'.
      { eapply (save_capped p _ _ _ (now - DAY)); [exact E|done|rewrite sql_ts_day, Hcreated; lia|]. specialize (Hb m made Hm). fold m. lia. }
      destruct r as [[]|e]; simpl.
      + split; [done|]. intros m' n Hn. pose proof (save_counts p _ _ _ m' (now - DAY) E) as Hle. fold m in Hle.
        cbn [sw_drafts set_drafts]. destruct (decide (m' = m)) as [->|Hne].
        * rewrite lookup_insert_eq in Hn. injection Hn as <-. rewrite bool_decide_true in Hle by done. specialize (Hb m made Hm). lia.
        * rewrite lookup_insert_ne in Hn by done. rewrite bool_decide_false in Hle by done. specialize (Hb m' n Hn). lia.
      + apply insert_row_cases in E as [(e' & _ & ->)|([=] & _)]. by split.
    - intros [u|e]; [|apply IH]. apply keeps_call; [done|eauto..|]. intros [[]|e]; apply IH. }
  destruct (made_today !! m) as [made|] eqn:Em; [by apply Halready|].
  apply (keeps_asked _ _ _ _ (λ r w, match r with Ok n => budgeted now (<[m := n]> made_today) w | Err _ => budgeted now made_today w end));
    [apply Hst|apply Hkept| |].
  - intros w [Hc Hb]. unfold suggest_handler. destruct (sw_down w); simpl; [done|]. split; [done|]. intros m' n.
    destruct (decide (m' = m)) as [->|Hne]; [rewrite lookup_insert_eq; by intros [= <-]|rewrite lookup_insert_ne by done; apply Hb].
  - intros [made|e]; [|apply IH]. apply Halready. by rewrite lookup_insert_eq.
Qed.

Lemma promotion_keeps : keeps (promotion_round is_alphanumeric char_to_lowercase) kept.
Proof.
  assert (stable household kept) as Hst by (intros w w'; apply household_capped).
  apply keeps_call; [done..|]. intros now. apply keeps_call; [done..|]. intros [pending|e]; [|apply safe_ret; eauto].
  apply (safe_bind handler household kept _ (λ _, kept)); [|intros a; apply safe_ret; eauto].
  eapply safe_weaken; [done| |apply promote_loop_keeps]. intros w Hw. split; [done|]. intros m n. by rewrite lookup_empty.
Qed.
End promoting.

Section reviewing.
Context (is_alphanumeric : N → bool) (to_lowercase : text → text) (to_rfc3339 : Z → text).
Context {Value : Type} (elements_of : text → option (list Value)) (impulse_of : Value → result ReviewerImpulse text).
(** What a review knows of its member: when it counted, and no more than it counted. *)
Definition reviewed (m : text) (now : Z) (today : nat) (w : SuggestWorld) : Prop :=
  kept w ∧ (now ≤ sw_now w)%Z ∧ (allowance today = O ∨ (count_made_since m (now - DAY) (sw_drafts w) ≤ today)%nat).
Lemma reviewed_stable m now today : stable household (reviewed m now today).
Proof.
  intros w w' Hw (H1 & H2 & H3). split; [by eapply household_capped|]. split; [destruct Hw; lia|].
  pose proof (household_count m (now - DAY) w w' Hw). lia.
Qed.
Lemma reviewed_kept m now today w : reviewed m now today w → kept w.
Proof. by intros []. Qed.

(** There is room for what is still to be saved. *)
Definition room (m : text) (now : Z) (n : nat) (w : SuggestWorld) : Prop :=
  kept w ∧ (n = O ∨ (count_made_since m (now - DAY) (sw_drafts w) + n ≤ MAX_PROPOSALS_PER_DAY)%nat).
Lemma room_stable m now n : stable household (room m now n).
Proof.
  intros w w' Hw [H1 H2]. split; [by eapply household_capped|]. pose proof (household_count m (now - DAY) w w' Hw). lia.
Qed.

Lemma save_each_keeps audience now at_ ps : (now ≤ at_)%Z → (∀ p, p ∈ ps → pp_audience p = audience ∧ pp_created_at p = at_) →
  keeps (save_each audience ps) (room (pa_profile_id audience) now (length ps)).
Proof.
  intros Hat. induction ps as [|p ps IH]; intros Hps; [apply safe_ret; [apply room_stable|by intros w []..]|].
  assert (keeps (save_each audience ps) (room (pa_profile_id audience) now (length ps))) as IH' by (apply IH; intros q Hq; apply Hps; by right).
  destruct (Hps p) as [Ha Hc]; [by left|].
  apply (keeps_asked _ _ _ _ (λ _, room (pa_profile_id audience) now (length ps))); [apply room_stable|by intros w []| |].
  - intros w [Hk [[=]|Hroom]]. simpl in Hroom. unfold suggest_handler. destruct (sw_down w); [split; [done|right; simpl; lia]|].
    destruct (save_proposal p (sw_drafts w)) as [r ds] eqn:E.
    pose proof (save_counts p _ _ _ (pa_profile_id audience) (now - DAY) E) as Hle.
    split; [|right; simpl; destruct (bool_decide _); lia].
    eapply (save_capped p _ _ _ (now - DAY)); [exact E|done| |rewrite Ha; lia].
    rewrite sql_ts_day, Hc. pose proof (sql_ts_mono now at_ Hat). lia.
  - intros [u|e]; [|done]. apply keeps_call; [done|apply room_stable|by intros w []|]. done.
Qed.

Notation review_run := (review_run is_alphanumeric to_lowercase to_rfc3339 elements_of impulse_of).
Lemma review_run_keeps role audience now today :
  keeps (review_run role audience now today) (reviewed (pa_profile_id audience) now today).
Proof.
  pose proof (reviewed_stable (pa_profile_id audience) now today) as Hst. pose proof (reviewed_kept (pa_profile_id audience) now today) as Hk.
  assert (∀ R (c : SuggestCall R), adds_nothing c → keeps (do! c in Ret tt) (reviewed (pa_profile_id audience) now today)) as Hend.
  { intros R c Hc. apply keeps_call; [done..|]. intros _. by apply safe_ret. }
  unfold Suggestions.review_run. apply keeps_call; [done..|]. intros [decisions|e]; [|by apply Hend].
  apply keeps_call; [done..|]. intros drained. cbv zeta. apply keeps_call; [done..|]. intros run_id.
  apply keeps_call; [done..|]. intros task_id. destruct (plan_review _ _ _ _ _ _) as [spec|refused]; [|by apply Hend].
  apply keeps_call; [done..|]. intros _. apply keeps_call; [done..|]. intros run. apply keeps_call; [done..|]. intros _.
  apply keeps_call; [done..|]. intros _. destruct run as [run|e]; [|by apply safe_ret].
  apply (keeps_asked _ _ _ _ (λ at_ w, (now ≤ at_)%Z ∧ reviewed (pa_profile_id audience) now today w)); [done|done| |].
  { intros w Hw. split; [|done]. apply Hw. }
  intros at_. apply safe_pure. intros Hat. apply keeps_call; [done..|]. intros ids.
  destruct (interpret_answer_good is_alphanumeric to_lowercase elements_of impulse_of ids audience at_ (from_decisions decisions now) run today)
    as (Hlen & Hall & _). set (ps := ry_proposals _) in *.
  eapply safe_weaken; [done| |apply (save_each_keeps audience now at_ ps); [done|]].
  - intros w (H1 & _ & H2). split; [done|]. unfold allowance, MAX_PROPOSALS_PER_RUN, MAX_PROPOSALS_PER_DAY in *. lia.
  - intros p Hp. destruct (Hall p Hp) as [[Ha _ (Hc & _) _ _ _] _]. done.
Qed.

Notation review_round := (review_round is_alphanumeric to_lowercase to_rfc3339 elements_of impulse_of).
Lemma review_round_keeps role started_at started_at_utc waives : keeps (review_round role started_at started_at_utc waives) kept.
Proof.
  assert (stable household kept) as Hst by (intros w w'; apply household_capped).
  assert (∀ u : unit, keeps (Ret u) kept) as Hret by (intros u; by apply safe_ret).
  unfold Suggestions.review_round. apply keeps_call; [done..|]. intros [settings|e]; [|done].
  apply keeps_call; [done..|]. intros [sessions|e]; [|done].
  apply (keeps_asked _ _ _ _ (λ now w, kept w ∧ (now ≤ sw_now w)%Z)); [done|done| |].
  { intros w Hw. split; [done|]. simpl. lia. }
  intros now. assert (stable household (λ w, kept w ∧ (now ≤ sw_now w)%Z)) as Hst'.
  { intros w w' Hw [H1 H2]. split; [by apply (Hst w)|]. destruct Hw. lia. }
  assert (∀ w, (kept w ∧ (now ≤ sw_now w)%Z) → kept w) as Hk by by intros w [].
  apply keeps_call; [done..|]. intros _. apply keeps_call; [done..|]. intros members. cbv zeta.
  set (audience := audience_for_review _ _ _). apply keeps_call; [done..|]. intros activity.
  apply (safe_bind handler household kept _ (λ today w, match audience with
    | Some a => reviewed (pa_profile_id a) now today w | None => kept w end)).
  - destruct audience as [a|]; [|apply safe_ret; eauto; by intros w []].
    apply (keeps_asked _ _ _ _ (λ r, reviewed (pa_profile_id a) now (match r with Ok n => n | Err _ => MAX_PROPOSALS_PER_DAY end)));
      [done|done| |].
    + intros w [Hw Hn]. unfold suggest_handler. destruct (sw_down w); (split; [done|]; split; [done|]); [by left|by right].
    + intros r. apply safe_ret; [apply reviewed_stable|apply reviewed_kept|done].
  - intros today. set (pre := λ w, match audience with Some a => reviewed (pa_profile_id a) now today w | None => kept w end).
    assert (stable household pre) as Hpre by (subst pre; destruct audience; [apply reviewed_stable|done]).
    assert (∀ w, pre w → kept w) as Hprek by (subst pre; destruct audience; [apply reviewed_kept|done]).
    apply keeps_call; [done..|]. intros slot. destruct (negb slot); [by apply safe_ret|].
    destruct audience as [a|]; [apply review_run_keeps|]. apply keeps_call; [done..|]. done.
Qed.
End reviewing.
End rounds.

(** ** Lemmas: the way a review goes *)

Notation Event := {R : Type & (SuggestCall R * R)%type}.
Definition event (P : ∀ R, SuggestCall R → Prop) (e : Event) : Prop := match e with existT R (c, _) => P R c end.

Section reviews.
Context (is_alphanumeric : N → bool) (to_lowercase : text → text) (to_rfc3339 : Z → text).
Context {Value : Type} (elements_of : text → option (list Value)) (impulse_of : Value → result ReviewerImpulse text).
Notation review_run := (review_run is_alphanumeric to_lowercase to_rfc3339 elements_of impulse_of).
Notation review_round := (review_round is_alphanumeric to_lowercase to_rfc3339 elements_of impulse_of).

(** Why a suggestion was saved: there was room in the member's day, their decisions were read, the helper
    finished, and it is none they rejected lately. *)
Definition let_through (audience : ProposalAudience) (now : Z) (today : nat) (l : list Event) (p : Proposal) : Prop :=
  (today < MAX_PROPOSALS_PER_DAY)%nat ∧
  ∃ decisions spec run at_, called (DecisionsSince (pa_profile_id audience) (now - SUPPRESSION_WINDOW)) (Ok decisions) l ∧
    called (SpawnHelper spec) (Ok run) l ∧ tr_status run = TaskStatus.Completed ∧ of_review audience at_ p ∧
    ¬ recent_rejection decisions now (shape_of is_alphanumeric to_lowercase p).
(** What the helper of a review is: the member's, or nobody's, with groups that only read, and told of
    nobody else's coming and going. *)
Definition helper_of (audience : ProposalAudience) (now : Z) (l : list Event) (spec : TaskSpec) : Prop :=
  is_within (ts_scope spec) (Owner (pa_profile_id audience)) = true ∧
  ts_tool_groups spec ⊆ list_to_set PROACTIVE_ROOT_GROUPS ∧ ts_read_tools spec = ∅ ∧ ts_background spec = false ∧
  ∃ drained ledger, called DrainObserved drained l ∧
    let events := brief_events is_alphanumeric to_lowercase audience drained in
    ts_instructions spec = trim (review_brief is_alphanumeric to_lowercase to_rfc3339 now events ledger) ∧
    (length events ≤ MAX_BRIEF_EVENTS)%nat ∧
    ∀ e, e ∈ events → e ∈ drained ∧ (br_kind e = lit "presence" → br_source_id e = Some (pa_profile_id audience)).

Definition of_run (audience : ProposalAudience) (now : Z) (today : nat) (l : list Event) (R : Type) (c : SuggestCall R) : Prop :=
  match c with
  | SaveProposal p => let_through audience now today l p
  | TellMember m p => m = pa_profile_id audience ∧ pp_audience p = audience ∧ called (SaveProposal p) (Ok tt) l
  | SpawnHelper spec => helper_of audience now l spec
  | CountMadeSince _ _ | ListPendingReminders _ | SetDisposition _ _ _ => False
  | _ => True
  end.

Lemma of_run_mono audience now today l l' R (c : SuggestCall R) : (∀ e, e ∈ l → e ∈ l') →
  of_run audience now today l R c → of_run audience now today l' R c.
Proof.
  intros H. destruct c; simpl; try done.
  - intros [H1 (d & spec & run & at_ & H2 & H3 & H4)]. split; [done|]. exists d, spec, run, at_. unfold called in *. eauto.
  - intros (H1 & H2 & H3 & H4 & drained & ledger & H5 & H6). do 4 (split; [done|]). exists drained, ledger. unfold called in *. eauto.
  - intros (H1 & H2 & H3). unfold called in *. eauto.
Qed.

Lemma newest_of_in audience observed e : e ∈ (map_to_list (newest_of is_alphanumeric to_lowercase audience observed)).*2 →
  e ∈ observed ∧ (br_kind e = lit "presence" → br_source_id e = Some (pa_profile_id audience)).
Proof.
  intros ([k e'] & -> & Hin%elem_of_map_to_list)%list_elem_of_fmap. simpl. revert k e' Hin. unfold newest_of.
  induction observed as [|x observed IH] using rev_ind; intros k e; [simpl; by rewrite lookup_empty|]. rewrite foldl_snoc.
  set (m := foldl _ ∅ observed) in *. intros H.
  assert (m !! k = Some e ∨ (e = x ∧ (br_kind x = lit "presence" → br_source_id x = Some (pa_profile_id audience)))) as [Hk|[-> Hx]].
  { revert H. unfold keep_newest. case_bool_decide as E1; cbn [andb]; [case_bool_decide as E2; cbn [negb]; [|by left]|].
    all: destruct (m !! identity_of is_alphanumeric to_lowercase x) as [kept|]; [case_match; [by left|]|].
    all: intros [[_ <-]|[_ Hk]]%lookup_insert_Some; [by right|by left]. }
  - destruct (IH k e Hk) as [H1 H2]. split; [apply elem_of_app; by left|done].
  - split; [apply elem_of_app; right; by apply elem_of_one|done].
Qed.

Lemma brief_events_in audience observed : let events := brief_events is_alphanumeric to_lowercase audience observed in
  (length events ≤ MAX_BRIEF_EVENTS)%nat ∧
  ∀ e, e ∈ events → e ∈ observed ∧ (br_kind e = lit "presence" → br_source_id e = Some (pa_profile_id audience)).
Proof.
  cbv zeta. unfold brief_events. split; [rewrite length_take; lia|]. intros e He.
  apply elem_of_take in He as (i & He%list_elem_of_lookup_2%elem_of_sort_with & _).
  apply newest_of_in. apply list_elem_of_fmap in He as (p & -> & Hp%elem_of_sort_with). apply list_elem_of_fmap. by exists p.
Qed.

Lemma events_sub P P' (l : list Event) : (∀ R (c : SuggestCall R), P R c → P' R c) → Forall (event P) l → Forall (event P') l.
Proof. intros H Hl. eapply Forall_impl; [exact Hl|]. intros [R [c r]]. apply H. Qed.

(** What is saved is of the list, and only what was saved is told. *)
Lemma save_each_path audience ps l u : path (save_each audience ps) l u →
  Forall (event (λ R c, match c with
    | SaveProposal p => p ∈ ps
    | TellMember m p => m = pa_profile_id audience ∧ p ∈ ps ∧ called (SaveProposal p) (Ok tt) l
    | _ => False end)) l.
Proof.
  revert l. induction ps as [|p ps IH]; intros l; [by intros [-> _]%path_inv|].
  intros (r & l1 & -> & H)%path_inv. cbv beta in H. constructor; [by left|].
  destruct r as [[]|e].
  - apply path_inv in H as ([] & l2 & -> & H). constructor; [split; [done|]; split; by left|].
    eapply events_sub; [|apply (IH _ H)]. intros R [] Hc; try done; [by right|]. destruct Hc as (-> & Hp & Hc).
    split; [done|]. split; [by right|]. do 2 right. exact Hc.
  - eapply events_sub; [|apply (IH _ H)]. intros R [] Hc; try done; [by right|]. destruct Hc as (-> & Hp & Hc).
    split; [done|]. split; [by right|]. right. exact Hc.
Qed.

Lemma plan_review_helper task_id role audience session_id now drained ledger spec l :
  called DrainObserved drained l →
  plan_review task_id role audience session_id
    (review_brief is_alphanumeric to_lowercase to_rfc3339 now (brief_events is_alphanumeric to_lowercase audience drained) ledger)
    (JObject []) = Ok spec → helper_of audience now l spec.
Proof.
  intros Hd H. pose proof (delegate_ok _ _ _ _ _ H) as (_ & _ & _ & Hscope & Hgroups & Hread & _).
  assert (ts_background spec = false ∧ ts_instructions spec = trim (review_brief is_alphanumeric to_lowercase to_rfc3339 now
    (brief_events is_alphanumeric to_lowercase audience drained) ledger)) as [Hb Hi].
  { revert H. unfold plan_review, delegate. case_bool_decide; cbn [negb]; [|done]. destruct (is_empty _); [done|].
    intros (d & _ & [= <-])%result_bind_ok. done. }
  split; [rewrite Hscope; apply clamp_within|]. split; [rewrite Hgroups; by intros g (_ & Hg & _)%narrow_groups_spec|].
  split; [rewrite Hread; apply elem_of_equiv_empty_L; by intros t [[]%not_elem_of_empty _]%narrow_read_spec|]. split; [done|].
  exists drained, ledger. split; [done|]. split; [done|]. apply brief_events_in.
Qed.

Lemma review_run_path role audience now today l u : path (review_run role audience now today) l u →
  Forall (event (of_run audience now today l)) l.
Proof.
  unfold Suggestions.review_run. intros (decisions & l1 & -> & H)%path_inv. cbv beta in H. constructor; [done|].
  destruct decisions as [decisions|e].
  2:{ apply path_inv in H as (? & l2 & -> & H). apply path_inv in H as [-> _]. by repeat constructor. }
  apply path_inv in H as (drained & l2 & -> & H). cbv zeta in H. apply path_inv in H as (run_id & l3 & -> & H).
  apply path_inv in H as (task_id & l4 & -> & H). do 3 (constructor; [done|]).
  destruct (plan_review _ _ _ _ _ _) as [spec|refused] eqn:Espec.
  2:{ apply path_inv in H as (? & l5 & -> & H). apply path_inv in H as [-> _]. by repeat constructor. }
  apply path_inv in H as (? & l5 & -> & H). apply path_inv in H as (run & l6 & -> & H).
  apply path_inv in H as (? & l7 & -> & H). apply path_inv in H as (? & l8 & -> & H). constructor; [done|].
  constructor.
  { cbn [event of_run]. apply (plan_review_helper task_id role audience (review_session_id run_id) now drained (from_decisions decisions now)); [right; by left|exact Espec]. }
  do 2 (constructor; [done|]). destruct run as [run|e]; [|apply path_inv in H as [-> _]; constructor].
  apply path_inv in H as (at_ & l9 & -> & H). apply path_inv in H as (ids & l10 & -> & H). do 2 (constructor; [done|]).
  destruct (interpret_answer_good is_alphanumeric to_lowercase elements_of impulse_of ids audience at_ (from_decisions decisions now) run today)
    as (Hlen & Hall & _ & Hdone & _). set (ps := ry_proposals _) in *.
  apply save_each_path in H. eapply events_sub; [|exact H]. intros R c Hc. destruct c; try done.
  - simpl in Hc |- *. destruct (Hall p Hc) as [Hof Hsup]. split.
    + unfold allowance, MAX_PROPOSALS_PER_RUN, MAX_PROPOSALS_PER_DAY in *. destruct ps; [by apply not_elem_of_nil in Hc|]. cbn [length] in Hlen. lia.
    + exists decisions, spec, run, at_. split; [by left|]. split; [do 5 right; by left|]. split.
      { destruct (decide (tr_status run = TaskStatus.Completed)) as [|Hn]; [done|]. rewrite (Hdone Hn) in Hc. by apply not_elem_of_nil in Hc. }
      split; [done|]. by apply unsuppressed.
  - destruct Hc as (-> & Hin & Hc). split; [done|]. split; [by apply (or_audience _ _ _ (proj1 (Hall p Hin)))|]. do 10 right. exact Hc.
Qed.

(** A member who was just here, by a person's conversation: the one it is attributed to, or the only one. *)
Definition addressed (m : text) (now : Z) (l : list Event) : Prop :=
  ∃ sessions s, called ListReviewSessions (Ok sessions) l ∧ s ∈ sessions ∧ is_human (origin_of (se_id s)) = true ∧
    (now - AUDIENCE_WINDOW < se_updated_at s)%Z ∧
    ((∃ id, se_profile_id s = Some id ∧ trim id = m) ∨ ∃ only, called ListMembers (Ok [only]) l ∧ trim only = m).

Lemma latest_by_in {A} (key : A → Z) l a : latest_by key l = Some a → a ∈ l.
Proof.
  unfold latest_by. revert a. induction l as [|x l IH] using rev_ind; intros a; [done|]. rewrite foldl_snoc.
  intros H. apply elem_of_app. revert H. destruct (foldl _ None l) as [b|]; [case_match|]; intros [= <-];
    [right; by apply elem_of_one|left; by apply IH|right; by apply elem_of_one].
Qed.

Lemma audience_here sessions now members a : audience_for_review sessions now members = Some a →
  ∃ s, s ∈ sessions ∧ is_human (origin_of (se_id s)) = true ∧ (now - AUDIENCE_WINDOW < se_updated_at s)%Z ∧
    ((∃ id, se_profile_id s = Some id ∧ trim id = pa_profile_id a) ∨ ∃ only, members = [only] ∧ trim only = pa_profile_id a).
Proof.
  unfold audience_for_review. cbv zeta. set (here := List.filter _ sessions).
  assert (∀ s, s ∈ here → s ∈ sessions ∧ is_human (origin_of (se_id s)) = true ∧ (now - AUDIENCE_WINDOW < se_updated_at s)%Z) as Hhere.
  { intros s [Hs [Hh Ht%Z.ltb_lt]%andb_prop]%elem_of_filter_bool. done. }
  assert (∀ id, match for_member id with Ok a => Some a | Err _ => None end = Some a → trim id = pa_profile_id a) as Hfor.
  { intros id. unfold for_member. destruct (is_empty (trim id)); [done|]. by intros [= <-]. }
  destruct (latest_by fst _) as [[t id]|] eqn:E; cbn [fmap option_fmap option_map snd].
  - apply latest_by_in in E. apply list_elem_of_omap in E as (s & Hs & Hp). cbn [mbind option_bind]. intros Hf%Hfor.
    destruct (se_profile_id s) as [q|] eqn:Eq; [|done]. injection Hp as _ ->. exists s. destruct (Hhere s Hs) as (H1 & H2 & H3).
    do 3 (split; [done|]). left. by exists id.
  - destruct here as [|s here'] eqn:Eh; [done|]. cbn [is_empty]. destruct (sole_member members) as [only|] eqn:Em; [|done].
    cbn [mbind option_bind]. intros Hf%Hfor. destruct (Hhere s) as (H1 & H2 & H3); [by left|]. exists s. do 3 (split; [done|]). right.
    exists only. split; [|done]. destruct members as [|? [|]]; simpl in Em; by simplify_eq.
Qed.

(** What may be called in a round of the reviewer. *)
Definition of_round (l : list Event) (R : Type) (c : SuggestCall R) : Prop :=
  match c with
  | SaveProposal p =>
      let m := pa_profile_id (pp_audience p) in
      ∃ now today, addressed m now l ∧ called (CountMadeSince m (now - DAY)) (Ok today) l ∧ let_through (pp_audience p) now today l p
  | TellMember m p => m = pa_profile_id (pp_audience p) ∧ called (SaveProposal p) (Ok tt) l
  | SpawnHelper spec => ∃ audience now, addressed (pa_profile_id audience) now l ∧ helper_of audience now l spec
  | _ => True
  end.

Lemma review_round_path role started_at started_at_utc waives l u :
  path (review_round role started_at started_at_utc waives) l u → Forall (event (of_round l)) l.
Proof.
  unfold Suggestions.review_round. intros (settings & l1 & -> & H)%path_inv. cbv beta in H.
  destruct settings as [settings|e]; [|apply path_inv in H as [-> _]; by repeat constructor].
  apply path_inv in H as (sessions & l2 & -> & H). cbv beta in H.
  destruct sessions as [sessions|e]; [|apply path_inv in H as [-> _]; by repeat constructor].
  apply path_inv in H as (now & l3 & -> & H). apply path_inv in H as (? & l4 & -> & H). apply path_inv in H as (members & l5 & -> & H).
  cbv zeta in H. set (audience := audience_for_review _ _ _) in H.
  apply path_inv in H as (activity & l6 & -> & H).
  apply path_bind in H as (today & l7 & l8 & -> & H1 & H).
  apply path_inv in H as (slot & l9 & -> & H).
  match goal with |- Forall _ ?l => set (whole := l) end. do 6 (constructor; [done|]).
  destruct audience as [a|] eqn:Ea.
  2:{ apply path_inv in H1 as [-> _]. cbn [app]. constructor; [done|]. destruct (negb slot); [apply path_inv in H as [-> _]; constructor|].
      apply path_inv in H as (? & l10 & -> & H). apply path_inv in H as [-> _]. by repeat constructor. }
  apply path_inv in H1 as (made & l10 & -> & H1). apply path_inv in H1 as [-> Htoday]. cbn [app] in *. do 2 (constructor; [done|]).
  destruct (negb slot); [apply path_inv in H as [-> _]; constructor|].
  assert (addressed (pa_profile_id a) now whole) as Haddr.
  { subst audience. apply audience_here in Ea as (s & H1 & H2 & H3 & H4). exists sessions, s. split; [right; by left|]. do 3 (split; [done|]).
    destruct H4 as [H4|(only & Ho & H4)]; [by left|right]. exists only. split; [|done]. destruct members as [ms|e]; [|done]. subst ms.
    do 4 right. by left. }
  apply review_run_path in H. apply Forall_forall. intros [R [c r]] He. rewrite Forall_forall in H. specialize (H _ He). cbn [event] in H |- *.
  apply (of_run_mono _ _ _ _ whole) in H. 2:{ intros e Hin. subst whole. do 8 right. exact Hin. }
  destruct c; try done; cbn [of_run of_round] in H |- *.
  - destruct H as [Hroom Hrest]. pose proof Hrest as (decisions & spec & run & at_ & _ & _ & _ & Hof & _). rewrite (or_audience _ _ _ Hof).
    exists now, today. split; [done|]. split; [|by split].
    subst today. destruct made as [n|e]; [|unfold MAX_PROPOSALS_PER_DAY in Hroom; lia]. do 6 right. by left.
  - by exists a, now.
  - destruct H as (-> & -> & H). done.
Qed.
End reviews.

(** ** Properties *)

Section around.
Context (is_alphanumeric : N → bool) (char_to_lowercase : N → text) (to_lowercase : text → text) (to_rfc3339 : Z → text).
Context {Value : Type} (elements_of : text → option (list Value)) (impulse_of : Value → result ReviewerImpulse text).
Notation shape := (shape_of is_alphanumeric to_lowercase).
Notation review_round := (review_round is_alphanumeric to_lowercase to_rfc3339 elements_of impulse_of).

(** The life of a pond: the household's doings, and rounds of the two loops, one at a time, each among
    the household's doings and perhaps cut short. *)
Inductive suggesting : SuggestWorld → SuggestWorld → Prop :=
| sg_household w w' : household w w' → suggesting w w'
| sg_review role started_at started_at_utc waives w cfg :
    star (config_step (suggest_handler shape) household) (review_round role started_at started_at_utc waives, w) cfg →
    suggesting w cfg.2
| sg_promotion w cfg :
    star (config_step (suggest_handler shape) household) (promotion_round is_alphanumeric char_to_lowercase, w) cfg →
    suggesting w cfg.2.

(** C25: nobody is made more than six suggestions in a day. From a table with none, over any life of the pond
    in which the wall clock does not go back and the rounds of the reviewer and of the promotion take turns, whatever helpers answer,
    statements fail and members decide meanwhile, and whenever a round is cut short: of the
    suggestions that are a member's, at most six were made in any twenty-four hours. *)
Theorem at_most_six_suggestions_a_day w w' m from : sw_drafts w = [] → star suggesting w w' →
  (made_between m from (from + DAY) (sw_drafts w') ≤ MAX_PROPOSALS_PER_DAY)%nat.
Proof.
  intros Hw Hstar. enough (capped (sw_drafts w')) as H by apply H.
  apply (star_invariant suggesting (λ w, capped (sw_drafts w))) with w; [|exact Hstar|].
  - intros w1 w2 Hc Hstep. destruct Hstep as [a b Hh|role s u v a cfg Hs|a cfg Hs]; [exact (household_capped _ _ Hh Hc)| |].
    + pose proof (review_round_keeps shape is_alphanumeric to_lowercase to_rfc3339 elements_of impulse_of role s u v) as Hk.
      destruct (safe_sound _ _ _ _ _ _ _ _ Hk Hc Hs) as [H _]. exact H.
    + pose proof (promotion_keeps shape is_alphanumeric char_to_lowercase) as Hk.
      destruct (safe_sound _ _ _ _ _ _ _ _ Hk Hc Hs) as [H _]. exact H.
  - rewrite Hw. intros m' from'. unfold made_between. simpl. unfold MAX_PROPOSALS_PER_DAY. lia.
Qed.

(** A review is about one member, and makes only what they left open to it. In every way a round can go:
    what is saved is addressed to a member a person's conversation of the last six hours is attributed
    to, or the only member there is; their day had room, as counted; their decisions were read, and it
    is of no shape they rejected in thirty days; the helper that proposed it had finished. That
    helper is the member's or nobody's, holds only groups of the reviewer's list, and is told of
    nobody else's coming and going; and only the member is told, of what was saved. *)
Theorem a_review_is_about_one_member role started_at started_at_utc waives l u :
  path (review_round role started_at started_at_utc waives) l u →
  (∀ p r, called (SaveProposal p) r l → let m := pa_profile_id (pp_audience p) in
     ∃ now today, addressed m now l ∧ called (CountMadeSince m (now - DAY)) (Ok today) l ∧
       let_through is_alphanumeric to_lowercase (pp_audience p) now today l p) ∧
  (∀ spec r, called (SpawnHelper spec) r l → ∃ audience now, addressed (pa_profile_id audience) now l ∧
     helper_of is_alphanumeric to_lowercase to_rfc3339 audience now l spec) ∧
  (∀ m p r, called (TellMember m p) r l → m = pa_profile_id (pp_audience p) ∧ called (SaveProposal p) (Ok tt) l).
Proof.
  intros H%review_round_path. rewrite Forall_forall in H. split; [|split].
  - intros p r Hc. exact (H _ Hc).
  - intros spec r Hc. exact (H _ Hc).
  - intros m p r Hc. exact (H _ Hc).
Qed.
End around.

(** ** Runs *)

Definition ascii_alphanumeric (c : N) : bool := is_ascii_digit c || is_ascii_lowercase (to_ascii_lowercase c).
Definition ascii_lower_char (c : N) : text := [to_ascii_lowercase c].
Definition as_number (t : Z) : text := dec (Z.to_N t).
Notation demo_shape := (shape_of ascii_alphanumeric lowercase).

Definition impulse (n : N) : ReviewerImpulse :=
  {| im_trigger_kind := lit "sensor"; im_source_id := Some (lit "kitchen"); im_signal := None;
     im_rationale := lit "the kitchen is warm"; im_suggestion := lit "Open window " ++ dec n;
     im_confidence := Some (3 # 4)%Q |}.
Definition three_impulses (_ : text) : option (list ReviewerImpulse) := Some [impulse 1; impulse 2; impulse 3].
Definition impulse_read (i : ReviewerImpulse) : result ReviewerImpulse text := Ok i.

Definition reviewer_role : AgentRole :=
  {| role_name := PROACTIVE_REVIEWER_ROLE; role_instructions := lit "Review."; role_tool_groups := {[ lit "giap-sensors" ]};
     role_personal_data := Inherit; role_max_turns := 6; role_context_fraction := Finite (1 # 2); role_model := None;
     role_activations := []; role_hooks := RoleBlock.RoleHooks_default |}.

Definition finished (spec : TaskSpec) : TaskRun :=
  {| tr_id := ts_id spec; tr_role := ts_role spec; tr_parent_session_id := ts_parent_session_id spec;
     tr_status := TaskStatus.Completed; tr_result := Some (lit "[...]"); tr_error := None; tr_started_at := 0; tr_finished_at := None |}.

(** Ada lives alone, and was just here. *)
Definition quiet_evening : ∀ R, SuggestCall R → R := λ R c,
  match c in SuggestCall R return R with
  | GetReviewSettings => Ok {| rs_proactive_review_enabled := true; rs_ext_orchestrator_enabled := true; rs_consolidation_interval_hours := 6 |}
  | ListReviewSessions => Ok [{| se_id := lit "chat"; se_profile_id := None; se_created_at := noon; se_updated_at := noon |}]
  | ListMembers => Ok [lit "ada"]
  | LastActivity => (0%Z, 0)
  | AcquireLane enabled _ _ _ _ => enabled
  | DrainObserved => []
  | SpawnHelper spec => Ok (finished spec)
  | NewId => lit "id"
  | NewIds => λ n, lit "review-" ++ dec (N.of_nat n)
  | DropSlot => tt | PublishAuthority _ => tt | DropLease _ => tt | TellMember _ _ => tt
  | ListPendingReminders _ => Err [] | SetDisposition _ _ _ => Err [] | SuggestUtcNow => 0%Z
  | CountMadeSince _ _ => Err [] | SaveProposal _ => Err [] | ExpireDue _ => Err [] | DecisionsSince _ _ => Err []
  end.
Definition evening (rows : list ReminderRow) : SuggestWorld :=
  {| sw_drafts := []; sw_reminders := rows; sw_now := (noon + from_hours 1)%Z; sw_down := None;
     sw_ids := (λ n, lit "id-" ++ dec (N.of_nat n)) <$> seq 1 60; sw_outside := quiet_evening |}.
Definition a_review : Prog SuggestCall unit :=
  review_round ascii_alphanumeric lowercase as_number three_impulses impulse_read reviewer_role 0 0 false.

Lemma at_most_six_suggestions_a_day_witness :
  ∃ w, sw_drafts (evening []) = [] ∧
    star (suggesting ascii_alphanumeric ascii_lower_char lowercase as_number three_impulses impulse_read) (evening []) w ∧
    made_between (lit "ada") noon (noon + DAY) (sw_drafts w) = 3%nat ∧
    (made_between (lit "ada") noon (noon + DAY) (sw_drafts w) ≤ MAX_PROPOSALS_PER_DAY)%nat.
Proof.
  pose proof (run_steps (suggest_handler demo_shape) household a_review (evening [])) as Hs.
  set (w := (run (suggest_handler demo_shape) a_review (evening [])).2) in Hs.
  assert (star (suggesting ascii_alphanumeric ascii_lower_char lowercase as_number three_impulses impulse_read) (evening []) w) as H.
  { apply star_one. exact (sg_review ascii_alphanumeric ascii_lower_char lowercase as_number three_impulses impulse_read _ _ _ _ _ _ Hs). }
  exists w. split; [reflexivity|]. split; [exact H|]. split; [subst w; by vm_compute|].
  apply (at_most_six_suggestions_a_day ascii_alphanumeric ascii_lower_char lowercase as_number three_impulses impulse_read (evening []));
    [reflexivity|exact H].
Defined.

Lemma a_review_is_about_one_member_witness :
  ∃ l p, path a_review l tt ∧ called (SaveProposal p) (Ok tt) l ∧
    ∃ now, addressed (pa_profile_id (pp_audience p)) now l.
Proof.
  pose proof (trace_path (suggest_handler demo_shape) a_review (evening [])) as H.
  set (tr := trace _ _ _) in H. destruct tr.2.
  destruct (a_review_is_about_one_member _ _ _ _ _ _ _ _ _ _ _ H) as (Hsave & _).
  eexists tr.1, _. split; [exact H|].
  match goal with |- called (SaveProposal ?p) _ _ ∧ _ => assert (called (SaveProposal p) (Ok tt) tr.1) as Hc end.
  { unfold called. subst tr. vm_compute. do 18 right. left. }
  split; [exact Hc|]. destruct (Hsave _ _ Hc) as (now & today & Ha & _). exists now. exact Ha.
Defined.

(** A reminder for each of Ada's six appointments. *)
Definition reminder_row (subject : option text) (at_ : Z) (n : N) : ReminderRow :=
  {| rr_reminder := {| cr_id := lit "r" ++ dec n;
       cr_said := {| rc_about := lit "appointment " ++ dec n; rc_when_said := lit "Tuesday"; rc_session_id := lit "chat";
                     rc_window_id := lit "w"; rc_subject := lit "Ada"; rc_profile_id := subject; rc_said_at := at_ |};
       cr_captured_at := at_; cr_disposition := ReminderPending |};
     rr_about_key := lit "appointment " ++ dec n; rr_decided_at := None |}.
Definition numbers (n : nat) : list N := N.of_nat <$> seq 1 n.

(** The count is read before the lane is asked for, and the suggestions are saved after it is given back.
    The extraction loop, given the lane then, promotes six reminders, and the review adds its three. *)
Definition reminded (n : nat) : SuggestWorld := evening (reminder_row (Some (lit "ada")) noon <$> numbers n).
Definition a_promotion : Prog SuggestCall (result PromotionReport text) := promotion_round ascii_alphanumeric ascii_lower_char.
Example two_loops_exceed_a_day :
  let spawned := calls_made (suggest_handler demo_shape) 16 (a_review, reminded 6) in
  let '(promoted, w) := run (suggest_handler demo_shape) a_promotion spawned.2 in
  let '(_, w') := run (suggest_handler demo_shape) spawned.1 w in
  (pm_proposed <$> match promoted with Ok r => Some r | Err _ => None end) = Some 6%nat ∧
  made_between (lit "ada") noon (noon + DAY) (sw_drafts w) = 6%nat ∧
  made_between (lit "ada") noon (noon + DAY) (sw_drafts w') = 9%nat.
Proof. vm_compute. repeat split. Qed.

(** A reminder of nobody stays pending, and the newest fifty are looked at: behind fifty of them, Ada's
    reminder is never reached, and a round changes nothing. *)
Example reminders_of_nobody_hold_up_the_rest :
  let w := evening (reminder_row (Some (lit "ada")) noon 0 :: (reminder_row None (noon + 1) <$> numbers 50)) in
  let '(promoted, w') := run (suggest_handler demo_shape) a_promotion w in
  (λ r, (pm_unaddressable r, pm_proposed r)) <$> match promoted with Ok r => Some r | Err _ => None end = Some (50%nat, O) ∧
  sw_drafts w' = [] ∧ sw_reminders w' = sw_reminders w.
Proof. vm_compute. repeat split. Qed.
