(* ===== verification/ChildPlan.v ===== *)
(** * ChildPlan: what a helper is given to run with, and what is made of its run

    [crates/pond-adapters-goose/src/orchestrator.rs]: the permits a provider needs, the tools a
    child gets ([split_extension_tool], [child_extensions]), its plan ([build_child_plan]), how the
    messages of its run are assembled into turns ([ChildTurns]) and how the run is judged
    ([classify_outcome]); and of [goose_agent.rs] beside it the parts that are the pond's own: the
    parent's tools as [child_environment] groups them, [drain_child_stream], and the order in which
    [run_child_agent] drains, nudges and reads the answer. The engine is what [goose] answers: the
    events of a reply and the extensions it lists are arguments. *)
From S2P Require Import Prelude Text Scope HandBack ToolGroups Locality RoleBlock Delegation.
Local Open Scope N_scope.

(** ** Constants and permits *)

Definition GOOSE_STRIPPED_BUILTINS : list text :=
  [lit "developer"; lit "computercontroller"; lit "extensionmanager"; lit "todo"; lit "apps";
   lit "analyze"; lit "summon"; lit "summarize"; lit "orchestrator"; lit "tom"].

Definition GOOSE_MAX_TURNS_MESSAGE : text :=
  lit "I've reached the maximum number of actions I can do without user input. Would you like me to continue?".

Definition SUBAGENT_PERMITS : N := REMOTE_SUBAGENT_CONCURRENCY.
Definition NUDGE_TURNS : N := 2.

Definition subagent_permits (provider : text) : N :=
  div_ceil SUBAGENT_PERMITS (N.max (max_concurrent_subagents provider) 1).

Definition parent_turn_permits (provider : text) : N :=
  if max_concurrent_subagents provider <=? 1 then SUBAGENT_PERMITS else 0.

(** ** What the engine offers *)

(** [BTreeSet] and [BTreeMap]: walked in the order of their keys. *)
Definition text_le (a b : text) : bool := not_greater text_compare a b.
Definition in_order (s : gset text) : list text := sort_with text_le (elements s).
Definition pairs_in_order {A} (m : gmap text A) : list (text * A) :=
  sort_with (λ a b, text_le a.1 b.1) (map_to_list m).

Definition split_extension_tool (tool_name : text) : option (text * text) :=
  match find_sub TOOL_NAME_SEPARATOR tool_name with
  | None => None
  | Some at_ =>
      let extension := take at_ tool_name in
      if is_empty extension then None
      else Some (extension, drop (length TOOL_NAME_SEPARATOR) (drop at_ tool_name))
  end.

Record ChildEnvironment := {
  ce_provider_name : text;
  ce_base_system_prefix : text;
  ce_parent_tools : gmap text (gset text);
}.

(** The loop of [child_environment] over the tools the parent's session lists. *)
Definition note_tool (tools : gmap text (gset text)) (name : text) : gmap text (gset text) :=
  match split_extension_tool name with
  | None => tools
  | Some (extension, bare) => <[extension := {[bare]} ∪ default ∅ (tools !! extension)]> tools
  end.
Definition parent_tools_of (names : list text) : gmap text (gset text) := foldl note_tool ∅ names.

Definition child_environment (chat_provider static_prefix : text) (listed : list text) : ChildEnvironment :=
  {| ce_provider_name := chat_provider; ce_base_system_prefix := static_prefix;
     ce_parent_tools := parent_tools_of listed |}.

(** ** The tools of a child *)

Inductive ExtensionConfig : Type :=
| Builtin (name description : text) (display_name : option text) (timeout : option N)
          (bundled : option bool) (available_tools : list text).

Inductive PlanRefused : Type := ForbiddenExtension (task_id role extension : text).

Definition tool_of (extension tool : text) : text := extension ++ TOOL_NAME_SEPARATOR ++ tool.

Definition is_stripped (extension : text) : bool := bool_decide (extension ∈ GOOSE_STRIPPED_BUILTINS).

(** One turn of the loop over the parent's extensions. *)
Definition child_extension (spec : TaskSpec) (entry : text * gset text) : option ExtensionConfig :=
  let granted := List.filter (λ tool, grants_tool spec (tool_of entry.1 tool)) (in_order entry.2) in
  if is_empty granted then None
  else Some (Builtin entry.1 [] None (Some 600) (Some false) granted).

Definition child_extensions (spec : TaskSpec) (parent_tools : gmap text (gset text)) :
    result (list ExtensionConfig) PlanRefused :=
  match find_first is_stripped (in_order (ts_tool_groups spec)) with
  | Some extension => Err (ForbiddenExtension (ts_id spec) (ts_role spec) extension)
  | None => Ok (omap (child_extension spec) (pairs_in_order parent_tools))
  end.

Definition stripped_builtins_present (loaded : gset text) : list text :=
  List.filter (λ name, bool_decide (name ∈ loaded)) GOOSE_STRIPPED_BUILTINS.

(** ** The plan *)

Definition ANSWER_RULE : text :=
  lit "Reply with the result, not the route to it. If part of it failed, name that part in ordinary words.".

Definition nl : text := [10].

Definition subagent_envelope (spec : TaskSpec) (persona : option text) (tools : list text) : text :=
  nl ++ nl ++ lit "# Delegated task" ++ nl ++ nl ++
  lit "You are running as a helper for the assistant above, on ONE narrow task. You are not talking to the user and they will not see this conversation - only your final answer is passed back."
    ++ nl ++ nl ++
  lit "Rules for this run:" ++ nl ++
  lit "- Answer the task and stop. Do not ask follow-up questions; there is nobody to answer them." ++ nl ++
  lit "- Your last message IS the answer. Make it complete on its own, in a few sentences." ++ nl ++
  lit "- " ++ ANSWER_RULE ++ nl ++
  lit "- You have at most " ++ dec (ts_max_turns spec) ++ lit " turns. Spend them on the task." ++ nl ++
  lit "- You cannot delegate. There is no one below you." ++ nl ++
  (if is_empty tools
   then lit "- You have no tools on this run. Answer from what you are given." ++ nl
   else lit "- Your only tools are: " ++ join (lit ", ") tools ++ lit ". Nothing else is available to you." ++ nl) ++
  nl ++ lit "## Your role" ++ nl ++ nl ++
  lit "You are the `" ++ ts_role spec ++ lit "` helper." ++ nl ++
  match non_blank persona with
  | Some persona => nl ++ persona ++ nl
  | None => []
  end.

Record ChildPlan := {
  cp_task_id : text; cp_role : text; cp_parent_session_id : text; cp_child_session_id : text;
  cp_profile_scope : ProfileScope; cp_system_prompt : text; cp_user_message : text;
  cp_extensions : list ExtensionConfig; cp_allowed_tool_names : list text; cp_max_turns : N;
  cp_model : ChildModel; cp_compile_shape : option text; cp_prefill_retention : option N;
  cp_prefill_rebuild : bool; cp_nudge : option text;
}.

Definition tool_names_of (config : ExtensionConfig) : list text :=
  match config with Builtin name _ _ _ _ available_tools => tool_of name <$> available_tools end.

Section plan.
Context (to_string_pretty : Json → text).

Definition child_user_message (spec : TaskSpec) : text :=
  ts_instructions spec ++
  (if is_null (ts_inputs spec) then []
   else nl ++ nl ++ lit "Inputs:" ++ nl ++ to_string_pretty (ts_inputs spec)).

Definition build_child_plan (spec : TaskSpec) (child_session_id : text) (env : ChildEnvironment)
    (role_persona : option text) : result ChildPlan PlanRefused :=
  let? extensions := child_extensions spec (ce_parent_tools env) in
  let tool_names := extensions ≫= tool_names_of in
  Ok {| cp_task_id := ts_id spec; cp_role := ts_role spec;
        cp_parent_session_id := ts_parent_session_id spec; cp_child_session_id := child_session_id;
        cp_profile_scope := ts_scope spec;
        cp_system_prompt := ce_base_system_prefix env ++ subagent_envelope spec role_persona tool_names;
        cp_user_message := child_user_message spec; cp_extensions := extensions;
        cp_allowed_tool_names := tool_names; cp_max_turns := ts_max_turns spec;
        cp_model := ChildModel_resolve (ts_model spec) (ce_provider_name env);
        cp_compile_shape := ts_compile_shape spec; cp_prefill_retention := ts_prefill_retention spec;
        cp_prefill_rebuild := ts_prefill_rebuild spec; cp_nudge := ts_nudge spec |}.
End plan.

(** [child_model_config]: of the engine's [ModelConfig], the two fields it assigns. *)
Definition child_model_config (model : ChildModel) (parent : text * option N) : text * option N :=
  match assigned model with
  | None => parent
  | Some assigned => (assigned, None)
  end.

(** ** Turns *)

Record ChildTurns := { ct_open : option text; ct_turns : N; ct_last_completed : option text }.

Definition ChildTurns_default : ChildTurns :=
  {| ct_open := None; ct_turns := 0; ct_last_completed := None |}.

Definition assistant_message (t : ChildTurns) (txt : text) : ChildTurns :=
  match ct_open t with
  | Some open => {| ct_open := Some (open ++ txt); ct_turns := ct_turns t; ct_last_completed := ct_last_completed t |}
  | None => {| ct_open := Some txt; ct_turns := u32_sat_add (ct_turns t) 1; ct_last_completed := ct_last_completed t |}
  end.

Definition close_run (t : ChildTurns) : ChildTurns :=
  match ct_open t with
  | Some txt =>
      {| ct_open := None; ct_turns := ct_turns t;
         ct_last_completed := if is_empty (trim txt) then ct_last_completed t else Some txt |}
  | None => t
  end.

Definition other_role_message (t : ChildTurns) : ChildTurns := close_run t.

Definition turns_finish (t : ChildTurns) : option text * N :=
  let t := close_run t in (ct_last_completed t, ct_turns t).

Definition child_stream_step (turns : ChildTurns) (is_assistant : bool) (txt : text) : ChildTurns :=
  if is_assistant then assistant_message turns txt else other_role_message turns.

(** ** The run *)

Record ChildOutcome := {
  co_last_text : option text; co_assistant_turns : N; co_loaded_extensions : gset text }.

(** What a reply's stream yields: a message with its role, its text and the tools it calls (a call
    that did not parse is [None]); anything else; or the error that ends it. *)
Inductive AgentEvent : Type :=
| EvMessage (is_assistant : bool) (concat_text : text) (tool_requests : list (option text))
| EvOther
| EvError.

(** [child_tool_names]. *)
Definition child_tool_names (tool_requests : list (option text)) : list text := omap id tool_requests.

(** The turns as they are left, and the tool calls reported. *)
Fixpoint drain_child_stream (events : list AgentEvent) (turns : ChildTurns) : ChildTurns * list text :=
  match events with
  | [] | EvError :: _ => (turns, [])
  | EvOther :: events => drain_child_stream events turns
  | EvMessage is_assistant txt requests :: events =>
      let '(turns, tools) := drain_child_stream events (child_stream_step turns is_assistant txt) in
      (turns, child_tool_names requests ++ tools)
  end.

(** [reported]: what the nudge's own question answers, asked last. *)
Definition should_nudge (plan : ChildPlan) (turns : N) (cancelled reported : bool) : bool :=
  match cp_nudge plan with
  | None => false
  | Some _ => negb cancelled && (turns <? cp_max_turns plan) && negb reported
  end.

Definition after_nudge (before after : option text) : option text :=
  match before, after with
  | Some b, Some a => if byte_len a <? byte_len b then Some b else Some a
  | before, None => before
  | None, after => after
  end.

(** [run_child_agent] once the child is set up: [first] is what its reply yields and [again] what
    the nudge's does, had it been sent and started; [loaded] what is listed before and after. *)
Definition run_child_agent (plan : ChildPlan) (first : list AgentEvent) (cancelled reported : bool)
    (again : option (list AgentEvent)) (loaded : gset text) : ChildOutcome :=
  let turns := (drain_child_stream first ChildTurns_default).1 in
  let '(turns, drafted) :=
    if should_nudge plan (ct_turns turns) cancelled reported then
      let turns := other_role_message turns in
      (match again with Some events => (drain_child_stream events turns).1 | None => turns end,
       ct_last_completed turns)
    else (turns, None) in
  let '(last_text, assistant_turns) := turns_finish turns in
  {| co_last_text := after_nudge drafted last_text; co_assistant_turns := assistant_turns;
     co_loaded_extensions := loaded |}.

Definition classify_outcome (cancelled : bool) (assistant_turns max_turns : N) (last_text : option text) :
    TaskStatus * option text :=
  if cancelled then (TaskStatus.Cancelled, None) else
  let txt := default [] (trim <$> last_text) in
  if bool_decide (txt = GOOSE_MAX_TURNS_MESSAGE) || (max_turns <? assistant_turns)
  then (TaskStatus.TurnBudgetExhausted, None)
  else if is_empty txt then (TaskStatus.Failed, None)
  else (TaskStatus.Completed, Some txt).

(** ** Reference definitions *)

(** A turn is a run of the assistant's messages with nobody else's between them: its text is theirs. *)
Definition join_run (t : text) (next_speaks : bool) (runs : list text) : list text :=
  match next_speaks, runs with
  | true, r :: rs => (t ++ r) :: rs
  | _, rs => t :: rs
  end.
Definition speaks_first (messages : list (bool * text)) : bool :=
  match messages with (true, _) :: _ => true | _ => false end.
Fixpoint assistant_runs (messages : list (bool * text)) : list text :=
  match messages with
  | [] => []
  | (false, _) :: messages => assistant_runs messages
  | (true, t) :: messages => join_run t (speaks_first messages) (assistant_runs messages)
  end.

Definition says_something (t : text) : bool := negb (is_empty (trim t)).
Definition last_said (runs : list text) : option text := last (List.filter says_something runs).

(** The messages of a stream up to its error. *)
Fixpoint heard (events : list AgentEvent) : list (bool * text) :=
  match events with
  | [] | EvError :: _ => []
  | EvOther :: events => heard events
  | EvMessage is_assistant txt _ :: events => (is_assistant, txt) :: heard events
  end.

(** ** Lemmas: the tools *)

Lemma split_extension_tool_Some name e t :
  split_extension_tool name = Some (e, t) → name = tool_of e t ∧ group_of_tool name = Some e.
Proof.
  unfold split_extension_tool, group_of_tool. destruct (find_sub _ _) as [i|] eqn:E; [|done].
  destruct (is_empty _); [done|]. intros [= <- <-]. split; [|done].
  apply find_sub_Some in E as (a & b & -> & <-). unfold tool_of.
  by rewrite take_app_length, drop_app_length.
Qed.

Lemma parent_tools_of_spec names e t :
  (∃ ts, parent_tools_of names !! e = Some ts ∧ t ∈ ts) ↔ ∃ name, name ∈ names ∧ split_extension_tool name = Some (e, t).
Proof.
  induction names as [|name names IH] using rev_ind; [by split; [intros (? & ? & _)|intros (? & []%not_elem_of_nil & _)]|].
  unfold parent_tools_of in *. rewrite foldl_snoc.
  setoid_rewrite elem_of_app. setoid_rewrite elem_of_one.
  transitivity ((∃ ts, foldl note_tool ∅ names !! e = Some ts ∧ t ∈ ts) ∨ split_extension_tool name = Some (e, t)).
  - unfold note_tool at 1. destruct (split_extension_tool name) as [[e' t']|]; [|by intuition].
    destruct (decide (e' = e)) as [->|Hne].
    + rewrite lookup_insert_eq. split.
      * intros (ts & [= <-] & [->%elem_of_singleton|Hin]%elem_of_union); [by right|]. left.
        destruct (_ !! e) as [ts|]; [by exists ts|set_solver].
      * intros H. eexists. split; [done|]. destruct H as [(ts & E & Hin)|[= ->]]; [rewrite E|]; set_solver.
    + rewrite lookup_insert_ne by done. split; [by left|]. intros [?|[= ? ?]]; congruence.
  - rewrite IH. split; [intros [(n & ? & ?)|?]; eauto|]. intros (n & [?| ->] & ?); eauto.
Qed.

Lemma elem_of_pairs_in_order {A} (m : gmap text A) k x : (k, x) ∈ pairs_in_order m ↔ m !! k = Some x.
Proof. unfold pairs_in_order. rewrite elem_of_sort_with. apply elem_of_map_to_list. Qed.

Lemma elem_of_in_order s t : t ∈ in_order s ↔ t ∈ s.
Proof. unfold in_order. rewrite elem_of_sort_with. apply elem_of_elements. Qed.

Lemma child_extension_Some spec e ts config :
  child_extension spec (e, ts) = Some config →
  ∃ granted, config = Builtin e [] None (Some 600) (Some false) granted ∧ granted ≠ [] ∧
    ∀ t, t ∈ granted ↔ t ∈ ts ∧ grants_tool spec (tool_of e t) = true.
Proof.
  unfold child_extension. simpl. destruct (is_empty _) eqn:E; [done|]. intros [= <-].
  eexists. split; [done|]. split; [by apply is_empty_false|]. intros t.
  by rewrite elem_of_filter_bool, elem_of_in_order.
Qed.

Lemma child_extensions_ok spec tools configs :
  child_extensions spec tools = Ok configs →
  (∀ g, g ∈ ts_tool_groups spec → g ∉ GOOSE_STRIPPED_BUILTINS) ∧
  (∀ config, config ∈ configs → ∃ e ts, tools !! e = Some ts ∧ child_extension spec (e, ts) = Some config) ∧
  (∀ e ts t, tools !! e = Some ts → t ∈ ts → grants_tool spec (tool_of e t) = true →
     ∃ config, config ∈ configs ∧ child_extension spec (e, ts) = Some config).
Proof.
  unfold child_extensions. destruct (find_first _ _) eqn:E; [done|]. intros [= <-].
  rewrite find_first_None in E. split; [|split].
  - intros g Hg Hin. specialize (E g). rewrite elem_of_in_order in E. specialize (E Hg).
    unfold is_stripped in E. by rewrite bool_decide_true in E.
  - intros config ([e ts] & Hin & Hc)%list_elem_of_omap. exists e, ts. by apply elem_of_pairs_in_order in Hin.
  - intros e ts t Hts Ht Hg. destruct (child_extension spec (e, ts)) as [config|] eqn:Ec.
    + exists config. split; [|done]. apply list_elem_of_omap. exists (e, ts). by rewrite elem_of_pairs_in_order.
    + exfalso. unfold child_extension in Ec. simpl in Ec. destruct (is_empty _) eqn:Ee; [|done].
      apply is_empty_true in Ee. assert (t ∈ []) as []%not_elem_of_nil. rewrite <-Ee.
      by rewrite elem_of_filter_bool, elem_of_in_order.
Qed.

(** The names a plan allows are the parent's tools that the spec grants. *)
Lemma elem_of_tool_names spec listed configs name :
  child_extensions spec (parent_tools_of listed) = Ok configs →
  name ∈ (configs ≫= tool_names_of) ↔
    name ∈ listed ∧ is_Some (split_extension_tool name) ∧ grants_tool spec name = true.
Proof.
  intros (_ & Hfrom & Hto)%child_extensions_ok. rewrite list_elem_of_bind. split.
  - intros (config & Hn & Hc). destruct (Hfrom _ Hc) as (e & ts & Hts & Ec).
    apply child_extension_Some in Ec as (granted & -> & _ & Hgr). simpl in Hn.
    apply list_elem_of_fmap in Hn as (t & Heq & Hin). subst name. destruct (proj1 (Hgr t) Hin) as [Hts' Hg].
    destruct (proj1 (parent_tools_of_spec listed e t)) as (name & Hl & Hs); [by exists ts|].
    pose proof (split_extension_tool_Some _ _ _ Hs) as [-> _]. by rewrite Hs.
  - intros (Hl & [[e t] Hs] & Hg). pose proof (split_extension_tool_Some _ _ _ Hs) as [-> _].
    destruct (proj2 (parent_tools_of_spec listed e t)) as (ts & Hts & Ht); [by eexists|].
    destruct (Hto e ts t Hts Ht Hg) as (config & Hc & Ec). exists config. split; [|done].
    apply child_extension_Some in Ec as (granted & -> & _ & Hgr). simpl. apply list_elem_of_fmap. exists t.
    split; [done|]. by apply Hgr.
Qed.

Lemma build_child_plan_ok pretty spec sid env persona plan :
  build_child_plan pretty spec sid env persona = Ok plan →
  child_extensions spec (ce_parent_tools env) = Ok (cp_extensions plan) ∧
  cp_allowed_tool_names plan = cp_extensions plan ≫= tool_names_of ∧
  cp_profile_scope plan = ts_scope spec ∧ cp_parent_session_id plan = ts_parent_session_id spec ∧
  cp_max_turns plan = ts_max_turns spec ∧ cp_child_session_id plan = sid ∧ cp_task_id plan = ts_id spec.
Proof.
  unfold build_child_plan. destruct (child_extensions _ _) as [configs|]; [|done]. by intros [= <-].
Qed.

(** The names the household may read belong to no stripped builtin. *)
Lemma read_tools_not_stripped name g :
  name ∈ HOUSEHOLD_READ_TOOLS → group_of_tool name = Some g → g ∉ GOOSE_STRIPPED_BUILTINS.
Proof.
  intros Hin Hg. assert (Forall (λ n, match group_of_tool n with Some g => is_stripped g = false | None => True end)
    HOUSEHOLD_READ_TOOLS) as Hall by (repeat constructor).
  rewrite Forall_forall in Hall. specialize (Hall _ Hin). rewrite Hg in Hall.
  unfold is_stripped in Hall. by apply bool_decide_eq_false in Hall.
Qed.

(** ** Lemmas: the turns *)

Lemma assistant_runs_head t messages : ∃ r rs, assistant_runs ((true, t) :: messages) = r :: rs.
Proof. simpl. unfold join_run. destruct (speaks_first _), (assistant_runs _); eauto. Qed.

Lemma assistant_runs_join t u messages :
  assistant_runs ((true, t) :: (true, u) :: messages) = assistant_runs ((true, t ++ u) :: messages).
Proof.
  simpl. unfold join_run. destruct (speaks_first messages), (assistant_runs messages) as [|r rs]; try done.
  by rewrite (assoc_L (++)).
Qed.

Definition with_open (o : option text) (messages : list (bool * text)) : list (bool * text) :=
  match o with Some t => (true, t) :: messages | None => messages end.

Definition fold_turns (messages : list (bool * text)) (turns : ChildTurns) : ChildTurns :=
  foldl (λ s m, child_stream_step s m.1 m.2) turns messages.

Lemma last_said_cons t runs : last_said (t :: runs) = match last_said runs with Some r => Some r | None => if says_something t then Some t else None end.
Proof.
  unfold last_said. simpl. destruct (says_something t); [|by destruct (last _)].
  rewrite last_cons. by destruct (last _).
Qed.

Lemma fold_turns_spec messages o n l : (o ≠ None → 1 ≤ n) → n ≤ u32_max →
  turns_finish (fold_turns messages {| ct_open := o; ct_turns := n; ct_last_completed := l |}) =
  (match last_said (assistant_runs (with_open o messages)) with Some r => Some r | None => l end,
   N.min u32_max (n - (if o then 1 else 0) + N.of_nat (length (assistant_runs (with_open o messages))))).
Proof.
  revert o n l. induction messages as [|[[] t] messages IH]; intros o n l Ho Hn.
  - unfold turns_finish, close_run. simpl. destruct o as [t|]; simpl; [|f_equal; lia].
    assert (1 ≤ n) by (by apply Ho). unfold last_said, says_something. simpl.
    destruct (is_empty (trim t)); simpl; f_equal; lia.
  - destruct o as [u|]; simpl fold_turns.
    + unfold with_open at 1 2. rewrite assistant_runs_join. apply (IH (Some (u ++ t)) n l); [intros _; by apply Ho|done].
    + eapply eq_trans; [apply (IH (Some t) (u32_sat_add n 1) l); unfold u32_sat_add, u32_max in *; lia|].
      unfold with_open, u32_sat_add. f_equal. destruct (assistant_runs_head t messages) as (r & rs & ->).
      simpl length. lia.
  - destruct o as [u|].
    + assert (1 ≤ n) by (by apply Ho).
      eapply eq_trans; [apply (IH None n (if is_empty (trim u) then l else Some u)); done|].
      unfold with_open. change (assistant_runs ((true, u) :: (false, t) :: messages)) with (u :: assistant_runs messages).
      rewrite last_said_cons. unfold says_something. simpl length.
      f_equal; [by destruct (last_said _), (is_empty (trim u))|lia].
    + apply (IH None n l); done.
Qed.

Lemma drain_is_fold events turns : (drain_child_stream events turns).1 = fold_turns (heard events) turns.
Proof.
  revert turns. induction events as [|[a txt requests| |] events IH]; intros turns; simpl; [done| |done|done].
  specialize (IH (child_stream_step turns a txt)). by destruct (drain_child_stream _ _).
Qed.

Lemma ct_turns_finish t : ct_turns t = (turns_finish t).2.
Proof. unfold turns_finish, close_run. destruct t as [[?|] ? ?]; done. Qed.

Lemma finish_heard messages :
  turns_finish (fold_turns messages ChildTurns_default) =
  (last_said (assistant_runs messages), N.min u32_max (N.of_nat (length (assistant_runs messages)))).
Proof.
  eapply eq_trans; [by apply (fold_turns_spec messages None 0 None)|]. unfold with_open. f_equal; by destruct (last_said _).
Qed.

Lemma fold_turns_app a b t : fold_turns (a ++ b) t = fold_turns b (fold_turns a t).
Proof. apply foldl_app. Qed.

Lemma granted_was_held uuid a role request spec0 spec name :
  delegate uuid a role request = Ok spec0 → star spec_step spec0 spec →
  (∀ tool, tool ∈ da_read_tools a → tool ∈ HOUSEHOLD_READ_TOOLS) →
  (∀ g, g ∈ ts_tool_groups spec → g ∉ GOOSE_STRIPPED_BUILTINS) →
  grants_tool spec name = true →
  holds_tool a name ∧ name ∉ ts_withheld spec ∧
  ∃ g, group_of_tool name = Some g ∧ g ∈ role_tool_groups role ∧ g ∉ GOOSE_STRIPPED_BUILTINS.
Proof.
  intros Hd Hst Hread Hstrip Hg.
  apply delegate_ok in Hd as (_ & _ & _ & _ & HG & HR & _). apply spec_step_same in Hst as (_ & E2 & E3 & _).
  unfold grants_tool in Hg. case_bool_decide as Hw; [done|].
  destruct (group_of_tool name) as [g|] eqn:Eg; [|done].
  apply orb_prop in Hg as [Hin%bool_decide_eq_true|Hin%bool_decide_eq_true].
  - pose proof (Hstrip g Hin) as Hns. rewrite E2, HG in Hin. apply narrow_groups_spec in Hin as (Hreq & Hpar & _).
    split; [right; by exists g|]. split; [done|]. by exists g.
  - rewrite E3, HR in Hin. apply narrow_read_spec in Hin as (Hpar & g' & Eg' & Hreq & _).
    rewrite Eg in Eg'. injection Eg' as <-. split; [by left|]. split; [done|]. exists g. split; [done|]. split; [done|].
    by apply (read_tools_not_stripped name); [apply Hread|].
Qed.

(** The extension of a configuration is that of each of its tools' names. *)
Lemma config_group spec listed configs e d n t b tools tool :
  child_extensions spec (parent_tools_of listed) = Ok configs → Builtin e d n t b tools ∈ configs → tool ∈ tools →
  group_of_tool (tool_of e tool) = Some e.
Proof.
  intros (_ & Hfrom & _)%child_extensions_ok Hin Ht. destruct (Hfrom _ Hin) as (e' & ts & Hl & Ec).
  apply child_extension_Some in Ec as (gr & [= -> -> -> -> -> ->] & _ & Hgr). apply Hgr in Ht as [Ht _].
  destruct (proj1 (parent_tools_of_spec listed e' tool)) as (name & _ & Hs); [by exists ts|].
  pose proof (split_extension_tool_Some _ _ _ Hs) as [-> Hg]. exact Hg.
Qed.

Lemma plan_refused_iff pretty spec sid env persona :
  is_ok (build_child_plan pretty spec sid env persona) = false ↔
  ∃ g, g ∈ ts_tool_groups spec ∧ g ∈ GOOSE_STRIPPED_BUILTINS.
Proof.
  unfold build_child_plan, child_extensions. destruct (find_first is_stripped _) as [g|] eqn:E; simpl.
  - apply find_some_iff in E as [Hin%elem_of_in_order Hs%bool_decide_eq_true]. split; [|done]. intros _. by exists g.
  - rewrite find_first_None in E. split; [done|]. intros (g & Hg & Hs).
    rewrite <-elem_of_in_order in Hg. specialize (E g Hg). unfold is_stripped in E. by rewrite bool_decide_true in E.
Qed.

(** ** Properties *)

(** C20: the tools a helper may call are exactly those the engine lists for its parent's session, in
    the form of a tool of an extension, that its spec grants; so each was held by the turn that
    delegated, was asked for by the role, is withheld by no builder, and belongs to none of the
    builtins that are stripped from every session. No extension is handed over with an empty list of
    tools, which the engine would read as all of them. The child runs within its parent's scope. A
    plan is refused just when the spec's groups name a stripped builtin. *)
Theorem helper_gets_what_its_turn_has uuid a role request spec0 spec pretty sid provider prefix listed persona :
  delegate uuid a role request = Ok spec0 → star spec_step spec0 spec →
  (∀ tool, tool ∈ da_read_tools a → tool ∈ HOUSEHOLD_READ_TOOLS) →
  let plan := build_child_plan pretty spec sid (child_environment provider prefix listed) persona in
  (is_ok plan = false ↔ ∃ g, g ∈ ts_tool_groups spec ∧ g ∈ GOOSE_STRIPPED_BUILTINS) ∧
  ∀ p, plan = Ok p →
    (∀ name, name ∈ cp_allowed_tool_names p ↔
       name ∈ listed ∧ is_Some (split_extension_tool name) ∧ grants_tool spec name = true) ∧
    (∀ name, name ∈ cp_allowed_tool_names p →
       holds_tool a name ∧ name ∉ ts_withheld spec ∧
       ∃ g, group_of_tool name = Some g ∧ g ∈ role_tool_groups role ∧ g ∉ GOOSE_STRIPPED_BUILTINS) ∧
    (∀ e d n t b tools, Builtin e d n t b tools ∈ cp_extensions p →
       tools ≠ [] ∧ e ∉ GOOSE_STRIPPED_BUILTINS ∧ ∀ tool, tool ∈ tools → tool_of e tool ∈ cp_allowed_tool_names p) ∧
    is_within (cp_profile_scope p) (da_scope a) = true.
Proof.
  intros Hd Hst Hread plan. split; [apply plan_refused_iff|].
  intros p Hp. apply build_child_plan_ok in Hp as (Hx & Hn & Hs & _). simpl in Hx.
  pose proof (λ name, elem_of_tool_names spec listed _ name Hx) as Hnames. rewrite <-Hn in Hnames.
  pose proof (child_extensions_ok _ _ _ Hx) as (Hstrip & Hfrom & _).
  assert (∀ name, name ∈ cp_allowed_tool_names p → holds_tool a name ∧ name ∉ ts_withheld spec ∧
    ∃ g, group_of_tool name = Some g ∧ g ∈ role_tool_groups role ∧ g ∉ GOOSE_STRIPPED_BUILTINS) as Hheld.
  { intros name (_ & _ & Hg)%Hnames. by eapply granted_was_held. }
  split; [done|]. split; [done|]. split.
  - intros e d n t b tools Hin.
    assert (∀ tool, tool ∈ tools → tool_of e tool ∈ cp_allowed_tool_names p) as Hall.
    { intros tool Ht. rewrite Hn, list_elem_of_bind. eexists. split; [|exact Hin]. simpl.
      apply list_elem_of_fmap. by exists tool. }
    destruct (Hfrom _ Hin) as (e' & ts & _ & (granted & [= <- _ _ _ _ <-] & Hne & _)%child_extension_Some).
    split; [done|]. split; [|done]. destruct tools as [|tool tools]; [done|].
    destruct (Hheld _ (Hall tool ltac:(by left))) as (_ & _ & g & Eg & _ & Hns).
    rewrite (config_group _ _ _ _ _ _ _ _ _ tool Hx Hin) in Eg by (by left). by injection Eg as <-.
  - rewrite Hs. apply delegate_ok in Hd as (_ & _ & _ & Hsc & _). apply spec_step_same in Hst as (-> & _).
    rewrite Hsc. apply clamp_within.
Qed.

Definition scout_listed : list text :=
  [lit "giap-knowledge__search_web"; lit "giap-memory__recall"; lit "shell"; lit "__odd"; lit "tom__apply"].

Definition scout_plan : result ChildPlan PlanRefused :=
  build_child_plan (λ _, []) scout_spec (lit "child-1") (child_environment (lit "local") [] scout_listed) (Some (lit " ")).

Lemma helper_gets_what_its_turn_has_witness :
  (cp_allowed_tool_names <$> match scout_plan with Ok p => Some p | Err _ => None end) = Some [lit "giap-knowledge__search_web"] ∧
  is_ok (build_child_plan (λ _, []) scout_spec (lit "child-1") (child_environment (lit "local") [] scout_listed) None) = true.
Proof.
  split; [vm_compute; reflexivity|].
  destruct (helper_gets_what_its_turn_has (lit "u1") member_turn scout scout_request scout_spec scout_spec
    (λ _, []) (lit "child-1") (lit "local") [] scout_listed None) as [H _].
  - vm_compute. reflexivity.
  - apply star_refl.
  - intros tool Ht. apply (elem_of_list_to_set (C := gset text)) in Ht. apply elem_of_filter_bool in Ht as [_ Ht].
    by apply bool_decide_eq_true in Ht.
  - destruct (is_ok _) eqn:E; [done|]. destruct (proj1 H eq_refl) as (g & Hg & Hs). exfalso.
    assert (Forall (λ g, is_stripped g = false) (elements (ts_tool_groups scout_spec))) as Hall by (vm_compute; repeat constructor).
    rewrite Forall_forall in Hall. specialize (Hall g). rewrite elem_of_elements in Hall. specialize (Hall Hg).
    unfold is_stripped in Hall. by rewrite bool_decide_true in Hall.
Defined.

(** What a run said, nudge included. *)
Definition said (plan : ChildPlan) (first : list AgentEvent) (nudged : bool) (again : option (list AgentEvent)) :
    list (bool * text) :=
  if nudged then heard first ++ (false, []) :: default [] (heard <$> again) else heard first.

(** C33: a helper's run is judged by its turns. A turn is a run of the assistant's messages with no
    other between them; the answer is the whole of the last turn that says something (or, of a
    helper that was nudged, what it had said before, when that is longer). The run is completed, with
    that answer trimmed, exactly when it was not cancelled, took no more turns than it had, and the
    answer is neither blank nor the engine's message for a spent budget. *)
Theorem helper_is_judged_by_its_turns plan first cancelled reported again loaded c :
  let runs := assistant_runs (heard first) in
  let nudged := should_nudge plan (N.min u32_max (N.of_nat (length runs))) cancelled reported in
  let all := assistant_runs (said plan first nudged again) in
  let outcome := run_child_agent plan first cancelled reported again loaded in
  co_assistant_turns outcome = N.min u32_max (N.of_nat (length all)) ∧
  co_last_text outcome = (if nudged then after_nudge (last_said runs) (last_said all) else last_said all) ∧
  ∀ answer,
    classify_outcome c (co_assistant_turns outcome) (cp_max_turns plan) (co_last_text outcome) =
      (TaskStatus.Completed, Some answer) ↔
    c = false ∧ N.min u32_max (N.of_nat (length all)) ≤ cp_max_turns plan ∧
    answer = default [] (trim <$> co_last_text outcome) ∧ answer ≠ [] ∧ answer ≠ GOOSE_MAX_TURNS_MESSAGE.
Proof.
  intros runs nudged all outcome.
  assert (co_assistant_turns outcome = N.min u32_max (N.of_nat (length all)) ∧
    co_last_text outcome = (if nudged then after_nudge (last_said runs) (last_said all) else last_said all)) as [Ht Hl].
  { unfold outcome, run_child_agent. rewrite drain_is_fold, ct_turns_finish, finish_heard.
    change (N.min u32_max (N.of_nat (length (assistant_runs (heard first))))) with (N.min u32_max (N.of_nat (length runs))).
    cbv zeta. cbn [snd]. fold runs nudged. unfold all, said. destruct nudged.
    - set (closed := other_role_message _).
      assert (closed = fold_turns (heard first ++ [(false, [])]) ChildTurns_default) as Hc
        by (unfold closed; rewrite fold_turns_app; done).
      assert (ct_last_completed closed = last_said runs) as Hd.
      { pose proof (finish_heard (heard first)) as H. unfold turns_finish in H. injection H as H _. exact H. }
      assert (match again with Some events => (drain_child_stream events closed).1 | None => closed end =
              fold_turns (heard first ++ (false, []) :: default [] (heard <$> again)) ChildTurns_default) as ->.
      { change ((false, []) :: ?l) with ([(false, []) : bool * text] ++ l).
        rewrite (assoc_L (++)), fold_turns_app, <-Hc. destruct again; simpl; [apply drain_is_fold|done]. }
      rewrite Hd. cbn beta iota zeta. rewrite finish_heard. done.
    - cbn beta iota zeta. rewrite finish_heard. split; [done|]. simpl. by destruct (last_said _). }
  split; [done|]. split; [done|]. intros answer. rewrite Ht. unfold classify_outcome.
  destruct c; [by split; [|intros [? _]]|].
  set (txt := default [] _). case_bool_decide as Hm; simpl; [split; [done|intros (_ & _ & -> & _ & ?); done]|].
  destruct (N.ltb_spec (cp_max_turns plan) (N.min u32_max (N.of_nat (length all)))); simpl; [split; [done|lia]|].
  destruct (is_empty txt) eqn:E; [apply is_empty_true in E|apply is_empty_false in E].
  - split; [done|]. intros (_ & _ & -> & ? & _). done.
  - split; [intros [= <-]; done|]. by intros (_ & _ & -> & _).
Qed.

(** A helper asked to report is told it has two turns for it, but they count against the turns of
    its run: one that stopped a turn short and reports in its second is taken for one that ran out. *)
Definition nudged_plan : ChildPlan :=
  {| cp_task_id := []; cp_role := []; cp_parent_session_id := []; cp_child_session_id := [];
     cp_profile_scope := Guest; cp_system_prompt := []; cp_user_message := []; cp_extensions := [];
     cp_allowed_tool_names := []; cp_max_turns := 3; cp_model := ChildModel.Inherited;
     cp_compile_shape := None; cp_prefill_retention := None; cp_prefill_rebuild := false;
     cp_nudge := Some (lit "Report now") |}.

Example a_nudged_helper_runs_out :
  let first := [EvMessage true (lit "Looking") [Some (lit "giap-knowledge__search_web")]; EvMessage false [] [];
                EvMessage true (lit "Flights are full") []] in
  let again := [EvMessage true [] [Some (lit "giap-task-work__report")]; EvMessage false [] [];
                EvMessage true (lit "Reported: flights are full.") []] in
  let outcome := run_child_agent nudged_plan first false false (Some again) ∅ in
  should_nudge nudged_plan 2 false false = true ∧
  co_last_text outcome = Some (lit "Reported: flights are full.") ∧ co_assistant_turns outcome = 4 ∧
  classify_outcome false (co_assistant_turns outcome) (cp_max_turns nudged_plan) (co_last_text outcome) =
    (TaskStatus.TurnBudgetExhausted, None).
Proof. vm_compute. done. Qed.
