(* ===== verification/Orchestrator.v ===== *)
(** * Orchestrator: how a helper's run is started, followed and stopped

    [crates/pond-adapters-goose/src/orchestrator.rs]: the device ledger, the channel of progress,
    the registry of runs, [spawn], [drive_run], [poll], [cancel], [list], [cancel_children_of] and a
    parent turn's claim of the device, with [pond-core/src/shared/services/child_sessions.rs].
    A future is a program of the sections it runs between its awaits; guards that are released by
    [Drop] are what its task holds ([Held]), released one section at a time once it has returned or
    was dropped. The engine answers [GetEnvironment], [OpenChildSession] and [RunChild] anything.

    A [tokio] semaphore is its free permits. [acquire_many] waits until as many are free and takes
    them; that it serves its waiters in turn is not used, so what holds here holds in any order.
    None is ever closed. The random ids of specs are never drawn twice. *)
From S2P Require Import Prelude Prog Text Scope HandBack ToolGroups Locality RoleBlock Delegation TurnAuthority ChildPlan.
From Stdlib Require Import QArith.
Local Open Scope N_scope.

(** ** The device ledger *)

Record DeviceHoldState := { dh_holders : N; dh_children : nat }.
Record DeviceLedger := {
  dl_reservations : gmap text (list f32);
  dl_device_holders : gmap text DeviceHoldState;
}.
Definition DeviceLedger_default : DeviceLedger := {| dl_reservations := ∅; dl_device_holders := ∅ |}.

(** [==] of [f32]: of no number, false. *)
Definition f32_eqb (a b : f32) : bool :=
  match a, b with Finite p, Finite q => Qeq_bool p q | _, _ => false end.

Definition with_reservations (m : gmap text (list f32)) (l : DeviceLedger) : DeviceLedger :=
  {| dl_reservations := m; dl_device_holders := dl_device_holders l |}.
Definition with_holders (m : gmap text DeviceHoldState) (l : DeviceLedger) : DeviceLedger :=
  {| dl_reservations := dl_reservations l; dl_device_holders := m |}.

Definition reserve (session : text) (fraction : f32) (l : DeviceLedger) : DeviceLedger :=
  with_reservations
    (<[session := default [] (dl_reservations l !! session) ++ [fraction]]> (dl_reservations l)) l.

(** The drop of a [HistoryReservation]. *)
Definition drop_reservation (session : text) (fraction : f32) (l : DeviceLedger) : DeviceLedger :=
  match dl_reservations l !! session with
  | None => l
  | Some fractions =>
      let fractions :=
        match position (λ f, f32_eqb f fraction) fractions with
        | Some at_ => delete at_ fractions
        | None => fractions
        end in
      with_reservations
        (if is_empty fractions then delete session (dl_reservations l)
         else <[session := fractions]> (dl_reservations l)) l
  end.

(** [sum_clamped]: the sum of an [f32] vector, clamped to [0.0, 1.0]. *)
Definition reserved_fraction (sum_clamped : list f32 → f32) (session : text) (l : DeviceLedger) : f32 :=
  match dl_reservations l !! session with Some fractions => sum_clamped fractions | None => Finite 0 end.

Definition live_children (session : text) (l : DeviceLedger) : nat :=
  match dl_reservations l !! session with Some fractions => length fractions | None => O end.

(** [fresh]: the semaphore made if the session has no entry. *)
Definition hold_device (session : text) (fresh : nat) (l : DeviceLedger) : DeviceLedger :=
  let state := default {| dh_holders := 0; dh_children := fresh |} (dl_device_holders l !! session) in
  with_holders
    (<[session := {| dh_holders := dh_holders state + 1; dh_children := dh_children state |}]>
       (dl_device_holders l)) l.

(** The drop of a [DeviceHold]. *)
Definition drop_hold (session : text) (l : DeviceLedger) : DeviceLedger :=
  match dl_device_holders l !! session with
  | None => l
  | Some state =>
      let holders := dh_holders state - 1 in
      with_holders
        (if holders =? 0 then delete session (dl_device_holders l)
         else <[session := {| dh_holders := holders; dh_children := dh_children state |}]> (dl_device_holders l)) l
  end.

Definition session_holds_device (session : text) (l : DeviceLedger) : bool :=
  match dl_device_holders l !! session with Some state => 0 <? dh_holders state | None => false end.

Definition inherited_child_permits (session : text) (l : DeviceLedger) : option nat :=
  match dl_device_holders l !! session with
  | Some state => if 0 <? dh_holders state then Some (dh_children state) else None
  | None => None
  end.

(** ** The channel of progress *)

Module SubagentStatus.
Inductive SubagentStatus : Type :=
| Queued | Running | Tool | Completed | Cancelled | TurnBudgetExhausted | Failed.
End SubagentStatus.
Notation SubagentStatus := SubagentStatus.SubagentStatus.

Definition SubagentStatus_from (s : TaskStatus) : SubagentStatus :=
  match s with
  | TaskStatus.Queued => SubagentStatus.Queued
  | TaskStatus.Running => SubagentStatus.Running
  | TaskStatus.Completed => SubagentStatus.Completed
  | TaskStatus.Cancelled => SubagentStatus.Cancelled
  | TaskStatus.TurnBudgetExhausted => SubagentStatus.TurnBudgetExhausted
  | TaskStatus.Failed => SubagentStatus.Failed
  end.

Record ChildProgress := {
  pg_parent_session_id : text; pg_task_id : text; pg_role : text; pg_status : SubagentStatus;
  pg_detail : option text;
}.

(** A stream is the frames it has not read yet; [next_id] counts as if it never wrapped. *)
Record ProgressStream := { pst_session_id : text; pst_rx : list ChildProgress }.
Record ProgressBus := {
  pb_subscribers : gmap text N;
  pb_next_id : N;
  pb_streams : gmap N ProgressStream;
}.
Definition ProgressBus_default : ProgressBus :=
  {| pb_subscribers := ∅; pb_next_id := 0; pb_streams := ∅ |}.

Definition subscribe (session : text) (b : ProgressBus) : ProgressBus :=
  let id := pb_next_id b in
  {| pb_subscribers := <[session := id]> (pb_subscribers b); pb_next_id := id + 1;
     pb_streams := <[id := {| pst_session_id := session; pst_rx := [] |}]> (pb_streams b) |}.

Definition publish_frame (frame : ChildProgress) (b : ProgressBus) : ProgressBus :=
  match pb_subscribers b !! pg_parent_session_id frame with
  | None => b
  | Some id =>
      {| pb_subscribers := pb_subscribers b; pb_next_id := pb_next_id b;
         pb_streams :=
           alter (λ s, {| pst_session_id := pst_session_id s; pst_rx := pst_rx s ++ [frame] |}) id (pb_streams b) |}
  end.

(** [ProgressStream::next] when a frame waits. *)
Definition next_frame (id : N) (b : ProgressBus) : ProgressBus :=
  {| pb_subscribers := pb_subscribers b; pb_next_id := pb_next_id b;
     pb_streams :=
       alter (λ s, {| pst_session_id := pst_session_id s; pst_rx := tail (pst_rx s) |}) id (pb_streams b) |}.

(** The drop of a [ProgressStream]. *)
Definition drop_stream (id : N) (b : ProgressBus) : ProgressBus :=
  match pb_streams b !! id with
  | None => b
  | Some s =>
      {| pb_subscribers :=
           if bool_decide (pb_subscribers b !! pst_session_id s = Some id)
           then delete (pst_session_id s) (pb_subscribers b) else pb_subscribers b;
         pb_next_id := pb_next_id b; pb_streams := delete id (pb_streams b) |}
  end.

(** ** Tokens and the registry of runs *)

(** A turn's token, one of a run's own, or one derived from a turn's. *)
Inductive Token : Type := TurnToken (t : CancellationToken) | OwnToken (n : N) | ChildToken (n : N) (parent : CancellationToken).

#[export] Instance Token_eq_dec : EqDecision Token.
Proof. solve_decision. Defined.

Record TaskEntry := { en_run : TaskRun; en_cancel : Token }.

Definition MAX_TRACKED_TASKS : nat := 64.

Definition with_status (s : TaskStatus) (r : TaskRun) : TaskRun :=
  {| tr_id := tr_id r; tr_role := tr_role r; tr_parent_session_id := tr_parent_session_id r; tr_status := s;
     tr_result := tr_result r; tr_error := tr_error r; tr_started_at := tr_started_at r; tr_finished_at := tr_finished_at r |}.
Definition with_end (s : TaskStatus) (res err : option text) (at_ : Z) (r : TaskRun) : TaskRun :=
  {| tr_id := tr_id r; tr_role := tr_role r; tr_parent_session_id := tr_parent_session_id r; tr_status := s;
     tr_result := res; tr_error := err; tr_started_at := tr_started_at r; tr_finished_at := Some at_ |}.
Definition on_run (f : TaskRun → TaskRun) (e : TaskEntry) : TaskEntry := {| en_run := f (en_run e); en_cancel := en_cancel e |}.

Notation Tasks := (gmap text TaskEntry).

Definition is_live (e : TaskEntry) : bool := negb (TaskStatus_is_terminal (tr_status (en_run e))).

(** The finished entry that started first; of several, whichever the map yields first. *)
Definition oldest_terminal (tasks : Tasks) (victim : option text) : Prop :=
  match victim with
  | Some id => ∃ e, tasks !! id = Some e ∧ is_live e = false ∧
      ∀ j e', tasks !! j = Some e' → is_live e' = false → (tr_started_at (en_run e) ≤ tr_started_at (en_run e'))%Z
  | None => ∀ j e, tasks !! j = Some e → is_live e = true
  end.

Definition evict_task (victim : option text) (tasks : Tasks) : Tasks :=
  match victim with Some id => delete id tasks | None => tasks end.

Definition insert_run (run : TaskRun) (cancel : Token) (tasks tasks' : Tasks) : Prop :=
  ∃ victim, (if (MAX_TRACKED_TASKS <=? size tasks)%nat then oldest_terminal tasks victim else victim = None) ∧
    tasks' = <[tr_id run := {| en_run := run; en_cancel := cancel |}]> (evict_task victim tasks).

Definition start_run (id : text) (tasks : Tasks) : Tasks := alter (on_run (with_status TaskStatus.Running)) id tasks.
Definition finish_run (id : text) (status : TaskStatus) (res err : option text) (at_ : Z) (tasks : Tasks) : Tasks :=
  alter (on_run (with_end status res err at_)) id tasks.

Definition poll (id : text) (tasks : Tasks) : option TaskRun := en_run <$> tasks !! id.

(** Runs that started at one time come in whichever order the map has. *)
Definition list_runs (parent_session_id : text) (tasks : Tasks) : list TaskRun :=
  sort_with (λ a b, (tr_started_at a <=? tr_started_at b)%Z)
    (List.filter (λ r, bool_decide (tr_parent_session_id r = parent_session_id)) (en_run ∘ snd <$> map_to_list tasks)).

Definition owed_to (parent_session_id : text) (e : TaskEntry) : bool :=
  bool_decide (tr_parent_session_id (en_run e) = parent_session_id) && is_live e.

(** ** The sections of the programs *)

Record Semaphore := { sem_free : N; sem_session : option text }.

Definition SEM_PROCESS : nat := O.

Record World := {
  w_ledger : DeviceLedger;
  w_tasks : Tasks;
  w_authorities : Entries;
  w_children : gmap text (text * ProfileScope);
  w_bus : ProgressBus;
  w_semaphores : list Semaphore;
  w_cancelled : list Token;
  w_tokens : N;
  w_now : Z;
  (** The ids drawn, and those of runs whose future was dropped. *)
  w_ids : gset text;
  w_lost : gset text;
}.

Definition is_cancelled (w : World) (t : Token) : bool :=
  bool_decide (t ∈ w_cancelled w) ||
  match t with ChildToken _ parent => bool_decide (TurnToken parent ∈ w_cancelled w) | _ => false end.

Definition set_ledger (x : DeviceLedger) (w : World) : World :=
  {| w_ledger := x; w_tasks := w_tasks w; w_authorities := w_authorities w; w_children := w_children w; w_bus := w_bus w;
     w_semaphores := w_semaphores w; w_cancelled := w_cancelled w; w_tokens := w_tokens w; w_now := w_now w;
     w_ids := w_ids w; w_lost := w_lost w |}.
Definition set_tasks (x : Tasks) (w : World) : World :=
  {| w_ledger := w_ledger w; w_tasks := x; w_authorities := w_authorities w; w_children := w_children w; w_bus := w_bus w;
     w_semaphores := w_semaphores w; w_cancelled := w_cancelled w; w_tokens := w_tokens w; w_now := w_now w;
     w_ids := w_ids w; w_lost := w_lost w |}.
Definition set_children (x : gmap text (text * ProfileScope)) (w : World) : World :=
  {| w_ledger := w_ledger w; w_tasks := w_tasks w; w_authorities := w_authorities w; w_children := x; w_bus := w_bus w;
     w_semaphores := w_semaphores w; w_cancelled := w_cancelled w; w_tokens := w_tokens w; w_now := w_now w;
     w_ids := w_ids w; w_lost := w_lost w |}.
Definition set_bus (x : ProgressBus) (w : World) : World :=
  {| w_ledger := w_ledger w; w_tasks := w_tasks w; w_authorities := w_authorities w; w_children := w_children w; w_bus := x;
     w_semaphores := w_semaphores w; w_cancelled := w_cancelled w; w_tokens := w_tokens w; w_now := w_now w;
     w_ids := w_ids w; w_lost := w_lost w |}.
Definition set_semaphores (x : list Semaphore) (w : World) : World :=
  {| w_ledger := w_ledger w; w_tasks := w_tasks w; w_authorities := w_authorities w; w_children := w_children w; w_bus := w_bus w;
     w_semaphores := x; w_cancelled := w_cancelled w; w_tokens := w_tokens w; w_now := w_now w;
     w_ids := w_ids w; w_lost := w_lost w |}.
Definition set_cancelled (x : list Token) (w : World) : World :=
  {| w_ledger := w_ledger w; w_tasks := w_tasks w; w_authorities := w_authorities w; w_children := w_children w; w_bus := w_bus w;
     w_semaphores := w_semaphores w; w_cancelled := x; w_tokens := w_tokens w; w_now := w_now w;
     w_ids := w_ids w; w_lost := w_lost w |}.
Definition set_ids (x lost : gset text) (w : World) : World :=
  {| w_ledger := w_ledger w; w_tasks := w_tasks w; w_authorities := w_authorities w; w_children := w_children w; w_bus := w_bus w;
     w_semaphores := w_semaphores w; w_cancelled := w_cancelled w; w_tokens := w_tokens w; w_now := w_now w;
     w_ids := x; w_lost := lost |}.
Definition count_token (w : World) : World :=
  {| w_ledger := w_ledger w; w_tasks := w_tasks w; w_authorities := w_authorities w; w_children := w_children w; w_bus := w_bus w;
     w_semaphores := w_semaphores w; w_cancelled := w_cancelled w; w_tokens := w_tokens w + 1; w_now := w_now w;
     w_ids := w_ids w; w_lost := w_lost w |}.
Definition set_outside (authorities : Entries) (now : Z) (w : World) : World :=
  {| w_ledger := w_ledger w; w_tasks := w_tasks w; w_authorities := authorities; w_children := w_children w; w_bus := w_bus w;
     w_semaphores := w_semaphores w; w_cancelled := w_cancelled w; w_tokens := w_tokens w; w_now := now;
     w_ids := w_ids w; w_lost := w_lost w |}.

Definition take_permits (n : N) (s : Semaphore) : Semaphore := {| sem_free := sem_free s - n; sem_session := sem_session s |}.
Definition give_permits (n : N) (s : Semaphore) : Semaphore := {| sem_free := sem_free s + n; sem_session := sem_session s |}.

(** How a compiling run tells the engine what becomes of its prefill. *)
Inductive PrefillContext : Type :=
| NoPrefill | CompilingPrefill (shape : text) | CompilingPrefillRetaining (shape : text) (retention : N) | RebuildingPrefill (shape : text).

Definition prefill_context (plan : ChildPlan) : PrefillContext :=
  match cp_compile_shape plan, cp_prefill_retention plan with
  | Some shape, retention =>
      if cp_prefill_rebuild plan then RebuildingPrefill shape
      else match retention with Some r => CompilingPrefillRetaining shape r | None => CompilingPrefill shape end
  | None, _ => NoPrefill
  end.

Inductive RunCall : Type → Type :=
| ParentTurnToken (session : text) : RunCall (option CancellationToken)
| Reserve (session : text) (fraction : f32) : RunCall unit
| GetEnvironment (session : text) : RunCall (result ChildEnvironment text)
| NewToken : RunCall Token
| DeriveToken (parent : CancellationToken) : RunCall Token
| OpenChildSession (role : text) : RunCall (result text text)
| ReleaseChild (child_session_id : text) : RunCall unit
| Now : RunCall Z
| InsertRun (run : TaskRun) (cancel : Token) : RunCall unit
| ReportProgress (frame : ChildProgress) : RunCall unit
| SpawnTask (run : TaskRun) : RunCall unit
| InheritedPermits (session : text) : RunCall (option nat)
| AcquireMany (device : nat) (needed : N) (cancel : Token) : RunCall bool
| StartRun (id : text) : RunCall unit
| BindChild (child parent : text) (scope : ProfileScope) : RunCall unit
| RunChild (plan : ChildPlan) (prefill : PrefillContext) (prime_waiting : bool) (cancel : Token) : RunCall (result ChildOutcome text)
| IsCancelled (t : Token) : RunCall bool
| FinishRun (id : text) (status : TaskStatus) (res err : option text) : RunCall unit
| HoldDevice (session : text) : RunCall unit
| Converse (session : text) : RunCall unit.

(** Where a future waits, and may be dropped. *)
Definition awaited {R} (c : RunCall R) : bool :=
  match c with
  | GetEnvironment _ | OpenChildSession _ | ReleaseChild _ | AcquireMany _ _ _ | RunChild _ _ _ _ | Converse _ => true
  | _ => false
  end.

(** ** The programs *)

Inductive SpawnError : Type :=
| NoLiveTurn (session : text)
| EngineError (e : text)
| BackgroundRefused (refusal : text)
| PlanRefusedError (e : PlanRefused).

Definition frame_of (run : TaskRun) (status : SubagentStatus) (detail : option text) : ChildProgress :=
  {| pg_parent_session_id := tr_parent_session_id run; pg_task_id := tr_id run; pg_role := tr_role run;
     pg_status := status; pg_detail := detail |}.

(** What [drain_child_stream] reports of a tool the helper calls. *)
Definition tool_frame (plan : ChildPlan) (tool : text) : ChildProgress :=
  {| pg_parent_session_id := cp_parent_session_id plan; pg_task_id := cp_task_id plan; pg_role := cp_role plan;
     pg_status := SubagentStatus.Tool; pg_detail := Some tool |}.

Definition SMUGGLED : text := lit "subagent loaded stripped Goose builtins: ".
Definition NO_ANSWER : text := lit "subagent produced no answer".

(** The outcome of [drive_run]'s [match outcome]. *)
Definition judge (outcome : result ChildOutcome text) (max_turns : N) (cancel : Token)
    (k : TaskStatus → option text → option text → Prog RunCall TaskRun) : Prog RunCall TaskRun :=
  match outcome with
  | Ok outcome =>
      let smuggled := stripped_builtins_present (co_loaded_extensions outcome) in
      if negb (is_empty smuggled)
      then k TaskStatus.Failed None (Some (SMUGGLED ++ join (lit ", ") smuggled))
      else
        let! cancelled := IsCancelled cancel in
        let '(status, res) := classify_outcome cancelled (co_assistant_turns outcome) max_turns (co_last_text outcome) in
        k status res (match status with TaskStatus.Failed => Some NO_ANSWER | _ => None end)
  | Err e => k TaskStatus.Failed None (Some e)
  end.

Definition drive_run (provider : text) (plan : ChildPlan) (run : TaskRun) (cancel : Token) : Prog RunCall TaskRun :=
  let! inherited := InheritedPermits (tr_parent_session_id run) in
  let '(device, needed) :=
    match inherited with Some siblings => (siblings, 1) | None => (SEM_PROCESS, subagent_permits provider) end in
  let! permit := AcquireMany device needed cancel in
  if negb permit then
    do! ReleaseChild (cp_child_session_id plan) in
    do! FinishRun (tr_id run) TaskStatus.Cancelled None None in
    let! now := Now in
    let run := with_end TaskStatus.Cancelled (tr_result run) (tr_error run) now run in
    do! ReportProgress (frame_of run SubagentStatus.Cancelled None) in
    Ret run
  else
    let run := with_status TaskStatus.Running run in
    do! StartRun (tr_id run) in
    do! ReportProgress (frame_of run SubagentStatus.Running None) in
    do! BindChild (cp_child_session_id plan) (tr_parent_session_id run) (cp_profile_scope plan) in
    let! outcome := RunChild plan (prefill_context plan) (bool_decide (is_Some inherited)) cancel in
    do! ReleaseChild (cp_child_session_id plan) in
    judge outcome (cp_max_turns plan) cancel (λ status res err,
      do! FinishRun (tr_id run) status res err in
      do! ReportProgress (frame_of run (SubagentStatus_from status) err) in
      let! now := Now in
      Ret (with_end status res err now run)).

Section spawning.
Context (to_string_pretty : Json → text).

Definition background_refusal (spec : TaskSpec) (env : ChildEnvironment) : option text :=
  if ts_background spec then Background_refusal (for_provider (ce_provider_name env)) else None.

Definition persona_of (spec : TaskSpec) : option text :=
  if is_empty (trim (ts_persona spec)) then None else Some (ts_persona spec).

Definition spawn (spec : TaskSpec) : Prog RunCall (result TaskRun SpawnError) :=
  let! parent_turn := ParentTurnToken (ts_parent_session_id spec) in
  match parent_turn with
  | None => Ret (Err (NoLiveTurn (ts_parent_session_id spec)))
  | Some parent_turn =>
      do! Reserve (ts_parent_session_id spec) (ts_context_fraction spec) in
      let! env := GetEnvironment (ts_parent_session_id spec) in
      match env with
      | Err e => Ret (Err (EngineError e))
      | Ok env =>
          match background_refusal spec env with
          | Some refusal => Ret (Err (BackgroundRefused refusal))
          | None =>
              let! cancel := (if ts_background spec then NewToken else DeriveToken parent_turn) in
              let! child_session_id := OpenChildSession (ts_role spec) in
              match child_session_id with
              | Err e => Ret (Err (EngineError e))
              | Ok child_session_id =>
                  match build_child_plan to_string_pretty spec child_session_id env (persona_of spec) with
                  | Err refused =>
                      do! ReleaseChild child_session_id in
                      Ret (Err (PlanRefusedError refused))
                  | Ok plan =>
                      let! now := Now in
                      let run := with_status TaskStatus.Queued (TaskRun_started spec now) in
                      do! InsertRun run cancel in
                      do! ReportProgress (frame_of run SubagentStatus.Queued None) in
                      if ts_background spec then
                        do! SpawnTask run in
                        prog_bind (drive_run (ce_provider_name env) plan run cancel) (λ _, Ret (Ok run))
                      else
                        prog_bind (drive_run (ce_provider_name env) plan run cancel) (λ run, Ret (Ok run))
                  end
              end
          end
      end
  end.

Definition spawn_task (spec : TaskSpec) : Prog RunCall unit := prog_bind (spawn spec) (λ _, Ret tt).
End spawning.

Definition claim_device_for_turn (session provider : text) (cancel : CancellationToken) : Prog RunCall bool :=
  let needed := parent_turn_permits provider in
  if needed =? 0 then Ret false else
  let! permit := AcquireMany SEM_PROCESS needed (TurnToken cancel) in
  if permit then do! HoldDevice session in Ret true else Ret false.

(** A parent's turn: its claim, kept for as long as it converses. *)
Definition turn (session provider : text) (cancel : CancellationToken) : Prog RunCall unit :=
  prog_bind (claim_device_for_turn session provider cancel) (λ _, do! Converse session in Ret tt).

(** ** What a task holds *)

Inductive RunPhase : Type := NotRegistered | Registered (cancel : Token) | Finished.

(** The guards, in the order they are released; whether it was detached; and, for the proofs, the id
    of the spec, the turn (a task, of a session) that waits for it, what the environment said of the
    provider, what it was told of permits to inherit once it asked, whether it has queued for a
    permit, and where its run is. *)
Record Held := {
  h_bound : option text;
  h_hold : option text;
  h_permit : option (nat * N);
  h_reservation : option (text * f32);
  h_detached : bool;
  h_id : option text;
  h_turn : option (nat * text);
  h_provider : option text;
  h_inherits : option (option (nat * text));
  h_queued : bool;
  h_phase : RunPhase;
}.

Definition nothing_held (id : option text) (turn : option (nat * text)) : Held :=
  {| h_bound := None; h_hold := None; h_permit := None; h_reservation := None; h_detached := false; h_id := id;
     h_turn := turn; h_provider := None; h_inherits := None; h_queued := false; h_phase := NotRegistered |}.

Definition held_guards (bound hold : option text) (permit : option (nat * N)) (reservation : option (text * f32)) (h : Held) : Held :=
  {| h_bound := bound; h_hold := hold; h_permit := permit; h_reservation := reservation; h_detached := h_detached h;
     h_id := h_id h; h_turn := h_turn h; h_provider := h_provider h; h_inherits := h_inherits h; h_queued := h_queued h;
     h_phase := h_phase h |}.
Definition held_phase (phase : RunPhase) (h : Held) : Held :=
  {| h_bound := h_bound h; h_hold := h_hold h; h_permit := h_permit h; h_reservation := h_reservation h;
     h_detached := h_detached h; h_id := h_id h; h_turn := h_turn h; h_provider := h_provider h; h_inherits := h_inherits h;
     h_queued := h_queued h; h_phase := phase |}.
Definition held_known (detached : bool) (provider : option text) (inherits : option (option (nat * text))) (queued : bool)
    (h : Held) : Held :=
  {| h_bound := h_bound h; h_hold := h_hold h; h_permit := h_permit h; h_reservation := h_reservation h;
     h_detached := detached; h_id := h_id h; h_turn := h_turn h; h_provider := provider; h_inherits := inherits;
     h_queued := queued; h_phase := h_phase h |}.

Definition set_bound (x : option text) (h : Held) : Held := held_guards x (h_hold h) (h_permit h) (h_reservation h) h.
Definition set_hold (x : option text) (h : Held) : Held := held_guards (h_bound h) x (h_permit h) (h_reservation h) h.
Definition set_permit (x : option (nat * N)) (h : Held) : Held := held_guards (h_bound h) (h_hold h) x (h_reservation h) h.
Definition set_reservation (x : option (text * f32)) (h : Held) : Held := held_guards (h_bound h) (h_hold h) (h_permit h) x h.

(** What a task holds after a section that answered [r]. *)
Definition after {R} (c : RunCall R) : R → Held → Held :=
  match c in RunCall R return R → Held → Held with
  | Reserve s f => λ _, set_reservation (Some (s, f))
  | GetEnvironment _ => λ r h,
      match r with Ok env => held_known (h_detached h) (Some (ce_provider_name env)) (h_inherits h) (h_queued h) h | Err _ => h end
  | InsertRun _ cancel => λ _, held_phase (Registered cancel)
  | SpawnTask _ => λ _ h, held_known true (h_provider h) (h_inherits h) (h_queued h) h
  | InheritedPermits s => λ r h, held_known (h_detached h) (h_provider h) (Some ((λ x, (x, s)) <$> r)) (h_queued h) h
  | AcquireMany device needed _ => λ r h,
      let h := held_known (h_detached h) (h_provider h) (h_inherits h) true h in
      if r then set_permit (Some (device, needed)) h else h
  | BindChild child _ _ => λ _, set_bound (Some child)
  | FinishRun _ _ _ _ => λ _, held_phase Finished
  | HoldDevice s => λ _, set_hold (Some s)
  | Converse _ => λ _, held_phase Finished
  | _ => λ _ h, h
  end.

(** What a section does: what it may answer, and the world it leaves. *)
Definition run_call {R} (c : RunCall R) : World → R → World → Prop :=
  match c in RunCall R return World → R → World → Prop with
  | ParentTurnToken s => λ w r w', w' = w ∧
      match r with
      | Some t => parent_turn_token (w_authorities w) s t
      | None => ∀ t, ¬ parent_turn_token (w_authorities w) s t
      end
  | Reserve s f => λ w _ w', w' = set_ledger (reserve s f (w_ledger w)) w
  | GetEnvironment _ => λ w _ w', w' = w
  | NewToken => λ w r w', r = OwnToken (w_tokens w) ∧ w' = count_token w
  | DeriveToken parent => λ w r w', r = ChildToken (w_tokens w) parent ∧ w' = count_token w
  | OpenChildSession _ => λ w _ w', w' = w
  | ReleaseChild _ => λ w _ w', w' = w
  | Now => λ w r w', r = w_now w ∧ w' = w
  | InsertRun run cancel => λ w _ w', ∃ tasks, insert_run run cancel (w_tasks w) tasks ∧ w' = set_tasks tasks w
  | ReportProgress frame => λ w _ w', w' = set_bus (publish_frame frame (w_bus w)) w
  | SpawnTask _ => λ w _ w', w' = w
  | InheritedPermits s => λ w r w', r = inherited_child_permits s (w_ledger w) ∧ w' = w
  | AcquireMany device needed cancel => λ w r w',
      if is_cancelled w cancel then r = false ∧ w' = w
      else ∃ s, w_semaphores w !! device = Some s ∧ needed ≤ sem_free s ∧ r = true ∧
        w' = set_semaphores (alter (take_permits needed) device (w_semaphores w)) w
  | StartRun id => λ w _ w', w' = set_tasks (start_run id (w_tasks w)) w
  | BindChild child parent scope => λ w _ w', w' = set_children (<[child := (parent, scope)]> (w_children w)) w
  | RunChild _ _ _ _ => λ w _ w', w' = w
  | IsCancelled t => λ w r w', r = is_cancelled w t ∧ w' = w
  | FinishRun id status res err => λ w _ w', w' = set_tasks (finish_run id status res err (w_now w) (w_tasks w)) w
  | HoldDevice s => λ w _ w',
      w' = set_ledger (hold_device s (length (w_semaphores w)) (w_ledger w))
             (match dl_device_holders (w_ledger w) !! s with
              | Some _ => w
              | None => set_semaphores (w_semaphores w ++ [{| sem_free := 1; sem_session := Some s |}]) w
              end)
  | Converse _ => λ w _ w', w' = w
  end.

(** One guard is dropped. *)
Definition unwind (h : Held) (w : World) : option (Held * World) :=
  match h_bound h, h_hold h, h_permit h, h_reservation h with
  | Some child, _, _, _ => Some (set_bound None h, set_children (delete child (w_children w)) w)
  | None, Some s, _, _ => Some (set_hold None h, set_ledger (drop_hold s (w_ledger w)) w)
  | None, None, Some (device, n), _ =>
      Some (set_permit None h, set_semaphores (alter (give_permits n) device (w_semaphores w)) w)
  | None, None, None, Some (s, f) => Some (set_reservation None h, set_ledger (drop_reservation s f (w_ledger w)) w)
  | None, None, None, None => None
  end.

(** ** Tasks, interleaved *)

Inductive Thread : Type :=
| Alive (p : Prog RunCall unit) (h : Held)
| Ending (h : Held).

Definition held (t : Thread) : Held := match t with Alive _ h | Ending h => h end.

(** A future dropped where it waits: its run, if registered, is nobody's. *)
Definition abandoned (h : Held) : Held :=
  match h_phase h with Registered _ => held_phase Finished h | _ => h end.
Definition lose (h : Held) (w : World) : World :=
  match h_phase h, h_id h with Registered _, Some id => set_ids (w_ids w) ({[id]} ∪ w_lost w) w | _, _ => w end.

Definition cancel_token (t : Token) (w : World) : World := set_cancelled (t :: w_cancelled w) w.

Definition cancel_run (id : text) (w : World) : World :=
  match w_tasks w !! id with Some e => cancel_token (en_cancel e) w | None => w end.

Definition owed_entries (session : text) (w : World) : list TaskEntry :=
  List.filter (owed_to session) (snd <$> map_to_list (w_tasks w)).
Definition cancel_children_of (session : text) (w : World) : World * nat :=
  (set_cancelled ((en_cancel <$> owed_entries session w) ++ w_cancelled w) w, length (owed_entries session w)).

Definition Pool : Type := World * list Thread.

Definition is_number (f : f32) : bool := match f with Finite _ => true | NotFinite => false end.

Section steps.
Context (to_string_pretty : Json → text).

Inductive pool_step : Pool → Pool → Prop :=
| ps_call i R (c : RunCall R) k h r w w' ts :
    ts !! i = Some (Alive (Call c k) h) → run_call c w r w' →
    pool_step (w, ts) (w', <[i := Alive (k r) (after c r h)]> ts)
| ps_return i h w ts : ts !! i = Some (Alive (Ret tt) h) → pool_step (w, ts) (w, <[i := Ending h]> ts)
| ps_dropped i R (c : RunCall R) k h w ts :
    ts !! i = Some (Alive (Call c k) h) → awaited c = true → h_detached h = false →
    pool_step (w, ts) (lose h w, <[i := Ending (abandoned h)]> ts)
| ps_unwind i h h' w w' ts :
    ts !! i = Some (Ending h) → unwind h w = Some (h', w') → pool_step (w, ts) (w', <[i := Ending h']> ts)
(** A delegation: from a turn that converses and waits for it, or from nowhere that does. *)
| ps_spawn spec turn w ts :
    ts_id spec ∉ w_ids w → is_number (ts_context_fraction spec) = true →
    match turn with
    | Some (j, s) => s = ts_parent_session_id spec ∧ ∃ k h, ts !! j = Some (Alive (Call (Converse s) k) h)
    | None => True
    end →
    pool_step (w, ts) (set_ids ({[ts_id spec]} ∪ w_ids w) (w_lost w) w,
                       ts ++ [Alive (spawn_task to_string_pretty spec) (nothing_held (Some (ts_id spec)) turn)])
| ps_turn session provider cancel w ts :
    pool_step (w, ts) (w, ts ++ [Alive (turn session provider cancel) (nothing_held None None)])
| ps_outside authorities now w ts : pool_step (w, ts) (set_outside authorities now w, ts)
| ps_cancel_turn t w ts : pool_step (w, ts) (cancel_token (TurnToken t) w, ts)
| ps_cancel id w ts : pool_step (w, ts) (cancel_run id w, ts)
| ps_cancel_children session w ts : pool_step (w, ts) ((cancel_children_of session w).1, ts)
| ps_subscribe session w ts : pool_step (w, ts) (set_bus (subscribe session (w_bus w)) w, ts)
| ps_next_frame id w ts : pool_step (w, ts) (set_bus (next_frame id (w_bus w)) w, ts)
| ps_drop_stream id w ts : pool_step (w, ts) (set_bus (drop_stream id (w_bus w)) w, ts)
(** A helper at work tells which tool it calls. *)
| ps_tool i plan prefill prime cancel k h tool w ts :
    ts !! i = Some (Alive (Call (RunChild plan prefill prime cancel) k) h) →
    pool_step (w, ts) (set_bus (publish_frame (tool_frame plan tool) (w_bus w)) w, ts).

Definition world_new (authorities : Entries) (now : Z) : World :=
  {| w_ledger := DeviceLedger_default; w_tasks := ∅; w_authorities := authorities; w_children := ∅;
     w_bus := ProgressBus_default; w_semaphores := [{| sem_free := SUBAGENT_PERMITS; sem_session := None |}];
     w_cancelled := []; w_tokens := 0; w_now := now; w_ids := ∅; w_lost := ∅ |}.

Definition reached (c : Pool) : Prop := ∃ authorities now, star pool_step (world_new authorities now, []) c.
End steps.

(** ** What a program keeps to *)

Definition fits (device : nat) (n : N) (h : Held) : Prop :=
  (device = SEM_PROCESS ∧ h_inherits h = Some None ∧ ∃ p, h_provider h = Some p ∧ n = subagent_permits p) ∨
  (n = 1 ∧ ∃ s, h_inherits h = Some (Some (device, s))).

Definition allowed {R} (c : RunCall R) (h : Held) : Prop :=
  match c with
  | Reserve s f => h_reservation h = None ∧ is_number f = true
  | InsertRun run _ => h_id h = Some (tr_id run) ∧ h_phase h = NotRegistered ∧ tr_status run = TaskStatus.Queued
  | InheritedPermits s => h_permit h = None ∧ h_queued h = false ∧ ∀ j s', h_turn h = Some (j, s') → s' = s
  | AcquireMany device n cancel =>
      h_permit h = None ∧ h_hold h = None ∧ h_queued h = false ∧
      ((h_id h = None ∧ h_phase h = NotRegistered ∧ device = SEM_PROCESS ∧ n = SUBAGENT_PERMITS) ∨
       (is_Some (h_id h) ∧ fits device n h ∧ h_phase h = Registered cancel))
  | StartRun id => h_id h = Some id ∧ ∃ t, h_phase h = Registered t
  | RunChild plan _ _ cancel =>
      h_phase h = Registered cancel ∧ is_Some (h_id h) ∧ is_Some (h_provider h) ∧
      ∃ device n, h_permit h = Some (device, n) ∧ fits device n h ∧
        ∀ x s, h_inherits h = Some (Some (x, s)) → cp_parent_session_id plan = s
  | FinishRun id status _ _ => h_id h = Some id ∧ (∃ t, h_phase h = Registered t) ∧ TaskStatus_is_terminal status = true
  | HoldDevice _ => h_permit h = Some (SEM_PROCESS, SUBAGENT_PERMITS) ∧ h_hold h = None ∧ h_id h = None
  | Converse s => h_id h = None ∧ h_phase h = NotRegistered ∧ (h_permit h = None ∨ h_hold h = Some s)
  | _ => True
  end.

Fixpoint proper (p : Prog RunCall unit) (h : Held) : Prop :=
  match p with
  | Ret _ => match h_phase h with Registered _ => False | _ => True end
  | Call c k => allowed c h ∧ ∀ r, proper (k r) (after c r h)
  end.

Lemma proper_assoc {A B} (p : Prog RunCall A) (f : A → Prog RunCall B) (g : B → Prog RunCall unit) h :
  proper (prog_bind p (λ a, prog_bind (f a) g)) h → proper (prog_bind (prog_bind p f) g) h.
Proof. revert h. induction p as [a|R c k IH]; intros h; simpl; [done|]. intros [Hc Hk]. split; [done|]. intros r. by apply IH. Qed.

Lemma judge_proper outcome max_turns cancel k (f : TaskRun → Prog RunCall unit) h :
  (∀ status res err, TaskStatus_is_terminal status = true → proper (prog_bind (k status res err) f) h) →
  proper (prog_bind (judge outcome max_turns cancel k) f) h.
Proof.
  intros Hk. unfold judge. destruct outcome as [outcome|e]; [|by apply Hk].
  destruct (negb _); [by apply Hk|]. split; [done|]. intros cancelled. simpl.
  destruct (classify_outcome _ _ _ _) as [status res] eqn:E. apply Hk.
  unfold classify_outcome in E. by repeat case_match; simplify_eq.
Qed.

Lemma drive_proper provider plan run cancel (f : TaskRun → Prog RunCall unit) h :
  h_id h = Some (tr_id run) → h_phase h = Registered cancel → h_permit h = None → h_hold h = None →
  h_provider h = Some provider → h_queued h = false → (∀ j s, h_turn h = Some (j, s) → s = tr_parent_session_id run) →
  cp_parent_session_id plan = tr_parent_session_id run →
  (∀ r h', h_phase h' = Finished → proper (f r) h') →
  proper (prog_bind (drive_run provider plan run cancel) f) h.
Proof.
  intros Hid Hph Hpe Hho Hpr Hqu Htu Hpa Hf. split; [done|]. intros inherited. simpl.
  destruct (match inherited with Some _ => _ | None => _ end) as [device needed] eqn:E.
  set (h1 := held_known _ _ _ _ h).
  assert (fits device needed h1) as Hfit.
  { destruct inherited; simplify_eq; [right; split; [done|]; by eexists|left; split; [done|]; split; [done|]; by eexists]. }
  split; [split; [done|]; split; [done|]; split; [done|]; right; split; [by eexists|by split]|]. intros [|]; simpl.
  - split; [split; [done|by exists cancel]|]. intros ?. split; [done|]. intros ?. split; [done|]. intros ?.
    split.
    { split; [done|]. split; [by eexists|]. split; [by eexists|]. exists device, needed. split; [done|]. split; [done|].
      intros x s Hx. simpl in Hx. destruct inherited; simplify_eq/=. done. }
    intros outcome. split; [done|]. intros ?. apply judge_proper. intros status res err Ht.
    split; [split; [done|]; split; [by exists cancel|done]|]. intros ?. split; [done|]. intros ?. split; [done|]. intros now.
    simpl. by apply Hf.
  - split; [done|]. intros ?. split; [split; [done|]; split; [by exists cancel|done]|]. intros ?. split; [done|]. intros now.
    split; [done|]. intros ?. simpl. by apply Hf.
Qed.

Lemma spawn_proper pretty spec turn : is_number (ts_context_fraction spec) = true →
  (∀ j s, turn = Some (j, s) → s = ts_parent_session_id spec) →
  proper (spawn_task pretty spec) (nothing_held (Some (ts_id spec)) turn).
Proof.
  intros Hn Hturn. unfold spawn_task, spawn. pose proof drive_proper as Hdrive. revert Hdrive. generalize drive_run. intros drive Hdrive.
  split; [done|]. intros [parent_turn|]; simpl; [|done].
  split; [done|]. intros ?. split; [done|]. intros [env|e]; simpl; [|done].
  destruct (background_refusal spec env); simpl; [done|].
  split; [by destruct (ts_background spec)|]. intros cancel. split; [done|]. intros [sid|e]; simpl; [|by destruct (ts_background spec)].
  assert (∀ r, after (if ts_background spec then NewToken else DeriveToken parent_turn) r = id) as -> by (by destruct (ts_background spec)).
  destruct (build_child_plan _ _ _ _ _) as [plan|refused] eqn:Ep; simpl; [|by split].
  apply build_child_plan_ok in Ep as (_ & _ & _ & Hpa & _).
  split; [done|]. intros now. split; [done|]. intros ?. split; [done|]. intros ?.
  destruct (ts_background spec); simpl.
  - split; [done|]. intros ?. apply proper_assoc. apply Hdrive; try done. intros r' h' Hh. simpl. by rewrite Hh.
  - apply proper_assoc. apply Hdrive; try done. intros r' h' Hh. simpl. by rewrite Hh.
Qed.

Lemma turn_proper session provider cancel : proper (turn session provider cancel) (nothing_held None None).
Proof.
  unfold turn, claim_device_for_turn, parent_turn_permits. destruct (_ <=? 1); simpl.
  - split; [split; [done|]; split; [done|]; split; [done|]; by left|]. intros [|]; simpl.
    + split; [done|]. intros ?. split; [split; [done|]; split; [done|]; by right|]. done.
    + split; [split; [done|]; split; [done|]; by left|]. done.
  - split; [split; [done|]; split; [done|]; by left|]. done.
Qed.

(** ** Counting what tasks hold *)

Definition total (f : Held → N) (ts : list Thread) : N := foldr (λ t n, f (held t) + n) 0 ts.

Lemma total_insert f ts i t t' : ts !! i = Some t →
  total f (<[i := t']> ts) + f (held t) = total f ts + f (held t').
Proof.
  revert i. induction ts as [|u ts IH]; intros [|i] Hl; simplify_eq/=; [lia|]. specialize (IH i Hl). lia.
Qed.

Lemma total_snoc f ts t : total f (ts ++ [t]) = total f ts + f (held t).
Proof. induction ts as [|u ts IH]; simpl; lia. Qed.

Lemma total_le f ts i t : ts !! i = Some t → f (held t) ≤ total f ts.
Proof. revert i. induction ts as [|u ts IH]; intros [|i] Hl; simplify_eq/=; [lia|]. specialize (IH i Hl). lia. Qed.

Lemma total_two f ts i j t u : ts !! i = Some t → ts !! j = Some u → i ≠ j → f (held t) + f (held u) ≤ total f ts.
Proof.
  revert i j. induction ts as [|v ts IH]; intros [|i] [|j] Hi Hj Hne; simplify_eq/=.
  - pose proof (total_le f ts j u Hj). lia.
  - pose proof (total_le f ts i t Hi). lia.
  - specialize (IH i j Hi Hj ltac:(congruence)). lia.
Qed.

Lemma total_zero f ts : (∀ i t, ts !! i = Some t → f (held t) = 0) → total f ts = 0.
Proof.
  induction ts as [|u ts IH]; simpl; intros H; [done|]. rewrite (H O u eq_refl), IH; [done|]. intros i t Hl. by apply (H (S i)).
Qed.

Definition permits_of (x : nat) (h : Held) : N :=
  match h_permit h with Some (y, n) => if decide (y = x) then n else 0 | None => 0 end.
Definition holds_of (s : text) (h : Held) : N := if decide (h_hold h = Some s) then 1 else 0.
Definition reserves_of (s : text) (p : f32 → bool) (h : Held) : N :=
  match h_reservation h with Some (s', f) => if decide (s' = s) then (if p f then 1 else 0) else 0 | None => 0 end.

Definition counted (p : f32 → bool) (l : list f32) : N := N.of_nat (length (List.filter p l)).

(** ** The guards and what is counted for them *)

Definition capacity (s : Semaphore) : N := match sem_session s with None => SUBAGENT_PERMITS | Some _ => 1 end.

Definition all_held (P : Held → Prop) (ts : list Thread) : Prop := ∀ i t, ts !! i = Some t → P (held t).

Definition permit_valid (w : World) (h : Held) : Prop := ∀ x n, h_permit h = Some (x, n) → (x < length (w_semaphores w))%nat.
Definition inherits_valid (w : World) (h : Held) : Prop := ∀ x s, h_inherits h = Some (Some (x, s)) →
  ∃ sem, w_semaphores w !! x = Some sem ∧ sem_session sem = Some s.
Definition hold_valid (h : Held) : Prop := ∀ s, h_hold h = Some s →
  h_permit h = Some (SEM_PROCESS, SUBAGENT_PERMITS) ∧ h_id h = None.
Definition reservation_valid (h : Held) : Prop := ∀ s f, h_reservation h = Some (s, f) → is_number f = true.

Record semaphores_ok (w : World) (ts : list Thread) : Prop := {
  sk_process : ∃ s, w_semaphores w !! SEM_PROCESS = Some s ∧ sem_session s = None;
  sk_own : ∀ x s, w_semaphores w !! x = Some s → sem_session s = None → x = SEM_PROCESS;
  sk_count : ∀ x s, w_semaphores w !! x = Some s → sem_free s + total (permits_of x) ts = capacity s;
}.

Definition holders_ok (w : World) (ts : list Thread) : Prop := ∀ s,
  match dl_device_holders (w_ledger w) !! s with
  | Some state => dh_holders state = total (holds_of s) ts ∧ 0 < dh_holders state ∧
      ∃ sem, w_semaphores w !! dh_children state = Some sem ∧ sem_session sem = Some s
  | None => total (holds_of s) ts = 0
  end.

Definition compatible (p : f32 → bool) : Prop := ∀ f g, f32_eqb f g = true → p f = p g.

Definition reservations_ok (w : World) (ts : list Thread) : Prop := ∀ s,
  dl_reservations (w_ledger w) !! s ≠ Some [] ∧
  ∀ p, compatible p → counted p (default [] (dl_reservations (w_ledger w) !! s)) = total (reserves_of s p) ts.

Record guards_ok (w : World) (ts : list Thread) : Prop := {
  gk_semaphores : semaphores_ok w ts;
  gk_holders : holders_ok w ts;
  gk_reservations : reservations_ok w ts;
  gk_permit : all_held (permit_valid w) ts;
  gk_inherits : all_held (inherits_valid w) ts;
  gk_hold : all_held hold_valid ts;
  gk_reservation : all_held reservation_valid ts;
}.

Definition alive_ok (ts : list Thread) : Prop := ∀ i p h, ts !! i = Some (Alive p h) → proper p h.

(** ** Lemmas: the guards *)

Lemma all_held_insert P ts i t' : all_held P ts → P (held t') → all_held P (<[i := t']> ts).
Proof. intros H Ht j t [(-> & -> & _)|[_ Hl]]%list_lookup_insert_Some; [done|]. by eapply H. Qed.

Lemma all_held_snoc P ts t : all_held P ts → P (held t) → all_held P (ts ++ [t]).
Proof.
  intros H Ht j u [Hl|[_ Hl]]%lookup_app_Some; [by eapply H|].
  apply list_lookup_singleton_Some in Hl as [_ <-]. done.
Qed.

Lemma all_held_mono (P Q : Held → Prop) ts : (∀ h, P h → Q h) → all_held P ts → all_held Q ts.
Proof. intros HPQ H i t Hl. by eapply HPQ, H. Qed.

Lemma total_same f ts i t t' : ts !! i = Some t → f (held t') = f (held t) → total f (<[i := t']> ts) = total f ts.
Proof. intros Hl Hf. pose proof (total_insert f ts i t t' Hl). lia. Qed.

(** A task moves on without touching a guard. *)
Record same_guards (h h' : Held) : Prop := {
  sg_hold : h_hold h' = h_hold h; sg_permit : h_permit h' = h_permit h;
  sg_reservation : h_reservation h' = h_reservation h; sg_id : h_id h' = h_id h;
}.

Lemma guards_same w w' ts i t t' :
  guards_ok w ts → ts !! i = Some t → same_guards (held t) (held t') →
  w_semaphores w' = w_semaphores w → w_ledger w' = w_ledger w → inherits_valid w (held t') →
  guards_ok w' (<[i := t']> ts).
Proof.
  intros [[S1 S2 S3] H R K1 K2 K3 K4] Hl [E1 E2 E3 E4] Ew El Hi.
  constructor.
  - constructor; rewrite Ew; [done|done|]. intros x s Hx. rewrite (total_same _ ts i t t' Hl); [by apply S3|].
    unfold permits_of. by rewrite E2.
  - intros s. rewrite El, Ew. specialize (H s). rewrite (total_same _ ts i t t' Hl); [exact H|].
    unfold holds_of. by rewrite E1.
  - intros s. rewrite El. specialize (R s) as [R1 R2]. split; [done|]. intros p Hp.
    rewrite (total_same _ ts i t t' Hl); [by apply R2|]. unfold reserves_of. by rewrite E3.
  - apply all_held_insert; [|]; unfold permit_valid; rewrite Ew; [exact K1|]. rewrite E2. by apply (K1 i).
  - apply all_held_insert; [|]; unfold inherits_valid; rewrite Ew; [exact K2|exact Hi].
  - apply all_held_insert; [exact K3|]. unfold hold_valid. rewrite E1, E2, E4. by apply (K3 i).
  - apply all_held_insert; [exact K4|]. unfold reservation_valid. rewrite E3. by apply (K4 i).
Qed.

Lemma guards_world w w' ts : guards_ok w ts → w_semaphores w' = w_semaphores w → w_ledger w' = w_ledger w → guards_ok w' ts.
Proof.
  intros [[S1 S2 S3] H R K1 K2 K3 K4] Ew El. constructor; try done.
  - constructor; by rewrite Ew.
  - intros s. rewrite El, Ew. apply H.
  - intros s. rewrite El. apply R.
  - unfold permit_valid. by rewrite Ew.
  - unfold inherits_valid. by rewrite Ew.
Qed.

Lemma guards_snoc w ts p id turn : guards_ok w ts → guards_ok w (ts ++ [Alive p (nothing_held id turn)]).
Proof.
  intros [[S1 S2 S3] H R K1 K2 K3 K4]. constructor; try (apply all_held_snoc; [done|]; done).
  - constructor; [done|done|]. intros x s Hx. rewrite total_snoc. simpl. rewrite N.add_0_r. by apply S3.
  - intros s. rewrite total_snoc. simpl. rewrite N.add_0_r. apply H.
  - intros s. specialize (R s) as [R1 R2]. split; [done|]. intros q Hq. rewrite total_snoc. simpl. rewrite N.add_0_r. by apply R2.
Qed.

(** *** Permits *)

Definition moved_permits (sems sems' : list Semaphore) (h h' : Held) : Prop := ∀ x s, sems !! x = Some s →
  ∃ s', sems' !! x = Some s' ∧ sem_session s' = sem_session s ∧
    sem_free s' + permits_of x h' = sem_free s + permits_of x h.

Lemma guards_permit w ts i t t' sems' :
  guards_ok w ts → ts !! i = Some t →
  h_hold (held t') = h_hold (held t) → h_reservation (held t') = h_reservation (held t) →
  h_inherits (held t') = h_inherits (held t) → hold_valid (held t') →
  (∀ x n, h_permit (held t') = Some (x, n) → (x < length sems')%nat) →
  length sems' = length (w_semaphores w) → moved_permits (w_semaphores w) sems' (held t) (held t') →
  guards_ok (set_semaphores sems' w) (<[i := t']> ts).
Proof.
  intros [[S1 S2 S3] H R K1 K2 K3 K4] Hl E1 E2 E3 Hv Hlt Hlen Hs.
  assert (∀ g, inherits_valid w g → inherits_valid (set_semaphores sems' w) g) as Hinh.
  { intros g Hg x t0 E. destruct (Hg x t0 E) as (sem & Hx & Es). destruct (Hs _ _ Hx) as (sem' & ? & E' & _).
    exists sem'. by rewrite E'. }
  constructor.
  - assert (∀ x s', sems' !! x = Some s' → ∃ s, w_semaphores w !! x = Some s ∧ sem_session s' = sem_session s ∧
       sem_free s' + permits_of x (held t') = sem_free s + permits_of x (held t)) as Hb.
    { intros x s' Hx. pose proof (lookup_lt_Some _ _ _ Hx) as Hx1. rewrite Hlen in Hx1. apply lookup_lt_is_Some in Hx1 as [s Hx'].
      destruct (Hs x s Hx') as (s2 & E & ? & ?). simplify_eq. eauto. }
    constructor; simpl.
    + destruct S1 as (s & Hx & Hn). destruct (Hs _ _ Hx) as (s' & Hx' & E & _). exists s'. by rewrite E.
    + intros x s' Hx Hn. destruct (Hb x s' Hx) as (s & Hx' & E & _). apply (S2 x s Hx'). by rewrite <-E.
    + intros x s' Hx. destruct (Hb x s' Hx) as (s & Hx' & E & Hf). specialize (S3 x s Hx').
      pose proof (total_insert (permits_of x) ts i t t' Hl). unfold capacity in *. rewrite E. lia.
  - intros s. specialize (H s). simpl. rewrite (total_same _ ts i t t' Hl) by (unfold holds_of; by rewrite E1).
    destruct (_ !! s) as [st|]; [|done]. destruct H as (? & ? & sem & Hx & E). split; [done|]. split; [done|].
    destruct (Hs _ _ Hx) as (sem' & Hx' & E' & _). exists sem'. by rewrite E'.
  - intros s. specialize (R s) as [R1 R2]. split; [done|]. intros q Hq.
    rewrite (total_same _ ts i t t' Hl) by (unfold reserves_of; by rewrite E2). by apply R2.
  - apply all_held_insert; [|exact Hlt]. intros j u Hu x n E. simpl. rewrite Hlen. by eapply K1.
  - apply all_held_insert; [by eapply all_held_mono|]. apply Hinh. unfold inherits_valid. rewrite E3. by apply (K2 i).
  - by apply all_held_insert.
  - apply all_held_insert; [done|]. unfold reservation_valid. rewrite E2. by apply (K4 i).
Qed.

Lemma guards_acquire w ts i p p' h device n s :
  guards_ok w ts → ts !! i = Some (Alive p h) → h_permit h = None → h_hold h = None →
  w_semaphores w !! device = Some s → n ≤ sem_free s →
  guards_ok (set_semaphores (alter (take_permits n) device (w_semaphores w)) w) (<[i := Alive p' (set_permit (Some (device, n)) (held_known (h_detached h) (h_provider h) (h_inherits h) true h))]> ts).
Proof.
  intros G Hl Hp Hh Hs Hn. eapply guards_permit; [exact G|exact Hl|done|done|done| | |by rewrite length_alter|].
  - intros t. simpl. by rewrite Hh.
  - intros x m [= <- <-]. rewrite length_alter. by eapply lookup_lt_Some.
  - intros x sem Hx. unfold permits_of. simpl. rewrite Hp. destruct (decide (device = x)) as [<-|Hne].
    + rewrite Hs in Hx. injection Hx as <-. exists (take_permits n s). rewrite list_lookup_alter_eq, Hs. split; [done|]. split; [done|]. simpl. lia.
    + exists sem. by rewrite list_lookup_alter_ne.
Qed.

Lemma guards_release w ts i h device n :
  guards_ok w ts → ts !! i = Some (Ending h) → h_permit h = Some (device, n) → h_hold h = None →
  guards_ok (set_semaphores (alter (give_permits n) device (w_semaphores w)) w) (<[i := Ending (set_permit None h)]> ts).
Proof.
  intros G Hl Hp Hh. eapply guards_permit; [exact G|exact Hl|done|done|done| |done|by rewrite length_alter|].
  - intros t. simpl. by rewrite Hh.
  - intros x sem Hx. unfold permits_of. simpl. rewrite Hp. destruct (decide (device = x)) as [<-|Hne].
    + exists (give_permits n sem). rewrite list_lookup_alter_eq, Hx. split; [done|]. split; [done|]. simpl. lia.
    + exists sem. rewrite list_lookup_alter_ne by done. split; [done|]. split; [done|]. lia.
Qed.

(** *** Holds *)

(** The ledger's holders and the tasks change together; the semaphores may gain one at the end. *)
Lemma guards_hold w w' ts i t t' s :
  guards_ok w ts → ts !! i = Some t →
  h_permit (held t') = h_permit (held t) → h_reservation (held t') = h_reservation (held t) →
  h_inherits (held t') = h_inherits (held t) → hold_valid (held t') →
  dl_reservations (w_ledger w') = dl_reservations (w_ledger w) →
  (w_semaphores w' = w_semaphores w ∨ w_semaphores w' = w_semaphores w ++ [{| sem_free := 1; sem_session := Some s |}]) →
  (∀ u, u ≠ s → dl_device_holders (w_ledger w') !! u = dl_device_holders (w_ledger w) !! u ∧ holds_of u (held t') = holds_of u (held t)) →
  match dl_device_holders (w_ledger w') !! s with
  | Some state => dh_holders state = total (holds_of s) (<[i := t']> ts) ∧ 0 < dh_holders state ∧
      ∃ sem, w_semaphores w' !! dh_children state = Some sem ∧ sem_session sem = Some s
  | None => total (holds_of s) (<[i := t']> ts) = 0
  end →
  guards_ok w' (<[i := t']> ts).
Proof.
  intros [[S1 S2 S3] H R K1 K2 K3 K4] Hl E1 E2 E3 Hv ER Es Hu Hs.
  assert (∀ x sem, w_semaphores w !! x = Some sem → w_semaphores w' !! x = Some sem) as Hgrow.
  { intros x sem Hx. destruct Es as [->| ->]; [done|]. by apply lookup_app_l_Some. }
  assert (∀ g, inherits_valid w g → inherits_valid w' g) as Hinh.
  { intros g Hg x u E. destruct (Hg x u E) as (sem & Hx & Hse). exists sem. split; [by apply Hgrow|done]. }
  assert (∀ x, total (permits_of x) (<[i := t']> ts) = total (permits_of x) ts) as Hpt.
  { intros x. apply (total_same _ ts i t t' Hl). unfold permits_of. by rewrite E1. }
  assert (∀ g, permit_valid w g → permit_valid w' g) as Hpv.
  { intros g Hg x n E. specialize (Hg x n E). destruct Es as [->| ->]; [done|]. rewrite length_app. simpl. lia. }
  assert (∀ x sem, w_semaphores w' !! x = Some sem → w_semaphores w !! x = Some sem ∨
    (x = length (w_semaphores w) ∧ sem = {| sem_free := 1; sem_session := Some s |})) as Hback.
  { intros x sem Hx. destruct Es as [E|E]; rewrite E in Hx; [by left|].
    apply lookup_app_Some in Hx as [?|[Hge Hx]]; [by left|]. apply list_lookup_singleton_Some in Hx as [? <-]. right. split; [lia|done]. }
  constructor.
  - constructor.
    + destruct S1 as (sem & Hx & Hn). exists sem. split; [by apply Hgrow|done].
    + intros x sem [Hx|[_ ->]]%Hback; [by eapply S2|done].
    + intros x sem [Hx|[-> ->]]%Hback; rewrite Hpt; [by apply S3|].
      unfold capacity. simpl. rewrite total_zero; [done|]. intros j u Hj. unfold permits_of.
      destruct (h_permit (held u)) as [[y n]|] eqn:E; [|done]. destruct (decide _) as [->|]; [|done].
      specialize (K1 j u Hj _ _ E). lia.
  - intros u. destruct (decide (u = s)) as [->|Hne]; [exact Hs|]. destruct (Hu u Hne) as [-> Ehold].
    rewrite (total_same _ ts i t t' Hl Ehold). specialize (H u). destruct (_ !! u) as [st|]; [|done].
    destruct H as (? & ? & sem & Hx & ?). split; [done|]. split; [done|]. exists sem. split; [by apply Hgrow|done].
  - intros u. rewrite ER. specialize (R u) as [R1 R2]. split; [done|]. intros q Hq.
    rewrite (total_same _ ts i t t' Hl) by (unfold reserves_of; by rewrite E2). by apply R2.
  - apply all_held_insert; [by eapply all_held_mono|]. apply Hpv. unfold permit_valid. rewrite E1. by apply (K1 i).
  - apply all_held_insert; [by eapply all_held_mono|]. apply Hinh. unfold inherits_valid. rewrite E3. by apply (K2 i).
  - by apply all_held_insert.
  - apply all_held_insert; [done|]. unfold reservation_valid. rewrite E2. by apply (K4 i).
Qed.

Lemma holds_of_none s h : h_hold h = None → holds_of s h = 0.
Proof. intros E. unfold holds_of. by rewrite E. Qed.

Lemma holds_of_some s h : h_hold h = Some s → holds_of s h = 1.
Proof. intros E. unfold holds_of. rewrite E. by rewrite decide_True. Qed.

Lemma holds_of_other u s h : u ≠ s → holds_of u (set_hold (Some s) h) = 0.
Proof. intros Hne. unfold holds_of. simpl. destruct (decide _); [congruence|done]. Qed.

Lemma guards_take_hold w w' ts i p p' h s :
  guards_ok w ts → ts !! i = Some (Alive p h) → allowed (HoldDevice s) h → run_call (HoldDevice s) w tt w' →
  guards_ok w' (<[i := Alive p' (set_hold (Some s) h)]> ts).
Proof.
  intros G Hl (Hp & Hh & Hid) ->. pose proof G as [_ H _ _ _ _ _].
  pose proof (total_insert (holds_of s) ts i _ (Alive p' (set_hold (Some s) h)) Hl) as Ht. simpl in Ht.
  rewrite (holds_of_none s h Hh), (holds_of_some s (set_hold (Some s) h)) in Ht by done.
  specialize (H s).
  assert (hold_valid (set_hold (Some s) h)) as Hv by (intros t _; by split).
  eapply (guards_hold w _ ts i _ _ s G Hl); try done.
  - by destruct (_ !! s); [left|right].
  - intros u Hne. split; [|simpl; by rewrite holds_of_other, holds_of_none].
    unfold hold_device. simpl. by rewrite lookup_insert_ne.
  - simpl. rewrite lookup_insert_eq. simpl. destruct (_ !! s) as [st|]; simpl.
    + destruct H as (-> & ? & sem & Hx & Hse). split; [lia|]. split; [lia|]. by exists sem.
    + split; [lia|]. split; [lia|]. eexists. split; [by apply lookup_snoc_Some; right|done].
Qed.

Lemma guards_drop_hold w ts i h s :
  guards_ok w ts → ts !! i = Some (Ending h) → h_hold h = Some s →
  guards_ok (set_ledger (drop_hold s (w_ledger w)) w) (<[i := Ending (set_hold None h)]> ts).
Proof.
  intros G Hl Hh. pose proof G as [_ H _ _ _ _ _].
  pose proof (total_insert (holds_of s) ts i _ (Ending (set_hold None h)) Hl) as Ht. simpl in Ht.
  rewrite (holds_of_some s h Hh), (holds_of_none s (set_hold None h)) in Ht by done.
  specialize (H s). unfold drop_hold. destruct (_ !! s) as [st|] eqn:Es; [|lia].
  destruct H as (E & ? & sem & Hx & Hse).
  eapply (guards_hold w _ ts i _ _ s G Hl); try done.
  - by left.
  - intros u Hne. split.
    + simpl. destruct (_ =? 0); [by rewrite lookup_delete_ne|by rewrite lookup_insert_ne].
    + unfold holds_of. simpl. rewrite Hh. destruct (decide (Some s = Some u)); [congruence|done].
  - simpl. destruct (N.eqb_spec (dh_holders st - 1) 0); [rewrite lookup_delete_eq; lia|].
    rewrite lookup_insert_eq. simpl. split; [lia|]. split; [lia|]. by exists sem.
Qed.

(** *** Reservations *)

Lemma f32_eqb_refl f : is_number f = true → f32_eqb f f = true.
Proof. destruct f as [q|]; [|done]. intros _. apply Qeq_bool_iff. reflexivity. Qed.

Lemma f32_eqb_compatible f : compatible (λ g, f32_eqb g f).
Proof.
  intros [p|] [q|] E; try done. destruct f as [r|]; [|done]. simpl in *. apply Qeq_bool_iff in E.
  apply eq_true_iff_eq. rewrite !Qeq_bool_iff. by rewrite E.
Qed.

Lemma counted_app p l l' : counted p (l ++ l') = counted p l + counted p l'.
Proof. unfold counted. rewrite List.filter_app, length_app. lia. Qed.

Lemma counted_delete p l i f : l !! i = Some f → counted p (delete i l) + (if p f then 1 else 0) = counted p l.
Proof.
  intros Hl. rewrite <-(take_drop_middle l i f Hl) at 2. rewrite delete_take_drop, (cons_middle f), !counted_app.
  assert (counted p [f] = if p f then 1 else 0) as -> by (unfold counted; simpl; by destruct (p f)). lia.
Qed.

Lemma counted_pos p l : counted p l ≠ 0 → position p l ≠ None.
Proof.
  intros Hc Hn. pose proof (proj1 (position_None p l) Hn) as Hall. apply Hc. unfold counted. rewrite filter_none; [done|].
  exact Hall.
Qed.

(** The ledger's reservations of one session and one task change together. *)
Lemma guards_reservation w ts i t t' s l' :
  guards_ok w ts → ts !! i = Some t →
  h_permit (held t') = h_permit (held t) → h_hold (held t') = h_hold (held t) → h_id (held t') = h_id (held t) →
  h_inherits (held t') = h_inherits (held t) → reservation_valid (held t') →
  dl_device_holders l' = dl_device_holders (w_ledger w) →
  (∀ u, u ≠ s → dl_reservations l' !! u = dl_reservations (w_ledger w) !! u ∧
     ∀ p, reserves_of u p (held t') = reserves_of u p (held t)) →
  dl_reservations l' !! s ≠ Some [] →
  (∀ p, compatible p → counted p (default [] (dl_reservations l' !! s)) + reserves_of s p (held t) =
     counted p (default [] (dl_reservations (w_ledger w) !! s)) + reserves_of s p (held t')) →
  guards_ok (set_ledger l' w) (<[i := t']> ts).
Proof.
  intros [[S1 S2 S3] H R K1 K2 K3 K4] Hl E1 E2 E3 E4 Hv EH Hu Hne Hc. constructor.
  - constructor; simpl; [done|done|]. intros x sem Hx. rewrite (total_same _ ts i t t' Hl); [by apply S3|].
    unfold permits_of. by rewrite E1.
  - intros u. simpl. rewrite EH. specialize (H u). rewrite (total_same _ ts i t t' Hl); [exact H|].
    unfold holds_of. by rewrite E2.
  - intros u. simpl. specialize (R u) as [R1 R2]. destruct (decide (u = s)) as [->|Hus].
    + split; [done|]. intros p Hp. pose proof (total_insert (reserves_of s p) ts i t t' Hl).
      specialize (R2 p Hp). specialize (Hc p Hp). lia.
    + destruct (Hu u Hus) as [-> Er]. split; [done|]. intros p Hp. by rewrite (total_same _ ts i t t' Hl), R2.
  - apply all_held_insert; [exact K1|]. unfold permit_valid. rewrite E1. by apply (K1 i).
  - apply all_held_insert; [exact K2|]. unfold inherits_valid. rewrite E4. by apply (K2 i).
  - apply all_held_insert; [exact K3|]. unfold hold_valid. rewrite E1, E2, E3. by apply (K3 i).
  - by apply all_held_insert.
Qed.

Lemma reserves_of_none s p h : h_reservation h = None → reserves_of s p h = 0.
Proof. intros E. unfold reserves_of. by rewrite E. Qed.

Lemma reserves_of_some s p h f : h_reservation h = Some (s, f) → reserves_of s p h = if p f then 1 else 0.
Proof. intros E. unfold reserves_of. rewrite E. by rewrite decide_True. Qed.

Lemma reserves_of_other u s p h f : h_reservation h = Some (s, f) → u ≠ s → reserves_of u p h = 0.
Proof. intros E Hne. unfold reserves_of. rewrite E. by rewrite decide_False. Qed.

Lemma guards_reserve w ts i p p' h s f :
  guards_ok w ts → ts !! i = Some (Alive p h) → h_reservation h = None → is_number f = true →
  guards_ok (set_ledger (reserve s f (w_ledger w)) w) (<[i := Alive p' (set_reservation (Some (s, f)) h)]> ts).
Proof.
  intros G Hl Hr Hf. eapply (guards_reservation w ts i _ _ s); try done.
  - intros t g [= <- <-]. done.
  - intros u Hne. simpl. rewrite lookup_insert_ne by done. split; [done|]. intros q.
    by rewrite (reserves_of_other u s q _ f), reserves_of_none.
  - simpl. rewrite lookup_insert_eq. intros [= E]. by destruct (default [] _).
  - intros q _. simpl. rewrite lookup_insert_eq. simpl. rewrite counted_app, (reserves_of_none _ _ _ Hr).
    rewrite (reserves_of_some s q _ f) by done. unfold counted at 2. simpl. destruct (q f); simpl; lia.
Qed.

Lemma guards_drop_reservation w ts i h s f :
  guards_ok w ts → ts !! i = Some (Ending h) → h_reservation h = Some (s, f) →
  guards_ok (set_ledger (drop_reservation s f (w_ledger w)) w) (<[i := Ending (set_reservation None h)]> ts).
Proof.
  intros G Hl Hr. pose proof G as [_ _ R _ _ _ K4]. specialize (K4 i _ Hl s f Hr). specialize (R s) as [R1 R2].
  pose proof (total_le (reserves_of s (λ g, f32_eqb g f)) ts i _ Hl) as Hle. simpl in Hle.
  rewrite (reserves_of_some s _ _ f Hr), f32_eqb_refl in Hle by done.
  rewrite <-R2 in Hle by apply f32_eqb_compatible.
  destruct (dl_reservations (w_ledger w) !! s) as [l|] eqn:El; simpl in Hle; [|unfold counted in Hle; simpl in Hle; lia].
  destruct (position (λ g, f32_eqb g f) l) as [at_|] eqn:Ep; [|exfalso; eapply counted_pos; [|exact Ep]; lia].
  apply position_Some in Ep as Ep'. destruct Ep' as [(g & Hg & Eg) _].
  unfold drop_reservation. rewrite El, Ep.
  eapply (guards_reservation w ts i _ _ s); try done.
  - intros u Hne. simpl. split; [destruct (is_empty _); [by rewrite lookup_delete_ne|by rewrite lookup_insert_ne]|].
    intros q. by rewrite (reserves_of_other u s q h f), reserves_of_none.
  - simpl. destruct (is_empty (delete at_ l)) eqn:Ee; [by rewrite lookup_delete_eq|].
    rewrite lookup_insert_eq. apply is_empty_false in Ee. congruence.
  - intros q Hq. simpl. rewrite El. rewrite (reserves_of_some s q h f Hr), (reserves_of_none s q (set_reservation None h)) by done.
    change (default [] (Some l)) with l. rewrite <-(counted_delete q l at_ g Hg), (Hq g f Eg). simpl.
    destruct (is_empty (delete at_ l)) eqn:Ee; [|rewrite lookup_insert_eq; simpl; lia].
    rewrite lookup_delete_eq. apply is_empty_true in Ee. rewrite Ee. simpl. lia.
Qed.

(** *** Every step *)

Definition keeps_guards (w w' : World) : Prop := w_semaphores w' = w_semaphores w ∧ w_ledger w' = w_ledger w.

Lemma unwind_guards w ts i h h' w' :
  guards_ok w ts → ts !! i = Some (Ending h) → unwind h w = Some (h', w') → guards_ok w' (<[i := Ending h']> ts).
Proof.
  intros G Hl. unfold unwind. destruct (h_bound h) as [child|]; [|destruct (h_hold h) as [s|] eqn:Eh];
    [| |destruct (h_permit h) as [[device n]|] eqn:Ep]; [| | |destruct (h_reservation h) as [[s f]|] eqn:Er]; intros [= <- <-].
  - eapply guards_same; [exact G|exact Hl|by constructor|done|done|exact (gk_inherits _ _ G i _ Hl)].
  - by apply guards_drop_hold.
  - by apply guards_release.
  - by apply guards_drop_reservation.
Qed.

Lemma same_guards_refl h : same_guards h h.
Proof. by constructor. Qed.

Lemma call_guards w ts i R (c : RunCall R) k h r w' :
  guards_ok w ts → ts !! i = Some (Alive (Call c k) h) → allowed c h → run_call c w r w' →
  guards_ok w' (<[i := Alive (k r) (after c r h)]> ts).
Proof.
  intros G Hl Ha Hr. pose proof (gk_inherits _ _ G i _ Hl) as Hinh.
  assert (∀ w1, keeps_guards w w1 → same_guards h (after c r h) → h_inherits (after c r h) = h_inherits h →
    guards_ok w1 (<[i := Alive (k r) (after c r h)]> ts)) as Hsame.
  { intros w1 [Es El] Hg Ei. eapply guards_same; [exact G|exact Hl|exact Hg|done|done|].
    unfold inherits_valid. simpl. by rewrite Ei. }
  destruct c; simpl in Hr, Ha; try (destruct_and?; subst; by apply Hsame).
  - subst. destruct Ha. by eapply guards_reserve.
  - subst. destruct r; by apply Hsame.
  - destruct Hr as (tasks & _ & ->). by apply Hsame.
  - destruct Hr as [-> ->]. eapply guards_same; [exact G|exact Hl|done|done|done|].
    intros x u E. simpl in E. unfold inherited_child_permits in E. pose proof (gk_holders _ _ G session) as H.
    destruct (_ !! session) as [st|]; [|done]. destruct (0 <? _); [|done]. injection E as <- <-. apply H.
  - destruct (is_cancelled w cancel); [destruct Hr as [-> ->]; by apply Hsame|].
    destruct Hr as (s & Hs & Hn & -> & ->). destruct Ha as (Hp & Hh & _). by eapply guards_acquire.
  - destruct r. by eapply guards_take_hold.
Qed.

Lemma step_guards pretty c c' : alive_ok c.2 → guards_ok c.1 c.2 → pool_step pretty c c' → guards_ok c'.1 c'.2.
Proof.
  intros HA G Hs. destruct Hs as [i R c k h r w w' ts Hl Hr|i h w ts Hl|i R c k h w ts Hl Ha Hd|i h h' w w' ts Hl Hu
    |spec turn w ts Hn Hf Ht|session provider cancel w ts|auth now w ts|t w ts|id w ts|session w ts|session w ts|id w ts|id w ts|i plan prefill prime cancel k h tool w ts _]; simpl in *.
  - eapply call_guards; [done|done| |done]. apply (HA i _ _ Hl).
  - eapply guards_same; [exact G|exact Hl|by constructor|done|done|exact (gk_inherits _ _ G i _ Hl)].
  - eapply guards_same; [exact G|exact Hl| | | |].
    + simpl. unfold abandoned. by destruct (h_phase h).
    + unfold lose. by destruct (h_phase h), (h_id h).
    + unfold lose. by destruct (h_phase h), (h_id h).
    + pose proof (gk_inherits _ _ G i _ Hl) as Hi. unfold inherits_valid, abandoned in *. simpl in *. by destruct (h_phase h).
  - by eapply unwind_guards.
  - apply guards_snoc. by eapply guards_world.
  - by apply guards_snoc.
  - by eapply guards_world.
  - by eapply guards_world.
  - unfold cancel_run. destruct (_ !! id); [|done]. by eapply guards_world.
  - by eapply guards_world.
  - by eapply guards_world.
  - by eapply guards_world.
  - by eapply guards_world.
  - by eapply guards_world.
Qed.

Lemma step_alive pretty c c' : alive_ok c.2 → pool_step pretty c c' → alive_ok c'.2.
Proof.
  intros HA Hs. destruct Hs as [i R c k h r w w' ts Hl Hr|i h w ts Hl|i R c k h w ts Hl Ha Hd|i h h' w w' ts Hl Hu
    |spec turn w ts Hn Hf Ht|session provider cancel w ts|auth now w ts|t w ts|id w ts|session w ts|session w ts|id w ts|id w ts|i plan prefill prime cancel k h tool w ts _];
    simpl in *; try done.
  - intros j p g [(-> & E & _)|[_ Hj]]%list_lookup_insert_Some; [|by eapply HA]. simplify_eq. apply (HA _ _ _ Hl).
  - intros j p g [(_ & E & _)|[_ Hj]]%list_lookup_insert_Some; [done|by eapply HA].
  - intros j p g [(_ & E & _)|[_ Hj]]%list_lookup_insert_Some; [done|by eapply HA].
  - intros j p g [(_ & E & _)|[_ Hj]]%list_lookup_insert_Some; [done|by eapply HA].
  - intros j p g [Hj|[_ [_ E]%list_lookup_singleton_Some]]%lookup_app_Some; [by eapply HA|]. simplify_eq.
    apply spawn_proper; [done|]. intros j' s ->. by destruct Ht as [-> _].
  - intros j p g [Hj|[_ [_ E]%list_lookup_singleton_Some]]%lookup_app_Some; [by eapply HA|]. simplify_eq. apply turn_proper.
Qed.

Lemma guards_new authorities now : guards_ok (world_new authorities now) [].
Proof.
  constructor; try done.
  - constructor; simpl; [by eexists| |].
    + intros [|x] s Hx; [done|]. simplify_eq/=.
    + intros [|x] s Hx; simplify_eq/=. done.
Qed.

Lemma reached_guards pretty c : reached pretty c → alive_ok c.2 ∧ guards_ok c.1 c.2.
Proof.
  intros (authorities & now & Hs).
  refine (star_invariant (pool_step pretty) (λ c, alive_ok c.2 ∧ guards_ok c.1 c.2) _ _ _ Hs _).
  - intros c1 c2 [HA G] Hstep. split; [by eapply step_alive|by eapply step_guards].
  - split; [done|]. apply guards_new.
Qed.

(** ** Who works on the device *)

(** A task whose helper is at work, with its plan. *)
Definition at_work (t : Thread) : option ChildPlan :=
  match t with
  | Alive (Call c _) _ => match c with RunChild plan _ _ _ => Some plan | _ => None end
  | _ => None
  end.
Definition on_device (h : Held) : bool :=
  match h_provider h with Some p => max_concurrent_subagents p <=? 1 | None => false end.
(** It works under the claim of a turn that has ended. *)
Definition orphaned (w : World) (h : Held) : Prop := ∃ x n, h_permit h = Some (x, n) ∧ x ≠ SEM_PROCESS ∧
  ∀ s state, dl_device_holders (w_ledger w) !! s = Some state → dh_children state ≠ x.
Definition outside_claims (t : Thread) : bool :=
  bool_decide (is_Some (at_work t)) && match h_permit (held t) with Some (x, _) => (x =? SEM_PROCESS)%nat | None => false end.

Lemma max_concurrent_cases p : max_concurrent_subagents p = 1 ∨ max_concurrent_subagents p = 3.
Proof. unfold max_concurrent_subagents. destruct (provider_locality p); auto. Qed.

Lemma subagent_permits_cases p :
  (max_concurrent_subagents p ≤ 1 ∧ subagent_permits p = 3) ∨ (1 < max_concurrent_subagents p ∧ subagent_permits p = 1).
Proof. unfold subagent_permits. destruct (max_concurrent_cases p) as [->| ->]; [left|right]; by split. Qed.

Lemma at_work_inv t plan : at_work t = Some plan →
  ∃ prefill prime cancel k h, t = Alive (Call (RunChild plan prefill prime cancel) k) h.
Proof.
  destruct t as [[[]|R c k] h|h]; simpl; try done. destruct c; intros [= ->]. by repeat eexists.
Qed.

(** A helper at work holds the process's permits for its provider, or its siblings' one permit. *)
Lemma worker_permit w ts i t plan : alive_ok ts → guards_ok w ts → ts !! i = Some t → at_work t = Some plan →
  ∃ x n, h_permit (held t) = Some (x, n) ∧
    ((x = SEM_PROCESS ∧ ∃ p, h_provider (held t) = Some p ∧ n = subagent_permits p) ∨
     (x ≠ SEM_PROCESS ∧ n = 1 ∧ ∃ sem, w_semaphores w !! x = Some sem ∧ sem_session sem = Some (cp_parent_session_id plan))).
Proof.
  intros HA G Hl (prefill & prime & cancel & k & h & ->)%at_work_inv.
  destruct (HA _ _ _ Hl) as [(_ & _ & _ & x & n & Hp & Hf & Hpar) _]. exists x, n. split; [done|].
  destruct Hf as [(-> & _ & Hf)|[-> [s Hs]]]; [by left|right].
  destruct (gk_inherits _ _ G i _ Hl x s Hs) as (sem & Hx & Hse). rewrite (Hpar _ _ Hs).
  split; [|split; [done|by exists sem]]. intros ->. destruct (sk_process _ _ (gk_semaphores _ _ G)) as (sem' & Hx' & Hn). congruence.
Qed.

Lemma process_permits w ts : guards_ok w ts → total (permits_of SEM_PROCESS) ts ≤ SUBAGENT_PERMITS.
Proof.
  intros G. destruct (sk_process _ _ (gk_semaphores _ _ G)) as (s & Hs & Hn).
  pose proof (sk_count _ _ (gk_semaphores _ _ G) _ _ Hs) as H. unfold capacity in H. rewrite Hn in H. lia.
Qed.

Lemma permits_of_some x n h : h_permit h = Some (x, n) → permits_of x h = n.
Proof. intros E. unfold permits_of. rewrite E. by rewrite decide_True. Qed.

Lemma holder_permits w ts i t s : guards_ok w ts → ts !! i = Some t → h_hold (held t) = Some s →
  permits_of SEM_PROCESS (held t) = SUBAGENT_PERMITS.
Proof. intros G Hl Hh. destruct (gk_hold _ _ G i t Hl s Hh) as [Hp _]. by apply permits_of_some. Qed.

Lemma total_witness f ts : total f ts ≠ 0 → ∃ i t, ts !! i = Some t ∧ f (held t) ≠ 0.
Proof.
  induction ts as [|u ts IH]; simpl; [done|]. intros H. destruct (decide (f (held u) = 0)) as [E|E].
  - destruct IH as (i & t & Hl & Ht); [lia|]. by exists (S i), t.
  - by exists O, u.
Qed.

(** Only one turn has the device, and only its session's semaphore is anyone's to inherit. *)
Lemma one_holder w ts i j t u s s' : guards_ok w ts → ts !! i = Some t → ts !! j = Some u →
  h_hold (held t) = Some s → h_hold (held u) = Some s' → i = j.
Proof.
  intros G Hi Hj Hs Hs'. destruct (decide (i = j)) as [|Hne]; [done|].
  pose proof (total_two (permits_of SEM_PROCESS) ts i j t u Hi Hj Hne) as H.
  pose proof (process_permits w ts G). erewrite !holder_permits in H by done. unfold SUBAGENT_PERMITS, REMOTE_SUBAGENT_CONCURRENCY in *. lia.
Qed.

Lemma entry_holder w ts s state : guards_ok w ts → dl_device_holders (w_ledger w) !! s = Some state →
  ∃ i t, ts !! i = Some t ∧ h_hold (held t) = Some s.
Proof.
  intros G Hs. pose proof (gk_holders _ _ G s) as H. rewrite Hs in H. destruct H as (E & Hpos & _).
  destruct (total_witness (holds_of s) ts) as (i & t & Hl & Ht); [lia|]. exists i, t. split; [done|].
  unfold holds_of in Ht. by destruct (decide _).
Qed.

(** A helper that works on the device with the process's permits: nobody else has any. *)
Lemma device_permits w ts i t x n plan : alive_ok ts → guards_ok w ts → ts !! i = Some t → at_work t = Some plan →
  on_device (held t) = true → h_permit (held t) = Some (x, n) → x = SEM_PROCESS → n = SUBAGENT_PERMITS ∧ h_hold (held t) = None.
Proof.
  intros HA G Hi Hw Hd Hp ->. destruct (worker_permit w ts i t plan HA G Hi Hw) as (y & m & Hp' & Hc).
  rewrite Hp in Hp'. injection Hp' as <- <-. destruct Hc as [(_ & p & Ep & ->)|[? _]]; [|done]. split.
  - unfold on_device in Hd. rewrite Ep in Hd. apply N.leb_le in Hd. by destruct (subagent_permits_cases p) as [[_ ->]|[? _]]; [|lia].
  - destruct (h_hold (held t)) as [s|] eqn:Eh; [|done]. destruct (gk_hold _ _ G i t Hi s Eh) as [_ E].
    apply at_work_inv in Hw as (? & ? & ? & ? & h & ->). destruct (HA _ _ _ Hi) as [(_ & [id Hid] & _) _]. simpl in *. congruence.
Qed.

Lemma claimless w ts i t n plan s : alive_ok ts → guards_ok w ts → ts !! i = Some t → at_work t = Some plan →
  on_device (held t) = true → h_permit (held t) = Some (SEM_PROCESS, n) → dl_device_holders (w_ledger w) !! s = None.
Proof.
  intros HA G Hi Hw Hd Hp. destruct (device_permits w ts i t _ n plan HA G Hi Hw Hd Hp eq_refl) as [-> Hno].
  destruct (_ !! s) as [st|] eqn:Es; [|done]. destruct (entry_holder w ts s st G Es) as (j & u & Hj & Hu).
  assert (i ≠ j) as Hij by (intros ->; congruence).
  pose proof (total_two (permits_of SEM_PROCESS) ts i j t u Hi Hj Hij) as H. pose proof (process_permits w ts G).
  rewrite (permits_of_some _ _ _ Hp) in H. erewrite (holder_permits w ts j u s) in H by done.
  unfold SUBAGENT_PERMITS, REMOTE_SUBAGENT_CONCURRENCY in *. lia.
Qed.

(** A helper that inherited its permit did so from a turn that has the device still, or is orphaned. *)
Lemma standing w h z l : h_permit h = Some (z, l) → z ≠ SEM_PROCESS →
  orphaned w h ∨ ∃ s state, dl_device_holders (w_ledger w) !! s = Some state ∧ dh_children state = z.
Proof.
  intros Hp Hz. destruct (decide (map_Exists (λ _ state, dh_children state = z) (dl_device_holders (w_ledger w)))) as [(s & st & ? & ?)|Hno]; [eauto|].
  left. exists z, l. split; [done|]. split; [done|]. intros s st Hs E. apply Hno. by exists s, st.
Qed.

Lemma one_entry w ts s s' st st' : guards_ok w ts → dl_device_holders (w_ledger w) !! s = Some st →
  dl_device_holders (w_ledger w) !! s' = Some st' → s = s' ∧ st = st'.
Proof.
  intros G Hs Hs'. destruct (entry_holder w ts s st G Hs) as (k & v & Hk & Hv).
  destruct (entry_holder w ts s' st' G Hs') as (k' & v' & Hk' & Hv').
  pose proof (one_holder w ts k k' v v' s s' G Hk Hk' Hv Hv') as <-. assert (s = s') as <- by congruence. split; congruence.
Qed.

Lemma worker_and_holder w ts i j t u s plan : alive_ok ts → guards_ok w ts → ts !! i = Some t → ts !! j = Some u →
  at_work t = Some plan → on_device (held t) = true → h_hold (held u) = Some s →
  orphaned w (held t) ∨ cp_parent_session_id plan = s.
Proof.
  intros HA G Hi Hj Hw Hd Hh. destruct (worker_permit w ts i t plan HA G Hi Hw) as (x & n & Hp & Hc).
  pose proof (gk_holders _ _ G s) as H. destruct (dl_device_holders (w_ledger w) !! s) as [st|] eqn:Es.
  2:{ pose proof (total_le (holds_of s) ts j u Hj) as Hle. rewrite (holds_of_some s _ Hh) in Hle. lia. }
  destruct Hc as [(-> & _)|(Hne & -> & sem & Hx & Hse)]; [by rewrite (claimless w ts i t n plan s HA G Hi Hw Hd Hp) in Es|].
  destruct (standing w (held t) x 1 Hp Hne) as [?|(s2 & st2 & Hs2 & <-)]; [by left|right].
  destruct (one_entry w ts s s2 st st2 G Es Hs2) as [<- <-]. destruct H as (_ & _ & sem' & Hx' & Hse'). congruence.
Qed.

(** Two that inherited from one claim cannot both have its one permit. *)
Lemma one_inheritor w ts i j t u s st n m : guards_ok w ts → i ≠ j → ts !! i = Some t → ts !! j = Some u →
  dl_device_holders (w_ledger w) !! s = Some st → h_permit (held t) = Some (dh_children st, n) →
  h_permit (held u) = Some (dh_children st, m) → n + m ≤ 1.
Proof.
  intros G Hij Hi Hj Hs Hp Hp'. pose proof (total_two (permits_of (dh_children st)) ts i j t u Hi Hj Hij) as Htwo.
  rewrite (permits_of_some _ _ _ Hp), (permits_of_some _ _ _ Hp') in Htwo.
  pose proof (gk_holders _ _ G s) as H. rewrite Hs in H. destruct H as (_ & _ & sem & Hsem & Hse).
  pose proof (sk_count _ _ (gk_semaphores _ _ G) _ _ Hsem) as Hcount. unfold capacity in Hcount. rewrite Hse in Hcount. lia.
Qed.

Lemma two_workers w ts i j t u plan plan' : alive_ok ts → guards_ok w ts → i ≠ j → ts !! i = Some t → ts !! j = Some u →
  at_work t = Some plan → at_work u = Some plan' → on_device (held t) = true → on_device (held u) = true →
  orphaned w (held t) ∨ orphaned w (held u).
Proof.
  intros HA G Hij Hi Hj Hw Hw' Hd Hd'.
  destruct (worker_permit w ts i t plan HA G Hi Hw) as (x & n & Hp & Hc).
  destruct (worker_permit w ts j u plan' HA G Hj Hw') as (y & m & Hp' & Hc').
  destruct Hc as [(-> & _)|(Hx & -> & _)], Hc' as [(-> & _)|(Hy & -> & _)].
  - destruct (device_permits w ts i t _ n plan HA G Hi Hw Hd Hp eq_refl) as [-> _].
    destruct (device_permits w ts j u _ m plan' HA G Hj Hw' Hd' Hp' eq_refl) as [-> _].
    pose proof (total_two (permits_of SEM_PROCESS) ts i j t u Hi Hj Hij) as H. pose proof (process_permits w ts G).
    rewrite (permits_of_some _ _ _ Hp), (permits_of_some _ _ _ Hp') in H. unfold SUBAGENT_PERMITS, REMOTE_SUBAGENT_CONCURRENCY in *. lia.
  - right. destruct (standing w _ _ _ Hp' Hy) as [?|(s & st & Hs & _)]; [done|].
    by rewrite (claimless w ts i t n plan s HA G Hi Hw Hd Hp) in Hs.
  - left. destruct (standing w _ _ _ Hp Hx) as [?|(s & st & Hs & _)]; [done|].
    by rewrite (claimless w ts j u m plan' s HA G Hj Hw' Hd' Hp') in Hs.
  - destruct (standing w _ _ _ Hp Hx) as [?|(s & st & Hs & <-)]; [by left|].
    destruct (standing w _ _ _ Hp' Hy) as [?|(s' & st' & Hs' & <-)]; [by right|].
    destruct (one_entry w ts s s' st st' G Hs Hs') as [<- <-].
    pose proof (one_inheritor w ts i j t u s st 1 1 G Hij Hi Hj Hs Hp Hp'). lia.
Qed.

Lemma outside_claims_bounded w ts us : alive_ok ts → guards_ok w ts → us ⊆ ts →
  N.of_nat (length (List.filter outside_claims us)) ≤ total (permits_of SEM_PROCESS) us.
Proof.
  intros HA G. induction us as [|t us IH]; intros Hsub; simpl; [lia|].
  assert (us ⊆ ts) as Hus by set_solver. specialize (IH Hus). destruct (outside_claims t) eqn:E; [|lia].
  unfold outside_claims in E. apply andb_prop in E as [[plan Hw]%bool_decide_eq_true Hp].
  destruct (proj1 (list_elem_of_lookup ts t)) as [i Hi]; [set_solver|].
  destruct (worker_permit w ts i t plan HA G Hi Hw) as (x & n & Ep & Hc). rewrite Ep in Hp. apply Nat.eqb_eq in Hp as ->.
  rewrite (permits_of_some _ _ _ Ep). destruct Hc as [(_ & p & _ & ->)|[? _]]; [|done].
  destruct (subagent_permits_cases p) as [[_ ->]|[_ ->]]; simpl length; lia.
Qed.

(** C17: at every moment, however turns and helpers are started, answered, dropped and cancelled: of
    two helpers at work on the device itself one works under the claim of a turn that has already
    ended; a helper at work there beside a turn that has claimed the device is such a one, or that
    very session's; no two turns have the device; and at most three helpers are at work on permits
    of the process. *)
Theorem device_is_shared_out pretty w ts : reached pretty (w, ts) →
  (∀ i j t u plan plan', i ≠ j → ts !! i = Some t → ts !! j = Some u →
     at_work t = Some plan → at_work u = Some plan' → on_device (held t) = true → on_device (held u) = true →
     orphaned w (held t) ∨ orphaned w (held u)) ∧
  (∀ i j t u s plan, ts !! i = Some t → ts !! j = Some u →
     at_work t = Some plan → on_device (held t) = true → h_hold (held u) = Some s →
     orphaned w (held t) ∨ cp_parent_session_id plan = s) ∧
  (∀ i j t u s s', ts !! i = Some t → ts !! j = Some u → h_hold (held t) = Some s → h_hold (held u) = Some s' → i = j) ∧
  (length (List.filter outside_claims ts) ≤ 3)%nat.
Proof.
  intros [HA G]%reached_guards. simpl in HA, G. split; [|split; [|split]].
  - intros i j t u plan plan'. by apply (two_workers w ts).
  - intros i j t u s plan. by apply (worker_and_holder w ts).
  - intros i j t u s s'. by apply (one_holder w ts).
  - pose proof (outside_claims_bounded w ts ts HA G ltac:(done)). pose proof (process_permits w ts G).
    unfold SUBAGENT_PERMITS, REMOTE_SUBAGENT_CONCURRENCY in *. lia.
Qed.

(** What is reserved of a session's history is what its helpers reserved that have not ended: as
    many claims, of the same amounts, and once none is left there is nothing of the session in the
    ledger, on whichever path they ended. *)
Theorem reservations_follow_helpers pretty w ts s : reached pretty (w, ts) →
  N.of_nat (live_children s (w_ledger w)) = total (reserves_of s (λ _, true)) ts ∧
  (∀ f, is_number f = true →
     counted (λ g, f32_eqb g f) (default [] (dl_reservations (w_ledger w) !! s)) = total (reserves_of s (λ g, f32_eqb g f)) ts) ∧
  ((∀ t f, t ∈ ts → h_reservation (held t) ≠ Some (s, f)) → dl_reservations (w_ledger w) !! s = None).
Proof.
  intros [_ G]%reached_guards. simpl in G. destruct (gk_reservations _ _ G s) as [Hne R].
  pose proof (R (λ _, true) ltac:(done)) as Hall. unfold counted in Hall. rewrite filter_true in Hall by done.
  split; [|split].
  - unfold live_children. rewrite <-Hall. by destruct (_ !! s).
  - intros f _. apply R, f32_eqb_compatible.
  - intros Hno. rewrite total_zero in Hall.
    + destruct (_ !! s) as [[|]|]; [done|simpl in Hall; lia|done].
    + intros i t Hl. unfold reserves_of. destruct (h_reservation (held t)) as [[s' f]|] eqn:E; [|done].
      destruct (decide _) as [->|]; [|done]. exfalso. eapply Hno; [by eapply list_elem_of_lookup_2|exact E].
Qed.
