(* ===== verification/HelperRuns.v ===== *)
(** * HelperRuns: what becomes of the runs of helpers

    Of the programs of [Orchestrator]: the registry and the tasks agree, so a live run can be
    stopped; every way [spawn] can go keeps its books; and from any state reached, if no permit
    is withheld for ever, every delegation ends. At its end the moves that replay a run, the
    examples and the witnesses. *)
From S2P Require Import Prelude Prog Text Scope HandBack ToolGroups Locality RoleBlock Delegation TurnAuthority ChildPlan Orchestrator.
From Stdlib Require Import QArith.
Local Open Scope N_scope.


(** ** The registry of runs *)

Definition drives (id : text) (cancel : Token) (h : Held) : Prop := h_id h = Some id ∧ h_phase h = Registered cancel.

Record runs_ok (w : World) (ts : list Thread) : Prop := {
  ru_driven : ∀ i t id cancel, ts !! i = Some t → drives id cancel (held t) →
    ∃ e, w_tasks w !! id = Some e ∧ en_cancel e = cancel ∧ is_live e = true;
  ru_unique : ∀ i j t u id, ts !! i = Some t → ts !! j = Some u → h_id (held t) = Some id → h_id (held u) = Some id → i = j;
  ru_entry : ∀ id e, w_tasks w !! id = Some e → tr_id (en_run e) = id ∧ id ∈ w_ids w ∧
    (is_live e = true → id ∈ w_lost w ∨ ∃ i t cancel, ts !! i = Some t ∧ drives id cancel (held t));
  ru_ids : ∀ i t id, ts !! i = Some t → h_id (held t) = Some id → id ∈ w_ids w;
  ru_new : ∀ i t id, ts !! i = Some t → h_id (held t) = Some id → h_phase (held t) = NotRegistered → w_tasks w !! id = None;
}.

(** The table between two moments. *)
Definition registry_step (tasks tasks' : Tasks) : Prop := ∀ id e, tasks !! id = Some e →
  match tasks' !! id with
  | Some e' => en_cancel e' = en_cancel e ∧ tr_parent_session_id (en_run e') = tr_parent_session_id (en_run e) ∧
      (is_live e = false → e' = e)
  | None => is_live e = false
  end.

Lemma registry_step_refl tasks : registry_step tasks tasks.
Proof. intros id e Hl. by rewrite Hl. Qed.

Lemma registry_step_alter f id tasks e : tasks !! id = Some e → is_live e = true →
  tr_parent_session_id (f (en_run e)) = tr_parent_session_id (en_run e) → registry_step tasks (alter (on_run f) id tasks).
Proof.
  intros He Hlive Hf j e' Hj. destruct (decide (j = id)) as [->|Hne].
  - rewrite lookup_alter_eq, Hj. simpl. rewrite He in Hj. injection Hj as <-. split; [done|]. split; [done|]. congruence.
  - by rewrite lookup_alter_ne, Hj.
Qed.

Lemma registry_step_insert run cancel tasks tasks' : insert_run run cancel tasks tasks' → tasks !! tr_id run = None →
  registry_step tasks tasks' ∧ ∀ id e, tasks' !! id = Some e → id ≠ tr_id run → tasks !! id = Some e.
Proof.
  intros (victim & Hv & ->) Hnone.
  assert (∀ id e, tasks !! id = Some e → evict_task victim tasks !! id = Some e ∨ (evict_task victim tasks !! id = None ∧ is_live e = false)) as Hev.
  { intros id e Hl. destruct victim as [v|]; [|by left]. simpl. destruct (_ <=? _)%nat; [|done].
    destruct Hv as (e' & He' & Hlive & _). destruct (decide (id = v)) as [->|Hne]; [right|left; by rewrite lookup_delete_ne].
    rewrite lookup_delete_eq. split; [done|]. congruence. }
  split.
  - intros id e Hl. assert (id ≠ tr_id run) as Hne by congruence. rewrite lookup_insert_ne by done.
    destruct (Hev id e Hl) as [->|[-> ?]]; done.
  - intros id e Hl Hne. rewrite lookup_insert_ne in Hl by done. destruct victim as [v|]; [|done].
    simpl in Hl. by apply lookup_delete_Some in Hl as [_ ?].
Qed.

(** Nothing the registry speaks of changes. *)
Lemma runs_same w w' ts i t t' : runs_ok w ts → ts !! i = Some t → h_id (held t') = h_id (held t) →
  h_phase (held t') = h_phase (held t) ∨ h_id (held t) = None →
  w_tasks w' = w_tasks w → w_ids w' = w_ids w → w_lost w' = w_lost w →
  runs_ok w' (<[i := t']> ts).
Proof.
  intros [D U E I N] Hl E1 E2 Ew Ei Elo.
  assert (∀ j u, <[i := t']> ts !! j = Some u → ∃ v, ts !! j = Some v ∧ h_id (held u) = h_id (held v) ∧
    (h_phase (held u) = h_phase (held v) ∨ h_id (held v) = None)) as Hb.
  { intros j u [(-> & -> & _)|[_ Hj]]%list_lookup_insert_Some; eauto. }
  constructor.
  - intros j u id c Hj [H1 H2]. destruct (Hb j u Hj) as (v & Hv & F1 & [F2|F2]); [|congruence]. rewrite Ew. eapply (D j v); [done|]. split; congruence.
  - intros j k u u' id Hj Hk H1 H2. destruct (Hb j u Hj) as (v & Hv & F1 & _), (Hb k u' Hk) as (v' & Hv' & F1' & _).
    eapply (U j k v v' id); congruence.
  - intros id e He. rewrite Ew in He. rewrite Ei, Elo. destruct (E id e He) as (Htr0 & Hin0 & H). split; [done|]. split; [done|].
    intros Hlive. destruct (H Hlive) as [?|(j & v & c & Hv & H1 & H2)]; [by left|right].
    destruct (decide (j = i)) as [->|Hne].
    + exists i, t', c. rewrite Hl in Hv. injection Hv as <-. split; [by eapply list_lookup_insert_eq, lookup_lt_Some|]. destruct E2; [|congruence]. split; congruence.
    + exists j, v, c. by rewrite list_lookup_insert_ne.
  - intros j u id Hj H1. destruct (Hb j u Hj) as (v & Hv & F1 & _). rewrite Ei. eapply (I j v); congruence.
  - intros j u id Hj H1 H2. destruct (Hb j u Hj) as (v & Hv & F1 & [F2|F2]); [|congruence]. rewrite Ew. eapply (N j v); congruence.
Qed.

Lemma runs_world w w' ts : runs_ok w ts → w_tasks w' = w_tasks w → w_ids w' = w_ids w → w_lost w' = w_lost w → runs_ok w' ts.
Proof. intros [D U E I N] Ew Ei El. constructor; rewrite ?Ew, ?Ei, ?El; done. Qed.

(** A task's run is written: registered, begun or ended. *)
Lemma runs_write w ts i t t' id tasks' : runs_ok w ts → ts !! i = Some t → h_id (held t) = Some id → h_id (held t') = Some id →
  registry_step (w_tasks w) tasks' → (∀ j e, tasks' !! j = Some e → j ≠ id → w_tasks w !! j = Some e) →
  h_phase (held t') ≠ NotRegistered →
  (∃ e, tasks' !! id = Some e ∧ tr_id (en_run e) = id ∧
     match h_phase (held t') with Registered cancel => en_cancel e = cancel ∧ is_live e = true | _ => is_live e = false end) →
  runs_ok (set_tasks tasks' w) (<[i := t']> ts).
Proof.
  intros [D U E I N] Hl Hid Hid' Hstep Hback Hph (e0 & He0 & Htr & Hm).
  assert (∀ j u, <[i := t']> ts !! j = Some u → j ≠ i → ts !! j = Some u ∧ h_id (held u) ≠ Some id) as Hb.
  { intros j u [(-> & _)|[_ Hj]]%list_lookup_insert_Some Hne; [done|]. split; [done|]. intros Hu. by apply Hne, (U j i u t id). }
  assert (<[i := t']> ts !! i = Some t') as Hself by (by eapply list_lookup_insert_eq, lookup_lt_Some).
  constructor; simpl.
  - intros j u k c Hj [H1 H2]. destruct (decide (j = i)) as [->|Hne].
    + assert (u = t') as -> by congruence. assert (k = id) as -> by congruence. rewrite H2 in Hm. eauto.
    + destruct (Hb j u Hj Hne) as [Hu Hk]. destruct (D j u k c Hu ltac:(by split)) as (e & He & Ec & Hlive).
      specialize (Hstep k e He). destruct (tasks' !! k) as [e'|] eqn:E'; [|congruence].
      exists e'. destruct Hstep as (? & _ & _). split; [done|]. split; [congruence|].
      assert (k ≠ id) as Hkid by congruence. specialize (Hback k e' E' Hkid). congruence.
  - intros j k u v x Hj Hk H1 H2. destruct (decide (j = i)) as [->|Hne], (decide (k = i)) as [->|Hne']; [done| | |].
    + destruct (Hb k v Hk Hne'). congruence.
    + destruct (Hb j u Hj Hne). congruence.
    + destruct (Hb j u Hj Hne), (Hb k v Hk Hne'). by apply (U j k u v x).
  - intros j e Hj. destruct (decide (j = id)) as [->|Hne].
    + assert (e = e0) as -> by congruence. split; [done|]. split; [by apply (I i t)|]. intros Hlive. right.
      exists i, t'. destruct (h_phase (held t')) as [|c|] eqn:Ep; [done| |congruence]. exists c. done.
    + destruct (E j e (Hback j e Hj Hne)) as (Htr0 & Hin0 & H). split; [done|]. split; [done|]. intros Hlive.
      destruct (H Hlive) as [?|(k & v & c & Hv & H1 & H2)]; [by left|right]. exists k, v, c.
      rewrite list_lookup_insert_ne; [done|]. intros ->. congruence.
  - intros j u x Hj Hx. destruct (decide (j = i)) as [->|Hne]; [assert (u = t') as -> by congruence; assert (x = id) as -> by congruence; by apply (I i t)|].
    destruct (Hb j u Hj Hne). by apply (I j u).
  - intros j u x Hj Hx Hnr. destruct (decide (j = i)) as [->|Hne]; [congruence|]. destruct (Hb j u Hj Hne) as [Hu Hk].
    destruct (tasks' !! x) as [e|] eqn:Ee; [|done]. rewrite <-(N j u x Hu Hx Hnr). symmetry. apply Hback; [done|congruence].
Qed.

Lemma drives_live w ts i t id cancel : runs_ok w ts → ts !! i = Some t → drives id cancel (held t) →
  ∃ e, w_tasks w !! id = Some e ∧ en_cancel e = cancel ∧ is_live e = true ∧ tr_id (en_run e) = id.
Proof.
  intros R Hl Hd. destruct (ru_driven _ _ R i t id cancel Hl Hd) as (e & He & ? & ?). exists e.
  destruct (ru_entry _ _ R id e He) as (? & _). done.
Qed.

Lemma call_runs w ts i R (c : RunCall R) k h r w' :
  runs_ok w ts → ts !! i = Some (Alive (Call c k) h) → allowed c h → run_call c w r w' →
  runs_ok w' (<[i := Alive (k r) (after c r h)]> ts) ∧ registry_step (w_tasks w) (w_tasks w').
Proof.
  intros RO Hl Ha Hr.
  assert (∀ w1, w_tasks w1 = w_tasks w → w_ids w1 = w_ids w → w_lost w1 = w_lost w → h_id (after c r h) = h_id h →
    h_phase (after c r h) = h_phase h ∨ h_id h = None →
    runs_ok w1 (<[i := Alive (k r) (after c r h)]> ts) ∧ registry_step (w_tasks w) (w_tasks w1)) as Hsame.
  { intros w1 E1 E2 E3 E4 E5. split; [by eapply runs_same|]. rewrite E1. apply registry_step_refl. }
  destruct c; simpl in Hr, Ha; try (destruct_and?; subst; apply Hsame; solve [done|by left|by right]).
  - subst. destruct r; apply Hsame; solve [done|by left].
  - destruct Hr as (tasks & Hins & ->). destruct Ha as (Hid & Hph & Hq).
    pose proof (ru_new _ _ RO i _ (tr_id run) Hl Hid Hph) as Hnone.
    destruct (registry_step_insert _ _ _ _ Hins Hnone) as [Hstep Hback]. split; [|exact Hstep].
    eapply (runs_write w ts i (Alive (Call (InsertRun run cancel) k) h) _ (tr_id run)); try done.
    destruct Hins as (victim & _ & ->). eexists. split; [apply lookup_insert_eq|]. simpl. split; [done|]. split; [done|].
    unfold is_live. simpl. by rewrite Hq.
  - destruct (is_cancelled w cancel); [|destruct Hr as (s & _ & _ & -> & ->)]; [destruct Hr as [-> ->]|]; apply Hsame; solve [done|by left|by destruct r; left].
  - subst. destruct Ha as (Hid & c & Hph). destruct (drives_live w ts i _ id c RO Hl ltac:(by split)) as (e & He & Ec & Hlive & Htr).
    pose proof (registry_step_alter (with_status TaskStatus.Running) id (w_tasks w) e He Hlive eq_refl) as Hstep. split; [|exact Hstep].
    eapply (runs_write w ts i (Alive (Call (StartRun id) k) h) _ id); try done.
    + intros j e' Hj Hne. unfold start_run in Hj. by rewrite lookup_alter_ne in Hj.
    + simpl. by rewrite Hph.
    + exists (on_run (with_status TaskStatus.Running) e). unfold start_run. rewrite lookup_alter_eq, He. simpl. by rewrite Hph.
  - subst. destruct Ha as (Hid & (c & Hph) & Hterm). destruct (drives_live w ts i _ id c RO Hl ltac:(by split)) as (e & He & Ec & Hlive & Htr).
    pose proof (registry_step_alter (with_end status res err (w_now w)) id (w_tasks w) e He Hlive eq_refl) as Hstep. split; [|exact Hstep].
    eapply (runs_write w ts i (Alive (Call (FinishRun id status res err) k) h) _ id); try done.
    + intros j e' Hj Hne. unfold finish_run in Hj. by rewrite lookup_alter_ne in Hj.
    + exists (on_run (with_end status res err (w_now w)) e). unfold finish_run. rewrite lookup_alter_eq, He. simpl.
      split; [done|]. split; [done|]. unfold is_live. simpl. by rewrite Hterm.
  - subst. destruct (_ !! session); apply Hsame; solve [done|by left].
Qed.

Lemma runs_drop w ts i p h : runs_ok w ts → ts !! i = Some (Alive p h) →
  runs_ok (lose h w) (<[i := Ending (abandoned h)]> ts).
Proof.
  intros RO Hl. unfold lose, abandoned. destruct (h_phase h) as [|c|] eqn:Eph; [by eapply runs_same; [| | |left|..]| |by eapply runs_same; [| | |left|..]].
  assert (∃ w1, (match h_id h with Some id => set_ids (w_ids w) ({[id]} ∪ w_lost w) w | None => w end) = w1 ∧ w_tasks w1 = w_tasks w ∧
    w_ids w1 = w_ids w ∧ w_lost w ⊆ w_lost w1 ∧ ∀ id, h_id h = Some id → id ∈ w_lost w1) as (w1 & -> & Et & Ei & Hsub & Hlost).
  { destruct (h_id h) as [id|]; eexists; (split; [done|]); split; try done; split; try done; split; try done; simpl; [set_solver|].
    intros j [= ->]. set_solver. }
  destruct RO as [D U E I N].
  assert (∀ j u, <[i := Ending (held_phase Finished h)]> ts !! j = Some u → ∃ v, ts !! j = Some v ∧ h_id (held u) = h_id (held v) ∧
    (h_phase (held u) ≠ Finished → u = v)) as Hb.
  { intros j u [(<- & <- & _)|[_ Hj]]%list_lookup_insert_Some; [by exists (Alive p h)|eauto]. }
  constructor.
  - intros j u id c' Hj [H1 H2]. destruct (Hb j u Hj) as (v & Hv & _ & F). assert (u = v) as -> by (apply F; congruence). rewrite Et. by apply (D j v id c').
  - intros j k u u' id Hj Hk H1 H2. destruct (Hb j u Hj) as (v & Hv & F1 & _), (Hb k u' Hk) as (v' & Hv' & F1' & _).
    eapply (U j k v v' id); congruence.
  - intros id e He. rewrite Et in He. rewrite Ei. destruct (E id e He) as (Htr0 & Hin0 & H). split; [done|]. split; [done|].
    intros Hlive. destruct (H Hlive) as [?|(j & v & c' & Hv & H1 & H2)]; [left; set_solver|].
    destruct (decide (j = i)) as [->|Hne]; [left; apply Hlost; rewrite Hl in Hv; by injection Hv as <-|right].
    exists j, v, c'. by rewrite list_lookup_insert_ne.
  - intros j u id Hj H1. destruct (Hb j u Hj) as (v & Hv & F1 & _). rewrite Ei. eapply (I j v); congruence.
  - intros j u id Hj H1 H2. destruct (Hb j u Hj) as (v & Hv & _ & F). assert (u = v) as -> by (apply F; congruence). rewrite Et. by apply (N j v id).
Qed.

Lemma runs_spawn w ts p spec turn : runs_ok w ts → ts_id spec ∉ w_ids w →
  runs_ok (set_ids ({[ts_id spec]} ∪ w_ids w) (w_lost w) w) (ts ++ [Alive p (nothing_held (Some (ts_id spec)) turn)]).
Proof.
  intros [D U E I N] Hnew.
  assert (∀ j u, (ts ++ [Alive p (nothing_held (Some (ts_id spec)) turn)]) !! j = Some u → ts !! j = Some u ∨
    (j = length ts ∧ u = Alive p (nothing_held (Some (ts_id spec)) turn))) as Hb.
  { intros j u [Hj|[? [? <-]%list_lookup_singleton_Some]]%lookup_app_Some; [by left|right; split; [lia|done]]. }
  constructor; simpl.
  - intros j u id c Hj [H1 H2]. destruct (Hb j u Hj) as [Hu|[-> ->]]; [by apply (D j u id c)|done].
  - intros j k u v id Hj Hk H1 H2. destruct (Hb j u Hj) as [Hu|[-> ->]], (Hb k v Hk) as [Hv|[-> ->]]; [by apply (U j k u v id)| | |done]; exfalso; apply Hnew.
    + simpl in H2. injection H2 as ->. by apply (I j u).
    + simpl in H1. injection H1 as ->. by apply (I k v).
  - intros id e He. destruct (E id e He) as (Htr0 & Hin0 & H). split; [done|]. split; [set_solver|]. intros Hlive.
    destruct (H Hlive) as [?|(j & v & c & Hv & Hd)]; [by left|right]. exists j, v, c. split; [by apply lookup_app_l_Some|done].
  - intros j u id Hj H1. destruct (Hb j u Hj) as [Hu|[-> ->]]; [pose proof (I j u id Hu H1); set_solver|]. simpl in H1. injection H1 as <-. set_solver.
  - intros j u id Hj H1 H2. destruct (Hb j u Hj) as [Hu|[-> ->]]; [by apply (N j u id)|]. simpl in H1. injection H1 as <-.
    destruct (w_tasks w !! ts_id spec) as [e|] eqn:Ee; [|done]. destruct (E _ _ Ee) as (_ & ? & _). done.
Qed.

Lemma runs_turn w ts p : runs_ok w ts → runs_ok w (ts ++ [Alive p (nothing_held None None)]).
Proof.
  intros [D U E I N].
  assert (∀ j u id, (ts ++ [Alive p (nothing_held None None)]) !! j = Some u → h_id (held u) = Some id → ts !! j = Some u) as Hb.
  { intros j u id [Hj|[? [? <-]%list_lookup_singleton_Some]]%lookup_app_Some; done. }
  constructor.
  - intros j u id c Hj [H1 H2]. apply (D j u id c); [by eapply Hb|done].
  - intros j k u v id Hj Hk H1 H2. by apply (U j k u v id); eauto.
  - intros id e He. destruct (E id e He) as (Htr0 & Hin0 & H). split; [done|]. split; [done|]. intros Hlive.
    destruct (H Hlive) as [?|(j & v & c & Hv & Hd)]; [by left|right]. exists j, v, c. split; [by apply lookup_app_l_Some|done].
  - intros j u id Hj H1. by apply (I j u); eauto.
  - intros j u id Hj H1 H2. by apply (N j u); eauto.
Qed.

Lemma unwind_keeps h w h' w' : unwind h w = Some (h', w') →
  h_id h' = h_id h ∧ h_phase h' = h_phase h ∧ w_tasks w' = w_tasks w ∧ w_ids w' = w_ids w ∧ w_lost w' = w_lost w ∧
  w_cancelled w' = w_cancelled w.
Proof. unfold unwind. intros H. by repeat case_match; simplify_eq. Qed.

Lemma lose_keeps h w : w_tasks (lose h w) = w_tasks w ∧ w_cancelled (lose h w) = w_cancelled w.
Proof. unfold lose. by destruct (h_phase h), (h_id h). Qed.

Lemma step_runs pretty c c' : alive_ok c.2 → runs_ok c.1 c.2 → pool_step pretty c c' →
  runs_ok c'.1 c'.2 ∧ registry_step (w_tasks c.1) (w_tasks c'.1).
Proof.
  intros HA RO Hs. destruct Hs as [i R c k h r w w' ts Hl Hr|i h w ts Hl|i R c k h w ts Hl Ha Hd|i h h' w w' ts Hl Hu
    |spec turn w ts Hn Hf Ht|session provider cancel w ts|auth now w ts|t w ts|id w ts|session w ts|session w ts|id w ts|id w ts|i plan prefill prime cancel k h tool w ts _]; simpl in *.
  - eapply call_runs; [done|done| |done]. apply (HA i _ _ Hl).
  - split; [eapply runs_same; [done|done|done|by left|done..]|apply registry_step_refl].
  - split; [by eapply runs_drop|]. destruct (lose_keeps h w) as [-> _]. apply registry_step_refl.
  - apply unwind_keeps in Hu as (E1 & E2 & Et & Ei & El & _). split; [eapply runs_same; [done|done|done|by left|done..]|]. rewrite Et. apply registry_step_refl.
  - split; [by apply runs_spawn|apply registry_step_refl].
  - split; [by apply runs_turn|apply registry_step_refl].
  - split; [by eapply runs_world|apply registry_step_refl].
  - split; [by eapply runs_world|apply registry_step_refl].
  - unfold cancel_run. destruct (_ !! id); (split; [by eapply runs_world|apply registry_step_refl]).
  - split; [by eapply runs_world|apply registry_step_refl].
  - split; [by eapply runs_world|apply registry_step_refl].
  - split; [by eapply runs_world|apply registry_step_refl].
  - split; [by eapply runs_world|apply registry_step_refl].
  - split; [by eapply runs_world|apply registry_step_refl].
Qed.

Lemma reached_runs pretty c : reached pretty c → runs_ok c.1 c.2.
Proof.
  intros (authorities & now & Hs).
  refine (proj2 (star_invariant (pool_step pretty) (λ c, alive_ok c.2 ∧ runs_ok c.1 c.2) _ _ _ Hs _)).
  - intros c1 c2 [HA G] Hstep. split; [by eapply step_alive|by eapply step_runs].
  - split; [done|]. constructor; done.
Qed.

Lemma call_cancelled {R} (c : RunCall R) w r w' : run_call c w r w' → w_cancelled w' = w_cancelled w.
Proof.
  destruct c; simpl; intros H; destruct_and?; subst; try done.
  - by destruct H as (tasks & _ & ->).
  - destruct (is_cancelled w cancel); [by destruct H as [_ ->]|by destruct H as (s & _ & _ & _ & ->)].
  - by destruct (_ !! session).
Qed.

Lemma is_cancelled_mono w w' t : w_cancelled w ⊆ w_cancelled w' → is_cancelled w t = true → is_cancelled w' t = true.
Proof.
  intros Hsub. unfold is_cancelled. intros [H%bool_decide_eq_true|H]%orb_true_iff; apply orb_true_iff; [left; apply bool_decide_eq_true; set_solver|right].
  destruct t; try done. apply bool_decide_eq_true in H. apply bool_decide_eq_true. set_solver.
Qed.

Lemma step_cancelled pretty c c' : pool_step pretty c c' → w_cancelled c.1 ⊆ w_cancelled c'.1.
Proof.
  intros Hs. destruct Hs as [i R c k h r w w' ts Hl Hr|i h w ts Hl|i R c k h w ts Hl Ha Hd|i h h' w w' ts Hl Hu
    |spec turn w ts Hn Hf Ht|session provider cancel w ts|auth now w ts|t w ts|id w ts|session w ts|session w ts|id w ts|id w ts|i plan prefill prime cancel k h tool w ts _]; simpl; try set_solver.
  - by rewrite (call_cancelled _ _ _ _ Hr).
  - by destruct (lose_keeps h w) as [_ ->].
  - by destruct (unwind_keeps _ _ _ _ Hu) as (_ & _ & _ & _ & _ & ->).
  - unfold cancel_run. destruct (_ !! id); simpl; set_solver.
Qed.

Lemma cancel_children_cancels session w id e : w_tasks w !! id = Some e → owed_to session e = true →
  is_cancelled (cancel_children_of session w).1 (en_cancel e) = true.
Proof.
  intros He Ho. unfold is_cancelled. apply orb_true_iff. left. apply bool_decide_eq_true. simpl. apply elem_of_app. left.
  apply list_elem_of_fmap. exists e. split; [done|]. unfold owed_entries. apply elem_of_filter_bool. split; [|done].
  apply list_elem_of_fmap. exists (id, e). split; [done|]. by apply elem_of_map_to_list.
Qed.

(** C18: a helper's run that is under way is in the registry, not finished, with the token its helper
    watches, so [cancel] by its id and [cancel_children_of] its session trip that token, and it stays
    tripped. No step takes away an entry that is not finished, or changes one that is; what is not
    finished is either under way or was dropped where it waited. *)
Theorem live_runs_can_be_stopped pretty w ts : reached pretty (w, ts) →
  (∀ i t id cancel, ts !! i = Some t → drives id cancel (held t) →
     ∃ e, w_tasks w !! id = Some e ∧ is_live e = true ∧ en_cancel e = cancel ∧
       is_cancelled (cancel_run id w) cancel = true ∧
       is_cancelled (cancel_children_of (tr_parent_session_id (en_run e)) w).1 cancel = true) ∧
  (∀ id e, w_tasks w !! id = Some e → is_live e = true →
     id ∈ w_lost w ∨ ∃ i t, ts !! i = Some t ∧ drives id (en_cancel e) (held t)) ∧
  ∀ w' ts', pool_step pretty (w, ts) (w', ts') →
    registry_step (w_tasks w) (w_tasks w') ∧ ∀ t, is_cancelled w t = true → is_cancelled w' t = true.
Proof.
  intros Hr. pose proof (reached_runs _ _ Hr) as RO. pose proof (reached_guards _ _ Hr) as [HA _]. simpl in RO, HA.
  split; [|split].
  - intros i t id cancel Hl Hd. destruct (ru_driven _ _ RO i t id cancel Hl Hd) as (e & He & Ec & Hlive).
    exists e. split; [done|]. split; [done|]. split; [done|]. split.
    + unfold cancel_run, cancel_token, is_cancelled. rewrite He. simpl. rewrite Ec. apply orb_true_iff. left.
      apply bool_decide_eq_true. by left.
    + rewrite <-Ec. eapply cancel_children_cancels; [exact He|]. unfold owed_to. by rewrite bool_decide_true.
  - intros id e He Hlive. destruct (ru_entry _ _ RO id e He) as (_ & _ & H). destruct (H Hlive) as [?|(i & t & c & Hl & Hd)]; [by left|].
    right. exists i, t. split; [done|]. destruct (ru_driven _ _ RO i t id c Hl Hd) as (e' & He' & <- & _). congruence.
  - intros w' ts' Hstep. split; [apply (step_runs pretty (w, ts) (w', ts') HA RO Hstep)|].
    intros t. apply is_cancelled_mono. apply (step_cancelled pretty (w, ts) (w', ts') Hstep).
Qed.

(** ** What a run leaves behind *)

Notation trail := (list {R : Type & (RunCall R * R)%type}).

(** The engine's sessions a way through [spawn] opens, runs in and releases. *)
Inductive SessionEvent : Type := Opened (sid : text) | RanIn (sid : text) | Released (sid : text).
Definition session_event (e : {R : Type & (RunCall R * R)%type}) : option SessionEvent :=
  match e with existT R (c, r) =>
    match c in RunCall R return R → option SessionEvent with
    | OpenChildSession _ => λ r, match r with Ok sid => Some (Opened sid) | Err _ => None end
    | RunChild plan _ _ _ => λ _, Some (RanIn (cp_child_session_id plan))
    | ReleaseChild sid => λ _, Some (Released sid)
    | _ => λ _, None
    end r
  end.

(** What it writes to the registry of the run's state, and what it tells the parent's stream. *)
Definition written (e : {R : Type & (RunCall R * R)%type}) : option (text * SubagentStatus) :=
  match e with existT R (c, _) =>
    match c with
    | InsertRun run _ => Some (tr_id run, SubagentStatus_from (tr_status run))
    | StartRun id => Some (id, SubagentStatus.Running)
    | FinishRun id status _ _ => Some (id, SubagentStatus_from status)
    | _ => None
    end
  end.
(** The environment it was told. *)
Definition environment_of (e : {R : Type & (RunCall R * R)%type}) : option ChildEnvironment :=
  match e with existT R (c, r) =>
    match c in RunCall R return R → option ChildEnvironment with
    | GetEnvironment _ => λ r, match r with Ok env => Some env | Err _ => None end
    | _ => λ _, None
    end r
  end.
Definition told (e : {R : Type & (RunCall R * R)%type}) : option (text * SubagentStatus) :=
  match e with existT R (c, _) =>
    match c with ReportProgress frame => Some (pg_task_id frame, pg_status frame) | _ => None end
  end.

(** A way through [drive_run]: what it makes of the sessions, writes and tells. *)
Definition driven (plan : ChildPlan) (run : TaskRun) (cancel : Token) (l : trail) (final : TaskRun) : Prop :=
  let sid := cp_child_session_id plan in
  let id := tr_id run in
  ∃ status, TaskStatus_is_terminal status = true ∧ tr_status final = status ∧ tr_id final = id ∧
    omap written l = omap told l ∧
    ((status = TaskStatus.Cancelled ∧ tr_result final = tr_result run ∧ omap session_event l = [Released sid] ∧
      omap written l = [(id, SubagentStatus.Cancelled)]) ∨
     (omap session_event l = [RanIn sid; Released sid] ∧
      omap written l = [(id, SubagentStatus.Running); (id, SubagentStatus_from status)] ∧
      ∃ prefill prime outcome, called (RunChild plan prefill prime cancel) outcome l ∧
        match outcome with
        | Err _ => status = TaskStatus.Failed ∧ tr_result final = None
        | Ok o =>
            if is_empty (stripped_builtins_present (co_loaded_extensions o))
            then ∃ b, called (IsCancelled cancel) b l ∧
                   (status, tr_result final) = classify_outcome b (co_assistant_turns o) (cp_max_turns plan) (co_last_text o)
            else status = TaskStatus.Failed ∧ tr_result final = None
        end)).

Lemma classify_terminal b turns max_turns txt : TaskStatus_is_terminal (classify_outcome b turns max_turns txt).1 = true.
Proof. unfold classify_outcome. by repeat case_match. Qed.

Lemma ending_paths id run status res err l final : tr_id run = id →
  path (do! FinishRun id status res err in
        do! ReportProgress (frame_of run (SubagentStatus_from status) err) in
        let! now := Now in Ret (with_end status res err now run)) l final →
  tr_status final = status ∧ tr_id final = id ∧ tr_result final = res ∧ omap session_event l = [] ∧
  omap written l = [(id, SubagentStatus_from status)] ∧ omap told l = [(id, SubagentStatus_from status)].
Proof.
  intros <- Hp. apply path_inv in Hp as ([] & m1 & -> & Hp). apply path_inv in Hp as ([] & m2 & -> & Hp).
  apply path_inv in Hp as (now & m3 & -> & Hp). by apply path_inv in Hp as [-> ->].
Qed.

Lemma drive_paths provider plan run cancel l final : path (drive_run provider plan run cancel) l final →
  driven plan run cancel l final.
Proof.
  intros H. unfold drive_run in H. apply path_inv in H as (inherited & l0 & -> & H).
  destruct (match inherited with Some _ => _ | None => _ end) as [device needed].
  apply path_inv in H as ([|] & l1 & -> & H); cbn [negb] in H.
  - apply path_inv in H as ([] & l2 & -> & H). apply path_inv in H as ([] & l3 & -> & H).
    apply path_inv in H as ([] & l4 & -> & H). apply path_inv in H as (outcome & l5 & -> & H).
    apply path_inv in H as ([] & l6 & -> & H).
    unfold judge in H. destruct outcome as [o|e].
    + destruct (is_empty (stripped_builtins_present (co_loaded_extensions o))) eqn:Esm; cbn [negb] in H.
      * apply path_inv in H as (b & l7 & -> & H).
        destruct (classify_outcome b _ _ _) as [status res] eqn:Ec. apply (ending_paths (tr_id run)) in H as (E1 & E2 & E3 & E4 & E5 & E6); [|done].
        exists status. split; [by pose proof (classify_terminal b (co_assistant_turns o) (cp_max_turns plan) (co_last_text o)) as Ht; rewrite Ec in Ht|].
        split; [done|]. split; [done|]. split; [cbn; by rewrite E5, E6|]. right. split; [cbn; by rewrite E4|]. split; [cbn; by rewrite E5|].
        eexists _, _, (Ok o). split; [do 5 right; by left|]. rewrite Esm. exists b. split; [do 7 right; by left|]. by rewrite E3, Ec.
      * apply (ending_paths (tr_id run)) in H as (E1 & E2 & E3 & E4 & E5 & E6); [|done]. exists TaskStatus.Failed. split; [done|]. split; [done|]. split; [done|].
        split; [cbn; by rewrite E5, E6|]. right. split; [cbn; by rewrite E4|]. split; [cbn; by rewrite E5|].
        eexists _, _, (Ok o). split; [do 5 right; by left|]. by rewrite Esm.
    + apply (ending_paths (tr_id run)) in H as (E1 & E2 & E3 & E4 & E5 & E6); [|done]. exists TaskStatus.Failed. split; [done|]. split; [done|]. split; [done|].
      split; [cbn; by rewrite E5, E6|]. right. split; [cbn; by rewrite E4|]. split; [cbn; by rewrite E5|].
      eexists _, _, (Err e). split; [do 5 right; by left|done].
  - apply path_inv in H as ([] & l2 & -> & H). apply path_inv in H as ([] & l3 & -> & H).
    apply path_inv in H as (now & l4 & -> & H). apply path_inv in H as ([] & l5 & -> & H). apply path_inv in H as [-> ->].
    exists TaskStatus.Cancelled. do 4 (split; [done|]). by left.
Qed.

Lemma background_refused spec env : ts_background spec = true → max_concurrent_subagents (ce_provider_name env) ≤ 1 →
  is_Some (background_refusal spec env).
Proof.
  intros Hb Hm. unfold background_refusal, for_provider. rewrite Hb.
  destruct (N.ltb_spec 1 (max_concurrent_subagents (ce_provider_name env))); [lia|]. case_bool_decide; by eexists.
Qed.

(** C19: however the engine answers, [spawn] keeps its books. Each state of the run it writes it tells
    the parent's stream, in that order. A session it opens in the engine it releases, once, last, and
    a child runs in no other; one is opened only for a live turn and a run that may start. A refused
    delegation writes nothing. Otherwise the run is queued, begins if it was not cancelled first, and
    ends once: as what [classify_outcome] makes of the child's turns with the token asked after they
    ended, or failed with no result when the child could not be run or had loaded a stripped builtin.
    A foreground run comes back as it was judged; a background one not yet over, without a result, to be
    polled, and never on a device of one permit. *)
Theorem spawn_keeps_its_books pretty spec l r : path (spawn pretty spec) l r →
  omap written l = omap told l ∧
  (∀ env rest, omap environment_of l = env :: rest → ts_background spec = true →
     max_concurrent_subagents (ce_provider_name env) ≤ 1 → ∃ refusal, r = Err (BackgroundRefused refusal)) ∧
  match r with
  | Err e => omap written l = [] ∧
      (omap session_event l = [] ∨ ∃ sid refused, e = PlanRefusedError refused ∧ omap session_event l = [Opened sid; Released sid])
  | Ok run => tr_id run = ts_id spec ∧
      ∃ cancel plan status res, TaskStatus_is_terminal status = true ∧
        (if ts_background spec then TaskStatus_is_terminal (tr_status run) = false ∧ tr_result run = None
         else tr_status run = status ∧ tr_result run = res) ∧
        ((status = TaskStatus.Cancelled ∧ res = None ∧
          omap session_event l = [Opened (cp_child_session_id plan); Released (cp_child_session_id plan)] ∧
          omap written l = [(ts_id spec, SubagentStatus.Queued); (ts_id spec, SubagentStatus.Cancelled)]) ∨
         (omap session_event l = [Opened (cp_child_session_id plan); RanIn (cp_child_session_id plan); Released (cp_child_session_id plan)] ∧
          omap written l = [(ts_id spec, SubagentStatus.Queued); (ts_id spec, SubagentStatus.Running); (ts_id spec, SubagentStatus_from status)] ∧
          ∃ prefill prime outcome, called (RunChild plan prefill prime cancel) outcome l ∧
            match outcome with
            | Err _ => status = TaskStatus.Failed ∧ res = None
            | Ok o =>
                if is_empty (stripped_builtins_present (co_loaded_extensions o))
                then ∃ b, called (IsCancelled cancel) b l ∧
                  (status, res) = classify_outcome b (co_assistant_turns o) (ts_max_turns spec) (co_last_text o)
                else status = TaskStatus.Failed ∧ res = None
            end))
  end.
Proof.
  unfold spawn. pose proof drive_paths as Hdrive. revert Hdrive. generalize drive_run. intros drive Hdrive H.
  apply path_inv in H as ([parent_turn|] & l1 & -> & H).
  2:{ apply path_inv in H as [-> ->]. split; [done|]. split; [done|]. split; [done|by left]. }
  apply path_inv in H as ([] & l2 & -> & H). apply path_inv in H as ([env|e] & l3 & -> & H).
  2:{ apply path_inv in H as [-> ->]. split; [done|]. split; [done|]. split; [done|by left]. }
  destruct (background_refusal spec env) as [refusal|] eqn:Eb.
  { apply path_inv in H as [-> ->]. split; [done|]. split; [by eauto|]. split; [done|by left]. }
  assert (∀ (P : Prop) env' rest l', env :: l' = env' :: rest → ts_background spec = true →
    max_concurrent_subagents (ce_provider_name env') ≤ 1 → P) as Hno.
  { intros P env' rest l' [= <- _] Hb Hm. destruct (background_refused spec env Hb Hm). congruence. }
  apply path_inv in H as (cancel & l4 & -> & H).
  apply path_inv in H as ([sid|e] & l5 & -> & H).
  2:{ apply path_inv in H as [-> ->]. destruct (ts_background spec) eqn:Ebg; (split; [done|]; split; [intros env' rest E Hb; eapply Hno, Hb; exact E|]; split; [done|by left]). }
  destruct (build_child_plan _ _ _ _ _) as [plan|refused] eqn:Ep.
  2:{ apply path_inv in H as ([] & l6 & -> & H). apply path_inv in H as [-> ->].
      destruct (ts_background spec) eqn:Ebg; (split; [done|]; split; [intros env' rest E Hb; eapply Hno, Hb; exact E|]; split; [done|right; eauto]). }
  apply build_child_plan_ok in Ep as (_ & _ & _ & _ & Hmax & <- & _). rewrite <-Hmax.
  apply path_inv in H as (now & l6 & -> & H). apply path_inv in H as ([] & l7 & -> & H).
  apply path_inv in H as ([] & l8 & -> & H).
  assert (∃ run, with_status TaskStatus.Queued (TaskRun_started spec now) = run ∧ tr_id run = ts_id spec ∧
    tr_status run = TaskStatus.Queued ∧ tr_result run = None) as (run & Erun & Eid & Ers & Erres) by (eexists; done).
  rewrite Erun in *. clear Erun.
  assert (∃ final l9, path (drive (ce_provider_name env) plan run cancel) l9 final ∧
    ((ts_background spec = true ∧ l8 = existT _ (SpawnTask run, tt) :: l9 ∧ r = Ok run) ∨
     (ts_background spec = false ∧ l8 = l9 ∧ r = Ok final))) as (final & l9 & Hd & Hcase).
  { destruct (ts_background spec); [apply path_inv in H as ([] & l9 & -> & H)|];
      apply path_bind in H as (final & m1 & m2 & -> & Hd & [-> ->]%path_inv); exists final, m1; rewrite app_nil_r;
      (split; [exact Hd|]); [left|right]; by split. }
  apply Hdrive in Hd as (status & Hterm & Hst & Hid & Hbooks & Hshape). clear H.
  rewrite Eid, Erres in *.
  destruct Hcase as [(Hbg & -> & ->)|(Hbg & -> & ->)]; rewrite Hbg; cbn [omap list_omap session_event written told environment_of frame_of pg_task_id pg_status].
  all: rewrite ?Hbooks, ?Ers, ?Eid; split; [done|]; split; [intros env' rest E Hb; first [discriminate Hb|eapply Hno; [exact E|exact Hbg]]|].
  all: split; [congruence|]; exists cancel, plan, status, (tr_result final); split; [done|]; split; [first [split; [reflexivity|exact Erres]|split; congruence]|].
  all: rewrite <-?Hbooks; destruct Hshape as [(? & Hres & Hse & Hwr)|(Hse & Hwr & prefill & prime & outcome & Hc & Hm)]; [left|right];
    rewrite Hse, Hwr; [done|].
  all: split; [done|]; split; [done|]; exists prefill, prime, outcome; split; [repeat right; exact Hc|].
  all: destruct outcome; [|exact Hm]; destruct (is_empty _); [|exact Hm].
  all: destruct Hm as (b & Hb & Hm); exists b; split; [repeat right; exact Hb|exact Hm].
Qed.

(** ** Nobody waits for ever *)

(** Tasks that go on by themselves: none is dropped, and a turn's conversation ends only once the
    helpers it waits for have ended and let go of what they held. *)
Definition spent (h : Held) : bool :=
  match h_bound h, h_hold h, h_permit h, h_reservation h with None, None, None, None => true | _, _, _, _ => false end.
Definition over (t : Thread) : bool := match t with Ending h => spent h | Alive _ _ => false end.
Definition awaited_by (k : nat) (t : Thread) : bool :=
  match h_turn (held t) with Some (j, _) => (j =? k)%nat && negb (over t) | None => false end.
Definition pending (ts : list Thread) (k : nat) : bool := existsb (awaited_by k) ts.

Definition is_converse {R} (c : RunCall R) : bool := match c with Converse _ => true | _ => false end.
Definition is_acquire {R} (c : RunCall R) : bool := match c with AcquireMany _ _ _ => true | _ => false end.

Inductive calm_step : Pool → Pool → Prop :=
| cm_call i R (c : RunCall R) k h r w w' ts :
    ts !! i = Some (Alive (Call c k) h) → run_call c w r w' → (is_converse c = true → pending ts i = false) →
    calm_step (w, ts) (w', <[i := Alive (k r) (after c r h)]> ts)
| cm_return i h w ts : ts !! i = Some (Alive (Ret tt) h) → calm_step (w, ts) (w, <[i := Ending h]> ts)
| cm_unwind i h h' w w' ts :
    ts !! i = Some (Ending h) → unwind h w = Some (h', w') → calm_step (w, ts) (w', <[i := Ending h']> ts).

Lemma calm_is_step pretty c c' : calm_step c c' → pool_step pretty c c'.
Proof. intros [i R c0 k h r w w' ts Hl Hr _|i h w ts Hl|i h h' w w' ts Hl Hu]; by econstructor. Qed.

Lemma reached_calm pretty c c' : reached pretty c → star calm_step c c' → reached pretty c'.
Proof.
  intros (a & now & Hs) Hc. exists a, now. eapply star_trans; [exact Hs|].
  revert Hc. apply star_mono. apply calm_is_step.
Qed.

Lemma step_reached pretty c c' : reached pretty c → pool_step pretty c c' → reached pretty c'.
Proof. intros (a & now & Hs) Hc. exists a, now. eapply star_trans; [exact Hs|]. by apply star_one. Qed.

(** *** Turns and the helpers they wait for *)

Definition conversing (t : Thread) : option text :=
  match t with Alive (Call c _) _ => match c with Converse s => Some s | _ => None end | _ => None end.
Definition past (t : Thread) : Prop := match t with Ending _ => True | Alive _ h => h_phase h = Finished end.

Definition waited (ts : list Thread) (t : Thread) (k : nat) (s : text) : Prop :=
  is_Some (h_id (held t)) ∧ ∃ u, ts !! k = Some u ∧
    (past u ∨ (conversing u = Some s ∧ (is_Some (h_hold (held u)) → h_inherits (held t) ≠ Some None))).
Definition turns_ok (ts : list Thread) : Prop := ∀ m t k s, ts !! m = Some t → h_turn (held t) = Some (k, s) → waited ts t k s.

Lemma after_keeps {R} (c : RunCall R) r h : h_turn (after c r h) = h_turn h ∧ h_id (after c r h) = h_id h.
Proof. destruct c; simpl; try done; by destruct r. Qed.

Lemma after_past {R} (c : RunCall R) r h : allowed c h → h_phase h = Finished → h_phase (after c r h) = Finished.
Proof.
  intros Ha Hf. destruct c; simpl in *; try done; [by destruct r| |by destruct r]. destruct Ha as (_ & ? & _). congruence.
Qed.

(** One task changes: it stays where a turn may be waited on, and its own turn is as before. *)
Lemma turns_change ts i t t' : turns_ok ts → ts !! i = Some t →
  h_turn (held t') = h_turn (held t) → h_id (held t') = h_id (held t) →
  (past t → past t') → (∀ s, conversing t = Some s → past t') →
  (∀ k s u, h_turn (held t) = Some (k, s) → ts !! k = Some u → conversing u = Some s → is_Some (h_hold (held u)) →
     h_inherits (held t) ≠ Some None → h_inherits (held t') ≠ Some None) →
  turns_ok (<[i := t']> ts).
Proof.
  intros T Hl Et Ei Hp Hc Hinh m v k s Hm Hv.
  assert (∃ v0, ts !! m = Some v0 ∧ h_turn (held v0) = Some (k, s) ∧ h_id (held v) = h_id (held v0) ∧ (m ≠ i → v = v0) ∧ (m = i → v = t' ∧ v0 = t)) as
    (v0 & Hm0 & Hv0 & Eid & Hne & Heq).
  { apply list_lookup_insert_Some in Hm as [(-> & -> & _)|[? Hm]]; [exists t|exists v]; repeat split; congruence. }
  destruct (T m v0 k s Hm0 Hv0) as (Hid & u & Hk & Hu). split; [by rewrite Eid|].
  destruct (decide (k = i)) as [->|Hki].
  - exists t'. rewrite list_lookup_insert_eq by (by eapply lookup_lt_Some). split; [done|]. left.
    rewrite Hl in Hk. injection Hk as <-. destruct Hu as [?|[? _]]; eauto.
  - exists u. rewrite list_lookup_insert_ne by done. split; [done|]. destruct Hu as [?|[Hcv Hu]]; [by left|right]. split; [done|].
    intros Hhold. specialize (Hu Hhold). destruct (decide (m = i)) as [->|Hmi]; [|by rewrite (Hne Hmi)].
    destruct (Heq eq_refl) as [-> ->]. by eapply Hinh.
Qed.

Lemma turns_snoc ts p id turn : turns_ok ts →
  (∀ j s, turn = Some (j, s) → is_Some id ∧ ∃ u, ts !! j = Some u ∧ conversing u = Some s) →
  turns_ok (ts ++ [Alive p (nothing_held id turn)]).
Proof.
  intros T Hturn m v k s Hm Hv.
  assert (is_Some (h_id (held v)) ∧ ∃ u, ts !! k = Some u ∧ (past u ∨ (conversing u = Some s ∧ (is_Some (h_hold (held u)) → h_inherits (held v) ≠ Some None))))
    as (Hid & u & Hk & Hu); [|split; [done|]; exists u; split; [by apply lookup_app_l_Some|done]].
  apply lookup_app_Some in Hm as [Hm|[_ [_ <-]%list_lookup_singleton_Some]]; [by apply (T m v k s)|].
  simpl in Hv. destruct (Hturn k s Hv) as (Hid & u & Hk & Hu). split; [done|]. exists u. split; [done|]. right. done.
Qed.

Lemma conversing_holds w ts k u s : alive_ok ts → guards_ok w ts → ts !! k = Some u → conversing u = Some s →
  is_Some (h_hold (held u)) → h_hold (held u) = Some s ∧ is_Some (inherited_child_permits s (w_ledger w)).
Proof.
  intros HA G Hk Hc [s' Hh]. destruct u as [[|R c kk] h|]; try done. simpl in *. destruct c; try done. injection Hc as ->.
  destruct (HA _ _ _ Hk) as [(_ & _ & Hp) _]. destruct (gk_hold _ _ G k _ Hk s' Hh) as [Hp' _]. simpl in *.
  destruct Hp as [Hp|Hp]; [congruence|]. split; [done|].
  pose proof (gk_holders _ _ G s) as H. unfold inherited_child_permits. destruct (_ !! s) as [st|] eqn:Es.
  - destruct H as (_ & Hpos & _). apply N.ltb_lt in Hpos. by rewrite Hpos.
  - pose proof (total_le (holds_of s) ts k _ Hk) as Hle. simpl in Hle. rewrite (holds_of_some s h Hp) in Hle. lia.
Qed.

Lemma step_turns pretty c c' : alive_ok c.2 → guards_ok c.1 c.2 → turns_ok c.2 → pool_step pretty c c' → turns_ok c'.2.
Proof.
  intros HA G T Hs. destruct Hs as [i R c k h r w w' ts Hl Hr|i h w ts Hl|i R c k h w ts Hl Ha Hd|i h h' w w' ts Hl Hu
    |spec turn w ts Hn Hf Ht|session provider cancel w ts|auth now w ts|t w ts|id w ts|session w ts|session w ts|id w ts|id w ts|i plan prefill prime cancel k h tool w ts _];
    simpl in *; try done.
  - destruct (HA _ _ _ Hl) as [Hal _]. destruct (after_keeps c r h) as [Et Ei].
    eapply (turns_change ts i _ _ T Hl); try done.
    + simpl. by apply after_past.
    + simpl. intros s Hc. by destruct c.
    + simpl. intros j s u Htu Hj Hcu Hhold Hno. destruct c; simpl in *; try done; try (by destruct r).
      destruct Hal as (_ & _ & Hal). specialize (Hal _ _ Htu) as ->. destruct Hr as [-> _].
      destruct (conversing_holds w ts j u session HA G Hj Hcu Hhold) as [_ [x ->]]. done.
  - by eapply (turns_change ts i _ _ T Hl).
  - eapply (turns_change ts i _ _ T Hl); try done; simpl; unfold abandoned; by destruct (h_phase h).
  - assert (h_turn h' = h_turn h ∧ h_inherits h' = h_inherits h) as [E1 E2] by (unfold unwind in Hu; by repeat case_match; simplify_eq).
    destruct (unwind_keeps _ _ _ _ Hu) as (E3 & _).
    eapply (turns_change ts i _ _ T Hl); try done. simpl. by rewrite E2.
  - apply turns_snoc; [done|]. intros j s ->. destruct Ht as (-> & kk & h & Hj). split; [by eexists|]. eexists. split; [exact Hj|done].
  - by apply turns_snoc.
Qed.

Lemma pool_reached_ok pretty c : reached pretty c → alive_ok c.2 ∧ guards_ok c.1 c.2 ∧ turns_ok c.2.
Proof.
  intros (authorities & now & Hs).
  refine (star_invariant (pool_step pretty) (λ c, alive_ok c.2 ∧ guards_ok c.1 c.2 ∧ turns_ok c.2) _ _ _ Hs _).
  - intros c1 c2 (HA & G & T) Hstep. split; [by eapply step_alive|]. split; [by eapply step_guards|by eapply step_turns].
  - split; [done|]. split; [apply guards_new|done].
Qed.

(** *** Every other section has an answer *)

Lemma oldest_exists (tasks : Tasks) : ∃ victim, oldest_terminal tasks victim.
Proof.
  induction tasks as [|id e tasks Hnew IH] using map_ind; [by exists None|].
  destruct IH as [[v|] Hv]; destruct (is_live e) eqn:El.
  - destruct Hv as (e0 & He0 & Hl0 & Hmin). exists (Some v), e0. split; [by rewrite lookup_insert_ne by congruence|]. split; [done|].
    intros j e' [[<- <-]|[_ Hj]]%lookup_insert_Some; [congruence|by eapply Hmin].
  - destruct Hv as (e0 & He0 & Hl0 & Hmin). destruct (Z.le_ge_cases (tr_started_at (en_run e)) (tr_started_at (en_run e0))) as [Hle|Hge].
    + exists (Some id), e. rewrite lookup_insert_eq. split; [done|]. split; [done|].
      intros j e' [[<- <-]|[_ Hj]]%lookup_insert_Some Hf; [lia|]. specialize (Hmin _ _ Hj Hf). lia.
    + exists (Some v), e0. split; [by rewrite lookup_insert_ne by congruence|]. split; [done|].
      intros j e' [[<- <-]|[_ Hj]]%lookup_insert_Some Hf; [lia|by eapply Hmin].
  - exists None. intros j e' [[<- <-]|[_ Hj]]%lookup_insert_Some; [done|by eapply Hv].
  - exists (Some id), e. rewrite lookup_insert_eq. split; [done|]. split; [done|].
    intros j e' [[<- <-]|[_ Hj]]%lookup_insert_Some Hf; [lia|]. specialize (Hv _ _ Hj). congruence.
Qed.

Lemma token_or_none (e : Entries) s : (∃ t, parent_turn_token e s t) ∨ ∀ t, ¬ parent_turn_token e s t.
Proof.
  destruct (decide (map_Exists (λ _ entry, da_session_id (te_authority entry) = s) (by_engine_session e))) as [(id & entry & Hl & Hs)|Hno].
  - left. exists (te_cancel entry), id, entry. done.
  - right. intros t (id & entry & Hl & Hs & _). apply Hno. by exists id, entry.
Qed.

Lemma answerable {R} (c : RunCall R) w : is_acquire c = false → ∃ r w', run_call c w r w'.
Proof.
  destruct c; simpl; intros Ha; try done; try (exists (Err []); by eexists); try (exists tt; by eexists); try (by eexists _, _).
  - destruct (token_or_none (w_authorities w) session) as [[t Ht]|Hno]; [by exists (Some t), w|by exists None, w].
  - destruct (oldest_exists (w_tasks w)) as [victim Hv]. exists tt. eexists _, _. split; [|done].
    exists (if (MAX_TRACKED_TASKS <=? size (w_tasks w))%nat then victim else None). split; [by destruct (_ <=? _)%nat|done].
Qed.

(** *** A task goes on until it waits or is over *)

Definition settled (t : Thread) : bool :=
  match t with
  | Alive (Call c _) _ => is_acquire c || is_converse c
  | Alive (Ret _) _ => false
  | Ending h => spent h
  end.
Definition weight (t : Thread) : nat :=
  match t with Alive (Call c _) _ => if is_acquire c then 2 else if is_converse c then 1 else 0 | _ => 0 end.
(** What it may still wait for, by what it has done. *)
Definition rank (h : Held) : nat :=
  match h_id h, h_phase h with
  | None, NotRegistered => if h_queued h then 1 else 2
  | None, _ => 0
  | Some _, _ => if h_queued h then 0 else 2
  end.

Lemma weight_rank p h : proper p h → (weight (Alive p h) ≤ rank h)%nat.
Proof.
  destruct p as [|R c k]; [intros; simpl; lia|]. intros [Ha _]. destruct c; simpl in *; try lia; unfold rank.
  - destruct Ha as (_ & _ & -> & [(-> & -> & _)|([id ->] & _)]); lia.
  - destruct Ha as (-> & -> & _). destruct (h_queued h); lia.
Qed.

Lemma after_rank {R} (c : RunCall R) r h : allowed c h → (rank (after c r h) ≤ rank h)%nat.
Proof.
  intros Ha. destruct c; simpl in *; unfold rank; simpl; try lia.
  - destruct r; simpl; lia.
  - destruct Ha as (-> & _). simpl. lia.
  - destruct r; simpl; destruct (h_id h), (h_phase h), (h_queued h); lia.
  - destruct Ha as (-> & _). simpl. lia.
  - destruct Ha as (-> & -> & _). simpl. lia.
Qed.

Lemma insert_insert_same {A} (l : list A) i x y : <[i := y]> (<[i := x]> l) = <[i := y]> l.
Proof. apply list_insert_insert_eq. Qed.

Lemma unwind_all w ts i h : ts !! i = Some (Ending h) →
  ∃ w' h', star calm_step (w, ts) (w', <[i := Ending h']> ts) ∧ spent h' = true ∧ h_turn h' = h_turn h.
Proof.
  assert (∀ n w ts h, ((if h_bound h then 1 else 0) + (if h_hold h then 1 else 0) + (if h_permit h then 1 else 0) + (if h_reservation h then 1 else 0) = n)%nat →
    ts !! i = Some (Ending h) → ∃ w' h', star calm_step (w, ts) (w', <[i := Ending h']> ts) ∧ spent h' = true ∧ h_turn h' = h_turn h) as H;
    [|by eapply H].
  clear. intros n. induction (lt_wf n) as [n _ IH]. intros w ts h Hn Hl. destruct (unwind h w) as [[h1 w1]|] eqn:Eu.
  - assert (h_turn h1 = h_turn h) as Et by (unfold unwind in Eu; by repeat case_match; simplify_eq).
    destruct (IH ((if h_bound h1 then 1 else 0) + (if h_hold h1 then 1 else 0) + (if h_permit h1 then 1 else 0) + (if h_reservation h1 then 1 else 0))%nat
      ltac:(unfold unwind in Eu; destruct (h_bound h) eqn:?, (h_hold h) eqn:?, (h_permit h) as [[]|] eqn:?, (h_reservation h) as [[]|] eqn:?;
        simplify_eq/=; rewrite ?Heqo, ?Heqo0, ?Heqo1, ?Heqo2; lia) w1 (<[i := Ending h1]> ts) h1 eq_refl
      ltac:(by apply list_lookup_insert_eq; eapply lookup_lt_Some)) as (w' & h' & Hs & Hsp & Ht).
    rewrite insert_insert_same in Hs. exists w', h'. split; [|split; [done|congruence]].
    eapply star_step; [by eapply cm_unwind|exact Hs].
  - exists w, h. rewrite list_insert_id by done. split; [apply star_refl|]. split; [|done].
    unfold unwind in Eu. unfold spent. by repeat case_match.
Qed.

Lemma settle p : ∀ w ts i h, ts !! i = Some (Alive p h) → proper p h →
  ∃ w' t', star calm_step (w, ts) (w', <[i := t']> ts) ∧ settled t' = true ∧ h_turn (held t') = h_turn h ∧ (weight t' ≤ rank h)%nat.
Proof.
  induction p as [[]|R c k IH]; intros w ts i h Hl Hp.
  - destruct (unwind_all w (<[i := Ending h]> ts) i h) as (w' & h' & Hs & Hsp & Ht); [by apply list_lookup_insert_eq; eapply lookup_lt_Some|].
    rewrite insert_insert_same in Hs. exists w', (Ending h'). split; [eapply star_step; [by apply cm_return|exact Hs]|].
    split; [done|]. split; [done|]. simpl. lia.
  - destruct (is_acquire c || is_converse c) eqn:Ec.
    + exists w, (Alive (Call c k) h). rewrite list_insert_id by done. split; [apply star_refl|]. split; [done|]. split; [done|].
      by apply weight_rank.
    + apply orb_false_iff in Ec as [Ea Ec]. destruct Hp as [Hal Hk]. destruct (answerable c w Ea) as (r & w1 & Hr).
      destruct (IH r w1 (<[i := Alive (k r) (after c r h)]> ts) i (after c r h)) as (w' & t' & Hs & Hset & Ht & Hw); [|apply Hk|].
      { by apply list_lookup_insert_eq; eapply lookup_lt_Some. }
      rewrite insert_insert_same in Hs. exists w', t'. split; [|split; [done|split]].
      * eapply star_step; [eapply cm_call; [exact Hl|exact Hr|congruence]|exact Hs].
      * rewrite Ht. apply after_keeps.
      * pose proof (after_rank c r h Hal). lia.
Qed.

Lemma settle_all pretty n : ∀ w ts, reached pretty (w, ts) → (n ≤ length ts)%nat →
  ∃ w' ts', star calm_step (w, ts) (w', ts') ∧ length ts' = length ts ∧
    ∀ i t, (i < n)%nat → ts' !! i = Some t → settled t = true.
Proof.
  induction n as [|n IH]; intros w ts Hr Hn; [exists w, ts; split; [apply star_refl|]; split; [done|lia]|].
  destruct (IH w ts Hr ltac:(lia)) as (w1 & ts1 & Hs1 & Hlen & Hset).
  pose proof (reached_calm pretty _ _ Hr Hs1) as Hr1. pose proof (pool_reached_ok _ _ Hr1) as (HA & _ & _). simpl in HA.
  destruct (proj2 (lookup_lt_is_Some ts1 n) ltac:(lia)) as [t Hl].
  assert (∃ w' t', star calm_step (w1, ts1) (w', <[n := t']> ts1) ∧ settled t' = true) as (w' & t' & Hs & Ht').
  { destruct t as [p h|h].
    - destruct (settle p w1 ts1 n h Hl (HA _ _ _ Hl)) as (w' & t' & ? & ? & _). by exists w', t'.
    - destruct (unwind_all w1 ts1 n h Hl) as (w' & h' & ? & ? & _). by exists w', (Ending h'). }
  exists w', (<[n := t']> ts1). split; [by eapply star_trans|]. split; [by rewrite length_insert|].
  intros i u Hi [(-> & -> & _)|[Hne Hu]]%list_lookup_insert_Some; [done|]. apply (Hset i u); [lia|done].
Qed.

Definition all_settled (ts : list Thread) : Prop := ∀ i t, ts !! i = Some t → settled t = true.
Definition weights (ts : list Thread) : nat := foldr (λ t n, (weight t + n)%nat) 0%nat ts.

Lemma weights_insert ts i t t' : ts !! i = Some t → (weights (<[i := t']> ts) + weight t = weights ts + weight t')%nat.
Proof.
  revert i. induction ts as [|u ts IH]; intros [|i] Hl; simplify_eq/=; [lia|]. specialize (IH i Hl). lia.
Qed.

(** A settled task takes the step it waits for and settles again: less is waited for. *)
Lemma go_on w ts i R (c : RunCall R) k h r w' :
  alive_ok ts → all_settled ts → ts !! i = Some (Alive (Call c k) h) → run_call c w r w' →
  (is_converse c = true → pending ts i = false) → is_acquire c = true ∨ is_converse c = true →
  ∃ w2 ts2, star calm_step (w, ts) (w2, ts2) ∧ all_settled ts2 ∧ (weights ts2 < weights ts)%nat ∧ length ts2 = length ts.
Proof.
  intros HA Hset Hl Hr Hc Hwhich. destruct (HA _ _ _ Hl) as [Hal Hk].
  destruct (settle (k r) w' (<[i := Alive (k r) (after c r h)]> ts) i (after c r h)) as (w2 & t2 & Hs & Ht2 & _ & Hw2); [|apply Hk|].
  { by apply list_lookup_insert_eq; eapply lookup_lt_Some. }
  rewrite insert_insert_same in Hs. exists w2, (<[i := t2]> ts).
  split; [eapply star_step; [by eapply cm_call|exact Hs]|]. split; [|split; [|by rewrite length_insert]].
  - intros j u [(-> & -> & _)|[_ Hu]]%list_lookup_insert_Some; [done|by eapply Hset].
  - pose proof (weights_insert ts i _ t2 Hl) as Hw. simpl in Hw.
    assert (rank (after c r h) < (if is_acquire c then 2 else if is_converse c then 1 else 0))%nat as Hrank; [|lia].
    destruct c; simpl in *; try (by destruct Hwhich); unfold rank.
    + destruct Hal as (_ & _ & _ & [(Hid & Hph & _)|([id Hid] & _)]); destruct r; simpl; rewrite Hid, ?Hph; lia.
    + destruct Hal as (Hid & _). simpl. rewrite Hid. lia.
Qed.

(** Whoever has permits of a semaphore, once all are settled, is a turn that converses. *)
Lemma settled_holder w ts i t x n : alive_ok ts → guards_ok w ts → all_settled ts → ts !! i = Some t →
  h_permit (held t) = Some (x, n) → x = SEM_PROCESS ∧ is_Some (h_hold (held t)) ∧ is_Some (conversing t).
Proof.
  intros HA G Hset Hl Hp. specialize (Hset i t Hl). destruct t as [[|R c k] h|h]; simpl in *; [done| |].
  - destruct (HA _ _ _ Hl) as [Hal _]. destruct c; simpl in *; try done; [destruct Hal; congruence|].
    destruct Hal as (_ & _ & [Hno|Hh]); [congruence|]. destruct (gk_hold _ _ G i _ Hl _ Hh) as [Hp' _]. simpl in Hp'.
    split; [congruence|]. by rewrite Hh.
  - unfold spent in Hset. rewrite Hp in Hset. by repeat case_match.
Qed.

Lemma free_permits w ts x s : guards_ok w ts → w_semaphores w !! x = Some s →
  (∀ i t n, ts !! i = Some t → h_permit (held t) ≠ Some (x, n)) → sem_free s = capacity s.
Proof.
  intros G Hs Hno. pose proof (sk_count _ _ (gk_semaphores _ _ G) x s Hs) as H. rewrite total_zero in H; [lia|].
  intros i t Hl. unfold permits_of. destruct (h_permit (held t)) as [[y n]|] eqn:E; [|done].
  destruct (decide (y = x)) as [->|]; [|done]. by destruct (Hno i t n Hl).
Qed.

Lemma acquire_answer w device needed cancel s : w_semaphores w !! device = Some s → needed ≤ sem_free s →
  ∃ r w', run_call (AcquireMany device needed cancel) w r w'.
Proof.
  intros Hs Hn. simpl. destruct (is_cancelled w cancel); [by exists false, w|]. exists true. eexists. by exists s.
Qed.

(** A helper that waits for its siblings' permit can have it. *)
Lemma sibling_goes_on w ts i device needed cancel k h : alive_ok ts → guards_ok w ts → all_settled ts →
  ts !! i = Some (Alive (Call (AcquireMany device needed cancel) k) h) → h_inherits h ≠ Some None → is_Some (h_id h) →
  ∃ r w', run_call (AcquireMany device needed cancel) w r w'.
Proof.
  intros HA G Hset Hl Hno [id Hid]. destruct (HA _ _ _ Hl) as [(_ & _ & _ & [(? & _)|(_ & [(_ & ? & _)|[-> [s Hs]]] & _)]) _]; [congruence|done|].
  destruct (gk_inherits _ _ G i _ Hl device s Hs) as (sem & Hx & Hse). eapply acquire_answer; [exact Hx|].
  rewrite (free_permits w ts device sem G Hx); [unfold capacity; by rewrite Hse|].
  intros j t n Hj Hp. destruct (settled_holder w ts j t device n HA G Hset Hj Hp) as (-> & _ & _).
  destruct (sk_process _ _ (gk_semaphores _ _ G)) as (s' & Hs' & Hn'). congruence.
Qed.

Lemma needed_bound device needed cancel h : allowed (AcquireMany device needed cancel) h → device = SEM_PROCESS → needed ≤ SUBAGENT_PERMITS.
Proof.
  intros (_ & _ & _ & [(_ & _ & _ & ->)|(_ & [(_ & _ & p & _ & ->)|[-> _]] & _)]) _; unfold SUBAGENT_PERMITS, REMOTE_SUBAGENT_CONCURRENCY; [done| |lia].
  destruct (subagent_permits_cases p) as [[_ ->]|[_ ->]]; lia.
Qed.

(** A turn that cannot end yet waits for a helper that waits for a permit; if the turn has the device
    it is a permit of the helper's siblings. *)
Lemma pending_waits ts j u : alive_ok ts → turns_ok ts → all_settled ts → ts !! j = Some u → is_Some (conversing u) →
  pending ts j = true →
  ∃ m device needed cancel k h, ts !! m = Some (Alive (Call (AcquireMany device needed cancel) k) h) ∧ is_Some (h_id h) ∧
    (is_Some (h_hold (held u)) → h_inherits h ≠ Some None).
Proof.
  intros HA T Hset Hj [s' Hcv] Hp. apply existsb_elem_of in Hp as (t & [m Hm]%list_elem_of_lookup & Ht). unfold awaited_by in Ht.
  destruct (h_turn (held t)) as [[j' s]|] eqn:Et; [|done]. apply andb_prop in Ht as [->%Nat.eqb_eq Hov%negb_true_iff].
  destruct (T m t j s Hm Et) as (Hid & u' & Hu' & Hcase). rewrite Hj in Hu'. injection Hu' as <-.
  assert (is_Some (h_hold (held u)) → h_inherits (held t) ≠ Some None) as Hinh.
  { destruct Hcase as [Hpast|[_ H]]; [|done]. destruct u as [[|R c k] h|h]; try done. destruct c; try done.
    destruct (HA _ _ _ Hj) as [(_ & Hph & _) _]. simpl in Hpast. congruence. }
  specialize (Hset m t Hm). destruct t as [[|R c k] h|h]; simpl in *; [done| |congruence].
  destruct c; try done; [by exists m, device, needed, cancel, k, h|].
  destruct (HA _ _ _ Hm) as [(Hno & _) _]. simpl in Hno. destruct Hid. congruence.
Qed.

Lemma acquirer_goes_on w ts i device needed cancel k h : alive_ok ts → guards_ok w ts → all_settled ts →
  ts !! i = Some (Alive (Call (AcquireMany device needed cancel) k) h) → total (permits_of SEM_PROCESS) ts = 0 →
  ∃ r w', run_call (AcquireMany device needed cancel) w r w'.
Proof.
  intros HA G Hset Hl Hz. destruct (HA _ _ _ Hl) as [Ha _]. destruct (decide (device = SEM_PROCESS)) as [->|Hne].
  - destruct (sk_process _ _ (gk_semaphores _ _ G)) as (s & Hs & Hn). eapply acquire_answer; [exact Hs|].
    pose proof (sk_count _ _ (gk_semaphores _ _ G) _ s Hs) as H. unfold capacity in H. rewrite Hn in H.
    pose proof (needed_bound _ _ _ _ Ha eq_refl). lia.
  - destruct Ha as (_ & _ & _ & [(_ & _ & ? & _)|(Hid & Hfit & _)]); [done|].
    eapply sibling_goes_on; [done..| |done]. destruct Hfit as [[? _]|[_ [s ->]]]; done.
Qed.

Definition goes_on (w : World) (ts : list Thread) : Prop :=
  ∃ i R (c : RunCall R) k h r w', ts !! i = Some (Alive (Call c k) h) ∧ run_call c w r w' ∧
    (is_converse c = true → pending ts i = false) ∧ (is_acquire c = true ∨ is_converse c = true).

Lemma acquire_goes_on w ts i device needed cancel k h :
  ts !! i = Some (Alive (Call (AcquireMany device needed cancel) k) h) →
  (∃ r w', run_call (AcquireMany device needed cancel) w r w') → goes_on w ts.
Proof. intros Hl (r & w' & Hr). exists i, bool, (AcquireMany device needed cancel), k, h, r, w'. split; [done|]. split; [done|]. split; [done|by left]. Qed.

Lemma turn_goes_on w ts i u : ts !! i = Some u → is_Some (conversing u) → pending ts i = false → goes_on w ts.
Proof.
  intros Hl [s Hc] Hp. destruct u as [[|R c k] h|h]; try done. simpl in Hc. destruct c as [| | | | | | | | | | | | | | | | | | |s0]; try done.
  exists i, unit, (Converse s0), k, h, tt, w. split; [done|]. split; [done|]. split; [done|by right].
Qed.

(** Somebody can always go on. *)
Lemma somebody_goes_on w ts : alive_ok ts → guards_ok w ts → turns_ok ts → all_settled ts → weights ts ≠ 0%nat → goes_on w ts.
Proof.
  intros HA G T Hset Hw. destruct (decide (total (permits_of SEM_PROCESS) ts = 0)) as [Hz|Hnz].
  - assert (∃ i t, ts !! i = Some t ∧ weight t ≠ 0%nat) as (i & t & Hl & Ht).
    { clear -Hw. induction ts as [|t ts IH]; [done|]. simpl in Hw. destruct (decide (weight t = 0%nat)) as [E|E]; [|by exists 0%nat, t].
      destruct IH as (i & u & Hl & Hu); [lia|]. by exists (S i), u. }
    destruct t as [[|R c k] h|h]; simpl in Ht; try done. destruct c; simpl in Ht; try done.
    + eapply acquire_goes_on; [exact Hl|by eapply acquirer_goes_on].
    + destruct (pending ts i) eqn:Hp; [|by eapply turn_goes_on].
      destruct (pending_waits ts i _ HA T Hset Hl ltac:(by eexists) Hp) as (m & d & n & cn & k' & h' & Hm & _).
      eapply acquire_goes_on; [exact Hm|by eapply acquirer_goes_on].
  - destruct (total_witness _ _ Hnz) as (i & u & Hl & Hu).
    assert (∃ n, h_permit (held u) = Some (SEM_PROCESS, n)) as [n Hp].
    { unfold permits_of in Hu. destruct (h_permit (held u)) as [[y n]|]; [|done]. destruct (decide _) as [->|]; [by exists n|done]. }
    destruct (settled_holder w ts i u _ n HA G Hset Hl Hp) as (_ & Hhold & Hcv).
    destruct (pending ts i) eqn:Hpend; [|by eapply turn_goes_on].
    destruct (pending_waits ts i u HA T Hset Hl Hcv Hpend) as (m & d & nn & cn & k' & h' & Hm & Hid & Hinh).
    eapply acquire_goes_on; [exact Hm|]. eapply sibling_goes_on; [done..|by apply Hinh|done].
Qed.

Lemma run_all pretty n : ∀ w ts, reached pretty (w, ts) → all_settled ts → (weights ts <= n)%nat →
  ∃ w' ts', star calm_step (w, ts) (w', ts') ∧ length ts' = length ts ∧ ∀ t, t ∈ ts' → over t = true.
Proof.
  induction n as [|n IH]; intros w ts Hr Hset Hn; pose proof (pool_reached_ok _ _ Hr) as (HA & G & T); simpl in HA, G, T.
  - exists w, ts. split; [apply star_refl|]. split; [done|]. intros t [i Hl]%list_elem_of_lookup. specialize (Hset i t Hl).
    destruct t as [p h|h]; [|done]. exfalso. pose proof (weights_insert ts i _ (Ending h) Hl) as Hw. simpl in Hw, Hset.
    destruct p as [|R c k]; [done|]. destruct (is_acquire c), (is_converse c); simpl in *; try done; lia.
  - destruct (decide (weights ts = 0%nat)) as [E|E]; [by apply IH; [| |lia]|].
    destruct (somebody_goes_on w ts HA G T Hset E) as (i & R & c & k & h & r & w1 & Hl & Hrc & Hc & Hwh).
    destruct (go_on w ts i R c k h r w1 HA Hset Hl Hrc Hc Hwh) as (w2 & ts2 & Hs & Hset2 & Hlt & Hlen).
    destruct (IH w2 ts2 (reached_calm _ _ _ Hr Hs) Hset2 ltac:(lia)) as (w3 & ts3 & Hs3 & Hlen3 & Hov).
    exists w3, ts3. split; [by eapply star_trans|]. split; [congruence|done].
Qed.

(** C16: no delegation waits for ever. From every moment that can come about, all turns and helpers
    there are can run to their ends by themselves: nothing is dropped, and no turn's conversation ends
    before the helpers it waits for. So no helper waits for its own parent, whichever permits its
    parent, its siblings and the other sessions have; and once all have ended every permit is free,
    nothing is reserved and no session has the device. *)
Theorem no_delegation_deadlocks pretty w ts : reached pretty (w, ts) →
  ∃ w' ts', star calm_step (w, ts) (w', ts') ∧ length ts' = length ts ∧ (∀ t, t ∈ ts' → over t = true) ∧
    (∀ x s, w_semaphores w' !! x = Some s → sem_free s = capacity s) ∧
    dl_reservations (w_ledger w') = ∅ ∧ dl_device_holders (w_ledger w') = ∅.
Proof.
  intros Hr. destruct (settle_all pretty (length ts) w ts Hr ltac:(lia)) as (w1 & ts1 & Hs1 & Hlen1 & Hset1).
  pose proof (reached_calm _ _ _ Hr Hs1) as Hr1.
  destruct (run_all pretty (weights ts1) w1 ts1 Hr1) as (w2 & ts2 & Hs2 & Hlen2 & Hov); [|done|].
  { intros i t Hl. apply (Hset1 i t); [|done]. rewrite <-Hlen1. by eapply lookup_lt_Some. }
  exists w2, ts2. split; [by eapply star_trans|]. split; [congruence|]. split; [done|].
  destruct (pool_reached_ok _ _ (reached_calm _ _ _ Hr1 Hs2)) as (_ & G & _). simpl in G.
  assert (∀ i t, ts2 !! i = Some t → h_hold (held t) = None ∧ h_permit (held t) = None ∧ h_reservation (held t) = None) as Hno.
  { intros i t Hl. specialize (Hov t (list_elem_of_lookup_2 _ _ _ Hl)). destruct t as [|h]; [done|]. simpl in *. unfold spent in Hov.
    by repeat case_match. }
  split; [|split].
  - intros x s Hs. apply (free_permits w2 ts2 x s G Hs). intros i t n Hl. destruct (Hno i t Hl) as (_ & -> & _). done.
  - apply map_eq. intros s. rewrite lookup_empty. destruct (gk_reservations _ _ G s) as [Hne R].
    specialize (R (λ _, true) ltac:(done)). rewrite total_zero in R.
    + unfold counted in R. rewrite filter_true in R by done. destruct (_ !! s) as [[|]|]; [done|simpl in R; lia|done].
    + intros i t Hl. apply reserves_of_none. by apply (Hno i).
  - apply map_eq. intros s. rewrite lookup_empty. destruct (_ !! s) as [st|] eqn:Es; [|done].
    destruct (entry_holder w2 ts2 s st G Es) as (i & t & Hl & Hh). destruct (Hno i t Hl) as (E & _). congruence.
Qed.

(** ** Runs *)

Section script.
Context (to_string_pretty : Json → text) (env : ChildEnvironment) (outcome : ChildOutcome).

(** An engine that answers every call at once; [None] where a task has to wait. *)
Definition answer {R} (c : RunCall R) (w : World) : option (R * World) :=
  match c in RunCall R return option (R * World) with
  | ParentTurnToken s =>
      Some (te_cancel ∘ snd <$> find_first (λ e, bool_decide (da_session_id (te_authority e.2) = s))
              (map_to_list (by_engine_session (w_authorities w))), w)
  | Reserve s f => Some (tt, set_ledger (reserve s f (w_ledger w)) w)
  | GetEnvironment _ => Some (Ok env, w)
  | NewToken => Some (OwnToken (w_tokens w), count_token w)
  | DeriveToken parent => Some (ChildToken (w_tokens w) parent, count_token w)
  | OpenChildSession role => Some (Ok (lit "child-" ++ role), w)
  | ReleaseChild _ => Some (tt, w)
  | Now => Some (w_now w, w)
  | InsertRun run cancel =>
      if (MAX_TRACKED_TASKS <=? size (w_tasks w))%nat then None
      else Some (tt, set_tasks (<[tr_id run := {| en_run := run; en_cancel := cancel |}]> (w_tasks w)) w)
  | ReportProgress frame => Some (tt, set_bus (publish_frame frame (w_bus w)) w)
  | SpawnTask _ => Some (tt, w)
  | InheritedPermits s => Some (inherited_child_permits s (w_ledger w), w)
  | AcquireMany device needed cancel =>
      if is_cancelled w cancel then Some (false, w) else
      match w_semaphores w !! device with
      | Some s => if needed <=? sem_free s
                  then Some (true, set_semaphores (alter (take_permits needed) device (w_semaphores w)) w) else None
      | None => None
      end
  | StartRun id => Some (tt, set_tasks (start_run id (w_tasks w)) w)
  | BindChild child parent scope => Some (tt, set_children (<[child := (parent, scope)]> (w_children w)) w)
  | RunChild _ _ _ _ => Some (Ok outcome, w)
  | IsCancelled t => Some (is_cancelled w t, w)
  | FinishRun id status res err => Some (tt, set_tasks (finish_run id status res err (w_now w) (w_tasks w)) w)
  | HoldDevice s =>
      Some (tt, set_ledger (hold_device s (length (w_semaphores w)) (w_ledger w))
             (match dl_device_holders (w_ledger w) !! s with
              | Some _ => w
              | None => set_semaphores (w_semaphores w ++ [{| sem_free := 1; sem_session := Some s |}]) w
              end))
  | Converse _ => Some (tt, w)
  end.

Lemma answer_sound {R} (c : RunCall R) w r w' : answer c w = Some (r, w') → run_call c w r w'.
Proof.
  destruct c; cbn [answer run_call]; intros H; try (by injection H as <- <-).
  - injection H as <- <-. split; [done|]. destruct (find_first _ _) as [[id e]|] eqn:E; simpl.
    + apply find_some_iff in E as [Hin%elem_of_map_to_list Hs%bool_decide_eq_true]. by exists id, e.
    + rewrite find_first_None in E. intros t (id & e & Hl & Hs & _). apply elem_of_map_to_list in Hl. specialize (E _ Hl).
      by apply bool_decide_eq_false in E.
  - destruct (MAX_TRACKED_TASKS <=? _)%nat eqn:E; [done|]. injection H as <- <-. eexists. split; [|done]. exists None. by rewrite E.
  - destruct (is_cancelled w cancel); [by injection H as <- <-|]. destruct (_ !! device) as [s|]; [|done].
    destruct (N.leb_spec needed (sem_free s)); [|done]. injection H as <- <-. by exists s.
Qed.

Inductive Move : Type :=
| Go (i : nat) | DropTask (i : nat) | Delegate (spec : TaskSpec) (from : option (nat * text))
| StartTurn (session provider : text) (cancel : CancellationToken) | CancelRun (id : text).

Definition is_conversing_in (s : text) (t : Thread) : bool :=
  match t with Alive (Call c _) _ => match c with Converse s' => bool_decide (s' = s) | _ => false end | _ => false end.

Definition make_move (m : Move) (c : Pool) : option Pool :=
  let '(w, ts) := c in
  match m with
  | Go i =>
      match ts !! i with
      | Some (Alive (Ret tt) h) => Some (w, <[i := Ending h]> ts)
      | Some (Alive (Call c k) h) =>
          match answer c w with Some (r, w') => Some (w', <[i := Alive (k r) (after c r h)]> ts) | None => None end
      | Some (Ending h) => match unwind h w with Some (h', w') => Some (w', <[i := Ending h']> ts) | None => None end
      | None => None
      end
  | DropTask i =>
      match ts !! i with
      | Some (Alive (Call c k) h) =>
          if awaited c && negb (h_detached h) then Some (lose h w, <[i := Ending (abandoned h)]> ts) else None
      | _ => None
      end
  | Delegate spec from =>
      if negb (bool_decide (ts_id spec ∈ w_ids w)) && is_number (ts_context_fraction spec) &&
         match from with
         | Some (j, s) => bool_decide (s = ts_parent_session_id spec) &&
             match ts !! j with Some t => is_conversing_in s t | None => false end
         | None => true
         end
      then Some (set_ids ({[ts_id spec]} ∪ w_ids w) (w_lost w) w,
                 ts ++ [Alive (spawn_task to_string_pretty spec) (nothing_held (Some (ts_id spec)) from)])
      else None
  | StartTurn session provider cancel => Some (w, ts ++ [Alive (turn session provider cancel) (nothing_held None None)])
  | CancelRun id => Some (cancel_run id w, ts)
  end.

Lemma make_move_sound m c c' : make_move m c = Some c' → pool_step to_string_pretty c c'.
Proof.
  destruct c as [w ts]. destruct m as [i|i|spec from|session provider cancel|id]; simpl; intros H.
  - destruct (ts !! i) as [[[[]|R c k] h|h]|] eqn:El; [| | |done].
    + injection H as <-. by apply ps_return.
    + destruct (answer c w) as [[r w']|] eqn:E; [|done]. injection H as <-. eapply ps_call; [exact El|by apply answer_sound].
    + destruct (unwind h w) as [[h' w']|] eqn:E; [|done]. injection H as <-. by eapply ps_unwind.
  - destruct (ts !! i) as [[[[]|R c k] h|h]|] eqn:El; try done. destruct (awaited c) eqn:Ea, (h_detached h) eqn:Ed; try done.
    injection H as <-. by eapply ps_dropped.
  - destruct (bool_decide _) eqn:Ei; [done|]. apply bool_decide_eq_false in Ei. simpl in H.
    destruct (is_number _) eqn:En; [|done]. simpl in H.
    destruct from as [[j s]|]; [|injection H as <-; by apply ps_spawn].
    destruct (bool_decide _) eqn:Es; [|done]. apply bool_decide_eq_true in Es. simpl in H.
    destruct (ts !! j) as [[[|R c k] h|h]|] eqn:Ej; try done. simpl in H. 
    destruct c; try done. destruct (bool_decide _) eqn:E2; [|done]. apply bool_decide_eq_true in E2 as ->.
    injection H as <-. apply ps_spawn; [done|done|]. split; [done|]. by exists k, h.
  - injection H as <-. apply ps_turn.
  - injection H as <-. apply ps_cancel.
Qed.

Fixpoint make_moves (ms : list Move) (c : Pool) : option Pool :=
  match ms with
  | [] => Some c
  | m :: ms => match make_move m c with Some c => make_moves ms c | None => None end
  end.

Lemma make_moves_sound ms c c' : make_moves ms c = Some c' → star (pool_step to_string_pretty) c c'.
Proof.
  revert c. induction ms as [|m ms IH]; intros c; simpl; [intros [= ->]; apply star_refl|].
  destruct (make_move m c) as [c1|] eqn:E; [|done]. intros H. eapply star_step; [by apply (make_move_sound m)|by apply IH].
Qed.
End script.

(** A household whose model runs on the device, two members in conversation. *)
Definition local_env : ChildEnvironment := child_environment (lit "local") [] scout_listed.
Definition found : ChildOutcome := {| co_last_text := Some (lit "Two seats left."); co_assistant_turns := 2; co_loaded_extensions := ∅ |}.
Definition errand (id session : text) : TaskSpec :=
  {| ts_id := id; ts_role := lit "scout"; ts_instructions := lit "Find flights"; ts_inputs := JNull; ts_parent_session_id := session;
     ts_scope := Guest; ts_tool_groups := {[lit "giap-knowledge"]}; ts_read_tools := ∅; ts_withheld := ∅; ts_depth := 1;
     ts_max_turns := 6; ts_context_fraction := Finite (1 # 2); ts_model := None; ts_background := false;
     ts_compile_shape := None; ts_prefill_retention := None; ts_prefill_rebuild := false; ts_persona := []; ts_nudge := None |}.
Definition live_turns : Entries :=
  publish (publish Entries_default (lit "e1") (authority_root (lit "s1") Household ∅) 1) (lit "e2")
    (authority_root (lit "s2") Household ∅) 2.

Definition run_moves (ms : list Move) : option Pool := make_moves (λ _, []) local_env found ms (world_new live_turns 0, []).

Lemma run_moves_reached ms c : run_moves ms = Some c → reached (λ _, []) c.
Proof. intros H. exists live_turns, 0%Z. by eapply make_moves_sound. Qed.

(** A turn takes the device and delegates; its helper is at work. *)
Definition one_helper : list Move :=
  [StartTurn (lit "s1") (lit "local") 1; Go 0; Go 0; Delegate (errand (lit "a") (lit "s1")) (Some (0%nat, lit "s1"))] ++ replicate 13 (Go 1).
(** Were the turn's future dropped but not its helper's, another session's helper would work beside it. *)
Definition two_helpers : list Move :=
  one_helper ++ [DropTask 0; Go 0; Go 0; StartTurn (lit "s2") (lit "local") 2; Go 2; Go 2;
                 Delegate (errand (lit "b") (lit "s2")) (Some (2%nat, lit "s2"))] ++ replicate 13 (Go 3).

Definition pool_of (ms : list Move) : Pool := default (world_new live_turns 0, []) (run_moves ms).
Definition at_work_now (c : Pool) : list (option text) := (λ t, cp_parent_session_id <$> at_work t) <$> c.2.

Example an_orphan_works_beside_another :
  (if run_moves two_helpers then true else false) = true ∧
  at_work_now (pool_of one_helper) = [None; Some (lit "s1")] ∧
  at_work_now (pool_of two_helpers) = [None; Some (lit "s1"); None; Some (lit "s2")] ∧
  forallb (λ t, negb (bool_decide (is_Some (at_work t))) || on_device (held t)) (pool_of two_helpers).2 = true.
Proof. split; [vm_compute; reflexivity|]. split; [vm_compute; reflexivity|]. split; vm_compute; reflexivity. Qed.

(** ** Witnesses *)

Lemma pool_reached ms : (if run_moves ms then true else false) = true → reached (λ _, []) ((pool_of ms).1, (pool_of ms).2).
Proof.
  unfold pool_of. destruct (run_moves ms) as [c|] eqn:E; [|done]. intros _. simpl. rewrite <-surjective_pairing. by eapply run_moves_reached.
Qed.

Definition works_here (c : Pool) (i : nat) : bool :=
  match c.2 !! i with Some t => bool_decide (is_Some (at_work t)) && on_device (held t) | None => false end.

Lemma works_here_spec c i : works_here c i = true → ∃ t plan, c.2 !! i = Some t ∧ at_work t = Some plan ∧ on_device (held t) = true.
Proof.
  unfold works_here. destruct (c.2 !! i) as [t|]; [|done]. intros [[plan Hp]%bool_decide_eq_true Hd]%andb_prop. by exists t, plan.
Qed.

Lemma device_is_shared_out_witness :
  ∃ t u, (pool_of two_helpers).2 !! 1%nat = Some t ∧ (pool_of two_helpers).2 !! 3%nat = Some u ∧
    (orphaned (pool_of two_helpers).1 (held t) ∨ orphaned (pool_of two_helpers).1 (held u)).
Proof.
  destruct (works_here_spec (pool_of two_helpers) 1) as (t & plan & Ht & Hw & Hd); [vm_compute; reflexivity|].
  destruct (works_here_spec (pool_of two_helpers) 3) as (u & plan' & Hu & Hw' & Hd'); [vm_compute; reflexivity|].
  exists t, u. split; [exact Ht|]. split; [exact Hu|].
  destruct (device_is_shared_out (λ _, []) (pool_of two_helpers).1 (pool_of two_helpers).2) as (H & _).
  - apply pool_reached. vm_compute. reflexivity.
  - apply (H 1%nat 3%nat t u plan plan'); [discriminate|assumption..].
Defined.

Lemma reservations_follow_helpers_witness :
  live_children (lit "s1") (w_ledger (pool_of one_helper).1) = 1%nat ∧
  total (reserves_of (lit "s1") (λ _, true)) (pool_of one_helper).2 = 1.
Proof.
  split; [vm_compute; reflexivity|].
  destruct (reservations_follow_helpers (λ _, []) (pool_of one_helper).1 (pool_of one_helper).2 (lit "s1")) as (H & _).
  - apply pool_reached. vm_compute. reflexivity.
  - rewrite <-H. vm_compute. reflexivity.
Defined.

Definition drives_here (c : Pool) (i : nat) (id : text) (cancel : Token) : bool :=
  match c.2 !! i with
  | Some t => bool_decide (h_id (held t) = Some id) &&
      match h_phase (held t) with Registered c => bool_decide (c = cancel) | _ => false end
  | None => false
  end.

Lemma drives_here_spec c i id cancel : drives_here c i id cancel = true → ∃ t, c.2 !! i = Some t ∧ drives id cancel (held t).
Proof.
  unfold drives_here. destruct (c.2 !! i) as [t|]; [|done]. intros [Hid%bool_decide_eq_true Hp]%andb_prop. exists t. split; [done|].
  split; [done|]. destruct (h_phase (held t)) as [|c'|]; try done. apply bool_decide_eq_true in Hp. by rewrite Hp.
Qed.

Lemma live_runs_can_be_stopped_witness :
  is_cancelled (cancel_run (lit "a") (pool_of one_helper).1) (ChildToken 0 1) = true.
Proof.
  destruct (drives_here_spec (pool_of one_helper) 1 (lit "a") (ChildToken 0 1)) as (t & Ht & Hd); [vm_compute; reflexivity|].
  destruct (live_runs_can_be_stopped (λ _, []) (pool_of one_helper).1 (pool_of one_helper).2) as (H & _).
  - apply pool_reached. vm_compute. reflexivity.
  - destruct (H 1%nat t (lit "a") (ChildToken 0 1) Ht Hd) as (e & _ & _ & _ & Hc & _). exact Hc.
Defined.

Lemma no_delegation_deadlocks_witness :
  ∃ w' ts', star calm_step ((pool_of one_helper).1, (pool_of one_helper).2) (w', ts') ∧ (∀ t, t ∈ ts' → over t = true).
Proof.
  destruct (no_delegation_deadlocks (λ _, []) (pool_of one_helper).1 (pool_of one_helper).2) as (w' & ts' & Hs & _ & Ho & _).
  - apply pool_reached. vm_compute. reflexivity.
  - exists w', ts'. split; [exact Hs|exact Ho].
Defined.

(** An engine that answers alike whatever was asked before. *)
Definition fixed_answer : Handler RunCall unit := λ R c s,
  (match c in RunCall R return R with
   | ParentTurnToken _ => Some 1 | GetEnvironment _ => Ok local_env | NewToken => OwnToken 0 | DeriveToken parent => ChildToken 0 parent
   | OpenChildSession _ => Ok (lit "child-1") | Now => 0%Z | InheritedPermits _ => None | AcquireMany _ _ _ => true
   | RunChild _ _ _ _ => Ok found | IsCancelled _ => false
   | Reserve _ _ | ReleaseChild _ | InsertRun _ _ | ReportProgress _ | SpawnTask _ | StartRun _ | BindChild _ _ _
   | FinishRun _ _ _ _ | HoldDevice _ | Converse _ => tt
   end, s).

Definition errand_trail : trail * result TaskRun SpawnError := trace fixed_answer (spawn (λ _, []) (errand (lit "a") (lit "s1"))) tt.

Lemma spawn_keeps_its_books_witness :
  omap written errand_trail.1 = [(lit "a", SubagentStatus.Queued); (lit "a", SubagentStatus.Running); (lit "a", SubagentStatus.Completed)] ∧
  omap told errand_trail.1 = [(lit "a", SubagentStatus.Queued); (lit "a", SubagentStatus.Running); (lit "a", SubagentStatus.Completed)].
Proof.
  assert (omap written errand_trail.1 = [(lit "a", SubagentStatus.Queued); (lit "a", SubagentStatus.Running); (lit "a", SubagentStatus.Completed)]) as Hw
    by (vm_compute; reflexivity).
  split; [exact Hw|]. rewrite <-Hw. symmetry.
  destruct (spawn_keeps_its_books (λ _, []) (errand (lit "a") (lit "s1")) errand_trail.1 errand_trail.2) as [H _].
  - exact (trace_path fixed_answer (spawn (λ _, []) (errand (lit "a") (lit "s1"))) tt).
  - exact H.
Defined.

(** A background run on a provider of its own is answered as queued, where the port says running. *)
Definition background_errand : TaskSpec :=
  {| ts_id := lit "a"; ts_role := lit "scout"; ts_instructions := lit "Find flights"; ts_inputs := JNull;
     ts_parent_session_id := lit "s1"; ts_scope := Guest; ts_tool_groups := {[lit "giap-knowledge"]}; ts_read_tools := ∅;
     ts_withheld := ∅; ts_depth := 1; ts_max_turns := 6; ts_context_fraction := Finite (1 # 2); ts_model := None;
     ts_background := true; ts_compile_shape := None; ts_prefill_retention := None; ts_prefill_rebuild := false;
     ts_persona := []; ts_nudge := None |}.
Definition remote_answer : Handler RunCall unit := λ R c,
  match c in RunCall R return unit → R * unit with
  | GetEnvironment _ => λ s, (Ok (child_environment (lit "anthropic") [] scout_listed), s)
  | c => fixed_answer _ c
  end.

Example a_background_run_answers_queued :
  match (trace remote_answer (spawn (λ _, []) background_errand) tt).2 with
  | Ok run => tr_status run = TaskStatus.Queued ∧ tr_result run = None
  | Err _ => False
  end.
Proof. vm_compute. done. Qed.

(** A run whose future was dropped where it waited is never ended, so nothing ever evicts it. *)
Example a_dropped_run_stays_live :
  let c := pool_of (one_helper ++ [DropTask 1; Go 1; Go 1; Go 1]) in
  (if run_moves (one_helper ++ [DropTask 1; Go 1; Go 1; Go 1]) then true else false) = true ∧
  (tr_status <$> poll (lit "a") (w_tasks c.1)) = Some TaskStatus.Running ∧
  live_children (lit "s1") (w_ledger c.1) = 0%nat ∧ bool_decide (lit "a" ∈ w_lost c.1) = true.
Proof. vm_compute. done. Qed.

